(* ===== verification/_CoqProject ===== *)
-Q . S2P
Prelude.v
MonitorData.v
MonitorWire.v
AlarmProtocol.v
AlarmStream.v
MonitorStore.v
ModuleRegistry.v
MonitorReporter.v
WriteScheduler.v
DList.v
ArcPartition.v
ArcLru.v
ArcLfu.v
ArcCache.v
MonitorPolicy.v
TimerManager.v
FileSystem.v
AlarmSpool.v
AlarmSpoolSafety.v
SpoolLifecycle.v
SpoolQueue.v
SpoolNames.v
Effects.v
ReliablePublisher.v
PublisherSafety.v
PublisherProgress.v
PublisherClaims.v
WakePipe.v
Engine.v
ReliableCollector.v
CollectorSafety.v
CollectorRecovery.v
CollectorClaims.v
Callback.v
AioManager.v
EngineLoop.v
EngineSafety.v
EngineClaims.v
UdpPublisher.v
UdpReceiver.v
UdpClaims.v
CliRegistry.v
CliCommands.v
CliClaims.v
CliServer.v
CliServerSafety.v
CliServerClaims.v
CliListener.v
MetadataCache.v
MetadataSafety.v
MetadataClaims.v
NetBuffer.v
DiskTransfer.v
DiskSafety.v
DiskClaims.v
DiskShutdown.v
ThreadPool.v
PoolAccount.v
PoolSafety.v
PoolClaims.v
StorageSchema.v
StorageMonitor.v
