(* ===== verification/Prelude.v ===== *)
(** * TLSS: verification of the monitoring subsystem and of the core of the storage service

    TLSS is a file storage service in C++17. Its own logic is the monitoring
    subsystem ([src/monitor], [inc/monitor]) with what the service reports to it
    ([src/observability]), the write path and the buffers of its event loop
    ([src/common/net]), its thread pool ([src/common/base]), an adaptive cache
    ([inc/common/cache]), and, in the server ([src/ftp], [inc/ftp]), the cache of the
    metadata and the uploads to the disk. This library models that code as Rocq
    functions that can be run, and proves what makes it correct.

    ** The parts and how they interact

    Modules report values and errors to a _reporter_, which writes them to a
    _store_ and hands changes to publishers. Ordinary changes go out as UDP
    datagrams (_wire_). An error goes through the _reliable publisher_: the record
    becomes an alarm frame (_alarm protocol_), is stored in an outbox (_spool_) on
    the disk, and only then does the store change; a worker thread sends the outbox
    over TCP and removes an alarm when the _collector_ has acknowledged it. The
    collector decodes the stream (_stream decoder_), stores the alarm in its inbox
    (another spool), writes the record to its _engine_, and acknowledges. The engine
    also owns timers, sampling policies, the module registry and a loop over [select]
    that runs the callbacks of descriptors and timers; the server of the text
    _console_ is such a client of it. The storage service feeds the reporter with its
    _counters_ and _threshold alarms_.

    In the service itself, queries of the database go through the _metadata cache_,
    which keeps its entries in the adaptive cache; the bytes of a connection pass
    through a _buffer_; an upload is a _receiver_ on the loop of its connection whose
    disk operations a _disk executor_ runs on a _thread pool_.

    ** Files

    - [Prelude]: notation, machine integers, big-endian codecs, lists, sorted maps,
      tactics and hint databases shared by all files.
    - [MonitorData], [MonitorWire]: [monitor_data.h], [monitor_wire.cpp],
      [monitor_wire_detail.h]. Records, keys, datagrams V1 and V2.
    - [AlarmProtocol], [AlarmStream]: [alarm_protocol.cpp],
      [alarm_stream_decoder.cpp]. The alarm envelope with its CRC32 and the
      incremental decoder of a TCP stream.
    - [MonitorStore], [ModuleRegistry], [MonitorReporter]: [monitor_store.cpp],
      [monitor_module_registry.cpp], [monitor_error.cpp], [monitor_reporter.cpp].
    - [MonitorPolicy], [TimerManager]: [monitor_policy.cpp], [timer_manager.cpp].
    - [WriteScheduler]: [common/net/write_scheduler.cpp].
    - [DList], [ArcPartition], [ArcLru], [ArcLfu], [ArcCache]: [arc_node.h],
      [arc_lru.h], [arc_lfu.h], [arc_cache.h]. [ArcPartition] is the interface
      (a class with laws) that the cache relies on and both partitions discharge.
    - [FileSystem]: the system calls [alarm_spool.cpp] makes, with failures at any
      call and what a power failure may leave. [AlarmSpool] is the spool itself,
      [AlarmSpoolSafety] its operations proved one by one, [SpoolLifecycle] its
      whole life with restarts and power failures, [SpoolQueue] the spool as a
      queue, [SpoolNames] the file names.
    - [Effects]: the monad and the program logic of the worker threads.
    - [ReliablePublisher], [PublisherSafety], [PublisherProgress],
      [PublisherClaims]: [reliable_alarm_publisher.cpp], its invariant, its
      progress, its contract.
    - [WakePipe]: [wake_pipe.cpp]. [Engine]: the data path of [engine.cpp] and
      [monitor_collector.cpp].
    - [ReliableCollector], [CollectorSafety], [CollectorRecovery],
      [CollectorClaims]: [reliable_alarm_collector.cpp], its invariant, its start,
      its contract and the publisher and the collector joined.
    - [Callback], [AioManager], [EngineLoop], [EngineSafety], [EngineClaims]:
      [callback_registry.cpp], [aio_manager.cpp] and the life of [engine.cpp], with
      other threads and the callbacks themselves between any two steps.
    - [UdpPublisher], [UdpReceiver], [UdpClaims]: [udp_publisher.cpp],
      [udp_receiver.cpp], joined with the wire codec and the engine.
    - [CliRegistry], [CliCommands], [CliClaims]: [cli_registry.cpp],
      [cli_prompt.cpp], [cli_commands.cpp]. [CliServer], [CliServerSafety],
      [CliServerClaims], [CliListener]: [cli_server.cpp], its sessions and its
      listener.
    - [MetadataCache], [MetadataSafety], [MetadataClaims]: [metadata_cache.h], over
      [ArcCache], with other threads between any two steps.
    - [NetBuffer]: [common/net/buffer.cpp].
    - [DiskTransfer], [DiskSafety], [DiskClaims], [DiskShutdown]:
      [disk_executor.cpp] and [async_file_receiver.cpp], their invariant, what an
      upload promises, and the end of the executor.
    - [ThreadPool], [PoolAccount], [PoolSafety], [PoolClaims]:
      [tlss_thread_pool.cpp], where its tasks are, its invariant and its contract.
    - [StorageSchema], [StorageMonitor]: [storage_metrics.h],
      [storage_monitor_schema.cpp], and the thresholds and reports of
      [storage_monitor_runtime.cpp].

    A struct is a record with the source's field names (a prefix is added where two
    structs would clash), an enum an inductive type, a function under a lock one
    transition. C++ that can go wrong returns an option ([None] is undefined
    behaviour) or an [Outcome] of [Effects]; exceptions are values; where a call may
    run out of memory the outcome is an argument or an answer of the script.
    Integers are [Z] reduced to their width where the source computes in it.

    ** What is proved

    - Codecs: encoding and decoding are inverse on both wire formats, decoding is
      total, only canonical datagrams are accepted, a single burst error of up to 32
      bits in an alarm is detected; the stream decoder delivers exactly the frames
      sent however the stream is cut, and holds no more than one frame.
    - Store, registry, reporter: every record has a provenance, updates are atomic,
      queries are exact and sorted, the two maps of the registry agree, an error is
      committed only when its alarm is durable.
    - Spool: whatever call fails and whenever the power goes, the data directory
      holds complete alarms only, a stored alarm survives, nothing outside the spool
      is touched.
    - Publisher: an alarm leaves the outbox only when it was sent in full and
      acknowledged on the same connection, or was set aside as unreadable; the worker
      ends in order; with a collector that answers the outbox drains.
    - Collector: an acknowledgement is queued only after the alarm is in the inbox
      and in the engine; an alarm is taken once; the worker ends in order and gives
      back its connections; a start replays exactly the inbox in order of time.
      Joined with the publisher, an alarm that has left the outbox is in the inbox.
    - Write scheduler: the bytes handed to the kernel are the tasks' bytes in order,
      and every completion callback is queued once.
    - Cache: both partitions refine abstract ones, the cache is coherent, its
      capacity is conserved, the frequency partition evicts a least frequent entry.
    - Policies and timers: equal to definitions over the whole history of samples,
      and to the set of firings due.
    - Engine: [init] and [run] use nothing that was destroyed, return, and leave
      nothing registered; a round runs exactly the callbacks that were armed and are
      ready; a removed descriptor is not waited for again; an asynchronous callback
      runs in one thread at a time and loses no activation.
    - UDP: a metric that was sent and arrives is stored with the sender's value; a
      socket that could not be set up is closed.
    - Console: dispatch is exact on every line; a dump has one line for each record
      and its texts can be read back; a session always has a prompt; the server's
      callbacks return whatever happens, it keeps to its number of clients, cuts the
      input of each into exactly its lines, sends a reply whole or ends the session,
      and listens at most once.
    - Metadata cache: if writes of a directory leave the answers about others alone
      and directories are not removed, a read through the cache answers what the
      database answers, under any interleaving, expiry and eviction.
    - Buffer: every sequence of operations is that of a queue of bytes.
    - Uploads: a file is finalized once, complete and in order, or not at all; its
      resources are given back once; the shut-down cannot hang and never reaches
      [std::terminate].
    - Thread pool: each accepted task is in exactly one place and taken in order;
      threads do not sleep through their work; [stop] returns with the queue done.
    - Counters and alarms: counters saturate; a threshold alarm is active exactly when
      its definition over the history says so; an alarm is reported as cleared only
      when a reading was normal; the schema and the registry agree.

    ** Bounds

    The loops of the source that are not structural run on fuel that is proved
    enough: the stream decoder on one unit per byte plus one, eviction on the size
    of the partition plus one, the timers on the number of firings due plus one, the
    retries of the file system on the number of failures left plus two, the write
    loop on its own limit of 64 steps. The loops of the worker threads, of the
    engine, of the console and of the wake-up pipe run as often as there are answers
    in the script plus one; a round that goes on consumes an answer and a script that
    has run out asks for the stop, so no run is cut short. Counters of 64 bits wrap. The clock of the collector is
    taken to stay below 2^62 ns, and its client timeout too.

    ** Not modelled

    Locks are taken to exclude, threads to be sequentially consistent; a temporary
    [std::filesystem::path] is taken to be allocated. Tokens of uploads are taken not
    to run out, and the tasks of the thread pool to end when [stop] waits for them. The contents of sockets are
    arbitrary, so nothing is assumed of the network. Not modelled: the sampling of
    [/proc] (percentages in [long double]) and the start-up of the collector program,
    the epoll reactor, the rest of the file transfer server (its protocol handlers
    and downloads), the gateway, RPC, logging and authentication (thin code around
    gRPC, MySQL, OpenSSL and spdlog, whose behaviour is not in the repository), the
    vector copy routines, demos, benchmarks and vendored code. Descriptors that
    callbacks share are closed with their last owner; when that is, is not
    modelled. *)

From Stdlib Require Export ZArith Lia.
From stdpp Require Export base numbers gmap sorting option list.

#[global] Open Scope Z_scope.

(** ** Notation *)

Declare Scope tlss_scope.
Delimit Scope tlss_scope with tlss.

(** A [std::vector<std::uint8_t>] or a [std::string] is the list of its bytes,
    each a [Z] between 0 and 255. *)
Abbreviation bytes := (list Z).

(** [size()] of a container, as a [Z]. *)
Definition Zlen {A} (l : list A) : Z := Z.of_nat (length l).

Notation "♯ l" := (Zlen l) (at level 8, l at level 7, format "♯ l") : tlss_scope.

(** ** Machine integers *)

Definition u8 (z : Z) : Z := z mod 2 ^ 8.
Definition u16 (z : Z) : Z := z mod 2 ^ 16.
Definition u32 (z : Z) : Z := z mod 2 ^ 32.
Definition u64 (z : Z) : Z := z mod 2 ^ 64.

Definition INT64_MIN : Z := - 2 ^ 63.
Definition INT64_MAX : Z := 2 ^ 63 - 1.
Definition UINT64_MAX : Z := 2 ^ 64 - 1.

Definition is_byte (z : Z) : Prop := 0 <= z < 2 ^ 8.
Definition is_u16 (z : Z) : Prop := 0 <= z < 2 ^ 16.
Definition is_u32 (z : Z) : Prop := 0 <= z < 2 ^ 32.
Definition is_u64 (z : Z) : Prop := 0 <= z < 2 ^ 64.
Definition is_i64 (z : Z) : Prop := INT64_MIN <= z <= INT64_MAX.

Abbreviation bytes_ok := (Forall is_byte).

#[export] Instance is_byte_dec z : Decision (is_byte z).
Proof. unfold is_byte; apply _. Defined.
#[export] Instance is_u16_dec z : Decision (is_u16 z).
Proof. unfold is_u16; apply _. Defined.
#[export] Instance is_u32_dec z : Decision (is_u32 z).
Proof. unfold is_u32; apply _. Defined.
#[export] Instance is_u64_dec z : Decision (is_u64 z).
Proof. unfold is_u64; apply _. Defined.
#[export] Instance is_i64_dec z : Decision (is_i64 z).
Proof. unfold is_i64; apply _. Defined.

(** ** Automation *)

Create HintDb tlss.
Create Rewrite HintDb tlss.

(** Unfold the width predicates and constants, then linear arithmetic. *)
Ltac width :=
  unfold is_byte, is_u16, is_u32, is_u64, is_i64, u8, u16, u32, u64,
    INT64_MIN, INT64_MAX, UINT64_MAX in *; change (2 ^ 8) with 256 in *;
  change (2 ^ 16) with 65536 in *; change (2 ^ 32) with 4294967296 in *;
  change (2 ^ 63) with 9223372036854775808 in *;
  change (2 ^ 64) with 18446744073709551616 in *.
Ltac widlia := width; lia.

(** [lia] after replacing [/] and [mod] by their defining equations. *)
Ltac dlia := width; Z.to_euclidean_division_equations; lia.

(** Lengths as natural numbers, for goals that mix [Zlen] and [length]. *)
Ltac lens := unfold Zlen in *; autorewrite with tlss in *; simpl in *.
Ltac llia := lens; widlia.

(** Case split on every [if] and [decide] of the goal. *)
Ltac split_ifs :=
  repeat (case_bool_decide || case_decide || case_match); try done.

(** Destruct a boolean test of an arithmetic comparison. *)
Ltac ztests :=
  repeat match goal with
  | H : (_ && _)%bool = true |- _ => apply andb_true_iff in H as [? ?]
  | H : (_ && _)%bool = false |- _ => apply andb_false_iff in H
  | H : (_ || _)%bool = false |- _ => apply orb_false_iff in H as [? ?]
  | H : (_ || _)%bool = true |- _ => apply orb_true_iff in H
  | H : negb _ = true |- _ => apply negb_true_iff in H
  | H : negb _ = false |- _ => apply negb_false_iff in H
  | H : (_ =? _)%Z = true |- _ => apply Z.eqb_eq in H
  | H : (_ =? _)%Z = false |- _ => apply Z.eqb_neq in H
  | H : (_ <? _)%Z = true |- _ => apply Z.ltb_lt in H
  | H : (_ <? _)%Z = false |- _ => apply Z.ltb_ge in H
  | H : (_ <=? _)%Z = true |- _ => apply Z.leb_le in H
  | H : (_ <=? _)%Z = false |- _ => apply Z.leb_gt in H
  end.

(** [ztests], splitting the disjunctions it finds. *)
Ltac zcases :=
  ztests; repeat (match goal with H : _ ∨ _ |- _ => destruct H end; ztests).

#[export] Hint Rewrite @length_app @length_replicate @length_take @length_drop
  @length_insert @length_fmap @Nat2Z.inj_add : tlss.

(** ** Lengths *)

Lemma Zlen_nil {A} : Zlen (@nil A) = 0.
Proof. done. Qed.
Lemma Zlen_cons {A} (x : A) l : Zlen (x :: l) = 1 + Zlen l.
Proof. unfold Zlen; simpl; lia. Qed.
Lemma Zlen_app {A} (l k : list A) : Zlen (l ++ k) = Zlen l + Zlen k.
Proof. unfold Zlen; rewrite length_app; lia. Qed.
Lemma Zlen_nonneg {A} (l : list A) : 0 <= Zlen l.
Proof. unfold Zlen; lia. Qed.
#[export] Hint Resolve Zlen_nonneg : tlss.
Lemma to_nat_Zlen {A} (l : list A) : Z.to_nat (Zlen l) = length l.
Proof. apply Nat2Z.id. Qed.

(** ** Big-endian numbers

    The reference notion against which every [put_uN] and [get_uN] of the
    sources is proved. *)

Fixpoint be_bytes (n : nat) (v : Z) : bytes :=
  match n with
  | O => []
  | S k => (v / 256 ^ Z.of_nat k) mod 256 :: be_bytes k v
  end.

Definition be_val (l : bytes) : Z := fold_left (λ acc b, acc * 256 + b) l 0.

Lemma length_be_bytes n v : length (be_bytes n v) = n.
Proof. induction n; simpl; congruence. Qed.
#[export] Hint Rewrite length_be_bytes : tlss.

Lemma be_bytes_ok n v : bytes_ok (be_bytes n v).
Proof.
  induction n; simpl; constructor; auto.
  unfold is_byte; change (2 ^ 8) with 256. apply Z.mod_pos_bound; lia.
Qed.
#[export] Hint Resolve be_bytes_ok : tlss.

Lemma be_val_acc l acc :
  fold_left (λ a b, a * 256 + b) l acc = acc * 256 ^ Zlen l + be_val l.
Proof.
  unfold be_val. revert acc. induction l as [|b l IH]; intros acc; simpl.
  - change (Zlen []) with 0. lia.
  - rewrite IH, (IH (0 * 256 + b)), Zlen_cons, Z.pow_add_r by (unfold Zlen; lia).
    change (256 ^ 1) with 256. lia.
Qed.

Lemma be_val_cons b l : be_val (b :: l) = b * 256 ^ Zlen l + be_val l.
Proof. unfold be_val at 1; simpl. by rewrite be_val_acc. Qed.

Lemma be_val_bytes n v : be_val (be_bytes n v) = v mod 256 ^ Z.of_nat n.
Proof.
  induction n as [|n IH]; simpl be_bytes.
  - change (256 ^ Z.of_nat 0) with 1. by rewrite Z.mod_1_r.
  - rewrite be_val_cons, IH. unfold Zlen; rewrite length_be_bytes.
    rewrite Nat2Z.inj_succ, Z.pow_succ_r, (Z.mul_comm 256) by lia.
    rewrite Z.rem_mul_r by (try apply Z.pow_nonzero; lia). lia.
Qed.

Lemma be_val_bound l : bytes_ok l → 0 <= be_val l < 256 ^ Zlen l.
Proof.
  induction 1 as [|b l Hb _ IH]; [done|].
  rewrite be_val_cons, Zlen_cons, Z.pow_add_r by (unfold Zlen; lia).
  change (256 ^ 1) with 256. width. nia.
Qed.

Lemma be_bytes_val l : bytes_ok l → be_bytes (length l) (be_val l) = l.
Proof.
  induction 1 as [|b l Hb Hl IH]; [done|]. simpl.
  pose proof (be_val_bound l Hl) as Hbd. fold (Zlen l).
  rewrite be_val_cons. f_equal.
  - rewrite Z.div_add_l by lia. rewrite Z.div_small by lia.
    rewrite Z.add_0_r. apply Z.mod_small. widlia.
  - etrans; [|exact IH]. clear IH. revert Hbd. unfold Zlen.
    generalize (be_val l) as v. generalize (length l) as n. intros n v Hv.
    assert (∀ m, (m <= n)%nat →
      be_bytes m (b * 256 ^ Z.of_nat n + v) = be_bytes m v) as Hgen; [|by apply Hgen].
    induction m as [|m IHm]; intros Hm; [done|]. simpl. rewrite IHm by lia. f_equal.
    replace (Z.of_nat n) with (Z.of_nat m + (1 + (Z.of_nat n - Z.of_nat m - 1))) by lia.
    rewrite Z.pow_add_r, Z.pow_add_r by lia. change (256 ^ 1) with 256.
    replace (b * (256 ^ Z.of_nat m * (256 * 256 ^ (Z.of_nat n - Z.of_nat m - 1))) + v)
      with ((b * 256 ^ (Z.of_nat n - Z.of_nat m - 1) * 256) * 256 ^ Z.of_nat m + v) by ring.
    rewrite Z.div_add_l by lia. rewrite Z.add_comm, Z.mod_add by lia. done.
Qed.

(** Bytes extracted with shifts and masks, as the sources write them. *)
Lemma land_255 v : Z.land v 255 = v mod 256.
Proof. change 255 with (Z.ones 8). by rewrite Z.land_ones. Qed.

Lemma shiftr_byte v k : 0 <= k → Z.land (Z.shiftr v (8 * k)) 255 = (v / 256 ^ k) mod 256.
Proof.
  intros Hk. rewrite land_255, Z.shiftr_div_pow2 by lia.
  by rewrite Z.pow_mul_r by lia.
Qed.

Lemma shiftr_u8 v k : 0 <= k → u8 (Z.shiftr v (8 * k)) = (v / 256 ^ k) mod 256.
Proof. intros Hk. rewrite <- shiftr_byte, land_255 by done. done. Qed.

(** A byte or-ed below a shifted number is a sum. *)
Lemma lor_shiftl_8 a b : is_byte b → Z.lor (Z.shiftl a 8) b = a * 256 + b.
Proof.
  intros Hb. rewrite Z.shiftl_mul_pow2 by lia. change 256 with (2 ^ 8).
  assert (Z.land (a * 2 ^ 8) b = 0) as Hdis.
  { apply Z.bits_inj'. intros i Hi. rewrite Z.land_spec, Z.bits_0.
    destruct (Z.lt_ge_cases i 8); [by rewrite Z.mul_pow2_bits_low|].
    pose proof (Z.pow_le_mono_r 2 8 i).
    enough (Z.testbit b i = false) as -> by apply andb_false_r.
    apply Z.testbit_false; [done|]. rewrite Z.div_small by (unfold is_byte in *; lia).
    done. }
  by rewrite Z.add_nocarry_lxor, Z.lxor_lor.
Qed.

(** The accumulating loop [value = (value << 8) | byte]. *)
Definition be_lor (l : bytes) : Z := fold_left (λ acc b, Z.lor (Z.shiftl acc 8) b) l 0.

Lemma be_lor_val l : bytes_ok l → be_lor l = be_val l.
Proof.
  unfold be_lor, be_val. intros Hl. generalize 0 as acc.
  induction Hl as [|b l Hb _ IH]; intros acc; simpl; [done|].
  by rewrite lor_shiftl_8, IH.
Qed.

(** The same number with every byte shifted to its place and or-ed. *)
Lemma be_lor_2 b0 b1 : Z.lor (Z.shiftl b0 8) b1 = be_lor [b0; b1].
Proof. unfold be_lor; simpl. by rewrite Z.shiftl_0_l. Qed.

Lemma be_lor_4 b0 b1 b2 b3 :
  Z.lor (Z.lor (Z.lor (Z.shiftl b0 24) (Z.shiftl b1 16)) (Z.shiftl b2 8)) b3
  = be_lor [b0; b1; b2; b3].
Proof.
  unfold be_lor; cbn [fold_left]. rewrite Z.shiftl_0_l, Z.lor_0_l.
  by rewrite !Z.shiftl_lor, !Z.shiftl_shiftl by lia.
Qed.

Lemma be_lor_8 b0 b1 b2 b3 b4 b5 b6 b7 :
  Z.lor (Z.lor (Z.lor (Z.lor (Z.lor (Z.lor (Z.lor
    (Z.shiftl b0 56) (Z.shiftl b1 48)) (Z.shiftl b2 40)) (Z.shiftl b3 32))
    (Z.shiftl b4 24)) (Z.shiftl b5 16)) (Z.shiftl b6 8)) b7
  = be_lor [b0; b1; b2; b3; b4; b5; b6; b7].
Proof.
  unfold be_lor; cbn [fold_left]. rewrite Z.shiftl_0_l, Z.lor_0_l.
  by rewrite !Z.shiftl_lor, !Z.shiftl_shiftl by lia.
Qed.

(** ** Memory with bounds checks

    [None] is an access outside the buffer, which C++ leaves undefined. *)

Definition vec_store (buf : bytes) (off : nat) (b : Z) : option bytes :=
  if decide (off < length buf)%nat then Some (<[off := b]> buf) else None.

(** [std::copy] of [chunk] to [buf.data() + off]. *)
Fixpoint copy_into (buf : bytes) (off : nat) (chunk : bytes) : option bytes :=
  match chunk with
  | [] => Some buf
  | b :: rest => buf' ← vec_store buf off b; copy_into buf' (S off) rest
  end.

(** The [n] bytes from [data + off] on. *)
Definition read_range (data : bytes) (off n : nat) : option bytes :=
  if decide (off + n <= length data)%nat then Some (take n (drop off data)) else None.

Lemma vec_store_app pre x post b off :
  length pre = off → vec_store (pre ++ x :: post) off b = Some (pre ++ b :: post).
Proof.
  intros <-. unfold vec_store. rewrite decide_True by (rewrite length_app; simpl; lia).
  by rewrite <- (Nat.add_0_r (length pre)), insert_app_r.
Qed.

Lemma copy_into_app pre old post chunk off :
  length pre = off → length old = length chunk →
  copy_into (pre ++ old ++ post) off chunk = Some (pre ++ chunk ++ post).
Proof.
  revert pre old off. induction chunk as [|b chunk IH]; intros pre [|x old] off Hp Hl;
    simpl in *; try done.
  rewrite vec_store_app by done. simpl.
  replace (pre ++ b :: old ++ post) with ((pre ++ [b]) ++ old ++ post)
    by by rewrite <- app_assoc.
  rewrite IH; [by rewrite <- app_assoc| rewrite length_app; simpl; lia | lia].
Qed.

(** Filling the next bytes of a zero-initialised vector. *)
Lemma copy_into_zeros pre k chunk off :
  length pre = off →
  copy_into (pre ++ replicate (length chunk + k) 0) off chunk
  = Some ((pre ++ chunk) ++ replicate k 0).
Proof.
  intros Hp. rewrite replicate_add, copy_into_app by (rewrite ?length_replicate; done).
  by rewrite <- app_assoc.
Qed.

Lemma copy_into_length buf off chunk buf' :
  copy_into buf off chunk = Some buf' → length buf' = length buf.
Proof.
  revert buf off. induction chunk as [|b chunk IH]; intros buf off; simpl;
    [by intros [= ->]|].
  unfold vec_store. case_decide; simpl; [|done].
  intros Hc. apply IH in Hc. by rewrite length_insert in Hc.
Qed.

Lemma read_range_app pre mid post off n :
  length pre = off → length mid = n → read_range (pre ++ mid ++ post) off n = Some mid.
Proof.
  intros <- <-. unfold read_range.
  rewrite decide_True by (rewrite !length_app; lia).
  by rewrite drop_app_length, take_app_length.
Qed.

Lemma read_range_some data off n :
  (off + n <= length data)%nat → ∃ l, read_range data off n = Some l ∧ length l = n.
Proof.
  intros H. unfold read_range. rewrite decide_True by done. eexists. split; [done|].
  rewrite length_take, length_drop. lia.
Qed.

Lemma lookup_app_mid {A} (pre : list A) x post off :
  length pre = off → (pre ++ x :: post) !! off = Some x.
Proof. intros <-. by apply list_lookup_middle. Qed.

Lemma lookup_some {A} (l : list A) off :
  (off < length l)%nat → ∃ x, l !! off = Some x.
Proof. intros Hlt. apply lookup_lt_is_Some in Hlt as [x Hx]. by exists x. Qed.

Lemma read_range_spec data off n l :
  read_range data off n = Some l →
  length l = n ∧ ∃ pre post, data = pre ++ l ++ post ∧ length pre = off.
Proof.
  unfold read_range. case_decide; [|done]. intros [= <-].
  split; [rewrite length_take, length_drop; lia|].
  exists (take off data), (drop n (drop off data)). split.
  - by rewrite take_drop, take_drop.
  - rewrite length_take. lia.
Qed.

Lemma read_range_ok data off n l : bytes_ok data → read_range data off n = Some l → bytes_ok l.
Proof.
  intros Hd [_ (pre & post & -> & _)]%read_range_spec.
  by apply Forall_app in Hd as [_ [? _]%Forall_app].
Qed.

Lemma read_range_drop data off n l :
  read_range data off n = Some l → drop off data = l ++ drop (off + n) data.
Proof.
  intros [<- (pre & post & -> & <-)]%read_range_spec.
  rewrite drop_app_length, drop_app_add. by rewrite drop_app_length.
Qed.

(** What a successful big-endian read says about the bytes. *)
Lemma read_be_drop data off n v :
  bytes_ok data → be_val <$> read_range data off n = Some v →
  drop off data = be_bytes n v ++ drop (off + n) data ∧ 0 <= v < 256 ^ Z.of_nat n.
Proof.
  intros Hok Hv. destruct (read_range data off n) as [l|] eqn:Hr; [|done].
  simplify_eq/=. pose proof (read_range_ok _ _ _ _ Hok Hr) as Hl.
  pose proof (read_range_spec _ _ _ _ Hr) as [<- _].
  rewrite be_bytes_val by done. split; [by apply read_range_drop|].
  by apply be_val_bound.
Qed.

Lemma read_be_bound data off n :
  bytes_ok data → (off + n <= length data)%nat →
  ∃ v, be_val <$> read_range data off n = Some v ∧ 0 <= v < 256 ^ Z.of_nat n.
Proof.
  intros Hok Hlen. destruct (read_range_some data off n Hlen) as (l & Hr & Hl).
  rewrite Hr. eexists. split; [done|].
  pose proof (be_val_bound l (read_range_ok _ _ _ _ Hok Hr)) as Hb.
  unfold Zlen in Hb. by rewrite Hl in Hb.
Qed.

(** Walking through a concatenation of fields. *)
Lemma read_range_skip l k off n :
  (length l <= off)%nat → read_range (l ++ k) off n = read_range k (off - length l) n.
Proof.
  intros Hl. unfold read_range. rewrite length_app, drop_app_ge by lia.
  repeat case_decide; try done; lia.
Qed.

Lemma read_range_cons x k off n : read_range (x :: k) (S off) n = read_range k off n.
Proof. unfold read_range. simpl. repeat case_decide; try done; lia. Qed.

Lemma read_range_head l k n : length l = n → read_range (l ++ k) 0 n = Some l.
Proof. by apply (read_range_app []). Qed.

Lemma read_range_all l n : length l = n → read_range l 0 n = Some l.
Proof. intros Hn. rewrite <- (app_nil_r l) at 1. by apply read_range_head. Qed.

Lemma read_range_tail pre mid off n :
  length pre = off → length mid = n → read_range (pre ++ mid) off n = Some mid.
Proof. intros Hp Hm. rewrite <- (app_nil_r mid) at 1. by apply read_range_app. Qed.

Lemma read_range_tail' data off n :
  length data = (off + n)%nat → read_range data off n = Some (drop off data).
Proof.
  intros Hl. unfold read_range. rewrite decide_True by lia.
  by rewrite take_ge by (rewrite length_drop; lia).
Qed.

Lemma vec_store_copy buf off b : vec_store buf off b = copy_into buf off [b].
Proof. simpl. by destruct (vec_store buf off b). Qed.

Lemma copy_into_next pre k chunk off :
  length pre = off → (length chunk <= k)%nat →
  copy_into (pre ++ replicate k 0) off chunk
  = Some ((pre ++ chunk) ++ replicate (k - length chunk) 0).
Proof.
  intros Hp Hk. replace k with (length chunk + (k - length chunk))%nat at 1 by lia.
  by apply copy_into_zeros.
Qed.

(** Proof steps for the [put_uN] and [get_uN] of the protocols: a [put] is the
    copy of the big-endian bytes, a [get] the number of the bytes read. *)

Ltac byte_fields :=
  repeat match goal with
  | |- context [Z.land (Z.shiftr ?v ?k) 255] =>
      let q := eval vm_compute in (k / 8) in
      change (Z.land (Z.shiftr v k) 255) with (Z.land (Z.shiftr v (8 * q)) 255);
      rewrite (shiftr_byte v q) by lia
  | |- context [Z.land ?v 255] => rewrite (land_255 v)
  | |- context [u8 (Z.shiftr ?v ?k)] =>
      let q := eval vm_compute in (k / 8) in
      change (u8 (Z.shiftr v k)) with (u8 (Z.shiftr v (8 * q)));
      rewrite (shiftr_u8 v q) by lia
  | |- context [u8 ?v] => change (u8 v) with (v mod 256)
  end.

Ltac put_be :=
  cbv beta iota delta [copy_into be_bytes]; byte_fields;
  repeat match goal with
  | |- context [Z.of_nat ?n] => let z := eval vm_compute in (Z.of_nat n) in
      change (Z.of_nat n) with z
  end;
  rewrite ?Z.pow_0_r, ?Z.div_1_r;
  rewrite ?Nat.add_succ_r, ?Nat.add_0_r;
  repeat (match goal with
          | |- context [vec_store ?b ?o ?v] => destruct (vec_store b o v); cbn; [|reflexivity]
          end);
  reflexivity.

Ltac get_be :=
  match goal with
  | |- context [read_range ?inp ?off ?n] =>
      destruct (read_range inp off n) as [l|] eqn:Hr; cbn [fmap option_fmap option_map];
      [ let Hlen := fresh in let pre := fresh "pre" in
        pose proof (read_range_ok _ _ _ _ ltac:(eassumption) Hr) as Hlok;
        apply read_range_spec in Hr as [Hlen (pre & ? & -> & <-)];
        repeat (destruct l as [|? l]; [done|]); destruct l; [|done];
        rewrite !(lookup_app_r pre) by lia;
        repeat match goal with
        | |- context [(length pre + ?k - length pre)%nat] =>
            replace (length pre + k - length pre)%nat with k by lia
        end;
        rewrite Nat.sub_diag; cbn
      | unfold read_range in Hr; case_decide; [done|];
        let k := eval cbv in (n - 1)%nat in
        rewrite (lookup_ge_None_2 inp (off + k)%nat) by lia;
        repeat (match goal with |- context [inp !! ?o] => destruct (inp !! o); [|done] end);
        done ]
  end.

(** Skipping the numbers in front of a field, and reading one out of a known
    layout. *)
Ltac skip_fields :=
  repeat (rewrite read_range_cons
          || (rewrite read_range_skip by (rewrite ?length_be_bytes; lia);
              rewrite ?length_be_bytes; cbn [Nat.sub])).
Ltac field_at :=
  skip_fields;
  first [ rewrite read_range_head by (rewrite ?length_be_bytes; done)
        | rewrite read_range_all by (rewrite ?length_be_bytes; done) ].

(** ** Signed arithmetic

    [None] is signed overflow, which C++ leaves undefined. *)

Definition i64_check (z : Z) : option Z := if decide (is_i64 z) then Some z else None.
Definition i64_add (a b : Z) : option Z := i64_check (a + b).
Definition i64_sub (a b : Z) : option Z := i64_check (a - b).
Definition i64_mul (a b : Z) : option Z := i64_check (a * b).

Lemma i64_check_ok z : is_i64 z → i64_check z = Some z.
Proof. intros Hz. unfold i64_check. by rewrite decide_True. Qed.

#[global] Arguments be_bytes : simpl never.

(** Writing one field after another into a zero-initialised vector. *)
Ltac write_next :=
  rewrite copy_into_next by (rewrite ?length_app, ?length_be_bytes; cbn [length]; lia);
  cbn [mbind option_bind]; rewrite ?length_be_bytes; cbn [length].

(** Two layouts that differ in how the number of trailing zeros is written. *)
Ltac zeros_eq k :=
  repeat match goal with
  | |- context [replicate ?a 0] => progress replace a with k by lia
  end; reflexivity.

Lemma be_bytes_mod n v w : v mod 256 ^ Z.of_nat n = w mod 256 ^ Z.of_nat n →
  be_bytes n v = be_bytes n w.
Proof.
  intros Hvw. rewrite <- (be_bytes_val (be_bytes n v)), <- (be_bytes_val (be_bytes n w))
    by apply be_bytes_ok.
  by rewrite !length_be_bytes, !be_val_bytes, Hvw.
Qed.

Lemma be_bytes_u16 v : be_bytes 2 (u16 v) = be_bytes 2 v.
Proof. apply be_bytes_mod. unfold u16. by rewrite Z.mod_mod. Qed.
Lemma be_bytes_u64 v : be_bytes 8 (u64 v) = be_bytes 8 v.
Proof. apply be_bytes_mod. unfold u64. by rewrite Z.mod_mod. Qed.

Lemma be_mod_16 v : is_u16 v → v mod 256 ^ Z.of_nat 2 = v.
Proof. apply Z.mod_small. Qed.
Lemma be_mod_32 v : is_u32 v → v mod 256 ^ Z.of_nat 4 = v.
Proof. apply Z.mod_small. Qed.

Lemma be_mod_64 v : is_u64 v → v mod 256 ^ Z.of_nat 8 = v.
Proof. apply Z.mod_small. Qed.


(** ** Strings *)

(** First index of a byte ([std::find], [std::string::find]); the length when
    the byte does not occur. *)
Fixpoint find_byte (b : Z) (l : bytes) : nat :=
  match l with
  | [] => 0
  | x :: rest => if x =? b then 0 else S (find_byte b rest)
  end.

Lemma find_byte_le b l : (find_byte b l <= length l)%nat.
Proof. induction l as [|x l IH]; simpl; [lia|]. destruct (x =? b); simpl; lia. Qed.

Lemma find_byte_take b l : b ∉ take (find_byte b l) l.
Proof.
  induction l as [|x l IH]; simpl; [set_solver|].
  destruct (x =? b) eqn:E; simpl; [set_solver|]. apply Z.eqb_neq in E. set_solver.
Qed.

Lemma find_byte_app_notin b l k :
  b ∉ l → find_byte b (l ++ k) = (length l + find_byte b k)%nat.
Proof.
  induction l as [|x l IH]; simpl; [done|].
  intros H. apply not_elem_of_cons in H as [Hx Hl].
  rewrite (proj2 (Z.eqb_neq x b)) by done. rewrite IH by done. done.
Qed.

(** Lexicographic order on byte strings, the order of [std::map<std::string, _>]. *)
Fixpoint bytes_le (a b : bytes) : bool :=
  match a, b with
  | [], _ => true
  | _ :: _, [] => false
  | x :: a', y :: b' => (x <? y) || ((x =? y) && bytes_le a' b')
  end.

(** ** Iteration over a [std::map] in ascending key order *)

Section SortedEntries.
Context {K : Type} `{Countable K} {V : Type} (le : K → K → Prop) `{!RelDecision le}.

Definition entry_le (p q : K * V) : Prop := le p.1 q.1.
#[global] Instance entry_le_dec : RelDecision entry_le.
Proof. intros p q; unfold entry_le; apply _. Defined.

Definition sorted_entries (m : gmap K V) : list (K * V) := merge_sort entry_le (map_to_list m).

Lemma elem_of_sorted_entries m k v : (k, v) ∈ sorted_entries m ↔ m !! k = Some v.
Proof. unfold sorted_entries. by rewrite merge_sort_Permutation, elem_of_map_to_list. Qed.

Lemma NoDup_sorted_entries m : NoDup (sorted_entries m).*1.
Proof.
  unfold sorted_entries. rewrite merge_sort_Permutation. apply NoDup_fst_map_to_list.
Qed.

Lemma length_sorted_entries m : length (sorted_entries m) = size m.
Proof. unfold sorted_entries. by rewrite merge_sort_Permutation, length_map_to_list. Qed.

Context `{!Transitive le, !Total le}.

Lemma sorted_entries_sorted m : StronglySorted entry_le (sorted_entries m).
Proof.
  apply StronglySorted_merge_sort.
  - intros p q r. unfold entry_le. apply transitivity.
  - intros p q. unfold entry_le. apply total. apply _.
Qed.

(** A filtered iteration visits its keys in strictly ascending order. *)
Lemma sorted_entries_strict `{!AntiSymm (=) le} (P : K * V → Prop) `{!∀ x, Decision (P x)} m :
  StronglySorted (λ p q, le p.1 q.1 ∧ p.1 ≠ q.1) (filter P (sorted_entries m)).
Proof.
  pose proof (sorted_entries_sorted m) as Hs. pose proof (NoDup_sorted_entries m) as Hn.
  revert Hn. induction Hs as [|p l Hs IH Hp]; intros Hn; [constructor|].
  rewrite fmap_cons in Hn. apply NoDup_cons in Hn as [Hnin Hn].
  rewrite filter_cons. case_decide; [|by apply IH]. constructor; [by apply IH|].
  apply Forall_forall. intros q Hq. apply list_elem_of_filter in Hq as [_ Hq].
  rewrite Forall_forall in Hp. split; [by apply Hp|]. intros Heq. apply Hnin.
  rewrite Heq. by apply list_elem_of_fmap_2.
Qed.
End SortedEntries.

(** [bytes_le] is a total order. *)
Definition string_le (a b : bytes) : Prop := bytes_le a b = true.
#[export] Instance string_le_dec : RelDecision string_le.
Proof. intros a b; unfold string_le; apply _. Defined.

Lemma bytes_le_cons x a y b :
  bytes_le (x :: a) (y :: b) = true ↔ x < y ∨ x = y ∧ bytes_le a b = true.
Proof. cbn. by rewrite orb_true_iff, andb_true_iff, Z.ltb_lt, Z.eqb_eq. Qed.

#[export] Instance string_le_total : Total string_le.
Proof.
  unfold string_le. intros a. induction a as [|x a IH]; intros [|y b]; auto.
  rewrite !bytes_le_cons. destruct (IH b); destruct (Ztrichotomy x y) as [|[|]]; lia || auto.
Qed.
#[export] Instance string_le_trans : Transitive string_le.
Proof.
  unfold string_le. intros a. induction a as [|x a IH]; intros [|y b] [|z c]; try done.
  rewrite !bytes_le_cons. intros [|[-> ?]] [|[-> ?]]; eauto; left; lia.
Qed.
#[export] Instance string_le_antisymm : AntiSymm (=) string_le.
Proof.
  unfold string_le. intros a. induction a as [|x a IH]; intros [|y b]; try done.
  rewrite !bytes_le_cons. intros [|[-> ?]] [|[? ?]]; try lia. f_equal. auto.
Qed.
