(* ===== verification/MonitorData.v ===== *)
(** Monitoring data model ([inc/monitor/monitor_data.h]): keys, filters, values,
    records, the results of a store update, and the lexicographic order that
    [std::map<MonitorKey, _>] iterates in. *)

From S2P Require Import Prelude.

(** ** Keys *)

Record MonitorKey := mkKey { _mid : Z; _level : Z; _fid : Z; _eid : Z }.

Record MonitorFilter := mkFilter {
  module_id : option Z;
  level : option Z;
  function_id : option Z;
  event_id : option Z
}.

(** [operator==] and [operator<] of [MonitorKey]: [std::tie] compares field by
    field in the order mid, level, fid, eid. *)
Definition key_eqb (lhs rhs : MonitorKey) : bool :=
  (_mid lhs =? _mid rhs) && (_level lhs =? _level rhs)
  && (_fid lhs =? _fid rhs) && (_eid lhs =? _eid rhs).

Definition key_ltb (lhs rhs : MonitorKey) : bool :=
  if _mid lhs <? _mid rhs then true else if _mid rhs <? _mid lhs then false
  else if _level lhs <? _level rhs then true else if _level rhs <? _level lhs then false
  else if _fid lhs <? _fid rhs then true else if _fid rhs <? _fid lhs then false
  else _eid lhs <? _eid rhs.

(** ** Values *)

Record NumericValue := mkNumeric { _value : Z; _state : Z }.

(** [std::variant<NumericValue, std::string>]; the third constructor is the
    [valueless_by_exception()] state of a variant. *)
Inductive MonitorValue :=
  | VNumeric (n : NumericValue)
  | VString (s : bytes)
  | VValueless.

Definition get_if_numeric (v : MonitorValue) : option NumericValue :=
  match v with VNumeric n => Some n | _ => None end.
Definition get_if_string (v : MonitorValue) : option bytes :=
  match v with VString s => Some s | _ => None end.

(** Nanoseconds of [system_clock::time_point], an [int64]. *)
Abbreviation MonitorTimestamp := Z.

Record MonitorData := mkData {
  _key : MonitorKey;
  _description : bytes;
  _mvalue : MonitorValue
}.

Record StoredRecord := mkStored {
  _data : MonitorData;
  _changed_at : MonitorTimestamp
}.

(** ** Update results *)

Inductive UpdateStatus :=
  | INSERTED | UPDATED | UNCHANGED | IGNORED_INITIAL_ZERO | INVALID | DURABILITY_FAILED.

Record UpdateResult := mkUpdateResult {
  _ustatus : UpdateStatus;
  _record : option StoredRecord
}.

#[export] Instance UpdateStatus_eq_dec : EqDecision UpdateStatus.
Proof. solve_decision. Defined.

(** [UpdateResult::changed()] *)
Definition changed (r : UpdateResult) : bool :=
  bool_decide (_ustatus r = INSERTED) || bool_decide (_ustatus r = UPDATED).

(** ** Decidability and countability *)

#[export] Instance MonitorKey_eq_dec : EqDecision MonitorKey.
Proof. solve_decision. Defined.
#[export] Instance NumericValue_eq_dec : EqDecision NumericValue.
Proof. solve_decision. Defined.
#[export] Instance MonitorValue_eq_dec : EqDecision MonitorValue.
Proof. solve_decision. Defined.
#[export] Instance MonitorData_eq_dec : EqDecision MonitorData.
Proof. solve_decision. Defined.
#[export] Instance StoredRecord_eq_dec : EqDecision StoredRecord.
Proof. solve_decision. Defined.

#[export] Instance MonitorKey_countable : Countable MonitorKey.
Proof.
  refine (inj_countable' (λ k, (_mid k, _level k, _fid k, _eid k))
    (λ t, let '(a, b, c, d) := t in mkKey a b c d) _).
  by intros [].
Defined.

(** ** Well-formed data: every field within its C++ type *)

Definition key_ok (k : MonitorKey) : Prop :=
  is_u32 (_mid k) ∧ is_u32 (_level k) ∧ is_u32 (_fid k) ∧ is_u32 (_eid k).

Definition value_ok (v : MonitorValue) : Prop :=
  match v with
  | VNumeric n => is_u32 (_value n) ∧ is_u32 (_state n)
  | VString s => bytes_ok s
  | VValueless => True
  end.

Definition data_ok (d : MonitorData) : Prop :=
  key_ok (_key d) ∧ bytes_ok (_description d) ∧ value_ok (_mvalue d).

Definition record_ok (r : StoredRecord) : Prop :=
  data_ok (_data r) ∧ is_i64 (_changed_at r).

#[export] Instance key_ok_dec k : Decision (key_ok k).
Proof. unfold key_ok; apply _. Defined.
#[export] Instance value_ok_dec v : Decision (value_ok v).
Proof. destruct v; simpl; apply _. Defined.
#[export] Instance record_ok_dec r : Decision (record_ok r).
Proof. unfold record_ok, data_ok; apply _. Defined.

(** ** The key order is a strict total order *)

(** The order an ascending [std::map] iteration visits keys in. *)
Definition key_le (a b : MonitorKey) : Prop := key_ltb b a = false.

#[export] Instance key_le_dec : RelDecision key_le.
Proof. intros a b; unfold key_le; apply _. Defined.

Ltac key_cases :=
  unfold key_le, key_ltb in *; simpl in *;
  repeat match goal with
  | H : context [?x <? ?y] |- _ => destruct (Z.ltb_spec x y)
  | |- context [?x <? ?y] => destruct (Z.ltb_spec x y)
  end; try done; try lia.

Lemma key_eqb_spec a b : key_eqb a b = true ↔ a = b.
Proof.
  destruct a, b; unfold key_eqb; simpl.
  rewrite !andb_true_iff, !Z.eqb_eq. naive_solver.
Qed.

Lemma key_ltb_irrefl k : key_ltb k k = false.
Proof. destruct k; key_cases. Qed.

Lemma key_ltb_eq a b : key_ltb a b = false → key_ltb b a = false → a = b.
Proof. destruct a, b; key_cases. intros _ _; f_equal; lia. Qed.

Lemma key_ltb_trans a b c :
  key_ltb a b = true → key_ltb b c = true → key_ltb a c = true.
Proof. destruct a, b, c; intros; key_cases. Qed.

#[export] Instance key_le_total : Total key_le.
Proof. intros [] []. unfold key_le. key_cases; auto. Qed.

#[export] Instance key_le_trans : Transitive key_le.
Proof. intros [] [] [] ? ?. key_cases. Qed.

#[export] Instance key_le_antisymm : AntiSymm (=) key_le.
Proof. intros a b H1 H2. by apply key_ltb_eq. Qed.
