(* ===== verification/MonitorWire.v ===== *)
(** UDP monitoring datagrams, V1 and V2
    ([src/monitor/monitor_wire.cpp], [inc/monitor/monitor_wire.h],
    [inc/monitor/monitor_wire_detail.h]).

    Every function that touches memory runs in [option]: [None] is an access
    outside its buffer or a signed overflow. An input is [option bytes], [None]
    being the null pointer; the size argument is the length of the list. *)

From S2P Require Import Prelude MonitorData.
#[local] Open Scope tlss_scope.

(** ** Protocol constants and types *)

Definition V1_HEADER_SIZE : Z := 18.
Definition V1_NUMERIC_DATAGRAM_SIZE : Z := 26.
Definition V1_MAX_DATAGRAM_SIZE : Z := 82.
Definition V2_HEADER_SIZE : Z := 40.
Definition V2_MAX_DATAGRAM_SIZE : Z := 1200.
Definition V1_MAX_STRING_CONTENT_SIZE : Z := V1_MAX_DATAGRAM_SIZE - V1_HEADER_SIZE - 1.

Definition V1_VERSION_OFFSET : nat := 0.
Definition V1_TYPE_OFFSET : nat := 1.
Definition V1_MID_OFFSET : nat := 2.
Definition V1_FID_OFFSET : nat := 6.
Definition V1_EID_OFFSET : nat := 10.
Definition V1_LEVEL_OFFSET : nat := 14.
Definition V1_VALUE_OFFSET : nat := 18.
Definition V1_STATE_OFFSET : nat := 22.

Definition V2_VERSION_OFFSET : nat := 0.
Definition V2_TYPE_OFFSET : nat := 1.
Definition V2_FLAGS_OFFSET : nat := 2.
Definition V2_TOTAL_LENGTH_OFFSET : nat := 4.
Definition V2_HEADER_LENGTH_OFFSET : nat := 6.
Definition V2_MID_OFFSET : nat := 8.
Definition V2_LEVEL_OFFSET : nat := 12.
Definition V2_FID_OFFSET : nat := 16.
Definition V2_EID_OFFSET : nat := 20.
Definition V2_SECONDS_OFFSET : nat := 24.
Definition V2_NANOSECONDS_OFFSET : nat := 32.
Definition V2_DESCRIPTION_LENGTH_OFFSET : nat := 36.
Definition V2_VALUE_LENGTH_OFFSET : nat := 38.
Definition V2_CURRENT_FLAGS : Z := 0.
Definition V2_NUMERIC_PAYLOAD_SIZE : Z := 8.
Definition V2_NUMERIC_VALUE_OFFSET : nat := 0.
Definition V2_NUMERIC_STATE_OFFSET : nat := 4.

Definition NANOSECONDS_PER_SECOND : Z := 1000000000.

(** Scoped enums over [uint8_t]; the last constructor is a value that is none
    of the enumerators, which a cast can produce. *)
Inductive WireVersion := V1 | V2 | OtherVersion (raw : Z).
Definition version_code (v : WireVersion) : Z :=
  match v with V1 => 1 | V2 => 2 | OtherVersion raw => raw end.

Inductive WireValueType := NUMERIC | STRING | OtherType (raw : Z).
Definition type_code (t : WireValueType) : Z :=
  match t with NUMERIC => 0 | STRING => 1 | OtherType raw => raw end.
Definition type_of_code (raw : Z) : WireValueType :=
  if raw =? 0 then NUMERIC else if raw =? 1 then STRING else OtherType raw.

Inductive WireStatus :=
  | SUCCESS | EMPTY_INPUT | WRONG_VERSION | INVALID_TYPE | INVALID_FLAGS | SHORT_HEADER
  | INVALID_HEADER_LENGTH | INVALID_TOTAL_LENGTH | INVALID_FIELD_LENGTH | INVALID_TIMESTAMP
  | STRING_TOO_LONG | DATAGRAM_TOO_LARGE.

Record DecodedRecord := mkDecoded {
  _version : WireVersion;
  _ddata : MonitorData;
  _dchanged_at : option MonitorTimestamp
}.
Record EncodeResult := mkEncode { _estatus : WireStatus; _bytes : bytes }.
Record DecodeResult := mkDecode { _dstatus : WireStatus; _drecord : option DecodedRecord }.

Record V2Header := mkV2Header {
  _type : WireValueType;
  _flags : Z;
  _total_length : Z;
  _header_length : Z;
  _hkey : MonitorKey;
  _seconds : Z;
  _nanoseconds : Z;
  _description_length : Z;
  _value_length : Z
}.
Record V2HeaderResult := mkHeaderResult { _hstatus : WireStatus; _header : option V2Header }.

Record TimestampParts := mkParts { _tseconds : Z; _tnanoseconds : Z }.

Definition make_encode_error (status : WireStatus) : EncodeResult := mkEncode status [].
Definition make_decode_error (status : WireStatus) : DecodeResult := mkDecode status None.
Definition make_v2_header_error (status : WireStatus) : V2HeaderResult :=
  mkHeaderResult status None.

(** ** Integers in network byte order *)

Definition put_u16 (out : bytes) (off : nat) (value : Z) : option bytes :=
  out ← vec_store out off (Z.land (Z.shiftr value 8) 255);
  vec_store out (off + 1) (Z.land value 255).

Definition get_u16 (inp : bytes) (off : nat) : option Z :=
  b0 ← inp !! off; b1 ← inp !! (off + 1)%nat;
  Some (u16 (Z.lor (Z.shiftl b0 8) b1)).

Definition put_u32 (out : bytes) (off : nat) (value : Z) : option bytes :=
  out ← vec_store out off (Z.land (Z.shiftr value 24) 255);
  out ← vec_store out (off + 1) (Z.land (Z.shiftr value 16) 255);
  out ← vec_store out (off + 2) (Z.land (Z.shiftr value 8) 255);
  vec_store out (off + 3) (Z.land value 255).

Definition get_u32 (inp : bytes) (off : nat) : option Z :=
  b0 ← inp !! off; b1 ← inp !! (off + 1)%nat;
  b2 ← inp !! (off + 2)%nat; b3 ← inp !! (off + 3)%nat;
  Some (Z.lor (Z.lor (Z.lor (Z.shiftl b0 24) (Z.shiftl b1 16)) (Z.shiftl b2 8)) b3).

Definition put_u64 (out : bytes) (off : nat) (value : Z) : option bytes :=
  out ← vec_store out off (Z.land (Z.shiftr value 56) 255);
  out ← vec_store out (off + 1) (Z.land (Z.shiftr value 48) 255);
  out ← vec_store out (off + 2) (Z.land (Z.shiftr value 40) 255);
  out ← vec_store out (off + 3) (Z.land (Z.shiftr value 32) 255);
  out ← vec_store out (off + 4) (Z.land (Z.shiftr value 24) 255);
  out ← vec_store out (off + 5) (Z.land (Z.shiftr value 16) 255);
  out ← vec_store out (off + 6) (Z.land (Z.shiftr value 8) 255);
  vec_store out (off + 7) (Z.land value 255).

Definition get_u64 (inp : bytes) (off : nat) : option Z :=
  b0 ← inp !! off; b1 ← inp !! (off + 1)%nat;
  b2 ← inp !! (off + 2)%nat; b3 ← inp !! (off + 3)%nat;
  b4 ← inp !! (off + 4)%nat; b5 ← inp !! (off + 5)%nat;
  b6 ← inp !! (off + 6)%nat; b7 ← inp !! (off + 7)%nat;
  Some (Z.lor (Z.lor (Z.lor (Z.lor (Z.lor (Z.lor (Z.lor
    (Z.shiftl b0 56) (Z.shiftl b1 48)) (Z.shiftl b2 40)) (Z.shiftl b3 32))
    (Z.shiftl b4 24)) (Z.shiftl b5 16)) (Z.shiftl b6 8)) b7).

(** [static_cast<std::uint64_t>(value)] reduces modulo 2^64. *)
Definition put_i64_twos_complement (out : bytes) (off : nat) (value : Z) : option bytes :=
  put_u64 out off (u64 value).

Definition get_i64_twos_complement (inp : bytes) (off : nat) : option Z :=
  bits ← get_u64 inp off;
  let sign_bit := Z.shiftl 1 63 in
  if Z.land bits sign_bit =? 0 then Some bits
  else
    let magnitude := u64 (u64 (Z.lnot bits) + 1) in
    if magnitude =? sign_bit then Some INT64_MIN else Some (- magnitude).

Definition is_valid_nanoseconds (nanoseconds : Z) : bool := nanoseconds <? 1000000000.

(** ** Timestamps *)

(** C++ [/] and [%] truncate toward zero: [Z.quot] and [Z.rem]. *)
Definition split_timestamp (timestamp : MonitorTimestamp) : TimestampParts :=
  let total_nanoseconds := timestamp in
  let seconds := Z.quot total_nanoseconds NANOSECONDS_PER_SECOND in
  let nanoseconds := Z.rem total_nanoseconds NANOSECONDS_PER_SECOND in
  if nanoseconds <? 0
  then mkParts (seconds - 1) (u32 (nanoseconds + NANOSECONDS_PER_SECOND))
  else mkParts seconds (u32 nanoseconds).

Definition timestamp_parts_less (lhs rhs : TimestampParts) : bool :=
  (_tseconds lhs <? _tseconds rhs)
  || ((_tseconds lhs =? _tseconds rhs) && (_tnanoseconds lhs <? _tnanoseconds rhs)).

(** The outer [option] is signed overflow, the inner one [std::nullopt]. *)
Definition join_timestamp (seconds nanoseconds : Z) : option (option MonitorTimestamp) :=
  if negb (is_valid_nanoseconds nanoseconds) then Some None else
  let input := mkParts seconds nanoseconds in
  let minimum := split_timestamp INT64_MIN in
  let maximum := split_timestamp INT64_MAX in
  if timestamp_parts_less input minimum || timestamp_parts_less maximum input
  then Some None else
  total ← (if seconds =? _tseconds minimum
           then i64_add INT64_MIN (u32 (nanoseconds - _tnanoseconds minimum))
           else p ← i64_mul seconds NANOSECONDS_PER_SECOND; i64_add p nanoseconds);
  Some (Some total).

(** ** V1 *)

Definition write_v1_header (buf : bytes) (type : WireValueType) (key : MonitorKey)
    : option bytes :=
  buf ← vec_store buf V1_VERSION_OFFSET (version_code V1);
  buf ← vec_store buf V1_TYPE_OFFSET (type_code type);
  buf ← put_u32 buf V1_MID_OFFSET (_mid key);
  buf ← put_u32 buf V1_FID_OFFSET (_fid key);
  buf ← put_u32 buf V1_EID_OFFSET (_eid key);
  put_u32 buf V1_LEVEL_OFFSET (_level key).

Definition read_v1_key (data : bytes) : option MonitorKey :=
  mid ← get_u32 data V1_MID_OFFSET;
  level ← get_u32 data V1_LEVEL_OFFSET;
  fid ← get_u32 data V1_FID_OFFSET;
  eid ← get_u32 data V1_EID_OFFSET;
  Some (mkKey mid level fid eid).

Definition encode_v1 (record : StoredRecord) : option EncodeResult :=
  match get_if_numeric (_mvalue (_data record)) with
  | Some numeric =>
      let buf := replicate (Z.to_nat V1_NUMERIC_DATAGRAM_SIZE) 0 in
      buf ← write_v1_header buf NUMERIC (_key (_data record));
      buf ← put_u32 buf V1_VALUE_OFFSET (_value numeric);
      buf ← put_u32 buf V1_STATE_OFFSET (_state numeric);
      Some (mkEncode SUCCESS buf)
  | None =>
      match get_if_string (_mvalue (_data record)) with
      | None => Some (make_encode_error INVALID_TYPE)
      | Some string_value =>
          (* [find_byte] is [size()] when [find] returns [npos] *)
          let content_size := Z.of_nat (find_byte 0 string_value) in
          if V1_MAX_STRING_CONTENT_SIZE <? content_size
          then Some (make_encode_error STRING_TOO_LONG)
          else
            let buf := replicate (Z.to_nat (V1_HEADER_SIZE + content_size + 1)) 0 in
            buf ← write_v1_header buf STRING (_key (_data record));
            content ← read_range string_value 0 (Z.to_nat content_size);
            buf ← copy_into buf (Z.to_nat V1_HEADER_SIZE) content;
            buf ← vec_store buf (Z.to_nat (V1_HEADER_SIZE + content_size)) 0;
            Some (mkEncode SUCCESS buf)
      end
  end.

Definition decode_v1 (input : option bytes) : option DecodeResult :=
  match input with
  | None => Some (make_decode_error EMPTY_INPUT)
  | Some data =>
  let size := ♯data in
  if size =? 0 then Some (make_decode_error EMPTY_INPUT) else
  version ← data !! V1_VERSION_OFFSET;
  if negb (version =? version_code V1) then Some (make_decode_error WRONG_VERSION) else
  if size <? V1_HEADER_SIZE then Some (make_decode_error SHORT_HEADER) else
  if V1_MAX_DATAGRAM_SIZE <? size then Some (make_decode_error DATAGRAM_TOO_LARGE) else
  raw_type ← data !! V1_TYPE_OFFSET;
  if negb (raw_type =? type_code NUMERIC) && negb (raw_type =? type_code STRING)
  then Some (make_decode_error INVALID_TYPE) else
  key ← read_v1_key data;
  if raw_type =? type_code NUMERIC then
    if size <? V1_NUMERIC_DATAGRAM_SIZE then Some (make_decode_error INVALID_FIELD_LENGTH)
    else
      value ← get_u32 data V1_VALUE_OFFSET;
      state ← get_u32 data V1_STATE_OFFSET;
      Some (mkDecode SUCCESS
        (Some (mkDecoded V1 (mkData key [] (VNumeric (mkNumeric value state))) None)))
  else
    payload ← read_range data (Z.to_nat V1_HEADER_SIZE) (Z.to_nat (size - V1_HEADER_SIZE));
    let content_size := Z.of_nat (find_byte 0 payload) in
    if V1_MAX_STRING_CONTENT_SIZE <? content_size
    then Some (make_decode_error STRING_TOO_LONG)
    else
      value ← read_range payload 0 (Z.to_nat content_size);
      Some (mkDecode SUCCESS (Some (mkDecoded V1 (mkData key [] (VString value)) None)))
  end.

(** ** V2 *)

(** [Detail::write_v2_header] mutates the datagram and returns a status. *)
Definition write_v2_header (datagram : bytes) (record : StoredRecord)
    (type : WireValueType) (value_length : Z) : option (WireStatus * bytes) :=
  let description_length := ♯(_description (_data record)) in
  if (65535 <? description_length) || (65535 <? value_length)
  then Some (INVALID_FIELD_LENGTH, datagram) else
  let total_length := V2_HEADER_SIZE + description_length + value_length in
  if V2_MAX_DATAGRAM_SIZE <? total_length then Some (DATAGRAM_TOO_LARGE, datagram) else
  if negb (♯datagram =? total_length) then Some (INVALID_TOTAL_LENGTH, datagram) else
  let raw_type := type_code type in
  if negb (raw_type =? type_code NUMERIC) && negb (raw_type =? type_code STRING)
  then Some (INVALID_TYPE, datagram) else
  let timestamp := split_timestamp (_changed_at record) in
  if negb (is_valid_nanoseconds (_tnanoseconds timestamp))
  then Some (INVALID_TIMESTAMP, datagram) else
  let key := _key (_data record) in
  d ← vec_store datagram V2_VERSION_OFFSET (version_code V2);
  d ← vec_store d V2_TYPE_OFFSET raw_type;
  d ← put_u16 d V2_FLAGS_OFFSET V2_CURRENT_FLAGS;
  d ← put_u16 d V2_TOTAL_LENGTH_OFFSET (u16 total_length);
  d ← put_u16 d V2_HEADER_LENGTH_OFFSET (u16 V2_HEADER_SIZE);
  d ← put_u32 d V2_MID_OFFSET (_mid key);
  d ← put_u32 d V2_LEVEL_OFFSET (_level key);
  d ← put_u32 d V2_FID_OFFSET (_fid key);
  d ← put_u32 d V2_EID_OFFSET (_eid key);
  d ← put_i64_twos_complement d V2_SECONDS_OFFSET (_tseconds timestamp);
  d ← put_u32 d V2_NANOSECONDS_OFFSET (_tnanoseconds timestamp);
  d ← put_u16 d V2_DESCRIPTION_LENGTH_OFFSET (u16 description_length);
  d ← put_u16 d V2_VALUE_LENGTH_OFFSET (u16 value_length);
  Some (SUCCESS, d).

Definition read_v2_header (input : option bytes) : option V2HeaderResult :=
  match input with
  | None => Some (make_v2_header_error EMPTY_INPUT)
  | Some data =>
  let size := ♯data in
  if size =? 0 then Some (make_v2_header_error EMPTY_INPUT) else
  version ← data !! V2_VERSION_OFFSET;
  if negb (version =? version_code V2) then Some (make_v2_header_error WRONG_VERSION) else
  if size <? V2_HEADER_SIZE then Some (make_v2_header_error SHORT_HEADER) else
  if V2_MAX_DATAGRAM_SIZE <? size then Some (make_v2_header_error DATAGRAM_TOO_LARGE) else
  raw_type ← data !! V2_TYPE_OFFSET;
  if negb (raw_type =? type_code NUMERIC) && negb (raw_type =? type_code STRING)
  then Some (make_v2_header_error INVALID_TYPE) else
  flags ← get_u16 data V2_FLAGS_OFFSET;
  if negb (flags =? V2_CURRENT_FLAGS) then Some (make_v2_header_error INVALID_FLAGS) else
  total_length ← get_u16 data V2_TOTAL_LENGTH_OFFSET;
  header_length ← get_u16 data V2_HEADER_LENGTH_OFFSET;
  if negb (header_length =? V2_HEADER_SIZE)
  then Some (make_v2_header_error INVALID_HEADER_LENGTH) else
  if V2_MAX_DATAGRAM_SIZE <? total_length
  then Some (make_v2_header_error DATAGRAM_TOO_LARGE) else
  if (total_length <? V2_HEADER_SIZE) || negb (total_length =? size)
  then Some (make_v2_header_error INVALID_TOTAL_LENGTH) else
  nanoseconds ← get_u32 data V2_NANOSECONDS_OFFSET;
  if negb (is_valid_nanoseconds nanoseconds)
  then Some (make_v2_header_error INVALID_TIMESTAMP) else
  description_length ← get_u16 data V2_DESCRIPTION_LENGTH_OFFSET;
  value_length ← get_u16 data V2_VALUE_LENGTH_OFFSET;
  let declared_payload_length := description_length + value_length in
  let actual_payload_length := size - V2_HEADER_SIZE in
  if negb (declared_payload_length =? actual_payload_length)
  then Some (make_v2_header_error INVALID_FIELD_LENGTH) else
  mid ← get_u32 data V2_MID_OFFSET;
  level ← get_u32 data V2_LEVEL_OFFSET;
  fid ← get_u32 data V2_FID_OFFSET;
  eid ← get_u32 data V2_EID_OFFSET;
  seconds ← get_i64_twos_complement data V2_SECONDS_OFFSET;
  Some (mkHeaderResult SUCCESS (Some (mkV2Header (type_of_code raw_type) flags total_length
    header_length (mkKey mid level fid eid) seconds nanoseconds
    description_length value_length)))
  end.

Definition encode_v2 (record : StoredRecord) : option EncodeResult :=
  let value := _mvalue (_data record) in
  let shape :=
    match get_if_numeric value, get_if_string value with
    | Some _, _ => Some (NUMERIC, V2_NUMERIC_PAYLOAD_SIZE)
    | None, Some s => Some (STRING, ♯s)
    | None, None => None
    end in
  match shape with
  | None => Some (make_encode_error INVALID_TYPE)
  | Some (type, value_length) =>
  let description := _description (_data record) in
  let description_length := ♯description in
  if V2_MAX_DATAGRAM_SIZE - V2_HEADER_SIZE <? description_length
  then Some (make_encode_error DATAGRAM_TOO_LARGE) else
  let available_value_length := V2_MAX_DATAGRAM_SIZE - V2_HEADER_SIZE - description_length in
  if available_value_length <? value_length
  then Some (make_encode_error DATAGRAM_TOO_LARGE) else
  let total_length := V2_HEADER_SIZE + description_length + value_length in
  let buf := replicate (Z.to_nat total_length) 0 in
  '(header_status, buf) ← write_v2_header buf record type value_length;
  match header_status with
  | SUCCESS =>
      buf ← (if negb (description_length =? 0)
             then copy_into buf (Z.to_nat V2_HEADER_SIZE) description else Some buf);
      let payload := Z.to_nat (V2_HEADER_SIZE + description_length) in
      buf ← match get_if_numeric value with
            | Some numeric =>
                buf ← put_u32 buf (payload + V2_NUMERIC_VALUE_OFFSET) (_value numeric);
                put_u32 buf (payload + V2_NUMERIC_STATE_OFFSET) (_state numeric)
            | None =>
                if negb (value_length =? 0) then
                  match get_if_string value with
                  | Some s => copy_into buf payload s
                  | None => None
                  end
                else Some buf
            end;
      Some (mkEncode SUCCESS buf)
  | _ => Some (make_encode_error header_status)
  end
  end.

Definition decode_v2 (input : option bytes) : option DecodeResult :=
  header_result ← read_v2_header input;
  match _hstatus header_result, _header header_result, input with
  | SUCCESS, Some header, Some data =>
      if match _type header with NUMERIC => true | _ => false end
         && negb (_value_length header =? V2_NUMERIC_PAYLOAD_SIZE)
      then Some (make_decode_error INVALID_FIELD_LENGTH) else
      timestamp ← join_timestamp (_seconds header) (_nanoseconds header);
      match timestamp with
      | None => Some (make_decode_error INVALID_TIMESTAMP)
      | Some timestamp =>
          let description_length := Z.to_nat (_description_length header) in
          let value_length := Z.to_nat (_value_length header) in
          let description_begin := Z.to_nat V2_HEADER_SIZE in
          description ← read_range data description_begin description_length;
          let payload := (description_begin + description_length)%nat in
          match _type header with
          | NUMERIC =>
              v ← get_u32 data (payload + V2_NUMERIC_VALUE_OFFSET);
              st ← get_u32 data (payload + V2_NUMERIC_STATE_OFFSET);
              Some (mkDecode SUCCESS (Some (mkDecoded V2
                (mkData (_hkey header) description (VNumeric (mkNumeric v st)))
                (Some timestamp))))
          | STRING =>
              s ← read_range data payload value_length;
              Some (mkDecode SUCCESS (Some (mkDecoded V2
                (mkData (_hkey header) description (VString s)) (Some timestamp))))
          | OtherType _ => Some (make_decode_error INVALID_TYPE)
          end
      end
  | SUCCESS, _, _ => None (* [assert(header_result._header.has_value())] *)
  | status, _, _ => Some (make_decode_error status)
  end.

(** ** Entry points *)

Definition encode (record : StoredRecord) (version : WireVersion) : option EncodeResult :=
  match version with
  | V1 => encode_v1 record
  | V2 => encode_v2 record
  | OtherVersion _ => Some (make_encode_error WRONG_VERSION)
  end.

Definition decode (input : option bytes) : option DecodeResult :=
  match input with
  | None => Some (make_decode_error EMPTY_INPUT)
  | Some data =>
  if ♯data =? 0 then Some (make_decode_error EMPTY_INPUT) else
  first ← data !! 0%nat;
  if first =? version_code V1 then decode_v1 input
  else if first =? version_code V2 then decode_v2 input
  else Some (make_decode_error WRONG_VERSION)
  end.

(** ** The byte-order primitives against big-endian numbers *)

Lemma put_u16_be out off v : put_u16 out off v = copy_into out off (be_bytes 2 v).
Proof. unfold put_u16. put_be. Qed.
Lemma put_u32_be out off v : put_u32 out off v = copy_into out off (be_bytes 4 v).
Proof. unfold put_u32. put_be. Qed.
Lemma put_u64_be out off v : put_u64 out off v = copy_into out off (be_bytes 8 v).
Proof. unfold put_u64. put_be. Qed.

Lemma get_u16_be inp off : bytes_ok inp → get_u16 inp off = be_val <$> read_range inp off 2.
Proof.
  unfold get_u16. intros Hok. get_be.
  rewrite be_lor_2, be_lor_val by done. f_equal. apply Z.mod_small.
  by apply (be_val_bound [_; _]).
Qed.
Lemma get_u32_be inp off : bytes_ok inp → get_u32 inp off = be_val <$> read_range inp off 4.
Proof. unfold get_u32. intros Hok. get_be. by rewrite be_lor_4, be_lor_val. Qed.
Lemma get_u64_be inp off : bytes_ok inp → get_u64 inp off = be_val <$> read_range inp off 8.
Proof. unfold get_u64. intros Hok. get_be. by rewrite be_lor_8, be_lor_val. Qed.

Lemma get_u16_safe data off :
  bytes_ok data → (off + 2 <= length data)%nat →
  ∃ v, get_u16 data off = Some v ∧ is_u16 v.
Proof. intros Hok Hlen. rewrite get_u16_be by done. by apply (read_be_bound data off 2). Qed.
Lemma get_u32_safe data off :
  bytes_ok data → (off + 4 <= length data)%nat →
  ∃ v, get_u32 data off = Some v ∧ is_u32 v.
Proof. intros Hok Hlen. rewrite get_u32_be by done. by apply (read_be_bound data off 4). Qed.
Lemma get_u64_safe data off :
  bytes_ok data → (off + 8 <= length data)%nat →
  ∃ v, get_u64 data off = Some v ∧ is_u64 v.
Proof. intros Hok Hlen. rewrite get_u64_be by done. by apply (read_be_bound data off 8). Qed.

(** ** Two's complement *)

Lemma twos_complement_value bits :
  is_u64 bits →
  (if Z.land bits (Z.shiftl 1 63) =? 0 then bits
   else if u64 (u64 (Z.lnot bits) + 1) =? Z.shiftl 1 63 then INT64_MIN
   else - u64 (u64 (Z.lnot bits) + 1))
  = if bits <? 2 ^ 63 then bits else bits - 2 ^ 64.
Proof.
  intros Hb. rewrite Z.shiftl_1_l.
  assert (Z.land bits (2 ^ 63) = if bits <? 2 ^ 63 then 0 else 2 ^ 63) as ->.
  { replace bits with (bits mod 2 ^ 64) at 1 by (apply Z.mod_small; done).
    rewrite <- Z.land_ones by lia. rewrite <- Z.land_assoc.
    change (Z.land (Z.ones 64) (2 ^ 63)) with (2 ^ 63).
    apply Z.bits_inj'. intros i Hi. rewrite Z.land_spec, Z.pow2_bits_eqb by lia.
    destruct (Z.eqb_spec 63 i) as [<-|Hne].
    - rewrite andb_true_r, Z.testbit_eqb by lia. case_match; ztests.
      + by rewrite Z.div_small by (unfold is_u64 in *; lia).
      + replace (bits / 2 ^ 63) with 1; [done|]. dlia.
    - rewrite andb_false_r. case_match; [by rewrite Z.bits_0|].
      symmetry. apply Z.pow2_bits_false. lia. }
  destruct (bits <? 2 ^ 63) eqn:E; ztests; [done|].
  change (2 ^ 63 =? 0) with false. cbv iota.
  assert (u64 (Z.lnot bits) = 2 ^ 64 - 1 - bits) as ->.
  { unfold u64, Z.lnot. dlia. }
  assert (u64 (2 ^ 64 - 1 - bits + 1) = 2 ^ 64 - bits) as ->.
  { unfold u64. rewrite Z.mod_small; widlia. }
  case_match; ztests; widlia.
Qed.

Lemma get_i64_spec data off bits :
  get_u64 data off = Some bits → is_u64 bits →
  get_i64_twos_complement data off = Some (if bits <? 2 ^ 63 then bits else bits - 2 ^ 64).
Proof.
  intros Hg Hb. unfold get_i64_twos_complement. rewrite Hg. cbn [mbind option_bind].
  rewrite <- twos_complement_value by done. by repeat case_match.
Qed.

(** ** Timestamps *)

#[local] Arguments split_timestamp : simpl never.

Lemma split_timestamp_spec t :
  is_i64 t →
  let p := split_timestamp t in
  t = _tseconds p * NANOSECONDS_PER_SECOND + _tnanoseconds p
  ∧ 0 <= _tnanoseconds p < NANOSECONDS_PER_SECOND
  ∧ is_i64 (_tseconds p).
Proof.
  intros Ht. unfold split_timestamp, NANOSECONDS_PER_SECOND.
  case_match; ztests; simpl; unfold u32;
    rewrite Z.mod_small by dlia; dlia.
Qed.

Lemma split_min : split_timestamp INT64_MIN = mkParts (-9223372037) 145224192.
Proof. reflexivity. Qed.
Lemma split_max : split_timestamp INT64_MAX = mkParts 9223372036 854775807.
Proof. reflexivity. Qed.

(** [join_timestamp] never overflows, and accepts exactly the normal forms of
    representable timestamps. *)
Lemma join_timestamp_value s n :
  is_u32 n →
  join_timestamp s n =
  Some (if decide (n < NANOSECONDS_PER_SECOND ∧ is_i64 (s * NANOSECONDS_PER_SECOND + n))
        then Some (s * NANOSECONDS_PER_SECOND + n) else None).
Proof.
  intros Hn. unfold join_timestamp, is_valid_nanoseconds. cbv zeta.
  rewrite split_min, split_max. unfold timestamp_parts_less, NANOSECONDS_PER_SECOND.
  cbn [_tseconds _tnanoseconds].
  destruct (n <? 1000000000) eqn:En; ztests; cbn [negb]; cycle 1.
  { rewrite decide_False by lia. done. }
  match goal with |- context [if ?b then Some None else _] => destruct b eqn:Eb end.
  { rewrite decide_False; [done|]. zcases; widlia. }
  ztests.
  assert (is_i64 (s * 1000000000 + n)) as Hin.
  { zcases; widlia. }
  rewrite decide_True by done.
  destruct (s =? -9223372037) eqn:Es; ztests.
  - subst s. assert (145224192 <= n) by (zcases; lia).
    unfold i64_add, u32. rewrite Z.mod_small by widlia.
    rewrite i64_check_ok by widlia. simpl. do 2 f_equal. widlia.
  - unfold i64_mul. rewrite i64_check_ok; [|zcases; widlia].
    cbn. unfold i64_add. by rewrite i64_check_ok.
Qed.

Lemma join_split t :
  is_i64 t →
  join_timestamp (_tseconds (split_timestamp t)) (_tnanoseconds (split_timestamp t))
  = Some (Some t).
Proof.
  intros Ht. pose proof (split_timestamp_spec t Ht) as (Hs & Hb & _).
  rewrite join_timestamp_value by (unfold NANOSECONDS_PER_SECOND in *; widlia).
  rewrite <- Hs. rewrite decide_True by (split; [lia|done]). done.
Qed.

(** ** Layouts *)

Definition v1_header (type : WireValueType) (k : MonitorKey) : bytes :=
  [1; type_code type] ++ be_bytes 4 (_mid k) ++ be_bytes 4 (_fid k)
  ++ be_bytes 4 (_eid k) ++ be_bytes 4 (_level k).

Definition v2_header (r : StoredRecord) (type : WireValueType) (value_length : Z) : bytes :=
  let k := _key (_data r) in
  let t := split_timestamp (_changed_at r) in
  let description_length := ♯(_description (_data r)) in
  [2; type_code type] ++ be_bytes 2 0
  ++ be_bytes 2 (V2_HEADER_SIZE + description_length + value_length) ++ be_bytes 2 40
  ++ be_bytes 4 (_mid k) ++ be_bytes 4 (_level k) ++ be_bytes 4 (_fid k)
  ++ be_bytes 4 (_eid k) ++ be_bytes 8 (_tseconds t) ++ be_bytes 4 (_tnanoseconds t)
  ++ be_bytes 2 description_length ++ be_bytes 2 value_length.

Definition value_bytes (v : MonitorValue) : bytes :=
  match v with
  | VNumeric n => be_bytes 4 (_value n) ++ be_bytes 4 (_state n)
  | VString s => s
  | VValueless => []
  end.

Definition value_type (v : MonitorValue) : WireValueType :=
  match v with VNumeric _ => NUMERIC | VString _ => STRING | VValueless => OtherType 255 end.

(** The size of the V2 datagram of a record. *)
Definition v2_size (r : StoredRecord) : Z :=
  V2_HEADER_SIZE + ♯(_description (_data r)) + ♯(value_bytes (_mvalue (_data r))).

Lemma write_v1_header_layout k type key :
  (18 <= k)%nat →
  write_v1_header (replicate k 0) type key = Some (v1_header type key ++ replicate (k - 18) 0).
Proof.
  intros Hk. unfold write_v1_header.
  rewrite (vec_store_copy (replicate k 0)). change (replicate k 0) with ([] ++ replicate k 0).
  unfold V1_VERSION_OFFSET, V1_TYPE_OFFSET, V1_MID_OFFSET, V1_FID_OFFSET, V1_EID_OFFSET,
    V1_LEVEL_OFFSET.
  write_next. rewrite vec_store_copy. write_next.
  do 3 (rewrite put_u32_be; write_next). rewrite put_u32_be. write_next.
  f_equal. unfold v1_header. cbn [app version_code]. rewrite <- !app_assoc. cbn [app].
  zeros_eq (k - 18)%nat.
Qed.

Lemma length_v2_header r type n : length (v2_header r type n) = 40%nat.
Proof. unfold v2_header. cbv zeta. by rewrite !length_app, !length_be_bytes. Qed.

Lemma write_v2_header_layout r type n total :
  type = NUMERIC ∨ type = STRING → is_i64 (_changed_at r) → 0 <= n →
  total = V2_HEADER_SIZE + ♯(_description (_data r)) + n → total <= V2_MAX_DATAGRAM_SIZE →
  write_v2_header (replicate (Z.to_nat total) 0) r type n
  = Some (SUCCESS, v2_header r type n ++ replicate (Z.to_nat total - 40) 0).
Proof.
  intros Htype Ht Hn Htot Hmax. unfold write_v2_header. cbv zeta.
  pose proof (Zlen_nonneg (_description (_data r))) as Hd.
  pose proof (split_timestamp_spec _ Ht) as (_ & Hns & _).
  unfold V2_HEADER_SIZE, V2_MAX_DATAGRAM_SIZE in *.
  rewrite (proj2 (Z.ltb_ge _ _)), (proj2 (Z.ltb_ge 65535 n)) by lia. cbn [orb].
  rewrite <- Htot, (proj2 (Z.ltb_ge _ _)) by lia.
  replace (Zlen (replicate (Z.to_nat total) 0)) with total
    by (unfold Zlen; rewrite length_replicate; lia).
  rewrite Z.eqb_refl. cbn [negb].
  replace (negb (type_code type =? type_code NUMERIC)
           && negb (type_code type =? type_code STRING)) with false
    by (by destruct Htype as [-> | ->]).
  unfold is_valid_nanoseconds, NANOSECONDS_PER_SECOND in *.
  rewrite (proj2 (Z.ltb_lt _ 1000000000)) by lia. cbn [negb].
  unfold V2_VERSION_OFFSET, V2_TYPE_OFFSET, V2_FLAGS_OFFSET, V2_TOTAL_LENGTH_OFFSET,
    V2_HEADER_LENGTH_OFFSET, V2_MID_OFFSET, V2_LEVEL_OFFSET, V2_FID_OFFSET, V2_EID_OFFSET,
    V2_SECONDS_OFFSET, V2_NANOSECONDS_OFFSET, V2_DESCRIPTION_LENGTH_OFFSET,
    V2_VALUE_LENGTH_OFFSET, put_i64_twos_complement.
  assert (40 <= Z.to_nat total)%nat as Hk by lia.
  generalize dependent (Z.to_nat total). intros k Hk.
  rewrite vec_store_copy. change (replicate k 0) with ([] ++ replicate k 0).
  write_next. rewrite vec_store_copy. write_next.
  do 3 (rewrite put_u16_be; write_next). do 4 (rewrite put_u32_be; write_next).
  rewrite put_u64_be; write_next. rewrite put_u32_be; write_next.
  do 2 (rewrite put_u16_be; write_next).
  rewrite !be_bytes_u16, be_bytes_u64. do 2 f_equal. unfold v2_header. cbv zeta.
  unfold V2_HEADER_SIZE. rewrite <- Htot. cbn [app version_code].
  rewrite <- !app_assoc. cbn [app]. change (u16 40) with 40.
  zeros_eq (k - 40)%nat.
Qed.

(** ** V2 encoding: the datagram of a record *)

Definition v2_datagram (r : StoredRecord) : bytes :=
  let v := _mvalue (_data r) in
  v2_header r (value_type v) (♯(value_bytes v)) ++ _description (_data r) ++ value_bytes v.

Lemma v2_datagram_size r : ♯(v2_datagram r) = v2_size r.
Proof.
  unfold v2_datagram, v2_size, Zlen, V2_HEADER_SIZE. cbv zeta.
  rewrite !length_app, length_v2_header. lia.
Qed.

Lemma v2_datagram_ok r : record_ok r → bytes_ok (v2_datagram r).
Proof.
  intros [(_ & Hd & Hv) _]. unfold v2_datagram, v2_header; cbv zeta.
  repeat (apply Forall_app; split); auto with tlss.
  - destruct (_mvalue (_data r)); simpl; try widlia;
      repeat constructor; widlia.
  - destruct (_mvalue (_data r)); cbn [value_bytes value_ok] in *;
      [apply Forall_app; split| |]; auto with tlss.
Qed.

Lemma encode_v2_fits r :
  is_i64 (_changed_at r) → _mvalue (_data r) ≠ VValueless → v2_size r <= V2_MAX_DATAGRAM_SIZE →
  encode_v2 r = Some (mkEncode SUCCESS (v2_datagram r)).
Proof.
  intros Ht Hv Hsz. unfold encode_v2. cbv zeta. unfold v2_size in Hsz.
  set (v := _mvalue (_data r)) in *. set (d := _description (_data r)) in *.
  pose proof (Zlen_nonneg d) as Hd. pose proof (Zlen_nonneg (value_bytes v)) as Hvn.
  assert (match get_if_numeric v, get_if_string v with
          | Some _, _ => Some (NUMERIC, V2_NUMERIC_PAYLOAD_SIZE)
          | None, Some s => Some (STRING, ♯s) | None, None => None end
          = Some (value_type v, ♯(value_bytes v))) as -> by by destruct v.
  unfold V2_MAX_DATAGRAM_SIZE, V2_HEADER_SIZE in *.
  rewrite !(proj2 (Z.ltb_ge _ _)) by lia.
  rewrite (write_v2_header_layout r (value_type v) (♯(value_bytes v))
    (40 + ♯d + ♯(value_bytes v))); [|destruct v; auto; done|done|lia|done|done].
  cbn [mbind option_bind].
  assert (∀ b c : bytes, (if negb (Zlen c =? 0) then copy_into b 40 c else Some b)
                         = copy_into b 40 c) as Hskip.
  { intros b [|c0 c]; [done|]. by rewrite Zlen_cons, (proj2 (Z.eqb_neq _ _)) by (pose proof
      (Zlen_nonneg c); lia). }
  change (Z.to_nat 40) with 40%nat. rewrite Hskip. clear Hskip.
  replace (Z.to_nat (40 + ♯d + ♯(value_bytes v)) - 40)%nat
    with (length d + length (value_bytes v))%nat by (unfold Zlen; lia).
  rewrite copy_into_next by (rewrite ?length_v2_header; lia). cbn [mbind option_bind].
  replace (length d + length (value_bytes v) - length d)%nat
    with (length (value_bytes v)) by lia.
  replace (Z.to_nat (40 + ♯d)) with (length (v2_header r (value_type v) (♯(value_bytes v)) ++ d))
    by (rewrite length_app, length_v2_header; unfold Zlen; lia).
  unfold v2_datagram. fold v d. rewrite (app_assoc _ d).
  set (pre := v2_header r (value_type v) (♯(value_bytes v)) ++ d). clearbody pre.
  destruct v as [[nv ns]|s|]; cbn [get_if_numeric get_if_string value_bytes _value _state];
    [| |done].
  - rewrite length_app, !length_be_bytes. unfold V2_NUMERIC_VALUE_OFFSET, V2_NUMERIC_STATE_OFFSET.
    rewrite put_u32_be. write_next. rewrite put_u32_be. write_next.
    by rewrite app_nil_r, <- app_assoc.
  - destruct s as [|c s].
    + simpl. by rewrite app_nil_r.
    + rewrite Zlen_cons, (proj2 (Z.eqb_neq _ _)) by (pose proof (Zlen_nonneg s); lia).
      pose proof (copy_into_app pre (replicate (length (c :: s)) 0) [] (c :: s) (length pre)
        eq_refl (length_replicate _ _)) as Hcopy.
      rewrite !app_nil_r in Hcopy. cbn [negb]. by rewrite Hcopy.
Qed.

Lemma encode_v2_too_large r :
  _mvalue (_data r) ≠ VValueless → V2_MAX_DATAGRAM_SIZE < v2_size r →
  encode_v2 r = Some (make_encode_error DATAGRAM_TOO_LARGE).
Proof.
  intros Hv Hsz. unfold encode_v2. cbv zeta.
  unfold v2_size, V2_MAX_DATAGRAM_SIZE, V2_HEADER_SIZE, V2_NUMERIC_PAYLOAD_SIZE in *.
  assert (∀ d m : Z, 1200 < 40 + d + m → (1200 - 40 <? d) = false →
                     (1200 - 40 - d <? m) = true) as Hcmp.
  { intros d m Hdm Hd. ztests. apply Z.ltb_lt. lia. }
  destruct (_mvalue (_data r)) as [n|s|]; [| |done]; cbn [get_if_numeric get_if_string];
    (destruct (1200 - 40 <? _) eqn:E1; [done|]); rewrite Hcmp; done.
Qed.

(** ** V2 decoding *)

Ltac rd H off :=
  first [ rewrite (get_u16_be _ off) by exact H | rewrite (get_u32_be _ off) by exact H
        | rewrite (get_u64_be _ off) by exact H ];
  field_at; cbn [fmap option_fmap option_map mbind option_bind]; rewrite be_val_bytes.

Lemma twos_complement_id s :
  is_i64 s →
  (if s mod 256 ^ Z.of_nat 8 <? 2 ^ 63 then s mod 256 ^ Z.of_nat 8
   else s mod 256 ^ Z.of_nat 8 - 2 ^ 64) = s.
Proof.
  intros Hs. change (256 ^ Z.of_nat 8) with (2 ^ 64).
  destruct (Z.lt_ge_cases s 0).
  - assert (s mod 2 ^ 64 = s + 2 ^ 64) as ->.
    { rewrite <- (Z.mod_add s 1) by lia. apply Z.mod_small. widlia. }
    rewrite (proj2 (Z.ltb_ge _ _)); widlia.
  - rewrite Z.mod_small by widlia. rewrite (proj2 (Z.ltb_lt _ _)); widlia.
Qed.

Lemma read_v2_header_layout r type n rest :
  type = NUMERIC ∨ type = STRING → record_ok r → 0 <= n →
  ♯rest = ♯(_description (_data r)) + n → V2_HEADER_SIZE + ♯rest <= V2_MAX_DATAGRAM_SIZE →
  bytes_ok (v2_header r type n ++ rest) →
  let t := split_timestamp (_changed_at r) in
  read_v2_header (Some (v2_header r type n ++ rest)) =
  Some (mkHeaderResult SUCCESS (Some (mkV2Header type 0 (V2_HEADER_SIZE + ♯rest) 40
    (_key (_data r)) (_tseconds t) (_tnanoseconds t) (♯(_description (_data r))) n))).
Proof.
  intros Htype [((Hm & Hl & Hf & He) & _ & _) Ht] Hn Hrest Hmax Hok. cbv zeta.
  pose proof (split_timestamp_spec _ Ht) as (_ & Hns & Hs).
  pose proof (Zlen_nonneg (_description (_data r))) as Hd.
  unfold read_v2_header.
  assert (♯(v2_header r type n ++ rest) = 40 + ♯rest) as ->.
  { rewrite Zlen_app. unfold Zlen at 1. by rewrite length_v2_header. }
  unfold V2_HEADER_SIZE, V2_MAX_DATAGRAM_SIZE, NANOSECONDS_PER_SECOND in *.
  rewrite (proj2 (Z.eqb_neq _ _)) by lia.
  revert Hok. unfold v2_header. cbv zeta. rewrite <- !app_assoc. cbn [app]. intros Hok.
  unfold V2_VERSION_OFFSET, V2_TYPE_OFFSET, V2_FLAGS_OFFSET, V2_TOTAL_LENGTH_OFFSET,
    V2_HEADER_LENGTH_OFFSET, V2_MID_OFFSET, V2_LEVEL_OFFSET, V2_FID_OFFSET, V2_EID_OFFSET,
    V2_SECONDS_OFFSET, V2_NANOSECONDS_OFFSET, V2_DESCRIPTION_LENGTH_OFFSET,
    V2_VALUE_LENGTH_OFFSET, V2_CURRENT_FLAGS, V2_HEADER_SIZE in *.
  cbn [lookup list_lookup mbind option_bind version_code].
  change (2 =? 2) with true. cbn [negb].
  rewrite !(proj2 (Z.ltb_ge _ _)) by lia.
  replace (negb (type_code type =? type_code NUMERIC)
           && negb (type_code type =? type_code STRING)) with false
    by (by destruct Htype as [-> | ->]).
  replace (type_of_code (type_code type)) with type by (by destruct Htype as [-> | ->]).
  rd Hok 2%nat. change (0 mod 256 ^ Z.of_nat 2 =? 0) with true. cbn [negb].
  rd Hok 4%nat. rewrite be_mod_16 by widlia.
  rd Hok 6%nat. change (40 mod 256 ^ Z.of_nat 2 =? 40) with true. cbn [negb].
  rewrite (proj2 (Z.ltb_ge _ _)), (proj2 (Z.ltb_ge _ 40)) by lia. cbn [orb].
  rewrite (proj2 (Z.eqb_eq _ (40 + ♯rest))) by lia. cbn [negb].
  rd Hok 32%nat. rewrite be_mod_32 by widlia.
  unfold is_valid_nanoseconds. rewrite (proj2 (Z.ltb_lt _ _)) by lia. cbn [negb].
  rd Hok 36%nat. rewrite be_mod_16 by widlia.
  rd Hok 38%nat. rewrite be_mod_16 by widlia.
  rewrite (proj2 (Z.eqb_eq _ (40 + ♯rest - 40))) by lia. cbn [negb].
  rd Hok 8%nat. rewrite be_mod_32 by done.
  rd Hok 12%nat. rewrite be_mod_32 by done.
  rd Hok 16%nat. rewrite be_mod_32 by done.
  rd Hok 20%nat. rewrite be_mod_32 by done.
  rewrite (get_i64_spec _ _ (_tseconds (split_timestamp (_changed_at r)) mod 256 ^ Z.of_nat 8)).
  - rewrite twos_complement_id by done. cbn [mbind option_bind].
    change (0 mod 256 ^ Z.of_nat 2) with 0. change (40 mod 256 ^ Z.of_nat 2) with 40.
    replace (40 + ♯(_description (_data r)) + n) with (40 + ♯rest) by lia.
    by destruct (_key (_data r)).
  - rd Hok 24%nat. done.
  - unfold is_u64. change (256 ^ Z.of_nat 8) with (2 ^ 64). apply Z.mod_pos_bound; lia.
Qed.

Lemma read_payload r type n (d p : bytes) o k :
  read_range (v2_header r type n ++ d ++ p) (40 + length d + o) k = read_range p o k.
Proof.
  rewrite (read_range_skip (v2_header _ _ _)), length_v2_header
    by (rewrite length_v2_header; lia).
  rewrite (read_range_skip d) by lia. f_equal. lia.
Qed.

Lemma decode_v2_datagram r :
  record_ok r → _mvalue (_data r) ≠ VValueless → v2_size r <= V2_MAX_DATAGRAM_SIZE →
  decode_v2 (Some (v2_datagram r))
  = Some (mkDecode SUCCESS (Some (mkDecoded V2 (_data r) (Some (_changed_at r))))).
Proof.
  intros Hr Hv Hsz. pose proof (v2_datagram_ok r Hr) as Hok.
  unfold decode_v2, v2_datagram in *. unfold v2_size in Hsz. cbv zeta in *.
  set (v := _mvalue (_data r)) in *. set (d := _description (_data r)) in *.
  rewrite read_v2_header_layout; cycle 1.
  { destruct v; auto; done. }
  { done. } { apply Zlen_nonneg. } { by rewrite Zlen_app. } { rewrite Zlen_app. lia. }
  { done. }
  cbn [mbind option_bind _hstatus _header _type _value_length _seconds _nanoseconds
       _description_length _hkey].
  assert (match value_type v with NUMERIC => true | _ => false end
          && negb (♯(value_bytes v) =? V2_NUMERIC_PAYLOAD_SIZE) = false) as ->.
  { by destruct v. }
  rewrite join_split by apply Hr. cbn [mbind option_bind].
  change (Z.to_nat V2_HEADER_SIZE) with 40%nat.
  rewrite !to_nat_Zlen. fold d.
  rewrite (read_range_app _ d _ 40 (length d) (length_v2_header _ _ _) eq_refl). cbn [mbind option_bind].
  assert (mkData (_key (_data r)) d v = _data r) as Hdata.
  { unfold d, v. by destruct (_data r). }
  assert (value_ok v) as Hvok by apply Hr. clearbody v.
  destruct v as [[nv ns]|s|]; [| |done]; cbn [value_type value_bytes _value _state] in *.
  - destruct Hvok as [H1 H2].
    rewrite !get_u32_be by exact Hok.
    rewrite !read_payload.
    rewrite read_range_head by apply length_be_bytes.
    rewrite read_range_skip, length_be_bytes by (rewrite length_be_bytes; unfold
      V2_NUMERIC_STATE_OFFSET; lia).
    rewrite read_range_all by apply length_be_bytes.
    cbn [fmap option_fmap option_map mbind option_bind].
    rewrite !be_val_bytes, !be_mod_32 by done. by rewrite Hdata.
  - rewrite <- (Nat.add_0_r (40 + length d)), read_payload, read_range_all by done.
    cbn [mbind option_bind]. by rewrite Hdata.
Qed.

(** ** Safety of the decoders on arbitrary input *)

Ltac safe_reads Hok :=
  repeat match goal with
  | |- ∃ _, Some _ = Some _ => eexists; reflexivity
  | |- ∃ _, (if ?b then _ else _) = Some _ => destruct b eqn:?; ztests
  | |- ∃ _, mbind _ (?l !! ?o) = Some _ =>
      let x := fresh "b" in let Hx := fresh in
      destruct (lookup_some l o) as [x Hx]; [lens; lia | rewrite Hx; cbn [mbind option_bind]]
  | |- ∃ _, mbind _ (get_u16 ?l ?o) = Some _ =>
      let x := fresh "v" in let Hx := fresh in
      destruct (get_u16_safe l o Hok) as (x & Hx & ?);
      [lens; lia | rewrite Hx; cbn [mbind option_bind]]
  | |- ∃ _, mbind _ (get_u32 ?l ?o) = Some _ =>
      let x := fresh "v" in let Hx := fresh in
      destruct (get_u32_safe l o Hok) as (x & Hx & ?);
      [lens; lia | rewrite Hx; cbn [mbind option_bind]]
  | |- ∃ _, mbind _ (get_i64_twos_complement ?l ?o) = Some _ =>
      let x := fresh "v" in let Hx := fresh in let Hv := fresh in
      destruct (get_u64_safe l o Hok) as (x & Hx & Hv);
      [lens; lia | rewrite (get_i64_spec _ _ _ Hx Hv); cbn [mbind option_bind]]
  | |- ∃ _, mbind _ (read_range ?l ?o ?n) = Some _ =>
      let x := fresh "r" in let Hx := fresh in let Hn := fresh in
      destruct (read_range_some l o n) as (x & Hx & Hn);
      [lens; lia | rewrite Hx; cbn [mbind option_bind]]
  end.

Ltac open_offsets :=
  unfold V1_VERSION_OFFSET, V1_TYPE_OFFSET, V1_MID_OFFSET, V1_FID_OFFSET, V1_EID_OFFSET,
    V1_LEVEL_OFFSET, V1_VALUE_OFFSET, V1_STATE_OFFSET, V2_VERSION_OFFSET, V2_TYPE_OFFSET,
    V2_FLAGS_OFFSET, V2_TOTAL_LENGTH_OFFSET, V2_HEADER_LENGTH_OFFSET, V2_MID_OFFSET,
    V2_LEVEL_OFFSET, V2_FID_OFFSET, V2_EID_OFFSET, V2_SECONDS_OFFSET, V2_NANOSECONDS_OFFSET,
    V2_DESCRIPTION_LENGTH_OFFSET, V2_VALUE_LENGTH_OFFSET, V1_HEADER_SIZE,
    V1_NUMERIC_DATAGRAM_SIZE, V1_MAX_DATAGRAM_SIZE, V2_HEADER_SIZE, V2_MAX_DATAGRAM_SIZE in *.

Lemma read_v1_key_safe data :
  bytes_ok data → 18 <= ♯data → ∃ k, read_v1_key data = Some k.
Proof. intros Hok Hlen. unfold read_v1_key. open_offsets. safe_reads Hok. Qed.

Lemma decode_v1_safe data : bytes_ok data → ∃ r, decode_v1 (Some data) = Some r.
Proof.
  intros Hok. unfold decode_v1. cbv zeta. open_offsets.
  destruct (♯data =? 0) eqn:E0; [eauto|]; ztests. pose proof (Zlen_nonneg data).
  safe_reads Hok.
  destruct (read_v1_key_safe data Hok) as [k Hk]; [lia|]. rewrite Hk. cbn [mbind option_bind].
  safe_reads Hok. pose proof (find_byte_le 0 r). safe_reads Hok.
Qed.

Lemma read_v2_header_safe data :
  bytes_ok data →
  ∃ h, read_v2_header (Some data) = Some h ∧
    match _header h with
    | None => _hstatus h ≠ SUCCESS
    | Some hd => _hstatus h = SUCCESS ∧ 40 <= ♯data ∧ is_u32 (_nanoseconds hd)
        ∧ 0 <= _description_length hd ∧ 0 <= _value_length hd
        ∧ _description_length hd + _value_length hd = ♯data - 40
    end.
Proof.
  intros Hok. cut (∃ h, read_v2_header (Some data) = Some h).
  - intros [h Hh]. exists h. split; [done|]. revert Hh.
    unfold read_v2_header. cbv zeta. open_offsets.
    repeat (case_match || (intros [= <-]; done)
            || match goal with |- mbind _ ?m = Some _ → _ => destruct m eqn:?; [cbn|done] end).
    intros [= <-]; cbn. ztests.
    repeat match goal with
    | H : get_u16 data ?o = Some _ |- _ =>
        destruct (get_u16_safe data o Hok) as (? & ? & ?); [lens; lia|]; simplify_eq; clear H
    | H : get_u32 data ?o = Some _ |- _ =>
        destruct (get_u32_safe data o Hok) as (? & ? & ?); [lens; lia|]; simplify_eq; clear H
    end.
    simplify_eq/=. repeat split; try lia; try done; widlia.
  - unfold read_v2_header. cbv zeta. open_offsets.
    destruct (♯data =? 0) eqn:E0; [eauto|]; ztests. pose proof (Zlen_nonneg data).
    safe_reads Hok.
Qed.

Lemma decode_v2_safe data : bytes_ok data → ∃ r, decode_v2 (Some data) = Some r.
Proof.
  intros Hok. unfold decode_v2.
  destruct (read_v2_header_safe data Hok) as (h & -> & Hh). cbn [mbind option_bind].
  destruct (_header h) as [hd|]; cycle 1.
  { destruct (_hstatus h); eauto; done. }
  destruct Hh as (-> & Hlen & Hns & Hd & Hv & Hsum). cbv zeta. open_offsets.
  unfold V2_NUMERIC_PAYLOAD_SIZE, V2_NUMERIC_VALUE_OFFSET, V2_NUMERIC_STATE_OFFSET.
  rewrite join_timestamp_value by done. cbn [mbind option_bind].
  destruct (_type hd); cbn [andb]; case_decide; safe_reads Hok.
Qed.

(** ** Canonicity: an accepted V2 datagram is the encoding of what it decodes to *)

Lemma get_u16_drop data off v :
  bytes_ok data → get_u16 data off = Some v →
  drop off data = be_bytes 2 v ++ drop (off + 2) data ∧ is_u16 v.
Proof. intros Hok. rewrite get_u16_be by done. by apply (read_be_drop data off 2). Qed.
Lemma get_u32_drop data off v :
  bytes_ok data → get_u32 data off = Some v →
  drop off data = be_bytes 4 v ++ drop (off + 4) data ∧ is_u32 v.
Proof. intros Hok. rewrite get_u32_be by done. by apply (read_be_drop data off 4). Qed.

Lemma get_i64_drop data off s :
  bytes_ok data → get_i64_twos_complement data off = Some s →
  drop off data = be_bytes 8 s ++ drop (off + 8) data ∧ is_i64 s.
Proof.
  intros Hok Hs. destruct (get_u64 data off) as [bits|] eqn:Hb.
  2: { unfold get_i64_twos_complement in Hs. by rewrite Hb in Hs. }
  pose proof Hb as Hbits. rewrite get_u64_be in Hbits by done.
  apply (read_be_drop data off 8) in Hbits as [Hd Hu]; [|done].
  rewrite (get_i64_spec _ _ bits) in Hs by done. simplify_eq. split.
  - rewrite Hd. f_equal. apply be_bytes_mod. case_match; [done|].
    change (256 ^ Z.of_nat 8) with (2 ^ 64).
    rewrite <- (Z.mod_add (bits - 2 ^ 64) 1) by lia. f_equal. lia.
  - change (256 ^ Z.of_nat 8) with (2 ^ 64) in Hu. case_match; ztests; widlia.
Qed.

Lemma split_timestamp_unique s n :
  0 <= n < NANOSECONDS_PER_SECOND → is_i64 (s * NANOSECONDS_PER_SECOND + n) →
  split_timestamp (s * NANOSECONDS_PER_SECOND + n) = mkParts s n.
Proof.
  intros Hn Hi. pose proof (split_timestamp_spec _ Hi) as (He & Hb & _).
  destruct (split_timestamp _) as [s' n']; cbn [_tseconds _tnanoseconds] in *.
  unfold NANOSECONDS_PER_SECOND in *. assert (s = s') as -> by lia. f_equal. lia.
Qed.

(** What an accepted header says about the whole datagram. *)
Lemma read_v2_header_inv data h hd :
  bytes_ok data → read_v2_header (Some data) = Some h → _header h = Some hd →
  _hstatus h = SUCCESS ∧ (_type hd = NUMERIC ∨ _type hd = STRING) ∧ key_ok (_hkey hd)
  ∧ is_i64 (_seconds hd) ∧ 0 <= _nanoseconds hd < NANOSECONDS_PER_SECOND
  ∧ 0 <= _description_length hd ∧ 0 <= _value_length hd
  ∧ 40 + _description_length hd + _value_length hd = ♯data ∧ ♯data <= V2_MAX_DATAGRAM_SIZE
  ∧ data = [2; type_code (_type hd)] ++ be_bytes 2 0
      ++ be_bytes 2 (♯data) ++ be_bytes 2 40
      ++ be_bytes 4 (_mid (_hkey hd)) ++ be_bytes 4 (_level (_hkey hd))
      ++ be_bytes 4 (_fid (_hkey hd)) ++ be_bytes 4 (_eid (_hkey hd))
      ++ be_bytes 8 (_seconds hd) ++ be_bytes 4 (_nanoseconds hd)
      ++ be_bytes 2 (_description_length hd) ++ be_bytes 2 (_value_length hd)
      ++ drop 40 data.
Proof.
  intros Hok. unfold read_v2_header. cbv zeta. open_offsets.
  repeat (case_match || (intros [= <-]; done)
          || match goal with |- mbind _ ?m = Some _ → _ => destruct m eqn:?; [cbn|done] end).
  intros [= <-] [= <-]. cbn. unfold is_valid_nanoseconds, V2_CURRENT_FLAGS in *. ztests. subst.
  repeat match goal with
  | H : get_u16 data ?o = Some _ |- _ => apply (get_u16_drop data o) in H as [? ?]; [|done]
  | H : get_u32 data ?o = Some _ |- _ => apply (get_u32_drop data o) in H as [? ?]; [|done]
  | H : get_i64_twos_complement data ?o = Some _ |- _ =>
      apply (get_i64_drop data o) in H as [? ?]; [|done]
  end.
  cbn [Nat.add] in *.
  assert (type_of_code z0 = NUMERIC ∧ z0 = 0 ∨ type_of_code z0 = STRING ∧ z0 = 1) as Hty.
  { match goal with H : _ ∨ _ |- _ => destruct H end; ztests; subst; auto. }
  split; [done|]. split; [naive_solver|].
  split; [by repeat split; cbn; widlia|]. split; [done|].
  split; [unfold NANOSECONDS_PER_SECOND; widlia|].
  do 2 (split; [widlia|]). split; [lia|]. split; [lia|].
  replace (type_code (type_of_code z0)) with z0
    by (destruct Hty as [[-> ->]|[-> ->]]; done).
  destruct data as [|b0 [|b1 data]]; simplify_eq/=.
  change (drop 0 data) with data in *. congruence.
Qed.

Lemma decode_v2_canonical_aux data d :
  bytes_ok data → decode_v2 (Some data) = Some (mkDecode SUCCESS (Some d)) →
  ∃ ts, _dchanged_at d = Some ts ∧ _version d = V2
    ∧ record_ok (mkStored (_ddata d) ts) ∧ _mvalue (_ddata d) ≠ VValueless
    ∧ v2_size (mkStored (_ddata d) ts) <= V2_MAX_DATAGRAM_SIZE
    ∧ data = v2_datagram (mkStored (_ddata d) ts).
Proof.
  intros Hok. unfold decode_v2. destruct (read_v2_header (Some data)) as [h|] eqn:Eh; [|done].
  cbn [mbind option_bind]. destruct (_header h) as [hd|] eqn:Ehd.
  2: { by destruct (_hstatus h). }
  destruct (read_v2_header_inv data h hd Hok Eh Ehd)
    as (-> & Hty & Hkey & Hs & Hn & Hdl & Hvl & Hsum & Hmax & Hdata).
  cbv zeta. rewrite join_timestamp_value by (unfold NANOSECONDS_PER_SECOND in *; widlia).
  case_match; [done|]. cbn [mbind option_bind].
  case_decide as Hts; [|done]. destruct Hts as [_ Hts].
  change (Z.to_nat V2_HEADER_SIZE) with 40%nat.
  destruct (read_range data 40 _) as [desc|] eqn:Edesc; [|done]. cbn [mbind option_bind].
  pose proof (read_range_ok _ _ _ _ Hok Edesc) as Hdok.
  pose proof (read_range_spec _ _ _ _ Edesc) as [Hdlen _].
  apply read_range_drop in Edesc.
  assert (∀ v, value_ok v → type_code (_type hd) = type_code (value_type v) →
    v ≠ VValueless → ♯(value_bytes v) = _value_length hd →
    drop (40 + length desc) data = value_bytes v →
    let ts := _seconds hd * NANOSECONDS_PER_SECOND + _nanoseconds hd in
    let r := mkStored (mkData (_hkey hd) desc v) ts in
    record_ok r ∧ v2_size r <= V2_MAX_DATAGRAM_SIZE ∧ data = v2_datagram r) as Hmain.
  { intros v Hv Htc Hnv Hlen Hpay. cbv zeta.
    assert (♯desc = _description_length hd) as Hdesc by (unfold Zlen; lia).
    split; [exact (conj (conj Hkey (conj Hdok Hv)) Hts)|]. split.
    - unfold v2_size, V2_HEADER_SIZE; cbn [_data _mvalue _description]. lia.
    - rewrite Hdata at 1. unfold v2_datagram, v2_header, V2_HEADER_SIZE. cbv zeta.
      cbn [_data _mvalue _description _key _changed_at].
      rewrite split_timestamp_unique by done. cbn [_tseconds _tnanoseconds].
      rewrite Hlen, Hdesc, Hsum, <- Htc, Edesc, <- Hdlen, Hpay.
      by rewrite <- !app_assoc. }
  rewrite <- Hdlen.
  destruct (_type hd) eqn:Et; [| |done].
  - destruct (get_u32 data (40 + length desc + V2_NUMERIC_VALUE_OFFSET)) as [v|] eqn:Ev;
      [|discriminate].
    destruct (get_u32 data (40 + length desc + V2_NUMERIC_STATE_OFFSET)) as [st|] eqn:Est;
      [|discriminate].
    cbn [mbind option_bind]. intros [= <-].
    unfold V2_NUMERIC_VALUE_OFFSET, V2_NUMERIC_STATE_OFFSET, V2_NUMERIC_PAYLOAD_SIZE in *.
    apply get_u32_drop in Ev as [Ev Hv], Est as [Est Hst]; [|done..].
    match goal with H : _ && _ = false |- _ => cbn in H; ztests; rename H into Hv8 end.
    eexists. split; [done|]. split; [done|]. cbn [_ddata _mvalue].
    destruct (Hmain (VNumeric (mkNumeric v st))) as (Hr & Hsz & Hd); try done.
    cbn [value_bytes _value _state]. rewrite Nat.add_0_r in Ev. rewrite Ev, Est.
    rewrite (drop_ge data) by (unfold Zlen in *; lia). by rewrite app_nil_r.
  - destruct (read_range data (40 + length desc) _) as [s|] eqn:Es; [|done].
    intros [= <-]. pose proof (read_range_ok _ _ _ _ Hok Es) as Hsok.
    pose proof (read_range_spec _ _ _ _ Es) as [Hslen _]. apply read_range_drop in Es.
    eexists. split; [done|]. split; [done|]. cbn [_ddata _mvalue].
    destruct (Hmain (VString s)) as (Hr & Hsz & Hd); try done.
    + cbn [value_bytes]. unfold Zlen. lia.
    + cbn [value_bytes]. rewrite Es, (drop_ge data) by (unfold Zlen in *; lia).
      by rewrite app_nil_r.
Qed.

(** ** V1 datagrams *)

Definition v1_datagram (r : StoredRecord) : bytes :=
  let k := _key (_data r) in
  match _mvalue (_data r) with
  | VNumeric n => v1_header NUMERIC k ++ be_bytes 4 (_value n) ++ be_bytes 4 (_state n)
  | VString s => v1_header STRING k ++ take (find_byte 0 s) s ++ [0]
  | VValueless => []
  end.

(** What V1 keeps of a record: a string ends at its first NUL, and neither the
    description nor the timestamp is transmitted. *)
Definition v1_visible (d : MonitorData) : MonitorData :=
  mkData (_key d) []
    match _mvalue d with VString s => VString (take (find_byte 0 s) s) | v => v end.

Definition v1_fits (r : StoredRecord) : Prop :=
  match _mvalue (_data r) with
  | VNumeric _ => True
  | VString s => Z.of_nat (find_byte 0 s) <= V1_MAX_STRING_CONTENT_SIZE
  | VValueless => False
  end.

#[export] Instance v1_fits_dec r : Decision (v1_fits r).
Proof. unfold v1_fits. destruct (_mvalue (_data r)); apply _. Defined.

Lemma length_v1_header type k : length (v1_header type k) = 18%nat.
Proof. unfold v1_header. by rewrite !length_app, !length_be_bytes. Qed.

Lemma encode_v1_fits r : v1_fits r → encode_v1 r = Some (mkEncode SUCCESS (v1_datagram r)).
Proof.
  unfold v1_fits, encode_v1, v1_datagram. cbv zeta.
  destruct (_mvalue (_data r)) as [[v st]|s|]; cbn [get_if_numeric get_if_string _value _state];
    intros Hfit; [| |done].
  - change (Z.to_nat V1_NUMERIC_DATAGRAM_SIZE) with 26%nat.
    rewrite write_v1_header_layout by lia. cbn [mbind option_bind].
    unfold V1_VALUE_OFFSET, V1_STATE_OFFSET. rewrite put_u32_be.
    rewrite copy_into_next by (rewrite ?length_v1_header, ?length_be_bytes; lia).
    cbn [mbind option_bind]. rewrite put_u32_be.
    rewrite copy_into_next
      by (rewrite ?length_app, ?length_v1_header, ?length_be_bytes; lia).
    cbn [mbind option_bind]. rewrite !length_be_bytes. cbn [Nat.sub replicate].
    by rewrite app_nil_r, <- app_assoc.
  - rewrite (proj2 (Z.ltb_ge _ _)) by done.
    unfold V1_HEADER_SIZE. pose proof (find_byte_le 0 s) as Hle.
    set (c := find_byte 0 s) in *.
    replace (Z.to_nat (18 + Z.of_nat c + 1)) with (18 + (c + 1))%nat by lia.
    rewrite write_v1_header_layout by lia. cbn [mbind option_bind].
    rewrite Nat2Z.id. unfold read_range. rewrite decide_True by lia. cbn [mbind option_bind].
    rewrite drop_0. change (Z.to_nat 18) with 18%nat.
    assert (length (take c s) = c) as Hc by (rewrite length_take; lia).
    replace (18 + (c + 1) - 18)%nat with (length (take c s) + 1)%nat by lia.
    rewrite copy_into_zeros by apply length_v1_header. cbn [mbind option_bind].
    cbn [replicate]. rewrite vec_store_app; cbn [mbind option_bind].
    + by rewrite <- app_assoc.
    + rewrite length_app, length_v1_header. lia.
Qed.

Lemma encode_v1_too_long r s :
  _mvalue (_data r) = VString s → ¬ v1_fits r →
  encode_v1 r = Some (make_encode_error STRING_TOO_LONG).
Proof.
  unfold v1_fits, encode_v1. intros -> Hlong. cbn [get_if_numeric get_if_string]. cbv zeta.
  by rewrite (proj2 (Z.ltb_lt _ _)) by lia.
Qed.

Lemma v1_datagram_ok r : record_ok r → bytes_ok (v1_datagram r).
Proof.
  intros [(_ & _ & Hv) _]. unfold v1_datagram, v1_header. cbv zeta.
  destruct (_mvalue (_data r)) as [n|s|]; cbn [value_ok type_code] in *; [| |done];
    repeat (apply Forall_app; split); auto with tlss;
    try (repeat constructor; widlia).
  by apply Forall_take.
Qed.

Lemma v1_datagram_size r :
  v1_fits r → V1_HEADER_SIZE < ♯(v1_datagram r) <= V1_MAX_DATAGRAM_SIZE.
Proof.
  unfold v1_fits, v1_datagram, Zlen, V1_MAX_STRING_CONTENT_SIZE, V1_MAX_DATAGRAM_SIZE,
    V1_HEADER_SIZE. cbv zeta.
  destruct (_mvalue (_data r)) as [n|s|]; intros Hf; [| |done];
    rewrite !length_app, length_v1_header, ?length_be_bytes, ?length_take; simpl; lia.
Qed.

Lemma read_v1_key_layout type k rest :
  key_ok k → bytes_ok (v1_header type k ++ rest) →
  read_v1_key (v1_header type k ++ rest) = Some k.
Proof.
  intros (Hm & Hl & Hf & He). unfold v1_header, read_v1_key. rewrite <- !app_assoc. cbn [app].
  intros Hok. open_offsets.
  do 4 (rewrite get_u32_be by exact Hok; field_at;
        cbn [fmap option_fmap option_map mbind option_bind]; rewrite be_val_bytes, be_mod_32 by done).
  by destruct k.
Qed.

Lemma decode_v1_datagram r :
  record_ok r → v1_fits r →
  decode_v1 (Some (v1_datagram r))
  = Some (mkDecode SUCCESS (Some (mkDecoded V1 (v1_visible (_data r)) None))).
Proof.
  intros Hr Hf. pose proof (v1_datagram_ok r Hr) as Hok.
  pose proof (v1_datagram_size r Hf) as [Hlo Hhi].
  destruct Hr as [(Hk & _ & Hv) _]. unfold decode_v1. cbv zeta. open_offsets.
  rewrite (proj2 (Z.eqb_neq _ 0)) by lia. rewrite (proj2 (Z.ltb_ge _ 18)) by lia.
  rewrite (proj2 (Z.ltb_ge 82 _)) by lia. revert Hok Hlo Hhi. unfold v1_fits in Hf.
  unfold v1_datagram, v1_visible. cbv zeta.
  destruct (_mvalue (_data r)) as [[v st]|s|]; cbn [value_ok _value _state] in *; [| |done];
    intros Hok Hlo Hhi.
  - rewrite read_v1_key_layout by done. cbn [v1_header app type_code] in *.
    cbn [lookup list_lookup mbind option_bind version_code type_code].
    change (1 =? 1) with true. change (0 =? 0) with true. cbn [negb andb].
    rewrite (proj2 (Z.ltb_ge _ 26))
      by (unfold Zlen; cbn [length]; rewrite !length_app, !length_be_bytes; simpl; lia).
    rewrite <- !app_assoc in *.
    do 2 (rewrite get_u32_be by exact Hok; field_at;
          cbn [fmap option_fmap option_map mbind option_bind];
          rewrite be_val_bytes, be_mod_32 by apply Hv).
    done.
  - rewrite read_v1_key_layout by done.
    rewrite read_range_tail.
    + cbn [v1_header app type_code lookup list_lookup mbind option_bind version_code].
      change (1 =? 1) with true. change (1 =? 0) with false. cbn [negb andb].
      rewrite find_byte_app_notin by apply find_byte_take.
      cbn [find_byte]. change (0 =? 0) with true. cbv iota. rewrite Nat.add_0_r.
      pose proof (find_byte_le 0 s). rewrite length_take, Nat.min_l by lia.
      rewrite (proj2 (Z.ltb_ge _ _)) by done.
      rewrite read_range_head by (rewrite length_take; lia). done.
    + by rewrite length_v1_header.
    + unfold Zlen in *. rewrite !length_app, length_v1_header in *. simpl in *. lia.
Qed.

(** ** The contract of the module *)

Definition result_consistent (r : DecodeResult) : Prop :=
  _dstatus r = SUCCESS ↔ is_Some (_drecord r).

Ltac every_branch :=
  repeat (case_match || (intros [= <-]; unfold result_consistent; cbn; split;
                         [done || by eauto | by intros [? ?] || done])
          || match goal with |- mbind _ ?m = Some _ → _ => destruct m eqn:?; [cbn|discriminate] end).

Lemma decode_v1_consistent data r :
  decode_v1 (Some data) = Some r → result_consistent r.
Proof. unfold decode_v1. cbv zeta. every_branch. Qed.

Lemma decode_v2_consistent data r :
  bytes_ok data → decode_v2 (Some data) = Some r → result_consistent r.
Proof.
  intros Hok. unfold decode_v2.
  destruct (read_v2_header_safe data Hok) as (h & -> & Hh). cbn [mbind option_bind].
  destruct (_header h) as [hd|].
  - destruct Hh as [-> _]. cbv zeta. every_branch.
  - destruct (_hstatus h); try done; every_branch.
Qed.

Lemma decode_dispatch_v1 rest : decode (Some (1 :: rest)) = decode_v1 (Some (1 :: rest)).
Proof.
  unfold decode. rewrite Zlen_cons, (proj2 (Z.eqb_neq _ 0)); [done|].
  pose proof (Zlen_nonneg rest). lia.
Qed.
Lemma decode_dispatch_v2 rest : decode (Some (2 :: rest)) = decode_v2 (Some (2 :: rest)).
Proof.
  unfold decode. rewrite Zlen_cons, (proj2 (Z.eqb_neq _ 0)); [done|].
  pose proof (Zlen_nonneg rest). lia.
Qed.

Lemma v2_datagram_head r : ∃ rest, v2_datagram r = 2 :: rest.
Proof. eexists. reflexivity. Qed.
Lemma v1_datagram_head r : v1_fits r → ∃ rest, v1_datagram r = 1 :: rest.
Proof.
  unfold v1_fits, v1_datagram. destruct (_mvalue (_data r)); [eexists; reflexivity..|done].
Qed.

Definition sample_key : MonitorKey := mkKey 7 2 300 70000.
Definition sample_numeric : StoredRecord :=
  mkStored (mkData sample_key [116; 101; 109; 112] (VNumeric (mkNumeric 95 1)))
    (-1500000001).
Definition sample_string : StoredRecord :=
  mkStored (mkData sample_key [] (VString [104; 105; 0; 33])) 1700000000123456789.

(** C2. V2 round trip: every well-formed record that fits in 1200 bytes is
    encoded, without an access outside the datagram, to bytes of exactly the
    announced size, and decoding those bytes gives back the key, description,
    value and the full nanosecond timestamp, negative ones included. *)
Theorem wire_v2_roundtrip r :
  record_ok r → _mvalue (_data r) ≠ VValueless → v2_size r <= V2_MAX_DATAGRAM_SIZE →
  ∃ b, encode r V2 = Some (mkEncode SUCCESS b) ∧ ♯b = v2_size r ∧ bytes_ok b
    ∧ decode (Some b)
      = Some (mkDecode SUCCESS (Some (mkDecoded V2 (_data r) (Some (_changed_at r))))).
Proof.
  intros Hr Hv Hsz. exists (v2_datagram r). cbn [encode].
  rewrite encode_v2_fits by (done || apply Hr). split; [done|].
  split; [apply v2_datagram_size|]. split; [by apply v2_datagram_ok|].
  destruct (v2_datagram_head r) as [rest Hhd]. rewrite Hhd, decode_dispatch_v2, <- Hhd.
  by apply decode_v2_datagram.
Qed.

Lemma wire_v2_roundtrip_witness :
  record_ok sample_numeric ∧ v2_size sample_numeric = 52 ∧
  ∃ b, encode sample_numeric V2 = Some (mkEncode SUCCESS b) ∧ ♯b = v2_size sample_numeric
    ∧ bytes_ok b ∧ decode (Some b)
      = Some (mkDecode SUCCESS (Some (mkDecoded V2 (_data sample_numeric)
          (Some (_changed_at sample_numeric))))).
Proof.
  split; [by apply (bool_decide_unpack _); vm_compute|]. split; [done|].
  apply (wire_v2_roundtrip sample_numeric);
    [by apply (bool_decide_unpack _); vm_compute | done | vm_compute; done].
Defined.

(** The size limit is exact: a record whose V2 datagram would exceed 1200
    bytes is refused with [DATAGRAM_TOO_LARGE] and no bytes, and every other one
    encodes. *)
Theorem wire_v2_size_limit r :
  is_i64 (_changed_at r) → _mvalue (_data r) ≠ VValueless →
  encode r V2 = Some (if v2_size r <=? V2_MAX_DATAGRAM_SIZE
                      then mkEncode SUCCESS (v2_datagram r)
                      else make_encode_error DATAGRAM_TOO_LARGE).
Proof.
  intros Ht Hv. cbn [encode]. case_match; ztests.
  - by apply encode_v2_fits.
  - by apply encode_v2_too_large.
Qed.

Lemma wire_v2_size_limit_witness :
  encode (mkStored (mkData sample_key (replicate 1161 65) (VString [])) 0) V2
  = Some (make_encode_error DATAGRAM_TOO_LARGE).
Proof. rewrite wire_v2_size_limit; [reflexivity | by vm_compute | done]. Defined.

(** Decoding a datagram goes through and is consistent. *)
Lemma wire_decode_safe data : bytes_ok data → ∃ r, decode (Some data) = Some r ∧ result_consistent r.
Proof.
  intros Hin. assert (∀ s, s ≠ SUCCESS → result_consistent (make_decode_error s)) as Herr.
  { intros s Hs. split; [done|by intros [? ?]]. }
  unfold decode. destruct data as [|b rest]; [by eauto|].
  rewrite Zlen_cons, (proj2 (Z.eqb_neq _ 0)) by (pose proof (Zlen_nonneg rest); lia).
  cbn [lookup list_lookup mbind option_bind]. repeat case_match; ztests.
  - destruct (decode_v1_safe _ Hin) as [r Hr]. eauto using decode_v1_consistent.
  - destruct (decode_v2_safe _ Hin) as [r Hr]. eauto using decode_v2_consistent.
  - by eauto.
Qed.

(** Decoding is safe on hostile input: for every byte sequence (and for the
    null pointer) [decode] returns a result without reading outside the
    datagram and without signed overflow, and it returns a record exactly when
    the status is [SUCCESS]. *)
Theorem wire_decode_total input :
  (∀ data, input = Some data → bytes_ok data) →
  ∃ r, decode input = Some r ∧ result_consistent r.
Proof.
  intros Hin. destruct input as [data|]; [by apply wire_decode_safe, Hin|].
  eexists. split; [done|]. split; [done|by intros [? ?]].
Qed.

Lemma wire_decode_total_witness :
  ∃ r, decode (Some [2; 0; 0; 0; 255]) = Some r ∧ result_consistent r.
Proof.
  apply (wire_decode_total (Some [2; 0; 0; 0; 255])). intros d [= <-].
  by apply (bool_decide_unpack _); vm_compute.
Defined.

(** V2 is canonical: whatever the V2 decoder accepts is byte for byte what
    the encoder produces for the record it returns, so two different datagrams
    never decode to the same record. *)
Theorem wire_v2_canonical data d :
  bytes_ok data → decode_v2 (Some data) = Some (mkDecode SUCCESS (Some d)) →
  ∃ ts, _dchanged_at d = Some ts
    ∧ encode (mkStored (_ddata d) ts) V2 = Some (mkEncode SUCCESS data).
Proof.
  intros Hok Hd. destruct (decode_v2_canonical_aux data d Hok Hd)
    as (ts & Hts & _ & Hr & Hv & Hsz & ->).
  exists ts. split; [done|]. apply encode_v2_fits; [apply Hr|done|done].
Qed.

Lemma wire_v2_canonical_witness :
  ∃ ts, _dchanged_at (mkDecoded V2 (_data sample_string) (Some 1700000000123456789)) = Some ts
    ∧ encode (mkStored (_data sample_string) ts) V2
      = Some (mkEncode SUCCESS (v2_datagram sample_string)).
Proof.
  apply (wire_v2_canonical (v2_datagram sample_string)
    (mkDecoded V2 (_data sample_string) (Some 1700000000123456789)));
    [by apply (bool_decide_unpack _); vm_compute | vm_compute; reflexivity].
Defined.

(** V1 compatibility: a numeric record always encodes, a string record
    encodes exactly when its text before the first NUL has at most 63 bytes and
    is otherwise refused with [STRING_TOO_LONG]; what was encoded is at most 82
    bytes and decodes to the same key and visible value, without description
    and timestamp. *)
Theorem wire_v1_roundtrip r :
  record_ok r → _mvalue (_data r) ≠ VValueless →
  if decide (v1_fits r)
  then ∃ b, encode r V1 = Some (mkEncode SUCCESS b) ∧ ♯b <= V1_MAX_DATAGRAM_SIZE
    ∧ decode (Some b)
      = Some (mkDecode SUCCESS (Some (mkDecoded V1 (v1_visible (_data r)) None)))
  else encode r V1 = Some (make_encode_error STRING_TOO_LONG).
Proof.
  intros Hr Hv. cbn [encode]. case_decide as Hf.
  - exists (v1_datagram r). split; [by apply encode_v1_fits|].
    split; [by apply v1_datagram_size|].
    destruct (v1_datagram_head r Hf) as [rest Hhd]. rewrite Hhd, decode_dispatch_v1, <- Hhd.
    by apply decode_v1_datagram.
  - unfold v1_fits in *. destruct (_mvalue (_data r)) as [n|s|] eqn:E; [done| |done].
    apply (encode_v1_too_long r s E). unfold v1_fits. by rewrite E.
Qed.

Lemma wire_v1_roundtrip_witness :
  ∃ b, encode sample_string V1 = Some (mkEncode SUCCESS b) ∧ ♯b <= V1_MAX_DATAGRAM_SIZE
    ∧ decode (Some b) = Some (mkDecode SUCCESS (Some (mkDecoded V1
        (mkData sample_key [] (VString [104; 105])) None))).
Proof.
  apply (wire_v1_roundtrip sample_string); [by apply (bool_decide_unpack _); vm_compute|done].
Defined.
