(* ===== verification/AlarmProtocol.v ===== *)
(** Reliable alarm frames: the 48-byte envelope with its CRC32
    ([src/monitor/alarm_protocol.cpp], [inc/monitor/alarm_protocol.h]).

    Memory accesses run in [option], [None] being an access outside the buffer;
    an input is [option bytes], [None] being the null pointer. The outcome of a
    heap allocation is the argument [alloc_ok] of the functions that catch
    [std::bad_alloc]. *)

From S2P Require Import Prelude.
#[local] Open Scope tlss_scope.

(** ** Protocol constants and types *)

Definition ALARM_MAGIC : bytes := [83; 77; 65; 49].
Definition ALARM_PROTOCOL_VERSION : Z := 1.
Definition ALARM_MESSAGE_ID_SIZE : nat := 16.
Definition ALARM_MAX_PAYLOAD_SIZE : Z := 4096.

Definition ALARM_MAGIC_OFFSET : nat := 0.
Definition ALARM_VERSION_OFFSET : nat := 4.
Definition ALARM_TYPE_OFFSET : nat := 5.
Definition ALARM_FLAGS_OFFSET : nat := 6.
Definition ALARM_PAYLOAD_LENGTH_OFFSET : nat := 8.
Definition ALARM_SOURCE_ID_OFFSET : nat := 12.
Definition ALARM_MESSAGE_ID_OFFSET : nat := 20.
Definition ALARM_TIMESTAMP_OFFSET : nat := 36.
Definition ALARM_CRC32_OFFSET : nat := 44.
Definition ALARM_HEADER_SIZE : Z := 48.
Definition ALARM_MAX_FRAME_SIZE : Z := ALARM_HEADER_SIZE + ALARM_MAX_PAYLOAD_SIZE.
Definition ALARM_CURRENT_FLAGS : Z := 0.

Definition CRC32_INITIAL : Z := 0xffffffff.
Definition CRC32_POLYNOMIAL : Z := 0xedb88320.

(** A scoped enum over [uint8_t]; [OtherFrame] is a value that is none of the
    enumerators. *)
Inductive AlarmFrameType := ALARM | ACK | PING | PONG | OtherFrame (raw : Z).

Definition frame_code (t : AlarmFrameType) : Z :=
  match t with ALARM => 1 | ACK => 2 | PING => 3 | PONG => 4 | OtherFrame raw => raw end.
Definition frame_of_code (raw : Z) : AlarmFrameType :=
  if raw =? 1 then ALARM else if raw =? 2 then ACK else if raw =? 3 then PING
  else if raw =? 4 then PONG else OtherFrame raw.

Definition is_valid_alarm_frame_type (type : AlarmFrameType) : bool :=
  match type with ALARM | ACK | PING | PONG => true | OtherFrame _ => false end.
Definition alarm_frame_requires_payload (type : AlarmFrameType) : bool :=
  match type with ALARM => true | _ => false end.
Definition is_alarm_control_frame (type : AlarmFrameType) : bool :=
  match type with ACK | PING | PONG => true | _ => false end.

Record AlarmFrame := mkFrame {
  _ftype : AlarmFrameType;
  _source_id : Z;
  _message_id : bytes;
  _timestamp_ms : Z;
  _payload : bytes
}.

Inductive AlarmProtocolStatus :=
  | SUCCESS | EMPTY_INPUT | SHORT_HEADER | WRONG_MAGIC | WRONG_VERSION | INVALID_TYPE
  | INVALID_FLAGS | INVALID_PAYLOAD_LENGTH | PAYLOAD_TOO_LARGE | INVALID_TOTAL_LENGTH
  | CRC_MISMATCH | INVALID_PAYLOAD | ALLOCATION_FAILED.

#[export] Instance AlarmFrameType_eq_dec : EqDecision AlarmFrameType.
Proof. solve_decision. Defined.
#[export] Instance AlarmFrame_eq_dec : EqDecision AlarmFrame.
Proof. solve_decision. Defined.
#[export] Instance AlarmProtocolStatus_eq_dec : EqDecision AlarmProtocolStatus.
Proof. solve_decision. Defined.

Record AlarmEncodeResult := mkAEncode { _aestatus : AlarmProtocolStatus; _abytes : bytes }.
Record AlarmDecodeResult := mkADecode {
  _adstatus : AlarmProtocolStatus; _frame : option AlarmFrame }.
Record AlarmFrameSizeResult := mkASize {
  _asstatus : AlarmProtocolStatus; _frame_size : option Z }.

Definition encode_success (r : AlarmEncodeResult) : bool :=
  bool_decide (_aestatus r = SUCCESS) && (ALARM_HEADER_SIZE <=? ♯(_abytes r))
  && (♯(_abytes r) <=? ALARM_MAX_FRAME_SIZE).
Definition decode_success (r : AlarmDecodeResult) : bool :=
  bool_decide (_adstatus r = SUCCESS) && match _frame r with Some _ => true | None => false end.
Definition size_success (r : AlarmFrameSizeResult) : bool :=
  bool_decide (_asstatus r = SUCCESS)
  && match _frame_size r with
     | Some n => (ALARM_HEADER_SIZE <=? n) && (n <=? ALARM_MAX_FRAME_SIZE)
     | None => false
     end.

Definition make_encode_error (status : AlarmProtocolStatus) : AlarmEncodeResult :=
  mkAEncode status [].
Definition make_decode_error (status : AlarmProtocolStatus) : AlarmDecodeResult :=
  mkADecode status None.
Definition make_size_error (status : AlarmProtocolStatus) : AlarmFrameSizeResult :=
  mkASize status None.

(** ** Integers in network byte order *)

Definition put_u16 (out : bytes) (off : nat) (value : Z) : option bytes :=
  out ← vec_store out off (u8 (Z.shiftr value 8));
  vec_store out (off + 1) (u8 value).

Definition put_u32 (out : bytes) (off : nat) (value : Z) : option bytes :=
  out ← vec_store out off (u8 (Z.shiftr value 24));
  out ← vec_store out (off + 1) (u8 (Z.shiftr value 16));
  out ← vec_store out (off + 2) (u8 (Z.shiftr value 8));
  vec_store out (off + 3) (u8 value).

Definition put_u64 (out : bytes) (off : nat) (value : Z) : option bytes :=
  out ← vec_store out off (u8 (Z.shiftr value 56));
  out ← vec_store out (off + 1) (u8 (Z.shiftr value 48));
  out ← vec_store out (off + 2) (u8 (Z.shiftr value 40));
  out ← vec_store out (off + 3) (u8 (Z.shiftr value 32));
  out ← vec_store out (off + 4) (u8 (Z.shiftr value 24));
  out ← vec_store out (off + 5) (u8 (Z.shiftr value 16));
  out ← vec_store out (off + 6) (u8 (Z.shiftr value 8));
  vec_store out (off + 7) (u8 value).

Definition get_u16 (inp : bytes) (off : nat) : option Z :=
  b0 ← inp !! off; b1 ← inp !! (off + 1)%nat;
  Some (u16 (Z.lor (Z.shiftl b0 8) b1)).

Definition get_u32 (inp : bytes) (off : nat) : option Z :=
  b0 ← inp !! off; b1 ← inp !! (off + 1)%nat;
  b2 ← inp !! (off + 2)%nat; b3 ← inp !! (off + 3)%nat;
  Some (Z.lor (Z.lor (Z.lor (Z.shiftl b0 24) (Z.shiftl b1 16)) (Z.shiftl b2 8)) b3).

(** [for (i = 0; i < sizeof(uint64_t); ++i) value = (value << 8) | input[i]] *)
Fixpoint get_u64_loop (inp : bytes) (off n : nat) (value : Z) : option Z :=
  match n with
  | O => Some value
  | S n' => b ← inp !! off; get_u64_loop inp (S off) n' (Z.lor (u64 (Z.shiftl value 8)) b)
  end.
Definition get_u64 (inp : bytes) (off : nat) : option Z := get_u64_loop inp off 8 0.

(** ** CRC32 *)

Definition crc32_bit (crc : Z) : Z :=
  let mask := u32 (- Z.land crc 1) in
  Z.lxor (Z.shiftr crc 1) (Z.land CRC32_POLYNOMIAL mask).

Definition crc32_byte (crc byte : Z) : Z := Nat.iter 8 crc32_bit (Z.lxor crc byte).

Fixpoint crc32_update (crc : Z) (data : bytes) (off size : nat) : option Z :=
  match size with
  | O => Some crc
  | S n => b ← data !! off; crc32_update (crc32_byte crc b) data (S off) n
  end.

Definition calculate_frame_crc (data : bytes) (payload_size : Z) : option Z :=
  crc ← crc32_update CRC32_INITIAL data 0 ALARM_CRC32_OFFSET;
  crc ← crc32_update crc data (Z.to_nat ALARM_HEADER_SIZE) (Z.to_nat payload_size);
  Some (Z.lxor crc CRC32_INITIAL).

(** [alarm_crc32(data, size)]: a null pointer with a nonzero size gives 0. *)
Definition alarm_crc32 (data : option bytes) (size : Z) : option Z :=
  match data with
  | None => if negb (size =? 0) then Some 0 else Some (Z.lxor CRC32_INITIAL CRC32_INITIAL)
  | Some data =>
      crc ← crc32_update CRC32_INITIAL data 0 (Z.to_nat size);
      Some (Z.lxor crc CRC32_INITIAL)
  end.

(** ** Header validation *)

Definition has_valid_magic (data : bytes) : option bool :=
  m ← read_range data ALARM_MAGIC_OFFSET (length ALARM_MAGIC);
  Some (bool_decide (m = ALARM_MAGIC)).

Definition is_valid_raw_type (raw_type : Z) : bool :=
  (frame_code ALARM <=? raw_type) && (raw_type <=? frame_code PONG).

Definition validate_frame_description (type : AlarmFrameType) (payload_size : Z)
    : AlarmProtocolStatus :=
  if negb (is_valid_alarm_frame_type type) then INVALID_TYPE else
  if ALARM_MAX_PAYLOAD_SIZE <? payload_size then PAYLOAD_TOO_LARGE else
  if alarm_frame_requires_payload type && (payload_size =? 0) then INVALID_PAYLOAD_LENGTH else
  if is_alarm_control_frame type && negb (payload_size =? 0) then INVALID_PAYLOAD_LENGTH else
  SUCCESS.

Definition alarm_frame_size (input : option bytes) : option AlarmFrameSizeResult :=
  match input with
  | None => Some (make_size_error EMPTY_INPUT)
  | Some prefix =>
  let prefix_size := ♯prefix in
  if prefix_size =? 0 then Some (make_size_error EMPTY_INPUT) else
  if prefix_size <? ALARM_HEADER_SIZE then Some (make_size_error SHORT_HEADER) else
  magic ← has_valid_magic prefix;
  if negb magic then Some (make_size_error WRONG_MAGIC) else
  version ← prefix !! ALARM_VERSION_OFFSET;
  if negb (version =? ALARM_PROTOCOL_VERSION) then Some (make_size_error WRONG_VERSION) else
  raw_type ← prefix !! ALARM_TYPE_OFFSET;
  if negb (is_valid_raw_type raw_type) then Some (make_size_error INVALID_TYPE) else
  flags ← get_u16 prefix ALARM_FLAGS_OFFSET;
  if negb (flags =? ALARM_CURRENT_FLAGS) then Some (make_size_error INVALID_FLAGS) else
  payload_length ← get_u32 prefix ALARM_PAYLOAD_LENGTH_OFFSET;
  let type := frame_of_code raw_type in
  match validate_frame_description type payload_length with
  | SUCCESS => Some (mkASize SUCCESS (Some (ALARM_HEADER_SIZE + payload_length)))
  | validation => Some (make_size_error validation)
  end
  end.

(** ** Encoding and decoding *)

Definition encode_alarm_frame (alloc_ok : bool) (frame : AlarmFrame) : option AlarmEncodeResult :=
  match validate_frame_description (_ftype frame) (♯(_payload frame)) with
  | SUCCESS =>
      if negb alloc_ok then Some (make_encode_error ALLOCATION_FAILED) else
      let total_size := ALARM_HEADER_SIZE + ♯(_payload frame) in
      let b := replicate (Z.to_nat total_size) 0 in
      b ← copy_into b ALARM_MAGIC_OFFSET ALARM_MAGIC;
      b ← vec_store b ALARM_VERSION_OFFSET ALARM_PROTOCOL_VERSION;
      b ← vec_store b ALARM_TYPE_OFFSET (frame_code (_ftype frame));
      b ← put_u16 b ALARM_FLAGS_OFFSET ALARM_CURRENT_FLAGS;
      b ← put_u32 b ALARM_PAYLOAD_LENGTH_OFFSET (u32 (♯(_payload frame)));
      b ← put_u64 b ALARM_SOURCE_ID_OFFSET (_source_id frame);
      b ← copy_into b ALARM_MESSAGE_ID_OFFSET (_message_id frame);
      b ← put_u64 b ALARM_TIMESTAMP_OFFSET (_timestamp_ms frame);
      b ← (if bool_decide (_payload frame = []) then Some b
           else copy_into b (Z.to_nat ALARM_HEADER_SIZE) (_payload frame));
      crc ← calculate_frame_crc b (♯(_payload frame));
      b ← put_u32 b ALARM_CRC32_OFFSET crc;
      Some (mkAEncode SUCCESS b)
  | validation => Some (make_encode_error validation)
  end.

Definition decode_alarm_frame (alloc_ok : bool) (input : option bytes)
    : option AlarmDecodeResult :=
  size_result ← alarm_frame_size input;
  if negb (size_success size_result) then Some (make_decode_error (_asstatus size_result)) else
  match input, _frame_size size_result with
  | Some data, Some frame_size =>
      let size := ♯data in
      if negb (size =? frame_size) then Some (make_decode_error INVALID_TOTAL_LENGTH) else
      let payload_size := size - ALARM_HEADER_SIZE in
      expected_crc ← get_u32 data ALARM_CRC32_OFFSET;
      actual_crc ← calculate_frame_crc data payload_size;
      if negb (expected_crc =? actual_crc) then Some (make_decode_error CRC_MISMATCH) else
      raw_type ← data !! ALARM_TYPE_OFFSET;
      source_id ← get_u64 data ALARM_SOURCE_ID_OFFSET;
      message_id ← read_range data ALARM_MESSAGE_ID_OFFSET ALARM_MESSAGE_ID_SIZE;
      timestamp_ms ← get_u64 data ALARM_TIMESTAMP_OFFSET;
      if negb (payload_size =? 0) then
        if negb alloc_ok then Some (make_decode_error ALLOCATION_FAILED) else
        payload ← read_range data (Z.to_nat ALARM_HEADER_SIZE) (Z.to_nat payload_size);
        Some (mkADecode SUCCESS (Some (mkFrame (frame_of_code raw_type) source_id message_id
          timestamp_ms payload)))
      else
        Some (mkADecode SUCCESS (Some (mkFrame (frame_of_code raw_type) source_id message_id
          timestamp_ms [])))
  | _, _ => None
  end.

(** ** CRC32 as a function on lists *)

Definition crc32_list (crc : Z) (l : bytes) : Z := fold_left crc32_byte l crc.

Lemma crc32_update_app crc pre mid post off n :
  length pre = off → length mid = n →
  crc32_update crc (pre ++ mid ++ post) off n = Some (crc32_list crc mid).
Proof.
  intros <- <-. revert pre crc. induction mid as [|b mid IH]; intros pre crc; [done|].
  cbn [length crc32_update app]. rewrite lookup_app_mid by done. cbn [mbind option_bind].
  specialize (IH (pre ++ [b]) (crc32_byte crc b)).
  rewrite length_app, Nat.add_1_r, <- app_assoc in IH. exact IH.
Qed.

Lemma crc32_list_app crc l k : crc32_list crc (l ++ k) = crc32_list (crc32_list crc l) k.
Proof. apply fold_left_app. Qed.

(** *** Every step is invertible

    The polynomial has its top bit set, so that bit of the result tells which
    way the last bit of the register went. *)

Definition crc32_unbit (r : Z) : Z :=
  if Z.testbit r 31 then 2 * Z.lxor r CRC32_POLYNOMIAL + 1 else 2 * r.

Lemma crc32_bit_odd c :
  is_u32 c → crc32_bit c = if Z.odd c then Z.lxor (c / 2) CRC32_POLYNOMIAL else c / 2.
Proof.
  intros Hc. unfold crc32_bit. change 1 with (Z.ones 1).
  rewrite Z.land_ones by lia. change (2 ^ 1) with 2. rewrite Zmod_odd.
  rewrite <- Z.div2_spec, Z.div2_div. destruct (Z.odd c); [done|].
  change (Z.land CRC32_POLYNOMIAL (u32 (- 0))) with 0. apply Z.lxor_0_r.
Qed.

Lemma u32_bits_high c i : is_u32 c → 32 <= i → Z.testbit c i = false.
Proof.
  intros Hc Hi. apply Z.testbit_false; [lia|]. rewrite Z.div_small; [done|].
  pose proof (Z.pow_le_mono_r 2 32 i). unfold is_u32 in *. lia.
Qed.

Lemma is_u32_bits c : 0 <= c → (∀ i, 32 <= i → Z.testbit c i = false) → is_u32 c.
Proof.
  intros Hc Hb. split; [done|]. destruct (Z.lt_ge_cases c (2 ^ 32)) as [|Hge]; [done|].
  exfalso. assert (0 < c) as Hpos by lia.
  pose proof (Z.bit_log2 c Hpos) as Hlog. rewrite Hb in Hlog; [done|].
  apply Z.log2_le_pow2; done.
Qed.

Lemma lxor_u32 a b : is_u32 a → is_u32 b → is_u32 (Z.lxor a b).
Proof.
  intros Ha Hb. apply is_u32_bits.
  - apply Z.lxor_nonneg. unfold is_u32 in *. lia.
  - intros i Hi. rewrite Z.lxor_spec, !u32_bits_high by done. done.
Qed.

Lemma byte_u32 b : is_byte b → is_u32 b.
Proof. widlia. Qed.

Lemma crc32_bit_u32 c : is_u32 c → is_u32 (crc32_bit c).
Proof.
  intros Hc. rewrite crc32_bit_odd by done.
  assert (is_u32 (c / 2)) by dlia. case_match; [|done]. by apply lxor_u32.
Qed.

Lemma crc32_unbit_bit c : is_u32 c → crc32_unbit (crc32_bit c) = c.
Proof.
  intros Hc. rewrite crc32_bit_odd by done. unfold crc32_unbit.
  assert (Z.testbit (c / 2) 31 = false) as Htop.
  { rewrite Z.div2_bits by lia. by apply u32_bits_high. }
  pose proof (Z.div_mod c 2) as Hdm. rewrite Zmod_odd in Hdm. destruct (Z.odd c).
  - rewrite Z.lxor_spec, Htop. change (Z.testbit CRC32_POLYNOMIAL 31) with true.
    cbn [xorb]. rewrite Z.lxor_assoc, Z.lxor_nilpotent, Z.lxor_0_r. lia.
  - rewrite Htop. lia.
Qed.

Lemma crc32_bits_inj n c d :
  is_u32 c → is_u32 d → Nat.iter n crc32_bit c = Nat.iter n crc32_bit d → c = d.
Proof.
  assert (∀ m x, is_u32 x → is_u32 (Nat.iter m crc32_bit x)) as Hu.
  { intros m x Hx. induction m; simpl; auto using crc32_bit_u32. }
  intros Hc Hd. induction n as [|n IH]; simpl; [done|]. intros He. apply IH.
  rewrite <- (crc32_unbit_bit (Nat.iter n crc32_bit c)), He by auto.
  by apply crc32_unbit_bit, Hu.
Qed.

Lemma crc32_bits_u32 n x : is_u32 x → is_u32 (Nat.iter n crc32_bit x).
Proof. intros Hx. induction n; simpl; auto using crc32_bit_u32. Qed.

Lemma crc32_byte_u32 c b : is_u32 c → is_byte b → is_u32 (crc32_byte c b).
Proof. intros. by apply crc32_bits_u32, lxor_u32; [|apply byte_u32]. Qed.

Lemma crc32_list_u32 c l : is_u32 c → bytes_ok l → is_u32 (crc32_list c l).
Proof.
  intros Hc Hl. revert c Hc. induction Hl as [|b l Hb _ IH]; intros c Hc; [done|].
  by apply IH, crc32_byte_u32.
Qed.

Lemma lxor_cancel_l a b c : Z.lxor a b = Z.lxor a c → b = c.
Proof.
  intros He. rewrite <- (Z.lxor_0_l b), <- (Z.lxor_0_l c), <- (Z.lxor_nilpotent a).
  by rewrite !Z.lxor_assoc, He.
Qed.

Lemma crc32_list_inj_init c d l :
  is_u32 c → is_u32 d → bytes_ok l → crc32_list c l = crc32_list d l → c = d.
Proof.
  intros Hc Hd Hl. revert c d Hc Hd.
  induction Hl as [|b l Hb _ IH]; intros c d Hc Hd; [done|].
  cbn [crc32_list fold_left]. fold (crc32_list (crc32_byte c b) l).
  fold (crc32_list (crc32_byte d b) l). intros He.
  apply IH in He; [|by apply crc32_byte_u32..].
  apply (crc32_bits_inj 8) in He; [|by apply lxor_u32; [|apply byte_u32]..].
  rewrite !(Z.lxor_comm _ b) in He. by apply lxor_cancel_l in He.
Qed.

(** *** Four bytes fill the register

    Bits shifted in from above reach the low end unchanged, so a window of up
    to four bytes acts on the register as one exclusive or. *)

Lemma crc32_bit_shift c x :
  is_u32 c → 0 <= x < 2 ^ 31 → crc32_bit (Z.lxor c (2 * x)) = Z.lxor (crc32_bit c) x.
Proof.
  intros Hc Hx. assert (is_u32 (2 * x)) by (unfold is_u32; lia).
  rewrite !crc32_bit_odd by (done || by apply lxor_u32).
  rewrite <- !Z.bit0_odd, Z.lxor_spec, Z.testbit_even_0, xorb_false_r.
  assert (Z.lxor c (2 * x) / 2 = Z.lxor (c / 2) x) as ->.
  { rewrite <- !Z.div2_div, !Z.div2_spec, Z.shiftr_lxor. f_equal.
    rewrite <- Z.div2_spec, Z.div2_div. rewrite Z.mul_comm. by apply Z.div_mul. }
  destruct (Z.testbit c 0); [|done].
  by rewrite !Z.lxor_assoc, (Z.lxor_comm x).
Qed.

Lemma crc32_bits_shift n c x :
  is_u32 c → 0 <= x → x * 2 ^ Z.of_nat n < 2 ^ 32 →
  Nat.iter n crc32_bit (Z.lxor c (x * 2 ^ Z.of_nat n)) = Z.lxor (Nat.iter n crc32_bit c) x.
Proof.
  intros Hc. revert x. induction n as [|n IH]; intros x Hx Hlt.
  - cbn [Nat.iter]. by rewrite Z.mul_1_r.
  - rewrite Nat2Z.inj_succ, Z.pow_succ_r in * by lia. cbn [Nat.iter nat_rect].
    replace (x * (2 * 2 ^ Z.of_nat n)) with ((2 * x) * 2 ^ Z.of_nat n) in * by lia.
    change (nat_rect _ ?a (λ _, ?f) n) with (Nat.iter n f a).
    rewrite IH by lia. apply crc32_bit_shift; [by apply crc32_bits_u32|]. nia.
Qed.

Fixpoint le_val (l : bytes) : Z :=
  match l with [] => 0 | b :: rest => b + le_val rest * 2 ^ 8 end.

Lemma le_val_bound l : bytes_ok l → 0 <= le_val l < 2 ^ (8 * Zlen l).
Proof.
  induction 1 as [|b l Hb _ IH]; [done|]. cbn [le_val].
  rewrite Zlen_cons, Z.mul_add_distr_l, Z.pow_add_r by (pose proof (Zlen_nonneg l); lia).
  change (2 ^ (8 * 1)) with 256. width. nia.
Qed.

Lemma le_val_inj l k :
  length l = length k → bytes_ok l → bytes_ok k → le_val l = le_val k → l = k.
Proof.
  intros Hlen Hl. revert k Hlen. induction Hl as [|b l Hb _ IH]; intros [|c k] Hlen; try done.
  intros [Hc Hk]%Forall_cons_1. cbn [le_val]. width. intros He. f_equal; [lia|].
  apply IH; [simpl in *; lia|done|lia].
Qed.

Lemma lxor_byte_high b v : is_byte b → Z.lxor b (v * 2 ^ 8) = b + v * 2 ^ 8.
Proof.
  intros Hb. symmetry. apply Z.add_nocarry_lxor. apply Z.bits_inj'. intros i Hi.
  rewrite Z.land_spec, Z.bits_0. destruct (Z.lt_ge_cases i 8).
  - rewrite (Z.mul_pow2_bits_low v) by lia. apply andb_false_r.
  - enough (Z.testbit b i = false) as -> by done. apply Z.testbit_false; [done|].
    rewrite Z.div_small; [done|]. pose proof (Z.pow_le_mono_r 2 8 i). unfold is_byte in *. lia.
Qed.

Lemma crc32_list_window c w :
  is_u32 c → bytes_ok w → (length w <= 4)%nat →
  crc32_list c w = Nat.iter (8 * length w) crc32_bit (Z.lxor c (le_val w)).
Proof.
  intros Hc Hw. revert c Hc. induction Hw as [|b w Hb Hw IH]; intros c Hc Hlen.
  { cbn [crc32_list fold_left length le_val]. by rewrite Z.lxor_0_r. }
  cbn [crc32_list fold_left length le_val] in *. fold (crc32_list (crc32_byte c b) w).
  rewrite IH by (auto using crc32_byte_u32; lia). unfold crc32_byte.
  pose proof (le_val_bound w Hw) as Hbd.
  assert (le_val w * 2 ^ Z.of_nat 8 < 2 ^ 32) as Hlt.
  { assert (2 ^ (8 * Zlen w) <= 2 ^ 24) by (apply Z.pow_le_mono_r; unfold Zlen; lia).
    change (2 ^ 24) with 16777216 in *. change (2 ^ Z.of_nat 8) with 256. widlia. }
  rewrite <- crc32_bits_shift by (done || lia || by apply lxor_u32; [|apply byte_u32]).
  change (2 ^ Z.of_nat 8) with (2 ^ 8). rewrite Z.lxor_assoc, lxor_byte_high by done.
  replace (8 * S (length w))%nat with (8 * length w + 8)%nat by lia.
  by rewrite Nat.iter_add.
Qed.

(** A change confined to four consecutive bytes changes the checksum. *)
Lemma crc32_burst c pre w w' post :
  is_u32 c → bytes_ok pre → bytes_ok post → bytes_ok w → bytes_ok w' →
  length w = length w' → (length w <= 4)%nat →
  crc32_list c (pre ++ w ++ post) = crc32_list c (pre ++ w' ++ post) → w = w'.
Proof.
  intros Hc Hpre Hpost Hw Hw' Hlen Hle. rewrite !crc32_list_app. intros He.
  assert (is_u32 (crc32_list c pre)) as Hp by by apply crc32_list_u32.
  apply crc32_list_inj_init in He; [|by apply crc32_list_u32..|done].
  rewrite (crc32_list_window _ w), (crc32_list_window _ w'), <- Hlen in He by (done || lia).
  assert (∀ v, bytes_ok v → length v = length w → is_u32 (le_val v)) as Hv.
  { intros v Hv Hvl. pose proof (le_val_bound v Hv) as Hb.
    assert (2 ^ (8 * Zlen v) <= 2 ^ 32) by (apply Z.pow_le_mono_r; unfold Zlen; lia).
    unfold is_u32. lia. }
  apply crc32_bits_inj in He; [|by apply lxor_u32; auto..].
  apply lxor_cancel_l in He. by apply le_val_inj.
Qed.

(** ** The byte-order primitives against big-endian numbers *)

Lemma alarm_put_u16_be out off v : put_u16 out off v = copy_into out off (be_bytes 2 v).
Proof. unfold put_u16. put_be. Qed.
Lemma alarm_put_u32_be out off v : put_u32 out off v = copy_into out off (be_bytes 4 v).
Proof. unfold put_u32. put_be. Qed.
Lemma alarm_put_u64_be out off v : put_u64 out off v = copy_into out off (be_bytes 8 v).
Proof. unfold put_u64. put_be. Qed.

Lemma alarm_get_u16_be inp off :
  bytes_ok inp → get_u16 inp off = be_val <$> read_range inp off 2.
Proof.
  unfold get_u16. intros Hok. get_be.
  rewrite be_lor_2, be_lor_val by done. f_equal. apply Z.mod_small.
  by apply (be_val_bound [_; _]).
Qed.
Lemma alarm_get_u32_be inp off :
  bytes_ok inp → get_u32 inp off = be_val <$> read_range inp off 4.
Proof. unfold get_u32. intros Hok. get_be. by rewrite be_lor_4, be_lor_val. Qed.

Lemma get_u64_loop_be pre mid post off n v :
  bytes_ok mid → length pre = off → length mid = n → 0 <= v → (v + 1) * 256 ^ Zlen mid <= 2 ^ 64 →
  get_u64_loop (pre ++ mid ++ post) off n v = Some (v * 256 ^ Zlen mid + be_val mid).
Proof.
  intros Hok <- <-. revert pre v. induction Hok as [|b mid Hb Hmid IH]; intros pre v Hv Hlt.
  { cbn. f_equal. change (Zlen []) with 0. unfold be_val; simpl; lia. }
  cbn [length get_u64_loop app]. rewrite lookup_app_mid by done. cbn [mbind option_bind].
  rewrite Zlen_cons, Z.pow_add_r in * by (pose proof (Zlen_nonneg mid); lia).
  change (256 ^ 1) with 256 in *.
  assert (0 < 256 ^ Zlen mid) by (apply Z.pow_pos_nonneg; [lia|apply Zlen_nonneg]).
  assert (v * 256 < 2 ^ 64) by nia.
  assert ((v * 256 + b + 1) * 256 ^ Zlen mid <= 2 ^ 64) by (width; nia).
  assert (u64 (Z.shiftl v 8) = Z.shiftl v 8) as ->.
  { unfold u64. apply Z.mod_small. rewrite Z.shiftl_mul_pow2 by lia. change (2 ^ 8) with 256. lia. }
  rewrite lor_shiftl_8 by done.
  specialize (IH (pre ++ [b]) (v * 256 + b)).
  rewrite length_app, Nat.add_1_r, <- app_assoc in IH. cbn [app] in IH.
  rewrite IH, be_val_cons; [f_equal; lia|widlia|done].
Qed.

Lemma alarm_get_u64_be inp off v :
  bytes_ok inp → be_val <$> read_range inp off 8 = Some v → get_u64 inp off = Some v.
Proof.
  intros Hok Hv. destruct (read_range inp off 8) as [l|] eqn:Hr; [|done]. simplify_eq/=.
  pose proof (read_range_ok _ _ _ _ Hok Hr).
  pose proof (read_range_spec _ _ _ _ Hr) as [Hl (pre & post & -> & Hp)].
  unfold get_u64. rewrite (get_u64_loop_be pre l post) by
    (done || lia || (unfold Zlen; rewrite Hl; done)). reflexivity.
Qed.

(** ** Layout of a frame *)

Definition frame_ok (f : AlarmFrame) : Prop :=
  validate_frame_description (_ftype f) (♯(_payload f)) = SUCCESS
  ∧ is_u64 (_source_id f) ∧ length (_message_id f) = ALARM_MESSAGE_ID_SIZE
  ∧ bytes_ok (_message_id f) ∧ is_u64 (_timestamp_ms f) ∧ bytes_ok (_payload f).

#[export] Instance frame_ok_dec f : Decision (frame_ok f).
Proof. unfold frame_ok; apply _. Defined.

(** The 44 bytes in front of the checksum. *)
Definition frame_prefix (f : AlarmFrame) : bytes :=
  ALARM_MAGIC ++ [1; frame_code (_ftype f)] ++ be_bytes 2 0 ++ be_bytes 4 (♯(_payload f))
  ++ be_bytes 8 (_source_id f) ++ _message_id f ++ be_bytes 8 (_timestamp_ms f).

(** CRC-32 of the bytes of a frame other than the checksum field. *)
Definition covered_crc (l : bytes) : Z := Z.lxor (crc32_list CRC32_INITIAL l) CRC32_INITIAL.

Definition frame_bytes (f : AlarmFrame) : bytes :=
  frame_prefix f ++ be_bytes 4 (covered_crc (frame_prefix f ++ _payload f)) ++ _payload f.

Lemma validate_success t p :
  validate_frame_description t p = SUCCESS ↔
  is_valid_alarm_frame_type t = true ∧ p <= ALARM_MAX_PAYLOAD_SIZE
  ∧ (t = ALARM ↔ p ≠ 0).
Proof.
  unfold validate_frame_description. destruct t; cbn; repeat case_match; ztests; split; intros;
    try done; destruct_and?; try (by exfalso; naive_solver lia); naive_solver lia.
Qed.

Lemma frame_ok_payload f : frame_ok f → 0 <= ♯(_payload f) <= 4096.
Proof.
  intros [Hv%validate_success _]. pose proof (Zlen_nonneg (_payload f)).
  unfold ALARM_MAX_PAYLOAD_SIZE in *. lia.
Qed.

Lemma length_frame_prefix f : length (_message_id f) = 16%nat → length (frame_prefix f) = 44%nat.
Proof.
  intros Hm. unfold frame_prefix. rewrite !length_app, !length_be_bytes, Hm. done.
Qed.

Lemma frame_bytes_size f : frame_ok f → ♯(frame_bytes f) = 48 + ♯(_payload f).
Proof.
  intros (_ & _ & Hm & _). unfold frame_bytes, Zlen.
  rewrite !length_app, length_frame_prefix, length_be_bytes by done. lia.
Qed.

Lemma frame_prefix_ok f : frame_ok f → bytes_ok (frame_prefix f).
Proof.
  intros ([Ht _]%validate_success & _ & _ & Hm & _). unfold frame_prefix.
  repeat (apply Forall_app; split); auto with tlss.
  - repeat constructor; widlia.
  - destruct (_ftype f); cbn in *; try done; repeat constructor; widlia.
Qed.

Lemma frame_bytes_ok f : frame_ok f → bytes_ok (frame_bytes f).
Proof.
  intros Hf. apply Forall_app; split; [by apply frame_prefix_ok|].
  apply Forall_app; split; [auto with tlss|apply Hf].
Qed.

Lemma calculate_frame_crc_layout (p c y : bytes) n :
  length p = 44%nat → length c = 4%nat → ♯y = n →
  calculate_frame_crc (p ++ c ++ y) n = Some (covered_crc (p ++ y)).
Proof.
  intros Hp Hc <-. unfold calculate_frame_crc.
  change ALARM_CRC32_OFFSET with 44%nat. change (Z.to_nat ALARM_HEADER_SIZE) with 48%nat.
  rewrite (crc32_update_app _ [] p (c ++ y)) by done. cbn [mbind option_bind].
  rewrite to_nat_Zlen, app_assoc, <- (app_nil_r y) at 1.
  rewrite crc32_update_app by (rewrite ?length_app; lia). cbn [mbind option_bind].
  unfold covered_crc. by rewrite crc32_list_app.
Qed.

Lemma covered_crc_u32 l : bytes_ok l → is_u32 (covered_crc l).
Proof. intros Hl. apply lxor_u32; [apply crc32_list_u32|]; done. Qed.

Ltac open_alarm :=
  unfold ALARM_MAX_FRAME_SIZE in *;
  unfold ALARM_MAGIC_OFFSET, ALARM_VERSION_OFFSET, ALARM_TYPE_OFFSET, ALARM_FLAGS_OFFSET,
    ALARM_PAYLOAD_LENGTH_OFFSET, ALARM_SOURCE_ID_OFFSET, ALARM_MESSAGE_ID_OFFSET,
    ALARM_TIMESTAMP_OFFSET, ALARM_CRC32_OFFSET, ALARM_HEADER_SIZE, ALARM_MESSAGE_ID_SIZE,
    ALARM_MAX_PAYLOAD_SIZE, ALARM_PROTOCOL_VERSION,
    ALARM_CURRENT_FLAGS in *.

Lemma be_bytes_u32 v : be_bytes 4 (u32 v) = be_bytes 4 v.
Proof. apply be_bytes_mod. unfold u32. by rewrite Z.mod_mod. Qed.

Lemma encode_alarm_frame_layout f :
  frame_ok f → encode_alarm_frame true f = Some (mkAEncode SUCCESS (frame_bytes f)).
Proof.
  intros Hf. pose proof Hf as (Hv & _ & Hm & _). unfold encode_alarm_frame. rewrite Hv.
  cbn [negb]. cbv zeta. pose proof (length_frame_prefix f Hm) as Hpre.
  replace (Z.to_nat (ALARM_HEADER_SIZE + ♯(_payload f))) with (48 + length (_payload f))%nat
    by (unfold ALARM_HEADER_SIZE, Zlen; lia).
  open_alarm. set (n := length (_payload f)).
  change (replicate (48 + n) 0) with ([] ++ replicate (48 + n) 0). unfold ALARM_MAGIC.
  write_next. do 2 (rewrite vec_store_copy; write_next). rewrite alarm_put_u16_be; write_next.
  rewrite alarm_put_u32_be; write_next. rewrite alarm_put_u64_be; write_next.
  rewrite copy_into_next by (rewrite ?length_app, ?length_be_bytes; cbn [length]; lia).
  cbn [mbind option_bind]. rewrite Hm. rewrite alarm_put_u64_be.
  rewrite copy_into_next by (rewrite ?length_app, ?length_be_bytes, ?Hm; cbn [length]; lia).
  cbn [mbind option_bind]. rewrite length_be_bytes, be_bytes_u32.
  match goal with |- context [?p ++ replicate ?k 0] =>
    replace p with (frame_prefix f) by (unfold frame_prefix, ALARM_MAGIC; cbn [app];
      rewrite <- ?app_assoc; cbn [app]; reflexivity);
    replace k with (4 + n)%nat by lia end.
  rewrite replicate_add, app_assoc.
  assert ((if bool_decide (_payload f = []) then
    Some ((frame_prefix f ++ replicate 4 0) ++ replicate n 0) else
    copy_into ((frame_prefix f ++ replicate 4 0) ++ replicate n 0) (Z.to_nat 48) (_payload f))
    = Some (frame_prefix f ++ replicate 4 0 ++ _payload f)) as ->.
  { case_bool_decide as Hp.
    - unfold n. rewrite Hp. by rewrite !app_nil_r.
    - pose proof (copy_into_zeros (frame_prefix f ++ replicate 4 0) 0 (_payload f) 48) as Hc.
      rewrite Nat.add_0_r, app_nil_r in Hc. change (Z.to_nat 48) with 48%nat.
      unfold n. rewrite Hc; [by rewrite <- app_assoc|].
      rewrite length_app, Hpre. done. }
  cbn [mbind option_bind].
  rewrite calculate_frame_crc_layout by done. cbn [mbind option_bind].
  rewrite alarm_put_u32_be, copy_into_app by (done || by rewrite length_be_bytes). done.
Qed.

(** ** Reading a header *)

(** The bytes [encode_alarm_frame] gives for a frame it accepts. *)
Definition encoded_bytes (alloc_ok : bool) (frame : AlarmFrame) : option (option bytes) :=
  encoded ← encode_alarm_frame alloc_ok frame;
  Some (if encode_success encoded then Some (_abytes encoded) else None).

Lemma encoded_bytes_ok frame :
  frame_ok frame → encoded_bytes true frame = Some (Some (frame_bytes frame)).
Proof.
  intros Hf. unfold encoded_bytes. rewrite encode_alarm_frame_layout by done.
  cbn [mbind option_bind]. unfold encode_success. cbn [_aestatus _abytes].
  rewrite frame_bytes_size by done. pose proof (frame_ok_payload frame Hf).
  unfold ALARM_MAX_FRAME_SIZE, ALARM_HEADER_SIZE, ALARM_MAX_PAYLOAD_SIZE.
  rewrite bool_decide_true by done. cbn [andb].
  rewrite (proj2 (Z.leb_le _ _)) by lia. by rewrite (proj2 (Z.leb_le _ _)) by lia.
Qed.

Lemma encoded_defined alloc frame :
  frame_ok frame → ∃ o, encoded_bytes alloc frame = Some o ∧ (o = None ∨ o = Some (frame_bytes frame)).
Proof.
  intros Hf. destruct alloc; [rewrite encoded_bytes_ok by done; eauto|].
  unfold encoded_bytes, encode_alarm_frame. destruct Hf as (-> & _). cbn. eauto.
Qed.

Lemma frame_of_code_valid t :
  is_valid_alarm_frame_type t = true → frame_of_code (frame_code t) = t.
Proof. by destruct t. Qed.

Lemma raw_type_valid raw :
  is_valid_raw_type raw = true →
  is_valid_alarm_frame_type (frame_of_code raw) = true ∧ frame_code (frame_of_code raw) = raw.
Proof.
  unfold is_valid_raw_type. cbn. intros H. ztests.
  assert (raw = 1 ∨ raw = 2 ∨ raw = 3 ∨ raw = 4) as [->|[->|[->| ->]]] by lia; done.
Qed.

(** A complete header with valid fields. *)
Definition header_start (t : AlarmFrameType) (p : Z) : bytes :=
  ALARM_MAGIC ++ [1; frame_code t] ++ be_bytes 2 0 ++ be_bytes 4 p.

Lemma length_header_start t p : length (header_start t p) = 12%nat.
Proof. unfold header_start. by rewrite !length_app, !length_be_bytes. Qed.

Lemma alarm_frame_size_layout t p rest :
  bytes_ok (header_start t p ++ rest) → (36 <= length rest)%nat → is_u32 p →
  validate_frame_description t p = SUCCESS →
  alarm_frame_size (Some (header_start t p ++ rest)) = Some (mkASize SUCCESS (Some (48 + p))).
Proof.
  intros Hok Hlen Hp Hv. pose proof Hv as [Ht _]%validate_success.
  unfold alarm_frame_size. cbv zeta.
  assert (48 <= ♯(header_start t p ++ rest)) as Hsz.
  { unfold Zlen. rewrite length_app, length_header_start. lia. }
  open_alarm. rewrite (proj2 (Z.eqb_neq _ 0)), (proj2 (Z.ltb_ge _ 48)) by lia.
  assert (has_valid_magic (header_start t p ++ rest) = Some true) as ->.
  { unfold has_valid_magic, header_start. rewrite <- app_assoc, read_range_head by done.
    cbn [mbind option_bind]. by rewrite bool_decide_true. }
  cbn [mbind option_bind negb]. revert Hok. unfold header_start, ALARM_MAGIC.
  rewrite <- !app_assoc. cbn [app]. intros Hok.
  cbn [lookup list_lookup mbind option_bind]. change (1 =? 1) with true. cbn [negb].
  assert (is_valid_raw_type (frame_code t) = true) as -> by by destruct t.
  cbn [negb]. rewrite alarm_get_u16_be by exact Hok. field_at.
  cbn [fmap option_fmap option_map mbind option_bind]. rewrite be_val_bytes.
  change (0 mod 256 ^ Z.of_nat 2 =? 0) with true. cbn [negb].
  rewrite alarm_get_u32_be by exact Hok. field_at.
  cbn [fmap option_fmap option_map mbind option_bind]. rewrite be_val_bytes, be_mod_32 by done.
  by rewrite frame_of_code_valid, Hv by done.
Qed.

Ltac refused := eexists; split; [reflexivity|cbn; discriminate].

Lemma alarm_frame_size_safe data :
  bytes_ok data →
  ∃ r, alarm_frame_size (Some data) = Some r
    ∧ (_asstatus r = SUCCESS →
       ∃ t p, r = mkASize SUCCESS (Some (48 + p)) ∧ is_u32 p
         ∧ validate_frame_description t p = SUCCESS ∧ 48 <= ♯data
         ∧ data = header_start t p ++ drop 12 data).
Proof.
  intros Hok. unfold alarm_frame_size. cbv zeta. open_alarm.
  destruct (♯data =? 0) eqn:E0; [refused|].
  destruct (♯data <? 48) eqn:E1; [refused|]. ztests.
  unfold has_valid_magic. open_alarm.
  destruct (read_range_some data 0 4) as (m & Hm & _); [unfold Zlen in *; lia|].
  change (length ALARM_MAGIC) with 4%nat.
  rewrite Hm. cbn [mbind option_bind]. case_bool_decide as Hmagic; [|refused]. subst m.
  cbn [negb]. apply read_range_drop in Hm. cbn [Nat.add] in Hm. rewrite drop_0 in Hm.
  destruct (lookup_some data 4) as [v Hver]; [unfold Zlen in *; lia|].
  rewrite Hver. cbn [mbind option_bind]. destruct (v =? 1) eqn:Ev; [|refused].
  destruct (lookup_some data 5) as [raw Hraw]; [unfold Zlen in *; lia|].
  rewrite Hraw. cbn [negb mbind option_bind]. ztests. subst v.
  destruct (is_valid_raw_type raw) eqn:Eraw; [|refused]. cbn [negb].
  destruct (read_be_bound data 6 2 Hok) as (fl & Hfl & _); [unfold Zlen in *; lia|].
  rewrite alarm_get_u16_be, Hfl by done. cbn [mbind option_bind].
  destruct (fl =? 0) eqn:Efl; [|refused]. cbn [negb]. ztests. subst fl.
  destruct (read_be_bound data 8 4 Hok) as (p & Hp & Hpb); [unfold Zlen in *; lia|].
  rewrite alarm_get_u32_be, Hp by done. cbn [mbind option_bind].
  destruct (raw_type_valid raw Eraw) as [Hval Hcode].
  apply read_be_drop in Hfl as [Hfl _], Hp as [Hp _]; [|done..]. cbn [Nat.add] in *.
  destruct (validate_frame_description _ p) eqn:Evd; try refused.
  eexists. split; [done|]. intros _. exists (frame_of_code raw), p.
  split; [done|]. split; [done|]. split; [done|]. split; [lia|].
  unfold header_start. rewrite Hcode.
  destruct data as [|d0 [|d1 [|d2 [|d3 [|d4 [|d5 data]]]]]]; try done.
  unfold ALARM_MAGIC in *. cbn [app drop lookup list_lookup] in *.
  injection Hm as -> -> -> ->. injection Hver as ->. injection Hraw as ->.
  rewrite <- !app_assoc. cbn [app]. do 6 f_equal. by rewrite <- Hp.
Qed.

Lemma size_success_status r t p :
  r = mkASize SUCCESS (Some (48 + p)) → validate_frame_description t p = SUCCESS → is_u32 p →
  size_success r = true.
Proof.
  intros -> (_ & Hp & _)%validate_success Hu. unfold size_success. cbn [_asstatus _frame_size].
  open_alarm. rewrite bool_decide_true by done. cbn [andb].
  apply andb_true_iff; split; apply Z.leb_le; widlia.
Qed.

(** ** Decoding is exact *)

Lemma frame_bytes_start f :
  frame_ok f →
  ∃ rest, frame_bytes f = header_start (_ftype f) (♯(_payload f)) ++ rest
    ∧ (36 <= length rest)%nat.
Proof.
  intros (_ & _ & Hm & _). eexists. split.
  - unfold frame_bytes, frame_prefix, header_start. rewrite <- !app_assoc. reflexivity.
  - rewrite !length_app, !length_be_bytes, Hm. unfold ALARM_MESSAGE_ID_SIZE. lia.
Qed.

(** The fields of an encoded frame, each at its offset. *)
Lemma frame_bytes_fields f :
  frame_ok f →
  read_range (frame_bytes f) 44 4 = Some (be_bytes 4 (covered_crc (frame_prefix f ++ _payload f)))
  ∧ calculate_frame_crc (frame_bytes f) (♯(_payload f))
    = Some (covered_crc (frame_prefix f ++ _payload f))
  ∧ frame_bytes f !! 5%nat = Some (frame_code (_ftype f))
  ∧ get_u64 (frame_bytes f) 12 = Some (_source_id f)
  ∧ read_range (frame_bytes f) 20 16 = Some (_message_id f)
  ∧ get_u64 (frame_bytes f) 36 = Some (_timestamp_ms f)
  ∧ read_range (frame_bytes f) 48 (Z.to_nat (♯(_payload f))) = Some (_payload f).
Proof.
  intros Hf. pose proof Hf as (Hv & Hs & Hm & _ & Ht & Hp).
  pose proof (frame_bytes_ok f Hf) as Hok. pose proof (length_frame_prefix f Hm) as Hpre.
  unfold ALARM_MESSAGE_ID_SIZE in *.
  split; [by apply read_range_app, length_be_bytes|].
  split; [by apply calculate_frame_crc_layout; [|apply length_be_bytes|]|].
  split; [done|].
  assert (read_range (frame_bytes f) 48 (Z.to_nat (♯(_payload f))) = Some (_payload f)) as Hread.
  { unfold frame_bytes. rewrite app_assoc, to_nat_Zlen. apply read_range_tail; [|done].
    by rewrite length_app, Hpre, length_be_bytes. }
  repeat split; try done; try apply alarm_get_u64_be; try done;
    unfold frame_bytes, frame_prefix, ALARM_MAGIC; rewrite <- !app_assoc; cbn [app].
  - field_at. cbn. by rewrite be_val_bytes, be_mod_64.
  - skip_fields. by apply read_range_head.
  - skip_fields. rewrite Hm. cbn [Nat.sub].
    rewrite read_range_head by apply length_be_bytes. cbn. by rewrite be_val_bytes, be_mod_64.
Qed.

(** Fields behind the part that [alarm_frame_size] checks. *)
Lemma decode_alarm_frame_layout alloc_ok f :
  frame_ok f → alloc_ok = true ∨ _payload f = [] →
  decode_alarm_frame alloc_ok (Some (frame_bytes f)) = Some (mkADecode SUCCESS (Some f)).
Proof.
  intros Hf Halloc. pose proof Hf as (Hv & Hs & Hm & _ & Ht & Hp).
  pose proof (frame_bytes_ok f Hf) as Hok. pose proof (frame_ok_payload f Hf) as Hpl.
  assert (is_u32 (♯(_payload f))) as Hu by widlia.
  unfold decode_alarm_frame.
  assert (alarm_frame_size (Some (frame_bytes f))
          = Some (mkASize SUCCESS (Some (48 + ♯(_payload f))))) as ->.
  { destruct (frame_bytes_start f Hf) as (rest & He & Hrest). rewrite He in *.
    by apply alarm_frame_size_layout. }
  cbn [mbind option_bind]. rewrite (size_success_status _ (_ftype f) (♯(_payload f))) by done.
  cbn [negb _frame_size]. cbv zeta. rewrite (frame_bytes_size f Hf), Z.eqb_refl. cbn [negb].
  open_alarm. replace (48 + ♯(_payload f) - 48) with (♯(_payload f)) by lia.
  pose proof (length_frame_prefix f Hm) as Hpre.
  assert (bytes_ok (frame_prefix f ++ _payload f)) as Hcov.
  { apply Forall_app; split; [by apply frame_prefix_ok|done]. }
  rewrite alarm_get_u32_be by done. change (Z.to_nat 48) with 48%nat.
  destruct (frame_bytes_fields f Hf) as (-> & -> & -> & -> & -> & -> & ->).
  cbn [fmap option_fmap option_map mbind option_bind].
  rewrite be_val_bytes, be_mod_32 by by apply covered_crc_u32.
  rewrite Z.eqb_refl. cbn [negb].
  cbn [mbind option_bind]. apply validate_success in Hv as [Htype _].
  rewrite frame_of_code_valid by done.
  destruct (♯(_payload f) =? 0) eqn:E0; cbn [negb]; ztests.
  - destruct f as [? ? ? ? [|? l]]; [done|]. unfold Zlen in E0. cbn in E0. lia.
  - destruct Halloc as [-> | He]; [|by rewrite He in E0]. cbn. by destruct f.
Qed.

(** A buffer whose header, size and checksum are right is an encoded frame. *)
Lemma checked_data_frame data t p crc :
  bytes_ok data → is_u32 p → validate_frame_description t p = SUCCESS →
  data = header_start t p ++ drop 12 data → ♯data = 48 + p →
  drop 44 data = be_bytes 4 crc ++ drop 48 data →
  crc = covered_crc (take 44 data ++ drop 48 data) →
  ∃ src mid ts, get_u64 data 12 = Some src ∧ read_range data 20 16 = Some mid
    ∧ get_u64 data 36 = Some ts
    ∧ let f := mkFrame t src mid ts (drop 48 data) in frame_ok f ∧ data = frame_bytes f.
Proof.
  intros Hok Hp Hv Hdata Hsz Hcrc Ec.
  assert (48 <= ♯data) as Hlen by widlia.
  destruct (read_be_bound data 12 8 Hok) as (src & Hsrc & Hsrcb); [unfold Zlen in *; lia|].
  destruct (read_range_some data 20 16) as (mid & Hmid & Hmlen); [unfold Zlen in *; lia|].
  destruct (read_be_bound data 36 8 Hok) as (ts & Hts & Htsb); [unfold Zlen in *; lia|].
  exists src, mid, ts. do 2 (split; [by try apply alarm_get_u64_be|]).
  split; [by apply alarm_get_u64_be|].
  pose proof (read_range_ok _ _ _ _ Hok Hmid) as Hmok.
  apply read_be_drop in Hsrc as [Hsrc _], Hts as [Hts _]; [|done..].
  apply read_range_drop in Hmid. cbn [Nat.add] in *. cbv zeta.
  assert (♯(drop 48 data) = p) as Hpl by (unfold Zlen in *; rewrite length_drop; lia).
  set (f := mkFrame t src mid ts (drop 48 data)).
  assert (take 44 data = frame_prefix f) as Hpre.
  { rewrite Hdata, Hsrc, Hmid, Hts. unfold frame_prefix, f; cbn [_ftype _source_id _message_id
      _timestamp_ms _payload]. rewrite Hpl. unfold header_start. rewrite <- !app_assoc.
    rewrite !(app_assoc _ _ (drop 44 data)), !app_assoc.
    apply take_app_length'. rewrite !length_app, !length_be_bytes, Hmlen. done. }
  split.
  - unfold frame_ok, f; cbn [_ftype _source_id _message_id _timestamp_ms _payload].
    rewrite Hpl. repeat (split; [done|]). by apply Forall_drop.
  - rewrite <- (take_drop 44 data), Hcrc. unfold frame_bytes. rewrite Ec, Hpre. done.
Qed.

Ltac refused' := eexists; split; [reflexivity|by rewrite decide_False by done].

Lemma decode_alarm_frame_safe alloc_ok data :
  bytes_ok data →
  ∃ r, decode_alarm_frame alloc_ok (Some data) = Some r
    ∧ if decide (_adstatus r = SUCCESS)
      then ∃ f, r = mkADecode SUCCESS (Some f) ∧ frame_ok f ∧ data = frame_bytes f
             ∧ (alloc_ok = true ∨ _payload f = [])
      else _frame r = None.
Proof.
  intros Hok. unfold decode_alarm_frame.
  destruct (alarm_frame_size_safe data Hok) as (r & -> & Hr). cbn [mbind option_bind].
  destruct (size_success r) eqn:Es; cbn [negb].
  2: { eexists. split; [done|]. cbn. case_decide as Hst; [|done].
       destruct (Hr Hst) as (t & p & Hrp & Hp & Hv & _).
       by rewrite (size_success_status _ t p Hrp Hv Hp) in Es. }
  destruct Hr as (t & p & -> & Hp & Hv & Hlen & Hdata).
  { unfold size_success in Es. ztests. by case_bool_decide. }
  cbn [_frame_size]. cbv zeta. destruct (♯data =? 48 + p) eqn:Esz; cbn [negb]; [|refused'].
  ztests. open_alarm. replace (♯data - 48) with p by lia.
  destruct (read_be_bound data 44 4 Hok) as (crc & Hcrc & _); [unfold Zlen in *; lia|].
  rewrite alarm_get_u32_be, Hcrc by done.
  apply read_be_drop in Hcrc as [Hcrc _]; [|done]. cbn [mbind option_bind Nat.add] in *.
  assert (calculate_frame_crc data p = Some (covered_crc (take 44 data ++ drop 48 data))) as ->.
  { rewrite <- (take_drop 44 data) at 1. rewrite Hcrc.
    apply calculate_frame_crc_layout; [|apply length_be_bytes|];
      unfold Zlen in *; rewrite ?length_take, ?length_drop; lia. }
  cbn [mbind option_bind]. destruct (crc =? _) eqn:Ec; cbn [negb]; [|refused']. ztests.
  destruct (checked_data_frame data t p crc) as (src & mid & ts & -> & -> & -> & Hf & Hfb);
    [done..|].
  assert (data !! 5%nat = Some (frame_code t)) as -> by (rewrite Hdata; done).
  cbn [mbind option_bind]. apply validate_success in Hv as [Hty _].
  rewrite frame_of_code_valid by done.
  assert (♯(drop 48 data) = p) as Hpl by (unfold Zlen in *; rewrite length_drop; lia).
  destruct (p =? 0) eqn:E0; cbn [negb]; ztests.
  - assert (drop 48 data = []) as Hnil by (apply length_zero_iff_nil; unfold Zlen in *; lia).
    eexists. split; [done|]. rewrite decide_True by done. rewrite Hnil in *.
    eexists. do 3 (split; [done|]). by right.
  - destruct alloc_ok; cbn [negb]; [|refused'].
    rewrite read_range_tail' by (unfold Zlen in *; lia).
    eexists. split; [done|]. rewrite decide_True by done.
    eexists. do 3 (split; [done|]). by left.
Qed.

Lemma decode_alarm_frame_inv alloc_ok data f :
  bytes_ok data → decode_alarm_frame alloc_ok (Some data) = Some (mkADecode SUCCESS (Some f)) →
  frame_ok f ∧ data = frame_bytes f.
Proof.
  intros Hok Hd. destruct (decode_alarm_frame_safe alloc_ok data Hok) as (r & Hr & Hs).
  rewrite Hd in Hr. simplify_eq. rewrite decide_True in Hs by done. naive_solver.
Qed.

(** ** The contract of the module *)

Definition sample_frame : AlarmFrame :=
  mkFrame ALARM 81985529216486895 (replicate 16 7) 1700000000000 [1; 2; 250; 4; 5].
Definition sample_ping : AlarmFrame := mkFrame PING 1 (replicate 16 255) 0 [].

(** Frame round trip: a frame whose type and payload length agree encodes,
    when memory is available, to 48 bytes plus its payload, at most 4144, which
    decode to the same frame; every other frame is refused with the status of
    [validate_frame_description] and no bytes. *)
Theorem alarm_frame_roundtrip f :
  is_u64 (_source_id f) → length (_message_id f) = ALARM_MESSAGE_ID_SIZE →
  bytes_ok (_message_id f) → is_u64 (_timestamp_ms f) → bytes_ok (_payload f) →
  match validate_frame_description (_ftype f) (♯(_payload f)) with
  | SUCCESS =>
      ∃ b, encode_alarm_frame true f = Some (mkAEncode SUCCESS b)
        ∧ encode_success (mkAEncode SUCCESS b) = true
        ∧ ♯b = ALARM_HEADER_SIZE + ♯(_payload f)
        ∧ decode_alarm_frame true (Some b) = Some (mkADecode SUCCESS (Some f))
  | e => encode_alarm_frame true f = Some (make_encode_error e)
  end.
Proof.
  intros Hs Hm Hmo Ht Hp.
  destruct (validate_frame_description _ _) eqn:Hv;
    try (unfold encode_alarm_frame; by rewrite Hv).
  assert (frame_ok f) as Hf by done. exists (frame_bytes f).
  split; [by apply encode_alarm_frame_layout|].
  pose proof (frame_bytes_size f Hf) as Hsz. pose proof (frame_ok_payload f Hf).
  split; [|split; [done|apply decode_alarm_frame_layout; auto]].
  unfold encode_success. cbn [_aestatus _abytes]. rewrite bool_decide_true by done.
  open_alarm. apply andb_true_iff; split; apply Z.leb_le; lia.
Qed.

Lemma alarm_frame_roundtrip_witness :
  ∃ b, encode_alarm_frame true sample_frame = Some (mkAEncode SUCCESS b)
    ∧ encode_success (mkAEncode SUCCESS b) = true ∧ ♯b = ALARM_HEADER_SIZE + 5
    ∧ decode_alarm_frame true (Some b) = Some (mkADecode SUCCESS (Some sample_frame)).
Proof.
  apply (alarm_frame_roundtrip sample_frame);
    (done || by apply (bool_decide_unpack _); vm_compute).
Defined.

(** C10. Decoding is safe and exact: for every byte sequence [decode_alarm_frame]
    returns without an access outside the buffer; the only accepted sequences
    are the encodings of valid frames, each accepted as the frame it encodes;
    and a refused sequence yields no frame. *)
Theorem alarm_decode_exact data :
  bytes_ok data →
  (∀ alloc_ok, ∃ r, decode_alarm_frame alloc_ok (Some data) = Some r
     ∧ (_adstatus r = SUCCESS ↔ is_Some (_frame r)))
  ∧ (∀ f, decode_alarm_frame true (Some data) = Some (mkADecode SUCCESS (Some f))
          ↔ frame_ok f ∧ data = frame_bytes f).
Proof.
  intros Hok. split.
  - intros alloc_ok. destruct (decode_alarm_frame_safe alloc_ok data Hok) as (r & Hr & Hs).
    exists r. split; [done|]. revert Hs. case_decide as Hst.
    + intros (f & -> & _). by split; [eauto|].
    + intros ->. split; [done|by intros [? ?]].
  - intros f. split.
    + by apply decode_alarm_frame_inv.
    + intros [Hf ->]. apply decode_alarm_frame_layout; auto.
Qed.

Lemma alarm_decode_exact_witness :
  (∀ alloc_ok, ∃ r, decode_alarm_frame alloc_ok (Some (frame_bytes sample_ping)) = Some r
     ∧ (_adstatus r = SUCCESS ↔ is_Some (_frame r)))
  ∧ (∀ f, decode_alarm_frame true (Some (frame_bytes sample_ping))
            = Some (mkADecode SUCCESS (Some f))
          ↔ frame_ok f ∧ frame_bytes sample_ping = frame_bytes f).
Proof.
  apply (alarm_decode_exact (frame_bytes sample_ping)).
  by apply (bool_decide_unpack _); vm_compute.
Defined.

(** A window of the frame that does not straddle the border of the checksum
    field. *)
Definition one_region (lo n : nat) : Prop :=
  (lo + n <= 44)%nat ∨ (44 <= lo ∧ lo + n <= 48)%nat ∨ (48 <= lo)%nat.

(** The bytes the checksum covers, and the checksum field. *)
Definition covered (d : bytes) : bytes := take 44 d ++ drop 48 d.
Definition stored (d : bytes) : bytes := take 4 (drop 44 d).

Lemma frame_bytes_sealed f :
  frame_ok f →
  covered_crc (covered (frame_bytes f)) = be_val (stored (frame_bytes f))
  ∧ (48 <= length (frame_bytes f))%nat.
Proof.
  intros Hf. pose proof (length_frame_prefix f (proj1 (proj2 (proj2 Hf)))) as Lf.
  pose proof (frame_bytes_size f Hf) as Hsz. split; [|unfold Zlen in *; lia].
  assert (drop 48 (frame_bytes f) = _payload f) as Hd.
  { unfold frame_bytes. rewrite app_assoc.
    by rewrite drop_app_length' by (rewrite length_app, length_be_bytes; lia). }
  unfold covered. rewrite Hd. unfold stored, frame_bytes.
  rewrite take_app_length', drop_app_length', take_app_length' by (done || apply length_be_bytes).
  rewrite be_val_bytes, be_mod_32; [done|]. apply covered_crc_u32, Forall_app.
  split; [by apply frame_prefix_ok|apply Hf].
Qed.

Ltac cut_window :=
  repeat first [ rewrite take_app_ge by (rewrite ?length_app; lia)
               | rewrite take_app_le by (rewrite ?length_app; lia)
               | rewrite drop_app_ge by (rewrite ?length_app; lia)
               | rewrite drop_app_le by (rewrite ?length_app; lia) ].

(** A window inside one region shows up in the covered bytes or in the stored
    checksum, and leaves the other alone. *)
Lemma window_covered pre n post :
  (length pre + n <= 44)%nat ∨ (48 <= length pre)%nat →
  ∃ a b c, (∀ w : bytes, length w = n →
    covered (pre ++ w ++ post) = a ++ w ++ b ∧ stored (pre ++ w ++ post) = c)
    ∧ (bytes_ok pre → bytes_ok post → bytes_ok a ∧ bytes_ok b).
Proof.
  intros [Hlo|Hhi].
  - exists pre, (take (44 - length pre - n) post ++ drop (48 - length pre - n) post),
      (take 4 (drop (44 - length pre - n) post)). split.
    + intros w <-. unfold covered, stored. cut_window. by rewrite <- !app_assoc.
    + intros Hp Hq. split; [done|]. apply Forall_app; split; [by apply Forall_take|].
      by apply Forall_drop.
  - exists (take 44 pre ++ drop 48 pre), post, (take 4 (drop 44 pre)). split.
    + intros w <-. unfold covered, stored. cut_window.
      rewrite (take_app_le _ _ 4) by (rewrite length_drop; lia). by rewrite <- !app_assoc.
    + intros Hp Hq. split; [|done]. apply Forall_app; split; [by apply Forall_take|].
      by apply Forall_drop.
Qed.

Lemma window_stored pre n post :
  (44 <= length pre)%nat → (length pre + n <= 48)%nat →
  (48 <= length pre + n + length post)%nat →
  ∃ a b c, (∀ w : bytes, length w = n →
    stored (pre ++ w ++ post) = a ++ w ++ b ∧ covered (pre ++ w ++ post) = c).
Proof.
  intros Hlo Hhi Hlen. exists (drop 44 pre), (take (4 - (length pre - 44) - n) post),
    (take 44 pre ++ drop (48 - length pre - n) post).
  intros w <-. unfold covered, stored. split.
  - rewrite drop_app_le by lia. rewrite take_app_ge by (rewrite length_drop; lia).
    rewrite length_drop, take_app_ge by lia. done.
  - by cut_window.
Qed.

(** C4. Burst errors are detected: if up to four consecutive bytes of an encoded
    frame are changed, inside the header, inside the checksum field or inside
    the payload, the result is refused. In particular no corruption of a single
    byte is ever accepted. *)
Theorem alarm_burst_detected f pre w w' post alloc_ok :
  frame_ok f → frame_bytes f = pre ++ w ++ post →
  bytes_ok w' → length w' = length w → (length w <= 4)%nat → w' ≠ w →
  one_region (length pre) (length w) →
  ∃ r, decode_alarm_frame alloc_ok (Some (pre ++ w' ++ post)) = Some r
    ∧ decode_success r = false.
Proof.
  intros Hf Ef Hw' Hww Hle Hne Hreg.
  pose proof (frame_bytes_ok f Hf) as Hok. rewrite Ef in Hok.
  apply Forall_app in Hok as [Hpre [Hw Hpost]%Forall_app].
  assert (bytes_ok (pre ++ w' ++ post)) as Hok' by (by repeat (apply Forall_app; split)).
  destruct (decode_alarm_frame_safe alloc_ok _ Hok') as (r & Hr & Hs).
  exists r. split; [done|]. unfold decode_success. case_bool_decide as Hst; [|done].
  rewrite decide_True in Hs by done. destruct Hs as (g & -> & Hg & Eg & _).
  destruct Hne. pose proof (frame_bytes_sealed f Hf) as [Sf Lf].
  pose proof (frame_bytes_sealed g Hg) as [Sg _]. rewrite Ef, <- Eg in *.
  assert (∀ d, length (stored d) = length (stored (pre ++ w ++ post)) →
    bytes_ok (stored d) → be_val (stored d) = be_val (stored (pre ++ w ++ post)) →
    stored d = stored (pre ++ w ++ post)) as Hval.
  { intros d Hl Hd He. rewrite <- (be_bytes_val (stored d)), Hl, He by done.
    apply be_bytes_val, Forall_take, Forall_drop. by repeat (apply Forall_app; split). }
  assert (((length pre + length w <= 44)%nat ∨ (48 <= length pre)%nat)
    ∨ (44 <= length pre ∧ length pre + length w <= 48)%nat) as Hcase
    by (unfold one_region in *; lia).
  destruct Hcase as [Hcase|[Hlo Hhi]].
  - destruct (window_covered pre (length w) post Hcase) as (a & b & c & Hwin & Hab).
    destruct (Hab Hpre Hpost) as [Ha Hb].
    destruct (Hwin w eq_refl) as [Hc Hs], (Hwin w' Hww) as [Hc' Hs'].
    rewrite Hc, Hs in Sf. rewrite Hc', Hs' in Sg.
    apply (crc32_burst CRC32_INITIAL a w' w b); try done; [lia|].
    rewrite <- Sf in Sg. unfold covered_crc in Sg.
    rewrite !(Z.lxor_comm _ CRC32_INITIAL) in Sg. by apply lxor_cancel_l in Sg.
  - destruct (window_stored pre (length w) post Hlo Hhi) as (a & b & c & Hwin).
    { rewrite !length_app in Lf. lia. }
    destruct (Hwin w eq_refl) as [Hs Hc], (Hwin w' Hww) as [Hs' Hc'].
    rewrite Hc in Sf. rewrite Hc', Sf in Sg. symmetry in Sg. apply Hval in Sg.
    + rewrite Hs, Hs' in Sg. apply app_inv_head in Sg. by apply app_inj_1 in Sg as [? _].
    + rewrite Hs, Hs', !length_app, Hww. done.
    + by apply Forall_take, Forall_drop.
Qed.

Lemma alarm_burst_detected_witness :
  ∃ r, decode_alarm_frame true
         (Some (take 50 (frame_bytes sample_frame) ++ [251; 4; 6] ++ [])) = Some r
    ∧ decode_success r = false.
Proof.
  apply (alarm_burst_detected sample_frame (take 50 (frame_bytes sample_frame)) [250; 4; 5]);
    try done; try (by apply (bool_decide_unpack _); vm_compute).
Defined.
