(* ===== verification/AlarmStream.v ===== *)
(** Incremental decoding of the alarm TCP stream
    ([src/monitor/alarm_stream_decoder.cpp], [inc/monitor/alarm_stream_decoder.h]).

    [feed] is the loop of the source with its cursor, its two copy phases and
    its early returns. Each point where the standard library may throw
    [std::bad_alloc] asks the oracle [alloc], indexed by the allocation site and
    the number of the loop iteration. The loop runs on fuel, one unit per byte
    of input plus one, which [feed_refines] proves sufficient. *)

From S2P Require Import Prelude AlarmProtocol.
#[local] Open Scope tlss_scope.

Definition ALARM_STREAM_BUFFER_LIMIT : Z := ALARM_MAX_FRAME_SIZE.

Inductive AlarmStreamStatus :=
  | S_SUCCESS | S_NEED_MORE_DATA | S_INVALID_INPUT | S_PROTOCOL_ERROR
  | S_BUFFER_LIMIT_EXCEEDED | S_ALLOCATION_FAILED | S_ALREADY_FAILED.

#[export] Instance AlarmStreamStatus_eq_dec : EqDecision AlarmStreamStatus.
Proof. solve_decision. Defined.

Record AlarmStreamFeedResult := mkFeed {
  _sstatus : AlarmStreamStatus;
  _frames : list AlarmFrame;
  _protocol_status : option AlarmProtocolStatus
}.

Definition feed_success (r : AlarmStreamFeedResult) : bool :=
  bool_decide (_sstatus r = S_SUCCESS) || bool_decide (_sstatus r = S_NEED_MORE_DATA).

Record AlarmStreamDecoder := mkDecoder {
  _buffer : bytes;
  _expected_frame_size : option Z;
  _failed : bool;
  _failure_status : AlarmStreamStatus;
  _protocol_error : option AlarmProtocolStatus
}.

Definition new_decoder : AlarmStreamDecoder := mkDecoder [] None false S_SUCCESS None.

Definition fail_protocol (d : AlarmStreamDecoder) (status : AlarmProtocolStatus)
    (completed : list AlarmFrame) : AlarmStreamDecoder * AlarmStreamFeedResult :=
  (mkDecoder [] None true S_PROTOCOL_ERROR (Some status),
   mkFeed S_PROTOCOL_ERROR completed (Some status)).

Definition fail_stream (d : AlarmStreamDecoder) (status : AlarmStreamStatus)
    (completed : list AlarmFrame) : AlarmStreamDecoder * AlarmStreamFeedResult :=
  (mkDecoder [] None true status None, mkFeed status completed None).

Definition reset (d : AlarmStreamDecoder) : AlarmStreamDecoder :=
  mkDecoder [] None false S_SUCCESS None.

(** Where an allocation may fail in one iteration. *)
Inductive AllocSite := InsertHeader | InsertPayload | DecodePayload | PushFrame.
Definition Alloc := AllocSite → nat → bool.
Definition no_oom : Alloc := λ _ _, true.

(** How an iteration of the [while] loop ends. *)
Inductive Step :=
  | Continue (d : AlarmStreamDecoder) (cursor : nat) (completed : list AlarmFrame)
  | Break (d : AlarmStreamDecoder) (completed : list AlarmFrame)
  | Return (d : AlarmStreamDecoder) (r : AlarmStreamFeedResult).

Definition set_buffer (d : AlarmStreamDecoder) (b : bytes) : AlarmStreamDecoder :=
  mkDecoder b (_expected_frame_size d) (_failed d) (_failure_status d) (_protocol_error d).
Definition set_expected (d : AlarmStreamDecoder) (n : option Z) : AlarmStreamDecoder :=
  mkDecoder (_buffer d) n (_failed d) (_failure_status d) (_protocol_error d).

Definition throw_bad_alloc (d : AlarmStreamDecoder) (completed : list AlarmFrame) : Step :=
  let '(d, r) := fail_stream d S_ALLOCATION_FAILED completed in Return d r.
Definition return_protocol (d : AlarmStreamDecoder) (status : AlarmProtocolStatus)
    (completed : list AlarmFrame) : Step :=
  let '(d, r) := fail_protocol d status completed in Return d r.
Definition return_stream (d : AlarmStreamDecoder) (status : AlarmStreamStatus)
    (completed : list AlarmFrame) : Step :=
  let '(d, r) := fail_stream d status completed in Return d r.

(** [_buffer.insert(_buffer.end(), data + cursor, data + cursor + take)]; the
    inner [None] is [std::bad_alloc], which an empty range cannot raise. *)
Definition append_input (ok : bool) (d : AlarmStreamDecoder) (data : bytes) (cursor take : nat)
    : option (option AlarmStreamDecoder) :=
  chunk ← read_range data cursor take;
  if negb (Z.of_nat take =? 0) && negb ok then Some None
  else Some (Some (set_buffer d (_buffer d ++ chunk))).

(** The second and third step of an iteration, once the frame size is known. *)
Definition feed_frame (alloc : Alloc) (i : nat) (d : AlarmStreamDecoder) (expected : Z)
    (data : bytes) (cursor : nat) (completed : list AlarmFrame) : option Step :=
  let frame_needed := u64 (expected - ♯(_buffer d)) in
  let available := ♯data - Z.of_nat cursor in
  let take := Z.to_nat (Z.min frame_needed available) in
  inserted ← append_input (alloc InsertPayload i) d data cursor take;
  match inserted with
  | None => Some (throw_bad_alloc d completed)
  | Some d =>
  let cursor := (cursor + take)%nat in
  if ♯(_buffer d) <? expected then Some (Break d completed) else
  if ALARM_STREAM_BUFFER_LIMIT <? ♯(_buffer d)
  then Some (return_stream d S_BUFFER_LIMIT_EXCEEDED completed) else
  decoded ← decode_alarm_frame (alloc DecodePayload i) (Some (_buffer d));
  if negb (decode_success decoded) then
    if bool_decide (_adstatus decoded = ALLOCATION_FAILED)
    then Some (return_stream d S_ALLOCATION_FAILED completed)
    else Some (return_protocol d (_adstatus decoded) completed)
  else
    match _frame decoded with
    | None => None
    | Some frame =>
        if negb (alloc PushFrame i) then Some (throw_bad_alloc d completed)
        else Some (Continue (set_expected (set_buffer d []) None) cursor (completed ++ [frame]))
    end
  end.

(** One iteration of [while (cursor < size)]. *)
Definition feed_step (alloc : Alloc) (i : nat) (d : AlarmStreamDecoder) (data : bytes)
    (cursor : nat) (completed : list AlarmFrame) : option Step :=
  match _expected_frame_size d with
  | Some expected => feed_frame alloc i d expected data cursor completed
  | None =>
      let header_needed := u64 (ALARM_HEADER_SIZE - ♯(_buffer d)) in
      let available := ♯data - Z.of_nat cursor in
      let take := Z.to_nat (Z.min header_needed available) in
      inserted ← append_input (alloc InsertHeader i) d data cursor take;
      match inserted with
      | None => Some (throw_bad_alloc d completed)
      | Some d =>
      let cursor := (cursor + take)%nat in
      if ♯(_buffer d) <? ALARM_HEADER_SIZE then Some (Break d completed) else
      size_result ← alarm_frame_size (Some (_buffer d));
      if negb (size_success size_result)
      then Some (return_protocol d (_asstatus size_result) completed) else
      match _frame_size size_result with
      | None => None
      | Some n =>
          if ALARM_STREAM_BUFFER_LIMIT <? n
          then Some (return_stream d S_BUFFER_LIMIT_EXCEEDED completed)
          else feed_frame alloc i (set_expected d (Some n)) n data cursor completed
      end
      end
  end.

Definition feed_status (d : AlarmStreamDecoder) : AlarmStreamStatus :=
  if bool_decide (_buffer d = []) then S_SUCCESS else S_NEED_MORE_DATA.

Fixpoint feed_loop (fuel : nat) (alloc : Alloc) (i : nat) (d : AlarmStreamDecoder)
    (data : bytes) (cursor : nat) (completed : list AlarmFrame)
    : option (AlarmStreamDecoder * AlarmStreamFeedResult) :=
  match fuel with
  | O => None
  | S fuel' =>
      if (cursor <? length data)%nat then
        step ← feed_step alloc i d data cursor completed;
        match step with
        | Continue d cursor completed => feed_loop fuel' alloc (S i) d data cursor completed
        | Break d completed => Some (d, mkFeed (feed_status d) completed None)
        | Return d r => Some (d, r)
        end
      else Some (d, mkFeed (feed_status d) completed None)
  end.

(** The input is a null pointer with a size, or a buffer. *)
Inductive Input := NullPtr (size : Z) | Data (b : bytes).

Definition feed (alloc : Alloc) (d : AlarmStreamDecoder) (input : Input)
    : option (AlarmStreamDecoder * AlarmStreamFeedResult) :=
  if _failed d then Some (d, mkFeed S_ALREADY_FAILED [] (_protocol_error d)) else
  match input with
  | NullPtr size =>
      if negb (size =? 0) then Some (d, mkFeed S_INVALID_INPUT [] None)
      else Some (d, mkFeed (feed_status d) [] None)
  | Data data => feed_loop (S (length data)) alloc 0 d data 0 []
  end.

Definition finish (d : AlarmStreamDecoder) : AlarmStreamDecoder * AlarmStreamFeedResult :=
  if _failed d then (d, mkFeed S_ALREADY_FAILED [] (_protocol_error d)) else
  if bool_decide (_buffer d = []) then (d, mkFeed S_SUCCESS [] None) else
  if ♯(_buffer d) <? ALARM_HEADER_SIZE then fail_protocol d SHORT_HEADER [] else
  fail_protocol d INVALID_TOTAL_LENGTH [].

(** ** The specification: a machine that takes one byte at a time *)

Inductive StreamState := Waiting (buf : bytes) | Dead (e : AlarmProtocolStatus).

(** What a buffer amounts to once its last byte has arrived. *)
Definition absorb (buf : bytes) : StreamState * list AlarmFrame :=
  if ♯buf <? 48 then (Waiting buf, []) else
  match alarm_frame_size (Some buf) with
  | Some (mkASize SUCCESS (Some n)) =>
      if ♯buf <? n then (Waiting buf, []) else
      match decode_alarm_frame true (Some buf) with
      | Some (mkADecode SUCCESS (Some f)) => (Waiting [], [f])
      | Some r => (Dead (_adstatus r), [])
      | None => (Dead EMPTY_INPUT, [])
      end
  | Some r => (Dead (_asstatus r), [])
  | None => (Dead EMPTY_INPUT, [])
  end.

Definition spec_byte (s : StreamState * list AlarmFrame) (x : Z) : StreamState * list AlarmFrame :=
  match s with
  | (Waiting buf, out) => let '(s', fs) := absorb (buf ++ [x]) in (s', out ++ fs)
  | (Dead e, out) => (Dead e, out)
  end.

Definition spec_feed (s : StreamState) (data : bytes) : StreamState * list AlarmFrame :=
  fold_left spec_byte data (s, []).

(** The decoder state that stands for a specification state. *)
Definition expected_of (buf : bytes) : option Z :=
  if ♯buf <? 48 then None else
  match alarm_frame_size (Some buf) with Some r => _frame_size r | None => None end.

Definition conc (s : StreamState) : AlarmStreamDecoder :=
  match s with
  | Waiting buf => mkDecoder buf (expected_of buf) false S_SUCCESS None
  | Dead e => mkDecoder [] None true S_PROTOCOL_ERROR (Some e)
  end.

Definition result_of (s : StreamState) (fs : list AlarmFrame) : AlarmStreamFeedResult :=
  match s with
  | Waiting buf => mkFeed (if bool_decide (buf = []) then S_SUCCESS else S_NEED_MORE_DATA) fs None
  | Dead e => mkFeed S_PROTOCOL_ERROR fs (Some e)
  end.

(** A buffer is a proper part of a frame whose header, if complete, is valid. *)
Definition state_ok (s : StreamState) : Prop :=
  match s with Waiting buf => bytes_ok buf ∧ absorb buf = (Waiting buf, []) | Dead _ => True end.

(** *** Facts about [absorb] *)

Lemma spec_feed_dead e data : spec_feed (Dead e) data = (Dead e, []).
Proof. unfold spec_feed. induction data; simpl; done. Qed.

Lemma spec_fold_out s out data :
  fold_left spec_byte data (s, out) =
  let '(s', fs) := spec_feed s data in (s', out ++ fs).
Proof.
  unfold spec_feed. revert s out. induction data as [|x data IH]; intros s out; simpl.
  - by rewrite app_nil_r.
  - destruct s as [buf|e]; simpl.
    + destruct (absorb (buf ++ [x])) as [s1 fs1]. rewrite IH, (IH s1 fs1).
      destruct (fold_left _ _ _) as [s2 fs2]. by rewrite app_assoc.
    + apply IH.
Qed.

Lemma spec_feed_app s a b :
  spec_feed s (a ++ b) =
  let '(s1, f1) := spec_feed s a in let '(s2, f2) := spec_feed s1 b in (s2, f1 ++ f2).
Proof.
  unfold spec_feed at 1. rewrite fold_left_app. fold (spec_feed s a).
  destruct (spec_feed s a) as [s1 f1]. apply spec_fold_out.
Qed.

(** Bytes that leave the machine waiting only lengthen the buffer. *)
Lemma spec_feed_absorb buf l :
  l ≠ [] →
  (∀ l1 l2, l = l1 ++ l2 → l1 ≠ [] → l2 ≠ [] →
     absorb (buf ++ l1) = (Waiting (buf ++ l1), [])) →
  spec_feed (Waiting buf) l = absorb (buf ++ l).
Proof.
  intros Hl Hwait. revert buf Hwait. induction l as [|x l IH]; intros buf Hwait; [done|].
  destruct l as [|y l].
  - unfold spec_feed; simpl. by destruct (absorb (buf ++ [x])).
  - change (x :: y :: l) with ([x] ++ y :: l). rewrite spec_feed_app.
    assert (spec_feed (Waiting buf) [x] = (Waiting (buf ++ [x]), [])) as ->.
    { unfold spec_feed; simpl. by rewrite (Hwait [x] (y :: l)). }
    rewrite IH; [|done|].
    + rewrite <- app_assoc. simpl. by destruct (absorb _).
    + intros l1 l2 Hyl H1 H2. rewrite <- app_assoc.
      apply (Hwait ([x] ++ l1) l2); [by rewrite Hyl|done|done].
Qed.

(** [alarm_frame_size] looks at the header only. *)
Lemma alarm_frame_size_prefix a b :
  48 <= ♯a → alarm_frame_size (Some (a ++ b)) = alarm_frame_size (Some a).
Proof.
  intros Ha. unfold alarm_frame_size. cbv zeta. pose proof (Zlen_nonneg b).
  rewrite Zlen_app. open_alarm.
  rewrite !(proj2 (Z.eqb_neq _ 0)), !(proj2 (Z.ltb_ge _ 48)) by lia.
  assert (∀ off, (off < 48)%nat → (a ++ b) !! off = a !! off) as Hlook.
  { intros off Hoff. apply lookup_app_l. unfold Zlen in *. lia. }
  assert (has_valid_magic (a ++ b) = has_valid_magic a) as ->.
  { unfold has_valid_magic, read_range. open_alarm. change (length ALARM_MAGIC) with 4%nat.
    rewrite length_app, !decide_True, !drop_0, take_app_le by (unfold Zlen in *; lia). done. }
  unfold get_u16, get_u32. by rewrite !Hlook by lia.
Qed.

Lemma absorb_short buf : ♯buf < 48 → absorb buf = (Waiting buf, []).
Proof. intros H. unfold absorb. by rewrite (proj2 (Z.ltb_lt _ _)). Qed.

(** A buffer with a complete header: the size result decides. *)
Lemma absorb_header buf :
  bytes_ok buf → 48 <= ♯buf →
  (∃ e r, alarm_frame_size (Some buf) = Some r ∧ size_success r = false ∧ _asstatus r = e
     ∧ absorb buf = (Dead e, []))
  ∨ (∃ n r, alarm_frame_size (Some buf) = Some r ∧ size_success r = true
       ∧ r = mkASize SUCCESS (Some n) ∧ 48 <= n <= 4144
       ∧ absorb buf = if ♯buf <? n then (Waiting buf, []) else
           match decode_alarm_frame true (Some buf) with
           | Some (mkADecode SUCCESS (Some f)) => (Waiting [], [f])
           | Some r => (Dead (_adstatus r), [])
           | None => (Dead EMPTY_INPUT, [])
           end).
Proof.
  intros Hok Hlen. destruct (alarm_frame_size_safe buf Hok) as (r & Hr & Hs).
  unfold absorb. rewrite (proj2 (Z.ltb_ge _ _)), Hr by lia.
  destruct (decide (_asstatus r = SUCCESS)) as [Hst|Hst].
  - right. destruct (Hs Hst) as (t & p & -> & Hp & Hv & _ & _).
    exists (48 + p). eexists. split; [done|].
    split; [by apply (size_success_status _ t p)|]. split; [done|]. split; [|done].
    apply validate_success in Hv as (_ & Hp' & _). open_alarm. widlia.
  - left. eexists _, r. split; [done|]. split; [|split; [done|]].
    + unfold size_success. by rewrite bool_decide_false.
    + destruct r as [st n]. cbn in *. by destruct st.
Qed.

Lemma absorb_waits_prefix buf l1 l2 n :
  bytes_ok (buf ++ l1) → 48 <= ♯(buf ++ l1) →
  alarm_frame_size (Some (buf ++ l1 ++ l2)) = Some (mkASize SUCCESS (Some n)) →
  ♯(buf ++ l1) < n → absorb (buf ++ l1) = (Waiting (buf ++ l1), []).
Proof.
  intros Hok Hlen Hsz Hn. rewrite app_assoc, alarm_frame_size_prefix in Hsz by done.
  unfold absorb. by rewrite (proj2 (Z.ltb_ge _ _)), Hsz, (proj2 (Z.ltb_lt _ _)) by lia.
Qed.

(** *** One iteration of the loop *)

(** What an iteration makes of a buffer completed to [absorb]'s argument. *)
Definition step_outcome (s : StreamState * list AlarmFrame) (rest : bytes) (cursor : nat)
    (completed : list AlarmFrame) (step : Step) : Prop :=
  match s with
  | (Waiting [], [f]) => step = Continue (conc (Waiting [])) cursor (completed ++ [f])
  | (Waiting b, []) => b ≠ [] ∧ rest = [] ∧ step = Break (conc (Waiting b)) completed
  | (Dead e, []) => step = Return (conc (Dead e)) (mkFeed S_PROTOCOL_ERROR completed (Some e))
  | _ => False
  end.

Lemma step_outcome_waiting b rest cursor completed step :
  b ≠ [] → rest = [] → step = Break (conc (Waiting b)) completed →
  step_outcome (Waiting b, []) rest cursor completed step.
Proof. by destruct b. Qed.

Definition oom_step (completed : list AlarmFrame) : Step :=
  Return (mkDecoder [] None true S_ALLOCATION_FAILED None)
    (mkFeed S_ALLOCATION_FAILED completed None).

Lemma append_input_spec ok d data cursor c rest :
  drop cursor data = c ++ rest → (cursor <= length data)%nat →
  append_input ok d data cursor (length c) =
  Some (if negb (Z.of_nat (length c) =? 0) && negb ok then None
        else Some (set_buffer d (_buffer d ++ c))).
Proof.
  intros Hd Hcur. unfold append_input, read_range.
  assert (length (drop cursor data) = (length c + length rest)%nat) as Hl
    by (by rewrite Hd, length_app).
  rewrite length_drop in Hl. rewrite decide_True, Hd, take_app_length by lia. cbn.
  by case_match.
Qed.

(** The number of bytes one phase takes. *)
Lemma split_take (data : bytes) cursor (k : Z) :
  (cursor <= length data)%nat → 0 <= k < 2 ^ 64 →
  ∃ c rest, drop cursor data = c ++ rest
    ∧ Z.to_nat (Z.min (u64 k) (♯data - Z.of_nat cursor)) = length c
    ∧ ♯c <= k ∧ (♯c < k → rest = []).
Proof.
  intros Hcur Hk. unfold u64. rewrite Z.mod_small by done.
  exists (take (Z.to_nat k) (drop cursor data)), (drop (Z.to_nat k) (drop cursor data)).
  split; [by rewrite take_drop|]. unfold Zlen.
  rewrite length_take, length_drop. split; [lia|]. split; [lia|].
  intros Hlt. apply drop_ge. rewrite length_drop. lia.
Qed.

Ltac branches :=
  repeat (case_match
          || match goal with |- mbind _ ?m = Some _ → _ =>
               destruct m eqn:?; cbn [mbind option_bind]; [|discriminate] end);
  try discriminate.

Lemma alarm_frame_size_no_oom input r :
  alarm_frame_size input = Some r → _asstatus r ≠ ALLOCATION_FAILED.
Proof.
  unfold alarm_frame_size. destruct input as [prefix|]; [|by intros [= <-]]. cbv zeta.
  assert (∀ t p, validate_frame_description t p ≠ ALLOCATION_FAILED) as Hv.
  { intros t p. unfold validate_frame_description. by repeat case_match. }
  branches; intros [= <-]; try done; by edestruct Hv.
Qed.

Lemma decode_true_no_oom input r :
  decode_alarm_frame true input = Some r → _adstatus r ≠ ALLOCATION_FAILED.
Proof.
  unfold decode_alarm_frame. destruct (alarm_frame_size input) as [sr|] eqn:Hsr; [|discriminate].
  apply alarm_frame_size_no_oom in Hsr. cbn [mbind option_bind]. cbv zeta.
  branches; intros [= <-]; done.
Qed.

Lemma decode_oracle alloc_ok input :
  decode_alarm_frame alloc_ok input = decode_alarm_frame true input
  ∨ alloc_ok = false
    ∧ decode_alarm_frame alloc_ok input = Some (mkADecode ALLOCATION_FAILED None).
Proof.
  destruct alloc_ok; [by left|]. unfold decode_alarm_frame.
  destruct (alarm_frame_size _) as [sr|]; [|by left]. cbn [mbind option_bind]. cbv zeta.
  repeat (case_match; try (by left)
          || match goal with |- context [mbind _ ?m] =>
               destruct m; cbn [mbind option_bind]; [|by left] end); by right.
Qed.

(** The third step of an iteration, on a complete frame. *)
Lemma decode_phase (alloc : Alloc) i buf n cursor completed rest :
  bytes_ok buf → 48 <= n → ♯buf = n → n <= 4144 →
  alarm_frame_size (Some buf) = Some (mkASize SUCCESS (Some n)) →
  ∃ step,
    (decoded ← decode_alarm_frame (alloc DecodePayload i) (Some buf);
     if negb (decode_success decoded) then
       if bool_decide (_adstatus decoded = ALLOCATION_FAILED)
       then Some (return_stream (conc (Waiting [])) S_ALLOCATION_FAILED completed)
       else Some (return_protocol (conc (Waiting [])) (_adstatus decoded) completed)
     else
       match _frame decoded with
       | None => None
       | Some frame =>
           if negb (alloc PushFrame i) then Some (throw_bad_alloc (conc (Waiting [])) completed)
           else Some (Continue (conc (Waiting [])) cursor (completed ++ [frame]))
       end) = Some step
    ∧ ((step = oom_step completed ∧ ∃ site, alloc site i = false)
       ∨ step_outcome (absorb buf) rest cursor completed step).
Proof.
  intros Hok Hn Hbuf Hmax Hsz.
  assert (absorb buf = match decode_alarm_frame true (Some buf) with
           | Some (mkADecode SUCCESS (Some f)) => (Waiting [], [f])
           | Some r => (Dead (_adstatus r), [])
           | None => (Dead EMPTY_INPUT, []) end) as Habs.
  { unfold absorb. by rewrite Hsz, !(proj2 (Z.ltb_ge _ _)) by lia. }
  clear Hsz. rewrite Habs. clear Habs.
  destruct (decode_oracle (alloc DecodePayload i) (Some buf)) as [He|[Ha He]]; rewrite He.
  2: { exists (oom_step completed). split; [done|]. left. eauto. }
  destruct (decode_alarm_frame_safe true buf Hok) as (r & Hr & Hs).
  pose proof (decode_true_no_oom _ _ Hr) as Hno. rewrite Hr. clear He Hr.
  cbn [mbind option_bind]. case_decide as Hst.
  - destruct Hs as (f & -> & _). change (decode_success (mkADecode SUCCESS (Some f))) with true. cbn [negb _frame].
    destruct (alloc PushFrame i) eqn:Hp; cbn [negb].
    + eexists. split; [done|]. by right.
    + exists (oom_step completed). split; [done|]. left. eauto.
  - unfold decode_success. rewrite bool_decide_false by done. cbn [negb andb].
    rewrite bool_decide_false by done. eexists. split; [done|]. right.
    destruct r as [st fr]. cbn [_adstatus] in *. by destruct st.
Qed.

(** The decoder while it waits for the rest of a frame of known size. *)
Definition in_frame (buf : bytes) (n : Z) : AlarmStreamDecoder :=
  mkDecoder buf (Some n) false S_SUCCESS None.

Lemma feed_frame_spec (alloc : Alloc) i b n data cursor completed :
  bytes_ok b → bytes_ok data → (cursor <= length data)%nat → 48 <= ♯b <= n → n <= 4144 →
  alarm_frame_size (Some b) = Some (mkASize SUCCESS (Some n)) →
  ∃ step c rest, feed_frame alloc i (in_frame b n) n data cursor completed = Some step
    ∧ drop cursor data = c ++ rest ∧ ♯(b ++ c) <= n ∧ (♯b < n → drop cursor data ≠ [] → c ≠ [])
    ∧ ((step = oom_step completed ∧ ∃ site, alloc site i = false)
       ∨ step_outcome (absorb (b ++ c)) rest (cursor + length c) completed step).
Proof.
  intros Hb Hdata Hcur Hbn Hmax Hsz. unfold feed_frame. cbn [_buffer in_frame].
  destruct (split_take data cursor (n - ♯b) Hcur) as (c & rest & Hd & Htake & Hle & Hrest);
    [widlia|]. rewrite Htake. cbv zeta.
  rewrite (append_input_spec _ _ _ _ c rest Hd Hcur). cbn [mbind option_bind].
  assert (♯b < n → drop cursor data ≠ [] → c ≠ []) as Hne.
  { intros Hlt Hdn ->. destruct Hdn. rewrite Hd. apply Hrest. change (♯[]) with 0. lia. }
  assert (bytes_ok (b ++ c)) as Hbc.
  { apply Forall_app; split; [done|]. apply (Forall_drop _ cursor) in Hdata.
    rewrite Hd in Hdata. by apply Forall_app in Hdata as [? _]. }
  assert (alarm_frame_size (Some (b ++ c)) = Some (mkASize SUCCESS (Some n))) as Hsz'
    by by rewrite alarm_frame_size_prefix by lia.
  destruct (negb (Z.of_nat (length c) =? 0) && negb (alloc InsertPayload i)) eqn:Eoom.
  { eexists _, c, rest. split; [reflexivity|]. rewrite Zlen_app. do 2 (split; [done || lia|]).
    split; [done|]. left. split; [done|]. exists InsertPayload. ztests. done. }
  cbn [set_buffer _buffer in_frame]. destruct (♯(b ++ c) <? n) eqn:Elt; ztests.
  - eexists _, c, rest. split; [reflexivity|]. do 2 (split; [done || lia|]). split; [done|].
    right. assert (absorb (b ++ c) = (Waiting (b ++ c), [])) as ->.
    { unfold absorb. rewrite Hsz', (proj2 (Z.ltb_ge _ 48)) by (rewrite Zlen_app in *;
        pose proof (Zlen_nonneg c); lia). by rewrite (proj2 (Z.ltb_lt _ _)). }
    assert (rest = []) as Hr by (apply Hrest; rewrite Zlen_app in Elt; lia).
    assert (expected_of (b ++ c) = Some n) as He.
    { unfold expected_of. rewrite Hsz', (proj2 (Z.ltb_ge _ 48)); [done|].
      rewrite Zlen_app. pose proof (Zlen_nonneg c). lia. }
    apply step_outcome_waiting; [|done|by unfold conc; rewrite He].
    intros [-> _]%app_eq_nil. change (♯[]) with 0 in Hbn. lia.
  - assert (♯(b ++ c) = n) as Heq by (rewrite Zlen_app in *; lia).
    unfold ALARM_STREAM_BUFFER_LIMIT, ALARM_MAX_FRAME_SIZE, ALARM_HEADER_SIZE,
      ALARM_MAX_PAYLOAD_SIZE. rewrite (proj2 (Z.ltb_ge _ (♯(b ++ c)))) by lia.
    destruct (decode_phase alloc i (b ++ c) n (cursor + length c) completed rest)
      as (step & Hstep & Hout); try done; [lia|].
    exists step, c, rest. split; [exact Hstep|]. do 2 (split; [done || lia|]). done.
Qed.

(** Proper prefixes of what completes a frame leave the machine waiting. *)
Lemma prefix_waits buf chunk n :
  bytes_ok (buf ++ chunk) → chunk ≠ [] →
  ♯(buf ++ chunk) <= 48
  ∨ alarm_frame_size (Some (buf ++ chunk)) = Some (mkASize SUCCESS (Some n))
    ∧ ♯(buf ++ chunk) <= n →
  spec_feed (Waiting buf) chunk = absorb (buf ++ chunk).
Proof.
  intros Hok Hne Hcase. apply spec_feed_absorb; [done|]. intros l1 l2 -> H1 H2.
  assert (♯l2 > 0) as Hl2.
  { destruct l2; [done|]. rewrite Zlen_cons. pose proof (Zlen_nonneg l2). lia. }
  rewrite !Zlen_app in Hcase. rewrite app_assoc in Hok. apply Forall_app in Hok as [Hok _].
  destruct (Z.lt_ge_cases (♯(buf ++ l1)) 48) as [Hlt|Hge]; [by apply absorb_short|].
  rewrite Zlen_app in Hge. destruct Hcase as [Hcase|[Hsz Hn]]; [lia|].
  apply (absorb_waits_prefix buf l1 l2 n); rewrite ?Zlen_app; try done; lia.
Qed.

Lemma drop_bytes_ok cursor data c rest :
  bytes_ok data → drop cursor data = c ++ rest → bytes_ok c.
Proof.
  intros Hd Hc. apply (Forall_drop _ cursor) in Hd. rewrite Hc in Hd.
  by apply Forall_app in Hd as [? _].
Qed.

(** An iteration that consumed [chunk] follows the specification, unless an
    allocation failed. *)
Definition step_follows (alloc : Alloc) (i : nat) (buf chunk rest : bytes) (cursor : nat)
    (completed : list AlarmFrame) (step : Step) : Prop :=
  (step = oom_step completed ∧ ∃ site, alloc site i = false)
  ∨ spec_feed (Waiting buf) chunk = absorb (buf ++ chunk)
    ∧ step_outcome (absorb (buf ++ chunk)) rest (cursor + length chunk) completed step.

Lemma feed_step_header (alloc : Alloc) i buf data cursor completed :
  bytes_ok buf → ♯buf < 48 → bytes_ok data → (cursor < length data)%nat →
  drop cursor data ≠ [] →
  ∃ step chunk rest, feed_step alloc i (conc (Waiting buf)) data cursor completed = Some step
    ∧ drop cursor data = chunk ++ rest ∧ chunk ≠ []
    ∧ step_follows alloc i buf chunk rest cursor completed step.
Proof.
  intros Hbuf E48 Hdata Hcur Hdne. unfold feed_step, step_follows.
  cbn [conc _expected_frame_size]. unfold expected_of.
  rewrite (proj2 (Z.ltb_lt _ _)) by done.
  pose proof (Zlen_nonneg buf) as Hb0. cbn [_buffer]. unfold ALARM_HEADER_SIZE.
  destruct (split_take data cursor (48 - ♯buf)) as (c & rest & Hd & Htake & Hle & Hrest);
    [lia|widlia|]. rewrite Htake. cbv zeta.
  assert (c ≠ []) as Hcne.
  { intros ->. apply Hdne. rewrite Hd. apply Hrest. change (♯[]) with 0. lia. }
  rewrite (append_input_spec _ _ _ _ c rest Hd) by lia. cbn [mbind option_bind].
  pose proof (drop_bytes_ok _ _ _ _ Hdata Hd) as Hcok.
  assert (bytes_ok (buf ++ c)) as Hbc by (by apply Forall_app).
  destruct (negb (Z.of_nat (length c) =? 0) && negb (alloc InsertHeader i)) eqn:Eoom.
  { eexists _, c, rest. split; [reflexivity|]. do 2 (split; [done|]). left.
    split; [done|]. exists InsertHeader. ztests. done. }
  cbn [set_buffer _buffer]. destruct (♯(buf ++ c) <? 48) eqn:Ebc; ztests.
  { eexists _, c, rest. split; [reflexivity|]. do 2 (split; [done|]). right.
    split; [apply (prefix_waits _ _ 0); [done|done|left; lia]|].
    rewrite absorb_short by done. apply step_outcome_waiting.
    - by intros [_ ?]%app_eq_nil.
    - apply Hrest. rewrite Zlen_app in Ebc. lia.
    - unfold conc, expected_of, set_buffer; cbn.
      by rewrite (proj2 (Z.ltb_lt _ _)). }
  assert (♯(buf ++ c) = 48) as H48 by (rewrite Zlen_app in *; lia).
  destruct (absorb_header (buf ++ c) Hbc) as
    [(e & r & Hr & Hbad & <- & Ha)|(n & r & Hr & Hgood & -> & Hn & Ha)]; [lia| |].
  { rewrite Hr. cbn [mbind option_bind]. rewrite Hbad. cbn [negb].
    eexists _, c, rest. split; [reflexivity|]. do 2 (split; [done|]). right.
    split; [apply (prefix_waits _ _ 0); [done|done|left; lia]|]. by rewrite Ha. }
  rewrite Hr. cbn [mbind option_bind]. rewrite Hgood. cbn [negb _frame_size].
  unfold ALARM_STREAM_BUFFER_LIMIT, ALARM_MAX_FRAME_SIZE, ALARM_HEADER_SIZE,
    ALARM_MAX_PAYLOAD_SIZE. rewrite (proj2 (Z.ltb_ge _ n)) by lia.
  assert (cursor + length c <= length data)%nat as Hcur2.
  { apply (f_equal length) in Hd. rewrite length_drop, length_app in Hd. lia. }
  destruct (feed_frame_spec alloc i (buf ++ c) n data (cursor + length c) completed)
    as (step & c2 & rest2 & Hs & Hd2 & Hle2 & _ & Hout); try done; try lia.
  assert (rest = c2 ++ rest2) as ->.
  { rewrite <- drop_drop, Hd, drop_app_length in Hd2. done. }
  exists step, (c ++ c2), rest2. split; [exact Hs|]. split; [by rewrite <- app_assoc|].
  split; [by intros [? _]%app_eq_nil|].
  rewrite <- app_assoc, <- Nat.add_assoc, <- length_app in Hout.
  destruct Hout as [Hout|Hout]; [by left|right]. split; [|done].
  apply (prefix_waits _ _ n); [|by intros [? _]%app_eq_nil|].
  - rewrite app_assoc. apply Forall_app; split; [done|].
    exact (drop_bytes_ok _ _ _ _ Hdata Hd2).
  - right. rewrite app_assoc. by rewrite alarm_frame_size_prefix by lia.
Qed.

Lemma feed_step_spec (alloc : Alloc) i buf data cursor completed :
  state_ok (Waiting buf) → bytes_ok data → (cursor < length data)%nat →
  ∃ step chunk rest, feed_step alloc i (conc (Waiting buf)) data cursor completed = Some step
    ∧ drop cursor data = chunk ++ rest ∧ chunk ≠ []
    ∧ step_follows alloc i buf chunk rest cursor completed step.
Proof.
  intros [Hbuf Hwait] Hdata Hcur.
  assert (drop cursor data ≠ []) as Hdne.
  { intros He. apply (f_equal length) in He. rewrite length_drop in He. simpl in He. lia. }
  destruct (Z.lt_ge_cases (♯buf) 48) as [E48|E48]; [by apply feed_step_header|].
  unfold feed_step, step_follows. cbn [conc _expected_frame_size].
  unfold expected_of. rewrite (proj2 (Z.ltb_ge _ _)) by lia.
  destruct (absorb_header buf Hbuf E48) as [(e & r & _ & _ & _ & He)|(n & r & Hr & _ & -> & Hn & Ha)].
  { by rewrite He in Hwait. }
  rewrite Hr. cbn [_frame_size]. rewrite Ha in Hwait.
  destruct (♯buf <? n) eqn:Elt; ztests; cycle 1.
  { repeat case_match; simplify_eq; change (♯[]) with 0 in *; lia. }
  destruct (feed_frame_spec alloc i buf n data cursor completed)
    as (step & c & rest & Hs & Hd & Hle & Hne & Hout); try done; try lia.
  exists step, c, rest. unfold conc, expected_of.
  split; [exact Hs|]. split; [done|]. split; [by apply Hne|].
  destruct Hout as [Hout|Hout]; [by left|right]. split; [|done].
  apply (prefix_waits _ _ n); [|by apply Hne|].
  - apply Forall_app; split; [done|exact (drop_bytes_ok _ _ _ _ Hdata Hd)].
  - right. by rewrite alarm_frame_size_prefix by lia.
Qed.

(** *** The loop *)

Lemma absorb_ok buf : bytes_ok buf → state_ok (absorb buf).1.
Proof.
  intros Hok. destruct (absorb buf) as [s fs] eqn:Ha. cbn. destruct s as [b|e]; [|done].
  destruct (Z.lt_ge_cases (♯buf) 48) as [Hlt|Hge].
  - rewrite absorb_short in Ha by done. simplify_eq. split; [done|by apply absorb_short].
  - destruct (absorb_header buf Hok Hge) as [(e & r & _ & _ & _ & He)|(n & r & Hr & _ & -> & _ & He)];
      rewrite He in Ha; [done|].
    destruct (♯buf <? n) eqn:Elt; simplify_eq; [done|].
    repeat case_match; simplify_eq; split; [constructor|done].
Qed.

(** What stays buffered is all of the input or nothing. *)
Lemma absorb_waiting_buffer buf b fs : absorb buf = (Waiting b, fs) → b = buf ∨ b = [].
Proof. unfold absorb. intros. repeat case_match; simplify_eq; auto. Qed.

Lemma spec_feed_ok s data : state_ok s → bytes_ok data → state_ok (spec_feed s data).1.
Proof.
  intros Hs Hd. revert s Hs. induction Hd as [|x data Hx _ IH]; intros s Hs; [done|].
  change (x :: data) with ([x] ++ data). rewrite spec_feed_app.
  destruct s as [buf|e]; [|by rewrite !spec_feed_dead].
  destruct (spec_feed (Waiting buf) [x]) as [s1 f1] eqn:E1.
  assert (state_ok s1) as Hs1.
  { unfold spec_feed in E1; simpl in E1. pose proof (absorb_ok (buf ++ [x])) as Ha.
    destruct (absorb (buf ++ [x])) as [s2 f2]. simplify_eq. apply Ha.
    apply Forall_app; split; [apply Hs|by apply Forall_singleton]. }
  specialize (IH s1 Hs1). by destruct (spec_feed s1 data).
Qed.

Definition oom_decoder : AlarmStreamDecoder := mkDecoder [] None true S_ALLOCATION_FAILED None.

(** A call that ran into an allocation failure still returns the frames that
    were complete by then. *)
Definition loop_outcome (alloc : Alloc) (s : StreamState * list AlarmFrame)
    (completed : list AlarmFrame) (out : AlarmStreamDecoder * AlarmStreamFeedResult) : Prop :=
  out = (conc s.1, result_of s.1 (completed ++ s.2))
  ∨ (∃ fs, fs `prefix_of` s.2 ∧ out = (oom_decoder, mkFeed S_ALLOCATION_FAILED (completed ++ fs) None))
    ∧ ∃ site k, alloc site k = false.

Lemma feed_loop_spec (alloc : Alloc) fuel : ∀ i buf data cursor completed,
  state_ok (Waiting buf) → bytes_ok data → (cursor <= length data)%nat →
  (length data - cursor < fuel)%nat →
  ∃ out, feed_loop fuel alloc i (conc (Waiting buf)) data cursor completed = Some out
    ∧ loop_outcome alloc (spec_feed (Waiting buf) (drop cursor data)) completed out.
Proof.
  induction fuel as [|fuel IH]; intros i buf data cursor completed Hs Hd Hcur Hfuel; [lia|].
  cbn [feed_loop]. destruct (cursor <? length data)%nat eqn:Ec; cycle 1.
  { apply Nat.ltb_ge in Ec. rewrite drop_ge by lia. eexists. split; [reflexivity|].
    left. cbn. by rewrite app_nil_r. }
  apply Nat.ltb_lt in Ec.
  destruct (feed_step_spec alloc i buf data cursor completed Hs Hd Ec)
    as (step & c & rest & -> & Hdrop & Hne & Hfol). cbn [mbind option_bind].
  rewrite Hdrop, spec_feed_app. destruct Hfol as [[-> (site & Ha)]|[Hspec Hout]].
  { eexists. split; [reflexivity|]. right. split; [|eauto]. exists []. rewrite app_nil_r.
    split; [apply prefix_nil|done]. }
  rewrite Hspec. assert (bytes_ok (buf ++ c)) as Hbc.
  { apply Forall_app; split; [apply Hs|]. exact (drop_bytes_ok _ _ _ _ Hd Hdrop). }
  pose proof (absorb_ok _ Hbc) as Hok. destruct (absorb (buf ++ c)) as [s1 f1].
  destruct s1 as [b|e]; cbn [step_outcome] in Hout.
  2: { destruct f1; [|done]. subst step. rewrite spec_feed_dead. eexists. split; [reflexivity|].
       left. cbn. by rewrite app_nil_r. }
  destruct f1 as [|f [|? ?]]; [| |by destruct b].
  - assert (b ≠ [] ∧ rest = [] ∧ step = Break (conc (Waiting b)) completed) as (Hb & -> & ->)
      by by destruct b.
    eexists. split; [reflexivity|]. left. cbn. by rewrite app_nil_r.
  - assert (b = [] ∧ step = Continue (conc (Waiting [])) (cursor + length c) (completed ++ [f]))
      as [-> ->] by by destruct b; [|destruct Hout].
    assert (cursor + length c <= length data ∧ length c ≠ 0)%nat as [Hc2 Hc0].
    { apply (f_equal length) in Hdrop. rewrite length_drop, length_app in Hdrop.
      destruct c; [done|simpl in *; lia]. }
    destruct (IH (S i) [] data (cursor + length c)%nat (completed ++ [f])) as (out & Hl & Ho);
      [done|done|done|lia|].
    exists out. split; [done|]. rewrite <- drop_drop, Hdrop, drop_app_length in Ho.
    destruct (spec_feed (Waiting []) rest) as [s2 f2]. unfold loop_outcome in *. cbn [fst snd] in *.
    destruct Ho as [->|[(fs & [k ->] & ->) Ha]]; [left; by rewrite <- app_assoc|right].
    split; [|done]. exists (f :: fs). rewrite <- app_assoc. split; [|done]. by exists k.
Qed.

(** ** The contract of the decoder *)

(** A decoder obtained from [new_decoder] by [feed], [finish] and [reset]. *)
Definition decoder_ok (d : AlarmStreamDecoder) : Prop :=
  (∃ s, state_ok s ∧ d = conc s) ∨ d = oom_decoder.

(** Feeding the pieces of a stream one after another, collecting the frames. *)
Fixpoint feed_all (alloc : Alloc) (d : AlarmStreamDecoder) (chunks : list bytes)
    : option (AlarmStreamDecoder * list AlarmFrame) :=
  match chunks with
  | [] => Some (d, [])
  | c :: rest =>
      '(d, r) ← feed alloc d (Data c);
      '(d, fs) ← feed_all alloc d rest;
      Some (d, _frames r ++ fs)
  end.

Definition spec_result (s : StreamState) (data : bytes)
    : AlarmStreamDecoder * AlarmStreamFeedResult :=
  match s with
  | Dead e => (conc s, mkFeed S_ALREADY_FAILED [] (Some e))
  | Waiting _ => let '(s', fs) := spec_feed s data in (conc s', result_of s' fs)
  end.

Lemma feed_refines s data :
  state_ok s → bytes_ok data → feed no_oom (conc s) (Data data) = Some (spec_result s data).
Proof.
  intros Hs Hd. destruct s as [buf|e]; [|done]. unfold feed. cbn [conc _failed].
  destruct (feed_loop_spec no_oom (S (length data)) 0 buf data 0 []) as (out & Hl & Ho);
    [done|done|lia|lia|]. fold (conc (Waiting buf)). rewrite Hl, drop_0 in *.
  unfold spec_result. destruct (spec_feed (Waiting buf) data) as [s' fs].
  destruct Ho as [->|[_ (site & k & Ha)]]; done.
Qed.

Lemma feed_all_refines s chunks :
  state_ok s → Forall bytes_ok chunks →
  feed_all no_oom (conc s) chunks
  = let '(s', fs) := spec_feed s (concat chunks) in Some (conc s', fs).
Proof.
  intros Hs Hc. revert s Hs. induction Hc as [|c chunks Hc _ IH]; intros s Hs; [done|].
  cbn [feed_all concat]. rewrite feed_refines, spec_feed_app by done. cbn [mbind option_bind].
  destruct s as [buf|e]; cbn [spec_result].
  - pose proof (spec_feed_ok _ _ Hs Hc) as Hs1.
    destruct (spec_feed (Waiting buf) c) as [s1 f1]. rewrite IH by done.
    destruct (spec_feed s1 (concat chunks)) as [s2 f2]. cbn. by destruct s1.
  - rewrite IH by done. rewrite !spec_feed_dead. done.
Qed.

(** A complete frame passes through the machine in one piece. *)
Lemma spec_feed_frame f :
  frame_ok f → spec_feed (Waiting []) (frame_bytes f) = (Waiting [], [f]).
Proof.
  intros Hf. pose proof (frame_bytes_size f Hf) as Hsz. pose proof (frame_bytes_ok f Hf) as Hok.
  pose proof (frame_ok_payload f Hf) as Hp. pose proof Hf as (Hv & _).
  destruct (frame_bytes_start f Hf) as (rest & Hst & Hrest).
  assert (alarm_frame_size (Some (frame_bytes f))
          = Some (mkASize SUCCESS (Some (48 + ♯(_payload f))))) as Hfs.
  { rewrite Hst in *. apply alarm_frame_size_layout; [done|lia|widlia|done]. }
  rewrite (prefix_waits [] (frame_bytes f) (48 + ♯(_payload f))); cbn [app].
  - unfold absorb. rewrite Hfs, (proj2 (Z.ltb_ge _ 48)), (proj2 (Z.ltb_ge _ _)) by lia.
    by rewrite decode_alarm_frame_layout by auto.
  - done.
  - intros He. rewrite He in Hsz. change (♯[]) with 0 in Hsz. lia.
  - right. split; [done|lia].
Qed.

Lemma spec_feed_frames fs :
  Forall frame_ok fs → spec_feed (Waiting []) (concat (frame_bytes <$> fs)) = (Waiting [], fs).
Proof.
  induction 1 as [|f fs Hf _ IH]; [done|]. rewrite fmap_cons. cbn [concat].
  by rewrite spec_feed_app, spec_feed_frame, IH by done.
Qed.

Lemma frames_bytes_ok fs : Forall frame_ok fs → bytes_ok (concat (frame_bytes <$> fs)).
Proof.
  induction 1 as [|f fs Hf _ IH]; [constructor|]. rewrite fmap_cons. cbn [concat].
  apply Forall_app; split; [by apply frame_bytes_ok|done].
Qed.

Lemma chunks_ok chunks data : concat chunks = data → bytes_ok data → Forall bytes_ok chunks.
Proof.
  intros <-. induction chunks as [|c chunks IH]; cbn [concat]; [constructor|].
  intros [? ?]%Forall_app. constructor; auto.
Qed.

Lemma new_decoder_conc : new_decoder = conc (Waiting []).
Proof. done. Qed.

(** An incomplete frame only lengthens the buffer. *)
Lemma spec_feed_partial f pre suf :
  frame_ok f → frame_bytes f = pre ++ suf → suf ≠ [] →
  spec_feed (Waiting []) pre = (Waiting pre, []).
Proof.
  intros Hf Hsplit Hsuf. destruct (decide (pre = [])) as [->|Hpre]; [done|].
  pose proof (spec_feed_frame f Hf) as Hall. rewrite Hsplit, spec_feed_app in Hall.
  pose proof (frame_bytes_ok f Hf) as Hok. rewrite Hsplit in Hok.
  apply Forall_app in Hok as [Hokp _].
  destruct (frame_bytes_start f Hf) as (rest & Hst & Hrest).
  pose proof (frame_bytes_size f Hf) as Hsz. pose proof (frame_ok_payload f Hf) as Hpl.
  assert (♯pre < 48 + ♯(_payload f)) as Hlt.
  { rewrite <- Hsz, Hsplit, Zlen_app. destruct suf; [done|]. rewrite Zlen_cons.
    pose proof (Zlen_nonneg suf). lia. }
  assert (48 <= ♯pre → alarm_frame_size (Some pre)
          = Some (mkASize SUCCESS (Some (48 + ♯(_payload f))))) as Hfs.
  { intros H48. rewrite <- (alarm_frame_size_prefix pre suf), <- Hsplit, Hst by done.
    apply alarm_frame_size_layout; [rewrite <- Hst; by apply frame_bytes_ok|lia|widlia|].
    apply Hf. }
  rewrite (prefix_waits [] pre (48 + ♯(_payload f))); cbn [app].
  - destruct (Z.lt_ge_cases (♯pre) 48); [by apply absorb_short|].
    unfold absorb. by rewrite Hfs, (proj2 (Z.ltb_ge _ 48)), (proj2 (Z.ltb_lt _ _)) by lia.
  - done.
  - done.
  - destruct (Z.lt_ge_cases (♯pre) 48); [left; lia|right]. split; [by apply Hfs|lia].
Qed.

(** C9. Refinement: with memory available, [feed] on any input leaves the
    decoder in the state, and returns the frames and status, of the machine
    that consumes the same bytes one at a time; the loop never reads outside
    its input and terminates within one iteration per byte. *)
Theorem stream_feed_refines s data :
  state_ok s → bytes_ok data →
  feed no_oom (conc s) (Data data) = Some (spec_result s data)
  ∧ state_ok (spec_feed s data).1.
Proof. intros Hs Hd. split; [by apply feed_refines|by apply spec_feed_ok]. Qed.

Lemma stream_feed_refines_witness :
  feed no_oom (conc (Waiting [83; 77])) (Data [65; 50])
  = Some (spec_result (Waiting [83; 77]) [65; 50])
  ∧ state_ok (spec_feed (Waiting [83; 77]) [65; 50]).1.
Proof.
  apply (stream_feed_refines (Waiting [83; 77]) [65; 50]);
    [split; [by apply (bool_decide_unpack _); vm_compute|vm_compute; reflexivity]|].
  by apply (bool_decide_unpack _); vm_compute.
Defined.

(** TCP segmentation does not matter: two ways of cutting the same bytes
    into pieces leave the decoder in the same state and deliver the same
    frames, also when the stream contains an error. *)
Theorem stream_chunking s chunks chunks' :
  state_ok s → Forall bytes_ok chunks → concat chunks = concat chunks' →
  feed_all no_oom (conc s) chunks = feed_all no_oom (conc s) chunks'
  ∧ is_Some (feed_all no_oom (conc s) chunks).
Proof.
  intros Hs Hc He.
  assert (bytes_ok (concat chunks)) as Hok.
  { clear He. induction Hc; cbn [concat]; [constructor|]. by apply Forall_app. }
  rewrite !feed_all_refines; [|done|by apply (chunks_ok _ (concat chunks))|done|done].
  rewrite He. destruct (spec_feed s (concat chunks')). eauto.
Qed.

Lemma stream_chunking_witness :
  feed_all no_oom new_decoder [frame_bytes sample_ping ++ [83]; [0; 7]]
  = feed_all no_oom new_decoder [take 20 (frame_bytes sample_ping);
      drop 20 (frame_bytes sample_ping) ++ [83; 0; 7]]
  ∧ is_Some (feed_all no_oom new_decoder [frame_bytes sample_ping ++ [83]; [0; 7]]).
Proof.
  apply (stream_chunking (Waiting []));
    [split; [constructor|done] | by apply (bool_decide_unpack _); vm_compute | done].
Defined.

(** C1. Delivery: a stream of encoded frames, however it is cut into pieces,
    delivers exactly those frames in order and leaves a fresh decoder, for
    which [finish] reports success. *)
Theorem stream_delivers_frames fs chunks :
  Forall frame_ok fs → concat chunks = concat (frame_bytes <$> fs) →
  feed_all no_oom new_decoder chunks = Some (new_decoder, fs)
  ∧ _sstatus (finish new_decoder).2 = S_SUCCESS.
Proof.
  intros Hf Hc. split; [|done]. rewrite new_decoder_conc, feed_all_refines.
  - by rewrite Hc, spec_feed_frames.
  - split; [constructor|done].
  - by eapply chunks_ok, frames_bytes_ok.
Qed.

Lemma stream_delivers_frames_witness :
  feed_all no_oom new_decoder
    [take 60 (concat (frame_bytes <$> [sample_ping; sample_frame]));
     drop 60 (concat (frame_bytes <$> [sample_ping; sample_frame]))]
  = Some (new_decoder, [sample_ping; sample_frame])
  ∧ _sstatus (finish new_decoder).2 = S_SUCCESS.
Proof.
  apply (stream_delivers_frames [sample_ping; sample_frame]);
    [by apply (bool_decide_unpack _); vm_compute | vm_compute; reflexivity].
Defined.

(** Truncation: when a stream ends inside a frame, all frames before it have
    been delivered, and [finish] fails with [SHORT_HEADER] if not even the header
    arrived and with [INVALID_TOTAL_LENGTH] otherwise. *)
Theorem stream_truncation_detected fs f pre suf chunks :
  Forall frame_ok fs → frame_ok f → frame_bytes f = pre ++ suf → pre ≠ [] → suf ≠ [] →
  concat chunks = concat (frame_bytes <$> fs) ++ pre →
  ∃ d, feed_all no_oom new_decoder chunks = Some (d, fs)
    ∧ finish d = fail_protocol d
        (if ♯pre <? ALARM_HEADER_SIZE then SHORT_HEADER else INVALID_TOTAL_LENGTH) [].
Proof.
  intros Hfs Hf Hsplit Hpre Hsuf Hc. exists (conc (Waiting pre)). split.
  - rewrite new_decoder_conc, feed_all_refines.
    + rewrite Hc, spec_feed_app, spec_feed_frames by done.
      rewrite (spec_feed_partial f pre suf) by done. by rewrite app_nil_r.
    + split; [constructor|done].
    + apply (chunks_ok _ _ Hc), Forall_app; split; [by apply frames_bytes_ok|].
      pose proof (frame_bytes_ok f Hf) as Hok. rewrite Hsplit in Hok.
      by apply Forall_app in Hok as [? _].
  - unfold finish. cbn [conc _failed _buffer]. rewrite bool_decide_false by done.
    by case_match.
Qed.

Lemma stream_truncation_detected_witness :
  ∃ d, feed_all no_oom new_decoder [take 50 (frame_bytes sample_frame)] = Some (d, [])
    ∧ finish d = fail_protocol d INVALID_TOTAL_LENGTH [].
Proof.
  apply (stream_truncation_detected [] sample_frame (take 50 (frame_bytes sample_frame))
    (drop 50 (frame_bytes sample_frame)) [take 50 (frame_bytes sample_frame)]);
    (done || by apply (bool_decide_unpack _); vm_compute).
Defined.

(** A frame comes out only when it is complete. *)
Lemma absorb_frames buf s fs :
  bytes_ok buf → absorb buf = (s, fs) →
  fs = [] ∨ ∃ f, fs = [f] ∧ frame_ok f ∧ s = Waiting [] ∧ 48 <= ♯buf.
Proof.
  intros Hok Ha. destruct (Z.lt_ge_cases (♯buf) 48) as [Hlt|Hge].
  { rewrite absorb_short in Ha by done. simplify_eq. by left. }
  destruct (absorb_header buf Hok Hge) as [(e & r & _ & _ & _ & He)|(n & r & _ & _ & _ & _ & He)];
    rewrite He in Ha; [simplify_eq; by left|].
  destruct (♯buf <? n); [simplify_eq; by left|].
  destruct (decode_alarm_frame_safe true buf Hok) as ([st o] & Hd & Hr). rewrite Hd in Ha.
  cbn [_adstatus _frame] in *. case_decide as Hst; [|subst o; destruct st; simplify_eq; by left].
  destruct Hr as (f & [= -> ->] & Hf & _). simplify_eq. right. by exists f.
Qed.

(** The frames of a stream are valid and take at least 48 bytes each, and the
    first of them takes at least one byte that was not yet buffered. *)
Lemma spec_feed_frames_ok buf data :
  bytes_ok buf → bytes_ok data →
  let fs := (spec_feed (Waiting buf) data).2 in
  Forall frame_ok fs ∧ 48 * ♯fs <= ♯buf + ♯data ∧ (fs = [] ∨ 48 * (♯fs - 1) < ♯data).
Proof.
  intros Hb Hd. revert buf Hb. induction Hd as [|x data Hx Hd IH]; intros buf Hb; cbv zeta.
  { split; [constructor|]. cbn. unfold Zlen. cbn. split; [lia|by left]. }
  change (x :: data) with ([x] ++ data). rewrite spec_feed_app.
  destruct (spec_feed (Waiting buf) [x]) as [s1 f1] eqn:E1. unfold spec_feed in E1. cbn in E1.
  destruct (absorb (buf ++ [x])) as [s2 f2] eqn:Ea. simplify_eq.
  assert (bytes_ok (buf ++ [x])) as Hbx by (apply Forall_app; split; [done|by apply Forall_singleton]).
  pose proof (absorb_frames _ _ _ Hbx Ea) as Hf. rewrite Zlen_app in Hf. unfold Zlen in *. cbn [length] in *.
  destruct s1 as [b1|e]; cycle 1.
  { rewrite spec_feed_dead. destruct Hf as [->|(f & -> & _ & [=] & _)]. cbn.
    split; [constructor|]. split; [lia|by left]. }
  assert (bytes_ok b1 ∧ (length b1 <= length buf + 1)%nat) as [Hb1 Hl1].
  { destruct (absorb_waiting_buffer _ _ _ Ea) as [-> | ->]; [|by split; [constructor|cbn; lia]].
    split; [done|]. rewrite length_app. cbn. lia. }
  destruct (IH b1 Hb1) as (IH1 & IH2 & IH3). destruct (spec_feed (Waiting b1) data) as [s3 f3].
  cbn [fst snd] in *. destruct Hf as [->|(f & -> & Hf & [= ->] & ?)]; cbn [app length] in *.
  - split; [done|]. split; [lia|]. destruct IH3; [by left|right; lia].
  - split; [by constructor|]. split; [lia|right; lia].
Qed.

(** [feed] on any decoder, whichever allocations fail. *)
Lemma feed_total (alloc : Alloc) d b :
  decoder_ok d → bytes_ok b →
  ∃ d' r, feed alloc d (Data b) = Some (d', r) ∧ decoder_ok d' ∧ Forall frame_ok (_frames r)
    ∧ (_frames r = [] ∨ 48 * (♯(_frames r) - 1) < ♯b).
Proof.
  intros Hd Hb. unfold feed. destruct (_failed d) eqn:Ef.
  { eexists d, _. split; [done|]. split; [done|]. by split; [constructor|left]. }
  destruct Hd as [([buf|e] & Hs & ->)| ->]; [|done|done].
  destruct (feed_loop_spec alloc (S (length b)) 0 buf b 0 []) as ([d' r] & Hl & Ho); [done|done|lia|lia|].
  exists d', r. split; [exact Hl|]. rewrite drop_0 in Ho.
  destruct (spec_feed_frames_ok buf b (proj1 Hs) Hb) as (Hf & _ & Hn).
  destruct Ho as [[= -> ->]|[(fs & Hpre & [= -> ->]) _]]; cbn [app].
  - split; [left; eexists; split; [|done]; by apply spec_feed_ok|].
    by destruct (spec_feed (Waiting buf) b) as [[?|?] fs].
  - split; [by right|]. cbn [_frames]. destruct Hpre as [k Hk]. rewrite Hk in *.
    apply Forall_app in Hf as [Hf _]. split; [done|]. rewrite Zlen_app in Hn.
    pose proof (Zlen_nonneg k). destruct Hn as [[-> _]%app_eq_nil|]; [by left|right; lia].
Qed.

Lemma finish_ok d : decoder_ok d → decoder_ok (finish d).1.
Proof.
  intros Hd. unfold finish. repeat case_match; try done; left; eexists (Dead _); by split.
Qed.

Lemma new_decoder_ok : decoder_ok new_decoder.
Proof. left. exists (Waiting []). by split; [split; [constructor|]|]. Qed.

(** Robustness: whatever the input and whichever allocations fail, every
    call returns, the decoder stays usable through [feed], [finish] and [reset],
    and its buffer stays below the size of one maximal frame. *)
Theorem stream_always_bounded (alloc : Alloc) d input :
  decoder_ok d → (∀ b, input = Data b → bytes_ok b) →
  (∃ d' r, feed alloc d input = Some (d', r) ∧ decoder_ok d')
  ∧ decoder_ok (finish d).1 ∧ decoder_ok (reset d)
  ∧ ♯(_buffer d) < ALARM_STREAM_BUFFER_LIMIT.
Proof.
  intros Hd Hin. split; [|split; [by apply finish_ok|split; [exact new_decoder_ok|]]].
  - destruct input as [size|b]; [unfold feed; case_match; [by eauto|case_match; eauto]|].
    destruct (feed_total alloc d b Hd (Hin b eq_refl)) as (d' & r & ? & ? & _). eauto.
  - destruct Hd as [([buf|e] & Hs & ->)| ->]; [|done|done]. cbn [conc _buffer].
    destruct Hs as [Hok Hw]. unfold ALARM_STREAM_BUFFER_LIMIT, ALARM_MAX_FRAME_SIZE,
      ALARM_HEADER_SIZE, ALARM_MAX_PAYLOAD_SIZE.
    destruct (Z.lt_ge_cases (♯buf) 48); [lia|].
    destruct (absorb_header buf Hok) as [(e & r & _ & _ & _ & He)|(n & r & _ & _ & _ & Hn & He)];
      [lia|by rewrite He in Hw|]. rewrite He in Hw.
    destruct (♯buf <? n) eqn:E; ztests; [lia|].
    repeat case_match; simplify_eq; change (♯[]) with 0 in *; lia.
Qed.

Lemma stream_always_bounded_witness :
  (∃ d' r, feed (λ _ _, false) new_decoder (Data [83; 77; 65]) = Some (d', r) ∧ decoder_ok d')
  ∧ decoder_ok (finish new_decoder).1 ∧ decoder_ok (reset new_decoder)
  ∧ ♯(_buffer new_decoder) < ALARM_STREAM_BUFFER_LIMIT.
Proof.
  apply (stream_always_bounded (λ _ _, false) new_decoder (Data [83; 77; 65])).
  - left. exists (Waiting []). by split; [split; [constructor|]|].
  - intros b [= <-]. by apply (bool_decide_unpack _); vm_compute.
Defined.
