(* ===== verification/MonitorStore.v ===== *)
(** The record store ([src/monitor/monitor_store.cpp], [inc/monitor/monitor_store.h]).

    [_records] is a [std::map] ordered by [MonitorKey::operator<]: a [gmap] whose
    iteration order is [sorted_entries key_le]. Every operation holds the store
    mutex from its first access to [_records] to its last, so an operation is
    one atomic transition. The prepare callback is code of the caller: it acts
    on a world [W] of its own and returns, returns false or throws. *)

From S2P Require Import Prelude MonitorData.
#[local] Open Scope tlss_scope.

Abbreviation MonitorStore := (gmap MonitorKey StoredRecord).

Definition same_monitor_value (incoming : MonitorData) (stored : StoredRecord) : bool :=
  match get_if_numeric (_mvalue incoming) with
  | Some incoming_numeric =>
      match get_if_numeric (_mvalue (_data stored)) with
      | Some stored_numeric => _value stored_numeric =? _value incoming_numeric
      | None => false
      end
  | None =>
      match get_if_string (_mvalue incoming), get_if_string (_mvalue (_data stored)) with
      | Some incoming_string, Some stored_string => bool_decide (incoming_string = stored_string)
      | _, _ => false
      end
  end.

Section Store.
Context {W : Type}.

Inductive PrepareOutcome := PrepareTrue | PrepareFalse | PrepareThrow.

(** A [std::function], possibly empty. *)
Definition PrepareUpdate : Type := option (StoredRecord → W → PrepareOutcome * W).

(** [prepare] is a pointer: [None] is [nullptr]. *)
Definition run_prepare (prepare : option PrepareUpdate) (candidate : StoredRecord) (w : W)
    : bool * W :=
  match prepare with
  | None => (true, w)
  | Some None => (false, w)
  | Some (Some f) =>
      let '(outcome, w) := f candidate w in
      match outcome with
      | PrepareTrue => (true, w)
      | PrepareFalse => (false, w)
      | PrepareThrow => (false, w)
      end
  end.

Definition update_impl (records : MonitorStore) (data : MonitorData) (force : bool)
    (timestamp : MonitorTimestamp) (prepare : option PrepareUpdate) (w : W)
    : UpdateResult * MonitorStore * W :=
  if bool_decide (_mvalue data = VValueless) then (mkUpdateResult INVALID None, records, w) else
  let key := _key data in
  match records !! key with
  | None =>
      if match get_if_numeric (_mvalue data) with
         | Some n => (_value n =? 0) && negb force
         | None => false
         end
      then (mkUpdateResult IGNORED_INITIAL_ZERO None, records, w)
      else
        let candidate := mkStored data timestamp in
        let committed_result := mkUpdateResult INSERTED (Some candidate) in
        let records := <[key := candidate]> records in
        let '(prepared, w) := run_prepare prepare candidate w in
        if negb prepared
        then (mkUpdateResult DURABILITY_FAILED None, delete key records, w)
        else (committed_result, records, w)
  | Some existing =>
      if same_monitor_value data existing
      then (mkUpdateResult UNCHANGED (Some existing), records, w)
      else
        let candidate := mkStored data timestamp in
        let committed_result := mkUpdateResult UPDATED (Some candidate) in
        let '(prepared, w) := run_prepare prepare candidate w in
        if negb prepared
        then (mkUpdateResult DURABILITY_FAILED None, records, w)
        else (committed_result, <[key := candidate]> records, w)
  end.

Definition update_prepared (records : MonitorStore) (data : MonitorData) (force : bool)
    (timestamp : MonitorTimestamp) (prepare : PrepareUpdate) (w : W)
    : UpdateResult * MonitorStore * W :=
  update_impl records data force timestamp (Some prepare) w.

Definition update (records : MonitorStore) (data : MonitorData) (force : bool)
    (timestamp : MonitorTimestamp) (w : W) : UpdateResult * MonitorStore * W :=
  update_impl records data force timestamp None w.

End Store.

Definition find (records : MonitorStore) (key : MonitorKey) : option StoredRecord :=
  records !! key.
Definition store_size (records : MonitorStore) : Z := Z.of_nat (base.size records).
Definition clear (records : MonitorStore) : MonitorStore := ∅.

(** The four [continue] guards of the loop in [query]. *)
Definition field_matches (wanted : option Z) (actual : Z) : bool :=
  match wanted with Some v => actual =? v | None => true end.

Definition filter_matches (f : MonitorFilter) (key : MonitorKey) : bool :=
  field_matches (module_id f) (_mid key) && field_matches (level f) (_level key)
  && field_matches (function_id f) (_fid key) && field_matches (event_id f) (_eid key).

Fixpoint query_loop (f : MonitorFilter) (entries : list (MonitorKey * StoredRecord))
    (result : list StoredRecord) : list StoredRecord :=
  match entries with
  | [] => result
  | (key, record) :: rest =>
      if negb (filter_matches f key) then query_loop f rest result
      else query_loop f rest (result ++ [record])
  end.

Definition query (records : MonitorStore) (f : MonitorFilter) : list StoredRecord :=
  query_loop f (sorted_entries key_le records) [].

(** ** Invariant *)

(** Every entry is filed under the key of its record and holds a value. *)
Definition store_ok (records : MonitorStore) : Prop :=
  ∀ k r, records !! k = Some r → _key (_data r) = k ∧ _mvalue (_data r) ≠ VValueless.

(** Two records with the same visible value, as deduplication sees it. *)
Definition same_value (a b : MonitorValue) : Prop :=
  match a, b with
  | VNumeric m, VNumeric n => _value m = _value n
  | VString s, VString t => s = t
  | _, _ => False
  end.

#[export] Instance same_value_dec a b : Decision (same_value a b).
Proof. destruct a, b; simpl; apply _. Defined.

Lemma same_monitor_value_spec data r :
  same_monitor_value data r = bool_decide (same_value (_mvalue data) (_mvalue (_data r))).
Proof.
  unfold same_monitor_value. destruct (_mvalue data), (_mvalue (_data r)); cbn; try done.
  - destruct (Z.eqb_spec (_value n0) (_value n)); case_bool_decide; congruence.
Qed.

(** ** What an update does *)

Section Updates.
Context {W : Type}.
Implicit Types (prepare : option (PrepareUpdate (W := W))) (w : W).

(** A value is new to the store when it is not deduplicated: a first value
    other than an unforced zero, or a value different from the stored one. *)
Definition is_news (records : MonitorStore) (data : MonitorData) (force : bool) : bool :=
  match records !! _key data with
  | None => force || negb (bool_decide (same_value (VNumeric (mkNumeric 0 0)) (_mvalue data)))
  | Some existing => negb (bool_decide (same_value (_mvalue data) (_mvalue (_data existing))))
  end.

(** [update_impl] in one table. *)
Lemma update_impl_table records data force ts prepare w :
  _mvalue data ≠ VValueless →
  update_impl records data force ts prepare w =
  let candidate := mkStored data ts in
  if is_news records data force then
    let '(ok, w') := run_prepare prepare candidate w in
    if ok then (mkUpdateResult (if records !! _key data then UPDATED else INSERTED)
                  (Some candidate), <[_key data := candidate]> records, w')
    else (mkUpdateResult DURABILITY_FAILED None, records, w')
  else
    (match records !! _key data with
     | Some existing => mkUpdateResult UNCHANGED (Some existing)
     | None => mkUpdateResult IGNORED_INITIAL_ZERO None
     end, records, w).
Proof.
  intros Hv. unfold update_impl, is_news. rewrite bool_decide_false by done. cbv zeta.
  destruct (records !! _key data) as [existing|] eqn:Hk.
  - rewrite same_monitor_value_spec. case_bool_decide; cbn [negb]; [done|].
    destruct (run_prepare _ _ _) as [[] w']; done.
  - assert (match get_if_numeric (_mvalue data) with
            | Some n => (_value n =? 0) && negb force | None => false end
            = negb (force || negb (bool_decide (same_value (VNumeric (mkNumeric 0 0))
                                                  (_mvalue data))))) as ->.
    { rewrite negb_orb, negb_involutive, andb_comm.
      destruct (_mvalue data) as [n|s|]; cbn; rewrite ?andb_false_l, ?andb_false_r; try done.
      f_equal. destruct (Z.eqb_spec (_value n) 0); case_bool_decide; congruence. }
    destruct (force || _); cbn [negb]; [|done].
    destruct (run_prepare _ _ _) as [[] w']; cbn [negb]; [done|].
    by rewrite delete_insert_id.
Qed.

Lemma update_impl_valueless records data force ts prepare w :
  _mvalue data = VValueless →
  update_impl records data force ts prepare w = (mkUpdateResult INVALID None, records, w).
Proof. intros Hv. unfold update_impl. by rewrite bool_decide_true. Qed.

Lemma update_impl_ok records data force ts prepare w :
  store_ok records → store_ok (update_impl records data force ts prepare w).1.2.
Proof.
  intros Hok. destruct (decide (_mvalue data = VValueless)) as [Hv|Hv].
  { by rewrite update_impl_valueless. }
  rewrite update_impl_table by done. cbv zeta. destruct (is_news _ _ _); [|done].
  destruct (run_prepare _ _ _) as [[] w']; [|done]. cbn.
  intros k r [[<- <-]|[_ Hr]]%lookup_insert_Some; [done|by apply Hok].
Qed.
End Updates.

(** ** Queries *)

Lemma query_loop_filter f entries result :
  query_loop f entries result
  = result ++ (filter (λ e : MonitorKey * StoredRecord, filter_matches f e.1 = true) entries).*2.
Proof.
  revert result. induction entries as [|[k r] entries IH]; intros result; cbn [query_loop].
  - by rewrite app_nil_r.
  - rewrite filter_cons. cbn [fst]. destruct (filter_matches f k) eqn:E; cbn [negb].
    + rewrite decide_True by done. by rewrite IH, fmap_cons, <- app_assoc.
    + by rewrite decide_False, IH by done.
Qed.

Lemma query_filter records f :
  query records f = (filter (λ e : MonitorKey * StoredRecord, filter_matches f e.1 = true)
                       (sorted_entries key_le records)).*2.
Proof. unfold query. by rewrite query_loop_filter. Qed.

Lemma elem_of_query records f r :
  store_ok records →
  r ∈ query records f ↔
  records !! _key (_data r) = Some r ∧ filter_matches f (_key (_data r)) = true.
Proof.
  intros Hok. rewrite query_filter, list_elem_of_fmap. split.
  - intros ([k r'] & -> & [Hm Hin]%list_elem_of_filter). cbn in *.
    apply elem_of_sorted_entries in Hin. destruct (Hok k r' Hin) as [<- _]. done.
  - intros [Hr Hm]. exists (_key (_data r), r). split; [done|].
    apply list_elem_of_filter. split; [done|]. by apply elem_of_sorted_entries.
Qed.

Lemma key_le_neq_ltb a b : key_le a b → a ≠ b → key_ltb a b = true.
Proof.
  unfold key_le. intros Hle Hne. destruct (key_ltb a b) eqn:E; [done|].
  destruct Hne. by apply key_ltb_eq.
Qed.

Lemma query_sorted records f :
  store_ok records →
  StronglySorted (λ a b, key_ltb (_key (_data a)) (_key (_data b)) = true) (query records f).
Proof.
  intros Hok. rewrite query_filter.
  assert (Forall (λ e : MonitorKey * StoredRecord, _key (_data e.2) = e.1)
    (filter (λ e : MonitorKey * StoredRecord, filter_matches f e.1 = true)
       (sorted_entries key_le records))) as Hkeys.
  { apply Forall_forall. intros [k r] [_ Hin]%list_elem_of_filter. cbn.
    apply elem_of_sorted_entries in Hin. by apply Hok. }
  pose proof (sorted_entries_strict key_le
    (λ e : MonitorKey * StoredRecord, filter_matches f e.1 = true) records) as Hs.
  induction Hs as [|e l _ IH He]; [constructor|]. apply Forall_cons in Hkeys as [Hk Hkeys].
  rewrite fmap_cons. constructor; [by apply IH|]. apply Forall_fmap.
  rewrite Forall_forall in *. intros e' He'. cbn. rewrite Hk, (Hkeys e') by done.
  destruct (He e' He') as [Hle Hne]. by apply key_le_neq_ltb.
Qed.

(** ** Histories

    A sequence of calls on one store. The outcome of each prepare callback is
    part of the call. *)

Inductive StoreCall :=
  | CUpdate (data : MonitorData) (force : bool) (ts : MonitorTimestamp) (prepared : bool)
  | CClear.

Definition call_prepare (prepared : bool) : PrepareUpdate (W := unit) :=
  Some (λ _ w, (if prepared then PrepareTrue else PrepareFalse, w)).

Definition run_call (records : MonitorStore) (c : StoreCall) : MonitorStore :=
  match c with
  | CUpdate data force ts prepared =>
      (update_prepared records data force ts (call_prepare prepared) tt).1.2
  | CClear => clear records
  end.

Definition run_calls (calls : list StoreCall) : MonitorStore := fold_left run_call calls ∅.

Lemma run_calls_ok calls : store_ok (run_calls calls).
Proof.
  unfold run_calls. assert (store_ok ∅) as H0 by (intros k r; by rewrite lookup_empty).
  revert H0. generalize (∅ : MonitorStore). induction calls as [|c calls IH]; [done|].
  intros s Hs. cbn. apply IH. destruct c; [by apply update_impl_ok|].
  intros k r. cbn [run_call]. unfold clear. by rewrite lookup_empty.
Qed.

(** The call leaves the record of [k] as it is. *)
Definition keeps (k : MonitorKey) (r : StoredRecord) (c : StoreCall) : Prop :=
  match c with
  | CUpdate data _ _ prepared =>
      _key data ≠ k ∨ _mvalue data = VValueless ∨ prepared = false
      ∨ same_value (_mvalue data) (_mvalue (_data r))
  | CClear => False
  end.

(** Two records of the same value: the numeric value is all that counts. *)
Lemma run_call_lookup s c k r :
  run_call s c !! k = Some r →
  (s !! k = Some r ∧ keeps k r c)
  ∨ ∃ force, c = CUpdate (_data r) force (_changed_at r) true ∧ _key (_data r) = k
      ∧ is_news s (_data r) force = true.
Proof.
  destruct c as [data force ts prepared|]; cbn [run_call]; [|unfold clear; by rewrite lookup_empty].
  unfold update_prepared. destruct (decide (_mvalue data = VValueless)) as [Hv|Hv].
  { rewrite update_impl_valueless by done. cbn. auto. }
  rewrite update_impl_table by done. cbv zeta.
  destruct (is_news s data force) eqn:En; cbn [fst snd].
  - cbn [run_prepare call_prepare]. destruct prepared; cbn [fst snd].
    + intros [[<- <-]|[Hne Hr]]%lookup_insert_Some; [right|left; split; [done|by left]].
      exists force. auto.
    + intros Hr. left. split; [done|]. cbn. auto.
  - intros Hr. left. split; [done|]. cbn. destruct (decide (_key data = k)) as [<-|]; [|by left].
    unfold is_news in En. rewrite Hr in En. right; right; right.
    by case_bool_decide.
Qed.

(** C3. Provenance: after any sequence of updates and clears, a stored record is
    exactly the data and timestamp of one earlier update whose value was news
    and whose prepare callback succeeded, and every later call on its key was
    invalid, failed to prepare, or carried the same value. So the timestamp of a
    record is the time of its last value change, and no failed update is ever
    visible. *)
Theorem store_provenance calls k r :
  run_calls calls !! k = Some r →
  ∃ pre force post, calls = pre ++ CUpdate (_data r) force (_changed_at r) true :: post
    ∧ _key (_data r) = k ∧ is_news (run_calls pre) (_data r) force = true
    ∧ Forall (keeps k r) post.
Proof.
  unfold run_calls. induction calls as [|c calls IH] using rev_ind; [cbn [fold_left]; by rewrite lookup_empty|].
  rewrite fold_left_app. cbn. intros [[Hr Hk]|(force & -> & Hk & Hn)]%run_call_lookup.
  - destruct (IH Hr) as (pre & force & post & -> & Hkey & Hn & Hp).
    exists pre, force, (post ++ [c]). rewrite <- app_assoc. do 3 (split; [done|]).
    apply Forall_app; split; [done|by apply Forall_singleton].
  - by exists calls, force, [].
Qed.

Definition store_key : MonitorKey := mkKey 1 2 3 4.
Definition store_data (v : Z) : MonitorData := mkData store_key [] (VNumeric (mkNumeric v 2)).

Lemma store_provenance_witness :
  run_calls [CUpdate (store_data 5) true 10 true; CUpdate (store_data 5) true 20 true;
             CUpdate (store_data 6) true 30 false] !! store_key
  = Some (mkStored (store_data 5) 10) ∧
  ∃ pre force post,
    [CUpdate (store_data 5) true 10 true; CUpdate (store_data 5) true 20 true;
     CUpdate (store_data 6) true 30 false]
    = pre ++ CUpdate (store_data 5) force 10 true :: post
    ∧ _key (store_data 5) = store_key ∧ is_news (run_calls pre) (store_data 5) force = true
    ∧ Forall (keeps store_key (mkStored (store_data 5) 10)) post.
Proof.
  split; [reflexivity|].
  apply (store_provenance _ store_key (mkStored (store_data 5) 10)). reflexivity.
Defined.

(** C27. Atomic commit: an update either reports a change, and then its callback
    accepted exactly the record that is now stored and returned, with every
    other key untouched; or it reports no change and the store is identical,
    also after a temporary node had been inserted. The callback runs exactly
    when the value is news, at most once. *)
Theorem store_update_atomic {W} records data force ts (prepare : option PrepareUpdate) (w : W) :
  let '(res, records', w') := update_impl records data force ts prepare w in
  let candidate := mkStored data ts in
  (changed res = true →
     _record res = Some candidate ∧ find records' (_key data) = Some candidate
     ∧ (∀ k, k ≠ _key data → find records' k = find records k)
     ∧ run_prepare prepare candidate w = (true, w'))
  ∧ (changed res = false → records' = records
     ∧ if bool_decide (_ustatus res = DURABILITY_FAILED)
       then run_prepare prepare candidate w = (false, w') ∧ is_news records data force = true
       else w' = w).
Proof.
  destruct (decide (_mvalue data = VValueless)) as [Hv|Hv].
  { by rewrite update_impl_valueless. }
  rewrite update_impl_table by done. cbv zeta.
  destruct (is_news records data force) eqn:En.
  - destruct (run_prepare prepare _ w) as [[] w'] eqn:Er; cbn; [|done].
    destruct (records !! _key data); cbn; unfold find; rewrite lookup_insert_eq;
      (split; [|done]); intros _; (split; [done|]); (split; [done|]);
      (split; [|done]); intros k Hk; by rewrite lookup_insert_ne.
  - by destruct (records !! _key data).
Qed.

(** Queries are exact: on a store reached by updates, [query] returns
    precisely the stored records whose key passes the filter, each once, in
    strictly ascending order of mid, level, fid, eid. *)
Theorem store_query_exact calls f :
  let records := run_calls calls in
  (∀ r, r ∈ query records f ↔
        find records (_key (_data r)) = Some r ∧ filter_matches f (_key (_data r)) = true)
  ∧ StronglySorted (λ a b, key_ltb (_key (_data a)) (_key (_data b)) = true) (query records f).
Proof.
  cbv zeta. pose proof (run_calls_ok calls) as Hok.
  split; [intros r; by apply elem_of_query|by apply query_sorted].
Qed.
