(* ===== verification/ModuleRegistry.v ===== *)
(** Module metadata ([src/monitor/monitor_module_registry.cpp],
    [inc/monitor/monitor_module_registry.h], [inc/monitor/monitor_module.h],
    [inc/monitor/monitor_error.h], [src/monitor/monitor_error.cpp]).

    The registry keeps two maps, by id and from name to id, that change only
    inside [register_module] under one mutex. The allocation of the node of the
    second map may throw; its outcome is the argument [alloc_ok]. *)

From S2P Require Import Prelude.
#[local] Open Scope tlss_scope.

Inductive MonitorLevel := INFO | WARN | SOFT_STOP | EMERGENCY_STOP | OtherLevel (raw : Z).

Definition level_code (l : MonitorLevel) : Z :=
  match l with
  | INFO => 0 | WARN => 1 | SOFT_STOP => 2 | EMERGENCY_STOP => 3 | OtherLevel raw => raw
  end.

Definition is_valid_monitor_level (level : Z) : bool :=
  (level =? 0) || (level =? 1) || (level =? 2) || (level =? 3).

(** "info", "warn", "sstop", "estop" and "?". *)
Definition monitor_level_name (level : Z) : bytes :=
  if level =? level_code INFO then [105; 110; 102; 111]
  else if level =? level_code WARN then [119; 97; 114; 110]
  else if level =? level_code SOFT_STOP then [115; 115; 116; 111; 112]
  else if level =? level_code EMERGENCY_STOP then [101; 115; 116; 111; 112]
  else [63].

Record MonitorErrorInfo := mkError { _elevel : MonitorLevel; _edescription : bytes }.

Inductive ModuleRegisterStatus :=
  | REG_SUCCESS | INVALID_NAME | DUPLICATE_ID | DUPLICATE_NAME | INVALID_ERROR_LEVEL
  | INVALID_PHASE.

Record MonitorModuleInfo := mkModule {
  _module_mid : Z;
  _module_name : bytes;
  _module_description : bytes;
  _module_errors : list MonitorErrorInfo
}.

Definition MONITOR_MODULE_NAME_MAX : Z := 63.

Definition is_valid_module_name_character (c : Z) : bool :=
  let lowercase := (97 <=? c) && (c <=? 122) in
  let uppercase := (65 <=? c) && (c <=? 90) in
  let digit := (48 <=? c) && (c <=? 57) in
  lowercase || uppercase || digit || (c =? 45) || (c =? 95) || (c =? 46).

(** The name "all" is reserved. *)
Definition is_valid_module_name (name : bytes) : bool :=
  if bool_decide (name = []) || (MONITOR_MODULE_NAME_MAX <? ♯name) then false else
  if bool_decide (name = [97; 108; 108]) then false else
  forallb is_valid_module_name_character name.

Record MonitorModuleRegistry := mkRegistry {
  _by_id : gmap Z MonitorModuleInfo;
  _id_by_name : gmap bytes Z
}.

Definition empty_registry : MonitorModuleRegistry := mkRegistry ∅ ∅.

(** [None] is the exception rethrown after the rollback. *)
Definition register_module (reg : MonitorModuleRegistry) (module : MonitorModuleInfo)
    (alloc_ok : bool) : option ModuleRegisterStatus * MonitorModuleRegistry :=
  if negb (is_valid_module_name (_module_name module)) then (Some INVALID_NAME, reg) else
  if existsb (λ e, negb (is_valid_monitor_level (level_code (_elevel e)))) (_module_errors module)
  then (Some INVALID_ERROR_LEVEL, reg) else
  let mid := _module_mid module in
  let name := _module_name module in
  if bool_decide (is_Some (_by_id reg !! mid)) then (Some DUPLICATE_ID, reg) else
  if bool_decide (is_Some (_id_by_name reg !! name)) then (Some DUPLICATE_NAME, reg) else
  let by_id := <[mid := module]> (_by_id reg) in
  if negb alloc_ok then (None, mkRegistry (delete mid by_id) (_id_by_name reg)) else
  if bool_decide (is_Some (_id_by_name reg !! name))
  then (Some DUPLICATE_NAME, mkRegistry (delete mid by_id) (_id_by_name reg))
  else (Some REG_SUCCESS, mkRegistry by_id (<[name := mid]> (_id_by_name reg))).

Definition find_by_id (reg : MonitorModuleRegistry) (mid : Z) : option MonitorModuleInfo :=
  _by_id reg !! mid.

Definition find_error (reg : MonitorModuleRegistry) (mid eid : Z) : option MonitorErrorInfo :=
  match _by_id reg !! mid with
  | None => None
  | Some module =>
      if ♯(_module_errors module) <=? eid then None
      else _module_errors module !! Z.to_nat eid
  end.

Definition find_by_name (reg : MonitorModuleRegistry) (name : bytes) : option MonitorModuleInfo :=
  match _id_by_name reg !! name with
  | None => None
  | Some mid => _by_id reg !! mid
  end.

Fixpoint modules_loop (by_id : gmap Z MonitorModuleInfo) (entries : list (bytes * Z))
    (snapshot : list MonitorModuleInfo) : list MonitorModuleInfo :=
  match entries with
  | [] => snapshot
  | (_, mid) :: rest =>
      match by_id !! mid with
      | Some module => modules_loop by_id rest (snapshot ++ [module])
      | None => modules_loop by_id rest snapshot
      end
  end.

Definition modules (reg : MonitorModuleRegistry) : list MonitorModuleInfo :=
  modules_loop (_by_id reg) (sorted_entries string_le (_id_by_name reg)) [].

(** ** Invariant: the two maps describe the same modules *)

Definition module_valid (m : MonitorModuleInfo) : Prop :=
  is_valid_module_name (_module_name m) = true
  ∧ Forall (λ e, is_valid_monitor_level (level_code (_elevel e)) = true) (_module_errors m).

Record registry_ok (reg : MonitorModuleRegistry) : Prop := {
  by_id_key : ∀ i m, _by_id reg !! i = Some m → _module_mid m = i ∧ module_valid m;
  name_index : ∀ n i, _id_by_name reg !! n = Some i ↔
    ∃ m, _by_id reg !! i = Some m ∧ _module_name m = n
}.

Lemma existsb_levels errors :
  existsb (λ e, negb (is_valid_monitor_level (level_code (_elevel e)))) errors = false ↔
  Forall (λ e, is_valid_monitor_level (level_code (_elevel e)) = true) errors.
Proof.
  induction errors as [|e errors IH]; cbn; [by split|].
  rewrite orb_false_iff, negb_false_iff, IH, Forall_cons. done.
Qed.

(** Registration in one table: it changes the registry only when it succeeds. *)
Lemma register_module_cases reg m alloc_ok :
  (register_module reg m alloc_ok
   = (Some REG_SUCCESS, mkRegistry (<[_module_mid m := m]> (_by_id reg))
                          (<[_module_name m := _module_mid m]> (_id_by_name reg)))
   ∧ module_valid m ∧ _by_id reg !! _module_mid m = None
   ∧ _id_by_name reg !! _module_name m = None ∧ alloc_ok = true)
  ∨ (register_module reg m alloc_ok).2 = reg
    ∧ (register_module reg m alloc_ok).1 ≠ Some REG_SUCCESS.
Proof.
  unfold register_module. cbv zeta.
  destruct (is_valid_module_name _) eqn:En; [|by right]. cbn [negb].
  destruct (existsb _ _) eqn:El; [by right|]. apply existsb_levels in El.
  case_bool_decide as Hi; [by right|]. case_bool_decide as Hn; [by right|].
  apply eq_None_not_Some in Hi, Hn.
  destruct alloc_ok; cbn [negb]; [left|right].
  - done.
  - split; [|done]. cbn. rewrite delete_insert_id by done. by destruct reg.
Qed.

Lemma register_module_ok reg m alloc_ok :
  registry_ok reg → registry_ok (register_module reg m alloc_ok).2.
Proof.
  intros [Hid Hname].
  destruct (register_module_cases reg m alloc_ok) as [(-> & Hv & Hi & Hn & _)|[-> _]]; [|done].
  split; cbn.
  - intros i m' [[<- <-]|[_ Hm]]%lookup_insert_Some; [done|by apply Hid].
  - intros n i. rewrite lookup_insert_Some. split.
    + intros [[<- <-]|[Hne Hl]]; [exists m; by rewrite lookup_insert_eq|].
      apply Hname in Hl as (m' & Hm' & <-). exists m'. split; [|done].
      rewrite lookup_insert_ne; [done|]. intros <-. by rewrite Hi in Hm'.
    + intros (m' & [[<- <-]|[Hne Hm']]%lookup_insert_Some & <-); [by left|right].
      assert (_id_by_name reg !! _module_name m' = Some i) as Hl by (apply Hname; eauto).
      split; [|done]. intros He. by rewrite He, Hl in Hn.
Qed.

Definition register_all (calls : list (MonitorModuleInfo * bool)) : MonitorModuleRegistry :=
  fold_left (λ reg c, (register_module reg c.1 c.2).2) calls empty_registry.

Lemma register_all_ok calls : registry_ok (register_all calls).
Proof.
  unfold register_all. assert (registry_ok empty_registry) as H0.
  { split; cbn; [intros i m; by rewrite lookup_empty|].
    intros n i. rewrite lookup_empty. split; [done|]. intros (m & Hm & _).
    by rewrite lookup_empty in Hm. }
  revert H0. generalize empty_registry. induction calls as [|c calls IH]; [done|].
  intros reg Hreg. cbn. by apply IH, register_module_ok.
Qed.

(** ** The snapshot *)

Lemma modules_loop_omap by_id entries snapshot :
  modules_loop by_id entries snapshot
  = snapshot ++ omap (λ e : bytes * Z, by_id !! e.2) entries.
Proof.
  revert snapshot. induction entries as [|[n i] entries IH]; intros snapshot; cbn.
  - by rewrite app_nil_r.
  - destruct (by_id !! i); rewrite IH; [by rewrite <- app_assoc|done].
Qed.

Lemma elem_of_modules reg m :
  registry_ok reg → m ∈ modules reg ↔ find_by_id reg (_module_mid m) = Some m.
Proof.
  intros [Hid Hname]. unfold modules, find_by_id. rewrite modules_loop_omap. cbn [app].
  rewrite list_elem_of_omap. split.
  - intros ([n i] & _ & Hm). cbn in Hm. destruct (Hid i m Hm) as [<- _]. done.
  - intros Hm. exists (_module_name m, _module_mid m). split; [|done].
    apply elem_of_sorted_entries, Hname. eauto.
Qed.

Lemma modules_sorted reg :
  registry_ok reg →
  StronglySorted (λ a b, string_le (_module_name a) (_module_name b)
                         ∧ _module_name a ≠ _module_name b) (modules reg).
Proof.
  intros [Hid Hname]. unfold modules. rewrite modules_loop_omap. cbn [app].
  pose proof (sorted_entries_strict string_le (λ _, True) (_id_by_name reg)) as Hs.
  assert (∀ e, e ∈ filter (λ _ : bytes * Z, True) (sorted_entries string_le (_id_by_name reg)) →
    ∀ m, _by_id reg !! e.2 = Some m → _module_name m = e.1) as Hn.
  { intros [n i] [_ He]%list_elem_of_filter m Hm. apply elem_of_sorted_entries, Hname in He.
    destruct He as (m' & Hm' & <-). cbn in *. by simplify_eq. }
  revert Hs Hn. replace (filter (λ _ : bytes * Z, True) (sorted_entries string_le
    (_id_by_name reg))) with (sorted_entries string_le (_id_by_name reg)); cycle 1.
  { induction (sorted_entries _ _) as [|e l IH]; [done|]. rewrite filter_cons, decide_True by done.
    by rewrite <- IH. }
  intros Hs Hn. induction Hs as [|e l _ IH He]; [constructor|]. cbn.
  assert (∀ e, e ∈ l → ∀ m, _by_id reg !! e.2 = Some m → _module_name m = e.1) as Hl.
  { intros e' He'. apply Hn. by apply list_elem_of_further. }
  destruct (_by_id reg !! e.2) as [m|] eqn:Hm; [|by apply IH].
  constructor; [by apply IH|]. apply Forall_forall. intros m' (e' & He' & Hm')%list_elem_of_omap.
  rewrite (Hn e) by (done || by apply list_elem_of_here). rewrite (Hl e' He' m' Hm').
  rewrite Forall_forall in He. by apply He.
Qed.

(** Registry consistency: after any sequence of registrations, some refused
    and some aborted by an allocation failure, looking a module up by id, by
    name and in the snapshot agree, every registered module has a valid name
    and valid error levels, and the snapshot is in strictly ascending order of
    names. *)
Theorem registry_consistent calls :
  let reg := register_all calls in
  (∀ m, (find_by_id reg (_module_mid m) = Some m ↔ find_by_name reg (_module_name m) = Some m)
        ∧ (m ∈ modules reg ↔ find_by_id reg (_module_mid m) = Some m)
        ∧ (m ∈ modules reg → module_valid m))
  ∧ StronglySorted (λ a b, string_le (_module_name a) (_module_name b)
                           ∧ _module_name a ≠ _module_name b) (modules reg).
Proof.
  cbv zeta. pose proof (register_all_ok calls) as Hok.
  split; [|by apply modules_sorted]. intros m. pose proof (elem_of_modules _ m Hok) as Hm.
  destruct Hok as [Hid Hname]. unfold find_by_id, find_by_name in *. split; [split|split].
  - intros Hl. assert (_id_by_name (register_all calls) !! _module_name m
      = Some (_module_mid m)) as -> by (apply Hname; eauto). done.
  - destruct (_id_by_name _ !! _) as [i|] eqn:Hi; [|done]. intros Hl.
    by destruct (Hid i m Hl) as [<- _].
  - done.
  - intros Hin. apply Hm in Hin. by destruct (Hid _ _ Hin).
Qed.

(** Registration is all or nothing: it succeeds exactly for a valid module
    whose id and name are both free (and memory is available), after which the
    module and its error table are found; otherwise the registry is unchanged. *)
Theorem register_all_or_nothing reg m alloc_ok :
  let '(status, reg') := register_module reg m alloc_ok in
  (status = Some REG_SUCCESS ↔
     module_valid m ∧ find_by_id reg (_module_mid m) = None
     ∧ _id_by_name reg !! _module_name m = None ∧ alloc_ok = true)
  ∧ (status = Some REG_SUCCESS →
     find_by_id reg' (_module_mid m) = Some m ∧ find_by_name reg' (_module_name m) = Some m
     ∧ ∀ eid, 0 <= eid → find_error reg' (_module_mid m) eid = _module_errors m !! Z.to_nat eid)
  ∧ (status ≠ Some REG_SUCCESS → reg' = reg).
Proof.
  destruct (register_module_cases reg m alloc_ok) as [(-> & Hv & Hi & Hn & Ha)|[Hr Hs]].
  - split; [done|]. split; [|done]. intros _.
    unfold find_by_id, find_by_name, find_error; cbn. rewrite !lookup_insert_eq.
    do 2 (split; [done|]). intros eid He. case_match; ztests; [|done].
    symmetry. apply lookup_ge_None. unfold Zlen in *. lia.
  - destruct (register_module reg m alloc_ok) as [status reg'] eqn:E. cbn in Hr, Hs.
    split; [split; [done|]|done]. intros ((Hv & Hl) & Hi & Hn & ->). destruct Hs.
    unfold register_module, find_by_id in *. rewrite Hv in E. apply existsb_levels in Hl.
    cbv zeta in E. rewrite Hl, Hi, Hn in E. by simplify_eq/=.
Qed.
