(* ===== verification/MonitorReporter.v ===== *)
(** The reporting facade ([src/monitor/monitor_reporter.cpp],
    [inc/monitor/monitor_reporter.h], [inc/monitor/alarm_publisher_types.h]).

    The two publishers are code of the caller. The ordinary publisher runs after
    the store is unlocked and may call back into it, so it acts on the store and
    on a world [W]; what it throws is swallowed. The alarm publisher runs inside
    the store's critical section and acts on [W] only; [None] is an exception.
    Copying a [std::function] may throw: the outcome is the argument [copy_ok]. *)

From S2P Require Import Prelude MonitorData MonitorStore ModuleRegistry.

Inductive AlarmEnqueueStatus :=
  | ENQ_SUCCESS | NOT_READY | ENCODE_FAILED | RANDOM_FAILED | SPOOL_FULL | IO_ERROR.

#[export] Instance AlarmEnqueueStatus_eq_dec : EqDecision AlarmEnqueueStatus.
Proof. solve_decision. Defined.

Record AlarmEnqueueResult := mkEnqueue { _enqstatus : AlarmEnqueueStatus; _system_error : Z }.

Definition durable (r : AlarmEnqueueResult) : bool := bool_decide (_enqstatus r = ENQ_SUCCESS).

Section Reporter.
Context {W : Type}.

Definition Publisher : Type := StoredRecord → MonitorStore * W → MonitorStore * W.
Definition AlarmPublisher : Type := StoredRecord → W → option AlarmEnqueueResult * W.

Record MonitorReporter := mkReporter {
  _modules : option MonitorModuleRegistry;
  _publisher : option Publisher;
  _alarm_publisher : option AlarmPublisher
}.

Definition set_publisher (r : MonitorReporter) (p : option Publisher) : MonitorReporter :=
  mkReporter (_modules r) p (_alarm_publisher r).
Definition set_alarm_publisher (r : MonitorReporter) (p : option AlarmPublisher)
    : MonitorReporter :=
  mkReporter (_modules r) (_publisher r) p.

(** The result [None] is the exception of copying the publisher, which escapes
    after the store has been updated. *)
Definition reporter_update (r : MonitorReporter) (copy_ok : bool) (store : MonitorStore) (w : W)
    (data : MonitorData) (force : bool) (timestamp : MonitorTimestamp)
    : option UpdateResult * MonitorStore * W :=
  let '(result, store, w) := update store data force timestamp w in
  let should_publish :=
    bool_decide (_ustatus result = INSERTED) || bool_decide (_ustatus result = UPDATED) in
  match should_publish, _record result with
  | true, Some record =>
      if negb copy_ok then (None, store, w) else
      match _publisher r with
      | None => (Some result, store, w)
      | Some publisher => let '(store, w) := publisher record (store, w) in (Some result, store, w)
      end
  | _, _ => (Some result, store, w)
  end.

Definition enrich (r : MonitorReporter) (key : MonitorKey) (description : bytes)
    : MonitorKey * bytes :=
  match _modules r with
  | None => (key, description)
  | Some modules =>
      match find_error modules (_mid key) (_eid key) with
      | None => (key, description)
      | Some error =>
          let key := mkKey (_mid key) (level_code (_elevel error)) (_fid key) (_eid key) in
          (key, if bool_decide (_edescription error = []) then description
                else _edescription error)
      end
  end.

Definition report_count (r : MonitorReporter) (copy_ok : bool) (store : MonitorStore) (w : W)
    (key : MonitorKey) (value : Z) (description : bytes) (timestamp : MonitorTimestamp)
    : option UpdateResult * MonitorStore * W :=
  let '(key, description) := enrich r key description in
  let data := mkData key description (VNumeric (mkNumeric value 0)) in
  reporter_update r copy_ok store w data false timestamp.

Definition report_string (r : MonitorReporter) (copy_ok : bool) (store : MonitorStore) (w : W)
    (key : MonitorKey) (value description : bytes) (timestamp : MonitorTimestamp)
    : option UpdateResult * MonitorStore * W :=
  let '(key, description) := enrich r key description in
  let data := mkData key description (VString value) in
  reporter_update r copy_ok store w data false timestamp.

(** The prepare callback built around the alarm publisher. *)
Definition alarm_prepare (alarm_publisher : AlarmPublisher) : PrepareUpdate (W := W) :=
  Some (λ candidate w,
    match alarm_publisher candidate w with
    | (Some result, w) => (if durable result then PrepareTrue else PrepareFalse, w)
    | (None, w) => (PrepareThrow, w)
    end).

(** [prepare_ok] is the outcome of storing the lambda in a [std::function]. *)
Definition report_error (r : MonitorReporter) (copy_ok prepare_ok : bool) (store : MonitorStore)
    (w : W) (key : MonitorKey) (value : Z) (description : bytes) (timestamp : MonitorTimestamp)
    : option UpdateResult * MonitorStore * W :=
  let '(key, description) := enrich r key description in
  let data := mkData key description (VNumeric (mkNumeric value 2)) in
  if negb copy_ok then (Some (mkUpdateResult DURABILITY_FAILED None), store, w) else
  match _alarm_publisher r with
  | None => reporter_update r true store w data true timestamp
  | Some alarm_publisher =>
      if negb prepare_ok then (Some (mkUpdateResult DURABILITY_FAILED None), store, w) else
      let '(result, store, w) :=
        update_prepared store data true timestamp (alarm_prepare alarm_publisher) w in
      (Some result, store, w)
  end.

(** ** Lemmas *)

(** The data a report of [value] writes after enrichment. *)
Definition report_data (r : MonitorReporter) (key : MonitorKey) (description : bytes)
    (value : MonitorValue) : MonitorData :=
  let '(key, description) := enrich r key description in mkData key description value.

Lemma alarm_prepare_spec p candidate w :
  run_prepare (Some (alarm_prepare p)) candidate w =
  (match (p candidate w).1 with Some result => durable result | None => false end,
   (p candidate w).2).
Proof.
  unfold run_prepare, alarm_prepare. destruct (p candidate w) as [[result|] w']; cbn; [|done].
  by destruct (durable result).
Qed.

Lemma report_error_alarm r p store w key value description ts :
  _alarm_publisher r = Some p →
  report_error r true true store w key value description ts =
  let data := report_data r key description (VNumeric (mkNumeric value 2)) in
  let candidate := mkStored data ts in
  if is_news store data true then
    let '(enq, w') := p candidate w in
    if match enq with Some result => durable result | None => false end
    then (Some (mkUpdateResult (if store !! _key data then UPDATED else INSERTED)
            (Some candidate)), <[_key data := candidate]> store, w')
    else (Some (mkUpdateResult DURABILITY_FAILED None), store, w')
  else
    (Some match store !! _key data with
          | Some existing => mkUpdateResult UNCHANGED (Some existing)
          | None => mkUpdateResult IGNORED_INITIAL_ZERO None
          end, store, w).
Proof.
  intros Hp. unfold report_error, report_data.
  destruct (enrich r key description) as [key' desc']. rewrite Hp. cbn [negb].
  unfold update_prepared. rewrite update_impl_table by done. cbv zeta.
  rewrite alarm_prepare_spec. destruct (is_news _ _ _); [|done].
  destruct (p _ w) as [enq w']. cbn [fst snd].
  by destruct (match enq with Some result => durable result | None => false end).
Qed.
End Reporter.

#[global] Arguments MonitorReporter : clear implicits.

(** Reliable alarms: with an alarm publisher installed, an error report
    becomes visible in the store only after that publisher accepted exactly the
    stored record as durable; a publisher that fails or throws leaves the store
    as it was, so that the same report made again, to a publisher that works,
    is still news and is committed; and the ordinary (UDP) publisher plays no
    part. *)
Theorem report_error_durable {W} (r : MonitorReporter W) p store w key value description ts :
  _alarm_publisher r = Some p →
  let data := report_data r key description (VNumeric (mkNumeric value 2)) in
  let candidate := mkStored data ts in
  let '(result, store', w') := report_error r true true store w key value description ts in
  (∀ q, report_error (set_publisher r q) true true store w key value description ts
        = (result, store', w'))
  ∧ (store' ≠ store → ∃ e, p candidate w = (Some e, w') ∧ durable e = true
       ∧ store' = <[_key data := candidate]> store
       ∧ ∃ res, result = Some res ∧ changed res = true ∧ _record res = Some candidate)
  ∧ (result = Some (mkUpdateResult DURABILITY_FAILED None) →
       store' = store ∧
       ∀ p' w2 e w3, p' candidate w2 = (Some e, w3) → durable e = true →
         let '(result2, store2, _) := report_error (set_alarm_publisher r (Some p')) true true
                                        store' w2 key value description ts in
         store2 = <[_key data := candidate]> store
         ∧ ∃ res, result2 = Some res ∧ changed res = true).
Proof.
  intros Hp. cbv zeta. rewrite (report_error_alarm r p) by done. cbv zeta.
  set (data := report_data r key description (VNumeric (mkNumeric value 2))).
  assert (∀ q, report_error (set_publisher r q) true true store w key value description ts
    = report_error r true true store w key value description ts) as Hq.
  { intros q. unfold report_error, enrich. cbn. by rewrite Hp. }
  assert (is_news store data true = true →
    ∀ p' w2 e w3, p' (mkStored data ts) w2 = (Some e, w3) → durable e = true →
    report_error (set_alarm_publisher r (Some p')) true true store w2 key value description ts
    = (Some (mkUpdateResult (if store !! _key data then UPDATED else INSERTED)
         (Some (mkStored data ts))), <[_key data := mkStored data ts]> store, w3)) as Hretry.
  { intros Hn p' w2 e w3 Hp' He. rewrite (report_error_alarm _ p') by done.
    change (report_data (set_alarm_publisher r (Some p')) key description
      (VNumeric (mkNumeric value 2))) with data. cbv zeta. by rewrite Hn, Hp', He. }
  rewrite (report_error_alarm r p) in Hq by done. fold data in Hq. cbv zeta in Hq.
  destruct (is_news store data true) eqn:En.
  - destruct (p (mkStored data ts) w) as [enq w'] eqn:Ep.
    destruct (match enq with Some e => durable e | None => false end) eqn:Ed.
    + split; [done|]. split; [|by destruct (store !! _key data)].
      intros _. destruct enq as [e|]; [|done]. exists e. do 3 (split; [done|]).
      eexists. split; [done|]. by destruct (store !! _key data).
    + split; [done|]. split; [done|]. intros _. split; [done|].
      intros p' w2 e w3 Hp' He. rewrite (Hretry eq_refl p' w2 e w3 Hp' He).
      split; [done|]. eexists. split; [done|]. by destruct (store !! _key data).
  - split; [done|]. split; [done|]. by destruct (store !! _key data).
Qed.

Definition sample_publisher (fail : bool) : AlarmPublisher (W := list StoredRecord) :=
  λ record outbox,
    if fail then (Some (mkEnqueue SPOOL_FULL 0), outbox)
    else (Some (mkEnqueue ENQ_SUCCESS 0), outbox ++ [record]).

Definition sample_reporter (fail : bool) : MonitorReporter (list StoredRecord) :=
  mkReporter None None (Some (sample_publisher fail)).

Lemma report_error_durable_witness :
  let data := report_data (sample_reporter true) store_key [] (VNumeric (mkNumeric 9 2)) in
  let candidate := mkStored data 77 in
  let '(result, store', w') :=
    report_error (sample_reporter true) true true ∅ [] store_key 9 [] 77 in
  (∀ q, report_error (set_publisher (sample_reporter true) q) true true ∅ [] store_key 9 [] 77
        = (result, store', w'))
  ∧ (store' ≠ ∅ → ∃ e, sample_publisher true candidate [] = (Some e, w') ∧ durable e = true
       ∧ store' = <[_key data := candidate]> ∅
       ∧ ∃ res, result = Some res ∧ changed res = true ∧ _record res = Some candidate)
  ∧ (result = Some (mkUpdateResult DURABILITY_FAILED None) →
       store' = ∅ ∧
       ∀ p' w2 e w3, p' candidate w2 = (Some e, w3) → durable e = true →
         let '(result2, store2, _) := report_error (set_alarm_publisher (sample_reporter true)
                                        (Some p')) true true store' w2 store_key 9 [] 77 in
         store2 = <[_key data := candidate]> ∅
         ∧ ∃ res, result2 = Some res ∧ changed res = true).
Proof.
  apply (report_error_durable (sample_reporter true) (sample_publisher true) ∅ [] store_key 9 [] 77).
  reflexivity.
Defined.

(** Publication of counters: a counter report publishes the committed record,
    once and after the commit, exactly when it changed the store; and a report
    for a registered event is filed under the registered severity level, with
    the registered description when there is one. *)
Theorem report_count_publishes {W} (r : MonitorReporter W) p store w key value description ts :
  _publisher r = Some p →
  let data := report_data r key description (VNumeric (mkNumeric value 0)) in
  let candidate := mkStored data ts in
  report_count r true store w key value description ts
  = (if is_news store data false
     then let '(store', w') := p candidate (<[_key data := candidate]> store, w) in
          (Some (mkUpdateResult (if store !! _key data then UPDATED else INSERTED)
             (Some candidate)), store', w')
     else (Some match store !! _key data with
                | Some existing => mkUpdateResult UNCHANGED (Some existing)
                | None => mkUpdateResult IGNORED_INITIAL_ZERO None
                end, store, w))
  ∧ (∀ reg e, _modules r = Some reg → find_error reg (_mid key) (_eid key) = Some e →
       _level (_key data) = level_code (_elevel e)
       ∧ (_edescription e ≠ [] → _description data = _edescription e)).
Proof.
  intros Hp. cbv zeta. split.
  - unfold report_count, report_data. destruct (enrich r key description) as [key' desc'].
    unfold reporter_update, update. rewrite update_impl_table by done. cbv zeta.
    destruct (is_news store _ false); cbn [run_prepare]; rewrite ?Hp; cbn [_key];
      by destruct (store !! key').
  - intros reg e Hr He. unfold report_data, enrich. rewrite Hr, He.
    split; [done|]. intros Hd. cbn. by rewrite bool_decide_false.
Qed.

Definition counting_publisher : Publisher (W := nat) := λ _ sw, (sw.1, S sw.2).

Lemma report_count_publishes_witness :
  report_count (mkReporter None (Some counting_publisher) None) true ∅ 0%nat store_key 3 [] 8
  = (Some (mkUpdateResult INSERTED (Some (mkStored (mkData store_key []
       (VNumeric (mkNumeric 3 0))) 8))),
     <[store_key := mkStored (mkData store_key [] (VNumeric (mkNumeric 3 0))) 8]> ∅, 1%nat).
Proof.
  destruct (report_count_publishes (mkReporter None (Some counting_publisher) None)
    counting_publisher ∅ 0%nat store_key 3 [] 8 eq_refl) as [H _].
  etransitivity; [exact H|]. reflexivity.
Defined.
