(* ===== verification/WriteScheduler.v ===== *)
(** The per-connection write queue ([src/common/net/write_scheduler.cpp],
    [inc/common/net/write_scheduler.h], [inc/common/net/write_types.h]).

    The scheduler is confined to one event loop, so each entry point is one
    transition. Its effects are recorded in a trace: bytes handed to the kernel,
    hook calls, reader calls and completion callbacks queued on the loop. The
    kernel and the readers are parameters: [sys i count] is the result and the
    [errno] of the [i]-th [send] or [sendfile] of an [on_writable] call, [contents]
    gives the bytes of a duplicated file descriptor, [source] the bytes an
    asynchronous reader stands for. [sendfile_no_sigpipe] only masks a signal
    around [sendfile] and is represented by it. *)

From S2P Require Import Prelude.
#[local] Open Scope tlss_scope.

Definition kMaxPendingBytes : Z := 1024 * 1024.
Definition kMaxPendingTasks : Z := 1024.
Definition kMaxPendingFiles : Z := 64.
Definition kWriteBudget : Z := 1024 * 1024.
Definition kWriteSteps : nat := 64.
Definition kAsyncFileChunk : Z := 64 * 1024.

(** [errno] values of Linux; [EWOULDBLOCK] equals [EAGAIN]. *)
Definition EINTR : Z := 4.
Definition EIO : Z := 5.
Definition EAGAIN : Z := 11.
Definition EINVAL : Z := 22.
Definition EOVERFLOW : Z := 75.
Definition ENOBUFS : Z := 105.
Definition ENOTCONN : Z := 107.
Definition ECANCELED : Z := 125.

(** A callback is identified by a number; [None] is an empty [std::function]. *)
Record FileProgress := mkProgress {
  fp_offset : Z;
  fp_remaining : Z;
  fp_sent : Z;
  fp_callback : option Z
}.

Record AsyncReader := mkAsync {
  as_reader : option Z;
  as_data : bytes;
  as_data_offset : Z;
  as_read_pending : bool;
  as_read_sequence : Z;
  as_read_size : Z;
  as_reservation : Z
}.

Inductive WriteTask :=
  | MemoryWrite (data : bytes) (offset : Z)
  | SendFileWrite (p : FileProgress) (fd : Z)
  | AsyncReaderWrite (p : FileProgress) (a : AsyncReader).

Record PreparedFile := mkPrepared { pf_task : WriteTask; pf_error : Z }.

Inductive Event :=
  | ESent (b : bytes)
  | EWriteInterest (enabled : bool)
  | EHighWater (n : Z)
  | EDrained
  | EFailed (error : Z)
  | ERead (reader sequence offset count : Z)
  | EFileDone (callback error sent : Z).

Record WriteScheduler := mkScheduler {
  _write_enabled : bool;
  _stopped : bool;
  _writes : list WriteTask;
  _pending_memory_bytes : Z;
  _pending_files : Z;
  _high_water_mark : Z;
  _next_read_sequence : Z;
  trace : list Event
}.

Definition new_scheduler : WriteScheduler :=
  mkScheduler false false [] 0 0 (512 * 1024) 0 [].

Definition emit (s : WriteScheduler) (e : Event) : WriteScheduler :=
  mkScheduler (_write_enabled s) (_stopped s) (_writes s) (_pending_memory_bytes s)
    (_pending_files s) (_high_water_mark s) (_next_read_sequence s) (trace s ++ [e]).

Definition set_writes (s : WriteScheduler) (w : list WriteTask) : WriteScheduler :=
  mkScheduler (_write_enabled s) (_stopped s) w (_pending_memory_bytes s)
    (_pending_files s) (_high_water_mark s) (_next_read_sequence s) (trace s).

Definition set_pending (s : WriteScheduler) (bytes files : Z) : WriteScheduler :=
  mkScheduler (_write_enabled s) (_stopped s) (_writes s) bytes files (_high_water_mark s)
    (_next_read_sequence s) (trace s).

Definition file_progress (t : WriteTask) : option FileProgress :=
  match t with
  | MemoryWrite _ _ => None
  | SendFileWrite p _ => Some p
  | AsyncReaderWrite p _ => Some p
  end.

(** [fcntl] and [fstat] after their [EINTR] retries: the duplicate or -1 with its
    [errno], and whether the file is regular and its size or the [errno]. *)
Definition prepare_file (dup : Z * Z) (stat : (bool * Z) + Z) (offset count : Z)
    (callback : option Z) : PreparedFile :=
  let task fd := SendFileWrite (mkProgress offset count 0 callback) fd in
  if offset <? 0 then mkPrepared (task (-1)) EINVAL else
  let '(duplicate, dup_errno) := dup in
  if duplicate =? -1 then mkPrepared (task (-1)) dup_errno else
  match stat with
  | inr stat_errno => mkPrepared (task duplicate) stat_errno
  | inl (regular, st_size) =>
      if negb regular || (st_size <? 0) || (st_size <? offset) || (u64 (st_size - offset) <? count)
      then mkPrepared (task duplicate) EINVAL else mkPrepared (task duplicate) 0
  end.

Definition prepare_async (offset count : Z) (reader callback : option Z) : PreparedFile :=
  let task := AsyncReaderWrite (mkProgress offset count 0 callback)
                (mkAsync reader [] 0 false 0 0 0) in
  if (offset <? 0) || bool_decide (reader = None) then mkPrepared task EINVAL
  else if u64 (INT64_MAX - offset) <? count then mkPrepared task EOVERFLOW
  else mkPrepared task 0.

(** [None] is [std::abort()]. *)
Definition set_high_water_mark (s : WriteScheduler) (in_loop : bool) (n : Z)
    : option WriteScheduler :=
  if negb in_loop || (n =? 0) || (kMaxPendingBytes <? n) then None else
  Some (mkScheduler (_write_enabled s) (_stopped s) (_writes s) (_pending_memory_bytes s)
    (_pending_files s) n (_next_read_sequence s) (trace s)).

Definition set_write_interest (s : WriteScheduler) (enabled : bool) : WriteScheduler :=
  if Bool.eqb (_write_enabled s) enabled then s else
  emit (mkScheduler enabled (_stopped s) (_writes s) (_pending_memory_bytes s)
    (_pending_files s) (_high_water_mark s) (_next_read_sequence s) (trace s))
    (EWriteInterest enabled).

Definition enable_write_event (s : WriteScheduler) : WriteScheduler :=
  if _stopped s then s else
  match _writes s with
  | [] => s
  | AsyncReaderWrite _ a :: _ => if as_read_pending a then s else set_write_interest s true
  | _ => set_write_interest s true
  end.

Definition check_high_water (s : WriteScheduler) (previous : Z) : WriteScheduler :=
  if (previous <? _high_water_mark s) && (_high_water_mark s <=? _pending_memory_bytes s)
  then emit s (EHighWater (_pending_memory_bytes s)) else s.

Definition notify_file (s : WriteScheduler) (t : WriteTask) (error : Z) : WriteScheduler :=
  match file_progress t with
  | None => s
  | Some p =>
      match fp_callback p with
      | Some callback => emit s (EFileDone callback error (fp_sent p))
      | None => s
      end
  end.

Definition cancel_all (s : WriteScheduler) (error : Z) : WriteScheduler :=
  let s := mkScheduler (_write_enabled s) true (_writes s) (_pending_memory_bytes s)
             (_pending_files s) (_high_water_mark s) (_next_read_sequence s) (trace s) in
  let s := set_write_interest s false in
  let writes := _writes s in
  let s := set_pending (set_writes s []) 0 0 in
  fold_left (λ s t, match file_progress t with
                    | Some _ => notify_file s t error
                    | None => s
                    end) writes s.

Definition fail (s : WriteScheduler) (error : Z) : WriteScheduler :=
  if _stopped s then s else emit (cancel_all s error) (EFailed error).

Definition enqueue_memory (s : WriteScheduler) (data : bytes) : WriteScheduler :=
  if _stopped s || bool_decide (data = []) then s else
  if (kMaxPendingTasks <=? ♯(_writes s))
     || (u64 (kMaxPendingBytes - _pending_memory_bytes s) <? ♯data)
  then fail s ENOBUFS else
  let previous := _pending_memory_bytes s in
  let s := set_writes s (_writes s ++ [MemoryWrite data 0]) in
  let s := set_pending s (u64 (previous + ♯data)) (_pending_files s) in
  check_high_water (enable_write_event s) previous.

(** [async->reservation = min(remaining, kAsyncFileChunk)] on admission. *)
Definition reserve (t : WriteTask) : Z * WriteTask :=
  match t with
  | AsyncReaderWrite p a =>
      let reservation := Z.min (fp_remaining p) kAsyncFileChunk in
      (reservation, AsyncReaderWrite p (mkAsync (as_reader a) (as_data a) (as_data_offset a)
         (as_read_pending a) (as_read_sequence a) (as_read_size a) reservation))
  | t => (0, t)
  end.

Definition enqueue_file (s : WriteScheduler) (prepared : PreparedFile) (accepting : bool)
    : WriteScheduler :=
  if _stopped s || negb accepting then notify_file s (pf_task prepared) ENOTCONN else
  let '(reservation, task) := reserve (pf_task prepared) in
  let error :=
    if (pf_error prepared =? 0)
       && ((kMaxPendingTasks <=? ♯(_writes s)) || (kMaxPendingFiles <=? _pending_files s)
           || (u64 (kMaxPendingBytes - _pending_memory_bytes s) <? reservation))
    then ENOBUFS else pf_error prepared in
  if negb (error =? 0) then fail (notify_file s task error) error else
  let previous := _pending_memory_bytes s in
  let s := set_writes s (_writes s ++ [task]) in
  let s := set_pending s (u64 (previous + reservation)) (u64 (_pending_files s + 1)) in
  check_high_water (enable_write_event s) previous.

(** What an external reader does before it returns: nothing the queue sees, a
    cancellation of the queue, or an exception with an error code (0 when it has
    none). *)
Inductive ReaderOutcome := ReaderReturns | ReaderCancels (error : Z) | ReaderThrows (code : Z).

Definition request_file_read (s : WriteScheduler) (reader_acts : ReaderOutcome)
    : WriteScheduler :=
  if _next_read_sequence s =? UINT64_MAX then fail s EOVERFLOW else
  match _writes s with
  | AsyncReaderWrite p a :: rest =>
      let sequence := _next_read_sequence s + 1 in
      let offset := fp_offset p in
      let count := Z.min (fp_remaining p) kAsyncFileChunk in
      let a' := mkAsync (as_reader a) (as_data a) (as_data_offset a) true sequence count
                  (as_reservation a) in
      let s := mkScheduler (_write_enabled s) (_stopped s) (AsyncReaderWrite p a' :: rest)
                 (_pending_memory_bytes s) (_pending_files s) (_high_water_mark s) sequence
                 (trace s) in
      let s := set_write_interest s false in
      match as_reader a with
      | None => fail s EIO (* calling an empty [std::function] throws *)
      | Some reader =>
          let s := emit s (ERead reader sequence offset count) in
          match reader_acts with
          | ReaderReturns => s
          | ReaderCancels error => cancel_all s error
          | ReaderThrows code => fail s (if negb (code =? 0) then code else EIO)
          end
      end
  | _ => s
  end.

(** [error] is the value of the [std::error_code]; [None] is no error. *)
Definition on_file_read (s : WriteScheduler) (sequence : Z) (error : option Z) (data : bytes)
    : WriteScheduler :=
  if _stopped s then s else
  match _writes s with
  | AsyncReaderWrite p a :: rest =>
      if negb (as_read_pending a) || negb (as_read_sequence a =? sequence) then s else
      let a1 := mkAsync (as_reader a) (as_data a) (as_data_offset a) false (as_read_sequence a)
                  (as_read_size a) (as_reservation a) in
      let s1 := set_writes s (AsyncReaderWrite p a1 :: rest) in
      match error with
      | Some e => fail s1 (if negb (e =? 0) then e else EIO)
      | None =>
          if negb (♯data =? as_read_size a) || (fp_remaining p <? ♯data)
             || (as_reservation a <? ♯data)
          then fail s1 EIO else
          let a2 := mkAsync (as_reader a) data 0 false (as_read_sequence a) (as_read_size a)
                      (as_reservation a) in
          enable_write_event (set_writes s (AsyncReaderWrite p a2 :: rest))
      end
  | _ => s
  end.

Definition complete_front (s : WriteScheduler) : WriteScheduler :=
  match _writes s with
  | [] => s
  | task :: rest =>
      let s := set_writes s rest in
      match task with
      | MemoryWrite data _ =>
          set_pending s (u64 (_pending_memory_bytes s - ♯data)) (_pending_files s)
      | SendFileWrite _ _ =>
          notify_file (set_pending s (_pending_memory_bytes s) (u64 (_pending_files s - 1))) task 0
      | AsyncReaderWrite _ a =>
          notify_file (set_pending s (u64 (_pending_memory_bytes s - as_reservation a))
                         (u64 (_pending_files s - 1))) task 0
      end
  end.

Section Kernel.
Context (contents : Z → bytes).

(** How the body of the loop ends. *)
Inductive LoopStep := LoopContinue (s : WriteScheduler) (budget : Z) | LoopReturn (s : WriteScheduler).

(** [result > 0]: the front task after [written] bytes. *)
Definition advance (task : WriteTask) (written : Z) : WriteTask :=
  match task with
  | MemoryWrite data offset => MemoryWrite data (u64 (offset + written))
  | SendFileWrite p fd =>
      (* the kernel has advanced [file->offset] *)
      SendFileWrite (mkProgress (fp_offset p + written) (u64 (fp_remaining p - written))
        (u64 (fp_sent p + written)) (fp_callback p)) fd
  | AsyncReaderWrite p a =>
      let p := mkProgress (fp_offset p + written) (u64 (fp_remaining p - written))
                 (u64 (fp_sent p + written)) (fp_callback p) in
      let data_offset := u64 (as_data_offset a + written) in
      let '(data, data_offset) :=
        if data_offset =? ♯(as_data a) then ([], 0) else (as_data a, data_offset) in
      AsyncReaderWrite p (mkAsync (as_reader a) data data_offset (as_read_pending a)
        (as_read_sequence a) (as_read_size a) (as_reservation a))
  end.

(** [completed] *)
Definition finished (task : WriteTask) : bool :=
  match task with
  | MemoryWrite data offset => offset =? ♯data
  | SendFileWrite p _ => fp_remaining p =? 0
  | AsyncReaderWrite p _ => fp_remaining p =? 0
  end.

Definition account (s : WriteScheduler) (task : WriteTask) (rest : list WriteTask) (written : Z)
    : WriteScheduler :=
  let task := advance task written in
  let s := set_writes s (task :: rest) in
  if finished task then complete_front s else s.

(** The [count] argument of the system call and the bytes it is offered. *)
Definition offered (task : WriteTask) (budget : Z) : bytes :=
  match task with
  | MemoryWrite data offset =>
      take (Z.to_nat (Z.min (u64 (♯data - offset)) budget)) (drop (Z.to_nat offset) data)
  | SendFileWrite p fd =>
      take (Z.to_nat (Z.min (fp_remaining p) budget)) (drop (Z.to_nat (fp_offset p)) (contents fd))
  | AsyncReaderWrite p a =>
      take (Z.to_nat (Z.min (u64 (♯(as_data a) - as_data_offset a)) budget))
        (drop (Z.to_nat (as_data_offset a)) (as_data a))
  end.

Definition offered_count (task : WriteTask) (budget : Z) : Z :=
  match task with
  | MemoryWrite data offset => Z.min (u64 (♯data - offset)) budget
  | SendFileWrite p fd => Z.min (fp_remaining p) budget
  | AsyncReaderWrite p a => Z.min (u64 (♯(as_data a) - as_data_offset a)) budget
  end.

(** One iteration on a nonempty queue; [sys] is the outcome of its system call. *)
Definition write_step (sys : Z → Z * Z) (reader_acts : ReaderOutcome) (s : WriteScheduler)
    (task : WriteTask) (rest : list WriteTask) (budget : Z) : LoopStep :=
  if match file_progress task with Some p => fp_remaining p =? 0 | None => false end
  then LoopContinue (complete_front s) budget else
  match task with
  | AsyncReaderWrite _ {| as_data := []; as_read_pending := pending |} =>
      if pending then LoopReturn (set_write_interest s false)
      else LoopReturn (request_file_read s reader_acts)
  | _ =>
      let '(result, errno) := sys (offered_count task budget) in
      if 0 <? result then
        let s := emit s (ESent (take (Z.to_nat result) (offered task budget))) in
        LoopContinue (account s task rest result) (u64 (budget - result))
      else if result =? 0 then LoopReturn (fail s EIO)
      else if errno =? EINTR then LoopContinue s budget
      else if errno =? EAGAIN then LoopReturn s
      else LoopReturn (fail s errno)
  end.

(** The loop, with [n] iterations left of [kWriteSteps]; the result says whether
    the loop was left by its condition. *)
Fixpoint write_loop (sys : nat → Z → Z * Z) (reader_acts : ReaderOutcome) (n : nat)
    (s : WriteScheduler) (budget : Z) : WriteScheduler * bool :=
  match n with
  | O => (s, true)
  | S n' =>
      match _writes s with
      | [] => (s, true)
      | task :: rest =>
          if 0 <? budget then
            match write_step (sys n) reader_acts s task rest budget with
            | LoopContinue s budget => write_loop sys reader_acts n' s budget
            | LoopReturn s => (s, false)
            end
          else (s, true)
      end
  end.

Definition on_writable (sys : nat → Z → Z * Z) (reader_acts : ReaderOutcome) (s : WriteScheduler)
    : WriteScheduler :=
  if _stopped s || negb (_write_enabled s) then s else
  let '(s, left_by_condition) := write_loop sys reader_acts kWriteSteps s kWriteBudget in
  if left_by_condition && bool_decide (_writes s = [])
  then emit (set_write_interest s false) EDrained else s.

End Kernel.

(** ** Observations of the trace *)

Definition sent_event (e : Event) : bytes := match e with ESent b => b | _ => [] end.
Definition done_event (e : Event) : list (Z * Z * Z) :=
  match e with EFileDone cb error n => [(cb, error, n)] | _ => [] end.

(** Bytes handed to the kernel so far, and the callbacks queued so far. *)
Definition sent (s : WriteScheduler) : bytes := trace s ≫= sent_event.
Definition notified (s : WriteScheduler) : list (Z * Z * Z) := trace s ≫= done_event.

Lemma sent_emit s e : sent (emit s e) = sent s ++ sent_event e.
Proof. unfold sent, emit; cbn. by rewrite bind_app, bind_singleton. Qed.
Lemma notified_emit s e : notified (emit s e) = notified s ++ done_event e.
Proof. unfold notified, emit; cbn. by rewrite bind_app, bind_singleton. Qed.

(** Two states with the same queue, accounts and observations. *)
Record same_core (s t : WriteScheduler) : Prop := {
  sc_stopped : _stopped s = _stopped t;
  sc_writes : _writes s = _writes t;
  sc_bytes : _pending_memory_bytes s = _pending_memory_bytes t;
  sc_files : _pending_files s = _pending_files t;
  sc_sent : sent s = sent t;
  sc_notified : notified s = notified t
}.

#[export] Instance same_core_equiv : Equivalence same_core.
Proof.
  split.
  - by intros s.
  - intros s t []; by split.
  - intros s t u [] []; split; congruence.
Qed.

Definition quiet (e : Event) : Prop := sent_event e = [] ∧ done_event e = [].

Lemma same_core_emit s e : quiet e → same_core (emit s e) s.
Proof.
  intros [Hs Hd]. split; try done; [rewrite sent_emit, Hs|rewrite notified_emit, Hd];
    apply app_nil_r.
Qed.

Lemma same_core_interest s b : same_core (set_write_interest s b) s.
Proof.
  unfold set_write_interest. case_match; [done|].
  etrans; [by apply same_core_emit|]. by split.
Qed.

Lemma same_core_enable s : same_core (enable_write_event s) s.
Proof.
  unfold enable_write_event. repeat case_match; try done; apply same_core_interest.
Qed.

Lemma same_core_high_water s n : same_core (check_high_water s n) s.
Proof. unfold check_high_water. case_match; [by apply same_core_emit|done]. Qed.

(** ** The invariant *)

Definition charge (t : WriteTask) : Z :=
  match t with
  | MemoryWrite data _ => ♯data
  | SendFileWrite _ _ => 0
  | AsyncReaderWrite _ a => as_reservation a
  end.
Definition charges (ws : list WriteTask) : Z := foldr (λ t n, charge t + n) 0 ws.
Definition file_count (t : WriteTask) : Z :=
  match file_progress t with Some _ => 1 | None => 0 end.
Definition files (ws : list WriteTask) : Z := foldr (λ t n, file_count t + n) 0 ws.

Lemma charges_cons t ws : charges (t :: ws) = charge t + charges ws.
Proof. done. Qed.
Lemma files_cons t ws : files (t :: ws) = file_count t + files ws.
Proof. done. Qed.
Lemma charges_snoc ws t : charges (ws ++ [t]) = charges ws + charge t.
Proof.
  induction ws as [|u ws IH]; cbn [app]; rewrite !charges_cons; [|lia].
  change (charges []) with 0. lia.
Qed.
Lemma files_snoc ws t : files (ws ++ [t]) = files ws + file_count t.
Proof.
  induction ws as [|u ws IH]; cbn [app]; rewrite !files_cons; [|lia].
  change (files []) with 0. lia.
Qed.

Definition task_callback (t : WriteTask) : option Z :=
  match file_progress t with Some p => fp_callback p | None => None end.
Definition callbacks (ws : list WriteTask) : list Z := omap task_callback ws.

Definition progress_ok (p : FileProgress) : Prop :=
  0 <= fp_offset p ∧ 0 <= fp_remaining p ∧ 0 <= fp_sent p
  ∧ fp_sent p + fp_remaining p <= UINT64_MAX ∧ fp_offset p + fp_remaining p <= INT64_MAX.

Section Invariant.
Context (contents source : Z → bytes).

Definition reader_source (a : AsyncReader) : bytes :=
  match as_reader a with Some r => source r | None => [] end.

(** The bytes a task still has to deliver. *)
Definition todo (t : WriteTask) : bytes :=
  match t with
  | MemoryWrite data offset => drop (Z.to_nat offset) data
  | SendFileWrite p fd =>
      take (Z.to_nat (fp_remaining p)) (drop (Z.to_nat (fp_offset p)) (contents fd))
  | AsyncReaderWrite p a =>
      take (Z.to_nat (fp_remaining p)) (drop (Z.to_nat (fp_offset p)) (reader_source a))
  end.

Definition task_ok (t : WriteTask) : Prop :=
  match t with
  | MemoryWrite data offset => 0 <= offset <= ♯data ∧ ♯data <= kMaxPendingBytes
  | SendFileWrite p fd => progress_ok p ∧ fp_offset p + fp_remaining p <= ♯(contents fd)
  | AsyncReaderWrite p a =>
      progress_ok p ∧ fp_offset p + fp_remaining p <= ♯(reader_source a)
      ∧ 0 <= as_reservation a <= kAsyncFileChunk
      ∧ 0 <= as_data_offset a <= ♯(as_data a) ∧ ♯(as_data a) <= kAsyncFileChunk
      ∧ (as_data a ≠ [] → as_data_offset a < ♯(as_data a))
      ∧ ♯(as_data a) - as_data_offset a <= fp_remaining p
      ∧ drop (Z.to_nat (as_data_offset a)) (as_data a)
        = take (length (as_data a) - Z.to_nat (as_data_offset a))
            (drop (Z.to_nat (fp_offset p)) (reader_source a))
  end.

(** [acc]: the bytes of the accepted tasks in order of acceptance; [sub]: the
    callback and size of every submitted file. *)
Record Inv (s : WriteScheduler) (acc : bytes) (sub : list (Z * Z)) : Prop := {
  inv_charge : _pending_memory_bytes s = charges (_writes s);
  inv_files : _pending_files s = files (_writes s);
  inv_tasks : Forall task_ok (_writes s);
  inv_limits : ♯(_writes s) <= kMaxPendingTasks ∧ files (_writes s) <= kMaxPendingFiles
    ∧ charges (_writes s) <= kMaxPendingBytes;
  inv_stop : _stopped s = true → _writes s = [];
  inv_flow : _stopped s = false → sent s ++ (_writes s ≫= todo) = acc;
  inv_prefix : sent s `prefix_of` acc;
  inv_notified : (notified s).*1.*1 ++ callbacks (_writes s) ≡ₚ sub.*1;
  inv_success : ∀ cb n, (cb, 0, n) ∈ notified s → (cb, n) ∈ sub;
  inv_totals : ∀ t p cb, t ∈ _writes s → file_progress t = Some p → fp_callback p = Some cb →
    (cb, fp_sent p + fp_remaining p) ∈ sub
}.

Lemma Inv_core s t acc sub : same_core s t → Inv t acc sub → Inv s acc sub.
Proof.
  intros [H1 H2 H3 H4 H5 H6] []. split; rewrite ?H1, ?H2, ?H3, ?H4, ?H5, ?H6 in *; done.
Qed.

Lemma charge_nonneg t : task_ok t → 0 <= charge t.
Proof. destruct t; cbn; intros H; lia. Qed.

Lemma charges_nonneg ws : Forall task_ok ws → 0 <= charges ws.
Proof.
  induction 1 as [|t ws Ht _ IH]; [done|]. rewrite charges_cons.
  pose proof (charge_nonneg t Ht). lia.
Qed.
Lemma files_nonneg ws : 0 <= files ws.
Proof.
  induction ws as [|t ws IH]; [done|]. rewrite files_cons. unfold file_count. case_match; lia.
Qed.

Lemma u64_id z : 0 <= z <= UINT64_MAX → u64 z = z.
Proof. intros H. apply Z.mod_small. widlia. Qed.

(** *** Cancelling *)

Definition task_notice (error : Z) (t : WriteTask) : list (Z * Z * Z) :=
  match file_progress t with
  | Some p => match fp_callback p with Some cb => [(cb, error, fp_sent p)] | None => [] end
  | None => []
  end.

Lemma notify_file_spec s t e :
  _stopped (notify_file s t e) = _stopped s ∧ _writes (notify_file s t e) = _writes s
  ∧ _pending_memory_bytes (notify_file s t e) = _pending_memory_bytes s
  ∧ _pending_files (notify_file s t e) = _pending_files s
  ∧ sent (notify_file s t e) = sent s
  ∧ notified (notify_file s t e) = notified s ++ task_notice e t.
Proof.
  unfold notify_file, task_notice. repeat case_match; rewrite ?app_nil_r; try done.
  rewrite sent_emit, notified_emit. cbn. by rewrite app_nil_r.
Qed.

Lemma cancel_fold ws e s :
  let s' := fold_left (λ s t, match file_progress t with
                              | Some _ => notify_file s t e
                              | None => s end) ws s in
  _stopped s' = _stopped s ∧ _writes s' = _writes s
  ∧ _pending_memory_bytes s' = _pending_memory_bytes s ∧ _pending_files s' = _pending_files s
  ∧ sent s' = sent s ∧ notified s' = notified s ++ (ws ≫= task_notice e).
Proof.
  revert s. induction ws as [|t ws IH]; intros s; cbn [fold_left].
  { cbv zeta. by rewrite app_nil_r. }
  cbv zeta in *. destruct (notify_file_spec s t e) as (N1 & N2 & N3 & N4 & N5 & N6).
  rewrite bind_cons. destruct (file_progress t) as [p|] eqn:Hp.
  - destruct (IH (notify_file s t e)) as (-> & -> & -> & -> & -> & ->).
    rewrite N6, <- app_assoc. done.
  - destruct (IH s) as (-> & -> & -> & -> & -> & ->). unfold task_notice at 2. by rewrite Hp.
Qed.

Lemma cancel_all_spec s e :
  _stopped (cancel_all s e) = true ∧ _writes (cancel_all s e) = []
  ∧ _pending_memory_bytes (cancel_all s e) = 0 ∧ _pending_files (cancel_all s e) = 0
  ∧ sent (cancel_all s e) = sent s
  ∧ notified (cancel_all s e) = notified s ++ (_writes s ≫= task_notice e).
Proof.
  unfold cancel_all. cbv zeta.
  set (s1 := mkScheduler (_write_enabled s) true (_writes s) (_pending_memory_bytes s)
             (_pending_files s) (_high_water_mark s) (_next_read_sequence s) (trace s)).
  pose proof (same_core_interest s1 false) as [H1 H2 _ _ H5 H6].
  match goal with |- context [fold_left _ ?ws ?s0] =>
    destruct (cancel_fold ws e s0) as (-> & -> & -> & -> & -> & ->) end.
  cbn. rewrite H2. unfold sent, notified in *. cbn in *. by rewrite H5, H6.
Qed.

Lemma callbacks_cons e t ws : callbacks (t :: ws) = (task_notice e t).*1.*1 ++ callbacks ws.
Proof.
  unfold callbacks; cbn. unfold task_notice, task_callback.
  destruct (file_progress t) as [p|]; [destruct (fp_callback p)|]; done.
Qed.

Lemma task_notice_callbacks e ws : (ws ≫= task_notice e).*1.*1 = callbacks ws.
Proof.
  induction ws as [|t ws IH]; [done|].
  by rewrite bind_cons, !fmap_app, IH, (callbacks_cons e).
Qed.

Lemma cancel_all_inv s e acc sub : e ≠ 0 → Inv s acc sub → Inv (cancel_all s e) acc sub.
Proof.
  intros He Hi. destruct (cancel_all_spec s e) as (H1 & H2 & H3 & H4 & H5 & H6).
  destruct Hi. split; rewrite ?H1, ?H2, ?H3, ?H4, ?H5, ?H6; try done.
  - by rewrite app_nil_r, !fmap_app, task_notice_callbacks.
  - intros cb n [Hin|Hin]%elem_of_app; [by apply inv_success0|].
    apply list_elem_of_bind in Hin as (t & Ht & _). unfold task_notice in Ht.
    repeat case_match; set_solver.
  - set_solver.
Qed.

Lemma fail_inv s e acc sub : e ≠ 0 → Inv s acc sub → Inv (fail s e) acc sub.
Proof.
  intros He Hi. unfold fail. case_match; [done|].
  eapply Inv_core; [by apply same_core_emit|]. by apply cancel_all_inv.
Qed.

(** *** Completing the front task *)

Lemma complete_front_inv s acc sub t rest :
  Inv s acc sub → _stopped s = false → _writes s = t :: rest → finished t = true →
  Inv (complete_front s) acc sub.
Proof.
  intros Hi Hns Hw Hf. destruct Hi. rewrite Hw in *.
  apply Forall_cons in inv_tasks0 as [Ht Hrest]. rewrite charges_cons, files_cons in *.
  pose proof (charges_nonneg rest Hrest). pose proof (files_nonneg rest).
  pose proof (charge_nonneg t Ht).
  assert (todo t = []) as Htodo.
  { destruct t; cbn in *; ztests; subst; rewrite ?Hf.
    - apply drop_ge. unfold Zlen. lia.
    - done.
    - done. }
  assert (∀ s', _stopped s' = false → _writes s' = rest →
    _pending_memory_bytes s' = charges rest → _pending_files s' = files rest →
    sent s' = sent s → notified s' = notified s ++ task_notice 0 t → Inv s' acc sub) as Hmain.
  { intros s' E1 E2 E3 E4 E5 E6. split; rewrite ?E1, ?E2, ?E3, ?E4, ?E5, ?E6; try done.
    - rewrite Zlen_cons in inv_limits0. unfold file_count in inv_limits0.
      destruct (file_progress t); lia.
    - intros _. rewrite <- inv_flow0, bind_cons, Htodo by done. done.
    - rewrite !fmap_app, <- app_assoc. by rewrite <- inv_notified0, (callbacks_cons 0).
    - intros cb n [Hin|Hin]%elem_of_app; [by apply inv_success0|].
      unfold task_notice in Hin. destruct (file_progress t) as [p|] eqn:Hp; [|set_solver].
      destruct (fp_callback p) as [c|] eqn:Hc; [|set_solver].
      assert (cb = c ∧ n = fp_sent p) as [-> ->] by set_solver.
      assert (fp_remaining p = 0) as Hr0.
      { destruct t; cbn in *; simplify_eq; by ztests. }
      rewrite <- (Z.add_0_r (fp_sent p)), <- Hr0. apply (inv_totals0 t); [by apply list_elem_of_here|done..].
    - intros t' p cb Ht'. apply inv_totals0. by apply list_elem_of_further. }
  unfold kMaxPendingBytes, kMaxPendingFiles in *.
  unfold complete_front. rewrite Hw. destruct t as [data off|p fd|p a]; cbn [charge file_count file_progress] in *.
  - apply Hmain; cbn; try done; [rewrite u64_id; widlia|]. by rewrite app_nil_r.
  - match goal with |- Inv (notify_file ?x ?y ?e) _ _ =>
      destruct (notify_file_spec x y e) as (N1 & N2 & N3 & N4 & N5 & N6) end.
    apply Hmain; rewrite ?N1, ?N2, ?N3, ?N4, ?N5, ?N6; cbn; try done; rewrite ?u64_id; widlia.
  - match goal with |- Inv (notify_file ?x ?y ?e) _ _ =>
      destruct (notify_file_spec x y e) as (N1 & N2 & N3 & N4 & N5 & N6) end.
    apply Hmain; rewrite ?N1, ?N2, ?N3, ?N4, ?N5, ?N6; cbn; try done; rewrite ?u64_id; widlia.
Qed.

(** *** Advancing the front task *)

Definition same_file (t t' : WriteTask) : Prop :=
  match file_progress t, file_progress t' with
  | Some p, Some p' =>
      fp_callback p = fp_callback p' ∧ fp_sent p + fp_remaining p = fp_sent p' + fp_remaining p'
  | None, None => True
  | _, _ => False
  end.

Lemma replace_front s s' t t' rest x acc sub :
  Inv s acc sub → _stopped s = false → _writes s = t :: rest →
  _stopped s' = false → _writes s' = t' :: rest →
  _pending_memory_bytes s' = _pending_memory_bytes s → _pending_files s' = _pending_files s →
  sent s' = sent s ++ x → notified s' = notified s →
  task_ok t' → charge t' = charge t → same_file t t' → todo t = x ++ todo t' →
  Inv s' acc sub.
Proof.
  intros [] Hns Hw E1 E2 E3 E4 E5 E6 Hok Hch Hsame Htodo. rewrite Hw in *.
  apply Forall_cons in inv_tasks0 as [_ Hrest].
  assert (file_count t' = file_count t ∧ callbacks (t' :: rest) = callbacks (t :: rest)) as [Hfc Hcb].
  { rewrite !(callbacks_cons 0). unfold same_file, file_count, task_notice in *.
    repeat case_match; naive_solver. }
  specialize (inv_flow0 Hns). rewrite bind_cons, Htodo in inv_flow0.
  split; rewrite ?E1, ?E2, ?E3, ?E4, ?E5, ?E6; rewrite ?charges_cons, ?files_cons in *;
    rewrite ?Hch, ?Hfc, ?Hcb; try done.
  - by apply Forall_cons.
  - intros _. rewrite bind_cons, <- app_assoc. by rewrite <- app_assoc in inv_flow0.
  - exists (todo t' ++ (rest ≫= todo)). by rewrite <- !app_assoc in *.
  - intros u p cb Hu Hp Hc. apply elem_of_cons in Hu as [->|Hu].
    + unfold same_file in Hsame. rewrite Hp in Hsame.
      destruct (file_progress t) as [q|] eqn:Hq; [|done]. destruct Hsame as [Hs1 <-].
      apply (inv_totals0 t); [apply list_elem_of_here|done|congruence].
    + apply (inv_totals0 u); [by apply list_elem_of_further|done..].
Qed.

Lemma take_split (n r : nat) (l : bytes) :
  (n <= r)%nat → take r l = take n l ++ take (r - n) (drop n l).
Proof.
  intros Hn. rewrite take_drop_commute. replace (n + (r - n))%nat with r by lia.
  rewrite <- (take_drop n (take r l)) at 1. f_equal. rewrite take_take. f_equal. lia.
Qed.

Lemma progress_advance p n :
  progress_ok p → 0 < n <= fp_remaining p →
  u64 (fp_remaining p - n) = fp_remaining p - n ∧ u64 (fp_sent p + n) = fp_sent p + n
  ∧ progress_ok (mkProgress (fp_offset p + n) (fp_remaining p - n) (fp_sent p + n) (fp_callback p)).
Proof.
  intros (H1 & H2 & H3 & H4 & H5) Hn. rewrite !u64_id by widlia.
  do 2 (split; [done|]). unfold progress_ok; cbn. lia.
Qed.

(** The next bytes of a file task. *)
Lemma todo_slice (c : bytes) off r n :
  0 <= off → 0 < n <= r →
  take (Z.to_nat r) (drop (Z.to_nat off) c)
  = take (Z.to_nat n) (drop (Z.to_nat off) c)
    ++ take (Z.to_nat (r - n)) (drop (Z.to_nat (off + n)) c).
Proof.
  intros Ho Hn. rewrite (take_split (Z.to_nat n) (Z.to_nat r)) by lia. f_equal.
  rewrite drop_drop. f_equal; [lia|]. f_equal. lia.
Qed.

(** The data a task offers to [send]. *)
Definition ready (t : WriteTask) : Prop :=
  match t with
  | MemoryWrite _ _ => True
  | SendFileWrite _ _ => True
  | AsyncReaderWrite _ a => as_data a ≠ []
  end.

Lemma advance_memory data off n budget :
  task_ok (MemoryWrite data off) → 0 < n <= offered_count (MemoryWrite data off) budget →
  let t' := advance (MemoryWrite data off) n in
  task_ok t' ∧ charge t' = ♯data ∧ same_file (MemoryWrite data off) t'
  ∧ drop (Z.to_nat off) data
    = take (Z.to_nat n) (offered contents (MemoryWrite data off) budget) ++ todo t'.
Proof.
  intros [Ho Hm] Hn. cbn in *. unfold kMaxPendingBytes in Hm.
  rewrite u64_id in Hn by widlia. rewrite !u64_id by widlia.
  split; [unfold kMaxPendingBytes; lia|]. do 2 (split; [done|]).
  rewrite take_take, Nat.min_l by lia. rewrite <- (take_drop (Z.to_nat n) (drop _ data)) at 1.
  f_equal. rewrite drop_drop. f_equal. lia.
Qed.

Lemma advance_sendfile p fd n budget :
  task_ok (SendFileWrite p fd) → 0 < n <= offered_count (SendFileWrite p fd) budget →
  let t' := advance (SendFileWrite p fd) n in
  task_ok t' ∧ charge t' = 0 ∧ same_file (SendFileWrite p fd) t'
  ∧ todo (SendFileWrite p fd)
    = take (Z.to_nat n) (offered contents (SendFileWrite p fd) budget) ++ todo t'.
Proof.
  intros [Hp Hc] Hn. cbn in *. destruct (progress_advance p n Hp) as (-> & -> & Hp'); [lia|].
  destruct Hp as (H1 & H2 & H3 & H4 & H5).
  split; [split; [done|cbn; lia]|]. split; [done|].
  split; [split; cbn; [done|lia]|].
  rewrite take_take, Nat.min_l by lia. apply todo_slice; lia.
Qed.

Lemma advance_async p a n budget :
  task_ok (AsyncReaderWrite p a) → as_data a ≠ [] →
  0 < n <= offered_count (AsyncReaderWrite p a) budget →
  let t' := advance (AsyncReaderWrite p a) n in
  task_ok t' ∧ charge t' = as_reservation a ∧ same_file (AsyncReaderWrite p a) t'
  ∧ todo (AsyncReaderWrite p a)
    = take (Z.to_nat n) (offered contents (AsyncReaderWrite p a) budget) ++ todo t'.
Proof.
  intros (Hp & Hc & Hres & Hdo & Hch & Hlt & Hrem & Hdata) Hne Hn.
  specialize (Hlt Hne). cbn in *. unfold kAsyncFileChunk in *.
  rewrite u64_id in Hn by widlia. rewrite (u64_id (♯(as_data a) - _)) by widlia.
  destruct (progress_advance p n Hp) as (-> & -> & Hp'); [lia|].
  rewrite (u64_id (as_data_offset a + n)) by widlia.
  destruct Hp as (H1 & H2 & H3 & H4 & H5).
  set (src := reader_source a) in *.
  assert (take (Z.to_nat n) (drop (Z.to_nat (as_data_offset a)) (as_data a))
          = take (Z.to_nat n) (drop (Z.to_nat (fp_offset p)) src)) as Htk.
  { rewrite Hdata, take_take, Nat.min_l; [done|]. unfold Zlen in *. lia. }
  assert (∀ d o, d = as_data a ∧ o = as_data_offset a + n ∧ o < ♯d ∨ d = [] ∧ o = 0 →
    let t' := AsyncReaderWrite (mkProgress (fp_offset p + n) (fp_remaining p - n) (fp_sent p + n)
      (fp_callback p)) (mkAsync (as_reader a) d o (as_read_pending a) (as_read_sequence a)
      (as_read_size a) (as_reservation a)) in
    task_ok t' ∧ charge t' = as_reservation a ∧ same_file (AsyncReaderWrite p a) t'
    ∧ take (Z.to_nat (fp_remaining p)) (drop (Z.to_nat (fp_offset p)) src)
      = take (Z.to_nat n) (take (Z.to_nat (Z.min (♯(as_data a) - as_data_offset a) budget))
          (drop (Z.to_nat (as_data_offset a)) (as_data a))) ++ todo t') as Hmain.
  { intros d o Hd. cbv zeta. split; [|split; [done|split; [split; cbn; [done|lia]|]]].
    - cbn. unfold reader_source in *; cbn. fold src. split; [done|]. split; [lia|].
      split; [done|]. unfold kAsyncFileChunk.
      destruct Hd as [(-> & -> & Ho)|(-> & ->)].
      + do 4 (split; [lia|]).
        replace (Z.to_nat (as_data_offset a + n))
          with (Z.to_nat (as_data_offset a) + Z.to_nat n)%nat by lia.
        rewrite <- drop_drop, Hdata.
        replace (Z.to_nat (fp_offset p + n))
          with (Z.to_nat (fp_offset p) + Z.to_nat n)%nat by lia.
        rewrite <- (drop_drop src). symmetry. rewrite take_drop_commute.
        do 2 f_equal. unfold Zlen in *. lia.
      + change (♯[]) with 0. do 4 (split; [done || lia|]). done.
    - rewrite take_take, Nat.min_l, Htk by lia. cbn. apply todo_slice; lia. }
  destruct (as_data_offset a + n =? ♯(as_data a)) eqn:Efull; ztests; apply Hmain.
  - by right.
  - left. split; [done|]. split; [done|lia].
Qed.

Lemma advance_ok t n budget :
  task_ok t → ready t → 0 < n <= offered_count t budget →
  task_ok (advance t n) ∧ charge (advance t n) = charge t ∧ same_file t (advance t n)
  ∧ todo t = take (Z.to_nat n) (offered contents t budget) ++ todo (advance t n).
Proof.
  intros Ht Hr Hn. destruct t.
  - by apply advance_memory.
  - by apply advance_sendfile.
  - by apply advance_async.
Qed.

Lemma account_inv s t rest n budget acc sub :
  Inv s acc sub → _stopped s = false → _writes s = t :: rest → ready t →
  0 < n <= offered_count t budget →
  let s1 := emit s (ESent (take (Z.to_nat n) (offered contents t budget))) in
  Inv (account s1 t rest n) acc sub ∧ _stopped (account s1 t rest n) = false.
Proof.
  intros Hi Hns Hw Hr Hn. cbv zeta. set (s1 := emit s _).
  assert (task_ok t) as Ht by (destruct Hi; rewrite Hw in *; by apply Forall_cons in inv_tasks0 as [? _]).
  destruct (advance_ok t n budget Ht Hr Hn) as (Hok & Hch & Hsame & Htodo).
  assert (Inv (set_writes s1 (advance t n :: rest)) acc sub) as Hi1.
  { apply (replace_front s _ t (advance t n) rest
      (take (Z.to_nat n) (offered contents t budget))); try done.
    - unfold s1, sent; cbn. by rewrite bind_app, bind_singleton.
    - unfold s1, notified; cbn. by rewrite bind_app, bind_singleton, app_nil_r. }
  unfold account. cbv zeta. destruct (finished (advance t n)) eqn:Hf; [|done]. split.
  - by apply (complete_front_inv _ _ _ (advance t n) rest).
  - unfold complete_front, notify_file. cbn. by repeat case_match.
Qed.

(** *** The loop *)

(** The kernel never reports more than it was offered, and reports an error
    number when it fails. *)
Definition sys_ok (sys : nat → Z → Z * Z) : Prop :=
  ∀ i c, 0 <= c → (sys i c).1 <= c ∧ ((sys i c).1 < 0 → (sys i c).2 ≠ 0).
Definition reader_ok (r : ReaderOutcome) : Prop :=
  match r with ReaderCancels e => e ≠ 0 | _ => True end.

Lemma request_file_read_inv s p a rest r acc sub :
  Inv s acc sub → _stopped s = false → _writes s = AsyncReaderWrite p a :: rest →
  reader_ok r → Inv (request_file_read s r) acc sub.
Proof.
  intros Hi Hns Hw Hr. unfold request_file_read. case_match; [by apply fail_inv|].
  rewrite Hw. cbv zeta.
  match goal with |- context [set_write_interest ?x false] =>
    assert (Inv x acc sub) as Hi1 by
      (destruct Hi; rewrite Hw in *; apply Forall_cons in inv_tasks0 as Hok;
       eapply (replace_front s x _ (AsyncReaderWrite p (mkAsync (as_reader a) (as_data a)
         (as_data_offset a) true (_next_read_sequence s + 1)
         (Z.min (fp_remaining p) kAsyncFileChunk) (as_reservation a))) rest []);
         [split; rewrite ?Hw; done|done|done|done|done|done|done| |done|apply Hok|done|done|done];
         by rewrite app_nil_r);
    pose proof (same_core_interest x false) as Hc
  end.
  eapply Inv_core in Hi1; [|exact Hc]. clear Hc.
  destruct (as_reader a) as [rd|]; [|by apply fail_inv].
  match goal with |- context [emit ?x (ERead ?b ?c ?d ?e)] =>
    assert (Inv (emit x (ERead b c d e)) acc sub) as Hi2
      by (eapply Inv_core; [by apply same_core_emit|done]) end.
  destruct r as [|e|code]; [done|by apply cancel_all_inv|].
  apply fail_inv; [|done]. case_match; ztests; done.
Qed.

Lemma write_step_inv sys i r s t rest budget acc sub :
  sys_ok sys → reader_ok r → Inv s acc sub → _stopped s = false → _writes s = t :: rest →
  0 < budget <= kWriteBudget →
  match write_step contents (sys i) r s t rest budget with
  | LoopContinue s' budget' =>
      Inv s' acc sub ∧ _stopped s' = false ∧ 0 <= budget' <= kWriteBudget
  | LoopReturn s' => Inv s' acc sub
  end.
Proof.
  intros Hsys Hr Hi Hns Hw Hb. unfold write_step.
  assert (task_ok t) as Ht.
  { destruct Hi. rewrite Hw in *. by apply Forall_cons in inv_tasks0 as [? _]. }
  destruct (match file_progress t with Some p => fp_remaining p =? 0 | None => false end) eqn:E0.
  { assert (finished t = true) as Hf by by destruct t.
    split; [by apply (complete_front_inv s acc sub t rest)|]. split; [|lia].
    unfold complete_front, notify_file. rewrite Hw. by repeat case_match. }
  assert (∀ res errno, ready t → sys i (offered_count t budget) = (res, errno) →
    match (if 0 <? res then
        LoopContinue (account (emit s (ESent (take (Z.to_nat res) (offered contents t budget))))
          t rest res) (u64 (budget - res))
      else if res =? 0 then LoopReturn (fail s EIO)
      else if errno =? EINTR then LoopContinue s budget
      else if errno =? EAGAIN then LoopReturn s
      else LoopReturn (fail s errno)) with
    | LoopContinue s' budget' =>
        Inv s' acc sub ∧ _stopped s' = false ∧ 0 <= budget' <= kWriteBudget
    | LoopReturn s' => Inv s' acc sub
    end) as Hmain.
  { intros res errno Hrd Hres.
    assert (0 <= offered_count t budget <= budget) as Hoc.
    { unfold kWriteBudget, kMaxPendingBytes, kAsyncFileChunk in *.
      destruct t; cbn in *; unfold progress_ok, kMaxPendingBytes, kAsyncFileChunk in *;
        rewrite ?u64_id by widlia; lia. }
    destruct (Hsys i (offered_count t budget)) as [Hle Herr]; [lia|]. rewrite Hres in *. cbn in *.
    unfold kWriteBudget in *.
    destruct (0 <? res) eqn:E1; ztests.
    { destruct (account_inv s t rest res budget acc sub) as [HI HS]; try done.
      split; [done|]. split; [done|]. rewrite u64_id by widlia. lia. }
    destruct (res =? 0) eqn:E2; ztests; [by apply fail_inv|].
    destruct (errno =? EINTR); [split; [done|split; [done|lia]]|].
    destruct (errno =? EAGAIN); [done|]. apply fail_inv; [apply Herr; lia|done]. }
  destruct t as [data off|p fd|p [rd data doff pend seq sz res]].
  - destruct (sys i _) as [res errno] eqn:Hres. by apply Hmain.
  - destruct (sys i _) as [res errno] eqn:Hres. by apply Hmain.
  - destruct data as [|x data].
    + destruct pend.
      * eapply Inv_core; [apply same_core_interest|done].
      * by eapply request_file_read_inv.
    + destruct (sys i _) as [res' errno] eqn:Hres. by apply Hmain.
Qed.

Lemma write_loop_inv sys r n : ∀ s budget acc sub,
  sys_ok sys → reader_ok r → Inv s acc sub → _stopped s = false → 0 <= budget <= kWriteBudget →
  Inv (write_loop contents sys r n s budget).1 acc sub.
Proof.
  induction n as [|n IH]; intros s budget acc sub Hsys Hr Hi Hns Hb; [done|].
  cbn [write_loop]. destruct (_writes s) as [|t rest] eqn:Hw; [done|].
  case_match; [|done]. ztests.
  pose proof (write_step_inv sys (S n) r s t rest budget acc sub Hsys Hr Hi Hns Hw) as Hstep.
  destruct (write_step _ _ _ _ _ _ _) as [s' b'|s'].
  - destruct Hstep as (Hi' & Hns' & Hb'); [lia|]. by apply IH.
  - apply Hstep. lia.
Qed.

Lemma on_writable_inv sys r s acc sub :
  sys_ok sys → reader_ok r → Inv s acc sub → Inv (on_writable contents sys r s) acc sub.
Proof.
  intros Hsys Hr Hi. unfold on_writable. case_match eqn:E; [done|]. ztests.
  pose proof (write_loop_inv sys r kWriteSteps s kWriteBudget acc sub Hsys Hr Hi) as Hl.
  destruct (write_loop _ _ _ _ _ _) as [s' c]. cbn in Hl.
  assert (Inv s' acc sub) as Hi' by (apply Hl; [done|unfold kWriteBudget; lia]).
  case_match; [|done]. eapply Inv_core; [|exact Hi'].
  etrans; [by apply same_core_emit|apply same_core_interest].
Qed.

(** *** Replies of a reader *)

(** The reader answers the pending request with the bytes it was asked for. *)
Definition reply_ok (s : WriteScheduler) (sequence : Z) (error : option Z) (data : bytes) : Prop :=
  ∀ p a rest, _writes s = AsyncReaderWrite p a :: rest → as_read_pending a = true →
    as_read_sequence a = sequence → error = None → ♯data = as_read_size a →
    data = take (length data) (drop (Z.to_nat (fp_offset p)) (reader_source a)).

Lemma on_file_read_inv s sequence error data acc sub :
  Inv s acc sub → reply_ok s sequence error data → Inv (on_file_read s sequence error data) acc sub.
Proof.
  intros Hi Hreply. unfold on_file_read. destruct (_stopped s) eqn:Hns; [done|].
  destruct (_writes s) as [|[d o|p fd|p a] rest] eqn:Hw; try done.
  case_match eqn:E; [done|]. ztests. cbv zeta.
  assert (task_ok (AsyncReaderWrite p a)) as Ht.
  { destruct Hi. rewrite Hw in *. by apply Forall_cons in inv_tasks0 as [? _]. }
  assert (∀ a', task_ok (AsyncReaderWrite p a') → as_reservation a' = as_reservation a →
    as_reader a' = as_reader a →
    Inv (set_writes s (AsyncReaderWrite p a' :: rest)) acc sub) as Hrepl.
  { intros a' Ha' Hres Hrd. eapply (replace_front s _ (AsyncReaderWrite p a)
      (AsyncReaderWrite p a') rest []); try done.
    - by rewrite app_nil_r.
    - cbn. unfold reader_source. by rewrite Hrd. }
  assert (Inv (set_writes s (AsyncReaderWrite p (mkAsync (as_reader a) (as_data a)
    (as_data_offset a) false (as_read_sequence a) (as_read_size a) (as_reservation a)) :: rest))
    acc sub) as Hi1 by by apply Hrepl.
  destruct error as [e|]; [apply fail_inv; [case_match; ztests; done|done]|].
  case_match eqn:E2; [by apply fail_inv|]. ztests.
  eapply Inv_core; [apply same_core_enable|]. apply Hrepl; [|done|done].
  destruct Ht as (Hp & Hc & Hres & _). cbn. unfold reader_source in *; cbn. unfold kAsyncFileChunk in *.
  pose proof (Zlen_nonneg data). do 3 (split; [done|]). split; [lia|]. split; [lia|].
  split; [|split; [lia|]].
  - intros Hne. destruct data; [done|]. rewrite Zlen_cons. pose proof (Zlen_nonneg data). lia.
  - rewrite Nat.sub_0_r, drop_0. by apply (Hreply p a rest).
Qed.

(** *** Admission *)

(** The callback and size a submitted file is remembered by. *)
Definition submitted (t : WriteTask) : list (Z * Z) :=
  match file_progress t with
  | Some p => match fp_callback p with
              | Some cb => [(cb, fp_sent p + fp_remaining p)]
              | None => []
              end
  | None => []
  end.

Lemma submitted_notice e t : (submitted t).*1 = (task_notice e t).*1.*1.
Proof. unfold submitted, task_notice. by repeat case_match. Qed.

Lemma notify_inv s t e acc sub :
  e ≠ 0 → Inv s acc sub → Inv (notify_file s t e) acc (sub ++ submitted t).
Proof.
  intros He []. destruct (notify_file_spec s t e) as (N1 & N2 & N3 & N4 & N5 & N6).
  split; rewrite ?N1, ?N2, ?N3, ?N4, ?N5, ?N6; try done.
  - rewrite !fmap_app, (submitted_notice e), <- inv_notified0.
    rewrite <- !app_assoc. f_equiv. by rewrite Permutation_app_comm.
  - intros cb n [Hin|Hin]%elem_of_app; [apply elem_of_app; left; by apply inv_success0|].
    unfold task_notice in Hin. repeat case_match; set_solver.
  - intros u p cb Hu Hp Hc. apply elem_of_app. left. by apply (inv_totals0 u).
Qed.

Lemma append_inv s s' t acc sub :
  Inv s acc sub → _stopped s = false → _stopped s' = false → _writes s' = _writes s ++ [t] →
  _pending_memory_bytes s' = _pending_memory_bytes s + charge t →
  _pending_files s' = _pending_files s + file_count t →
  sent s' = sent s → notified s' = notified s → task_ok t →
  ♯(_writes s) < kMaxPendingTasks → _pending_files s + file_count t <= kMaxPendingFiles →
  _pending_memory_bytes s + charge t <= kMaxPendingBytes →
  Inv s' (acc ++ todo t) (sub ++ submitted t).
Proof.
  intros [] Hns E1 E2 E3 E4 E5 E6 Ht L1 L2 L3.
  split; rewrite ?E1, ?E2, ?E3, ?E4, ?E5, ?E6, ?charges_snoc, ?files_snoc.
  - by rewrite inv_charge0.
  - by rewrite inv_files0.
  - apply Forall_app; split; [done|by apply Forall_singleton].
  - rewrite Zlen_app. change (♯[t]) with 1. lia.
  - done.
  - intros _. rewrite bind_app, bind_singleton, app_assoc, inv_flow0 by done. done.
  - by apply prefix_app_r.
  - assert (callbacks (_writes s ++ [t]) = callbacks (_writes s) ++ (submitted t).*1) as ->.
    { unfold callbacks. rewrite omap_app. f_equal. rewrite (submitted_notice 0).
      change (callbacks [t] = (task_notice 0 t).*1.*1). rewrite (callbacks_cons 0).
      by rewrite app_nil_r. }
    by rewrite app_assoc, inv_notified0, fmap_app.
  - intros cb n Hin. apply elem_of_app. left. by apply inv_success0.
  - intros u p cb [Hu|Hu]%elem_of_app Hp Hc; apply elem_of_app.
    + left. by apply (inv_totals0 u).
    + right. apply list_elem_of_singleton in Hu as ->. unfold submitted. rewrite Hp, Hc.
      apply list_elem_of_here.
Qed.

Lemma Inv_pending_bound s acc sub :
  Inv s acc sub → 0 <= _pending_memory_bytes s <= kMaxPendingBytes
    ∧ 0 <= _pending_files s <= kMaxPendingFiles.
Proof.
  intros []. pose proof (charges_nonneg _ inv_tasks0). pose proof (files_nonneg (_writes s)). lia.
Qed.

(** Bytes accepted and files submitted by one call: the queue has grown. *)
Definition accepted (s s' : WriteScheduler) (t : WriteTask) : bytes :=
  if decide (length (_writes s) < length (_writes s'))%nat then todo t else [].

Lemma same_core_admit s n : same_core (check_high_water (enable_write_event s) n) s.
Proof. etrans; [apply same_core_high_water|apply same_core_enable]. Qed.

Lemma fail_writes s e : length (_writes (fail s e)) = if _stopped s then length (_writes s) else 0%nat.
Proof.
  unfold fail. destruct (_stopped s); [done|]. cbn.
  destruct (cancel_all_spec s e) as (_ & -> & _). done.
Qed.

Lemma enqueue_memory_inv s data acc sub :
  Inv s acc sub → ♯data <= INT64_MAX →
  Inv (enqueue_memory s data) (acc ++ accepted s (enqueue_memory s data) (MemoryWrite data 0)) sub.
Proof.
  intros Hi Hsz. pose proof (Inv_pending_bound _ _ _ Hi) as [Hb Hf]. unfold enqueue_memory.
  unfold kMaxPendingBytes, kMaxPendingTasks, kMaxPendingFiles in *.
  case_match eqn:E1.
  { unfold accepted. rewrite decide_False by lia. by rewrite app_nil_r. }
  apply orb_false_iff in E1 as [Hns Hne]. apply bool_decide_eq_false in Hne.
  rewrite u64_id by widlia. case_match eqn:E2.
  { unfold accepted. rewrite fail_writes, Hns. rewrite decide_False by lia.
    rewrite app_nil_r. by apply fail_inv. }
  cbv zeta. ztests. pose proof (Zlen_nonneg data).
  match goal with |- Inv (check_high_water (enable_write_event ?x) ?n) _ _ =>
    pose proof (same_core_admit x n) as Hc; set (s1 := x) in * end.
  unfold accepted. rewrite (sc_writes _ _ Hc).
  change (_writes s1) with (_writes s ++ [MemoryWrite data 0]).
  rewrite decide_True by (rewrite length_app; simpl; lia).
  eapply Inv_core; [exact Hc|].
  pose proof (append_inv s s1 (MemoryWrite data 0) acc sub) as Happ.
  cbn [submitted file_progress] in Happ. rewrite app_nil_r in Happ. apply Happ; try done; unfold s1; cbn.
  - rewrite u64_id; widlia.
  - unfold file_count. cbn. lia.
  - unfold kMaxPendingBytes. lia.
  - unfold kMaxPendingFiles. unfold file_count. cbn. lia.
  - unfold kMaxPendingBytes. lia.
Qed.

(** A prepared file: either refused with an error number or readable to its end. *)
Definition prepared_ok (pf : PreparedFile) : Prop :=
  is_Some (file_progress (pf_task pf)) ∧ (pf_error pf = 0 → task_ok (pf_task pf)).

Lemma reserve_spec t :
  task_ok t →
  task_ok (reserve t).2 ∧ charge (reserve t).2 = match t with
    | MemoryWrite data _ => ♯data | _ => (reserve t).1 end
  ∧ 0 <= (reserve t).1 <= kAsyncFileChunk ∧ todo (reserve t).2 = todo t.
Proof.
  unfold kAsyncFileChunk. destruct t as [d o|p fd|p a]; cbn; [by intros; repeat split; try lia| |].
  - intros Ht. repeat split; try done; try apply Ht; lia.
  - intros (Hp & Hc & Hres & Hrest). unfold kAsyncFileChunk in *.
    pose proof Hp as (H1 & H2 & _). split; [|split; [done|split; [lia|done]]].
    split; [done|]. split; [done|]. split; [lia|]. exact Hrest.
Qed.

Lemma reserve_progress t : file_progress (reserve t).2 = file_progress t.
Proof. by destruct t. Qed.

Lemma enqueue_file_inv s pf accepting acc sub :
  Inv s acc sub → prepared_ok pf →
  Inv (enqueue_file s pf accepting)
    (acc ++ accepted s (enqueue_file s pf accepting) (pf_task pf)) (sub ++ submitted (pf_task pf)).
Proof.
  intros Hi [Hfile Hpok]. pose proof (Inv_pending_bound _ _ _ Hi) as [Hb Hf].
  unfold enqueue_file. unfold kMaxPendingBytes, kMaxPendingTasks, kMaxPendingFiles in *.
  case_match eqn:E1.
  { unfold accepted. destruct (notify_file_spec s (pf_task pf) ENOTCONN) as (_ & -> & _).
    rewrite decide_False by lia. rewrite app_nil_r. by apply notify_inv. }
  apply orb_false_iff in E1 as [Hns _].
  assert (submitted (reserve (pf_task pf)).2 = submitted (pf_task pf)) as Hsub.
  { unfold submitted. by rewrite reserve_progress. }
  destruct (reserve (pf_task pf)) as [res t] eqn:Er. cbn [snd] in Hsub. rewrite u64_id by widlia.
  cbv zeta. match goal with |- context [if (pf_error pf =? 0) && ?c then ENOBUFS else _] =>
    set (full := c) end.
  match goal with |- context [if negb (?e =? 0) then _ else _] => destruct (e =? 0) eqn:E2 end;
    cbn [negb]; cycle 1.
  { apply Z.eqb_neq in E2. unfold accepted. rewrite fail_writes.
    destruct (notify_file_spec s t (if (pf_error pf =? 0) && full then ENOBUFS else pf_error pf))
      as (-> & _). rewrite Hns, decide_False by lia. rewrite app_nil_r.
    apply fail_inv; [done|]. rewrite <- Hsub. by apply notify_inv. }
  assert (pf_error pf = 0 ∧ full = false) as [Herr Hfull].
  { destruct (pf_error pf =? 0) eqn:E3, full; cbn in E2; ztests; done. }
  subst full. ztests. destruct (reserve_spec _ (Hpok Herr)) as (Hok & Hch & Hres & Htodo).
  rewrite Er in *. cbn [fst snd] in *.
  match goal with |- Inv (check_high_water (enable_write_event ?x) ?n) _ _ =>
    pose proof (same_core_admit x n) as Hc; set (s1 := x) in * end.
  unfold accepted. rewrite (sc_writes _ _ Hc).
  change (_writes s1) with (_writes s ++ [t]).
  rewrite decide_True by (rewrite length_app; simpl; lia).
  eapply Inv_core; [exact Hc|]. rewrite <- Hsub, <- Htodo.
  assert (charge t = res ∧ file_count t = 1) as [Hcharge Hcount].
  { rewrite <- (reserve_progress (pf_task pf)), Er in Hfile. cbn in Hfile. split.
    - rewrite Hch. destruct (pf_task pf); [by destruct Hfile; simplify_eq/=|done..].
    - unfold file_count. by destruct Hfile as [? ->]. }
  unfold kAsyncFileChunk in *.
  apply (append_inv s s1 t); try done; unfold s1; cbn; rewrite ?Hcharge, ?Hcount.
  all: rewrite ?u64_id by widlia; unfold kMaxPendingTasks, kMaxPendingFiles, kMaxPendingBytes; lia.
Qed.

(** ** Reachable states *)

(** [reachable s acc sub]: some sequence of calls leads from a new scheduler to
    [s], accepting the bytes [acc] and submitting the files [sub]. *)
Inductive reachable : WriteScheduler → bytes → list (Z * Z) → Prop :=
  | reach_new : reachable new_scheduler [] []
  | reach_memory s acc sub data :
      reachable s acc sub → ♯data <= INT64_MAX →
      reachable (enqueue_memory s data)
        (acc ++ accepted s (enqueue_memory s data) (MemoryWrite data 0)) sub
  | reach_file s acc sub pf accepting :
      reachable s acc sub → prepared_ok pf →
      reachable (enqueue_file s pf accepting)
        (acc ++ accepted s (enqueue_file s pf accepting) (pf_task pf))
        (sub ++ submitted (pf_task pf))
  | reach_writable s acc sub sys r :
      reachable s acc sub → sys_ok sys → reader_ok r →
      reachable (on_writable contents sys r s) acc sub
  | reach_read s acc sub sequence error data :
      reachable s acc sub → reply_ok s sequence error data →
      reachable (on_file_read s sequence error data) acc sub
  | reach_cancel s acc sub e :
      reachable s acc sub → e ≠ 0 → reachable (cancel_all s e) acc sub
  | reach_high_water s acc sub n s' :
      reachable s acc sub → set_high_water_mark s true n = Some s' → reachable s' acc sub.

Lemma reachable_inv s acc sub : reachable s acc sub → Inv s acc sub.
Proof.
  induction 1 as [|s acc sub data _ IH Hd|s acc sub pf acpt _ IH Hp|s acc sub sys r _ IH Hs Hr
    |s acc sub q e d _ IH Hd|s acc sub e _ IH He|s acc sub n s' _ IH Hset].
  - split; cbn; try done; set_solver.
  - by apply enqueue_memory_inv.
  - by apply enqueue_file_inv.
  - by apply on_writable_inv.
  - by apply on_file_read_inv.
  - by apply cancel_all_inv.
  - unfold set_high_water_mark in Hset. case_match; simplify_eq.
    eapply Inv_core; [|exact IH]. by split.
Qed.

(** C28. Ordered delivery: whatever the interleaving of submissions, partial
    writes, reader replies and failures, the bytes handed to the kernel are a
    prefix of the accepted data in order of acceptance, and as long as the
    scheduler is running nothing is lost or duplicated: what was sent followed
    by what is still queued is exactly what was accepted. *)
Theorem scheduler_fifo_stream s acc sub :
  reachable s acc sub →
  sent s `prefix_of` acc ∧ (_stopped s = false → sent s ++ (_writes s ≫= todo) = acc).
Proof. intros Hr. by destruct (reachable_inv _ _ _ Hr). Qed.

(** Bounded backlog: in every reachable state the byte account equals the
    charges of the queued tasks and stays within 1 MiB, at most 1024 tasks and
    64 files are queued, and a stopped scheduler holds nothing; so the unsigned
    subtractions of the admission checks never wrap. *)
Theorem scheduler_bounded s acc sub :
  reachable s acc sub →
  _pending_memory_bytes s = charges (_writes s) ∧ 0 <= _pending_memory_bytes s <= kMaxPendingBytes
  ∧ _pending_files s = files (_writes s) ∧ 0 <= _pending_files s <= kMaxPendingFiles
  ∧ ♯(_writes s) <= kMaxPendingTasks ∧ (_stopped s = true → _writes s = []).
Proof.
  intros Hr. pose proof (reachable_inv _ _ _ Hr) as Hi.
  pose proof (Inv_pending_bound _ _ _ Hi) as [Hb Hf]. destruct Hi. naive_solver.
Qed.

(** Every file callback fires exactly once: in every reachable state the
    callbacks already queued on the loop and those of the tasks still waiting
    are together the callbacks of all submitted files; a callback that reports
    success reports the full size; and cancelling leaves none waiting. *)
Theorem scheduler_callbacks_once s acc sub e :
  reachable s acc sub → e ≠ 0 →
  (notified s).*1.*1 ++ callbacks (_writes s) ≡ₚ sub.*1
  ∧ (∀ cb n, (cb, 0, n) ∈ notified s → (cb, n) ∈ sub)
  ∧ (notified (cancel_all s e)).*1.*1 ≡ₚ sub.*1.
Proof.
  intros Hr He. pose proof (reachable_inv _ _ _ Hr) as Hi.
  pose proof (cancel_all_inv s e acc sub He Hi) as Hc.
  destruct (cancel_all_spec s e) as (_ & Hw & _).
  split; [apply Hi|]. split; [apply Hi|]. destruct Hc as [_ _ _ _ _ _ _ Hn _ _].
  rewrite Hw in Hn. cbn in Hn. by rewrite app_nil_r in Hn.
Qed.
End Invariant.

(** ** Preparation *)

(** A file prepared with a truthful [fstat] is readable to its end. *)
Lemma prepare_file_ok contents source dup dup_errno stat offset count callback :
  (∀ r z, stat = inl (r, z) → z = ♯(contents dup) ∧ z <= INT64_MAX) → is_u64 count →
  dup_errno ≠ 0 → (∀ e, stat = inr e → e ≠ 0) →
  prepared_ok contents source (prepare_file (dup, dup_errno) stat offset count callback).
Proof.
  intros Hstat Hc Hde Hse. unfold prepare_file, prepared_ok, EINVAL.
  destruct (offset <? 0) eqn:E0; [split; [by eexists|done]|].
  destruct (dup =? -1); [split; [by eexists|done]|].
  destruct stat as [[r z]|e]; [|split; [by eexists|intros He; by destruct (Hse e)]].
  destruct (Hstat r z eq_refl) as [-> Hz]. pose proof (Zlen_nonneg (contents dup)).
  case_match eqn:E; [split; [by eexists|done]|]. split; [by eexists|]. intros _. cbn.
  ztests. unfold u64 in *. rewrite Z.mod_small in * by widlia.
  unfold progress_ok; cbn. split; [|lia]. split_and!; widlia.
Qed.

Lemma prepare_async_ok contents source offset count reader callback :
  is_i64 offset → is_u64 count → offset + count <= ♯(source reader) →
  prepared_ok contents source (prepare_async offset count (Some reader) callback).
Proof.
  intros Ho Hc Hlen. unfold prepare_async, prepared_ok, EINVAL, EOVERFLOW.
  case_match eqn:E; [split; [by eexists|done]|]. ztests.
  case_match eqn:E2; [split; [by eexists|done]|]. split; [by eexists|]. intros _. cbn. ztests.
  unfold u64 in *. rewrite Z.mod_small in * by widlia.
  unfold progress_ok, kAsyncFileChunk; cbn. change (♯[]) with 0.
  unfold reader_source; cbn. split_and!; done || widlia.
Qed.

(** ** Concrete runs *)

Definition demo_contents (fd : Z) : bytes := if fd =? 9 then [10; 11; 12; 13; 14] else [].
Definition demo_source (r : Z) : bytes := [].

(** A kernel that takes two bytes per call, three times, and then blocks. *)
Definition demo_sys (i : nat) (c : Z) : Z * Z :=
  if (61 <? Z.of_nat i) then (Z.min c 2, EAGAIN) else (-1, EAGAIN).

Definition demo_file : PreparedFile := prepare_file (9, EINVAL) (inl (true, 5)) 1 3 (Some 77).

Definition demo_queue : WriteScheduler :=
  enqueue_file (enqueue_memory new_scheduler [1; 2; 3]) demo_file true.
Definition demo_state : WriteScheduler := on_writable demo_contents demo_sys ReaderReturns demo_queue.

Lemma demo_sys_ok : sys_ok demo_sys.
Proof. intros i c Hc. unfold demo_sys. case_match; cbn; unfold EAGAIN; lia. Qed.

Lemma demo_reachable :
  reachable demo_contents demo_source demo_state [1; 2; 3; 11; 12; 13] [(77, 3)].
Proof.
  apply reach_writable; [|apply demo_sys_ok|done].
  apply (reach_file demo_contents demo_source (enqueue_memory new_scheduler [1; 2; 3])
    [1; 2; 3] [] demo_file true).
  - apply (reach_memory demo_contents demo_source new_scheduler [] [] [1; 2; 3]); [|by vm_compute].
    apply reach_new.
  - apply prepare_file_ok; [|by vm_compute|done|done]. intros r z [= <- <-]. by vm_compute.
Qed.

Lemma scheduler_fifo_stream_witness :
  sent demo_state = [1; 2; 3; 11; 12]
  ∧ sent demo_state `prefix_of` [1; 2; 3; 11; 12; 13]
  ∧ (_stopped demo_state = false →
     sent demo_state ++ (_writes demo_state ≫= todo demo_contents demo_source)
     = [1; 2; 3; 11; 12; 13]).
Proof.
  split; [vm_compute; reflexivity|].
  apply (scheduler_fifo_stream demo_contents demo_source demo_state _ [(77, 3)]).
  apply demo_reachable.
Defined.

Lemma scheduler_bounded_witness :
  _pending_memory_bytes demo_state = charges (_writes demo_state)
  ∧ 0 <= _pending_memory_bytes demo_state <= kMaxPendingBytes
  ∧ _pending_files demo_state = files (_writes demo_state)
  ∧ 0 <= _pending_files demo_state <= kMaxPendingFiles
  ∧ ♯(_writes demo_state) <= kMaxPendingTasks
  ∧ (_stopped demo_state = true → _writes demo_state = []).
Proof.
  apply (scheduler_bounded demo_contents demo_source demo_state [1; 2; 3; 11; 12; 13] [(77, 3)]).
  apply demo_reachable.
Defined.

Lemma scheduler_callbacks_once_witness :
  (notified demo_state).*1.*1 ++ callbacks (_writes demo_state) ≡ₚ [(77, 3)].*1
  ∧ (∀ cb n, (cb, 0, n) ∈ notified demo_state → (cb, n) ∈ [(77, 3)])
  ∧ (notified (cancel_all demo_state ECANCELED)).*1.*1 ≡ₚ [(77, 3)].*1.
Proof.
  apply (scheduler_callbacks_once demo_contents demo_source demo_state [1; 2; 3; 11; 12; 13]);
    [apply demo_reachable|done].
Defined.
