(* ===== verification/DList.v ===== *)
(** Doubly linked lists of cache nodes between two sentinels, as the ARC
    partitions build them ([inc/common/cache/arc_node.h] and the list functions
    of [inc/common/cache/arc_lru.h] and [inc/common/cache/arc_lfu.h]).

    A heap maps locations to nodes; a [std::shared_ptr] is a location, a null or
    expired pointer is [None]. Every [_prev] that the code locks points to a
    sentinel or to a node that is still in the list, which the list or the hash
    map keeps alive, so [lock()] reads the pointer. Functions that dereference
    pointers run in [option], [None] being a null dereference or a failed
    assertion. [dlist] says that a heap holds a given sequence of nodes, and the
    lemmas show that the pointer manipulations implement insertion at either end
    and removal. *)

From S2P Require Import Prelude.

Abbreviation loc := nat.

Record Node (K V : Type) := mkNode {
  _nkey : K;
  _nvalue : V;
  _access_count : Z;
  _prev : option loc;
  _next : option loc
}.
Arguments mkNode {K V}.
Arguments _nkey {K V}.
Arguments _nvalue {K V}.
Arguments _access_count {K V}.
Arguments _prev {K V}.
Arguments _next {K V}.

Section DList.
Context {K V : Type}.
Abbreviation Heap := (gmap loc (Node K V)).
Implicit Types (h : Heap) (l : list loc).

(** [ArcNode(key, value)] *)
Definition new_node (k : K) (v : V) : Node K V := mkNode k v 1 None None.

Definition set_next (h : Heap) (a : loc) (x : option loc) : option Heap :=
  n ← h !! a; Some (<[a := mkNode (_nkey n) (_nvalue n) (_access_count n) (_prev n) x]> h).
Definition set_prev (h : Heap) (a : loc) (x : option loc) : option Heap :=
  n ← h !! a; Some (<[a := mkNode (_nkey n) (_nvalue n) (_access_count n) x (_next n)]> h).
Definition set_value (h : Heap) (a : loc) (v : V) : option Heap :=
  n ← h !! a; Some (<[a := mkNode (_nkey n) v (_access_count n) (_prev n) (_next n)]> h).
Definition increment_access_count (h : Heap) (a : loc) : option Heap :=
  n ← h !! a;
  Some (<[a := mkNode (_nkey n) (_nvalue n) (u64 (_access_count n + 1)) (_prev n) (_next n)]> h).

(** Two sentinels linked to each other. *)
Definition init_list (k : K) (v : V) (head tail : loc) : Heap :=
  <[head := mkNode k v 1 None (Some tail)]> (<[tail := mkNode k v 1 (Some head) None]> ∅).

(** Insert a detached node behind the head sentinel. *)
Definition add_to_front (h : Heap) (head node : loc) : option Heap :=
  n ← h !! node; hd ← h !! head; first ← _next hd;
  if bool_decide (node = head) || bool_decide (is_Some (_next n)) || bool_decide (is_Some (_prev n))
  then None else
  h ← set_next h node (Some first);
  h ← set_prev h node (Some head);
  h ← set_prev h first (Some node);
  set_next h head (Some node).

(** Append a node in front of the tail sentinel. *)
Definition add_to_back (h : Heap) (tail node : loc) : option Heap :=
  h ← set_next h node (Some tail);
  tl ← h !! tail;
  h ← set_prev h node (_prev tl);
  h ← match _prev tl with Some last => set_next h last (Some node) | None => Some h end;
  set_prev h tail (Some node).

(** [remove_node]: the inner result is [false] when the node is not linked. *)
Definition remove_node (h : Heap) (node : loc) : option (bool * Heap) :=
  n ← h !! node;
  match _prev n, _next n with
  | Some prev, Some next =>
      pn ← h !! prev; nn ← h !! next;
      if bool_decide (_next pn ≠ Some node) || bool_decide (_prev nn ≠ Some node)
      then Some (false, h) else
      h ← set_next h prev (Some next);
      h ← set_prev h next (Some prev);
      h ← set_next h node None;
      h ← set_prev h node None;
      Some (true, h)
  | _, _ => Some (false, h)
  end.

(** ** Representation *)

Definition next_of h a : option loc := n ← h !! a; _next n.
Definition prev_of h a : option loc := n ← h !! a; _prev n.

Fixpoint chain h (l : list loc) : Prop :=
  match l with
  | a :: ((b :: _) as l') => next_of h a = Some b ∧ prev_of h b = Some a ∧ chain h l'
  | _ => True
  end.

(** The nodes [l] in order between the sentinels. *)
Record dlist h (head tail : loc) (l : list loc) : Prop := {
  dl_chain : chain h (head :: l ++ [tail]);
  dl_nodup : NoDup (head :: l ++ [tail]);
  dl_head : prev_of h head = None;
  dl_tail : next_of h tail = None
}.

(** A node outside the list, as [make_shared] or [remove_node] leaves it. *)
Definition detached h a : Prop :=
  is_Some (h !! a) ∧ prev_of h a = None ∧ next_of h a = None.

(** Payload of a node. *)
Definition payload h a : option (K * V * Z) :=
  n ← h !! a; Some (_nkey n, _nvalue n, _access_count n).

(** ** Frame properties of the field updates *)

Lemma set_next_spec h a x h' :
  set_next h a x = Some h' →
  (∀ b, next_of h' b = if decide (b = a) then x else next_of h b)
  ∧ (∀ b, prev_of h' b = prev_of h b) ∧ (∀ b, payload h' b = payload h b)
  ∧ (∀ b, is_Some (h' !! b) ↔ is_Some (h !! b)).
Proof.
  unfold set_next, next_of, prev_of, payload. destruct (h !! a) as [n|] eqn:Ha; [|done].
  intros [= <-].
  split; [|split; [|split]]; intros b; destruct (decide (b = a)) as [->|Hb];
    rewrite ?lookup_insert_eq, ?lookup_insert_ne, ?Ha by done; done || (split; eauto).
Qed.

Lemma set_prev_spec h a x h' :
  set_prev h a x = Some h' →
  (∀ b, prev_of h' b = if decide (b = a) then x else prev_of h b)
  ∧ (∀ b, next_of h' b = next_of h b) ∧ (∀ b, payload h' b = payload h b)
  ∧ (∀ b, is_Some (h' !! b) ↔ is_Some (h !! b)).
Proof.
  unfold set_prev, next_of, prev_of, payload. destruct (h !! a) as [n|] eqn:Ha; [|done].
  intros [= <-].
  split; [|split; [|split]]; intros b; destruct (decide (b = a)) as [->|Hb];
    rewrite ?lookup_insert_eq, ?lookup_insert_ne, ?Ha by done; done || (split; eauto).
Qed.

Lemma set_next_some h a x : is_Some (h !! a) → is_Some (set_next h a x).
Proof. intros [n Hn]. unfold set_next. rewrite Hn. by eexists. Qed.
Lemma set_prev_some h a x : is_Some (h !! a) → is_Some (set_prev h a x).
Proof. intros [n Hn]. unfold set_prev. rewrite Hn. by eexists. Qed.

(** ** Chains *)

Lemma chain_app h l a k : chain h (l ++ a :: k) ↔ chain h (l ++ [a]) ∧ chain h (a :: k).
Proof.
  induction l as [|b l IH]; cbn [app]; [cbn; tauto|].
  destruct l as [|c l]; cbn [app chain] in *; [tauto|]. rewrite IH. tauto.
Qed.

Lemma chain_cons2 h a b k :
  chain h (a :: b :: k) ↔ next_of h a = Some b ∧ prev_of h b = Some a ∧ chain h (b :: k).
Proof. done. Qed.

(** A chain depends on the [next] of all but its last node and on the [prev] of
    all but its first. *)
Lemma chain_ext h h' l :
  (∀ a l1 l2, l = l1 ++ a :: l2 → l2 ≠ [] → next_of h' a = next_of h a) →
  (∀ a l1 l2, l = l1 ++ a :: l2 → l1 ≠ [] → prev_of h' a = prev_of h a) →
  chain h l → chain h' l.
Proof.
  induction l as [|a l IH]; [done|]. destruct l as [|b l]; [done|].
  intros Hn Hp (H1 & H2 & H3). cbn [chain]. split; [|split].
  - by rewrite (Hn a [] (b :: l)).
  - by rewrite (Hp b [a] l).
  - apply IH; [| |done].
    + intros c l1 l2 He Hl. by apply (Hn c (a :: l1) l2); [rewrite He|].
    + intros c l1 l2 He Hl. by apply (Hp c (a :: l1) l2); [rewrite He|].
Qed.

(** The links outside a few nodes are unchanged. *)
Definition next_except h h' (l : list loc) : Prop := ∀ b, b ∉ l → next_of h' b = next_of h b.
Definition prev_except h h' (l : list loc) : Prop := ∀ b, b ∉ l → prev_of h' b = prev_of h b.

Lemma elem_of_split_tail (a : loc) l l1 l2 b : a :: l = l1 ++ b :: l2 → l1 ≠ [] → b ∈ l.
Proof. destruct l1 as [|c l1]; [done|]. intros [= -> ->] _. set_solver. Qed.
Lemma elem_of_split_init (a : loc) l l1 l2 b : l ++ [a] = l1 ++ b :: l2 → l2 ≠ [] → b ∈ l.
Proof.
  destruct l2 as [|c l2 _] using rev_ind; [done|]. intros He _.
  rewrite app_comm_cons, app_assoc in He. apply app_inj_tail in He as [-> _]. set_solver.
Qed.

Lemma chain_frame_tail h h' a l N P :
  next_except h h' N → prev_except h h' P → (∀ b, b ∈ a :: l → b ∉ N) →
  (∀ b, b ∈ l → b ∉ P) → chain h (a :: l) → chain h' (a :: l).
Proof.
  intros HN HP HNd HPd. apply chain_ext.
  - intros b l1 l2 He _. apply HN, HNd. rewrite He. set_solver.
  - intros b l1 l2 He Hl. by eapply HP, HPd, elem_of_split_tail.
Qed.

Lemma chain_frame_init h h' l a N P :
  next_except h h' N → prev_except h h' P → (∀ b, b ∈ l → b ∉ N) →
  (∀ b, b ∈ l ++ [a] → b ∉ P) → chain h (l ++ [a]) → chain h' (l ++ [a]).
Proof.
  intros HN HP HNd HPd. apply chain_ext.
  - intros b l1 l2 He Hl. by eapply HN, HNd, elem_of_split_init.
  - intros b l1 l2 He _. apply HP, HPd. rewrite He. set_solver.
Qed.

Lemma chain_middle h l a k b : chain h (l ++ a :: b :: k) → next_of h a = Some b ∧ prev_of h b = Some a.
Proof. rewrite chain_app. intros [_ (H1 & H2 & _)]. done. Qed.

Lemma next_of_some h a b : next_of h a = Some b → is_Some (h !! a).
Proof. unfold next_of. destruct (h !! a); [by eexists|done]. Qed.
Lemma prev_of_some h a b : prev_of h a = Some b → is_Some (h !! a).
Proof. unfold prev_of. destruct (h !! a); [by eexists|done]. Qed.

(** ** The list operations *)

(** Heaps that differ in links only. *)
Definition same_nodes h h' : Prop :=
  (∀ b, payload h' b = payload h b) ∧ (∀ b, is_Some (h' !! b) ↔ is_Some (h !! b)).

Lemma same_nodes_refl h : same_nodes h h.
Proof. by split. Qed.
Lemma same_nodes_trans h1 h2 h3 : same_nodes h1 h2 → same_nodes h2 h3 → same_nodes h1 h3.
Proof. intros [H1 H2] [H3 H4]. split; intros b; [by rewrite H3|by rewrite H4]. Qed.

(** Execute the next field update of a sequence. *)
Ltac field_update h' :=
  match goal with
  | |- context [set_next ?h ?a ?x] =>
      let E := fresh "E" in let Hn := fresh "Hn" in let Hp := fresh "Hp" in
      let Hpl := fresh "Hpl" in let Hd := fresh "Hd" in
      destruct (set_next h a x) as [h'|] eqn:E;
      [ apply set_next_spec in E as (Hn & Hp & Hpl & Hd); cbn [mbind option_bind]
      | exfalso; apply eq_None_not_Some in E; apply E, set_next_some ]
  | |- context [set_prev ?h ?a ?x] =>
      let E := fresh "E" in let Hn := fresh "Hn" in let Hp := fresh "Hp" in
      let Hpl := fresh "Hpl" in let Hd := fresh "Hd" in
      destruct (set_prev h a x) as [h'|] eqn:E;
      [ apply set_prev_spec in E as (Hp & Hn & Hpl & Hd); cbn [mbind option_bind]
      | exfalso; apply eq_None_not_Some in E; apply E, set_prev_some ]
  end.

Lemma add_to_front_links h head first n hd node :
  h !! node = Some n → _prev n = None → _next n = None → node ≠ head →
  h !! head = Some hd → _next hd = Some first → is_Some (h !! first) → node ≠ first →
  head ≠ first →
  ∃ h', add_to_front h head node = Some h' ∧ same_nodes h h'
    ∧ next_of h' head = Some node ∧ next_of h' node = Some first
    ∧ prev_of h' first = Some node ∧ prev_of h' node = Some head
    ∧ next_except h h' [head; node] ∧ prev_except h h' [first; node].
Proof.
  intros Hn Hnp Hnn N1 Ehd Hhf Hfs N2 N3. unfold add_to_front.
  rewrite Hn, Ehd. cbn [mbind option_bind]. rewrite Hhf, Hnn, Hnp. cbn [mbind option_bind].
  rewrite !bool_decide_false by (done || by intros [? ?]). cbn [orb].
  field_update h1; [|by eexists]. field_update h2; [|apply Hd; by eexists].
  field_update h3; [|apply Hd0, Hd; done].
  field_update h4; [|apply Hd1, Hd0, Hd; by eexists].
  exists h4. split; [done|]. split.
  { eapply same_nodes_trans; [|eapply same_nodes_trans; [|eapply same_nodes_trans]]; by split. }
  split_and!.
  - by rewrite Hn3, decide_True.
  - by rewrite Hn3, decide_False, Hn2, Hn1, Hn0, decide_True.
  - by rewrite Hp2, Hp1, decide_True.
  - by rewrite Hp2, Hp1, decide_False, Hp0, decide_True.
  - intros b Hb. by rewrite Hn3, decide_False, Hn2, Hn1, Hn0, decide_False by set_solver.
  - intros b Hb. by rewrite Hp2, Hp1, decide_False, Hp0, decide_False by set_solver.
Qed.

Lemma detached_frame h h' N P b :
  same_nodes h h' → next_except h h' N → prev_except h h' P → b ∉ N → b ∉ P →
  detached h b → detached h' b.
Proof.
  intros [_ Hs] HN HP H1 H2 (Hbs & Hbp & Hbn). split; [by apply Hs|].
  by rewrite HN, HP.
Qed.

Lemma add_to_front_spec h head tail l node :
  dlist h head tail l → detached h node → node ∉ head :: l ++ [tail] →
  ∃ h', add_to_front h head node = Some h' ∧ dlist h' head tail (node :: l)
    ∧ same_nodes h h'
    ∧ ∀ b, b ∉ head :: node :: l ++ [tail] → detached h b → detached h' b.
Proof.
  intros [Hch Hnd Hhd Htl] ([n Hn] & Hnp & Hnn) Hnin.
  assert (∃ first rest, l ++ [tail] = first :: rest) as (first & rest & Hl)
    by (destruct l; eauto).
  assert (tail ∈ first :: rest) as Ht by (rewrite <- Hl; set_solver).
  rewrite Hl in *. apply chain_cons2 in Hch as (Hhf & Hfh & Hch).
  pose proof (prev_of_some _ _ _ Hfh) as Hfs. unfold next_of in Hhf.
  destruct (h !! head) as [hd|] eqn:Ehd; [|done]. cbn [mbind option_bind] in Hhf.
  unfold prev_of in Hnp. unfold next_of in Hnn. rewrite Hn in Hnp, Hnn.
  assert (node ≠ head ∧ node ≠ first ∧ node ∉ rest) as (N1 & N2 & N3) by set_solver.
  apply NoDup_cons in Hnd as [Hhn Hnd]. assert (head ≠ first ∧ head ∉ rest) as [N4 N5] by set_solver.
  pose proof Hnd as [Hf _]%NoDup_cons.
  destruct (add_to_front_links h head first n hd node) as
    (h' & Hadd & Hsame & L1 & L2 & L3 & L4 & HN & HP); try done.
  exists h'. split; [done|]. split; [|split; [done|]].
  - split; cbn [app]; rewrite ?Hl.
    + rewrite !chain_cons2. split_and!; try done.
      apply (chain_frame_tail h h' first rest [head; node] [first; node]); set_solver.
    + repeat (apply NoDup_cons; split; [set_solver|]). by apply NoDup_cons in Hnd as [_ ?].
    + rewrite HP by set_solver. done.
    + rewrite HN by set_solver. done.
  - intros b Hb. apply (detached_frame h h' [head; node] [first; node]); set_solver.
Qed.

(** Removal of a node of the list. *)
Lemma remove_node_links h p node q :
  prev_of h node = Some p → next_of h node = Some q → next_of h p = Some node →
  prev_of h q = Some node → p ≠ node → q ≠ node → p ≠ q →
  ∃ h', remove_node h node = Some (true, h') ∧ same_nodes h h'
    ∧ next_of h' p = Some q ∧ prev_of h' q = Some p
    ∧ next_of h' node = None ∧ prev_of h' node = None
    ∧ next_except h h' [p; node] ∧ prev_except h h' [q; node].
Proof.
  intros Hp Hq Hpn Hqn N1 N2 N3.
  pose proof (next_of_some _ _ _ Hpn) as Sp. pose proof (prev_of_some _ _ _ Hqn) as Sq.
  pose proof (next_of_some _ _ _ Hq) as Sn.
  unfold remove_node. unfold prev_of in Hp, Hqn. unfold next_of in Hq, Hpn.
  destruct (h !! node) as [n|] eqn:En; [|done]. cbn [mbind option_bind] in *. rewrite Hp, Hq.
  destruct (h !! p) as [pn|] eqn:Ep; [|done]. destruct (h !! q) as [qn|] eqn:Eq; [|done].
  cbn [mbind option_bind] in *. rewrite !bool_decide_false by (intros Hx; by apply Hx).
  cbn [orb].
  field_update h1; [|by rewrite Ep]. field_update h2; [|apply Hd; by rewrite Eq].
  field_update h3; [|apply Hd0, Hd; by rewrite En].
  field_update h4; [|apply Hd1, Hd0, Hd; by rewrite En].
  exists h4. split; [done|]. split.
  { eapply same_nodes_trans; [|eapply same_nodes_trans; [|eapply same_nodes_trans]]; by split. }
  split_and!.
  - by rewrite Hn2, Hn1, decide_False, Hn0, Hn, decide_True.
  - by rewrite Hp3, decide_False, Hp2, Hp1, decide_True.
  - by rewrite Hn2, Hn1, decide_True.
  - by rewrite Hp3, decide_True.
  - intros b Hb. by rewrite Hn2, Hn1, decide_False, Hn0, Hn, decide_False by set_solver.
  - intros b Hb. by rewrite Hp3, decide_False, Hp2, Hp1, decide_False by set_solver.
Qed.

Lemma remove_node_spec h head tail l1 node l2 :
  dlist h head tail (l1 ++ node :: l2) →
  ∃ h', remove_node h node = Some (true, h') ∧ dlist h' head tail (l1 ++ l2)
    ∧ same_nodes h h' ∧ detached h' node
    ∧ ∀ b, b ∉ head :: (l1 ++ node :: l2) ++ [tail] → detached h b → detached h' b.
Proof.
  intros [Hch Hnd Hhd Htl].
  assert (∃ A p, head :: l1 = A ++ [p]) as (A & p & HA).
  { destruct l1 as [|x l1 _] using rev_ind; [by exists [], head|].
    exists (head :: l1), x. done. }
  assert (∃ q B, l2 ++ [tail] = q :: B) as (q & B & HB) by (destruct l2; eauto).
  assert (head :: (l1 ++ node :: l2) ++ [tail] = A ++ p :: node :: q :: B) as HL.
  { rewrite <- app_assoc. cbn [app]. rewrite HB, app_comm_cons, HA, <- app_assoc. done. }
  assert (head :: (l1 ++ l2) ++ [tail] = A ++ p :: q :: B) as HL'.
  { rewrite <- app_assoc, HB, app_comm_cons, HA, <- app_assoc. done. }
  rewrite HL in *.
  destruct (chain_middle _ _ _ _ _ Hch) as [Hpn Hnp].
  change (p :: node :: q :: B) with ([p] ++ node :: q :: B) in Hch. rewrite app_assoc in Hch.
  destruct (chain_middle _ _ _ _ _ Hch) as [Hnq Hqn].
  rewrite chain_app, <- app_assoc in Hch. destruct Hch as [HcA HcB].
  apply chain_cons2 in HcB as (_ & _ & HcB). cbn [app] in HcA. rewrite chain_app in HcA.
  destruct HcA as [HcA _].
  pose proof Hnd as (NA & NAB & NB)%NoDup_app.
  apply NoDup_cons in NB as [Np NB]. pose proof NB as [Nn NB']%NoDup_cons.
  pose proof NB' as [Nq _]%NoDup_cons.
  assert (∀ x, x ∈ A → x ≠ p ∧ x ≠ node ∧ x ≠ q ∧ x ∉ B) as HAout.
  { intros x Hx. specialize (NAB x Hx). set_solver. }
  assert (p ≠ node ∧ p ≠ q ∧ p ∉ B ∧ node ≠ q ∧ node ∉ B) as (N1 & N2 & N3 & N4 & N5) by set_solver.
  destruct (remove_node_links h p node q) as (h' & Hrm & Hs & L1 & L2 & L3 & L4 & HN & HP); try done.
  exists h'. split; [done|]. split; [|split; [done|split]].
  - assert (head ∈ A ++ [p]) as Hh by (rewrite <- HA; set_solver).
    assert (tail ∈ q :: B) as Ht by (rewrite <- HB; set_solver).
    split; rewrite ?HL'.
    + rewrite chain_app. split.
      * apply (chain_frame_init h h' A p [p; node] [q; node]); [done|done| | |done].
        -- intros x Hx. apply HAout in Hx. set_solver.
        -- intros x [Hx| ->%list_elem_of_singleton]%elem_of_app; [apply HAout in Hx|]; set_solver.
      * apply chain_cons2. split_and!; try done.
        apply (chain_frame_tail h h' q B [p; node] [q; node]); set_solver.
    + apply NoDup_app. split; [done|]. split; [intros x Hx; apply HAout in Hx; set_solver|].
      apply NoDup_cons. split; [set_solver|done].
    + rewrite HP; [done|]. apply elem_of_app in Hh as [Hh|Hh]; [apply HAout in Hh|]; set_solver.
    + rewrite HN; [done|]. set_solver.
  - split; [|done]. apply Hs. by eapply next_of_some.
  - intros b Hb. apply (detached_frame h h' [p; node] [q; node]); set_solver.
Qed.

(** Appending in front of the tail sentinel. *)
Lemma add_to_back_links h tail node last :
  is_Some (h !! node) → prev_of h tail = Some last → is_Some (h !! last) →
  node ≠ tail → node ≠ last → last ≠ tail →
  ∃ h', add_to_back h tail node = Some h' ∧ same_nodes h h'
    ∧ next_of h' node = Some tail ∧ prev_of h' node = Some last
    ∧ next_of h' last = Some node ∧ prev_of h' tail = Some node
    ∧ next_except h h' [last; node] ∧ prev_except h h' [tail; node].
Proof.
  intros Hn Htp Hl N1 N2 N3. pose proof (prev_of_some _ _ _ Htp) as Ht. unfold add_to_back.
  field_update h1; [|done]. destruct (proj2 (Hd tail) Ht) as [tl Htl]. rewrite Htl.
  cbn [mbind option_bind].
  assert (_prev tl = Some last) as Htlp.
  { rewrite <- Hp in Htp. unfold prev_of in Htp. by rewrite Htl in Htp. }
  rewrite Htlp. field_update h2; [|apply Hd; done].
  field_update h3; [|apply Hd0, Hd; done]. field_update h4; [|apply Hd1, Hd0, Hd; done].
  exists h4. split; [done|]. split.
  { eapply same_nodes_trans; [|eapply same_nodes_trans; [|eapply same_nodes_trans]]; by split. }
  split_and!.
  - by rewrite Hn3, Hn2, decide_False, Hn1, Hn0, decide_True.
  - by rewrite Hp2, decide_False, Hp1, Hp0, decide_True.
  - by rewrite Hn3, Hn2, decide_True.
  - by rewrite Hp2, decide_True.
  - intros b Hb. by rewrite Hn3, Hn2, decide_False, Hn1, Hn0, decide_False by set_solver.
  - intros b Hb. by rewrite Hp2, decide_False, Hp1, Hp0, decide_False by set_solver.
Qed.

Lemma add_to_back_spec h head tail l node :
  dlist h head tail l → detached h node → node ∉ head :: l ++ [tail] →
  ∃ h', add_to_back h tail node = Some h' ∧ dlist h' head tail (l ++ [node])
    ∧ same_nodes h h'
    ∧ ∀ b, b ∉ head :: node :: l ++ [tail] → detached h b → detached h' b.
Proof.
  intros [Hch Hnd Hhd Htl] (Hns & Hnp & Hnn) Hnin.
  assert (∃ A last, head :: l = A ++ [last]) as (A & last & HA).
  { destruct l as [|x l _] using rev_ind; [by exists [], head|]. by exists (head :: l), x. }
  assert (head :: l ++ [tail] = A ++ last :: [tail]) as HL.
  { rewrite app_comm_cons, HA, <- app_assoc. done. }
  assert (head ∈ A ++ [last]) as Hh by (rewrite <- HA; set_solver).
  rewrite HL in *. destruct (chain_middle _ _ _ _ _ Hch) as [Hlt Htp].
  rewrite chain_app in Hch. destruct Hch as [HcA _].
  pose proof Hnd as (NA & NAB & NB)%NoDup_app.
  assert (∀ x, x ∈ A → x ≠ last ∧ x ≠ tail ∧ x ≠ node) as HAout.
  { intros x Hx. specialize (NAB x Hx). set_solver. }
  assert (node ≠ last ∧ node ≠ tail ∧ last ≠ tail) as (N1 & N2 & N3).
  { apply NoDup_cons in NB as [Nl _]. set_solver. }
  destruct (add_to_back_links h tail node last) as (h' & Hadd & Hs & L1 & L2 & L3 & L4 & HN & HP);
    try done; [by eapply next_of_some|].
  exists h'. split; [done|]. split; [|split; [done|]].
  - assert (head :: (l ++ [node]) ++ [tail] = A ++ last :: [node; tail]) as HL'.
    { rewrite <- app_assoc. cbn [app]. rewrite app_comm_cons, HA, <- app_assoc. done. }
    split; rewrite ?HL'.
    + rewrite chain_app. split; [|by rewrite !chain_cons2].
      apply (chain_frame_init h h' A last [last; node] [tail; node]); [done|done| | |done].
      * intros x Hx. apply HAout in Hx. set_solver.
      * intros x [Hx| ->%list_elem_of_singleton]%elem_of_app; [apply HAout in Hx|]; set_solver.
    + apply NoDup_app. split; [done|]. split; [intros x Hx; apply HAout in Hx; set_solver|].
      repeat (apply NoDup_cons; split; [set_solver|]). apply NoDup_nil_2.
    + rewrite HP; [done|]. apply elem_of_app in Hh as [Hh|Hh]; [apply HAout in Hh|]; set_solver.
    + rewrite HN; [done|set_solver].
  - intros b Hb. assert (last ∈ head :: l) as Hlast by (rewrite HA; set_solver).
    apply (detached_frame h h' [last; node] [tail; node] b Hs HN HP); clear -Hb Hlast; set_solver.
Qed.

(** The node the tail sentinel points back to, and the one behind the head. *)
Lemma dlist_last h head tail l :
  dlist h head tail l → prev_of h tail = Some (default head (list.last l)).
Proof.
  intros [Hch _ _ _]. destruct l as [|x l _] using rev_ind.
  - by apply chain_cons2 in Hch as (_ & ? & _).
  - rewrite last_snoc. rewrite <- app_assoc, app_comm_cons in Hch.
    by destruct (chain_middle _ _ _ _ _ Hch) as [_ ?].
Qed.

Lemma dlist_first h head tail l :
  dlist h head tail l → next_of h head = Some (default tail (list.head l)).
Proof. intros [Hch _ _ _]. destruct l; by apply chain_cons2 in Hch as (? & _). Qed.

Lemma init_list_spec k v head tail :
  head ≠ tail → dlist (init_list k v head tail) head tail [].
Proof.
  intros Hne. unfold init_list.
  split; cbn [app]; rewrite ?chain_cons2; unfold next_of, prev_of;
    rewrite ?lookup_insert_eq, ?(lookup_insert_ne _ head tail), ?lookup_insert_eq by done; try done.
  repeat (apply NoDup_cons; split; [set_solver|]). apply NoDup_nil_2.
Qed.

(** Payload updates and allocation keep the links. *)
Lemma dlist_links h h' head tail l :
  (∀ b, b ∈ head :: l ++ [tail] → next_of h' b = next_of h b ∧ prev_of h' b = prev_of h b) →
  dlist h head tail l → dlist h' head tail l.
Proof.
  intros Hl [Hch Hnd Hhd Htl]. split.
  - eapply chain_ext; [| |exact Hch]; intros a l1 l2 He _; apply Hl; rewrite He; set_solver.
  - done.
  - rewrite (proj2 (Hl head ltac:(set_solver))). done.
  - rewrite (proj1 (Hl tail ltac:(set_solver))). done.
Qed.
End DList.

Lemma elem_of_key_removed {K} `{EqDecision K} (k x : K) (l : list K) :
  x ∈ filter (λ y, y ≠ k) l ↔ x ∈ l ∧ x ≠ k.
Proof. rewrite list_elem_of_filter. tauto. Qed.

Lemma filter_len_le {A} (P : A → Prop) `{!∀ x, Decision (P x)} l : Zlen (filter P l) <= Zlen l.
Proof. unfold Zlen. pose proof (length_filter P l). lia. Qed.

(** ** A list and its hash index *)

Section Indexed.
Context {K V : Type} `{Countable K}.
Abbreviation Heap := (gmap loc (Node K V)).
Implicit Types (h : Heap) (m : gmap K loc) (ns : list loc).

Definition key_of h n : option K := '(k, _, _) ← payload h n; Some k.

(** The entries of the nodes [ns], in order. *)
Definition view h ns : list (K * V * Z) := omap (payload h) ns.

(** Nodes of a heap with the hash index of their keys. *)
Record stored h m ns (fresh : loc) : Prop := {
  st_nodup : NoDup ns;
  st_alive : ∀ n, n ∈ ns → is_Some (h !! n);
  st_index : ∀ k n, m !! k = Some n ↔ n ∈ ns ∧ key_of h n = Some k;
  st_fresh : ∀ n, (fresh <= n)%nat → h !! n = None
}.

(** The same with the nodes linked in order. *)
Record indexed h m (head tail : loc) ns (fresh : loc) : Prop := {
  ix_list : dlist h head tail ns;
  ix_index : ∀ k n, m !! k = Some n ↔ n ∈ ns ∧ key_of h n = Some k;
  ix_fresh : ∀ n, (fresh <= n)%nat → h !! n = None
}.

Lemma chain_alive h l a : chain h l → (2 <= length l)%nat → a ∈ l → is_Some (h !! a).
Proof.
  revert a. induction l as [|x l IH]; intros a Hch Hlen Ha; [simpl in *; lia|].
  destruct l as [|y l]; [simpl in *; lia|]. apply chain_cons2 in Hch as (H1 & H2 & H3).
  apply elem_of_cons in Ha as [->|Ha]; [by eapply next_of_some|].
  destruct l as [|z l].
  - apply list_elem_of_singleton in Ha as ->. by eapply prev_of_some.
  - apply IH; [done|simpl; lia|done].
Qed.

Lemma dlist_alive h head tail ns a : dlist h head tail ns → a ∈ head :: ns ++ [tail] → is_Some (h !! a).
Proof.
  intros [Hch _ _ _] Ha. eapply chain_alive; [exact Hch| |exact Ha].
  rewrite length_cons, length_app. simpl. lia.
Qed.

Lemma indexed_fresh h m head tail ns fresh a :
  indexed h m head tail ns fresh → a ∈ head :: ns ++ [tail] → (a < fresh)%nat.
Proof.
  intros [Hl _ Hf] Ha. destruct (decide (a < fresh)%nat) as [|Hge]; [done|].
  pose proof (dlist_alive _ _ _ _ _ Hl Ha) as [x Hx]. rewrite Hf in Hx by lia. done.
Qed.

Lemma indexed_nodup h m head tail ns fresh : indexed h m head tail ns fresh → NoDup ns.
Proof. intros [[_ Hn _ _] _ _]. by apply NoDup_cons in Hn as [_ [? _]%NoDup_app]. Qed.

Lemma indexed_stored h m head tail ns fresh :
  indexed h m head tail ns fresh → stored h m ns fresh.
Proof.
  intros Hi. split; [by eapply indexed_nodup| |apply Hi|apply Hi].
  intros n Hn. eapply dlist_alive; [apply Hi|set_solver].
Qed.
#[local] Hint Resolve indexed_stored : core.

Lemma stored_payload h m ns fresh n :
  stored h m ns fresh → n ∈ ns → ∃ k v c, payload h n = Some (k, v, c) ∧ m !! k = Some n.
Proof.
  intros Hs Hn. destruct (st_alive _ _ _ _ Hs n Hn) as [x Hx].
  exists (_nkey x), (_nvalue x), (_access_count x).
  assert (payload h n = Some (_nkey x, _nvalue x, _access_count x)) as Hp
    by (unfold payload; by rewrite Hx).
  split; [done|]. apply Hs. split; [done|]. unfold key_of. by rewrite Hp.
Qed.

Lemma indexed_payload h m head tail ns fresh n :
  indexed h m head tail ns fresh → n ∈ ns →
  ∃ k v c, payload h n = Some (k, v, c) ∧ m !! k = Some n.
Proof. intros Hi. eapply stored_payload; eauto. Qed.

Lemma stored_view_length h m ns fresh : stored h m ns fresh → length (view h ns) = length ns.
Proof.
  intros Hi. assert (∀ n, n ∈ ns → is_Some (payload h n)) as Hp.
  { intros n Hn. destruct (stored_payload _ _ _ _ _ Hi Hn) as (k & v & c & -> & _). by eexists. }
  clear Hi. unfold view. induction ns as [|n ns IH]; [done|]. cbn.
  destruct (Hp n) as [e ->]; [set_solver|]. cbn. f_equal. apply IH. set_solver.
Qed.

Lemma view_length h m head tail ns fresh :
  indexed h m head tail ns fresh → length (view h ns) = length ns.
Proof. intros Hi. eapply stored_view_length; eauto. Qed.

Lemma index_size (f : loc → option K) m ns :
  NoDup ns → (∀ n, n ∈ ns → is_Some (f n)) →
  (∀ k n, m !! k = Some n ↔ n ∈ ns ∧ f n = Some k) → base.size m = length ns.
Proof.
  revert m. induction ns as [|n ns IH]; intros m Hnd Hf Hm.
  - apply map_size_empty_iff, map_empty. intros k. apply eq_None_not_Some. intros [n Hn].
    apply Hm in Hn as [Hn _]. set_solver.
  - apply NoDup_cons in Hnd as [Hn Hnd]. destruct (Hf n) as [k Hk]; [set_solver|].
    assert (m !! k = Some n) as Hmk by (apply Hm; set_solver).
    rewrite <- (insert_delete_id m k n) by done. rewrite map_size_insert_None
      by apply lookup_delete_eq. cbn. f_equal. apply IH; [done|set_solver|].
    intros k' n'. rewrite lookup_delete_Some, Hm. split.
    + intros [Hkk [Hin Hk']]. split; [|done]. apply elem_of_cons in Hin as [->|?]; congruence.
    + intros [Hin Hk']. split; [|split; [set_solver|done]]. intros <-.
      assert (m !! k = Some n') as Hmn by (apply Hm; split; [set_solver|done]).
      rewrite Hmk in Hmn. by simplify_eq.
Qed.

Lemma stored_size h m ns fresh : stored h m ns fresh → base.size m = length ns.
Proof.
  intros Hi. apply (index_size (key_of h)); [apply Hi| |apply Hi].
  intros n Hn. destruct (stored_payload _ _ _ _ _ Hi Hn) as (k & v & c & Hp & _).
  unfold key_of. rewrite Hp. by eexists.
Qed.

Lemma indexed_size h m head tail ns fresh :
  indexed h m head tail ns fresh → base.size m = length ns.
Proof. intros Hi. eapply stored_size; eauto. Qed.

Lemma same_nodes_view h h' ns : same_nodes h h' → view h' ns = view h ns.
Proof. intros [Hp _]. unfold view. induction ns as [|n ns IH]; [done|]. cbn. by rewrite Hp, IH. Qed.
Lemma same_nodes_key h h' n : same_nodes h h' → key_of h' n = key_of h n.
Proof. intros [Hp _]. unfold key_of. by rewrite Hp. Qed.
Lemma same_nodes_none h h' n : same_nodes h h' → h !! n = None → h' !! n = None.
Proof. intros [_ Hs] Hn. apply eq_None_not_Some. rewrite Hs, Hn. by intros [? ?]. Qed.

(** Unlinking a node and forgetting its key. *)
Lemma indexed_remove h m head tail l1 n l2 fresh k :
  indexed h m head tail (l1 ++ n :: l2) fresh → key_of h n = Some k →
  ∃ h', remove_node h n = Some (true, h') ∧ same_nodes h h' ∧ detached h' n
    ∧ dlist h' head tail (l1 ++ l2) ∧ indexed h' (delete k m) head tail (l1 ++ l2) fresh.
Proof.
  intros Hi Hk. pose proof (indexed_nodup _ _ _ _ _ _ Hi) as Hnd. destruct Hi as [Hl Hi Hf].
  destruct (remove_node_spec _ _ _ _ _ _ Hl) as (h' & Hr & Hl' & Hs & Hd & _).
  exists h'. do 4 (split; [done|]). split; [done| |].
  - intros k' n'. rewrite lookup_delete_Some, Hi, (same_nodes_key _ _ _ Hs).
    apply NoDup_app in Hnd as (_ & H12 & [Hn2 _]%NoDup_cons).
    assert (m !! k = Some n) as Hmk by (apply Hi; set_solver). split.
    + intros [Hkk [Hin Hk']]. split; [|done].
      assert (n' ≠ n) by (intros ->; congruence). set_solver.
    + intros [Hin Hk']. split; [|split; [set_solver|done]]. intros <-.
      assert (m !! k = Some n') as Hmn by (apply Hi; split; [set_solver|done]).
      rewrite Hmk in Hmn. simplify_eq. apply elem_of_app in Hin as [Hin|Hin]; [|done].
      apply (H12 n'); set_solver.
  - intros x Hx. by eapply same_nodes_none, Hf.
Qed.

(** Allocation of a new node. *)
Lemma indexed_alloc h m head tail ns fresh k v :
  indexed h m head tail ns fresh →
  let h1 := <[fresh := new_node k v]> h in
  dlist h1 head tail ns ∧ detached h1 fresh ∧ fresh ∉ head :: ns ++ [tail]
  ∧ (∀ n, n ≠ fresh → payload h1 n = payload h n)
  ∧ payload h1 fresh = Some (k, v, 1) ∧ (∀ n, (S fresh <= n)%nat → h1 !! n = None).
Proof.
  intros Hi. cbv zeta.
  assert (fresh ∉ head :: ns ++ [tail]) as Hnin.
  { intros Hin. pose proof (indexed_fresh _ _ _ _ _ _ _ Hi Hin). lia. }
  destruct Hi as [Hl Hx Hf]. split; [|split; [|split; [done|split; [|split]]]].
  - eapply dlist_links; [|exact Hl]. intros b Hb. unfold next_of, prev_of.
    by rewrite lookup_insert_ne by set_solver.
  - split; [rewrite lookup_insert_eq; by eexists|]. unfold prev_of, next_of.
    by rewrite lookup_insert_eq.
  - intros n Hn. unfold payload. by rewrite lookup_insert_ne.
  - unfold payload. by rewrite lookup_insert_eq.
  - intros n Hn. rewrite lookup_insert_ne by lia. apply Hf. lia.
Qed.

Lemma indexed_insert h h1 h' m head tail ns ns' fresh k v :
  indexed h m head tail ns fresh → h1 = <[fresh := new_node k v]> h → m !! k = None →
  dlist h' head tail ns' → same_nodes h1 h' → (∀ n, n ∈ ns' ↔ n = fresh ∨ n ∈ ns) →
  indexed h' (<[k := fresh]> m) head tail ns' (S fresh)
  ∧ payload h' fresh = Some (k, v, 1) ∧ (∀ n, n ∈ ns → payload h' n = payload h n).
Proof.
  intros Hi -> Hk Hl' Hs Hns'.
  destruct (indexed_alloc h m head tail ns fresh k v Hi) as (_ & _ & Hnin & Hp & Hpf & Hf).
  destruct Hi as [Hl Hx _].
  assert (∀ n, n ∈ ns → payload h' n = payload h n) as Hpn.
  { intros n Hn. destruct Hs as [-> _]. apply Hp. set_solver. }
  assert (payload h' fresh = Some (k, v, 1)) as Hpf' by (destruct Hs as [-> _]; done).
  split; [|done]. split; [done| |].
  - intros k' n'. rewrite lookup_insert_Some, Hx, Hns'. split.
    + intros [[<- <-]|[Hkk [Hin Hk']]].
      * split; [by left|]. unfold key_of. by rewrite Hpf'.
      * split; [by right|]. unfold key_of in *. by rewrite Hpn.
    + intros [[->|Hin] Hk'].
      * unfold key_of in Hk'. rewrite Hpf' in Hk'. cbn in Hk'. simplify_eq. by left.
      * right. unfold key_of in *. rewrite Hpn in Hk' by done. split; [|done].
        intros <-. assert (m !! k = Some n') as Hm by by apply Hx. by rewrite Hk in Hm.
  - intros n Hn. by eapply same_nodes_none, Hf.
Qed.

Lemma view_ext h h' ns : (∀ n, n ∈ ns → payload h' n = payload h n) → view h' ns = view h ns.
Proof.
  intros Hp. unfold view. induction ns as [|n ns IH]; [done|]. cbn.
  rewrite Hp, IH by set_solver. done.
Qed.

(** ** The list as entries *)

Definition ekey (e : K * V * Z) : K := e.1.1.

Fixpoint entry_find (k : K) (l : list (K * V * Z)) : option (V * Z) :=
  match l with
  | [] => None
  | (k', v, c) :: rest => if decide (k' = k) then Some (v, c) else entry_find k rest
  end.

Definition entry_remove (k : K) (l : list (K * V * Z)) : list (K * V * Z) :=
  filter (λ e, ekey e ≠ k) l.

Lemma entry_find_none k l : k ∉ ekey <$> l → entry_find k l = None.
Proof.
  induction l as [|[[k' v] c] l IH]; [done|]. rewrite fmap_cons, not_elem_of_cons.
  intros [Hk Hl]. cbn. rewrite decide_False by (intros ->; by apply Hk). by apply IH.
Qed.

Lemma entry_find_dom k l : is_Some (entry_find k l) ↔ k ∈ ekey <$> l.
Proof.
  induction l as [|[[k' v] c] l IH]; cbn.
  - split; [by intros [? ?]|set_solver].
  - rewrite elem_of_cons. case_decide as Hk; [split; [by left|by eexists]|]. rewrite IH.
    split; [by right|]. intros [->|?]; done.
Qed.

Lemma entry_find_app k a v c b :
  k ∉ ekey <$> a → entry_find k (a ++ (k, v, c) :: b) = Some (v, c).
Proof.
  induction a as [|[[k' v'] c'] a IH]; cbn; [by rewrite decide_True|].
  rewrite not_elem_of_cons. intros [Hk Hl]. rewrite decide_False by (intros ->; by apply Hk). by apply IH.
Qed.

Lemma entry_remove_none k l : k ∉ ekey <$> l → entry_remove k l = l.
Proof.
  unfold entry_remove. induction l as [|e l IH]; [done|]. rewrite fmap_cons, not_elem_of_cons.
  intros [Hk Hl]. rewrite filter_cons_True by congruence. by rewrite IH.
Qed.

Lemma entry_remove_app k a v c b :
  k ∉ ekey <$> a → k ∉ ekey <$> b → entry_remove k (a ++ (k, v, c) :: b) = a ++ b.
Proof.
  intros Ha Hb. unfold entry_remove. rewrite filter_app, filter_cons_False by (cbn; tauto).
  f_equal; by apply entry_remove_none.
Qed.

Lemma ekey_remove k l : ekey <$> entry_remove k l = filter (λ x, x ≠ k) (ekey <$> l).
Proof.
  unfold entry_remove. induction l as [|e l IH]; [done|]. rewrite fmap_cons, !filter_cons.
  repeat case_decide; by rewrite ?fmap_cons, IH.
Qed.

Lemma entry_remove_keys (k j : K) (l : list (K * V * Z)) :
  j ∈ ekey <$> entry_remove k l ↔ j ∈ ekey <$> l ∧ j ≠ k.
Proof. by rewrite ekey_remove, elem_of_key_removed. Qed.

Lemma view_app h a b : view h (a ++ b) = view h a ++ view h b.
Proof. apply omap_app. Qed.
Lemma view_cons h n l e : payload h n = Some e → view h (n :: l) = e :: view h l.
Proof. intros He. unfold view. cbn. by rewrite He. Qed.

Lemma elem_of_view_keys h ns k : k ∈ ekey <$> view h ns ↔ ∃ n, n ∈ ns ∧ key_of h n = Some k.
Proof.
  unfold view. rewrite list_elem_of_fmap. setoid_rewrite list_elem_of_omap. split.
  - intros ([[k' v] c] & -> & n & Hn & Hp). exists n. split; [done|]. unfold key_of. by rewrite Hp.
  - intros (n & Hn & Hk). unfold key_of in Hk.
    destruct (payload h n) as [[[k' v] c]|] eqn:Hp; [|done]. cbn in Hk. simplify_eq.
    exists (k, v, c). eauto.
Qed.

Lemma stored_dom h m ns fresh k :
  stored h m ns fresh → is_Some (m !! k) ↔ k ∈ ekey <$> view h ns.
Proof.
  intros [_ _ Hi _]. rewrite elem_of_view_keys. unfold is_Some. by setoid_rewrite Hi.
Qed.

Lemma stored_miss h m ns fresh k :
  stored h m ns fresh → m !! k = None → k ∉ ekey <$> view h ns.
Proof. intros Hi Hk. rewrite <- stored_dom by done. rewrite Hk. by intros [? ?]. Qed.

(** The place of an indexed key in the list. *)
Lemma stored_hit h m ns fresh k n :
  stored h m ns fresh → m !! k = Some n →
  ∃ l1 l2 v c, ns = l1 ++ n :: l2 ∧ payload h n = Some (k, v, c) ∧ key_of h n = Some k
    ∧ view h ns = view h l1 ++ (k, v, c) :: view h l2
    ∧ entry_find k (view h ns) = Some (v, c)
    ∧ entry_remove k (view h ns) = view h (l1 ++ l2).
Proof.
  intros Hix Hk. pose proof (st_nodup _ _ _ _ Hix) as Hnd.
  pose proof (st_index _ _ _ _ Hix) as Hi. pose proof Hk as [Hn Hkey]%Hi.
  destruct (stored_payload _ _ _ _ _ Hix Hn) as (k' & v & c & Hp & _).
  assert (k' = k) as -> by (unfold key_of in Hkey; rewrite Hp in Hkey; by simplify_eq/=).
  apply list_elem_of_split in Hn as (l1 & l2 & ->). exists l1, l2, v, c.
  rewrite view_app, (view_cons _ _ _ _ Hp).
  assert (∀ l, n ∉ l → (∀ x, x ∈ l → x ∈ l1 ++ n :: l2) → k ∉ ekey <$> view h l) as Hout.
  { intros l Hnl Hsub (x & Hx & Hxk)%elem_of_view_keys.
    assert (m !! k = Some x) as Hm by (apply Hi; auto). rewrite Hk in Hm. by simplify_eq. }
  apply NoDup_app in Hnd as (_ & H12 & [Hn2 _]%NoDup_cons).
  assert (n ∉ l1) as Hn1 by (intros Hx; apply (H12 n Hx); set_solver).
  rewrite entry_find_app, entry_remove_app, view_app by (apply Hout; set_solver). done.
Qed.

Lemma stored_keys_nodup h m ns fresh :
  stored h m ns fresh → NoDup (ekey <$> view h ns).
Proof.
  intros [Hnd _ Hi _].
  assert (∀ k n1 n2, n1 ∈ ns → n2 ∈ ns → key_of h n1 = Some k → key_of h n2 = Some k → n1 = n2) as Hinj.
  { intros k n1 n2 H1 H2 Hk1 Hk2. assert (m !! k = Some n1) by (by apply Hi).
    assert (m !! k = Some n2) by (by apply Hi). congruence. }
  clear Hi. induction ns as [|n ns IH]; [apply NoDup_nil_2|].
  apply NoDup_cons in Hnd as [Hn Hnd].
  destruct (payload h n) as [e|] eqn:Hp.
  - rewrite (view_cons _ _ _ _ Hp), fmap_cons. apply NoDup_cons. split.
    + intros (x & Hx & Hxk)%elem_of_view_keys.
      assert (key_of h n = Some (ekey e)) by (unfold key_of; rewrite Hp; by destruct e as [[? ?] ?]).
      assert (x = n) as -> by (eapply Hinj; set_solver). done.
    + apply IH; [done|]. intros. eapply Hinj; set_solver.
  - unfold view. cbn. rewrite Hp. apply IH; [done|]. intros. eapply Hinj; set_solver.
Qed.

Lemma indexed_dom h m head tail ns fresh k :
  indexed h m head tail ns fresh → is_Some (m !! k) ↔ k ∈ ekey <$> view h ns.
Proof. intros Hi. eapply stored_dom; eauto. Qed.

Lemma indexed_miss h m head tail ns fresh k :
  indexed h m head tail ns fresh → m !! k = None → k ∉ ekey <$> view h ns.
Proof. intros Hi. eapply stored_miss; eauto. Qed.

Lemma indexed_hit h m head tail ns fresh k n :
  indexed h m head tail ns fresh → m !! k = Some n →
  ∃ l1 l2 v c, ns = l1 ++ n :: l2 ∧ payload h n = Some (k, v, c) ∧ key_of h n = Some k
    ∧ view h ns = view h l1 ++ (k, v, c) :: view h l2
    ∧ entry_find k (view h ns) = Some (v, c)
    ∧ entry_remove k (view h ns) = view h (l1 ++ l2).
Proof. intros Hi. eapply stored_hit; eauto. Qed.

(** Updating the value or the access count of a node keeps the structure. *)
Lemma indexed_update h m head tail ns fresh n x x' :
  indexed h m head tail ns fresh → h !! n = Some x →
  _nkey x' = _nkey x → _prev x' = _prev x → _next x' = _next x →
  indexed (<[n := x']> h) m head tail ns fresh
  ∧ payload (<[n := x']> h) n = Some (_nkey x, _nvalue x', _access_count x')
  ∧ (∀ b, b ≠ n → payload (<[n := x']> h) b = payload h b).
Proof.
  intros [Hl Hi Hf] Hx Hk Hp Hn.
  assert (∀ b, key_of (<[n := x']> h) b = key_of h b) as Hkey.
  { intros b. unfold key_of, payload. destruct (decide (b = n)) as [->|].
    - by rewrite lookup_insert_eq, Hx; cbn; rewrite Hk.
    - by rewrite lookup_insert_ne. }
  split; [split|split].
  - eapply dlist_links; [|exact Hl]. intros b _. unfold next_of, prev_of.
    destruct (decide (b = n)) as [->|]; [rewrite lookup_insert_eq, Hx; cbn; by rewrite Hp, Hn|].
    by rewrite lookup_insert_ne.
  - intros k' n'. by rewrite Hkey.
  - intros b Hb. rewrite lookup_insert_ne; [by apply Hf|]. intros <-. by rewrite Hf in Hx.
  - unfold payload. by rewrite lookup_insert_eq; cbn; rewrite Hk.
  - intros b Hb. unfold payload. by rewrite lookup_insert_ne.
Qed.

(** Moving a node behind the head sentinel. *)
Lemma indexed_to_front h m head tail l1 n l2 fresh :
  indexed h m head tail (l1 ++ n :: l2) fresh →
  ∃ h1 h2, remove_node h n = Some (true, h1) ∧ add_to_front h1 head n = Some h2
    ∧ same_nodes h h2 ∧ indexed h2 m head tail (n :: l1 ++ l2) fresh.
Proof.
  intros [Hl Hi Hf]. pose proof (dl_nodup _ _ _ _ Hl) as Hnd.
  destruct (remove_node_spec _ _ _ _ _ _ Hl) as (h1 & Hr & Hl1 & Hs1 & Hd1 & _).
  assert (n ∉ head :: (l1 ++ l2) ++ [tail]) as Hn.
  { rewrite <- app_assoc in Hnd. cbn [app] in Hnd. rewrite app_comm_cons in Hnd.
    apply NoDup_app in Hnd as (_ & H12 & [Hn2 _]%NoDup_cons).
    assert (n ∉ head :: l1) by (intros Hx; apply (H12 n Hx); set_solver). set_solver. }
  destruct (add_to_front_spec _ _ _ _ _ Hl1 Hd1 Hn) as (h2 & Ha & Hl2 & Hs2 & _).
  exists h1, h2. pose proof (same_nodes_trans _ _ _ Hs1 Hs2) as Hs.
  do 3 (split; [done|]). split; [done| |].
  - intros k' n'. rewrite Hi, (same_nodes_key _ _ _ Hs). set_solver.
  - intros b Hb. by eapply same_nodes_none, Hf.
Qed.

Lemma entry_find_remove k j l :
  entry_find j (entry_remove k l) = if decide (j = k) then None else entry_find j l.
Proof.
  unfold entry_remove. induction l as [|[[k' v] c] l IH]; [by case_decide|].
  rewrite filter_cons. cbn [ekey fst entry_find].
  destruct (decide (k' ≠ k)) as [Hk|Hk]; cbn [entry_find]; rewrite ?IH.
  - case_decide; [subst|done]. by rewrite decide_False.
  - assert (k' = k) as -> by (by apply dec_stable). by repeat case_decide; subst.
Qed.

Lemma entry_find_prefix a b j w : entry_find j a = Some w → entry_find j (a ++ b) = Some w.
Proof.
  induction a as [|[[k v] c] a IH]; [done|]. cbn. case_decide; [done|]. apply IH.
Qed.

(** ** Nodes kept outside a linked list *)

Lemma stored_update h m ns fresh n x x' :
  stored h m ns fresh → h !! n = Some x → _nkey x' = _nkey x →
  stored (<[n := x']> h) m ns fresh
  ∧ payload (<[n := x']> h) n = Some (_nkey x, _nvalue x', _access_count x')
  ∧ (∀ b, b ≠ n → payload (<[n := x']> h) b = payload h b).
Proof.
  intros [Hn Ha Hi Hf] Hx Hk.
  assert (∀ b, key_of (<[n := x']> h) b = key_of h b) as Hkey.
  { intros b. unfold key_of, payload. destruct (decide (b = n)) as [->|].
    - by rewrite lookup_insert_eq, Hx; cbn; rewrite Hk.
    - by rewrite lookup_insert_ne. }
  split; [split|split].
  - done.
  - intros b Hb. destruct (decide (b = n)) as [->|]; [rewrite lookup_insert_eq; by eexists|].
    rewrite lookup_insert_ne by done. by apply Ha.
  - intros k' n'. by rewrite Hkey.
  - intros b Hb. rewrite lookup_insert_ne; [by apply Hf|]. intros <-. by rewrite Hf in Hx.
  - unfold payload. by rewrite lookup_insert_eq; cbn; rewrite Hk.
  - intros b Hb. unfold payload. by rewrite lookup_insert_ne.
Qed.

Lemma stored_perm h m ns ns' fresh : ns ≡ₚ ns' → stored h m ns fresh → stored h m ns' fresh.
Proof.
  intros Hp [Hn Ha Hi Hf]. split; [by rewrite <- Hp| | |done].
  - intros n. rewrite <- Hp. apply Ha.
  - intros k n. by rewrite Hi, Hp.
Qed.

Lemma stored_remove h m l1 n l2 fresh k :
  stored h m (l1 ++ n :: l2) fresh → key_of h n = Some k →
  stored h (delete k m) (l1 ++ l2) fresh ∧ n ∉ l1 ++ l2.
Proof.
  intros [Hn Ha Hi Hf] Hk. rewrite <- Permutation_middle in Hn. apply NoDup_cons in Hn as [Hnin Hn].
  split; [|done]. split; [done| | |done].
  - intros b Hb. apply Ha. set_solver.
  - assert (m !! k = Some n) as Hmk by (apply Hi; set_solver).
    intros k' n'. rewrite lookup_delete_Some, Hi. split.
    + intros [Hkk [Hin Hk']]. split; [|done]. assert (n' ≠ n) by (intros ->; congruence). set_solver.
    + intros [Hin Hk']. split; [|split; [set_solver|done]]. intros <-.
      assert (m !! k = Some n') as Hmn by (apply Hi; split; [set_solver|done]).
      rewrite Hmk in Hmn. by simplify_eq.
Qed.

Lemma stored_insert h m ns fresh k v :
  stored h m ns fresh → m !! k = None →
  let h' := <[fresh := new_node k v]> h in
  stored h' (<[k := fresh]> m) (ns ++ [fresh]) (S fresh)
  ∧ payload h' fresh = Some (k, v, 1) ∧ fresh ∉ ns
  ∧ (∀ b, b ≠ fresh → payload h' b = payload h b).
Proof.
  intros [Hn Ha Hi Hf] Hk. cbv zeta.
  assert (fresh ∉ ns) as Hnin.
  { intros Hin. apply Ha in Hin as [x Hx]. by rewrite Hf in Hx by lia. }
  assert (payload (<[fresh := new_node k v]> h) fresh = Some (k, v, 1)) as Hp
    by (unfold payload; by rewrite lookup_insert_eq).
  assert (∀ b, b ≠ fresh → payload (<[fresh := new_node k v]> h) b = payload h b) as Hpn
    by (intros b Hb; unfold payload; by rewrite lookup_insert_ne).
  split; [|done]. split.
  - apply NoDup_app. split; [done|]. split; [set_solver|]. apply NoDup_singleton.
  - intros b [Hb| ->%list_elem_of_singleton]%elem_of_app; [|rewrite lookup_insert_eq; by eexists].
    rewrite lookup_insert_ne by set_solver. by apply Ha.
  - intros k' n'. rewrite lookup_insert_Some, Hi, elem_of_app, list_elem_of_singleton. unfold key_of.
    split.
    + intros [[<- <-]|[Hkk [Hin Hk']]]; [rewrite Hp; split; [by right|done]|].
      rewrite Hpn by set_solver. split; [by left|done].
    + intros [[Hin| ->] Hk'].
      * rewrite Hpn in Hk' by set_solver. right. split; [|done]. intros <-.
        assert (m !! k = Some n') as Hm by by apply Hi. by rewrite Hk in Hm.
      * rewrite Hp in Hk'. cbn in Hk'. simplify_eq. by left.
  - intros b Hb. rewrite lookup_insert_ne by lia. apply Hf. lia.
Qed.
End Indexed.
