(* ===== verification/ArcPartition.v ===== *)
(** The interface between the ARC cache and its two partitions.

    [ArcCache] ([inc/common/cache/arc_cache.h]) talks to [ArcLru] and [ArcLfu]
    through the same few functions. [PartitionOps] names them and [Partition]
    states what the cache relies on, in terms of three observations of a
    partition: the resident entries, the keys with an eviction history, and the
    capacity. [ArcLru] and [ArcLfu] provide instances; the theorems on the cache
    are proved from the interface alone. *)

From S2P Require Import Prelude.
#[local] Open Scope tlss_scope.

Class PartitionOps (K V P : Type) := {
  p_put : P → K → V → option (bool * P);
  p_get : P → K → option (option V * bool * P);  (* value, promotion advice *)
  p_contain : P → K → bool;
  p_invalidate : P → K → option (bool * P);
  p_check_ghost : P → K → option (bool * P);
  p_increase_capacity : P → P;
  p_decrease_capacity : P → option (bool * P)
}.

Section Interface.
Context {K V : Type} `{Countable K}.

(** The entries of [p'] other than that of [k] were already in [p], and its ghosts
    are ghosts or former entries of [p]. *)
Definition shrinks_to (e e' : gmap K V) (g g' : gset K) (k : option K) : Prop :=
  (∀ j w, Some j ≠ k → e' !! j = Some w → e !! j = Some w)
  ∧ (∀ j, j ∈ g' → j ∈ g ∨ is_Some (e !! j)).

Class Partition (P : Type) `{!PartitionOps K V P} := {
  p_inv : P → Prop;
  p_entries : P → gmap K V;
  p_ghosts : P → gset K;
  p_capacity : P → Z;
  p_bound p : p_inv p → is_u64 (p_capacity p) ∧ Z.of_nat (size (p_entries p)) <= p_capacity p;
  p_disjoint p k : p_inv p → k ∈ p_ghosts p → p_entries p !! k = None;
  p_contain_law p k : p_inv p → p_contain p k = bool_decide (is_Some (p_entries p !! k));
  p_put_none p k v : p_inv p → p_capacity p = 0 → p_put p k v = Some (false, p);
  p_put_law p k v : p_inv p → p_capacity p ≠ 0 →
    ∃ p', p_put p k v = Some (true, p') ∧ p_inv p' ∧ p_capacity p' = p_capacity p
      ∧ p_entries p' !! k = Some v
      ∧ shrinks_to (p_entries p) (p_entries p') (p_ghosts p) (p_ghosts p') (Some k)
      ∧ (is_Some (p_entries p !! k) ∨ Z.of_nat (size (p_entries p)) < p_capacity p →
         ∀ j, j ≠ k → p_entries p' !! j = p_entries p !! j);
  p_get_law p k : p_inv p →
    ∃ advice p', p_get p k = Some (p_entries p !! k, advice, p') ∧ p_inv p'
      ∧ p_capacity p' = p_capacity p ∧ p_entries p' = p_entries p ∧ p_ghosts p' = p_ghosts p
      ∧ (p_entries p !! k = None → advice = false);
  p_invalidate_law p k : p_inv p →
    ∃ p', p_invalidate p k
          = Some (bool_decide (is_Some (p_entries p !! k)) || bool_decide (k ∈ p_ghosts p), p')
      ∧ p_inv p' ∧ p_capacity p' = p_capacity p
      ∧ p_entries p' = delete k (p_entries p) ∧ p_ghosts p' = p_ghosts p ∖ {[k]};
  p_check_ghost_law p k : p_inv p →
    ∃ p', p_check_ghost p k = Some (bool_decide (k ∈ p_ghosts p), p') ∧ p_inv p'
      ∧ p_capacity p' = p_capacity p
      ∧ p_entries p' = p_entries p ∧ p_ghosts p' = p_ghosts p ∖ {[k]};
  p_increase_law p : p_inv p → p_capacity p + 1 < 2 ^ 64 →
    let p' := p_increase_capacity p in
    p_inv p' ∧ p_capacity p' = p_capacity p + 1
    ∧ p_entries p' = p_entries p ∧ p_ghosts p' = p_ghosts p;
  p_decrease_none p : p_inv p → p_capacity p = 0 → p_decrease_capacity p = Some (false, p);
  p_decrease_law p : p_inv p → p_capacity p ≠ 0 →
    ∃ p', p_decrease_capacity p = Some (true, p') ∧ p_inv p' ∧ p_capacity p' = p_capacity p - 1
      ∧ shrinks_to (p_entries p) (p_entries p') (p_ghosts p) (p_ghosts p') None
}.

(** The recency partition can also give up an entry without recording it. *)
Class Demoting (P : Type) `{Partition P} := {
  p_erase : P → K → option (bool * P);
  p_erase_law p k : p_inv p →
    ∃ p', p_erase p k = Some (bool_decide (is_Some (p_entries p !! k)), p') ∧ p_inv p'
      ∧ p_capacity p' = p_capacity p
      ∧ p_entries p' = delete k (p_entries p) ∧ p_ghosts p' = p_ghosts p
}.
End Interface.
