(* ===== verification/ArcLru.v ===== *)
(** The recency partition of the ARC cache ([inc/common/cache/arc_lru.h]).

    The model keeps the code's structures: a hash map from keys to nodes, a
    doubly linked list of nodes between two sentinels with the most recently used
    node in front, and the same pair for the ghost history, whose nodes carry no
    value. Sentinels are locations 0 and 1 of their heap; new nodes take the next
    unused location. Every public function holds the partition's mutex and is one
    transition. [LruSpec] is the abstract partition: the entries from most to
    least recently used and the ghost keys from newest to oldest; [lru_rep] links
    the two and every operation is proved to simulate its specification. *)

From S2P Require Import Prelude DList ArcPartition.
#[local] Open Scope tlss_scope.

Section Lru.
Context {K V : Type} `{Countable K} `{!Inhabited K} `{!Inhabited V}.

Record ArcLru := mkLru {
  _capacity : Z;
  _ghost_capacity : Z;
  _transform_threshold : Z;
  _main_cache : gmap K loc;
  _ghost_cache : gmap K loc;
  _main_heap : gmap loc (Node K V);
  _ghost_heap : gmap loc (Node K unit);
  _main_fresh : loc;
  _ghost_fresh : loc
}.

Definition HEAD : loc := 0.
Definition TAIL : loc := 1.

Definition new_lru (cap trans ghost_cap : Z) : ArcLru :=
  mkLru cap ghost_cap trans ∅ ∅ (init_list inhabitant inhabitant HEAD TAIL)
    (init_list inhabitant tt HEAD TAIL) 2 2.

Definition set_main (c : ArcLru) (cache : gmap K loc) (h : gmap loc (Node K V)) : ArcLru :=
  mkLru (_capacity c) (_ghost_capacity c) (_transform_threshold c) cache (_ghost_cache c) h
    (_ghost_heap c) (_main_fresh c) (_ghost_fresh c).
Definition set_ghost (c : ArcLru) (cache : gmap K loc) (h : gmap loc (Node K unit)) : ArcLru :=
  mkLru (_capacity c) (_ghost_capacity c) (_transform_threshold c) (_main_cache c) cache
    (_main_heap c) h (_main_fresh c) (_ghost_fresh c).
Definition set_capacity (c : ArcLru) (cap : Z) : ArcLru :=
  mkLru cap (_ghost_capacity c) (_transform_threshold c) (_main_cache c) (_ghost_cache c)
    (_main_heap c) (_ghost_heap c) (_main_fresh c) (_ghost_fresh c).

(** [std::make_shared<NodeType>(key, value)] *)
Definition make_main (c : ArcLru) (k : K) (v : V) : loc * ArcLru :=
  let node := _main_fresh c in
  (node, mkLru (_capacity c) (_ghost_capacity c) (_transform_threshold c) (_main_cache c)
     (_ghost_cache c) (<[node := new_node k v]> (_main_heap c)) (_ghost_heap c)
     (S node) (_ghost_fresh c)).
Definition make_ghost (c : ArcLru) (k : K) : loc * ArcLru :=
  let node := _ghost_fresh c in
  (node, mkLru (_capacity c) (_ghost_capacity c) (_transform_threshold c) (_main_cache c)
     (_ghost_cache c) (_main_heap c) (<[node := new_node k tt]> (_ghost_heap c))
     (_main_fresh c) (S node)).

Definition cache_size {A} (m : gmap K A) : Z := Z.of_nat (base.size m).

Definition erase_ghost (c : ArcLru) (key : K) : option (bool * ArcLru) :=
  match _ghost_cache c !! key with
  | None => Some (false, c)
  | Some node =>
      '(_, h) ← remove_node (_ghost_heap c) node;
      Some (true, set_ghost c (delete key (_ghost_cache c)) h)
  end.

Definition remove_from_main (c : ArcLru) (node : loc) : option ArcLru :=
  '(_, h) ← remove_node (_main_heap c) node;
  Some (set_main c (_main_cache c) h).

Definition move_to_front (h : gmap loc (Node K V)) (node : loc) : option (gmap loc (Node K V)) :=
  '(removed, h) ← remove_node h node;
  if negb removed then Some h else add_to_front h HEAD node.

Definition update_existing_node (c : ArcLru) (node : loc) (value : V) : option (bool * ArcLru) :=
  h ← set_value (_main_heap c) node value;
  h ← move_to_front h node;
  Some (true, set_main c (_main_cache c) h).

Definition remove_oldest_ghost (c : ArcLru) : option ArcLru :=
  tail ← _ghost_heap c !! TAIL;
  match _prev tail with
  | None => Some c
  | Some oldest =>
      if bool_decide (oldest = HEAD) then Some c else
      '(_, h) ← remove_node (_ghost_heap c) oldest;
      n ← h !! oldest;
      Some (set_ghost c (delete (_nkey n) (_ghost_cache c)) h)
  end.

Definition add_to_ghost (c : ArcLru) (evicted : loc) : option (bool * ArcLru) :=
  head ← _ghost_heap c !! HEAD;
  if bool_decide (_next head = None) || (_ghost_capacity c =? 0) then Some (false, c) else
  e ← _main_heap c !! evicted;
  if bool_decide (is_Some (_next e)) || bool_decide (is_Some (_prev e)) then Some (false, c) else
  let '(node, c) := make_ghost c (_nkey e) in
  match _ghost_cache c !! _nkey e with
  | Some _ => Some (false, c)
  | None =>
      let cache := <[_nkey e := node]> (_ghost_cache c) in
      h ← add_to_front (_ghost_heap c) HEAD node;
      Some (true, set_ghost c cache h)
  end.

Definition evict_least_recent (c : ArcLru) : option ArcLru :=
  tail ← _main_heap c !! TAIL;
  match _prev tail with
  | None => Some c
  | Some least_recent =>
      if bool_decide (least_recent = HEAD) then Some c else
      c ← remove_from_main c least_recent;
      c ← (if _ghost_capacity c <=? cache_size (_ghost_cache c)
           then remove_oldest_ghost c else Some c);
      '(_, c) ← add_to_ghost c least_recent;
      n ← _main_heap c !! least_recent;
      Some (set_main c (delete (_nkey n) (_main_cache c)) (_main_heap c))
  end.

Definition add_new_node (c : ArcLru) (key : K) (value : V) : option (bool * ArcLru) :=
  c ← (if _capacity c <=? cache_size (_main_cache c) then evict_least_recent c else Some c);
  let '(node, c) := make_main c key value in
  let cache := <[key := node]> (_main_cache c) in
  h ← add_to_front (_main_heap c) HEAD node;
  Some (true, set_main c cache h).

Definition update_node_access (c : ArcLru) (node : loc) : option (bool * ArcLru) :=
  h ← move_to_front (_main_heap c) node;
  h ← increment_access_count h node;
  n ← h !! node;
  Some (_transform_threshold c <=? _access_count n, set_main c (_main_cache c) h).

Definition lru_put (c : ArcLru) (key : K) (value : V) : option (bool * ArcLru) :=
  if _capacity c =? 0 then Some (false, c) else
  match _main_cache c !! key with
  | Some node => update_existing_node c node value
  | None => '(_, c) ← erase_ghost c key; add_new_node c key value
  end.

(** The value read, or [None], with [should_Transform]. *)
Definition lru_get (c : ArcLru) (key : K) : option (option V * bool * ArcLru) :=
  match _main_cache c !! key with
  | Some node =>
      '(should_transform, c) ← update_node_access c node;
      n ← _main_heap c !! node;
      Some (Some (_nvalue n), should_transform, c)
  | None => Some (None, false, c)
  end.

Definition lru_contain (c : ArcLru) (key : K) : bool := bool_decide (is_Some (_main_cache c !! key)).

Definition lru_erase (c : ArcLru) (key : K) : option (bool * ArcLru) :=
  match _main_cache c !! key with
  | None => Some (false, c)
  | Some node =>
      c ← remove_from_main c node;
      Some (true, set_main c (delete key (_main_cache c)) (_main_heap c))
  end.

Definition lru_invalidate (c : ArcLru) (key : K) : option (bool * ArcLru) :=
  '(removed, c) ← match _main_cache c !! key with
                  | Some node =>
                      c ← remove_from_main c node;
                      Some (true, set_main c (delete key (_main_cache c)) (_main_heap c))
                  | None => Some (false, c)
                  end;
  '(ghost_removed, c) ← erase_ghost c key;
  Some (removed || ghost_removed, c).

Definition lru_check_ghost (c : ArcLru) (key : K) : option (bool * ArcLru) := erase_ghost c key.

Definition lru_increase_capacity (c : ArcLru) : ArcLru := set_capacity c (u64 (_capacity c + 1)).

(** [while (_main_cache.size() > _capacity)], on fuel. *)
Fixpoint lru_shrink (fuel : nat) (c : ArcLru) : option ArcLru :=
  match fuel with
  | O => None
  | S n =>
      if _capacity c <? cache_size (_main_cache c)
      then c ← evict_least_recent c; lru_shrink n c else Some c
  end.

Definition lru_decrease_capacity (c : ArcLru) : option (bool * ArcLru) :=
  if _capacity c =? 0 then Some (false, c) else
  let c := set_capacity c (_capacity c - 1) in
  c ← lru_shrink (S (base.size (_main_cache c))) c;
  Some (true, c).


(** ** The abstract partition *)

Record LruSpec := mkLruSpec {
  sp_capacity : Z;
  sp_ghost_capacity : Z;
  sp_threshold : Z;
  sp_main : list (K * V * Z);  (* most recently used first *)
  sp_ghosts : list K           (* newest first *)
}.

Definition sp_with (s : LruSpec) (main : list (K * V * Z)) (ghosts : list K) : LruSpec :=
  mkLruSpec (sp_capacity s) (sp_ghost_capacity s) (sp_threshold s) main ghosts.

(** The least recently used entry leaves and its key becomes the newest ghost. *)
Definition sp_evict (s : LruSpec) : LruSpec :=
  match last (sp_main s) with
  | None => s
  | Some (k, _, _) =>
      sp_with s (take (pred (length (sp_main s))) (sp_main s))
        (take (Z.to_nat (sp_ghost_capacity s)) (k :: sp_ghosts s))
  end.

Definition sp_forget (s : LruSpec) (k : K) : bool * LruSpec :=
  (bool_decide (k ∈ sp_ghosts s), sp_with s (sp_main s) (filter (λ x, x ≠ k) (sp_ghosts s))).

Definition sp_put (s : LruSpec) (k : K) (v : V) : bool * LruSpec :=
  if sp_capacity s =? 0 then (false, s) else
  match entry_find k (sp_main s) with
  | Some (_, n) => (true, sp_with s ((k, v, n) :: entry_remove k (sp_main s)) (sp_ghosts s))
  | None =>
      let s1 := (sp_forget s k).2 in
      let s2 := if sp_capacity s <=? Zlen (sp_main s) then sp_evict s1 else s1 in
      (true, sp_with s2 ((k, v, 1) :: sp_main s2) (sp_ghosts s2))
  end.

Definition sp_get (s : LruSpec) (k : K) : option V * bool * LruSpec :=
  match entry_find k (sp_main s) with
  | Some (v, n) =>
      (Some v, sp_threshold s <=? u64 (n + 1),
       sp_with s ((k, v, u64 (n + 1)) :: entry_remove k (sp_main s)) (sp_ghosts s))
  | None => (None, false, s)
  end.

Definition sp_contain (s : LruSpec) (k : K) : bool := bool_decide (k ∈ ekey <$> sp_main s).

Definition sp_erase (s : LruSpec) (k : K) : bool * LruSpec :=
  (sp_contain s k, sp_with s (entry_remove k (sp_main s)) (sp_ghosts s)).

Definition sp_invalidate (s : LruSpec) (k : K) : bool * LruSpec :=
  let '(removed, s) := sp_erase s k in
  let '(ghost_removed, s) := sp_forget s k in (removed || ghost_removed, s).

Definition sp_resize (s : LruSpec) (cap : Z) : LruSpec :=
  mkLruSpec cap (sp_ghost_capacity s) (sp_threshold s) (sp_main s) (sp_ghosts s).

Definition sp_increase (s : LruSpec) : LruSpec := sp_resize s (u64 (sp_capacity s + 1)).

Definition sp_decrease (s : LruSpec) : bool * LruSpec :=
  if sp_capacity s =? 0 then (false, s) else
  let s := sp_resize s (sp_capacity s - 1) in
  (true, if sp_capacity s <? Zlen (sp_main s) then sp_evict s else s).

Definition sp_new (cap trans ghost_cap : Z) : LruSpec := mkLruSpec cap ghost_cap trans [] [].

(** The partition's promise: bounded, at most one entry per key, and no key that
    is both resident and a ghost. *)
Record sp_ok (s : LruSpec) : Prop := {
  ok_ghost_bound : Zlen (sp_ghosts s) <= sp_ghost_capacity s;
  ok_keys : NoDup (ekey <$> sp_main s);
  ok_ghosts : NoDup (sp_ghosts s);
  ok_disjoint : ∀ k, k ∈ ekey <$> sp_main s → k ∉ sp_ghosts s
}.
Record sp_wf (s : LruSpec) : Prop := {
  wf_capacity : is_u64 (sp_capacity s);
  wf_bound : Zlen (sp_main s) <= sp_capacity s;
  wf_ok : sp_ok s
}.

(** ** The representation *)

Record ghost_nodes (c : ArcLru) (ghosts : list K) (gs : list loc) : Prop := {
  gn_index : indexed (_ghost_heap c) (_ghost_cache c) HEAD TAIL gs (_ghost_fresh c);
  gn_keys : ekey <$> view (_ghost_heap c) gs = ghosts
}.

Record lru_nodes (c : ArcLru) (s : LruSpec) (ns gs : list loc) : Prop := {
  ln_main : indexed (_main_heap c) (_main_cache c) HEAD TAIL ns (_main_fresh c);
  ln_entries : view (_main_heap c) ns = sp_main s;
  ln_ghost : ghost_nodes c (sp_ghosts s) gs;
  ln_capacity : _capacity c = sp_capacity s;
  ln_ghost_capacity : _ghost_capacity c = sp_ghost_capacity s;
  ln_threshold : _transform_threshold c = sp_threshold s
}.

(** States that differ in the ghost history only. *)
Definition same_main (c c' : ArcLru) : Prop :=
  c' = mkLru (_capacity c) (_ghost_capacity c) (_transform_threshold c) (_main_cache c)
         (_ghost_cache c') (_main_heap c) (_ghost_heap c') (_main_fresh c) (_ghost_fresh c').

Definition lru_rep (c : ArcLru) (s : LruSpec) : Prop := ∃ ns gs, lru_nodes c s ns gs.

Lemma new_lru_rep cap trans ghost_cap : lru_rep (new_lru cap trans ghost_cap) (sp_new cap trans ghost_cap).
Proof.
  assert (∀ W (w : W), indexed (init_list (inhabitant : K) w HEAD TAIL) ∅ HEAD TAIL [] 2) as Hi.
  { intros W w. split.
    - by apply init_list_spec.
    - intros k n. rewrite lookup_empty. set_solver.
    - intros n Hn. unfold init_list, HEAD, TAIL. rewrite !lookup_insert_ne by lia. apply lookup_empty. }
  exists [], []. split; cbn; try done; [apply Hi|]. split; [apply Hi|done].
Qed.

Lemma lru_main_size c s ns gs :
  lru_nodes c s ns gs → cache_size (_main_cache c) = Zlen (sp_main s).
Proof.
  intros [Hm He _ _ _ _]. unfold cache_size, Zlen.
  by rewrite (indexed_size _ _ _ _ _ _ Hm), <- He, (view_length _ _ _ _ _ _ Hm).
Qed.

Lemma ghost_size c g gs : ghost_nodes c g gs → cache_size (_ghost_cache c) = Zlen g.
Proof.
  intros [Hg He]. unfold cache_size, Zlen.
  by rewrite (indexed_size _ _ _ _ _ _ Hg), <- He, length_fmap, (view_length _ _ _ _ _ _ Hg).
Qed.

Lemma lru_nodes_ghost c c' s ns gs g' gs' :
  lru_nodes c s ns gs → same_main c c' → ghost_nodes c' g' gs' →
  lru_nodes c' (sp_with s (sp_main s) g') ns gs'.
Proof. intros [Hm He _ Hc Hgc Ht] Hsm Hg. rewrite Hsm in *. by split. Qed.

(** ** Simulation of the operations *)

Lemma erase_ghost_sim c g gs key :
  ghost_nodes c g gs →
  ∃ c' gs', erase_ghost c key = Some (bool_decide (key ∈ g), c') ∧ same_main c c'
    ∧ ghost_nodes c' (filter (λ x, x ≠ key) g) gs'.
Proof.
  intros [Hg Hgk]. unfold erase_ghost.
  destruct (_ghost_cache c !! key) as [n|] eqn:Hk.
  - destruct (indexed_hit _ _ _ _ _ _ _ _ Hg Hk) as (l1 & l2 & v & x & -> & Hp & Hkey & Hv & Hf & Hrm).
    destruct (indexed_remove _ _ _ _ _ _ _ _ _ Hg Hkey) as (h' & Hr & Hs & _ & _ & Hg').
    rewrite Hr. cbn [mbind option_bind]. eexists _, (l1 ++ l2). split.
    { rewrite bool_decide_true; [done|]. rewrite <- Hgk, Hv, fmap_app. set_solver. }
    split; [done|]. split; [done|]. cbn [set_ghost _ghost_heap].
    by rewrite (same_nodes_view _ _ _ Hs), <- Hrm, ekey_remove, Hgk.
  - pose proof (indexed_miss _ _ _ _ _ _ _ Hg Hk) as Hn.
    exists c, gs. rewrite <- Hgk, <- ekey_remove, bool_decide_false, entry_remove_none by done.
    split; [done|]. split; [by destruct c|by split].
Qed.

(** The ghost list when its oldest record is dropped. *)
Lemma remove_oldest_ghost_sim c g gs :
  ghost_nodes c g gs →
  ∃ c' gs', remove_oldest_ghost c = Some c' ∧ same_main c c'
    ∧ ghost_nodes c' (take (pred (length g)) g) gs'.
Proof.
  intros [Hg Hgk]. unfold remove_oldest_ghost.
  pose proof (dlist_last _ _ _ _ (ix_list _ _ _ _ _ _ Hg)) as Hl. unfold prev_of in Hl.
  destruct (_ghost_heap c !! TAIL) as [t|]; [|done]. cbn [mbind option_bind] in *. rewrite Hl.
  destruct gs as [|n gs _] using rev_ind.
  - rewrite bool_decide_true by done. exists c, []. rewrite <- Hgk. split; [done|].
    split; [by destruct c|by split].
  - rewrite last_snoc. cbn [from_option]. unfold id.
    pose proof (dl_nodup _ _ _ _ (ix_list _ _ _ _ _ _ Hg)) as Hnd.
    rewrite bool_decide_false by (apply NoDup_cons in Hnd as [? _]; set_solver).
    destruct (indexed_payload _ _ _ _ _ _ n Hg) as (k & v & x & Hp & Hk); [set_solver|].
    assert (key_of (_ghost_heap c) n = Some k) as Hkey by (unfold key_of; by rewrite Hp).
    destruct (indexed_remove _ _ _ _ _ _ _ _ _ Hg Hkey) as (h' & -> & Hs & _ & _ & Hg').
    rewrite app_nil_r in Hg'. cbn [mbind option_bind].
    pose proof Hp as Hp'. rewrite <- (proj1 Hs) in Hp'. unfold payload in Hp'.
    destruct (h' !! n) as [nn|] eqn:Hnn; [|done]. cbn [mbind option_bind] in *. simplify_eq.
    eexists _, gs. split; [done|]. split; [done|]. split; [done|]. cbn [set_ghost _ghost_heap].
    rewrite (same_nodes_view _ _ _ Hs), view_app, fmap_app. cbn. rewrite Hp. cbn.
    rewrite length_app. cbn. rewrite Nat.add_1_r. cbn. by rewrite take_app_length.
Qed.

Lemma ghost_head c g gs :
  ghost_nodes c g gs → ∃ hd, _ghost_heap c !! HEAD = Some hd ∧ _next hd ≠ None.
Proof.
  intros [Hg _]. pose proof (dlist_first _ _ _ _ (ix_list _ _ _ _ _ _ Hg)) as Hf.
  unfold next_of in Hf. destruct (_ghost_heap c !! HEAD) as [hd|]; [|done]. exists hd.
  cbn in Hf. by rewrite Hf.
Qed.

(** A detached node of a key without history becomes the newest ghost. *)
Lemma add_to_ghost_sim c g gs n k v x :
  ghost_nodes c g gs → _ghost_capacity c ≠ 0 → detached (_main_heap c) n →
  payload (_main_heap c) n = Some (k, v, x) → k ∉ g →
  ∃ c' gs', add_to_ghost c n = Some (true, c') ∧ same_main c c' ∧ ghost_nodes c' (k :: g) gs'.
Proof.
  intros Hn Hgc0 ([e Hde] & Hdp & Hdn) Hp Hk. destruct (ghost_head _ _ _ Hn) as (hd & Hhd & Hhn).
  destruct Hn as [Hg Hgk].
  unfold add_to_ghost. rewrite Hhd. cbn [mbind option_bind].
  rewrite bool_decide_false by done. rewrite (proj2 (Z.eqb_neq _ _)) by done. cbn [orb].
  unfold payload, prev_of, next_of in Hp, Hdp, Hdn. rewrite Hde in *. cbn [mbind option_bind] in *.
  rewrite Hdp, Hdn, !bool_decide_false by (by intros [? ?]). cbn [orb].
  unfold make_ghost. cbn [_ghost_cache _ghost_heap set_ghost].
  assert (_nkey e = k) as -> by congruence.
  assert (_ghost_cache c !! k = None) as Hkn.
  { apply eq_None_not_Some. rewrite (indexed_dom _ _ _ _ _ _ _ Hg), Hgk. done. }
  rewrite Hkn.
  destruct (indexed_alloc _ _ _ _ _ _ k tt Hg) as (Hl1 & Hd1 & Hnin & _).
  destruct (add_to_front_spec _ _ _ _ _ Hl1 Hd1 Hnin) as (h' & -> & Hl' & Hs' & _).
  cbn [mbind option_bind].
  destruct (indexed_insert _ _ h' _ _ _ _ (_ghost_fresh c :: gs) _ k tt Hg eq_refl Hkn Hl' Hs')
    as (Hg' & Hpf & Hpn); [set_solver|].
  eexists _, (_ghost_fresh c :: gs). split; [done|]. split; [done|]. split; [done|].
  cbn [set_ghost _ghost_heap].
  rewrite (view_cons _ _ _ _ Hpf), fmap_cons, (view_ext _ _ _ Hpn), Hgk. done.
Qed.

(** Making room in the history and recording an evicted key. *)
Lemma ghost_record_sim c g gs n k v x :
  ghost_nodes c g gs → Zlen g <= _ghost_capacity c → detached (_main_heap c) n →
  payload (_main_heap c) n = Some (k, v, x) → k ∉ g →
  ∃ c1 b c2 gs',
    (if _ghost_capacity c <=? cache_size (_ghost_cache c) then remove_oldest_ghost c else Some c)
      = Some c1
    ∧ add_to_ghost c1 n = Some (b, c2) ∧ same_main c c2
    ∧ ghost_nodes c2 (take (Z.to_nat (_ghost_capacity c)) (k :: g)) gs'.
Proof.
  intros Hn Hle Hd Hp Hk. rewrite (ghost_size _ _ _ Hn).
  assert (∃ c1 gs1, (if _ghost_capacity c <=? Zlen g then remove_oldest_ghost c else Some c) = Some c1
    ∧ same_main c c1 ∧ ghost_nodes c1 (take (pred (Z.to_nat (_ghost_capacity c))) g) gs1)
    as (c1 & gs1 & -> & Hsm & Hg1).
  { destruct (Z.leb_spec (_ghost_capacity c) (Zlen g)).
    - destruct (remove_oldest_ghost_sim _ _ _ Hn) as (c1 & gs1 & -> & Hsm & Hg1).
      exists c1, gs1. replace (Z.to_nat (_ghost_capacity c)) with (length g) by (lens; lia). done.
    - exists c, gs. rewrite take_ge by (lens; lia). split; [done|]. split; [by destruct c|done]. }
  exists c1. assert (_ghost_capacity c1 = _ghost_capacity c ∧ _main_heap c1 = _main_heap c) as [E1 E2]
    by by rewrite Hsm.
  destruct (decide (_ghost_capacity c = 0)) as [H0|H0].
  - destruct (ghost_head _ _ _ Hg1) as (hd & Hhd & _). exists false, c1, gs1.
    split; [done|]. rewrite H0 in *. split; [|split; [done|]].
    + unfold add_to_ghost. rewrite Hhd. cbn [mbind option_bind]. by rewrite E1, orb_true_r.
    + assert (g = []) as -> by (destruct g; [done|lens; lia]). done.
  - destruct (add_to_ghost_sim c1 _ gs1 n k v x Hg1) as (c2 & gs2 & Ha & Hsm2 & Hg2);
      [by rewrite E1|by rewrite E2|by rewrite E2| |].
    { intros Hin. apply Hk. eapply elem_of_take in Hin as (i & Hi & _). by eapply list_elem_of_lookup_2. }
    exists true, c2, gs2. split; [done|]. split; [done|]. split.
    + unfold same_main in *. rewrite Hsm2, Hsm. done.
    + destruct (Z.to_nat (_ghost_capacity c)) eqn:E; [lens; lia|]. done.
Qed.

(** The reverse entry of the list is its last one. *)
Lemma view_last h m ns fresh n :
  indexed (K := K) (V := V) h m HEAD TAIL (ns ++ [n]) fresh →
  ∃ k v x, payload h n = Some (k, v, x) ∧ key_of h n = Some k ∧ n ≠ HEAD
    ∧ view h (ns ++ [n]) = view h ns ++ [(k, v, x)].
Proof.
  intros Hi. destruct (indexed_payload _ _ _ _ _ _ n Hi) as (k & v & x & Hp & _); [set_solver|].
  pose proof (dl_nodup _ _ _ _ (ix_list _ _ _ _ _ _ Hi)) as [Hn _]%NoDup_cons.
  exists k, v, x. split; [done|]. split; [unfold key_of; by rewrite Hp|]. split; [set_solver|].
  by rewrite view_app, (view_cons _ _ _ _ Hp).
Qed.

Lemma evict_sim c s :
  lru_rep c s → Zlen (sp_ghosts s) <= sp_ghost_capacity s →
  (∀ k, k ∈ ekey <$> sp_main s → k ∉ sp_ghosts s) →
  ∃ c', evict_least_recent c = Some c' ∧ lru_rep c' (sp_evict s).
Proof.
  intros (ns & gs & [Hm He Hg Hc Hgc Ht]) Hle Hdis. unfold evict_least_recent, sp_evict.
  pose proof (dlist_last _ _ _ _ (ix_list _ _ _ _ _ _ Hm)) as Hl. unfold prev_of in Hl.
  destruct (_main_heap c !! TAIL) as [t|]; [|done]. cbn [mbind option_bind] in *. rewrite Hl.
  destruct ns as [|n ns _] using rev_ind.
  { rewrite <- He. rewrite bool_decide_true by done. exists c. split; [done|]. by exists [], gs. }
  destruct (view_last _ _ _ _ _ Hm) as (k & v & x & Hp & Hkey & HnH & Hv).
  rewrite last_snoc. cbn [from_option]. unfold id. rewrite bool_decide_false by done.
  destruct (indexed_remove _ _ _ _ _ _ _ _ _ Hm Hkey) as (h' & Hr & Hs & Hd & _ & Hm').
  rewrite app_nil_r in Hm'. unfold remove_from_main. rewrite Hr. cbn [mbind option_bind].
  rewrite <- He, Hv, last_snoc.
  destruct (ghost_record_sim (set_main c (_main_cache c) h') (sp_ghosts s) gs n k v x)
    as (c1 & b & c2 & gs' & H1 & H2 & Hsm & Hg2).
  { by destruct Hg. }
  { cbn. by rewrite Hgc. }
  { done. }
  { cbn. by rewrite (proj1 Hs). }
  { apply Hdis. rewrite <- He, Hv, fmap_app. set_solver. }
  cbn [_ghost_capacity set_main _ghost_cache] in H1. cbn [_ghost_capacity set_main _ghost_cache].
  rewrite H1. cbn [mbind option_bind]. rewrite H2. cbn [mbind option_bind].
  assert (_main_heap c2 = h' ∧ _main_cache c2 = _main_cache c) as [-> ->] by (by rewrite Hsm).
  rewrite <- (proj1 Hs) in Hp. unfold payload in Hp. destruct (h' !! n) as [nn|]; [|done].
  cbn [mbind option_bind] in *. eexists. split; [done|]. exists ns, gs'.
  rewrite length_app, Nat.add_1_r. cbn [pred]. rewrite take_app_length.
  assert (_nkey nn = k) as -> by congruence. cbn in Hg2. rewrite Hgc in Hg2.
  rewrite Hsm in *. split; cbn; try done; [by apply same_nodes_view|]. by destruct Hg2.
Qed.

(** Moving the node of a resident key to the front, its payload being updated on
    the way. *)
Lemma move_to_front_sim c s ns gs h key n k' v' x' :
  lru_nodes c s ns gs → _main_cache c !! key = Some n →
  indexed h (_main_cache c) HEAD TAIL ns (_main_fresh c) →
  payload h n = Some (k', v', x') → (∀ b, b ≠ n → payload h b = payload (_main_heap c) b) →
  ∃ h', move_to_front h n = Some h' ∧ same_nodes h h'
    ∧ ∃ ns', indexed h' (_main_cache c) HEAD TAIL (n :: ns') (_main_fresh c)
      ∧ view h' (n :: ns') = (k', v', x') :: entry_remove key (sp_main s).
Proof.
  intros [Hm He Hg Hc Hgc Ht] Hk Hi Hp Hpn.
  destruct (indexed_hit _ _ _ _ _ _ _ _ Hm Hk) as (l1 & l2 & v & x & -> & _ & _ & _ & _ & Hrm).
  pose proof (indexed_nodup _ _ _ _ _ _ Hi) as Hnd.
  destruct (indexed_to_front _ _ _ _ _ _ _ _ Hi) as (h1 & h2 & Hr & Ha & Hs & Hi2).
  exists h2. unfold move_to_front. rewrite Hr. cbn [mbind option_bind negb]. split; [done|].
  split; [done|]. exists (l1 ++ l2). split; [done|].
  rewrite (same_nodes_view _ _ _ Hs), (view_cons _ _ _ _ Hp), <- He, Hrm. f_equal.
  apply view_ext. intros b Hb. apply Hpn. intros ->.
  apply NoDup_app in Hnd as (_ & H12 & [Hn2 _]%NoDup_cons).
  apply elem_of_app in Hb as [Hb|Hb]; [|done]. apply (H12 n Hb). set_solver.
Qed.

Lemma lru_hit c s ns gs key n :
  lru_nodes c s ns gs → _main_cache c !! key = Some n →
  ∃ v x nd, entry_find key (sp_main s) = Some (v, x) ∧ key ∈ ekey <$> sp_main s
    ∧ _main_heap c !! n = Some nd ∧ _nkey nd = key ∧ _nvalue nd = v ∧ _access_count nd = x.
Proof.
  intros [Hm He Hg Hc Hgc Ht] Hk.
  destruct (indexed_hit _ _ _ _ _ _ _ _ Hm Hk) as (l1 & l2 & v & x & -> & Hp & _ & Hv & Hf & _).
  unfold payload in Hp. destruct (_main_heap c !! n) as [nd|]; [|done]. cbn in Hp.
  exists v, x, nd. rewrite <- He, Hv, fmap_app. rewrite Hv in Hf. split; [done|].
  split; [set_solver|]. by simplify_eq.
Qed.

Lemma lru_miss c s ns gs key :
  lru_nodes c s ns gs → _main_cache c !! key = None →
  entry_find key (sp_main s) = None ∧ key ∉ ekey <$> sp_main s
  ∧ entry_remove key (sp_main s) = sp_main s.
Proof.
  intros [Hm He Hg Hc Hgc Ht] Hk. pose proof (indexed_miss _ _ _ _ _ _ _ Hm Hk) as Hn.
  rewrite He in Hn. split; [by apply entry_find_none|]. split; [done|]. by apply entry_remove_none.
Qed.

Lemma update_existing_sim c s ns gs key n value :
  lru_nodes c s ns gs → _main_cache c !! key = Some n →
  ∃ c' x v, update_existing_node c n value = Some (true, c')
    ∧ entry_find key (sp_main s) = Some (v, x)
    ∧ lru_rep c' (sp_with s ((key, value, x) :: entry_remove key (sp_main s)) (sp_ghosts s)).
Proof.
  intros Hn Hk. destruct (lru_hit _ _ _ _ _ _ Hn Hk) as (v & x & nd & Hf & _ & Hnd & Hkey & Hv & Hx).
  unfold update_existing_node, set_value. rewrite Hnd. cbn [mbind option_bind].
  edestruct (indexed_update _ _ _ _ _ _ _ _
    (mkNode (_nkey nd) value (_access_count nd) (_prev nd) (_next nd)) (ln_main _ _ _ _ Hn) Hnd)
    as (Hi & Hp & Hpn); [done..|].
  destruct (move_to_front_sim _ _ _ _ _ _ _ _ _ _ Hn Hk Hi Hp Hpn)
    as (h' & -> & Hs & ns' & Hi' & Hv').
  cbn [mbind option_bind]. eexists _, x, v. split; [done|]. split; [done|].
  destruct Hn as [Hm He [Hg1 Hg2] Hc Hgc Ht]. exists (n :: ns'), gs. cbn [_nvalue _access_count] in Hv'. rewrite Hkey, Hx in Hv'.
  by split.
Qed.

Lemma update_access_sim c s ns gs key n :
  lru_nodes c s ns gs → _main_cache c !! key = Some n →
  ∃ c' nd v x, update_node_access c n = Some (sp_threshold s <=? u64 (x + 1), c')
    ∧ _main_heap c' !! n = Some nd ∧ _nvalue nd = v
    ∧ entry_find key (sp_main s) = Some (v, x)
    ∧ lru_rep c' (sp_with s ((key, v, u64 (x + 1)) :: entry_remove key (sp_main s)) (sp_ghosts s)).
Proof.
  intros Hn Hk. destruct (lru_hit _ _ _ _ _ _ Hn Hk) as (v & x & nd & Hf & _ & Hnd & Hkey & Hv & Hx).
  unfold update_node_access.
  assert (payload (_main_heap c) n = Some (key, v, x)) as Hp0.
  { unfold payload. rewrite Hnd. by subst. }
  destruct (move_to_front_sim _ _ _ _ (_main_heap c) _ _ _ _ _ Hn Hk (ln_main _ _ _ _ Hn) Hp0 ltac:(done))
    as (h' & -> & Hs & ns' & Hi' & Hv').
  cbn [mbind option_bind]. unfold increment_access_count.
  pose proof (proj1 Hs n) as Hp1. rewrite Hp0 in Hp1. unfold payload in Hp1.
  destruct (h' !! n) as [nd1|] eqn:Hnd1; [|done]. cbn [mbind option_bind] in *.
  rewrite lookup_insert_eq. cbn [mbind option_bind _access_count].
  edestruct (indexed_update _ _ _ _ _ _ _ _
    (mkNode (_nkey nd1) (_nvalue nd1) (u64 (_access_count nd1 + 1)) (_prev nd1) (_next nd1)) Hi' Hnd1)
    as (Hi2 & Hp2 & Hpn2); [done..|]. cbn in Hp2.
  assert (_nkey nd1 = key ∧ _nvalue nd1 = v ∧ _access_count nd1 = x) as (E1 & E2 & E3) by by simplify_eq.
  rewrite E1, E2, E3 in *. rewrite (ln_threshold _ _ _ _ Hn).
  eexists _, _, v, x. split; [done|]. cbn [set_main _main_heap].
  split; [by rewrite lookup_insert_eq|]. split; [done|]. split; [done|].
  destruct Hn as [Hm He [Hg1 Hg2] Hc Hgc Ht].
  pose proof (indexed_nodup _ _ _ _ _ _ Hi') as Hnn.
  exists (n :: ns'), gs. split; cbn [set_main _main_heap _main_cache _main_fresh]; try done.
  rewrite (view_cons _ _ _ _ Hp2). erewrite view_cons in Hv' by (rewrite (proj1 Hs), Hp0; done).
  cbn. f_equal. injection Hv' as <-.
  apply view_ext. intros z Hz. apply Hpn2. intros ->. by apply NoDup_cons in Hnn as [? _].
Qed.

Lemma insert_new_sim c s key value :
  lru_rep c s → key ∉ ekey <$> sp_main s →
  ∃ h', let '(node, c1) := make_main c key value in
        add_to_front (_main_heap c1) HEAD node = Some h'
        ∧ lru_rep (set_main c1 (<[key := node]> (_main_cache c1)) h')
            (sp_with s ((key, value, 1) :: sp_main s) (sp_ghosts s)).
Proof.
  intros (ns & gs & [Hm He [Hg1 Hg2] Hc Hgc Ht]) Hk. unfold make_main.
  assert (_main_cache c !! key = None) as Hkn.
  { apply eq_None_not_Some. by rewrite (indexed_dom _ _ _ _ _ _ _ Hm), He. }
  destruct (indexed_alloc _ _ _ _ _ _ key value Hm) as (Hl1 & Hd1 & Hnin & _).
  destruct (add_to_front_spec _ _ _ _ _ Hl1 Hd1 Hnin) as (h' & Ha & Hl' & Hs' & _).
  destruct (indexed_insert _ _ h' _ _ _ _ (_main_fresh c :: ns) _ key value Hm eq_refl Hkn Hl' Hs')
    as (Hm' & Hpf & Hpn); [set_solver|].
  exists h'. cbn [_main_heap]. split; [done|]. exists (_main_fresh c :: ns), gs.
  split; cbn [set_main _main_heap _main_cache _main_fresh]; try done.
  by rewrite (view_cons _ _ _ _ Hpf), (view_ext _ _ _ Hpn), He.
Qed.

Lemma lru_put_sim c s key value :
  lru_rep c s → sp_wf s →
  ∃ c', lru_put c key value = Some ((sp_put s key value).1, c') ∧ lru_rep c' (sp_put s key value).2.
Proof.
  intros (ns & gs & Hn) Hwf. unfold lru_put, sp_put. rewrite (ln_capacity _ _ _ _ Hn).
  destruct (sp_capacity s =? 0) eqn:E0; [exists c; split; [done|]; by exists ns, gs|].
  destruct (_main_cache c !! key) as [n|] eqn:Hk.
  { destruct (update_existing_sim _ _ _ _ _ _ value Hn Hk) as (c' & x & v & -> & -> & Hr).
    by exists c'. }
  destruct (lru_miss _ _ _ _ _ Hn Hk) as (-> & Hout & _). cbn [fst snd sp_forget].
  destruct (erase_ghost_sim c _ gs key (ln_ghost _ _ _ _ Hn)) as (c1 & gs1 & -> & Hsm & Hg1).
  pose proof (lru_nodes_ghost _ _ _ _ _ _ _ Hn Hsm Hg1) as Hn1. cbn [mbind option_bind].
  unfold add_new_node. rewrite (lru_main_size _ _ _ _ Hn1), (ln_capacity _ _ _ _ Hn1).
  set (s1 := sp_with s (sp_main s) (filter (λ x, x ≠ key) (sp_ghosts s))) in *.
  assert (∃ c2, (if sp_capacity s1 <=? Zlen (sp_main s1) then evict_least_recent c1 else Some c1) = Some c2
    ∧ lru_rep c2 (if sp_capacity s <=? Zlen (sp_main s) then sp_evict s1 else s1)) as (c2 & -> & Hr2).
  { change (sp_capacity s1) with (sp_capacity s). change (sp_main s1) with (sp_main s).
    destruct (sp_capacity s <=? Zlen (sp_main s)).
    - apply evict_sim; [by exists ns, gs1| |]; cbn.
      + etransitivity; [apply filter_len_le|apply Hwf.(wf_ok _)].
      + intros k Hkm. rewrite elem_of_key_removed. intros [Hin _]. by apply (ok_disjoint _ (wf_ok _ Hwf) k).
    - exists c1. split; [done|]. by exists ns, gs1. }
  cbn [mbind option_bind].
  edestruct (insert_new_sim c2 _ key value Hr2) as (h' & Hins).
  { destruct (sp_capacity s <=? Zlen (sp_main s)); [|done]. unfold sp_evict.
    destruct (last (sp_main s1)) as [[[k v] x]|]; [|done]. cbn. intros Hin. apply Hout.
    rewrite <- (take_drop (pred (length (sp_main s))) (sp_main s)), fmap_app. set_solver. }
  destruct (make_main c2 key value) as [node c3]. destruct Hins as [-> Hr3]. cbn [mbind option_bind].
  eexists. split; [done|exact Hr3].
Qed.

Lemma lru_get_sim c s key :
  lru_rep c s →
  ∃ c', lru_get c key = Some ((sp_get s key).1, c') ∧ lru_rep c' (sp_get s key).2.
Proof.
  intros (ns & gs & Hn). unfold lru_get, sp_get.
  destruct (_main_cache c !! key) as [n|] eqn:Hk.
  - destruct (update_access_sim _ _ _ _ _ _ Hn Hk) as (c' & nd & v & x & -> & Hnd & Hv & -> & Hr).
    cbn [mbind option_bind]. rewrite Hnd. cbn [mbind option_bind]. rewrite Hv. by exists c'.
  - destruct (lru_miss _ _ _ _ _ Hn Hk) as (-> & _). exists c. split; [done|]. by exists ns, gs.
Qed.

Lemma lru_contain_sim c s key : lru_rep c s → lru_contain c key = sp_contain s key.
Proof.
  intros (ns & gs & Hn). unfold lru_contain, sp_contain. apply bool_decide_ext.
  by rewrite (indexed_dom _ _ _ _ _ _ _ (ln_main _ _ _ _ Hn)), (ln_entries _ _ _ _ Hn).
Qed.

(** Unlinking a resident entry, as [erase] and [invalidate] do. *)
Lemma lru_erase_sim c s key :
  lru_rep c s →
  ∃ c', lru_erase c key = Some ((sp_erase s key).1, c') ∧ lru_rep c' (sp_erase s key).2.
Proof.
  intros (ns & gs & Hn). unfold lru_erase, sp_erase, sp_contain. cbn [fst snd].
  destruct (_main_cache c !! key) as [n|] eqn:Hk.
  - destruct (lru_hit _ _ _ _ _ _ Hn Hk) as (_ & _ & _ & _ & Hin & _).
    rewrite bool_decide_true by done. destruct Hn as [Hm He [Hg1 Hg2] Hc Hgc Ht].
    destruct (indexed_hit _ _ _ _ _ _ _ _ Hm Hk) as (l1 & l2 & v & x & -> & _ & Hkey & _ & _ & Hrm).
    destruct (indexed_remove _ _ _ _ _ _ _ _ _ Hm Hkey) as (h' & Hr & Hs & _ & _ & Hm').
    unfold remove_from_main. rewrite Hr. cbn [mbind option_bind]. eexists. split; [done|].
    exists (l1 ++ l2), gs. split; cbn; try done. by rewrite (same_nodes_view _ _ _ Hs), <- Hrm, He.
  - destruct (lru_miss _ _ _ _ _ Hn Hk) as (_ & Hout & ->). rewrite bool_decide_false by done.
    exists c. split; [done|]. exists ns, gs. by destruct s.
Qed.

Lemma lru_check_ghost_sim c s key :
  lru_rep c s →
  ∃ c', lru_check_ghost c key = Some ((sp_forget s key).1, c') ∧ lru_rep c' (sp_forget s key).2.
Proof.
  intros (ns & gs & Hn). unfold lru_check_ghost, sp_forget. cbn [fst snd].
  destruct (erase_ghost_sim c _ gs key (ln_ghost _ _ _ _ Hn)) as (c1 & gs1 & -> & Hsm & Hg1).
  exists c1. split; [done|]. exists ns, gs1. by eapply lru_nodes_ghost.
Qed.

Lemma lru_invalidate_sim c s key :
  lru_rep c s →
  ∃ c', lru_invalidate c key = Some ((sp_invalidate s key).1, c') ∧ lru_rep c' (sp_invalidate s key).2.
Proof.
  intros Hr. destruct (lru_erase_sim c s key Hr) as (c1 & H1 & Hr1).
  destruct (lru_check_ghost_sim c1 _ key Hr1) as (c2 & H2 & Hr2).
  exists c2. unfold lru_invalidate, sp_invalidate, lru_erase, lru_check_ghost in *.
  destruct (sp_erase s key) as [b1 s1]. cbn [fst snd] in *. destruct (sp_forget s1 key) as [b2 s2].
  cbn [fst snd] in *. split; [|done].
  destruct (_main_cache c !! key); [rewrite H1|simplify_eq]; cbn [mbind option_bind];
    rewrite H2; done.
Qed.

Lemma lru_resize_rep c s cap : lru_rep c s → lru_rep (set_capacity c cap) (sp_resize s cap).
Proof. intros (ns & gs & [Hm He [Hg1 Hg2] Hc Hgc Ht]). exists ns, gs. by split. Qed.

Lemma lru_increase_sim c s : lru_rep c s → lru_rep (lru_increase_capacity c) (sp_increase s).
Proof.
  intros Hr. unfold lru_increase_capacity, sp_increase.
  assert (_capacity c = sp_capacity s) as -> by (destruct Hr as (? & ? & []); done).
  by apply lru_resize_rep.
Qed.

Lemma sp_evict_length s : Zlen (sp_main (sp_evict s)) = Z.max 0 (Zlen (sp_main s) - 1).
Proof.
  unfold sp_evict. destruct (last (sp_main s)) as [[[k v] x]|] eqn:E.
  - cbn. unfold Zlen. rewrite length_take. destruct (sp_main s); [done|cbn [length]; lia].
  - apply last_None in E. rewrite E. done.
Qed.

Lemma lru_decrease_sim c s :
  lru_rep c s → sp_wf s →
  ∃ c', lru_decrease_capacity c = Some ((sp_decrease s).1, c') ∧ lru_rep c' (sp_decrease s).2.
Proof.
  intros Hr [H0 Hb [Hgb _ _ Hd]]. unfold is_u64 in H0. unfold lru_decrease_capacity, sp_decrease.
  assert (_capacity c = sp_capacity s) as Ec by (destruct Hr as (? & ? & []); done). rewrite Ec.
  destruct (Z.eqb_spec (sp_capacity s) 0) as [E0|E0]; [by exists c|].
  pose proof (lru_resize_rep c s (sp_capacity s - 1) Hr) as Hr1.
  set (c1 := set_capacity c _) in *. set (s1 := sp_resize s _) in *. cbn [fst snd].
  assert (∀ c s, lru_rep c s → _capacity c = sp_capacity s ∧ cache_size (_main_cache c) = Zlen (sp_main s))
    as Hsz. { intros ? ? (ns & gs & Hn). split; [apply Hn|by eapply lru_main_size]. }
  cbn [lru_shrink]. destruct (Hsz _ _ Hr1) as [-> Hsz1]. rewrite Hsz1.
  destruct (Z.ltb_spec (sp_capacity s1) (Zlen (sp_main s1))) as [Hlt|Hge];
    [|exists c1; done].
  destruct (evict_sim c1 s1 Hr1) as (c2 & -> & Hr2); [done|done|]. cbn [mbind option_bind].
  exists c2. split; [|done]. cbn in Hlt.
  destruct (base.size (_main_cache c1)) eqn:Esz.
  { unfold cache_size in Hsz1. rewrite Esz in Hsz1. cbn in Hsz1. lens; lia. }
  cbn [lru_shrink]. destruct (Hsz _ _ Hr2) as [-> ->]. rewrite sp_evict_length.
  replace (sp_capacity (sp_evict s1)) with (sp_capacity s - 1)
    by (unfold sp_evict; destruct (last (sp_main s1)) as [[[? ?] ?]|]; done).
  rewrite (proj2 (Z.ltb_ge _ _)); [done|]. cbn. lia.
Qed.

(** ** The promise is kept *)

Lemma sp_new_wf cap trans ghost_cap : is_u64 cap → 0 <= ghost_cap → sp_wf (sp_new cap trans ghost_cap).
Proof.
  intros Hc Hg. split; cbn; [done|unfold is_u64 in Hc; lens; lia|].
  split; cbn; [lens; lia|apply NoDup_nil_2|apply NoDup_nil_2|set_solver].
Qed.

Lemma sp_evict_ok s : sp_ok s → sp_ok (sp_evict s).
Proof.
  intros [H1 H2 H3 H4]. unfold sp_evict.
  destruct (last (sp_main s)) as [[[k v] x]|] eqn:E; [|by split].
  apply last_Some in E as [m Hm]. rewrite Hm in *. rewrite length_app, Nat.add_1_r. cbn [pred].
  rewrite take_app_length. rewrite fmap_app in *. cbn in H2, H4. split; cbn.
  - unfold Zlen in *. rewrite length_take. lia.
  - by apply NoDup_app in H2 as (? & _).
  - eapply sublist_NoDup; [|apply sublist_take]. apply NoDup_cons. split; [|done].
    apply H4. set_solver.
  - intros j Hj Hin. apply elem_of_take in Hin as (i & Hi & _). apply list_elem_of_lookup_2 in Hi.
    apply NoDup_app in H2 as (_ & H2 & _). apply elem_of_cons in Hi as [->|Hi].
    + apply (H2 k); set_solver.
    + apply (H4 j); set_solver.
Qed.

Lemma sp_forget_ok s k : sp_ok s → sp_ok (sp_forget s k).2 ∧ k ∉ sp_ghosts (sp_forget s k).2.
Proof.
  intros [H1 H2 H3 H4]. split; [split; cbn|]; try done.
  - etransitivity; [apply filter_len_le|done].
  - by apply NoDup_filter.
  - intros j Hj. rewrite elem_of_key_removed. intros [? _]. by apply (H4 j).
  - cbn. rewrite elem_of_key_removed. tauto.
Qed.

Lemma sp_remove_ok s main :
  sp_ok s → (∀ j, j ∈ ekey <$> main → j ∈ ekey <$> sp_main s) → NoDup (ekey <$> main) →
  sp_ok (sp_with s main (sp_ghosts s)).
Proof. intros [H1 H2 H3 H4] Hs Hn. split; cbn; try done. intros j Hj. by apply H4, Hs. Qed.

(** A resident key moves to the front. *)
Lemma sp_touch_wf s k v x v' x' :
  sp_wf s → entry_find k (sp_main s) = Some (v, x) →
  sp_wf (sp_with s ((k, v', x') :: entry_remove k (sp_main s)) (sp_ghosts s)).
Proof.
  intros [Hc Hb Hok] Hf. assert (k ∈ ekey <$> sp_main s) as Hin by (apply entry_find_dom; by eexists).
  split; cbn; [done| |].
  - apply list_elem_of_fmap in Hin as (e & -> & He).
    assert (length (entry_remove (ekey e) (sp_main s)) < length (sp_main s))%nat; [|lens; lia].
    apply length_filter_lt with e; [done|]. tauto.
  - apply sp_remove_ok; [done| |]; cbn.
    + intros j. rewrite elem_of_cons, entry_remove_keys. intros [->|[? _]]; done.
    + apply NoDup_cons. split; [rewrite entry_remove_keys; tauto|]. rewrite ekey_remove.
      apply NoDup_filter, Hok.
Qed.

Lemma sp_get_wf s k : sp_wf s → sp_wf (sp_get s k).2.
Proof.
  intros Hwf. unfold sp_get. destruct (entry_find k (sp_main s)) as [[v x]|] eqn:Hf; [|done].
  by eapply sp_touch_wf.
Qed.

Lemma sp_forget_wf s k : sp_wf s → sp_wf (sp_forget s k).2.
Proof. intros [Hc Hb Hok]. split; [done|done|by apply sp_forget_ok]. Qed.

Lemma sp_erase_wf s k : sp_wf s → sp_wf (sp_erase s k).2.
Proof.
  intros [Hc Hb Hok]. split; cbn; [done|etransitivity; [apply filter_len_le|done]|].
  apply sp_remove_ok; [done| |].
  - intros j. rewrite entry_remove_keys. tauto.
  - rewrite ekey_remove. apply NoDup_filter, Hok.
Qed.

Lemma sp_invalidate_wf s k : sp_wf s → sp_wf (sp_invalidate s k).2.
Proof. intros Hwf. by apply sp_forget_wf, sp_erase_wf. Qed.

(** What an eviction touches. *)
Lemma sp_evict_keys s :
  (∀ j, j ∈ ekey <$> sp_main (sp_evict s) → j ∈ ekey <$> sp_main s)
  ∧ (∀ j, j ∈ sp_ghosts (sp_evict s) → j ∈ sp_ghosts s ∨ j ∈ ekey <$> sp_main s)
  ∧ sp_capacity (sp_evict s) = sp_capacity s
  ∧ sp_ghost_capacity (sp_evict s) = sp_ghost_capacity s.
Proof.
  unfold sp_evict. destruct (last (sp_main s)) as [[[k v] x]|] eqn:E; [|by auto].
  apply last_Some in E as [m Hm]. rewrite Hm, length_app, Nat.add_1_r. cbn [pred].
  rewrite take_app_length. cbn. split; [|split; [|done]].
  - intros j. rewrite fmap_app. set_solver.
  - intros j (i & Hi & _)%elem_of_take. apply list_elem_of_lookup_2 in Hi.
    rewrite fmap_app. set_solver.
Qed.

Lemma sp_insert_ok s k v x :
  sp_ok s → k ∉ ekey <$> sp_main s → k ∉ sp_ghosts s →
  sp_ok (sp_with s ((k, v, x) :: sp_main s) (sp_ghosts s)).
Proof.
  intros [H1 H2 H3 H4] Hm Hg. split; cbn; try done.
  - by apply NoDup_cons.
  - intros j [->|Hj]%elem_of_cons; [done|by apply H4].
Qed.

Lemma sp_put_wf s k v : sp_wf s → sp_wf (sp_put s k v).2.
Proof.
  intros Hwf. unfold sp_put. destruct (Z.eqb_spec (sp_capacity s) 0) as [|H0]; [done|].
  destruct (entry_find k (sp_main s)) as [[v0 x]|] eqn:Hf; [by eapply sp_touch_wf|].
  assert (k ∉ ekey <$> sp_main s) as Hout by (rewrite <- entry_find_dom, Hf; by intros [? ?]).
  destruct Hwf as [Hc Hb Hok]. destruct (sp_forget_ok s k Hok) as [Hok1 Hk1].
  destruct (Z.leb_spec (sp_capacity s) (Zlen (sp_main s))) as [Hfull|Hroom]; cbn [snd].
  - destruct (sp_evict_keys (sp_forget s k).2) as (Hm & Hg & Hcap & _).
    split; cbn [sp_with sp_capacity sp_main]; rewrite ?Hcap; [done| |].
    + rewrite Zlen_cons, sp_evict_length. unfold is_u64 in Hc. cbn. lia.
    + apply sp_insert_ok; [by apply sp_evict_ok| |].
      * intros Hin. by apply Hout, Hm.
      * intros Hin. apply Hg in Hin as [Hin|Hin]; [by apply Hk1|by apply Hout].
  - split; [done|cbn; rewrite Zlen_cons; lia|]. by apply (sp_insert_ok (sp_forget s k).2).
Qed.

Lemma sp_increase_wf s : sp_wf s → sp_capacity s + 1 < 2 ^ 64 → sp_wf (sp_increase s).
Proof.
  intros [Hc Hb [H1 H2 H3 H4]] Hlt. unfold is_u64 in Hc.
  assert (u64 (sp_capacity s + 1) = sp_capacity s + 1) as E by (apply Z.mod_small; lia).
  split; cbn; rewrite ?E; [unfold is_u64; lia|lia|by split].
Qed.

Lemma sp_resize_ok s cap : sp_ok s → sp_ok (sp_resize s cap).
Proof. intros [H1 H2 H3 H4]. by split. Qed.

Lemma sp_decrease_wf s : sp_wf s → sp_wf (sp_decrease s).2.
Proof.
  intros [Hc Hb Hok]. unfold sp_decrease. destruct (Z.eqb_spec (sp_capacity s) 0) as [|H0]; [done|].
  cbn [snd]. pose proof (sp_resize_ok s (sp_capacity s - 1) Hok) as Hok1. unfold is_u64 in Hc.
  destruct (Z.ltb_spec (sp_capacity (sp_resize s (sp_capacity s - 1)))
    (Zlen (sp_main (sp_resize s (sp_capacity s - 1))))) as [Hlt|Hge]; cbn in *.
  - destruct (sp_evict_keys (sp_resize s (sp_capacity s - 1))) as (_ & _ & Hcap & _).
    split; rewrite ?Hcap, ?sp_evict_length; cbn; [unfold is_u64; lia|lia|by apply sp_evict_ok].
  - split; cbn; [unfold is_u64; lia|lia|done].
Qed.

(** ** Observations *)

Definition lru_entries (c : ArcLru) : gmap K V :=
  omap (λ n, _nvalue <$> _main_heap c !! n) (_main_cache c).
Definition lru_ghosts (c : ArcLru) : gset K := dom (_ghost_cache c).

Definition lru_inv (c : ArcLru) : Prop := ∃ s, lru_rep c s ∧ sp_wf s.

Lemma lru_rep_entries c s k :
  lru_rep c s → lru_entries c !! k = fst <$> entry_find k (sp_main s).
Proof.
  intros (ns & gs & Hn). unfold lru_entries. rewrite lookup_omap.
  destruct (_main_cache c !! k) as [n|] eqn:Hk.
  - destruct (lru_hit _ _ _ _ _ _ Hn Hk) as (v & x & nd & -> & _ & Hnd & _ & Hv & _).
    cbn. rewrite Hnd. cbn. by rewrite Hv.
  - by destruct (lru_miss _ _ _ _ _ Hn Hk) as (-> & _).
Qed.

Lemma lru_rep_resident c s k :
  lru_rep c s → is_Some (lru_entries c !! k) ↔ k ∈ ekey <$> sp_main s.
Proof. intros Hr. by rewrite (lru_rep_entries _ _ _ Hr), fmap_is_Some, entry_find_dom. Qed.

Lemma lru_rep_ghosts c s k : lru_rep c s → k ∈ lru_ghosts c ↔ k ∈ sp_ghosts s.
Proof.
  intros (ns & gs & Hn). unfold lru_ghosts. destruct (ln_ghost _ _ _ _ Hn) as [Hg <-].
  by rewrite elem_of_dom, (indexed_dom _ _ _ _ _ _ _ Hg).
Qed.

Lemma lru_rep_capacity c s : lru_rep c s → _capacity c = sp_capacity s.
Proof. intros (ns & gs & Hn). apply Hn. Qed.

Lemma lru_rep_size c s : lru_rep c s → Z.of_nat (base.size (lru_entries c)) = Zlen (sp_main s).
Proof.
  intros Hr. pose proof Hr as (ns & gs & Hn). rewrite <- (lru_main_size _ _ _ _ Hn).
  unfold cache_size. f_equal. rewrite <- !size_dom. f_equal. apply set_eq. intros k.
  rewrite !elem_of_dom, (lru_rep_resident _ _ _ Hr).
  by rewrite (indexed_dom _ _ _ _ _ _ _ (ln_main _ _ _ _ Hn)), (ln_entries _ _ _ _ Hn).
Qed.

(** Equal observations from pointwise equal specifications. *)
Lemma lru_entries_eq c c' s s' (f : gmap K V → gmap K V) :
  lru_rep c s → lru_rep c' s' →
  (∀ k, fst <$> entry_find k (sp_main s') = f (lru_entries c) !! k) → lru_entries c' = f (lru_entries c).
Proof. intros Hr Hr' Hf. apply map_eq. intros k. by rewrite (lru_rep_entries _ _ _ Hr'), Hf. Qed.

Lemma lru_ghosts_eq c c' s s' (g : gset K) :
  lru_rep c s → lru_rep c' s' → (∀ k, k ∈ sp_ghosts s' ↔ k ∈ g) → lru_ghosts c' = g.
Proof. intros Hr Hr' Hg. apply set_eq. intros k. by rewrite (lru_rep_ghosts _ _ _ Hr'), Hg. Qed.

Lemma sp_touch_find s k v x v' x' j :
  entry_find k (sp_main s) = Some (v, x) →
  fst <$> entry_find j ((k, v', x') :: entry_remove k (sp_main s))
  = if decide (j = k) then Some v' else fst <$> entry_find j (sp_main s).
Proof.
  intros Hf. cbn. rewrite entry_find_remove. repeat case_decide; by subst.
Qed.

Lemma sp_evict_find s j w :
  entry_find j (sp_main (sp_evict s)) = Some w → entry_find j (sp_main s) = Some w.
Proof.
  unfold sp_evict. destruct (last (sp_main s)) as [[[k v] x]|]; [|done]. cbn. intros Hf.
  rewrite <- (take_drop (pred (length (sp_main s))) (sp_main s)). by apply entry_find_prefix.
Qed.

(** What [put] does to the resident values and to the history. *)
Lemma sp_put_view s k v :
  sp_capacity s ≠ 0 →
  let s' := (sp_put s k v).2 in
  (sp_put s k v).1 = true ∧ sp_capacity s' = sp_capacity s
  ∧ fst <$> entry_find k (sp_main s') = Some v
  ∧ (∀ j w, j ≠ k → fst <$> entry_find j (sp_main s') = Some w → fst <$> entry_find j (sp_main s) = Some w)
  ∧ (∀ j, j ∈ sp_ghosts s' → j ∈ sp_ghosts s ∨ j ∈ ekey <$> sp_main s)
  ∧ (k ∈ ekey <$> sp_main s ∨ Zlen (sp_main s) < sp_capacity s →
     ∀ j, j ≠ k → fst <$> entry_find j (sp_main s') = fst <$> entry_find j (sp_main s)).
Proof.
  intros H0. unfold sp_put. rewrite (proj2 (Z.eqb_neq _ _)) by done.
  destruct (entry_find k (sp_main s)) as [[v0 x]|] eqn:Hf.
  - cbn zeta. cbn [fst snd sp_capacity sp_with sp_main sp_ghosts]. split_and!; [done|done| | |by left|].
    + by rewrite (sp_touch_find _ _ _ _ _ _ _ Hf), decide_True.
    + intros j w Hj. by rewrite (sp_touch_find _ _ _ _ _ _ _ Hf), decide_False.
    + intros _ j Hj. by rewrite (sp_touch_find _ _ _ _ _ _ _ Hf), decide_False.
  - set (s1 := (sp_forget s k).2).
    set (s2 := if sp_capacity s <=? Zlen (sp_main s) then sp_evict s1 else s1). cbn zeta. cbn [fst snd sp_capacity sp_with sp_main sp_ghosts].
    assert (∀ j, j ∈ sp_ghosts s1 → j ∈ sp_ghosts s) as Hg1.
    { intros j Hj. cbn in Hj. by apply elem_of_key_removed in Hj as [? _]. }
    assert (sp_capacity s2 = sp_capacity s
      ∧ (∀ j w, fst <$> entry_find j (sp_main s2) = Some w → fst <$> entry_find j (sp_main s) = Some w)
      ∧ (∀ j, j ∈ sp_ghosts s2 → j ∈ sp_ghosts s ∨ j ∈ ekey <$> sp_main s)) as (Hc2 & Hm2 & Hg2).
    { unfold s2. case_match; [|naive_solver].
      destruct (sp_evict_keys s1) as (_ & Hg & Hc & _). split; [done|]. split.
      - intros j w ([w' x] & Hw & Hj)%fmap_Some. apply fmap_Some. exists (w', x).
        split; [|done]. by apply (sp_evict_find s1).
      - intros j Hj. apply Hg in Hj as [Hj|Hj]; [left; auto|by right]. }
    split_and!; [done|done|by cbn; rewrite decide_True| |done|].
    + intros j w Hj. cbn. rewrite decide_False by done. apply Hm2.
    + intros [Hin|Hroom] j Hj.
      { exfalso. apply entry_find_dom in Hin as [? ?]. congruence. }
      cbn. rewrite decide_False by done. unfold s2. by rewrite (proj2 (Z.leb_gt _ _)) by lia.
Qed.

Lemma sp_decrease_view s :
  sp_capacity s ≠ 0 →
  let s' := (sp_decrease s).2 in
  (sp_decrease s).1 = true ∧ sp_capacity s' = sp_capacity s - 1
  ∧ (∀ j w, fst <$> entry_find j (sp_main s') = Some w → fst <$> entry_find j (sp_main s) = Some w)
  ∧ (∀ j, j ∈ sp_ghosts s' → j ∈ sp_ghosts s ∨ j ∈ ekey <$> sp_main s).
Proof.
  intros H0. unfold sp_decrease. rewrite (proj2 (Z.eqb_neq _ _)) by done. cbn zeta. cbn [fst snd].
  split; [done|]. case_match; [|naive_solver].
  set (s1 := sp_resize s (sp_capacity s - 1)).
  destruct (sp_evict_keys s1) as (_ & Hg & -> & _). split; [done|]. split; [|done].
  intros j w ([w' x] & Hw & Hj)%fmap_Some. apply fmap_Some. exists (w', x).
  split; [|done]. by apply (sp_evict_find s1).
Qed.

#[export] Instance lru_ops : PartitionOps K V ArcLru := {|
  p_put := lru_put;
  p_get := lru_get;
  p_contain := lru_contain;
  p_invalidate := lru_invalidate;
  p_check_ghost := lru_check_ghost;
  p_increase_capacity := lru_increase_capacity;
  p_decrease_capacity := lru_decrease_capacity
|}.

#[export] Program Instance lru_partition : Partition ArcLru := {|
  p_inv := lru_inv;
  p_entries := lru_entries;
  p_ghosts := lru_ghosts;
  p_capacity := _capacity
|}.
Next Obligation.
  intros c (s & Hr & [Hc Hb _]). by rewrite (lru_rep_size _ _ Hr), (lru_rep_capacity _ _ Hr).
Qed.
Next Obligation.
  intros c k (s & Hr & [_ _ Hok]) Hk. apply eq_None_not_Some. rewrite (lru_rep_resident _ _ _ Hr).
  rewrite (lru_rep_ghosts _ _ _ Hr) in Hk. intros Hin. by apply (ok_disjoint _ Hok k).
Qed.
Next Obligation.
  intros c k (s & Hr & _). cbn. rewrite (lru_contain_sim _ _ _ Hr). unfold sp_contain.
  apply bool_decide_ext. by rewrite (lru_rep_resident _ _ _ Hr).
Qed.
Next Obligation. intros c k v _ H0. cbn. unfold lru_put. by rewrite H0. Qed.
Next Obligation.
  intros c k v (s & Hr & Hwf) H0. cbn. rewrite (lru_rep_capacity _ _ Hr) in *.
  destruct (lru_put_sim c s k v Hr Hwf) as (c' & Hp & Hr').
  destruct (sp_put_view s k v H0) as (Hb & Hc & Hk & Hm & Hg & Hroom). rewrite Hb in Hp.
  exists c'. split; [done|]. split; [by eexists; split; [|by apply sp_put_wf]|].
  split; [by rewrite (lru_rep_capacity _ _ Hr')|].
  split; [by rewrite (lru_rep_entries _ _ _ Hr')|]. split; [split|].
  - intros j w Hj. rewrite (lru_rep_entries _ _ _ Hr), (lru_rep_entries _ _ _ Hr'). apply Hm. congruence.
  - intros j. rewrite (lru_rep_ghosts _ _ _ Hr), (lru_rep_ghosts _ _ _ Hr'), (lru_rep_resident _ _ _ Hr).
    apply Hg.
  - rewrite (lru_rep_resident _ _ _ Hr), (lru_rep_size _ _ Hr). intros Hor j Hj.
    rewrite (lru_rep_entries _ _ _ Hr), (lru_rep_entries _ _ _ Hr'). by apply Hroom.
Qed.
Next Obligation.
  intros c k (s & Hr & Hwf). cbn. destruct (lru_get_sim c s k Hr) as (c' & Hg & Hr').
  pose proof (sp_get_wf s k Hwf) as Hwf'. rewrite (lru_rep_entries _ _ _ Hr), (lru_rep_capacity _ _ Hr).
  unfold sp_get in *. destruct (entry_find k (sp_main s)) as [[v x]|] eqn:Hf; cbn [fst snd] in *.
  - eexists _, c'. split; [done|]. split; [by eexists|]. split; [by rewrite (lru_rep_capacity _ _ Hr')|].
    split; [|split; [|done]].
    + apply (lru_entries_eq c c' s _ id Hr Hr'). intros j. cbn [sp_main sp_with].
      rewrite (sp_touch_find _ _ _ _ _ _ _ Hf). unfold id. rewrite (lru_rep_entries _ _ _ Hr).
      case_decide; [subst; by rewrite Hf|done].
    + apply (lru_ghosts_eq c c' s _ _ Hr Hr'). intros j. by rewrite (lru_rep_ghosts _ _ _ Hr).
  - eexists _, c'. split; [done|]. assert (c' = c) as -> by (unfold lru_get in Hg;
      destruct (_main_cache c !! k) eqn:Hk; [|by simplify_eq];
      destruct Hr as (? & ? & Hn); destruct (lru_hit _ _ _ _ _ _ Hn Hk) as (? & ? & ? & ? & _); congruence).
    split; [by eexists|]. by rewrite (lru_rep_capacity _ _ Hr).
Qed.
Next Obligation.
  intros c k (s & Hr & Hwf). cbn. destruct (lru_invalidate_sim c s k Hr) as (c' & Hi & Hr').
  exists c'. rewrite Hi, (lru_rep_capacity _ _ Hr), (lru_rep_capacity _ _ Hr'). split.
  { unfold sp_invalidate, sp_erase, sp_forget, sp_contain. cbn [fst snd sp_with sp_ghosts].
    do 3 f_equal; apply bool_decide_ext; [by rewrite (lru_rep_resident _ _ _ Hr)|].
    by rewrite (lru_rep_ghosts _ _ _ Hr). }
  split; [by eexists; split; [|by apply sp_invalidate_wf]|]. split; [done|]. split.
  - apply (lru_entries_eq c c' s _ (delete k) Hr Hr'). intros j. cbn [sp_invalidate sp_erase sp_forget snd sp_with sp_main].
    rewrite entry_find_remove. case_decide; subst; [by rewrite lookup_delete_eq|].
    by rewrite lookup_delete_ne, (lru_rep_entries _ _ _ Hr).
  - apply (lru_ghosts_eq c c' s _ _ Hr Hr'). intros j. cbn [sp_invalidate sp_erase sp_forget snd sp_with sp_ghosts].
    rewrite elem_of_key_removed, elem_of_difference, (lru_rep_ghosts _ _ _ Hr). set_solver.
Qed.
Next Obligation.
  intros c k (s & Hr & Hwf). cbn. destruct (lru_check_ghost_sim c s k Hr) as (c' & Hi & Hr').
  exists c'. rewrite Hi, (lru_rep_capacity _ _ Hr), (lru_rep_capacity _ _ Hr'). split.
  { cbn. do 2 f_equal. apply bool_decide_ext. by rewrite (lru_rep_ghosts _ _ _ Hr). }
  split; [by eexists; split; [|by apply sp_forget_wf]|]. split; [done|]. split.
  - apply (lru_entries_eq c c' s _ id Hr Hr'). intros j. by rewrite (lru_rep_entries _ _ _ Hr).
  - apply (lru_ghosts_eq c c' s _ _ Hr Hr'). intros j. cbn [sp_forget snd sp_with sp_ghosts].
    rewrite elem_of_key_removed, elem_of_difference, (lru_rep_ghosts _ _ _ Hr). set_solver.
Qed.
Next Obligation.
  intros c (s & Hr & Hwf) Hlt. cbn. rewrite (lru_rep_capacity _ _ Hr) in *.
  pose proof (lru_increase_sim c s Hr) as Hr'. split; [by eexists; split; [|by apply sp_increase_wf]|].
  split; [|split].
  - destruct Hwf as [[? ?] _ _]. apply Z.mod_small. lia.
  - done.
  - done.
Qed.
Next Obligation. intros c _ H0. cbn. unfold lru_decrease_capacity. by rewrite H0. Qed.
Next Obligation.
  intros c (s & Hr & Hwf) H0. cbn. rewrite (lru_rep_capacity _ _ Hr) in *.
  destruct (lru_decrease_sim c s Hr Hwf) as (c' & Hp & Hr').
  destruct (sp_decrease_view s H0) as (Hb & Hc & Hm & Hg). rewrite Hb in Hp.
  exists c'. split; [done|]. split; [by eexists; split; [|by apply sp_decrease_wf]|].
  split; [by rewrite (lru_rep_capacity _ _ Hr')|]. split.
  - intros j w _. rewrite (lru_rep_entries _ _ _ Hr), (lru_rep_entries _ _ _ Hr'). apply Hm.
  - intros j. rewrite (lru_rep_ghosts _ _ _ Hr), (lru_rep_ghosts _ _ _ Hr'), (lru_rep_resident _ _ _ Hr).
    apply Hg.
Qed.

#[export] Program Instance lru_demoting : Demoting ArcLru := {| p_erase := lru_erase |}.
Next Obligation.
  intros c k (s & Hr & Hwf). cbn. destruct (lru_erase_sim c s k Hr) as (c' & Hi & Hr').
  exists c'. rewrite Hi, (lru_rep_capacity _ _ Hr), (lru_rep_capacity _ _ Hr'). split.
  { cbn. unfold sp_contain. do 2 f_equal. apply bool_decide_ext. by rewrite (lru_rep_resident _ _ _ Hr). }
  split; [by eexists; split; [|by apply sp_erase_wf]|]. split; [done|]. split.
  - apply (lru_entries_eq c c' s _ (delete k) Hr Hr'). intros j. cbn [sp_erase snd sp_with sp_main].
    rewrite entry_find_remove. case_decide; subst; [by rewrite lookup_delete_eq|].
    by rewrite lookup_delete_ne, (lru_rep_entries _ _ _ Hr).
  - apply (lru_ghosts_eq c c' s _ _ Hr Hr'). intros j. by rewrite (lru_rep_ghosts _ _ _ Hr).
Qed.

(** ** Sequences of operations *)

Inductive lru_op :=
  | OpPut (k : K) (v : V)
  | OpGet (k : K)
  | OpContain (k : K)
  | OpErase (k : K)
  | OpInvalidate (k : K)
  | OpCheckGhost (k : K)
  | OpIncrease
  | OpDecrease.

Inductive lru_out :=
  | OutBool (b : bool)
  | OutGet (r : option V * bool)
  | OutDone.

Definition lru_step (c : ArcLru) (op : lru_op) : option (lru_out * ArcLru) :=
  match op with
  | OpPut k v => '(b, c) ← lru_put c k v; Some (OutBool b, c)
  | OpGet k => '(r, c) ← lru_get c k; Some (OutGet r, c)
  | OpContain k => Some (OutBool (lru_contain c k), c)
  | OpErase k => '(b, c) ← lru_erase c k; Some (OutBool b, c)
  | OpInvalidate k => '(b, c) ← lru_invalidate c k; Some (OutBool b, c)
  | OpCheckGhost k => '(b, c) ← lru_check_ghost c k; Some (OutBool b, c)
  | OpIncrease => Some (OutDone, lru_increase_capacity c)
  | OpDecrease => '(b, c) ← lru_decrease_capacity c; Some (OutBool b, c)
  end.

Definition sp_step (s : LruSpec) (op : lru_op) : lru_out * LruSpec :=
  match op with
  | OpPut k v => let '(b, s) := sp_put s k v in (OutBool b, s)
  | OpGet k => let '(r, s) := sp_get s k in (OutGet r, s)
  | OpContain k => (OutBool (sp_contain s k), s)
  | OpErase k => let '(b, s) := sp_erase s k in (OutBool b, s)
  | OpInvalidate k => let '(b, s) := sp_invalidate s k in (OutBool b, s)
  | OpCheckGhost k => let '(b, s) := sp_forget s k in (OutBool b, s)
  | OpIncrease => (OutDone, sp_increase s)
  | OpDecrease => let '(b, s) := sp_decrease s in (OutBool b, s)
  end.

Fixpoint lru_run (c : ArcLru) (ops : list lru_op) : option (list lru_out * ArcLru) :=
  match ops with
  | [] => Some ([], c)
  | op :: rest => '(o, c) ← lru_step c op; '(os, c) ← lru_run c rest; Some (o :: os, c)
  end.

Fixpoint sp_run (s : LruSpec) (ops : list lru_op) : list lru_out * LruSpec :=
  match ops with
  | [] => ([], s)
  | op :: rest => let '(o, s) := sp_step s op in let '(os, s) := sp_run s rest in (o :: os, s)
  end.

Ltac sim_case H :=
  let c' := fresh "c'" in let E := fresh "E" in let Hr' := fresh "Hr'" in
  destruct H as (c' & E & Hr'); cbn [lru_step sp_step]; rewrite E; cbn [mbind option_bind];
  match goal with |- context [let '(_, _) := ?x in _] => destruct x as [? ?] eqn:? end;
  exists c'; done.

Lemma lru_step_sim c s op :
  lru_rep c s → sp_wf s →
  ∃ c', lru_step c op = Some ((sp_step s op).1, c') ∧ lru_rep c' (sp_step s op).2.
Proof.
  intros Hr Hwf. destruct op as [k v|k|k|k|k|k| |].
  - sim_case (lru_put_sim c s k v Hr Hwf).
  - sim_case (lru_get_sim c s k Hr).
  - exists c. cbn. by rewrite (lru_contain_sim c s k Hr).
  - sim_case (lru_erase_sim c s k Hr).
  - sim_case (lru_invalidate_sim c s k Hr).
  - sim_case (lru_check_ghost_sim c s k Hr).
  - eexists. split; [done|]. by apply lru_increase_sim.
  - sim_case (lru_decrease_sim c s Hr Hwf).
Qed.

Lemma sp_capacity_evict s : sp_capacity (sp_evict s) = sp_capacity s.
Proof. by destruct (sp_evict_keys s) as (_ & _ & ? & _). Qed.

Lemma sp_step_wf s op :
  sp_wf s → sp_capacity s + 1 < 2 ^ 64 →
  sp_wf (sp_step s op).2 ∧ sp_capacity (sp_step s op).2 <= sp_capacity s + 1.
Proof.
  intros Hwf Hlt. destruct op as [k v|k|k|k|k|k| |]; cbn [sp_step].
  - pose proof (sp_put_wf s k v Hwf) as Hw. unfold sp_put in *.
    destruct (sp_capacity s =? 0); [cbn; split; [done|lia]|].
    destruct (entry_find k (sp_main s)) as [[v0 x]|]; [cbn in *; split; [done|lia]|].
    split; [done|]. cbn. destruct (_ <=? _); rewrite ?sp_capacity_evict; cbn; lia.
  - pose proof (sp_get_wf s k Hwf) as Hw. unfold sp_get in *.
    destruct (entry_find k (sp_main s)) as [[v0 x]|]; cbn in *; split; lia || done.
  - cbn. split; [done|lia].
  - cbn. split; [by apply sp_erase_wf|lia].
  - cbn. split; [by apply (sp_invalidate_wf s k)|lia].
  - cbn. split; [by apply (sp_forget_wf s k)|lia].
  - cbn [snd]. split; [by apply sp_increase_wf|]. destruct Hwf as [[? ?] _ _]. cbn.
    unfold u64. rewrite Z.mod_small; lia.
  - pose proof (sp_decrease_wf s Hwf) as Hw. unfold sp_decrease in *.
    destruct (sp_capacity s =? 0); [cbn; split; [done|lia]|]. split; [done|]. cbn.
    destruct (_ <? _); rewrite ?sp_capacity_evict; cbn; lia.
Qed.

Lemma lru_run_sim ops c s :
  lru_rep c s → sp_wf s → sp_capacity s + Zlen ops < 2 ^ 64 →
  ∃ c', lru_run c ops = Some ((sp_run s ops).1, c')
    ∧ lru_rep c' (sp_run s ops).2 ∧ sp_wf (sp_run s ops).2.
Proof.
  revert c s. induction ops as [|op ops IH]; intros c s Hr Hwf Hlt; [by exists c|].
  rewrite Zlen_cons in Hlt. pose proof (Zlen_nonneg ops).
  destruct (lru_step_sim c s op Hr Hwf) as (c1 & H1 & Hr1).
  destruct (sp_step_wf s op Hwf) as [Hwf1 Hle]; [lia|].
  cbn [lru_run sp_run]. rewrite H1. cbn [mbind option_bind]. destruct (sp_step s op) as [o s1].
  cbn [fst snd] in *. destruct (IH c1 s1 Hr1 Hwf1) as (c2 & -> & Hr2 & Hwf2); [lia|].
  cbn [mbind option_bind]. exists c2. by destruct (sp_run s1 ops).
Qed.

(** C30. The recency partition implements its abstract specification: starting from
    the constructor, every sequence of operations runs without a null
    dereference or a failed assertion, returns exactly what the specification
    (a list in recency order, a list of ghost keys in eviction order) returns,
    and ends in a state whose pointer structures represent the specified lists;
    those keep the capacity and history bounds, hold a key at most once and never
    as resident and ghost at the same time. *)
Theorem lru_refines_spec cap trans ghost_cap ops :
  is_u64 cap → 0 <= ghost_cap → cap + Zlen ops < 2 ^ 64 →
  ∃ c s outs, lru_run (new_lru cap trans ghost_cap) ops = Some (outs, c)
    ∧ sp_run (sp_new cap trans ghost_cap) ops = (outs, s)
    ∧ lru_rep c s ∧ sp_wf s.
Proof.
  intros Hc Hg Hlt.
  destruct (lru_run_sim ops _ _ (new_lru_rep cap trans ghost_cap) (sp_new_wf cap trans ghost_cap Hc Hg))
    as (c & Hrun & Hr & Hwf); [done|].
  destruct (sp_run (sp_new cap trans ghost_cap) ops) as [outs s]. by exists c, s, outs.
Qed.
End Lru.
#[global] Arguments ArcLru : clear implicits.
#[global] Arguments ArcLru K V {_ _}.
#[global] Arguments lru_op : clear implicits.
#[global] Arguments lru_out : clear implicits.
#[global] Arguments OpPut {K V}.
#[global] Arguments OpGet {K V}.
#[global] Arguments OpContain {K V}.
#[global] Arguments OpErase {K V}.
#[global] Arguments OpInvalidate {K V}.
#[global] Arguments OpCheckGhost {K V}.
#[global] Arguments OpIncrease {K V}.
#[global] Arguments OpDecrease {K V}.
#[global] Arguments OutBool {V}.
#[global] Arguments OutGet {V}.
#[global] Arguments OutDone {V}.

Lemma lru_refines_spec_witness :
  let ops := [OpPut 1 10; OpPut 2 20; OpGet 1; OpPut 3 30; OpCheckGhost 2; OpDecrease; OpContain 1] in
  let run := lru_run (K := Z) (V := Z) (new_lru 2 2 2) ops in
  (fst <$> run) = Some [OutBool true; OutBool true; OutGet (Some 10, true); OutBool true;
                        OutBool true; OutBool true; OutBool false]
  ∧ ∃ c s outs, run = Some (outs, c) ∧ sp_run (sp_new 2 2 2) ops = (outs, s) ∧ lru_rep c s ∧ sp_wf s.
Proof.
  split; [vm_compute; reflexivity|].
  apply (lru_refines_spec 2 2 2); [unfold is_u64; lia|lia|vm_compute; reflexivity].
Defined.
