(* ===== verification/ArcLfu.v ===== *)
(** The frequency partition of the ARC cache ([inc/common/cache/arc_lfu.h]).

    Nodes are grouped in buckets by access count; [_freq_map] maps a count to the
    nodes in the order in which they reached it, [_min_freq] is the bucket the next
    victim is taken from. The ghost history is a linked list with its hash map, new
    records at the back. Counts are 64-bit and wrap.

    [LfuSpec] is the abstract partition: the entries with the least recently
    touched first, each with its count, the count of the next victim, and the ghost
    keys from oldest to newest. An eviction removes the least recently touched
    entry of that count. The operations on buckets and pointers are proved to
    simulate the specification, and the count is shown to be the least one as long
    as no counter wraps. *)

From S2P Require Import Prelude DList ArcPartition.
#[local] Open Scope tlss_scope.

Section Lfu.
Context {K V : Type} `{Countable K} `{!Inhabited K}.

Record ArcLfu := mkLfu {
  _lfu_capacity : Z;
  _lfu_ghost_capacity : Z;
  _lfu_threshold : Z;
  _min_freq : Z;
  _lfu_cache : gmap K loc;
  _lfu_ghost_cache : gmap K loc;
  _freq_map : gmap Z (list loc);
  _lfu_heap : gmap loc (Node K V);
  _lfu_ghost_heap : gmap loc (Node K unit);
  _lfu_fresh : loc;
  _lfu_ghost_fresh : loc
}.

Definition GHEAD : loc := 0.
Definition GTAIL : loc := 1.

Definition new_lfu (cap trans ghost_cap : Z) : ArcLfu :=
  mkLfu cap ghost_cap trans 0 ∅ ∅ ∅ ∅ (init_list inhabitant tt GHEAD GTAIL) 0 2.

Definition lfu_with (c : ArcLfu) (minf : Z) (cache : gmap K loc) (F : gmap Z (list loc))
    (h : gmap loc (Node K V)) (fresh : loc) : ArcLfu :=
  mkLfu (_lfu_capacity c) (_lfu_ghost_capacity c) (_lfu_threshold c) minf cache (_lfu_ghost_cache c)
    F h (_lfu_ghost_heap c) fresh (_lfu_ghost_fresh c).
Definition lfu_with_ghost (c : ArcLfu) (cache : gmap K loc) (h : gmap loc (Node K unit)) (fresh : loc)
    : ArcLfu :=
  mkLfu (_lfu_capacity c) (_lfu_ghost_capacity c) (_lfu_threshold c) (_min_freq c) (_lfu_cache c) cache
    (_freq_map c) (_lfu_heap c) h (_lfu_fresh c) fresh.
Definition lfu_resize (c : ArcLfu) (cap : Z) : ArcLfu :=
  mkLfu cap (_lfu_ghost_capacity c) (_lfu_threshold c) (_min_freq c) (_lfu_cache c)
    (_lfu_ghost_cache c) (_freq_map c) (_lfu_heap c) (_lfu_ghost_heap c) (_lfu_fresh c)
    (_lfu_ghost_fresh c).

Definition lfu_size {A} (m : gmap K A) : Z := Z.of_nat (base.size m).

(** [_freq_map[f]], which creates the bucket when it is missing. *)
Definition bucket (F : gmap Z (list loc)) (f : Z) : list loc := default [] (F !! f).

(** [_freq_map.begin()->first] *)
Definition first_freq (F : gmap Z (list loc)) : option Z :=
  fst <$> head (sorted_entries Z.le F).

Definition lfu_erase_ghost (c : ArcLfu) (key : K) : option (bool * ArcLfu) :=
  match _lfu_ghost_cache c !! key with
  | None => Some (false, c)
  | Some node =>
      '(_, h) ← remove_node (_lfu_ghost_heap c) node;
      Some (true, lfu_with_ghost c (delete key (_lfu_ghost_cache c)) h (_lfu_ghost_fresh c))
  end.

Definition update_node_frequency (c : ArcLfu) (node : loc) : option ArcLfu :=
  n ← _lfu_heap c !! node;
  let old_freq := _access_count n in
  h ← increment_access_count (_lfu_heap c) node;
  n ← h !! node;
  let new_freq := _access_count n in
  let old_list := filter (λ x, x ≠ node) (bucket (_freq_map c) old_freq) in
  let '(F, minf) :=
    match old_list with
    | [] => (delete old_freq (_freq_map c),
             if old_freq =? _min_freq c then new_freq else _min_freq c)
    | _ => (<[old_freq := old_list]> (_freq_map c), _min_freq c)
    end in
  let F := <[new_freq := bucket F new_freq ++ [node]]> F in
  Some (lfu_with c minf (_lfu_cache c) F h (_lfu_fresh c)).

Definition lfu_update_existing (c : ArcLfu) (node : loc) (value : V) : option (bool * ArcLfu) :=
  h ← set_value (_lfu_heap c) node value;
  c ← update_node_frequency (lfu_with c (_min_freq c) (_lfu_cache c) (_freq_map c) h (_lfu_fresh c)) node;
  Some (true, c).

Definition lfu_remove_oldest_ghost (c : ArcLfu) : option ArcLfu :=
  head ← _lfu_ghost_heap c !! GHEAD;
  oldest ← _next head;
  if bool_decide (oldest = GTAIL) then Some c else
  '(_, h) ← remove_node (_lfu_ghost_heap c) oldest;
  n ← h !! oldest;
  Some (lfu_with_ghost c (delete (_nkey n) (_lfu_ghost_cache c)) h (_lfu_ghost_fresh c)).

Definition lfu_add_to_ghost (c : ArcLfu) (evicted : loc) : option ArcLfu :=
  if _lfu_ghost_capacity c =? 0 then Some c else
  e ← _lfu_heap c !! evicted;
  let node := _lfu_ghost_fresh c in
  h ← add_to_back (<[node := new_node (_nkey e) tt]> (_lfu_ghost_heap c)) GTAIL node;
  Some (lfu_with_ghost c (<[_nkey e := node]> (_lfu_ghost_cache c)) h (S node)).

Definition evict_least_frequent (c : ArcLfu) : option ArcLfu :=
  if bool_decide (_freq_map c = ∅) then Some c else
  let minf := _min_freq c in
  let F := <[minf := bucket (_freq_map c) minf]> (_freq_map c) in
  match bucket (_freq_map c) minf with
  | [] => Some (lfu_with c minf (_lfu_cache c) F (_lfu_heap c) (_lfu_fresh c))
  | least_node :: rest =>
      let '(F, minf) :=
        match rest with
        | [] => let F := delete minf F in (F, default minf (first_freq F))
        | _ => (<[minf := rest]> F, minf)
        end in
      let c := lfu_with c minf (_lfu_cache c) F (_lfu_heap c) (_lfu_fresh c) in
      c ← (if _lfu_ghost_capacity c <=? lfu_size (_lfu_ghost_cache c)
           then lfu_remove_oldest_ghost c else Some c);
      c ← lfu_add_to_ghost c least_node;
      n ← _lfu_heap c !! least_node;
      Some (lfu_with c minf (delete (_nkey n) (_lfu_cache c)) F (_lfu_heap c) (_lfu_fresh c))
  end.

Definition lfu_add_new_node (c : ArcLfu) (key : K) (value : V) : option (bool * ArcLfu) :=
  c ← (if _lfu_capacity c <=? lfu_size (_lfu_cache c) then evict_least_frequent c else Some c);
  let node := _lfu_fresh c in
  let F := <[1 := bucket (_freq_map c) 1 ++ [node]]> (_freq_map c) in
  Some (true, lfu_with c 1 (<[key := node]> (_lfu_cache c)) F
                (<[node := new_node key value]> (_lfu_heap c)) (S node)).

Definition lfu_put (c : ArcLfu) (key : K) (value : V) : option (bool * ArcLfu) :=
  if _lfu_capacity c =? 0 then Some (false, c) else
  match _lfu_cache c !! key with
  | Some node => lfu_update_existing c node value
  | None => '(_, c) ← lfu_erase_ghost c key; lfu_add_new_node c key value
  end.

Definition lfu_get (c : ArcLfu) (key : K) : option (option V * ArcLfu) :=
  match _lfu_cache c !! key with
  | Some node =>
      c ← update_node_frequency c node;
      n ← _lfu_heap c !! node;
      Some (Some (_nvalue n), c)
  | None => Some (None, c)
  end.

Definition lfu_contain (c : ArcLfu) (key : K) : bool := bool_decide (is_Some (_lfu_cache c !! key)).

Definition lfu_invalidate (c : ArcLfu) (key : K) : option (bool * ArcLfu) :=
  '(removed, c) ← match _lfu_cache c !! key with
                  | Some node =>
                      n ← _lfu_heap c !! node;
                      let f := _access_count n in
                      let F := match _freq_map c !! f with
                               | Some b =>
                                   match filter (λ x, x ≠ node) b with
                                   | [] => delete f (_freq_map c)
                                   | b' => <[f := b']> (_freq_map c)
                                   end
                               | None => _freq_map c
                               end in
                      Some (true, lfu_with c (default 0 (first_freq F)) (delete key (_lfu_cache c)) F
                                    (_lfu_heap c) (_lfu_fresh c))
                  | None => Some (false, c)
                  end;
  '(ghost_removed, c) ← lfu_erase_ghost c key;
  Some (removed || ghost_removed, c).

Definition lfu_check_ghost (c : ArcLfu) (key : K) : option (bool * ArcLfu) := lfu_erase_ghost c key.

Definition lfu_increase_capacity (c : ArcLfu) : ArcLfu := lfu_resize c (u64 (_lfu_capacity c + 1)).

(** [while (_main_cache.size() > _capacity)], on fuel. *)
Fixpoint lfu_shrink (fuel : nat) (c : ArcLfu) : option ArcLfu :=
  match fuel with
  | O => None
  | S n =>
      if _lfu_capacity c <? lfu_size (_lfu_cache c)
      then c ← evict_least_frequent c; lfu_shrink n c else Some c
  end.

Definition lfu_decrease_capacity (c : ArcLfu) : option (bool * ArcLfu) :=
  if _lfu_capacity c =? 0 then Some (false, c) else
  let c := lfu_resize c (_lfu_capacity c - 1) in
  c ← lfu_shrink (S (base.size (_lfu_cache c))) c;
  Some (true, c).


(** ** The abstract partition *)

Record LfuSpec := mkLfuSpec {
  lf_capacity : Z;
  lf_ghost_capacity : Z;
  lf_min_freq : Z;
  lf_main : list (K * V * Z);  (* least recently touched first *)
  lf_ghosts : list K           (* oldest first *)
}.

Definition lf_with (s : LfuSpec) (minf : Z) (main : list (K * V * Z)) (ghosts : list K) : LfuSpec :=
  mkLfuSpec (lf_capacity s) (lf_ghost_capacity s) minf main ghosts.

(** The entries of one count. *)
Definition lf_at (f : Z) (main : list (K * V * Z)) : list (K * V * Z) := filter (λ e, e.2 = f) main.

Definition min_count (main : list (K * V * Z)) : option Z :=
  foldr (λ e r, Some (match r with Some m => Z.min e.2 m | None => e.2 end)) None main.

(** The newest [gcap] ghosts. *)
Definition lf_record (gcap : Z) (k : K) (ghosts : list K) : list K :=
  if gcap =? 0 then [] else
  (if gcap <=? Zlen ghosts then drop 1 ghosts else ghosts) ++ [k].

Definition lf_evict (s : LfuSpec) : LfuSpec :=
  match lf_at (lf_min_freq s) (lf_main s) with
  | [] => s
  | (k, _, _) :: rest =>
      let main := entry_remove k (lf_main s) in
      lf_with s (match rest with [] => default (lf_min_freq s) (min_count main) | _ => lf_min_freq s end)
        main (lf_record (lf_ghost_capacity s) k (lf_ghosts s))
  end.

Definition lf_forget (s : LfuSpec) (k : K) : bool * LfuSpec :=
  (bool_decide (k ∈ lf_ghosts s),
   lf_with s (lf_min_freq s) (lf_main s) (filter (λ x, x ≠ k) (lf_ghosts s))).

(** A touched entry gets the next count and becomes the most recently touched. *)
Definition lf_touch (s : LfuSpec) (k : K) (v : V) (x : Z) : LfuSpec :=
  let main := entry_remove k (lf_main s) in
  lf_with s (match lf_at x main with
             | [] => if x =? lf_min_freq s then u64 (x + 1) else lf_min_freq s
             | _ => lf_min_freq s
             end)
    (main ++ [(k, v, u64 (x + 1))]) (lf_ghosts s).

Definition lf_put (s : LfuSpec) (k : K) (v : V) : bool * LfuSpec :=
  if lf_capacity s =? 0 then (false, s) else
  match entry_find k (lf_main s) with
  | Some (_, x) => (true, lf_touch s k v x)
  | None =>
      let s1 := (lf_forget s k).2 in
      let s2 := if lf_capacity s <=? Zlen (lf_main s) then lf_evict s1 else s1 in
      (true, lf_with s2 1 (lf_main s2 ++ [(k, v, 1)]) (lf_ghosts s2))
  end.

Definition lf_get (s : LfuSpec) (k : K) : option V * LfuSpec :=
  match entry_find k (lf_main s) with
  | Some (v, x) => (Some v, lf_touch s k v x)
  | None => (None, s)
  end.

Definition lf_contain (s : LfuSpec) (k : K) : bool := bool_decide (k ∈ ekey <$> lf_main s).

Definition lf_invalidate (s : LfuSpec) (k : K) : bool * LfuSpec :=
  let main := entry_remove k (lf_main s) in
  let s1 := if lf_contain s k
            then lf_with s (default 0 (min_count main)) main (lf_ghosts s) else s in
  let '(ghost_removed, s2) := lf_forget s1 k in (lf_contain s k || ghost_removed, s2).

Definition lf_resize (s : LfuSpec) (cap : Z) : LfuSpec :=
  mkLfuSpec cap (lf_ghost_capacity s) (lf_min_freq s) (lf_main s) (lf_ghosts s).

Definition lf_increase (s : LfuSpec) : LfuSpec := lf_resize s (u64 (lf_capacity s + 1)).

Definition lf_decrease (s : LfuSpec) : bool * LfuSpec :=
  if lf_capacity s =? 0 then (false, s) else
  let s := lf_resize s (lf_capacity s - 1) in
  (true, if lf_capacity s <? Zlen (lf_main s) then lf_evict s else s).

Definition lf_new (cap ghost_cap : Z) : LfuSpec := mkLfuSpec cap ghost_cap 0 [] [].

(** The bounds of the partition, unique keys, disjoint history, and a victim
    whenever something is resident. *)
Record lf_ok (s : LfuSpec) : Prop := {
  lfo_ghost_bound : Zlen (lf_ghosts s) <= lf_ghost_capacity s;
  lfo_keys : NoDup (ekey <$> lf_main s);
  lfo_ghosts : NoDup (lf_ghosts s);
  lfo_disjoint : ∀ k, k ∈ ekey <$> lf_main s → k ∉ lf_ghosts s;
  lfo_victim : lf_main s ≠ [] → lf_at (lf_min_freq s) (lf_main s) ≠ []
}.
Record lf_wf (s : LfuSpec) : Prop := {
  lfw_capacity : is_u64 (lf_capacity s);
  lfw_bound : Zlen (lf_main s) <= lf_capacity s;
  lfw_ok : lf_ok s
}.

(** ** Buckets *)

Definition count_of (h : gmap loc (Node K V)) (n : loc) : option Z := _access_count <$> h !! n.

Definition nonempty {A} (l : list A) : option (list A) := match l with [] => None | _ => Some l end.

(** The buckets partition the nodes by count, in their order. *)
Definition buckets_ok (h : gmap loc (Node K V)) (ns : list loc) (F : gmap Z (list loc)) : Prop :=
  ∀ f, F !! f = nonempty (filter (λ n, count_of h n = Some f) ns).

Lemma bucket_ok h ns F f : buckets_ok h ns F → bucket F f = filter (λ n, count_of h n = Some f) ns.
Proof. intros Hb. unfold bucket. rewrite Hb. by destruct (filter _ ns). Qed.

Lemma filter_remove_mid {A} `{EqDecision A} (l1 l2 : list A) n :
  n ∉ l1 ++ l2 → filter (λ x, x ≠ n) (l1 ++ n :: l2) = l1 ++ l2.
Proof.
  intros Hn. rewrite filter_app, filter_cons_False by tauto. rewrite <- filter_app.
  revert Hn. induction (l1 ++ l2) as [|x l IH]; [done|]. rewrite not_elem_of_cons. intros [Hx Hl].
  rewrite filter_cons_True by congruence. f_equal. by apply IH.
Qed.

Lemma filter_comm {A} (P Q : A → Prop) `{!∀ x, Decision (P x)} `{!∀ x, Decision (Q x)} (l : list A) :
  filter P (filter Q l) = filter Q (filter P l).
Proof.
  induction l as [|x l IH]; [done|]. rewrite !filter_cons.
  repeat case_decide; rewrite ?filter_cons; repeat case_decide; try done; by f_equal.
Qed.

Lemma buckets_remove h l1 n l2 F f :
  buckets_ok h (l1 ++ n :: l2) F → count_of h n = Some f → n ∉ l1 ++ l2 →
  filter (λ x, x ≠ n) (bucket F f) = filter (λ x, count_of h x = Some f) (l1 ++ l2)
  ∧ buckets_ok h (l1 ++ l2) (match filter (λ x, x ≠ n) (bucket F f) with
                             | [] => delete f F | b => <[f := b]> F end).
Proof.
  intros Hb Hc Hn.
  assert (filter (λ x, x ≠ n) (bucket F f) = filter (λ x, count_of h x = Some f) (l1 ++ l2)) as E.
  { rewrite (bucket_ok _ _ _ _ Hb), filter_comm, filter_remove_mid by done. done. }
  split; [done|]. rewrite E. intros g. destruct (decide (g = f)) as [->|Hg].
  - destruct (filter (λ x, count_of h x = Some f) (l1 ++ l2));
      [apply lookup_delete_eq|apply lookup_insert_eq].
  - assert (F !! g = nonempty (filter (λ x, count_of h x = Some g) (l1 ++ l2))) as <-.
    { rewrite Hb, !filter_app, filter_cons_False; [done|]. rewrite Hc. congruence. }
    destruct (filter (λ x, count_of h x = Some f) (l1 ++ l2));
      [by apply lookup_delete_ne|by apply lookup_insert_ne].
Qed.

Lemma buckets_push h ns n F f :
  buckets_ok h ns F → count_of h n = Some f → buckets_ok h (ns ++ [n]) (<[f := bucket F f ++ [n]]> F).
Proof.
  intros Hb Hc g. rewrite filter_app. destruct (decide (g = f)) as [->|Hg].
  - rewrite lookup_insert_eq, (bucket_ok _ _ _ _ Hb), filter_cons_True by done.
    cbn. by destruct (filter _ ns).
  - rewrite lookup_insert_ne, Hb, filter_cons_False by (rewrite ?Hc; congruence). cbn.
    by rewrite app_nil_r.
Qed.

Lemma buckets_ext h h' ns F :
  (∀ n, n ∈ ns → count_of h' n = count_of h n) → buckets_ok h ns F → buckets_ok h' ns F.
Proof.
  intros He Hb f. rewrite Hb. f_equal. clear Hb. induction ns as [|n ns IH]; [done|].
  rewrite !filter_cons, He by set_solver. rewrite IH by set_solver. done.
Qed.

Lemma count_of_payload h n k v x : payload h n = Some (k, v, x) → count_of h n = Some x.
Proof. unfold payload, count_of. destruct (h !! n); cbn; [|done]. by intros [= <- <- <-]. Qed.

Lemma payload_count h h' n : payload h' n = payload h n → count_of h' n = count_of h n.
Proof.
  unfold payload, count_of. destruct (h !! n), (h' !! n); cbn; congruence.
Qed.

Lemma view_bucket h ns f :
  (∀ n, n ∈ ns → is_Some (h !! n)) →
  view h (filter (λ n, count_of h n = Some f) ns) = lf_at f (view h ns).
Proof.
  intros Ha. induction ns as [|n ns IH]; [done|].
  destruct (Ha n) as [x Hx]; [set_solver|].
  assert (payload h n = Some (_nkey x, _nvalue x, _access_count x)) as Hp
    by (unfold payload; by rewrite Hx).
  rewrite (view_cons _ _ _ _ Hp). unfold lf_at in *. pose proof (count_of_payload _ _ _ _ _ Hp) as Hc.
  destruct (decide (_access_count x = f)) as [E|E].
  - rewrite !filter_cons_True by (cbn; congruence). rewrite (view_cons _ _ _ _ Hp), IH; [done|set_solver].
  - rewrite !filter_cons_False by (cbn; congruence). apply IH. set_solver.
Qed.

Lemma bucket_nil h ns f :
  (∀ n, n ∈ ns → is_Some (h !! n)) →
  lf_at f (view h ns) = [] ↔ filter (λ n, count_of h n = Some f) ns = [].
Proof.
  intros Ha. rewrite <- view_bucket by done. split; [|by intros ->].
  destruct (filter _ ns) as [|b l] eqn:E; [done|]. intros Hnil. exfalso.
  assert (b ∈ filter (λ n, count_of h n = Some f) ns) as [_ Hb]%list_elem_of_filter by (rewrite E; set_solver).
  destruct (Ha b Hb) as [z Hz]. unfold view in Hnil. cbn in Hnil. unfold payload in Hnil.
  by rewrite Hz in Hnil.
Qed.

Lemma buckets_dom h ns F f :
  buckets_ok h ns F → (∀ n, n ∈ ns → is_Some (h !! n)) →
  is_Some (F !! f) ↔ ∃ e, e ∈ view h ns ∧ e.2 = f.
Proof.
  intros Hb Ha. rewrite Hb.
  assert (is_Some (nonempty (filter (λ n, count_of h n = Some f) ns)) ↔ lf_at f (view h ns) ≠ []) as ->.
  { rewrite bucket_nil by done. destruct (filter _ ns); cbn; [|split; [done|by eexists]].
    split; [by intros [? ?]|done]. }
  unfold lf_at. split.
  - intros Hne. destruct (filter _ (view h ns)) as [|e l] eqn:E; [done|].
    assert (e ∈ e :: l) as Hin by set_solver. rewrite <- E in Hin.
    apply list_elem_of_filter in Hin as [? ?]. by exists e.
  - intros (e & He & Hf) Hnil. assert (e ∈ filter (λ e, e.2 = f) (view h ns)) as Hin
      by by apply list_elem_of_filter. rewrite Hnil in Hin. set_solver.
Qed.

Lemma first_freq_spec F :
  match first_freq F with
  | None => F = ∅
  | Some f => is_Some (F !! f) ∧ ∀ g, is_Some (F !! g) → f <= g
  end.
Proof.
  unfold first_freq. pose proof (sorted_entries_sorted Z.le F) as Hs.
  pose proof (elem_of_sorted_entries Z.le F) as He.
  destruct (sorted_entries Z.le F) as [|[f l] es]; cbn.
  - apply map_empty. intros g. apply eq_None_not_Some. intros [x Hx]. apply He in Hx. set_solver.
  - split; [exists l; apply He; set_solver|]. intros g [x Hx]. apply He in Hx.
    apply elem_of_cons in Hx as [[= -> ->]|Hx]; [done|].
    apply StronglySorted_inv in Hs as [_ Hf]. rewrite Forall_forall in Hf. by apply Hf in Hx.
Qed.

Lemma min_count_spec (l : list (K * V * Z)) :
  match min_count l with
  | None => l = []
  | Some m => (∃ e, e ∈ l ∧ e.2 = m) ∧ ∀ e, e ∈ l → m <= e.2
  end.
Proof.
  induction l as [|a l IH]; [done|]. cbn [min_count foldr]. fold (min_count l).
  destruct (min_count l) as [m|].
  - destruct IH as [(e & He & Hm) Hle]. split.
    + destruct (Z.min_spec a.2 m) as [[? ->]|[? ->]]; [exists a|exists e]; set_solver.
    + intros b [->|Hb]%elem_of_cons; [lia|]. specialize (Hle b Hb). lia.
  - subst l. split; [exists a; set_solver|]. intros b ->%list_elem_of_singleton. done.
Qed.

Lemma first_freq_min h ns F :
  buckets_ok h ns F → (∀ n, n ∈ ns → is_Some (h !! n)) → first_freq F = min_count (view h ns).
Proof.
  intros Hb Ha. pose proof (first_freq_spec F) as H1. pose proof (min_count_spec (view h ns)) as H2.
  assert (∀ f, is_Some (F !! f) ↔ ∃ e, e ∈ view h ns ∧ e.2 = f) as Hd by (intros; by apply buckets_dom).
  destruct (first_freq F) as [f|], (min_count (view h ns)) as [m|]; [| | |done].
  - destruct H1 as [(e & He & <-)%Hd H1], H2 as [(e' & He' & <-) H2].
    f_equal. apply Z.le_antisymm; [apply H1, Hd; eauto|by apply H2].
  - destruct H1 as [(e & He & _)%Hd _]. rewrite H2 in He. set_solver.
  - destruct H2 as [(e & He & <-) _]. assert (is_Some (F !! e.2)) as [x Hx] by (apply Hd; eauto).
    by rewrite H1, lookup_empty in Hx.
Qed.

(** ** The representation *)

Record lfu_ghost_nodes (c : ArcLfu) (ghosts : list K) (gs : list loc) : Prop := {
  fgn_index : indexed (_lfu_ghost_heap c) (_lfu_ghost_cache c) GHEAD GTAIL gs (_lfu_ghost_fresh c);
  fgn_keys : ekey <$> view (_lfu_ghost_heap c) gs = ghosts
}.

Record lfu_nodes (c : ArcLfu) (s : LfuSpec) (ns gs : list loc) : Prop := {
  fn_main : stored (_lfu_heap c) (_lfu_cache c) ns (_lfu_fresh c);
  fn_entries : view (_lfu_heap c) ns = lf_main s;
  fn_buckets : buckets_ok (_lfu_heap c) ns (_freq_map c);
  fn_min : _min_freq c = lf_min_freq s;
  fn_ghost : lfu_ghost_nodes c (lf_ghosts s) gs;
  fn_capacity : _lfu_capacity c = lf_capacity s;
  fn_ghost_capacity : _lfu_ghost_capacity c = lf_ghost_capacity s
}.

Definition lfu_rep (c : ArcLfu) (s : LfuSpec) : Prop := ∃ ns gs, lfu_nodes c s ns gs.

(** States that differ in the ghost history only. *)
Definition lfu_same_main (c c' : ArcLfu) : Prop :=
  c' = lfu_with_ghost c (_lfu_ghost_cache c') (_lfu_ghost_heap c') (_lfu_ghost_fresh c').

Lemma new_lfu_rep cap trans ghost_cap : lfu_rep (new_lfu cap trans ghost_cap) (lf_new cap ghost_cap).
Proof.
  exists [], []. split; cbn; try done.
  - split; [apply NoDup_nil_2|set_solver| |done]. intros k n. rewrite lookup_empty. set_solver.
  - split; [|done]. split.
    + by apply init_list_spec.
    + intros k n. cbn. rewrite lookup_empty. set_solver.
    + intros n Hn. cbn in *. unfold init_list, GHEAD, GTAIL. rewrite !lookup_insert_ne by lia.
      apply lookup_empty.
Qed.

Lemma lfu_main_size c s ns gs : lfu_nodes c s ns gs → lfu_size (_lfu_cache c) = Zlen (lf_main s).
Proof.
  intros Hn. unfold lfu_size, Zlen. pose proof (fn_main _ _ _ _ Hn) as Hm.
  by rewrite (stored_size _ _ _ _ Hm), <- (fn_entries _ _ _ _ Hn), (stored_view_length _ _ _ _ Hm).
Qed.

Lemma lfu_ghost_size c g gs : lfu_ghost_nodes c g gs → lfu_size (_lfu_ghost_cache c) = Zlen g.
Proof.
  intros [Hg He]. unfold lfu_size, Zlen.
  by rewrite (indexed_size _ _ _ _ _ _ Hg), <- He, length_fmap, (view_length _ _ _ _ _ _ Hg).
Qed.

Lemma lfu_nodes_ghost c c' s ns gs g' gs' :
  lfu_nodes c s ns gs → lfu_same_main c c' → lfu_ghost_nodes c' g' gs' →
  lfu_nodes c' (lf_with s (lf_min_freq s) (lf_main s) g') ns gs'.
Proof. intros [Hm He Hb Hmin _ Hc Hgc] Hsm Hg. rewrite Hsm in *. by split. Qed.

(** ** Simulation of the operations *)

Lemma lfu_erase_ghost_sim c g gs key :
  lfu_ghost_nodes c g gs →
  ∃ c' gs', lfu_erase_ghost c key = Some (bool_decide (key ∈ g), c') ∧ lfu_same_main c c'
    ∧ lfu_ghost_nodes c' (filter (λ x, x ≠ key) g) gs'.
Proof.
  intros [Hg Hgk]. unfold lfu_erase_ghost.
  destruct (_lfu_ghost_cache c !! key) as [n|] eqn:Hk.
  - destruct (indexed_hit _ _ _ _ _ _ _ _ Hg Hk) as (l1 & l2 & v & x & -> & Hp & Hkey & Hv & Hf & Hrm).
    destruct (indexed_remove _ _ _ _ _ _ _ _ _ Hg Hkey) as (h' & Hr & Hs & _ & _ & Hg').
    rewrite Hr. cbn [mbind option_bind]. eexists _, (l1 ++ l2). split.
    { rewrite bool_decide_true; [done|]. rewrite <- Hgk, Hv, fmap_app. set_solver. }
    split; [done|]. split; [done|]. cbn [lfu_with_ghost _lfu_ghost_heap].
    by rewrite (same_nodes_view _ _ _ Hs), <- Hrm, ekey_remove, Hgk.
  - pose proof (indexed_miss _ _ _ _ _ _ _ Hg Hk) as Hn.
    exists c, gs. rewrite <- Hgk, <- ekey_remove, bool_decide_false, entry_remove_none by done.
    split; [done|]. split; [by destruct c|by split].
Qed.

Lemma lfu_remove_oldest_ghost_sim c g gs :
  lfu_ghost_nodes c g gs →
  ∃ c' gs', lfu_remove_oldest_ghost c = Some c' ∧ lfu_same_main c c'
    ∧ lfu_ghost_nodes c' (drop 1 g) gs'.
Proof.
  intros [Hg Hgk]. unfold lfu_remove_oldest_ghost.
  pose proof (dlist_first _ _ _ _ (ix_list _ _ _ _ _ _ Hg)) as Hl. unfold next_of in Hl.
  destruct (_lfu_ghost_heap c !! GHEAD) as [t|]; [|done]. cbn [mbind option_bind] in *. rewrite Hl.
  cbn [mbind option_bind]. destruct gs as [|n gs].
  - rewrite bool_decide_true by done. exists c, []. rewrite <- Hgk. split; [done|].
    split; [by destruct c|by split].
  - cbn [list.head hd_error from_option]. unfold id.
    pose proof (dl_nodup _ _ _ _ (ix_list _ _ _ _ _ _ Hg)) as Hnd.
    rewrite bool_decide_false.
    2:{ apply NoDup_cons in Hnd as [_ [Hn _]%NoDup_cons]. set_solver. }
    destruct (indexed_payload _ _ _ _ _ _ n Hg) as (k & v & x & Hp & Hk); [set_solver|].
    assert (key_of (_lfu_ghost_heap c) n = Some k) as Hkey by (unfold key_of; by rewrite Hp).
    destruct (indexed_remove _ _ _ _ [] n gs _ _ Hg Hkey) as (h' & -> & Hs & _ & _ & Hg').
    cbn [mbind option_bind app] in *.
    pose proof Hp as Hp'. rewrite <- (proj1 Hs) in Hp'. unfold payload in Hp'.
    destruct (h' !! n) as [nn|] eqn:Hnn; [|done]. cbn [mbind option_bind] in *. simplify_eq.
    eexists _, gs. split; [done|]. split; [done|]. split; [done|]. cbn [lfu_with_ghost _lfu_ghost_heap].
    by rewrite (same_nodes_view _ _ _ Hs), (view_cons _ _ _ _ Hp), fmap_cons.
Qed.

Lemma lfu_add_to_ghost_sim c g gs n k v x :
  lfu_ghost_nodes c g gs → _lfu_ghost_capacity c ≠ 0 →
  payload (_lfu_heap c) n = Some (k, v, x) → k ∉ g →
  ∃ c' gs', lfu_add_to_ghost c n = Some c' ∧ lfu_same_main c c' ∧ lfu_ghost_nodes c' (g ++ [k]) gs'.
Proof.
  intros [Hg Hgk] Hgc0 Hp Hk. unfold lfu_add_to_ghost.
  rewrite (proj2 (Z.eqb_neq _ _)) by done. unfold payload in Hp.
  destruct (_lfu_heap c !! n) as [e|]; [|done]. cbn [mbind option_bind] in *.
  assert (_nkey e = k) as -> by congruence.
  assert (_lfu_ghost_cache c !! k = None) as Hkn.
  { apply eq_None_not_Some. rewrite (indexed_dom _ _ _ _ _ _ _ Hg), Hgk. done. }
  destruct (indexed_alloc _ _ _ _ _ _ k tt Hg) as (Hl1 & Hd1 & Hnin & _).
  destruct (add_to_back_spec _ _ _ _ _ Hl1 Hd1 Hnin) as (h' & -> & Hl' & Hs' & _).
  cbn [mbind option_bind].
  destruct (indexed_insert _ _ h' _ _ _ _ (gs ++ [_lfu_ghost_fresh c]) _ k tt Hg eq_refl Hkn Hl' Hs')
    as (Hg' & Hpf & Hpn); [set_solver|].
  eexists _, (gs ++ [_lfu_ghost_fresh c]). split; [done|]. split; [done|]. split; [done|].
  cbn [lfu_with_ghost _lfu_ghost_heap].
  rewrite view_app, (view_cons _ _ _ _ Hpf), fmap_app, (view_ext _ _ _ Hpn), Hgk. done.
Qed.

Lemma lfu_ghost_record_sim c g gs n k v x :
  lfu_ghost_nodes c g gs → Zlen g <= _lfu_ghost_capacity c →
  payload (_lfu_heap c) n = Some (k, v, x) → k ∉ g →
  ∃ c1 c2 gs',
    (if _lfu_ghost_capacity c <=? lfu_size (_lfu_ghost_cache c)
     then lfu_remove_oldest_ghost c else Some c) = Some c1
    ∧ lfu_add_to_ghost c1 n = Some c2 ∧ lfu_same_main c c2
    ∧ lfu_ghost_nodes c2 (lf_record (_lfu_ghost_capacity c) k g) gs'.
Proof.
  intros Hn Hle Hp Hk. rewrite (lfu_ghost_size _ _ _ Hn). unfold lf_record.
  set (full := _lfu_ghost_capacity c <=? Zlen g).
  assert (∃ c1 gs1, (if full then lfu_remove_oldest_ghost c else Some c) = Some c1
    ∧ lfu_same_main c c1 ∧ lfu_ghost_nodes c1 (if full then drop 1 g else g) gs1)
    as (c1 & gs1 & -> & Hsm & Hg1).
  { destruct full.
    - by eapply lfu_remove_oldest_ghost_sim.
    - exists c, gs. split; [done|]. split; [by destruct c|done]. }
  exists c1. assert (_lfu_ghost_capacity c1 = _lfu_ghost_capacity c ∧ _lfu_heap c1 = _lfu_heap c)
    as [E1 E2] by by rewrite Hsm.
  destruct (Z.eqb_spec (_lfu_ghost_capacity c) 0) as [H0|H0].
  - exists c1, gs1. unfold lfu_add_to_ghost. rewrite E1, H0. do 3 (split; [done|]).
    assert (g = []) as Eg by (destruct g; [done|lens; lia]). rewrite Eg in Hg1.
    by destruct full.
  - destruct (lfu_add_to_ghost_sim c1 _ gs1 n k v x Hg1) as (c2 & gs2 & Ha & Hsm2 & Hg2);
      [by rewrite E1|by rewrite E2| |].
    { destruct full; [|done]. intros Hin. apply Hk.
      rewrite <- (take_drop 1 g). apply elem_of_app. by right. }
    exists c2, gs2. split; [done|]. split; [done|]. split; [|done].
    unfold lfu_same_main in *. by rewrite Hsm2, Hsm.
Qed.

Lemma lfu_hit c s ns gs key n :
  lfu_nodes c s ns gs → _lfu_cache c !! key = Some n →
  ∃ v x nd, entry_find key (lf_main s) = Some (v, x) ∧ key ∈ ekey <$> lf_main s
    ∧ _lfu_heap c !! n = Some nd ∧ _nkey nd = key ∧ _nvalue nd = v ∧ _access_count nd = x.
Proof.
  intros Hn Hk. pose proof (fn_main _ _ _ _ Hn) as Hm.
  destruct (stored_hit _ _ _ _ _ _ Hm Hk) as (l1 & l2 & v & x & -> & Hp & _ & Hv & Hf & _).
  unfold payload in Hp. destruct (_lfu_heap c !! n) as [nd|]; [|done]. cbn in Hp.
  exists v, x, nd. rewrite <- (fn_entries _ _ _ _ Hn), Hv, fmap_app. rewrite Hv in Hf.
  split; [done|]. split; [set_solver|]. by simplify_eq.
Qed.

Lemma lfu_miss c s ns gs key :
  lfu_nodes c s ns gs → _lfu_cache c !! key = None →
  entry_find key (lf_main s) = None ∧ key ∉ ekey <$> lf_main s.
Proof.
  intros Hn Hk. pose proof (stored_miss _ _ _ _ _ (fn_main _ _ _ _ Hn) Hk) as Hout.
  rewrite (fn_entries _ _ _ _ Hn) in Hout. split; [by apply entry_find_none|done].
Qed.

(** Touching the node of a resident key, its value being possibly just replaced. *)
Lemma update_frequency_sim c s ns gs key n nd v' v x :
  lfu_nodes c s ns gs → _lfu_cache c !! key = Some n →
  entry_find key (lf_main s) = Some (v, x) → _lfu_heap c !! n = Some nd →
  let nd' := mkNode (_nkey nd) v' (_access_count nd) (_prev nd) (_next nd) in
  ∃ c' nd'', update_node_frequency
      (lfu_with c (_min_freq c) (_lfu_cache c) (_freq_map c) (<[n := nd']> (_lfu_heap c)) (_lfu_fresh c)) n
      = Some c'
    ∧ _lfu_heap c' !! n = Some nd'' ∧ _nvalue nd'' = v' ∧ lfu_rep c' (lf_touch s key v' x).
Proof.
  intros Hn Hk Hf Hnd. cbv zeta. destruct Hn as [Hm He Hb Hmin [Hg1 Hg2] Hc Hgc].
  destruct (stored_hit _ _ _ _ _ _ Hm Hk) as (l1 & l2 & v0 & x0 & -> & Hp & Hkey & _ & Hf' & Hrm).
  rewrite He in Hf', Hrm. assert (v0 = v ∧ x0 = x) as [-> ->] by (by simplify_eq).
  pose proof (count_of_payload _ _ _ _ _ Hp) as Hcnt.
  assert (_nkey nd = key ∧ _access_count nd = x) as [Ek Ex].
  { unfold payload in Hp. rewrite Hnd in Hp. by simplify_eq/=. }
  destruct (stored_remove _ _ _ _ _ _ _ Hm Hkey) as [_ Hnin].
  destruct (buckets_remove _ _ _ _ _ _ Hb Hcnt Hnin) as [Hold Hb1].
  unfold update_node_frequency, increment_access_count.
  cbn [lfu_with _lfu_heap _freq_map _min_freq _lfu_cache _lfu_fresh].
  rewrite lookup_insert_eq. cbn [mbind option_bind _access_count _nkey _nvalue _prev _next].
  rewrite lookup_insert_eq. cbn [mbind option_bind _access_count]. rewrite insert_insert_eq, Ex, Ek.
  set (nd2 := mkNode key v' (u64 (x + 1)) (_prev nd) (_next nd)).
  destruct (stored_update _ _ _ _ n nd nd2 Hm Hnd) as (Hm2 & Hp2 & Hpn2); [by rewrite Ek|].
  set (h2 := <[n := nd2]> (_lfu_heap c)) in *. cbn in Hp2. rewrite Ek in Hp2.
  assert (∀ b, b ∈ l1 ++ l2 → payload h2 b = payload (_lfu_heap c) b) as Hpl.
  { intros b Hb'. apply Hpn2. intros ->. done. }
  set (F := match filter (λ y, y ≠ n) (bucket (_freq_map c) x) with [] => _ | _ => _ end) in Hb1.
  assert (buckets_ok h2 (l1 ++ l2) F) as Hb2.
  { eapply buckets_ext; [|exact Hb1]. intros b Hb'. by apply payload_count, Hpl. }
  pose proof (buckets_push h2 (l1 ++ l2) n F (u64 (x + 1)) Hb2 (count_of_payload _ _ _ _ _ Hp2)) as Hb3.
  assert (lf_at x (entry_remove key (lf_main s)) = [] ↔ filter (λ y, y ≠ n) (bucket (_freq_map c) x) = [])
    as Hempty.
  { rewrite Hold, Hrm. apply bucket_nil. intros b Hb'. apply (st_alive _ _ _ _ Hm). set_solver. }
  assert (match filter (λ y, y ≠ n) (bucket (_freq_map c) x) with
          | [] => (delete x (_freq_map c), if x =? _min_freq c then u64 (x + 1) else _min_freq c)
          | _ => (<[x := filter (λ y, y ≠ n) (bucket (_freq_map c) x)]> (_freq_map c), _min_freq c)
          end = (F, lf_min_freq (lf_touch s key v' x))) as ->.
  { unfold F, lf_touch. cbn [lf_with lf_min_freq]. rewrite Hmin.
    destruct (filter (λ y, y ≠ n) (bucket (_freq_map c) x)) as [|b l].
    - by rewrite (proj2 Hempty).
    - destruct (lf_at x (entry_remove key (lf_main s))); [|done]. discriminate (proj1 Hempty eq_refl). }
  eexists _, nd2. split; [done|]. cbn [lfu_with _lfu_heap]. split; [apply lookup_insert_eq|].
  split; [done|]. exists (l1 ++ l2 ++ [n]), gs. rewrite app_assoc.
  split; cbn [lfu_with lf_touch lf_with _lfu_heap _lfu_cache _lfu_fresh _freq_map lf_main]; try done.
  - eapply stored_perm; [|exact Hm2]. rewrite <- Permutation_cons_append. apply Permutation_sym, Permutation_middle.
  - by rewrite view_app, (view_cons _ _ _ _ Hp2), (view_ext _ _ _ Hpl), Hrm.
Qed.

(** The front of the victim bucket is the first entry of its count. *)
Lemma victim_node h m ns fresh F minf k v x rest :
  stored h m ns fresh → buckets_ok h ns F → lf_at minf (view h ns) = (k, v, x) :: rest →
  ∃ n restn, bucket F minf = n :: restn ∧ n ∈ ns ∧ n ∉ restn ∧ payload h n = Some (k, v, x)
    ∧ count_of h n = Some minf ∧ view h restn = rest ∧ F !! minf = Some (n :: restn)
    ∧ (restn = [] ↔ rest = []).
Proof.
  intros Hm Hb Hat. rewrite <- view_bucket in Hat by apply Hm.
  rewrite (bucket_ok _ _ _ _ Hb), Hb.
  pose proof (NoDup_filter (λ n, count_of h n = Some minf) ns (st_nodup _ _ _ _ Hm)) as Hnd.
  assert (∀ b, b ∈ filter (λ n, count_of h n = Some minf) ns → count_of h b = Some minf ∧ b ∈ ns) as Hin
    by (intros b; by rewrite list_elem_of_filter).
  destruct (filter _ ns) as [|n restn]; [done|]. exists n, restn. apply NoDup_cons in Hnd as [Hn _].
  destruct (Hin n) as [Hc Hns]; [set_solver|].
  destruct (stored_payload _ _ _ _ _ Hm Hns) as (k' & v' & x' & Hp & _).
  rewrite (view_cons _ _ _ _ Hp) in Hat. injection Hat as -> -> -> Hr.
  do 7 (split; [done|]). rewrite <- Hr. split; [by intros ->|]. destruct restn as [|b l]; [done|].
  destruct (Hin b) as [_ Hbns]; [set_solver|].
  destruct (stored_payload _ _ _ _ _ Hm Hbns) as (? & ? & ? & Hpb & _).
  by rewrite (view_cons _ _ _ _ Hpb).
Qed.

Lemma lfu_evict_sim c s :
  lfu_rep c s → lf_ok s → ∃ c', evict_least_frequent c = Some c' ∧ lfu_rep c' (lf_evict s).
Proof.
  intros (ns & gs & Hn) [Hle _ _ Hdis Hvic]. pose proof Hn as [Hm He Hb Hmin [Hg1 Hg2] Hc Hgc].
  unfold evict_least_frequent, lf_evict.
  destruct (lf_at (lf_min_freq s) (lf_main s)) as [|[[k v] x] rest] eqn:Hat.
  { assert (lf_main s = []) as Enil by (destruct (lf_main s); [done|by destruct Hvic]).
    rewrite bool_decide_true; [exists c; split; [done|by exists ns, gs]|].
    apply map_empty. intros f. apply eq_None_not_Some. rewrite (buckets_dom _ _ _ _ Hb) by apply Hm.
    rewrite He, Enil. intros (e & Hin & _). set_solver. }
  rewrite <- He, <- Hmin in Hat.
  destruct (victim_node _ _ _ _ _ _ _ _ _ _ Hm Hb Hat)
    as (n & restn & Hbk & Hns & Hnr & Hp & Hcnt & Hvr & HF & Hnil).
  rewrite bool_decide_false by (intros E; by rewrite E, lookup_empty in HF).
  rewrite Hbk, (insert_id _ _ _ HF).
  assert (_lfu_cache c !! k = Some n) as Hk
    by (apply Hm; split; [done|unfold key_of; by rewrite Hp]).
  destruct (stored_hit _ _ _ _ _ _ Hm Hk) as (l1 & l2 & _ & _ & -> & _ & Hkey & _ & _ & Hrm).
  destruct (stored_remove _ _ _ _ _ _ _ Hm Hkey) as [Hm' Hnin]. rewrite He in Hrm.
  destruct (buckets_remove _ _ _ _ _ _ Hb Hcnt Hnin) as [_ Hb1].
  rewrite Hbk, (filter_remove_mid [] restn n Hnr) in Hb1. cbn [app] in Hb1.
  set (minf := match rest with [] => default (lf_min_freq s) (min_count (entry_remove k (lf_main s)))
               | _ => lf_min_freq s end).
  set (F := match restn with [] => delete (_min_freq c) (_freq_map c)
            | _ => <[_min_freq c := restn]> (_freq_map c) end).
  assert (buckets_ok (_lfu_heap c) (l1 ++ l2) F) as HbF by (unfold F; by destruct restn).
  assert (match restn with
          | [] => (delete (_min_freq c) (_freq_map c),
                   default (_min_freq c) (first_freq (delete (_min_freq c) (_freq_map c))))
          | _ :: _ => (<[_min_freq c := restn]> (_freq_map c), _min_freq c)
          end = (F, minf)) as ->.
  { unfold F, minf in *. rewrite Hmin in *. destruct restn as [|b l].
    - rewrite (proj1 Hnil eq_refl). by rewrite (first_freq_min _ _ _ HbF), Hrm by apply Hm'.
    - destruct rest; [discriminate (proj2 Hnil eq_refl)|done]. }
  destruct (lfu_ghost_record_sim (lfu_with c minf (_lfu_cache c) F (_lfu_heap c) (_lfu_fresh c))
    (lf_ghosts s) gs n k v x) as (c1 & c2 & gs' & H1 & H2 & Hsm & Hg'); [done|by cbn; rewrite Hgc|done| |].
  { apply Hdis. rewrite <- He. rewrite <- (stored_dom _ _ _ _ _ Hm). by exists n. }
  cbn [_lfu_ghost_capacity lfu_with _lfu_ghost_cache] in *.
  rewrite H1. cbn [mbind option_bind]. rewrite H2. cbn [mbind option_bind].
  assert (_lfu_heap c2 = _lfu_heap c ∧ _lfu_cache c2 = _lfu_cache c) as [-> ->] by by rewrite Hsm.
  unfold payload in Hp. destruct (_lfu_heap c !! n) as [nn|]; [|done]. cbn [mbind option_bind] in *.
  assert (_nkey nn = k) as -> by congruence. rewrite Hgc in Hg'.
  eexists. split; [done|]. exists (l1 ++ l2), gs'. rewrite Hsm in *.
  destruct Hg' as [? ?]. by split.
Qed.

Lemma lf_forget_ok s k : lf_ok s → lf_ok (lf_forget s k).2 ∧ k ∉ lf_ghosts (lf_forget s k).2.
Proof.
  intros [H1 H2 H3 H4 H5]. split; [split; cbn|]; try done.
  - etransitivity; [apply filter_len_le|done].
  - by apply NoDup_filter.
  - intros j Hj. rewrite elem_of_key_removed. intros [? _]. by apply (H4 j).
  - cbn. rewrite elem_of_key_removed. tauto.
Qed.

Lemma lfu_forget_nodes c c' s ns gs gs' k :
  lfu_nodes c s ns gs → lfu_same_main c c' →
  lfu_ghost_nodes c' (filter (λ x, x ≠ k) (lf_ghosts s)) gs' →
  lfu_nodes c' (lf_forget s k).2 ns gs'.
Proof. intros Hn Hsm Hg. by apply (lfu_nodes_ghost _ _ _ _ _ _ _ Hn Hsm Hg). Qed.

(** Insertion of a node for a key that is not resident. *)
Lemma lfu_insert_sim c s key value :
  lfu_rep c s → key ∉ ekey <$> lf_main s →
  let node := _lfu_fresh c in
  lfu_rep (lfu_with c 1 (<[key := node]> (_lfu_cache c))
             (<[1 := bucket (_freq_map c) 1 ++ [node]]> (_freq_map c))
             (<[node := new_node key value]> (_lfu_heap c)) (S node))
    (lf_with s 1 (lf_main s ++ [(key, value, 1)]) (lf_ghosts s)).
Proof.
  intros (ns & gs & [Hm He Hb Hmin [Hg1 Hg2] Hc Hgc]) Hk. cbv zeta.
  assert (_lfu_cache c !! key = None) as Hkn.
  { apply eq_None_not_Some. by rewrite (stored_dom _ _ _ _ _ Hm), He. }
  destruct (stored_insert _ _ _ _ key value Hm Hkn) as (Hm' & Hp & Hnin & Hpn).
  assert (∀ n, n ∈ ns → payload (<[_lfu_fresh c := new_node key value]> (_lfu_heap c)) n
                        = payload (_lfu_heap c) n) as Hpl by (intros n Hn; apply Hpn; by intros ->).
  exists (ns ++ [_lfu_fresh c]), gs. split; cbn [lfu_with lf_with _lfu_heap _lfu_cache _freq_map _lfu_fresh lf_main]; try done.
  - by rewrite view_app, (view_cons _ _ _ _ Hp), (view_ext _ _ _ Hpl), He.
  - apply buckets_push; [|by eapply count_of_payload].
    eapply buckets_ext; [|exact Hb]. intros n Hn. by apply payload_count, Hpl.
Qed.

Lemma lf_evict_keys s :
  (∀ j, j ∈ ekey <$> lf_main (lf_evict s) → j ∈ ekey <$> lf_main s)
  ∧ lf_capacity (lf_evict s) = lf_capacity s.
Proof.
  unfold lf_evict. destruct (lf_at _ _) as [|[[k v] x] rest]; [done|]. cbn.
  split; [|done]. intros j. rewrite ekey_remove, elem_of_key_removed. tauto.
Qed.

Lemma lfu_put_sim c s key value :
  lfu_rep c s → lf_ok s →
  ∃ c', lfu_put c key value = Some ((lf_put s key value).1, c') ∧ lfu_rep c' (lf_put s key value).2.
Proof.
  intros (ns & gs & Hn) Hok. unfold lfu_put, lf_put. rewrite (fn_capacity _ _ _ _ Hn).
  destruct (lf_capacity s =? 0); [exists c; split; [done|]; by exists ns, gs|].
  destruct (_lfu_cache c !! key) as [n|] eqn:Hk.
  { destruct (lfu_hit _ _ _ _ _ _ Hn Hk) as (v & x & nd & Hf & _ & Hnd & _).
    destruct (update_frequency_sim _ _ _ _ _ _ _ value _ _ Hn Hk Hf Hnd) as (c' & _ & Hu & _ & _ & Hr).
    unfold lfu_update_existing, set_value. rewrite Hnd, Hf. cbn [mbind option_bind]. rewrite Hu. by exists c'. }
  destruct (lfu_miss _ _ _ _ _ Hn Hk) as [-> Hout]. cbn [fst snd].
  destruct (lfu_erase_ghost_sim c _ gs key (fn_ghost _ _ _ _ Hn)) as (c1 & gs1 & -> & Hsm & Hg1).
  pose proof (lfu_forget_nodes _ _ _ _ _ _ _ Hn Hsm Hg1) as Hn1. cbn [mbind option_bind].
  unfold lfu_add_new_node. rewrite (lfu_main_size _ _ _ _ Hn1), (fn_capacity _ _ _ _ Hn1).
  change (lf_capacity (lf_forget s key).2) with (lf_capacity s).
  change (lf_main (lf_forget s key).2) with (lf_main s).
  set (s1 := (lf_forget s key).2) in *.
  assert (∃ c2, (if lf_capacity s <=? Zlen (lf_main s) then evict_least_frequent c1 else Some c1) = Some c2
    ∧ lfu_rep c2 (if lf_capacity s <=? Zlen (lf_main s) then lf_evict s1 else s1)) as (c2 & -> & Hr2).
  { destruct (lf_capacity s <=? Zlen (lf_main s)).
    - apply lfu_evict_sim; [by exists ns, gs1|by apply lf_forget_ok].
    - exists c1. split; [done|]. by exists ns, gs1. }
  cbn [mbind option_bind]. eexists. split; [done|]. apply lfu_insert_sim; [done|].
  destruct (lf_capacity s <=? Zlen (lf_main s)); [|done].
  intros Hin. by apply Hout, (proj1 (lf_evict_keys s1)).
Qed.

Lemma lfu_get_sim c s key :
  lfu_rep c s →
  ∃ c', lfu_get c key = Some ((lf_get s key).1, c') ∧ lfu_rep c' (lf_get s key).2.
Proof.
  intros (ns & gs & Hn). unfold lfu_get, lf_get.
  destruct (_lfu_cache c !! key) as [n|] eqn:Hk.
  - destruct (lfu_hit _ _ _ _ _ _ Hn Hk) as (v & x & nd & Hf & _ & Hnd & Hkey & Hv & Hx).
    destruct (update_frequency_sim _ _ _ _ _ _ _ v _ _ Hn Hk Hf Hnd) as (c' & nd' & Hu & Hnd' & Hv' & Hr).
    rewrite Hf. cbn [fst snd].
    assert (lfu_with c (_min_freq c) (_lfu_cache c) (_freq_map c)
      (<[n := mkNode (_nkey nd) v (_access_count nd) (_prev nd) (_next nd)]> (_lfu_heap c)) (_lfu_fresh c) = c)
      as Ec. { rewrite insert_id; [by destruct c|]. rewrite Hnd. by destruct nd; cbn in *; subst. }
    rewrite Ec in Hu. rewrite Hu. cbn [mbind option_bind]. rewrite Hnd'. cbn [mbind option_bind].
    rewrite Hv'. by exists c'.
  - destruct (lfu_miss _ _ _ _ _ Hn Hk) as [-> _]. exists c. split; [done|]. by exists ns, gs.
Qed.

Lemma lfu_contain_sim c s key : lfu_rep c s → lfu_contain c key = lf_contain s key.
Proof.
  intros (ns & gs & Hn). unfold lfu_contain, lf_contain. apply bool_decide_ext.
  by rewrite (stored_dom _ _ _ _ _ (fn_main _ _ _ _ Hn)), (fn_entries _ _ _ _ Hn).
Qed.

Lemma lfu_check_ghost_sim c s key :
  lfu_rep c s →
  ∃ c', lfu_check_ghost c key = Some ((lf_forget s key).1, c') ∧ lfu_rep c' (lf_forget s key).2.
Proof.
  intros (ns & gs & Hn). unfold lfu_check_ghost.
  destruct (lfu_erase_ghost_sim c _ gs key (fn_ghost _ _ _ _ Hn)) as (c1 & gs1 & -> & Hsm & Hg1).
  exists c1. split; [done|]. exists ns, gs1. by eapply lfu_forget_nodes.
Qed.

Lemma lfu_invalidate_sim c s key :
  lfu_rep c s →
  ∃ c', lfu_invalidate c key = Some ((lf_invalidate s key).1, c') ∧ lfu_rep c' (lf_invalidate s key).2.
Proof.
  intros Hr. pose proof (lfu_contain_sim c s key Hr) as Hct. destruct Hr as (ns & gs & Hn).
  unfold lfu_invalidate, lf_invalidate. rewrite <- Hct. unfold lfu_contain.
  destruct (_lfu_cache c !! key) as [n|] eqn:Hk.
  2:{ rewrite bool_decide_false by (by intros [? ?]). cbn [mbind option_bind].
      destruct (lfu_check_ghost_sim c s key) as (c' & Hcg & Hr'); [by exists ns, gs|].
      unfold lfu_check_ghost in Hcg. rewrite Hcg. cbn [mbind option_bind].
      exists c'. by destruct (lf_forget s key). }
  rewrite bool_decide_true by (by eexists).
  destruct (lfu_hit _ _ _ _ _ _ Hn Hk) as (v & x & nd & _ & _ & Hnd & Ek & Ev & Ex).
  rewrite Hnd. cbn [mbind option_bind]. rewrite Ex.
  destruct Hn as [Hm He Hb Hmin [Hg1 Hg2] Hc Hgc].
  destruct (stored_hit _ _ _ _ _ _ Hm Hk) as (l1 & l2 & v0 & x0 & -> & Hp & Hkey & _ & _ & Hrm).
  destruct (stored_remove _ _ _ _ _ _ _ Hm Hkey) as [Hm' Hnin]. rewrite He in Hrm.
  assert (count_of (_lfu_heap c) n = Some x) as Hcnt by (unfold count_of; by rewrite Hnd, <- Ex).
  destruct (buckets_remove _ _ _ _ _ _ Hb Hcnt Hnin) as [_ Hb1].
  assert (_freq_map c !! x = Some (bucket (_freq_map c) x)) as HF.
  { unfold bucket. destruct (_freq_map c !! x) eqn:E; [done|]. exfalso. apply eq_None_not_Some in E.
    apply E. rewrite (buckets_dom _ _ _ _ Hb) by apply Hm. exists (key, v0, x0). rewrite view_app, (view_cons _ _ _ _ Hp).
    split; [set_solver|]. pose proof (count_of_payload _ _ _ _ _ Hp). cbn. congruence. }
  rewrite HF. set (F := match filter (λ y, y ≠ n) (bucket (_freq_map c) x) with [] => _ | _ => _ end) in *.
  rewrite (first_freq_min _ _ _ Hb1), <- Hrm by apply Hm'. cbn [mbind option_bind].
  set (s1 := lf_with s (default 0 (min_count (entry_remove key (lf_main s))))
    (entry_remove key (lf_main s)) (lf_ghosts s)).
  destruct (lfu_check_ghost_sim (lfu_with c (lf_min_freq s1) (delete key (_lfu_cache c)) F
    (_lfu_heap c) (_lfu_fresh c)) s1 key) as (c' & Hcg & Hr').
  { exists (l1 ++ l2), gs. by split. }
  unfold lfu_check_ghost in Hcg. cbn [s1 lf_with lf_min_freq] in Hcg. rewrite Hcg. cbn [mbind option_bind].
  exists c'. by destruct (lf_forget s1 key).
Qed.

Lemma lfu_resize_rep c s cap : lfu_rep c s → lfu_rep (lfu_resize c cap) (lf_resize s cap).
Proof. intros (ns & gs & [Hm He Hb Hmin [Hg1 Hg2] Hc Hgc]). exists ns, gs. by split. Qed.

Lemma lfu_rep_capacity c s : lfu_rep c s → _lfu_capacity c = lf_capacity s.
Proof. intros (ns & gs & Hn). apply Hn. Qed.

Lemma lfu_increase_sim c s : lfu_rep c s → lfu_rep (lfu_increase_capacity c) (lf_increase s).
Proof.
  intros Hr. unfold lfu_increase_capacity, lf_increase. rewrite (lfu_rep_capacity _ _ Hr).
  by apply lfu_resize_rep.
Qed.

Lemma entry_remove_length (l : list (K * V * Z)) k :
  NoDup (ekey <$> l) → k ∈ ekey <$> l → Zlen (entry_remove k l) = Zlen l - 1.
Proof.
  intros Hnd Hk. apply list_elem_of_fmap in Hk as ([[k' v] x] & -> & Hin). cbn [ekey fst].
  apply list_elem_of_split in Hin as (a & b & ->). rewrite fmap_app, fmap_cons in Hnd.
  apply NoDup_app in Hnd as (_ & Hab & [Hb _]%NoDup_cons).
  rewrite entry_remove_app; [rewrite !Zlen_app, Zlen_cons; lia| |done].
  intros Hin. apply (Hab _ Hin). set_solver.
Qed.

Lemma lf_victim_resident s k v x rest :
  lf_at (lf_min_freq s) (lf_main s) = (k, v, x) :: rest →
  k ∈ ekey <$> lf_main s ∧ x = lf_min_freq s ∧ (k, v, x) ∈ lf_main s.
Proof.
  intros Hat. assert ((k, v, x) ∈ lf_at (lf_min_freq s) (lf_main s)) as [Hx Hin]%list_elem_of_filter
    by (rewrite Hat; set_solver).
  split; [|done]. apply list_elem_of_fmap. by exists (k, v, x).
Qed.

Lemma lf_evict_length s : lf_ok s → Zlen (lf_main (lf_evict s)) = Z.max 0 (Zlen (lf_main s) - 1).
Proof.
  intros Hok. unfold lf_evict. destruct (lf_at _ _) as [|[[k v] x] rest] eqn:E.
  - destruct (lf_main s) eqn:Em; [done|]. exfalso. apply (lfo_victim _ Hok); by rewrite Em.
  - cbn. destruct (lf_victim_resident _ _ _ _ _ E) as (Hk & _ & Hin).
    rewrite entry_remove_length by (done || apply Hok).
    assert (0 < Zlen (lf_main s)); [|lia]. destruct (lf_main s); [set_solver|]. rewrite Zlen_cons.
    pose proof (Zlen_nonneg l). lia.
Qed.

Lemma lfu_decrease_sim c s :
  lfu_rep c s → lf_wf s →
  ∃ c', lfu_decrease_capacity c = Some ((lf_decrease s).1, c') ∧ lfu_rep c' (lf_decrease s).2.
Proof.
  intros Hr [H0 Hb Hok]. unfold is_u64 in H0. unfold lfu_decrease_capacity, lf_decrease.
  rewrite (lfu_rep_capacity _ _ Hr).
  destruct (Z.eqb_spec (lf_capacity s) 0) as [E0|E0]; [by exists c|].
  pose proof (lfu_resize_rep c s (lf_capacity s - 1) Hr) as Hr1.
  set (c1 := lfu_resize c _) in *. set (s1 := lf_resize s _) in *. cbn [fst snd].
  assert (lf_ok s1) as Hok1 by (destruct Hok; by split).
  assert (∀ c s, lfu_rep c s → lfu_size (_lfu_cache c) = Zlen (lf_main s)) as Hsz.
  { intros ? ? (ns & gs & Hn). by eapply lfu_main_size. }
  cbn [lfu_shrink]. rewrite (lfu_rep_capacity _ _ Hr1), (Hsz _ _ Hr1).
  destruct (Z.ltb_spec (lf_capacity s1) (Zlen (lf_main s1))) as [Hlt|Hge]; [|exists c1; done].
  destruct (lfu_evict_sim c1 s1 Hr1 Hok1) as (c2 & -> & Hr2). cbn [mbind option_bind].
  exists c2. split; [|done]. pose proof (Hsz _ _ Hr1) as Hsz1. cbn in Hlt.
  destruct (base.size (_lfu_cache c1)) eqn:Esz.
  { unfold lfu_size in Hsz1. rewrite Esz in Hsz1. cbn in Hsz1. lens; lia. }
  cbn [lfu_shrink]. rewrite (lfu_rep_capacity _ _ Hr2), (Hsz _ _ Hr2), lf_evict_length by done.
  rewrite (proj2 (lf_evict_keys s1)). rewrite (proj2 (Z.ltb_ge _ _)); [done|]. cbn. lia.
Qed.

(** ** The promise is kept *)

Lemma lf_at_some f (l : list (K * V * Z)) : lf_at f l ≠ [] ↔ ∃ e, e ∈ l ∧ e.2 = f.
Proof.
  unfold lf_at. split.
  - destruct (filter _ l) as [|e r] eqn:E; [done|]. intros _. exists e.
    assert (e ∈ filter (λ e, e.2 = f) l) as [? ?]%list_elem_of_filter by (rewrite E; set_solver). done.
  - intros (e & He & Hf) Hnil. assert (e ∈ filter (λ e, e.2 = f) l) as Hin by by apply list_elem_of_filter.
    rewrite Hnil in Hin. set_solver.
Qed.

Lemma min_count_at d (l : list (K * V * Z)) : l ≠ [] → lf_at (default d (min_count l)) l ≠ [].
Proof.
  intros Hl. pose proof (min_count_spec l) as Hm. apply lf_at_some.
  destruct (min_count l) as [m|]; [|done]. apply Hm.
Qed.

Lemma elem_of_entry_remove k (e : K * V * Z) l : e ∈ entry_remove k l ↔ e ∈ l ∧ ekey e ≠ k.
Proof. unfold entry_remove. rewrite list_elem_of_filter. tauto. Qed.

Lemma NoDup_keys_filter (P : K * V * Z → Prop) `{!∀ e, Decision (P e)} l :
  NoDup (ekey <$> l) → NoDup (ekey <$> filter P l).
Proof.
  induction l as [|e l IH]; [done|]. rewrite fmap_cons. intros [He Hl]%NoDup_cons.
  rewrite filter_cons. case_decide; [|by apply IH]. rewrite fmap_cons. apply NoDup_cons.
  split; [|by apply IH]. intros (e' & Hk & [_ Hin]%list_elem_of_filter)%list_elem_of_fmap.
  apply He. apply list_elem_of_fmap. by exists e'.
Qed.

Lemma entry_find_in (l : list (K * V * Z)) k v x :
  NoDup (ekey <$> l) → (k, v, x) ∈ l → entry_find k l = Some (v, x).
Proof.
  intros Hnd (a & b & ->)%list_elem_of_split. apply entry_find_app.
  rewrite fmap_app, fmap_cons in Hnd. apply NoDup_app in Hnd as (_ & Hab & _).
  intros Hin. apply (Hab _ Hin). set_solver.
Qed.

(** The entries other than that of [k] keep a minimum that [k] does not carry. *)
Lemma lf_at_remove f k v x (l : list (K * V * Z)) :
  NoDup (ekey <$> l) → entry_find k l = Some (v, x) → f ≠ x → lf_at f l ≠ [] →
  lf_at f (entry_remove k l) ≠ [].
Proof.
  rewrite !lf_at_some. intros Hnd Hf Hne ([[k' v'] x'] & He & Hx). exists (k', v', x').
  split; [|done]. apply elem_of_entry_remove. split; [done|]. cbn in *. intros ->.
  apply entry_find_in in He; [|done]. congruence.
Qed.

Lemma lf_at_app f (a b : list (K * V * Z)) : lf_at f (a ++ b) = lf_at f a ++ lf_at f b.
Proof. apply filter_app. Qed.

Lemma lf_record_spec gcap k g :
  Zlen g <= gcap → NoDup g → k ∉ g →
  Zlen (lf_record gcap k g) <= gcap ∧ NoDup (lf_record gcap k g)
  ∧ ∀ j, j ∈ lf_record gcap k g → j ∈ g ∨ j = k.
Proof.
  intros Hle Hnd Hk. unfold lf_record. destruct (Z.eqb_spec gcap 0) as [->|H0].
  { split; [done|]. split; [apply NoDup_nil_2|set_solver]. }
  assert (∀ j, j ∈ drop 1 g → j ∈ g) as Hd by (intros j; destruct g; set_solver).
  split_and!.
  - pose proof (Zlen_nonneg g). rewrite Zlen_app, Zlen_cons, Zlen_nil.
    destruct (Z.leb_spec gcap (Zlen g)); [|lia]. destruct g as [|a g]; [lens; lia|].
    cbn [drop] in *. rewrite drop_0. lens; lia.
  - apply NoDup_app. split; [|split; [|apply NoDup_singleton]].
    + destruct (gcap <=? Zlen g); [|done]. destruct g as [|a g]; [done|]. cbn. rewrite drop_0.
      by apply NoDup_cons in Hnd as [_ ?].
    + intros j Hj ->%list_elem_of_singleton. destruct (gcap <=? Zlen g); auto.
  - intros j [Hj| ->%list_elem_of_singleton]%elem_of_app; [left|by right].
    destruct (gcap <=? Zlen g); auto.
Qed.

Lemma lf_evict_view s :
  lf_ok s →
  (∀ j w, entry_find j (lf_main (lf_evict s)) = Some w → entry_find j (lf_main s) = Some w)
  ∧ (∀ j, j ∈ lf_ghosts (lf_evict s) → j ∈ lf_ghosts s ∨ j ∈ ekey <$> lf_main s)
  ∧ lf_ok (lf_evict s).
Proof.
  intros Hok. pose proof Hok as [H1 H2 H3 H4 H5]. unfold lf_evict.
  destruct (lf_at _ _) as [|[[k v] x] rest] eqn:E; [by auto|].
  destruct (lf_victim_resident _ _ _ _ _ E) as (Hk & Hx & Hin).
  destruct (lf_record_spec (lf_ghost_capacity s) k (lf_ghosts s)) as (R1 & R2 & R3); [done|done|auto|].
  cbn. split; [|split; [|split; cbn; try done]].
  - intros j w. rewrite entry_find_remove. by case_decide.
  - intros j [?| ->]%R3; auto.
  - rewrite ekey_remove. by apply NoDup_filter.
  - intros j. rewrite entry_remove_keys. intros [Hj Hjk] [Hg| ->]%R3; [by apply (H4 j)|done].
  - intros Hne. destruct rest as [|[[k2 v2] x2] rest]; [by apply min_count_at|].
    apply lf_at_some. exists (k2, v2, x2).
    assert ((k2, v2, x2) ∈ lf_at (lf_min_freq s) (lf_main s)) as [Hx2 Hin2]%list_elem_of_filter
      by (rewrite E; set_solver).
    split; [|done]. apply elem_of_entry_remove. split; [done|]. cbn. intros ->.
    pose proof (NoDup_keys_filter (λ e, e.2 = lf_min_freq s) _ H2) as Hnd.
    unfold lf_at in E.
    rewrite E in Hnd. apply NoDup_cons in Hnd as [Hnd _]. apply Hnd. set_solver.
Qed.

Lemma lf_touch_wf s k v v' x :
  lf_wf s → entry_find k (lf_main s) = Some (v, x) → lf_wf (lf_touch s k v' x).
Proof.
  intros [Hc Hb [H1 H2 H3 H4 H5]] Hf.
  assert (k ∈ ekey <$> lf_main s) as Hk by (apply entry_find_dom; by eexists).
  unfold lf_touch. set (minf := match lf_at x _ with [] => _ | _ => _ end).
  split; cbn; [done| |].
  - rewrite Zlen_app, entry_remove_length, Zlen_cons, Zlen_nil by done. lia.
  - split; cbn [lf_with lf_main lf_ghosts lf_min_freq lf_ghost_capacity]; try done.
    + rewrite fmap_app. apply NoDup_app. split; [rewrite ekey_remove; by apply NoDup_filter|].
      split; [|apply NoDup_singleton]. intros j [_ Hj]%entry_remove_keys ->%list_elem_of_singleton. done.
    + intros j. rewrite fmap_app, elem_of_app, entry_remove_keys.
      intros [[Hj _]| ->%list_elem_of_singleton]; by apply H4.
    + intros _. assert (lf_at (lf_min_freq s) (lf_main s) ≠ []) as Hmin.
      { apply H5. intros Hnil. rewrite Hnil in Hk. set_solver. }
      rewrite lf_at_app. intros [Ha Hlast]%app_eq_nil. unfold minf in *.
      destruct (decide (lf_min_freq s = x)) as [<-|Hne].
      * destruct (lf_at (lf_min_freq s) (entry_remove k (lf_main s))) eqn:Ea; [|congruence].
        rewrite Z.eqb_refl in Hlast. unfold lf_at in Hlast. by rewrite filter_cons_True in Hlast.
      * apply (lf_at_remove _ _ _ _ _ H2 Hf Hne Hmin).
        destruct (lf_at x (entry_remove k (lf_main s))); [|done].
        by rewrite (proj2 (Z.eqb_neq x (lf_min_freq s))) in Ha by congruence.
Qed.

Lemma lf_new_wf cap ghost_cap : is_u64 cap → 0 <= ghost_cap → lf_wf (lf_new cap ghost_cap).
Proof.
  intros Hc Hg. unfold is_u64 in Hc. split; cbn; [done|lens; lia|].
  split; cbn; [lens; lia|apply NoDup_nil_2|apply NoDup_nil_2|set_solver|done].
Qed.

Lemma lf_get_wf s k : lf_wf s → lf_wf (lf_get s k).2.
Proof.
  intros Hwf. unfold lf_get. destruct (entry_find k (lf_main s)) as [[v x]|] eqn:Hf; [|done].
  by eapply lf_touch_wf.
Qed.

Lemma lf_forget_wf s k : lf_wf s → lf_wf (lf_forget s k).2.
Proof. intros [Hc Hb Hok]. split; [done|done|by apply lf_forget_ok]. Qed.

Lemma lf_invalidate_wf s k : lf_wf s → lf_wf (lf_invalidate s k).2.
Proof.
  intros Hwf. unfold lf_invalidate. cbn [lf_forget snd]. apply (lf_forget_wf _ k).
  destruct (lf_contain s k); [|done]. destruct Hwf as [Hc Hb [H1 H2 H3 H4 H5]].
  split; cbn; [done|etransitivity; [apply filter_len_le|done]|]. split; cbn; try done.
  - rewrite ekey_remove. by apply NoDup_filter.
  - intros j [Hj _]%entry_remove_keys. by apply H4.
  - apply min_count_at.
Qed.

Lemma lf_insert_ok s k v :
  lf_ok s → k ∉ ekey <$> lf_main s → k ∉ lf_ghosts s →
  lf_ok (lf_with s 1 (lf_main s ++ [(k, v, 1)]) (lf_ghosts s)).
Proof.
  intros [H1 H2 H3 H4 H5] Hm Hg. split; cbn; try done.
  - rewrite fmap_app. apply NoDup_app. split; [done|]. split; [|apply NoDup_singleton].
    intros j Hj ->%list_elem_of_singleton. done.
  - intros j. rewrite fmap_app. intros [Hj| ->%list_elem_of_singleton]%elem_of_app; [by apply H4|done].
  - intros _. apply lf_at_some. exists (k, v, 1). set_solver.
Qed.

Lemma lf_put_wf s k v : lf_wf s → lf_wf (lf_put s k v).2.
Proof.
  intros Hwf. unfold lf_put. destruct (Z.eqb_spec (lf_capacity s) 0) as [|H0]; [done|].
  destruct (entry_find k (lf_main s)) as [[v0 x]|] eqn:Hf; [by eapply lf_touch_wf|].
  assert (k ∉ ekey <$> lf_main s) as Hout by (rewrite <- entry_find_dom, Hf; by intros [? ?]).
  destruct Hwf as [Hc Hb Hok]. destruct (lf_forget_ok s k Hok) as [Hok1 Hk1].
  destruct (Z.leb_spec (lf_capacity s) (Zlen (lf_main s))) as [Hfull|Hroom]; cbn [snd].
  - destruct (lf_evict_view (lf_forget s k).2 Hok1) as (_ & Hg & Hok2).
    destruct (lf_evict_keys (lf_forget s k).2) as (Hm & Hcap).
    split; cbn [lf_with lf_capacity lf_main]; rewrite ?Hcap; [done| |].
    + rewrite Zlen_app, (lf_evict_length _ Hok1). change (Zlen [(k, v, 1)]) with 1.
      unfold is_u64 in Hc. cbn. lia.
    + apply lf_insert_ok; [done| |].
      * intros Hin. by apply Hout, Hm.
      * intros Hin. apply Hg in Hin as [Hin|Hin]; [by apply Hk1|by apply Hout].
  - split; [done|cbn; rewrite Zlen_app, Zlen_cons, Zlen_nil; lia|]. by apply (lf_insert_ok (lf_forget s k).2).
Qed.

Lemma lf_increase_wf s : lf_wf s → lf_capacity s + 1 < 2 ^ 64 → lf_wf (lf_increase s).
Proof.
  intros [Hc Hb [H1 H2 H3 H4 H5]] Hlt. unfold is_u64 in Hc.
  assert (u64 (lf_capacity s + 1) = lf_capacity s + 1) as E by (apply Z.mod_small; lia).
  split; cbn; rewrite ?E; [unfold is_u64; lia|lia|by split].
Qed.

Lemma lf_decrease_wf s : lf_wf s → lf_wf (lf_decrease s).2.
Proof.
  intros [Hc Hb Hok]. unfold lf_decrease. destruct (Z.eqb_spec (lf_capacity s) 0) as [|H0]; [done|].
  cbn [snd]. set (s1 := lf_resize s (lf_capacity s - 1)). unfold is_u64 in Hc.
  assert (lf_ok s1) as Hok1 by (destruct Hok; by split).
  destruct (Z.ltb_spec (lf_capacity s1) (Zlen (lf_main s1))) as [Hlt|Hge]; cbn in *.
  - pose proof (lf_evict_length s1 Hok1) as El. pose proof (proj2 (lf_evict_keys s1)) as Ec.
    cbn in El, Ec. split; [rewrite Ec; unfold is_u64; lia|rewrite El, Ec; lia|by apply lf_evict_view].
  - split; cbn; [unfold is_u64; lia|lia|done].
Qed.

(** ** Observations *)

Definition lfu_entries (c : ArcLfu) : gmap K V :=
  omap (λ n, _nvalue <$> _lfu_heap c !! n) (_lfu_cache c).
Definition lfu_ghosts (c : ArcLfu) : gset K := dom (_lfu_ghost_cache c).

Definition lfu_inv (c : ArcLfu) : Prop := ∃ s, lfu_rep c s ∧ lf_wf s.

Lemma lfu_rep_entries c s k : lfu_rep c s → lfu_entries c !! k = fst <$> entry_find k (lf_main s).
Proof.
  intros (ns & gs & Hn). unfold lfu_entries. rewrite lookup_omap.
  destruct (_lfu_cache c !! k) as [n|] eqn:Hk.
  - destruct (lfu_hit _ _ _ _ _ _ Hn Hk) as (v & x & nd & -> & _ & Hnd & _ & Hv & _).
    cbn. rewrite Hnd. cbn. by rewrite Hv.
  - by destruct (lfu_miss _ _ _ _ _ Hn Hk) as (-> & _).
Qed.

Lemma lfu_rep_resident c s k : lfu_rep c s → is_Some (lfu_entries c !! k) ↔ k ∈ ekey <$> lf_main s.
Proof. intros Hr. by rewrite (lfu_rep_entries _ _ _ Hr), fmap_is_Some, entry_find_dom. Qed.

Lemma lfu_rep_ghosts c s k : lfu_rep c s → k ∈ lfu_ghosts c ↔ k ∈ lf_ghosts s.
Proof.
  intros (ns & gs & Hn). unfold lfu_ghosts. destruct (fn_ghost _ _ _ _ Hn) as [Hg <-].
  by rewrite elem_of_dom, (indexed_dom _ _ _ _ _ _ _ Hg).
Qed.

Lemma lfu_rep_size c s : lfu_rep c s → Z.of_nat (base.size (lfu_entries c)) = Zlen (lf_main s).
Proof.
  intros Hr. pose proof Hr as (ns & gs & Hn). rewrite <- (lfu_main_size _ _ _ _ Hn).
  unfold lfu_size. f_equal. rewrite <- !size_dom. f_equal. apply set_eq. intros k.
  rewrite !elem_of_dom, (lfu_rep_resident _ _ _ Hr).
  by rewrite (stored_dom _ _ _ _ _ (fn_main _ _ _ _ Hn)), (fn_entries _ _ _ _ Hn).
Qed.

Lemma lfu_entries_eq c c' s s' (f : gmap K V → gmap K V) :
  lfu_rep c s → lfu_rep c' s' →
  (∀ k, fst <$> entry_find k (lf_main s') = f (lfu_entries c) !! k) → lfu_entries c' = f (lfu_entries c).
Proof. intros Hr Hr' Hf. apply map_eq. intros k. by rewrite (lfu_rep_entries _ _ _ Hr'), Hf. Qed.

Lemma lfu_ghosts_eq c c' s s' (g : gset K) :
  lfu_rep c s → lfu_rep c' s' → (∀ k, k ∈ lf_ghosts s' ↔ k ∈ g) → lfu_ghosts c' = g.
Proof. intros Hr Hr' Hg. apply set_eq. intros k. by rewrite (lfu_rep_ghosts _ _ _ Hr'), Hg. Qed.

Lemma entry_find_last (l : list (K * V * Z)) k v x j :
  k ∉ ekey <$> l →
  entry_find j (l ++ [(k, v, x)]) = if decide (j = k) then Some (v, x) else entry_find j l.
Proof.
  intros Hk. case_decide as Hj; [subst; by apply entry_find_app|].
  clear Hk. induction l as [|[[k' v'] x'] l IH]; cbn; [by rewrite decide_False|]. by rewrite IH.
Qed.

Lemma lf_touch_find s k v' x j :
  fst <$> entry_find j (lf_main (lf_touch s k v' x))
  = if decide (j = k) then Some v' else fst <$> entry_find j (lf_main s).
Proof.
  cbn. rewrite entry_find_last by (rewrite entry_remove_keys; tauto).
  rewrite entry_find_remove. by repeat case_decide.
Qed.

Lemma fmap_fst_mono (a b : option (V * Z)) w :
  (∀ p, a = Some p → b = Some p) → fst <$> a = Some w → fst <$> b = Some w.
Proof. intros Hab. destruct a as [p|]; [|done]. by rewrite (Hab p eq_refl). Qed.

Lemma lf_put_view s k v :
  lf_ok s → lf_capacity s ≠ 0 →
  let s' := (lf_put s k v).2 in
  (lf_put s k v).1 = true ∧ lf_capacity s' = lf_capacity s
  ∧ fst <$> entry_find k (lf_main s') = Some v
  ∧ (∀ j w, j ≠ k → fst <$> entry_find j (lf_main s') = Some w → fst <$> entry_find j (lf_main s) = Some w)
  ∧ (∀ j, j ∈ lf_ghosts s' → j ∈ lf_ghosts s ∨ j ∈ ekey <$> lf_main s)
  ∧ (k ∈ ekey <$> lf_main s ∨ Zlen (lf_main s) < lf_capacity s →
     ∀ j, j ≠ k → fst <$> entry_find j (lf_main s') = fst <$> entry_find j (lf_main s)).
Proof.
  intros Hok H0. unfold lf_put. rewrite (proj2 (Z.eqb_neq _ _)) by done.
  destruct (entry_find k (lf_main s)) as [[v0 x]|] eqn:Hf; cbn zeta; cbn [fst snd].
  - split_and!; [done|done| | |by left|].
    + by rewrite (lf_touch_find s k), decide_True.
    + intros j w Hj. by rewrite (lf_touch_find s k), decide_False.
    + intros _ j Hj. by rewrite (lf_touch_find s k), decide_False.
  - assert (k ∉ ekey <$> lf_main s) as Hout by (rewrite <- entry_find_dom, Hf; by intros [? ?]).
    destruct (lf_forget_ok s k Hok) as [Hok1 _]. set (s1 := (lf_forget s k).2) in *.
    set (s2 := if lf_capacity s <=? Zlen (lf_main s) then lf_evict s1 else s1).
    assert (∀ j, j ∈ lf_ghosts s1 → j ∈ lf_ghosts s) as Hg1.
    { intros j Hj. cbn in Hj. by apply elem_of_key_removed in Hj as [? _]. }
    assert (lf_capacity s2 = lf_capacity s ∧ k ∉ ekey <$> lf_main s2
      ∧ (∀ j p, entry_find j (lf_main s2) = Some p → entry_find j (lf_main s) = Some p)
      ∧ (∀ j, j ∈ lf_ghosts s2 → j ∈ lf_ghosts s ∨ j ∈ ekey <$> lf_main s)) as (Hc2 & Hk2 & Hm2 & Hg2).
    { unfold s2. case_match; [|naive_solver].
      destruct (lf_evict_view s1 Hok1) as (Hm & Hg & _). destruct (lf_evict_keys s1) as [Hks Hc].
      split; [done|]. split; [intros Hin; by apply Hout, Hks|]. split; [done|].
      intros j Hj. apply Hg in Hj as [Hj|Hj]; [left; auto|by right]. }
    cbn [lf_with lf_capacity lf_main lf_ghosts]. split_and!; [done|done| | |done|].
    + by rewrite entry_find_last, decide_True.
    + intros j w Hj. rewrite entry_find_last, decide_False by done. apply fmap_fst_mono. apply Hm2.
    + intros [Hin|Hroom] j Hj; [done|]. rewrite entry_find_last, decide_False by done.
      unfold s2. by rewrite (proj2 (Z.leb_gt _ _)) by lia.
Qed.

Lemma lf_decrease_view s :
  lf_ok s → lf_capacity s ≠ 0 →
  let s' := (lf_decrease s).2 in
  (lf_decrease s).1 = true ∧ lf_capacity s' = lf_capacity s - 1
  ∧ (∀ j w, fst <$> entry_find j (lf_main s') = Some w → fst <$> entry_find j (lf_main s) = Some w)
  ∧ (∀ j, j ∈ lf_ghosts s' → j ∈ lf_ghosts s ∨ j ∈ ekey <$> lf_main s).
Proof.
  intros Hok H0. unfold lf_decrease. rewrite (proj2 (Z.eqb_neq _ _)) by done. cbn zeta. cbn [fst snd].
  split; [done|]. case_match; [|naive_solver].
  set (s1 := lf_resize s (lf_capacity s - 1)).
  assert (lf_ok s1) as Hok1 by (destruct Hok; by split).
  destruct (lf_evict_view s1 Hok1) as (Hm & Hg & _). rewrite (proj2 (lf_evict_keys s1)).
  split; [done|]. split; [|done]. intros j w. apply fmap_fst_mono, Hm.
Qed.

Definition lfu_get_advice (c : ArcLfu) (key : K) : option (option V * bool * ArcLfu) :=
  '(v, c) ← lfu_get c key; Some (v, false, c).

#[export] Instance lfu_ops : PartitionOps K V ArcLfu := {|
  p_put := lfu_put;
  p_get := lfu_get_advice;
  p_contain := lfu_contain;
  p_invalidate := lfu_invalidate;
  p_check_ghost := lfu_check_ghost;
  p_increase_capacity := lfu_increase_capacity;
  p_decrease_capacity := lfu_decrease_capacity
|}.

#[export] Program Instance lfu_partition : Partition ArcLfu := {|
  p_inv := lfu_inv;
  p_entries := lfu_entries;
  p_ghosts := lfu_ghosts;
  p_capacity := _lfu_capacity
|}.
Next Obligation.
  intros c (s & Hr & [Hc Hb _]). by rewrite (lfu_rep_size _ _ Hr), (lfu_rep_capacity _ _ Hr).
Qed.
Next Obligation.
  intros c k (s & Hr & [_ _ Hok]) Hk. apply eq_None_not_Some. rewrite (lfu_rep_resident _ _ _ Hr).
  rewrite (lfu_rep_ghosts _ _ _ Hr) in Hk. intros Hin. by apply (lfo_disjoint _ Hok k).
Qed.
Next Obligation.
  intros c k (s & Hr & _). cbn. rewrite (lfu_contain_sim _ _ _ Hr). unfold lf_contain.
  apply bool_decide_ext. by rewrite (lfu_rep_resident _ _ _ Hr).
Qed.
Next Obligation. intros c k v _ H0. cbn. unfold lfu_put. by rewrite H0. Qed.
Next Obligation.
  intros c k v (s & Hr & Hwf) H0. cbn. rewrite (lfu_rep_capacity _ _ Hr) in *.
  destruct (lfu_put_sim c s k v Hr (lfw_ok _ Hwf)) as (c' & Hp & Hr').
  destruct (lf_put_view s k v (lfw_ok _ Hwf) H0) as (Hb & Hc & Hk & Hm & Hg & Hroom). rewrite Hb in Hp.
  exists c'. split; [done|]. split; [by eexists; split; [|by apply lf_put_wf]|].
  split; [by rewrite (lfu_rep_capacity _ _ Hr')|].
  split; [by rewrite (lfu_rep_entries _ _ _ Hr')|]. split; [split|].
  - intros j w Hj. rewrite (lfu_rep_entries _ _ _ Hr), (lfu_rep_entries _ _ _ Hr'). apply Hm. congruence.
  - intros j. rewrite (lfu_rep_ghosts _ _ _ Hr), (lfu_rep_ghosts _ _ _ Hr'), (lfu_rep_resident _ _ _ Hr).
    apply Hg.
  - rewrite (lfu_rep_resident _ _ _ Hr), (lfu_rep_size _ _ Hr). intros Hor j Hj.
    rewrite (lfu_rep_entries _ _ _ Hr), (lfu_rep_entries _ _ _ Hr'). by apply Hroom.
Qed.
Next Obligation.
  intros c k (s & Hr & Hwf). cbn. unfold lfu_get_advice.
  destruct (lfu_get_sim c s k Hr) as (c' & Hg & Hr'). rewrite Hg. cbn [mbind option_bind].
  pose proof (lf_get_wf s k Hwf) as Hwf'. exists false, c'.
  rewrite (lfu_rep_entries _ _ _ Hr), (lfu_rep_capacity _ _ Hr), (lfu_rep_capacity _ _ Hr').
  unfold lf_get in *. destruct (entry_find k (lf_main s)) as [[v x]|] eqn:Hf; cbn [fst snd] in *.
  - split; [done|]. split; [by eexists|]. split; [done|]. split; [|split; [|done]].
    + apply (lfu_entries_eq c c' s _ id Hr Hr'). intros j. rewrite (lf_touch_find s k).
      unfold id. rewrite (lfu_rep_entries _ _ _ Hr). case_decide; [subst; by rewrite Hf|done].
    + apply (lfu_ghosts_eq c c' s _ _ Hr Hr'). intros j. by rewrite (lfu_rep_ghosts _ _ _ Hr).
  - split; [done|]. split; [by eexists|]. split; [done|]. split; [|split; [|done]].
    + apply (lfu_entries_eq c c' s _ id Hr Hr'). intros j. by rewrite (lfu_rep_entries _ _ _ Hr).
    + apply (lfu_ghosts_eq c c' s _ _ Hr Hr'). intros j. by rewrite (lfu_rep_ghosts _ _ _ Hr).
Qed.
Next Obligation.
  intros c k (s & Hr & Hwf). cbn. destruct (lfu_invalidate_sim c s k Hr) as (c' & Hi & Hr').
  exists c'. rewrite Hi. pose proof (lf_invalidate_wf s k Hwf) as Hwf'.
  rewrite (lfu_rep_capacity _ _ Hr), (lfu_rep_capacity _ _ Hr').
  unfold lf_invalidate in *. cbn [lf_forget fst snd] in *. split.
  { do 3 f_equal; apply bool_decide_ext; [by rewrite (lfu_rep_resident _ _ _ Hr)|].
    rewrite (lfu_rep_ghosts _ _ _ Hr). by destruct (lf_contain s k). }
  split; [by eexists|]. split; [by destruct (lf_contain s k)|]. split.
  - apply (lfu_entries_eq c c' s _ (delete k) Hr Hr'). intros j.
    cbn [lf_forget snd lf_with lf_main]. destruct (decide (j = k)) as [->|Hj].
    + rewrite lookup_delete_eq. unfold lf_contain.
      destruct (decide (k ∈ ekey <$> lf_main s)) as [Hin|Hin].
      * rewrite bool_decide_true by done. cbn [lf_with lf_main]. by rewrite entry_find_remove, decide_True.
      * rewrite bool_decide_false by done. by rewrite entry_find_none.
    + rewrite lookup_delete_ne, (lfu_rep_entries _ _ _ Hr) by done.
      destruct (lf_contain s k); cbn [lf_with lf_main]; [|done]. by rewrite entry_find_remove, decide_False.
  - apply (lfu_ghosts_eq c c' s _ _ Hr Hr'). intros j. cbn [lf_forget snd lf_with lf_ghosts].
    rewrite elem_of_key_removed, elem_of_difference, (lfu_rep_ghosts _ _ _ Hr).
    destruct (lf_contain s k); cbn [lf_with lf_ghosts]; set_solver.
Qed.
Next Obligation.
  intros c k (s & Hr & Hwf). cbn. destruct (lfu_check_ghost_sim c s k Hr) as (c' & Hi & Hr').
  exists c'. rewrite Hi, (lfu_rep_capacity _ _ Hr), (lfu_rep_capacity _ _ Hr'). split.
  { cbn. do 2 f_equal. apply bool_decide_ext. by rewrite (lfu_rep_ghosts _ _ _ Hr). }
  split; [by eexists; split; [|by apply lf_forget_wf]|]. split; [done|]. split.
  - apply (lfu_entries_eq c c' s _ id Hr Hr'). intros j. by rewrite (lfu_rep_entries _ _ _ Hr).
  - apply (lfu_ghosts_eq c c' s _ _ Hr Hr'). intros j. cbn [lf_forget snd lf_with lf_ghosts].
    rewrite elem_of_key_removed, elem_of_difference, (lfu_rep_ghosts _ _ _ Hr). set_solver.
Qed.
Next Obligation.
  intros c (s & Hr & Hwf) Hlt. cbn. rewrite (lfu_rep_capacity _ _ Hr) in *.
  pose proof (lfu_increase_sim c s Hr) as Hr'. split; [by eexists; split; [|by apply lf_increase_wf]|].
  split; [|done]. destruct Hwf as [[? ?] _ _]. apply Z.mod_small. lia.
Qed.
Next Obligation. intros c _ H0. cbn. unfold lfu_decrease_capacity. by rewrite H0. Qed.
Next Obligation.
  intros c (s & Hr & Hwf) H0. cbn. rewrite (lfu_rep_capacity _ _ Hr) in *.
  destruct (lfu_decrease_sim c s Hr Hwf) as (c' & Hp & Hr').
  destruct (lf_decrease_view s (lfw_ok _ Hwf) H0) as (Hb & Hc & Hm & Hg). rewrite Hb in Hp.
  exists c'. split; [done|]. split; [by eexists; split; [|by apply lf_decrease_wf]|].
  split; [by rewrite (lfu_rep_capacity _ _ Hr')|]. split.
  - intros j w _. rewrite (lfu_rep_entries _ _ _ Hr), (lfu_rep_entries _ _ _ Hr'). apply Hm.
  - intros j. rewrite (lfu_rep_ghosts _ _ _ Hr), (lfu_rep_ghosts _ _ _ Hr'), (lfu_rep_resident _ _ _ Hr).
    apply Hg.
Qed.

(** ** Sequences of operations *)

Inductive lfu_op :=
  | FPut (k : K) (v : V)
  | FGet (k : K)
  | FContain (k : K)
  | FInvalidate (k : K)
  | FCheckGhost (k : K)
  | FIncrease
  | FDecrease.

Inductive lfu_out :=
  | FBool (b : bool)
  | FValue (v : option V)
  | FDone.

Definition lfu_step (c : ArcLfu) (op : lfu_op) : option (lfu_out * ArcLfu) :=
  match op with
  | FPut k v => '(b, c) ← lfu_put c k v; Some (FBool b, c)
  | FGet k => '(r, c) ← lfu_get c k; Some (FValue r, c)
  | FContain k => Some (FBool (lfu_contain c k), c)
  | FInvalidate k => '(b, c) ← lfu_invalidate c k; Some (FBool b, c)
  | FCheckGhost k => '(b, c) ← lfu_check_ghost c k; Some (FBool b, c)
  | FIncrease => Some (FDone, lfu_increase_capacity c)
  | FDecrease => '(b, c) ← lfu_decrease_capacity c; Some (FBool b, c)
  end.

Definition lf_step (s : LfuSpec) (op : lfu_op) : lfu_out * LfuSpec :=
  match op with
  | FPut k v => let '(b, s) := lf_put s k v in (FBool b, s)
  | FGet k => let '(r, s) := lf_get s k in (FValue r, s)
  | FContain k => (FBool (lf_contain s k), s)
  | FInvalidate k => let '(b, s) := lf_invalidate s k in (FBool b, s)
  | FCheckGhost k => let '(b, s) := lf_forget s k in (FBool b, s)
  | FIncrease => (FDone, lf_increase s)
  | FDecrease => let '(b, s) := lf_decrease s in (FBool b, s)
  end.

Fixpoint lfu_run (c : ArcLfu) (ops : list lfu_op) : option (list lfu_out * ArcLfu) :=
  match ops with
  | [] => Some ([], c)
  | op :: rest => '(o, c) ← lfu_step c op; '(os, c) ← lfu_run c rest; Some (o :: os, c)
  end.

Fixpoint lf_run (s : LfuSpec) (ops : list lfu_op) : list lfu_out * LfuSpec :=
  match ops with
  | [] => ([], s)
  | op :: rest => let '(o, s) := lf_step s op in let '(os, s) := lf_run s rest in (o :: os, s)
  end.

Ltac lfu_sim_case H :=
  let c' := fresh "c'" in let E := fresh "E" in let Hr' := fresh "Hr'" in
  destruct H as (c' & E & Hr'); cbn [lfu_step lf_step]; rewrite E; cbn [mbind option_bind];
  match goal with |- context [let '(_, _) := ?x in _] => destruct x as [? ?] eqn:? end;
  exists c'; done.

Lemma lfu_step_sim c s op :
  lfu_rep c s → lf_wf s →
  ∃ c', lfu_step c op = Some ((lf_step s op).1, c') ∧ lfu_rep c' (lf_step s op).2.
Proof.
  intros Hr Hwf. destruct op as [k v|k|k|k|k| |].
  - lfu_sim_case (lfu_put_sim c s k v Hr (lfw_ok _ Hwf)).
  - lfu_sim_case (lfu_get_sim c s k Hr).
  - exists c. cbn. by rewrite (lfu_contain_sim c s k Hr).
  - lfu_sim_case (lfu_invalidate_sim c s k Hr).
  - lfu_sim_case (lfu_check_ghost_sim c s k Hr).
  - eexists. split; [done|]. by apply lfu_increase_sim.
  - lfu_sim_case (lfu_decrease_sim c s Hr Hwf).
Qed.

Lemma lf_step_snd s op :
  (lf_step s op).2 = match op with
    | FPut k v => (lf_put s k v).2 | FGet k => (lf_get s k).2 | FContain _ => s
    | FInvalidate k => (lf_invalidate s k).2 | FCheckGhost k => (lf_forget s k).2
    | FIncrease => lf_increase s | FDecrease => (lf_decrease s).2 end.
Proof.
  destruct op as [k v|k|k|k|k| |]; cbn [lf_step]; [..|done|];
    try match goal with |- context [let '(_, _) := ?x in _] => by destruct x end; done.
Qed.

Lemma lf_capacity_step s op :
  is_u64 (lf_capacity s) → lf_capacity s + 1 < 2 ^ 64 → lf_capacity (lf_step s op).2 <= lf_capacity s + 1.
Proof.
  intros Hc Hlt. unfold is_u64 in Hc. rewrite lf_step_snd. destruct op as [k v|k|k|k|k| |].
  - unfold lf_put. destruct (lf_capacity s =? 0); [cbn; lia|].
    destruct (entry_find k (lf_main s)) as [[v0 x]|]; [cbn; lia|]. cbn.
    destruct (_ <=? _); rewrite ?(proj2 (lf_evict_keys _)); cbn; lia.
  - unfold lf_get. destruct (entry_find k (lf_main s)) as [[v0 x]|]; cbn; lia.
  - lia.
  - unfold lf_invalidate. cbn. destruct (lf_contain s k); cbn; lia.
  - cbn. lia.
  - cbn. unfold u64. rewrite Z.mod_small; lia.
  - unfold lf_decrease. destruct (lf_capacity s =? 0); [cbn; lia|]. cbn.
    destruct (_ <? _); rewrite ?(proj2 (lf_evict_keys _)); cbn; lia.
Qed.

Lemma lf_step_wf s op :
  lf_wf s → lf_capacity s + 1 < 2 ^ 64 → lf_wf (lf_step s op).2.
Proof.
  intros Hwf Hlt. rewrite lf_step_snd. destruct op.
  - by apply lf_put_wf.
  - by apply lf_get_wf.
  - done.
  - by apply lf_invalidate_wf.
  - by apply lf_forget_wf.
  - by apply lf_increase_wf.
  - by apply lf_decrease_wf.
Qed.

(** ** Least frequency

    Counts stay between 1 and a bound, and the next victim's count is least, while
    the bound is below the width of the counters. *)
Record lf_least (s : LfuSpec) (bound : Z) : Prop := {
  ll_range : ∀ e, e ∈ lf_main s → 1 <= e.2 <= bound;
  ll_min : ∀ e, e ∈ lf_main s → lf_min_freq s <= e.2
}.

Lemma lf_least_evict s b : lf_ok s → lf_least s b → lf_least (lf_evict s) b.
Proof.
  intros Hok [Hr Hm]. unfold lf_evict. destruct (lf_at _ _) as [|[[k v] x] rest] eqn:E; [done|].
  split; cbn.
  - intros e [He _]%elem_of_entry_remove. by apply Hr.
  - intros e He. pose proof He as [He' _]%elem_of_entry_remove. destruct rest; [|by apply Hm].
    pose proof (min_count_spec (entry_remove k (lf_main s))) as Hs.
    destruct (min_count (entry_remove k (lf_main s))) as [m|]; [by apply Hs|].
    rewrite Hs in He. set_solver.
Qed.

Lemma lf_least_touch s b k v v' x :
  lf_ok s → entry_find k (lf_main s) = Some (v, x) → b + 1 < 2 ^ 64 →
  lf_least s b → lf_least (lf_touch s k v' x) (b + 1).
Proof.
  intros Hok Hf Hlt [Hr Hm].
  assert (∃ e, e ∈ lf_main s ∧ e.2 = x) as (e0 & He0 & Hx).
  { clear -Hf. induction (lf_main s) as [|[[k' w] y] l IH]; [done|]. cbn in Hf. case_decide.
    - simplify_eq. exists (k, v, x). set_solver.
    - destruct IH as (e & He & Hy); [done|]. exists e. set_solver. }
  pose proof (Hr _ He0) as Hrx. rewrite Hx in Hrx.
  assert (u64 (x + 1) = x + 1) as Eu by (apply Z.mod_small; lia).
  unfold lf_touch. rewrite Eu. split; cbn.
  - intros e [[He _]%elem_of_entry_remove| ->%list_elem_of_singleton]%elem_of_app; [|cbn; lia].
    specialize (Hr e He). lia.
  - pose proof (Hm _ He0) as Hmx. rewrite Hx in Hmx.
    intros e [He| ->%list_elem_of_singleton]%elem_of_app.
    + pose proof He as [He' _]%elem_of_entry_remove. pose proof (Hm _ He').
      destruct (lf_at x (entry_remove k (lf_main s))) eqn:Ea; [|done].
      destruct (Z.eqb_spec x (lf_min_freq s)) as [->|]; [|done].
      assert (e.2 ≠ lf_min_freq s); [|lia]. intros E.
      by apply (proj2 (lf_at_some (lf_min_freq s) (entry_remove k (lf_main s)))); [exists e|].
    + cbn. destruct (lf_at x _); [|lia]. destruct (Z.eqb_spec x (lf_min_freq s)); lia.
Qed.

Lemma lf_least_weaken s b b' : lf_least s b → b <= b' → lf_least s b'.
Proof. intros [Hr Hm] Hb. split; [|done]. intros e He. specialize (Hr e He). lia. Qed.

Lemma lf_least_step s op b :
  lf_wf s → 0 < b → b + 1 < 2 ^ 64 → lf_least s b → lf_least (lf_step s op).2 (b + 1).
Proof.
  intros [Hc Hb Hok] Hb0 Hlt Hl. pose proof (lf_least_weaken s b (b + 1) Hl ltac:(lia)) as Hl'.
  rewrite lf_step_snd. destruct op as [k v|k|k|k|k| |].
  - unfold lf_put. destruct (lf_capacity s =? 0); [done|].
    destruct (entry_find k (lf_main s)) as [[v0 x]|] eqn:Hf; [by eapply lf_least_touch|].
    destruct (lf_forget_ok s k Hok) as [Hok1 _]. set (s1 := (lf_forget s k).2) in *.
    assert (lf_least s1 (b + 1)) as Hl1 by (destruct Hl'; by split).
    assert (lf_least (if lf_capacity s <=? Zlen (lf_main s) then lf_evict s1 else s1) (b + 1)) as [Hr2 Hm2]
      by (destruct (_ <=? _); [by apply lf_least_evict|done]).
    split; cbn [snd lf_with lf_main lf_min_freq].
    + intros e [He| ->%list_elem_of_singleton]%elem_of_app; [by apply Hr2|cbn; lia].
    + intros e [He| ->%list_elem_of_singleton]%elem_of_app; [by apply Hr2|done].
  - unfold lf_get. destruct (entry_find k (lf_main s)) as [[v0 x]|] eqn:Hf; [by eapply lf_least_touch|done].
  - done.
  - unfold lf_invalidate. cbn [lf_forget snd]. destruct (lf_contain s k); cbn; [|by destruct Hl'; split].
    split; cbn.
    + intros e [He _]%elem_of_entry_remove. by apply Hl'.
    + intros e He. pose proof (min_count_spec (entry_remove k (lf_main s))) as Hs.
      destruct (min_count (entry_remove k (lf_main s))) as [m|]; [by apply Hs|].
      rewrite Hs in He. set_solver.
  - destruct Hl'. by split.
  - destruct Hl'. by split.
  - unfold lf_decrease. destruct (lf_capacity s =? 0); [done|]. cbn [snd].
    assert (lf_ok (lf_resize s (lf_capacity s - 1))) as Hok1 by (destruct Hok; by split).
    assert (lf_least (lf_resize s (lf_capacity s - 1)) (b + 1)) by (destruct Hl'; by split).
    destruct (_ <? _); [by apply lf_least_evict|done].
Qed.

Lemma lfu_run_sim ops c s b :
  lfu_rep c s → lf_wf s → 0 < b → lf_least s b →
  lf_capacity s + Zlen ops < 2 ^ 64 → b + Zlen ops < 2 ^ 64 →
  ∃ c', lfu_run c ops = Some ((lf_run s ops).1, c')
    ∧ lfu_rep c' (lf_run s ops).2 ∧ lf_wf (lf_run s ops).2 ∧ lf_least (lf_run s ops).2 (b + Zlen ops).
Proof.
  revert c s b. induction ops as [|op ops IH]; intros c s b Hr Hwf Hb Hl Hlt Hltb.
  { exists c. cbn. change (Zlen []) with 0. rewrite Z.add_0_r. done. }
  rewrite Zlen_cons in *. pose proof (Zlen_nonneg ops).
  destruct (lfu_step_sim c s op Hr Hwf) as (c1 & H1 & Hr1).
  pose proof (lf_step_wf s op Hwf ltac:(lia)) as Hwf1.
  pose proof (lf_capacity_step s op (lfw_capacity _ Hwf) ltac:(lia)) as Hle.
  pose proof (lf_least_step s op b Hwf Hb ltac:(lia) Hl) as Hl1.
  cbn [lfu_run lf_run]. rewrite H1. cbn [mbind option_bind]. destruct (lf_step s op) as [o s1].
  cbn [fst snd] in *. destruct (IH c1 s1 (b + 1) Hr1 Hwf1) as (c2 & -> & Hr2 & Hwf2 & Hl2); [lia|done|lia|lia|].
  cbn [mbind option_bind]. exists c2. rewrite Z.add_assoc. by destruct (lf_run s1 ops).
Qed.

Lemma lf_run_ghost_capacity s ops : lf_ghost_capacity (lf_run s ops).2 = lf_ghost_capacity s.
Proof.
  revert s. induction ops as [|op ops IH]; intros s; [done|]. cbn [lf_run].
  assert (lf_ghost_capacity (lf_step s op).2 = lf_ghost_capacity s) as Hop.
  { assert (∀ s, lf_ghost_capacity (lf_evict s) = lf_ghost_capacity s) as Hev
      by (intros s'; unfold lf_evict; destruct (lf_at _ _) as [|[[? ?] ?] ?]; done).
    rewrite lf_step_snd. destruct op as [k v|k|k|k|k| |]; cbn; try done.
    - unfold lf_put. destruct (_ =? _); [done|]. destruct (entry_find _ _) as [[? ?]|]; [done|]. cbn.
      destruct (_ <=? _); rewrite ?Hev; done.
    - unfold lf_get. by destruct (entry_find _ _) as [[? ?]|].
    - by destruct (lf_contain s k).
    - unfold lf_decrease. destruct (_ =? _); [done|]. cbn. destruct (_ <? _); rewrite ?Hev; done. }
  rewrite <- Hop. destruct (lf_step s op) as [o s1]. cbn [snd]. rewrite <- (IH s1).
  by destruct (lf_run s1 ops).
Qed.

Lemma lfu_run_new cap trans ghost_cap ops :
  is_u64 cap → 0 <= ghost_cap → cap + Zlen ops < 2 ^ 64 → 1 + Zlen ops < 2 ^ 64 →
  ∃ c s outs, lfu_run (new_lfu cap trans ghost_cap) ops = Some (outs, c)
    ∧ lf_run (lf_new cap ghost_cap) ops = (outs, s)
    ∧ lfu_rep c s ∧ lf_wf s ∧ lf_least s (1 + Zlen ops).
Proof.
  intros Hc Hg Hlt Hlt1.
  destruct (lfu_run_sim ops _ _ 1 (new_lfu_rep cap trans ghost_cap) (lf_new_wf cap ghost_cap Hc Hg))
    as (c & Hrun & Hr & Hwf & Hl); [lia| |done|done|].
  { split; cbn; set_solver. }
  destruct (lf_run (lf_new cap ghost_cap) ops) as [outs s]. by exists c, s, outs.
Qed.

(** C31. The frequency partition implements its abstract specification: starting from
    the constructor, every sequence of operations runs without a null
    dereference, returns what the specification returns, and ends in a state whose
    hash maps, frequency buckets and ghost list represent the specified entries,
    counts and history; the capacity and history bounds hold, a key is held once and
    not also as a ghost, and the bucket of the next victim is never empty while
    something is resident. *)
Theorem lfu_refines_spec cap trans ghost_cap ops :
  is_u64 cap → 0 <= ghost_cap → cap + Zlen ops < 2 ^ 64 → 1 + Zlen ops < 2 ^ 64 →
  ∃ c s outs, lfu_run (new_lfu cap trans ghost_cap) ops = Some (outs, c)
    ∧ lf_run (lf_new cap ghost_cap) ops = (outs, s) ∧ lfu_rep c s ∧ lf_wf s.
Proof.
  intros Hc Hg Hlt Hlt1.
  destruct (lfu_run_new cap trans ghost_cap ops Hc Hg Hlt Hlt1) as (c & s & outs & ? & ? & ? & ? & _).
  by exists c, s, outs.
Qed.

(** The first entry of the least count splits the list. *)
Lemma lf_at_split f (l : list (K * V * Z)) e rest :
  lf_at f l = e :: rest → ∃ a b, l = a ++ e :: b ∧ e.2 = f ∧ ∀ e', e' ∈ a → e'.2 ≠ f.
Proof.
  unfold lf_at. induction l as [|x l IH]; [done|]. rewrite filter_cons. case_decide as Hx.
  - intros [= -> _]. exists [], l. split; [done|]. split; [done|set_solver].
  - intros Hf. destruct (IH Hf) as (a & b & -> & He & Ha). exists (x :: a), b. set_solver.
Qed.

(** An eviction removes a least frequently used entry, and among the entries with
    the least count the one that has not been touched for the longest time; all
    other entries stay, and the key of the victim becomes the newest ghost when
    history is kept. This holds in every state reached by fewer than 2^64 - 1
    operations, so that no counter wraps. *)
Theorem lfu_evicts_least_frequent cap trans ghost_cap ops c outs :
  is_u64 cap → 0 <= ghost_cap → cap + Zlen ops < 2 ^ 64 → 1 + Zlen ops < 2 ^ 64 →
  lfu_run (new_lfu cap trans ghost_cap) ops = Some (outs, c) →
  ∃ s c', lfu_rep c s ∧ evict_least_frequent c = Some c'
    ∧ match lf_main s with
      | [] => lfu_entries c' = lfu_entries c
      | _ => ∃ older k v x newer, lf_main s = older ++ (k, v, x) :: newer
             ∧ (∀ e, e ∈ older → x < e.2) ∧ (∀ e, e ∈ newer → x <= e.2)
             ∧ lfu_entries c' = delete k (lfu_entries c)
             ∧ (ghost_cap ≠ 0 → ∃ s', lfu_rep c' s' ∧ last (lf_ghosts s') = Some k)
      end.
Proof.
  intros Hc Hg Hlt Hlt1 Hrun.
  destruct (lfu_run_new cap trans ghost_cap ops Hc Hg Hlt Hlt1) as (c0 & s & outs0 & Hrun0 & Hs & Hr & Hwf & Hl).
  rewrite Hrun in Hrun0. injection Hrun0 as <- <-. destruct Hl as [_ Hmin].
  pose proof (lfw_ok _ Hwf) as Hok. destruct (lfu_evict_sim c s Hr Hok) as (c' & He & Hr').
  exists s, c'. split; [done|]. split; [done|].
  assert (lf_ghost_capacity s = ghost_cap) as Hgc.
  { assert (lf_ghost_capacity (lf_run (lf_new cap ghost_cap) ops).2 = ghost_cap) as <- by apply lf_run_ghost_capacity.
    by rewrite Hs. }
  destruct (lf_at (lf_min_freq s) (lf_main s)) as [|[[k v] x] rest] eqn:Hat.
  { destruct (lf_main s) eqn:Em; [|exfalso; apply (lfo_victim _ Hok); rewrite Em; done].
    apply (lfu_entries_eq c c' s _ id Hr Hr'). intros j. unfold lf_evict. rewrite Em, Hat.
    unfold id. by rewrite (lfu_rep_entries _ _ _ Hr), Em. }
  destruct (lf_at_split _ _ _ _ Hat) as (a & b & El & Hx & Ha). cbn in Hx. subst x.
  destruct (lf_main s) as [|e0 l0] eqn:Em; [by destruct a|]. rewrite <- Em in *.
  exists a, k, v, (lf_min_freq s), b. split; [done|]. split; [|split; [|split]].
  - intros e Hin. assert (e ∈ lf_main s) as Hm by (rewrite El; set_solver).
    specialize (Hmin e Hm). specialize (Ha e Hin). lia.
  - intros e Hin. apply Hmin. rewrite El. set_solver.
  - apply (lfu_entries_eq c c' s _ (delete k) Hr Hr'). intros j. unfold lf_evict. rewrite Hat.
    cbn [lf_with lf_main]. rewrite entry_find_remove. case_decide; subst; [by rewrite lookup_delete_eq|].
    by rewrite lookup_delete_ne, (lfu_rep_entries _ _ _ Hr).
  - intros Hne. exists (lf_evict s). split; [done|]. unfold lf_evict. rewrite Hat. cbn [lf_with lf_ghosts].
    unfold lf_record. rewrite (proj2 (Z.eqb_neq _ _)) by congruence. apply last_snoc.
Qed.
End Lfu.
#[global] Arguments ArcLfu : clear implicits.
#[global] Arguments ArcLfu K V {_ _}.
#[global] Arguments lfu_op : clear implicits.
#[global] Arguments lfu_out : clear implicits.
#[global] Arguments FPut {K V}.
#[global] Arguments FGet {K V}.
#[global] Arguments FContain {K V}.
#[global] Arguments FInvalidate {K V}.
#[global] Arguments FCheckGhost {K V}.
#[global] Arguments FIncrease {K V}.
#[global] Arguments FDecrease {K V}.
#[global] Arguments FBool {V}.
#[global] Arguments FValue {V}.
#[global] Arguments FDone {V}.

Lemma lfu_refines_spec_witness :
  let ops := [FPut 1 10; FPut 2 20; FGet 1; FPut 3 30; FContain 2; FGet 3; FCheckGhost 2] in
  let run := lfu_run (K := Z) (V := Z) (new_lfu 2 2 2) ops in
  (fst <$> run) = Some [FBool true; FBool true; FValue (Some 10); FBool true; FBool false;
                        FValue (Some 30); FBool true]
  ∧ ∃ c s outs, run = Some (outs, c) ∧ lf_run (lf_new 2 2) ops = (outs, s) ∧ lfu_rep c s ∧ lf_wf s.
Proof.
  split; [vm_compute; reflexivity|].
  apply (lfu_refines_spec 2 2 2); [unfold is_u64; lia|lia|vm_compute; reflexivity|vm_compute; reflexivity].
Defined.

Lemma lfu_evicts_least_frequent_witness :
  let ops := [FPut 1 10; FPut 2 20; FPut 3 30; FGet 1; FGet 3] in
  ∃ outs c s c', lfu_run (K := Z) (V := Z) (new_lfu 3 2 3) ops = Some (outs, c)
    ∧ lfu_rep c s ∧ evict_least_frequent c = Some c'
    ∧ match lf_main s with
      | [] => lfu_entries c' = lfu_entries c
      | _ => ∃ older k v x newer, lf_main s = older ++ (k, v, x) :: newer
             ∧ (∀ e, e ∈ older → x < e.2) ∧ (∀ e, e ∈ newer → x <= e.2)
             ∧ lfu_entries c' = delete k (lfu_entries c)
             ∧ (3 ≠ 0 → ∃ s', lfu_rep c' s' ∧ last (lf_ghosts s') = Some k)
      end.
Proof.
  cbv zeta. eexists _, _.
  destruct (lfu_evicts_least_frequent (K := Z) (V := Z) 3 2 3 [FPut 1 10; FPut 2 20; FPut 3 30; FGet 1; FGet 3]
    _ _ ltac:(unfold is_u64; lia) ltac:(lia) ltac:(vm_compute; reflexivity) ltac:(vm_compute; reflexivity)
    ltac:(vm_compute; reflexivity)) as (s & c' & Hr & He & Hm).
  exists s, c'. split; [vm_compute; reflexivity|]. split; [exact Hr|]. split; [exact He|exact Hm].
Defined.
