(* ===== verification/ArcCache.v ===== *)
(** The adaptive cache over its two partitions and the sharded cache
    ([inc/common/cache/arc_cache.h]).

    Section [Arc] is the cache over any two implementations of the partition
    interface: every public function holds the shard's mutex and is one transition.
    The cache invariant says that the partition capacities add up to the cache's,
    that the recency partition keeps at least one slot, and that no key is known
    (resident or ghost) to both partitions. Module [Concrete] instantiates the
    section with [ArcLru] and [ArcLfu]; [HashArcCache] distributes the keys over
    shards. [std::hash] is a parameter. *)

From S2P Require Import Prelude DList ArcPartition ArcLru ArcLfu.
#[local] Open Scope tlss_scope.

(** Keys a partition remembers, resident or ghost. *)
Definition p_known {K V P} `{Countable K} `{!PartitionOps K V P} `{!Partition P} (p : P) : gset K :=
  dom (p_entries p) ∪ p_ghosts p.

Section Known.
Context {K V P : Type} `{Countable K} `{!PartitionOps K V P} `{!Partition P}.
Implicit Types (p : P) (k : K).

Lemma known_resident p k : is_Some (p_entries p !! k) → k ∈ p_known p.
Proof. unfold p_known. rewrite elem_of_union, elem_of_dom. by left. Qed.
Lemma known_ghost p k : k ∈ p_ghosts p → k ∈ p_known p.
Proof. unfold p_known. set_solver. Qed.

Lemma known_shrinks p p' (k : option K) :
  shrinks_to (p_entries p) (p_entries p') (p_ghosts p) (p_ghosts p') k →
  ∀ j, j ∈ p_known p' → j ∈ p_known p ∨ Some j = k.
Proof.
  intros [He Hg] j. unfold p_known. rewrite !elem_of_union, !elem_of_dom. intros [[w Hw]|Hj].
  - destruct (decide (Some j = k)) as [|Hne]; [by right|]. left. left. exists w. by eapply He.
  - apply Hg in Hj. tauto.
Qed.

Lemma known_same p p' :
  p_entries p' = p_entries p → p_ghosts p' = p_ghosts p → p_known p' = p_known p.
Proof. intros He Hg. unfold p_known. by rewrite He, Hg. Qed.
End Known.

Section Arc.
Context {K V : Type} `{Countable K} {P Q : Type}.
Context `{!PartitionOps K V P} `{!Partition P} `{!Demoting P}.
Context `{!PartitionOps K V Q} `{!Partition Q}.

Record ArcCache := mkArc {
  _arc_capacity : Z;
  _arc_threshold : Z;
  _lru_capacity : Z;
  _lru : P;
  _lfu : Q
}.

Inductive GhostHit := HitNone | HitLru | HitLfu.

Definition with_lru (c : ArcCache) (p : P) : ArcCache :=
  mkArc (_arc_capacity c) (_arc_threshold c) (_lru_capacity c) p (_lfu c).
Definition with_lfu (c : ArcCache) (q : Q) : ArcCache :=
  mkArc (_arc_capacity c) (_arc_threshold c) (_lru_capacity c) (_lru c) q.
Definition with_lru_capacity (c : ArcCache) (n : Z) : ArcCache :=
  mkArc (_arc_capacity c) (_arc_threshold c) n (_lru c) (_lfu c).

Definition check_ghost_caches (c : ArcCache) (key : K) : option (GhostHit * ArcCache) :=
  '(hit, lru) ← p_check_ghost (_lru c) key;
  let c := with_lru c lru in
  if (hit : bool) then
    '(shrunk, lfu) ← p_decrease_capacity (_lfu c);
    let c := with_lfu c lfu in
    Some (HitLru, if (shrunk : bool)
                  then with_lru_capacity (with_lru c (p_increase_capacity (_lru c)))
                         (u64 (_lru_capacity c + 1))
                  else c)
  else
    '(hit, lfu) ← p_check_ghost (_lfu c) key;
    let c := with_lfu c lfu in
    if (hit : bool) then
      if 1 <? _lru_capacity c then
        '(shrunk, lru) ← p_decrease_capacity (_lru c);
        let c := with_lru c lru in
        Some (HitLfu, if (shrunk : bool)
                      then with_lru_capacity (with_lfu c (p_increase_capacity (_lfu c)))
                             (u64 (_lru_capacity c - 1))
                      else c)
      else Some (HitLfu, c)
    else Some (HitNone, c).

Definition arc_put (c : ArcCache) (key : K) (value : V) : option ArcCache :=
  if _arc_capacity c =? 0 then Some c else
  if p_contain (_lru c) key then '(_, p) ← p_put (_lru c) key value; Some (with_lru c p) else
  if p_contain (_lfu c) key then '(_, q) ← p_put (_lfu c) key value; Some (with_lfu c q) else
  '(hit, c) ← check_ghost_caches c key;
  '(stored, c) ← match hit with
                 | HitLfu => '(b, q) ← p_put (_lfu c) key value; Some (b, with_lfu c q)
                 | _ => Some (false, c)
                 end;
  if (stored : bool) then Some c else
  '(_, p) ← p_put (_lru c) key value; Some (with_lru c p).

Definition arc_get (c : ArcCache) (key : K) : option (option V * ArcCache) :=
  '(r, should_transform, p) ← p_get (_lru c) key;
  let c := with_lru c p in
  match r with
  | Some value =>
      if (should_transform : bool) then
        '(accepted, q) ← p_put (_lfu c) key value;
        let c := with_lfu c q in
        if (accepted : bool) then '(_, p) ← p_erase (_lru c) key; Some (Some value, with_lru c p)
        else Some (Some value, c)
      else Some (Some value, c)
  | None =>
      '(r, _, q) ← p_get (_lfu c) key;
      Some (r, with_lfu c q)
  end.

Definition arc_erase (c : ArcCache) (key : K) : option (bool * ArcCache) :=
  '(lru_removed, p) ← p_invalidate (_lru c) key;
  '(lfu_removed, q) ← p_invalidate (_lfu c) key;
  Some (lru_removed || lfu_removed, with_lfu (with_lru c p) q).

(** ** Invariant and contents *)

Record arc_ok (c : ArcCache) : Prop := {
  ao_lru : p_inv (_lru c);
  ao_lfu : p_inv (_lfu c);
  ao_capacity : is_u64 (_arc_capacity c);
  ao_sum : p_capacity (_lru c) + p_capacity (_lfu c) = _arc_capacity c;
  ao_lru_capacity : _lru_capacity c = p_capacity (_lru c);
  ao_entry : _arc_capacity c ≠ 0 → 1 <= p_capacity (_lru c);
  ao_disjoint : ∀ k, k ∈ p_known (_lru c) → k ∉ p_known (_lfu c)
}.

Definition arc_lookup (c : ArcCache) (k : K) : option V :=
  match p_entries (_lru c) !! k with Some v => Some v | None => p_entries (_lfu c) !! k end.

(** Everything other than [k] that is found in [c'] was found in [c]. *)
Definition arc_forgets (c c' : ArcCache) (k : option K) : Prop :=
  ∀ j w, Some j ≠ k → arc_lookup c' j = Some w → arc_lookup c j = Some w.

Lemma arc_forgets_refl c k : arc_forgets c c k.
Proof. by intros j w. Qed.
Lemma arc_forgets_trans c1 c2 c3 k : arc_forgets c1 c2 k → arc_forgets c2 c3 k → arc_forgets c1 c3 k.
Proof. intros H1 H2 j w Hj Hw. by apply H1, H2. Qed.
Lemma arc_forgets_weaken c c' k : arc_forgets c c' None → arc_forgets c c' (Some k).
Proof. intros Hf j w _. by apply Hf. Qed.

Lemma lfu_unknown_lookup c k : arc_ok c → is_Some (p_entries (_lfu c) !! k) → p_entries (_lru c) !! k = None.
Proof.
  intros Hok Hk. apply eq_None_not_Some. intros Hl. apply known_resident in Hk, Hl.
  by apply (ao_disjoint _ Hok k).
Qed.

(** Replacing a partition by one that holds less. *)
Lemma forgets_lru c p k :
  arc_ok c → shrinks_to (p_entries (_lru c)) (p_entries p) (p_ghosts (_lru c)) (p_ghosts p) k →
  arc_forgets c (with_lru c p) k.
Proof.
  intros Hok [He _] j w Hj. unfold arc_lookup. cbn. destruct (p_entries p !! j) as [v|] eqn:Ep.
  - intros [= ->]. by rewrite (He j w Hj Ep).
  - intros Hw. by rewrite (lfu_unknown_lookup c j) by (done || by eexists).
Qed.

Lemma forgets_lfu c q k :
  shrinks_to (p_entries (_lfu c)) (p_entries q) (p_ghosts (_lfu c)) (p_ghosts q) k →
  arc_forgets c (with_lfu c q) k.
Proof.
  intros [He _] j w Hj. unfold arc_lookup. cbn. destruct (p_entries (_lru c) !! j); [done|]. by apply He.
Qed.

Lemma shrinks_refl (e : gmap K V) g k : shrinks_to e e g g k.
Proof. split; [done|by left]. Qed.
Lemma shrinks_ghost (e : gmap K V) g x k : shrinks_to e e g (g ∖ {[x]}) k.
Proof. split; [done|]. intros j Hj. left. set_solver. Qed.

(** A new recency or frequency partition that keeps the invariant. *)
Lemma ok_lru c p :
  arc_ok c → p_inv p → p_capacity p = p_capacity (_lru c) →
  (∀ j, j ∈ p_known p → j ∈ p_known (_lru c) ∨ j ∉ p_known (_lfu c)) → arc_ok (with_lru c p).
Proof.
  intros [H1 H2 H3 H4 H5 H6 H7] Hp Hc Hk. split; cbn; rewrite ?Hc; try done.
  intros j Hj. destruct (Hk j Hj); auto.
Qed.

Lemma ok_lfu c q :
  arc_ok c → p_inv q → p_capacity q = p_capacity (_lfu c) →
  (∀ j, j ∈ p_known q → j ∈ p_known (_lfu c) ∨ j ∉ p_known (_lru c)) → arc_ok (with_lfu c q).
Proof.
  intros [H1 H2 H3 H4 H5 H6 H7] Hp Hc Hk. split; cbn; rewrite ?Hc; try done.
  intros j Hj Hq. destruct (Hk j Hq) as [Hk'|Hk']; [by apply (H7 j)|done].
Qed.

Lemma lru_positive c : arc_ok c → _arc_capacity c ≠ 0 → p_capacity (_lru c) ≠ 0.
Proof. intros Hok H0. pose proof (ao_entry _ Hok H0). lia. Qed.

(** Storing into a partition a key the other one does not know. *)
Lemma put_lru_spec c k v :
  arc_ok c → _arc_capacity c ≠ 0 → k ∉ p_known (_lfu c) →
  ∃ p, p_put (_lru c) k v = Some (true, p) ∧ arc_ok (with_lru c p)
    ∧ arc_lookup (with_lru c p) k = Some v ∧ arc_forgets c (with_lru c p) (Some k).
Proof.
  intros Hok H0 Hk.
  destruct (p_put_law (_lru c) k v (ao_lru _ Hok) (lru_positive c Hok H0))
    as (p & Hp & Hi & Hc & Hv & Hs & _).
  exists p. split; [done|]. split; [|split].
  - apply ok_lru; [done|done|done|]. intros j Hj.
    destruct (known_shrinks _ _ _ Hs j Hj) as [?|[= ->]]; auto.
  - unfold arc_lookup. cbn. by rewrite Hv.
  - by apply forgets_lru.
Qed.

Lemma put_lfu_spec c k v :
  arc_ok c → p_capacity (_lfu c) ≠ 0 → k ∉ p_known (_lru c) →
  ∃ q, p_put (_lfu c) k v = Some (true, q) ∧ arc_ok (with_lfu c q)
    ∧ arc_lookup (with_lfu c q) k = Some v ∧ arc_forgets c (with_lfu c q) (Some k).
Proof.
  intros Hok H0 Hk. destruct (p_put_law (_lfu c) k v (ao_lfu _ Hok) H0) as (q & Hq & Hi & Hc & Hv & Hs & _).
  exists q. split; [done|]. split; [|split].
  - apply ok_lfu; [done|done|done|]. intros j Hj.
    destruct (known_shrinks _ _ _ Hs j Hj) as [?|[= ->]]; auto.
  - unfold arc_lookup. cbn. destruct (p_entries (_lru c) !! k) eqn:E; [|done].
    exfalso. apply Hk, known_resident. by rewrite E.
  - by apply forgets_lfu.
Qed.

(** Consuming a history record makes the key unknown to its partition. *)
Lemma check_lru_spec c k :
  arc_ok c → p_entries (_lru c) !! k = None →
  ∃ p, p_check_ghost (_lru c) k = Some (bool_decide (k ∈ p_ghosts (_lru c)), p)
    ∧ arc_ok (with_lru c p) ∧ k ∉ p_known p ∧ arc_forgets c (with_lru c p) None
    ∧ (∀ j, j ∈ p_known p → j ∈ p_known (_lru c)).
Proof.
  intros Hok Hk. destruct (p_check_ghost_law (_lru c) k (ao_lru _ Hok)) as (p & Hp & Hi & Hc & He & Hg).
  exists p. assert (∀ j, j ∈ p_known p → j ∈ p_known (_lru c)) as Hsub.
  { unfold p_known. rewrite He, Hg. set_solver. }
  split; [done|]. split; [apply ok_lru; auto|]. split; [|split; [|done]].
  - unfold p_known. rewrite He, Hg. apply not_elem_of_union. split; [by apply not_elem_of_dom|set_solver].
  - apply forgets_lru; [done|]. rewrite He, Hg. apply shrinks_ghost.
Qed.

Lemma check_lfu_spec c k :
  arc_ok c → p_entries (_lfu c) !! k = None →
  ∃ q, p_check_ghost (_lfu c) k = Some (bool_decide (k ∈ p_ghosts (_lfu c)), q)
    ∧ arc_ok (with_lfu c q) ∧ k ∉ p_known q ∧ arc_forgets c (with_lfu c q) None.
Proof.
  intros Hok Hk. destruct (p_check_ghost_law (_lfu c) k (ao_lfu _ Hok)) as (q & Hp & Hi & Hc & He & Hg).
  exists q. assert (∀ j, j ∈ p_known q → j ∈ p_known (_lfu c)) as Hsub.
  { unfold p_known. rewrite He, Hg. set_solver. }
  split; [done|]. split; [apply ok_lfu; auto|]. split.
  - unfold p_known. rewrite He, Hg. apply not_elem_of_union. split; [by apply not_elem_of_dom|set_solver].
  - apply forgets_lfu. rewrite He, Hg. apply shrinks_ghost.
Qed.

(** Moving one slot between the partitions keeps the total. *)
Lemma slot_to_lru c q :
  arc_ok c → p_inv q → p_capacity q = p_capacity (_lfu c) - 1 → 0 <= p_capacity q →
  shrinks_to (p_entries (_lfu c)) (p_entries q) (p_ghosts (_lfu c)) (p_ghosts q) None →
  let c' := with_lru_capacity (with_lru (with_lfu c q) (p_increase_capacity (_lru c)))
              (u64 (_lru_capacity c + 1)) in
  arc_ok c' ∧ arc_forgets c c' None ∧ p_known (_lru c') = p_known (_lru c)
  ∧ (∀ j, j ∈ p_known (_lfu c') → j ∈ p_known (_lfu c)).
Proof.
  intros [H1 H2 H3 H4 H5 H6 H7] Hq Hc Hnn Hs. cbv zeta. cbn. unfold is_u64 in H3.
  destruct (p_increase_law (_lru c) H1) as (Hi & Hcl & He & Hg); [lia|].
  pose proof (p_bound (_lru c) H1) as [[? ?] _].
  pose proof (known_same _ _ He Hg) as Hkl.
  assert (∀ j, j ∈ p_known q → j ∈ p_known (_lfu c)) as Hsub.
  { intros j Hj. by destruct (known_shrinks _ _ _ Hs j Hj). }
  split; [|split; [|done]].
  - split; cbn; rewrite ?Hcl; try done; [lia| |lia|].
    + rewrite H5. apply Z.mod_small. lia.
    + intros j. rewrite Hkl. intros Hj Hj'. by apply (H7 j Hj), Hsub.
  - intros j w Hj. unfold arc_lookup. cbn. rewrite He.
    destruct (p_entries (_lru c) !! j); [done|]. by apply Hs.
Qed.

Lemma slot_to_lfu c p :
  arc_ok c → p_inv p → p_capacity p = p_capacity (_lru c) - 1 → 1 < p_capacity (_lru c) →
  shrinks_to (p_entries (_lru c)) (p_entries p) (p_ghosts (_lru c)) (p_ghosts p) None →
  let c' := with_lru_capacity (with_lfu (with_lru c p) (p_increase_capacity (_lfu c)))
              (u64 (_lru_capacity c - 1)) in
  arc_ok c' ∧ arc_forgets c c' None ∧ p_known (_lfu c') = p_known (_lfu c)
  ∧ (∀ j, j ∈ p_known (_lru c') → j ∈ p_known (_lru c)).
Proof.
  intros Hok Hp Hc Hgt Hs. pose proof Hok as [H1 H2 H3 H4 H5 H6 H7]. cbv zeta. cbn. unfold is_u64 in H3.
  destruct (p_increase_law (_lfu c) H2) as (Hi & Hcl & He & Hg); [lia|].
  pose proof (p_bound (_lru c) H1) as [[? ?] _]. pose proof (p_bound (_lfu c) H2) as [[? ?] _].
  pose proof (known_same _ _ He Hg) as Hkl.
  assert (∀ j, j ∈ p_known p → j ∈ p_known (_lru c)) as Hsub.
  { intros j Hj. by destruct (known_shrinks _ _ _ Hs j Hj). }
  split; [|split; [|done]].
  - split; cbn; rewrite ?Hcl; try done; [lia| |lia|].
    + rewrite H5, Hc. apply Z.mod_small. lia.
    + intros j Hj. rewrite Hkl. by apply H7, Hsub.
  - pose proof (forgets_lru c p None Hok Hs) as Hf. intros j w Hj. specialize (Hf j w Hj).
    unfold arc_lookup in *. cbn in *. by rewrite He.
Qed.

Lemma check_ghost_caches_spec c k :
  arc_ok c → p_entries (_lru c) !! k = None → p_entries (_lfu c) !! k = None →
  ∃ hit c', check_ghost_caches c k = Some (hit, c') ∧ arc_ok c'
    ∧ _arc_capacity c' = _arc_capacity c ∧ arc_forgets c c' None
    ∧ k ∉ p_known (_lru c') ∧ k ∉ p_known (_lfu c').
Proof.
  intros Hok Hl Hf. unfold check_ghost_caches.
  destruct (check_lru_spec c k Hok Hl) as (p & -> & Hok1 & Hkp & Hfg1 & Hsub). cbn [mbind option_bind].
  case_bool_decide as Hgl.
  - assert (k ∉ p_known (_lfu c)) as Hkq by (apply (ao_disjoint _ Hok), known_ghost, Hgl).
    cbn [with_lru _lfu]. destruct (decide (p_capacity (_lfu c) = 0)) as [E0|E0].
    + rewrite (p_decrease_none _ (ao_lfu _ Hok) E0). cbn [mbind option_bind]. eexists _, _. split; [done|].
      change (mkArc _ _ _ _ _) with (with_lru c p). by destruct c.
    + destruct (p_decrease_law _ (ao_lfu _ Hok) E0) as (q & -> & Hq & Hcq & Hs). cbn [mbind option_bind].
      pose proof (p_bound q Hq) as [[? ?] _].
      destruct (slot_to_lru (with_lru c p) q Hok1 Hq Hcq) as (Hok2 & Hfg2 & Hk1 & Hk2); [done|done|].
      eexists _, _. split; [done|]. split; [exact Hok2|]. split; [done|].
      split; [by eapply arc_forgets_trans|]. cbn in *. rewrite Hk1. split; [done|]. intros Hin. by apply Hkq, Hk2.
  - destruct (check_lfu_spec (with_lru c p) k Hok1 Hf) as (q & Hcq & Hok2 & Hkq & Hfg2).
    rewrite Hcq. cbn [mbind option_bind]. case_bool_decide as Hgf.
    + cbn [with_lru with_lfu _lru_capacity _lru]. rewrite (ao_lru_capacity _ Hok).
      assert (p_capacity p = p_capacity (_lru c)) as Ecp.
      { pose proof (ao_lru_capacity _ Hok1). pose proof (ao_lru_capacity _ Hok). cbn in *. congruence. }
      destruct (Z.ltb_spec 1 (p_capacity (_lru c))) as [Hgt|Hle].
      * destruct (p_decrease_law p (ao_lru _ Hok1)) as (p2 & -> & Hp2 & Hcp2 & Hs); [lia|].
        cbn [mbind option_bind].
        destruct (slot_to_lfu (with_lfu (with_lru c p) q) p2 Hok2 Hp2) as (Hok3 & Hfg3 & Hk1 & Hk2);
          [done|cbn; lia|done|].
        eexists _, _. cbn in *. rewrite (ao_lru_capacity _ Hok) in *. split; [done|]. split; [exact Hok3|]. split; [done|].
        split; [by eapply arc_forgets_trans, arc_forgets_trans|]. cbn. rewrite Hk1. split; [|done].
        intros Hin. by apply Hkp, Hk2.
      * eexists _, _. split; [done|]. split; [exact Hok2|]. split; [done|].
        split; [by eapply arc_forgets_trans|]. done.
    + eexists _, _. split; [done|]. split; [exact Hok2|]. split; [done|].
      split; [by eapply arc_forgets_trans|]. done.
Qed.

Lemma arc_put_spec c k v :
  arc_ok c →
  ∃ c', arc_put c k v = Some c' ∧ arc_ok c' ∧ _arc_capacity c' = _arc_capacity c
    ∧ (_arc_capacity c = 0 → c' = c) ∧ (_arc_capacity c ≠ 0 → arc_lookup c' k = Some v)
    ∧ arc_forgets c c' (Some k).
Proof.
  intros Hok. unfold arc_put. destruct (Z.eqb_spec (_arc_capacity c) 0) as [E0|E0].
  { exists c. repeat (split; [done|]). apply arc_forgets_refl. }
  rewrite (p_contain_law (_lru c) k (ao_lru _ Hok)), (p_contain_law (_lfu c) k (ao_lfu _ Hok)).
  case_bool_decide as Hl.
  { destruct (put_lru_spec c k v Hok E0) as (p & -> & ? & ? & ?);
      [by apply (ao_disjoint _ Hok), known_resident|]. cbn. by eexists. }
  case_bool_decide as Hf.
  { destruct (put_lfu_spec c k v Hok) as (q & -> & ? & ? & ?); [| |cbn; by eexists].
    - pose proof (p_bound (_lfu c) (ao_lfu _ Hok)) as [_ Hb]. destruct Hf as [w Hw].
      intros E. rewrite E in Hb. assert (size (p_entries (_lfu c)) = 0%nat) as Hz by lia.
      apply map_size_empty_inv in Hz. by rewrite Hz, lookup_empty in Hw.
    - intros Hk. by apply (ao_disjoint _ Hok k Hk), known_resident. }
  destruct (check_ghost_caches_spec c k Hok) as (hit & c1 & -> & Hok1 & Hc1 & Hf1 & Hk1 & Hk2);
    [by apply eq_None_not_Some..|]. cbn [mbind option_bind].
  apply (arc_forgets_weaken _ _ k) in Hf1.
  assert (∃ p, p_put (_lru c1) k v = Some (true, p) ∧ arc_ok (with_lru c1 p)
    ∧ arc_lookup (with_lru c1 p) k = Some v ∧ arc_forgets c (with_lru c1 p) (Some k)) as (p & Hp & Hok2 & Hv & Hf2).
  { destruct (put_lru_spec c1 k v Hok1) as (p & ? & ? & ? & ?); [by rewrite Hc1|done|].
    exists p. do 3 (split; [done|]). by eapply arc_forgets_trans. }
  destruct hit; cbn [mbind option_bind]; try (rewrite Hp; cbn; by eexists).
  destruct (decide (p_capacity (_lfu c1) = 0)) as [Z0|Z0].
  - rewrite (p_put_none _ k v (ao_lfu _ Hok1) Z0). cbn [mbind option_bind].
    replace (with_lfu c1 (_lfu c1)) with c1 by by destruct c1. rewrite Hp. cbn. by eexists.
  - destruct (put_lfu_spec c1 k v Hok1 Z0 Hk1) as (q & -> & ? & ? & ?). cbn. eexists.
    do 5 (split; [done|]). by apply (arc_forgets_trans c c1).
Qed.

Lemma arc_get_spec c k :
  arc_ok c →
  ∃ c', arc_get c k = Some (arc_lookup c k, c') ∧ arc_ok c' ∧ _arc_capacity c' = _arc_capacity c
    ∧ arc_lookup c' k = arc_lookup c k ∧ arc_forgets c c' (Some k)
    ∧ (arc_lookup c k = None → ∀ j, arc_lookup c' j = arc_lookup c j).
Proof.
  intros Hok. unfold arc_get.
  destruct (p_get_law (_lru c) k (ao_lru _ Hok)) as (adv & p & -> & Hp & Hc & He & Hg & _).
  cbn [mbind option_bind]. pose proof (known_same _ _ He Hg) as Hkn.
  assert (arc_ok (with_lru c p)) as Hok1 by (apply ok_lru; [done|done|done|]; rewrite Hkn; auto).
  assert (∀ j, arc_lookup (with_lru c p) j = arc_lookup c j) as Hsame
    by (intros j; unfold arc_lookup; cbn; by rewrite He).
  assert (arc_forgets c (with_lru c p) (Some k)) as Hf1 by (intros j w _; by rewrite Hsame).
  destruct (p_entries (_lru c) !! k) as [v|] eqn:Ev.
  - assert (arc_lookup c k = Some v) as Hlk by (unfold arc_lookup; by rewrite Ev). rewrite Hlk.
    assert (∃ c', Some (Some v, with_lru c p) = Some (Some v, c') ∧ arc_ok c'
      ∧ _arc_capacity c' = _arc_capacity c ∧ arc_lookup c' k = Some v ∧ arc_forgets c c' (Some k)
      ∧ (Some v = None → ∀ j, arc_lookup c' j = arc_lookup c j)) as Hstay.
    { eexists. do 3 (split; [done|]). split; [by rewrite Hsame|done]. }
    destruct adv; [|done].
    destruct (decide (p_capacity (_lfu c) = 0)) as [Z0|Z0].
    { cbn [with_lru _lfu]. rewrite (p_put_none _ k v (ao_lfu _ Hok) Z0). cbn [mbind option_bind]. done. }
    destruct (p_put_law (_lfu c) k v (ao_lfu _ Hok) Z0) as (q & Hq & Hiq & Hcq & Hvq & Hsq & _).
    cbn [with_lru _lfu]. rewrite Hq. cbn [mbind option_bind with_lfu with_lru _lru].
    destruct (p_erase_law p k Hp) as (p2 & -> & Hp2 & Hc2 & He2 & Hg2). cbn [mbind option_bind].
    eexists. split; [done|].
    assert (k ∈ p_known (_lru c)) as Hkk by (apply known_resident; by rewrite Ev).
    assert (∀ j, j ∈ p_known p2 → j ∈ p_known (_lru c) ∧ j ≠ k) as Hk2.
    { intros j. unfold p_known. rewrite He2, Hg2, He, Hg, dom_delete_L. intros Hj.
      split; [set_solver|]. intros ->. apply elem_of_union in Hj as [Hj|Hj]; [set_solver|].
      pose proof (p_disjoint _ _ (ao_lru _ Hok) Hj). congruence. }
    split; [|split; [done|split; [|split; [|done]]]].
    + destruct Hok as [H1 H2 H3 H4 H5 H6 H7]. split; cbn; rewrite ?Hcq, ?Hc2, ?Hc; try done.
      intros j [Hj Hjk]%Hk2 Hjq. destruct (known_shrinks _ _ _ Hsq j Hjq) as [?|[= ->]]; [by apply (H7 j)|done].
    + unfold arc_lookup. cbn. by rewrite He2, lookup_delete_eq.
    + intros j w Hj. unfold arc_lookup. cbn. rewrite He2, He, lookup_delete_ne by congruence.
      destruct (p_entries (_lru c) !! j); [done|]. by apply Hsq.
  - destruct (p_get_law (_lfu c) k (ao_lfu _ Hok)) as (adv2 & q & Hq & Hiq & Hcq & Heq & Hgq & _).
    cbn [with_lru _lfu]. rewrite Hq. cbn [mbind option_bind]. eexists. split.
    { unfold arc_lookup. by rewrite Ev. }
    pose proof (known_same _ _ Heq Hgq) as Hknq.
    assert (∀ j, arc_lookup (with_lfu (with_lru c p) q) j = arc_lookup c j) as Hsame2
      by (intros j; unfold arc_lookup; cbn; by rewrite He, Heq).
    split; [apply (ok_lfu (with_lru c p)); [done|done|done|]; cbn; rewrite Hknq; auto|].
    split; [done|]. split; [apply Hsame2|]. split; [|done]. intros j w _. by rewrite Hsame2.
Qed.

Lemma arc_erase_spec c k :
  arc_ok c →
  ∃ c', arc_erase c k = Some (bool_decide (k ∈ p_known (_lru c) ∪ p_known (_lfu c)), c')
    ∧ arc_ok c' ∧ _arc_capacity c' = _arc_capacity c
    ∧ (∀ j, arc_lookup c' j = if decide (j = k) then None else arc_lookup c j)
    ∧ k ∉ p_known (_lru c') ∧ k ∉ p_known (_lfu c').
Proof.
  intros Hok. unfold arc_erase.
  destruct (p_invalidate_law (_lru c) k (ao_lru _ Hok)) as (p & -> & Hp & Hc & He & Hg).
  destruct (p_invalidate_law (_lfu c) k (ao_lfu _ Hok)) as (q & -> & Hq & Hcq & Heq & Hgq).
  cbn [mbind option_bind]. eexists. split.
  { do 2 f_equal. unfold p_known. rewrite <- !bool_decide_or. apply bool_decide_ext.
    rewrite !elem_of_union, !elem_of_dom. tauto. }
  assert (∀ j, j ∈ p_known p → j ∈ p_known (_lru c) ∧ j ≠ k) as Hkp.
  { intros j. unfold p_known. rewrite He, Hg, dom_delete_L. set_solver. }
  assert (∀ j, j ∈ p_known q → j ∈ p_known (_lfu c) ∧ j ≠ k) as Hkq.
  { intros j. unfold p_known. rewrite Heq, Hgq, dom_delete_L. set_solver. }
  split; [|split; [done|split]].
  - destruct Hok as [H1 H2 H3 H4 H5 H6 H7]. split; cbn; rewrite ?Hc, ?Hcq; try done.
    intros j [Hj _]%Hkp [Hj' _]%Hkq. by apply (H7 j).
  - intros j. unfold arc_lookup. cbn. rewrite He, Heq. case_decide as Hj; subst.
    + by rewrite !lookup_delete_eq.
    + by rewrite !lookup_delete_ne.
  - cbn. split; [intros [_ ?]%Hkp; done|intros [_ ?]%Hkq; done].
Qed.
End Arc.
#[global] Arguments ArcCache : clear implicits.

(** ** The cache over [ArcLru] and [ArcLfu], and its shards *)

Module Concrete.
Section Concrete.
Context {K V : Type} `{Countable K} `{!Inhabited K} `{!Inhabited V}.
Abbreviation Arc := (ArcCache (ArcLru K V) (ArcLfu K V)).

(** [ArcCache(cap, trans)] *)
Definition new_arc (cap trans : Z) : Arc :=
  let lru_capacity := cap - cap / 2 in
  mkArc cap trans lru_capacity (new_lru lru_capacity trans cap) (new_lfu (cap / 2) trans cap).

Lemma new_lru_inv cap trans g : is_u64 cap → 0 <= g → lru_inv (new_lru (K := K) (V := V) cap trans g).
Proof. intros Hc Hg. eexists. split; [apply new_lru_rep|by apply sp_new_wf]. Qed.
Lemma new_lfu_inv cap trans g : is_u64 cap → 0 <= g → lfu_inv (new_lfu (K := K) (V := V) cap trans g).
Proof. intros Hc Hg. eexists. split; [apply new_lfu_rep|by apply lf_new_wf]. Qed.

Lemma new_arc_ok cap trans :
  is_u64 cap → arc_ok (new_arc cap trans) ∧ ∀ k, arc_lookup (new_arc cap trans) k = None.
Proof.
  intros Hc. unfold is_u64 in Hc.
  assert (p_known (P := ArcLru K V) (new_lru (cap - cap / 2) trans cap) = ∅) as Hk.
  { unfold p_known. cbn. unfold lru_entries, lru_ghosts. cbn. rewrite dom_empty_L. set_solver. }
  split.
  - split; cbn; [apply new_lru_inv|apply new_lfu_inv|..]; unfold is_u64;
      try (Z.to_euclidean_division_equations; lia); try done.
  - intros k. unfold arc_lookup. cbn. unfold lru_entries, lfu_entries. cbn.
    by rewrite !lookup_omap, !lookup_empty.
Qed.

(** ** Shards *)

Context (k_hash : K → Z).  (* [std::hash] *)

Record HashArcCache := mkHash {
  _hash_capacity : Z;
  _slice_num : Z;
  _arc_slice_caches : list Arc
}.

(** Number of shards; [hw] is [std::thread::hardware_concurrency()]. *)
Definition slice_count (cap slice_num hw : Z) : Z :=
  if cap =? 0 then 0 else Z.min (if 0 <? slice_num then slice_num else Z.max 1 hw) cap.

Definition slice_sizes (cap n : Z) : list Z :=
  map (λ i, cap / n + (if Z.of_nat i <? cap mod n then 1 else 0)) (seq 0 (Z.to_nat n)).

Definition new_hash (cap slice_num hw : Z) : HashArcCache :=
  let n := slice_count cap slice_num hw in
  if cap =? 0 then mkHash cap 0 []
  else mkHash cap n (map (λ size, new_arc size 2) (slice_sizes cap n)).

Definition slice_index (h : HashArcCache) (key : K) : nat := Z.to_nat (k_hash key mod _slice_num h).

Definition with_slice (h : HashArcCache) (i : nat) (c : Arc) : HashArcCache :=
  mkHash (_hash_capacity h) (_slice_num h) (<[i := c]> (_arc_slice_caches h)).

Definition hash_put (h : HashArcCache) (key : K) (value : V) : option HashArcCache :=
  if _slice_num h =? 0 then Some h else
  c ← _arc_slice_caches h !! slice_index h key;
  c ← arc_put c key value;
  Some (with_slice h (slice_index h key) c).

Definition hash_get (h : HashArcCache) (key : K) : option (option V * HashArcCache) :=
  if _slice_num h =? 0 then Some (None, h) else
  c ← _arc_slice_caches h !! slice_index h key;
  '(r, c) ← arc_get c key;
  Some (r, with_slice h (slice_index h key) c).

Definition hash_erase (h : HashArcCache) (key : K) : option (bool * HashArcCache) :=
  if _slice_num h =? 0 then Some (false, h) else
  c ← _arc_slice_caches h !! slice_index h key;
  '(r, c) ← arc_erase c key;
  Some (r, with_slice h (slice_index h key) c).

(** [Value get(Key)]: the value, or a default-constructed one. *)
Definition hash_get_value (h : HashArcCache) (key : K) : option (V * HashArcCache) :=
  '(r, h) ← hash_get h key; Some (default inhabitant r, h).

(** ** Sequences of operations *)

Inductive cache_op := CPut (k : K) (v : V) | CGet (k : K) | CErase (k : K).
Inductive cache_out := CStored | CRead (r : option V) | CErased (b : bool).

Definition hash_step (h : HashArcCache) (op : cache_op) : option (cache_out * HashArcCache) :=
  match op with
  | CPut k v => h ← hash_put h k v; Some (CStored, h)
  | CGet k => '(r, h) ← hash_get h k; Some (CRead r, h)
  | CErase k => '(b, h) ← hash_erase h k; Some (CErased b, h)
  end.

Fixpoint hash_run (h : HashArcCache) (ops : list cache_op) : option (list cache_out * HashArcCache) :=
  match ops with
  | [] => Some ([], h)
  | op :: rest => '(o, h) ← hash_step h op; '(os, h) ← hash_run h rest; Some (o :: os, h)
  end.

Fixpoint arc_run (c : Arc) (ops : list cache_op) : option Arc :=
  match ops with
  | [] => Some c
  | CPut k v :: rest => c ← arc_put c k v; arc_run c rest
  | CGet k :: rest => '(_, c) ← arc_get c k; arc_run c rest
  | CErase k :: rest => '(_, c) ← arc_erase c k; arc_run c rest
  end.

(** What a cache may answer: [m] is what has been stored and not erased, [hot] the
    key that was stored or found last. A read returns the stored value or nothing,
    and the value when its key is hot. *)
Fixpoint coherent (m : gmap K V) (hot : option K) (ops : list cache_op) (outs : list cache_out) : Prop :=
  match ops, outs with
  | [], [] => True
  | CPut k v :: ops, CStored :: outs => coherent (<[k := v]> m) (Some k) ops outs
  | CGet k :: ops, CRead r :: outs =>
      (r = None ∨ r = m !! k) ∧ (hot = Some k → r = m !! k)
      ∧ coherent m (match r with Some _ => Some k | None => hot end) ops outs
  | CErase k :: ops, CErased b :: outs =>
      coherent (delete k m) (if decide (hot = Some k) then None else hot) ops outs
  | _, _ => False
  end.


Lemma arc_run_ok ops c : arc_ok c → ∃ c', arc_run c ops = Some c' ∧ arc_ok c' ∧ _arc_capacity c' = _arc_capacity c.
Proof.
  revert c. induction ops as [|[k v|k|k] ops IH]; intros c Hok; cbn [arc_run]; [by exists c| | |].
  - destruct (arc_put_spec c k v Hok) as (c1 & -> & Hok1 & Hc1 & _). cbn [mbind option_bind].
    rewrite <- Hc1. by apply IH.
  - destruct (arc_get_spec c k Hok) as (c1 & -> & Hok1 & Hc1 & _). cbn [mbind option_bind].
    rewrite <- Hc1. by apply IH.
  - destruct (arc_erase_spec c k Hok) as (c1 & -> & Hok1 & Hc1 & _). cbn [mbind option_bind].
    rewrite <- Hc1. by apply IH.
Qed.

(** C32. After any sequence of operations on a new adaptive cache: the operations ran
    without a null dereference, the two partition capacities add up to the
    cache's capacity, the recency partition kept at least one slot unless the cache
    is disabled, the entries of both partitions together respect the capacity, and
    no key is resident or remembered in both partitions. *)
Theorem arc_capacity_conserved cap trans ops :
  is_u64 cap →
  ∃ c : Arc, arc_run (new_arc cap trans) ops = Some c
    ∧ _capacity (_lru c) + _lfu_capacity (_lfu c) = cap
    ∧ (cap ≠ 0 → 1 <= _capacity (_lru c))
    ∧ Z.of_nat (size (lru_entries (_lru c)) + size (lfu_entries (_lfu c))) <= cap
    ∧ (∀ k, k ∈ dom (lru_entries (_lru c)) ∪ lru_ghosts (_lru c) →
            k ∉ dom (lfu_entries (_lfu c)) ∪ lfu_ghosts (_lfu c)).
Proof.
  intros Hc. destruct (arc_run_ok ops _ (proj1 (new_arc_ok cap trans Hc))) as (c & Hrun & Hok & Hcap).
  cbn in Hcap. exists c. split; [done|]. destruct Hok as [H1 H2 H3 H4 H5 H6 H7].
  pose proof (p_bound _ H1) as [_ B1]. pose proof (p_bound _ H2) as [_ B2].
  rewrite Hcap in *. cbn in *. split; [done|]. split; [done|]. split; [|exact H7]. lia.
Qed.

(** ** Coherence of the sharded cache *)

Record hash_ok (h : HashArcCache) : Prop := {
  ho_num : _slice_num h = Zlen (_arc_slice_caches h);
  ho_slices : ∀ i c, _arc_slice_caches h !! i = Some c → arc_ok c ∧ _arc_capacity c ≠ 0
}.

Definition hash_lookup (h : HashArcCache) (k : K) : option V :=
  c ← _arc_slice_caches h !! slice_index h k; arc_lookup c k.

Lemma slice_exists h k :
  hash_ok h → _slice_num h ≠ 0 → ∃ c, _arc_slice_caches h !! slice_index h k = Some c.
Proof.
  intros [Hn _] H0. apply lookup_lt_is_Some. unfold slice_index. unfold Zlen in Hn.
  pose proof (Z.mod_pos_bound (k_hash k) (_slice_num h) ltac:(lia)). lia.
Qed.

(** Replacing the shard of a key. *)
Lemma with_slice_spec h k c c' :
  hash_ok h → _arc_slice_caches h !! slice_index h k = Some c →
  arc_ok c' → _arc_capacity c' = _arc_capacity c →
  let h' := with_slice h (slice_index h k) c' in
  hash_ok h' ∧ hash_lookup h' k = arc_lookup c' k
  ∧ ∀ j, (hash_lookup h' j = arc_lookup c' j ∧ hash_lookup h j = arc_lookup c j)
         ∨ (j ≠ k ∧ hash_lookup h' j = hash_lookup h j).
Proof.
  intros [Hn Hs] Hi Hok Hc. cbv zeta. pose proof (lookup_lt_Some _ _ _ Hi) as Hlt.
  destruct (Hs _ _ Hi) as [_ H0].
  assert (∀ j, slice_index (with_slice h (slice_index h k) c') j = slice_index h j) as Hx by done.
  assert (∀ j, slice_index h k = slice_index h j →
    hash_lookup (with_slice h (slice_index h k) c') j = arc_lookup c' j) as Hsame.
  { intros j Hj. unfold hash_lookup. cbn [with_slice _arc_slice_caches]. rewrite Hx, <- Hj.
    by rewrite list_lookup_insert_eq. }
  split; [|split].
  - split; cbn; [unfold Zlen in *; by rewrite length_insert|]. intros j d.
    rewrite list_lookup_insert_Some. intros [(<- & <- & _)|(_ & Hd)]; [by rewrite Hc|by apply (Hs j)].
  - by apply Hsame.
  - intros j. destruct (decide (slice_index h k = slice_index h j)) as [E|E].
    + left. split; [by apply Hsame|]. unfold hash_lookup. by rewrite <- E, Hi.
    + right. split; [congruence|]. unfold hash_lookup. cbn [with_slice _arc_slice_caches]. rewrite Hx.
      by rewrite list_lookup_insert_ne.
Qed.

(** The shards hold nothing but stored values, and the hot key. *)
Definition tracks (h : HashArcCache) (m : gmap K V) (hot : option K) : Prop :=
  (∀ j w, hash_lookup h j = Some w → m !! j = Some w)
  ∧ (∀ j, hot = Some j → hash_lookup h j = m !! j).

(** What every operation on a shard provides. *)
Ltac open_shard h k Hok H0 c Hi Hc Hc0 :=
  destruct (slice_exists h k Hok H0) as [c Hi];
  destruct (ho_slices _ Hok _ _ Hi) as [Hc Hc0].

Lemma hash_put_step h m hot k v :
  hash_ok h → _slice_num h ≠ 0 → tracks h m hot →
  ∃ h', hash_put h k v = Some h' ∧ hash_ok h' ∧ _slice_num h' = _slice_num h
    ∧ tracks h' (<[k := v]> m) (Some k).
Proof.
  intros Hok H0 [Hm _]. open_shard h k Hok H0 c Hi Hc Hc0.
  destruct (arc_put_spec c k v Hc) as (c' & Hp & Hc' & Hcap & _ & Hv & Hf). specialize (Hv Hc0).
  unfold hash_put. rewrite (proj2 (Z.eqb_neq _ _)) by done. rewrite Hi. cbn [mbind option_bind].
  rewrite Hp. cbn [mbind option_bind].
  destruct (with_slice_spec h k c c' Hok Hi Hc' Hcap) as (Hok' & Hk & Hj).
  eexists. split; [done|]. split; [done|]. split; [done|]. split.
  - intros j w Hw. destruct (decide (j = k)) as [->|Hne].
    + rewrite lookup_insert_eq. congruence.
    + rewrite lookup_insert_ne by done. apply Hm. destruct (Hj j) as [[E1 E2]|[_ E]]; [|congruence].
      rewrite E2. apply Hf; congruence.
  - intros j [= <-]. rewrite lookup_insert_eq. congruence.
Qed.

Lemma hash_get_step h m hot k :
  hash_ok h → _slice_num h ≠ 0 → tracks h m hot →
  ∃ r h', hash_get h k = Some (r, h') ∧ hash_ok h' ∧ _slice_num h' = _slice_num h
    ∧ (r = None ∨ r = m !! k) ∧ (hot = Some k → r = m !! k)
    ∧ tracks h' m (match r with Some _ => Some k | None => hot end).
Proof.
  intros Hok H0 [Hm Hh]. open_shard h k Hok H0 c Hi Hc Hc0.
  destruct (arc_get_spec c k Hc) as (c' & Hp & Hc' & Hcap & Hv & Hf & Hmiss).
  unfold hash_get. rewrite (proj2 (Z.eqb_neq _ _)) by done. rewrite Hi. cbn [mbind option_bind].
  rewrite Hp. cbn [mbind option_bind].
  destruct (with_slice_spec h k c c' Hok Hi Hc' Hcap) as (Hok' & Hk & Hj).
  assert (hash_lookup h k = arc_lookup c k) as Hlk by (unfold hash_lookup; by rewrite Hi).
  eexists _, _. split; [done|]. split; [done|]. split; [done|]. split; [|split; [|split]].
  - destruct (arc_lookup c k) as [v|] eqn:Ev; [right|by left]. symmetry. by apply Hm.
  - intros ->. rewrite <- (Hh k eq_refl). done.
  - intros j w Hw. apply Hm. destruct (Hj j) as [[E1 E2]|[_ E]]; [|congruence].
    rewrite E2. destruct (decide (j = k)) as [->|Hne]; [congruence|apply Hf; congruence].
  - destruct (arc_lookup c k) as [v|] eqn:Ev.
    + intros j [= <-]. rewrite Hk, Hv. symmetry. apply Hm. congruence.
    + intros j Hhot. rewrite <- (Hh j Hhot). destruct (Hj j) as [[E1 E2]|[_ E]]; [|done].
      rewrite E1, E2. by apply Hmiss.
Qed.

Lemma hash_erase_step h m hot k :
  hash_ok h → _slice_num h ≠ 0 → tracks h m hot →
  ∃ b h', hash_erase h k = Some (b, h') ∧ hash_ok h' ∧ _slice_num h' = _slice_num h
    ∧ tracks h' (delete k m) (if decide (hot = Some k) then None else hot).
Proof.
  intros Hok H0 [Hm Hh]. open_shard h k Hok H0 c Hi Hc Hc0.
  destruct (arc_erase_spec c k Hc) as (c' & Hp & Hc' & Hcap & Hl & _).
  unfold hash_erase. rewrite (proj2 (Z.eqb_neq _ _)) by done. rewrite Hi. cbn [mbind option_bind].
  rewrite Hp. cbn [mbind option_bind].
  destruct (with_slice_spec h k c c' Hok Hi Hc' Hcap) as (Hok' & Hk & Hj).
  assert (∀ j, j ≠ k → hash_lookup (with_slice h (slice_index h k) c') j = hash_lookup h j) as Hne.
  { intros j Hjk. destruct (Hj j) as [[E1 E2]|[_ E]]; [|done]. by rewrite E1, E2, Hl, decide_False. }
  eexists _, _. split; [done|]. split; [done|]. split; [done|]. split.
  - intros j w Hw. destruct (decide (j = k)) as [->|Hjk].
    + rewrite Hk, Hl, decide_True in Hw by done. done.
    + rewrite lookup_delete_ne by done. apply Hm. by rewrite <- Hne.
  - intros j Hhot. case_decide as Hd; [done|].
    assert (j ≠ k) by (intros ->; done). rewrite Hne, lookup_delete_ne by done. by apply Hh.
Qed.

Lemma hash_run_coherent ops h m hot :
  hash_ok h → _slice_num h ≠ 0 → tracks h m hot →
  ∃ outs h', hash_run h ops = Some (outs, h') ∧ coherent m hot ops outs.
Proof.
  revert h m hot. induction ops as [|[k v|k|k] ops IH]; intros h m hot Hok H0 Ht; cbn [hash_run hash_step].
  - by eexists [], h.
  - destruct (hash_put_step h m hot k v Hok H0 Ht) as (h1 & -> & Hok1 & Hn & Ht1). cbn [mbind option_bind].
    edestruct (IH h1) as (outs & h2 & -> & Hc); [exact Hok1|congruence|exact Ht1|]. cbn. by eexists _, _.
  - destruct (hash_get_step h m hot k Hok H0 Ht) as (r & h1 & -> & Hok1 & Hn & Hr1 & Hr2 & Ht1).
    cbn [mbind option_bind].
    edestruct (IH h1) as (outs & h2 & -> & Hc); [exact Hok1|congruence|exact Ht1|]. cbn. by eexists _, _.
  - destruct (hash_erase_step h m hot k Hok H0 Ht) as (b & h1 & -> & Hok1 & Hn & Ht1). cbn [mbind option_bind].
    edestruct (IH h1) as (outs & h2 & -> & Hc); [exact Hok1|congruence|exact Ht1|]. cbn. by eexists _, _.
Qed.

(** ** Capacities of the shards *)

Definition Zsum (l : list Z) : Z := foldr Z.add 0 l.

Lemma slice_sizes_sum_gen (q r : Z) (n start : nat) :
  0 <= r →
  Zsum (map (λ i, q + (if Z.of_nat i <? r then 1 else 0)) (seq start n))
  = q * Z.of_nat n + Z.max 0 (Z.min (Z.of_nat n) (r - Z.of_nat start)).
Proof.
  intros Hr. revert start. induction n as [|n IH]; intros start; cbn [seq map Zsum foldr]; [lia|].
  fold (Zsum (map (λ i, q + (if Z.of_nat i <? r then 1 else 0)) (seq (S start) n))). rewrite IH.
  destruct (Z.ltb_spec (Z.of_nat start) r); lia.
Qed.

Lemma slice_count_range cap slice_num hw :
  0 < cap → 0 <= slice_num → 1 <= slice_count cap slice_num hw <= cap.
Proof.
  intros Hc Hs. unfold slice_count. rewrite (proj2 (Z.eqb_neq cap 0)) by lia.
  destruct (Z.ltb_spec 0 slice_num); lia.
Qed.

Lemma slice_sizes_spec cap n :
  1 <= n <= cap →
  Zsum (slice_sizes cap n) = cap ∧ Zlen (slice_sizes cap n) = n
  ∧ ∀ size, size ∈ slice_sizes cap n → 1 <= size <= cap.
Proof.
  intros Hn. pose proof (Z.mod_pos_bound cap n ltac:(lia)) as Hm. unfold slice_sizes. split_and!.
  - rewrite slice_sizes_sum_gen by lia. rewrite Z2Nat.id by lia. cbn.
    pose proof (Z.div_mod cap n ltac:(lia)). lia.
  - unfold Zlen. rewrite length_map, length_seq. lia.
  - intros size (i & -> & Hi)%list_elem_of_fmap.
    assert (1 <= cap / n) by (apply Z.div_le_lower_bound; lia).
    assert (cap / n <= cap) by (apply Z.div_le_upper_bound; nia).
    destruct (Z.ltb_spec (Z.of_nat i) (cap mod n)); [|lia].
    pose proof (Z.div_mod cap n ltac:(lia)). split; [lia|]. nia.
Qed.

(** The shards share out exactly the requested capacity: their number is at least
    one and at most the capacity, no shard is empty, any two differ by at most one
    slot, and the shard capacities add up to the cache's; a zero capacity creates
    no shard. *)
Theorem hash_slices_exact cap slice_num hw :
  is_u64 cap → 0 <= slice_num →
  let h := new_hash cap slice_num hw in
  Zsum (map _arc_capacity (_arc_slice_caches h)) = cap
  ∧ _slice_num h = Zlen (_arc_slice_caches h)
  ∧ (0 < cap → 1 <= _slice_num h <= cap)
  ∧ (∀ c, c ∈ _arc_slice_caches h →
      1 <= _arc_capacity c ∧ ∀ d, d ∈ _arc_slice_caches h → _arc_capacity c <= _arc_capacity d + 1).
Proof.
  intros [Hc _] Hs. cbv zeta. unfold new_hash. destruct (Z.eqb_spec cap 0) as [->|H0].
  { cbn. split; [done|]. split; [done|]. split; [lia|set_solver]. }
  pose proof (slice_count_range cap slice_num hw ltac:(lia) Hs) as Hn.
  set (n := slice_count cap slice_num hw) in *. destruct (slice_sizes_spec cap n Hn) as (H1 & H2 & H3).
  cbn [_arc_slice_caches _slice_num]. rewrite map_map. cbn [new_arc _arc_capacity]. rewrite map_id.
  split; [done|]. split; [unfold Zlen in *; by rewrite length_map|]. split; [done|].
  intros c (s & -> & Hin)%list_elem_of_fmap. cbn. split; [by apply H3|].
  intros d (s' & -> & Hin')%list_elem_of_fmap. cbn. unfold slice_sizes in Hin, Hin'.
  apply list_elem_of_fmap in Hin as (i & -> & _). apply list_elem_of_fmap in Hin' as (i' & -> & _).
  destruct (_ <? _), (_ <? _); lia.
Qed.

Lemma new_hash_ok cap slice_num hw :
  is_u64 cap → 0 < cap → 0 <= slice_num →
  hash_ok (new_hash cap slice_num hw) ∧ _slice_num (new_hash cap slice_num hw) ≠ 0
  ∧ tracks (new_hash cap slice_num hw) ∅ None.
Proof.
  intros [_ Hc] H0 Hs. pose proof (slice_count_range cap slice_num hw ltac:(lia) Hs) as Hn.
  unfold new_hash. rewrite (proj2 (Z.eqb_neq cap 0)) by lia.
  set (n := slice_count cap slice_num hw) in *. destruct (slice_sizes_spec cap n Hn) as (H1 & H2 & H3).
  assert (∀ i c, map (λ size, new_arc size 2) (slice_sizes cap n) !! i = Some c →
    arc_ok c ∧ _arc_capacity c ≠ 0 ∧ ∀ k, arc_lookup c k = None) as Hsl.
  { intros i c. rewrite list_lookup_fmap. intros (s & Hs' & ->)%fmap_Some.
    apply list_elem_of_lookup_2, H3 in Hs'. destruct (new_arc_ok s 2) as [? ?]; [unfold is_u64; lia|].
    split; [done|]. split; [cbn; lia|done]. }
  split; [|split; [cbn; lia|split; [|done]]].
  - split; cbn; [unfold Zlen in *; by rewrite length_map|]. intros i c Hic.
    destruct (Hsl i c Hic) as (? & ? & _). done.
  - intros j w. unfold hash_lookup. cbn [_arc_slice_caches].
    destruct (map _ _ !! _) as [c|] eqn:E; [|done]. cbn. by rewrite (proj2 (proj2 (Hsl _ _ E))).
Qed.

(** C29. The sharded cache is coherent. For every hash function and every sequence of
    operations on a new cache with a positive capacity, the operations run to the
    end and a read returns either nothing or the value that was stored last under
    its key and not erased since; a read of the key that was stored or found last
    returns its value. Promotions, evictions and capacity transfers between the
    partitions never make a key answer with a wrong or stale value. *)
Theorem hash_cache_coherent cap slice_num hw ops :
  is_u64 cap → 0 < cap → 0 <= slice_num →
  ∃ outs h, hash_run (new_hash cap slice_num hw) ops = Some (outs, h) ∧ coherent ∅ None ops outs.
Proof.
  intros Hc H0 Hs. destruct (new_hash_ok cap slice_num hw Hc H0 Hs) as (Hok & Hn & Ht).
  by apply hash_run_coherent.
Qed.
End Concrete.
End Concrete.

Import Concrete.

Lemma arc_capacity_conserved_witness :
  let ops := [CPut 1 10; CGet 1; CPut 2 20; CPut 3 30; CPut 4 40; CPut 2 21; CGet 3] in
  ∃ c, arc_run (K := Z) (V := Z) (new_arc 3 2) ops = Some c ∧ _capacity (_lru c) + _lfu_capacity (_lfu c) = 3.
Proof.
  destruct (arc_capacity_conserved (K := Z) (V := Z) 3 2
    [CPut 1 10; CGet 1; CPut 2 20; CPut 3 30; CPut 4 40; CPut 2 21; CGet 3]) as (c & Hrun & Hsum & _);
    [unfold is_u64; lia|].
  exists c. split; [exact Hrun|exact Hsum].
Defined.

Lemma hash_slices_exact_witness :
  let h := new_hash (K := Z) (V := Z) 7 3 8 in
  map _arc_capacity (_arc_slice_caches h) = [3; 2; 2] ∧ Zsum (map _arc_capacity (_arc_slice_caches h)) = 7.
Proof.
  split; [vm_compute; reflexivity|].
  exact (proj1 (hash_slices_exact (K := Z) (V := Z) 7 3 8 ltac:(unfold is_u64; lia) ltac:(lia))).
Defined.

Lemma hash_cache_coherent_witness :
  let ops := [CPut 1 10; CPut 2 20; CGet 1; CPut 3 30; CPut 1 11; CGet 1; CErase 1; CGet 1] in
  let run := hash_run (K := Z) (V := Z) id (new_hash 3 2 8) ops in
  (fst <$> run) = Some [CStored; CStored; CRead (Some 10); CStored; CStored; CRead (Some 11);
                        CErased true; CRead None]
  ∧ ∃ outs h, run = Some (outs, h) ∧ coherent ∅ None ops outs.
Proof.
  split; [vm_compute; reflexivity|].
  apply (hash_cache_coherent id 3 2 8); [unfold is_u64; lia|lia|lia].
Defined.
