(* ===== verification/MonitorPolicy.v ===== *)
(** Sampling policies ([src/monitor/monitor_policy.cpp],
    [inc/monitor/monitor_policy.h]).

    A policy turns a sequence of samples into reports. [MonitorPolicy] is the
    abstract base class: [feed] processes one sample at a logical time given by the
    caller, [value] reads the current output. The three implementations are the
    state machine CONT_FOR, the ring buffer of event times TIMES_PER_PERIOD and the
    moving average SMOOTH_TRIM. Times are signed 64-bit milliseconds whose
    subtraction can overflow, sums and samples are unsigned; [feed] runs in
    [option], [None] being undefined behaviour. Each implementation is related to a
    definition over the whole history of samples. *)

From S2P Require Import Prelude.
#[local] Open Scope tlss_scope.

Record PolicyFeedResult := mkFeed {
  _noteworthy : bool;
  _value : Z
}.

Class MonitorPolicy (P : Type) := {
  feed : P → Z → Z → option (PolicyFeedResult * P);
  value : P → Z
}.

(** Feeding a sequence of samples (value, time). *)
Fixpoint feed_all {P} `{!MonitorPolicy P} (p : P) (samples : list (Z * Z)) : option (list PolicyFeedResult * P) :=
  match samples with
  | [] => Some ([], p)
  | (v, t) :: rest =>
      '(r, p) ← feed p v t; '(rs, p) ← feed_all p rest; Some (r :: rs, p)
  end.

Lemma feed_all_app {P} `{!MonitorPolicy P} (p : P) a b :
  feed_all p (a ++ b)
  = '(ra, p) ← feed_all p a; '(rb, p) ← feed_all p b; Some (ra ++ rb, p).
Proof.
  revert p. induction a as [|[v t] a IH]; intros p; cbn.
  - by destruct (feed_all p b) as [[? ?]|].
  - destruct (feed p v t) as [[r p1]|]; [|done]. cbn. rewrite IH.
    destruct (feed_all p1 a) as [[ra p2]|]; [|done]. cbn.
    by destruct (feed_all p2 b) as [[? ?]|].
Qed.

(** ** Ring buffers over the history of what was written *)

Section Ring.
Context {A : Type}.
Implicit Types (buf l : list A).

(** The last [n] elements. *)
Definition lastn (n : nat) l : list A := drop (length l - n) l.

(** [buf] holds the most recent elements of [l]; [head] is the next position. *)
Record ring buf (head : nat) l : Prop := {
  ring_head : head = (length l mod length buf)%nat;
  ring_size : (0 < length buf)%nat;
  ring_data : ∀ j x, l !! j = Some x → (length l <= j + length buf)%nat →
                     buf !! (j mod length buf)%nat = Some x
}.

Lemma ring_empty buf : (0 < length buf)%nat → ring buf 0 [].
Proof. intros Hn. split; [by rewrite Nat.Div0.mod_0_l|done|done]. Qed.

Lemma mod_neq n a b : (0 < n)%nat → (a < b)%nat → (b < a + n)%nat → (a mod n ≠ b mod n)%nat.
Proof.
  intros Hn Hab Hb E. pose proof (Nat.div_mod_eq a n). pose proof (Nat.div_mod_eq b n).
  assert (n * (a / n) < n * (b / n))%nat by lia. assert (a / n < b / n)%nat by nia. nia.
Qed.

Lemma ring_push buf head l x :
  ring buf head l → ring (<[head := x]> buf) ((head + 1) mod length buf) (l ++ [x]).
Proof.
  intros [-> Hn Hd]. split; rewrite ?length_insert, ?length_app; cbn [length].
  - by rewrite Nat.Div0.add_mod_idemp_l.
  - done.
  - intros j y Hj Hle. apply lookup_app_Some in Hj as [Hj|[Hge Hj]].
    + pose proof (lookup_lt_Some _ _ _ Hj). rewrite list_lookup_insert_ne by (apply not_eq_sym, mod_neq; lia).
      apply Hd; [done|lia].
    + destruct (j - length l)%nat eqn:E; [|done]. injection Hj as <-. replace j with (length l) by lia.
      apply list_lookup_insert_eq. by apply Nat.mod_upper_bound; lia.
Qed.

(** Once full, the next position holds the oldest element kept. *)
Lemma ring_oldest buf head l x rest :
  ring buf head l → (length buf <= length l)%nat → lastn (length buf) l = x :: rest →
  buf !! head = Some x.
Proof.
  intros [-> Hn Hd] Hle Hl. assert (l !! (length l - length buf)%nat = Some x) as Hx.
  { unfold lastn in Hl. assert (drop (length l - length buf) l !! 0%nat = Some x) as H0 by by rewrite Hl.
    by rewrite lookup_drop, Nat.add_0_r in H0. }
  pose proof (Hd _ _ Hx ltac:(lia)) as Hb. rewrite <- Hb. f_equal.
  replace (length l) with (length l - length buf + 1 * length buf)%nat at 1 by lia.
  by rewrite Nat.Div0.mod_add.
Qed.

Lemma lastn_snoc n l x :
  (0 < n)%nat → lastn n (l ++ [x]) = (if decide (length l < n)%nat then l else drop 1 (lastn n l)) ++ [x].
Proof.
  intros Hn. unfold lastn. rewrite length_app. cbn [length]. case_decide as Hd.
  - by replace (length l + 1 - n)%nat with 0%nat by lia.
  - rewrite drop_drop. replace (length l + 1 - n)%nat with (length l - n + 1)%nat by lia.
    by rewrite drop_app_le by lia.
Qed.

Lemma length_lastn n l : length (lastn n l) = Nat.min n (length l).
Proof. unfold lastn. rewrite length_drop. lia. Qed.
End Ring.

(** A policy with an on/off output that reports exactly the rising edges. *)
Definition reports_edges {P} `{!MonitorPolicy P} (p : P) : Prop :=
  ∀ v t r p', feed p v t = Some (r, p') →
    _value r = value p' ∧ (_noteworthy r = true ↔ value p = 0 ∧ value p' = 1).

(** The reports of a sequence of samples, given the output before the first: each
    carries the output after its sample, and is noteworthy exactly when the output
    went from 0 to 1. *)
Fixpoint rising_edges (before : Z) (rs : list PolicyFeedResult) (after : Z) : Prop :=
  match rs with
  | [] => before = after
  | r :: rs => (_noteworthy r = true ↔ before = 0 ∧ _value r = 1) ∧ rising_edges (_value r) rs after
  end.

Lemma feed_all_edges {P} `{!MonitorPolicy P} (p : P) samples rs p' :
  (∀ p : P, reports_edges p) → feed_all p samples = Some (rs, p') → rising_edges (value p) rs (value p').
Proof.
  intros He. revert p rs. induction samples as [|[v t] samples IH]; intros p rs; cbn.
  - by intros [= <- <-].
  - destruct (feed p v t) as [[r p1]|] eqn:Hf; [|done]. cbn.
    destruct (feed_all p1 samples) as [[rs1 p2]|] eqn:Hr; [|done]. cbn. intros [= <- <-]. cbn.
    destruct (He p v t r p1 Hf) as [Hv Hn]. rewrite Hv. split; [by rewrite Hn|]. by apply IH.
Qed.

(** Times the code may subtract: non-negative 64-bit milliseconds. *)
Definition sample_ok (s : Z * Z) : Prop := 0 <= s.2 < 2 ^ 63.

Lemma i64_sub_ok a b : 0 <= a < 2 ^ 63 → 0 <= b < 2 ^ 63 → i64_sub a b = Some (a - b).
Proof. intros Ha Hb. apply i64_check_ok. unfold is_i64, INT64_MIN, INT64_MAX. lia. Qed.

(** ** CONT_FOR *)

Inductive ContForState := IDLE | PENDING | ACTIVE.

Record ContForPolicy := mkContFor {
  _cf_threshold : Z;
  _duration : Z;
  _state : ContForState;
  _crossed_at : Z
}.

Definition cf_set (p : ContForPolicy) (s : ContForState) (at_ : Z) : ContForPolicy :=
  mkContFor (_cf_threshold p) (_duration p) s at_.

Definition cont_for_feed (p : ContForPolicy) (value now : Z) : option (PolicyFeedResult * ContForPolicy) :=
  if value <=? _cf_threshold p then Some (mkFeed false 0, cf_set p IDLE 0) else
  match _state p with
  | IDLE => Some (mkFeed false 0, cf_set p PENDING now)
  | PENDING =>
      if now <? _crossed_at p then Some (mkFeed false 0, p) else
      elapsed ← i64_sub now (_crossed_at p);
      if _duration p <=? elapsed then Some (mkFeed true 1, cf_set p ACTIVE (_crossed_at p))
      else Some (mkFeed false 0, p)
  | ACTIVE => Some (mkFeed false 1, p)
  end.

Definition cont_for_value (p : ContForPolicy) : Z :=
  match _state p with ACTIVE => 1 | _ => 0 end.

#[export] Instance ContForPolicy_policy : MonitorPolicy ContForPolicy :=
  {| feed := cont_for_feed; value := cont_for_value |}.

Definition make_cont_for_policy (threshold duration : Z) : option ContForPolicy :=
  if duration <? 0 then None else Some (mkContFor threshold duration IDLE 0).

Lemma cont_for_edges p : reports_edges p.
Proof.
  intros v t r p'. cbn. unfold cont_for_feed, cont_for_value.
  destruct (v <=? _cf_threshold p); [intros [= <- <-]; cbn; destruct (_state p); naive_solver lia|].
  destruct (_state p) eqn:E.
  - intros [= <- <-]. cbn. naive_solver lia.
  - destruct (t <? _crossed_at p); [intros [= <- <-]; rewrite E; cbn; naive_solver lia|].
    destruct (i64_sub t (_crossed_at p)); [|done]. cbn.
    destruct (_duration p <=? z); intros [= <- <-]; cbn; rewrite ?E; naive_solver lia.
  - intros [= <- <-]. rewrite E. cbn. naive_solver lia.
Qed.

(** The samples since the last one at or below the threshold, [run], and whether
    one of them came long enough after the first. *)
Definition held_for (duration : Z) (run : list (Z * Z)) : Prop :=
  match run with
  | [] => False
  | first :: rest => Exists (λ s, duration <= s.2 - first.2) rest
  end.

Definition run_of (th : Z) (hist run : list (Z * Z)) : Prop :=
  ∃ pre, hist = pre ++ run ∧ Forall (λ s, th < s.1) run
    ∧ ∀ s, last pre = Some s → s.1 <= th.

(** The automaton in terms of the current run. *)
Definition cf_tracks (p : ContForPolicy) (run : list (Z * Z)) : Prop :=
  match _state p with
  | IDLE => run = []
  | PENDING => ∃ first rest, run = first :: rest ∧ _crossed_at p = first.2 ∧ ¬ held_for (_duration p) run
  | ACTIVE => held_for (_duration p) run
  end.

Lemma held_snoc d first rest s :
  held_for d (first :: rest ++ [s]) ↔ held_for d (first :: rest) ∨ d <= s.2 - first.2.
Proof. cbn. rewrite Exists_app, Exists_cons, Exists_nil. tauto. Qed.

Lemma held_mono d run s : held_for d run → held_for d (run ++ [s]).
Proof. destruct run; [done|]. cbn [app]. rewrite held_snoc. by left. Qed.

Lemma cf_step p run v t :
  0 <= _duration p → Forall sample_ok run → sample_ok (v, t) → cf_tracks p run →
  ∃ r p', cont_for_feed p v t = Some (r, p') ∧ _cf_threshold p' = _cf_threshold p
    ∧ _duration p' = _duration p
    ∧ cf_tracks p' (if v <=? _cf_threshold p then [] else run ++ [(v, t)]).
Proof.
  intros Hd Hok Ht Htr. unfold cont_for_feed, cf_tracks in *.
  destruct (v <=? _cf_threshold p); [by eexists _, _|].
  destruct (_state p) eqn:E.
  - subst run. eexists _, _. do 3 (split; [done|]). cbn. exists (v, t), []. split; [done|]. split; [done|].
    by intros ?%Exists_nil.
  - destruct Htr as (first & rest & -> & Hc & Hn). apply Forall_cons in Hok as [Hf _].
    destruct (Z.ltb_spec t (_crossed_at p)) as [Hlt|Hge].
    { eexists _, _. do 3 (split; [done|]). rewrite E. exists first, (rest ++ [(v, t)]). split; [done|].
      split; [done|]. cbn [app]. rewrite held_snoc. cbn. intros [?|?]; [done|lia]. }
    rewrite i64_sub_ok by (done || rewrite Hc; done). cbn [mbind option_bind].
    destruct (Z.leb_spec (_duration p) (t - _crossed_at p)); eexists _, _; do 3 (split; [done|]);
      cbn [cf_set _state _duration _crossed_at app]; rewrite ?E.
    + rewrite held_snoc. right. cbn. lia.
    + exists first, (rest ++ [(v, t)]). split; [done|]. split; [done|]. rewrite held_snoc. cbn.
      intros [?|?]; [done|lia].
  - eexists _, _. do 3 (split; [done|]). rewrite E. by apply held_mono.
Qed.

Lemma run_of_snoc th hist run v t :
  run_of th (hist ++ [(v, t)]) run →
  if v <=? th then run = [] else ∃ run', run = run' ++ [(v, t)] ∧ run_of th hist run'.
Proof.
  intros (pre & He & Hall & Hl). destruct run as [|s run _] using rev_ind.
  - rewrite app_nil_r in He. subst pre. rewrite last_snoc in Hl. specialize (Hl _ eq_refl). cbn in Hl.
    by rewrite (proj2 (Z.leb_le v th)).
  - rewrite app_assoc in He. apply app_inj_tail in He as [-> <-].
    apply Forall_app in Hall as [Hr [Hv _]%Forall_cons]. cbn in Hv.
    rewrite (proj2 (Z.leb_gt v th)) by lia. exists run. split; [done|]. by exists pre.
Qed.

Lemma run_of_unique th hist run1 run2 : run_of th hist run1 → run_of th hist run2 → run1 = run2.
Proof.
  revert run1 run2. induction hist as [|[v t] hist IH] using rev_ind; intros run1 run2 H1 H2.
  - destruct H1 as (p1 & E1 & _), H2 as (p2 & E2 & _). symmetry in E1, E2.
    apply app_eq_nil in E1 as [_ ->], E2 as [_ ->]. done.
  - apply run_of_snoc in H1, H2. destruct (v <=? th); [congruence|].
    destruct H1 as (r1 & -> & H1), H2 as (r2 & -> & H2). by rewrite (IH _ _ H1 H2).
Qed.

Lemma run_of_exists th hist :
  Forall sample_ok hist → ∃ run, run_of th hist run ∧ Forall sample_ok run.
Proof.
  induction hist as [|s hist IH] using rev_ind; intros Hok.
  - exists []. split; [|done]. exists []. by split.
  - apply Forall_app in Hok as [Hok [Hs _]%Forall_cons].
    destruct (IH Hok) as (run & (pre & -> & Hr & Hp) & Hrok).
    destruct (decide (s.1 <= th)) as [Hle|Hgt].
    + exists []. split; [|done]. exists ((pre ++ run) ++ [s]). rewrite app_nil_r. split; [done|].
      split; [done|]. intros s'. rewrite last_snoc. by intros [= <-].
    + exists (run ++ [s]). split; [|apply Forall_app; by rewrite Forall_singleton]. exists pre. rewrite app_assoc. split; [done|].
      split; [|done]. apply Forall_app. split; [done|]. apply Forall_singleton. lia.
Qed.

Lemma cf_run th d hist :
  0 <= d → Forall sample_ok hist →
  ∃ rs p, feed_all (mkContFor th d IDLE 0) hist = Some (rs, p)
    ∧ _cf_threshold p = th ∧ _duration p = d ∧ ∀ run, run_of th hist run → cf_tracks p run.
Proof.
  intros Hd. induction hist as [|[v t] hist IH] using rev_ind; intros Hok.
  - eexists _, _. do 3 (split; [done|]). intros run (pre & He & _ & _).
    symmetry in He. apply app_eq_nil in He as [_ ->]. done.
  - apply Forall_app in Hok as [Hok [Ht _]%Forall_cons].
    destruct (IH Hok) as (rs & p & Hf & Hth & Hdu & Htr). rewrite feed_all_app, Hf. cbn [mbind option_bind].
    destruct (run_of_exists th hist Hok) as (run0 & Hr0 & Hok0).
    destruct (cf_step p run0 v t) as (r & p' & Hs & Hth' & Hd' & Htr'); [by rewrite Hdu|done|done|by apply Htr|].
    cbn [feed_all feed ContForPolicy_policy]. rewrite Hs. cbn. eexists _, p'. split; [done|].
    split; [congruence|]. split; [congruence|]. intros run Hrun.
    pose proof (run_of_snoc _ _ _ _ _ Hrun) as Hsn. rewrite Hth in Htr'.
    destruct (v <=? th) eqn:E; [by subst|]. destruct Hsn as (run' & -> & Hrun').
    assert (run' = run0) as ->; [|done]. exact (run_of_unique _ _ _ _ Hrun' Hr0).
Qed.

(** CONT_FOR is exact: for any samples, the policy is active precisely when some
    sample of the current run (the samples since the last one at or below the
    threshold) came at least the required duration after the first sample of the
    run; a run of one sample never activates it, even for a zero duration. Reports
    are noteworthy exactly at the rising edges. A negative duration is refused. *)
Theorem cont_for_exact th d hist :
  Forall sample_ok hist →
  match make_cont_for_policy th d with
  | None => d < 0
  | Some p0 =>
      ∃ rs p, feed_all p0 hist = Some (rs, p) ∧ rising_edges 0 rs (value p)
        ∧ ∃ run, run_of th hist run ∧ (value p = 1 ↔ held_for d run) ∧ (value p = 0 ↔ ¬ held_for d run)
  end.
Proof.
  intros Hok. unfold make_cont_for_policy. destruct (Z.ltb_spec d 0) as [|Hd]; [done|].
  destruct (cf_run th d hist Hd Hok) as (rs & p & Hf & Hth & Hdu & Htr).
  exists rs, p. split; [done|]. split; [by apply (feed_all_edges _ _ _ _ cont_for_edges Hf)|].
  destruct (run_of_exists th hist Hok) as (run & Hrun & _). exists run. split; [done|].
  specialize (Htr run Hrun). unfold cf_tracks in Htr. cbn. unfold cont_for_value. rewrite Hdu in Htr.
  destruct (_state p).
  - subst run. cbn. split; split; (done || tauto).
  - destruct Htr as (? & ? & _ & _ & Hn). split; split; (done || tauto).
  - split; split; (done || tauto).
Qed.

Lemma cont_for_exact_witness :
  let hist := [(9, 0); (9, 5); (3, 6); (9, 7); (9, 11); (9, 12)] in
  Forall sample_ok hist ∧
  match make_cont_for_policy 5 5 with
  | None => 5 < 0
  | Some p0 =>
      ∃ rs p, feed_all p0 hist = Some (rs, p) ∧ rising_edges 0 rs (value p)
        ∧ ∃ run, run_of 5 hist run ∧ (value p = 1 ↔ held_for 5 run) ∧ (value p = 0 ↔ ¬ held_for 5 run)
  end.
Proof.
  assert (Forall sample_ok [(9, 0); (9, 5); (3, 6); (9, 7); (9, 11); (9, 12)]) as Hok
    by (repeat constructor; cbn; lia).
  split; [exact Hok|]. exact (cont_for_exact 5 5 _ Hok).
Defined.

(** ** TIMES_PER_PERIOD *)

Record TimesPerPeriodPolicy := mkTimes {
  _tp_threshold : Z;
  _period : Z;
  _events : list Z;
  _event_count : nat;
  _tp_head : nat;
  _alerting : bool
}.

Definition tp_value (p : TimesPerPeriodPolicy) : Z := if _alerting p then 1 else 0.

Definition times_feed (p : TimesPerPeriodPolicy) (value now : Z)
    : option (PolicyFeedResult * TimesPerPeriodPolicy) :=
  if value <=? _tp_threshold p then Some (mkFeed false (tp_value p), p) else
  let n := length (_events p) in
  if (n =? 0)%nat then None else
  _ ← _events p !! _tp_head p;
  let events := <[_tp_head p := now]> (_events p) in
  let head := ((_tp_head p + 1) mod n)%nat in
  let count := if (_event_count p <? n)%nat then S (_event_count p) else _event_count p in
  condition_met ← (if (count =? n)%nat then
                     oldest ← events !! head;
                     if oldest <=? now
                     then elapsed ← i64_sub now oldest; Some (elapsed <=? _period p)
                     else Some false
                   else Some false);
  let fired := condition_met && negb (_alerting p) in
  let p := mkTimes (_tp_threshold p) (_period p) events count head condition_met in
  Some (mkFeed fired (tp_value p), p).

#[export] Instance TimesPerPeriodPolicy_policy : MonitorPolicy TimesPerPeriodPolicy :=
  {| feed := times_feed; value := tp_value |}.

Definition make_times_per_period_policy (threshold count period : Z) : option TimesPerPeriodPolicy :=
  if (count =? 0) || (period <? 0) then None
  else Some (mkTimes threshold period (replicate (Z.to_nat count) 0) 0 0 false).

Lemma times_edges p : reports_edges p.
Proof.
  intros v t r p'. cbn. unfold times_feed.
  destruct (v <=? _tp_threshold p).
  { intros [= <- <-]. cbn. unfold tp_value. destruct (_alerting p); split; naive_solver lia. }
  destruct (length (_events p) =? 0)%nat; [done|].
  destruct (_events p !! _tp_head p); [|done]. cbn [mbind option_bind].
  destruct (if (_ =? _)%nat then _ else _) as [met|]; [|done]. cbn. intros [= <- <-]. cbn.
  unfold tp_value. cbn. destruct met, (_alerting p); cbn; split; naive_solver lia.
Qed.

(** Times of the samples above the threshold. *)
Definition event_times (th : Z) (hist : list (Z * Z)) : list Z :=
  (filter (λ s, th < s.1) hist).*2.

(** The last [n] events lie within [period]. *)
Definition within_period (n : nat) (period : Z) (events : list Z) : Prop :=
  match lastn n events, last events with
  | oldest :: _, Some newest => (n <= length events)%nat ∧ oldest <= newest <= oldest + period
  | _, _ => False
  end.

Record tp_tracks (p : TimesPerPeriodPolicy) (n : nat) (events : list Z) : Prop := {
  tt_size : length (_events p) = n;
  tt_ring : ring (_events p) (_tp_head p) events;
  tt_count : _event_count p = Nat.min n (length events);
  tt_alert : _alerting p = true ↔ within_period n (_period p) events
}.

Lemma within_snoc n period events now :
  (0 < n)%nat →
  within_period n period (events ++ [now]) ↔
  ∃ oldest rest, lastn n (events ++ [now]) = oldest :: rest
    ∧ (n <= S (length events))%nat ∧ oldest <= now <= oldest + period.
Proof.
  intros Hn. unfold within_period. rewrite last_snoc, length_app. cbn [length]. rewrite Nat.add_1_r.
  destruct (lastn n (events ++ [now])) as [|o rest] eqn:E.
  - split; [done|]. by intros (? & ? & ? & _).
  - split; [intros [? ?]; by exists o, rest|]. by intros (? & ? & [= -> ->] & ? & ?).
Qed.

Lemma times_step p n events v t :
  (0 < n)%nat → Forall (λ t, 0 <= t < 2 ^ 63) events → 0 <= t < 2 ^ 63 → tp_tracks p n events →
  _tp_threshold p < v →
  ∃ r p', times_feed p v t = Some (r, p') ∧ _tp_threshold p' = _tp_threshold p
    ∧ _period p' = _period p ∧ tp_tracks p' n (events ++ [t]).
Proof.
  intros Hn Hev Ht [Hsz Hring Hcnt Hal] Hv. unfold times_feed.
  rewrite (proj2 (Z.leb_gt _ _)), Hsz, (proj2 (Nat.eqb_neq n 0)) by lia.
  assert (_tp_head p < n)%nat as Hlt
    by (rewrite (ring_head _ _ _ Hring), Hsz; apply Nat.mod_upper_bound; lia).
  destruct (lookup_lt_is_Some_2 (_events p) (_tp_head p)) as [x0 ->]; [by rewrite Hsz|]. cbn [mbind option_bind].
  pose proof (ring_push _ _ _ t Hring) as Hring'. rewrite Hsz in Hring'.
  set (count := if (_event_count p <? n)%nat then _ else _).
  assert (count = Nat.min n (length (events ++ [t]))) as Hcnt'.
  { rewrite length_app. cbn [length]. unfold count. destruct (Nat.ltb_spec (_event_count p) n); lia. }
  set (met := within_period n (_period p) (events ++ [t])).
  assert (∃ b, (if (count =? n)%nat then
      oldest ← <[_tp_head p := t]> (_events p) !! ((_tp_head p + 1) mod n)%nat;
      if oldest <=? t then elapsed ← i64_sub t oldest; Some (elapsed <=? _period p) else Some false
    else Some false) = Some b ∧ (b = true ↔ met)) as (b & -> & Hb).
  { pose proof (within_snoc n (_period p) events t Hn) as Hw. fold met in Hw. destruct (Nat.eqb_spec count n) as [Ec|Ec].
    - rewrite length_app in Hcnt'. cbn [length] in Hcnt'.
      destruct (lastn n (events ++ [t])) as [|o rest] eqn:El.
      { pose proof (length_lastn n (events ++ [t])) as Hl. rewrite El, length_app in Hl. cbn in Hl. lia. }
      rewrite (ring_oldest _ _ _ o rest Hring') by (rewrite length_insert, Hsz, ?length_app; cbn; lia || done).
      cbn [mbind option_bind].
      assert (0 <= o < 2 ^ 63) as Ho.
      { assert (o ∈ events ++ [t]) as Hin.
        { rewrite <- (take_drop (length (events ++ [t]) - n) (events ++ [t])). apply elem_of_app. right.
          unfold lastn in El. rewrite El. set_solver. }
        apply elem_of_app in Hin as [Hin| ->%list_elem_of_singleton]; [|done].
        rewrite Forall_forall in Hev. by apply Hev. }
      destruct (Z.leb_spec o t) as [Hle|Hgt].
      + rewrite i64_sub_ok by done. cbn. eexists. split; [done|]. rewrite Hw, Z.leb_le. split.
        * intros Hp. exists o, rest. split; [done|]. split; [lia|lia].
        * intros (? & ? & [= <- <-] & _ & ?). lia.
      + exists false. split; [done|]. rewrite Hw. split; [done|]. intros (? & ? & [= <- <-] & _ & ?). lia.
    - exists false. split; [done|]. rewrite Hw. split; [done|]. intros (o & rest & _ & Hle & _).
      rewrite length_app in Hcnt'. cbn in Hcnt'. lia. }
  cbn [mbind option_bind]. eexists _, _. do 3 (split; [done|]).
  split; cbn [_events _tp_head _event_count _alerting _period]; [by rewrite length_insert|done|done|done].
Qed.

Lemma event_times_snoc th hist v t :
  event_times th (hist ++ [(v, t)]) = if v <=? th then event_times th hist else event_times th hist ++ [t].
Proof.
  unfold event_times. rewrite filter_app, fmap_app. destruct (Z.leb_spec v th).
  - rewrite filter_cons_False by (cbn; lia). cbn. apply app_nil_r.
  - rewrite filter_cons_True by (cbn; lia). done.
Qed.

Lemma event_times_ok th hist : Forall sample_ok hist → Forall (λ t, 0 <= t < 2 ^ 63) (event_times th hist).
Proof.
  intros Hok. apply Forall_forall. intros t ([v t'] & -> & [_ Hin]%list_elem_of_filter)%list_elem_of_fmap.
  rewrite Forall_forall in Hok. by apply Hok in Hin.
Qed.

Lemma times_run th n period hist :
  (0 < n)%nat → Forall sample_ok hist →
  ∃ rs p, feed_all (mkTimes th period (replicate n 0) 0 0 false) hist = Some (rs, p)
    ∧ _tp_threshold p = th ∧ _period p = period ∧ tp_tracks p n (event_times th hist).
Proof.
  intros Hn. induction hist as [|[v t] hist IH] using rev_ind; intros Hok.
  - eexists _, _. do 3 (split; [done|]). split; cbn; [apply length_replicate| |by rewrite Nat.min_0_r|].
    + apply ring_empty. by rewrite length_replicate.
    + split; [done|]. unfold within_period, lastn. cbn. by destruct (0 - n)%nat.
  - apply Forall_app in Hok as [Hok [Ht _]%Forall_cons].
    destruct (IH Hok) as (rs & p & Hf & Hth & Hp & Htr). rewrite feed_all_app, Hf. cbn [mbind option_bind].
    rewrite event_times_snoc. cbn [feed_all feed TimesPerPeriodPolicy_policy].
    destruct (Z.leb_spec v th) as [Hle|Hgt].
    + unfold times_feed. rewrite (proj2 (Z.leb_le v _)) by lia. cbn. by eexists _, p.
    + destruct (times_step p n _ v t Hn (event_times_ok th hist Hok) Ht Htr) as (r & p' & -> & ? & ? & ?);
        [lia|]. cbn. eexists _, p'. split; [done|]. split; [congruence|]. split; [congruence|done].
Qed.

(** TIMES_PER_PERIOD is exact: the policy is alerting precisely when at least
    [count] samples exceeded the threshold and the last [count] of them lie within
    the period; the ring buffer of [count] times suffices for that. Reports are
    noteworthy exactly at the rising edges. A zero count or a negative period is
    refused, so that the ring is never empty. *)
Theorem times_per_period_exact th count period hist :
  0 <= count → Forall sample_ok hist →
  match make_times_per_period_policy th count period with
  | None => count = 0 ∨ period < 0
  | Some p0 =>
      ∃ rs p, feed_all p0 hist = Some (rs, p) ∧ rising_edges 0 rs (value p)
        ∧ (value p = 1 ↔ within_period (Z.to_nat count) period (event_times th hist))
        ∧ (value p = 0 ↔ ¬ within_period (Z.to_nat count) period (event_times th hist))
  end.
Proof.
  intros Hc Hok. unfold make_times_per_period_policy.
  destruct (Z.eqb_spec count 0) as [|H0]; [by left|]. destruct (Z.ltb_spec period 0) as [|Hp]; [by right|]. cbn [orb].
  destruct (times_run th (Z.to_nat count) period hist ltac:(lia) Hok) as (rs & p & Hf & Hth & Hpe & [_ _ _ Hal]).
  exists rs, p. split; [done|]. split; [by apply (feed_all_edges _ _ _ _ times_edges Hf)|].
  rewrite Hpe in Hal. cbn. unfold tp_value. rewrite <- Hal. destruct (_alerting p); naive_solver lia.
Qed.

Lemma times_per_period_exact_witness :
  let hist := [(9, 0); (9, 7); (3, 8); (9, 9); (9, 10)] in
  Forall sample_ok hist ∧
  match make_times_per_period_policy 5 3 4 with
  | None => 3 = 0 ∨ 4 < 0
  | Some p0 =>
      ∃ rs p, feed_all p0 hist = Some (rs, p) ∧ rising_edges 0 rs (value p)
        ∧ (value p = 1 ↔ within_period (Z.to_nat 3) 4 (event_times 5 hist))
        ∧ (value p = 0 ↔ ¬ within_period (Z.to_nat 3) 4 (event_times 5 hist))
  end.
Proof.
  assert (Forall sample_ok [(9, 0); (9, 7); (3, 8); (9, 9); (9, 10)]) as Hok
    by (repeat constructor; cbn; lia).
  split; [exact Hok|]. exact (times_per_period_exact 5 3 4 _ ltac:(lia) Hok).
Defined.

(** ** SMOOTH_TRIM *)

Record SmoothTrimPolicy := mkSmooth {
  _trim_threshold : Z;
  _samples : list Z;
  _sample_count : nat;
  _st_head : nat;
  _sum : Z;
  _average : Z
}.

Definition smooth_feed (p : SmoothTrimPolicy) (value _now : Z)
    : option (PolicyFeedResult * SmoothTrimPolicy) :=
  let difference := if _average p <=? value then value - _average p else _average p - value in
  if (0 <? _sample_count p)%nat && (_trim_threshold p <? difference)
  then Some (mkFeed false (_average p), p) else
  let n := length (_samples p) in
  old ← _samples p !! _st_head p;
  let samples := <[_st_head p := value]> (_samples p) in
  let '(sum, count) :=
    if (_sample_count p <? n)%nat then (u64 (_sum p + value), S (_sample_count p))
    else (u64 (u64 (_sum p - old) + value), _sample_count p) in
  if (n =? 0)%nat || (count =? 0)%nat then None else
  let head := ((_st_head p + 1) mod n)%nat in
  let new_average := u32 (sum / Z.of_nat count) in
  let changed := negb (new_average =? _average p) in
  Some (mkFeed changed new_average,
        mkSmooth (_trim_threshold p) samples count head sum new_average).

#[export] Instance SmoothTrimPolicy_policy : MonitorPolicy SmoothTrimPolicy :=
  {| feed := smooth_feed; value := _average |}.

Definition make_smooth_trim_policy (window trim_threshold : Z) : option SmoothTrimPolicy :=
  if window =? 0 then None
  else Some (mkSmooth trim_threshold (replicate (Z.to_nat window) 0) 0 0 0 0).

(** The reference: the accepted samples, oldest first. *)
Definition total (l : list Z) : Z := foldr Z.add 0 l.
Definition mean (l : list Z) : Z := total l / Zlen l.

Definition accept (n : nat) (trim : Z) (accepted : list Z) (v : Z) : list Z :=
  if decide (accepted ≠ [] ∧ trim < Z.abs (v - mean (lastn n accepted)))
  then accepted else accepted ++ [v].

Definition accepted (n : nat) (trim : Z) (values : list Z) : list Z :=
  foldl (accept n trim) [] values.

Record st_tracks (p : SmoothTrimPolicy) (n : nat) (acc : list Z) : Prop := {
  ts_size : length (_samples p) = n;
  ts_ring : ring (_samples p) (_st_head p) acc;
  ts_count : _sample_count p = Nat.min n (length acc);
  ts_sum : _sum p = total (lastn n acc);
  ts_average : _average p = mean (lastn n acc);
  ts_range : Forall (λ v, 0 <= v < 2 ^ 32) acc
}.

Lemma total_app a b : total (a ++ b) = total a + total b.
Proof. unfold total. induction a as [|x a IH]; cbn; [done|]. rewrite IH. lia. Qed.

Lemma total_bound l : Forall (λ v, 0 <= v < 2 ^ 32) l → 0 <= total l <= Zlen l * (2 ^ 32 - 1).
Proof.
  unfold total. induction 1 as [|x l Hx Hl IH]; [done|]. cbn [foldr]. rewrite Zlen_cons.
  change (2 ^ 32) with 4294967296 in *. lia.
Qed.

Lemma mean_bound l : Forall (λ v, 0 <= v < 2 ^ 32) l → 0 <= mean l < 2 ^ 32.
Proof.
  intros Hl. pose proof (total_bound l Hl) as Hb. unfold mean. destruct l as [|x l]; [done|].
  pose proof (Zlen_nonneg l). rewrite Zlen_cons in *. change (2 ^ 32) with 4294967296 in *.
  split; [apply Z.div_pos; lia|]. apply Z.div_lt_upper_bound; lia.
Qed.

Lemma lastn_forall {A} (P : A → Prop) n l : Forall P l → Forall P (lastn n l).
Proof. intros Hl. unfold lastn. rewrite <- (take_drop (length l - n) l) in Hl. by apply Forall_app in Hl as [_ ?]. Qed.

Lemma total_lastn_snoc n acc v :
  (0 < n)%nat →
  total (lastn n (acc ++ [v])) =
    if decide (length acc < n)%nat then total (lastn n acc) + v
    else total (lastn n acc) - (match lastn n acc with o :: _ => o | [] => 0 end) + v.
Proof.
  intros Hn. rewrite lastn_snoc, total_app by done. cbn [total foldr]. case_decide as Hd.
  - unfold lastn. replace (length acc - n)%nat with 0%nat by lia. rewrite drop_0. lia.
  - destruct (lastn n acc) as [|o r] eqn:E; [|unfold total; cbn; rewrite drop_0; lia].
    pose proof (length_lastn n acc) as Hl. rewrite E in Hl. cbn in Hl. lia.
Qed.

Lemma smooth_step p n acc v t :
  (0 < n)%nat → Z.of_nat n <= 2 ^ 32 → 0 <= v < 2 ^ 32 → st_tracks p n acc →
  ∃ r p', smooth_feed p v t = Some (r, p') ∧ _trim_threshold p' = _trim_threshold p
    ∧ _value r = _average p' ∧ (_noteworthy r = true ↔ _average p' ≠ _average p)
    ∧ st_tracks p' n (accept n (_trim_threshold p) acc v).
Proof.
  intros Hn Hn32 Hv [Hsz Hring Hcnt Hsum Hav Hrg]. unfold smooth_feed, accept.
  assert (acc ≠ [] ↔ (0 <? _sample_count p)%nat = true) as Hne.
  { rewrite Nat.ltb_lt, Hcnt. destruct acc; cbn [length]; naive_solver lia. }
  assert ((if _average p <=? v then v - _average p else _average p - v) = Z.abs (v - mean (lastn n acc))) as ->.
  { rewrite Hav. destruct (Z.leb_spec (mean (lastn n acc)) v); lia. }
  destruct (decide (acc ≠ [] ∧ _trim_threshold p < Z.abs (v - mean (lastn n acc)))) as [[H1 H2]|Hacc].
  { rewrite (proj1 Hne H1), (proj2 (Z.ltb_lt _ _) H2). cbn. eexists _, p. split; [done|]. split; [done|].
    split; [done|]. split; [cbn; naive_solver|by split]. }
  assert ((0 <? _sample_count p)%nat && (_trim_threshold p <? Z.abs (v - mean (lastn n acc))) = false) as ->.
  { apply not_true_is_false. rewrite andb_true_iff, <- Hne, Z.ltb_lt. done. }
  rewrite Hsz. assert (_st_head p < n)%nat as Hlt
    by (rewrite (ring_head _ _ _ Hring), Hsz; apply Nat.mod_upper_bound; lia).
  destruct (lookup_lt_is_Some_2 (_samples p) (_st_head p)) as [old Hold]; [by rewrite Hsz|].
  rewrite Hold. cbn [mbind option_bind].
  pose proof (ring_push _ _ _ v Hring) as Hring'. rewrite Hsz in Hring'.
  assert (Forall (λ v, 0 <= v < 2 ^ 32) (acc ++ [v])) as Hrg' by (apply Forall_app; by rewrite Forall_singleton).
  pose proof (total_bound _ (lastn_forall _ n _ Hrg')) as Hb'.
  pose proof (length_lastn n (acc ++ [v])) as Hlen'. rewrite length_app in Hlen'. cbn [length] in Hlen'.
  set (count := Nat.min n (length acc + 1)) in *.
  assert ((if (_sample_count p <? n)%nat then (u64 (_sum p + v), S (_sample_count p))
           else (u64 (u64 (_sum p - old) + v), _sample_count p))
          = (total (lastn n (acc ++ [v])), count)) as ->.
  { pose proof (total_lastn_snoc n acc v Hn) as Ht. rewrite <- Hsum in Ht.
    assert (total (lastn n (acc ++ [v])) < 2 ^ 64) as Hfit.
    { unfold Zlen in Hb'. rewrite Hlen' in Hb'. change (2 ^ 64) with 18446744073709551616.
      change (2 ^ 32) with 4294967296 in *. nia. }
    destruct (Nat.ltb_spec (_sample_count p) n) as [Hl|Hl].
    - rewrite decide_True in Ht by lia. f_equal; [|lia]. rewrite <- Ht. apply Z.mod_small. lia.
    - rewrite decide_False in Ht by lia. f_equal; [|lia].
      destruct (lastn n acc) as [|o r] eqn:El.
      { pose proof (length_lastn n acc) as Hle. rewrite El in Hle. cbn in Hle. lia. }
      rewrite <- Hsz in El. pose proof (ring_oldest _ _ _ o r Hring ltac:(lia) El) as Ho.
      rewrite Hold in Ho. injection Ho as ->. rewrite Ht. unfold u64 in *. rewrite Zplus_mod_idemp_l.
      apply Z.mod_small. lia. }
  rewrite (proj2 (Nat.eqb_neq n 0)), (proj2 (Nat.eqb_neq count 0)) by lia. cbn [orb].
  assert (u32 (total (lastn n (acc ++ [v])) / Z.of_nat count) = mean (lastn n (acc ++ [v]))) as ->.
  { unfold mean, Zlen. rewrite Hlen'. apply Z.mod_small.
    pose proof (mean_bound _ (lastn_forall _ n _ Hrg')) as Hm. unfold mean, Zlen in Hm. by rewrite Hlen' in Hm. }
  eexists _, _. do 3 (split; [done|]). split.
  - cbn. rewrite negb_true_iff, Z.eqb_neq. done.
  - split; cbn [_samples _st_head _sample_count _sum _average]; rewrite ?length_insert, ?length_app; done.
Qed.

(** Reports that are noteworthy exactly when the output changed. *)
Fixpoint changes_reported (before : Z) (rs : list PolicyFeedResult) : Prop :=
  match rs with
  | [] => True
  | r :: rs => (_noteworthy r = true ↔ _value r ≠ before) ∧ changes_reported (_value r) rs
  end.

Lemma smooth_run trim n samples p :
  (0 < n)%nat → Z.of_nat n <= 2 ^ 32 → Forall (λ s, 0 <= s.1 < 2 ^ 32) samples →
  ∀ acc, _trim_threshold p = trim → st_tracks p n acc →
  ∃ rs p', feed_all p samples = Some (rs, p') ∧ changes_reported (_average p) rs
    ∧ st_tracks p' n (foldl (accept n trim) acc samples.*1)
    ∧ map _value rs = map (λ k, mean (lastn n (foldl (accept n trim) acc (take (S k) samples.*1))))
                        (seq 0 (length samples)).
Proof.
  intros Hn Hn32 Hok. revert p. induction samples as [|[v t] samples IH]; intros p acc Htr Hp.
  - by eexists [], p.
  - apply Forall_cons in Hok as [Hv Hok]. cbn in Hv.
    destruct (smooth_step p n acc v t Hn Hn32 Hv Hp) as (r & p1 & Hf & Htr1 & Hr & Hnote & Hp1).
    rewrite Htr in *. destruct (IH Hok p1 _ Htr1 Hp1) as (rs & p2 & Hf2 & Hch & Hp2 & Hrs).
    cbn [feed_all feed SmoothTrimPolicy_policy]. rewrite Hf. cbn [mbind option_bind]. rewrite Hf2.
    cbn [mbind option_bind]. eexists _, p2. split; [done|].
    split; [cbn; rewrite Hr; split; [done|exact Hch]|]. split; [done|]. cbn [length seq map]. f_equal.
    + cbn. rewrite Hr, (ts_average _ _ _ Hp1), take_0. done.
    + rewrite Hrs, <- seq_shift, map_map. done.
Qed.

(** SMOOTH_TRIM is exact: after every sample the output is the integer mean of
    the last [window] accepted samples, where a sample is rejected precisely when
    something was accepted before and it deviates from the current mean by more
    than the trim threshold; rejected samples leave no trace. The running 64-bit sum
    neither overflows nor underflows and the narrowing to 32 bits is exact. Reports
    are noteworthy exactly when the mean changed. *)
Theorem smooth_trim_exact window trim samples :
  0 <= window <= 2 ^ 32 → Forall (λ s, 0 <= s.1 < 2 ^ 32) samples →
  match make_smooth_trim_policy window trim with
  | None => window = 0
  | Some p0 =>
      let n := Z.to_nat window in
      ∃ rs p, feed_all p0 samples = Some (rs, p) ∧ changes_reported 0 rs
        ∧ value p = mean (lastn n (accepted n trim samples.*1))
        ∧ map _value rs = map (λ k, mean (lastn n (accepted n trim (take (S k) samples.*1))))
                            (seq 0 (length samples))
  end.
Proof.
  intros Hw Hok. unfold make_smooth_trim_policy. destruct (Z.eqb_spec window 0) as [|H0]; [done|].
  cbv zeta. set (n := Z.to_nat window).
  destruct (smooth_run trim n samples (mkSmooth trim (replicate n 0) 0 0 0 0) ltac:(lia) ltac:(lia) Hok [])
    as (rs & p & Hf & Hch & Hp & Hrs); [done| |].
  { split; cbn; [apply length_replicate|apply ring_empty; rewrite length_replicate; lia|by rewrite Nat.min_0_r| | |done];
      unfold lastn; by rewrite drop_nil. }
  exists rs, p. split; [done|]. split; [done|]. split; [apply Hp|done].
Qed.

Lemma smooth_trim_exact_witness :
  let samples := [(10, 0); (20, 1); (90, 2); (30, 3)] in
  match make_smooth_trim_policy 2 15 with
  | None => 2 = 0
  | Some p0 =>
      let n := Z.to_nat 2 in
      ∃ rs p, feed_all p0 samples = Some (rs, p) ∧ changes_reported 0 rs
        ∧ value p = mean (lastn n (accepted n 15 samples.*1))
        ∧ map _value rs = map (λ k, mean (lastn n (accepted n 15 (take (S k) samples.*1))))
                            (seq 0 (length samples))
  end ∧ (let '(rs, _) := default ([], mkSmooth 0 [] 0 0 0 0)
           (feed_all (mkSmooth 15 [0; 0] 0 0 0 0) samples) in map _value rs) = [10; 15; 15; 25].
Proof.
  split; [|vm_compute; reflexivity].
  apply (smooth_trim_exact 2 15); [lia|]. repeat constructor; cbn; lia.
Defined.
