(* ===== verification/TimerManager.v ===== *)
(** The timer queue of the monitoring engine ([src/monitor/timer_manager.cpp],
    [inc/monitor/timer_manager.h], [inc/monitor/timer_types.h]) and the set of
    registered callbacks it maintains ([CallbackRegistry] in
    [src/monitor/callback_registry.cpp]).

    Time points are nanoseconds of the steady clock in signed 64 bits, intervals
    are milliseconds. A callback object is its address; the allocator, the clock and
    the wake-up pipe answer through [AddEnv]. [check] releases the lock while a
    callback runs, so its iterations are split in two: [check_begin] is the critical
    section that takes the earliest timer out of the queue or computes the time to
    wait, [check_finish] is what follows the callback. Other threads add timers in
    between; [timer_step] is the relation of all interleavings. [None] is undefined
    behaviour (signed overflow). *)

From S2P Require Import Prelude.
#[local] Open Scope tlss_scope.

(** ** Flags *)

Definition ONCE : Z := 0.
Definition RECURRING : Z := 1.
Definition WORKER : Z := 2.

Definition has_flag (value flag : Z) : bool := negb (flag =? 0) && (Z.land value flag =? flag).
Definition is_once (flags : Z) : bool := negb (has_flag flags RECURRING).
Definition is_valid_timer_flags (flags : Z) : bool :=
  Z.land flags (u8 (Z.lnot (Z.lor RECURRING WORKER))) =? 0.

(** ** Callback registry *)

Abbreviation addr := Z.

Definition registry_add (cbs : list addr) (cb : addr) : list addr :=
  if bool_decide (cb ∈ cbs) then cbs else cbs ++ [cb].
Definition registry_remove (cbs : list addr) (cb : addr) : list addr := filter (λ x, x ≠ cb) cbs.

(** ** Timers *)

Record TimerEntry := mkTimer {
  _tid : Z;
  _tflags : Z;
  _tnext : Z;       (* nanoseconds *)
  _tinterval : Z;   (* milliseconds *)
  _fire_count : Z;
  _tcb : addr
}.

Record TimerManager := mkManager {
  _timers : list TimerEntry;
  _cbs : list addr;
  _next_id : Z;
  _cleaned_up : bool
}.

Definition new_manager : TimerManager := mkManager [] [] 1 false.

Definition NS_PER_MS : Z := 1000000.

Record timeval := mkTimeval { tv_sec : Z; tv_usec : Z }.
Definition idle_timeout : timeval := mkTimeval 1 0.

Definition set_timeout_until (deadline now : Z) : option timeval :=
  if deadline <=? now then Some (mkTimeval 0 0) else
  remaining ← i64_sub deadline now;
  (* [std::chrono::ceil<microseconds>] *)
  let truncated := Z.quot remaining 1000 in
  let total_us := if truncated * 1000 <? remaining then truncated + 1 else truncated in
  Some (mkTimeval (Z.quot total_us 1000000) (Z.rem total_us 1000000)).

Fixpoint find_insert_position (deadline : Z) (timers : list TimerEntry) : nat :=
  match timers with
  | [] => 0
  | t :: rest => if deadline <? _tnext t then 0 else S (find_insert_position deadline rest)
  end.

Definition insert_sorted (t : TimerEntry) (timers : list TimerEntry) : list TimerEntry :=
  let pos := find_insert_position (_tnext t) timers in
  take pos timers ++ t :: drop pos timers.

Record AddEnv := mkAddEnv {
  pipe_ready : bool;      (* the wake-up pipe is READY *)
  entry_alloc : bool;     (* the entry and its callback can be allocated *)
  entry_addr : addr;
  clock_now : Z;
  node_alloc : bool;      (* the list node can be allocated *)
  registry_alloc : bool;  (* the registry's vector can grow *)
  wakeup_ok : bool
}.

Definition add (m : TimerManager) (has_cb : bool) (flags delay : Z) (env : AddEnv)
    : option (option Z * TimerManager) :=
  if delay <=? 0 then Some (None, m) else
  if negb has_cb then Some (None, m) else
  if negb (is_valid_timer_flags flags) then Some (None, m) else
  let recurring := has_flag flags RECURRING in
  let worker := has_flag flags WORKER in
  if negb recurring && worker then Some (None, m) else
  if negb (pipe_ready env) then Some (None, m) else
  if negb (entry_alloc env) then Some (None, m) else
  if _cleaned_up m then Some (None, m) else
  if _next_id m =? 0 then Some (None, m) else
  let now := clock_now env in
  left ← i64_sub INT64_MAX now;
  let maximum_delay := Z.quot left NS_PER_MS in
  if maximum_delay <? delay then Some (None, m) else
  delay_ns ← i64_mul delay NS_PER_MS;
  next ← i64_add now delay_ns;
  let entry := mkTimer (_next_id m) flags next (if recurring then delay else 0) 0 (entry_addr env) in
  if negb (node_alloc env) then Some (None, m) else
  let timers := insert_sorted entry (_timers m) in
  if negb (registry_alloc env) then Some (None, m) else
  let cbs := registry_add (_cbs m) (entry_addr env) in
  if negb (wakeup_ok env)
  then Some (None, mkManager (_timers m) (registry_remove cbs (entry_addr env)) (_next_id m) false)
  else Some (Some (_next_id m), mkManager timers cbs (u64 (_next_id m + 1)) false).

Inductive CheckOutcome :=
  | CheckReturn (timeout : timeval)
  | CheckFire (timer : TimerEntry).

Definition check_begin (m : TimerManager) (now : Z) : option (CheckOutcome * TimerManager) :=
  if _cleaned_up m then Some (CheckReturn idle_timeout, m) else
  match _timers m with
  | [] => Some (CheckReturn idle_timeout, m)
  | earliest :: rest =>
      if negb (_tnext earliest <? now)
      then tv ← set_timeout_until (_tnext earliest) now; Some (CheckReturn tv, m)
      else Some (CheckFire earliest, mkManager rest (_cbs m) (_next_id m) (_cleaned_up m))
  end.

(** The state when the callback has returned; the entry is destroyed or queued
    again. *)
Definition check_finish (m : TimerManager) (t : TimerEntry) : option TimerManager :=
  let t := mkTimer (_tid t) (_tflags t) (_tnext t) (_tinterval t) (u64 (_fire_count t + 1)) (_tcb t) in
  if 0 <? _tinterval t then
    interval_ns ← i64_mul (_tinterval t) NS_PER_MS;
    next ← i64_add (_tnext t) interval_ns;
    let t := mkTimer (_tid t) (_tflags t) next (_tinterval t) (_fire_count t) (_tcb t) in
    Some (mkManager (insert_sorted t (_timers m)) (_cbs m) (_next_id m) (_cleaned_up m))
  else Some (mkManager (_timers m) (registry_remove (_cbs m) (_tcb t)) (_next_id m) (_cleaned_up m)).

Definition cleanup (m : TimerManager) : TimerManager :=
  if _cleaned_up m then m else
  mkManager [] (foldl (λ cbs t, registry_remove cbs (_tcb t)) (_cbs m) (_timers m)) (_next_id m) true.

(** [check] with a clock that is read once per iteration and the effect that other
    threads and the callback have on the manager while the lock is released. The
    second component lists the timers that fired. *)
Fixpoint check (fuel : nat) (clock : nat → Z) (during : TimerEntry → TimerManager → TimerManager)
    (m : TimerManager) : option (timeval * list TimerEntry * TimerManager) :=
  match fuel with
  | O => None
  | S n =>
      '(o, m) ← check_begin m (clock 0%nat);
      match o with
      | CheckReturn tv => Some (tv, [], m)
      | CheckFire t =>
          m ← check_finish (during t m) t;
          '(tv, fired, m) ← check n (λ i, clock (S i)) during m;
          Some (tv, t :: fired, m)
      end
  end.

(** ** Interleavings

    [reactor] is the timer whose callback is running, [others] are the callbacks
    that the descriptors' manager keeps in the shared registry. Threads add timers at
    any time; the reactor thread alternates the two halves of [check] and cleans up
    when it has left its loop. The allocator returns addresses that are not in
    use. *)
Record System := mkSystem {
  manager : TimerManager;
  reactor : option TimerEntry;
  others : gset addr
}.

Definition live (s : System) : list TimerEntry := _timers (manager s) ++ option_list (reactor s).

Inductive timer_step : System → System → Prop :=
  | StepAdd m r o has_cb flags delay env handle m' :
      entry_addr env ∉ _tcb <$> live (mkSystem m r o) → entry_addr env ∉ o →
      0 <= clock_now env <= INT64_MAX →
      add m has_cb flags delay env = Some (handle, m') →
      timer_step (mkSystem m r o) (mkSystem m' r o)
  | StepBegin m o now outcome m' :
      check_begin m now = Some (outcome, m') →
      timer_step (mkSystem m None o)
        (mkSystem m' (match outcome with CheckFire t => Some t | CheckReturn _ => None end) o)
  | StepFinish m t o m' :
      check_finish m t = Some m' → timer_step (mkSystem m (Some t) o) (mkSystem m' None o)
  | StepCleanup m o : timer_step (mkSystem m None o) (mkSystem (cleanup m) None o)
  | StepOtherAdd m r o a :
      a ∉ _tcb <$> live (mkSystem m r o) →
      timer_step (mkSystem m r o)
        (mkSystem (mkManager (_timers m) (registry_add (_cbs m) a) (_next_id m) (_cleaned_up m)) r ({[a]} ∪ o))
  | StepOtherRemove m r o a :
      a ∈ o →
      timer_step (mkSystem m r o)
        (mkSystem (mkManager (_timers m) (registry_remove (_cbs m) a) (_next_id m) (_cleaned_up m)) r (o ∖ {[a]})).

Definition earlier (a b : TimerEntry) : Prop := _tnext a <= _tnext b.

Record timers_ok (s : System) : Prop := {
  tk_sorted : StronglySorted earlier (_timers (manager s));
  tk_cbs_nodup : NoDup (_tcb <$> live s);
  tk_ids_nodup : NoDup (_tid <$> live s);
  tk_ids : ∀ t, t ∈ live s → 1 <= _tid t ∧ (_next_id (manager s) ≠ 0 → _tid t < _next_id (manager s));
  tk_next_id : is_u64 (_next_id (manager s));
  tk_kind : ∀ t, t ∈ live s →
              0 <= _tinterval t ∧ has_flag (_tflags t) RECURRING = (0 <? _tinterval t)
              ∧ (_tinterval t = 0 → has_flag (_tflags t) WORKER = false);
  tk_registry : ∀ a, a ∈ _cbs (manager s) ↔ a ∈ _tcb <$> live s ∨ a ∈ others s;
  tk_registry_nodup : NoDup (_cbs (manager s));
  tk_others : ∀ a, a ∈ others s → a ∉ _tcb <$> live s;
  tk_cleaned : _cleaned_up (manager s) = true → live s = []
}.

(** *** The sorted queue *)

Lemma insert_perm t l : insert_sorted t l ≡ₚ t :: l.
Proof.
  unfold insert_sorted. rewrite <- Permutation_middle. by rewrite take_drop.
Qed.

Lemma position_split d l :
  (∀ t, t ∈ take (find_insert_position d l) l → _tnext t <= d)
  ∧ (∀ t, head (drop (find_insert_position d l) l) = Some t → d < _tnext t).
Proof.
  induction l as [|t l [IH1 IH2]]; cbn; [split; [set_solver|done]|].
  destruct (Z.ltb_spec d (_tnext t)); cbn.
  - split; [set_solver|]. by intros ? [= <-].
  - split; [|done]. intros t' [->|Ht']%elem_of_cons; [done|by apply IH1].
Qed.

Lemma insert_sorted_ok t l : StronglySorted earlier l → StronglySorted earlier (insert_sorted t l).
Proof.
  unfold insert_sorted. intros Hs. destruct (position_split (_tnext t) l) as [H1 H2].
  set (p := find_insert_position (_tnext t) l) in *.
  rewrite <- (take_drop p l) in Hs. apply StronglySorted_app in Hs as (H12 & Ha & Hb).
  assert (∀ y, y ∈ drop p l → earlier t y) as Hall.
  { intros y Hy. destruct (drop p l) as [|x r]; [set_solver|]. specialize (H2 x eq_refl).
    apply StronglySorted_inv in Hb as [_ Hb]. rewrite Forall_forall in Hb. unfold earlier in *.
    apply elem_of_cons in Hy as [->|Hy]; [lia|]. specialize (Hb y Hy). lia. }
  apply StronglySorted_app. split; [|split; [done|]].
  - intros x y Hx [->|Hy]%elem_of_cons; [by apply H1|by apply H12].
  - apply SSorted_cons; [done|]. by apply Forall_forall.
Qed.

(** *** The registry *)

Lemma elem_of_registry_add cbs a x : x ∈ registry_add cbs a ↔ x ∈ cbs ∨ x = a.
Proof. unfold registry_add. case_bool_decide; set_solver. Qed.
Lemma registry_add_nodup cbs a : NoDup cbs → NoDup (registry_add cbs a).
Proof.
  intros Hn. unfold registry_add. case_bool_decide; [done|]. apply NoDup_app. split; [done|].
  split; [|apply NoDup_singleton]. intros x Hx ->%list_elem_of_singleton. done.
Qed.
Lemma elem_of_registry_remove cbs a x : x ∈ registry_remove cbs a ↔ x ∈ cbs ∧ x ≠ a.
Proof. unfold registry_remove. rewrite list_elem_of_filter. tauto. Qed.
Lemma registry_remove_nodup cbs a : NoDup cbs → NoDup (registry_remove cbs a).
Proof. apply NoDup_filter. Qed.
Lemma registry_remove_all ts cbs :
  (∀ x, x ∈ foldl (λ cbs t, registry_remove cbs (_tcb t)) cbs ts ↔ x ∈ cbs ∧ x ∉ _tcb <$> ts)
  ∧ (NoDup cbs → NoDup (foldl (λ cbs t, registry_remove cbs (_tcb t)) cbs ts)).
Proof.
  revert cbs. induction ts as [|t ts IH]; intros cbs; cbn; [split; [set_solver|done]|].
  destruct (IH (registry_remove cbs (_tcb t))) as [IH1 IH2]. split.
  - intros x. rewrite IH1, elem_of_registry_remove, not_elem_of_cons. tauto.
  - intros Hn. by apply IH2, registry_remove_nodup.
Qed.
Lemma registry_add_fresh cbs a : a ∉ cbs → NoDup cbs → registry_remove (registry_add cbs a) a = cbs.
Proof.
  intros Ha _. unfold registry_add, registry_remove. rewrite bool_decide_false by done.
  rewrite filter_app, filter_cons_False by tauto. rewrite app_nil_r.
  induction cbs as [|x cbs IH]; [done|]. apply not_elem_of_cons in Ha as [Hx Hc].
  rewrite filter_cons_True by congruence. by rewrite IH.
Qed.

(** *** Adding *)

(** Every outcome of [add]: it never overflows, a refusal leaves the manager as it
    was, and a success queues one entry and registers its callback. *)
Lemma add_spec m has_cb flags delay env :
  0 <= clock_now env <= INT64_MAX → entry_addr env ∉ _cbs m → NoDup (_cbs m) →
  ∃ handle m', add m has_cb flags delay env = Some (handle, m') ∧
    match handle with
    | None => m' = m
    | Some id =>
        id = _next_id m ∧ id ≠ 0 ∧ 0 < delay ∧ _cleaned_up m = false
        ∧ is_valid_timer_flags flags = true
        ∧ (has_flag flags WORKER = true → has_flag flags RECURRING = true)
        ∧ clock_now env + delay * NS_PER_MS <= INT64_MAX
        ∧ m' = mkManager
            (insert_sorted (mkTimer id flags (clock_now env + delay * NS_PER_MS)
               (if has_flag flags RECURRING then delay else 0) 0 (entry_addr env)) (_timers m))
            (registry_add (_cbs m) (entry_addr env)) (u64 (id + 1)) false
    end.
Proof.
  intros Hnow Hfr Hnd. unfold add.
  destruct (Z.leb_spec delay 0); [by exists None, m|]. destruct has_cb; [|by exists None, m].
  destruct (is_valid_timer_flags flags) eqn:Hval; [|by exists None, m]. cbn [negb].
  destruct (negb (has_flag flags RECURRING) && has_flag flags WORKER) eqn:Hw; [by exists None, m|].
  destruct (pipe_ready env); [|by exists None, m]. destruct (entry_alloc env); [|by exists None, m].
  destruct (_cleaned_up m) eqn:Hcl; [by exists None, m|].
  destruct (Z.eqb_spec (_next_id m) 0); [by exists None, m|]. cbn [negb].
  assert (i64_sub INT64_MAX (clock_now env) = Some (INT64_MAX - clock_now env)) as ->.
  { apply i64_check_ok. unfold is_i64, INT64_MIN, INT64_MAX in *. lia. }
  cbn [mbind option_bind]. rewrite Z.quot_div_nonneg by (unfold NS_PER_MS; lia).
  destruct (Z.ltb_spec ((INT64_MAX - clock_now env) / NS_PER_MS) delay) as [|Hle]; [by exists None, m|].
  assert (clock_now env + delay * NS_PER_MS <= INT64_MAX) as Hfit.
  { unfold NS_PER_MS in *. pose proof (Z.div_mod (INT64_MAX - clock_now env) 1000000 ltac:(lia)).
    pose proof (Z.mod_pos_bound (INT64_MAX - clock_now env) 1000000 ltac:(lia)). lia. }
  assert (i64_mul delay NS_PER_MS = Some (delay * NS_PER_MS)) as ->.
  { apply i64_check_ok. unfold is_i64, INT64_MIN, NS_PER_MS in *. lia. }
  cbn [mbind option_bind].
  assert (i64_add (clock_now env) (delay * NS_PER_MS) = Some (clock_now env + delay * NS_PER_MS)) as ->.
  { apply i64_check_ok. unfold is_i64, INT64_MIN, NS_PER_MS in *. lia. }
  cbn [mbind option_bind]. destruct (node_alloc env); [|by exists None, m].
  destruct (registry_alloc env); [|by exists None, m]. cbn [negb]. destruct (wakeup_ok env); cbn [negb].
  - eexists _, _. split; [done|]. do 5 (split; [done|]). split; [|done].
    intros E. rewrite E in Hw. by destruct (has_flag flags RECURRING).
  - exists None. eexists. split; [done|]. rewrite registry_add_fresh by done. by destruct m; cbn in *; subst.
Qed.

(** *** Preservation *)

(** The invariant in terms of the set of live timers. *)
Lemma timers_ok_perm m r o m' r' :
  timers_ok (mkSystem m r o) → live (mkSystem m' r' o) ≡ₚ live (mkSystem m r o) →
  StronglySorted earlier (_timers m') → _cbs m' = _cbs m → _next_id m' = _next_id m →
  _cleaned_up m' = _cleaned_up m → timers_ok (mkSystem m' r' o).
Proof.
  intros [H1 H2 H3 H4 H5 H6 H7 H8 H9 H10] Hp Hs Hc Hn Hcl. cbn [manager others] in *.
  split; cbn [manager others]; rewrite ?Hc, ?Hn, ?Hcl; try done.
  - by rewrite Hp.
  - by rewrite Hp.
  - intros t. rewrite Hp. apply H4.
  - intros t. rewrite Hp. apply H6.
  - intros a. by rewrite Hp, H7.
  - intros a. rewrite Hp. apply H9.
  - intros E. apply Permutation_nil_r. rewrite <- (H10 E). by rewrite Hp.
Qed.

Lemma begin_ok m o now outcome m' :
  timers_ok (mkSystem m None o) → check_begin m now = Some (outcome, m') →
  timers_ok (mkSystem m' (match outcome with CheckFire t => Some t | CheckReturn _ => None end) o).
Proof.
  intros Hok. unfold check_begin. destruct (_cleaned_up m) eqn:Hcl; [by intros [= <- <-]|].
  destruct (_timers m) as [|t rest] eqn:Et; [by intros [= <- <-]|].
  destruct (negb (_tnext t <? now)).
  { destruct (set_timeout_until (_tnext t) now); [|done]. cbn. by intros [= <- <-]. }
  intros [= <- <-]. eapply timers_ok_perm; [exact Hok| | |done|done|done]; cbn.
  - unfold live. cbn. rewrite Et, app_nil_r. by rewrite Permutation_app_comm.
  - pose proof (tk_sorted _ Hok) as Hs. cbn in Hs. rewrite Et in Hs. by apply StronglySorted_inv in Hs as [? _].
Qed.

(** Changing what does not identify a timer. *)
Lemma finish_recurring_ok m t o next n :
  timers_ok (mkSystem m (Some t) o) →
  timers_ok (mkSystem (mkManager
    (insert_sorted (mkTimer (_tid t) (_tflags t) next (_tinterval t) n (_tcb t)) (_timers m))
    (_cbs m) (_next_id m) (_cleaned_up m)) None o).
Proof.
  intros [H1 H2 H3 H4 H5 H6 H7 H8 H9 H10]. set (t' := mkTimer _ _ _ _ _ _).
  cbn [manager others] in *. unfold live in *. cbn [reactor manager option_list] in *.
  assert (∀ f : TimerEntry → Z, f t' = f t →
    f <$> insert_sorted t' (_timers m) ++ [] ≡ₚ f <$> _timers m ++ [t]) as Hf.
  { intros f E. rewrite app_nil_r, insert_perm, fmap_app. cbn. rewrite E. by rewrite Permutation_app_comm. }
  assert (∀ x, x ∈ insert_sorted t' (_timers m) ++ [] → x = t' ∨ x ∈ _timers m ++ [t]) as Hin.
  { intros x. rewrite app_nil_r, insert_perm. set_solver. }
  split; cbn [manager others _timers _cbs _next_id _cleaned_up]; try done.
  - by apply insert_sorted_ok.
  - by rewrite (Hf _tcb eq_refl).
  - by rewrite (Hf _tid eq_refl).
  - intros x [->|Hx]%Hin; [|by apply H4]. apply (H4 t). set_solver.
  - intros x [->|Hx]%Hin; [|by apply H6]. apply (H6 t). set_solver.
  - intros a. by rewrite (Hf _tcb eq_refl).
  - intros a. rewrite (Hf _tcb eq_refl). apply H9.
  - intros E. specialize (H10 E). by destruct (_timers m).
Qed.

Lemma finish_once_ok m t o :
  timers_ok (mkSystem m (Some t) o) →
  timers_ok (mkSystem (mkManager (_timers m) (registry_remove (_cbs m) (_tcb t)) (_next_id m) (_cleaned_up m))
    None o).
Proof.
  intros [H1 H2 H3 H4 H5 H6 H7 H8 H9 H10].
  cbn [manager others] in *. unfold live in *. cbn [reactor manager option_list] in *.
  rewrite fmap_app in *. cbn in H2, H3. pose proof H2 as (H2a & H2b & _)%NoDup_app.
  assert (∀ a, a ∈ _tcb <$> _timers m → a ≠ _tcb t) as Hne.
  { intros a Ha ->. apply (H2b _ Ha). set_solver. }
  split; cbn [manager others reactor _timers _cbs _next_id _cleaned_up option_list]; unfold live;
    cbn [manager reactor option_list _timers]; rewrite ?app_nil_r; try done.
  - by apply NoDup_app in H3 as (? & _).
  - intros x Hx. apply H4. set_solver.
  - intros x Hx. apply H6. set_solver.
  - intros a. rewrite elem_of_registry_remove, H7, elem_of_app. cbn. rewrite list_elem_of_singleton. split.
    + intros [[[?|?]|?] ?]; auto. done.
    + intros [Ha|Ha]; [by auto|]. split; [by right|]. intros ->. apply (H9 _ Ha). set_solver.
  - by apply registry_remove_nodup.
  - intros a Ha. specialize (H9 a Ha). set_solver.
  - intros E. specialize (H10 E). by destruct (_timers m).
Qed.

Lemma cleanup_ok m o : timers_ok (mkSystem m None o) → timers_ok (mkSystem (cleanup m) None o).
Proof.
  intros Hok. unfold cleanup. destruct (_cleaned_up m) eqn:Hcl; [done|].
  destruct Hok as [H1 H2 H3 H4 H5 H6 H7 H8 H9 H10].
  cbn [manager others] in *. unfold live in *. cbn [reactor manager option_list] in *.
  rewrite app_nil_r in *. destruct (registry_remove_all (_timers m) (_cbs m)) as [Hr Hrn].
  split; cbn [manager others reactor _timers _cbs _next_id _cleaned_up option_list]; unfold live;
    cbn [manager reactor option_list _timers app]; try done.
  - apply SSorted_nil.
  - apply NoDup_nil_2.
  - apply NoDup_nil_2.
  - set_solver.
  - set_solver.
  - intros a. rewrite Hr, H7. split; [naive_solver|]. intros [Ha|Ha]; [set_solver|]. auto.
  - by apply Hrn.
  - set_solver.
Qed.

Lemma added_ok m r o t id :
  timers_ok (mkSystem m r o) → id = _next_id m → id ≠ 0 → _tid t = id → _tcb t ∉ _tcb <$> live (mkSystem m r o) →
  _tcb t ∉ o → 0 <= _tinterval t → has_flag (_tflags t) RECURRING = (0 <? _tinterval t) →
  (_tinterval t = 0 → has_flag (_tflags t) WORKER = false) → _cleaned_up m = false →
  timers_ok (mkSystem (mkManager (insert_sorted t (_timers m)) (registry_add (_cbs m) (_tcb t))
    (u64 (id + 1)) false) r o).
Proof.
  intros [H1 H2 H3 H4 H5 H6 H7 H8 H9 H10] -> Hid Ht Hcb Ho Hi Hrec Hwk Hcl.
  cbn [manager others] in *.
  assert (live (mkSystem (mkManager (insert_sorted t (_timers m)) (registry_add (_cbs m) (_tcb t))
    (u64 (_next_id m + 1)) false) r o) ≡ₚ t :: live (mkSystem m r o)) as Hp.
  { unfold live. cbn. by rewrite insert_perm. }
  unfold is_u64 in H5.
  split; cbn [manager others _timers _cbs _next_id _cleaned_up]; try done.
  - by apply insert_sorted_ok.
  - rewrite Hp. cbn. by apply NoDup_cons.
  - rewrite Hp. cbn. apply NoDup_cons. split; [|done]. rewrite Ht.
    intros (x & Hx & Hin)%list_elem_of_fmap. destruct (H4 x Hin) as [_ Hlt]. specialize (Hlt Hid). lia.
  - intros x. rewrite Hp. intros [->|Hx]%elem_of_cons.
    + split; [lia|]. rewrite Ht. unfold u64. intros Hne.
      destruct (decide (_next_id m + 1 < 2 ^ 64)); [rewrite Z.mod_small; lia|].
      replace (_next_id m + 1) with (2 ^ 64) in Hne by lia. by rewrite Z.mod_same in Hne.
    + destruct (H4 x Hx) as [? Hlt]. specialize (Hlt Hid). split; [done|]. unfold u64. intros Hne.
      destruct (decide (_next_id m + 1 < 2 ^ 64)); [rewrite Z.mod_small; lia|].
      replace (_next_id m + 1) with (2 ^ 64) in Hne by lia. by rewrite Z.mod_same in Hne.
  - apply Z.mod_pos_bound. lia.
  - intros x. rewrite Hp. intros [->|Hx]%elem_of_cons; [done|by apply H6].
  - intros a. rewrite elem_of_registry_add, H7, Hp. cbn. rewrite elem_of_cons. tauto.
  - by apply registry_add_nodup.
  - intros a Ha. rewrite Hp. cbn. apply not_elem_of_cons. split; [by intros ->|by apply H9].
Qed.

Lemma add_ok m r o has_cb flags delay env handle m' :
  timers_ok (mkSystem m r o) → entry_addr env ∉ _tcb <$> live (mkSystem m r o) → entry_addr env ∉ o →
  0 <= clock_now env <= INT64_MAX →
  add m has_cb flags delay env = Some (handle, m') → timers_ok (mkSystem m' r o).
Proof.
  intros Hok Hfr Ho Hnow Hadd.
  assert (entry_addr env ∉ _cbs m) as Hc by (intros [?|?]%(tk_registry _ Hok); done).
  destruct (add_spec m has_cb flags delay env Hnow Hc (tk_registry_nodup _ Hok))
    as (h & m1 & Hadd1 & Hres).
  rewrite Hadd in Hadd1. injection Hadd1 as <- <-. destruct handle as [id|]; [|by subst].
  destruct Hres as (-> & Hid & Hd & Hcl & Hval & Hw & Hfit & ->).
  apply (added_ok m r o (mkTimer (_next_id m) flags (clock_now env + delay * NS_PER_MS)
    (if has_flag flags RECURRING then delay else 0) 0 (entry_addr env)) _ Hok); cbn [_tid _tcb _tinterval _tflags]; try done.
  - destruct (has_flag flags RECURRING); lia.
  - destruct (has_flag flags RECURRING); [|done]. by rewrite (proj2 (Z.ltb_lt _ _)).
  - intros E. destruct (has_flag flags RECURRING); [lia|]. destruct (has_flag flags WORKER); [|done].
    by specialize (Hw eq_refl).
Qed.

Lemma others_ok m r o a :
  timers_ok (mkSystem m r o) →
  (a ∉ _tcb <$> live (mkSystem m r o) →
   timers_ok (mkSystem (mkManager (_timers m) (registry_add (_cbs m) a) (_next_id m) (_cleaned_up m)) r ({[a]} ∪ o)))
  ∧ (a ∈ o →
   timers_ok (mkSystem (mkManager (_timers m) (registry_remove (_cbs m) a) (_next_id m) (_cleaned_up m)) r (o ∖ {[a]}))).
Proof.
  intros [H1 H2 H3 H4 H5 H6 H7 H8 H9 H10]. cbn [manager others] in *. split; intros Ha.
  - split; cbn [manager others _timers _cbs _next_id _cleaned_up]; try done.
    + intros x. rewrite elem_of_registry_add, H7. unfold live. cbn. set_solver.
    + by apply registry_add_nodup.
    + intros x [->%elem_of_singleton|Hx]%elem_of_union; [done|by apply H9].
  - split; cbn [manager others _timers _cbs _next_id _cleaned_up]; try done.
    + intros x. rewrite elem_of_registry_remove, H7. specialize (H9 a Ha). unfold live in *. cbn in *.
      rewrite elem_of_difference, elem_of_singleton. split; [tauto|].
      intros [Hx|[Hx Hne]]; [|tauto]. split; [by left|]. by intros ->.
    + by apply registry_remove_nodup.
    + intros x [Hx _]%elem_of_difference. by apply H9.
Qed.

Lemma timer_step_ok s s' : timers_ok s → timer_step s s' → timers_ok s'.
Proof.
  intros Hok Hst. destruct Hst as [m r o hc fl d env h m' H1 H2 H3 H4|m o now out m' Hb|m t o m' Hf|m o|m r o a Ha|m r o a Ha].
  - by eapply add_ok.
  - by eapply begin_ok.
  - unfold check_finish in Hf. cbn [_tinterval _tcb _tnext _tid _tflags _fire_count] in Hf.
    destruct (0 <? _tinterval t).
    + destruct (i64_mul (_tinterval t) NS_PER_MS) as [i|]; [|done]. cbn in Hf.
      destruct (i64_add (_tnext t) i) as [next|]; [|done]. cbn in Hf. injection Hf as <-.
      by apply finish_recurring_ok.
    + injection Hf as <-. by apply finish_once_ok.
  - by apply cleanup_ok.
  - by apply others_ok.
  - by apply others_ok.
Qed.

Lemma new_system_ok : timers_ok (mkSystem new_manager None ∅).
Proof.
  split; cbn; try done; first [apply SSorted_nil|apply NoDup_nil_2|set_solver].
Qed.

Definition initial : System := mkSystem new_manager None ∅.

Lemma reachable_ok s : rtc timer_step initial s → timers_ok s.
Proof.
  intros Hr. assert (∀ a b, rtc timer_step a b → timers_ok a → timers_ok b) as Hind.
  { induction 1; [done|]. intros Hok. by eapply IHrtc, timer_step_ok. }
  by eapply Hind, new_system_ok.
Qed.

(** *** Firing order and waiting *)

Lemma set_timeout_until_spec deadline now :
  0 <= now <= INT64_MAX → deadline <= INT64_MAX →
  ∃ tv, set_timeout_until deadline now = Some tv ∧ 0 <= tv_sec tv ∧ 0 <= tv_usec tv < 1000000
    ∧ (let wait_ns := (tv_sec tv * 1000000 + tv_usec tv) * 1000 in
       deadline <= now + wait_ns ∧ (now < deadline → now + wait_ns < deadline + 1000)
       ∧ (deadline <= now → wait_ns = 0)).
Proof.
  intros Hn Hd. unfold set_timeout_until. destruct (Z.leb_spec deadline now) as [Hle|Hlt].
  { eexists. split; [done|]. cbn. lia. }
  assert (i64_sub deadline now = Some (deadline - now)) as ->.
  { apply i64_check_ok. unfold is_i64, INT64_MIN in *. lia. }
  cbn [mbind option_bind]. rewrite (Z.quot_div_nonneg (deadline - now) 1000) by lia.
  set (r := deadline - now) in *. assert (0 < r) as Hr by lia.
  set (us := if r / 1000 * 1000 <? r then r / 1000 + 1 else r / 1000).
  assert (r <= us * 1000 < r + 1000) as Hus.
  { unfold us. destruct (Z.ltb_spec (r / 1000 * 1000) r);
      pose proof (Z.div_mod r 1000 ltac:(lia)); pose proof (Z.mod_pos_bound r 1000 ltac:(lia)); lia. }
  eexists. split; [done|]. cbn [tv_sec tv_usec]. rewrite Z.quot_div_nonneg, Z.rem_mod_nonneg by lia.
  pose proof (Z.div_mod us 1000000 ltac:(lia)). pose proof (Z.mod_pos_bound us 1000000 ltac:(lia)).
  assert (0 <= us / 1000000) by (apply Z.div_pos; lia). cbv zeta. lia.
Qed.

(** In every reachable interleaving of threads that add timers, of the reactor's
    [check] and of the final cleanup: the queue is sorted by deadline; live timers
    have distinct non-zero ids and distinct callbacks; the registry holds exactly
    the callbacks of the live timers and those of the other component, without
    duplicates, so a registered callback is never dangling; the kind of a timer
    agrees with its interval, so the assertions of [check] hold; nothing is live
    after cleanup. A timer that fires has a deadline in the past and no queued timer
    has an earlier one. *)
Theorem timer_queue_invariant s :
  rtc timer_step initial s →
  timers_ok s
  ∧ ∀ now t m', reactor s = None → check_begin (manager s) now = Some (CheckFire t, m') →
      _tnext t < now ∧ (∀ t', t' ∈ _timers m' → _tnext t <= _tnext t') ∧ _cleaned_up (manager s) = false.
Proof.
  intros Hr. pose proof (reachable_ok s Hr) as Hok. split; [done|].
  intros now t m' _. unfold check_begin. destruct (_cleaned_up (manager s)); [done|].
  pose proof (tk_sorted _ Hok) as Hs. destruct (_timers (manager s)) as [|e rest]; [done|].
  destruct (Z.ltb_spec (_tnext e) now) as [Hlt|Hge]; cbn [negb].
  - intros [= -> <-]. cbn. split; [done|]. split; [|done].
    apply StronglySorted_inv in Hs as [_ Hs]. rewrite Forall_forall in Hs. exact Hs.
  - by destruct (set_timeout_until (_tnext e) now).
Qed.

(** *** One pass of [check] *)

(** How often a timer fires up to [now]. *)
Definition fires (now : Z) (t : TimerEntry) : Z :=
  if _tnext t <? now then
    if 0 <? _tinterval t
    then (now - _tnext t + _tinterval t * NS_PER_MS - 1) / (_tinterval t * NS_PER_MS)
    else 1
  else 0.

Definition all_fires (now : Z) (ts : list TimerEntry) : Z := foldr (λ t n, fires now t + n) 0 ts.

Lemma fires_nonneg now t : 0 <= _tinterval t → 0 <= fires now t.
Proof.
  intros Hi. unfold fires. destruct (Z.ltb_spec (_tnext t) now); [|lia].
  destruct (Z.ltb_spec 0 (_tinterval t)); [|lia]. unfold NS_PER_MS in *. apply Z.div_pos; lia.
Qed.

Lemma fires_step now t next n :
  0 < _tinterval t → _tnext t < now → next = _tnext t + _tinterval t * NS_PER_MS →
  fires now t = 1 + fires now (mkTimer (_tid t) (_tflags t) next (_tinterval t) n (_tcb t)).
Proof.
  intros Hi Hlt ->. unfold fires. cbn [_tnext _tinterval].
  rewrite (proj2 (Z.ltb_lt _ _) Hlt), (proj2 (Z.ltb_lt 0 _) Hi).
  set (I := _tinterval t * NS_PER_MS). assert (0 < I) by (unfold I, NS_PER_MS; lia).
  destruct (Z.ltb_spec (_tnext t + I) now).
  - replace (now - _tnext t + I - 1) with (now - (_tnext t + I) + I - 1 + 1 * I) by lia.
    rewrite Z.div_add by lia. lia.
  - assert ((now - _tnext t + I - 1) / I = 1); [|lia].
    symmetry. apply (Z.div_unique _ _ _ (now - _tnext t - 1)); lia.
Qed.

#[export] Instance all_fires_proper now : Proper ((≡ₚ) ==> (=)) (all_fires now).
Proof. unfold all_fires. intros l k. induction 1; cbn; lia. Qed.

Lemma all_fires_nonneg now ts : (∀ t, t ∈ ts → 0 <= _tinterval t) → 0 <= all_fires now ts.
Proof.
  intros Hi. unfold all_fires. induction ts as [|t ts IH]; cbn; [lia|].
  pose proof (fires_nonneg now t (Hi t ltac:(set_solver))). specialize (IH ltac:(set_solver)). lia.
Qed.

(** What one pass relies on; [queue_ok] holds of the queue of every reachable state
    whose deadlines are far from the end of the clock's range. *)
Record queue_ok (now : Z) (ts : list TimerEntry) : Prop := {
  qo_sorted : StronglySorted earlier ts;
  qo_ids : NoDup (_tid <$> ts);
  qo_range : ∀ t, t ∈ ts → is_i64 (_tnext t) ∧ 0 <= _tinterval t
                            ∧ now + _tinterval t * NS_PER_MS <= INT64_MAX
}.

Definition deadlines (now : Z) (t : TimerEntry) : list Z :=
  map (λ k, _tnext t + Z.of_nat k * (_tinterval t * NS_PER_MS)) (seq 0 (Z.to_nat (fires now t))).

(** What a pass that fired [fired] and left [ts'] must satisfy. *)
Record pass_spec (now : Z) (ts : list TimerEntry) (fired ts' : list TimerEntry) : Prop := {
  ps_count : Zlen fired = all_fires now ts;
  ps_each : ∀ t, t ∈ ts → _tnext <$> filter (λ x, _tid x = _tid t) fired = deadlines now t;
  ps_known : ∀ x, x ∈ fired → _tid x ∈ _tid <$> ts;
  ps_late : ∀ x, x ∈ fired → _tnext x < now;
  ps_order : StronglySorted Z.le (_tnext <$> fired);
  ps_lower : ∀ low, (∀ t, t ∈ ts → low <= _tnext t) → ∀ x, x ∈ fired → low <= _tnext x;
  ps_rest : ∀ t, t ∈ ts' → now <= _tnext t
}.

Lemma fires_zero now t : now <= _tnext t → fires now t = 0.
Proof. intros Hle. unfold fires. by rewrite (proj2 (Z.ltb_ge _ _)). Qed.

Lemma pass_nothing now ts : (∀ t, t ∈ ts → now <= _tnext t) → pass_spec now ts [] ts.
Proof.
  intros Hall. split; try done; [| |set_solver|set_solver|apply SSorted_nil|set_solver].
  - change (Zlen []) with 0. unfold all_fires. induction ts as [|t ts IH]; [done|]. cbn.
    rewrite fires_zero by (apply Hall; set_solver). rewrite <- IH by set_solver. done.
  - intros t Ht. unfold deadlines. by rewrite fires_zero by auto.
Qed.

(** What becomes of the fired timer: its successor [e'] in the queue [ts1]. *)
Definition fired_to (e : TimerEntry) (e' : option TimerEntry) (rest ts1 : list TimerEntry) : Prop :=
  match e' with
  | Some e' => 0 < _tinterval e ∧ _tid e' = _tid e ∧ _tinterval e' = _tinterval e
               ∧ _tnext e' = _tnext e + _tinterval e * NS_PER_MS ∧ ts1 ≡ₚ e' :: rest
  | None => _tinterval e = 0 ∧ ts1 = rest
  end.

Lemma fired_to_count now e e' rest ts1 :
  _tnext e < now → fired_to e e' rest ts1 →
  fires now e = 1 + match e' with Some e' => fires now e' | None => 0 end
  ∧ all_fires now (e :: rest) = 1 + all_fires now ts1.
Proof.
  intros Hlt He'.
  assert (fires now e = 1 + match e' with Some e' => fires now e' | None => 0 end) as Hfe.
  { destruct e' as [e'|].
    - destruct He' as (Hi & _ & Hi' & Hn & _).
      rewrite (fires_step now e (_tnext e') 0 Hi Hlt Hn). unfold fires. cbn. by rewrite Hi'.
    - destruct He' as [Hi _]. unfold fires. by rewrite (proj2 (Z.ltb_lt _ _) Hlt), Hi. }
  split; [done|]. cbn [all_fires foldr]. rewrite Hfe. fold (all_fires now rest).
  destruct e' as [e1|]; [destruct He' as (_ & _ & _ & _ & ->)|destruct He' as [_ ->]];
    cbn; fold (all_fires now rest); lia.
Qed.

(** Firing the earliest timer, whose successor (when it recurs) goes back into the
    queue. *)
Lemma pass_fire now e rest e' ts1 fired ts' :
  queue_ok now (e :: rest) → _tnext e < now →
  fired_to e e' rest ts1 →
  pass_spec now ts1 fired ts' → pass_spec now (e :: rest) (e :: fired) ts'.
Proof.
  intros [Hs Hid Hrg] Hlt He' [P1 P2 P3 P4 P5 P6 P7].
  apply StronglySorted_inv in Hs as [_ Hmin]. rewrite Forall_forall in Hmin.
  cbn in Hid. apply NoDup_cons in Hid as [Hnew Hid].
  destruct (fired_to_count now e e' rest ts1 Hlt He') as [Hfe Hcount].
  assert (∀ t, t ∈ rest → t ∈ ts1) as Hrest.
  { intros t Ht. destruct e'; [destruct He' as (_ & _ & _ & _ & ->); set_solver|by destruct He' as [_ ->]]. }
  assert (∀ x, x ∈ ts1 → x ∈ rest ∨ ∃ e1, e' = Some e1 ∧ x = e1) as Hts1.
  { intros x Hx. destruct e' as [e1|].
    - destruct He' as (_ & _ & _ & _ & Hp). rewrite Hp in Hx. set_solver.
    - destruct He' as [_ ->]. by left. }
  assert (∀ t, t ∈ ts1 → _tnext e <= _tnext t) as Hlow.
  { intros t [Ht|(e1 & -> & ->)]%Hts1; [by apply Hmin|].
    destruct He' as (Hi & _ & _ & -> & _). unfold NS_PER_MS. lia. }
  split; try done.
  - rewrite Zlen_cons, P1. done.
  - intros t [->|Ht]%elem_of_cons.
    + rewrite filter_cons_True, fmap_cons by done. unfold deadlines. rewrite Hfe.
      destruct e' as [e1|].
      * destruct He' as (Hi & Hid1 & Hi1 & Hn1 & Hp).
        rewrite <- Hid1, (P2 e1) by (rewrite Hp; set_solver).
        assert (0 <= fires now e1) by (apply fires_nonneg; lia).
        replace (Z.to_nat (1 + fires now e1)) with (S (Z.to_nat (fires now e1))) by lia.
        cbn [seq map]. f_equal; [lia|]. unfold deadlines. rewrite <- seq_shift, map_map.
        apply map_ext. intros k. rewrite Hn1, Hi1. lia.
      * destruct He' as [Hi ->].
        assert (filter (λ x, _tid x = _tid e) fired = []) as ->; [|change (Z.to_nat (1 + 0)) with 1%nat; cbn [seq map fmap list_fmap]; f_equal; lia].
        destruct (filter _ fired) as [|x l] eqn:E; [done|]. exfalso.
        assert (x ∈ filter (λ x, _tid x = _tid e) fired) as [Hx Hin]%list_elem_of_filter
          by (rewrite E; set_solver).
        apply Hnew. rewrite <- Hx. by apply P3.
    + rewrite filter_cons_False; [by apply P2, Hrest|]. intros E. apply Hnew. rewrite E.
      by apply list_elem_of_fmap_2.
  - intros x [->|Hx]%elem_of_cons; [set_solver|]. apply P3 in Hx. cbn.
    apply list_elem_of_fmap in Hx as (y & -> & [Hy|(e1 & -> & ->)]%Hts1).
    + right. by apply list_elem_of_fmap_2.
    + destruct He' as (_ & -> & _). by left.
  - intros x [->|Hx]%elem_of_cons; [done|by apply P4].
  - cbn. apply SSorted_cons; [done|]. apply Forall_forall. intros z (x & -> & Hx)%list_elem_of_fmap.
    by apply (P6 _ Hlow).
  - intros low Hl x [->|Hx]%elem_of_cons; [apply Hl; set_solver|]. apply (P6 low); [|done].
    intros t Ht. specialize (Hlow t Ht). specialize (Hl e ltac:(set_solver)). lia.
Qed.

Lemma finish_spec now e rest m :
  0 <= now → queue_ok now (e :: rest) → _tnext e < now → _timers m = rest →
  ∃ m1 e', check_finish m e = Some m1 ∧ _cleaned_up m1 = _cleaned_up m
    ∧ fired_to e e' rest (_timers m1) ∧ queue_ok now (_timers m1).
Proof.
  intros Hnow [Hs Hid Hrg] Hlt Hm. unfold check_finish. cbn [_tinterval _tnext _tid _tflags _tcb _fire_count].
  destruct (Hrg e ltac:(set_solver)) as (Hi64 & Hi & Hb).
  apply StronglySorted_inv in Hs as [Hs _]. pose proof Hid as [Hnew Hid']%NoDup_cons.
  destruct (Z.ltb_spec 0 (_tinterval e)) as [Hpos|Hz].
  - assert (i64_mul (_tinterval e) NS_PER_MS = Some (_tinterval e * NS_PER_MS)) as ->.
    { apply i64_check_ok. unfold is_i64, INT64_MIN, INT64_MAX, NS_PER_MS in *. lia. }
    cbn [mbind option_bind].
    assert (is_i64 (_tnext e + _tinterval e * NS_PER_MS)) as Hnx.
    { unfold is_i64, INT64_MIN, NS_PER_MS in *. lia. }
    assert (i64_add (_tnext e) (_tinterval e * NS_PER_MS) = Some (_tnext e + _tinterval e * NS_PER_MS)) as ->
      by by apply i64_check_ok.
    cbn [mbind option_bind].
    eexists _, (Some (mkTimer (_tid e) (_tflags e) (_tnext e + _tinterval e * NS_PER_MS) (_tinterval e)
      (u64 (_fire_count e + 1)) (_tcb e))).
    split; [done|]. split; [done|]. cbn [_timers]. rewrite Hm.
    split; [do 4 (split; [done|]); apply insert_perm|].
    split; [by apply insert_sorted_ok| |].
    + rewrite insert_perm. cbn. by apply NoDup_cons.
    + intros t. rewrite insert_perm. intros [->|Ht]%elem_of_cons; [done|]. apply Hrg. set_solver.
  - eexists _, None. split; [done|]. split; [done|]. cbn [_timers]. rewrite Hm.
    split; [split; [lia|done]|]. split; [done|done|]. intros t Ht. apply Hrg. set_solver.
Qed.

Lemma check_S n clock during m :
  check (S n) clock during m =
    '(o, m) ← check_begin m (clock 0%nat);
    match o with
    | CheckReturn tv => Some (tv, [], m)
    | CheckFire t =>
        m ← check_finish (during t m) t;
        '(tv, fired, m) ← check n (λ i, clock (S i)) during m;
        Some (tv, t :: fired, m)
    end.
Proof. done. Qed.

Lemma check_pass now n : ∀ m,
  queue_ok now (_timers m) → _cleaned_up m = false → Z.of_nat n = all_fires now (_timers m) →
  0 <= now <= INT64_MAX →
  ∃ tv fired m', check (S n) (λ _, now) (λ _ m, m) m = Some (tv, fired, m')
    ∧ pass_spec now (_timers m) fired (_timers m') ∧ _cleaned_up m' = false
    ∧ queue_ok now (_timers m')
    ∧ match _timers m' with
      | [] => tv = idle_timeout
      | t :: _ => set_timeout_until (_tnext t) now = Some tv
      end.
Proof.
  induction n as [|n IH]; intros m Hq Hcl Hn Hnow; rewrite check_S; unfold check_begin; rewrite Hcl.
  - destruct (_timers m) as [|e rest] eqn:Et.
    { cbn. eexists _, [], m. split; [done|]. rewrite Et. split; [by apply pass_nothing; set_solver|].
      split; [done|]. split; [done|done]. }
    assert (now <= _tnext e) as Hge.
    { destruct (decide (now <= _tnext e)) as [|Hlt]; [done|]. exfalso.
      cbn [all_fires foldr] in Hn. fold (all_fires now rest) in Hn.
      assert (1 <= fires now e).
      { unfold fires. rewrite (proj2 (Z.ltb_lt _ _)) by lia. destruct (Z.ltb_spec 0 (_tinterval e)); [|lia].
        unfold NS_PER_MS. apply Z.div_le_lower_bound; lia. }
      pose proof (all_fires_nonneg now rest) as Hnn. pose proof Hq as [_ _ Hrg].
      specialize (Hnn ltac:(intros t Ht; apply (Hrg t); set_solver)). lia. }
    rewrite (proj2 (Z.ltb_ge _ _)) by lia. cbn [negb].
    pose proof Hq as [Hs _ Hrg]. destruct (Hrg e ltac:(set_solver)) as ([_ Hmax] & _ & _).
    destruct (set_timeout_until_spec (_tnext e) now Hnow Hmax) as (tv & Htv & _). rewrite Htv.
    cbn [mbind option_bind]. eexists _, [], m. split; [done|]. rewrite Et. split; [|done].
    apply pass_nothing. apply StronglySorted_inv in Hs as [_ Hs]. rewrite Forall_forall in Hs.
    intros t [->|Ht]%elem_of_cons; [done|]. specialize (Hs t Ht). unfold earlier in Hs. lia.
  - destruct (_timers m) as [|e rest] eqn:Et; [done|].
    destruct (Z.ltb_spec (_tnext e) now) as [Hlt|Hge]; cbn [negb].
    2:{ exfalso. assert (all_fires now (e :: rest) = 0); [|lia].
        rewrite <- (ps_count now (e :: rest) [] (e :: rest)); [done|]. apply (pass_nothing now (e :: rest)).
        destruct Hq as [Hs _ _]. apply StronglySorted_inv in Hs as [_ Hs]. rewrite Forall_forall in Hs.
        intros t [->|Ht]%elem_of_cons; [done|]. specialize (Hs t Ht). unfold earlier in Hs. lia. }
    cbn [mbind option_bind].
    destruct (finish_spec now e rest (mkManager rest (_cbs m) (_next_id m) (_cleaned_up m)) (proj1 Hnow) Hq Hlt eq_refl)
      as (m1 & e' & Hf & Hcl1 & He' & Hq1). rewrite Hcl in Hf. rewrite Hf. cbn [mbind option_bind]. cbn in Hcl1.
    destruct (fired_to_count now e e' rest _ Hlt He') as [_ Hcount].
    destruct (IH m1 Hq1 ltac:(congruence) ltac:(lia) Hnow) as (tv & fired & m' & Hch & Hp & Hrest).
    rewrite Hch. cbn [mbind option_bind]. eexists _, _, m'. split; [done|].
    split; [|done]. by eapply pass_fire.
Qed.


(** Adding a timer is atomic in every reachable state: whatever fails (arguments,
    pipe, memory, clock range, exhausted ids, registry or wake-up), the call
    returns no handle and queue, registry and id counter are as before; otherwise
    the handle is the non-zero next id, the deadline is the clock plus the delay
    without overflow, and the timer is queued behind those with the same
    deadline. *)
Theorem timer_add_atomic s has_cb flags delay env :
  rtc timer_step initial s → 0 <= clock_now env <= INT64_MAX →
  entry_addr env ∉ _tcb <$> live s → entry_addr env ∉ others s →
  ∃ handle m', add (manager s) has_cb flags delay env = Some (handle, m') ∧
    match handle with
    | None => m' = manager s
    | Some id =>
        id = _next_id (manager s) ∧ id ≠ 0 ∧ 0 < delay
        ∧ clock_now env + delay * NS_PER_MS <= INT64_MAX
        ∧ ∃ before after t, _timers (manager s) = before ++ after ∧ _timers m' = before ++ t :: after
            ∧ _tid t = id ∧ _tnext t = clock_now env + delay * NS_PER_MS ∧ _fire_count t = 0
            ∧ (∀ x, x ∈ before → _tnext x <= _tnext t) ∧ (∀ x, x ∈ after → _tnext t < _tnext x)
    end.
Proof.
  intros Hr Hnow Hfr Ho. pose proof (reachable_ok s Hr) as Hok.
  assert (entry_addr env ∉ _cbs (manager s)) as Hc by (intros [?|?]%(tk_registry _ Hok); done).
  destruct (add_spec (manager s) has_cb flags delay env Hnow Hc (tk_registry_nodup _ Hok))
    as (handle & m' & Hadd & Hres).
  exists handle, m'. split; [done|]. destruct handle as [id|]; [|done].
  destruct Hres as (Hid & Hne & Hd & _ & _ & _ & Hfit & ->). do 4 (split; [done|]). cbn [_timers].
  set (t := mkTimer _ _ _ _ _ _). unfold insert_sorted.
  destruct (position_split (_tnext t) (_timers (manager s))) as [H1 H2].
  set (p := find_insert_position (_tnext t) (_timers (manager s))) in *.
  exists (take p (_timers (manager s))), (drop p (_timers (manager s))), t.
  split; [by rewrite take_drop|]. do 4 (split; [done|]). split; [done|].
  pose proof (tk_sorted _ Hok) as Hs. rewrite <- (take_drop p (_timers (manager s))) in Hs.
  apply StronglySorted_app in Hs as (_ & _ & Hs). intros x Hx.
  destruct (drop p (_timers (manager s))) as [|y r]; [set_solver|]. specialize (H2 y eq_refl).
  apply StronglySorted_inv in Hs as [_ Hs]. rewrite Forall_forall in Hs.
  apply elem_of_cons in Hx as [->|Hx]; [done|]. specialize (Hs x Hx). unfold earlier in Hs. lia.
Qed.

(** A reachable state with a recurring and a one-shot timer. *)
Definition env_at (now a : Z) : AddEnv := mkAddEnv true true a now true true true.

Definition two_timers : TimerManager :=
  mkManager [mkTimer 2 ONCE 2000000 0 0 8; mkTimer 1 RECURRING 3000000 2 0 7] [7; 8] 3 false.

Lemma two_timers_reachable : rtc timer_step initial (mkSystem two_timers None ∅).
Proof.
  eapply rtc_l; [|eapply rtc_once].
  - eapply (StepAdd new_manager None ∅ true RECURRING 2 (env_at 1000000 7)).
    + vm_compute. intros Hin. inversion Hin.
    + set_solver.
    + vm_compute. split; discriminate.
    + vm_compute. reflexivity.
  - eapply (StepAdd _ None ∅ true ONCE 1 (env_at 1000000 8)).
    + vm_compute. intros Hin. inversion Hin as [|? ? ? Hin']; inversion Hin'.
    + set_solver.
    + vm_compute. split; discriminate.
    + vm_compute. reflexivity.
Qed.

Lemma timer_queue_invariant_witness :
  timers_ok (mkSystem two_timers None ∅)
  ∧ ∃ t m', check_begin two_timers 2500000 = Some (CheckFire t, m') ∧ _tnext t < 2500000.
Proof.
  destruct (timer_queue_invariant _ two_timers_reachable) as [Hok Hf]. split; [exact Hok|].
  eexists _, _. split; [vm_compute; reflexivity|].
  exact (proj1 (Hf 2500000 _ _ eq_refl ltac:(vm_compute; reflexivity))).
Defined.


Lemma timer_add_atomic_witness :
  ∃ m1 m2, add two_timers true ONCE 1 (env_at 2000000 9) = Some (Some 3, m1)
    ∧ add two_timers true WORKER 1 (env_at 2000000 9) = Some (None, m2) ∧ m2 = two_timers.
Proof.
  destruct (timer_add_atomic (mkSystem two_timers None ∅) true WORKER 1 (env_at 2000000 9)
    two_timers_reachable) as (h & m2 & Hadd & Hres).
  - vm_compute. split; discriminate.
  - vm_compute. intros Hin. repeat (inversion Hin as [|? ? ? Hin']; clear Hin; rename Hin' into Hin; subst).
  - set_solver.
  - eexists _, m2. split; [vm_compute; reflexivity|]. cbn [manager] in Hadd.
    assert (h = None) as -> by (vm_compute in Hadd; congruence). split; [exact Hadd|exact Hres].
Defined.
