(* ===== verification/FileSystem.v ===== *)
(** The file system as [std::filesystem] and the POSIX calls present it to
    [src/monitor/alarm_spool.cpp]: a tree of directories, regular files and
    symbolic links, system calls that fail or stop short at any point, and what
    a power failure may leave behind.

    A path is the list of its components, read from the root directory; the
    relative paths of a caller are taken from the working directory first. A
    directory entry changed since the last [fsync] of its directory, and a file
    written since its last [fdatasync], are not durable: after a power failure
    the entry is any of the values it had since then and the file holds any
    bytes. Access rights are not represented: a call refused for want of them is
    one more failing call. *)

From Stdlib Require Import Ascii String.
From S2P Require Import Prelude.
#[local] Open Scope tlss_scope.

(** ** Names and paths *)

Abbreviation name := bytes.
Abbreviation path := (list name).

(** A C++ string literal, as its bytes. *)
Fixpoint literal (s : string) : bytes :=
  match s with
  | EmptyString => []
  | String a s' => Z.of_N (N_of_ascii a) :: literal s'
  end.

Definition SLASH : Z := 47.
Definition DOT : name := [46].
Definition DOTDOT : name := [46; 46].

(** [path::native()] *)
Definition native (p : path) : bytes := concat (map (cons SLASH) p).

Definition parent_path (p : path) : path := removelast p.

(** An [errno] value. *)
Definition ENOENT : Z := 2.
Definition EINTR : Z := 4.
Definition EIO : Z := 5.
Definition EEXIST : Z := 17.
Definition ENOTDIR : Z := 20.
Definition EISDIR : Z := 21.
Definition EINVAL : Z := 22.
Definition ELOOP : Z := 40.
Definition EOVERFLOW : Z := 75.

(** ** The tree *)

Inductive Node :=
  | Dir
  | Reg (inode : nat)
  | Symlink (absolute : bool) (target : path)
  | Special.

#[export] Instance Node_eq_dec : EqDecision Node.
Proof. solve_decision. Defined.

Record FS := mkFS {
  entries : gmap path Node;
  contents : gmap nat bytes;
  unsynced : gmap path (list (option Node));   (* values an entry had before its last change *)
  unflushed : gset nat;
  next_inode : nat
}.

Definition node (f : FS) (p : path) : option Node :=
  match p with [] => Some Dir | _ => entries f !! p end.

Definition content (f : FS) (i : nat) : bytes := default [] (contents f !! i).

(** Every value the entry [p] may have after a power failure. *)
Definition possible (f : FS) (p : path) : list (option Node) :=
  entries f !! p :: default [] (unsynced f !! p).

Definition set_entry (p : path) (v : option Node) (f : FS) : FS :=
  mkFS (partial_alter (λ _, v) p (entries f)) (contents f)
       (<[p := possible f p]> (unsynced f)) (unflushed f) (next_inode f).

Definition set_content (i : nat) (b : bytes) (f : FS) : FS :=
  mkFS (entries f) (<[i := b]> (contents f)) (unsynced f) ({[i]} ∪ unflushed f) (next_inode f).

Definition new_file (f : FS) : FS :=
  mkFS (entries f) (<[next_inode f := []]> (contents f)) (unsynced f)
       ({[next_inode f]} ∪ unflushed f) (S (next_inode f)).

Definition flush_file (i : nat) (f : FS) : FS :=
  mkFS (entries f) (contents f) (unsynced f) (unflushed f ∖ {[i]}) (next_inode f).

Definition sync_entries (d : path) (f : FS) : FS :=
  mkFS (entries f) (contents f) (filter (λ e, parent_path e.1 ≠ d) (unsynced f))
       (unflushed f) (next_inode f).

(** ** Path resolution *)

Definition SYMLOOP_MAX : nat := 40.

(** [resolve links follow f at rest]: the entry reached by walking [rest] from
    the directory [at], following at most [links] symbolic links; a link in the
    last component is followed when [follow] is set. *)
Fixpoint resolve (links : nat) (follow : bool) (f : FS) : path → path → path + Z :=
  fix walk (at_ rest : path) : path + Z :=
    match rest with
    | [] => inl at_
    | n :: rest' =>
        match node f at_ with
        | Some Dir =>
            if bool_decide (n = DOT) then walk at_ rest'
            else if bool_decide (n = DOTDOT) then walk (parent_path at_) rest'
            else match entries f !! (at_ ++ [n]) with
                 | None => inr ENOENT
                 | Some (Symlink absolute target) =>
                     if bool_decide (rest' = []) && negb follow then inl (at_ ++ [n])
                     else match links with
                          | O => inr ELOOP
                          | S links' => resolve links' follow f (if absolute then [] else at_)
                                          (target ++ rest')
                          end
                 | Some _ => walk (at_ ++ [n]) rest'
                 end
        | _ => inr ENOTDIR
        end
    end.

Definition lookup_path (follow : bool) (f : FS) (p : path) : path + Z :=
  resolve SYMLOOP_MAX follow f [] p.

(** Where an entry called [p] is, or would be created. *)
Definition locate (f : FS) (p : path) : path + Z :=
  match last p with
  | None => inr EISDIR
  | Some n =>
      if bool_decide (n = DOT ∨ n = DOTDOT) then inr EISDIR
      else match lookup_path true f (parent_path p) with
           | inr e => inr e
           | inl d => match node f d with Some Dir => inl (d ++ [n]) | _ => inr ENOTDIR end
           end
  end.

(** ** System calls *)

(** What the system does to one call: it goes through, it fails with [errno],
    it transfers at most [n] bytes, or the power fails and nothing more reaches
    the disk. The errors that report on the tree itself are not made up. *)
Inductive Fault := Goes | Fails (errno : Z) | Partial (n : nat) | PowerCut.

Definition tree_error (e : Z) : bool := (e =? ENOENT) || (e =? ENOTDIR) || (e =? EEXIST).

(** [faults] lists the fate of the calls to come; the calls beyond it go through. *)
Record World := mkWorld { fs : FS; faults : list Fault; powered : bool }.

Definition Sys (A : Type) : Type := World → A * World.

#[export] Instance Sys_ret : MRet Sys := λ _ x w, (x, w).
#[export] Instance Sys_bind : MBind Sys := λ _ _ k m w, let '(x, w') := m w in k x w'.

(** A call that succeeds with a value ([inl]) or sets [errno] ([inr]). *)
Definition call {A} (body : option nat → FS → (A + Z) * FS) : Sys (A + Z) := λ w,
  if powered w then
    let run n l := let '(r, f) := body n (fs w) in (r, mkWorld f l true) in
    match faults w with
    | [] => run None []
    | Goes :: l => run None l
    | Partial n :: l => run (Some n) l
    | Fails e :: l => if tree_error e then run None l else (inr e, mkWorld (fs w) l true)
    | PowerCut :: l => (inr EIO, mkWorld (fs w) l false)
    end
  else (inr EIO, w).

(** A call that only observes. *)
Definition observe {A} (body : FS → A + Z) : Sys (A + Z) := call (λ _ f, (body f, f)).

(** A call that changes the tree or fails. *)
Definition change (body : FS → FS + Z) : Sys (unit + Z) :=
  call (λ _ f, match body f with inl f' => (inl tt, f') | inr e => (inr e, f) end).

Definition node_at (follow : bool) (f : FS) (p : path) : Node + Z :=
  match lookup_path follow f p with
  | inr e => inr e
  | inl q => match node f q with Some n => inl n | None => inr ENOENT end
  end.

(** [fs::symlink_status] and [fs::status] *)
Definition symlink_status (p : path) : Sys (Node + Z) := observe (λ f, node_at false f p).
Definition status (p : path) : Sys (Node + Z) := observe (λ f, node_at true f p).

(** [fs::canonical] *)
Definition canonical (p : path) : Sys (path + Z) := observe (λ f, lookup_path true f p).

(** [fs::exists]: a missing file is no error. *)
Definition exists_ (p : path) : Sys (bool + Z) :=
  r ← status p;
  mret (match r with
        | inl _ => inl true
        | inr e => if (e =? ENOENT) || (e =? ENOTDIR) then inl false else inr e
        end).

(** [file_size] of a directory entry *)
Definition file_size (p : path) : Sys (Z + Z) :=
  observe (λ f, match node_at true f p with
                | inl (Reg i) => inl ♯(content f i)
                | inl _ => inr EISDIR
                | inr e => inr e
                end).

Definition mkdir (p : path) : Sys (unit + Z) :=
  change (λ f, match locate f p with
               | inr e => inr e
               | inl q => match node f q with
                          | Some _ => inr EEXIST
                          | None => inl (set_entry q (Some Dir) f)
                          end
               end).

(** [fs::create_directories]: every element of the path that does not exist. *)
Fixpoint create_directories_from (done rest : path) : Sys (unit + Z) :=
  match rest with
  | [] => mret (inl tt)
  | n :: rest' =>
      r ← status (done ++ [n]);
      match r with
      | inl Dir => create_directories_from (done ++ [n]) rest'
      | inl _ => mret (inr ENOTDIR)
      | inr e =>
          if e =? ENOENT then
            m ← mkdir (done ++ [n]);
            match m with
            | inl _ => create_directories_from (done ++ [n]) rest'
            | inr e' => mret (inr e')
            end
          else mret (inr e)
      end
  end.

Definition create_directories (p : path) : Sys (unit + Z) := create_directories_from [] p.

Definition chmod (p : path) : Sys (unit + Z) :=
  observe (λ f, match node_at true f p with inl _ => inl tt | inr e => inr e end).

(** [open(O_WRONLY | O_CREAT | O_EXCL)] *)
Definition open_excl (p : path) : Sys (nat + Z) :=
  call (λ _ f, match locate f p with
               | inr e => (inr e, f)
               | inl q => match node f q with
                          | Some _ => (inr EEXIST, f)
                          | None => (inl (next_inode f),
                                     set_entry q (Some (Reg (next_inode f))) (new_file f))
                          end
               end).

(** [open(O_RDONLY | O_NOFOLLOW)] *)
Definition open_read (p : path) : Sys (Node + Z) :=
  observe (λ f, match node_at false f p with
                | inl (Symlink _ _) => inr ELOOP
                | r => r
                end).

Definition open_directory (p : path) : Sys (path + Z) :=
  observe (λ f, match lookup_path true f p with
                | inr e => inr e
                | inl q => match node f q with Some Dir => inl q | _ => inr ENOTDIR end
                end).

Definition limit (n : option nat) (size : nat) : nat :=
  match n with Some n => n `min` size | None => size end.

(** [write]: the number of bytes appended. *)
Definition write (i : nat) (data : bytes) : Sys (Z + Z) :=
  call (λ n f, let k := limit n (length data) in
               (inl (Z.of_nat k), set_content i (content f i ++ take k data) f)).

(** [read] at an offset. *)
Definition read_fd (i : nat) (offset size : nat) : Sys (bytes + Z) :=
  call (λ n f, (inl (take (limit n size) (drop offset (content f i))), f)).

(** [fstat]: whether the file is regular, and its size. *)
Definition fstat (h : Node) : Sys ((bool * Z) + Z) :=
  observe (λ f, inl (match h with Reg i => (true, ♯(content f i)) | _ => (false, 0) end)).

Definition fdatasync (i : nat) : Sys (unit + Z) := change (λ f, inl (flush_file i f)).
Definition fsync_directory (d : path) : Sys (unit + Z) := change (λ f, inl (sync_entries d f)).
Definition close : Sys (unit + Z) := change inl.

Definition unlink (p : path) : Sys (unit + Z) :=
  change (λ f, match lookup_path false f p with
               | inr e => inr e
               | inl q => match node f q with
                          | None => inr ENOENT
                          | Some Dir => inr EISDIR
                          | Some _ => inl (set_entry q None f)
                          end
               end).

(** [rename] of a file; directories are never renamed here. *)
Definition rename (a b : path) : Sys (unit + Z) :=
  change (λ f, match lookup_path false f a, locate f b with
               | inl a', inl b' =>
                   match node f a', node f b' with
                   | None, _ => inr ENOENT
                   | Some Dir, _ => inr EINVAL
                   | _, Some Dir => inr EISDIR
                   | Some v, _ =>
                       if bool_decide (a' = b') then inl f
                       else inl (set_entry a' None (set_entry b' (Some v) f))
                   end
               | inr e, _ => inr e
               | _, inr e => inr e
               end).

(** The order in which a directory is read is unspecified. *)
Class DirOrder := {
  dir_order : list path → list path;
  dir_order_perm : ∀ l, dir_order l ≡ₚ l
}.

Definition is_inside (base p : path) : Prop := ∃ n r, p = base ++ n :: r.

Definition is_inside_dec (base p : path) : bool :=
  bool_decide (take (length base) p = base) && (length base <? length p)%nat.

Section Listing.
Context `{DirOrder}.

(** The paths below [d], as an iterator opened on [d] names them. *)
Definition listing (below : path → path → bool) (d : path) : Sys (list path + Z) :=
  observe (λ f, match lookup_path true f d with
                | inr e => inr e
                | inl q =>
                    match node f q with
                    | Some Dir =>
                        inl (dir_order (map (λ p, d ++ drop (length q) p)
                          (filter (λ p, below q p = true) (map fst (map_to_list (entries f))))))
                    | _ => inr ENOTDIR
                    end
                end).

(** [fs::directory_iterator] *)
Definition children_of (d : path) : Sys (list path + Z) :=
  listing (λ q p, is_inside_dec q p && bool_decide (parent_path p = q)) d.

(** [fs::recursive_directory_iterator], which does not enter linked directories *)
Definition descendants_of (d : path) : Sys (list path + Z) := listing is_inside_dec d.

(** Advancing an iterator. *)
Definition advance : Sys (unit + Z) := change inl.
End Listing.

(** ** Power failure *)

Definition ancestors_dirs (f : FS) (p : path) : Prop :=
  Forall (λ k, node f (take k p) = Some Dir) (seq 0 (length p)).

(** [f'] is a tree a power failure may leave of [f]. *)
Record crash (f f' : FS) : Prop := {
  crash_entry p : if decide (ancestors_dirs f' p) then entries f' !! p ∈ possible f p
                  else entries f' !! p = None;
  crash_flushed i : i ∉ unflushed f → contents f' !! i = contents f !! i;
  crash_unsynced : unsynced f' = ∅;
  crash_unflushed : unflushed f' = ∅;
  crash_inodes : next_inode f' = next_inode f
}.

(** ** Well-formed trees *)

Definition plain (n : name) : Prop := n ≠ DOT ∧ n ≠ DOTDOT.

(** Entries have plain names and sit in directories, and inode numbers are only
    given once. *)
Record fs_wf (f : FS) : Prop := {
  wf_plain p v : Some v ∈ possible f p → p ≠ [] ∧ Forall plain p;
  wf_tree p v : entries f !! p = Some v → ancestors_dirs f p;
  wf_inodes p i : Some (Reg i) ∈ possible f p → (i < next_inode f)%nat
}.

(** A path that names the directory it looks like: no links, no dots. *)
Definition real_dir (f : FS) (d : path) : Prop :=
  Forall plain d ∧ ancestors_dirs f d ∧ node f d = Some Dir.

(** A path as [canonical] returns it. *)
Definition reached (f : FS) (p : path) : Prop :=
  Forall plain p ∧ ancestors_dirs f p ∧ is_Some (node f p).

Lemma node_app f p n : node f (p ++ [n]) = entries f !! (p ++ [n]).
Proof. by destruct p. Qed.

Lemma parent_path_app d n : parent_path (d ++ [n]) = d.
Proof. apply removelast_last. Qed.

Lemma ancestors_dirs_spec f p :
  ancestors_dirs f p ↔ ∀ k, (k < length p)%nat → node f (take k p) = Some Dir.
Proof.
  unfold ancestors_dirs. rewrite Forall_forall. split; intros H k Hk; apply H.
  - apply elem_of_seq. lia.
  - apply elem_of_seq in Hk. lia.
Qed.

Lemma ancestors_dirs_app f d n :
  ancestors_dirs f (d ++ [n]) ↔ ancestors_dirs f d ∧ node f d = Some Dir.
Proof.
  rewrite !ancestors_dirs_spec, length_app. cbn [length]. split.
  - intros H. split.
    + intros k Hk. rewrite <- (H k) by lia. by rewrite take_app_le by lia.
    + rewrite <- (H (length d)) by lia. by rewrite take_app_length.
  - intros [H Hd] k Hk. destruct (decide (k = length d)) as [->|].
    + by rewrite take_app_length.
    + rewrite take_app_le by lia. apply H. lia.
Qed.

Lemma real_dir_reached f d : real_dir f d → reached f d.
Proof. intros (? & ? & Hd). repeat split; [done..|]. by rewrite Hd. Qed.

Lemma reached_snoc f d n :
  reached f (d ++ [n]) ↔ real_dir f d ∧ plain n ∧ is_Some (entries f !! (d ++ [n])).
Proof.
  unfold reached, real_dir. rewrite Forall_app, Forall_singleton, ancestors_dirs_app, node_app.
  naive_solver.
Qed.

Lemma reached_parent f p : reached f p → p ≠ [] → ∃ d n, p = d ++ [n] ∧ real_dir f d ∧ plain n.
Proof.
  intros Hp Hne. destruct (exists_last Hne) as (d & n & ->). apply reached_snoc in Hp. naive_solver.
Qed.

Lemma reached_parent_path f p : reached f p → reached f (parent_path p).
Proof.
  intros Hp. destruct (decide (p = [])) as [->|Hne]; [done|].
  destruct (reached_parent f p Hp Hne) as (d & n & -> & Hd & _).
  rewrite parent_path_app. by apply real_dir_reached.
Qed.

(** Unfolding equation of the walk. *)
Lemma resolve_cons links follow f at_ n rest :
  resolve links follow f at_ (n :: rest) =
  match node f at_ with
  | Some Dir =>
      if bool_decide (n = DOT) then resolve links follow f at_ rest
      else if bool_decide (n = DOTDOT) then resolve links follow f (parent_path at_) rest
      else match entries f !! (at_ ++ [n]) with
           | None => inr ENOENT
           | Some (Symlink absolute target) =>
               if bool_decide (rest = []) && negb follow then inl (at_ ++ [n])
               else match links with
                    | O => inr ELOOP
                    | S links' => resolve links' follow f (if absolute then [] else at_)
                                    (target ++ rest)
                    end
           | Some _ => resolve links follow f (at_ ++ [n]) rest
           end
  | _ => inr ENOTDIR
  end.
Proof. by destruct links. Qed.

Lemma resolve_nil links follow f at_ : resolve links follow f at_ [] = inl at_.
Proof. by destruct links. Qed.

Definition is_symlink (v : option Node) : Prop :=
  match v with Some (Symlink _ _) => True | _ => False end.

Lemma reached_root f : reached f [].
Proof. repeat split; [constructor|by apply ancestors_dirs_spec; simpl; lia|by eexists]. Qed.

(** A resolved path is canonical, and not a link when links are followed. *)
Lemma resolve_reached f links : ∀ follow at_ rest q,
  fs_wf f → reached f at_ → ¬ is_symlink (node f at_) →
  resolve links follow f at_ rest = inl q →
  reached f q ∧ (follow = true → ¬ is_symlink (node f q)).
Proof.
  induction links as [links IH] using lt_wf_ind. intros follow at_ rest. revert at_.
  induction rest as [|n rest IHr]; intros at_ q Hwf Hat Hns.
  { rewrite resolve_nil. intros [= <-]. done. }
  rewrite resolve_cons. destruct (node f at_) as [[| | |]|] eqn:Ed; try done.
  assert (real_dir f at_) as Hrd by (destruct Hat as (? & ? & ?); repeat split; done).
  case_bool_decide; [apply IHr; [done..|by rewrite Ed]|].
  case_bool_decide.
  { apply IHr; [done|by apply reached_parent_path|].
    destruct (decide (at_ = [])) as [->|Hne]; [done|].
    destruct (reached_parent f at_ Hat Hne) as (d & m & -> & (_ & _ & Hd) & _).
    rewrite parent_path_app, Hd. done. }
  destruct (entries f !! (at_ ++ [n])) as [v|] eqn:Ev; [|done].
  assert (reached f (at_ ++ [n])) as Hn by (apply reached_snoc; done).
  destruct v as [|i|a t|]; try (apply IHr; [done..|by rewrite node_app, Ev]).
  destruct (bool_decide (rest = []) && negb follow) eqn:E.
  { intros [= <-]. split; [done|]. intros ->. by rewrite andb_comm in E. }
  destruct links as [|links]; [done|]. destruct a; (apply IH; [lia|done|..]).
  - apply reached_root.
  - by intros [].
  - done.
  - by rewrite Ed.
Qed.

Lemma lookup_path_reached f follow p q :
  fs_wf f → lookup_path follow f p = inl q →
  reached f q ∧ (follow = true → ¬ is_symlink (node f q)).
Proof. intros Hwf. apply resolve_reached; [done|apply reached_root|by intros []]. Qed.

(** Walking down a real directory stays on the path. *)
Lemma resolve_real links follow f d rest :
  real_dir f d → resolve links follow f [] (d ++ rest) = resolve links follow f d rest.
Proof.
  revert rest. induction d as [|n d IH] using rev_ind; [done|]. intros rest Hd.
  pose proof (proj1 (reached_snoc f d n) (real_dir_reached _ _ Hd)) as (Hd' & [Hn1 Hn2] & _).
  rewrite <- app_assoc, IH by done. cbn [app]. rewrite resolve_cons.
  destruct Hd' as (_ & _ & ->). rewrite !bool_decide_false by done.
  destruct Hd as (_ & _ & Hnode). rewrite node_app in Hnode. by rewrite Hnode.
Qed.

Lemma lookup_path_child follow f d n :
  real_dir f d → plain n →
  lookup_path follow f (d ++ [n]) =
  match entries f !! (d ++ [n]) with
  | None => inr ENOENT
  | Some (Symlink absolute target) =>
      if follow then resolve 39 true f (if absolute then [] else d) (target ++ [])
      else inl (d ++ [n])
  | Some _ => inl (d ++ [n])
  end.
Proof.
  intros Hd [Hn1 Hn2]. unfold lookup_path. rewrite resolve_real by done.
  rewrite resolve_cons. destruct Hd as (_ & _ & ->). rewrite !bool_decide_false by done.
  destruct (entries f !! _) as [[]|]; rewrite ?resolve_nil; [done..| |done|done].
  rewrite bool_decide_true by done. by destruct follow.
Qed.

Lemma lookup_path_dir follow f d : real_dir f d → lookup_path follow f d = inl d.
Proof.
  intros Hd. unfold lookup_path. rewrite <- (app_nil_r d) at 1. rewrite resolve_real by done.
  apply resolve_nil.
Qed.

Lemma lookup_path_self follow f p :
  reached f p → follow = false ∨ ¬ is_symlink (node f p) → lookup_path follow f p = inl p.
Proof.
  intros Hp Hf. destruct (decide (p = [])) as [->|Hne]; [done|].
  destruct (reached_parent f p Hp Hne) as (d & n & -> & Hd & Hn).
  rewrite lookup_path_child by done. destruct Hp as (_ & _ & [v Hv]). rewrite node_app in *.
  rewrite Hv in *. destruct v; try done. by destruct Hf as [->|[]].
Qed.

Lemma locate_child f d n : real_dir f d → plain n → locate f (d ++ [n]) = inl (d ++ [n]).
Proof.
  intros Hd [Hn1 Hn2]. unfold locate. rewrite last_snoc, parent_path_app.
  rewrite bool_decide_false by (by intros [|]). rewrite lookup_path_dir by done.
  by destruct Hd as (_ & _ & ->).
Qed.

Lemma locate_real f p q :
  fs_wf f → locate f p = inl q → ∃ d n, q = d ++ [n] ∧ real_dir f d ∧ plain n.
Proof.
  intros Hwf. unfold locate. destruct (last p) as [n|]; [|done]. case_bool_decide as Hn; [done|].
  destruct (lookup_path true f (parent_path p)) as [d|] eqn:Ed; [|done].
  destruct (node f d) as [[]|] eqn:End; try done. intros [= <-].
  destruct (lookup_path_reached f true _ d Hwf Ed) as [(? & ? & ?) _].
  exists d, n. split; [done|]. split; [done|]. by split; intros ->; apply Hn; auto.
Qed.

(** ** How calls change the tree *)

Lemma possible_set_entry p v f : possible (set_entry p v f) p = v :: possible f p.
Proof. unfold possible at 1, set_entry. cbn. by rewrite lookup_partial_alter_eq, lookup_insert_eq. Qed.

Lemma possible_set_entry_ne p q v f : q ≠ p → possible (set_entry p v f) q = possible f q.
Proof.
  intros Hne. unfold possible at 1, set_entry. cbn.
  by rewrite lookup_partial_alter_ne, lookup_insert_ne by done.
Qed.

Lemma entries_set_entry p v f : entries (set_entry p v f) !! p = v.
Proof. cbn. by rewrite lookup_partial_alter_eq. Qed.

Lemma entries_set_entry_ne p q v f : q ≠ p → entries (set_entry p v f) !! q = entries f !! q.
Proof. intros. cbn. by rewrite lookup_partial_alter_ne. Qed.

Lemma possible_sync d f p :
  possible (sync_entries d f) p
  = if decide (parent_path p = d) then [entries f !! p] else possible f p.
Proof.
  unfold possible, sync_entries. cbn [entries unsynced]. f_equal. case_decide as Hd.
  - rewrite map_lookup_filter_None_2; [done|]. right. intros l _ Hne. by apply Hne.
  - destruct (unsynced f !! p) as [l|] eqn:E.
    + rewrite (map_lookup_filter_Some_2 _ _ p l); [done|done|by cbn].
    + rewrite map_lookup_filter_None_2; [done|by left].
Qed.

Lemma entries_possible f p : entries f !! p ∈ possible f p.
Proof. unfold possible. left. Qed.

(** Calls that only set entries as [A] allows and leave the files with inodes
    below [N] as they are; directories are never removed. *)
Record evolves (A : path → option Node → Prop) (N : nat) (f f' : FS) : Prop := {
  ev_entry p : entries f' !! p = entries f !! p ∨ A p (entries f' !! p);
  ev_possible p v : v ∈ possible f' p → v ∈ possible f p ∨ A p v;
  ev_dirs p : entries f !! p = Some Dir → entries f' !! p = Some Dir;
  ev_contents i : (i < N)%nat → contents f' !! i = contents f !! i;
  ev_flushed i : (i < N)%nat → i ∉ unflushed f → i ∉ unflushed f';
  ev_inodes : (next_inode f <= next_inode f')%nat;
  ev_wf : fs_wf f → fs_wf f'
}.

Lemma evolves_refl A N f : evolves A N f f.
Proof. split; auto. Qed.

Lemma evolves_trans A N f g h : evolves A N f g → evolves A N g h → evolves A N f h.
Proof.
  intros [E1 P1 D1 C1 F1 I1 W1] [E2 P2 D2 C2 F2 I2 W2]. split; eauto with lia.
  - intros p. destruct (E2 p) as [->|]; [apply E1|by right].
  - intros p v [?|?]%P2; eauto.
  - intros i Hi. by rewrite C2, C1.
Qed.

Lemma evolves_mono (A B : path → option Node → Prop) N f g :
  (∀ p v, A p v → B p v) → evolves A N f g → evolves B N f g.
Proof.
  intros HAB [E P D C F I W]. split; auto.
  - intros p. destruct (E p); auto.
  - intros p v [?|?]%P; auto.
Qed.

Lemma evolves_le A N N' f g : (N' <= N)%nat → evolves A N f g → evolves A N' f g.
Proof. intros HN [E P D C F I W]. split; eauto with lia. Qed.

Lemma node_dirs_mono f g d :
  (∀ p, entries f !! p = Some Dir → entries g !! p = Some Dir) →
  node f d = Some Dir → node g d = Some Dir.
Proof. destruct d; cbn; auto. Qed.

Lemma ancestors_dirs_mono f g p :
  (∀ q, entries f !! q = Some Dir → entries g !! q = Some Dir) →
  ancestors_dirs f p → ancestors_dirs g p.
Proof. rewrite !ancestors_dirs_spec. eauto using node_dirs_mono. Qed.

Lemma evolves_real_dir A N f g d : evolves A N f g → real_dir f d → real_dir g d.
Proof.
  intros E (? & ? & ?). pose proof (ev_dirs _ _ _ _ E).
  repeat split; eauto using ancestors_dirs_mono, node_dirs_mono.
Qed.

Definition no_edit : path → option Node → Prop := λ _ _, False.
Definition edit (p : path) (v : option Node) : path → option Node → Prop := λ q u, q = p ∧ u = v.

(** Entry updates: [p] is not a directory, and a new value sits in one. *)
Lemma set_entry_evolves N f p v :
  entries f !! p ≠ Some Dir →
  (∀ u, v = Some u → ∃ d n, p = d ++ [n] ∧ real_dir f d ∧ plain n) →
  (∀ i, v = Some (Reg i) → (i < next_inode f)%nat) →
  evolves (edit p v) N f (set_entry p v f).
Proof.
  intros Hnd Hsome Hin.
  assert (∀ q, entries f !! q = Some Dir → entries (set_entry p v f) !! q = Some Dir) as Hdirs.
  { intros q Hq. destruct (decide (q = p)) as [->|]; [done|by rewrite entries_set_entry_ne]. }
  assert (∀ q u, u ∈ possible (set_entry p v f) q → u ∈ possible f q ∨ q = p ∧ u = v) as Hposs.
  { intros q u. destruct (decide (q = p)) as [->|].
    - rewrite possible_set_entry, elem_of_cons. naive_solver.
    - rewrite possible_set_entry_ne by done. auto. }
  split; auto.
  - intros q. destruct (decide (q = p)) as [->|]; [right|left]; [|by rewrite entries_set_entry_ne].
    by rewrite entries_set_entry.
  - intros Hwf. split.
    + intros q u [Hu|[-> Hu]]%Hposs; [by eapply wf_plain|].
      destruct (Hsome u) as (d & n & -> & (Hd & _) & Hn); [done|].
      split; [by destruct d|]. apply Forall_app; auto.
    + intros q u Hu. eapply ancestors_dirs_mono; [exact Hdirs|].
      destruct (decide (q = p)) as [->|].
      * rewrite entries_set_entry in Hu. destruct (Hsome u) as (d & n & -> & Hd & Hn); [done|].
        apply ancestors_dirs_app. by destruct Hd as (? & ? & ?).
      * rewrite entries_set_entry_ne in Hu by done. by eapply wf_tree.
    + intros q i [Hu|[-> Hu]]%Hposs; cbn; [by eapply wf_inodes|auto].
Qed.

(** Updates that leave every entry and every possible value in place. *)
Lemma same_tree_evolves A N f g :
  entries g = entries f → (∀ p v, v ∈ possible g p → v ∈ possible f p) →
  (∀ i, (i < N)%nat → contents g !! i = contents f !! i) →
  (∀ i, (i < N)%nat → i ∉ unflushed f → i ∉ unflushed g) →
  (next_inode f <= next_inode g)%nat → evolves A N f g.
Proof.
  intros He Hp Hc Hf Hi.
  assert (∀ p, node g p = node f p) as Hn by (intros [|]; cbn; by rewrite ?He).
  split; auto.
  - intros p. left. by rewrite He.
  - intros p. by rewrite He.
  - intros [Wp Wt Wi]. split.
    + eauto.
    + intros p v. rewrite He, ancestors_dirs_spec. intros Hv%Wt k. rewrite Hn.
      rewrite ancestors_dirs_spec in Hv. auto.
    + intros p i Hpi%Hp%Wi. lia.
Qed.

Lemma set_content_evolves A N f i b : (N <= i)%nat → evolves A N f (set_content i b f).
Proof.
  intros Hi. apply same_tree_evolves; cbn; auto.
  - intros j Hj. by rewrite lookup_insert_ne by lia.
  - intros j Hj ?. apply not_elem_of_union. split; [|done]. apply not_elem_of_singleton. lia.
Qed.

Lemma new_file_evolves A N f : (N <= next_inode f)%nat → evolves A N f (new_file f).
Proof.
  intros Hi. apply same_tree_evolves; cbn; auto.
  - intros j Hj. by rewrite lookup_insert_ne by lia.
  - intros j Hj ?. apply not_elem_of_union. split; [|done]. apply not_elem_of_singleton. lia.
Qed.

Lemma flush_file_evolves A N f i : evolves A N f (flush_file i f).
Proof. apply same_tree_evolves; cbn; auto. set_solver. Qed.

Lemma sync_entries_evolves A N f d : evolves A N f (sync_entries d f).
Proof.
  apply same_tree_evolves; auto. intros p v. rewrite possible_sync. case_decide; [|done].
  intros ->%list_elem_of_singleton. apply entries_possible.
Qed.

#[export] Hint Resolve evolves_refl set_content_evolves new_file_evolves flush_file_evolves
  sync_entries_evolves : fs.

(** ** Reasoning about calls *)

(** [wp m Q w]: running [m] in [w] ends with a result and a world in [Q]. *)
Definition wp {A} (m : Sys A) (Q : A → World → Prop) (w : World) : Prop := Q (m w).1 (m w).2.

Lemma wp_ret {A} (x : A) (Q : A → World → Prop) w : Q x w → wp (mret x) Q w.
Proof. done. Qed.

Lemma wp_bind {A B} (m : Sys A) (k : A → Sys B) Q w :
  wp m (λ x w', wp (k x) Q w') w → wp (m ≫= k) Q w.
Proof. unfold wp, mbind, Sys_bind. by destruct (m w). Qed.

Lemma wp_mono {A} (m : Sys A) (P Q : A → World → Prop) w :
  wp m P w → (∀ x w', P x w' → Q x w') → wp m Q w.
Proof. unfold wp. auto. Qed.

Lemma wp_use {A} (m : Sys A) (Q : A → World → Prop) w x w' : wp m Q w → m w = (x, w') → Q x w'.
Proof. unfold wp. intros H E. by rewrite E in H. Qed.

(** A call either runs its body or fails without an effect. *)
Lemma wp_call {A} (body : option nat → FS → (A + Z) * FS) Q w :
  (∀ n l, powered w = true → (length l <= length (faults w))%nat →
     Q (body n (fs w)).1 (mkWorld (body n (fs w)).2 l true)) →
  (∀ e w', fs w' = fs w → (length (faults w') <= length (faults w))%nat → tree_error e = false →
     Q (inr e) w') →
  wp (call body) Q w.
Proof.
  intros Hrun Hfail. unfold wp, call. destruct (powered w); [|by apply Hfail].
  destruct (faults w) as [|[|e|n|] l] eqn:El.
  - specialize (Hrun None [] eq_refl). destruct (body None (fs w)). apply Hrun. cbn. lia.
  - specialize (Hrun None l eq_refl). destruct (body None (fs w)). apply Hrun. cbn. lia.
  - destruct (tree_error e) eqn:Et; [|by apply Hfail; cbn; [done|lia|]].
    specialize (Hrun None l eq_refl). destruct (body None (fs w)). apply Hrun. cbn. lia.
  - specialize (Hrun (Some n) l eq_refl). destruct (body (Some n) (fs w)). apply Hrun. cbn. lia.
  - apply Hfail; cbn; [done|lia|done].
Qed.

(** When no failure is to come, a call runs its body. *)
Definition quiet (w : World) : Prop := powered w = true ∧ faults w = [].

Lemma call_quiet {A} (body : option nat → FS → (A + Z) * FS) w :
  quiet w → call body w = ((body None (fs w)).1, mkWorld (body None (fs w)).2 [] true).
Proof. intros [Hp Hf]. unfold call. rewrite Hp, Hf. by destruct (body None (fs w)). Qed.

Lemma wp_observe {A} (body : FS → A + Z) Q w :
  (∀ r w', fs w' = fs w →
     match r with inl x => body (fs w) = inl x
                | inr e => body (fs w) = inr e ∨ tree_error e = false end → Q r w') →
  wp (observe body) Q w.
Proof.
  intros HQ. apply wp_call; [intros n l _ _|intros e w' Hw _ He]; apply HQ; cbn; auto.
  destruct (body (fs w)); auto.
Qed.

Lemma wp_change (body : FS → FS + Z) Q w :
  (∀ w' e, fs w' = fs w → Q (inr e) w') →
  (∀ w', body (fs w) = inl (fs w') → Q (inl tt) w') →
  wp (change body) Q w.
Proof.
  intros Hfail Hok. apply wp_call; [|by eauto]. intros n l _ _.
  destruct (body (fs w)) as [f|e] eqn:E; cbn; [by apply Hok|by apply Hfail].
Qed.
