(* ===== verification/AlarmSpool.v ===== *)
(** The durable alarm spool ([src/monitor/alarm_spool.cpp],
    [inc/monitor/alarm_spool.h]): the sender's outbox and the receiver's inbox,
    one file per alarm, published by renaming a fully synchronised temporary.

    Every public function runs under the spool's mutex, so it is one transition
    of the file system of [FileSystem.v]; memory exhaustion in
    [decode_alarm_frame] is one more call that may fail. *)

From Stdlib Require Import String.
From S2P Require Import Prelude AlarmProtocol FileSystem.
#[local] Open Scope tlss_scope.

(** ** Types *)

Inductive AlarmSpoolKind := OUTBOX | INBOX | OtherKind (raw : Z).

Inductive AlarmSpoolStatus :=
  | SP_SUCCESS | SP_DUPLICATE | SP_FULL | SP_EMPTY | SP_INVALID_ARGUMENT | SP_NOT_READY
  | SP_NOT_FOUND | SP_OUTSIDE_ROOT | SP_INVALID_FRAME | SP_CORRUPT | SP_IO_ERROR.

#[export] Instance AlarmSpoolStatus_eq_dec : EqDecision AlarmSpoolStatus.
Proof. solve_decision. Defined.

(** [_root] is [None] for the empty path. *)
Record AlarmSpoolConfig := mkSpoolConfig {
  _config_root : option path;
  _kind : AlarmSpoolKind;
  _max_bytes : Z
}.

(** The results carry [None] for an empty path. *)
Record AlarmSpoolStoreResult := mkStore {
  _ststatus : AlarmSpoolStatus; _stpath : option path; _sterror : Z }.
Record AlarmSpoolPathResult := mkPath {
  _pstatus : AlarmSpoolStatus; _ppath : option path; _perror : Z }.
Record AlarmSpoolReadResult := mkRead {
  _rdstatus : AlarmSpoolStatus; _rdpath : option path; _rdbytes : bytes; _rderror : Z }.
Record AlarmSpoolStats := mkStats {
  _stfiles : Z; _stbytes : Z; _stcorrupt_files : Z; _stcorrupt_bytes : Z }.
Record AlarmSpoolStatsResult := mkStatsResult {
  _sstatus : AlarmSpoolStatus; _stats : AlarmSpoolStats; _serror : Z }.

Definition store_success (r : AlarmSpoolStoreResult) : bool := bool_decide (_ststatus r = SP_SUCCESS).
Definition store_durable (r : AlarmSpoolStoreResult) : bool :=
  bool_decide (_ststatus r = SP_SUCCESS ∨ _ststatus r = SP_DUPLICATE).
Definition path_success (r : AlarmSpoolPathResult) : bool := bool_decide (_pstatus r = SP_SUCCESS).
Definition read_success (r : AlarmSpoolReadResult) : bool := bool_decide (_rdstatus r = SP_SUCCESS).
Definition stats_success (r : AlarmSpoolStatsResult) : bool := bool_decide (_sstatus r = SP_SUCCESS).

(** [AlarmSpool::Impl] *)
Record AlarmSpool := mkSpool {
  _sconfig : AlarmSpoolConfig;
  _sroot : path;
  _data_directory : path;
  _tmp_directory : path;
  _corrupt_directory : path;
  _ready : bool;
  _setup_status : AlarmSpoolStatus;
  _setup_error : Z;
  _temporary_sequence : Z
}.

Record ScanResult := mkScan {
  _success : bool; _files : Z; _bytes : Z; _first : option path; _scan_error : Z }.

Definition valid_kind (kind : AlarmSpoolKind) : bool :=
  match kind with OUTBOX | INBOX => true | OtherKind _ => false end.

(** ** File names *)

Definition HEX : bytes := literal "0123456789abcdef".

(** [hex_u64]: sixteen digits written from the last one. *)
Fixpoint hex_loop (n : nat) (output : bytes) (index : nat) (value : Z) : bytes :=
  match n with
  | O => output
  | S n' => hex_loop n' (<[index := HEX !!! Z.to_nat (Z.land value 15)]> output) (pred index)
              (Z.shiftr value 4)
  end.
Definition hex_u64 (value : Z) : bytes :=
  let output := replicate 16 48 in hex_loop (length output) output (length output - 1) value.

Definition hex_message_id (message_id : bytes) : bytes :=
  concat (map (λ b, [HEX !!! Z.to_nat (Z.shiftr b 4); HEX !!! Z.to_nat (Z.land b 15)]) message_id).

Definition alarm_filename (source_id : Z) (message_id : bytes) : name :=
  hex_u64 source_id ++ literal "-" ++ hex_message_id message_id ++ literal ".alarm".

(** [std::to_string] of a non-negative number. *)
Fixpoint decimal_loop (fuel : nat) (v : Z) (acc : bytes) : bytes :=
  match fuel with
  | O => acc
  | S fuel' =>
      let acc' := (48 + v mod 10) :: acc in
      if v <? 10 then acc' else decimal_loop fuel' (v / 10) acc'
  end.
Definition to_string (v : Z) : bytes := decimal_loop 20 v [].

Lemma decimal_digits fuel v acc :
  Forall (λ c, 48 <= c <= 57) acc → Forall (λ c, 48 <= c <= 57) (decimal_loop fuel v acc).
Proof.
  revert v acc. induction fuel as [|fuel IH]; intros v acc Ha; cbn; [done|].
  assert (Forall (λ c, 48 <= c <= 57) ((48 + v mod 10) :: acc)) as Ha'.
  { constructor; [|done]. pose proof (Z.mod_pos_bound v 10). lia. }
  destruct (v <? 10); [done|by apply IH].
Qed.

(** [path::filename] *)
Definition filename (p : path) : name := default [] (last p).

(** ** System call wrappers *)

(** Repeats a call while it fails with [EINTR]; every such failure uses up one
    of the faults to come, so their number bounds the repetitions. *)
Fixpoint retry_loop {A} (fuel : nat) (m : Sys (A + Z)) : Sys (A + Z) :=
  match fuel with
  | O => mret (inr EINTR)
  | S fuel' =>
      r ← m;
      match r with
      | inl x => mret (inl x)
      | inr e => if e =? EINTR then retry_loop fuel' m else mret (inr e)
      end
  end.
Definition retry_fdatasync (i : nat) : Sys (unit + Z) :=
  λ w, retry_loop (S (length (faults w))) (fdatasync i) w.
Definition retry_fsync (d : path) : Sys (unit + Z) :=
  λ w, retry_loop (S (length (faults w))) (fsync_directory d) w.

Definition sync_directory (directory : path) : Sys (unit + Z) :=
  raw_fd ← open_directory directory;
  match raw_fd with
  | inr e => mret (inr e)
  | inl d => retry_fsync d
  end.

Fixpoint write_all_loop (fuel : nat) (i : nat) (data : bytes) (offset : nat) : Sys (unit + Z) :=
  if (length data <=? offset)%nat then mret (inl tt) else
  match fuel with
  | O => mret (inr EIO)
  | S fuel' =>
      written ← write i (drop offset data);
      match written with
      | inl n => if 0 <? n then write_all_loop fuel' i data (offset + Z.to_nat n)
                 else mret (inr EIO)
      | inr e => if e =? EINTR then write_all_loop fuel' i data offset else mret (inr e)
      end
  end.
Definition write_all (i : nat) (data : bytes) : Sys (unit + Z) :=
  λ w, write_all_loop (S (length (faults w))) i data 0 w.

Fixpoint read_all_loop (fuel : nat) (i : nat) (size offset : nat) (data : bytes)
    : Sys (bytes + Z) :=
  if (size <=? offset)%nat then mret (inl data) else
  match fuel with
  | O => mret (inr EIO)
  | S fuel' =>
      received ← read_fd i offset (size - offset);
      match received with
      | inl [] => mret (inr EIO)
      | inl b => read_all_loop fuel' i size (offset + length b) (data ++ b)
      | inr e => if e =? EINTR then read_all_loop fuel' i size offset data else mret (inr e)
      end
  end.
Definition read_all (i : nat) (size : nat) : Sys (bytes + Z) :=
  λ w, read_all_loop (S (S (length (faults w)))) i size 0 [] w.

Definition ensure_secure_directory (p : path) : Sys (unit + Z) :=
  created ← create_directories p;
  match created with
  | inr e => mret (inr e)
  | inl _ =>
      st ← status p;
      match st with
      | inr e => mret (inr e)
      | inl Dir => chmod p
      | inl _ => mret (inr ENOTDIR)
      end
  end.

(** ** Ownership of paths *)

Fixpoint is_strict_descendant (base candidate : path) : bool :=
  match base, candidate with
  | [], [] => false
  | [], _ :: _ => true
  | _ :: _, [] => false
  | b :: base', c :: candidate' => bool_decide (b = c) && is_strict_descendant base' candidate'
  end.

(** The resolved path, or the status and the system error. *)
Definition resolve_owned_regular_file (base input : path)
    : Sys (path + AlarmSpoolStatus * Z) :=
  input_status ← symlink_status input;
  match input_status with
  | inr e => mret (inr (if e =? ENOENT then SP_NOT_FOUND else SP_IO_ERROR, e))
  | inl (Symlink _ _) => mret (inr (SP_OUTSIDE_ROOT, 0))
  | inl (Reg _) =>
      resolved ← canonical input;
      mret (match resolved with
            | inr e => inr (SP_IO_ERROR, e)
            | inl r => if is_strict_descendant base r then inl r else inr (SP_OUTSIDE_ROOT, 0)
            end)
  | inl _ => mret (inr (SP_INVALID_ARGUMENT, 0))
  end.

(** Whether an allocation goes through. *)
Definition allocate : Sys bool :=
  r ← observe (λ _, inl tt); mret (match r with inl _ => true | inr _ => false end).

(** The frame of a successful [decode_alarm_frame], which never leaves its buffer. *)
Definition decoded_frame (alloc_ok : bool) (data : bytes) : option AlarmFrame :=
  match decode_alarm_frame alloc_ok (Some data) with
  | Some r => if decode_success r then _frame r else None
  | None => None
  end.

Definition is_alarm (f : option AlarmFrame) : bool :=
  match f with Some f => bool_decide (_ftype f = ALARM) | None => false end.

Section Spool.
Context `{DirOrder} (pid : Z).

(** ** Scanning *)

Definition scan_fail (result : ScanResult) (e : Z) : ScanResult :=
  mkScan false (_files result) (_bytes result) (_first result) e.

Definition path_lt (p q : path) : bool := negb (bytes_le (native q) (native p)).

(** One round of the loop: the next result, or the result returned at once. *)
Definition scan_entry (result : ScanResult) (p : path) : Sys (ScanResult + ScanResult) :=
  st ← symlink_status p;
  match st with
  | inl (Reg _) =>
      size ← file_size p;
      mret (match size with
            | inr e => inr (scan_fail result e)
            | inl raw_size =>
                if UINT64_MAX <? raw_size then inr (scan_fail result EOVERFLOW)
                else if UINT64_MAX - raw_size <? _bytes result
                     then inr (scan_fail result EOVERFLOW)
                     else inl (mkScan true (u64 (_files result + 1))
                                 (u64 (_bytes result + raw_size))
                                 (match _first result with
                                  | None => Some p
                                  | Some q => if path_lt p q then Some p else Some q
                                  end) 0)
            end)
  | _ => mret (inl result)
  end.

Fixpoint scan_loop (result : ScanResult) (paths : list path) : Sys ScanResult :=
  match paths with
  | [] => mret result
  | p :: rest =>
      r ← scan_entry result p;
      match r with
      | inr result' => mret result'
      | inl result' =>
          a ← advance;
          match a with
          | inr e => mret (scan_fail result' e)
          | inl _ => scan_loop result' rest
          end
      end
  end.

Definition scan_regular_files (directory : path) : Sys ScanResult :=
  let result := mkScan true 0 0 None 0 in
  r ← descendants_of directory;
  match r with
  | inr e => mret (scan_fail result e)
  | inl paths => scan_loop result paths
  end.

(** ** Quarantine *)

(** The round that found a free name. *)
Definition move_file (source target corrupt_directory : path) : Sys (path + Z) :=
  r ← rename source target;
  match r with
  | inr e => mret (inr e)
  | inl _ =>
      s1 ← sync_directory corrupt_directory;
      match s1 with
      | inr e => mret (inr e)
      | inl _ =>
          s2 ← sync_directory (parent_path source);
          mret (match s2 with inr e => inr e | inl _ => inl target end)
      end
  end.

Fixpoint move_loop (n : nat) (suffix : Z) (source corrupt_directory : path) : Sys (path + Z) :=
  match n with
  | O => mret (inr EEXIST)
  | S n' =>
      let name := filename source ++ (if suffix =? 0 then [] else literal "." ++ to_string suffix) in
      let target := corrupt_directory ++ [name] in
      e ← exists_ target;
      match e with
      | inl true => move_loop n' (suffix + 1) source corrupt_directory
      | _ => move_file source target corrupt_directory
      end
  end.

Definition move_to_corrupt (source corrupt_directory : path) : Sys (path + Z) :=
  move_loop 1000 0 source corrupt_directory.

(** ** Construction *)

Definition new_spool (config : AlarmSpoolConfig) : AlarmSpool :=
  mkSpool config [] [] [] [] false SP_NOT_READY 0 0.

Definition set_setup (s : AlarmSpool) (ready : bool) (status : AlarmSpoolStatus) (error : Z)
    : AlarmSpool :=
  mkSpool (_sconfig s) (_sroot s) (_data_directory s) (_tmp_directory s) (_corrupt_directory s)
          ready status error (_temporary_sequence s).

Definition data_name (kind : AlarmSpoolKind) : name :=
  match kind with OUTBOX => literal "pending" | _ => literal "accepted" end.

Definition set_directories (s : AlarmSpool) (root : path) : AlarmSpool :=
  mkSpool (_sconfig s) root (root ++ [data_name (_kind (_sconfig s))])
          (root ++ [literal "tmp"]) (root ++ [literal "corrupt"])
          (_ready s) (_setup_status s) (_setup_error s) (_temporary_sequence s).

(** The leftovers of [tmp/]: [None] is a [filesystem_error] thrown by the
    iterator, [Some (inr e)] an error that ends the construction. *)
Fixpoint recover_loop (entries : list path) (corrupt_directory : path)
    : Sys (option (unit + Z)) :=
  match entries with
  | [] => mret (Some (inl tt))
  | entry :: rest =>
      let next := a ← advance;
                  match a with
                  | inr _ => mret None
                  | inl _ => recover_loop rest corrupt_directory
                  end in
      st ← symlink_status entry;
      match st with
      | inr e => mret (Some (inr e))
      | inl (Reg _) =>
          moved ← move_to_corrupt entry corrupt_directory;
          match moved with
          | inr e => mret (Some (inr e))
          | inl _ => next
          end
      | inl _ => next
      end
  end.

Definition recover_tmp (s : AlarmSpool) : Sys (option AlarmSpool) :=
  r ← children_of (_tmp_directory s);
  done ← match r with
         | inr _ => mret (Some (inl tt))
         | inl entries => recover_loop entries (_corrupt_directory s)
         end;
  mret (match done with
        | None => None
        | Some (inr e) => Some (set_setup s false SP_IO_ERROR e)
        | Some (inl _) => Some (set_setup s true SP_SUCCESS (_setup_error s))
        end).

Definition initialize (s : AlarmSpool) : Sys (option AlarmSpool) :=
  match _config_root (_sconfig s) with
  | None => mret (Some (set_setup s false SP_INVALID_ARGUMENT 0))
  | Some config_root =>
      if negb (valid_kind (_kind (_sconfig s)))
      then mret (Some (set_setup s false SP_INVALID_ARGUMENT 0)) else
      let fail s e := mret (Some (set_setup s false SP_IO_ERROR e)) in
      r ← ensure_secure_directory config_root;
      match r with inr e => fail s e | inl _ =>
      root ← canonical config_root;
      match root with inr e => fail s e | inl root =>
      let s := set_directories s root in
      r ← ensure_secure_directory (_tmp_directory s);
      match r with inr e => fail s e | inl _ =>
      r ← ensure_secure_directory (_corrupt_directory s);
      match r with inr e => fail s e | inl _ =>
      r ← ensure_secure_directory (_data_directory s);
      match r with inr e => fail s e | inl _ =>
      recover_tmp s
      end end end end end
  end.

(** [AlarmSpool::AlarmSpool]: [None] when the constructor throws. *)
Definition make_spool (config : AlarmSpoolConfig) : Sys (option AlarmSpool) :=
  initialize (new_spool config).

(** ** Operations *)

Definition next_sequence (s : AlarmSpool) : AlarmSpool :=
  mkSpool (_sconfig s) (_sroot s) (_data_directory s) (_tmp_directory s) (_corrupt_directory s)
          (_ready s) (_setup_status s) (_setup_error s) (u64 (_temporary_sequence s + 1)).

Fixpoint open_temporary (attempts : nat) (s : AlarmSpool) : Sys ((path * nat + Z) * AlarmSpool) :=
  match attempts with
  | O => mret (inr EEXIST, s)
  | S attempts' =>
      let s := next_sequence s in
      let temporary_path := _tmp_directory s
        ++ [to_string pid ++ literal "-" ++ to_string (_temporary_sequence s) ++ literal ".tmp"] in
      raw_fd ← open_excl temporary_path;
      match raw_fd with
      | inl i => mret (inl (temporary_path, i), s)
      | inr e => if negb (e =? EEXIST) then mret (inr e, s) else open_temporary attempts' s
      end
  end.

(** From the open temporary to the published file. *)
Definition publish (parent final_path temporary_path : path) (tmp_directory : path) (i : nat)
    (wire : bytes) : Sys AlarmSpoolStoreResult :=
  let fail e := mret (mkStore SP_IO_ERROR None e) in
  let remove_temporary e := _ ← unlink temporary_path; fail e in
  r ← write_all i wire;
  match r with inr e => remove_temporary e | inl _ =>
  r ← retry_fdatasync i;
  match r with inr e => remove_temporary e | inl _ =>
  r ← close;
  match r with inr e => remove_temporary e | inl _ =>
  r ← rename temporary_path final_path;
  match r with inr e => remove_temporary e | inl _ =>
  r1 ← sync_directory parent;
  r ← match r1 with inr e => mret (inr e) | inl _ => sync_directory tmp_directory end;
  match r with
  | inr e => _ ← unlink final_path; _ ← sync_directory parent; fail e
  | inl _ => mret (mkStore SP_SUCCESS (Some final_path) 0)
  end
  end end end end.

(** Admission: the parent directory, the duplicate and the capacity check;
    [inl] is an early return. *)
Definition data_parent (s : AlarmSpool) (source_id : Z) : path :=
  _data_directory s ++ match _kind (_sconfig s) with INBOX => [hex_u64 source_id] | _ => [] end.

Definition check_capacity (s : AlarmSpool) (wire : bytes) : Sys (option AlarmSpoolStoreResult) :=
  if _max_bytes (_sconfig s) =? 0 then mret None else
  scan ← scan_regular_files (_data_directory s);
  mret (if negb (_success scan) then Some (mkStore SP_IO_ERROR None (_scan_error scan))
        else let max_bytes := _max_bytes (_sconfig s) in
             if (max_bytes <? _bytes scan) || (max_bytes - _bytes scan <? ♯wire)
             then Some (mkStore SP_FULL None 0) else None).

Definition admit_file (s : AlarmSpool) (source_id : Z) (message_id wire : bytes)
    : Sys (AlarmSpoolStoreResult + path * path) :=
  let parent := data_parent s source_id in
  r ← match _kind (_sconfig s) with
      | INBOX => ensure_secure_directory parent
      | _ => mret (inl tt)
      end;
  match r with
  | inr e => mret (inl (mkStore SP_IO_ERROR None e))
  | inl _ =>
      let final_path := parent ++ [alarm_filename source_id message_id] in
      already_exists ← exists_ final_path;
      match already_exists with
      | inr e => mret (inl (mkStore SP_IO_ERROR None e))
      | inl true => mret (inl (mkStore SP_DUPLICATE (Some final_path) 0))
      | inl false =>
          full ← check_capacity s wire;
          mret (match full with Some r => inl r | None => inr (parent, final_path) end)
      end
  end.

Definition store (s : AlarmSpool) (source_id : Z) (message_id wire : bytes)
    : Sys (AlarmSpoolStoreResult * AlarmSpool) :=
  let ret st e := mret (mkStore st None e, s) in
  if negb (_ready s) then ret SP_NOT_READY (_setup_error s) else
  if bool_decide (wire = []) || (ALARM_MAX_FRAME_SIZE <? ♯wire)
  then ret SP_INVALID_ARGUMENT 0 else
  alloc_ok ← allocate;
  match decoded_frame alloc_ok wire with
  | Some frame =>
      if negb (is_alarm (Some frame)) then ret SP_INVALID_FRAME 0 else
      if negb (_source_id frame =? source_id) || negb (bool_decide (_message_id frame = message_id))
      then ret SP_INVALID_ARGUMENT 0 else
      admitted ← admit_file s source_id message_id wire;
      match admitted with
      | inl r => mret (r, s)
      | inr (parent, final_path) =>
          opened ← open_temporary 100 s;
          let '(raw_fd, s) := opened in
          match raw_fd with
          | inr e => mret (mkStore SP_IO_ERROR None e, s)
          | inl (temporary_path, i) =>
              r ← publish parent final_path temporary_path (_tmp_directory s) i wire;
              mret (r, s)
          end
      end
  | None => ret SP_INVALID_FRAME 0
  end.

Definition next (s : AlarmSpool) : Sys AlarmSpoolPathResult :=
  if negb (_ready s) then mret (mkPath SP_NOT_READY None (_setup_error s)) else
  scan ← scan_regular_files (_data_directory s);
  mret (if negb (_success scan) then mkPath SP_IO_ERROR None (_scan_error scan)
        else match _first scan with
             | None => mkPath SP_EMPTY None 0
             | Some p => mkPath SP_SUCCESS (Some p) 0
             end).

(** The bytes of an open file when it holds an alarm; [Some None] when it does not. *)
Definition read_checked (h : Node) (regular : bool) (st_size : Z)
    : Sys (option bytes + Z) :=
  if negb regular || (st_size <=? 0) || (ALARM_MAX_FRAME_SIZE <? u64 st_size)
  then mret (inl None) else
  match h with
  | Reg i =>
      r ← read_all i (Z.to_nat st_size);
      match r with
      | inr e => mret (inr e)
      | inl b =>
          alloc_ok ← allocate;
          mret (inl (if is_alarm (decoded_frame alloc_ok b) then Some b else None))
      end
  | _ => mret (inl None)
  end.

Definition read (s : AlarmSpool) (p : path) : Sys AlarmSpoolReadResult :=
  let fail st e := mret (mkRead st None [] e) in
  if negb (_ready s) then fail SP_NOT_READY (_setup_error s) else
  ownership ← resolve_owned_regular_file (_data_directory s) p;
  match ownership with
  | inr (st, e) => fail st e
  | inl resolved =>
      raw_fd ← open_read resolved;
      match raw_fd with
      | inr e => fail SP_IO_ERROR e
      | inl h =>
          metadata ← fstat h;
          match metadata with
          | inr e => fail SP_IO_ERROR e
          | inl (regular, st_size) =>
              checked ← read_checked h regular st_size;
              match checked with
              | inr e => fail SP_IO_ERROR e
              | inl (Some b) => mret (mkRead SP_SUCCESS (Some resolved) b 0)
              | inl None =>
                  _ ← close;
                  moved ← move_to_corrupt resolved (_corrupt_directory s);
                  match moved with
                  | inr e => fail SP_IO_ERROR e
                  | inl corrupt_path => mret (mkRead SP_CORRUPT (Some corrupt_path) [] 0)
                  end
              end
          end
      end
  end.

Definition remove (s : AlarmSpool) (p : path) : Sys AlarmSpoolPathResult :=
  if negb (_ready s) then mret (mkPath SP_NOT_READY None (_setup_error s)) else
  ownership ← resolve_owned_regular_file (_data_directory s) p;
  match ownership with
  | inr (st, e) => mret (mkPath st None e)
  | inl resolved =>
      r ← unlink resolved;
      match r with
      | inr e => mret (mkPath SP_IO_ERROR None e)
      | inl _ =>
          r ← sync_directory (parent_path resolved);
          mret (match r with
                | inr e => mkPath SP_IO_ERROR None e
                | inl _ => mkPath SP_SUCCESS (Some resolved) 0
                end)
      end
  end.

Definition quarantine (s : AlarmSpool) (p : path) : Sys AlarmSpoolPathResult :=
  if negb (_ready s) then mret (mkPath SP_NOT_READY None (_setup_error s)) else
  ownership ← resolve_owned_regular_file (_data_directory s) p;
  match ownership with
  | inr (st, e) => mret (mkPath st None e)
  | inl resolved =>
      moved ← move_to_corrupt resolved (_corrupt_directory s);
      mret (match moved with
            | inr e => mkPath SP_IO_ERROR None e
            | inl target => mkPath SP_SUCCESS (Some target) 0
            end)
  end.

Definition no_stats : AlarmSpoolStats := mkStats 0 0 0 0.

Definition stats (s : AlarmSpool) : Sys AlarmSpoolStatsResult :=
  if negb (_ready s) then mret (mkStatsResult SP_NOT_READY no_stats (_setup_error s)) else
  active ← scan_regular_files (_data_directory s);
  if negb (_success active) then mret (mkStatsResult SP_IO_ERROR no_stats (_scan_error active)) else
  corrupt ← scan_regular_files (_corrupt_directory s);
  mret (if negb (_success corrupt) then mkStatsResult SP_IO_ERROR no_stats (_scan_error corrupt)
        else mkStatsResult SP_SUCCESS
               (mkStats (_files active) (_bytes active) (_files corrupt) (_bytes corrupt)) 0).

End Spool.

(** ** What the wrappers do to the tree *)

Section Wrappers.

Lemma wp_retry n body Q w :
  (∀ w' e, fs w' = fs w → Q (inr e) w') →
  (∀ w', body (fs w) = inl (fs w') → Q (inl tt) w') →
  wp (retry_loop n (change body)) Q w.
Proof.
  intros Hfail Hok. revert w Hfail Hok. induction n as [|n IH]; intros w Hfail Hok.
  { apply wp_ret. by apply Hfail. }
  apply wp_bind, wp_change; [intros w' e Hw|intros w' Hw; by apply wp_ret, Hok].
  destruct (e =? EINTR); [|by apply wp_ret, Hfail]. apply IH; rewrite Hw; auto.
Qed.

Lemma wp_retry_fdatasync i Q w :
  (∀ w' e, fs w' = fs w → Q (inr e) w') →
  (∀ w', fs w' = flush_file i (fs w) → Q (inl tt) w') →
  wp (retry_fdatasync i) Q w.
Proof. intros Hfail Hok. apply wp_retry; [done|]. intros w' [= Hw]. by apply Hok. Qed.

Lemma wp_sync_directory d Q w :
  real_dir (fs w) d →
  (∀ w' e, fs w' = fs w → Q (inr e) w') →
  (∀ w', fs w' = sync_entries d (fs w) → Q (inl tt) w') →
  wp (sync_directory d) Q w.
Proof.
  intros Hd Hfail Hok. apply wp_bind, wp_observe. intros [d'|e] w' Hw Hr.
  - rewrite lookup_path_dir in Hr by done.
    destruct Hd as (_ & _ & Hd). rewrite Hd in Hr. injection Hr as <-.
    apply wp_retry; rewrite Hw; [done|]. intros w'' [= Hw'']. by apply Hok.
  - by apply wp_ret, Hfail.
Qed.

(** [g] is [f] after writes of [b] at the end of file [i]. *)
Definition wrote (i : nat) (b : bytes) (f g : FS) : Prop :=
  (g = f ∧ b = []) ∨ g = set_content i (content f i ++ b) f.

Lemma set_content_twice i b c f : set_content i c (set_content i b f) = set_content i c f.
Proof.
  unfold set_content. cbn. f_equal; [by rewrite insert_insert_eq|]. apply leibniz_equiv. set_solver.
Qed.

Lemma content_set_content i b f : content (set_content i b f) i = b.
Proof. unfold content. cbn. by rewrite lookup_insert_eq. Qed.

Lemma wrote_snoc i b c f g : wrote i b f g → wrote i (b ++ c) f (set_content i (content g i ++ c) g).
Proof.
  intros [[-> ->]| ->]; right; [done|]. by rewrite set_content_twice, content_set_content, app_assoc.
Qed.

Lemma wrote_evolves A N i b f g : (N <= i)%nat → wrote i b f g → evolves A N f g.
Proof. intros Hi [[-> _]| ->]; auto with fs. Qed.

Lemma limit_le n size : (limit n size <= size)%nat.
Proof. destruct n; cbn; lia. Qed.

Lemma wp_write_all_loop fuel i data : ∀ offset f0 b0 w,
  wrote i b0 f0 (fs w) → b0 = take offset data →
  wp (write_all_loop fuel i data offset)
     (λ r w', ∃ b, wrote i b f0 (fs w') ∧ (r = inl tt → b = data)) w.
Proof.
  induction fuel as [|fuel IH]; intros offset f0 b0 w Hw Hb0; cbn [write_all_loop];
    (case_match eqn:El; [apply Nat.leb_le in El; apply wp_ret; exists b0; split; [done|];
       intros _; rewrite Hb0; by apply take_ge|apply Nat.leb_gt in El]).
  { apply wp_ret. by exists b0. }
  apply wp_bind, wp_call.
  - intros n l _ _. cbn [fst snd]. set (k := limit n (length (drop offset data))).
    assert (wrote i (take (offset + k) data) f0
              (set_content i (content (fs w) i ++ take k (drop offset data)) (fs w))) as Hw'.
    { rewrite <- take_take_drop, <- Hb0. by apply wrote_snoc. }
    destruct (0 <? Z.of_nat k); [|apply wp_ret; eexists; split; [exact Hw'|done]].
    eapply IH; cbn [fs]; [exact Hw'|]. by rewrite Nat2Z.id.
  - intros e w' Hw' _ _. destruct (e =? EINTR).
    + eapply IH; [by rewrite Hw'|done].
    + apply wp_ret. exists b0. by rewrite Hw'.
Qed.

Lemma wp_write_all i data w :
  wp (write_all i data)
     (λ r w', ∃ b, wrote i b (fs w) (fs w') ∧ (r = inl tt → b = data)) w.
Proof. apply (wp_write_all_loop _ i data 0 (fs w) []); [by left|done]. Qed.

Lemma take_own_length {X} k (l : list X) : take (length (take k l)) l = take k l.
Proof.
  rewrite length_take. destruct (Nat.min_spec k (length l)) as [[? ->]|[? ->]]; [done|].
  by rewrite !take_ge by lia.
Qed.

Lemma wp_read_all_loop fuel i size f : ∀ data w,
  fs w = f → data = take (length data) (content f i) → (length data <= size)%nat →
  wp (read_all_loop fuel i size (length data) data)
     (λ r w', fs w' = f ∧ ∀ b, r = inl b → b = take size (content f i) ∧ length b = size) w.
Proof.
  induction fuel as [|fuel IH]; intros data w Hw Hd Hs; cbn [read_all_loop];
    (case_match eqn:El; [apply Nat.leb_le in El; apply wp_ret; split; [done|];
       intros b [= <-]; assert (length data = size) as Hl by lia; rewrite Hl in Hd; done|]).
  { by apply wp_ret. }
  apply Nat.leb_gt in El. apply wp_bind, wp_call.
  - intros n l _ _. cbn [fst snd]. rewrite Hw. set (k := limit n (size - length data)).
    pose proof (limit_le n (size - length data)).
    set (b := take k (drop (length data) (content f i))).
    assert (length b <= k)%nat by (unfold b; rewrite length_take; lia).
    assert (take (length b) (drop (length data) (content f i)) = b) as Hb
      by apply take_own_length.
    clearbody b. destruct b as [|x b]; [by apply wp_ret|].
    replace (length data + length (x :: b))%nat with (length (data ++ x :: b))
      by by rewrite length_app.
    apply IH; [done| |rewrite length_app; lia].
    by rewrite length_app, <- take_take_drop, <- Hd, Hb.
  - intros e w' Hw' _ _. destruct (e =? EINTR).
    + apply IH; [by rewrite Hw'|done..].
    + apply wp_ret. split; [by rewrite Hw'|done].
Qed.

Lemma wp_read_all i size w :
  wp (read_all i size)
     (λ r w', fs w' = fs w ∧
        ∀ b, r = inl b → b = take size (content (fs w) i) ∧ length b = size) w.
Proof. apply (wp_read_all_loop _ i size (fs w) []); [done..|cbn; lia]. Qed.

Lemma wp_open_excl d n Q w :
  real_dir (fs w) d → plain n →
  (∀ w' e, fs w' = fs w → Q (inr e) w') →
  (∀ w', entries (fs w) !! (d ++ [n]) = None →
     fs w' = set_entry (d ++ [n]) (Some (Reg (next_inode (fs w)))) (new_file (fs w)) →
     Q (inl (next_inode (fs w))) w') →
  wp (open_excl (d ++ [n])) Q w.
Proof.
  intros Hd Hn Hfail Hok. apply wp_call; [|by eauto]. intros k l _ _.
  rewrite locate_child, node_app by done.
  destruct (entries (fs w) !! (d ++ [n])) eqn:E; cbn; [by apply Hfail|by apply Hok].
Qed.

(** Unlinking a path that no link can redirect. *)
Lemma wp_unlink d n Q w :
  real_dir (fs w) d → plain n →
  (∀ w' e, fs w' = fs w → Q (inr e) w') →
  (∀ w', entries (fs w) !! (d ++ [n]) ≠ Some Dir →
     fs w' = set_entry (d ++ [n]) None (fs w) → Q (inl tt) w') →
  wp (unlink (d ++ [n])) Q w.
Proof.
  intros Hd Hn Hfail Hok. apply wp_change; [done|]. intros w'.
  rewrite lookup_path_child by done.
  destruct (entries (fs w) !! (d ++ [n])) as [v|] eqn:E; [|done].
  destruct v; cbn iota; rewrite node_app, E; try done; intros [= H]; by apply Hok.
Qed.

(** Renaming a file to a name in another real directory. *)
Lemma wp_rename d n d' n' Q w :
  real_dir (fs w) d → plain n → real_dir (fs w) d' → plain n' → d ++ [n] ≠ d' ++ [n'] →
  (∀ w' e, fs w' = fs w → Q (inr e) w') →
  (∀ v w', entries (fs w) !! (d ++ [n]) = Some v → v ≠ Dir →
     entries (fs w) !! (d' ++ [n']) ≠ Some Dir →
     fs w' = set_entry (d ++ [n]) None (set_entry (d' ++ [n']) (Some v) (fs w)) →
     Q (inl tt) w') →
  wp (rename (d ++ [n]) (d' ++ [n'])) Q w.
Proof.
  intros Hd Hn Hd' Hn' Hne Hfail Hok. apply wp_change; [done|]. intros w'.
  rewrite lookup_path_child, locate_child by done.
  destruct (entries (fs w) !! (d ++ [n])) as [v|] eqn:E; [|done].
  replace (match v with Symlink _ _ => inl (d ++ [n]) | _ => inl (d ++ [n]) end : path + Z)
    with (inl (d ++ [n]) : path + Z) by by destruct v.
  rewrite !node_app, E.
  destruct v as [|i|ab t|]; [done|..];
    destruct (entries (fs w) !! (d' ++ [n'])) as [[| | |]|] eqn:E'; try done;
    rewrite bool_decide_false by done; intros [= H]; eapply Hok; done.
Qed.

End Wrappers.

(** ** Frames on disk *)

Lemma decoded_frame_bytes fr : frame_ok fr → decoded_frame true (frame_bytes fr) = Some fr.
Proof. intros Hf. unfold decoded_frame. rewrite decode_alarm_frame_layout by auto. done. Qed.

Lemma decoded_frame_inv alloc_ok data fr :
  bytes_ok data → decoded_frame alloc_ok data = Some fr → frame_ok fr ∧ data = frame_bytes fr.
Proof.
  intros Hok. unfold decoded_frame.
  destruct (decode_alarm_frame_safe alloc_ok data Hok) as (r & -> & Hr).
  case_decide as Hst; [|by rewrite Hr; case_match].
  destruct Hr as (f & -> & Hf & Hd & _). intros [= <-]. done.
Qed.

Lemma is_alarm_spec fr : is_alarm (Some fr) = true ↔ _ftype fr = ALARM.
Proof. apply bool_decide_eq_true. Qed.
