(* ===== verification/AlarmSpoolSafety.v ===== *)
(** Crash consistency of the alarm spool: whatever system calls fail and whenever
    the power goes, the data directory holds complete alarms only, a stored alarm
    survives, and nothing outside the spool is touched. *)

From Stdlib Require Import String.
From S2P Require Import Prelude AlarmProtocol FileSystem AlarmSpool.
#[local] Open Scope tlss_scope.

(** ** Published alarms *)

Definition data_dir (root : path) (kind : AlarmSpoolKind) : path := root ++ [data_name kind].

(** The file of an alarm. *)
Definition alarm_dir (root : path) (kind : AlarmSpoolKind) (source_id : Z) : path :=
  data_dir root kind ++ match kind with INBOX => [hex_u64 source_id] | _ => [] end.
Definition alarm_path (root : path) (kind : AlarmSpoolKind) (fr : AlarmFrame) : path :=
  alarm_dir root kind (_source_id fr) ++ [alarm_filename (_source_id fr) (_message_id fr)].

(** File [i] holds, durably, exactly the alarm its path [p] names. *)
Definition published (root : path) (kind : AlarmSpoolKind) (f : FS) (p : path) (i : nat) : Prop :=
  i ∉ unflushed f ∧
  ∃ fr, frame_ok fr ∧ _ftype fr = ALARM ∧ contents f !! i = Some (frame_bytes fr)
        ∧ p = alarm_path root kind fr.

(** On the way to the root of the spool, or below it. *)
Definition on_path (root p : path) : Prop := p `prefix_of` root ∨ is_inside root p.

(** The disk, now and after any power failure, holds no links in or above the
    spool and only published alarms in its data directory. *)
Record disk_ok (root : path) (kind : AlarmSpoolKind) (f : FS) : Prop := {
  disk_wf : fs_wf f;
  disk_links p v : on_path root p → v ∈ possible f p → ¬ is_symlink v;
  disk_published p i : is_inside (data_dir root kind) p → Some (Reg i) ∈ possible f p →
    published root kind f p i
}.

(** ** Insideness *)

Lemma inside_app d n r : is_inside d (d ++ n :: r).
Proof. by exists n, r. Qed.

Lemma inside_weaken d e p : is_inside (d ++ e) p → is_inside d p.
Proof.
  intros (n & r & ->). rewrite <- app_assoc. destruct e; [by exists n, r|]. eexists _, _. done.
Qed.

Lemma inside_child_ne root a b p : a ≠ b → is_inside (root ++ [a]) p → ¬ is_inside (root ++ [b]) p.
Proof.
  intros Hab (n & r & ->) (m & q & He). rewrite <- !app_assoc in He. apply app_inv_head in He.
  by injection He.
Qed.

Lemma not_inside_self root a : ¬ is_inside (root ++ [a]) (root ++ [a]).
Proof. intros (n & r & He). apply (f_equal length) in He. rewrite !length_app in He. cbn in He. lia. Qed.

Lemma alarm_path_inside root kind fr : is_inside (data_dir root kind) (alarm_path root kind fr).
Proof. unfold alarm_path, alarm_dir. rewrite <- app_assoc. destruct kind; apply inside_app. Qed.

(** ** Preservation *)

Lemma published_evolves root kind A f g p i :
  evolves A (next_inode f) f g → (i < next_inode f)%nat →
  published root kind f p i → published root kind g p i.
Proof.
  intros E Hi (Hf & fr & Hok & Ht & Hc & Hp). split; [by eapply ev_flushed|].
  exists fr. by rewrite (ev_contents _ _ _ _ E).
Qed.

(** What a call may write inside the spool. *)
Definition allowed (root : path) (kind : AlarmSpoolKind) (g : FS) (p : path) (v : option Node) : Prop :=
  on_path root p ∧ ¬ is_symlink v ∧
  ∀ i, v = Some (Reg i) → is_inside (data_dir root kind) p → published root kind g p i.

Lemma disk_ok_evolves root kind A f g :
  disk_ok root kind f → evolves A (next_inode f) f g →
  (∀ p v, A p v → allowed root kind g p v) → disk_ok root kind g.
Proof.
  intros [Hwf Hl Hp] E HA. split.
  - by eapply ev_wf.
  - intros p v Hin [Hv|Hv]%(ev_possible _ _ _ _ E); [by eapply Hl|by eapply HA].
  - intros p i Hin [Hv|Hv]%(ev_possible _ _ _ _ E).
    + eapply published_evolves; [done|by eapply wf_inodes|by eapply Hp].
    + by eapply HA.
Qed.

Lemma crash_possible f g p v : crash f g → v ∈ possible g p → v ∈ possible f p ∨ v = None.
Proof.
  intros C. unfold possible at 1. rewrite (crash_unsynced _ _ C), lookup_empty. cbn.
  intros ->%list_elem_of_singleton. pose proof (crash_entry _ _ C p) as He.
  case_decide; [by left|by right].
Qed.

Lemma crash_wf f g : fs_wf f → crash f g → fs_wf g.
Proof.
  intros Hwf C. split.
  - intros p v [?|?]%(crash_possible _ _ _ _ C); [by eapply wf_plain|done].
  - intros p v Hv. pose proof (crash_entry _ _ C p) as He. case_decide; [done|]. by rewrite Hv in He.
  - intros p i [?|?]%(crash_possible _ _ _ _ C); [|done].
    rewrite (crash_inodes _ _ C). by eapply wf_inodes.
Qed.

Lemma crash_disk_ok root kind f g : disk_ok root kind f → crash f g → disk_ok root kind g.
Proof.
  intros [Hwf Hl Hp] C. split.
  - by eapply crash_wf.
  - intros p v Hin [?| ->]%(crash_possible _ _ _ _ C); [by eapply Hl|by intros []].
  - intros p i Hin [Hv|?]%(crash_possible _ _ _ _ C); [|done].
    destruct (Hp p i Hin Hv) as (Hu & fr & Hok & Ht & Hc & Hpath). split.
    + rewrite (crash_unflushed _ _ C). set_solver.
    + exists fr. by rewrite (crash_flushed _ _ C).
Qed.

(** ** Calls on the directories of the spool *)

Lemma is_strict_descendant_inside base p : is_strict_descendant base p = true ↔ is_inside base p.
Proof.
  unfold is_inside. revert p. induction base as [|b base IH]; intros [|c p]; cbn.
  - split; [done|naive_solver].
  - split; [eauto|done].
  - split; [done|naive_solver].
  - rewrite andb_true_iff, bool_decide_eq_true, IH. naive_solver.
Qed.

(** When the last component is no link, following it makes no difference. *)
Lemma resolve_follow f links : ∀ at_ rest q,
  resolve links false f at_ rest = inl q → ¬ is_symlink (node f q) →
  resolve links true f at_ rest = inl q.
Proof.
  induction links as [links IH] using lt_wf_ind. intros at_ rest. revert at_.
  induction rest as [|n rest IHr]; intros at_ q; [by rewrite !resolve_nil|].
  rewrite !resolve_cons. destruct (node f at_) as [[]|]; try done.
  case_bool_decide; [apply IHr|]. case_bool_decide; [apply IHr|].
  destruct (entries f !! (at_ ++ [n])) as [[|i|ab t|]|] eqn:E; try apply IHr; [|done].
  rewrite andb_false_r. destruct (bool_decide (rest = []) && negb false).
  - intros [= <-]. rewrite node_app, E. intros []. exact I.
  - destruct links; [done|]. apply IH. lia.
Qed.

Lemma wp_resolve_owned base p Q w :
  fs_wf (fs w) →
  (∀ w' st e, fs w' = fs w → st ≠ SP_SUCCESS → st ≠ SP_CORRUPT → Q (inr (st, e)) w') →
  (∀ w' q i, fs w' = fs w → lookup_path true (fs w) p = inl q → reached (fs w) q →
     entries (fs w) !! q = Some (Reg i) → is_inside base q → Q (inl q) w') →
  wp (resolve_owned_regular_file base p) Q w.
Proof.
  intros Hwf Hfail Hok. apply wp_bind, wp_observe. intros [v|e] w1 Hw1 Hr; [|by apply wp_ret, Hfail; destruct (e =? ENOENT)].
  unfold node_at in Hr.
  destruct (lookup_path false (fs w) p) as [q|] eqn:Eq; [|done].
  destruct (node (fs w) q) as [v'|] eqn:Ev; [|done]. injection Hr as ->.
  destruct v as [|i|ab t|]; try by apply wp_ret, Hfail.
  apply wp_bind, wp_observe. intros [r|e] w2 Hw2 Hr; [|apply wp_ret, Hfail; [by rewrite Hw2|done..]].
  rewrite Hw1 in *.
  assert (lookup_path true (fs w) p = inl q) as Ht by (apply resolve_follow; [exact Eq|rewrite Ev; by intros []]).
  rewrite Ht in Hr. injection Hr as <-. apply wp_ret.
  destruct (is_strict_descendant base q) eqn:Ein; [|by apply Hfail].
  apply is_strict_descendant_inside in Ein.
  eapply (Hok w2 q i); [done..|by eapply lookup_path_reached| |done].
  destruct q; [|done]. destruct Ein as (? & ? & He). by destruct base.
Qed.

(** New directories on the way to [p]. *)
Definition makes_dirs (f : FS) (p : path) : path → option Node → Prop :=
  λ q v, q `prefix_of` p ∧ v = Some Dir ∧ entries f !! q = None.

Lemma wp_create_directories N : ∀ rest done w,
  Forall plain rest → real_dir (fs w) done →
  (∀ q, q `prefix_of` done ++ rest → ¬ is_symlink (entries (fs w) !! q)) →
  wp (create_directories_from done rest)
     (λ r w', evolves (makes_dirs (fs w) (done ++ rest)) N (fs w) (fs w')
              ∧ (r = inl tt → real_dir (fs w') (done ++ rest))) w.
Proof.
  induction rest as [|n rest IH]; intros done w Hpl Hd Hl; cbn [create_directories_from].
  { apply wp_ret. rewrite app_nil_r. auto with fs. }
  apply Forall_cons in Hpl as [Hn Hpl]. rewrite (cons_middle n done rest), app_assoc in *.
  assert (done ++ [n] `prefix_of` (done ++ [n]) ++ rest) as Hpre by by eexists.
  assert (∀ w' : World, fs w' = fs w → real_dir (fs w) (done ++ [n]) →
    wp (create_directories_from (done ++ [n]) rest) (λ r w'',
      evolves (makes_dirs (fs w) ((done ++ [n]) ++ rest)) N (fs w) (fs w'')
      ∧ (r = inl tt → real_dir (fs w'') ((done ++ [n]) ++ rest))) w') as Hrec.
  { intros w' Hw Hr. rewrite <- Hw. apply IH; rewrite ?Hw; done. }
  assert (node_at true (fs w) (done ++ [n])
          = match entries (fs w) !! (done ++ [n]) with Some v => inl v | None => inr ENOENT end) as Hst.
  { unfold node_at. rewrite lookup_path_child by done. specialize (Hl _ Hpre).
    destruct (entries (fs w) !! (done ++ [n])) as [[]|] eqn:E; try done;
      by rewrite ?node_app, ?E. }
  apply wp_bind, wp_observe. intros [v|e] w1 Hw1 Hr.
  - rewrite Hst in Hr.
    destruct (entries (fs w) !! (done ++ [n])) as [v'|] eqn:E; [|done]. injection Hr as ->.
    destruct v; try (apply wp_ret; rewrite Hw1; by split; [auto with fs|]).
    apply Hrec; [done|]. destruct Hd as (? & ? & ?).
    split; [by apply Forall_app; auto|]. by rewrite ancestors_dirs_app, node_app.
  - destruct (e =? ENOENT); [|apply wp_ret; rewrite Hw1; by split; [auto with fs|]].
    apply wp_bind, wp_change; [intros w2 e' Hw2; apply wp_ret; rewrite Hw2, Hw1; by split; [auto with fs|]|].
    intros w2. rewrite Hw1, locate_child, node_app by done.
    destruct (entries (fs w) !! (done ++ [n])) eqn:E; [done|]. intros [= Hw2].
    assert (evolves (edit (done ++ [n]) (Some Dir)) N (fs w) (fs w2)) as Hev.
    { rewrite <- Hw2. apply set_entry_evolves; [by rewrite E| |done]. eauto. }
    assert (real_dir (fs w2) (done ++ [n])) as Hrd.
    { destruct (evolves_real_dir _ _ _ _ _ Hev Hd) as (? & ? & ?).
      split; [by apply Forall_app; auto|]. rewrite ancestors_dirs_app, node_app.
      split; [done|]. rewrite <- Hw2. apply entries_set_entry. }
    eapply wp_mono; [apply IH; [done..|]|].
    + intros q Hq. destruct (ev_entry _ _ _ _ Hev q) as [->|[_ ->]]; [by apply Hl|by intros []].
    + cbn. intros r w3 [He Hr3]. split; [|done]. eapply evolves_trans.
      * eapply evolves_mono; [|exact Hev]. intros q v [-> ->]. by repeat split.
      * eapply evolves_mono; [|exact He]. intros q v (Hq & -> & Hnone). repeat split; [done|].
        destruct (ev_entry _ _ _ _ Hev q) as [<-|[_ Hq']]; [done|congruence].
Qed.

Lemma wp_ensure_secure_directory N p w :
  Forall plain p → (∀ q, q `prefix_of` p → ¬ is_symlink (entries (fs w) !! q)) →
  wp (ensure_secure_directory p)
     (λ r w', evolves (makes_dirs (fs w) p) N (fs w) (fs w') ∧ (r = inl tt → real_dir (fs w') p)) w.
Proof.
  intros Hp Hl. apply wp_bind. eapply wp_mono.
  { apply (wp_create_directories N p []); [done| |done].
    split; [done|]. by rewrite ancestors_dirs_spec; split; [simpl; lia|]. }
  cbn [app]. intros [[]|e] w1 [Hev Hrd]; [|by apply wp_ret].
  specialize (Hrd eq_refl). apply wp_bind, wp_observe. intros [v|e] w2 Hw2 _.
  - destruct v; try (apply wp_ret; by rewrite Hw2).
    apply wp_observe. intros r w3 Hw3 _. by rewrite Hw3, Hw2.
  - apply wp_ret. by rewrite Hw2.
Qed.

(** Decimal numerals end in a digit. *)
Lemma decimal_loop_app fuel : ∀ v acc, ∃ l, decimal_loop fuel v acc = l ++ acc.
Proof.
  induction fuel as [|fuel IH]; intros v acc; cbn; [by exists []|]. case_match; [by exists [48 + v mod 10]|].
  destruct (IH (v / 10) ((48 + v mod 10) :: acc)) as [l ->]. exists (l ++ [48 + v mod 10]).
  by rewrite <- app_assoc.
Qed.

Lemma plain_last l x : x ≠ 46 → plain (l ++ [x]).
Proof.
  intros Hx. split; intros He; apply (f_equal last) in He; rewrite last_snoc in He; by injection He.
Qed.

Lemma plain_suffix n v : plain (n ++ literal "." ++ to_string v).
Proof.
  change (to_string v) with (if v <? 10 then [48 + v mod 10]
                             else decimal_loop 19 (v / 10) [48 + v mod 10]).
  assert (48 + v mod 10 ≠ 46) by dlia.
  case_match.
  - rewrite (app_assoc n). by apply plain_last.
  - destruct (decimal_loop_app 19 (v / 10) [48 + v mod 10]) as [l ->].
    rewrite !app_assoc. by apply plain_last.
Qed.

(** What moving [source] to a quarantine changes. *)
Definition quarantines (source corrupt : path) (v : option Node) : path → option Node → Prop :=
  λ p u, (p = source ∧ u = None) ∨ (∃ m, plain m ∧ p = corrupt ++ [m] ∧ u = v).

Lemma moved_evolves N f d n c m v :
  real_dir f d → plain n → real_dir f c → plain m → d ≠ c →
  entries f !! (d ++ [n]) = Some v → v ≠ Dir → entries f !! (c ++ [m]) ≠ Some Dir → fs_wf f →
  evolves (quarantines (d ++ [n]) c (Some v)) N f
          (set_entry (d ++ [n]) None (set_entry (c ++ [m]) (Some v) f)).
Proof.
  intros Hd Hn Hc Hm Hne Hv Hnd Hnd' Hwf.
  assert (d ++ [n] ≠ c ++ [m]) as Hdc by (intros [? _]%app_inj_tail; done).
  eapply evolves_trans.
  - eapply evolves_mono; [|apply (set_entry_evolves N f (c ++ [m]) (Some v)); [done|eauto|]].
    + intros p u [-> ->]. right. eauto.
    + intros i [= ->]. eapply wf_inodes; [done|]. rewrite <- Hv. apply entries_possible.
  - eapply evolves_mono; [|apply set_entry_evolves; [|done..]].
    + intros p u [-> ->]. by left.
    + rewrite entries_set_entry_ne by done. rewrite Hv. congruence.
Qed.

(** The premises of a move, shared by its two lemmas. *)
Section Move.
Context (d : path) (n : name) (c : path) (v : Node) (Q : path + Z → World → Prop).
Context (Hn : plain n) (Hdc : d ≠ c) (Hnd : v ≠ Dir).

Record movable (w : World) : Prop := {
  mv_source : real_dir (fs w) d;
  mv_corrupt : real_dir (fs w) c;
  mv_wf : fs_wf (fs w);
  mv_node : entries (fs w) !! (d ++ [n]) = Some v;
  mv_fail w' e : evolves (quarantines (d ++ [n]) c (Some v)) (next_inode (fs w)) (fs w) (fs w') →
    Q (inr e) w';
  mv_ok w' m : evolves (quarantines (d ++ [n]) c (Some v)) (next_inode (fs w)) (fs w) (fs w') →
    plain m → possible (fs w') (d ++ [n]) = [None] → possible (fs w') (c ++ [m]) = [Some v] →
    Q (inl (c ++ [m])) w'
}.

Lemma wp_move_file m w : plain m → movable w → wp (move_file (d ++ [n]) (c ++ [m]) c) Q w.
Proof.
  intros Hm [Hd Hc Hwf Hv Hfail Hok]. unfold move_file. rewrite parent_path_app.
  assert (d ++ [n] ≠ c ++ [m]) as Hne by (intros [? _]%app_inj_tail; done).
  apply wp_bind, wp_rename; [done..| |].
  { intros w2 e Hw2. apply wp_ret, Hfail. rewrite Hw2. auto with fs. }
  intros v' w2 Hv' _ Hnd' Hw2. rewrite Hv in Hv'. injection Hv' as <-.
  pose proof (moved_evolves (next_inode (fs w)) _ d n c m v Hd Hn Hc Hm Hdc Hv Hnd Hnd' Hwf) as Hev.
  rewrite <- Hw2 in Hev.
  apply wp_bind, wp_sync_directory; [by eapply evolves_real_dir|..].
  { intros w3 e Hw3. apply wp_ret, Hfail. by rewrite Hw3. }
  intros w3 Hw3. assert (real_dir (fs w3) d) as Hd3.
  { rewrite Hw3. eapply evolves_real_dir; [apply (sync_entries_evolves no_edit 0)|].
    by eapply evolves_real_dir. }
  apply wp_bind, wp_sync_directory; [done|..].
  { intros w4 e Hw4. apply wp_ret, Hfail. rewrite Hw4, Hw3. eapply evolves_trans; [done|]. auto with fs. }
  intros w4 Hw4. apply wp_ret, Hok; [|done|..].
  - rewrite Hw4, Hw3. do 2 (eapply evolves_trans; [|auto with fs]). done.
  - rewrite Hw4, possible_sync, parent_path_app, decide_True by done.
    rewrite Hw3, Hw2. cbn [sync_entries entries]. by rewrite entries_set_entry.
  - rewrite Hw4, possible_sync, parent_path_app, decide_False by done.
    rewrite Hw3, possible_sync, parent_path_app, decide_True by done.
    rewrite Hw2, entries_set_entry_ne by done. by rewrite entries_set_entry.
Qed.

Lemma movable_same w w' : fs w' = fs w → movable w → movable w'.
Proof. intros Hw [? ? ? ? ? ?]. split; rewrite ?Hw; auto. Qed.

Lemma wp_move_to_corrupt w : movable w → wp (move_to_corrupt (d ++ [n]) c) Q w.
Proof.
  unfold move_to_corrupt. generalize 1000%nat 0. intros k suffix. revert suffix w.
  induction k as [|k IH]; intros suffix w Hw; cbn [move_loop].
  { apply wp_ret. eapply mv_fail; [exact Hw|]. auto with fs. }
  unfold filename. rewrite last_snoc. cbn [default from_option].
  assert (plain (n ++ (if suffix =? 0 then [] else literal "." ++ to_string suffix))) as Hm
    by (case_match; [by rewrite app_nil_r|apply plain_suffix]).
  apply wp_bind, wp_bind, wp_observe. intros r w1 Hw1 _. apply wp_ret.
  pose proof (movable_same _ _ Hw1 Hw) as Hmv. destruct r as [v'|e]; [by apply IH|].
  destruct ((e =? ENOENT) || (e =? ENOTDIR)); by apply wp_move_file.
Qed.
End Move.

(** ** The spool in operation *)

Section Operations.
Context `{DirOrder} (pid : Z).

Definition kind_of (s : AlarmSpool) : AlarmSpoolKind := _kind (_sconfig s).

(** The directories are set up and the disk is in order. *)
Record ready_in (s : AlarmSpool) (f : FS) : Prop := {
  rd_data : _data_directory s = data_dir (_sroot s) (kind_of s);
  rd_tmp : _tmp_directory s = _sroot s ++ [literal "tmp"];
  rd_corrupt : _corrupt_directory s = _sroot s ++ [literal "corrupt"];
  rd_data_dir : real_dir f (_data_directory s);
  rd_tmp_dir : real_dir f (_tmp_directory s);
  rd_corrupt_dir : real_dir f (_corrupt_directory s);
  rd_disk : disk_ok (_sroot s) (kind_of s) f
}.

(** [g] comes after [f]: still in order, and changed below the root only. *)
Definition good (s : AlarmSpool) (f g : FS) : Prop :=
  ready_in s g ∧ evolves (λ p _, is_inside (_sroot s) p) (next_inode f) f g.

Lemma ready_evolves s A f g :
  ready_in s f → evolves A (next_inode f) f g →
  (∀ p v, A p v → allowed (_sroot s) (kind_of s) g p v) → ready_in s g.
Proof.
  intros [? ? ? ? ? ? Hd] E HA. split; try done; try by eapply evolves_real_dir.
  by eapply disk_ok_evolves.
Qed.

Lemma good_refl s f : ready_in s f → good s f f.
Proof. split; auto with fs. Qed.

Lemma good_trans s f g h : good s f g → good s g h → good s f h.
Proof.
  intros [_ E1] [R E2]. split; [done|]. eapply evolves_trans; [exact E1|].
  eapply evolves_le; [|exact E2]. by eapply ev_inodes.
Qed.

Lemma good_step s A f g :
  ready_in s f → evolves A (next_inode f) f g →
  (∀ p v, A p v → is_inside (_sroot s) p ∧ allowed (_sroot s) (kind_of s) g p v) → good s f g.
Proof.
  intros R E HA. split.
  - eapply ready_evolves; [done..|]. intros p v ?. by apply HA.
  - eapply evolves_mono; [|exact E]. intros p v ?. by apply (HA p v).
Qed.

Lemma good_sync s f d : ready_in s f → good s f (sync_entries d f).
Proof. intros R. eapply (good_step s no_edit); auto with fs. by intros ? ? []. Qed.

(** A change in a directory of the spool other than the data directory, or one
    that empties a name. *)
Lemma allowed_none s g p : is_inside (_sroot s) p → allowed (_sroot s) (kind_of s) g p None.
Proof. intros Hp. split; [by right|]. split; [by intros []|done]. Qed.

Lemma allowed_other s g a n v :
  a ≠ data_name (kind_of s) → ¬ is_symlink v →
  is_inside (_sroot s) (_sroot s ++ [a] ++ [n]) ∧
  allowed (_sroot s) (kind_of s) g (_sroot s ++ [a] ++ [n]) v.
Proof.
  intros Ha Hv. assert (is_inside (_sroot s) (_sroot s ++ [a] ++ [n])) as Hin by by eexists _, _.
  split; [done|]. split; [by right|]. split; [done|]. intros i _ Hd. exfalso.
  eapply inside_child_ne; [exact Ha| |exact Hd]. rewrite app_assoc. apply inside_app.
Qed.

Lemma tmp_not_data kind : literal "tmp" ≠ data_name kind.
Proof. by destruct kind. Qed.
Lemma corrupt_not_data kind : literal "corrupt" ≠ data_name kind.
Proof. by destruct kind. Qed.

(** Scanning changes nothing. *)
Lemma scan_loop_fs result paths w : wp (scan_loop result paths) (λ _ w', fs w' = fs w) w.
Proof.
  revert result w. induction paths as [|p paths IH]; intros result w; cbn [scan_loop]; [by apply wp_ret|].
  assert (∀ r w', fs w' = fs w → wp (a ← advance;
    match a with inr e => mret (scan_fail r e) | inl _ => scan_loop r paths end)
    (λ _ w', fs w' = fs w) w') as Hnext.
  { intros r w' Hw. apply wp_bind, wp_change.
    - intros w2 e Hw2. apply wp_ret. by rewrite Hw2.
    - intros w2 [= Hw2]. eapply wp_mono; [apply IH|]. cbn. intros _ w3 ->. by rewrite <- Hw2. }
  apply wp_bind, wp_bind, wp_observe. intros r w1 Hw1 _.
  destruct r as [[| | |]|]; try by apply wp_ret, Hnext.
  apply wp_bind, wp_observe. intros size w2 Hw2 _. apply wp_ret. rewrite Hw1 in Hw2.
  destruct size as [raw|e]; [|by apply wp_ret]. case_match; [by apply Hnext|by apply wp_ret].
Qed.

Lemma scan_fs d w : wp (scan_regular_files d) (λ _ w', fs w' = fs w) w.
Proof.
  apply wp_bind, wp_observe. intros [paths|e] w' Hw _; [|by apply wp_ret].
  rewrite <- Hw. apply scan_loop_fs.
Qed.

(** The bytes of the regular file at [p]. *)
Definition file (f : FS) (p : path) : option bytes :=
  match entries f !! p with Some (Reg i) => contents f !! i | _ => None end.

Lemma file_evolves A f g p :
  fs_wf f → evolves A (next_inode f) f g → (∀ v, ¬ A p v) → file g p = file f p.
Proof.
  intros Hwf E HA. unfold file. destruct (ev_entry _ _ _ _ E p) as [He|He]; [|by edestruct HA].
  rewrite He. destruct (entries f !! p) as [[|i| |]|] eqn:Ei; try done.
  apply (ev_contents _ _ _ _ E). eapply wf_inodes; [done|]. rewrite <- Ei. apply entries_possible.
Qed.

(** *** Quarantine, removal and reading *)

(** A file that an operation was allowed to take. *)
Lemma owned_file s f q i :
  ready_in s f → reached f q → entries f !! q = Some (Reg i) → is_inside (_data_directory s) q →
  ∃ d n, q = d ++ [n] ∧ real_dir f d ∧ plain n ∧ d ≠ _corrupt_directory s
         ∧ is_inside (_sroot s) q.
Proof.
  intros R Hq He Hin. rewrite (rd_data _ _ R) in Hin.
  destruct (reached_parent f q Hq) as (d & n & -> & Hd & Hn); [by intros ->; destruct Hin as (?&?&Hx); destruct (data_dir _ _)|].
  exists d, n. repeat (split; [done|]). split.
  - intros ->. rewrite (rd_corrupt _ _ R) in Hin. eapply inside_child_ne; [|exact Hin|apply inside_app].
    by destruct (kind_of s).
  - by eapply inside_weaken.
Qed.

Lemma good_quarantines s f g d n i :
  ready_in s f → is_inside (_sroot s) (d ++ [n]) →
  evolves (quarantines (d ++ [n]) (_corrupt_directory s) (Some (Reg i))) (next_inode f) f g →
  good s f g.
Proof.
  intros R Hin E. eapply good_step; [done..|]. intros p v [[-> ->]|(m & Hm & -> & ->)].
  - split; [done|by apply allowed_none].
  - rewrite (rd_corrupt _ _ R), <- app_assoc.
    apply allowed_other; [apply corrupt_not_data|by intros []].
Qed.

(** The file [q] is as it was, and so is what a power failure may make of it. *)
Definition untouched (q : path) (f g : FS) : Prop :=
  file g q = file f q ∧ ∀ v, v ∈ possible g q → v ∈ possible f q.

Lemma untouched_evolves A f g q :
  fs_wf f → evolves A (next_inode f) f g → (∀ v, ¬ A q v) → untouched q f g.
Proof.
  intros Hwf E HA. split; [by eapply file_evolves|].
  intros v [?|Hv]%(ev_possible _ _ _ _ E); [done|by edestruct HA].
Qed.

(** The alarms other than [q] are as they were. *)
Definition others_kept (s : AlarmSpool) (q : path) (f g : FS) : Prop :=
  ∀ q', is_inside (_data_directory s) q' → q' ≠ q → untouched q' f g.

Lemma others_kept_quarantines s f g q v :
  ready_in s f → evolves (quarantines q (_corrupt_directory s) v) (next_inode f) f g →
  others_kept s q f g.
Proof.
  intros R E q' Hin Hne. eapply untouched_evolves; [by eapply disk_wf, rd_disk|done|].
  intros u [[? _]|(m & _ & -> & _)]; [done|]. rewrite (rd_data _ _ R), (rd_corrupt _ _ R) in Hin.
  eapply inside_child_ne; [|exact Hin|apply inside_app]. by destruct (kind_of s).
Qed.

(** Quarantining an owned file. *)
Lemma wp_quarantine_owned s q i w :
  ready_in s (fs w) → reached (fs w) q → entries (fs w) !! q = Some (Reg i) →
  is_inside (_data_directory s) q →
  wp (move_to_corrupt q (_corrupt_directory s))
     (λ r w', (good s (fs w) (fs w') ∧ others_kept s q (fs w) (fs w')) ∧ ∀ t, r = inl t →
        possible (fs w') q = [None] ∧ possible (fs w') t = [Some (Reg i)]
        ∧ is_inside (_corrupt_directory s) t) w.
Proof.
  intros R Hq He Hin. destruct (owned_file _ _ _ _ R Hq He Hin) as (d & n & -> & Hd & Hn & Hne & Hroot).
  apply (wp_move_to_corrupt d n _ (Reg i)); [done..|]. split.
  - done.
  - by apply rd_corrupt_dir.
  - by eapply disk_wf, rd_disk.
  - done.
  - intros w' e E. split; [|done]. split; [by eapply good_quarantines|by eapply others_kept_quarantines].
  - intros w' m E Hm H1 H2.
    split; [split; [by eapply good_quarantines|by eapply others_kept_quarantines]|]. intros t [= <-].
    split; [done|]. split; [done|]. apply inside_app.
Qed.

(** At most the file that [p] resolves to is taken. *)
Definition addressed (s : AlarmSpool) (p : path) (f g : FS) : Prop :=
  ∀ q, is_inside (_data_directory s) q → lookup_path true f p ≠ inl q → untouched q f g.

Lemma addressed_same s p f : addressed s p f f.
Proof. by intros q _ _. Qed.

Lemma others_addressed s p q f g :
  lookup_path true f p = inl q → others_kept s q f g → addressed s p f g.
Proof. intros Hl Ho q' Hin Hne. apply Ho; [done|]. intros ->. by apply Hne. Qed.

Lemma idle_addressed s p f : ready_in s f → good s f f ∧ addressed s p f f.
Proof. split; [by apply good_refl|apply addressed_same]. Qed.

(** What [quarantine] promises when it succeeds on [p]. *)
Definition quarantined (s : AlarmSpool) (f g : FS) (p : path) (t : option path) : Prop :=
  ∃ q t' i, lookup_path true f p = inl q ∧ is_inside (_data_directory s) q
    ∧ entries f !! q = Some (Reg i) ∧ t = Some t' ∧ is_inside (_corrupt_directory s) t'
    ∧ possible g q = [None] ∧ possible g t' = [Some (Reg i)].

Lemma wp_quarantine s p w :
  ready_in s (fs w) →
  wp (quarantine s p)
     (λ r w', (good s (fs w) (fs w') ∧ addressed s p (fs w) (fs w')) ∧
        (_pstatus r = SP_SUCCESS → quarantined s (fs w) (fs w') p (_ppath r))) w.
Proof.
  intros R. unfold quarantine. destruct (_ready s); [|apply wp_ret; by split; [apply idle_addressed|]].
  apply wp_bind, wp_resolve_owned; [by eapply disk_wf, rd_disk| |].
  { intros w1 st e Hw1 Hst _. apply wp_ret. rewrite Hw1. split; [by apply idle_addressed|done]. }
  intros w1 q i Hw1 Hl Hq He Hin. apply wp_bind. rewrite <- Hw1 in *.
  eapply wp_mono; [by eapply wp_quarantine_owned|]. cbn.
  intros [t|e] w2 [[Hg Ho] Ht]; apply wp_ret;
    (split; [split; [done|by eapply others_addressed]|]); [|done]. intros _.
  destruct (Ht t eq_refl) as (? & ? & ?). by exists q, t, i.
Qed.

(** What [remove] may do to the file [p] resolves to. *)
Definition removed (s : AlarmSpool) (f g : FS) (p : path) (r : AlarmSpoolPathResult) : Prop :=
  ∃ q i, lookup_path true f p = inl q ∧ is_inside (_data_directory s) q
    ∧ entries f !! q = Some (Reg i) ∧ evolves (edit q None) (next_inode f) f g
    ∧ entries g !! q = None
    ∧ (_pstatus r = SP_SUCCESS → _ppath r = Some q ∧ possible g q = [None]).

Lemma wp_remove s p w :
  ready_in s (fs w) →
  wp (remove s p)
     (λ r w', (good s (fs w) (fs w') ∧ addressed s p (fs w) (fs w')) ∧
        ((fs w' = fs w ∧ _pstatus r ≠ SP_SUCCESS) ∨ removed s (fs w) (fs w') p r)) w.
Proof.
  intros R. unfold remove. destruct (_ready s); [|apply wp_ret; by split; [apply idle_addressed|left]].
  apply wp_bind, wp_resolve_owned; [by eapply disk_wf, rd_disk| |].
  { intros w1 st e Hw1 Hst _. apply wp_ret. rewrite Hw1. split; [by apply idle_addressed|by left]. }
  intros w1 q i Hw1 Hl Hq He Hin. rewrite <- Hw1 in *.
  destruct (owned_file _ _ _ _ R Hq He Hin) as (d & n & -> & Hd & Hn & Hne & Hroot).
  apply wp_bind, wp_unlink; [done..| |].
  { intros w2 e Hw2. apply wp_ret. rewrite Hw2. split; [by apply idle_addressed|by left]. }
  intros w2 Hnd Hw2. rewrite parent_path_app.
  assert (evolves (edit (d ++ [n]) None) (next_inode (fs w1)) (fs w1) (fs w2)) as E
    by (rewrite Hw2; by apply set_entry_evolves).
  assert (good s (fs w1) (fs w2)) as G.
  { eapply good_step; [done..|]. intros p' v [-> ->]. split; [done|by apply allowed_none]. }
  assert (∀ g, evolves (edit (d ++ [n]) None) (next_inode (fs w1)) (fs w1) g →
    addressed s p (fs w1) g) as Had.
  { intros g E'. eapply others_addressed; [done|]. intros q' _ Hq'.
    eapply untouched_evolves; [by eapply disk_wf, rd_disk|done|]. by intros v [? _]. }
  assert (entries (fs w2) !! (d ++ [n]) = None) as Hnone by (rewrite Hw2; apply entries_set_entry).
  apply wp_bind, wp_sync_directory; [by eapply evolves_real_dir|..].
  { intros w3 e Hw3. apply wp_ret. rewrite Hw3. split; [by auto|]. right. by exists (d ++ [n]), i. }
  intros w3 Hw3. apply wp_ret. rewrite Hw3.
  assert (evolves (edit (d ++ [n]) None) (next_inode (fs w1)) (fs w1) (sync_entries d (fs w2))) as E3
    by (eapply evolves_trans; [exact E|auto with fs]).
  split; [split; [by eapply good_trans, good_sync; [|apply G]|by auto]|]. right.
  exists (d ++ [n]), i. do 5 (split; [done|]). intros _. split; [done|].
  by rewrite possible_sync, parent_path_app, decide_True, Hnone by done.
Qed.

(** What [read] returns: the bytes of the alarm that [p] resolves to. *)
Definition read_alarm (s : AlarmSpool) (f : FS) (p : path) (r : AlarmSpoolReadResult) : Prop :=
  ∃ q i fr, lookup_path true f p = inl q ∧ _rdpath r = Some q
    ∧ entries f !! q = Some (Reg i) ∧ contents f !! i = Some (frame_bytes fr)
    ∧ q = alarm_path (_sroot s) (kind_of s) fr ∧ frame_ok fr ∧ _ftype fr = ALARM
    ∧ _rdbytes r = frame_bytes fr.

Lemma wp_read_checked s f q i w :
  fs w = f → published (_sroot s) (kind_of s) f q i →
  wp (read_checked (Reg i) true ♯(content f i))
     (λ r w', fs w' = f ∧ ∀ b, r = inl (Some b) → b = content f i) w.
Proof.
  intros Hw (_ & fr & Hf & Ht & Hc & _). unfold read_checked, content. rewrite Hc.
  cbn [default from_option id]. clear Hf Ht. revert Hc. generalize (frame_bytes fr). intros b Hc.
  match goal with |- wp (if ?c then _ else _) _ _ => destruct c end.
  { apply wp_ret. split; [done|]. by intros ? [=]. }
  apply wp_bind. eapply wp_mono; [apply wp_read_all|].
  rewrite Hw. unfold content. rewrite Hc. cbn [default from_option id].
  intros [b'|e] w1 [Hw1 Hb]; [|by apply wp_ret]. destruct (Hb b' eq_refl) as [-> _].
  apply wp_bind, wp_bind, wp_observe. intros r w2 Hw2 _. apply wp_ret, wp_ret.
  split; [by rewrite Hw2|]. intros b'' [= He]. case_match; [|done]. injection He as <-.
  unfold Zlen. rewrite Nat2Z.id. by rewrite take_ge.
Qed.

Lemma wp_read s p w :
  ready_in s (fs w) →
  wp (read s p)
     (λ r w', (good s (fs w) (fs w') ∧ addressed s p (fs w) (fs w'))
        ∧ (_rdstatus r = SP_SUCCESS → fs w' = fs w ∧ read_alarm s (fs w) p r)
        ∧ (_rdstatus r = SP_CORRUPT → quarantined s (fs w) (fs w') p (_rdpath r))) w.
Proof.
  intros R. unfold read. destruct (_ready s); [|apply wp_ret; by split; [apply idle_addressed|]].
  apply wp_bind, wp_resolve_owned; [by eapply disk_wf, rd_disk| |].
  { intros w1 st e Hw1 ? ?. apply wp_ret. rewrite Hw1. split; [by apply idle_addressed|done]. }
  intros w1 q i Hw1 Hl Hq He Hin.
  assert (∀ w' e, fs w' = fs w → wp (mret (mkRead SP_IO_ERROR None [] e)) (λ r w',
    (good s (fs w) (fs w') ∧ addressed s p (fs w) (fs w')) ∧ (_rdstatus r = SP_SUCCESS → fs w' = fs w ∧ read_alarm s (fs w) p r)
    ∧ (_rdstatus r = SP_CORRUPT → quarantined s (fs w) (fs w') p (_rdpath r))) w') as Hfail.
  { intros w' e Hw'. apply wp_ret. rewrite Hw'. split; [by apply idle_addressed|done]. }
  apply wp_bind, wp_observe. intros [h|e] w2 Hw2 Hh; [|apply Hfail; by rewrite Hw2].
  rewrite Hw1 in *.
  assert (node (fs w) q = Some (Reg i)) as Hnode.
  { destruct (owned_file _ _ _ _ R Hq He Hin) as (d & n & -> & _). by rewrite node_app. }
  assert (h = Reg i) as ->.
  { unfold node_at in Hh. rewrite lookup_path_self, Hnode in Hh by auto. by injection Hh. }
  apply wp_bind, wp_observe. intros [[reg sz]|e] w3 Hw3 Hst; [|apply Hfail; by rewrite Hw3].
  rewrite Hw2 in *. injection Hst as <- <-.
  assert (published (_sroot s) (kind_of s) (fs w) q i) as Hpub.
  { eapply disk_published; [by apply rd_disk|by rewrite <- (rd_data _ _ R)|].
    rewrite <- He. apply entries_possible. }
  apply wp_bind. eapply wp_mono; [by eapply wp_read_checked|].
  intros [[b|]|e] w4 [Hw4 Hb]; [| |by apply Hfail].
  - apply wp_ret. rewrite Hw4. split; [by apply idle_addressed|]. split; [|done]. intros _. split; [done|].
    destruct Hpub as (_ & fr & Hf & Ht & Hc & Hpath). exists q, i, fr. repeat (split; [done|]).
    cbn. rewrite (Hb b eq_refl). unfold content. by rewrite Hc.
  - apply wp_bind, wp_change; [|intros w5 [= Hw5]; symmetry in Hw5]; [intros w5 e5 Hw5|];
      (apply wp_bind; rewrite <- Hw4, <- Hw5 in *; eapply wp_mono; [by eapply wp_quarantine_owned|];
       cbn; intros [t|e] w6 [[Hg Ho] Ht]; apply wp_ret;
       (split; [split; [done|by eapply others_addressed]|]); [|done]; split; [done|];
       intros _; destruct (Ht t eq_refl) as (? & ? & ?); by exists q, t, i).
Qed.

(** *** Storing *)

Lemma plain_ends l k x : x ≠ 46 → plain (l ++ k ++ [x]).
Proof. rewrite app_assoc. apply plain_last. Qed.

Lemma plain_filename source_id message_id : plain (alarm_filename source_id message_id).
Proof.
  unfold alarm_filename. rewrite !app_assoc.
  change (literal ".alarm") with ([46; 97; 108; 97; 114] ++ [109]). by apply plain_ends.
Qed.

Lemma plain_temporary a b : plain (a ++ literal "-" ++ b ++ literal ".tmp").
Proof.
  rewrite !app_assoc. change (literal ".tmp") with ([46; 116; 109] ++ [112]). by apply plain_ends.
Qed.

Lemma length_hex_loop n : ∀ output index value, length (hex_loop n output index value) = length output.
Proof. induction n; intros; cbn; [done|]. by rewrite IHn, length_insert. Qed.

Lemma plain_hex_u64 v : plain (hex_u64 v).
Proof.
  assert (length (hex_u64 v) = 16%nat) as Hl by apply length_hex_loop.
  split; intros He; by rewrite He in Hl.
Qed.

Section Publish.
Context (s : AlarmSpool) (f0 : FS) (fr : AlarmFrame) (nt : name).
Context (R : ready_in s f0) (Hnt : plain nt) (Hfr : frame_ok fr) (Htype : _ftype fr = ALARM).

Let parent := alarm_dir (_sroot s) (kind_of s) (_source_id fr).
Let fname := alarm_filename (_source_id fr) (_message_id fr).
Let final := alarm_path (_sroot s) (kind_of s) fr.
Let temporary := _tmp_directory s ++ [nt].
Let i := next_inode f0.

Context (Hparent : real_dir f0 parent) (Hnew : entries f0 !! final = None).

Lemma final_eq : final = parent ++ [fname].
Proof. done. Qed.

Lemma parent_not_tmp : parent ≠ _tmp_directory s.
Proof.
  rewrite (rd_tmp _ _ R). unfold parent, alarm_dir, data_dir. rewrite <- app_assoc.
  intros He%app_inv_head. by destruct (kind_of s).
Qed.

Lemma temporary_ne : temporary ≠ final.
Proof. rewrite final_eq. intros [He _]%app_inj_tail. by apply parent_not_tmp. Qed.

(** While the temporary is written. *)
Record writing (f : FS) : Prop := {
  wr_ev : evolves (λ p v, p = temporary ∧ (v = None ∨ v = Some (Reg i))) i f0 f;
  wr_tmp : entries f !! temporary = Some (Reg i);
  wr_next : (i < next_inode f)%nat
}.

(** Once the file may have its final name. *)
Definition stores : path → option Node → Prop :=
  λ p v, (p = temporary ∨ p = final) ∧ (v = None ∨ v = Some (Reg i)).

Record stored_in (f : FS) : Prop := {
  so_ev : evolves stores i f0 f;
  so_flushed : i ∉ unflushed f;
  so_content : contents f !! i = Some (frame_bytes fr)
}.

Lemma temporary_allowed f v :
  ¬ is_symlink v → is_inside (_sroot s) temporary ∧ allowed (_sroot s) (kind_of s) f temporary v.
Proof.
  unfold temporary. rewrite (rd_tmp _ _ R), <- app_assoc. apply allowed_other, tmp_not_data.
Qed.

Lemma writing_good f : evolves (λ p v, p = temporary ∧ (v = None ∨ v = Some (Reg i))) i f0 f → good s f0 f.
Proof.
  intros E. eapply good_step; [done..|]. intros p v [-> [-> | ->]]; apply temporary_allowed; by intros [].
Qed.

Lemma stored_good f : stored_in f → good s f0 f.
Proof.
  intros [E Hfl Hc]. assert (published (_sroot s) (kind_of s) f final i) as P
    by (split; [done|by exists fr]). eapply good_step; [done..|]. intros p v [[-> | ->] Hv].
  - apply temporary_allowed. by destruct Hv as [-> | ->]; intros [].
  - pose proof (alarm_path_inside (_sroot s) (kind_of s) fr) as Hin. assert (is_inside (_sroot s) final) by by eapply inside_weaken.
    split; [done|]. split; [by right|]. split; [by destruct Hv as [-> | ->]; intros []|].
    intros j Hj _. destruct Hv as [-> |Hv]; [done|]. rewrite Hv in Hj. by injection Hj as <-.
Qed.

Lemma opened_writing : entries f0 !! temporary = None →
  writing (set_entry temporary (Some (Reg i)) (new_file f0)).
Proof.
  intros Hnone. split; [|apply entries_set_entry|cbn; lia].
  eapply evolves_trans; [by apply new_file_evolves|].
  eapply evolves_mono; [|apply (set_entry_evolves i (new_file f0))]; cbn.
  - intros p v [-> ->]. auto.
  - unfold temporary in Hnone |- *. by rewrite Hnone.
  - intros _ _. eexists _, _. split; [done|]. split; [|done].
    eapply evolves_real_dir; [apply (new_file_evolves no_edit 0); lia|by apply rd_tmp_dir].
  - intros j [= <-]. lia.
Qed.

Lemma writing_wrote f g b : writing f → wrote i b f g → writing g.
Proof.
  intros [E T N] Hw. pose proof (wrote_evolves no_edit i i b f g ltac:(lia) Hw) as E'. split.
  - eapply evolves_trans; [done|]. eapply evolves_mono; [|exact E']. by intros ? ? [].
  - destruct Hw as [[-> _]| ->]; done.
  - pose proof (ev_inodes _ _ _ _ E'). lia.
Qed.

Lemma writing_flush f : writing f → writing (flush_file i f).
Proof.
  intros [E T N]. split; [|done|done]. eapply evolves_trans; [done|]. auto with fs.
Qed.

Lemma writing_dirs f : writing f → real_dir f (_tmp_directory s) ∧ real_dir f parent.
Proof. intros [E _ _]. split; eapply evolves_real_dir; [done|by apply rd_tmp_dir|done..]. Qed.

Lemma writing_unlink f : writing f → good s f0 (set_entry temporary None f).
Proof.
  intros [E T N]. apply writing_good. eapply evolves_trans; [done|].
  eapply evolves_mono; [|apply set_entry_evolves]; [|by rewrite T|done|done].
  intros p v [-> ->]. auto.
Qed.

Lemma writing_final f : writing f → entries f !! final = None.
Proof.
  intros [E _ _]. destruct (ev_entry _ _ _ _ E final) as [->|[He _]]; [done|].
  by destruct temporary_ne.
Qed.

Lemma writing_rename f :
  writing f → i ∉ unflushed f → contents f !! i = Some (frame_bytes fr) →
  stored_in (set_entry temporary None (set_entry final (Some (Reg i)) f)).
Proof.
  intros W Hfl Hc. pose proof W as [E T N].
  destruct (writing_dirs f W) as [Ht Hp]. pose proof (writing_final f W) as Hnf.
  pose proof temporary_ne as Hne. split.
  - eapply evolves_trans; [eapply evolves_mono; [|exact E]|].
    { intros p v [-> Hv]. split; auto. }
    eapply evolves_trans.
    + eapply evolves_mono; [|apply (set_entry_evolves i f final (Some (Reg i)))].
      * intros p v [-> ->]. split; auto.
      * by rewrite Hnf.
      * intros u _. exists parent, fname. split; [done|]. split; [done|apply plain_filename].
      * intros j [= <-]. done.
    + eapply evolves_mono; [|apply set_entry_evolves; [|done..]].
      * intros p v [-> ->]. split; auto.
      * rewrite entries_set_entry_ne by done. by rewrite T.
  - done.
  - done.
Qed.

Lemma stored_sync f d : stored_in f → stored_in (sync_entries d f).
Proof. intros [E ? ?]. split; [|done..]. eapply evolves_trans; [done|]. auto with fs. Qed.

Lemma stored_unlink f : stored_in f → entries f !! final ≠ Some Dir → stored_in (set_entry final None f).
Proof.
  intros [E ? ?] Hd. split; [|done..]. eapply evolves_trans; [done|].
  eapply evolves_mono; [|by apply set_entry_evolves]. intros p v [-> ->]. split; auto.
Qed.

Lemma stored_dirs f : stored_in f → real_dir f (_tmp_directory s) ∧ real_dir f parent.
Proof. intros [E _ _]. split; eapply evolves_real_dir; [done|by apply rd_tmp_dir|done..]. Qed.

(** How [publish] may end. *)
Definition publish_post (r : AlarmSpoolStoreResult) (f : FS) : Prop :=
  (_ststatus r = SP_SUCCESS ∧ _stpath r = Some final ∧ stored_in f
     ∧ possible f final = [Some (Reg i)])
  ∨ (_ststatus r = SP_IO_ERROR
     ∧ (evolves (λ p v, p = temporary ∧ (v = None ∨ v = Some (Reg i))) i f0 f ∨ stored_in f)).

(** Giving the temporary up. *)
Lemma wp_remove_temporary e w :
  writing (fs w) →
  wp (_ ← unlink temporary; mret (mkStore SP_IO_ERROR None e)) (λ r w', publish_post r (fs w')) w.
Proof.
  intros W. pose proof W as [E T N]. destruct (writing_dirs _ W) as [Ht _].
  apply wp_bind, wp_unlink; [done..| |].
  - intros w' e' Hw. apply wp_ret. rewrite Hw. right. auto.
  - intros w' _ Hw. apply wp_ret. rewrite Hw. right. split; [done|]. left.
    eapply evolves_trans; [exact E|].
    eapply evolves_mono; [|apply set_entry_evolves]; [|by fold temporary; rewrite T|done|done].
    intros p v [-> ->]. auto.
Qed.

(** The two directory synchronisations after the rename. *)
Lemma wp_publish_sync w :
  stored_in (fs w) → entries (fs w) !! final = Some (Reg i) →
  wp (r1 ← sync_directory parent;
      r ← match r1 with
          | inr e => mret (inr e) | inl _ => sync_directory (_tmp_directory s)
          end;
      match r with
      | inr e => _ ← unlink final; _ ← sync_directory parent; mret (mkStore SP_IO_ERROR None e)
      | inl _ => mret (mkStore SP_SUCCESS (Some final) 0)
      end) (λ r w', publish_post r (fs w')) w.
Proof.
  intros S Hf. pose proof parent_not_tmp as Hpt.
  assert (∀ w' e, stored_in (fs w') → entries (fs w') !! final = Some (Reg i) →
    wp (_ ← unlink final; _ ← sync_directory parent; mret (mkStore SP_IO_ERROR None e))
       (λ r w', publish_post r (fs w')) w') as Hback.
  { clear dependent w. intros w e S Hf. destruct (stored_dirs _ S) as [_ Hp].
    assert (∀ w', stored_in (fs w') →
      wp (_ ← sync_directory parent; mret (mkStore SP_IO_ERROR None e))
         (λ r w', publish_post r (fs w')) w') as Hsync.
    { intros w' S'. destruct (stored_dirs _ S') as [_ Hp'].
      apply wp_bind, wp_sync_directory; [done|..]; intros w2; [intros e2|]; intros Hw2;
        apply wp_ret; right; rewrite Hw2; auto using stored_sync. }
    rewrite final_eq. apply wp_bind, wp_unlink; [done|apply plain_filename|..].
    - intros w2 e2 Hw2. apply Hsync. by rewrite Hw2.
    - intros w2 Hd Hw2. apply Hsync. rewrite Hw2. by apply stored_unlink. }
  destruct (stored_dirs _ S) as [_ Hp]. apply wp_bind, wp_sync_directory; [done|..].
  { intros w1 e Hw1. apply wp_bind, wp_ret. apply Hback; by rewrite Hw1. }
  intros w1 Hw1. assert (stored_in (fs w1)) as S1 by (rewrite Hw1; by apply stored_sync).
  assert (entries (fs w1) !! final = Some (Reg i)) as Hf1 by by rewrite Hw1.
  destruct (stored_dirs _ S1) as [Ht _].
  apply wp_bind, wp_sync_directory; [done|intros w2 e Hw2; apply Hback; by rewrite Hw2|].
  intros w2 Hw2. apply wp_ret. left. split; [done|]. split; [done|]. rewrite Hw2.
  split; [by apply stored_sync|].
  rewrite final_eq, possible_sync, parent_path_app, decide_False by done.
  rewrite Hw1, possible_sync, parent_path_app, decide_True by done. by rewrite <- final_eq, Hf.
Qed.

Lemma wp_publish w :
  writing (fs w) → contents (fs w) !! i = Some [] →
  wp (publish parent final temporary (_tmp_directory s) i (frame_bytes fr))
     (λ r w', publish_post r (fs w')) w.
Proof.
  intros W Hempty. unfold publish. apply wp_bind. eapply wp_mono; [apply wp_write_all|].
  intros r1 w1 (b & Hb & Hr1). pose proof (writing_wrote _ _ _ W Hb) as W1.
  destruct r1 as [[]|e]; [|by apply wp_remove_temporary]. rewrite (Hr1 eq_refl) in Hb.
  assert (contents (fs w1) !! i = Some (frame_bytes fr)) as Hc.
  { destruct Hb as [[_ Hnil]| ->].
    - apply (f_equal Zlen) in Hnil. rewrite frame_bytes_size in Hnil by done.
      pose proof (frame_ok_payload fr Hfr). rewrite Zlen_nil in Hnil. lia.
    - cbn. rewrite lookup_insert_eq. f_equal. unfold content. by rewrite Hempty. }
  apply wp_bind, wp_retry_fdatasync; [intros w2 e Hw2; apply wp_remove_temporary; by rewrite Hw2|].
  intros w2 Hw2. assert (writing (fs w2)) as W2 by (rewrite Hw2; by apply writing_flush).
  apply wp_bind, wp_change; [intros w3 e Hw3; apply wp_remove_temporary; by rewrite Hw3|].
  intros w3 [= Hw3]. rewrite Hw3 in *. destruct (writing_dirs _ W2) as [Ht Hp].
  pose proof temporary_ne as Hne. rewrite final_eq in Hne |- *.
  apply wp_bind, wp_rename; [done..|apply plain_filename|done| |].
  { intros w4 e Hw4. apply wp_remove_temporary. by rewrite Hw4. }
  intros v w4 Hv _ _ Hw4. fold temporary in Hv, Hw4. rewrite (wr_tmp _ W2) in Hv. injection Hv as <-.
  rewrite <- final_eq in *. apply wp_publish_sync.
  - rewrite Hw4. apply writing_rename; [done|rewrite Hw2; cbn; set_solver|by rewrite Hw2].
  - rewrite Hw4, entries_set_entry_ne by done. apply entries_set_entry.
Qed.
End Publish.

(** The spool object after an operation: only its sequence number moves. *)
Definition same_spool (s s' : AlarmSpool) : Prop :=
  _sconfig s' = _sconfig s ∧ _sroot s' = _sroot s ∧ _data_directory s' = _data_directory s
  ∧ _tmp_directory s' = _tmp_directory s ∧ _corrupt_directory s' = _corrupt_directory s
  ∧ _ready s' = _ready s.

Lemma same_spool_refl s : same_spool s s.
Proof. by repeat split. Qed.
Lemma same_spool_trans s t u : same_spool s t → same_spool t u → same_spool s u.
Proof. unfold same_spool. intuition congruence. Qed.
Lemma same_spool_ready s s' f : same_spool s s' → ready_in s f → ready_in s' f.
Proof.
  intros (Hc & Hr & Hd & Ht & Hq & _) [? ? ? ? ? ? ?]. unfold kind_of in *.
  split; unfold kind_of; rewrite ?Hc, ?Hr, ?Hd, ?Ht, ?Hq; done.
Qed.

Lemma wp_open_temporary k : ∀ s Q w,
  real_dir (fs w) (_tmp_directory s) →
  (∀ w' e s', fs w' = fs w → same_spool s s' → Q (inr e, s') w') →
  (∀ w' nt s', same_spool s s' → plain nt →
     entries (fs w) !! (_tmp_directory s ++ [nt]) = None →
     fs w' = set_entry (_tmp_directory s ++ [nt]) (Some (Reg (next_inode (fs w)))) (new_file (fs w)) →
     Q (inl (_tmp_directory s ++ [nt], next_inode (fs w)), s') w') →
  wp (open_temporary pid k s) Q w.
Proof.
  induction k as [|k IH]; intros s Q w Hd Hfail Hok; cbn [open_temporary].
  { apply wp_ret, Hfail; [done|apply same_spool_refl]. }
  assert (same_spool s (next_sequence s)) as Hs by by repeat split.
  apply wp_bind, wp_open_excl; [done|apply plain_temporary|..].
  - intros w' e Hw. case_match; [by apply wp_ret, Hfail|].
    apply IH; rewrite Hw; [done|intros w2 e2 s2 ? ?; eapply Hfail; [done|by eapply same_spool_trans]|].
    intros w2 nt s2 ? ? ? ?. apply Hok; [by eapply same_spool_trans|done..].
  - intros w' Hnone Hw. apply wp_ret. eapply Hok; [done|apply plain_temporary|done..].
Qed.

(** Files in the data directory are alarms. *)
Lemma file_published s f p b :
  ready_in s f → is_inside (_data_directory s) p → file f p = Some b →
  ∃ fr i, frame_ok fr ∧ _ftype fr = ALARM ∧ b = frame_bytes fr
          ∧ p = alarm_path (_sroot s) (kind_of s) fr ∧ entries f !! p = Some (Reg i)
          ∧ contents f !! i = Some b ∧ i ∉ unflushed f.
Proof.
  intros R Hin. unfold file. destruct (entries f !! p) as [[|i| |]|] eqn:Ei; try done. intros Hb.
  destruct (disk_published _ _ _ (rd_disk _ _ R) p i) as (Hu & fr & Hf & Ht & Hc & Hp).
  - by rewrite <- (rd_data _ _ R).
  - rewrite <- Ei. apply entries_possible.
  - rewrite Hc in Hb. injection Hb as <-. by exists fr, i.
Qed.

(** Creating the directory of a source loses no alarm. *)
Lemma file_makes_dirs f g d p :
  fs_wf f → evolves (makes_dirs f d) (next_inode f) f g → file g p = file f p.
Proof.
  intros Hwf E. destruct (ev_entry _ _ _ _ E p) as [He|(_ & Hdir & Hnone)].
  - unfold file. rewrite He. destruct (entries f !! p) as [[|i| |]|] eqn:Ei; try done.
    apply (ev_contents _ _ _ _ E). eapply wf_inodes; [done|]. rewrite <- Ei. apply entries_possible.
  - unfold file. by rewrite Hdir, Hnone.
Qed.

(** Directories on the way to the spool exist already. *)
Lemma real_dir_prefix f d p : real_dir f d → p `prefix_of` d → node f p = Some Dir.
Proof.
  intros (_ & Ha & Hd) [k ->]. destruct k as [|n k]; [by rewrite app_nil_r in Hd|].
  rewrite ancestors_dirs_spec in Ha. rewrite <- (Ha (length p)).
  - by rewrite take_app_length.
  - rewrite length_app. cbn. lia.
Qed.

Lemma makes_dirs_inside s f src q v :
  ready_in s f → q ≠ [] → makes_dirs f (alarm_dir (_sroot s) (kind_of s) src) q v →
  is_inside (_sroot s) q.
Proof.
  intros R Hne (Hp & _ & Hnone). unfold alarm_dir, data_dir in Hp. rewrite <- app_assoc in Hp.
  assert (q `prefix_of` _sroot s → False) as Hout.
  { intros Hq. pose proof (real_dir_prefix _ _ q (rd_tmp_dir _ _ R)) as Hd.
    rewrite (rd_tmp _ _ R) in Hd. destruct q; [done|]. cbn in Hd. rewrite Hnone in Hd.
    discriminate Hd. by apply prefix_app_r. }
  destruct (prefix_weak_total q (_sroot s) _ Hp) as [|[k ->]]; [by eexists|by destruct Hout|].
  destruct k as [|n k]; [destruct Hout; by rewrite app_nil_r|]. apply inside_app.
Qed.

Lemma good_makes_dirs s f g src :
  ready_in s f → evolves (makes_dirs f (alarm_dir (_sroot s) (kind_of s) src)) (next_inode f) f g →
  good s f g.
Proof.
  intros R E. pose proof (disk_wf _ _ _ (rd_disk _ _ R)) as Hwf. pose proof (ev_wf _ _ _ _ E Hwf) as Hwf'.
  assert (evolves (λ q v, is_inside (_sroot s) q ∧ v = Some Dir) (next_inode f) f g) as E'.
  { destruct E as [Ee Ep Ed Ec Ef Ei Ew]. split; auto.
    - intros p. destruct (Ee p) as [?|Hp]; [by left|]. right. pose proof Hp as (_ & Hv & _).
      split; [|done]. eapply makes_dirs_inside; [done| |done].
      eapply (wf_plain _ Hwf' p Dir). rewrite <- Hv. apply entries_possible.
    - intros p v Hpv. destruct (Ep p v Hpv) as [?|Hp]; [by left|]. right. pose proof Hp as (_ & -> & _).
      split; [|done]. eapply makes_dirs_inside; [done| |done]. by eapply (wf_plain _ Hwf' p Dir). }
  eapply good_step; [done|exact E'|]. intros p v [Hin ->]. split; [done|].
  split; [by right|]. split; [by intros []|done].
Qed.

Lemma prefix_on_path s f src q :
  ready_in s f → q `prefix_of` alarm_dir (_sroot s) (kind_of s) src →
  ¬ is_symlink (entries f !! q).
Proof.
  intros R Hq. eapply (disk_links _ _ _ (rd_disk _ _ R)); [|apply entries_possible].
  unfold alarm_dir, data_dir in Hq. rewrite <- app_assoc in Hq.
  destruct (prefix_weak_total q (_sroot s) _ Hq) as [|[k ->]]; [by eexists|by left|].
  destruct k as [|n k]; [rewrite app_nil_r; by left|]. right. apply inside_app.
Qed.

Lemma data_parent_eq s f src :
  ready_in s f → data_parent s src = alarm_dir (_sroot s) (kind_of s) src.
Proof. intros R. unfold data_parent. by rewrite (rd_data _ _ R). Qed.

Lemma plain_alarm_dir s f src :
  ready_in s f → Forall plain (alarm_dir (_sroot s) (kind_of s) src).
Proof.
  intros R. unfold alarm_dir. apply Forall_app. split.
  - rewrite <- (rd_data _ _ R). by apply (rd_data_dir _ _ R).
  - destruct (kind_of s); repeat constructor; apply plain_hex_u64.
Qed.

Definition io_failure (r : AlarmSpoolStoreResult) : Prop :=
  _ststatus r ≠ SP_SUCCESS ∧ _ststatus r ≠ SP_DUPLICATE.

(** What [admit_file] establishes. *)
Definition admit_post (s : AlarmSpool) (f : FS) (src : Z) (mid : bytes)
    (a : AlarmSpoolStoreResult + path * path) (g : FS) : Prop :=
  let parent := alarm_dir (_sroot s) (kind_of s) src in
  let final := parent ++ [alarm_filename src mid] in
  evolves (makes_dirs f parent) (next_inode f) f g ∧
  match a with
  | inl r => io_failure r
             ∨ (_ststatus r = SP_DUPLICATE ∧ _stpath r = Some final ∧ is_Some (entries g !! final)
                ∧ real_dir g parent)
  | inr (p, q) => p = parent ∧ q = final ∧ real_dir g parent ∧ entries g !! final = None
  end.

Lemma wp_check_capacity s wire w :
  wp (check_capacity s wire)
     (λ full w', fs w' = fs w ∧ ∀ r, full = Some r → io_failure r) w.
Proof.
  unfold check_capacity. case_match; [by apply wp_ret|]. apply wp_bind.
  eapply wp_mono; [apply scan_fs|]. cbn. intros scan w1 Hw1. apply wp_ret. split; [done|].
  intros r. repeat case_match; intros [= <-]; by split.
Qed.

Lemma wp_admit_file s src mid wire w :
  ready_in s (fs w) →
  wp (admit_file s src mid wire) (λ a w', admit_post s (fs w) src mid a (fs w')) w.
Proof.
  intros R. unfold admit_file. rewrite (data_parent_eq _ _ _ R).
  set (parent := alarm_dir _ _ _). set (final := parent ++ [alarm_filename src mid]).
  apply wp_bind. eapply (wp_mono _ (λ r w', evolves (makes_dirs (fs w) parent) (next_inode (fs w)) (fs w) (fs w')
    ∧ (r = inl tt → real_dir (fs w') parent))).
  { assert (kind_of s ≠ INBOX → real_dir (fs w) parent) as Hreal.
    { intros Hk. unfold parent, alarm_dir. rewrite <- (rd_data _ _ R).
      destruct (kind_of s); rewrite ?app_nil_r; try by apply rd_data_dir. done. }
    unfold kind_of in Hreal. destruct (_kind (_sconfig s)) eqn:Ek.
    1, 3: apply wp_ret; split; [auto with fs|]; intros _; by apply Hreal.
    apply wp_ensure_secure_directory; [by eapply plain_alarm_dir|].
    intros q. by apply prefix_on_path. }
  intros r w1 [E Hr]. pose proof (good_makes_dirs _ _ _ _ R E) as [R1 _].
  destruct r as [[]|e]; [|apply wp_ret; split; [done|]; left; by split]. specialize (Hr eq_refl).
  apply wp_bind, wp_bind, wp_observe. intros st w2 Hw2 Hst.
  assert (¬ is_symlink (entries (fs w1) !! final)) as Hns.
  { eapply (disk_links _ _ _ (rd_disk _ _ R1)); [|apply entries_possible]. right.
    unfold final, parent, alarm_dir, data_dir. rewrite <- !app_assoc. apply inside_app. }
  assert (node_at true (fs w1) final
          = match entries (fs w1) !! final with Some v => inl v | None => inr ENOENT end) as Hna.
  { unfold node_at, final. rewrite lookup_path_child by (done || apply plain_filename).
    fold final. destruct (entries (fs w1) !! final) as [[]|] eqn:Ef; try done;
      unfold final in *; by rewrite ?node_app, ?Ef. }
  rewrite Hna in Hst. apply wp_ret. destruct st as [v|e].
  { apply wp_ret. rewrite Hw2. split; [done|]. right. do 2 (split; [done|]). split; [|done].
    destruct (entries (fs w1) !! final) as [v'|] eqn:Ef; [|done]. exists v'. exact Ef. }
  destruct ((e =? ENOENT) || (e =? ENOTDIR)) eqn:Et;
    [|apply wp_ret; rewrite Hw2; split; [done|]; left; by split].
  assert (entries (fs w1) !! final = None) as Hnone.
  { destruct Hst as [Hst|Hst]; [by destruct (entries (fs w1) !! final)|].
    unfold tree_error in Hst. by rewrite Et in Hst. }
  apply wp_bind. eapply wp_mono; [apply wp_check_capacity|]. cbn. intros full w3 [Hw3 Hfull].
  apply wp_ret. rewrite Hw3, Hw2. split; [done|]. destruct full as [r|]; [left; by apply Hfull|done].
Qed.

(** How [store] may end: the alarm is published, it was there already, or the
    call failed, having at most left the complete alarm behind. *)
Definition store_post (s : AlarmSpool) (f : FS) (src : Z) (mid wire : bytes)
    (r : AlarmSpoolStoreResult) (g : FS) : Prop :=
  let p := alarm_dir (_sroot s) (kind_of s) src ++ [alarm_filename src mid] in
  good s f g ∧ (∀ q, is_inside (_data_directory s) q → q ≠ p → file g q = file f q) ∧
  match _ststatus r with
  | SP_SUCCESS =>
      ∃ fr i, frame_ok fr ∧ _ftype fr = ALARM ∧ wire = frame_bytes fr ∧ _source_id fr = src
        ∧ _message_id fr = mid ∧ _stpath r = Some p ∧ file f p = None
        ∧ possible g p = [Some (Reg i)] ∧ contents g !! i = Some wire ∧ i ∉ unflushed g
        ∧ real_dir g (parent_path p)
  | SP_DUPLICATE =>
      file g p = file f p ∧ _stpath r = Some p ∧ is_Some (entries g !! p)
      ∧ real_dir g (parent_path p)
  | _ => file g p = file f p ∨ (file f p = None ∧ file g p = Some wire)
  end.

(** Calls that leave the data directory alone. *)
Lemma store_post_idle s f src mid wire r g :
  ready_in s f → g = f → io_failure r → store_post s f src mid wire r g.
Proof.
  intros R -> [H1 H2]. split; [by apply good_refl|]. split; [done|].
  destruct (_ststatus r); try done; by left.
Qed.

(** The published and the abandoned temporary, seen from the data directory. *)
Lemma publish_post_files s f fr nt r g q :
  ready_in s f → plain nt → entries f !! alarm_path (_sroot s) (kind_of s) fr = None →
  publish_post s f fr nt r g → is_inside (_data_directory s) q →
  (q ≠ alarm_path (_sroot s) (kind_of s) fr → file g q = file f q)
  ∧ (q = alarm_path (_sroot s) (kind_of s) fr →
       file g q = file f q ∨ (file f q = None ∧ file g q = Some (frame_bytes fr))).
Proof.
  intros R Hnt Hnew Hpost Hin. pose proof (disk_wf _ _ _ (rd_disk _ _ R)) as Hwf.
  assert (q ≠ _tmp_directory s ++ [nt]) as Hqt.
  { intros ->. rewrite (rd_data _ _ R), (rd_tmp _ _ R) in Hin.
    eapply inside_child_ne; [|exact Hin|apply inside_app]. by destruct (kind_of s). }
  assert (stored_in s f fr nt g →
    (q ≠ alarm_path (_sroot s) (kind_of s) fr → file g q = file f q)
    ∧ (q = alarm_path (_sroot s) (kind_of s) fr →
       file g q = file f q ∨ (file f q = None ∧ file g q = Some (frame_bytes fr)))) as Hstored.
  { intros [E _ Hc]. split; intros Hq.
    - eapply file_evolves; [done..|]. by intros v [[|] _].
    - subst q. unfold file. rewrite Hnew.
      destruct (ev_entry _ _ _ _ E (alarm_path (_sroot s) (kind_of s) fr)) as [->|[_ [-> | ->]]];
        rewrite ?Hnew; auto. }
  destruct Hpost as [(_ & _ & Hs & _)|(_ & [E|Hs])]; try by apply Hstored.
  assert (file g q = file f q) by (eapply file_evolves; [done..|]; by intros v [? _]). auto.
Qed.

(** From the admitted alarm to the end of [store]. *)
Lemma wp_store_publish s f fr w :
  ready_in s f → frame_ok fr → _ftype fr = ALARM →
  let parent := alarm_dir (_sroot s) (kind_of s) (_source_id fr) in
  let final := alarm_path (_sroot s) (kind_of s) fr in
  evolves (makes_dirs f parent) (next_inode f) f (fs w) →
  real_dir (fs w) parent → entries (fs w) !! final = None →
  wp (opened ← open_temporary pid 100 s;
      let '(raw_fd, s0) := opened in
      match raw_fd with
      | inr e => mret (mkStore SP_IO_ERROR None e, s0)
      | inl (temporary_path, i) =>
          r ← publish parent final temporary_path (_tmp_directory s0) i (frame_bytes fr);
          mret (r, s0)
      end)
     (λ rs w', store_post s f (_source_id fr) (_message_id fr) (frame_bytes fr) rs.1 (fs w')
               ∧ same_spool s rs.2) w.
Proof.
  intros R Hfr Ht parent final E Hp Hnew. pose proof (good_makes_dirs _ _ _ _ R E) as [R1 _].
  pose proof (disk_wf _ _ _ (rd_disk _ _ R)) as Hwf.
  assert (∀ q, file (fs w) q = file f q) as Hfiles by (intros q; by eapply file_makes_dirs).
  assert (is_inside (_data_directory s) final) as Hfin
    by (rewrite (rd_data _ _ R); apply alarm_path_inside).
  apply wp_bind, wp_open_temporary; [by apply rd_tmp_dir|..].
  { intros w1 e s' Hw1 Hs. apply wp_ret. split; [|done]. rewrite Hw1.
    split; [by eapply good_makes_dirs|]. split; [by auto|]. left. apply Hfiles. }
  intros w1 nt s' Hs Hnt Hnone Hw1. replace (_tmp_directory s') with (_tmp_directory s)
    by (symmetry; apply Hs).
  pose proof (opened_writing s (fs w) nt R1 Hnt Hnone) as W. rewrite <- Hw1 in W.
  apply wp_bind. eapply wp_mono; [apply wp_publish; try done|].
  { rewrite Hw1. cbn. apply lookup_insert_eq. }
  intros r w2 Hpost. apply wp_ret. split; [|done]. cbn [fst].
  pose proof (λ q, publish_post_files s (fs w) fr nt r (fs w2) q R1 Hnt Hnew Hpost) as Hq.
  assert (good s (fs w) (fs w2)) as G2.
  { destruct Hpost as [(_ & _ & S & _)|(_ & [E2|S])]; [by eapply stored_good|by eapply writing_good|
      by eapply stored_good]. }
  split; [by eapply good_trans; [eapply good_makes_dirs|]|]. split.
  { intros q Hin Hne. rewrite <- Hfiles. by apply Hq. }
  assert (file (fs w) final = None) as Hgone by (unfold file; by rewrite Hnew).
  destruct Hpost as [(-> & Hpath & S & Hposs)|[-> _]].
  - exists fr, (next_inode (fs w)). do 5 (split; [done|]). split; [done|].
    split; [rewrite <- Hfiles; exact Hgone|]. split; [done|].
    split; [by apply (so_content _ _ _ _ _ S)|]. split; [by apply (so_flushed _ _ _ _ _ S)|].
    rewrite parent_path_app. eapply evolves_real_dir; [by apply (proj2 G2)|done].
  - rewrite <- !Hfiles. by apply Hq.
Qed.

Lemma wp_store s src mid wire w :
  ready_in s (fs w) → bytes_ok wire →
  wp (store pid s src mid wire)
     (λ rs w', store_post s (fs w) src mid wire rs.1 (fs w') ∧ same_spool s rs.2) w.
Proof.
  intros R Hok. pose proof (same_spool_refl s) as Hss. unfold store.
  assert (∀ st e w', fs w' = fs w → st ≠ SP_SUCCESS → st ≠ SP_DUPLICATE →
    wp (mret (mkStore st None e, s)) (λ rs w', store_post s (fs w) src mid wire rs.1 (fs w')
      ∧ same_spool s rs.2) w') as Hidle.
  { intros st e w' Hw ? ?. apply wp_ret. split; [|done]. by apply store_post_idle. }
  case_match; [by apply Hidle|]. case_match; [by apply Hidle|].
  apply wp_bind, wp_bind, wp_observe. intros ra w1 Hw1 _. apply wp_ret.
  destruct (decoded_frame _ wire) as [fr|] eqn:Ed; [|by apply Hidle].
  apply decoded_frame_inv in Ed as [Hfr ->]; [|done].
  destruct (is_alarm (Some fr)) eqn:Ea; [|by apply Hidle]. apply is_alarm_spec in Ea. cbn [negb].
  case_match eqn:Eid; [by apply Hidle|]. apply orb_false_iff in Eid as [Es Em].
  ztests. case_bool_decide; [|done]. subst src mid. clear Em.
  apply wp_bind. rewrite <- Hw1 in *. eapply wp_mono; [by apply wp_admit_file|].
  intros a w2 [E Ha]. destruct a as [r|[parent final]].
  - apply wp_ret. split; [|done]. pose proof (disk_wf _ _ _ (rd_disk _ _ R)) as Hwf.
    assert (∀ q, file (fs w2) q = file (fs w1) q) as Hfiles by (intros q; by eapply file_makes_dirs).
    split; [by eapply good_makes_dirs|]. split; [by auto|]. cbn [fst].
    destruct Ha as [[Hn1 Hn2]|(-> & Hp & Hsome & Hrd)].
    + destruct (_ststatus r); try done; by left.
    + split; [done|]. split; [done|]. split; [done|]. by rewrite parent_path_app.
  - destruct Ha as (-> & -> & Hrd & Hnew). by apply wp_store_publish.
Qed.

(** The entry [q] is file [i] now and after any power failure. *)
Definition durable_entry (f : FS) (q : path) (i : nat) : Prop :=
  ∀ v, v ∈ possible f q → v = Some (Reg i).

Lemma durable_entry_now f q i : durable_entry f q i → entries f !! q = Some (Reg i).
Proof. intros Hd. apply Hd, entries_possible. Qed.

Lemma durable_evolves A N f g q i :
  evolves A N f g → (∀ v, A q v → v = Some (Reg i)) → durable_entry f q i → durable_entry g q i.
Proof. intros E HA Hd v [Hv|Hv]%(ev_possible _ _ _ _ E); auto. Qed.

(** Storing an alarm leaves the durable ones durable. *)
Lemma wp_store_durable s src mid wire q i w :
  ready_in s (fs w) → bytes_ok wire → is_inside (_data_directory s) q → durable_entry (fs w) q i →
  wp (store pid s src mid wire) (λ _ w', durable_entry (fs w') q i) w.
Proof.
  intros R Hok Hin Hd. unfold store.
  case_match; [by apply wp_ret|]. case_match; [by apply wp_ret|].
  apply wp_bind, wp_bind, wp_observe. intros ra w1 Hw1 _. apply wp_ret. rewrite <- Hw1 in *.
  destruct (decoded_frame _ wire) as [fr|] eqn:Ed; [|by apply wp_ret].
  apply decoded_frame_inv in Ed as [Hfr ->]; [|done].
  destruct (is_alarm (Some fr)) eqn:Ea; [|by apply wp_ret]. apply is_alarm_spec in Ea. cbn [negb].
  case_match eqn:Eid; [by apply wp_ret|]. apply orb_false_iff in Eid as [Es Em].
  ztests. case_bool_decide; [|done]. subst src mid.
  apply wp_bind. eapply wp_mono; [by apply wp_admit_file|].
  intros a w2 [E Ha]. assert (durable_entry (fs w2) q i) as Hd2.
  { eapply durable_evolves; [exact E| |done]. intros v (_ & _ & Hnone).
    apply durable_entry_now in Hd. by rewrite Hd in Hnone. }
  destruct a as [r|[parent final]]; [by apply wp_ret|]. destruct Ha as (-> & -> & Hrd & Hnew).
  pose proof (good_makes_dirs _ _ _ _ R E) as [R1 _].
  apply wp_bind, wp_open_temporary; [by apply rd_tmp_dir|..].
  { intros w3 e s' Hw3 _. apply wp_ret. by rewrite Hw3. }
  intros w3 nt s' Hs Hnt Hnone Hw3. replace (_tmp_directory s') with (_tmp_directory s)
    by (symmetry; apply Hs).
  pose proof (opened_writing s (fs w2) nt R1 Hnt Hnone) as W. rewrite <- Hw3 in W.
  apply wp_bind. eapply wp_mono; [apply (wp_publish s (fs w2) fr nt); try done|].
  { rewrite Hw3. cbn. apply lookup_insert_eq. }
  intros r w4 Hpost. apply wp_ret.
  assert (q ≠ _tmp_directory s ++ [nt]) as Hqt.
  { intros ->. rewrite (rd_data _ _ R), (rd_tmp _ _ R) in Hin.
    eapply inside_child_ne; [|exact Hin|apply inside_app]. by destruct (kind_of s). }
  assert (q ≠ alarm_path (_sroot s) (kind_of s) fr) as Hqf.
  { intros ->. apply durable_entry_now in Hd2. unfold alarm_path in Hd2. by rewrite Hd2 in Hnew. }
  destruct Hpost as [(_ & _ & [E2 _ _] & _)|(_ & [E2|[E2 _ _]])];
    (eapply durable_evolves; [exact E2| |done]); intros v; [by intros [[|] _]|by intros [? _]|by intros [[|] _]].
Qed.

(** *** Construction *)

Lemma is_inside_dec_spec base p : is_inside_dec base p = true ↔ is_inside base p.
Proof.
  unfold is_inside_dec, is_inside. rewrite andb_true_iff, bool_decide_eq_true, Nat.ltb_lt. split.
  - intros [Ht Hl]. rewrite <- (take_drop (length base) p), Ht.
    destruct (drop (length base) p) as [|n r] eqn:Ed; [|eauto].
    apply (f_equal length) in Ed. rewrite length_drop in Ed. cbn in Ed. lia.
  - intros (n & r & ->). rewrite take_app_length, length_app. cbn. split; [done|lia].
Qed.

Lemma wp_children_of d Q w :
  real_dir (fs w) d → fs_wf (fs w) →
  (∀ w' e, fs w' = fs w → Q (inr e) w') →
  (∀ w' l, fs w' = fs w → (∀ p, p ∈ l → ∃ n, p = d ++ [n] ∧ plain n) → Q (inl l) w') →
  wp (children_of d) Q w.
Proof.
  intros Hd Hwf Hfail Hok. apply wp_observe. intros [l|e] w' Hw Hr; [|by apply Hfail].
  rewrite lookup_path_dir in Hr by done. pose proof Hd as (_ & _ & Hnode). rewrite Hnode in Hr.
  injection Hr as <-. apply Hok; [done|]. intros p. rewrite dir_order_perm.
  intros (q & -> & Hq)%list_elem_of_fmap. apply list_elem_of_filter in Hq as [Hq Hin].
  apply andb_true_iff in Hq as [Hq%is_inside_dec_spec Hpar%bool_decide_eq_true].
  destruct Hq as (n & r & ->). rewrite drop_app_length.
  apply list_elem_of_fmap in Hin as ([p' v] & Hp' & Hv). cbn in Hp'. subst p'.
  apply elem_of_map_to_list in Hv.
  destruct r as [|m r].
  - exists n. split; [done|].
    destruct (wf_plain _ Hwf (d ++ [n]) v) as [_ Hpl]; [rewrite <- Hv; apply entries_possible|].
    apply Forall_app in Hpl as [_ Hpl]. by inversion Hpl.
  - exfalso. apply (f_equal length) in Hpar. unfold parent_path in Hpar.
    destruct (exists_last (l := d ++ n :: m :: r)) as (x & y & Hx); [by destruct d|].
    rewrite Hx in Hpar. rewrite removelast_last in Hpar. apply (f_equal length) in Hx.
    rewrite !length_app in Hx. cbn in Hx. lia.
Qed.

(** What the construction may change. *)
Definition inits (root : path) (kind : AlarmSpoolKind) : path → option Node → Prop := λ p v,
  (v = Some Dir ∧ (p `prefix_of` root ++ [literal "tmp"] ∨ p `prefix_of` root ++ [literal "corrupt"]
                   ∨ p `prefix_of` data_dir root kind))
  ∨ (v = None ∧ ∃ n, p = root ++ [literal "tmp"; n])
  ∨ (¬ is_symlink v ∧ ∃ n, p = root ++ [literal "corrupt"; n]).

Lemma on_path_prefix root x p : p `prefix_of` root ++ [x] → on_path root p.
Proof.
  intros Hp. destruct (prefix_weak_total p root _ Hp) as [|[k ->]]; [by eexists|by left|].
  destruct k as [|n k]; [rewrite app_nil_r; by left|]. right. apply inside_app.
Qed.

Lemma inits_allowed root kind f p v : inits root kind p v → allowed root kind f p v.
Proof.
  intros [[-> Hp]|[[-> (n & ->)]|[Hv (n & ->)]]].
  - split; [|split; [by intros []|done]]. destruct Hp as [|[|]]; by eapply on_path_prefix.
  - split; [right; apply inside_app|]. split; [by intros []|done].
  - split; [right; apply inside_app|]. split; [done|]. intros i _ Hin. exfalso.
    eapply (inside_child_ne root (data_name kind) (literal "corrupt")); [by destruct kind|exact Hin|].
    rewrite (cons_middle (literal "corrupt") root [n]), app_assoc. apply inside_app.
Qed.

(** The disk while the spool is being set up. *)
Definition setting_up (root : path) (kind : AlarmSpoolKind) (f g : FS) : Prop :=
  disk_ok root kind g ∧ evolves (inits root kind) (next_inode f) f g.

Lemma setting_up_step root kind A f g h :
  setting_up root kind f g → evolves A (next_inode g) g h → (∀ p v, A p v → inits root kind p v) →
  setting_up root kind f h.
Proof.
  intros [D E] E' HA. split.
  - eapply disk_ok_evolves; [done..|]. intros p v ?%HA. by apply inits_allowed.
  - eapply evolves_trans; [done|]. eapply evolves_mono; [exact HA|].
    eapply evolves_le; [|done]. by eapply ev_inodes.
Qed.

Lemma wp_recover_loop root kind f : ∀ l w,
  (∀ p, p ∈ l → ∃ n, p = (root ++ [literal "tmp"]) ++ [n] ∧ plain n) →
  setting_up root kind f (fs w) → real_dir (fs w) (root ++ [literal "tmp"]) →
  real_dir (fs w) (root ++ [literal "corrupt"]) →
  wp (recover_loop l (root ++ [literal "corrupt"])) (λ _ w', setting_up root kind f (fs w')
    ∧ ∀ d, real_dir (fs w) d → real_dir (fs w') d) w.
Proof.
  induction l as [|p l IH]; intros w Hl Hs Ht Hc; cbn [recover_loop]; [by apply wp_ret|].
  destruct (Hl p) as (n & -> & Hn); [by left|].
  assert (∀ w', setting_up root kind f (fs w') → (∀ d, real_dir (fs w) d → real_dir (fs w') d) →
    wp (a ← advance; match a with inr _ => mret None
                     | inl _ => recover_loop l (root ++ [literal "corrupt"]) end)
       (λ _ w', setting_up root kind f (fs w') ∧ ∀ d, real_dir (fs w) d → real_dir (fs w') d) w')
    as Hnext.
  { intros w' Hs' Hd'. apply wp_bind, wp_change.
    - intros w2 e Hw2. apply wp_ret. by rewrite Hw2.
    - intros w2 [= Hw2]. eapply wp_mono; [apply IH; rewrite <- ?Hw2; auto|].
      + intros p Hp. apply Hl. by right.
      + cbn. intros _ w3 [? Hd3]. split; [done|]. intros d Hd. apply Hd3. rewrite <- Hw2. auto. }
  apply wp_bind, wp_observe. intros st w1 Hw1 Hst. unfold node_at in Hst.
  rewrite lookup_path_child in Hst by done.
  destruct st as [v|e]; [|apply wp_ret; by rewrite Hw1].
  destruct (entries (fs w) !! ((root ++ [literal "tmp"]) ++ [n])) as [v'|] eqn:Ev; [|done].
  assert (v' = v) as ->.
  { destruct v'; rewrite node_app, Ev in Hst; by injection Hst. }
  destruct v as [|i|ab t|]; try (apply Hnext; by rewrite Hw1).
  rewrite <- Hw1 in *. apply wp_bind.
  eapply (wp_move_to_corrupt _ n _ (Reg i)); [done| |done|].
  { intros [= ?]%app_inv_head. }
  assert (∀ w', evolves (quarantines ((root ++ [literal "tmp"]) ++ [n]) (root ++ [literal "corrupt"])
      (Some (Reg i))) (next_inode (fs w1)) (fs w1) (fs w') → setting_up root kind f (fs w')) as Hq.
  { intros w' E. eapply setting_up_step; [done..|]. intros p v [[-> ->]|(m & _ & -> & ->)].
    - right; left. split; [done|]. exists n. by rewrite <- app_assoc.
    - right; right. split; [by intros []|]. exists m. by rewrite <- app_assoc. }
  split; try done.
  - by eapply disk_wf, (proj1 Hs).
  - intros w2 e E. apply wp_ret. split; [by apply Hq|]. intros d. by eapply evolves_real_dir.
  - intros w2 m E _ _ _. apply Hnext; [by apply Hq|]. intros d. by eapply evolves_real_dir.
Qed.

Lemma wp_ensure_setting root kind f x w :
  setting_up root kind f (fs w) → Forall plain root → plain x →
  x = literal "tmp" ∨ x = literal "corrupt" ∨ x = data_name kind →
  wp (ensure_secure_directory (root ++ [x]))
     (λ r w', setting_up root kind f (fs w') ∧ (∀ d, real_dir (fs w) d → real_dir (fs w') d)
              ∧ (r = inl tt → real_dir (fs w') (root ++ [x]))) w.
Proof.
  intros Hs Hroot Hx Hcase. eapply wp_mono.
  - apply (wp_ensure_secure_directory (next_inode (fs w))).
    + by apply Forall_app; auto.
    + intros q Hq. eapply (disk_links _ _ _ (proj1 Hs)); [by eapply on_path_prefix|apply entries_possible].
  - cbn. intros r w' [E Hr]. split; [|split; [|done]].
    + eapply setting_up_step; [done..|]. intros p v (Hp & -> & _). left. split; [done|].
      destruct Hcase as [-> |[-> | ->]]; auto.
    + intros d. by eapply evolves_real_dir.
Qed.

Lemma wp_ensure_root root kind f w :
  setting_up root kind f (fs w) → Forall plain root →
  wp (ensure_secure_directory root)
     (λ r w', setting_up root kind f (fs w') ∧ (r = inl tt → real_dir (fs w') root)) w.
Proof.
  intros Hs Hroot. eapply wp_mono.
  - apply (wp_ensure_secure_directory (next_inode (fs w))); [done|].
    intros q Hq. eapply (disk_links _ _ _ (proj1 Hs)); [by left|apply entries_possible].
  - cbn. intros r w' [E Hr]. split; [|done].
    eapply setting_up_step; [done..|]. intros p v (Hp & -> & _). left. split; [done|]. left.
    by apply prefix_app_r.
Qed.

Definition setup_post (root : path) (kind : AlarmSpoolKind) (f : FS) (config : AlarmSpoolConfig)
    (o : option AlarmSpool) (g : FS) : Prop :=
  setting_up root kind f g ∧
  ∀ s, o = Some s → _sconfig s = config ∧ (_ready s = true → _sroot s = root ∧ ready_in s g).

Lemma plain_names : plain (literal "tmp") ∧ plain (literal "corrupt") ∧ ∀ k, plain (data_name k).
Proof. split; [done|]. split; [done|]. by intros []. Qed.

Lemma wp_recover_tmp root kind f s w :
  setting_up root kind f (fs w) → kind_of s = kind → _sroot s = root →
  _data_directory s = data_dir root kind → _tmp_directory s = root ++ [literal "tmp"] →
  _corrupt_directory s = root ++ [literal "corrupt"] →
  real_dir (fs w) (_data_directory s) → real_dir (fs w) (_tmp_directory s) →
  real_dir (fs w) (_corrupt_directory s) →
  wp (recover_tmp s) (λ o w', setup_post root kind f (_sconfig s) o (fs w')) w.
Proof.
  intros Hs <- <- Hd Ht Hc Rd Rt Rc. unfold recover_tmp. apply wp_bind, wp_children_of; [done|..].
  { by eapply disk_wf, (proj1 Hs). }
  - intros w1 e Hw1. rewrite <- Hw1 in *. apply wp_bind, wp_ret, wp_ret. split; [done|]. intros s' [= <-]. split; [done|]. intros _. split; [done|].
    split; try done. apply Hs.
  - intros w1 l Hw1 Hl. rewrite <- Hw1 in *. apply wp_bind.
    rewrite Ht, Hc in *. eapply wp_mono; [by eapply wp_recover_loop|]. cbn.
    intros o w2 [Hs2 Hd2]. apply wp_ret. split; [done|]. intros s' Hs'.
    destruct o as [[[]|e]|]; simplify_eq; (split; [done|]); [|done]. intros _. split; [done|].
    split; cbn; rewrite ?Ht, ?Hc; auto. apply Hs2.
Qed.

Lemma wp_make_spool root kind max w :
  Forall plain root → disk_ok root kind (fs w) →
  let config := mkSpoolConfig (Some root) kind max in
  wp (make_spool config) (λ o w', setup_post root kind (fs w) config o (fs w')) w.
Proof.
  intros Hroot Hdisk config. unfold make_spool, initialize. cbn [_sconfig new_spool _config_root config].
  assert (setting_up root kind (fs w) (fs w)) as Hs0 by (split; auto with fs).
  assert (∀ s st e w', _sconfig s = config → setting_up root kind (fs w) (fs w') →
    wp (mret (Some (set_setup s false st e)))
       (λ o w', setup_post root kind (fs w) config o (fs w')) w') as Hfail.
  { intros s st e w' Hc Hs. apply wp_ret. split; [done|]. by intros s' [= <-]. }
  destruct plain_names as (Pt & Pc & Pd).
  case_match; [by apply Hfail|]. apply wp_bind. eapply wp_mono; [by apply wp_ensure_root|].
  intros [[]|e] w1 [Hs1 Hr1]; [|by apply Hfail]. specialize (Hr1 eq_refl).
  apply wp_bind, wp_observe. intros [root'|e] w2 Hw2 Hr2; [|apply Hfail; [done|by rewrite Hw2]].
  rewrite lookup_path_dir in Hr2 by done. injection Hr2 as <-. rewrite <- Hw2 in *. clear Hw2 w1.
  cbn [set_directories _tmp_directory _corrupt_directory _data_directory _sconfig new_spool].
  apply wp_bind. eapply wp_mono; [apply wp_ensure_setting; eauto|].
  intros [[]|e] w3 (Hs3 & Hd3 & Hr3); [|by apply Hfail]. specialize (Hr3 eq_refl).
  apply wp_bind. eapply wp_mono; [apply wp_ensure_setting; eauto|].
  intros [[]|e] w4 (Hs4 & Hd4 & Hr4); [|by apply Hfail]. specialize (Hr4 eq_refl).
  apply wp_bind. eapply wp_mono; [apply wp_ensure_setting; eauto|].
  intros [[]|e] w5 (Hs5 & Hd5 & Hr5); [|by apply Hfail]. specialize (Hr5 eq_refl).
  by apply wp_recover_tmp; cbn; auto.
Qed.

(** The construction keeps every stored alarm. *)
Lemma setting_up_files root kind f g p :
  fs_wf f → setting_up root kind f g → is_inside (data_dir root kind) p → file g p = file f p.
Proof.
  intros Hwf [_ E] Hin. eapply file_evolves; [done..|]. intros v Hv.
  pose proof Hin as (n & r & ->). unfold data_dir in *. rewrite <- app_assoc in *.
  destruct Hv as [[_ Hp]|[[_ (m & He)]|[_ (m & He)]]].
  - assert (∀ x, ¬ (root ++ [data_name kind] ++ n :: r) `prefix_of` (root ++ [x])) as Hno.
    { intros x Hx%prefix_length. rewrite !length_app in Hx. cbn in Hx. lia. }
    unfold data_dir in Hp. destruct Hp as [|[|]]; by eapply Hno.
  - apply app_inv_head in He. by destruct kind.
  - apply app_inv_head in He. by destruct kind.
Qed.
End Operations.
