(* ===== verification/SpoolLifecycle.v ===== *)
(** The alarm spool across its life: construction, operations, the end of the
    process and power failures, in any order and with any failing calls. *)

From Stdlib Require Import String.
From S2P Require Import Prelude AlarmProtocol FileSystem AlarmSpool AlarmSpoolSafety.
#[local] Open Scope tlss_scope.

(** [after L Hrun as H]: the postcondition of [L] for the run [Hrun]. *)
Tactic Notation "after" constr(L) "," hyp(Hrun) "as" simple_intropattern(pat) :=
  let H := fresh in
  pose proof L as H; unfold wp in H; cbv zeta in H; rewrite Hrun in H; cbn [fst snd fs] in H;
  destruct H as pat.

(** ** Calm operation: no call fails *)

Definition calm (f : FS) : World := mkWorld f [] true.

Lemma bind_run {A B} (m : Sys A) (k : A → Sys B) w x w' :
  m w = (x, w') → (m ≫= k) w = k x w'.
Proof. intros H. unfold mbind, Sys_bind. by rewrite H. Qed.

Lemma observe_calm {A} (body : FS → A + Z) f : observe body (calm f) = (body f, calm f).
Proof. done. Qed.

Lemma change_calm (body : FS → FS + Z) f g :
  body f = inl g → change body (calm f) = (inl tt, calm g).
Proof. intros Hb. unfold change, call, calm. cbn [powered faults fs]. by rewrite Hb. Qed.

Lemma read_all_calm f i size :
  length (content f i) = size → read_all i size (calm f) = (inl (content f i), calm f).
Proof.
  intros <-. unfold read_all. cbn [faults calm length]. set (b := content f i).
  assert (read_fd i 0 (length b - 0) (calm f) = (inl b, calm f)) as Hr.
  { unfold read_fd, call. cbn [powered faults fs calm limit]. fold b.
    by rewrite Nat.sub_0_r, drop_0, firstn_all. }
  cbn [read_all_loop]. destruct b as [|x l] eqn:Eb; [done|].
  cbn [length Nat.leb]. rewrite <- Eb in *. rewrite Eb in Hr at 1. cbn [length] in Hr.
  rewrite (bind_run _ _ _ _ _ Hr). rewrite Eb. cbn [Nat.add length app]. by rewrite Nat.leb_refl.
Qed.

Section Calm.
Context `{DirOrder} (pid : Z).

Lemma resolve_owned_calm base f q i :
  fs_wf f → reached f q → entries f !! q = Some (Reg i) → is_inside base q →
  resolve_owned_regular_file base q (calm f) = (inl q, calm f).
Proof.
  intros Hwf Hq He Hin. assert (node f q = Some (Reg i)) as Hn.
  { destruct Hin as (n & r & ->). by destruct base. }
  unfold resolve_owned_regular_file.
  assert (symlink_status q (calm f) = (inl (Reg i), calm f)) as Hst.
  { unfold symlink_status. rewrite observe_calm. unfold node_at.
    by rewrite lookup_path_self, Hn by auto. }
  rewrite (bind_run _ _ _ _ _ Hst).
  assert (canonical q (calm f) = (inl q, calm f)) as Hc.
  { unfold canonical. rewrite observe_calm, lookup_path_self; [done|done|].
    right. rewrite Hn. by intros []. }
  rewrite (bind_run _ _ _ _ _ Hc). apply is_strict_descendant_inside in Hin. by rewrite Hin.
Qed.

(** A stored alarm, ready to be read. *)
Definition holds (s : AlarmSpool) (f : FS) (p : path) (fr : AlarmFrame) (i : nat) : Prop :=
  frame_ok fr ∧ _ftype fr = ALARM ∧ p = alarm_path (_sroot s) (kind_of s) fr
  ∧ entries f !! p = Some (Reg i) ∧ contents f !! i = Some (frame_bytes fr).

Lemma holds_file s f p b :
  ready_in s f → is_inside (_data_directory s) p → file f p = Some b →
  ∃ fr i, holds s f p fr i ∧ b = frame_bytes fr.
Proof.
  intros R Hin Hf. destruct (file_published s f p b R Hin Hf) as (fr & i & ? & ? & -> & ? & ? & ? & ?).
  exists fr, i. by repeat split; try done; apply H0.
Qed.

Lemma holds_reached s f p fr i : ready_in s f → holds s f p fr i → reached f p.
Proof.
  intros R (_ & _ & _ & He & _). pose proof (disk_wf _ _ _ (rd_disk _ _ R)) as Hwf.
  destruct (wf_plain _ Hwf p (Reg i)) as [Hne Hpl]; [rewrite <- He; apply entries_possible|].
  split; [done|]. split; [by eapply wf_tree|]. destruct p; [done|]. by eexists.
Qed.

Lemma read_calm s f p fr i :
  ready_in s f → _ready s = true → holds s f p fr i →
  read s p (calm f) = (mkRead SP_SUCCESS (Some p) (frame_bytes fr) 0, calm f).
Proof.
  intros R Hr Hh. pose proof (holds_reached _ _ _ _ _ R Hh) as Hq.
  pose proof Hh as (Hfr & Ht & Hp & He & Hc). unfold read. rewrite Hr. cbn [negb].
  assert (is_inside (_data_directory s) p) as Hin
    by (rewrite (rd_data _ _ R), Hp; apply alarm_path_inside).
  rewrite (bind_run _ _ _ _ _ (resolve_owned_calm _ _ _ _ (disk_wf _ _ _ (rd_disk _ _ R)) Hq He Hin)).
  assert (node f p = Some (Reg i)) as Hn by (destruct Hin as (n & r & ->); by destruct (_data_directory s)).
  assert (open_read p (calm f) = (inl (Reg i), calm f)) as Ho.
  { unfold open_read. rewrite observe_calm. unfold node_at. by rewrite lookup_path_self, Hn by auto. }
  rewrite (bind_run _ _ _ _ _ Ho).
  assert (content f i = frame_bytes fr) as Hcont by (unfold content; by rewrite Hc).
  assert (fstat (Reg i) (calm f) = (inl (true, ♯(frame_bytes fr)), calm f)) as Hst.
  { unfold fstat. rewrite observe_calm. by rewrite Hcont. }
  rewrite (bind_run _ _ _ _ _ Hst).
  assert (read_checked (Reg i) true ♯(frame_bytes fr) (calm f)
          = (inl (Some (frame_bytes fr)), calm f)) as Hrc.
  { unfold read_checked. pose proof (frame_bytes_size fr Hfr) as Hsz.
    pose proof (frame_ok_payload fr Hfr) as Hpl. cbn [negb orb].
    assert (u64 ♯(frame_bytes fr) = ♯(frame_bytes fr)) as -> by dlia.
    rewrite (proj2 (Z.leb_gt _ _)) by lia.
    rewrite (proj2 (Z.ltb_ge _ _)) by (unfold ALARM_MAX_FRAME_SIZE, ALARM_HEADER_SIZE, ALARM_MAX_PAYLOAD_SIZE; lia).
    cbn [orb]. unfold Zlen. rewrite Nat2Z.id.
    rewrite (bind_run _ _ _ _ _ (read_all_calm f i _ (f_equal length Hcont))). rewrite Hcont.
    rewrite (bind_run allocate _ _ true (calm f)) by done.
    rewrite decoded_frame_bytes by done. by rewrite (proj2 (is_alarm_spec fr)). }
  by rewrite (bind_run _ _ _ _ _ Hrc).
Qed.
End Calm.

(** ** The machine *)

Inductive SpoolOp :=
  | OpStore (source_id : Z) (message_id wire : bytes)
  | OpNext | OpStats
  | OpRead (p : path) | OpRemove (p : path) | OpQuarantine (p : path).

(** Buffers hold bytes. *)
Definition op_ok (o : SpoolOp) : Prop :=
  match o with OpStore _ _ wire => bytes_ok wire | _ => True end.

Record Machine := mkMachine { running : option AlarmSpool; disk : FS; on : bool }.

Section Machine.
Context `{DirOrder} (pid : Z).
Context (root : path) (kind : AlarmSpoolKind) (max_bytes : Z).

Definition machine_config : AlarmSpoolConfig := mkSpoolConfig (Some root) kind max_bytes.

Definition run_op (s : AlarmSpool) (o : SpoolOp) : Sys AlarmSpool :=
  match o with
  | OpStore src mid wire => r ← store pid s src mid wire; mret r.2
  | OpNext => _ ← next s; mret s
  | OpStats => _ ← stats s; mret s
  | OpRead p => _ ← read s p; mret s
  | OpRemove p => _ ← remove s p; mret s
  | OpQuarantine p => _ ← quarantine s p; mret s
  end.

(** The object a construction leaves: none when it threw or is not ready. *)
Definition constructed (o : option AlarmSpool) : option AlarmSpool :=
  match o with Some s => if _ready s then Some s else None | None => None end.

Inductive machine_step : Machine → Machine → Prop :=
  | MStart f fl o w :
      make_spool machine_config (mkWorld f fl true) = (o, w) →
      machine_step (mkMachine None f true) (mkMachine (constructed o) (fs w) (powered w))
  | MOp s f fl o s' w :
      op_ok o → run_op s o (mkWorld f fl true) = (s', w) →
      machine_step (mkMachine (Some s) f true) (mkMachine (Some s') (fs w) (powered w))
  | MExit s f b : machine_step (mkMachine s f b) (mkMachine None f b)
  | MPower s f b f' : crash f f' → machine_step (mkMachine s f b) (mkMachine None f' true).

(** Any number of steps. *)
Definition machine_runs : Machine → Machine → Prop := rtc machine_step.

Record machine_ok (m : Machine) : Prop := {
  mo_disk : disk_ok root kind (disk m);
  mo_running s : running m = Some s →
    _ready s = true ∧ _sconfig s = machine_config ∧ _sroot s = root ∧ ready_in s (disk m)
}.

(** An operation stays on the spool's disk. *)
Lemma wp_run_op s o w :
  op_ok o → ready_in s (fs w) →
  wp (run_op s o) (λ s' w', good s (fs w) (fs w') ∧ same_spool s s') w.
Proof.
  intros Ho R. pose proof (same_spool_refl s) as Hs.
  assert (∀ w', fs w' = fs w → good s (fs w) (fs w') ∧ same_spool s s) as Hidle
    by (intros w' ->; split; [by apply good_refl|done]).
  destruct o as [src mid wire| | |p|p|p]; cbn [run_op]; apply wp_bind.
  - eapply wp_mono; [by apply wp_store|]. intros r w' [[Hg _] Hs']. by apply wp_ret.
  - unfold next. destruct (negb _); [by apply wp_ret, wp_ret, Hidle|].
    apply wp_bind. eapply wp_mono; [apply scan_fs|]. intros r w' Hw. by apply wp_ret, wp_ret, Hidle.
  - unfold stats. destruct (negb _); [by apply wp_ret, wp_ret, Hidle|].
    apply wp_bind. eapply wp_mono; [apply scan_fs|]. intros r w' Hw.
    destruct (negb _); [by apply wp_ret, wp_ret, Hidle|].
    apply wp_bind. eapply wp_mono; [apply scan_fs|]. intros r' w2 Hw2.
    apply wp_ret, wp_ret, Hidle. cbn in *. congruence.
  - eapply wp_mono; [by apply wp_read|]. intros r w' [[Hg _] _]. by apply wp_ret.
  - eapply wp_mono; [by apply wp_remove|]. intros r w' [[Hg _] _]. by apply wp_ret.
  - eapply wp_mono; [by apply wp_quarantine|]. intros r w' [[Hg _] _]. by apply wp_ret.
Qed.

(** Which alarms an operation may touch. *)
Definition spares (s : AlarmSpool) (f : FS) (o : SpoolOp) (q : path) : Prop :=
  match o with
  | OpStore src mid _ => q ≠ alarm_dir (_sroot s) (kind_of s) src ++ [alarm_filename src mid]
  | OpRead p | OpRemove p | OpQuarantine p => lookup_path true f p ≠ inl q
  | OpNext | OpStats => True
  end.

Lemma wp_op_files s o q w :
  op_ok o → ready_in s (fs w) → is_inside (_data_directory s) q → spares s (fs w) o q →
  wp (run_op s o) (λ _ w', file (fs w') q = file (fs w) q) w.
Proof.
  intros Ho R Hin Hq. destruct o as [src mid wire| | |p|p|p]; cbn [run_op spares] in *; apply wp_bind.
  - eapply wp_mono; [by apply wp_store|]. intros r w' [(_ & Hf & _) _]. apply wp_ret. by apply Hf.
  - unfold next. destruct (negb _); [by apply wp_ret, wp_ret|].
    apply wp_bind. eapply wp_mono; [apply scan_fs|]. cbn. intros r w' Hw.
    apply wp_ret, wp_ret. by rewrite Hw.
  - unfold stats. destruct (negb _); [by apply wp_ret, wp_ret|].
    apply wp_bind. eapply wp_mono; [apply scan_fs|]. cbn. intros r w' Hw.
    destruct (negb _); [apply wp_ret, wp_ret; by rewrite Hw|].
    apply wp_bind. eapply wp_mono; [apply scan_fs|]. cbn. intros r' w2 Hw2.
    apply wp_ret, wp_ret. by rewrite Hw2, Hw.
  - eapply wp_mono; [by apply wp_read|]. intros r w' [[_ Ha] _]. apply wp_ret. by apply Ha.
  - eapply wp_mono; [by apply wp_remove|]. intros r w' [[_ Ha] _]. apply wp_ret. by apply Ha.
  - eapply wp_mono; [by apply wp_quarantine|]. intros r w' [[_ Ha] _]. apply wp_ret. by apply Ha.
Qed.

Lemma machine_step_ok m m' : Forall plain root → machine_ok m → machine_step m m' → machine_ok m'.
Proof.
  intros Hroot [Hd Hr] Hstep. destruct Hstep as [f fl o w Hrun|s f fl o s' w Ho Hrun|s f b|s f b f' C];
    cbn [running disk on] in *.
  - unfold machine_config in Hrun.
    after (wp_make_spool root kind max_bytes (mkWorld f fl true) Hroot Hd), Hrun as [Hset Hs]. split; [apply Hset|]. cbn. intros s Hcon.
    destruct o as [s'|]; [|done]. cbn in Hcon. destruct (_ready s') eqn:Er; [|done].
    injection Hcon as <-. destruct (Hs s' eq_refl) as [Hc Hrd]. destruct (Hrd Er). done.
  - destruct (Hr s eq_refl) as (Hrd & Hc & Hrt & R).
    after (wp_run_op s o (mkWorld f fl true) Ho R), Hrun as [[R' _] Hs].
    pose proof R' as Rd. apply rd_disk in Rd. unfold kind_of in Rd. rewrite Hrt, Hc in Rd.
    split; [done|]. intros s0 [= <-]. pose proof Hs as (E1 & E2 & _ & _ & _ & E6).
    split; [congruence|]. split; [congruence|]. split; [congruence|]. by eapply same_spool_ready.
  - by split.
  - split; [|done]. by eapply crash_disk_ok.
Qed.

Lemma machine_runs_ok m m' : Forall plain root → machine_ok m → machine_runs m m' → machine_ok m'.
Proof. intros Hroot Hm Hrun. induction Hrun; eauto using machine_step_ok. Qed.

(** A disk on which no spool has run: no links on the way to the spool, no
    files in its data directory. *)
Record fresh_disk (f : FS) : Prop := {
  fresh_wf : fs_wf f;
  fresh_links p v : on_path root p → v ∈ possible f p → ¬ is_symlink v;
  fresh_data p i : is_inside (data_dir root kind) p → Some (Reg i) ∉ possible f p
}.

Lemma fresh_machine_ok f : fresh_disk f → machine_ok (mkMachine None f true).
Proof. intros [? ? Hd]. split; [|done]. split; [done..|]. intros p i Hin Hp. by destruct (Hd p i). Qed.

End Machine.

(** ** Trees a power failure leaves *)

(** Everything reached the disk. *)
Definition settled (f : FS) : FS := mkFS (entries f) (contents f) ∅ ∅ (next_inode f).

Lemma settled_crash f : fs_wf f → crash f (settled f).
Proof.
  intros Hwf. split; try done. intros p. case_decide as Ha; [apply (entries_possible f)|].
  cbn. destruct (entries f !! p) as [v|] eqn:E; [|done]. destruct Ha.
  apply ancestors_dirs_spec. pose proof (wf_tree _ Hwf p v E) as Ht.
  rewrite ancestors_dirs_spec in Ht. intros k Hk. by rewrite <- (Ht k Hk).
Qed.

(** The directory [d] did not. *)
Definition without (d : path) (f : FS) : FS :=
  mkFS (filter (λ e, e.1 ≠ d ∧ is_inside_dec d e.1 = false) (entries f)) (contents f) ∅ ∅ (next_inode f).

Lemma without_entry d f p :
  entries (without d f) !! p
  = if decide (p ≠ d ∧ is_inside_dec d p = false) then entries f !! p else None.
Proof.
  cbn. case_decide as Hp.
  - destruct (entries f !! p) as [v|] eqn:E.
    + by apply map_lookup_filter_Some_2.
    + apply map_lookup_filter_None_2. by left.
  - apply map_lookup_filter_None_2. right. intros v _ Hv. by apply Hp.
Qed.

Lemma without_crash f d : fs_wf f → d ≠ [] → None ∈ possible f d → crash f (without d f).
Proof.
  intros Hwf Hne Hd. split; try done. intros p. case_decide as Ha.
  - rewrite without_entry. case_decide as Hp; [apply entries_possible|].
    destruct (decide (p = d)) as [->|Hpd]; [done|].
    destruct (is_inside_dec d p) eqn:Ein; [|by destruct Hp].
    apply is_inside_dec_spec in Ein as (n & r & ->). exfalso. rewrite ancestors_dirs_spec in Ha.
    specialize (Ha (length d)). rewrite take_app_length, length_app in Ha. cbn [length] in Ha.
    assert (node (without d f) d = None) as Hnone.
    { destruct d as [|x d]; [done|]. unfold node. rewrite without_entry, decide_False; [done|].
      by intros [[] _]. }
    rewrite Hnone in Ha. discriminate Ha. lia.
  - rewrite without_entry. case_decide as Hp; [|done].
    destruct (entries f !! p) as [v|] eqn:E; [|done]. destruct Ha as []. apply ancestors_dirs_spec.
    pose proof (wf_tree _ Hwf p v E) as Ht. rewrite ancestors_dirs_spec in Ht. intros k Hk.
    specialize (Ht k Hk). destruct (take k p) as [|x q] eqn:Eq; [done|]. unfold node in *.
    rewrite without_entry, decide_True; [done|]. rewrite <- Eq.
    assert (∀ t, take k p = d ++ t → is_inside d p) as Hin.
    { intros t Ht'. rewrite <- (take_drop k p), Ht', <- app_assoc.
      destruct (t ++ drop k p) as [|y z] eqn:Ez; [|by apply inside_app].
      apply app_eq_nil in Ez as [_ Ez]. apply (f_equal length) in Ez. rewrite length_drop in Ez.
      cbn in Ez. lia. }
    destruct Hp as [_ Hp]. split.
    + intros He. rewrite <- (app_nil_r d) in He. apply Hin in He. apply is_inside_dec_spec in He. congruence.
    + destruct (is_inside_dec d (take k p)) eqn:Ed; [|done].
      apply is_inside_dec_spec in Ed as (n & r & He). apply Hin in He.
      apply is_inside_dec_spec in He. congruence.
Qed.

(** ** The contract of the spool *)

(** The order in which the examples read directories. *)
Definition listed_order : DirOrder := {| dir_order := id; dir_order_perm := λ l, reflexivity l |}.

Definition demo_root : path := [literal "var"; literal "spool"].
Definition demo_disk : FS := mkFS {[ [literal "var"] := Dir; demo_root := Dir ]} ∅ ∅ ∅ 0.
Definition demo_open (kind : AlarmSpoolKind) (f : FS) : option AlarmSpool * World :=
  @make_spool listed_order (machine_config demo_root kind 0) (mkWorld f [] true).
Definition demo_spool (kind : AlarmSpoolKind) (f : FS) : AlarmSpool :=
  default (new_spool (machine_config demo_root kind 0)) (demo_open kind f).1.
Definition demo_store (s : AlarmSpool) (f : FS) : (AlarmSpoolStoreResult * AlarmSpool) * World :=
  @store listed_order 7 s (_source_id sample_frame) (_message_id sample_frame)
    (frame_bytes sample_frame) (calm f).
Definition demo_path (kind : AlarmSpoolKind) : path := alarm_path demo_root kind sample_frame.

Lemma demo_possible p : possible demo_disk p = [entries demo_disk !! p].
Proof. done. Qed.

Lemma demo_entry p v : entries demo_disk !! p = Some v → v = Dir ∧ (p = [literal "var"] ∨ p = demo_root).
Proof.
  cbn. intros [[<- <-]|[_ Hp]]%lookup_insert_Some; [auto|].
  apply lookup_singleton_Some in Hp as [<- <-]. auto.
Qed.

Lemma demo_fresh kind : fresh_disk demo_root kind demo_disk.
Proof.
  split; [split|..].
  - intros p v. rewrite demo_possible. intros Hv%list_elem_of_singleton. symmetry in Hv.
    apply demo_entry in Hv as [_ [-> | ->]]; (split; [done|]); repeat constructor; done.
  - intros p v [_ [-> | ->]]%demo_entry; by repeat constructor.
  - intros p i. rewrite demo_possible. intros Hv%list_elem_of_singleton. symmetry in Hv.
    by apply demo_entry in Hv as [? _].
  - intros p v _. rewrite demo_possible. intros ->%list_elem_of_singleton.
    destruct (entries demo_disk !! p) eqn:E; [|by intros []]. apply demo_entry in E as [-> _]. by intros [].
  - intros p i _. rewrite demo_possible. intros Hv%list_elem_of_singleton. symmetry in Hv.
    by apply demo_entry in Hv as [? _].
Qed.

(** C34. Crash consistency. Start from a disk whose spool directory holds no files
    and let anything happen in any order: spools constructed, alarms stored,
    listed, read, removed and quarantined with arbitrary arguments, system calls
    failing or stopping short at any point, processes ending, power failing in
    the middle of a call and losing whatever was not synchronised. Every file
    in the data directory is always a complete, valid alarm under the name of
    its own source and message identifier, whose decoding gives it back. *)
Theorem spool_crash_consistent `{DirOrder} pid root kind max_bytes f m p b :
  Forall plain root → fresh_disk root kind f →
  machine_runs pid root kind max_bytes (mkMachine None f true) m →
  is_inside (data_dir root kind) p → file (disk m) p = Some b →
  ∃ fr, frame_ok fr ∧ _ftype fr = ALARM ∧ b = frame_bytes fr ∧ p = alarm_path root kind fr
        ∧ decode_alarm_frame true (Some b) = Some (mkADecode SUCCESS (Some fr)).
Proof.
  intros Hroot Hf Hrun Hin Hb.
  pose proof (machine_runs_ok pid root kind max_bytes _ m Hroot (fresh_machine_ok _ _ _ _ Hf) Hrun)
    as [Hd _].
  unfold file in Hb. destruct (entries (disk m) !! p) as [[|i| |]|] eqn:Ei; try done.
  destruct (disk_published _ _ _ Hd p i Hin) as (_ & fr & Hfr & Ht & Hc & Hp);
    [rewrite <- Ei; apply entries_possible|].
  rewrite Hc in Hb. injection Hb as <-. exists fr. do 4 (split; [done|]).
  apply decode_alarm_frame_layout; auto.
Qed.

(** The life of the examples: a spool is constructed and stores an alarm. *)
Lemma sample_bytes_ok : bytes_ok (frame_bytes sample_frame).
Proof. apply (bool_decide_unpack _). by vm_compute. Qed.

Lemma demo_opened kind f :
  _ready (demo_spool kind f) = true →
  @make_spool listed_order (machine_config demo_root kind 0) (mkWorld f [] true)
  = (Some (demo_spool kind f), (demo_open kind f).2).
Proof.
  change (_ready (demo_spool kind f) = true →
    demo_open kind f = (Some (demo_spool kind f), (demo_open kind f).2)).
  unfold demo_spool. by destruct (demo_open kind f) as [[s|] w].
Qed.

Definition demo_runs (kind : AlarmSpoolKind) : Machine → Machine → Prop :=
  @machine_runs listed_order 7 demo_root kind 0.

Lemma demo_start kind f :
  _ready (demo_spool kind f) = true → powered (demo_open kind f).2 = true →
  demo_runs kind (mkMachine None f true)
    (mkMachine (Some (demo_spool kind f)) (fs (demo_open kind f).2) true).
Proof.
  intros Hr Hp. eapply rtc_l; [|apply rtc_refl]. pose proof (demo_opened kind f Hr) as Hm.
  pose proof (@MStart listed_order 7 demo_root kind 0 f [] _ _ Hm) as Hst.
  unfold constructed in Hst. rewrite Hr, Hp in Hst. exact Hst.
Qed.

Lemma demo_storing kind s f :
  powered (demo_store s f).2 = true →
  demo_runs kind (mkMachine (Some s) f true)
    (mkMachine (Some (demo_store s f).1.2) (fs (demo_store s f).2) true).
Proof.
  intros Hp. eapply rtc_l; [|apply rtc_refl]. rewrite <- Hp at 2.
  apply (@MOp listed_order 7 demo_root kind 0 s f [] (OpStore (_source_id sample_frame)
    (_message_id sample_frame) (frame_bytes sample_frame))); [apply sample_bytes_ok|].
  unfold run_op, mbind, Sys_bind. fold (calm f). unfold demo_store.
  by destruct (store _ _ _ _ _ _) as [[r s'] w].
Qed.

Lemma demo_ok kind f s :
  demo_runs kind (mkMachine None demo_disk true) (mkMachine s f true) → fs_wf f.
Proof.
  intros Hr. eapply (@machine_runs_ok listed_order) in Hr.
  - by eapply disk_wf, Hr.
  - by repeat constructor.
  - apply fresh_machine_ok, demo_fresh.
Qed.

Definition demo_first (kind : AlarmSpoolKind) : FS := fs (demo_open kind demo_disk).2.

Lemma demo_first_runs kind :
  kind = OUTBOX ∨ kind = INBOX →
  demo_runs kind (mkMachine None demo_disk true)
    (mkMachine (Some (demo_spool kind demo_disk)) (demo_first kind) true).
Proof. intros [-> | ->]; apply demo_start; by vm_compute. Qed.

Lemma spool_crash_consistent_witness :
  ∃ fr, frame_ok fr ∧ _ftype fr = ALARM ∧ frame_bytes sample_frame = frame_bytes fr
        ∧ demo_path OUTBOX = alarm_path demo_root OUTBOX fr
        ∧ decode_alarm_frame true (Some (frame_bytes sample_frame))
          = Some (mkADecode SUCCESS (Some fr)).
Proof.
  set (s := demo_spool OUTBOX demo_disk). set (f := demo_first OUTBOX).
  apply (@spool_crash_consistent listed_order 7 demo_root OUTBOX 0 demo_disk
    (mkMachine (Some (demo_store s f).1.2) (fs (demo_store s f).2) true)).
  - by repeat constructor.
  - apply demo_fresh.
  - etrans; [apply demo_first_runs; by left|apply demo_storing; by vm_compute].
  - apply alarm_path_inside.
  - by vm_compute.
Defined.

(** A crash leaves a file whose entry, and the directories above it, were
    synchronised. *)
Lemma crash_keeps f f' p i b :
  crash f f' → (∀ q, q `prefix_of` parent_path p → q ≠ [] → possible f q = [Some Dir]) → p ≠ [] →
  possible f p = [Some (Reg i)] → contents f !! i = Some b → i ∉ unflushed f → file f' p = Some b.
Proof.
  intros C Hdirs Hne Hp Hc Hu.
  destruct (exists_last Hne) as (d & n & ->). rewrite parent_path_app in Hdirs.
  assert (∀ q, q `prefix_of` d → ancestors_dirs f' q ∧ node f' q = Some Dir) as Hall.
  { intros q. induction q as [|m q IH] using rev_ind; intros Hq.
    { split; [by apply ancestors_dirs_spec; simpl; lia|done]. }
    destruct IH as [Ha Hn]; [by eapply prefix_app_l|].
    assert (ancestors_dirs f' (q ++ [m])) as Ha' by by apply ancestors_dirs_app.
    split; [done|]. pose proof (crash_entry _ _ C (q ++ [m])) as He. rewrite decide_True in He by done.
    rewrite Hdirs in He by (done || by destruct q). rewrite node_app.
    by apply list_elem_of_singleton in He. }
  destruct (Hall d) as [Ha Hn]; [done|]. pose proof (crash_entry _ _ C (d ++ [n])) as He.
  rewrite decide_True in He by by apply ancestors_dirs_app.
  rewrite Hp in He. apply list_elem_of_singleton in He. unfold file.
  by rewrite He, (crash_flushed _ _ C).
Qed.


(** The example continued: the machine is switched off and on, so that the
    directories are on disk, stores an alarm, and is switched off again. *)
Definition demo_second : FS := settled (demo_first OUTBOX).
Definition demo_third : FS := fs (demo_open OUTBOX demo_second).2.
Definition demo_third_spool : AlarmSpool := demo_spool OUTBOX demo_second.
Definition demo_stored : FS := fs (demo_store demo_third_spool demo_third).2.
Definition demo_fourth : FS := fs (demo_open OUTBOX (settled demo_stored)).2.

Lemma prefix_take {A} (l k : list A) : l `prefix_of` k → l = take (length l) k.
Proof. intros [m ->]. by rewrite take_app_length. Qed.

Lemma demo_third_runs :
  demo_runs OUTBOX (mkMachine None demo_disk true)
    (mkMachine (Some demo_third_spool) demo_third true).
Proof.
  etrans; [apply demo_first_runs; by left|].
  eapply rtc_l; [apply MPower, settled_crash; eapply demo_ok, demo_first_runs; by left|].
  apply demo_start; by vm_compute.
Qed.

Lemma demo_stored_wf : fs_wf demo_stored.
Proof.
  eapply demo_ok. etrans; [exact demo_third_runs|]. apply demo_storing. by vm_compute.
Qed.


(** What [store] does, whatever calls fail. Success: the alarm was not there
    and now is, complete and synchronised, under the returned path. Duplicate: a
    file with that identity was there, and nothing changed. Any other outcome:
    nothing changed, or the complete alarm is there although the call could not
    confirm it. No other alarm is touched, and no entry or file outside the
    spool's directory. *)
Theorem spool_store_exact `{DirOrder} pid root kind max_bytes f m s fl src mid wire r s' w :
  Forall plain root → fresh_disk root kind f →
  machine_runs pid root kind max_bytes (mkMachine None f true) m → running m = Some s →
  bytes_ok wire → store pid s src mid wire (mkWorld (disk m) fl true) = ((r, s'), w) →
  let p := alarm_dir root kind src ++ [alarm_filename src mid] in
  match _ststatus r with
  | SP_SUCCESS => _stpath r = Some p ∧ file (disk m) p = None ∧ file (fs w) p = Some wire
  | SP_DUPLICATE => _stpath r = Some p ∧ is_Some (entries (fs w) !! p) ∧ file (fs w) p = file (disk m) p
  | _ => file (fs w) p = file (disk m) p ∨ (file (disk m) p = None ∧ file (fs w) p = Some wire)
  end
  ∧ (∀ q, is_inside (data_dir root kind) q → q ≠ p → file (fs w) q = file (disk m) q)
  ∧ (∀ q, ¬ is_inside root q → entries (fs w) !! q = entries (disk m) !! q
                               ∧ file (fs w) q = file (disk m) q).
Proof.
  intros Hroot Hf Hrun Hs Hok Hst p.
  pose proof (machine_runs_ok pid root kind max_bytes _ m Hroot (fresh_machine_ok _ _ _ _ Hf) Hrun)
    as [Hd Hrunning].
  destruct (Hrunning s Hs) as (Hr & Hcfg & Hrt & R).
  after (wp_store pid s src mid wire (mkWorld (disk m) fl true) R Hok), Hst as [([_ E] & Ho & Hpost) _].
  assert (kind_of s = kind) as Hk by (unfold kind_of; by rewrite Hcfg).
  unfold store_post in Hpost. rewrite (rd_data _ _ R) in Ho. rewrite Hrt, Hk in Ho, Hpost.
  fold p in Hpost, Ho. split; [|split; [done|]].
  - destruct (_ststatus r); try done.
    + destruct Hpost as (fr & i & _ & _ & _ & _ & _ & ? & ? & Hposs & Hc & _). split; [done|].
      split; [done|]. unfold file. assert (entries (fs w) !! p = Some (Reg i)) as ->; [|done].
      injection Hposs as He _. done.
    + by destruct Hpost as (? & ? & ? & ?).
  - intros q Hq. rewrite <- Hrt in Hq.
    split; [by destruct (ev_entry _ _ _ _ E q) as [|Hi]; [|destruct (Hq Hi)]|].
    eapply file_evolves; [by eapply disk_wf, rd_disk|exact E|]. by intros v.
Qed.

Lemma spool_store_exact_witness :
  let w := (demo_store demo_third_spool demo_third).2 in
  (Some (demo_path OUTBOX) = Some (demo_path OUTBOX)
   ∧ file demo_third (demo_path OUTBOX) = None
   ∧ file (fs w) (demo_path OUTBOX) = Some (frame_bytes sample_frame))
  ∧ (∀ q, is_inside (data_dir demo_root OUTBOX) q → q ≠ demo_path OUTBOX →
       file (fs w) q = file demo_third q)
  ∧ (∀ q, ¬ is_inside demo_root q → entries (fs w) !! q = entries demo_third !! q
                                    ∧ file (fs w) q = file demo_third q).
Proof.
  pose proof (@spool_store_exact listed_order 7 demo_root OUTBOX 0 demo_disk
    (mkMachine (Some demo_third_spool) demo_third true) demo_third_spool []
    (_source_id sample_frame) (_message_id sample_frame) (frame_bytes sample_frame)
    (demo_store demo_third_spool demo_third).1.1 (demo_store demo_third_spool demo_third).1.2
    (demo_store demo_third_spool demo_third).2) as Hex.
  assert (_ststatus (demo_store demo_third_spool demo_third).1.1 = SP_SUCCESS
    ∧ _stpath (demo_store demo_third_spool demo_third).1.1 = Some (demo_path OUTBOX)) as [Hst Hp]
    by by vm_compute.
  rewrite Hst, Hp in Hex. apply Hex.
  - by repeat constructor.
  - apply demo_fresh.
  - exact demo_third_runs.
  - reflexivity.
  - exact sample_bytes_ok.
  - unfold demo_store. by destruct (store _ _ _ _ _ _) as [[r s'] w].
Defined.

(** Operations stay in their place. For every operation, every caller-supplied
    path (dots and links included) and every failing call: outside the spool's
    directory no entry and no file changes, and in the data directory at most one
    alarm does, the one that is stored or that the path resolves to. *)
Theorem spool_confined `{DirOrder} pid root kind max_bytes f m s fl o s' w :
  Forall plain root → fresh_disk root kind f →
  machine_runs pid root kind max_bytes (mkMachine None f true) m → running m = Some s →
  op_ok o → run_op pid s o (mkWorld (disk m) fl true) = (s', w) →
  (∀ q, ¬ is_inside root q → entries (fs w) !! q = entries (disk m) !! q
                             ∧ file (fs w) q = file (disk m) q)
  ∧ (∀ q, is_inside (data_dir root kind) q →
       match o with
       | OpStore src mid _ => q ≠ alarm_dir root kind src ++ [alarm_filename src mid]
       | OpRead p | OpRemove p | OpQuarantine p => lookup_path true (disk m) p ≠ inl q
       | OpNext | OpStats => True
       end → file (fs w) q = file (disk m) q).
Proof.
  intros Hroot Hf Hrun Hs Ho Hop.
  pose proof (machine_runs_ok pid root kind max_bytes _ m Hroot (fresh_machine_ok _ _ _ _ Hf) Hrun)
    as [Hd Hrunning].
  destruct (Hrunning s Hs) as (Hr & Hcfg & Hrt & R).
  assert (kind_of s = kind) as Hk by (unfold kind_of; by rewrite Hcfg).
  after (wp_run_op pid s o (mkWorld (disk m) fl true) Ho R), Hop as [[_ E] _]. split.
  - intros q Hq. rewrite <- Hrt in Hq.
    split; [by destruct (ev_entry _ _ _ _ E q) as [|Hi]; [|destruct (Hq Hi)]|].
    eapply file_evolves; [by eapply disk_wf, rd_disk|exact E|]. by intros v.
  - intros q Hin Hq. assert (is_inside (_data_directory s) q) as Hin'
      by by rewrite (rd_data _ _ R), Hrt, Hk.
    pose proof (wp_op_files pid s o q (mkWorld (disk m) fl true) Ho R Hin') as Hfiles.
    unfold wp, spares in Hfiles. rewrite Hop, Hrt, Hk in Hfiles. by apply Hfiles.
Qed.

Lemma spool_confined_witness :
  let w := (@run_op listed_order 7 demo_third_spool (OpRemove (demo_path OUTBOX)) (calm demo_third)).2 in
  (∀ q, ¬ is_inside demo_root q → entries (fs w) !! q = entries demo_third !! q
                                  ∧ file (fs w) q = file demo_third q)
  ∧ (∀ q, is_inside (data_dir demo_root OUTBOX) q →
       lookup_path true demo_third (demo_path OUTBOX) ≠ inl q → file (fs w) q = file demo_third q).
Proof.
  apply (@spool_confined listed_order 7 demo_root OUTBOX 0 demo_disk
    (mkMachine (Some demo_third_spool) demo_third true) demo_third_spool []
    (OpRemove (demo_path OUTBOX))
    (@run_op listed_order 7 demo_third_spool (OpRemove (demo_path OUTBOX)) (calm demo_third)).1).
  - by repeat constructor.
  - apply demo_fresh.
  - exact demo_third_runs.
  - reflexivity.
  - exact I.
  - fold (calm demo_third). apply surjective_pairing.
Defined.

(** ** Two limits of the implementation *)

Definition inbox_second : FS := settled (demo_first INBOX).
Definition inbox_spool : AlarmSpool := demo_spool INBOX inbox_second.
Definition inbox_third : FS := fs (demo_open INBOX inbox_second).2.
Definition inbox_stored : World := (demo_store inbox_spool inbox_third).2.

Lemma inbox_third_runs :
  demo_runs INBOX (mkMachine None demo_disk true) (mkMachine (Some inbox_spool) inbox_third true).
Proof.
  etrans; [apply demo_first_runs; by right|].
  eapply rtc_l; [apply MPower, settled_crash; eapply demo_ok, demo_first_runs; by right|].
  apply demo_start; by vm_compute.
Qed.

(** The first alarm of a source is reported as stored although the directory
    [accepted/<source>] that holds it was created without a synchronisation of
    [accepted/]: a power failure may lose the directory and the alarm with it,
    on a disk where every directory of the spool itself was durable. *)
Theorem inbox_first_alarm_lost :
  _ststatus (demo_store inbox_spool inbox_third).1.1 = SP_SUCCESS
  ∧ file (fs inbox_stored) (demo_path INBOX) = Some (frame_bytes sample_frame)
  ∧ unsynced inbox_third = ∅
  ∧ ∃ f', crash (fs inbox_stored) f' ∧ file f' (demo_path INBOX) = None.
Proof.
  split; [by vm_compute|]. split; [by vm_compute|]. split; [by vm_compute|].
  set (d := alarm_dir demo_root INBOX (_source_id sample_frame)).
  exists (without d (fs inbox_stored)). split.
  - apply without_crash.
    + eapply demo_ok. etrans; [exact inbox_third_runs|]. apply demo_storing. by vm_compute.
    + done.
    + assert (bool_decide (None ∈ possible (fs inbox_stored) d) = true) as Hb by by vm_compute.
      by apply bool_decide_eq_true in Hb.
  - unfold file. rewrite without_entry, decide_False; [done|]. intros [_ Hin].
    assert (is_inside_dec d (demo_path INBOX) = true) as Ht by by vm_compute. congruence.
Qed.

(** [read] takes memory exhaustion in the decoder for a damaged file: a valid
    alarm is moved to the quarantine. *)
Theorem read_quarantines_when_out_of_memory :
  let w := mkWorld demo_stored [Goes; Goes; Goes; Goes; Goes; Fails 12] true in
  file demo_stored (demo_path OUTBOX) = Some (frame_bytes sample_frame)
  ∧ _rdstatus (read demo_third_spool (demo_path OUTBOX) w).1 = SP_CORRUPT
  ∧ file (fs (read demo_third_spool (demo_path OUTBOX) w).2) (demo_path OUTBOX) = None.
Proof. by vm_compute. Qed.
