(* ===== verification/SpoolQueue.v ===== *)
(** The spool as a queue when no system call fails: [next] finds the alarm whose
    path is least, [read] returns it, [remove] takes it off. *)

From Stdlib Require Import String.
From S2P Require Import Prelude AlarmProtocol FileSystem AlarmSpool AlarmSpoolSafety SpoolLifecycle.
#[local] Open Scope tlss_scope.

(** ** Scanning *)

Definition is_regular (f : FS) (p : path) : bool :=
  match entries f !! p with Some (Reg _) => true | _ => false end.

Definition size_of (f : FS) (p : path) : Z :=
  match entries f !! p with Some (Reg i) => ♯(content f i) | _ => 0 end.

Definition better (acc : option path) (p : path) : option path :=
  match acc with None => Some p | Some q => if path_lt p q then Some p else Some q end.

(** What the loop of [scan_regular_files] accumulates. *)
Definition scanned (f : FS) (l : list path) (r : ScanResult) : ScanResult :=
  let regs := filter (λ p, is_regular f p = true) l in
  mkScan true (_files r + Zlen regs) (_bytes r + foldr Z.add 0 (size_of f <$> l))
    (foldl better (_first r) regs) 0.

(** An entry that scanning sees as it is. *)
Definition visible (f : FS) (p : path) : Prop := reached f p ∧ p ≠ [] ∧ ¬ is_symlink (entries f !! p).

Lemma visible_node f p follow : visible f p →
  ∃ v, entries f !! p = Some v ∧ node_at follow f p = inl v.
Proof.
  intros (Hr & Hne & Hs). assert (node f p = entries f !! p) as Hn by by destruct p.
  pose proof Hr as (_ & _ & [v Hv]). exists v. rewrite Hn in Hv. split; [done|].
  unfold node_at. rewrite lookup_path_self; [by rewrite Hn, Hv|done|right; by rewrite Hn].
Qed.

Lemma size_of_nonneg f p : 0 <= size_of f p.
Proof. unfold size_of. repeat case_match; try lia. apply Zlen_nonneg. Qed.

Lemma sizes_nonneg f l : 0 <= foldr Z.add 0 (size_of f <$> l).
Proof. induction l; cbn; [lia|]. pose proof (size_of_nonneg f a). lia. Qed.

Lemma scanned_one f p r :
  _success r = true → _scan_error r = 0 →
  scanned f [p] r = if is_regular f p
                    then mkScan true (_files r + 1) (_bytes r + size_of f p) (better (_first r) p) 0
                    else r.
Proof.
  intros Hs He. unfold scanned. rewrite filter_cons. unfold size_of, is_regular.
  destruct r as [su fi by_ fst er]. cbn in Hs, He. subst. cbn [_files _bytes _first fmap list_fmap].
  destruct (entries f !! p) as [[]|]; cbn; by rewrite ?Z.add_0_r, ?Zlen_nil, ?Z.add_0_r.
Qed.

Lemma scanned_cons f p l r : scanned f (p :: l) r = scanned f l (scanned f [p] r).
Proof.
  unfold scanned. cbn [_files _bytes _first fmap list_fmap foldr]. rewrite !filter_cons.
  rewrite filter_nil. unfold Zlen. case_decide; cbn [foldl length]; f_equal; done || lia.
Qed.

Section Scan.
Context (f : FS).

Lemma scan_entry_calm r p :
  visible f p → 0 <= _bytes r → _bytes r + size_of f p <= UINT64_MAX →
  0 <= _files r < UINT64_MAX → _success r = true → _scan_error r = 0 →
  scan_entry r p (calm f) = (inl (scanned f [p] r), calm f).
Proof.
  intros Hv Hb Hsz Hfl Hs He. destruct (visible_node f p false Hv) as (v & Ev & Hna).
  destruct (visible_node f p true Hv) as (v' & Ev' & Hna'). rewrite Ev in Ev'. injection Ev' as <-.
  rewrite scanned_one by done. unfold scan_entry, is_regular, size_of in *. rewrite Ev in *.
  rewrite (bind_run _ _ _ (inl v) (calm f))
    by (unfold symlink_status; by rewrite observe_calm, Hna).
  destruct v as [|i|ab t|]; try done.
  rewrite (bind_run _ _ _ (inl ♯(content f i)) (calm f))
    by (unfold file_size; by rewrite observe_calm, Hna').
  pose proof (Zlen_nonneg (content f i)). unfold UINT64_MAX in *.
  rewrite (proj2 (Z.ltb_ge _ _)) by lia. rewrite (proj2 (Z.ltb_ge _ _)) by lia.
  unfold u64. by rewrite !Z.mod_small by lia.
Qed.

Lemma scan_loop_calm l : ∀ r,
  Forall (visible f) l → 0 <= _bytes r → _bytes r + foldr Z.add 0 (size_of f <$> l) <= UINT64_MAX →
  0 <= _files r → _files r + ♯l <= UINT64_MAX → _success r = true → _scan_error r = 0 →
  scan_loop r l (calm f) = (scanned f l r, calm f).
Proof.
  induction l as [|p l IH]; intros r Hl Hb Hsz Hf Hn Hs He.
  { cbn. unfold scanned. destruct r. cbn in *. subst. unfold mret, Sys_ret. cbn.
    by rewrite !Z.add_0_r. }
  apply Forall_cons in Hl as [Hp Hl]. cbn [scan_loop fmap list_fmap foldr] in *.
  rewrite Zlen_cons in Hn. pose proof (sizes_nonneg f l) as Hsn. pose proof (size_of_nonneg f p).
  pose proof (Zlen_nonneg l).
  rewrite (bind_run _ _ _ _ _ (scan_entry_calm r p Hp Hb ltac:(lia) ltac:(lia) Hs He)).
  rewrite (bind_run _ _ _ _ _ (change_calm inl f f eq_refl)).
  rewrite (scanned_cons f p l r). set (r' := scanned f [p] r).
  assert (_bytes r' = _bytes r + size_of f p ∧ 0 <= _files r' <= _files r + 1
          ∧ _success r' = true ∧ _scan_error r' = 0) as (Hb' & Hf' & Hs' & He').
  { subst r'. rewrite scanned_one by done. unfold is_regular, size_of.
    destruct (entries f !! p) as [[]|]; cbn; repeat split; lia || done. }
  apply IH; rewrite ?Hb'; done || lia.
Qed.

(** The least path among the candidates. *)
Lemma foldl_better l : ∀ acc,
  (∀ p, foldl better acc l = Some p → (p ∈ l ∨ acc = Some p)
     ∧ (∀ q, q ∈ l ∨ acc = Some q → string_le (native p) (native q)))
  ∧ (foldl better acc l = None ↔ acc = None ∧ l = []).
Proof.
  induction l as [|x l IH]; intros acc; cbn.
  { split; [|naive_solver]. intros p ->. split; [auto|]. intros q [?%not_elem_of_nil|[= <-]]; [done|].
    unfold string_le. by destruct (total string_le (native p) (native p)). }
  destruct (IH (better acc x)) as [Hs Hn]. split.
  - intros p Hp. destruct (Hs p Hp) as [Hin Hle]. split.
    + destruct Hin as [|Hb]; [left; by right|]. unfold better in Hb.
      destruct acc as [q|]; [destruct (path_lt x q)|]; injection Hb as <-; auto; left; left.
    + assert (string_le (native p) (native x) ∧ ∀ q, acc = Some q → string_le (native p) (native q))
        as [Hx Hq].
      { unfold better in Hle. destruct acc as [q|].
        - destruct (path_lt x q) eqn:E; unfold path_lt in E.
          + assert (string_le (native p) (native x)) as Hx by (apply Hle; auto). split; [done|].
            intros q' [= <-]. etrans; [exact Hx|]. destruct (total string_le (native x) (native q)) as [|Hc];
              [done|]. unfold string_le in Hc. by rewrite Hc in E.
          + assert (string_le (native p) (native q)) as Hq by (apply Hle; auto).
            split; [|by intros q' [= <-]]. etrans; [exact Hq|]. by apply negb_false_iff in E.
        - split; [apply Hle; auto|done]. }
      intros q [[-> |]%elem_of_cons|]; auto.
  - rewrite Hn. unfold better. destruct acc; [case_match|]; naive_solver.
Qed.
End Scan.

(** ** The queue *)

Section Queue.
Context `{DirOrder}.

(** The paths below the data directory. *)
Definition data_paths (s : AlarmSpool) (f : FS) : list path :=
  filter (λ p, is_inside_dec (_data_directory s) p = true) (map fst (map_to_list (entries f))).

Lemma elem_of_data_paths s f p :
  p ∈ data_paths s f ↔ is_inside (_data_directory s) p ∧ is_Some (entries f !! p).
Proof.
  unfold data_paths. rewrite list_elem_of_filter, is_inside_dec_spec.
  split; intros [Hin Hp]; (split; [done|]).
  - apply list_elem_of_fmap in Hp as ([q v] & -> & Hv). apply elem_of_map_to_list in Hv. eauto.
  - destruct Hp as [v Hv]. apply list_elem_of_fmap. exists (p, v). split; [done|].
    by apply elem_of_map_to_list.
Qed.

Lemma data_visible s f p : ready_in s f → p ∈ data_paths s f → visible f p.
Proof.
  intros R [Hin [v Hv]]%elem_of_data_paths. pose proof (disk_wf _ _ _ (rd_disk _ _ R)) as Hwf.
  destruct (wf_plain _ Hwf p v) as [Hne Hpl]; [rewrite <- Hv; apply entries_possible|].
  split; [|split; [done|]].
  - split; [done|]. split; [by eapply wf_tree|]. destruct p; [done|]. by eexists.
  - eapply (disk_links _ _ _ (rd_disk _ _ R)); [|apply entries_possible]. right.
    rewrite (rd_data _ _ R) in Hin. by eapply inside_weaken.
Qed.

Lemma NoDup_data_paths s f : NoDup (data_paths s f).
Proof. apply NoDup_filter, NoDup_fst_map_to_list. Qed.

(** The iterator over the data directory, opened while the disk is in order. *)
Lemma wp_descendants s Q w :
  ready_in s (fs w) →
  (∀ w' e, fs w' = fs w → Q (inr e) w') →
  (∀ w' l, fs w' = fs w → l ≡ₚ data_paths s (fs w) → Q (inl l) w') →
  wp (descendants_of (_data_directory s)) Q w.
Proof.
  intros R Hfail Hok. apply wp_observe. intros [l|e] w' Hw Hr; [|by apply Hfail].
  pose proof (rd_data_dir _ _ R) as Hd. rewrite lookup_path_dir in Hr by done.
  destruct Hd as (_ & _ & Hd). rewrite Hd in Hr. injection Hr as <-. apply Hok; [done|].
  rewrite dir_order_perm. fold (data_paths s (fs w)).
  transitivity (id <$> data_paths s (fs w)); [|by rewrite list_fmap_id].
  apply Permutation_refl'. apply list_fmap_ext.
  intros i p Hi%list_elem_of_lookup_2. apply elem_of_data_paths in Hi as [(n & t & ->) _].
  by rewrite drop_app_length.
Qed.

Lemma data_size s f p : ready_in s f → p ∈ data_paths s f → size_of f p <= ALARM_MAX_FRAME_SIZE.
Proof.
  intros R [Hin _]%elem_of_data_paths. unfold size_of.
  destruct (entries f !! p) as [[|i| |]|] eqn:E; try done.
  destruct (disk_published _ _ _ (rd_disk _ _ R) p i) as (_ & fr & Hfr & _ & Hc & _).
  - by rewrite <- (rd_data _ _ R).
  - rewrite <- E. apply entries_possible.
  - unfold content. rewrite Hc. cbn [default from_option id]. rewrite frame_bytes_size by done.
    pose proof (frame_ok_payload fr Hfr).
    unfold ALARM_MAX_FRAME_SIZE, ALARM_HEADER_SIZE, ALARM_MAX_PAYLOAD_SIZE. lia.
Qed.

Lemma sizes_bound f l k :
  (∀ p, p ∈ l → size_of f p <= k) → foldr Z.add 0 (size_of f <$> l) <= k * ♯l.
Proof.
  induction l as [|p l IH]; intros Hl; [unfold Zlen; cbn [fmap list_fmap foldr length]; lia|]. cbn [fmap list_fmap foldr]. rewrite Zlen_cons.
  assert (size_of f p <= k) by (apply Hl; left).
  assert (foldr Z.add 0 (size_of f <$> l) <= k * ♯l) by (apply IH; intros q Hq; apply Hl; by right).
  lia.
Qed.

(** A tree small enough for its sizes to be added up in 64 bits. *)
Definition small_tree (f : FS) : Prop := ALARM_MAX_FRAME_SIZE * Z.of_nat (base.size (entries f)) <= UINT64_MAX.

Lemma scan_calm s f :
  ready_in s f → small_tree f →
  ∃ r, scan_regular_files (_data_directory s) (calm f) = (r, calm f) ∧ _success r = true
    ∧ (∀ p, _first r = Some p → p ∈ data_paths s f ∧ is_regular f p = true
         ∧ ∀ q, q ∈ data_paths s f → is_regular f q = true → string_le (native p) (native q))
    ∧ (_first r = None → ∀ q, q ∈ data_paths s f → is_regular f q = false).
Proof.
  intros R Hsm. unfold scan_regular_files.
  set (l := dir_order (data_paths s f)).
  assert (l ≡ₚ data_paths s f) as Hperm by apply dir_order_perm.
  assert (descendants_of (_data_directory s) (calm f) = (inl l, calm f)) as Hd.
  { unfold descendants_of, listing. rewrite observe_calm.
    pose proof (rd_data_dir _ _ R) as Hrd. rewrite lookup_path_dir by done.
    destruct Hrd as (_ & _ & ->). do 2 f_equal. unfold l. f_equal.
    fold (data_paths s f). transitivity (id <$> data_paths s f); [|by rewrite list_fmap_id].
    apply list_fmap_ext.
    intros i p Hi%list_elem_of_lookup_2. apply elem_of_data_paths in Hi as [(n & t & ->) _].
    by rewrite drop_app_length. }
  rewrite (bind_run _ _ _ _ _ Hd).
  assert (♯l <= Z.of_nat (base.size (entries f))) as Hlen.
  { unfold Zlen. rewrite Hperm. unfold data_paths. apply Nat2Z.inj_le.
    etrans; [apply length_filter|]. rewrite length_map, length_map_to_list. done. }
  unfold small_tree, ALARM_MAX_FRAME_SIZE, ALARM_HEADER_SIZE, ALARM_MAX_PAYLOAD_SIZE, UINT64_MAX in Hsm.
  rewrite scan_loop_calm; cbn [_bytes _files _success _scan_error]; [|..|done|done].
  - eexists. split; [done|]. split; [done|]. unfold scanned. cbn [_first].
    set (regs := filter _ l). destruct (foldl_better regs None) as [Hs Hn].
    assert (∀ q, q ∈ regs ↔ q ∈ data_paths s f ∧ is_regular f q = true) as Hregs.
    { intros q. unfold regs. rewrite list_elem_of_filter, Hperm. naive_solver. }
    split.
    + intros p Hp. destruct (Hs p Hp) as [[Hin|] Hle]; [|done]. apply Hregs in Hin as [? ?].
      split; [done|]. split; [done|]. intros q ? ?. apply Hle. left. by apply Hregs.
    + intros Hnone q Hq. apply Hn in Hnone as [_ Hnil]. destruct (is_regular f q) eqn:E; [|done].
      exfalso. assert (q ∈ regs) as Hx by by apply Hregs. rewrite Hnil in Hx. by apply not_elem_of_nil in Hx.
  - apply Forall_forall. intros p. rewrite Hperm. by apply data_visible.
  - lia.
  - pose proof (sizes_bound f l ALARM_MAX_FRAME_SIZE) as Hb. rewrite Z.add_0_l. etrans; [apply Hb|].
    + intros p. rewrite Hperm. by apply data_size.
    + unfold ALARM_MAX_FRAME_SIZE, ALARM_HEADER_SIZE, ALARM_MAX_PAYLOAD_SIZE, UINT64_MAX. lia.
  - lia.
  - unfold UINT64_MAX. pose proof (Zlen_nonneg l). lia.
Qed.

(** The file at [p] is the least alarm. *)
Definition least_alarm (s : AlarmSpool) (f : FS) (p : path) : Prop :=
  is_inside (_data_directory s) p ∧ is_Some (file f p)
  ∧ ∀ q, is_inside (_data_directory s) q → is_Some (file f q) → string_le (native p) (native q).

Lemma regular_file s f p :
  ready_in s f → p ∈ data_paths s f ∧ is_regular f p = true ↔
                 is_inside (_data_directory s) p ∧ is_Some (file f p).
Proof.
  intros R. rewrite elem_of_data_paths. unfold is_regular, file. split.
  - intros [[Hin [v Hv]] Hr]. split; [done|]. rewrite Hv in *. destruct v as [|i| |]; try done.
    destruct (disk_published _ _ _ (rd_disk _ _ R) p i) as (_ & fr & _ & _ & Hc & _);
      [by rewrite <- (rd_data _ _ R)|rewrite <- Hv; apply entries_possible|]. eauto.
  - intros [Hin [b Hb]]. split; [split; [done|]|]; destruct (entries f !! p) as [[]|]; try done; eauto.
Qed.

Lemma next_calm s f :
  ready_in s f → _ready s = true → small_tree f →
  (∃ p, least_alarm s f p ∧ next s (calm f) = (mkPath SP_SUCCESS (Some p) 0, calm f))
  ∨ ((∀ p, is_inside (_data_directory s) p → file f p = None)
     ∧ next s (calm f) = (mkPath SP_EMPTY None 0, calm f)).
Proof.
  intros R Hr Hsm. unfold next. rewrite Hr. cbn [negb].
  destruct (scan_calm s f R Hsm) as (r & Hscan & Hs & Hfirst & Hnone).
  rewrite (bind_run _ _ _ _ _ Hscan), Hs. cbn [negb]. destruct (_first r) as [p|].
  - left. exists p. split; [|done]. destruct (Hfirst p eq_refl) as (Hp & Hreg & Hle).
    destruct (proj1 (regular_file s f p R) (conj Hp Hreg)) as [? ?]. split; [done|]. split; [done|].
    intros q Hq Hfq. destruct (proj2 (regular_file s f q R) (conj Hq Hfq)). by apply Hle.
  - right. split; [|done]. intros p Hp. destruct (file f p) as [b|] eqn:E; [|done].
    destruct (proj2 (regular_file s f p R)) as [Hd Hreg]; [by rewrite E|].
    rewrite (Hnone eq_refl p Hd) in Hreg. done.
Qed.
End Queue.

(** ** Taking an alarm off the queue *)

Lemma sync_directory_calm f d :
  real_dir f d → sync_directory d (calm f) = (inl tt, calm (sync_entries d f)).
Proof.
  intros Hd. unfold sync_directory.
  rewrite (bind_run _ _ _ (inl d) (calm f)); [done|].
  unfold open_directory. rewrite observe_calm, lookup_path_dir by done. by destruct Hd as (_ & _ & ->).
Qed.

Lemma unlink_calm f d n i :
  real_dir f d → plain n → entries f !! (d ++ [n]) = Some (Reg i) →
  unlink (d ++ [n]) (calm f) = (inl tt, calm (set_entry (d ++ [n]) None f)).
Proof.
  intros Hd Hn He. unfold unlink. apply change_calm.
  rewrite lookup_path_child, He, node_app, He by done. done.
Qed.

Lemma remove_calm s f p fr i :
  ready_in s f → _ready s = true → holds s f p fr i →
  let g := sync_entries (parent_path p) (set_entry p None f) in
  remove s p (calm f) = (mkPath SP_SUCCESS (Some p) 0, calm g).
Proof.
  intros R Hr Hh. pose proof (holds_reached _ _ _ _ _ R Hh) as Hq.
  pose proof Hh as (_ & _ & Hp & He & _).
  assert (is_inside (_data_directory s) p) as Hin
    by (rewrite (rd_data _ _ R), Hp; apply alarm_path_inside).
  destruct (owned_file s f p i R Hq He Hin) as (d & n & -> & Hd & Hn & _).
  cbv zeta. unfold remove. rewrite Hr, parent_path_app. cbn [negb].
  rewrite (bind_run _ _ _ _ _ (resolve_owned_calm _ _ _ _ (disk_wf _ _ _ (rd_disk _ _ R)) Hq He Hin)).
  rewrite (bind_run _ _ _ _ _ (unlink_calm f d n i Hd Hn He)).
  rewrite parent_path_app.
  assert (real_dir (set_entry (d ++ [n]) None f) d) as Hd'.
  { eapply evolves_real_dir; [|exact Hd]. apply (set_entry_evolves 0); [by rewrite He|done..]. }
  by rewrite (bind_run _ _ _ _ _ (sync_directory_calm _ d Hd')).
Qed.

Lemma removed_entries p d f q :
  entries (sync_entries d (set_entry p None f)) !! q = if decide (q = p) then None else entries f !! q.
Proof.
  change (entries (sync_entries d (set_entry p None f))) with (entries (set_entry p None f)).
  case_decide as Hq; [subst; apply entries_set_entry|by apply entries_set_entry_ne].
Qed.

Lemma removed_small p d f : small_tree f → small_tree (sync_entries d (set_entry p None f)).
Proof.
  unfold small_tree. intros Hf. etrans; [|exact Hf]. apply Z.mul_le_mono_nonneg_l; [done|].
  apply Nat2Z.inj_le, map_subseteq_size. apply map_subseteq_spec. intros q v.
  rewrite removed_entries. by case_decide.
Qed.

Lemma removed_file p d f q :
  file (sync_entries d (set_entry p None f)) q = if decide (q = p) then None else file f q.
Proof. unfold file. rewrite removed_entries. by case_decide. Qed.
