(* ===== verification/SpoolNames.v ===== *)
(** The names of alarm files: a path inside the data directory of a spool resolves
    to itself, and two alarms share a file name only when they have the same source
    and message identifier ([hex_u64], [hex_message_id] and [alarm_filename] of
    [src/monitor/alarm_spool.cpp]). *)

From Stdlib Require Import String.
From S2P Require Import Prelude AlarmProtocol FileSystem AlarmSpool AlarmSpoolSafety.
#[local] Open Scope tlss_scope.

(** ** Resolution *)

(** Without links and dots on its way, a path resolves to itself. *)
Lemma resolve_plain links follow f : ∀ rest at_ q,
  Forall plain rest →
  (∀ r, r ≠ [] → r `prefix_of` rest → ¬ is_symlink (entries f !! (at_ ++ r))) →
  resolve links follow f at_ rest = inl q → q = at_ ++ rest.
Proof.
  induction rest as [|n rest IH]; intros at_ q Hp Hl.
  { rewrite resolve_nil. intros [= <-]. by rewrite app_nil_r. }
  apply Forall_cons in Hp as [[Hn1 Hn2] Hp]. rewrite resolve_cons, !bool_decide_false by done.
  assert (∀ q, resolve links follow f (at_ ++ [n]) rest = inl q → q = at_ ++ n :: rest) as Hgo.
  { intros q' Hq'. apply IH in Hq'; [by rewrite <- app_assoc in Hq'|done|].
    intros r Hr Hpre. rewrite <- app_assoc. cbn [app]. apply Hl; [done|]. by apply prefix_cons. }
  assert (¬ is_symlink (entries f !! (at_ ++ [n]))) as Hn.
  { apply Hl; [done|]. apply prefix_cons, prefix_nil. }
  destruct (node f at_) as [[| | |]|]; try done.
  destruct (entries f !! (at_ ++ [n])) as [[| |a t|]|]; auto; [|done]. by destruct Hn.
Qed.

Lemma spool_on_path root d p r :
  is_inside (root ++ d) p → r `prefix_of` p → on_path root r.
Proof.
  intros Hin Hr. apply inside_weaken in Hin as (n & t & ->).
  destruct (prefix_weak_total r root (root ++ n :: t)) as [H|[k ->]];
    [done|by apply prefix_app_r|by left|].
  destruct k as [|m k]; [left; by rewrite app_nil_r|right; by exists m, k].
Qed.

Lemma lookup_alarm s f p q :
  ready_in s f → is_inside (_data_directory s) p → Forall plain p →
  lookup_path true f p = inl q → q = p.
Proof.
  intros R Hin Hp. unfold lookup_path. apply resolve_plain; [done|]. intros r _ Hr. cbn [app].
  eapply (disk_links _ _ _ (rd_disk _ _ R)); [|apply entries_possible].
  rewrite (rd_data _ _ R) in Hin. by eapply spool_on_path.
Qed.

(** ** Hexadecimal digits *)

Definition digit (v : Z) : Z := HEX !!! Z.to_nat v.

Lemma digit_inj a b : 0 <= a < 16 → 0 <= b < 16 → digit a = digit b → a = b.
Proof.
  intros Ha Hb.
  assert (∀ i j : nat, (i < 16)%nat → (j < 16)%nat → HEX !!! i = HEX !!! j → i = j) as Hinj.
  { intros i j Hi Hj. do 16 (destruct i as [|i]; [do 16 (destruct j as [|j]; [by vm_compute|]); lia|]). lia. }
  intros He. apply Hinj in He; lia.
Qed.

Definition nibble (v : Z) (k : nat) : Z := Z.land (Z.shiftr v (4 * Z.of_nat k)) 15.

Lemma nibble_range v k : 0 <= nibble v k < 16.
Proof. unfold nibble. rewrite (Z.land_ones _ 4) by lia. apply Z.mod_pos_bound. lia. Qed.

Lemma nibble_shift v k : nibble (Z.shiftr v 4) k = nibble v (S k).
Proof. unfold nibble. rewrite Z.shiftr_shiftr by lia. do 2 f_equal. lia. Qed.

Lemma nibbles_inj n a b :
  0 <= a < 2 ^ (4 * Z.of_nat n) → 0 <= b < 2 ^ (4 * Z.of_nat n) →
  (∀ k, (k < n)%nat → nibble a k = nibble b k) → a = b.
Proof.
  revert a b. induction n as [|n IH]; intros a b Ha Hb Hk; [cbn in *; lia|].
  assert (nibble a 0 = nibble b 0) as H0 by (apply Hk; lia).
  unfold nibble in H0. cbn [Z.of_nat Z.mul] in H0. rewrite !Z.shiftr_0_r, !(Z.land_ones _ 4) in H0 by lia.
  assert (Z.shiftr a 4 = Z.shiftr b 4) as H1.
  { assert (∀ c, 0 <= c < 2 ^ (4 * Z.of_nat (S n)) → 0 <= Z.shiftr c 4 < 2 ^ (4 * Z.of_nat n)) as Hr.
    { intros c Hc. rewrite Z.shiftr_div_pow2 by lia. split; [apply Z.div_pos; lia|].
      apply Z.div_lt_upper_bound; [lia|]. rewrite <- Z.pow_add_r by lia.
      replace (4 + 4 * Z.of_nat n) with (4 * Z.of_nat (S n)) by lia. lia. }
    apply IH; [by apply Hr..|]. intros k Hlt. rewrite !nibble_shift. apply Hk. lia. }
  rewrite !Z.shiftr_div_pow2 in H1 by lia. change (2 ^ 4) with 16 in *. dlia.
Qed.

Lemma hex_loop_lookup n : ∀ output index v k,
  (index < length output)%nat → (n <= S index)%nat → (k <= index)%nat → (S index - n <= k)%nat →
  hex_loop n output index v !! k = Some (digit (nibble v (index - k))).
Proof.
  assert (∀ n output index v k, (index < k)%nat → hex_loop n output index v !! k = output !! k) as Hgt.
  { clear n. induction n as [|n IH]; intros output index v k Hk; [done|]. cbn [hex_loop].
    rewrite IH by lia. apply list_lookup_insert_ne. lia. }
  induction n as [|n IH]; intros output index v k Hi Hn Hk Hlo; [lia|]. cbn [hex_loop].
  assert (HEX !!! Z.to_nat (Z.land v 15) = digit (nibble v 0)) as Hd.
  { unfold digit, nibble. by rewrite Z.shiftr_0_r. }
  destruct (decide (k = index)) as [->|Hne].
  - rewrite Nat.sub_diag, <- Hd. destruct index as [|index].
    + destruct n; [|lia]. cbn [hex_loop]. by apply list_lookup_insert_eq.
    + rewrite Hgt by (cbn; lia). by apply list_lookup_insert_eq.
  - rewrite IH; [|rewrite length_insert; lia|lia|lia|lia].
    rewrite nibble_shift. do 3 f_equal. lia.
Qed.

Lemma hex_u64_length v : length (hex_u64 v) = 16%nat.
Proof. unfold hex_u64. by rewrite length_hex_loop. Qed.

Lemma hex_u64_inj a b : is_u64 a → is_u64 b → hex_u64 a = hex_u64 b → a = b.
Proof.
  intros Ha Hb He. apply (nibbles_inj 16); [exact Ha|exact Hb|]. intros k Hk.
  assert (∀ v, hex_u64 v !! (15 - k)%nat = Some (digit (nibble v k))) as Hd.
  { intros v. unfold hex_u64. cbv zeta. rewrite hex_loop_lookup; rewrite ?length_replicate; try lia.
    do 3 f_equal. lia. }
  pose proof (Hd a) as H1. rewrite He, Hd in H1. injection H1 as H1.
  symmetry. apply digit_inj; [apply nibble_range..|done].
Qed.

Lemma hex_message_id_inj a : ∀ b,
  bytes_ok a → bytes_ok b → hex_message_id a = hex_message_id b → a = b.
Proof.
  induction a as [|x a IH]; intros [|y b] Ha Hb; try done. unfold hex_message_id. cbn [map concat app].
  intros He. injection He as H1 H2 H3. apply Forall_cons in Ha as [Hx Ha], Hb as [Hy Hb].
  f_equal; [|by apply IH]. apply digit_inj in H2; [|apply (nibble_range x 0)|apply (nibble_range y 0)].
  rewrite !(Z.land_ones _ 4) in H2 by lia.
  apply digit_inj in H1; [|rewrite Z.shiftr_div_pow2 by lia; unfold is_byte in *; change (2 ^ 4) with 16; dlia..].
  rewrite !Z.shiftr_div_pow2 in H1 by lia. change (2 ^ 4) with 16 in *. dlia.
Qed.

(** ** Alarms are told apart *)

Lemma alarm_filename_inj a m b n :
  is_u64 a → is_u64 b → bytes_ok m → bytes_ok n →
  alarm_filename a m = alarm_filename b n → a = b ∧ m = n.
Proof.
  intros Ha Hb Hm Hn He. unfold alarm_filename in He.
  apply app_inj_1 in He as [H1 H2]; [|by rewrite !hex_u64_length].
  cbn in H2. injection H2 as H2.
  split; [by apply hex_u64_inj|]. apply hex_message_id_inj; [done..|].
  by eapply app_inv_tail.
Qed.

Lemma alarm_path_inj root kind a b :
  frame_ok a → frame_ok b → alarm_path root kind a = alarm_path root kind b →
  _source_id a = _source_id b ∧ _message_id a = _message_id b.
Proof.
  intros (_ & Ha & _ & Hm & _) (_ & Hb & _ & Hn & _) He. unfold alarm_path in He.
  apply app_inj_tail in He as [_ He]. by apply alarm_filename_inj.
Qed.

(** The path of an alarm has plain names. *)
Lemma alarm_path_plain s f fr :
  ready_in s f → Forall plain (alarm_path (_sroot s) (kind_of s) fr).
Proof.
  intros R. unfold alarm_path. apply Forall_app. split; [by eapply plain_alarm_dir|].
  apply Forall_singleton, plain_filename.
Qed.
