(* ===== verification/Effects.v ===== *)
(** The effects of the worker threads and the program logic for them: a
    computation changes a world and returns, throws, or goes wrong. The publisher
    ([ReliablePublisher.v]), the collector ([ReliableCollector.v]) and the wake-up
    pipe ([WakePipe.v]) are written in it.

    What a thread meets outside itself (other threads, clocks, sockets, memory)
    is scripted: the world holds a finite list of answers, [script_left] counts
    what is left of it, and a loop may run once more than there are answers left.
    The theorems quantify over all scripts. *)

From S2P Require Import Prelude.

Inductive Exn := BadAlloc | OtherExn.

(** A computation returns, throws, or is [Stuck]: undefined behaviour, or a loop
    that outran its bound. *)
Inductive Outcome (A : Type) := Returned (x : A) | Thrown (e : Exn) | Stuck.
#[global] Arguments Returned {A}.
#[global] Arguments Thrown {A}.
#[global] Arguments Stuck {A}.

Definition Eff (W A : Type) : Type := W → Outcome A * W.

#[export] Instance Eff_ret W : MRet (Eff W) := λ _ x w, (Returned x, w).
#[export] Instance Eff_bind W : MBind (Eff W) := λ _ _ k m w,
  match m w with
  | (Returned x, w') => k x w'
  | (Thrown e, w') => (Thrown e, w')
  | (Stuck, w') => (Stuck, w')
  end.

Section Eff.
Context {W : Type}.

Definition throw {A} (e : Exn) : Eff W A := λ w, (Thrown e, w).
Definition catch {A} (m : Eff W A) (handler : Exn → Eff W A) : Eff W A := λ w,
  match m w with (Thrown e, w') => handler e w' | r => r end.

(** A value that undefined behaviour may have prevented. *)
Definition defined {A} (o : option A) : Eff W A := λ w,
  match o with Some x => (Returned x, w) | None => (Stuck, w) end.

(** [for (;;)]: a round goes on with a new state or ends the loop. *)
Fixpoint iter {S A} (fuel : nat) (body : S → Eff W (S + A)) (s : S) : Eff W A :=
  match fuel with
  | O => λ w, (Stuck, w)
  | Datatypes.S n =>
      r ← body s;
      match r with
      | inl s' => iter n body s'
      | inr x => mret x
      end
  end.

(** A loop over the elements of a container that ends early with [inr]. *)
Fixpoint each {X S A} (body : S → X → Eff W (S + A)) (l : list X) (s : S) : Eff W (S + A) :=
  match l with
  | [] => mret (inl s)
  | x :: rest =>
      r ← body s x;
      match r with
      | inl s' => each body rest s'
      | inr a => mret (inr a)
      end
  end.

End Eff.

(** How much of the script is left. *)
Class Scripted (W : Type) := script_left : W → nat.

(** The bound of a loop: every round that goes on takes a part of the script. *)
Definition loop `{Scripted W} {S A} (body : S → Eff W (S + A)) (s : S) : Eff W A := λ w,
  iter (Datatypes.S (script_left w)) body s w.

(** ** Execution *)

Lemma bind_returned {W A B} (m : Eff W A) (k : A → Eff W B) w x w' :
  m w = (Returned x, w') → (m ≫= k) w = k x w'.
Proof. intros Hm. unfold mbind, Eff_bind. by rewrite Hm. Qed.

Lemma bind_returns {W A B} (m : Eff W A) (k : A → Eff W B) w y w' :
  (m ≫= k) w = (Returned y, w') → ∃ x w1, m w = (Returned x, w1) ∧ k x w1 = (Returned y, w').
Proof. unfold mbind, Eff_bind. destruct (m w) as [[x|e|] w1]; [|done..]. eauto. Qed.

Lemma catch_returned {W A B} (m : Eff W A) (k : A → Eff W B) h w x w' :
  m w = (Returned x, w') → catch (m ≫= k) h w = catch (k x) h w'.
Proof. intros Hm. unfold catch. by rewrite (bind_returned _ _ _ _ _ Hm). Qed.

Lemma catch_thrown {W A B} (m : Eff W A) (k : A → Eff W B) h w e w' :
  m w = (Thrown e, w') → catch (m ≫= k) h w = h e w'.
Proof. intros Hm. unfold catch, mbind, Eff_bind. by rewrite Hm. Qed.

Lemma defined_run {W A} (o : option A) x (w : W) : o = Some x → defined o w = (Returned x, w).
Proof. by intros ->. Qed.

(** A loop that ends within [n] rounds ends the same way under a larger bound. *)
Lemma iter_more {W S A} n m (body : S → Eff W (S + A)) : ∀ s w x w',
  (n <= m)%nat → iter n body s w = (Returned x, w') → iter m body s w = (Returned x, w').
Proof.
  revert m. induction n as [|n IH]; intros m s w x w' Hm; [done|].
  destruct m as [|m]; [lia|]. cbn [iter]. unfold mbind, Eff_bind.
  destruct (body s w) as [[[s'|y]|e|] w1]; try done. apply IH. lia.
Qed.

Lemma loop_run `{Scripted W} {S A} n (body : S → Eff W (S + A)) s w x w' :
  (n <= Datatypes.S (script_left w))%nat → iter n body s w = (Returned x, w') →
  loop body s w = (Returned x, w').
Proof. apply iter_more. Qed.

(** ** Computations that do not throw *)

Definition nothrow {W A} (m : Eff W A) : Prop := ∀ w e, (m w).1 ≠ Thrown e.

Section Nothrow.
Context {W : Type}.

Lemma nothrow_ret {A} (x : A) : nothrow (W := W) (mret x).
Proof. done. Qed.

Lemma nothrow_bind {A B} (m : Eff W A) (k : A → Eff W B) :
  nothrow m → (∀ x, nothrow (k x)) → nothrow (m ≫= k).
Proof.
  intros Hm Hk w e. unfold mbind, Eff_bind. specialize (Hm w).
  destruct (m w) as [[x|e'|] w']; cbn in *; [apply Hk|by edestruct Hm|done].
Qed.

Lemma nothrow_iter {S A} n (body : S → Eff W (S + A)) : ∀ s,
  (∀ s, nothrow (body s)) → nothrow (iter n body s).
Proof.
  induction n as [|n IH]; intros s Hb; [by intros w e|]. cbn [iter].
  apply nothrow_bind; [apply Hb|]. intros [s'|x]; [by apply IH|apply nothrow_ret].
Qed.

Lemma nothrow_loop `{Scripted W} {S A} (body : S → Eff W (S + A)) s :
  (∀ s, nothrow (body s)) → nothrow (loop body s).
Proof. intros Hb w. by apply nothrow_iter. Qed.

Lemma nothrow_each {X S A} (body : S → X → Eff W (S + A)) l : ∀ s,
  (∀ s x, nothrow (body s x)) → nothrow (each body l s).
Proof.
  induction l as [|x l IH]; intros s Hb; [apply nothrow_ret|]. cbn [each].
  apply nothrow_bind; [apply Hb|]. intros [s'|a]; [by apply IH|apply nothrow_ret].
Qed.

Lemma nothrow_catch {A} (m : Eff W A) h : (∀ e, nothrow (h e)) → nothrow (catch m h).
Proof.
  intros Hh w e. unfold catch. destruct (m w) as [[x|e'|] w']; cbn; [done|apply Hh|done].
Qed.

Lemma nothrow_defined {A} (o : option A) : nothrow (W := W) (defined o).
Proof. intros w e. by destruct o. Qed.

End Nothrow.

Create HintDb noexcept.

(** Splits a computation down to the calls it makes. *)
Ltac noexcept :=
  repeat (intros; cbv beta zeta; lazymatch goal with
    | |- nothrow (_ ≫= _) => apply nothrow_bind
    | |- nothrow (catch _ _) => apply nothrow_catch
    | |- nothrow (loop _ _) => apply nothrow_loop
    | |- nothrow (each _ _ _) => apply nothrow_each
    | |- nothrow (defined _) => apply nothrow_defined
    | |- nothrow (mret _) => apply nothrow_ret
    | |- nothrow (match ?x with _ => _ end) => destruct x
    | |- nothrow _ => first [done | solve [auto with noexcept]]
    end).

(** ** Computations that respect a relation *)

(** However [m] ends, the worlds before and after are related. *)
Definition respects {W A} (R : W → W → Prop) (m : Eff W A) : Prop := ∀ w, R w (m w).2.

Section Respects.
Context {W : Type} (R : W → W → Prop) `{!PreOrder R}.

Lemma respects_ret {A} (x : A) : respects R (mret x).
Proof. intros w. cbn. reflexivity. Qed.

Lemma respects_throw {A} e : respects R (throw (A := A) e).
Proof. intros w. cbn. reflexivity. Qed.

Lemma respects_defined {A} (o : option A) : respects R (defined o).
Proof. intros w. destruct o; cbn; reflexivity. Qed.

Lemma respects_bind {A B} (m : Eff W A) (k : A → Eff W B) :
  respects R m → (∀ x, respects R (k x)) → respects R (m ≫= k).
Proof.
  intros Hm Hk w. unfold mbind, Eff_bind. specialize (Hm w).
  destruct (m w) as [[x|e|] w']; cbn in *; [|done..]. etrans; [exact Hm|apply Hk].
Qed.

Lemma respects_catch {A} (m : Eff W A) h :
  respects R m → (∀ e, respects R (h e)) → respects R (catch m h).
Proof.
  intros Hm Hh w. unfold catch. specialize (Hm w).
  destruct (m w) as [[x|e|] w']; cbn in *; [done| |done]. etrans; [exact Hm|apply Hh].
Qed.

Lemma respects_loop `{Scripted W} {S A} (body : S → Eff W (S + A)) s :
  (∀ s, respects R (body s)) → respects R (loop body s).
Proof.
  intros Hb w. unfold loop. generalize (Datatypes.S (script_left w)) as n. intros n.
  revert s w. induction n as [|n IH]; intros s w; cbn [iter]; [cbn; reflexivity|].
  apply respects_bind; [apply Hb|]. intros [s'|x]; [intros w'; apply IH|apply respects_ret].
Qed.

Lemma respects_each {X S A} (body : S → X → Eff W (S + A)) l : ∀ s,
  (∀ s x, respects R (body s x)) → respects R (each body l s).
Proof.
  induction l as [|x l IH]; intros s Hb; [apply respects_ret|]. cbn [each].
  apply respects_bind; [apply Hb|]. intros [s'|a]; [by apply IH|apply respects_ret].
Qed.

End Respects.

Create HintDb respect.

(** Splits a computation down to the calls it makes. *)
Ltac respectful :=
  repeat (intros; cbv beta zeta; lazymatch goal with
    | |- respects _ (_ ≫= _) => apply respects_bind
    | |- respects _ (catch _ _) => apply respects_catch
    | |- respects _ (loop _ _) => apply respects_loop
    | |- respects _ (each _ _ _) => apply respects_each
    | |- respects _ (defined _) => apply respects_defined
    | |- respects _ (throw _) => apply respects_throw
    | |- respects _ (mret _) => apply respects_ret
    | |- respects _ (match ?x with _ => _ end) => destruct x
    | |- respects _ _ => solve [auto with respect]
    | |- PreOrder _ => apply _
    end).

(** ** The program logic *)

(** [trans w l w'] relates a world to a later one, [l] being what the log gained;
    it goes through worlds in which [inv] holds. *)
Class Histories (W Ob : Type) (inv : W → Prop) (trans : W → list Ob → W → Prop) := {
  hist_inv w l w' : trans w l w' → inv w';
  hist_refl w : inv w → trans w [] w;
  hist_trans w l w1 k w2 : trans w l w1 → trans w1 k w2 → trans w (l ++ k) w2
}.

(** Run in [w], [m] is not stuck, its end is related to [w], and when it returns
    [x] having seen [l], the end satisfies [Q]. *)
Definition hoare {W Ob A} (trans : W → list Ob → W → Prop) (m : Eff W A)
    (Q : A → list Ob → W → Prop) (w : W) : Prop :=
  ∃ l, trans w l (m w).2 ∧
    match (m w).1 with
    | Returned x => Q x l (m w).2
    | Thrown _ => True
    | Stuck => False
    end.

Section Hoare.
Context {W Ob : Type} {inv : W → Prop} {trans : W → list Ob → W → Prop}.
Context `{!Histories W Ob inv trans}.
#[local] Abbreviation wpp := (hoare trans).

Lemma hoare_ret {A} (x : A) Q w : inv w → Q x [] w → wpp (mret x) Q w.
Proof. intros I HQ. exists []. split; [by apply hist_refl|done]. Qed.

Lemma hoare_throw {A} e (Q : A → list Ob → W → Prop) w : inv w → wpp (throw e) Q w.
Proof. intros I. exists []. split; [by apply hist_refl|done]. Qed.

Lemma hoare_bind {A B} (m : Eff W A) (k : A → Eff W B) Q w :
  wpp m (λ x l w', wpp (k x) (λ y l' w'', Q y (l ++ l') w'') w') w → wpp (m ≫= k) Q w.
Proof.
  intros (l & T & HM). unfold hoare, mbind, Eff_bind.
  destruct (m w) as [[x|e|] w1]; cbn [fst snd] in *; [|by exists l|done].
  destruct HM as (l' & T' & HP). exists (l ++ l'). split; [by eapply hist_trans|]. done.
Qed.

Lemma hoare_mono {A} (m : Eff W A) (P Q : A → list Ob → W → Prop) w :
  wpp m P w → (∀ x l w', trans w l w' → inv w' → P x l w' → Q x l w') → wpp m Q w.
Proof.
  intros (l & T & HP) HQ. exists l. split; [done|]. pose proof (hist_inv _ _ _ T).
  destruct (m w) as [[x|e|] w1]; cbn in *; eauto.
Qed.

Lemma hoare_catch {A} (m : Eff W A) h Q w :
  wpp m Q w → (∀ e l w', trans w l w' → inv w' → wpp (h e) (λ x l' w'', Q x (l ++ l') w'') w') →
  wpp (catch m h) Q w.
Proof.
  intros (l & T & HM) Hh. unfold hoare, catch.
  destruct (m w) as [[x|e|] w1] eqn:E; cbn [fst snd] in *; [by exists l| |done].
  destruct (Hh e l w1 T (hist_inv _ _ _ T)) as (l' & T' & HP). exists (l ++ l').
  split; [by eapply hist_trans|]. done.
Qed.

Lemma hoare_catch_nothrow {A} (m : Eff W A) h Q w : nothrow m → wpp m Q w → wpp (catch m h) Q w.
Proof.
  intros Hn (l & T & HP). exists l. unfold catch. specialize (Hn w).
  destruct (m w) as [[x|e|] w1]; [done|by edestruct Hn|done].
Qed.

Lemma hoare_defined {A} (o : option A) (Q : A → list Ob → W → Prop) w x :
  inv w → o = Some x → Q x [] w → wpp (defined o) Q w.
Proof. intros I -> HQ. by apply hoare_ret. Qed.

(** A computation that starts with steps that were seen. *)
Lemma hoare_from {A} (m m1 : Eff W A) Q l w w1 :
  trans w l w1 → m w = m1 w1 → wpp m1 (λ x l' w', Q x (l ++ l') w') w1 → wpp m Q w.
Proof.
  intros T He (l' & T' & HQ). exists (l ++ l'). rewrite He. split; [by eapply hist_trans|done].
Qed.

Lemma hoare_respects {A} R (m : Eff W A) Q w :
  wpp m Q w → respects R m → wpp m (λ x l w', Q x l w' ∧ R w w') w.
Proof.
  intros (l & T & HM) HR. exists l. split; [done|]. specialize (HR w).
  by destruct (m w) as [[x|e|] w1].
Qed.

(** A loop whose rounds, as long as they go on, use up the script. *)
Lemma hoare_loop `{Scripted W} {S A} (body : S → Eff W (S + A)) (J : S → list Ob → W → Prop) Q :
  ∀ s w, inv w → J s [] w →
  (∀ s l0 w0, trans w l0 w0 → inv w0 → J s l0 w0 →
     wpp (body s) (λ r l w',
       match r with
       | inl s' => (script_left w' < script_left w0)%nat ∧ J s' (l0 ++ l) w'
       | inr x => Q x (l0 ++ l) w'
       end) w0) →
  wpp (loop body s) Q w.
Proof.
  intros s w I HJ Hbody. unfold loop, hoare.
  enough (∀ n s l0 w0, trans w l0 w0 → J s l0 w0 → (script_left w0 < n)%nat →
    wpp (iter n body s) (λ x l w', Q x (l0 ++ l) w') w0) as Hn.
  { apply (Hn _ s [] w); [by apply hist_refl|done|lia]. }
  clear s HJ. induction n as [|n IH]; intros s l0 w0 T HJ Hn; [lia|]. cbn [iter].
  apply hoare_bind. eapply hoare_mono; [by apply (Hbody s l0); [|eapply hist_inv|]|]. cbv beta.
  intros [s'|x] l w' T' I' HP.
  - destruct HP as [Hlt HJ'].
    eapply hoare_mono; [apply (IH s' (l0 ++ l)); [by eapply hist_trans|done|lia]|].
    cbv beta. intros. by rewrite app_assoc.
  - apply hoare_ret; [done|]. by rewrite app_nil_r.
Qed.

(** A loop over a list, with what is left of it. *)
Lemma hoare_each {X S A} (body : S → X → Eff W (S + A)) (J : list X → S → list Ob → W → Prop) Q :
  ∀ xs s w, inv w → J xs s [] w →
  (∀ x rest s l0 w0, trans w l0 w0 → inv w0 → J (x :: rest) s l0 w0 →
     wpp (body s x) (λ r l w',
       match r with
       | inl s' => J rest s' (l0 ++ l) w'
       | inr a => Q (inr a) (l0 ++ l) w'
       end) w0) →
  (∀ s l w', trans w l w' → inv w' → J [] s l w' → Q (inl s) l w') →
  wpp (each body xs s) Q w.
Proof.
  intros xs s w I HJ Hbody Hend.
  enough (∀ s l0 w0, trans w l0 w0 → J xs s l0 w0 →
    wpp (each body xs s) (λ x l w', Q x (l0 ++ l) w') w0) as Hn.
  { apply (Hn s [] w); [by apply hist_refl|done]. }
  clear s HJ I. induction xs as [|x xs IH]; intros s l0 w0 T HJ; cbn [each].
  { apply hoare_ret; [by eapply hist_inv|]. rewrite app_nil_r. apply Hend; auto. by eapply hist_inv. }
  apply hoare_bind. eapply hoare_mono; [by apply (Hbody x xs s l0); [|eapply hist_inv|]|]. cbv beta.
  intros [s'|a] l w' T' I' HP.
  - eapply hoare_mono; [apply (IH s' (l0 ++ l)); [by eapply hist_trans|done]|].
    cbv beta. intros. by rewrite app_assoc.
  - apply hoare_ret; [done|]. by rewrite app_nil_r.
Qed.

End Hoare.

(** ** Constants of the system *)

Definition INT_MAX : Z := 2 ^ 31 - 1.
Definition NS_PER_MS : Z := 1000000.
Definition ENOMEM : Z := 12.
Definition ENODEV : Z := 19.
Definition EAGAIN : Z := 11.
Definition EALREADY : Z := 114.
Definition EINPROGRESS : Z := 115.
Definition EADDRNOTAVAIL : Z := 99.
Definition EAFNOSUPPORT : Z := 97.
Definition POLLIN : Z := 1.
Definition POLLOUT : Z := 4.
Definition POLLERR : Z := 8.
Definition POLLHUP : Z := 16.
Definition POLLNVAL : Z := 32.
