(* ===== verification/ReliablePublisher.v ===== *)
(** The reliable alarm publisher ([src/monitor/reliable_alarm_publisher.cpp],
    [inc/monitor/reliable_alarm_publisher.h]): alarms are stored in an outbox and
    sent by a background thread until the collector confirms them.

    The worker talks to its surroundings one interaction at a time: it takes the
    mutex, reads a clock, allocates, or makes a call on a socket. What it meets
    there is scripted: an [Event] says what the other threads did since the
    previous interaction (they store alarms, set the work flag, ask for the
    stop) and what the call answers. A script that has run out asks for the stop,
    so every run of the worker is finite; scripts are arbitrary in the theorems.
    The outbox lives on the file system of [FileSystem.v]. *)

From Stdlib Require Import String.
From S2P Require Import Prelude MonitorData MonitorWire MonitorStore MonitorReporter.
From S2P Require Import AlarmProtocol FileSystem AlarmSpool Effects.
#[local] Open Scope tlss_scope.

(** ** Types *)

Record ReliableAlarmPublisherConfig := mkPublisherConfig {
  _collector_host : bytes;
  _collector_port : Z;
  _psource_id : Z;
  _outbox_dir : option path;
  _max_outbox_bytes : Z;
  _ack_timeout : Z;
  _max_backoff : Z
}.

Inductive ReliableAlarmPublisherSetupStatus :=
  | SETUP_SUCCESS | INVALID_CONFIG | SPOOL_ERROR | THREAD_ERROR.

Inductive IoStatus := IO_DONE | IO_TIMEOUT | IO_STOPPED | IO_FAILED.
Inductive DeliveryStatus := DELIVERED | STOPPED | SEND_FAILED | ACK_TIMEOUT | INVALID_ACK.

(** [ReliableAlarmPublisher::Impl]; durations in milliseconds. *)
Record Impl := mkImpl {
  _spool : option AlarmSpool;
  _accepting : bool;
  _stop : bool;
  _work_pending : bool;
  _connected : bool;
  _socket : Z;
  _current_backoff : Z;
  _connect_failures : Z;
  _send_failures : Z;
  _ack_timeouts : Z;
  _acks : Z;
  _psetup_status : ReliableAlarmPublisherSetupStatus;
  _psetup_error : Z
}.

Definition new_impl : Impl :=
  mkImpl None false false false false (-1) 0 0 0 0 0 INVALID_CONFIG 0.

Definition set_spool (s : AlarmSpool) (i : Impl) : Impl :=
  mkImpl (Some s) (_accepting i) (_stop i) (_work_pending i) (_connected i) (_socket i)
    (_current_backoff i) (_connect_failures i) (_send_failures i) (_ack_timeouts i) (_acks i)
    (_psetup_status i) (_psetup_error i).
Definition set_flags (accepting stop : bool) (i : Impl) : Impl :=
  mkImpl (_spool i) accepting stop (_work_pending i) (_connected i) (_socket i)
    (_current_backoff i) (_connect_failures i) (_send_failures i) (_ack_timeouts i) (_acks i)
    (_psetup_status i) (_psetup_error i).
Definition set_pending (b : bool) (i : Impl) : Impl :=
  mkImpl (_spool i) (_accepting i) (_stop i) b (_connected i) (_socket i)
    (_current_backoff i) (_connect_failures i) (_send_failures i) (_ack_timeouts i) (_acks i)
    (_psetup_status i) (_psetup_error i).
Definition set_socket (fd : Z) (connected : bool) (i : Impl) : Impl :=
  mkImpl (_spool i) (_accepting i) (_stop i) (_work_pending i) connected fd
    (_current_backoff i) (_connect_failures i) (_send_failures i) (_ack_timeouts i) (_acks i)
    (_psetup_status i) (_psetup_error i).
Definition set_backoff (ms : Z) (i : Impl) : Impl :=
  mkImpl (_spool i) (_accepting i) (_stop i) (_work_pending i) (_connected i) (_socket i)
    ms (_connect_failures i) (_send_failures i) (_ack_timeouts i) (_acks i)
    (_psetup_status i) (_psetup_error i).
Definition set_counters (connect send timeouts acks : Z) (i : Impl) : Impl :=
  mkImpl (_spool i) (_accepting i) (_stop i) (_work_pending i) (_connected i) (_socket i)
    (_current_backoff i) connect send timeouts acks (_psetup_status i) (_psetup_error i).
Definition set_psetup (st : ReliableAlarmPublisherSetupStatus) (e : Z) (i : Impl) : Impl :=
  mkImpl (_spool i) (_accepting i) (_stop i) (_work_pending i) (_connected i) (_socket i)
    (_current_backoff i) (_connect_failures i) (_send_failures i) (_ack_timeouts i) (_acks i)
    st e.

(** ** The surroundings *)

(** What other threads do: [stop], the [store] of an [enqueue], and its
    notification. *)
Inductive Outer := OuterStop | OuterStore (frame : AlarmFrame) | OuterNotify.

(** One interaction. [e_ret] and [e_errno] are what a call returns, [e_bytes]
    what it stores, [e_revents] the [revents] of [poll] or the [SO_ERROR] of a
    socket, [e_addresses] the length of an address list, [e_alloc] whether memory
    is available; [e_now] is the steady clock in nanoseconds. *)
Record Event := mkEvent {
  e_outer : list Outer;
  e_now : Z;
  e_ret : Z;
  e_errno : Z;
  e_bytes : bytes;
  e_revents : Z;
  e_addresses : nat;
  e_alloc : bool
}.

(** What the worker did, in order. *)
Inductive Obs :=
  | SawConnect (fd : Z) | SawSend (fd : Z) (data : bytes) | SawRecv (fd : Z) (data : bytes)
  | SawClose (fd : Z) | SawRead (p : path) (st : AlarmSpoolStatus)
  | SawQuarantine (p : path) | SawRemove (p : path) (wire : bytes).

Record PWorld := mkPWorld { pub : Impl; sys : World; script : list Event; log : list Obs }.

Abbreviation Pub := (Eff PWorld).

#[export] Instance Pub_scripted : Scripted PWorld := λ w, length (script w).

Definition get_impl : Pub Impl := λ w, (Returned (pub w), w).
Definition modify (g : Impl → Impl) : Pub unit := λ w,
  (Returned tt, mkPWorld (g (pub w)) (sys w) (script w) (log w)).
Definition record_obs (o : Obs) : Pub unit := λ w,
  (Returned tt, mkPWorld (pub w) (sys w) (script w) (log w ++ [o])).

Definition on_system {A} (m : Sys A) : Pub A := λ w,
  let '(x, w') := m (sys w) in (Returned x, mkPWorld (pub w) w' (script w) (log w)).

(** An operation of the spool; the pointer is never null when it is used. *)
Definition on_spool {A} (m : AlarmSpool → Sys (A * AlarmSpool)) : Pub A := λ w,
  match _spool (pub w) with
  | None => (Stuck, w)
  | Some s => let '((x, s'), w') := m s (sys w) in
              (Returned x, mkPWorld (set_spool s' (pub w)) w' (script w) (log w))
  end.
Definition asking {A} (m : AlarmSpool → Sys A) (s : AlarmSpool) : Sys (A * AlarmSpool) :=
  x ← m s; mret (x, s).

(** ** Constants *)

Definition FIRST_BACKOFF : Z := 100.
Definition MESSAGE_ID_ATTEMPTS : nat := 4.

(** ** Pure helpers *)

(** A null [Deadline] is undefined behaviour: signed overflow. *)
Definition make_deadline (now timeout : Z) : option Z :=
  maximum ← i64_sub INT64_MAX now;
  timeout_ns ← i64_mul timeout NS_PER_MS;
  if maximum <=? timeout_ns then Some INT64_MAX else i64_add now timeout_ns.

Definition remaining_timeout_ms (now deadline : Z) : option Z :=
  if deadline <=? now then Some 0 else
  remaining ← i64_sub deadline now;
  let milliseconds := remaining / NS_PER_MS in
  let milliseconds := if milliseconds * NS_PER_MS <? remaining then milliseconds + 1
                      else milliseconds in
  Some (if INT_MAX <? milliseconds then INT_MAX else milliseconds).

Definition valid_config (config : ReliableAlarmPublisherConfig) : bool :=
  negb (bool_decide (_collector_host config = [])) && negb (_collector_port config =? 0)
  && negb (_psource_id config =? 0) && bool_decide (_outbox_dir config ≠ None)
  && (0 <? _ack_timeout config) && (FIRST_BACKOFF <=? _max_backoff config).

Definition timestamp_milliseconds (timestamp : Z) : option Z :=
  if timestamp <? 0 then None else Some (u64 (timestamp / NS_PER_MS)).

Definition map_spool_result (result : AlarmSpoolStoreResult) : AlarmEnqueueResult :=
  match _ststatus result with
  | SP_SUCCESS => mkEnqueue ENQ_SUCCESS 0
  | SP_FULL => mkEnqueue SPOOL_FULL 0
  | SP_NOT_READY => mkEnqueue NOT_READY (_sterror result)
  | SP_DUPLICATE => mkEnqueue RANDOM_FAILED EEXIST
  | SP_INVALID_ARGUMENT | SP_INVALID_FRAME => mkEnqueue ENCODE_FAILED 0
  | SP_EMPTY | SP_NOT_FOUND | SP_OUTSIDE_ROOT | SP_CORRUPT | SP_IO_ERROR =>
      mkEnqueue IO_ERROR (_sterror result)
  end.

Section Publisher.
Context `{DirOrder} (pid : Z) (config : ReliableAlarmPublisherConfig).

(** ** Interactions *)

Definition request_stop (i : Impl) : Impl := set_flags false true i.

(** [_spool->store] of a frame. *)
Definition store_frame (frame : AlarmFrame) (wire : bytes) : Pub AlarmSpoolStoreResult :=
  on_spool (λ s, store pid s (_source_id frame) (_message_id frame) wire).

Definition act (o : Outer) (w : PWorld) : PWorld :=
  match o with
  | OuterStop => (modify request_stop w).2
  | OuterNotify => (modify (set_pending true) w).2
  | OuterStore frame =>
      match encoded_bytes true frame with
      | Some (Some wire) => (store_frame frame wire w).2
      | _ => w
      end
  end.

Definition last_event : Event := mkEvent [OuterStop] 0 (-1) EIO [] 0 0 true.

(** The next interaction: the others act, then the answer is taken. *)
Definition tick : Pub Event := λ w,
  match script w with
  | [] => (Returned last_event, foldl (flip act) w (e_outer last_event))
  | e :: l => (Returned e, foldl (flip act) (mkPWorld (pub w) (sys w) l (log w)) (e_outer e))
  end.

Definition clock_now : Pub Z := e ← tick; mret (e_now e).

(** An allocation. *)
Definition allocate_memory : Pub unit := e ← tick; if e_alloc e then mret tt else throw BadAlloc.

Definition ready : Pub bool := _ ← tick; i ← get_impl; mret (_accepting i).
Definition stopping : Pub bool := _ ← tick; i ← get_impl; mret (_stop i).
Definition socket_snapshot : Pub Z := _ ← tick; i ← get_impl; mret (_socket i).

(** A change of the object under its mutex. *)
Definition locked (g : Impl → Impl) : Pub unit := _ ← tick; modify g.

(** [getrandom]: the bytes stored, or [errno]. *)
Definition getrandom (size : nat) : Pub (bytes + Z) :=
  e ← tick; mret (if e_ret e <? 0 then inr (e_errno e) else inl (take size (e_bytes e))).

(** [send]: the number of bytes taken, or [errno]. *)
Definition send (fd : Z) (data : bytes) : Pub (Z + Z) :=
  e ← tick;
  if e_ret e <? 0 then mret (inr (e_errno e)) else
  let sent := take (Z.to_nat (e_ret e)) data in
  _ ← record_obs (SawSend fd sent);
  mret (inl ♯sent).

(** [recv]: the bytes received, none at the end of the stream, or [errno]. *)
Definition recv (fd : Z) (size : nat) : Pub (bytes + Z) :=
  e ← tick;
  if e_ret e <? 0 then mret (inr (e_errno e)) else
  let received := take size (e_bytes e) in
  _ ← record_obs (SawRecv fd received);
  mret (inl received).

Definition close_fd (fd : Z) : Pub unit := _ ← tick; record_obs (SawClose fd).

(** A call of which only the return value matters. *)
Definition returns : Pub Z := e ← tick; mret (e_ret e).

(** ** Random identifiers *)

Definition secure_random_message_id : Pub (bytes + Z) :=
  loop (λ message_id : bytes,
    if (length message_id <? ALARM_MESSAGE_ID_SIZE)%nat then
      received ← getrandom (ALARM_MESSAGE_ID_SIZE - length message_id);
      match received with
      | inl ((_ :: _) as b) => mret (inl (message_id ++ b))
      | inl [] => mret (inr (inr EIO))
      | inr e => if e =? EINTR then mret (inl message_id) else mret (inr (inr e))
      end
    else mret (inr (inl message_id))) [].

(** ** Construction *)

(** An interaction of the constructor: no other thread has the object yet. *)
Definition tick_alone : Pub Event := λ w,
  match script w with
  | [] => (Returned last_event, w)
  | e :: l => (Returned e, mkPWorld (pub w) (sys w) l (log w))
  end.

(** [std::make_unique<AlarmSpool>]: only [std::bad_alloc] is caught. *)
Definition make_outbox : Pub AlarmSpool :=
  e ← tick_alone;
  if negb (e_alloc e) then throw BadAlloc else
  o ← on_system (make_spool (mkSpoolConfig (_outbox_dir config) OUTBOX
                               (_max_outbox_bytes config)));
  match o with Some s => mret s | None => throw OtherExn end.

Definition fail_setup (st : ReliableAlarmPublisherSetupStatus) (e : Z) : Pub bool :=
  _ ← modify (set_psetup st e); mret false.

(** The spool, or the answer of [initialize] when there is none. *)
Definition open_outbox : Pub (AlarmSpool + bool) :=
  catch (s ← make_outbox; _ ← modify (set_spool s); mret (inl s))
        (λ e, match e with
              | BadAlloc => r ← fail_setup SPOOL_ERROR ENOMEM; mret (inr r)
              | OtherExn => throw OtherExn
              end).

Definition initialize : Pub bool :=
  if negb (valid_config config) then fail_setup INVALID_CONFIG EINVAL else
  opened ← open_outbox;
  match opened with
  | inr r => mret r
  | inl s =>
      if negb (_ready s) then fail_setup SPOOL_ERROR (_setup_error s) else
      _ ← modify (set_flags true false);
      thread ← tick_alone;
      if negb (e_alloc thread) then
        _ ← modify (λ i, set_flags false (_stop i) i); fail_setup THREAD_ERROR ENOMEM
      else if negb (e_ret thread =? 0) then
        _ ← modify (λ i, set_flags false (_stop i) i); fail_setup THREAD_ERROR (e_errno thread)
      else
        _ ← modify (λ i, set_psetup SETUP_SUCCESS (_psetup_error i) i); mret true
  end.

(** ** Enqueueing *)

Definition alarm_frame (timestamp : Z) (payload message_id : bytes)
    : AlarmFrame :=
  mkFrame ALARM (_psource_id config) message_id timestamp payload.

(** The attempts to find an identifier that is not taken. *)
Fixpoint enqueue_attempts (attempts : nat) (frame : bytes → AlarmFrame) : Pub AlarmEnqueueResult :=
  match attempts with
  | O => mret (mkEnqueue RANDOM_FAILED EEXIST)
  | S n =>
      random ← secure_random_message_id;
      match random with
      | inr random_error => mret (mkEnqueue RANDOM_FAILED random_error)
      | inl message_id =>
          e ← tick;
          encoded ← defined (encoded_bytes (e_alloc e) (frame message_id));
          match encoded with
          | None => mret (mkEnqueue ENCODE_FAILED 0)
          | Some wire =>
              stored ← store_frame (frame message_id) wire;
              if bool_decide (_ststatus stored = SP_DUPLICATE) then enqueue_attempts n frame else
              let result := map_spool_result stored in
              if negb (durable result) then mret result else
              _ ← locked (set_pending true);
              mret result
          end
      end
  end.

Definition enqueue (record : StoredRecord) : Pub AlarmEnqueueResult :=
  accepting ← ready;
  if negb accepting then mret (mkEnqueue NOT_READY 0) else
  catch
    (_ ← allocate_memory;
     payload ← defined (encode_v2 record);
     match _estatus payload, timestamp_milliseconds (_changed_at record) with
     | MonitorWire.SUCCESS, Some timestamp =>
         enqueue_attempts MESSAGE_ID_ATTEMPTS
           (alarm_frame timestamp (MonitorWire._bytes payload))
     | _, _ => mret (mkEnqueue ENCODE_FAILED 0)
     end)
    (λ e, match e with
          | BadAlloc => mret (mkEnqueue ENCODE_FAILED ENOMEM)
          | OtherExn => mret (mkEnqueue IO_ERROR EIO)
          end).

(** ** Socket calls under a deadline *)

Definition wait_fd (fd events deadline : Z) : Pub IoStatus :=
  loop (λ _ : unit,
    stop ← stopping;
    if (stop : bool) then mret (inr IO_STOPPED) else
    now ← clock_now;
    timeout ← defined (remaining_timeout_ms now deadline);
    if timeout =? 0 then mret (inr IO_TIMEOUT) else
    descriptor ← tick;
    if 0 <? e_ret descriptor then
      if negb (Z.land (e_revents descriptor) events =? 0) then mret (inr IO_DONE)
      else if negb (Z.land (e_revents descriptor)
                      (Z.lor (Z.lor POLLERR POLLHUP) POLLNVAL) =? 0) then mret (inr IO_FAILED)
      else mret (inl tt)
    else if e_ret descriptor =? 0 then
      now ← clock_now;
      if deadline <=? now then mret (inr IO_TIMEOUT) else mret (inl tt)
    else if e_errno descriptor =? EINTR then mret (inl tt)
    else mret (inr IO_FAILED)) tt.

Definition send_all (fd : Z) (data : bytes) (deadline : Z) : Pub IoStatus :=
  loop (λ offset : nat,
    if (offset <? length data)%nat then
      stop ← stopping;
      if (stop : bool) then mret (inr IO_STOPPED) else
      now ← clock_now;
      if deadline <=? now then mret (inr IO_TIMEOUT) else
      sent ← send fd (drop offset data);
      match sent with
      | inl sent => if 0 <? sent then mret (inl (offset + Z.to_nat sent)%nat)
                    else mret (inr IO_FAILED)
      | inr e =>
          if e =? EINTR then mret (inl offset) else
          if e =? EAGAIN then
            waited ← wait_fd fd POLLOUT deadline;
            match waited with IO_DONE => mret (inl offset) | _ => mret (inr waited) end
          else mret (inr IO_FAILED)
      end
    else mret (inr IO_DONE)) 0%nat.

(** The bytes received are returned with the status. *)
Definition receive_all (fd : Z) (size : nat) (deadline : Z) : Pub (IoStatus * bytes) :=
  loop (λ data : bytes,
    if (length data <? size)%nat then
      stop ← stopping;
      if (stop : bool) then mret (inr (IO_STOPPED, data)) else
      now ← clock_now;
      if deadline <=? now then mret (inr (IO_TIMEOUT, data)) else
      received ← recv fd (size - length data);
      match received with
      | inl ((_ :: _) as b) => mret (inl (data ++ b))
      | inl [] => mret (inr (IO_FAILED, data))
      | inr e =>
          if e =? EINTR then mret (inl data) else
          if e =? EAGAIN then
            waited ← wait_fd fd POLLIN deadline;
            match waited with IO_DONE => mret (inl data) | _ => mret (inr (waited, data)) end
          else mret (inr (IO_FAILED, data))
      end
    else mret (inr (IO_DONE, data))) [].

(** [ReceiveResult] *)
Definition receive_frame (fd deadline : Z) : Pub (IoStatus * option AlarmFrame) :=
  header ← receive_all fd (Z.to_nat ALARM_HEADER_SIZE) deadline;
  match header with
  | (IO_DONE, header) =>
      size_result ← defined (alarm_frame_size (Some header));
      match size_success size_result, _frame_size size_result with
      | true, Some frame_size =>
          _ ← allocate_memory;
          let payload_size := frame_size - ALARM_HEADER_SIZE in
          payload ← (if payload_size =? 0 then mret (IO_DONE, [])
                     else receive_all fd (Z.to_nat payload_size) deadline);
          match payload with
          | (IO_DONE, payload) =>
              e ← tick;
              decoded ← defined (decode_alarm_frame (e_alloc e) (Some (header ++ payload)));
              if decode_success decoded then mret (IO_DONE, _frame decoded)
              else mret (IO_FAILED, None)
          | (status, _) => mret (status, None)
          end
      | _, _ => mret (IO_FAILED, None)
      end
  | (status, _) => mret (status, None)
  end.

(** ** The connection *)

(** The body of the loop over the addresses: [Some] is the value returned. *)
Definition try_address (deadline : Z) : Pub (option bool) :=
  stop ← stopping;
  late ← (if (stop : bool) then mret true else now ← clock_now; mret (deadline <=? now));
  if (late : bool) then mret (Some false) else
  socket ← returns;
  if socket <? 0 then mret None else
  let abandon := _ ← close_fd socket; mret None in
  old_flags ← returns;
  if old_flags <? 0 then abandon else
  nonblocking ← returns;
  if negb (nonblocking =? 0) then abandon else
  cloexec ← returns;
  if negb (cloexec =? 0) then abandon else
  result ← tick;
  usable ← (if e_ret result =? 0 then mret true else
            let connect_error := e_errno result in
            if negb (connect_error =? EINPROGRESS) && negb (connect_error =? EALREADY)
               && negb (connect_error =? EINTR) then mret false else
            waited ← wait_fd socket POLLOUT deadline;
            match waited with
            | IO_DONE =>
                e ← tick; mret ((e_ret e =? 0) && (e_revents e =? 0))
            | _ => mret false
            end);
  if negb usable then abandon else
  stop ← stopping;
  if (stop : bool) then _ ← close_fd socket; mret (Some false) else
  _ ← modify (set_socket socket true);
  _ ← record_obs (SawConnect socket);
  mret (Some true).

Fixpoint try_addresses (deadline : Z) (addresses : nat) : Pub bool :=
  match addresses with
  | O => mret false
  | S rest =>
      r ← try_address deadline;
      match r with Some b => mret b | None => try_addresses deadline rest end
  end.

Definition connect_collector : Pub bool :=
  now ← clock_now;
  deadline ← defined (make_deadline now (_ack_timeout config));
  addresses ← tick;
  if negb (e_ret addresses =? 0) then mret false else
  try_addresses deadline (e_addresses addresses).

Definition close_socket : Pub unit :=
  _ ← tick;
  i ← get_impl;
  let socket := _socket i in
  _ ← modify (set_socket (-1) false);
  if 0 <=? socket then close_fd socket else mret tt.

(** ** Delivery *)

Definition same_identity (a b : AlarmFrame) : bool :=
  (_source_id a =? _source_id b) && bool_decide (_message_id a = _message_id b).

Definition send_alarm_and_wait_ack (wire : bytes) (sent : AlarmFrame) : Pub DeliveryStatus :=
  socket ← socket_snapshot;
  if socket <? 0 then mret SEND_FAILED else
  now ← clock_now;
  deadline ← defined (make_deadline now (_ack_timeout config));
  sent_status ← send_all socket wire deadline;
  match sent_status with
  | IO_STOPPED => mret STOPPED
  | IO_TIMEOUT | IO_FAILED => mret SEND_FAILED
  | IO_DONE =>
      received ← receive_frame socket deadline;
      mret (match received with
            | (IO_STOPPED, _) => STOPPED
            | (IO_TIMEOUT, _) => ACK_TIMEOUT
            | (IO_DONE, Some ack) =>
                if bool_decide (_ftype ack = ACK) && same_identity ack sent then DELIVERED
                else INVALID_ACK
            | (_, _) => INVALID_ACK
            end)
  end.

Definition heartbeat : Pub bool :=
  socket ← socket_snapshot;
  if socket <? 0 then mret false else
  random ← secure_random_message_id;
  match random with
  | inr _ => mret false
  | inl message_id =>
      wall_clock ← returns;
      match timestamp_milliseconds wall_clock with
      | None => mret false
      | Some timestamp =>
          let ping := mkFrame PING (_psource_id config) message_id timestamp [] in
          e ← tick;
          encoded ← defined (encoded_bytes (e_alloc e) ping);
          match encoded with
          | None => mret false
          | Some wire =>
              now ← clock_now;
              deadline ← defined (make_deadline now (_ack_timeout config));
              sent_status ← send_all socket wire deadline;
              match sent_status with
              | IO_DONE =>
                  received ← receive_frame socket deadline;
                  mret (match received with
                        | (IO_DONE, Some pong) =>
                            bool_decide (_ftype pong = PONG) && same_identity pong ping
                        | _ => false
                        end)
              | _ => mret false
              end
          end
      end
  end.

(** ** Waiting *)

(** [_condition.wait]: every waking takes the mutex again. *)
Definition wait_for_work : Pub unit :=
  _ ← loop (λ _ : unit,
        _ ← tick; i ← get_impl;
        mret (if _stop i || _work_pending i then inr tt else inl tt)) tt;
  modify (set_pending false).

(** [_condition.wait_for]: a waking whose return value is 0 is the timeout. *)
Definition wait_until (condition : Impl → bool) : Pub bool :=
  i ← get_impl;
  if condition i then mret true else
  loop (λ _ : unit,
    e ← tick;
    i ← get_impl;
    if condition i then mret (inr true)
    else if e_ret e =? 0 then mret (inr false) else mret (inl tt)) tt.

Definition wait_idle : Pub bool :=
  _ ← tick;
  notified ← wait_until (λ i, _stop i || _work_pending i);
  i ← get_impl;
  if _stop i then mret false else
  if notified && _work_pending i then _ ← modify (set_pending false); mret true else mret false.

Definition next_backoff (current : Z) : option Z :=
  if current =? 0 then Some FIRST_BACKOFF else
  doubled ← i64_mul current 2;
  Some (doubled `min` _max_backoff config).

Definition wait_backoff : Pub bool :=
  _ ← tick;
  i ← get_impl;
  backoff ← defined (next_backoff (_current_backoff i));
  _ ← modify (set_backoff backoff);
  _ ← wait_until _stop;
  i ← get_impl;
  mret (negb (_stop i)).

Definition reset_backoff : Pub unit := locked (set_backoff 0).

(** ** The worker *)

Definition spool_next : Pub AlarmSpoolPathResult := _ ← tick; on_spool (asking next).

(** A call that is entered in the history. *)
Definition watched {A} (m : AlarmSpool → Sys A) (o : A → Obs) : Pub A :=
  _ ← tick;
  r ← on_spool (asking m);
  _ ← record_obs (o r);
  mret r.

Definition spool_read (p : path) : Pub AlarmSpoolReadResult :=
  watched (λ s, AlarmSpool.read s p) (λ r, SawRead p (_rdstatus r)).

Definition spool_quarantine (p : path) : Pub AlarmSpoolPathResult :=
  watched (λ s, quarantine s p) (λ _, SawQuarantine p).

(** The history also notes the bytes that were delivered. *)
Definition spool_remove (p : path) (wire : bytes) : Pub AlarmSpoolPathResult :=
  watched (λ s, AlarmSpool.remove s p) (λ _, SawRemove p wire).

Definition idle_round : Pub unit :=
  socket ← socket_snapshot;
  if socket <? 0 then wait_for_work else
  work ← wait_idle;
  if (work : bool) then mret tt else
  stop ← stopping;
  if (stop : bool) then mret tt else
  alive ← heartbeat;
  if (alive : bool) then mret tt else
  _ ← close_socket; _ ← wait_backoff; mret tt.

(** Whether there is a connection to send on. *)
Definition have_connection : Pub bool :=
  socket ← socket_snapshot;
  if socket <? 0 then connect_collector else mret true.

Definition count_connect_failure (i : Impl) : Impl :=
  if _stop i then i
  else set_counters (u64 (_connect_failures i + 1)) (_send_failures i) (_ack_timeouts i) (_acks i) i.

Definition count_delivery (delivery : DeliveryStatus) (i : Impl) : Impl :=
  match delivery with
  | ACK_TIMEOUT =>
      set_counters (_connect_failures i) (_send_failures i) (u64 (_ack_timeouts i + 1)) (_acks i) i
  | SEND_FAILED | INVALID_ACK =>
      set_counters (_connect_failures i) (u64 (_send_failures i + 1)) (_ack_timeouts i) (_acks i) i
  | STOPPED | DELIVERED => i
  end.

Definition count_ack (i : Impl) : Impl :=
  set_counters (_connect_failures i) (_send_failures i) (_ack_timeouts i) (u64 (_acks i + 1)) i.

(** The part of [run_iteration] that has an alarm to deliver. *)
Definition deliver (p : path) (wire : bytes) (frame : AlarmFrame) : Pub unit :=
  connection ← have_connection;
  if negb connection then
    _ ← locked count_connect_failure;
    stop ← stopping;
    if (stop : bool) then mret tt else _ ← wait_backoff; mret tt
  else
    delivery ← send_alarm_and_wait_ack wire frame;
    match delivery with
    | DELIVERED =>
        _ ← locked count_ack;
        removed ← spool_remove p wire;
        if negb (path_success removed) then _ ← wait_backoff; mret tt else reset_backoff
    | _ =>
        _ ← locked (count_delivery delivery);
        _ ← close_socket;
        match delivery with
        | STOPPED => mret tt
        | _ => _ ← wait_backoff; mret tt
        end
    end.

Definition run_iteration : Pub unit :=
  next ← spool_next;
  if bool_decide (_pstatus next = SP_EMPTY) then idle_round else
  match path_success next, _ppath next with
  | true, Some p =>
      stored ← spool_read p;
      if bool_decide (_rdstatus stored = SP_CORRUPT) then mret tt else
      if negb (read_success stored) then _ ← wait_backoff; mret tt else
      e ← tick;
      decoded ← defined (decode_alarm_frame (e_alloc e) (Some (_rdbytes stored)));
      match decode_success decoded, _frame decoded with
      | true, Some frame =>
          if bool_decide (_ftype frame = ALARM) then deliver p (_rdbytes stored) frame
          else _ ← spool_quarantine p; mret tt
      | _, _ => _ ← spool_quarantine p; mret tt
      end
  | _, _ => _ ← wait_backoff; mret tt
  end.

Definition run : Pub unit :=
  _ ← loop (λ _ : unit,
        stop ← stopping;
        if (stop : bool) then mret (inr tt) else
        catch (_ ← run_iteration; mret (inl tt))
              (λ _, _ ← close_socket;
                    going ← wait_backoff;
                    if (going : bool) then mret (inl tt) else mret (inr tt))) tt;
  close_socket.

(** [stop]; [worker] is what is left of the worker thread, which is joined. *)
Definition stop (worker : Pub unit) : Pub unit :=
  _ ← locked request_stop;
  _ ← worker;
  close_socket.

(** ** Status *)

Record ReliableAlarmPublisherStatus := mkPStatus {
  _ps_active : bool; _ps_connected : bool;
  _ps_host : bytes; _ps_port : Z;
  _ps_pending_files : Z; _ps_pending_bytes : Z; _ps_corrupt_files : Z;
  _ps_connect_failures : Z; _ps_send_failures : Z; _ps_ack_timeouts : Z; _ps_acks : Z;
  _ps_backoff : Z; _ps_available : bool; _ps_spool_error : Z
}.

Definition status : Pub ReliableAlarmPublisherStatus :=
  _ ← tick;
  i ← get_impl;
  let snapshot files bytes corrupt available error :=
    mkPStatus (_accepting i) (_connected i) (_collector_host config) (_collector_port config)
      files bytes corrupt (_connect_failures i) (_send_failures i) (_ack_timeouts i) (_acks i)
      (_current_backoff i) available error in
  match _spool i with
  | None => mret (snapshot 0 0 0 false ENODEV)
  | Some _ =>
      catch
        (_ ← allocate_memory;
         result ← on_spool (asking stats);
         mret (if stats_success result
               then snapshot (_stfiles (_stats result)) (_stbytes (_stats result))
                      (_stcorrupt_files (_stats result)) true (_serror result)
               else snapshot 0 0 0 false (_serror result)))
        (λ e, mret (snapshot 0 0 0 false (match e with BadAlloc => ENOMEM | OtherExn => EIO end)))
  end.

End Publisher.
