(* ===== verification/PublisherSafety.v ===== *)
(** What the publisher guarantees whatever the network, the disk and the other
    threads do: an alarm leaves the outbox only when it was sent in full and
    confirmed on the same connection, or was set aside as unreadable. *)

From S2P Require Import Prelude Effects MonitorData MonitorWire MonitorReporter.
From S2P Require Import AlarmProtocol FileSystem AlarmSpool AlarmSpoolSafety SpoolLifecycle SpoolQueue SpoolNames.
From S2P Require Import ReliablePublisher.
#[local] Open Scope tlss_scope.

(** ** The head of the queue *)

Section Next.
Context `{DirOrder}.

Lemma scan_loop_first P : ∀ paths result w,
  (∀ p, _first result = Some p → P p) → Forall P paths →
  wp (scan_loop result paths) (λ r _, ∀ p, _first r = Some p → P p) w.
Proof.
  induction paths as [|p paths IH]; intros result w Hr Hp; cbn [scan_loop]; [by apply wp_ret|].
  apply Forall_cons in Hp as [Hp Hps].
  assert (∀ r w', (∀ p, _first r = Some p → P p) → wp (a ← advance;
    match a with inr e => mret (scan_fail r e) | inl _ => scan_loop r paths end)
    (λ r _, ∀ p, _first r = Some p → P p) w') as Hnext.
  { intros r w' Hw. apply wp_bind, wp_change; [intros; by apply wp_ret|intros; by apply IH]. }
  apply wp_bind, wp_bind, wp_observe. intros r w1 _ _.
  destruct r as [[| | |]|]; try by apply wp_ret, Hnext.
  apply wp_bind, wp_observe. intros size w2 _ _. apply wp_ret.
  destruct size as [raw|e]; [|by apply wp_ret].
  destruct (UINT64_MAX <? raw); [by apply wp_ret|].
  destruct (UINT64_MAX - raw <? _bytes result); [by apply wp_ret|].
  apply Hnext. cbn. intros q Hq. repeat case_match; naive_solver.
Qed.

(** The path [next] gives is one of the data directory. *)
Lemma wp_next s w :
  ready_in s (fs w) →
  wp (next s) (λ r w', fs w' = fs w ∧ ∀ p, _ppath r = Some p →
    is_inside (_data_directory s) p ∧ Forall plain p) w.
Proof.
  intros R. unfold next. destruct (_ready s); [|by apply wp_ret]. cbn [negb].
  apply wp_bind.
  set (P := λ p, is_inside (_data_directory s) p ∧ Forall plain p).
  assert (wp (scan_regular_files (_data_directory s)) (λ r _, ∀ p, _first r = Some p → P p) w) as Hf.
  { apply wp_bind, wp_descendants; [done|by intros; apply wp_ret|]. intros w' paths Hw Hp.
    apply scan_loop_first; [done|]. rewrite Hp. apply Forall_forall. intros p Hq.
    pose proof (data_visible _ _ _ R Hq) as ((Hpl & _) & _).
    by apply elem_of_data_paths in Hq as [Hin _]. }
  pose proof (scan_fs (_data_directory s) w) as Hs. unfold wp in Hf, Hs |- *.
  destruct (scan_regular_files (_data_directory s) w) as [r w']. cbn in *.
  split; [done|]. intros p Hp. apply Hf. destruct (_success r); [|done]. cbn in Hp.
  destruct (_first r); [|done]. by injection Hp as ->.
Qed.
End Next.

(** ** Histories *)

(** The observation takes the alarm [b] at [q] out of the queue. *)
Definition takes (q : path) (b : bytes) (o : Obs) : Prop :=
  match o with
  | SawRemove p wire => p = q ∧ wire = b
  | SawQuarantine p => p = q
  | SawRead p st => p = q ∧ st ≠ SP_SUCCESS
  | _ => False
  end.

(** The history ends with an exchange: the alarm [b] that belongs at [q] was sent
    in full and then, on the same connection and with nothing in between, an
    acknowledgement of its source and identifier was received. *)
Definition confirmed (root : path) (l : list Obs) (q : path) (b : bytes) : Prop :=
  ∃ before fd sends recvs fr ack,
    l = before ++ map (SawSend fd) sends ++ map (SawRecv fd) recvs
    ∧ frame_ok fr ∧ _ftype fr = ALARM ∧ q = alarm_path root OUTBOX fr
    ∧ b = frame_bytes fr ∧ concat sends = b
    ∧ frame_ok ack ∧ _ftype ack = ACK ∧ concat recvs = frame_bytes ack
    ∧ _source_id ack = _source_id fr ∧ _message_id ack = _message_id fr.

(** Every removal follows the confirmation of the alarm removed. *)
Definition well_ordered (root : path) (l : list Obs) : Prop :=
  ∀ l1 q b l2, l = l1 ++ SawRemove q b :: l2 → confirmed root l1 q b.

Definition no_removal (l : list Obs) : Prop := ∀ q b, SawRemove q b ∉ l.

Lemma no_removal_app l k : no_removal (l ++ k) ↔ no_removal l ∧ no_removal k.
Proof. unfold no_removal. setoid_rewrite elem_of_app. naive_solver. Qed.

Lemma well_ordered_app root l k : well_ordered root l → no_removal k → well_ordered root (l ++ k).
Proof.
  intros Hl Hk l1 q b l2 He. apply app_eq_inv in He as [(m & -> & He)|(m & -> & ->)].
  - destruct m as [|o m].
    + cbn in He. subst k. exfalso. eapply Hk. by left.
    + injection He as <- He. by eapply Hl.
  - exfalso. eapply Hk. apply elem_of_app. right. by left.
Qed.

Lemma well_ordered_remove root l q b :
  well_ordered root l → confirmed root l q b → well_ordered root (l ++ [SawRemove q b]).
Proof.
  intros Hl Hq l1 p b' l2 He. destruct l2 as [|o l2] using rev_ind.
  - apply app_inj_tail in He as [-> [= -> ->]]. done.
  - rewrite app_comm_cons, app_assoc in He. apply app_inj_tail in He as [-> _]. by eapply Hl.
Qed.

(** ** The invariant of the publisher *)

(** An answer as the calls and clocks of the system give them. *)
Definition outer_ok (o : Outer) : Prop :=
  match o with OuterStore frame => frame_ok frame | _ => True end.
Record event_ok (e : Event) : Prop := {
  ok_outer : Forall outer_ok (e_outer e);
  ok_now : 0 <= e_now e <= INT64_MAX;
  ok_ret : is_i64 (e_ret e);
  ok_bytes : bytes_ok (e_bytes e)
}.

(** Timeouts that fit the clock: 292 years. *)
Record config_ok (config : ReliableAlarmPublisherConfig) : Prop := {
  cfg_valid : valid_config config = true;
  cfg_source : is_u64 (_psource_id config);
  cfg_timeout : _ack_timeout config * NS_PER_MS <= INT64_MAX;
  cfg_backoff : 2 * _max_backoff config <= INT64_MAX
}.

Definition backoff_ok (config : ReliableAlarmPublisherConfig) (ms : Z) : Prop :=
  ms = 0 ∨ FIRST_BACKOFF <= ms <= _max_backoff config.

Section Safety.
Context `{DirOrder} (pid : Z) (config : ReliableAlarmPublisherConfig) (root : path).
Context (Hcfg : config_ok config).

Record inv (w : PWorld) : Prop := {
  inv_spool : ∃ s, _spool (pub w) = Some s ∧ _sroot s = root ∧ kind_of s = OUTBOX
                   ∧ ready_in s (fs (sys w));
  inv_backoff : backoff_ok config (_current_backoff (pub w));
  inv_socket : _connected (pub w) = (0 <=? _socket (pub w));
  inv_script : Forall event_ok (script w);
  inv_log : well_ordered root (log w)
}.

(** The alarms are all there, but for those that [l] takes out. *)
Definition kept (l : list Obs) (f g : FS) : Prop :=
  ∀ q b, is_inside (data_dir root OUTBOX) q → file f q = Some b →
    file g q = Some b ∨ Exists (takes q b) l.

Record trans (w : PWorld) (l : list Obs) (w' : PWorld) : Prop := {
  tr_inv : inv w';
  tr_log : log w' = log w ++ l;
  tr_script : (length (script w') <= length (script w))%nat;
  tr_stop : _stop (pub w) = true → _stop (pub w') = true;
  tr_kept : kept l (fs (sys w)) (fs (sys w'))
}.

Lemma kept_refl f : kept [] f f.
Proof. intros q b _ Hb. by left. Qed.

Lemma kept_trans l k f g h : kept l f g → kept k g h → kept (l ++ k) f h.
Proof.
  intros H1 H2 q b Hin Hb. rewrite Exists_app. destruct (H1 q b Hin Hb) as [Hg|]; [|auto].
  destruct (H2 q b Hin Hg); auto.
Qed.

Lemma trans_refl w : inv w → trans w [] w.
Proof. split; [done|by rewrite app_nil_r|done|done|apply kept_refl]. Qed.

Lemma trans_trans w l w1 k w2 : trans w l w1 → trans w1 k w2 → trans w (l ++ k) w2.
Proof.
  intros [I1 L1 S1 P1 K1] [I2 L2 S2 P2 K2]. split; [done|by rewrite L2, L1, app_assoc|lia|auto|].
  by eapply kept_trans.
Qed.

#[local] Instance publisher_histories : Histories PWorld Obs inv trans.
Proof. split; [apply tr_inv|apply trans_refl|apply trans_trans]. Qed.

(** The program logic of [Effects.v] at these histories. *)
#[local] Abbreviation wpp := (hoare trans).

(** ** The primitives *)

Lemma wpp_loop {S A} (body : S → Pub (S + A)) (J : S → list Obs → PWorld → Prop) Q s w :
  inv w → J s [] w →
  (∀ s l0 w0, trans w l0 w0 → inv w0 → J s l0 w0 →
     wpp (body s) (λ r l w',
       match r with
       | inl s' => (length (script w') < length (script w0))%nat ∧ J s' (l0 ++ l) w'
       | inr x => Q x (l0 ++ l) w'
       end) w0) →
  wpp (loop body s) Q w.
Proof. apply hoare_loop. Qed.

Lemma wpp_get Q w : inv w → Q (pub w) [] w → wpp get_impl Q w.
Proof. apply hoare_ret. Qed.

Definition with_pub (g : Impl → Impl) (w : PWorld) : PWorld :=
  mkPWorld (g (pub w)) (sys w) (script w) (log w).

Record tame (g : Impl → Impl) (i : Impl) : Prop := {
  tame_spool : _spool (g i) = _spool i;
  tame_backoff : backoff_ok config (_current_backoff i) → backoff_ok config (_current_backoff (g i));
  tame_socket : _connected i = (0 <=? _socket i) → _connected (g i) = (0 <=? _socket (g i));
  tame_stop : _stop i = true → _stop (g i) = true
}.

Lemma trans_modify g w : inv w → tame g (pub w) → trans w [] (with_pub g w).
Proof.
  intros [S B C E L] [Gs Gb Gc Gp]. split; cbn; auto using kept_refl, app_nil_r.
  split; cbn; auto. by rewrite Gs.
Qed.

Lemma wpp_modify g Q w :
  inv w → tame g (pub w) → (inv (with_pub g w) → Q tt [] (with_pub g w)) → wpp (modify g) Q w.
Proof.
  intros I G HQ. pose proof (trans_modify g w I G) as T. exists []. split; [done|].
  apply HQ. by eapply tr_inv.
Qed.

Lemma trans_obs o w :
  inv w → well_ordered root (log w ++ [o]) →
  trans w [o] (mkPWorld (pub w) (sys w) (script w) (log w ++ [o])).
Proof.
  intros [S B C E L] HL. split; cbn; auto; [by split|]. intros q b _ Hb. by left.
Qed.

Lemma wpp_obs o Q w :
  inv w → (∀ q b, o ≠ SawRemove q b) →
  (let w' := mkPWorld (pub w) (sys w) (script w) (log w ++ [o]) in inv w' → Q tt [o] w') →
  wpp (record_obs o) Q w.
Proof.
  intros I Ho HQ. pose proof (trans_obs o w I) as T. exists [o]. split.
  - apply T, well_ordered_app; [by apply inv_log|]. intros q b Hq%list_elem_of_singleton. by apply (Ho q b).
  - apply HQ. eapply tr_inv, T. apply well_ordered_app; [by apply inv_log|].
    intros q b Hq%list_elem_of_singleton. by apply (Ho q b).
Qed.

(** An operation of the spool that leaves the object as [same_spool] says. *)
Lemma trans_spool {A} (m : AlarmSpool → Sys (A * AlarmSpool)) l w s :
  inv w → _spool (pub w) = Some s → no_removal l ∨ well_ordered root (log w ++ l) →
  wp (m s) (λ r w', same_spool s r.2 ∧ good s (fs (sys w)) (fs w')
                    ∧ kept l (fs (sys w)) (fs w')) (sys w) →
  ∃ x w', on_spool m w = (Returned x, w') ∧ log w' = log w ∧ (script w') = script w ∧
          (m s (sys w)).1.1 = x ∧ sys w' = (m s (sys w)).2 ∧ _stop (pub w') = _stop (pub w) ∧
          trans w l (mkPWorld (pub w') (sys w') (script w') (log w ++ l)).
Proof.
  intros I Hs Hl Hm. unfold on_spool. rewrite Hs. unfold wp in Hm.
  destruct (m s (sys w)) as [[x s'] w1]. cbn [fst snd] in *. destruct Hm as (Hss & Hg & Hk).
  eexists x, _. do 6 (split; [done|]). destruct I as [S B C E L].
  split; cbn; [|done|done|done|done]. split; cbn; auto.
  - destruct S as (s0 & Hs0 & Hr & Hkind & R). rewrite Hs in Hs0. injection Hs0 as <-.
    exists s'. pose proof Hss as (H1 & H2 & _). unfold kind_of. rewrite H1, H2.
    do 3 (split; [done|]). eapply same_spool_ready; [done|]. apply Hg.
  - destruct Hl; [by apply well_ordered_app|done].
Qed.

(** Storing takes nothing away. *)
Lemma wp_store_kept s src mid wire w :
  ready_in s (fs w) → _sroot s = root → kind_of s = OUTBOX → bytes_ok wire →
  wp (store pid s src mid wire)
     (λ r w', same_spool s r.2 ∧ good s (fs w) (fs w') ∧ kept [] (fs w) (fs w')) w.
Proof.
  intros R Hr Hk Hw. eapply wp_mono; [by apply wp_store|]. cbn. intros [r s'] w' [(Hg & Ho & Hst) Hs].
  do 2 (split; [done|]). cbn [fst] in *. intros q b Hin Hb. left.
  rewrite <- Hr, <- Hk, <- (rd_data _ _ R) in Hin.
  set (p := alarm_dir _ _ _ ++ _) in *. destruct (decide (q = p)) as [->|]; [|by rewrite Ho].
  destruct (_ststatus r); try (by destruct Hst as [->|[Hn _]]; [|rewrite Hn in Hb]).
  - destruct Hst as (fr & i & _ & _ & _ & _ & _ & _ & Hn & _). by rewrite Hn in Hb.
  - by destruct Hst as [-> _].
Qed.

Lemma trans_store frame w : inv w → frame_ok frame →
  ∃ x w', store_frame pid frame (frame_bytes frame) w = (Returned x, w') ∧ trans w [] w'
    ∧ script w' = script w ∧ _stop (pub w') = _stop (pub w).
Proof.
  intros I Hf. destruct (inv_spool _ I) as (s & Hs & Hr & Hk & R).
  destruct (trans_spool (λ s, store pid s (_source_id frame) (_message_id frame) (frame_bytes frame))
              [] w s I Hs) as (x & w' & Hrun & Hl & Hsc & _ & _ & Hst & T).
  - left. intros q b. apply not_elem_of_nil.
  - apply wp_store_kept; auto. by apply frame_bytes_ok.
  - rewrite app_nil_r, <- Hl in T. exists x, w'. destruct w'; cbn in *; by subst.
Qed.

Lemma trans_act o w : inv w → outer_ok o → trans w [] (act pid o w) ∧ script (act pid o w) = script w
  ∧ (o = OuterStop → _stop (pub (act pid o w)) = true).
Proof.
  intros I Ho. destruct o as [|frame|]; cbn [act].
  - split; [|done]. apply trans_modify; [done|]. by split; cbn.
  - rewrite encoded_bytes_ok by done. destruct (trans_store frame w I Ho) as (x & w' & -> & T & Hs & _).
    done.
  - split; [|done]. apply trans_modify; [done|]. by split; cbn.
Qed.

Lemma trans_acts os w : inv w → Forall outer_ok os →
  trans w [] (foldl (flip (act pid)) w os) ∧ script (foldl (flip (act pid)) w os) = script w
  ∧ (OuterStop ∈ os → _stop (pub (foldl (flip (act pid)) w os)) = true).
Proof.
  revert w. induction os as [|o os IH]; intros w I Hos; cbn [foldl];
    [|change (flip (act pid) w o) with (act pid o w)].
  { split; [by apply trans_refl|]. split; [done|]. by intros ?%not_elem_of_nil. }
  apply Forall_cons in Hos as [Ho Hos]. destruct (trans_act o w I Ho) as (T & Hs & Hst).
  destruct (IH (act pid o w) (tr_inv _ _ _ T) Hos) as (T' & Hs' & Hst').
  split; [by apply (trans_trans _ _ _ _ _ T T')|]. split; [by rewrite Hs', Hs|].
  intros [<-|?]%elem_of_cons; [|by apply Hst']. apply (tr_stop _ _ _ T'). by apply Hst.
Qed.

(** One interaction: the script gets shorter, or it is over and the stop is asked. *)
Lemma wpp_tick Q w :
  inv w →
  (∀ e w', trans w [] w' → inv w' → event_ok e →
     (length (script w') < length (script w))%nat ∨ _stop (pub w') = true ∧ e = last_event →
     Q e [] w') →
  wpp (tick pid) Q w.
Proof.
  intros I HQ. unfold hoare, tick. exists []. destruct (script w) as [|e l] eqn:E; cbn [fst snd].
  - destruct (trans_acts (e_outer last_event) w I) as (T & Hs & Hst).
    { cbn. by repeat constructor. }
    split; [done|]. apply HQ; [done|by eapply tr_inv| |].
    + split; cbn; try done. by repeat constructor.
    + right. split; [|done]. apply Hst. by left.
  - pose proof (inv_script _ I) as Hok. rewrite E in Hok. apply Forall_cons in Hok as [He Hl].
    assert (inv (mkPWorld (pub w) (sys w) l (log w))) as I1 by (destruct I; split; auto).
    destruct (trans_acts (e_outer e) _ I1 (ok_outer _ He)) as (T & Hs & _). cbn [script] in Hs.
    assert (trans w [] (mkPWorld (pub w) (sys w) l (log w))) as T1.
    { split; cbn; auto using app_nil_r, kept_refl. rewrite E. cbn. lia. }
    pose proof (trans_trans _ _ _ _ _ T1 T) as T2. split; [done|].
    apply HQ; [done|by eapply tr_inv|done|]. left. rewrite Hs. cbn. lia.
Qed.

(** ** Interactions *)

Definition shorter (w w' : PWorld) : Prop :=
  (length (script w') < length (script w))%nat ∨ _stop (pub w') = true.

Ltac ticks := apply hoare_bind, wpp_tick; [done|];
  let e := fresh "e" in let w := fresh "w" in let T := fresh "T" in
  let I := fresh "I" in let He := fresh "He" in let Hs := fresh "Hs" in
  intros e w T I He Hs; cbv beta; cbn [app].

Ltac gets := apply hoare_bind, wpp_get; [done|]; cbv beta; cbn [app].

(** [use L as ...]: the first command of a sequence has the specification [L]. *)
Ltac use L := apply hoare_bind; eapply hoare_mono; [apply L; try done|]; cbv beta.

Lemma wpp_stopping Q w :
  inv w → (∀ b w', trans w [] w' → inv w' → _stop (pub w') = b → shorter w w' → Q b [] w') →
  wpp (stopping pid) Q w.
Proof.
  intros I HQ. unfold stopping. ticks. gets. apply hoare_ret; [done|].
  apply HQ; [done..|]. destruct Hs as [?|[? _]]; [by left|by right].
Qed.

Lemma wpp_clock Q w :
  inv w → (∀ now w', trans w [] w' → inv w' → 0 <= now <= INT64_MAX → Q now [] w') →
  wpp (clock_now pid) Q w.
Proof. intros I HQ. unfold clock_now. ticks. apply hoare_ret; [done|]. apply HQ; auto. apply He. Qed.

Lemma wpp_allocate Q w :
  inv w → (∀ w', trans w [] w' → inv w' → Q tt [] w') → wpp (allocate_memory pid) Q w.
Proof.
  intros I HQ. unfold allocate_memory. ticks.
  destruct (e_alloc e); [apply hoare_ret; auto|by apply hoare_throw].
Qed.

Lemma wpp_snapshot Q w :
  inv w → (∀ w', trans w [] w' → inv w' → Q (_socket (pub w')) [] w') → wpp (socket_snapshot pid) Q w.
Proof. intros I HQ. unfold socket_snapshot. ticks. gets. apply hoare_ret; auto. Qed.

Lemma wpp_returns Q w :
  inv w → (∀ r w', trans w [] w' → inv w' → is_i64 r → Q r [] w') → wpp (returns pid) Q w.
Proof. intros I HQ. unfold returns. ticks. apply hoare_ret; [done|]. apply HQ; auto. apply He. Qed.

Lemma wpp_locked g Q w :
  inv w → (∀ i, tame g i) → (∀ w', trans w [] w' → inv w' → Q tt [] w') →
  wpp (locked pid g) Q w.
Proof.
  intros I Hg HQ. unfold locked. ticks. apply wpp_modify; auto. intros I'. apply HQ; [|done].
  eapply (trans_trans _ [] _ []); [done|]. by apply trans_modify.
Qed.

Lemma wpp_close fd Q w :
  inv w → (∀ w', trans w [SawClose fd] w' → inv w' → Q tt [SawClose fd] w') →
  wpp (close_fd pid fd) Q w.
Proof.
  intros I HQ. unfold close_fd. ticks. apply wpp_obs; [done|done|]. cbv zeta. intros I'.
  apply HQ; [|done]. eapply (trans_trans _ [] _ [_]); [done|]. apply trans_obs; [done|]. apply I'.
Qed.

Lemma wpp_getrandom size Q w :
  inv w → (∀ r w', trans w [] w' → inv w' →
    match r with
    | inl b => bytes_ok b ∧ (length b <= size)%nat
    | inr e => True
    end → (length (script w') < length (script w))%nat ∨ r = inr EIO → Q r [] w') →
  wpp (getrandom pid size) Q w.
Proof.
  intros I HQ. unfold getrandom. ticks. apply hoare_ret; [done|]. apply HQ; [done|done|..].
  - destruct (e_ret e <? 0); [done|]. split; [apply Forall_take, He|]. rewrite length_take. lia.
  - destruct Hs as [?|[_ ->]]; [by left|by right].
Qed.

Lemma wpp_send fd data Q w :
  inv w → (∀ r l w', trans w l w' → inv w' →
    match r with
    | inl n => 0 <= n ∧ l = [SawSend fd (take (Z.to_nat n) data)] ∧ n <= ♯data
    | inr _ => l = []
    end → Q r l w') →
  wpp (send pid fd data) Q w.
Proof.
  intros I HQ. unfold send. ticks. destruct (e_ret e <? 0); [by apply hoare_ret; [done|apply HQ]|].
  cbv zeta. set (d := take (Z.to_nat (e_ret e)) data).
  apply hoare_bind, wpp_obs; [done|done|]. cbv zeta. intros I'. apply hoare_ret; [done|]. cbn [app].
  apply HQ; [|done|].
  - eapply (trans_trans _ [] _ [_]); [done|]. apply trans_obs; [done|]. apply I'.
  - split; [apply Zlen_nonneg|]. unfold Zlen, d. rewrite Nat2Z.id, length_take, <- take_take, firstn_all.
    split; [done|lia].
Qed.

Lemma wpp_recv fd size Q w :
  inv w → (∀ r l w', trans w l w' → inv w' →
    match r with
    | inl b => l = [SawRecv fd b] ∧ bytes_ok b ∧ (length b <= size)%nat
    | inr _ => l = []
    end → Q r l w') →
  wpp (recv pid fd size) Q w.
Proof.
  intros I HQ. unfold recv. ticks. destruct (e_ret e <? 0); [by apply hoare_ret; [done|apply HQ]|].
  cbv zeta. set (d := take size (e_bytes e)).
  apply hoare_bind, wpp_obs; [done|done|]. cbv zeta. intros I'. apply hoare_ret; [done|]. cbn [app].
  apply HQ; [|done|].
  - eapply (trans_trans _ [] _ [_]); [done|]. apply trans_obs; [done|]. apply I'.
  - split; [done|]. split; [apply Forall_take, He|]. unfold d. rewrite length_take. lia.
Qed.

(** ** Deadlines *)

Lemma remaining_defined now deadline :
  0 <= now <= INT64_MAX → deadline <= INT64_MAX →
  ∃ t, remaining_timeout_ms now deadline = Some t.
Proof.
  intros Hn Hd. unfold remaining_timeout_ms, i64_sub. destruct (deadline <=? now) eqn:E; ztests; [eauto|].
  rewrite i64_check_ok by widlia. cbn. eauto.
Qed.

Lemma make_deadline_defined now :
  0 <= now <= INT64_MAX →
  ∃ d, make_deadline now (_ack_timeout config) = Some d ∧ d <= INT64_MAX.
Proof.
  intros Hn. destruct Hcfg as [Hv _ Ht _]. unfold valid_config in Hv.
  apply andb_true_iff in Hv as [Hv _]. apply andb_true_iff in Hv as [_ Hv]. ztests.
  unfold make_deadline, i64_sub, i64_mul, i64_add, NS_PER_MS in *.
  rewrite !i64_check_ok by widlia. cbn [mbind option_bind].
  destruct (_ <=? _) eqn:E; ztests; [eauto with lia|]. rewrite i64_check_ok by widlia. eexists. split; [done|]. lia.
Qed.

Definition on_time (deadline : Z) : Prop := deadline <= INT64_MAX.

Lemma wpp_wait_fd fd events deadline Q w :
  inv w → on_time deadline →
  (∀ r w', trans w [] w' → inv w' → Q r [] w') → wpp (wait_fd pid fd events deadline) Q w.
Proof.
  intros I Hd HQ. unfold wait_fd. apply (wpp_loop _ (λ _ l _, l = [])); [done..|].
  intros _ l0 w0 T0 I0 ->.
  assert (∀ r w', trans w0 [] w' → inv w' → Q r [] w') as HQ0.
  { intros r w' T' I'. apply HQ; [by apply (trans_trans _ _ _ _ _ T0 T')|done]. }
  apply hoare_bind, wpp_stopping; [done|]. intros b w1 T1 I1 Hb Hsh. cbn [app].
  destruct b; [by apply hoare_ret; [|apply HQ0]|]. destruct Hsh as [Hsh|Hsh]; [|by rewrite Hb in Hsh].
  apply hoare_bind, wpp_clock; [done|]. intros now w2 T2 I2 Hnow. cbn [app].
  pose proof (trans_trans _ _ _ _ _ T1 T2) as T12. cbn [app] in T12.
  destruct (remaining_defined now deadline Hnow Hd) as [t Ht].
  apply hoare_bind. eapply hoare_defined; [done..|]. cbn [app].
  destruct (t =? 0); [by apply hoare_ret; [|apply HQ0]|].
  ticks. pose proof (trans_trans _ _ _ _ _ T12 T) as T3. cbn [app] in T3.
  pose proof (tr_script _ _ _ T2). pose proof (tr_script _ _ _ T).
  match goal with |- wpp _ ?P _ =>
    assert (∀ r, wpp (mret (inr r)) P w3) as Hend by (intros r; by apply hoare_ret; [|apply HQ0]);
    assert (wpp (mret (inl tt)) P w3) as Hgo by (apply hoare_ret; [done|]; split; [lia|done])
  end.
  destruct (0 <? e_ret e); [by repeat (case_match; auto)|].
  destruct (e_ret e =? 0); [|by repeat (case_match; auto)].
  apply hoare_bind, wpp_clock; [done|]. intros now' w4 T4 I4 _. cbn [app].
  pose proof (trans_trans _ _ _ _ _ T3 T4) as T5. cbn [app] in T5.
  destruct (deadline <=? now'); [by apply hoare_ret; [|apply HQ0]|].
  apply hoare_ret; [done|]. split; [|done]. pose proof (tr_script _ _ _ T4). lia.
Qed.

Lemma wpp_random Q w :
  inv w → (∀ r w', trans w [] w' → inv w' →
    match r with inl id => length id = ALARM_MESSAGE_ID_SIZE ∧ bytes_ok id | inr _ => True end →
    Q r [] w') →
  wpp (secure_random_message_id pid) Q w.
Proof.
  intros I HQ. unfold secure_random_message_id.
  apply (wpp_loop _ (λ id l _, l = [] ∧ (length id <= ALARM_MESSAGE_ID_SIZE)%nat ∧ bytes_ok id));
    [done|split; [done|split; [cbn; lia|done]]|].
  intros id l0 w0 T0 I0 (-> & Hlen & Hok). destruct (_ <? _)%nat eqn:E; cycle 1.
  { apply hoare_ret; [done|]. apply HQ; [done|done|]. apply Nat.ltb_ge in E. split; [lia|done]. }
  apply Nat.ltb_lt in E. apply hoare_bind, wpp_getrandom; [done|]. intros r w1 T1 I1 Hr Hsh. cbn [app].
  pose proof (trans_trans _ _ _ _ _ T0 T1) as T2. cbn [app] in T2.
  destruct r as [[|x b]|e]; [by apply hoare_ret; [|apply HQ]| |].
  - destruct Hsh as [Hsh|Hsh]; [|done]. apply hoare_ret; [done|]. split; [done|]. split; [done|].
    rewrite length_app. destruct Hr. split; [lia|]. by apply Forall_app.
  - destruct (e =? EINTR) eqn:Ee; [|by apply hoare_ret; [|apply HQ]].
    destruct Hsh as [Hsh|[= ->]]; [|done]. by apply hoare_ret.
Qed.

(** ** Sending and receiving *)

Lemma trans_script_lt w w1 k w2 w3 m :
  shorter w w1 → _stop (pub w1) = false → trans w1 k w2 → trans w2 m w3 →
  (length (script w3) < length (script w))%nat.
Proof.
  intros [Hs|Hs] Hn T1 T2; [|by rewrite Hn in Hs].
  pose proof (tr_script _ _ _ T1). pose proof (tr_script _ _ _ T2). lia.
Qed.

Lemma wpp_send_all fd data deadline Q w :
  inv w → on_time deadline →
  (∀ r chunks w', let l := map (SawSend fd) chunks in trans w l w' → inv w' →
     (r = IO_DONE → concat chunks = data) → Q r l w') →
  wpp (send_all pid fd data deadline) Q w.
Proof.
  intros I Hd HQ. unfold send_all.
  apply (wpp_loop _ (λ off l _, ∃ chunks, l = map (SawSend fd) chunks ∧ (off <= length data)%nat
                                          ∧ concat chunks = take off data)); [done|exists []; cbn; split; [done|split; [lia|done]]|].
  intros off l0 w0 T0 I0 (chunks & -> & Hoff & Hch).
  assert (∀ r more w', trans w0 (map (SawSend fd) more) w' → inv w' →
    (r = IO_DONE → concat (chunks ++ more) = data) →
    Q r (map (SawSend fd) chunks ++ map (SawSend fd) more) w') as HQ0.
  { intros r more w' T' I' Hr. rewrite <- map_app. apply HQ; [|done|done]. rewrite map_app.
    by eapply trans_trans. }
  destruct (off <? length data)%nat eqn:E; cycle 1.
  { apply Nat.ltb_ge in E. apply hoare_ret; [done|]. apply (HQ0 _ []); [by apply trans_refl|done|].
    intros _. rewrite app_nil_r, Hch. apply take_ge. lia. }
  apply hoare_bind, wpp_stopping; [done|]. intros b w1 T1 I1 Hb Hsh. cbn [app].
  destruct b; [by apply hoare_ret; [|apply (HQ0 _ [])]|].
  apply hoare_bind, wpp_clock; [done|]. intros now w2 T2 I2 _. cbn [app].
  pose proof (trans_trans _ _ _ _ _ T1 T2) as T12.
  destruct (deadline <=? now); [by apply hoare_ret; [|apply (HQ0 _ [])]|].
  apply hoare_bind, wpp_send; [done|]. intros r l w3 T3 I3 Hr.
  pose proof (trans_trans _ _ _ _ _ T12 T3) as T13. cbn [app] in T13.
  assert ((length (script w3) < length (script w0))%nat) as Hlt by by eapply trans_script_lt.
  destruct r as [n|e].
  - destruct Hr as (Hn & -> & Hn').
    destruct (0 <? n) eqn:En; ztests.
    + apply hoare_ret; [done|]. split; [done|]. cbn [app]. exists (chunks ++ [take (Z.to_nat n) (drop off data)]).
      rewrite map_app. split; [done|]. unfold Zlen in Hn'. rewrite length_drop in Hn'. split; [lia|].
      rewrite concat_app, Hch. cbn. rewrite app_nil_r. apply take_take_drop.
    + apply hoare_ret; [done|]. cbn [app]. by apply (HQ0 _ [take (Z.to_nat n) (drop off data)]).
  - subst l. destruct (e =? EINTR).
    { apply hoare_ret; [done|]. cbn [app]. rewrite app_nil_r. eauto. }
    destruct (e =? EAGAIN); [|by apply hoare_ret; [|apply (HQ0 _ [])]].
    apply hoare_bind, wpp_wait_fd; [done|done|]. intros waited w4 T4 I4. cbn [app].
    pose proof (trans_trans _ _ _ _ _ T13 T4) as T14. cbn [app] in T14. pose proof (tr_script _ _ _ T4).
    destruct waited; (apply hoare_ret; [done|]); [|by apply (HQ0 _ [])..].
    split; [lia|]. rewrite app_nil_r. eauto.
Qed.

Lemma wpp_receive_all fd size deadline Q w :
  inv w → on_time deadline →
  (∀ r data chunks w', let l := map (SawRecv fd) chunks in trans w l w' → inv w' →
     concat chunks = data → bytes_ok data → (r = IO_DONE → length data = size) → Q (r, data) l w') →
  wpp (receive_all pid fd size deadline) Q w.
Proof.
  intros I Hd HQ. unfold receive_all.
  apply (wpp_loop _ (λ data l _, ∃ chunks, l = map (SawRecv fd) chunks ∧ (length data <= size)%nat
                                          ∧ concat chunks = data ∧ bytes_ok data));
    [done|exists []; cbn; split; [done|split; [lia|done]]|].
  intros data l0 w0 T0 I0 (chunks & -> & Hoff & Hch & Hok).
  assert (∀ r w', trans w0 [] w' → inv w' → (r = IO_DONE → length data = size) →
    Q (r, data) (map (SawRecv fd) chunks ++ []) w') as HQ0.
  { intros r w' T' I' Hr. rewrite app_nil_r. eapply HQ; [|done..].
    rewrite <- (app_nil_r (map _ _)). by eapply trans_trans. }
  destruct (length data <? size)%nat eqn:E; cycle 1.
  { apply Nat.ltb_ge in E. apply hoare_ret; [done|]. apply HQ0; [by apply trans_refl|done|]. lia. }
  apply Nat.ltb_lt in E.
  apply hoare_bind, wpp_stopping; [done|]. intros b w1 T1 I1 Hb Hsh. cbn [app].
  destruct b; [by apply hoare_ret; [|apply HQ0]|].
  apply hoare_bind, wpp_clock; [done|]. intros now w2 T2 I2 _. cbn [app].
  pose proof (trans_trans _ _ _ _ _ T1 T2) as T12.
  destruct (deadline <=? now); [by apply hoare_ret; [|apply HQ0]|].
  apply hoare_bind, wpp_recv; [done|]. intros r l w3 T3 I3 Hr.
  pose proof (trans_trans _ _ _ _ _ T12 T3) as T13. cbn [app] in T13.
  assert ((length (script w3) < length (script w0))%nat) as Hlt by by eapply trans_script_lt.
  destruct r as [d|e].
  - destruct Hr as (-> & Hdok & Hdlen).
    assert (map (SawRecv fd) chunks ++ [SawRecv fd d] = map (SawRecv fd) (chunks ++ [d])) as Hmap
      by by rewrite map_app.
    assert (concat (chunks ++ [d]) = data ++ d) as Hcat by (rewrite concat_app, Hch; cbn; by rewrite app_nil_r).
    destruct d as [|x d]; (apply hoare_ret; [done|]); cbn [app]; rewrite Hmap.
    + rewrite app_nil_r in Hcat. eapply HQ; [|done..]. rewrite <- Hmap. by eapply trans_trans.
    + split; [done|]. exists (chunks ++ [x :: d]). rewrite length_app.
      split; [done|]. split; [lia|]. split; [done|]. by apply Forall_app.
  - subst l. destruct (e =? EINTR).
    { apply hoare_ret; [done|]. cbn [app]. rewrite app_nil_r. eauto 10. }
    destruct (e =? EAGAIN); [|by apply hoare_ret; [|apply HQ0]].
    apply hoare_bind, wpp_wait_fd; [done|done|]. intros waited w4 T4 I4. cbn [app].
    pose proof (trans_trans _ _ _ _ _ T13 T4) as T14. cbn [app] in T14. pose proof (tr_script _ _ _ T4).
    destruct waited; (apply hoare_ret; [done|]); [|by apply HQ0..].
    split; [lia|]. rewrite app_nil_r. eauto 10.
Qed.

Definition received_frame (fd : Z) (r : IoStatus * option AlarmFrame) (l : list Obs) : Prop :=
  ∃ chunks, l = map (SawRecv fd) chunks ∧
    ∀ fr, r = (IO_DONE, Some fr) → frame_ok fr ∧ concat chunks = frame_bytes fr.

Lemma decode_defined alloc data :
  bytes_ok data → ∃ r, decode_alarm_frame alloc (Some data) = Some r ∧
    (decode_success r = true → ∃ fr, _frame r = Some fr ∧ frame_ok fr ∧ data = frame_bytes fr).
Proof.
  intros Hok. destruct (decode_alarm_frame_safe alloc data Hok) as (r & Hr & Hs). exists r. split; [done|].
  unfold decode_success. case_decide as Hst; [|by rewrite bool_decide_false].
  destruct Hs as (f & -> & Hf & Hd & _). eauto.
Qed.

Lemma wpp_receive_frame fd deadline Q w :
  inv w → on_time deadline →
  (∀ r l w', trans w l w' → inv w' → received_frame fd r l → Q r l w') →
  wpp (receive_frame pid fd deadline) Q w.
Proof.
  intros I Hd HQ. unfold receive_frame.
  apply hoare_bind, wpp_receive_all; [done|done|]. intros r header ch1 w1 l T1 I1 Hch1 Hok1 Hlen1.
  subst l. assert (∀ st w', trans w (map (SawRecv fd) ch1) w' → inv w' →
    Q (st, None) (map (SawRecv fd) ch1 ++ []) w') as HQ1.
  { intros st w' T' I'. rewrite app_nil_r. apply HQ; [done|done|]. by exists ch1. }
  destruct r; try by apply hoare_ret; [|apply HQ1].
  destruct (alarm_frame_size_safe header Hok1) as (sr & Hsr & Hsz).
  apply hoare_bind. eapply hoare_defined; [done|done|]. cbn [app].
  destruct (size_success sr) eqn:Es; [|by apply hoare_ret; [|apply HQ1]].
  destruct (_frame_size sr) as [fsz|] eqn:Ef; [|by apply hoare_ret; [|apply HQ1]].
  apply hoare_bind, wpp_allocate; [done|]. intros w2 T2 I2. cbn [app]. cbv zeta.
  pose proof (trans_trans _ _ _ _ _ T1 T2) as T12. rewrite app_nil_r in T12.
  set (psz := fsz - ALARM_HEADER_SIZE).
  assert (∀ (Q' : IoStatus * bytes → list Obs → PWorld → Prop),
    (∀ r data chunks w', let l := map (SawRecv fd) chunks in trans w2 l w' → inv w' →
       concat chunks = data → bytes_ok data → Q' (r, data) l w') →
    wpp (if psz =? 0 then mret (IO_DONE, []) else receive_all pid fd (Z.to_nat psz) deadline) Q' w2) as Hp.
  { intros Q' HQ'. destruct (psz =? 0).
    - apply hoare_ret; [done|]. by apply (HQ' _ _ []); [apply trans_refl|..].
    - apply wpp_receive_all; [done|done|]. intros. by eapply HQ'. }
  apply hoare_bind, Hp. intros r payload ch2 w3 l T3 I3 Hch2 Hok2. subst l. cbn [app].
  pose proof (trans_trans _ _ _ _ _ T12 T3) as T13. rewrite <- map_app in T13.
  assert (∀ r w', trans w (map (SawRecv fd) (ch1 ++ ch2)) w' → inv w' →
    (∀ fr, r = (IO_DONE, Some fr) → frame_ok fr ∧ header ++ payload = frame_bytes fr) →
    Q r (map (SawRecv fd) ch1 ++ map (SawRecv fd) ch2 ++ []) w') as HQ2.
  { intros r' w' T' I' Hr'. rewrite app_nil_r, <- map_app. apply HQ; [done|done|].
    eexists. split; [done|]. by rewrite concat_app, Hch1, Hch2. }
  destruct r; try by apply hoare_ret; [|apply HQ2].
  ticks. pose proof (trans_trans _ _ _ _ _ T13 T) as T14. rewrite app_nil_r in T14.
  destruct (decode_defined (e_alloc e) (header ++ payload)) as (dr & Hdr & Hds); [by apply Forall_app|].
  apply hoare_bind. eapply hoare_defined; [done|done|]. cbn [app].
  destruct (decode_success dr); [|by apply hoare_ret; [|apply HQ2]].
  destruct (Hds eq_refl) as (fr & -> & Hfr & Hb).
  apply hoare_ret; [done|]. apply HQ2; [done|done|]. by intros ? [= <-].
Qed.

(** ** Computations that leave the queue alone *)

Definition network (o : Obs) : Prop :=
  match o with SawConnect _ | SawSend _ _ | SawRecv _ _ | SawClose _ => True | _ => False end.

Definition safe {A} (m : Pub A) : Prop := ∀ w, inv w → wpp m (λ _ l _, Forall network l) w.

Lemma network_map {B} (f : B → Obs) (k : list B) : (∀ x, network (f x)) → Forall network (map f k).
Proof. intros Hf. induction k; cbn; auto. Qed.

Lemma safe_bind {A B} (m : Pub A) (k : A → Pub B) : safe m → (∀ x, safe (k x)) → safe (m ≫= k).
Proof.
  intros Hm Hk w I. apply hoare_bind. eapply hoare_mono; [by apply Hm|]. cbv beta. intros x l w' _ I' Hl.
  eapply hoare_mono; [by apply Hk|]. intros y k' w2 _ _ Hk'. by apply Forall_app.
Qed.
Lemma safe_ret {A} (x : A) : safe (mret x).
Proof. intros w I. by apply hoare_ret. Qed.
Lemma safe_throw {A} e : safe (throw (A := A) e).
Proof. intros w I. by apply hoare_throw. Qed.
Lemma safe_get : safe get_impl.
Proof. intros w I. by apply wpp_get. Qed.
Lemma safe_tick : safe (tick pid).
Proof. intros w I. by apply wpp_tick. Qed.
Lemma safe_modify g : (∀ i, tame g i) → safe (modify g).
Proof. intros Hg w I. by apply wpp_modify. Qed.
Lemma safe_obs o : network o → safe (record_obs o).
Proof. intros Ho w I. apply wpp_obs; [done|by intros q b ->|]. intros _ _. by repeat constructor. Qed.
Lemma safe_wait_fd fd events deadline : on_time deadline → safe (wait_fd pid fd events deadline).
Proof. intros Hd w I. by apply wpp_wait_fd. Qed.
Lemma safe_send_all fd data deadline : on_time deadline → safe (send_all pid fd data deadline).
Proof. intros Hd w I. apply wpp_send_all; [done|done|]. intros. by apply network_map. Qed.
Lemma safe_receive_frame fd deadline : on_time deadline → safe (receive_frame pid fd deadline).
Proof.
  intros Hd w I. apply wpp_receive_frame; [done|done|]. intros r l w' _ _ (chunks & -> & _).
  by apply network_map.
Qed.
Lemma safe_random : safe (secure_random_message_id pid).
Proof. intros w I. by apply wpp_random. Qed.

Create HintDb safe.
#[local] Hint Resolve safe_ret safe_throw safe_get safe_tick safe_wait_fd safe_send_all
  safe_receive_frame safe_random : safe.

(** Walks through a sequence of safe commands. *)
Ltac safely :=
  repeat (intros; cbv beta zeta; lazymatch goal with
    | |- safe (_ ≫= _) => apply safe_bind
    | |- safe (match ?x with _ => _ end) => destruct x
    | |- safe (record_obs _) => by apply safe_obs
    | |- safe _ => solve [auto with safe]
    end); intros; cbv beta zeta.

Lemma safe_stopping : safe (stopping pid).
Proof. unfold stopping. safely. Qed.
Lemma safe_clock : safe (clock_now pid).
Proof. unfold clock_now. safely. Qed.
Lemma safe_snapshot : safe (socket_snapshot pid).
Proof. unfold socket_snapshot. safely. Qed.
Lemma safe_returns : safe (returns pid).
Proof. unfold returns. safely. Qed.
Lemma safe_close fd : safe (close_fd pid fd).
Proof. unfold close_fd. safely. Qed.
Lemma safe_locked g : (∀ i, tame g i) → safe (locked pid g).
Proof. intros Hg. unfold locked. safely. by apply safe_modify. Qed.
#[local] Hint Resolve safe_stopping safe_clock safe_snapshot safe_returns safe_close : safe.

(** ** The connection *)

Lemma tame_set_socket fd b i : b = (0 <=? fd) → tame (set_socket fd b) i.
Proof. intros ->. by split; cbn. Qed.

Lemma safe_try_address deadline : on_time deadline → safe (try_address pid deadline).
Proof.
  intros Hd. unfold try_address. do 2 (apply safe_bind; [safely|intros ?]).
  destruct x0; [safely|]. apply safe_bind; [safely|]. intros fd. destruct (fd <? 0) eqn:Efd; [safely|].
  ztests. safely. apply safe_modify. intros i. apply tame_set_socket. symmetry. by apply Z.leb_le.
Qed.

Lemma safe_try_addresses deadline n : on_time deadline → safe (try_addresses pid deadline n).
Proof.
  intros Hd. induction n as [|n IH]; cbn [try_addresses]; [safely|].
  apply safe_bind; [by apply safe_try_address|]. safely.
Qed.

(** A deadline taken now. *)
Lemma safe_deadline {A} (k : Z → Pub A) :
  (∀ d, on_time d → safe (k d)) →
  safe (now ← clock_now pid; deadline ← defined (make_deadline now (_ack_timeout config)); k deadline).
Proof.
  intros Hk w I. apply hoare_bind, wpp_clock; [done|]. intros now w1 _ I1 Hn.
  destruct (make_deadline_defined now Hn) as (d & Hd & Hle). apply hoare_bind.
  eapply hoare_defined; [done..|]. by apply Hk.
Qed.

Lemma safe_connect : safe (connect_collector pid config).
Proof. apply safe_deadline. intros d Hd. safely. by apply safe_try_addresses. Qed.

Lemma safe_close_socket : safe (close_socket pid).
Proof. unfold close_socket. safely. apply safe_modify. intros i. by apply tame_set_socket. Qed.
#[local] Hint Resolve safe_connect safe_close_socket : safe.

(** ** Delivery *)

Definition exchanged (wire : bytes) (sent : AlarmFrame) (l : list Obs) : Prop :=
  ∃ fd sends recvs ack,
    l = map (SawSend fd) sends ++ map (SawRecv fd) recvs ∧ concat sends = wire
    ∧ frame_ok ack ∧ _ftype ack = ACK ∧ concat recvs = frame_bytes ack
    ∧ _source_id ack = _source_id sent ∧ _message_id ack = _message_id sent.

Lemma same_identity_spec a b :
  same_identity a b = true ↔ _source_id a = _source_id b ∧ _message_id a = _message_id b.
Proof. unfold same_identity. by rewrite andb_true_iff, Z.eqb_eq, bool_decide_eq_true. Qed.

Lemma wpp_deadline {A} (k : Z → Pub A) Q w :
  inv w → (∀ d w', trans w [] w' → inv w' → on_time d → wpp (k d) Q w') →
  wpp (now ← clock_now pid; deadline ← defined (make_deadline now (_ack_timeout config)); k deadline) Q w.
Proof.
  intros I Hk. apply hoare_bind, wpp_clock; [done|]. intros now w1 T1 I1 Hn.
  destruct (make_deadline_defined now Hn) as (d & Hd & Hle). apply hoare_bind.
  eapply hoare_defined; [done..|]. by apply Hk.
Qed.

Lemma wpp_send_alarm wire sent Q w :
  inv w →
  (∀ r l w', trans w l w' → inv w' → (r = DELIVERED → exchanged wire sent l) → Q r l w') →
  wpp (send_alarm_and_wait_ack pid config wire sent) Q w.
Proof.
  intros I HQ. eapply (hoare_mono _ (λ r l _, r = DELIVERED → exchanged wire sent l)); [|by auto].
  clear HQ. unfold send_alarm_and_wait_ack.
  apply hoare_bind, wpp_snapshot; [done|]. intros w1 T1 I1. set (fd := _socket (pub w1)).
  destruct (fd <? 0); [by apply hoare_ret|]. apply wpp_deadline; [done|]. intros d w2 T2 I2 Hd.
  apply hoare_bind, wpp_send_all; [done|done|]. intros r sends w3 l T3 I3 Hsent. subst l.
  destruct r; try by apply hoare_ret. specialize (Hsent eq_refl).
  apply hoare_bind, wpp_receive_frame; [done|done|]. intros [st fr] l w4 T4 I4 (recvs & -> & Hr).
  apply hoare_ret; [done|]. rewrite app_nil_r. cbn [app].
  destruct st; try done. destruct fr as [ack|]; [|done].
  destruct (bool_decide (_ftype ack = ACK) && same_identity ack sent) eqn:E; [|done]. intros _.
  apply andb_true_iff in E as [Ht%bool_decide_eq_true Hid%same_identity_spec].
  destruct (Hr ack eq_refl) as [Hok Hb]. exists fd, sends, recvs, ack. naive_solver.
Qed.

Lemma timestamp_u64 t ms : timestamp_milliseconds t = Some ms → is_u64 ms.
Proof. unfold timestamp_milliseconds. case_match; [done|]. intros [= <-]. dlia. Qed.

Lemma safe_heartbeat : safe (heartbeat pid config).
Proof.
  unfold heartbeat. apply safe_bind; [safely|]. intros fd. destruct (fd <? 0); [safely|].
  intros w I. apply hoare_bind, wpp_random; [done|]. intros [id|e] w1 _ I1 Hid; [|by apply hoare_ret].
  apply hoare_bind, wpp_returns; [done|]. intros t w2 _ I2 _.
  destruct (timestamp_milliseconds t) as [ms|] eqn:Et; [|by apply hoare_ret].
  cbv zeta. ticks. apply hoare_bind.
  assert (frame_ok (mkFrame PING (_psource_id config) id ms [])) as Hf.
  { split; [done|]. cbn. destruct Hid. split; [apply Hcfg|]. split; [done|]. split; [done|].
    split; [by eapply timestamp_u64|done]. }
  destruct (encoded_defined (e_alloc e) _ Hf) as (o & Ho & _). eapply hoare_defined; [done..|].
  destruct o as [wire|]; [|by apply hoare_ret].
  apply safe_deadline; [|done]. intros d Hd. safely.
Qed.

(** ** Waiting *)

Lemma safe_wait_until condition :
  (∀ i, _stop i = true → condition i = true) → safe (wait_until pid condition).
Proof.
  intros Hc w I. apply hoare_bind, wpp_get; [done|]. destruct (condition (pub w)); [by apply hoare_ret|].
  apply (wpp_loop _ (λ _ l _, l = [])); [done..|]. intros _ l0 w0 T0 I0 ->. ticks. gets.
  destruct (condition (pub w1)) eqn:E; [by apply hoare_ret|].
  destruct (e_ret e =? 0); [by apply hoare_ret|]. apply hoare_ret; [done|]. split; [|done].
  destruct Hs as [?|[Hs _]]; [done|]. by rewrite Hc in E.
Qed.

Lemma tame_pending b i : tame (set_pending b) i.
Proof. by split; cbn. Qed.
#[local] Hint Resolve safe_heartbeat safe_wait_until tame_pending : safe.

Lemma safe_wait_for_work : safe (wait_for_work pid).
Proof.
  apply safe_bind; [|safely; apply safe_modify, tame_pending].
  intros w I. apply (wpp_loop _ (λ _ l _, l = [])); [done..|]. intros _ l0 w0 T0 I0 ->. ticks. gets.
  apply hoare_ret; [done|]. destruct (_stop (pub w1) || _work_pending (pub w1)) eqn:E; [done|].
  split; [|done]. destruct Hs as [?|[Hs _]]; [done|]. by rewrite Hs in E.
Qed.

Lemma safe_wait_idle : safe (wait_idle pid).
Proof.
  unfold wait_idle. safely; [|by apply safe_modify, tame_pending].
  apply safe_wait_until. by intros i ->.
Qed.

Lemma next_backoff_defined ms :
  backoff_ok config ms → ∃ b, next_backoff config ms = Some b ∧ backoff_ok config b.
Proof.
  intros Hb. destruct Hcfg as [Hv _ _ Hm]. unfold valid_config in Hv.
  apply andb_true_iff in Hv as [_ Hv]. ztests. unfold next_backoff, backoff_ok, FIRST_BACKOFF in *.
  destruct (ms =? 0) eqn:E; ztests; [eexists; split; [done|lia]|].
  unfold i64_mul. rewrite i64_check_ok by widlia. cbn. eexists. split; [done|]. lia.
Qed.

Lemma wpp_wait_backoff w :
  inv w →
  wpp (wait_backoff pid config) (λ b l w', Forall network l ∧ b = negb (_stop (pub w'))) w.
Proof.
  intros I. unfold wait_backoff. ticks. gets.
  destruct (next_backoff_defined _ (inv_backoff _ I0)) as (b & Hb & Hok).
  apply hoare_bind. eapply hoare_defined; [done..|]. apply hoare_bind, wpp_modify; [done|by split; cbn|].
  intros I2. apply hoare_bind. eapply hoare_mono; [by apply safe_wait_until|]. intros x l w2 _ I3 Hl.
  gets. apply hoare_ret; [done|]. by rewrite app_nil_r.
Qed.

Lemma safe_wait_backoff : safe (wait_backoff pid config).
Proof. intros w I. eapply hoare_mono; [by apply wpp_wait_backoff|]. by intros ? ? ? ? ? []. Qed.

Lemma safe_reset_backoff : safe (reset_backoff pid).
Proof. apply safe_locked. intros i. split; cbn; auto. by left. Qed.
#[local] Hint Resolve safe_wait_for_work safe_wait_idle safe_wait_backoff safe_reset_backoff : safe.

Lemma safe_idle_round : safe (idle_round pid config).
Proof. unfold idle_round. safely. Qed.

Lemma safe_have_connection : safe (have_connection pid config).
Proof. unfold have_connection. safely. Qed.
#[local] Hint Resolve safe_idle_round safe_have_connection : safe.

(** ** The outbox *)

(** A path of the queue. *)
Definition queued (p : path) : Prop := is_inside (data_dir root OUTBOX) p ∧ Forall plain p.

Lemma wpp_watched {A} (m : AlarmSpool → Sys A) (o : A → Obs) (R : A → FS → Prop) Q w :
  inv w →
  (∀ s v, _sroot s = root → kind_of s = OUTBOX → ready_in s (fs v) → kept [] (fs (sys w)) (fs v) →
     wp (m s) (λ x v', good s (fs v) (fs v') ∧ kept [o x] (fs v) (fs v') ∧ R x (fs v')) v) →
  (∀ x q b, o x = SawRemove q b → confirmed root (log w) q b) →
  (∀ x w', trans w [o x] w' → inv w' → R x (fs (sys w')) → Q x [o x] w') →
  wpp (watched pid m o) Q w.
Proof.
  intros I Hm Ho HQ. unfold watched. ticks. destruct (inv_spool _ I0) as (s & Hs' & Hr & Hk & HR).
  pose proof (Hm s (sys w0) Hr Hk HR (tr_kept _ _ _ T)) as Hx. unfold wp in Hx.
  assert (on_spool (asking m) w0 = (Returned (m s (sys w0)).1,
    mkPWorld (set_spool s (pub w0)) (m s (sys w0)).2 (script w0) (log w0))) as Hrun.
  { unfold on_spool, asking, mbind, Sys_bind. rewrite Hs'. by destruct (m s (sys w0)). }
  set (x := (m s (sys w0)).1) in *. set (v := (m s (sys w0)).2) in *. destruct Hx as (Hg & Hkept & Hx).
  assert (log w0 = log w) as Hlog by (rewrite (tr_log _ _ _ T); apply app_nil_r).
  set (w1 := mkPWorld (set_spool s (pub w0)) v (script w0) (log w0 ++ [o x])).
  assert (trans w0 [o x] w1) as T1.
  { destruct I0 as [S B C E L]. split; cbn; auto. split; cbn; auto.
    - exists s. do 3 (split; [done|]). apply Hg.
    - rewrite Hlog in *. destruct (o x) eqn:Eo;
        try (apply well_ordered_app; [done|]; by intros q b Hq%list_elem_of_singleton).
      apply well_ordered_remove; [done|]. by eapply Ho. }
  exists [o x]. unfold mbind, Eff_bind. rewrite Hrun. cbn [fst snd]. split; [exact T1|].
  apply HQ; [exact (trans_trans _ _ _ _ _ T T1)|by eapply tr_inv|done].
Qed.

Lemma kept_addressed s p o f g :
  ready_in s f → _sroot s = root → kind_of s = OUTBOX → queued p →
  addressed s p f g → (∀ b, file f p = Some b → takes p b o) → kept [o] f g.
Proof.
  intros R Hr Hk [Hin Hpl] Ha Ho q b Hq Hb. rewrite <- Hr, <- Hk, <- (rd_data _ _ R) in *.
  destruct (decide (q = p)) as [->|Hne]; [right; left; by apply Ho|]. left. rewrite <- Hb. apply Ha; [done|].
  intros Hl. apply Hne. by eapply lookup_alarm.
Qed.

Lemma wpp_spool_read p Q w :
  inv w → queued p →
  (∀ r w', trans w [SawRead p (_rdstatus r)] w' → inv w' →
     (_rdstatus r = SP_SUCCESS → ∃ fr, frame_ok fr ∧ _ftype fr = ALARM
        ∧ p = alarm_path root OUTBOX fr ∧ _rdbytes r = frame_bytes fr
        ∧ file (fs (sys w')) p = Some (frame_bytes fr)) →
     Q r [SawRead p (_rdstatus r)] w') →
  wpp (spool_read pid p) Q w.
Proof.
  intros I Hp HQ. eapply (wpp_watched _ _ (λ r f, _rdstatus r = SP_SUCCESS → ∃ fr, frame_ok fr
    ∧ _ftype fr = ALARM ∧ p = alarm_path root OUTBOX fr ∧ _rdbytes r = frame_bytes fr
    ∧ file f p = Some (frame_bytes fr))); [done| |done|exact HQ]. intros s v Hr Hk R _.
  eapply wp_mono; [by apply wp_read|]. cbv beta. intros r v' ((Hg & Ha) & Hok & _). split; [done|].
  destruct (decide (_rdstatus r = SP_SUCCESS)) as [Hst|Hst].
  - destruct (Hok Hst) as (Hfs & q & i & fr & Hl & _ & He & Hc & Hq & Hf & Ht & Hb).
    assert (q = p) as ->.
    { destruct Hp. eapply lookup_alarm; [exact R| |done|done]. by rewrite (rd_data _ _ R), Hr, Hk. }
    rewrite Hfs. split.
    + intros q' b _ Hb'. by left.
    + intros _. exists fr. do 2 (split; [done|]). rewrite <- Hr, <- Hk, <- Hq. do 2 (split; [done|]).
      unfold file. by rewrite He.
  - split; [|done]. eapply kept_addressed; [done..|]. intros b _. by split.
Qed.

(** Commands that only keep the invariant. *)
Definition sound {A} (m : Pub A) : Prop := ∀ w, inv w → wpp m (λ _ _ _, True) w.

Lemma safe_sound {A} (m : Pub A) : safe m → sound m.
Proof. intros Hm w I. eapply hoare_mono; [by apply Hm|done]. Qed.

Lemma sound_bind {A B} (m : Pub A) (k : A → Pub B) : sound m → (∀ x, sound (k x)) → sound (m ≫= k).
Proof.
  intros Hm Hk w I. apply hoare_bind. eapply hoare_mono; [by apply Hm|]. cbv beta. intros x l w' _ I' _.
  by apply Hk.
Qed.

Lemma sound_quarantine p : queued p → sound (spool_quarantine pid p).
Proof.
  intros Hp w I. eapply (wpp_watched _ _ (λ _ _, True)); [done| |done|done]. intros s v Hr Hk R _.
  eapply wp_mono; [by apply wp_quarantine|]. cbv beta. intros r v' ((Hg & Ha) & _). split; [done|].
  split; [|done]. eapply kept_addressed; [done..|]. by intros b _.
Qed.

Lemma wpp_spool_remove p b Q w :
  inv w → queued p → confirmed root (log w) p b → file (fs (sys w)) p = Some b →
  (∀ r w', trans w [SawRemove p b] w' → inv w' → Q r [SawRemove p b] w') →
  wpp (spool_remove pid p b) Q w.
Proof.
  intros I Hp Hc Hb HQ. eapply (wpp_watched _ _ (λ _ _, True)); [done| | |auto].
  - intros s v Hr Hk R Hkept. eapply wp_mono; [by apply wp_remove|]. cbv beta. intros r v' ((Hg & Ha) & _).
    split; [done|]. split; [|done]. eapply kept_addressed; [done..|]. intros b' Hb'. split; [done|].
    destruct Hp as [Hin _]. destruct (Hkept p b Hin Hb) as [Hv|Hv]; [congruence|by inversion Hv].
  - by intros _ q b' [= <- <-].
Qed.

Lemma wpp_spool_next Q w :
  inv w → (∀ r w', trans w [] w' → inv w' → (∀ p, _ppath r = Some p → queued p) → Q r [] w') →
  wpp (spool_next pid) Q w.
Proof.
  intros I HQ. unfold spool_next. ticks. destruct (inv_spool _ I0) as (s & Hs' & Hr & Hk & HR).
  destruct (trans_spool (asking next) [] w0 s I0 Hs') as (x & w1 & Hrun & Hl & Hsc & Hx & Hv & _ & T1).
  - left. intros q b. apply not_elem_of_nil.
  - apply wp_bind. eapply wp_mono; [by apply wp_next|]. intros r v [Hf _]. apply wp_ret.
    split; [apply same_spool_refl|]. rewrite Hf. split; [by apply good_refl|apply kept_refl].
  - assert (trans w0 [] w1) as T2.
    { rewrite app_nil_r, <- Hl in T1. destruct w1; cbn in *; by subst. }
    exists []. rewrite Hrun. cbn [fst snd]. split; [done|].
    apply HQ; [exact (trans_trans _ _ _ _ _ T T2)|by eapply tr_inv|].
    pose proof (wp_next s (sys w0) HR) as [_ Hn]. intros p Hp. subst x.
    unfold asking, mbind, Sys_bind in Hp. destruct (next s (sys w0)) as [r v]. cbn in *.
    destruct (Hn p Hp). split; [|done]. by rewrite <- Hr, <- Hk, <- (rd_data _ _ HR).
Qed.

(** ** The worker *)

Lemma tame_count_connect i : tame count_connect_failure i.
Proof. unfold count_connect_failure. by split; case_match. Qed.
Lemma tame_count_delivery d i : tame (count_delivery d) i.
Proof. by destruct d; split. Qed.
Lemma tame_count_ack i : tame count_ack i.
Proof. by split. Qed.

Lemma exchanged_confirmed w l w' fr :
  trans w l w' → frame_ok fr → _ftype fr = ALARM → exchanged (frame_bytes fr) fr l →
  confirmed root (log w') (alarm_path root OUTBOX fr) (frame_bytes fr).
Proof.
  intros T Hf Ht (fd & sends & recvs & ack & -> & Hs & Ha & Hat & Hr & Hsrc & Hid).
  rewrite (tr_log _ _ _ T). by exists (log w), fd, sends, recvs, fr, ack.
Qed.

(** The network takes nothing out of the queue. *)
Lemma file_network w l w' q b :
  trans w l w' → Forall network l → queued q → file (fs (sys w)) q = Some b →
  file (fs (sys w')) q = Some b.
Proof.
  intros T Hl [Hin _] Hb. destruct (tr_kept _ _ _ T q b Hin Hb) as [|He]; [done|].
  apply Exists_exists in He as (o & Ho & Ht). rewrite Forall_forall in Hl. specialize (Hl o Ho).
  by destruct o.
Qed.

Lemma exchanged_network wire sent l : exchanged wire sent l → Forall network l.
Proof.
  intros (fd & sends & recvs & ack & -> & _). apply Forall_app. split; by apply network_map.
Qed.

Lemma wpp_deliver p fr w :
  inv w → queued p → frame_ok fr → _ftype fr = ALARM → p = alarm_path root OUTBOX fr →
  file (fs (sys w)) p = Some (frame_bytes fr) →
  wpp (deliver pid config p (frame_bytes fr) fr) (λ _ _ _, True) w.
Proof.
  intros I Hq Hf Ht Hp Hfile. unfold deliver.
  assert (safe (_ ← wait_backoff pid config; mret ())) as Hwait by safely.
  apply hoare_bind. eapply hoare_mono; [by apply safe_have_connection|]. intros connected l w1 T1 I1 Hl.
  destruct connected; cbn [negb]; cycle 1.
  { revert w1 T1 I1. intros w1 _. apply safe_sound. safely. apply safe_locked, tame_count_connect. }
  assert (∀ d (after : Pub unit), safe after →
    sound (_ ← locked pid (count_delivery d); _ ← close_socket pid; after)) as Hfail.
  { intros d after Ha. apply safe_sound, safe_bind; [apply safe_locked, tame_count_delivery|]. safely. }
  pose proof (file_network _ _ _ _ _ T1 Hl Hq Hfile) as Hfile1.
  apply hoare_bind, wpp_send_alarm; [done|]. intros r k w2 T2 I2 Hd.
  apply (hoare_mono _ (λ _ _ _, True)); [|done].
  destruct r; [|by apply Hfail, I2; auto with safe..].
  pose proof (file_network _ _ _ _ _ T2 (exchanged_network _ _ _ (Hd eq_refl)) Hq Hfile1) as Hfile2.
  apply hoare_bind, wpp_locked; [done|apply tame_count_ack|]. intros w3 T3 I3.
  apply hoare_bind, wpp_spool_remove; [done|done|..].
  { rewrite Hp, (tr_log _ _ _ T3), app_nil_r. by eapply exchanged_confirmed; [..|apply Hd]. }
  { by eapply file_network; [exact T3|..]. }
  intros removed w4 _ I4. apply (safe_sound (if negb (path_success removed)
    then _ ← wait_backoff pid config; mret () else reset_backoff pid)); [|done].
  safely.
Qed.

Lemma sound_run_iteration : sound (run_iteration pid config).
Proof.
  assert (sound (_ ← wait_backoff pid config; mret ())) as Hwait by (apply safe_sound; safely).
  intros w I. unfold run_iteration. apply hoare_bind, wpp_spool_next; [done|]. intros r w1 _ I1 Hr.
  apply (hoare_mono _ (λ _ _ _, True)); [|done].
  case_bool_decide; [by apply safe_sound; [apply safe_idle_round|]|].
  destruct (path_success r), (_ppath r) as [p|]; try by apply Hwait.
  specialize (Hr p eq_refl). apply hoare_bind, wpp_spool_read; [done|done|]. intros st w2 _ I2 Hst.
  apply (hoare_mono _ (λ _ _ _, True)); [|done]. case_bool_decide; [by apply hoare_ret|].
  destruct (read_success st) eqn:Es; cbn [negb]; [|by apply Hwait].
  unfold read_success in Es. apply bool_decide_eq_true in Es.
  destruct (Hst Es) as (fr & Hf & Ht & Hp & -> & Hfile).
  ticks. destruct (decode_defined (e_alloc e) (frame_bytes fr)) as (dr & Hdr & Hds);
    [by apply frame_bytes_ok|].
  assert (sound (_ ← spool_quarantine pid p; mret ())) as Hquar
    by (apply sound_bind; [by apply sound_quarantine|intros; apply safe_sound; safely]).
  apply hoare_bind. eapply hoare_defined; [done..|]. destruct (decode_success dr); [|by apply Hquar].
  destruct (Hds eq_refl) as (fr' & -> & Hf' & Hb). case_bool_decide; [|by apply Hquar].
  assert (fr' = fr) as ->.
  { pose proof (decoded_frame_bytes fr Hf) as Hx1. pose proof (decoded_frame_bytes fr' Hf') as Hx2.
    rewrite <- Hb in Hx2. congruence. }
  apply wpp_deliver; try done. by eapply file_network; [exact T|..].
Qed.

(** ** The worker ends *)

(** [noexcept] *)
Lemma nothrow_tick : nothrow (tick pid).
Proof. intros w e. unfold tick. by destruct (script w). Qed.
#[local] Hint Resolve nothrow_tick : noexcept.

Lemma nothrow_wait_backoff : nothrow (wait_backoff pid config).
Proof. unfold wait_backoff, wait_until. noexcept. Qed.
Lemma nothrow_close_socket : nothrow (close_socket pid).
Proof. unfold close_socket, close_fd. noexcept. Qed.
Lemma nothrow_stopping : nothrow (stopping pid).
Proof. unfold stopping. noexcept. Qed.

Lemma nothrow_run : nothrow (run pid config).
Proof.
  unfold run. noexcept; auto using nothrow_stopping, nothrow_close_socket, nothrow_wait_backoff.
Qed.

(** The other threads leave the socket alone. *)
Lemma act_socket o w : _socket (pub (act pid o w)) = _socket (pub w).
Proof.
  destruct o as [|frame|]; try done. cbn. destruct (encoded_bytes true frame) as [[wire|]|]; try done.
  unfold store_frame, on_spool. destruct (_spool (pub w)); [|done]. by destruct (store _ _ _ _ _ _) as [[? ?] ?].
Qed.

Lemma acts_socket os w : _socket (pub (foldl (flip (act pid)) w os)) = _socket (pub w).
Proof.
  revert w. induction os as [|o os IH]; intros w; [done|]. cbn [foldl]. rewrite IH. apply act_socket.
Qed.

Lemma tick_socket w : _socket (pub (tick pid w).2) = _socket (pub w).
Proof. unfold tick. destruct (script w); cbn [snd]; by rewrite acts_socket. Qed.

Lemma tick_returns w : ∃ e w', tick pid w = (Returned e, w') ∧ _socket (pub w') = _socket (pub w).
Proof. pose proof (tick_socket w). unfold tick in *. destruct (script w); eauto. Qed.

Lemma close_socket_result w :
  ∃ w', close_socket pid w = (Returned tt, w') ∧ _socket (pub w') = -1.
Proof.
  unfold close_socket, mbind, Eff_bind. destruct (tick_returns w) as (e & w1 & -> & _). cbn.
  destruct (0 <=? _socket (pub w1)); [|eauto]. unfold close_fd, mbind, Eff_bind.
  destruct (tick_returns (with_pub (set_socket (-1) false) w1)) as (e2 & w2 & Ht & Hs).
  unfold with_pub in Ht. rewrite Ht. cbn. eauto.
Qed.

Lemma wpp_run_loop w :
  inv w → ∃ l w', run pid config w = (Returned tt, w') ∧ trans w l w' ∧ _stop (pub w') = true
                  ∧ _socket (pub w') = -1.
Proof.
  intros I.
  assert (wpp (run pid config) (λ _ _ w', _stop (pub w') = true ∧ _socket (pub w') = -1) w) as (l & T & Hw).
  { unfold run. apply hoare_bind. apply (hoare_mono _ (λ _ _ w', _stop (pub w') = true)).
    2:{ intros x l w' T I' Hst. destruct (safe_close_socket w' I') as (l' & T' & _). exists l'.
        destruct (close_socket_result w') as (w2 & Hc & Hs). rewrite Hc in *. cbn [fst snd] in *.
        split; [done|]. split; [|done]. by apply (tr_stop _ _ _ T'). }
    apply (wpp_loop _ (λ _ _ _, True)); [done..|].
    intros _ l0 w0 T0 I0 _. apply hoare_bind, wpp_stopping; [done|]. intros b w1 T1 I1 Hb Hsh.
    destruct b; [by apply hoare_ret|]. destruct Hsh as [Hsh|Hsh]; [|by rewrite Hb in Hsh].
    apply hoare_catch.
    - apply hoare_bind. eapply hoare_mono; [by apply sound_run_iteration|]. intros x l w2 T2 I2 _.
      apply hoare_ret; [done|]. split; [|done]. pose proof (tr_script _ _ _ T2). lia.
    - intros e l w2 T2 I2. pose proof (tr_script _ _ _ T2).
      apply hoare_bind. eapply hoare_mono; [by apply safe_close_socket|]. intros x l3 w3 T3 I3 _.
      pose proof (tr_script _ _ _ T3).
      apply hoare_bind. eapply hoare_mono; [by apply wpp_wait_backoff|]. intros y l4 w4 T4 I4 [_ Hy].
      pose proof (tr_script _ _ _ T4). destruct y; (apply hoare_ret; [done|]); [split; [lia|done]|].
      symmetry in Hy. by apply negb_false_iff in Hy. }
  pose proof (nothrow_run w) as Hn. destruct (run pid config w) as [[[]|e|] w']; cbn in *; [|by edestruct Hn|done].
  destruct Hw. by exists l, w'.
Qed.

(** ** Enqueueing *)

(** The outbox holds [fr], now and after any power failure. *)
Definition held (f : FS) (fr : AlarmFrame) : Prop :=
  ∃ i, durable_entry f (alarm_path root OUTBOX fr) i
    ∧ contents f !! i = Some (frame_bytes fr) ∧ i ∉ unflushed f.

Lemma held_file f fr : held f fr → file f (alarm_path root OUTBOX fr) = Some (frame_bytes fr).
Proof. intros (i & Hd & Hc & _). unfold file. by rewrite (durable_entry_now _ _ _ Hd). Qed.

Lemma held_act o fr w : inv w → outer_ok o → held (fs (sys w)) fr → held (fs (sys (act pid o w))) fr.
Proof.
  intros I Ho Hh. destruct o as [|frame|]; try done. cbn [act]. rewrite encoded_bytes_ok by done.
  destruct (inv_spool _ I) as (s & Hs & Hr & Hk & R). unfold store_frame, on_spool. rewrite Hs.
  pose proof (wp_store pid s (_source_id frame) (_message_id frame) (frame_bytes frame) (sys w) R
                (frame_bytes_ok _ Ho)) as [[[_ E] _] _].
  destruct Hh as (i & Hd & Hc & Hu).
  assert (is_inside (_data_directory s) (alarm_path root OUTBOX fr)) as Hin.
  { rewrite (rd_data _ _ R), Hr, Hk. apply alarm_path_inside. }
  pose proof (wp_store_durable pid s (_source_id frame) (_message_id frame) (frame_bytes frame) _ i (sys w) R
                (frame_bytes_ok _ Ho) Hin Hd) as Hd'. unfold wp in Hd'.
  assert (i < next_inode (fs (sys w)))%nat as Hi.
  { eapply wf_inodes; [by eapply disk_wf, rd_disk|]. rewrite <- (durable_entry_now _ _ _ Hd).
    apply entries_possible. }
  destruct (store _ _ _ _ _ _) as [[x s'] v]. cbn [fst snd] in *. exists i. split; [done|].
  split; [by rewrite (ev_contents _ _ _ _ E)|by eapply ev_flushed].
Qed.

Lemma held_acts os fr w : inv w → Forall outer_ok os → held (fs (sys w)) fr →
  held (fs (sys (foldl (flip (act pid)) w os))) fr.
Proof.
  revert w. induction os as [|o os IH]; intros w I Hos Hh; [done|]. apply Forall_cons in Hos as [Ho Hos].
  cbn [foldl]. apply IH; [|done|by apply held_act]. eapply tr_inv. by apply trans_act.
Qed.

Lemma held_tick fr w : inv w → held (fs (sys w)) fr → held (fs (sys (tick pid w).2)) fr.
Proof.
  intros I Hh. unfold tick. destruct (script w) as [|e l] eqn:E; cbn [snd]; apply held_acts; try done.
  - by repeat constructor.
  - destruct I as [? ? ? Hs ?]. rewrite E in Hs. apply Forall_cons in Hs as [_ Hs]. by split.
  - pose proof (inv_script _ I) as Hs. rewrite E in Hs. apply Forall_cons in Hs as [[] _]. done.
Qed.

(** One attempt: when the store succeeds the alarm is held. *)
Lemma wpp_store_frame frame Q w :
  inv w → frame_ok frame →
  (∀ r w', trans w [] w' → inv w' →
     (_ststatus r = SP_SUCCESS → held (fs (sys w')) frame) → Q r [] w') →
  wpp (store_frame pid frame (frame_bytes frame)) Q w.
Proof.
  intros I Hf HQ. destruct (inv_spool _ I) as (s & Hs & Hr & Hk & R).
  destruct (trans_spool (λ s, store pid s (_source_id frame) (_message_id frame) (frame_bytes frame))
              [] w s I Hs) as (x & w' & Hrun & Hl & Hsc & Hx & Hv & _ & T).
  { left. intros q b. apply not_elem_of_nil. }
  { apply wp_store_kept; auto. by apply frame_bytes_ok. }
  assert (trans w [] w') as T'.
  { rewrite app_nil_r, <- Hl in T. destruct w'; cbn in *; by subst. }
  exists []. unfold store_frame. rewrite Hrun. cbn [fst snd]. split; [done|].
  apply HQ; [done|by eapply tr_inv|]. intros Hst.
  pose proof (wp_store pid s (_source_id frame) (_message_id frame) (frame_bytes frame) (sys w) R
                (frame_bytes_ok _ Hf)) as [(_ & _ & Hp) _].
  rewrite Hv. destruct (store pid s _ _ _ (sys w)) as [[r s'] v]. cbn [fst snd] in *. subst x. rewrite Hst in Hp.
  destruct Hp as (fr & i & _ & _ & _ & _ & _ & _ & _ & Hposs & Hc & Hu & _).
  exists i. rewrite Hr, Hk in Hposs. split; [|done]. unfold alarm_path. intros y Hy.
  rewrite Hposs in Hy. by apply list_elem_of_singleton in Hy.
Qed.

Definition accepted (frame : bytes → AlarmFrame) (r : AlarmEnqueueResult) (w : PWorld) : Prop :=
  durable r = true → _work_pending (pub w) = true ∧
    ∃ id, frame_ok (frame id) ∧ held (fs (sys w)) (frame id).

Lemma wpp_attempts n frame w :
  inv w → (∀ id, length id = ALARM_MESSAGE_ID_SIZE → bytes_ok id → frame_ok (frame id)) →
  wpp (enqueue_attempts pid n frame) (λ r l w', l = [] ∧ accepted frame r w') w.
Proof.
  intros I Hf. revert w I.
  induction n as [|n IH]; intros w I; cbn [enqueue_attempts]; [by apply hoare_ret|].
  apply hoare_bind, wpp_random; [done|]. intros [id|e] w1 _ I1 Hid; [|by apply hoare_ret].
  destruct Hid as [Hlen Hok]. specialize (Hf id Hlen Hok). ticks.
  destruct (encoded_defined (e_alloc e) _ Hf) as (o & Ho & Hcase).
  apply hoare_bind. eapply hoare_defined; [done..|].
  destruct o as [wire|]; [|by apply hoare_ret]. destruct Hcase as [?|[= ->]]; [done|].
  apply hoare_bind, wpp_store_frame; [done|done|]. intros r w3 _ I3 Hst.
  case_bool_decide as Hdup; [by apply IH|]. cbv zeta. unfold accepted.
  destruct (durable (map_spool_result r)) eqn:Ed; cbn [negb];
    [|apply hoare_ret; [done|]; by rewrite Ed].
  assert (_ststatus r = SP_SUCCESS) as Hsucc.
  { unfold durable, map_spool_result in Ed. apply bool_decide_eq_true in Ed. by destruct (_ststatus r). }
  specialize (Hst Hsucc). unfold locked. apply hoare_bind. apply hoare_bind.
  apply (hoare_mono _ (λ _ l w', l = [] ∧ held (fs (sys w')) (frame id))).
  { exists []. pose proof (held_tick _ _ I3 Hst) as Hh.
    assert (wpp (tick pid) (λ _ l _, l = []) w3) as (l & Tl & Hl) by by apply wpp_tick.
    destruct (tick_returns w3) as (x & w4 & Ht & _). rewrite Ht in *. cbn in *. by subst l. }
  intros x l w4 T4 I4 [-> Hh]. apply wpp_modify; [done|apply tame_pending|]. intros I5.
  apply hoare_ret; [done|]. split; [done|]. intros _. split; [done|]. by exists id.
Qed.

Lemma nothrow_attempts n frame : nothrow (enqueue_attempts pid n frame).
Proof.
  induction n as [|n IH]; cbn [enqueue_attempts];
    unfold secure_random_message_id, getrandom, locked; noexcept; auto.
  intros w e. unfold store_frame, on_spool. destruct (_spool (pub w)); [|done].
  by destruct (store _ _ _ _ _ _) as [[? ?] ?].
Qed.

(** A block that throws only when its first allocation fails. *)
Lemma wpp_catch_allocate {A} (k : unit → Pub A) h Q w :
  inv w → nothrow (k tt) →
  (∀ w', trans w [] w' → inv w' → wpp (k tt) Q w') →
  (∀ w', trans w [] w' → inv w' → wpp (h BadAlloc) Q w') →
  wpp (catch (allocate_memory pid ≫= k) h) Q w.
Proof.
  intros I Hn Hk Hh.
  assert (wpp (tick pid) (λ _ l _, l = []) w) as (l & T & Hl) by by apply wpp_tick.
  destruct (tick_returns w) as (e & w1 & Ht & _). rewrite Ht in *. cbn [fst snd] in *. subst l.
  assert (∀ m : Pub A, wpp m Q w1 → (catch (allocate_memory pid ≫= k) h) w = m w1 →
    wpp (catch (allocate_memory pid ≫= k) h) Q w) as Hgo.
  { intros m (l & T' & HQ) He. exists l. rewrite He. split; [|done]. exact (trans_trans _ _ _ _ _ T T'). }
  unfold catch, allocate_memory, mbind, Eff_bind in *. rewrite Ht in *.
  destruct (e_alloc e); cbn in *.
  - apply (Hgo (k tt)); [by apply Hk; [|eapply tr_inv]|]. specialize (Hn w1).
    destruct (k tt w1) as [[x|e'|] w2]; cbn in *; [done|by edestruct Hn|done].
  - apply (Hgo (h BadAlloc)); [|done]. by apply Hh; [|eapply tr_inv].
Qed.

Lemma encode_v2_cases r :
  record_ok r →
  (∃ e, encode_v2 r = Some e ∧ _estatus e ≠ MonitorWire.SUCCESS)
  ∨ (_mvalue (_data r) ≠ VValueless ∧ v2_size r <= V2_MAX_DATAGRAM_SIZE
     ∧ encode_v2 r = Some (mkEncode MonitorWire.SUCCESS (v2_datagram r))).
Proof.
  intros Hr. destruct (decide (_mvalue (_data r) = VValueless)) as [Hv|Hv].
  { left. unfold encode_v2. rewrite Hv. by eexists. }
  destruct (Z.le_gt_cases (v2_size r) V2_MAX_DATAGRAM_SIZE).
  - right. split; [done|]. split; [done|]. apply encode_v2_fits; [apply Hr|done|done].
  - left. rewrite encode_v2_too_large by done. by eexists.
Qed.

Definition carries (record : StoredRecord) (fr : AlarmFrame) : Prop :=
  frame_ok fr ∧ _ftype fr = ALARM ∧ _source_id fr = _psource_id config
  ∧ _timestamp_ms fr = _changed_at record / NS_PER_MS
  ∧ decode_v2 (Some (_payload fr))
    = Some (mkDecode MonitorWire.SUCCESS
              (Some (mkDecoded V2 (_data record) (Some (_changed_at record))))).

Lemma wpp_enqueue record w :
  inv w → record_ok record →
  wpp (enqueue pid config record) (λ r l w', l = [] ∧
    (durable r = true → _work_pending (pub w') = true ∧
       ∃ fr, carries record fr ∧ held (fs (sys w')) fr)) w.
Proof.
  intros I Hr. unfold enqueue. unfold ready. apply hoare_bind. ticks. gets. apply hoare_ret; [done|].
  destruct (_accepting (pub w0)); cbn [negb app]; [|by apply hoare_ret].
  apply wpp_catch_allocate; [done| | |by intros; apply hoare_ret].
  { noexcept; apply nothrow_attempts || done. }
  intros w1 T1 I1. destruct (encode_v2_cases record Hr) as [(p & Hp & Hst)|(Hv & Hsz & Hp)].
  { apply hoare_bind. eapply hoare_defined; [done..|]. destruct (_estatus p); by (done || apply hoare_ret). }
  apply hoare_bind. eapply hoare_defined; [done..|]. cbn [_estatus MonitorWire._bytes].
  destruct (timestamp_milliseconds (_changed_at record)) as [ms|] eqn:Ems; [|by apply hoare_ret].
  pose proof (v2_datagram_size record) as Hsize. pose proof (v2_datagram_ok record Hr) as Hbok.
  eapply hoare_mono; [apply wpp_attempts; [done|]|].
  - intros id Hlen Hok. split; cycle 1.
    { split; [apply Hcfg|]. do 2 (split; [done|]). split; [by eapply timestamp_u64|done]. }
    apply validate_success. cbn [_ftype _payload alarm_frame]. unfold V2_MAX_DATAGRAM_SIZE in Hsz.
    unfold v2_size, V2_HEADER_SIZE in *.
    pose proof (Zlen_nonneg (_description (_data record))).
    pose proof (Zlen_nonneg (value_bytes (_mvalue (_data record)))). split; [done|]. split; [unfold ALARM_MAX_PAYLOAD_SIZE; lia|].
    split; [intros _; lia|done].
  - intros r l w2 _ I2 [-> Ha]. split; [done|]. intros Hd. destruct (Ha Hd) as (Hw & id & Hf & Hh).
    split; [done|]. eexists. split; [|exact Hh]. split; [done|]. cbn. do 2 (split; [done|]). split.
    + unfold timestamp_milliseconds in Ems. destruct (_changed_at record <? 0) eqn:E; [done|].
      injection Ems as <-. destruct Hr as [_ Ht]. unfold NS_PER_MS. ztests.
      unfold u64. rewrite Z.mod_small; [done|]. dlia.
    + by apply decode_v2_datagram.
Qed.

Lemma nothrow_enqueue record : nothrow (enqueue pid config record).
Proof. unfold enqueue, ready. noexcept. Qed.

(** ** Construction *)

Lemma tick_alone_run w : Forall event_ok (script w) →
  ∃ e l, tick_alone w = (Returned e, mkPWorld (pub w) (sys w) l (log w)) ∧ Forall event_ok l.
Proof.
  intros Hs. unfold tick_alone. destruct w as [i v [|e l] k]; cbn in *; eauto.
  apply Forall_cons in Hs as [_ Hs]. eauto.
Qed.

Definition starting (w : PWorld) : Prop :=
  pub w = new_impl ∧ log w = [] ∧ disk_ok root OUTBOX (fs (sys w)) ∧ Forall event_ok (script w).

Definition initialized (f : FS) (o : Outcome bool) (w : PWorld) : Prop :=
  (∀ q, is_inside (data_dir root OUTBOX) q → file (fs (sys w)) q = file f q) ∧
  match o with
  | Returned true => inv w ∧ _accepting (pub w) = true ∧ _stop (pub w) = false
                     ∧ _psetup_status (pub w) = SETUP_SUCCESS
  | Returned false => _accepting (pub w) = false ∧ _psetup_status (pub w) ≠ SETUP_SUCCESS
  | Thrown e => e = OtherExn ∧ _accepting (pub w) = false
  | Stuck => False
  end.

Lemma initialize_run w :
  Forall plain root → _outbox_dir config = Some root → starting w →
  let '(o, w') := ReliablePublisher.initialize config w in initialized (fs (sys w)) o w'.
Proof.
  intros Hpl Hdir (Hi & Hl & Hdisk & Hev). unfold ReliablePublisher.initialize.
  rewrite (cfg_valid _ Hcfg). cbn [negb].
  unfold open_outbox, make_outbox, mbind, Eff_bind, catch.
  destruct (tick_alone_run w Hev) as (e & l & -> & Hl1).
  destruct (e_alloc e); cbn [negb throw]; [|by unfold fail_setup, mbind, Eff_bind; cbn; rewrite Hi].
  unfold on_system. cbn [sys pub script log]. rewrite Hdir.
  pose proof (wp_make_spool root OUTBOX (_max_outbox_bytes config) (sys w) Hpl Hdisk) as Hm.
  cbv zeta in Hm. unfold wp in Hm. destruct (make_spool _ (sys w)) as [o v]. cbn [fst snd] in Hm.
  destruct Hm as [Hset Hs].
  assert (∀ q, is_inside (data_dir root OUTBOX) q → file (fs v) q = file (fs (sys w)) q) as Hfiles.
  { intros q Hq. eapply setting_up_files; [by eapply disk_wf|done|done]. }
  destruct o as [s|]; [|by cbn; rewrite Hi]. cbn. destruct (Hs s eq_refl) as [Hconf Hrd].
  destruct (_ready s) eqn:Er; cbn [negb]; [|by rewrite Hi].
  destruct (Hrd eq_refl) as [Hroot R].
  unfold modify, mbind, Eff_bind. cbn [pub sys script log]. rewrite Hi.
  match goal with |- context [tick_alone ?x] => destruct (tick_alone_run x Hl1) as (e2 & l2 & -> & Hl2) end.
  destruct (e_alloc e2); cbn; [|done]. destruct (e_ret e2 =? 0); cbn; [|done].
  split; [done|]. split; [|done]. split; cbn; [|by left|done|done|].
  - exists s. unfold kind_of. by rewrite Hconf.
  - rewrite Hl. intros l1 q b l3 He. by destruct l1.
Qed.
End Safety.
