(* ===== verification/PublisherProgress.v ===== *)
(** Progress of the publisher: with a collector that answers, the outbox drains
    in the order of the queue. *)

From S2P Require Import Prelude Effects AlarmProtocol FileSystem AlarmSpool AlarmSpoolSafety SpoolLifecycle.
From S2P Require Import SpoolQueue ReliablePublisher PublisherSafety.
#[local] Open Scope tlss_scope.

(** ** A prompt collector *)

Section Progress.
Context `{DirOrder} (pid : Z) (config : ReliableAlarmPublisherConfig) (root : path).

(** An interaction with nothing to wait for at time [t]. *)
Definition at_once (t ret : Z) (b : bytes) : Event := mkEvent [] t ret 0 b 0 0 true.

(** The interactions of one delivery on an open connection: the whole frame is
    taken, and the acknowledgement comes back in one piece. *)
Definition prompt (t : Z) (fr ack : AlarmFrame) : list Event :=
  replicate 9 (at_once t 0 []) ++ [at_once t ♯(frame_bytes fr) []]
  ++ replicate 2 (at_once t 0 []) ++ [at_once t 0 (frame_bytes ack)] ++ replicate 5 (at_once t 0 []).

Definition acknowledges (ack fr : AlarmFrame) : Prop :=
  frame_ok ack ∧ _ftype ack = ACK ∧ same_identity ack fr = true.

(** [fr] is the alarm at the head of the queue. *)
Definition heads (f : FS) (q : path) (fr : AlarmFrame) : Prop :=
  is_inside (data_dir root OUTBOX) q ∧ file f q = Some (frame_bytes fr) ∧ frame_ok fr
  ∧ q = alarm_path root OUTBOX fr ∧
  ∀ q', is_inside (data_dir root OUTBOX) q' → is_Some (file f q') → string_le (native q) (native q').

Definition taken (f : FS) (q : path) : FS := sync_entries (parent_path q) (set_entry q None f).

(** The answers of a prompt collector to the worker that empties [f]. *)
Inductive prompt_answers (t : Z) : nat → FS → list Event → Prop :=
  | prompt_idle f : (∀ q, is_inside (data_dir root OUTBOX) q → file f q = None) →
      prompt_answers t 0 f []
  | prompt_next n f q fr ack l : heads f q fr → acknowledges ack fr →
      prompt_answers t n (taken f q) l → prompt_answers t (S n) f (prompt t fr ack ++ l).

(** ** Execution *)

Lemma tick_run t r b i v l k :
  tick pid (mkPWorld i v (at_once t r b :: l) k) = (Returned (at_once t r b), mkPWorld i v l k).
Proof. done. Qed.

Lemma stopping_run t i v l k :
  stopping pid (mkPWorld i v (at_once t 0 [] :: l) k) = (Returned (_stop i), mkPWorld i v l k).
Proof. done. Qed.

Lemma clock_run t i v l k :
  clock_now pid (mkPWorld i v (at_once t 0 [] :: l) k) = (Returned t, mkPWorld i v l k).
Proof. done. Qed.

Lemma allocate_run t i v l k :
  allocate_memory pid (mkPWorld i v (at_once t 0 [] :: l) k) = (Returned tt, mkPWorld i v l k).
Proof. done. Qed.

Lemma send_all_run fd data d t i v l k :
  _stop i = false → t < d → data ≠ [] →
  send_all pid fd data d
    (mkPWorld i v (at_once t 0 [] :: at_once t 0 [] :: at_once t ♯data [] :: l) k)
  = (Returned IO_DONE, mkPWorld i v l (k ++ [SawSend fd data])).
Proof.
  intros Hst Ht Hd. unfold send_all. apply (loop_run 2); [cbn; lia|]. cbn [iter].
  assert ((0 <? length data)%nat = true) as Hl by by destruct data.
  assert (0 < ♯data) as Hpos by (apply Nat.ltb_lt in Hl; unfold Zlen; lia).
  assert (send pid fd data (mkPWorld i v (at_once t ♯data [] :: l) k)
          = (Returned (inl ♯data), mkPWorld i v l (k ++ [SawSend fd data]))) as Hs.
  { unfold send. rewrite (bind_returned _ _ _ _ _ (tick_run t _ _ _ _ _ _)). cbn [e_ret at_once].
    rewrite (proj2 (Z.ltb_ge _ _)) by lia. unfold Zlen. rewrite Nat2Z.id, firstn_all. done. }
  rewrite Hl. cbn [replicate app]. erewrite bind_returned; cycle 1.
  { rewrite (bind_returned _ _ _ _ _ (stopping_run t _ _ _ _)), Hst.
    rewrite (bind_returned _ _ _ _ _ (clock_run t _ _ _ _)).
    rewrite (proj2 (Z.leb_gt _ _)) by done. rewrite drop_0, (bind_returned _ _ _ _ _ Hs).
    rewrite (proj2 (Z.ltb_lt _ _)) by done. reflexivity. }
  unfold Zlen. rewrite Nat2Z.id, Nat.add_0_l, Nat.ltb_irrefl. done.
Qed.

Lemma receive_all_run fd data d t i v l k :
  _stop i = false → t < d → data ≠ [] →
  receive_all pid fd (length data) d
    (mkPWorld i v (at_once t 0 [] :: at_once t 0 [] :: at_once t 0 data :: l) k)
  = (Returned (IO_DONE, data), mkPWorld i v l (k ++ [SawRecv fd data])).
Proof.
  intros Hst Ht Hd. unfold receive_all. apply (loop_run 2); [cbn; lia|]. cbn [iter].
  destruct data as [|x data]; [done|]. clear Hd. set (d' := x :: data) in *.
  assert ((0 <? length d')%nat = true) as Hl by done.
  assert (recv pid fd (length d' - 0) (mkPWorld i v (at_once t 0 d' :: l) k)
          = (Returned (inl d'), mkPWorld i v l (k ++ [SawRecv fd d']))) as Hs.
  { unfold recv. rewrite (bind_returned _ _ _ _ _ (tick_run t _ _ _ _ _ _)). cbn [e_ret e_bytes at_once].
    rewrite Nat.sub_0_r, firstn_all. done. }
  cbn [length]. rewrite Hl. cbn [replicate app]. erewrite bind_returned; cycle 1.
  { rewrite (bind_returned _ _ _ _ _ (stopping_run t _ _ _ _)), Hst.
    rewrite (bind_returned _ _ _ _ _ (clock_run t _ _ _ _)).
    rewrite (proj2 (Z.leb_gt _ _)) by done. rewrite (bind_returned _ _ _ _ _ Hs).
    reflexivity. }
  cbn [app]. by rewrite Nat.ltb_irrefl.
Qed.

Lemma control_frame_run ack fd d t i v l k :
  _stop i = false → t < d → frame_ok ack → _ftype ack = ACK →
  receive_frame pid fd d
    (mkPWorld i v (at_once t 0 [] :: at_once t 0 [] :: at_once t 0 (frame_bytes ack)
                   :: at_once t 0 [] :: at_once t 0 [] :: l) k)
  = (Returned (IO_DONE, Some ack), mkPWorld i v l (k ++ [SawRecv fd (frame_bytes ack)])).
Proof.
  intros Hst Ht Hf Hack. pose proof (frame_bytes_size ack Hf) as Hsz.
  assert (_payload ack = []) as Hp.
  { destruct Hf as (Hv & _). apply validate_success in Hv as (_ & _ & Hv). rewrite Hack in Hv.
    destruct (_payload ack) as [|x p] eqn:E; [done|]. rewrite Zlen_cons in Hv.
    pose proof (Zlen_nonneg p). assert (ACK = ALARM) by (apply Hv; lia). done. }
  assert (length (frame_bytes ack) = Z.to_nat ALARM_HEADER_SIZE) as Hlen.
  { rewrite Hp, Zlen_nil in Hsz. unfold Zlen, ALARM_HEADER_SIZE in *. lia. }
  unfold receive_frame. rewrite <- Hlen.
  rewrite (bind_returned _ _ _ _ _ (receive_all_run fd (frame_bytes ack) d t i v _ k Hst Ht
             ltac:(by intros He; rewrite He in Hlen))).
  assert (alarm_frame_size (Some (frame_bytes ack)) = Some (mkASize SUCCESS (Some 48))) as Hsize.
  { pose proof (frame_bytes_ok ack Hf) as Hok. destruct (frame_bytes_start ack Hf) as (rest & Hb & Hr).
    rewrite Hb in *. rewrite alarm_frame_size_layout; [|done|done| |apply Hf]; rewrite Hp; done. }
  assert (decode_alarm_frame true (Some (frame_bytes ack ++ [])) = Some (mkADecode SUCCESS (Some ack))) as Hdec.
  { rewrite app_nil_r. apply decode_alarm_frame_layout; auto. }
  rewrite (bind_returned _ _ _ _ _ (defined_run _ _ _ Hsize)).
  change (size_success _) with true. cbn [_frame_size replicate app].
  rewrite (bind_returned _ _ _ _ _ (allocate_run t _ _ _ _)).
  change (48 - ALARM_HEADER_SIZE =? 0) with true. cbv match zeta.
  rewrite (bind_returned (mret _) _ _ _ _ eq_refl). cbv match.
  rewrite (bind_returned _ _ _ _ _ (tick_run t _ _ _ _ _ _)).
  by rewrite (bind_returned _ _ _ _ _ (defined_run _ _ _ Hdec)).
Qed.

(** ** One delivery *)

Lemma native_snoc d n : native (d ++ [n]) = native d ++ SLASH :: n.
Proof. unfold native. rewrite map_app, concat_app. cbn. by rewrite app_nil_r. Qed.

Lemma native_inj d n m : native (d ++ [n]) = native (d ++ [m]) → d ++ [n] = d ++ [m].
Proof. rewrite !native_snoc. intros Hn%app_inv_head. by injection Hn as ->. Qed.

Lemma least_heads s f p q fr :
  ready_in s f → _sroot s = root → kind_of s = OUTBOX →
  least_alarm s f p → heads f q fr → p = q.
Proof.
  intros R Hr Hk (Hp & [b Hb] & Hle) (Hq & Hf & _ & Hpath & Hle').
  pose proof (rd_data _ _ R) as Hd. rewrite Hr, Hk in Hd. rewrite Hd in *.
  destruct (file_published s f p b R) as (fr' & i & _ & _ & _ & Hpath' & _);
    [by rewrite Hd|done|]. rewrite Hr, Hk in Hpath'.
  assert (native p = native q) as Hn.
  { apply (anti_symm string_le); [apply Hle|apply Hle']; eauto. }
  rewrite Hpath, Hpath'. rewrite Hpath, Hpath' in Hn. by apply native_inj.
Qed.

Lemma set_spool_same s i : _spool i = Some s → set_spool s i = i.
Proof. destruct i. cbn. by intros ->. Qed.

Lemma on_spool_run {A} (m : AlarmSpool → Sys A) s i f l k x g :
  _spool i = Some s → m s (calm f) = (x, calm g) →
  on_spool (asking m) (mkPWorld i (calm f) l k) = (Returned x, mkPWorld i (calm g) l k).
Proof.
  intros Hs Hm. unfold on_spool. cbn [pub sys script log]. rewrite Hs.
  unfold asking, mbind, Sys_bind. rewrite Hm. cbn. by rewrite set_spool_same.
Qed.

Lemma watched_run {A} (m : AlarmSpool → Sys A) o s i f t l k x g :
  _spool i = Some s → m s (calm f) = (x, calm g) →
  watched pid m o (mkPWorld i (calm f) (at_once t 0 [] :: l) k)
  = (Returned x, mkPWorld i (calm g) l (k ++ [o x])).
Proof.
  intros Hs Hm. unfold watched. rewrite (bind_returned _ _ _ _ _ (tick_run t _ _ _ _ _ _)).
  by rewrite (bind_returned _ _ _ _ _ (on_spool_run _ _ _ _ _ _ _ _ Hs Hm)).
Qed.

Lemma locked_run g i v t l k :
  locked pid g (mkPWorld i v (at_once t 0 [] :: l) k) = (Returned tt, mkPWorld (g i) v l k).
Proof. done. Qed.

Lemma snapshot_run i v t l k :
  socket_snapshot pid (mkPWorld i v (at_once t 0 [] :: l) k) = (Returned (_socket i), mkPWorld i v l k).
Proof. done. Qed.

Lemma deadline_later t :
  config_ok config → 0 <= t < INT64_MAX → ∃ d, make_deadline t (_ack_timeout config) = Some d ∧ t < d.
Proof.
  intros [Hv _ Ht _] Hn. unfold valid_config in Hv.
  apply andb_true_iff in Hv as [Hv _]. apply andb_true_iff in Hv as [_ Hv]. ztests.
  unfold make_deadline, i64_sub, i64_mul, i64_add, NS_PER_MS in *.
  rewrite !i64_check_ok by widlia. cbn [mbind option_bind].
  destruct (_ <=? _) eqn:E; ztests; [eexists; split; [done|]; lia|].
  rewrite i64_check_ok by widlia. eexists. split; [done|]. lia.
Qed.

Lemma send_alarm_run fr ack t i v l k :
  config_ok config → 0 <= t < INT64_MAX → _stop i = false → 0 <= _socket i →
  frame_ok fr → acknowledges ack fr →
  send_alarm_and_wait_ack pid config (frame_bytes fr) fr
    (mkPWorld i v (at_once t 0 [] :: at_once t 0 [] :: at_once t 0 [] :: at_once t 0 []
       :: at_once t ♯(frame_bytes fr) [] :: at_once t 0 [] :: at_once t 0 []
       :: at_once t 0 (frame_bytes ack) :: at_once t 0 [] :: at_once t 0 [] :: l) k)
  = (Returned DELIVERED,
     mkPWorld i v l (k ++ [SawSend (_socket i) (frame_bytes fr); SawRecv (_socket i) (frame_bytes ack)])).
Proof.
  intros Hcfg Ht Hst Hso Hf (Hok & Hack & Hid). destruct (deadline_later t Hcfg Ht) as (d & Hd & Htd).
  unfold send_alarm_and_wait_ack. cbn [replicate app].
  rewrite (bind_returned _ _ _ _ _ (snapshot_run _ _ t _ _)). rewrite (proj2 (Z.ltb_ge _ _)) by done.
  rewrite (bind_returned _ _ _ _ _ (clock_run t _ _ _ _)).
  rewrite (bind_returned _ _ _ _ _ (defined_run _ _ _ Hd)).
  rewrite (bind_returned _ _ _ _ _ (send_all_run _ (frame_bytes fr) d t i v _ k Hst Htd
    ltac:(intros He; pose proof (frame_bytes_size fr Hf) as Hz; pose proof (frame_ok_payload fr Hf);
          rewrite He, Zlen_nil in Hz; lia))).
  rewrite (bind_returned _ _ _ _ _ (control_frame_run ack _ d t i v _ _ Hst Htd Hok Hack)).
  rewrite bool_decide_true, Hid by done. cbn [andb mret Eff_ret]. unfold mret, Eff_ret. by rewrite <- app_assoc.
Qed.

Lemma deliver_run q fr ack t i s f l k :
  config_ok config → 0 <= t < INT64_MAX → _stop i = false → 0 <= _socket i → _spool i = Some s →
  _ready s = true → ready_in s f → _sroot s = root → kind_of s = OUTBOX → _ftype fr = ALARM →
  heads f q fr → acknowledges ack fr →
  ∃ k', deliver pid config q (frame_bytes fr) fr
    (mkPWorld i (calm f) (replicate 5 (at_once t 0 []) ++ [at_once t ♯(frame_bytes fr) []]
       ++ replicate 2 (at_once t 0 []) ++ [at_once t 0 (frame_bytes ack)]
       ++ replicate 5 (at_once t 0 []) ++ l) k)
  = (Returned tt, mkPWorld (set_backoff 0 (count_ack i)) (calm (taken f q)) l k').
Proof.
  intros Hcfg Ht Hst Hso Hs Hrd R Hr Hk Hty (Hq & Hfile & Hf & Hpath & _) Hack. eexists.
  unfold deliver.
  assert (∀ l, have_connection pid config (mkPWorld i (calm f) (at_once t 0 [] :: l) k)
               = (Returned true, mkPWorld i (calm f) l k)) as Hc.
  { intros l'. unfold have_connection. rewrite (bind_returned _ _ _ _ _ (snapshot_run _ _ t _ _)).
    by rewrite (proj2 (Z.ltb_ge _ _)) by done. }
  cbn [replicate app]. rewrite (bind_returned _ _ _ _ _ (Hc _)). cbn [negb].
  rewrite (bind_returned _ _ _ _ _ (send_alarm_run fr ack t i (calm f) _ k Hcfg Ht Hst Hso Hf Hack)).
  rewrite (bind_returned _ _ _ _ _ (locked_run count_ack i _ t _ _)).
  destruct (file_published s f q (frame_bytes fr) R) as (fr' & j & Hf' & Ht' & Hb & Hp' & He & Hcon & _);
    [by rewrite (rd_data _ _ R), Hr, Hk|done|].
  assert (fr' = fr) as ->.
  { pose proof (decoded_frame_bytes fr Hf) as Hx1. pose proof (decoded_frame_bytes fr' Hf') as Hx2.
    rewrite <- Hb in Hx2. congruence. }
  assert (holds s f q fr j) as Hh by done.
  unfold spool_remove. rewrite (bind_returned _ _ _ _ _ (watched_run _ _ s _ f t _ _ _ _
    (Hs : _spool (count_ack i) = Some s) (remove_calm s f q fr j R Hrd Hh))).
  change (path_success _) with true. cbn [negb].
  unfold reset_backoff. rewrite (locked_run (set_backoff 0) (count_ack i) _ t _ _). reflexivity.
Qed.

(** The worker with an open connection and a disk that works. *)
Record prepared (i : Impl) (s : AlarmSpool) (f : FS) : Prop := {
  pr_going : _stop i = false;
  pr_socket : 0 <= _socket i;
  pr_spool : _spool i = Some s;
  pr_ready : _ready s = true;
  pr_disk : ready_in s f;
  pr_root : _sroot s = root;
  pr_kind : kind_of s = OUTBOX;
  pr_small : small_tree f
}.

Lemma iteration_run q fr ack t i s f l k :
  config_ok config → 0 <= t < INT64_MAX → prepared i s f → heads f q fr → acknowledges ack fr →
  ∃ k', run_iteration pid config
    (mkPWorld i (calm f) (replicate 8 (at_once t 0 []) ++ [at_once t ♯(frame_bytes fr) []]
       ++ replicate 2 (at_once t 0 []) ++ [at_once t 0 (frame_bytes ack)]
       ++ replicate 5 (at_once t 0 []) ++ l) k)
  = (Returned tt, mkPWorld (set_backoff 0 (count_ack i)) (calm (taken f q)) l k').
Proof.
  intros Hcfg Ht [Hst Hso Hs Hrd R Hr Hk Hsm] Hh Hack.
  pose proof Hh as (Hq & Hfile & Hf & Hpath & _).
  destruct (file_published s f q (frame_bytes fr) R) as (fr' & j & Hf' & Ht' & Hb & Hp' & He & Hcon & _);
    [by rewrite (rd_data _ _ R), Hr, Hk|done|].
  assert (fr' = fr) as ->.
  { pose proof (decoded_frame_bytes fr Hf) as Hx1. pose proof (decoded_frame_bytes fr' Hf') as Hx2.
    rewrite <- Hb in Hx2. congruence. }
  assert (holds s f q fr j) as Hhold by done.
  destruct (next_calm s f R Hrd Hsm) as [(p & Hleast & Hnext)|[Hnone _]]; cycle 1.
  { rewrite Hnone in Hfile; [done|]. by rewrite (rd_data _ _ R), Hr, Hk. }
  rewrite (least_heads s f p q fr R Hr Hk Hleast Hh) in Hnext.
  destruct (deliver_run q fr ack t i s f l (k ++ [SawRead q SP_SUCCESS]) Hcfg Ht Hst Hso Hs Hrd R Hr Hk Ht' Hh Hack)
    as [k' Hdel]. exists k'. unfold run_iteration, spool_next.
  change (replicate 8 (at_once t 0 []) ++ ?x) with
    (at_once t 0 [] :: at_once t 0 [] :: at_once t 0 [] :: replicate 5 (at_once t 0 []) ++ x).
  erewrite bind_returned; cycle 1.
  { rewrite (bind_returned _ _ _ _ _ (tick_run t _ _ _ _ _ _)).
    by apply (on_spool_run _ _ _ _ _ _ _ _ Hs Hnext). }
  change (bool_decide (_pstatus (mkPath SP_SUCCESS (Some q) 0) = SP_EMPTY)) with false.
  change (path_success (mkPath SP_SUCCESS (Some q) 0)) with true. cbn [_ppath]. unfold spool_read.
  rewrite (bind_returned _ _ _ _ _ (watched_run _ _ s _ f t _ _ _ _ Hs (read_calm s f q fr j R Hrd Hhold))).
  change (bool_decide (_rdstatus _ = SP_CORRUPT)) with false. change (read_success _) with true.
  cbn [negb _rdbytes _rdstatus].
  rewrite (bind_returned _ _ _ _ _ (tick_run t _ _ _ _ _ _)).
  rewrite (bind_returned _ _ _ _ _ (defined_run _ _ _ (decode_alarm_frame_layout true fr Hf (or_introl eq_refl)))).
  change (decode_success _) with true. cbn [_frame]. rewrite bool_decide_true by done. exact Hdel.
Qed.

Lemma prepared_taken i s f q fr :
  prepared i s f → heads f q fr → prepared (set_backoff 0 (count_ack i)) s (taken f q).
Proof.
  intros [Hst Hso Hs Hrd R Hr Hk Hsm] (Hq & Hfile & Hf & Hpath & _).
  assert (is_inside (_data_directory s) q) as Hin by by rewrite (rd_data _ _ R), Hr, Hk.
  destruct (holds_file s f q _ R Hin Hfile) as (fr' & j & Hh & _).
  split; try done; [|by apply removed_small].
  pose proof (wp_remove s q (calm f) R) as Hw. unfold wp in Hw.
  rewrite (remove_calm s f q fr' j R Hrd Hh) in Hw. by destruct Hw as [[[Hw _] _] _].
Qed.

(** The rounds of [run]. *)
Lemma drain_rounds t n f l : prompt_answers t n f l → ∀ i s k fuel,
  config_ok config → 0 <= t < INT64_MAX → prepared i s f → (length l < fuel)%nat →
  ∃ w', iter fuel (λ _ : unit,
        stop ← stopping pid;
        if (stop : bool) then mret (inr tt) else
        catch (_ ← run_iteration pid config; mret (inl tt))
              (λ _, _ ← close_socket pid;
                    going ← wait_backoff pid config;
                    if (going : bool) then mret (inl tt) else mret (inr tt))) tt
      (mkPWorld i (calm f) l k) = (Returned tt, w')
    ∧ script w' = []
    ∧ (∀ q, is_inside (data_dir root OUTBOX) q → file (fs (sys w')) q = None)
    ∧ u64 (_acks (pub w')) = u64 (_acks i + Z.of_nat n).
Proof.
  induction 1 as [f Hnone|n f q fr ack l Hh Hack _ IH]; intros i s k fuel Hcfg Ht Hp Hfuel.
  - destruct fuel as [|fuel]; [lia|]. eexists. split; [reflexivity|]. split; [done|].
    split; [done|]. cbn. by rewrite Z.add_0_r.
  - rewrite length_app in Hfuel. destruct fuel as [|fuel]; [lia|]. cbn [iter].
    destruct (iteration_run q fr ack t i s f l k Hcfg Ht Hp Hh Hack) as [k' Hrun].
    destruct (IH (set_backoff 0 (count_ack i)) s k' fuel Hcfg Ht (prepared_taken _ _ _ _ _ Hp Hh))
      as (w' & Hw & Hsc & Hfiles & Hacks).
    { cbn in Hfuel. lia. }
    exists w'. split; [|split; [done|split; [done|]]].
    + rewrite <- Hw. unfold prompt. rewrite <- !app_assoc.
      change (replicate 9 (at_once t 0 []) ++ ?x) with (at_once t 0 [] :: replicate 8 (at_once t 0 []) ++ x).
      erewrite bind_returned; cycle 1.
      { rewrite (bind_returned _ _ _ _ _ (stopping_run t _ _ _ _)), (pr_going _ _ _ Hp).
        unfold catch. rewrite (bind_returned _ _ _ _ _ Hrun). reflexivity. }
      reflexivity.
    + rewrite Hacks. cbn [_acks set_backoff count_ack set_counters]. unfold u64.
      rewrite Zplus_mod_idemp_l. f_equal. lia.
Qed.

Lemma close_socket_keeps w : script w = [] →
  ∃ w', close_socket pid w = (Returned tt, w') ∧ sys w' = sys w ∧ _acks (pub w') = _acks (pub w).
Proof.
  intros Hs. unfold close_socket, close_fd, mbind, Eff_bind, tick. rewrite Hs. cbn.
  destruct (0 <=? _socket (pub w)); cbn; rewrite ?Hs; cbn; eauto.
Qed.

(** There are such answers for every outbox. *)
Definition ack_of (fr : AlarmFrame) : AlarmFrame := mkFrame ACK (_source_id fr) (_message_id fr) 0 [].

Lemma ack_of_acknowledges fr : frame_ok fr → acknowledges (ack_of fr) fr.
Proof.
  intros (_ & Hs & Hm & Hmok & _). split.
  { split; [done|]. split; [done|]. split; [done|]. by split. }
  split; [done|].
  by apply same_identity_spec.
Qed.

Lemma taken_size f q : is_Some (entries f !! q) →
  (base.size (entries (taken f q)) < base.size (entries f))%nat.
Proof.
  intros [v Hv]. apply map_subset_size. apply map_subset_alt. split.
  - apply map_subseteq_spec. intros p u. unfold taken. rewrite removed_entries. by case_decide.
  - exists q. unfold taken. rewrite removed_entries, decide_True by done. by rewrite Hv.
Qed.

Lemma prompt_exists t n : ∀ i s f, (base.size (entries f) < n)%nat → prepared i s f →
  ∃ m l, prompt_answers t m f l.
Proof.
  induction n as [|n IH]; intros i s f Hn Hp; [lia|]. pose proof Hp as [Hst Hso Hs Hrd R Hr Hk Hsm].
  pose proof (rd_data _ _ R) as Hd. rewrite Hr, Hk in Hd.
  destruct (next_calm s f R Hrd Hsm) as [(q & (Hq & [b Hb] & Hle) & _)|[Hnone _]]; cycle 1.
  { exists 0%nat, []. constructor. by rewrite <- Hd. }
  destruct (file_published s f q b R Hq Hb) as (fr & j & Hf & _ & -> & Hpath & He & _).
  assert (heads f q fr) as Hh.
  { rewrite Hd in *. rewrite Hr, Hk in Hpath. do 4 (split; [done|]). done. }
  destruct (IH (set_backoff 0 (count_ack i)) s (taken f q)) as (m & l & Hm).
  - enough (base.size (entries (taken f q)) < base.size (entries f))%nat by lia.
    apply taken_size. by rewrite He.
  - by eapply prepared_taken.
  - exists (S m), (prompt t fr (ack_of fr) ++ l). econstructor; [done|by apply ack_of_acknowledges|done].
Qed.
End Progress.

(** C12. Progress. From a worker with an open connection and a disk that works,
    the outbox drains: a collector that takes what is sent and acknowledges it
    always has answers that empty the outbox, and whatever the answers of such a
    collector are, [run] delivers the alarms in the order of the queue, one
    acknowledgement is counted per alarm, and no alarm is left in the outbox. *)
Theorem publisher_drains `{DirOrder} pid config root t i s f k :
  config_ok config → 0 <= t < INT64_MAX → prepared root i s f →
  (∃ n l, prompt_answers root t n f l)
  ∧ ∀ n l, prompt_answers root t n f l →
      ∃ w', run pid config (mkPWorld i (calm f) l k) = (Returned tt, w')
        ∧ (∀ q, is_inside (data_dir root OUTBOX) q → file (fs (sys w')) q = None)
        ∧ u64 (_acks (pub w')) = u64 (_acks i + Z.of_nat n).
Proof.
  intros Hcfg Ht Hp. split; [by eapply prompt_exists; [apply Nat.lt_succ_diag_r|]|]. intros n l Hl.
  destruct (drain_rounds pid config root t n f l Hl i s k (S (length l)) Hcfg Ht Hp)
    as (w & Hw & Hsc & Hf & Ha); [lia|].
  destruct (close_socket_keeps pid w Hsc) as (w' & Hc & Hfs & Hacks).
  exists w'. unfold run. rewrite (bind_returned _ _ _ tt w); [|exact Hw].
  rewrite Hc, Hfs, Hacks. done.
Qed.
