(* ===== verification/PublisherClaims.v ===== *)
(** The contract of the reliable publisher: what [enqueue], the worker and its
    stop guarantee, and the reporter that commits an error only when its alarm is
    on the disk. *)

From Stdlib Require Import String.
From S2P Require Import Prelude Effects MonitorData MonitorWire MonitorStore ModuleRegistry MonitorReporter.
From S2P Require Import AlarmProtocol FileSystem AlarmSpool AlarmSpoolSafety SpoolLifecycle SpoolQueue.
From S2P Require Import ReliablePublisher PublisherSafety PublisherProgress.
#[local] Open Scope tlss_scope.

(** ** A scenario: one alarm, stored, sent and acknowledged *)

Definition demo_config : ReliableAlarmPublisherConfig :=
  mkPublisherConfig (literal "collector") 7000 7 (Some demo_root) 0 2000 30000.

Definition answer (ret : Z) (b : bytes) (n : nat) : Event := mkEvent [] 0 ret 0 b 0 n true.

Definition demo_id : bytes := replicate 16 171.
Definition demo_record : StoredRecord :=
  mkStored (mkData (mkKey 1 2 3 4) [] (VNumeric (mkNumeric 5 2))) 1700000000123456789.
Definition demo_ack : AlarmFrame := mkFrame ACK 7 demo_id 1700000000123 [].

Definition demo_construction : list Event := [answer 0 [] 0; answer 0 [] 0].
Definition demo_enqueueing : list Event :=
  [answer 0 [] 0; answer 0 [] 0; answer 16 demo_id 0; answer 0 [] 0; answer 0 [] 0].
Definition demo_delivery : list Event :=
  [answer 0 [] 0; answer 0 [] 0; answer 0 [] 0; answer 0 [] 0; answer 0 [] 0;
   answer 0 [] 0; answer 0 [] 1; answer 0 [] 0; answer 0 [] 0; answer 5 [] 0; answer 0 [] 0;
   answer 0 [] 0; answer 0 [] 0; answer 0 [] 0; answer 0 [] 0;
   answer 0 [] 0; answer 0 [] 0; answer 0 [] 0; answer 0 [] 0; answer 4096 [] 0;
   answer 0 [] 0; answer 0 [] 0; answer 48 (frame_bytes demo_ack) 0; answer 0 [] 0; answer 0 [] 0].

#[local] Existing Instance listed_order.

Definition demo_world (l : list Event) : PWorld := mkPWorld new_impl (calm demo_disk) l [].
Definition demo_ready (l : list Event) : PWorld :=
  (ReliablePublisher.initialize demo_config (demo_world (demo_construction ++ l))).2.
Definition demo_enqueued (l : list Event) : PWorld :=
  (enqueue 4242 demo_config demo_record (demo_ready (demo_enqueueing ++ l))).2.
Definition demo_done : PWorld := (run 4242 demo_config (demo_enqueued demo_delivery)).2.

Lemma demo_config_ok : config_ok demo_config.
Proof. by split; vm_compute. Qed.

Lemma answer_ok ret b n : is_i64 ret → bytes_ok b → event_ok (answer ret b n).
Proof. by split; cbn. Qed.

Lemma demo_delivery_ok : Forall event_ok demo_delivery.
Proof.
  unfold demo_delivery. repeat (apply Forall_cons; split; [apply answer_ok; [done|]|]); try done.
  apply frame_bytes_ok. by apply (bool_decide_unpack _), I.
Qed.

Lemma demo_disk_ok : disk_ok demo_root OUTBOX demo_disk.
Proof.
  destruct (demo_fresh OUTBOX) as [Hwf Hl Hn]. split; [done|done|]. intros p i Hin Hp.
  by destruct (Hn p i Hin Hp).
Qed.

Lemma demo_root_plain : Forall plain demo_root.
Proof. by repeat constructor. Qed.

Lemma demo_events_ok l : Forall event_ok l → Forall event_ok (demo_construction ++ demo_enqueueing ++ l).
Proof.
  intros Hl. unfold demo_construction, demo_enqueueing. cbn [app].
  repeat (apply Forall_cons; split; [apply answer_ok; [done|]|]); try done.
  by repeat constructor.
Qed.

Lemma demo_ready_inv l : Forall event_ok l → inv demo_config demo_root (demo_ready (demo_enqueueing ++ l)).
Proof.
  intros Hl. unfold demo_ready. pose proof (initialize_run demo_config demo_root demo_config_ok
    (demo_world (demo_construction ++ demo_enqueueing ++ l)) demo_root_plain eq_refl) as Hi.
  assert ((ReliablePublisher.initialize demo_config (demo_world (demo_construction ++ demo_enqueueing ++ l))).1
          = Returned true) as Hr by by vm_compute.
  destruct (ReliablePublisher.initialize _ _) as [o w]. cbn [fst snd] in *. subst o.
  destruct Hi as [_ [Hi _]]; [|done].
  split; [done|]. split; [done|]. split; [apply demo_disk_ok|by apply demo_events_ok].
Qed.

Lemma demo_enqueued_inv l : Forall event_ok l → inv demo_config demo_root (demo_enqueued l).
Proof.
  intros Hl. destruct (wpp_enqueue 4242 demo_config demo_root demo_config_ok demo_record
    (demo_ready (demo_enqueueing ++ l)) (demo_ready_inv l Hl)) as (k & T & _).
  - by apply (bool_decide_unpack _), I.
  - by eapply tr_inv.
Qed.

(** ** The contract *)

(** The history sets the alarm at [q] aside as unreadable. *)
Definition set_aside (q : path) (o : Obs) : Prop :=
  match o with
  | SawQuarantine p => p = q
  | SawRead p st => p = q ∧ st ≠ SP_SUCCESS
  | _ => False
  end.
#[export] Instance set_aside_dec q o : Decision (set_aside q o).
Proof. destruct o; cbn; apply _. Defined.

Lemma alarm_leaves `{DirOrder} pid config root w q b :
  config_ok config → inv config root w → log w = [] →
  is_inside (data_dir root OUTBOX) q → file (fs (sys w)) q = Some b →
  ∃ w', run pid config w = (Returned tt, w') ∧
    (file (fs (sys w')) q = Some b
     ∨ (∃ l1 l2, log w' = l1 ++ SawRemove q b :: l2 ∧ confirmed root l1 q b)
     ∨ Exists (set_aside q) (log w')).
Proof.
  intros Hcfg I Hlog Hq Hb. destruct (wpp_run_loop pid config root Hcfg w I) as (l & w' & Hrun & T & _).
  exists w'. split; [done|]. pose proof (tr_log _ _ _ _ _ T) as Hl. rewrite Hlog in Hl. cbn in Hl.
  destruct (tr_kept _ _ _ _ _ T q b Hq Hb) as [|He]; [by left|]. right.
  rewrite Hl. apply Exists_exists in He as (o & Ho & Ht).
  destruct o as [| | | |p st|p|p wire]; try done.
  - right. apply Exists_exists. by exists (SawRead p st).
  - right. apply Exists_exists. by exists (SawQuarantine p).
  - destruct Ht as [-> ->]. left. apply list_elem_of_split in Ho as (l1 & l2 & ->).
    exists l1, l2. split; [done|]. pose proof (inv_log _ _ _ (tr_inv _ _ _ _ _ T)) as Hw.
    rewrite Hl in Hw. by eapply Hw.
Qed.



(** C11. The worker ends. Whatever it meets, [run] returns: it neither throws nor
    runs into undefined behaviour (a null spool, a deadline or a back-off that
    overflows, a frame read outside its buffer), every loop in it goes on only
    while its surroundings keep answering, it ends only when the stop was asked
    for, and then the connection is closed; the back-off it leaves is zero or
    between 100 ms and the configured maximum. *)
Theorem publisher_worker_ends `{DirOrder} pid config root w :
  config_ok config → inv config root w →
  ∃ w', run pid config w = (Returned tt, w') ∧ _stop (pub w') = true
    ∧ _socket (pub w') = -1 ∧ _connected (pub w') = false
    ∧ (_current_backoff (pub w') = 0 ∨ 100 <= _current_backoff (pub w') <= _max_backoff config).
Proof.
  intros Hcfg I. destruct (wpp_run_loop pid config root Hcfg w I) as (l & w' & Hrun & T & Hst & Hso).
  exists w'. do 3 (split; [done|]). pose proof (tr_inv _ _ _ _ _ T) as I'. split.
  - rewrite (inv_socket _ _ _ I'), Hso. done.
  - apply (inv_backoff _ _ _ I').
Qed.

Lemma publisher_worker_ends_witness :
  ∃ w', run 4242 demo_config (demo_enqueued demo_delivery) = (Returned tt, w')
    ∧ _stop (pub w') = true ∧ _socket (pub w') = -1 ∧ _acks (pub w') = 1.
Proof.
  destruct (publisher_worker_ends 4242 demo_config demo_root (demo_enqueued demo_delivery)
    demo_config_ok (demo_enqueued_inv _ demo_delivery_ok)) as (w' & Hrun & Hst & Hso & _).
  exists w'. do 3 (split; [done|]).
  change w' with (snd (Returned (A := unit) tt, w')). rewrite <- Hrun. by vm_compute.
Defined.

(** [enqueue] returns, whatever happens, without touching the network and
    without disturbing an alarm that is already queued; and when it reports
    success the outbox holds a file that survives any power failure from then on,
    with an alarm frame of this source whose payload decodes to exactly the
    record, and the worker has been told. *)
Theorem enqueue_durable `{DirOrder} pid config root record w :
  config_ok config → inv config root w → record_ok record →
  ∃ r w', enqueue pid config record w = (Returned r, w') ∧ inv config root w' ∧ log w' = log w
    ∧ (∀ q b, is_inside (data_dir root OUTBOX) q → file (fs (sys w)) q = Some b →
         file (fs (sys w')) q = Some b)
    ∧ (durable r = true → _work_pending (pub w') = true
         ∧ ∃ fr, carries config record fr ∧ held root (fs (sys w')) fr).
Proof.
  intros Hcfg I Hr. destruct (wpp_enqueue pid config root Hcfg record w I Hr) as (l & T & Hq).
  pose proof (nothrow_enqueue pid config record w) as Hn.
  destruct (enqueue pid config record w) as [[r|e|] w']; cbn [fst snd] in *; [|by edestruct Hn|done].
  destruct Hq as [-> Hd]. exists r, w'. split; [done|]. split; [by eapply tr_inv|].
  split; [rewrite (tr_log _ _ _ _ _ T); apply app_nil_r|]. split; [|done].
  intros q b Hin Hb. destruct (tr_kept _ _ _ _ _ T q b Hin Hb) as [|He]; [done|by inversion He].
Qed.

Lemma enqueue_durable_witness :
  ∃ fr, carries demo_config demo_record fr ∧ held demo_root (fs (sys (demo_enqueued demo_delivery))) fr.
Proof.
  destruct (enqueue_durable 4242 demo_config demo_root demo_record
    (demo_ready (demo_enqueueing ++ demo_delivery)) demo_config_ok
    (demo_ready_inv _ demo_delivery_ok)) as (r & w' & Hrun & _ & _ & _ & Hd).
  - by apply (bool_decide_unpack _), I.
  - unfold demo_enqueued. rewrite Hrun. cbn [snd]. apply Hd.
    assert (match (enqueue 4242 demo_config demo_record
                     (demo_ready (demo_enqueueing ++ demo_delivery))).1 with
            | Returned r => durable r | _ => false end = true) as Hx by by vm_compute.
    by rewrite Hrun in Hx.
Defined.

(** The publisher as the reporter's alarm callback. *)
Definition outbox_publisher `{DirOrder} (pid : Z) (config : ReliableAlarmPublisherConfig)
    : AlarmPublisher (W := PWorld) := λ record w,
  match enqueue pid config record w with
  | (Returned r, w') => (Some r, w')
  | (_, w') => (None, w')
  end.



(** ** The scenario with the connection open *)

Definition demo_tree : FS := fs (sys (demo_enqueued [])).
Definition demo_outbox : AlarmSpool := default (new_spool (mkSpoolConfig None OUTBOX 0)) (_spool (pub (demo_enqueued []))).
Definition demo_connected : Impl := set_socket 5 true (set_flags true false (pub (demo_enqueued []))).

Lemma demo_prepared : prepared demo_root demo_connected demo_outbox demo_tree.
Proof.
  destruct (inv_spool _ _ _ (demo_enqueued_inv [] (Forall_nil_2 _))) as (s & Hs & Hr & Hk & R).
  assert (demo_outbox = s) as Ho by (unfold demo_outbox; by rewrite Hs).
  rewrite Ho. split; [reflexivity|cbn; lia|exact Hs| |exact R|exact Hr|exact Hk|].
  - rewrite <- Ho. by vm_compute.
  - apply Z.leb_le. by vm_compute.
Qed.

(** One alarm waits in the outbox, and the worker delivers it. *)
Lemma publisher_drains_witness :
  ∃ l w', run 4242 demo_config (mkPWorld demo_connected (calm demo_tree) l []) = (Returned tt, w')
    ∧ ∀ q, is_inside (data_dir demo_root OUTBOX) q → file (fs (sys w')) q = None.
Proof.
  destruct (publisher_drains 4242 demo_config demo_root 0 demo_connected demo_outbox demo_tree []
    demo_config_ok ltac:(by vm_compute) demo_prepared) as [(n & l & Hl) Hrun].
  destruct (Hrun n l Hl) as (w' & Hw & Hf & _). by exists l, w'.
Defined.
