(* ===== verification/WakePipe.v ===== *)
(** The wake-up pipe ([src/monitor/wake_pipe.cpp], [inc/monitor/wake_pipe.h]): a
    byte written to it ends the [poll] or [select] of a worker thread. The
    answers of the system calls come from the world of the caller, which is an
    instance of [Syscalls]. *)

From S2P Require Import Prelude FileSystem Effects.

Inductive PIPESTATUS :=
  | OPENFAILED | WAKEUPFAILED | READFAILED | PIPECLOSED | SETNONBLOCKFAILED
  | SETCLOSEONEXECFAILED | ALREADYINITIALIZED | SUCCESSFUL.

(** [static_cast<int>] *)
Definition pipe_code (s : PIPESTATUS) : Z :=
  match s with
  | OPENFAILED => -600 | WAKEUPFAILED => -601 | READFAILED => -602 | PIPECLOSED => -603
  | SETNONBLOCKFAILED => -604 | SETCLOSEONEXECFAILED => -605 | ALREADYINITIALIZED => -606
  | SUCCESSFUL => 0
  end.

Inductive PipeState := UNINITIALIZED | PIPE_INITIALIZING | PIPE_READY | CLOSED.

#[export] Instance PIPESTATUS_eq_dec : EqDecision PIPESTATUS.
Proof. solve_decision. Defined.
#[export] Instance PipeState_eq_dec : EqDecision PipeState.
Proof. solve_decision. Defined.

Record WakeupPipe := mkPipe { _state : PipeState; _read_fd : Z; _write_fd : Z }.

Definition new_pipe : WakeupPipe := mkPipe UNINITIALIZED (-1) (-1).

(** What a system call returns, [errno], and the descriptors [pipe] stores. *)
Record Answer := mkAnswer { a_ret : Z; a_errno : Z; a_fds : Z * Z }.

(** A world whose system calls can be asked. *)
Class Syscalls (W : Type) := { syscall : Eff W Answer; #[global] syscalls_scripted :: Scripted W }.

Section Pipe.
Context `{Syscalls W}.

Definition set_non_blocking (fd : Z) : Eff W PIPESTATUS :=
  flags ← syscall;
  if a_ret flags =? -1 then mret SETNONBLOCKFAILED else
  set ← syscall;
  mret (if a_ret set =? -1 then SETNONBLOCKFAILED else SUCCESSFUL).

Definition set_close_on_exec (fd : Z) : Eff W PIPESTATUS :=
  flags ← syscall;
  if a_ret flags =? -1 then mret SETCLOSEONEXECFAILED else
  set ← syscall;
  mret (if a_ret set =? -1 then SETCLOSEONEXECFAILED else SUCCESSFUL).

(** The next step of [init], taken while the result is a success. *)
Definition and_then (result : PIPESTATUS) (next : Eff W PIPESTATUS) : Eff W PIPESTATUS :=
  if bool_decide (result = SUCCESSFUL) then next else mret result.

Definition init (p : WakeupPipe) : Eff W (PIPESTATUS * WakeupPipe) :=
  if negb (bool_decide (_state p = UNINITIALIZED)) then mret (ALREADYINITIALIZED, p) else
  opened ← syscall;
  let failed := mkPipe UNINITIALIZED (_read_fd p) (_write_fd p) in
  if a_ret opened =? -1 then mret (OPENFAILED, failed) else
  let '(fd0, fd1) := a_fds opened in
  result ← set_non_blocking fd0;
  result ← and_then result (set_non_blocking fd1);
  result ← and_then result (set_close_on_exec fd0);
  result ← and_then result (set_close_on_exec fd1);
  if negb (bool_decide (result = SUCCESSFUL)) then
    _ ← syscall; _ ← syscall; mret (result, failed)
  else mret (SUCCESSFUL, mkPipe PIPE_READY fd0 fd1).

Definition read_fd (p : WakeupPipe) : Z :=
  if negb (bool_decide (_state p = PIPE_READY)) then -1 else _read_fd p.

Definition wakeup (p : WakeupPipe) : Eff W PIPESTATUS :=
  if negb (bool_decide (_state p = PIPE_READY)) then mret PIPECLOSED else
  loop (λ _ : unit,
    result ← syscall;
    if a_ret result =? 1 then mret (inr SUCCESSFUL) else
    if (a_ret result =? -1) && (a_errno result =? EINTR) then mret (inl tt) else
    if (a_ret result =? -1) && (a_errno result =? EAGAIN) then mret (inr SUCCESSFUL) else
    mret (inr WAKEUPFAILED)) tt.

Definition drain (p : WakeupPipe) : Eff W PIPESTATUS :=
  if negb (bool_decide (_state p = PIPE_READY)) then mret PIPECLOSED else
  loop (λ _ : unit,
    result ← syscall;
    if 0 <? a_ret result then mret (inl tt) else
    if a_ret result =? 0 then mret (inr PIPECLOSED) else
    if a_errno result =? EINTR then mret (inl tt) else
    if a_errno result =? EAGAIN then mret (inr SUCCESSFUL) else
    mret (inr READFAILED)) tt.

Definition pipe_close (p : WakeupPipe) : Eff W WakeupPipe :=
  if bool_decide (_state p = CLOSED) then mret p else
  _ ← (if 0 <=? _read_fd p then (_ ← syscall; mret tt) else mret tt);
  _ ← (if 0 <=? _write_fd p then (_ ← syscall; mret tt) else mret tt);
  mret (mkPipe CLOSED (-1) (-1)).

End Pipe.
