(* ===== verification/Engine.v ===== *)
(** The data path of the monitoring engine ([src/monitor/engine.cpp],
    [src/monitor/monitor_collector.cpp], [inc/monitor/engine_type.h]): which calls
    each phase of its life admits, and what they do to the store.

    The reporter refers to the engine's module registry, so a report sees the
    modules registered up to then: the context keeps the two publishers and the
    reporter is put together at each call. The clock of [update_data] and of the
    reports is an argument. *)

From S2P Require Import Prelude MonitorData MonitorWire MonitorStore ModuleRegistry MonitorReporter.

Inductive EnginePhase := CREATED | INITIALIZING | READY | RUNNING | STOPPING | STOPPED.

#[export] Instance EnginePhase_eq_dec : EqDecision EnginePhase.
Proof. solve_decision. Defined.

Definition accepts_module_registration (phase : EnginePhase) : bool :=
  bool_decide (phase = READY).
Definition accepts_data_write (phase : EnginePhase) : bool :=
  bool_decide (phase = READY) || bool_decide (phase = RUNNING).
Definition accepts_registration (phase : EnginePhase) : bool :=
  bool_decide (phase = READY) || bool_decide (phase = RUNNING).
Definition accepts_data_read (phase : EnginePhase) : bool :=
  bool_decide (phase = READY) || bool_decide (phase = RUNNING)
  || bool_decide (phase = STOPPING) || bool_decide (phase = STOPPED).

Section Engine.
Context {W : Type}.

(** The part of [MonContext] that holds data. *)
Record MonContext := mkContext {
  _store : MonitorStore;
  _cpublisher : option (Publisher (W := W));
  _calarm_publisher : option (AlarmPublisher (W := W))
}.

Record Engine := mkEngine {
  _phase : EnginePhase;
  _modules : MonitorModuleRegistry;
  _context : option MonContext
}.

Definition get_phase (e : Engine) : EnginePhase := _phase e.

Definition with_context (e : Engine) (c : MonContext) : Engine :=
  mkEngine (_phase e) (_modules e) (Some c).
Definition with_store (e : Engine) (c : MonContext) (store : MonitorStore) : Engine :=
  with_context e (mkContext store (_cpublisher c) (_calarm_publisher c)).

(** [context->_reporter] *)
Definition reporter (e : Engine) (c : MonContext) : MonitorReporter W :=
  mkReporter (Some (_modules e)) (_cpublisher c) (_calarm_publisher c).

Definition refused : option UpdateResult := Some (mkUpdateResult INVALID None).

(** The guards that every write passes first. *)
Definition writing (e : Engine) (w : W)
    (body : MonContext → option UpdateResult * MonitorStore * W)
    : option UpdateResult * Engine * W :=
  if negb (accepts_data_write (_phase e)) then (refused, e, w) else
  match _context e with
  | None => (refused, e, w)
  | Some c => let '(result, store, w) := body c in (result, with_store e c store, w)
  end.

(** The result [None] is an exception of copying the publisher. *)
Definition update_data_at (e : Engine) (copy_ok : bool) (w : W) (data : MonitorData)
    (changed_at : MonitorTimestamp) (force : bool) : option UpdateResult * Engine * W :=
  writing e w (λ c, reporter_update (reporter e c) copy_ok (_store c) w data force changed_at).

Definition update_data (e : Engine) (copy_ok : bool) (w : W) (now : MonitorTimestamp)
    (data : MonitorData) (force : bool) : option UpdateResult * Engine * W :=
  update_data_at e copy_ok w data now force.

Definition report_count (e : Engine) (copy_ok : bool) (w : W) (now : MonitorTimestamp)
    (key : MonitorKey) (value : Z) (description : bytes) : option UpdateResult * Engine * W :=
  writing e w (λ c, MonitorReporter.report_count (reporter e c) copy_ok (_store c) w
                      key value description now).

Definition report_error (e : Engine) (copy_ok prepare_ok : bool) (w : W) (now : MonitorTimestamp)
    (key : MonitorKey) (value : Z) (description : bytes) : option UpdateResult * Engine * W :=
  writing e w (λ c, MonitorReporter.report_error (reporter e c) copy_ok prepare_ok (_store c) w
                      key value description now).

Definition report_string (e : Engine) (copy_ok : bool) (w : W) (now : MonitorTimestamp)
    (key : MonitorKey) (value description : bytes) : option UpdateResult * Engine * W :=
  writing e w (λ c, MonitorReporter.report_string (reporter e c) copy_ok (_store c) w
                      key value description now).

Definition find_data (e : Engine) (key : MonitorKey) : option StoredRecord :=
  if negb (accepts_data_read (_phase e)) then None else
  match _context e with None => None | Some c => MonitorStore.find (_store c) key end.

Definition query_data (e : Engine) (f : MonitorFilter) : list StoredRecord :=
  if negb (accepts_data_read (_phase e)) then [] else
  match _context e with None => [] | Some c => query (_store c) f end.

Definition set_publisher (e : Engine) (p : option Publisher) : bool * Engine :=
  if negb (accepts_data_write (_phase e)) then (false, e) else
  match _context e with
  | None => (false, e)
  | Some c => (true, with_context e (mkContext (_store c) p (_calarm_publisher c)))
  end.

Definition set_alarm_publisher (e : Engine) (p : option AlarmPublisher) : bool * Engine :=
  if negb (accepts_data_write (_phase e)) then (false, e) else
  match _context e with
  | None => (false, e)
  | Some c => (true, with_context e (mkContext (_store c) (_cpublisher c) p))
  end.

(** [None] is the exception of the registry. *)
Definition register_module (e : Engine) (m : MonitorModuleInfo) (alloc_ok : bool)
    : option ModuleRegisterStatus * Engine :=
  if negb (accepts_module_registration (_phase e)) then (Some INVALID_PHASE, e) else
  let '(status, modules) := ModuleRegistry.register_module (_modules e) m alloc_ok in
  (status, mkEngine (_phase e) modules (_context e)).

(** [ingest_decoded_record]: a V1 record has no time of its own and takes [now]. *)
Definition ingest_decoded_record (e : Engine) (copy_ok : bool) (w : W) (now : MonitorTimestamp)
    (record : DecodedRecord) (force : bool) : option UpdateResult * Engine * W :=
  match _dchanged_at record with
  | Some changed_at => update_data_at e copy_ok w (_ddata record) changed_at force
  | None => update_data e copy_ok w now (_ddata record) force
  end.

End Engine.
#[global] Arguments MonContext : clear implicits.
#[global] Arguments Engine : clear implicits.
