(* ===== verification/ReliableCollector.v ===== *)
(** The reliable alarm collector ([src/monitor/reliable_alarm_collector.cpp],
    [inc/monitor/reliable_alarm_collector.h]): alarms are received over TCP, kept
    in an inbox, written to the engine and only then acknowledged; at start the
    inbox is replayed.

    As in [ReliablePublisher.v] the worker meets its surroundings one interaction
    at a time and an [Event] of the script answers: what other threads did to the
    collector and to the engine meanwhile, and what the call returns. The inbox is
    the spool of [AlarmSpool.v] on the file system of [FileSystem.v]; connections
    are decoded by [AlarmStream.v]; the records go to the engine of [Engine.v]. *)

From Stdlib Require Import String.
From S2P Require Import Prelude MonitorData MonitorWire MonitorStore MonitorReporter.
From S2P Require Import AlarmProtocol AlarmStream FileSystem AlarmSpool Effects WakePipe Engine.
#[local] Open Scope tlss_scope.

(** ** Types *)

Record ReliableAlarmCollectorConfig := mkCollectorConfig {
  _bind_host : bytes;
  _listen_port : Z;
  _inbox_dir : option path;
  _max_clients : Z;
  _client_timeout : Z
}.

Inductive ReliableAlarmCollectorSetupStatus :=
  | SETUP_SUCCESS | INVALID_CONFIG | ENGINE_NOT_READY | SPOOL_ERROR | RECOVERY_ERROR
  | WAKEUP_ERROR | SOCKET_ERROR | THREAD_ERROR.

(** A source and a message of it. *)
Definition AlarmIdentity : Type := Z * bytes.

Definition identity_of (frame : AlarmFrame) : AlarmIdentity :=
  (_source_id frame, _message_id frame).

Record PendingWrite := mkPending { _pbytes : bytes; _offset : Z }.

Record Client := mkClient {
  _fd : Z;
  _decoder : AlarmStreamDecoder;
  _writes : list PendingWrite;
  _last_activity : Z;
  _read_closed : bool;
  _close : bool
}.

Record RecoveryItem := mkItem {
  _path : option path;
  _iframe : AlarmFrame;
  _irecord : DecodedRecord
}.

(** The counters behind [_status_mutex]. *)
Record Counters := mkCounters {
  _client_count : Z; _rejected_clients : Z; _accepted_count : Z; _duplicates : Z;
  _protocol_errors : Z; _crc_errors : Z; _persist_failures : Z
}.

(** [ReliableAlarmCollector::Impl] *)
Record Impl := mkImpl {
  _spool : option AlarmSpool;
  _wakeup : WakeupPipe;
  _stop : bool;
  _active : bool;
  _listener : Z;
  _bound_port : Z;
  _clients : list Client;
  _accepted : gset AlarmIdentity;
  _csetup_status : ReliableAlarmCollectorSetupStatus;
  _csetup_error : Z;
  _counters : Counters
}.

Definition new_impl : Impl :=
  mkImpl None new_pipe false false (-1) 0 [] ∅ INVALID_CONFIG 0 (mkCounters 0 0 0 0 0 0 0).

Definition set_spool (s : AlarmSpool) (i : Impl) : Impl :=
  mkImpl (Some s) (_wakeup i) (_stop i) (_active i) (_listener i) (_bound_port i) (_clients i)
    (_accepted i) (_csetup_status i) (_csetup_error i) (_counters i).
Definition set_wakeup (p : WakeupPipe) (i : Impl) : Impl :=
  mkImpl (_spool i) p (_stop i) (_active i) (_listener i) (_bound_port i) (_clients i)
    (_accepted i) (_csetup_status i) (_csetup_error i) (_counters i).
Definition set_flags (stop active : bool) (i : Impl) : Impl :=
  mkImpl (_spool i) (_wakeup i) stop active (_listener i) (_bound_port i) (_clients i)
    (_accepted i) (_csetup_status i) (_csetup_error i) (_counters i).
Definition set_listener (fd port : Z) (i : Impl) : Impl :=
  mkImpl (_spool i) (_wakeup i) (_stop i) (_active i) fd port (_clients i)
    (_accepted i) (_csetup_status i) (_csetup_error i) (_counters i).
Definition set_clients (l : list Client) (i : Impl) : Impl :=
  mkImpl (_spool i) (_wakeup i) (_stop i) (_active i) (_listener i) (_bound_port i) l
    (_accepted i) (_csetup_status i) (_csetup_error i) (_counters i).
Definition accept_identity (id : AlarmIdentity) (i : Impl) : Impl :=
  mkImpl (_spool i) (_wakeup i) (_stop i) (_active i) (_listener i) (_bound_port i) (_clients i)
    ({[id]} ∪ _accepted i) (_csetup_status i) (_csetup_error i) (_counters i).
Definition set_setup (st : ReliableAlarmCollectorSetupStatus) (e : Z) (i : Impl) : Impl :=
  mkImpl (_spool i) (_wakeup i) (_stop i) (_active i) (_listener i) (_bound_port i) (_clients i)
    (_accepted i) st e (_counters i).
Definition set_setup_error (e : Z) (i : Impl) : Impl := set_setup (_csetup_status i) e i.
Definition set_counters (c : Counters) (i : Impl) : Impl :=
  mkImpl (_spool i) (_wakeup i) (_stop i) (_active i) (_listener i) (_bound_port i) (_clients i)
    (_accepted i) (_csetup_status i) (_csetup_error i) c.

(** *** The counters *)

Definition count (g : Counters → Counters) (i : Impl) : Impl := set_counters (g (_counters i)) i.

Definition record_protocol_error : Impl → Impl := count (λ c,
  mkCounters (_client_count c) (_rejected_clients c) (_accepted_count c) (_duplicates c)
    (u64 (_protocol_errors c + 1)) (_crc_errors c) (_persist_failures c)).
Definition record_crc_error : Impl → Impl := count (λ c,
  mkCounters (_client_count c) (_rejected_clients c) (_accepted_count c) (_duplicates c)
    (_protocol_errors c) (u64 (_crc_errors c + 1)) (_persist_failures c)).
Definition record_persist_failure : Impl → Impl := count (λ c,
  mkCounters (_client_count c) (_rejected_clients c) (_accepted_count c) (_duplicates c)
    (_protocol_errors c) (_crc_errors c) (u64 (_persist_failures c + 1))).
Definition record_duplicate : Impl → Impl := count (λ c,
  mkCounters (_client_count c) (_rejected_clients c) (_accepted_count c) (u64 (_duplicates c + 1))
    (_protocol_errors c) (_crc_errors c) (_persist_failures c)).
Definition record_accepted : Impl → Impl := count (λ c,
  mkCounters (_client_count c) (_rejected_clients c) (u64 (_accepted_count c + 1)) (_duplicates c)
    (_protocol_errors c) (_crc_errors c) (_persist_failures c)).
Definition record_rejected_client : Impl → Impl := count (λ c,
  mkCounters (_client_count c) (u64 (_rejected_clients c + 1)) (_accepted_count c) (_duplicates c)
    (_protocol_errors c) (_crc_errors c) (_persist_failures c)).
Definition update_client_count (i : Impl) : Impl := count (λ c,
  mkCounters ♯(_clients i) (_rejected_clients c) (_accepted_count c) (_duplicates c)
    (_protocol_errors c) (_crc_errors c) (_persist_failures c)) i.

Definition record_stream_failure (result : AlarmStreamFeedResult) : Impl → Impl :=
  if negb (bool_decide (AlarmStream._sstatus result = S_PROTOCOL_ERROR)) then id else
  if bool_decide (_protocol_status result = Some CRC_MISMATCH) then record_crc_error
  else record_protocol_error.

(** ** Pure helpers *)

Definition MAX_ACCEPTS_PER_ROUND : nat := 8.
Definition MAX_FRAMES_PER_CLIENT_ROUND : Z := 8.
Definition CLIENT_READ_CHUNK : Z := ALARM_HEADER_SIZE * MAX_FRAMES_PER_CLIENT_ROUND.

Definition valid_config (config : ReliableAlarmCollectorConfig) : bool :=
  negb (bool_decide (_bind_host config = [])) && bool_decide (_inbox_dir config ≠ None)
  && negb (_max_clients config =? 0) && (0 <? _client_timeout config).

Definition engine_accepts_recovery {U} (en : Engine U) : bool :=
  bool_decide (get_phase en = READY) || bool_decide (get_phase en = RUNNING).

Definition ingest_succeeded (status : UpdateStatus) : bool :=
  bool_decide (status = INSERTED) || bool_decide (status = UPDATED)
  || bool_decide (status = UNCHANGED).

(** The record of an alarm; the outer [None] is an access outside the payload. *)
Definition decode_reliable_payload (frame : AlarmFrame) : option (option DecodedRecord) :=
  if negb (bool_decide (_ftype frame = ALARM)) || bool_decide (_payload frame = [])
  then Some None else
  decoded ← decode_v2 (Some (_payload frame));
  Some (match _dstatus decoded, _drecord decoded with
        | MonitorWire.SUCCESS, Some record =>
            match _version record, _dchanged_at record with
            | V2, Some _ => Some record
            | _, _ => None
            end
        | _, _ => None
        end).

(** The wait until the earliest deadline, in milliseconds rounded up. *)
Definition poll_timeout (deadlines : list Z) (now : Z) : option Z :=
  match deadlines with
  | [] => Some (-1)
  | d :: rest =>
      let earliest := foldl Z.min d rest in
      if earliest <=? now then Some 0 else
      remaining ← i64_sub earliest now;
      let milliseconds := remaining / NS_PER_MS in
      let milliseconds := if milliseconds * NS_PER_MS <? remaining then milliseconds + 1
                          else milliseconds in
      Some (if INT_MAX <? milliseconds then INT_MAX else milliseconds)
  end.

(** The order of recovery: time, source, message. *)
Definition recovery_key (item : RecoveryItem) : Z * (Z * bytes) :=
  (_timestamp_ms (_iframe item), identity_of (_iframe item)).
Definition key_lt (a b : Z * (Z * bytes)) : bool :=
  (a.1 <? b.1) || (a.1 =? b.1) && ((a.2.1 <? b.2.1)
  || (a.2.1 =? b.2.1) && negb (bytes_le b.2.2 a.2.2)).
Definition recovery_le (a b : RecoveryItem) : Prop :=
  key_lt (recovery_key b) (recovery_key a) = false.
#[export] Instance recovery_le_dec : RelDecision recovery_le.
Proof. intros a b. unfold recovery_le. apply _. Defined.

(** The control frame that answers [request]. *)
Definition control_frame (type : AlarmFrameType) (request : AlarmFrame) : AlarmFrame :=
  mkFrame type (_source_id request) (_message_id request) (_timestamp_ms request) [].

(** ** The surroundings *)

(** What other threads do: [stop], and to the engine they share. *)
Inductive Outer :=
  | OuterStop
  | OuterPhase (phase : EnginePhase)
  | OuterUpdate (data : MonitorData) (changed_at : Z) (force : bool).

(** One interaction. [e_ret], [e_errno] and [e_bytes] are what a call returns and
    stores, [e_fds] the descriptors of [pipe], [e_count] the length of an address
    list, [e_port] the port of a bound address of a known family, [e_revents] what
    [poll] stores for each descriptor; [e_alloc] says whether memory is available,
    [e_feed] whether it is at each allocation of the stream decoder, [e_copy]
    whether the engine's publisher can be copied; [e_now] is the clock. *)
Record Event := mkEvent {
  e_outer : list Outer;
  e_now : Z;
  e_ret : Z;
  e_errno : Z;
  e_bytes : bytes;
  e_fds : Z * Z;
  e_count : nat;
  e_port : option Z;
  e_revents : list Z;
  e_alloc : bool;
  e_feed : Alloc;
  e_copy : bool
}.

(** What the collector did, in order. *)
Inductive Obs :=
  | SawAccept (fd : Z) | SawClose (fd : Z) | SawBadAlloc
  | SawPoll (timeout : Z) | SawRecv (fd : Z) (data : bytes) | SawSend (fd : Z) (data : bytes)
  | SawIngest (frame : AlarmFrame) (record : DecodedRecord) (status : UpdateStatus)
  | SawKept (frame : AlarmFrame) (fresh : bool)
  | SawQueue (fd : Z) (response : AlarmFrame).

Section Collector.
Context `{DirOrder} {U : Type} (pid : Z) (config : ReliableAlarmCollectorConfig).

(** [outside] is what the engine's publisher acts on. *)
Record CWorld := mkCWorld {
  col : Impl; engine : Engine U; outside : U; sys : World; script : list Event; log : list Obs
}.

#[export] Instance Col_scripted : Scripted CWorld := λ w, length (script w).

#[local] Abbreviation Col := (Eff CWorld).

Definition get_impl : Col Impl := λ w, (Returned (col w), w).
Definition with_col (g : Impl → Impl) (w : CWorld) : CWorld :=
  mkCWorld (g (col w)) (engine w) (outside w) (sys w) (script w) (log w).
Definition modify (g : Impl → Impl) : Col unit := λ w, (Returned tt, with_col g w).
Definition record_obs (o : Obs) : Col unit := λ w,
  (Returned tt, mkCWorld (col w) (engine w) (outside w) (sys w) (script w) (log w ++ [o])).

Definition on_system {A} (m : Sys A) : Col A := λ w,
  let '(x, w') := m (sys w) in
  (Returned x, mkCWorld (col w) (engine w) (outside w) w' (script w) (log w)).

(** An operation of the spool; the pointer is never null when it is used. *)
Definition on_spool {A} (m : AlarmSpool → Sys (A * AlarmSpool)) : Col A := λ w,
  match _spool (col w) with
  | None => (Stuck, w)
  | Some s => let '((x, s'), w') := m s (sys w) in
              (Returned x, mkCWorld (set_spool s' (col w)) (engine w) (outside w) w'
                             (script w) (log w))
  end.
Definition asking {A} (m : AlarmSpool → Sys A) (s : AlarmSpool) : Sys (A * AlarmSpool) :=
  x ← m s; mret (x, s).

Definition on_engine {A} (m : Engine U → U → A * Engine U * U) : Col A := λ w,
  let '(x, en, u) := m (engine w) (outside w) in
  (Returned x, mkCWorld (col w) en u (sys w) (script w) (log w)).

(** ** Interactions *)

Definition request_stop (i : Impl) : Impl := set_flags true false i.

Definition act (o : Outer) (w : CWorld) : CWorld :=
  match o with
  | OuterStop => with_col request_stop w
  | OuterPhase phase =>
      mkCWorld (col w) (mkEngine phase (_modules (engine w)) (_context (engine w))) (outside w)
        (sys w) (script w) (log w)
  | OuterUpdate data changed_at force =>
      let '(_, en, u) := update_data_at (engine w) true (outside w) data changed_at force in
      mkCWorld (col w) en u (sys w) (script w) (log w)
  end.

(** A script that has run out asks for the stop. *)
Definition last_event : Event :=
  mkEvent [OuterStop] 0 (-1) EIO [] (-1, -1) 0 None [] true no_oom true.

Definition take_event (keep : Outer → bool) : Col Event := λ w,
  let e := default last_event (head (script w)) in
  (Returned e, foldl (flip act)
     (mkCWorld (col w) (engine w) (outside w) (sys w) (tail (script w)) (log w))
     (filter (λ o, keep o = true) (e_outer e))).

(** The next interaction: the others act, then the answer is taken. *)
Definition tick : Col Event := take_event (λ _, true).

(** An interaction of the constructor: no other thread has the collector yet. *)
Definition tick_alone : Col Event :=
  take_event (λ o, match o with OuterStop => false | _ => true end).

Definition clock_now : Col Z := e ← tick; mret (e_now e).
Definition stopping : Col bool := _ ← tick; i ← get_impl; mret (_stop i).
Definition bad_alloc {A} : Col A := _ ← record_obs SawBadAlloc; throw BadAlloc.
Definition allocate_memory : Col unit := e ← tick; if e_alloc e then mret tt else bad_alloc.
Definition close_fd (fd : Z) : Col unit := _ ← tick; record_obs (SawClose fd).

(** [shutdown] and [close] *)
Definition shutdown_close (fd : Z) : Col unit := _ ← tick; close_fd fd.

#[export] Instance Col_syscalls : Syscalls CWorld := {
  syscall := e ← tick; mret (mkAnswer (e_ret e) (e_errno e) (e_fds e))
}.

(** The same calls made by the constructor. *)
Definition alone_syscalls : Syscalls CWorld := {|
  syscall := e ← tick_alone; mret (mkAnswer (e_ret e) (e_errno e) (e_fds e)) |}.

(** [Some errno] when one of the calls fails. *)
Definition set_nonblocking_and_cloexec (call : Col Event) : Col (option Z) :=
  status_flags ← call;
  if e_ret status_flags <? 0 then mret (Some (e_errno status_flags)) else
  set ← call;
  if negb (e_ret set =? 0) then mret (Some (e_errno set)) else
  descriptor_flags ← call;
  if e_ret descriptor_flags <? 0 then mret (Some (e_errno descriptor_flags)) else
  set ← call;
  mret (if e_ret set =? 0 then None else Some (e_errno set)).

(** ** Alarms *)

(** [decode_reliable_payload], whose strings are allocated. *)
Definition decode_payload (call : Col Event) (frame : AlarmFrame) : Col (option DecodedRecord) :=
  e ← call;
  if e_alloc e then defined (decode_reliable_payload frame) else bad_alloc.

(** [decode_alarm_frame] of a file that was read *)
Definition decode_frame (call : Col Event) (b : bytes) : Col (option AlarmFrame) :=
  e ← call;
  decoded ← defined (decode_alarm_frame (e_alloc e) (Some b));
  mret (if decode_success decoded then _frame decoded else None).

(** [ingest_decoded_record] with force: an allocation of the store fails before
    anything changes, a failing copy of the publisher throws afterwards. *)
Definition ingest (call : Col Event) (frame : AlarmFrame) (record : DecodedRecord)
    : Col UpdateResult :=
  e ← call;
  if negb (e_alloc e) then bad_alloc else
  result ← on_engine (λ en u, ingest_decoded_record en (e_copy e) u (e_now e) record true);
  match result with
  | None => bad_alloc
  | Some result => _ ← record_obs (SawIngest frame record (_ustatus result)); mret result
  end.

Definition push_write (c : Client) (b : bytes) : Client :=
  mkClient (_fd c) (_decoder c) (_writes c ++ [mkPending b 0]) (_last_activity c)
    (_read_closed c) (_close c).

Definition queue_control (c : Client) (type : AlarmFrameType) (request : AlarmFrame)
    : Col (bool * Client) :=
  e ← tick;
  encoded ← defined (encoded_bytes (e_alloc e) (control_frame type request));
  match encoded with
  | None => mret (false, c)
  | Some b =>
      e ← tick;
      if negb (e_alloc e) then mret (false, c) else
      _ ← record_obs (SawQueue (_fd c) (control_frame type request));
      mret (true, push_write c b)
  end.

Definition load_persisted_record (p : path) : Col (option DecodedRecord) :=
  stored ← on_spool (asking (λ s, AlarmSpool.read s p));
  if negb (read_success stored) then mret None else
  decoded ← decode_frame tick (_rdbytes stored);
  match decoded with
  | None => mret None
  | Some frame =>
      record ← decode_payload tick frame;
      match record with
      | None =>
          _ ← match _rdpath stored with
              | Some q => _ ← on_spool (asking (λ s, quarantine s q)); mret tt
              | None => mret tt
              end;
          mret None
      | Some record => mret (Some record)
      end
  end.

Definition spool_store (frame : AlarmFrame) (wire : bytes) : Col AlarmSpoolStoreResult :=
  on_spool (λ s, store pid s (_source_id frame) (_message_id frame) wire).

(** [_accepted.insert]; the history notes whether the alarm was stored just now. *)
Definition insert_accepted (frame : AlarmFrame) (fresh : bool) : Col unit := λ w,
  (Returned tt, mkCWorld (accept_identity (identity_of frame) (col w)) (engine w) (outside w)
                  (sys w) (script w) (log w ++ [SawKept frame fresh])).

(** The record that is on disk, and whether it was there before; [None] when the
    alarm could not be kept. *)
Definition persist (frame : AlarmFrame) (incoming : DecodedRecord) (wire : bytes)
    : Col (option (bool * DecodedRecord)) :=
  stored ← spool_store frame wire;
  match _ststatus stored with
  | SP_SUCCESS => mret (Some (false, incoming))
  | SP_DUPLICATE =>
      _ ← modify record_duplicate;
      durable_record ← match _stpath stored with
                       | Some p => load_persisted_record p
                       | None => mret None
                       end;
      match durable_record with
      | Some record => mret (Some (true, record))
      | None => _ ← modify record_persist_failure; mret None
      end
  | _ => _ ← modify record_persist_failure; mret None
  end.

(** An alarm that is not yet accepted. *)
Definition accept_alarm (c : Client) (frame : AlarmFrame) (incoming : DecodedRecord)
    : Col (bool * Client) :=
  e ← tick;
  encoded ← defined (encoded_bytes (e_alloc e) frame);
  match encoded with
  | None => mret (false, c)
  | Some wire =>
      durable_record ← persist frame incoming wire;
      match durable_record with
      | None => mret (false, c)
      | Some (duplicate_on_disk, record) =>
          ingested ← ingest tick frame record;
          if negb (ingest_succeeded (_ustatus ingested)) then mret (false, c) else
          _ ← allocate_memory;
          _ ← insert_accepted frame (negb duplicate_on_disk);
          _ ← (if negb duplicate_on_disk then modify record_accepted else mret tt);
          queue_control c ACK frame
      end
  end.

Definition process_alarm (c : Client) (frame : AlarmFrame) : Col (bool * Client) :=
  catch
    (incoming_record ← decode_payload tick frame;
     match incoming_record with
     | None => _ ← modify record_protocol_error; mret (false, c)
     | Some incoming =>
         i ← get_impl;
         if bool_decide (identity_of frame ∈ _accepted i) then
           _ ← modify record_duplicate;
           queue_control c ACK frame
         else accept_alarm c frame incoming
     end)
    (λ _, mret (false, c)).

Definition process_frame (c : Client) (frame : AlarmFrame) : Col (bool * Client) :=
  match _ftype frame with
  | ALARM => process_alarm c frame
  | PING => queue_control c PONG frame
  | ACK | PONG => _ ← modify record_protocol_error; mret (false, c)
  | _ => mret (false, c)
  end.

(** ** Connections *)

Definition set_decoder (c : Client) (d : AlarmStreamDecoder) : Client :=
  mkClient (_fd c) d (_writes c) (_last_activity c) (_read_closed c) (_close c).
Definition set_activity (c : Client) (now : Z) : Client :=
  mkClient (_fd c) (_decoder c) (_writes c) now (_read_closed c) (_close c).
Definition set_writes (c : Client) (l : list PendingWrite) : Client :=
  mkClient (_fd c) (_decoder c) l (_last_activity c) (_read_closed c) (_close c).
Definition close_read (c : Client) : Client :=
  mkClient (_fd c) (_decoder c) (_writes c) (_last_activity c) true (_close c).
Definition mark_close (c : Client) : Client :=
  mkClient (_fd c) (_decoder c) (_writes c) (_last_activity c) (_read_closed c) true.

(** [recv]: the bytes received, none at the end of the stream, or [errno]. *)
Definition recv (fd : Z) (size : nat) : Col (bytes + Z) :=
  e ← tick;
  if e_ret e <? 0 then mret (inr (e_errno e)) else
  let received := take size (e_bytes e) in
  _ ← record_obs (SawRecv fd received);
  mret (inl received).

(** [send]: the number of bytes taken, or [errno]. *)
Definition send (fd : Z) (data : bytes) : Col (Z + Z) :=
  e ← tick;
  if e_ret e <? 0 then mret (inr (e_errno e)) else
  let sent := take (Z.to_nat (e_ret e)) data in
  _ ← record_obs (SawSend fd sent);
  mret (inl ♯sent).

(** The bytes of one [recv]. *)
Definition feed_client (c : Client) (received : bytes) : Col (bool * Client) :=
  now ← clock_now;
  let c := set_activity c now in
  e ← tick;
  fed ← defined (feed (e_feed e) (_decoder c) (Data received));
  let '(decoder, result) := fed in
  let c := set_decoder c decoder in
  if negb (feed_success result) then
    _ ← modify (record_stream_failure result); mret (false, c)
  else if MAX_FRAMES_PER_CLIENT_ROUND <? ♯(_frames result) then mret (false, c)
  else
    processed ← each (λ c frame,
      r ← process_frame c frame;
      let '(ok, c) := r in
      mret (if ok : bool then inl c else inr c)) (_frames result) c;
    mret (match processed with inl c => (true, c) | inr c => (false, c) end).

Definition finish_client (c : Client) : Col (bool * Client) :=
  let '(decoder, finished) := finish (_decoder c) in
  let c := set_decoder c decoder in
  if negb (feed_success finished) then
    _ ← modify (record_stream_failure finished); mret (false, c)
  else mret (true, close_read c).

Definition read_client (c : Client) : Col (bool * Client) :=
  loop (λ _ : unit,
    received ← recv (_fd c) (Z.to_nat CLIENT_READ_CHUNK);
    match received with
    | inl ((_ :: _) as b) => r ← feed_client c b; mret (inr r)
    | inl [] => r ← finish_client c; mret (inr r)
    | inr e =>
        if e =? EINTR then
          stop ← stopping;
          mret (if stop : bool then inr (false, c) else inl tt)
        else mret (inr (e =? EAGAIN, c))
    end) tt.

Definition write_client (c : Client) : Col (bool * Client) :=
  match _writes c with
  | [] => mret (true, c)
  | write :: rest =>
      loop (λ _ : unit,
        sent ← send (_fd c) (drop (Z.to_nat (_offset write)) (_pbytes write));
        match sent with
        | inl n =>
            if 0 <? n then
              let offset := _offset write + n in
              now ← clock_now;
              let c := set_activity c now in
              mret (inr (true, set_writes c
                (if offset =? ♯(_pbytes write) then rest
                 else mkPending (_pbytes write) offset :: rest)))
            else mret (inr (false, c))
        | inr e =>
            if e =? EINTR then
              stop ← stopping;
              mret (if stop : bool then inr (false, c) else inl tt)
            else mret (inr (e =? EAGAIN, c))
        end) tt
  end.

Definition new_client (fd now : Z) : Client := mkClient fd new_decoder [] now false false.

(** [std::make_unique<Client>] and [push_back]: the descriptor has been released
    when one of them throws. *)
Definition add_client (fd : Z) : Col bool :=
  catch
    (_ ← allocate_memory;
     now ← clock_now;
     _ ← allocate_memory;
     _ ← modify (λ i, set_clients (_clients i ++ [new_client fd now]) i);
     _ ← modify update_client_count;
     mret true)
    (λ _, mret false).

(** One accepted connection: whether the round of accepting goes on. *)
Definition admit_client (fd : Z) : Col bool :=
  unusable ← set_nonblocking_and_cloexec tick;
  match unusable with
  | Some _ => _ ← close_fd fd; mret true
  | None =>
      i ← get_impl;
      if _max_clients config <=? ♯(_clients i) then
        _ ← modify record_rejected_client; _ ← close_fd fd; mret true
      else add_client fd
  end.

Definition accept_clients : Col unit :=
  loop (λ attempt : nat,
    if (MAX_ACCEPTS_PER_ROUND <=? attempt)%nat then mret (inr tt) else
    accepted ← tick;
    if e_ret accepted <? 0 then
      if e_errno accepted =? EINTR then
        stop ← stopping;
        mret (if stop : bool then inr tt else inl attempt)
      else mret (inr tt)
    else
      _ ← record_obs (SawAccept (e_ret accepted));
      going ← admit_client (e_ret accepted);
      mret (if going : bool then inl (S attempt) else inr tt)) 0%nat.

Definition close_client (c : Client) : Col unit :=
  if 0 <=? _fd c then shutdown_close (_fd c) else mret tt.

Definition close_each (l : list Client) : Col (unit + unit) :=
  each (λ _ c, _ ← close_client c; mret (inl tt)) l tt.

Definition close_marked_clients : Col unit :=
  i ← get_impl;
  _ ← close_each (filter (λ c, _close c = true) (_clients i));
  _ ← modify (λ i, set_clients (filter (λ c, _close c = false) (_clients i)) i);
  modify update_client_count.

Definition close_all_clients : Col unit :=
  i ← get_impl;
  _ ← close_each (_clients i);
  _ ← modify (set_clients []);
  modify update_client_count.

Definition close_listener : Col unit :=
  i ← get_impl;
  if 0 <=? _listener i then
    _ ← shutdown_close (_listener i);
    modify (λ i, set_listener (-1) (_bound_port i) i)
  else mret tt.

(** ** The worker *)

(** [last_activity + client_timeout]; [None] is a signed overflow. *)
Definition client_deadline (c : Client) : option Z :=
  timeout_ns ← i64_mul (_client_timeout config) NS_PER_MS;
  i64_add (_last_activity c) timeout_ns.

Definition idle_too_long (c : Client) (now : Z) : option bool :=
  idle ← i64_sub now (_last_activity c);
  timeout_ns ← i64_mul (_client_timeout config) NS_PER_MS;
  Some (timeout_ns <=? idle).

Definition has (events flag : Z) : bool := negb (Z.land events flag =? 0).

(** What one round does with one connection, given the events of its descriptor. *)
Definition serve_client (c : Client) (events : Z) : Col Client :=
  c ← (if has events POLLIN && negb (_read_closed c) then
         r ← read_client c;
         let '(ok, c) := r in mret (if ok : bool then c else mark_close c)
       else mret c);
  c ← (if negb (_close c) && has events POLLOUT then
         r ← write_client c;
         let '(ok, c) := r in mret (if ok : bool then c else mark_close c)
       else mret c);
  c ← (if negb (_close c) && has events POLLHUP && negb (_read_closed c) then
         r ← read_client c;
         let '(ok, c) := r in mret (if ok : bool then c else mark_close c)
       else mret c);
  let c := if has events (Z.lor POLLERR POLLNVAL) then mark_close c else c in
  let c := if negb (_close c) && _read_closed c && bool_decide (_writes c = [])
           then mark_close c else c in
  if negb (_close c) then
    now ← clock_now;
    idle ← defined (idle_too_long c now);
    mret (if idle : bool then mark_close c else c)
  else mret c.

(** The connections at the time of [poll], by index. *)
Definition serve_clients (revents : list Z) : Col (unit + unit) :=
  i ← get_impl;
  each (λ _ index,
    i ← get_impl;
    match _clients i !! index with
    | None => defined None
    | Some c =>
        c ← serve_client c (default 0 (revents !! (index + 2)%nat));
        _ ← modify (λ i, set_clients (<[index := c]> (_clients i)) i);
        mret (inl tt)
    end) (seq 0 (length (_clients i))) tt.

(** [poll] under the deadlines: what it stored, or nothing when the round is over. *)
Definition poll_wait (deadlines : list Z) : Col (option (list Z)) :=
  loop (λ _ : unit,
    now ← (if bool_decide (deadlines = []) then mret 0 else clock_now);
    timeout ← defined (poll_timeout deadlines now);
    _ ← record_obs (SawPoll timeout);
    result ← tick;
    if 0 <=? e_ret result then mret (inr (Some (e_revents result))) else
    if e_errno result =? EINTR then
      stop ← stopping;
      mret (if stop : bool then inr None else inl tt)
    else mret (inr None)) tt.

Definition poll_once : Col bool :=
  _ ← allocate_memory;
  i ← get_impl;
  deadlines ← defined (mapM client_deadline (_clients i));
  polled ← poll_wait deadlines;
  match polled with
  | None => mret false
  | Some revents =>
      _ ← (if has (default 0 (revents !! 1%nat)) POLLIN then
             i ← get_impl; _ ← drain (_wakeup i); mret tt
           else mret tt);
      stop ← stopping;
      if (stop : bool) then mret false else
      _ ← serve_clients revents;
      _ ← close_marked_clients;
      let listener := default 0 (revents !! 0%nat) in
      _ ← (if has listener POLLIN then accept_clients else mret tt);
      mret (negb (has listener (Z.lor (Z.lor POLLERR POLLHUP) POLLNVAL)))
  end.

Definition run : Col unit :=
  _ ← loop (λ _ : unit,
        stop ← stopping;
        if (stop : bool) then mret (inr tt) else
        catch (going ← poll_once; mret (if going : bool then inl tt else inr tt))
              (λ _, mret (inr tt))) tt;
  _ ← close_all_clients;
  modify (λ i, set_flags (_stop i) false i).

(** [stop]; [worker] is what is left of the worker thread, which is joined. *)
Definition stop (worker : Col unit) : Col unit :=
  i ← get_impl;
  let already_stopping := _stop i in
  _ ← modify request_stop;
  _ ← (if negb already_stopping then (i ← get_impl; _ ← wakeup (_wakeup i); mret tt)
       else mret tt);
  _ ← worker;
  _ ← close_all_clients;
  close_listener.

(** ** Construction *)

(** The paths that [fs::recursive_directory_iterator] names; an error ends it. *)
Fixpoint recovery_paths (entries : list path) (paths : list path) : Sys (list path + Z) :=
  match entries with
  | [] => mret (inl paths)
  | p :: rest =>
      st ← symlink_status p;
      match st with
      | inr e => mret (inr e)
      | inl v =>
          let paths := match v with Reg _ => paths ++ [p] | _ => paths end in
          a ← advance;
          match a with
          | inr e => mret (inr e)
          | inl _ => recovery_paths rest paths
          end
      end
  end.

Definition accepted_directory : path :=
  default [] (_inbox_dir config) ++ [literal "accepted"].

Definition collect_recovery_paths : Col (option (list path)) :=
  r ← on_system (r ← descendants_of accepted_directory;
                 match r with
                 | inr e => mret (inr e)
                 | inl entries => recovery_paths entries []
                 end);
  match r with
  | inl paths => mret (Some paths)
  | inr e => _ ← modify (set_setup_error e); mret None
  end.

(** A file that holds no alarm the collector can use is set aside. *)
Definition set_aside (p : option path) (items : list RecoveryItem)
    : Col (list RecoveryItem + unit) :=
  match p with
  | None => mret (inl items)
  | Some q =>
      quarantined ← on_spool (asking (λ s, quarantine s q));
      if path_success quarantined then mret (inl items) else
      _ ← modify (set_setup_error (_perror quarantined)); mret (inr tt)
  end.

(** One file of the inbox. *)
Definition recover_file (items : list RecoveryItem) (p : path) : Col (list RecoveryItem + unit) :=
  stored ← on_spool (asking (λ s, AlarmSpool.read s p));
  if bool_decide (_rdstatus stored = SP_CORRUPT) then mret (inl items) else
  if negb (read_success stored) then
    _ ← modify (set_setup_error (_rderror stored)); mret (inr tt)
  else
    frame ← decode_frame tick_alone (_rdbytes stored);
    match frame with
    | Some frame =>
        if bool_decide (_ftype frame = ALARM) then
          decoded ← decode_payload tick_alone frame;
          match decoded with
          | None => set_aside (_rdpath stored) items
          | Some record => mret (inl (items ++ [mkItem (_rdpath stored) frame record]))
          end
        else set_aside (_rdpath stored) items
    | None => set_aside (_rdpath stored) items
    end.

Definition replay (_ : unit) (item : RecoveryItem) : Col (unit + unit) :=
  result ← ingest tick_alone (_iframe item) (_irecord item);
  if negb (ingest_succeeded (_ustatus result)) then mret (inr tt) else
  e ← tick_alone;
  if negb (e_alloc e) then bad_alloc else
  _ ← insert_accepted (_iframe item) false;
  _ ← modify record_accepted;
  mret (inl tt).

Definition recover_inbox : Col bool :=
  paths ← collect_recovery_paths;
  match paths with
  | None => mret false
  | Some paths =>
      e ← tick_alone;
      if negb (e_alloc e) then bad_alloc else
      items ← each recover_file paths [];
      match items with
      | inr _ => mret false
      | inl items =>
          done ← each replay (merge_sort recovery_le items) tt;
          mret (match done with inl _ => true | inr _ => false end)
      end
  end.

(** One address of [getaddrinfo]: whether it is listened on. *)
Definition try_listen (_ : unit) (_ : nat) : Col (unit + unit) :=
  socket ← tick_alone;
  let fail e := _ ← modify (set_setup_error e); mret (inl tt) in
  let fd := e_ret socket in
  if fd <? 0 then fail (e_errno socket) else
  let give_back e := _ ← record_obs (SawClose fd); fail e in
  _ ← tick_alone;
  unusable ← set_nonblocking_and_cloexec tick_alone;
  match unusable with
  | Some e => give_back e
  | None =>
      bound ← tick_alone;
      if negb (e_ret bound =? 0) then give_back (e_errno bound) else
      listening ← tick_alone;
      if negb (e_ret listening =? 0) then give_back (e_errno listening) else
      named ← tick_alone;
      if negb (e_ret named =? 0) then give_back (e_errno named) else
      match e_port named with
      | None => give_back EAFNOSUPPORT
      | Some port => _ ← modify (set_listener fd port); mret (inr tt)
      end
  end.

Definition open_listener : Col bool :=
  addresses ← tick_alone;
  if negb (e_ret addresses =? 0) then
    _ ← modify (set_setup_error EADDRNOTAVAIL); mret false
  else
    r ← each try_listen (seq 0 (e_count addresses)) tt;
    mret (match r with inl _ => false | inr _ => true end).

Definition fail_setup (st : ReliableAlarmCollectorSetupStatus) (e : Z) : Col bool :=
  _ ← modify (set_setup st e); mret false.

(** [std::make_unique<AlarmSpool>]: only [std::bad_alloc] is caught. *)
Definition make_inbox : Col AlarmSpool :=
  e ← tick_alone;
  if negb (e_alloc e) then throw BadAlloc else
  o ← on_system (make_spool (mkSpoolConfig (_inbox_dir config) INBOX 0));
  match o with Some s => mret s | None => throw OtherExn end.

(** Whether the inbox is open, or the answer of [initialize]. *)
Definition open_inbox : Col (AlarmSpool + bool) :=
  catch (s ← make_inbox; _ ← modify (set_spool s); mret (inl s))
        (λ e, match e with
              | BadAlloc => r ← fail_setup SPOOL_ERROR ENOMEM; mret (inr r)
              | OtherExn => throw OtherExn
              end).

(** The recovery and the exceptions it may throw. *)
Definition recover : Col bool :=
  catch
    (recovered ← recover_inbox;
     if (recovered : bool) then mret true else
     i ← get_impl;
     fail_setup RECOVERY_ERROR (if _csetup_error i =? 0 then EIO else _csetup_error i))
    (λ e, fail_setup RECOVERY_ERROR (match e with BadAlloc => ENOMEM | OtherExn => EIO end)).

(** [_worker = std::thread(...)] *)
Definition start_worker : Col bool :=
  _ ← modify (set_flags false true);
  thread ← tick_alone;
  let failed e := _ ← modify (λ i, set_flags (_stop i) false i);
                  _ ← close_listener; fail_setup THREAD_ERROR e in
  if negb (e_alloc thread) then failed ENOMEM else
  if negb (e_ret thread =? 0) then failed (e_errno thread) else
  _ ← modify (set_setup SETUP_SUCCESS 0); mret true.

(** What follows the opening of the inbox. *)
Definition start_up : Col bool :=
  recovered ← recover;
  if negb recovered then mret false else
  i ← get_impl;
  pipe ← @init CWorld alone_syscalls (_wakeup i);
  let '(pipe_status, pipe) := pipe in
  _ ← modify (set_wakeup pipe);
  if negb (bool_decide (pipe_status = SUCCESSFUL)) then fail_setup WAKEUP_ERROR EIO else
  listening ← open_listener;
  if negb listening then
    i ← get_impl;
    fail_setup SOCKET_ERROR (if _csetup_error i =? 0 then EADDRNOTAVAIL else _csetup_error i)
  else start_worker.

Definition initialize : Col bool :=
  if negb (valid_config config) then fail_setup INVALID_CONFIG EINVAL else
  ready ← on_engine (λ en u, (engine_accepts_recovery en, en, u));
  if negb ready then fail_setup ENGINE_NOT_READY 0 else
  opened ← open_inbox;
  match opened with
  | inr r => mret r
  | inl s =>
      if negb (_ready s) then fail_setup SPOOL_ERROR (_setup_error s) else start_up
  end.

(** ** Status *)

Definition ready (i : Impl) : bool :=
  _active i && match _csetup_status i with SETUP_SUCCESS => true | _ => false end.

Record ReliableAlarmCollectorStatus := mkCStatus {
  _cs_active : bool; _cs_clients : Z; _cs_rejected_clients : Z; _cs_accepted : Z;
  _cs_duplicates : Z; _cs_protocol_errors : Z; _cs_crc_errors : Z; _cs_persist_failures : Z;
  _cs_corrupt_files : Z; _cs_available : bool; _cs_spool_error : Z
}.

Definition status : Col ReliableAlarmCollectorStatus :=
  _ ← tick;
  i ← get_impl;
  let c := _counters i in
  let snapshot corrupt available error :=
    mkCStatus (_active i) (_client_count c) (_rejected_clients c) (_accepted_count c)
      (_duplicates c) (_protocol_errors c) (_crc_errors c) (_persist_failures c)
      corrupt available error in
  match _spool i with
  | None => mret (snapshot 0 false ENODEV)
  | Some _ =>
      catch
        (_ ← allocate_memory;
         result ← on_spool (asking stats);
         mret (if stats_success result
               then snapshot (_stcorrupt_files (_stats result)) true (_serror result)
               else snapshot 0 false (_serror result)))
        (λ e, mret (snapshot 0 false (match e with BadAlloc => ENOMEM | OtherExn => EIO end)))
  end.

End Collector.
#[global] Arguments CWorld : clear implicits.
