(* ===== verification/CollectorSafety.v ===== *)
(** Safety of the collector: what it acknowledges is in the inbox and in the
    engine, it takes an alarm once, and its worker neither fails nor goes on
    forever. The program logic is that of [Effects.v]. *)

From S2P Require Import Prelude MonitorData MonitorWire MonitorStore MonitorReporter.
From S2P Require Import AlarmProtocol AlarmStream FileSystem AlarmSpool AlarmSpoolSafety SpoolNames.
From S2P Require Import Effects WakePipe Engine ReliableCollector.
#[local] Open Scope tlss_scope.

(** ** Histories *)

Definition kept_ids (l : list Obs) : list AlarmIdentity :=
  omap (λ o, match o with SawKept frame _ => Some (identity_of frame) | _ => None end) l.

(** The record was written to the engine for this identity. *)
Definition ingested (l : list Obs) (id : AlarmIdentity) (record : DecodedRecord) : Prop :=
  ∃ frame st, SawIngest frame record st ∈ l ∧ identity_of frame = id ∧ ingest_succeeded st = true.

(** Every acknowledgement follows the acceptance of the alarm it names. *)
Definition acks_ordered (l : list Obs) : Prop :=
  ∀ l1 fd response l2, l = l1 ++ SawQueue fd response :: l2 → _ftype response = ACK →
    identity_of response ∈ kept_ids l1.

Lemma kept_ids_app l k : kept_ids (l ++ k) = kept_ids l ++ kept_ids k.
Proof. apply omap_app. Qed.

Lemma ingested_app l k id record : ingested l id record → ingested (l ++ k) id record.
Proof. intros (frame & st & Hin & H). exists frame, st. split; [|done]. apply elem_of_app. by left. Qed.

Lemma acks_ordered_snoc l o :
  acks_ordered l →
  (∀ fd response, o = SawQueue fd response → _ftype response = ACK →
     identity_of response ∈ kept_ids l) →
  acks_ordered (l ++ [o]).
Proof.
  intros Hl Ho l1 fd response l2 He. destruct l2 as [|o' l2] using rev_ind.
  - apply app_inj_tail in He as [-> ->]. by apply (Ho fd).
  - rewrite app_comm_cons, app_assoc in He. apply app_inj_tail in He as [-> _]. by eapply Hl.
Qed.

(** ** The invariant *)

(** A clock that stays within 146 years of its start. *)
Definition CLOCK_MAX : Z := 2 ^ 62.

Record event_ok (e : Event) : Prop := {
  ok_now : 0 <= e_now e <= CLOCK_MAX;
  ok_ret : is_i64 (e_ret e);
  ok_bytes : bytes_ok (e_bytes e)
}.

Record config_ok (config : ReliableAlarmCollectorConfig) : Prop := {
  cfg_valid : valid_config config = true;
  cfg_timeout : _client_timeout config * NS_PER_MS < CLOCK_MAX
}.

Section Safety.
Context `{DirOrder} {U : Type} (pid : Z) (config : ReliableAlarmCollectorConfig) (root : path).
Context (Hcfg : config_ok config).
#[local] Abbreviation Col := (Eff (CWorld U)).

(** The alarm of an accepted identity: it is in the inbox, for good when it was
    stored by this process, and its record was written to the engine. *)
Definition secured (f : FS) (l : list Obs) (id : AlarmIdentity) : Prop :=
  ∃ fr record, frame_ok fr ∧ _ftype fr = ALARM ∧ identity_of fr = id
    ∧ decode_reliable_payload fr = Some (Some record)
    ∧ file f (alarm_path root INBOX fr) = Some (frame_bytes fr)
    ∧ ingested l id record
    ∧ ((∃ frame, SawKept frame true ∈ l ∧ identity_of frame = id) →
        ∃ i, durable_entry f (alarm_path root INBOX fr) i).

(** A response on its way. *)
Definition write_ok (l : list Obs) (fd : Z) (write : PendingWrite) : Prop :=
  ∃ response, SawQueue fd response ∈ l ∧ frame_ok response
    ∧ _pbytes write = frame_bytes response ∧ 0 <= _offset write < ♯(_pbytes write).

Record client_ok (l : list Obs) (c : Client) : Prop := {
  cl_fd : 0 <= _fd c;
  cl_decoder : decoder_ok (_decoder c);
  cl_activity : 0 <= _last_activity c <= CLOCK_MAX;
  cl_writes : Forall (write_ok l (_fd c)) (_writes c)
}.

Record inv (w : CWorld U) : Prop := {
  inv_spool : ∃ s, _spool (col w) = Some s ∧ _sroot s = root ∧ kind_of s = INBOX
                   ∧ ready_in s (fs (sys w));
  inv_accepted id : id ∈ _accepted (col w) → secured (fs (sys w)) (log w) id;
  inv_kept id : id ∈ kept_ids (log w) ↔ id ∈ _accepted (col w);
  inv_once : NoDup (kept_ids (log w));
  inv_acks : acks_ordered (log w);
  inv_clients : Forall (client_ok (log w)) (_clients (col w));
  inv_script : Forall event_ok (script w)
}.

Record trans (w : CWorld U) (l : list Obs) (w' : CWorld U) : Prop := {
  tr_inv : inv w';
  tr_log : log w' = log w ++ l;
  tr_script : (length (script w') <= length (script w))%nat
}.

Lemma col_trans_refl w : inv w → trans w [] w.
Proof. split; [done|by rewrite app_nil_r|done]. Qed.

Lemma col_trans_trans w l w1 k w2 : trans w l w1 → trans w1 k w2 → trans w (l ++ k) w2.
Proof. intros [I1 L1 S1] [I2 L2 S2]. split; [done|by rewrite L2, L1, app_assoc|lia]. Qed.

#[local] Instance collector_histories : Histories (CWorld U) Obs inv trans.
Proof. split; [apply tr_inv|apply col_trans_refl|apply col_trans_trans]. Qed.
#[local] Abbreviation wpp := (hoare trans).

Lemma write_ok_app l k fd write : write_ok l fd write → write_ok (l ++ k) fd write.
Proof. intros (r & Hin & H'). exists r. split; [|done]. apply elem_of_app. by left. Qed.

Lemma client_ok_app l k c : client_ok l c → client_ok (l ++ k) c.
Proof. intros [F D A W]. split; [done..|]. eapply Forall_impl; [exact W|]. intros. by apply write_ok_app. Qed.

(** An observation that is not an acceptance. *)
Lemma secured_app f l k id :
  kept_ids k = [] → secured f l id → secured f (l ++ k) id.
Proof.
  intros Hk (fr & record & ? & ? & ? & ? & ? & Hi & Hd). exists fr, record.
  do 5 (split; [done|]). split; [by apply ingested_app|]. intros (frame & [Hin|Hin]%elem_of_app & Hid).
  - apply Hd. by exists frame.
  - exfalso. assert (identity_of frame ∈ kept_ids k) as Hx; [|rewrite Hk in Hx; by apply not_elem_of_nil in Hx].
    apply list_elem_of_omap. by exists (SawKept frame true).
Qed.

(** ** The primitives *)

(** The disk, the connections and the accepted alarms are the same. *)
Record still (w w' : CWorld U) : Prop := {
  still_sys : sys w' = sys w;
  still_spool : _spool (col w') = _spool (col w);
  still_clients : _clients (col w') = _clients (col w);
  still_accepted : _accepted (col w') = _accepted (col w)
}.

Lemma still_refl w : still w w.
Proof. by split. Qed.
Lemma still_trans w w1 w2 : still w w1 → still w1 w2 → still w w2.
Proof. intros [] []. split; congruence. Qed.

Lemma still_inv w w' :
  inv w → still w w' → log w' = log w → Forall event_ok (script w') → inv w'.
Proof.
  intros [S A K O Q C E] [Hf Hs Hc Ha] Hl E'. by split; rewrite ?Hl, ?Hf, ?Hs, ?Hc, ?Ha.
Qed.

Lemma act_still o w : still w (act o w).
Proof.
  destruct o as [|phase|data ts force]; cbn; [by split..|].
  destruct (update_data_at _ _ _ _ _ _) as [[r en] u]. by split.
Qed.

Lemma act_script o (w : CWorld U) : script (act o w) = script w ∧ log (act o w) = log w.
Proof.
  destruct o as [|phase|data ts force]; cbn; [done..|].
  by destruct (update_data_at _ _ _ _ _ _) as [[r en] u].
Qed.

Lemma act_stop o (w : CWorld U) : _stop (col w) = true → _stop (col (act o w)) = true.
Proof.
  destruct o as [|phase|data ts force]; cbn; [done..|].
  by destruct (update_data_at _ _ _ _ _ _) as [[r en] u].
Qed.

Lemma acts_still os : ∀ w : CWorld U, still w (foldl (flip act) w os)
  ∧ (script (foldl (flip act) w os) = script w ∧ log (foldl (flip act) w os) = log w)
  ∧ (_stop (col w) = true ∨ OuterStop ∈ os → _stop (col (foldl (flip act) w os)) = true).
Proof.
  induction os as [|o os IH]; intros w; cbn [foldl].
  { split; [apply still_refl|]. split; [done|]. intros [?|?%not_elem_of_nil]; done. }
  change (flip act w o) with (act o w). destruct (IH (act o w)) as (S & [Hs Hl] & Hst).
  destruct (act_script o w) as [Hs' Hl'].
  split; [by eapply still_trans; [apply act_still|]|]. split; [split; congruence|].
  intros [?|[<-|?]%elem_of_cons]; apply Hst; [left; by apply act_stop|by left|by right].
Qed.

Lemma event_ok_last : event_ok last_event.
Proof. split; cbn; [unfold CLOCK_MAX; lia|dlia|constructor]. Qed.

(** One interaction: the script gets shorter, or it is over. *)
Lemma wpp_event keep Q w :
  inv w →
  (∀ e w', trans w [] w' → inv w' → still w w' → event_ok e →
     (length (script w') < length (script w))%nat
     ∨ e = last_event ∧ (keep OuterStop = true → _stop (col w') = true) → Q e [] w') →
  wpp (take_event keep) Q w.
Proof.
  intros I HQ. exists []. cbn [take_event fst snd]. unfold take_event. cbn [fst snd].
  set (e := default last_event (head (script w))).
  set (w0 := mkCWorld (col w) (engine w) (outside w) (sys w) (tail (script w)) (log w)).
  destruct (acts_still (filter (λ o, keep o = true) (e_outer e)) w0) as (S & [Hs Hl] & Hst).
  set (w1 := foldl _ w0 _) in *.
  assert (still w w1) as S1 by (eapply still_trans; [|exact S]; by split).
  pose proof (inv_script _ I) as Hok.
  assert (inv w1) as I1.
  { apply (still_inv w); [done..|]. rewrite Hs. cbn. destruct (script w); [done|]. by inversion Hok. }
  assert (event_ok e) as He.
  { subst e. destruct (script w); cbn; [apply event_ok_last|by inversion Hok]. }
  assert (trans w [] w1) as T1.
  { split; [done|by rewrite Hl, app_nil_r|]. rewrite Hs. cbn. destruct (script w); cbn; lia. }
  split; [done|]. apply HQ; try done. rewrite Hs. cbn [script w0].
  destruct (script w) as [|e0 l] eqn:El; cbn; [|left; lia].
  right. split; [done|]. intros Hkeep. apply Hst. right. apply list_elem_of_filter. split; [done|]. by left.
Qed.

Lemma col_wpp_tick Q w :
  inv w →
  (∀ e w', trans w [] w' → inv w' → still w w' → event_ok e →
     (length (script w') < length (script w))%nat ∨ e = last_event ∧ _stop (col w') = true →
     Q e [] w') →
  wpp tick Q w.
Proof.
  intros I HQ. apply wpp_event; [done|]. intros e w' T I' S He Hor. apply HQ; try done.
  destruct Hor as [?|[? ?]]; [by left|right; auto].
Qed.

Lemma col_wpp_get Q w : inv w → Q (col w) [] w → wpp get_impl Q w.
Proof. apply hoare_ret. Qed.

Lemma col_wpp_modify g Q w :
  inv w → inv (with_col g w) → Q tt [] (with_col g w) → wpp (modify g) Q w.
Proof. intros I I' HQ. exists []. split; [|done]. split; [done|by rewrite app_nil_r|done]. Qed.

(** A change of the flags or of the counters. *)
Record tame (g : Impl → Impl) (i : Impl) : Prop := {
  tame_spool : _spool (g i) = _spool i;
  tame_clients : _clients (g i) = _clients i;
  tame_accepted : _accepted (g i) = _accepted i
}.

Lemma wpp_tame g Q w :
  inv w → tame g (col w) →
  (trans w [] (with_col g w) → inv (with_col g w) → still w (with_col g w) → Q tt [] (with_col g w)) →
  wpp (modify g) Q w.
Proof.
  intros I [Gs Gc Ga] HQ.
  assert (still w (with_col g w)) as S by by split; cbn.
  assert (inv (with_col g w)) as I' by (by apply (still_inv w); [..|apply (inv_script _ I)]).
  apply col_wpp_modify; [done..|]. apply HQ; [|done..]. split; [done|by rewrite app_nil_r|done].
Qed.

Definition log_with (o : Obs) (w : CWorld U) : CWorld U :=
  mkCWorld (col w) (engine w) (outside w) (sys w) (script w) (log w ++ [o]).

Definition no_kept (o : Obs) : Prop := match o with SawKept _ _ => False | _ => True end.

Lemma inv_log_with o w :
  inv w → no_kept o →
  (∀ fd response, o = SawQueue fd response → _ftype response = ACK →
     identity_of response ∈ _accepted (col w)) →
  inv (log_with o w).
Proof.
  intros [S A K O Q C E] Ho Hq. assert (kept_ids [o] = []) as Hk by by destruct o.
  split; cbn [log_with col sys log script]; try done.
  - intros id Hid. apply secured_app; [done|by apply A].
  - intros id. by rewrite kept_ids_app, Hk, app_nil_r.
  - by rewrite kept_ids_app, Hk, app_nil_r.
  - apply acks_ordered_snoc; [done|]. intros fd response -> Ht. apply K. by eapply Hq.
  - eapply Forall_impl; [exact C|]. intros c. apply client_ok_app.
Qed.

Lemma col_wpp_obs o Q w :
  inv w → no_kept o →
  (∀ fd response, o = SawQueue fd response → _ftype response = ACK →
     identity_of response ∈ _accepted (col w)) →
  (inv (log_with o w) → Q tt [o] (log_with o w)) → wpp (record_obs o) Q w.
Proof.
  intros I Ho Hq HQ. pose proof (inv_log_with o w I Ho Hq) as I'. exists [o].
  split; [|by apply HQ]. by split.
Qed.

(** An observation of the network. *)
Definition plain_obs (o : Obs) : Prop :=
  match o with SawKept _ _ | SawQueue _ _ => False | _ => True end.

Lemma wpp_plain_obs o Q w :
  inv w → plain_obs o → (inv (log_with o w) → Q tt [o] (log_with o w)) → wpp (record_obs o) Q w.
Proof. intros I Ho HQ. apply col_wpp_obs; [done|by destruct o|by intros; subst|done]. Qed.

(** Computations that do no more than talk to the network, read clocks and set
    flags or counters. *)
Definition mild {A} (m : Col A) : Prop :=
  ∀ w, inv w → wpp m (λ _ l w', Forall plain_obs l ∧ still w w') w.

Lemma mild_ret {A} (x : A) : mild (mret x).
Proof. intros w I. apply hoare_ret; [done|]. split; [constructor|apply still_refl]. Qed.

Lemma mild_throw {A} e : mild (A := A) (throw e).
Proof. intros w I. by apply hoare_throw. Qed.

Lemma mild_bind {A B} (m : Col A) (k : A → Col B) : mild m → (∀ x, mild (k x)) → mild (m ≫= k).
Proof.
  intros Hm Hk w I. apply hoare_bind. eapply hoare_mono; [by apply Hm|]. intros x l w' T I' [Hl S].
  eapply hoare_mono; [by apply Hk|]. intros y l' w'' _ _ [Hl' S'].
  split; [by apply Forall_app|by eapply still_trans].
Qed.

Lemma mild_each {X S A} (body : S → X → Col (S + A)) l : ∀ s,
  (∀ s x, mild (body s x)) → mild (each body l s).
Proof.
  induction l as [|x l IH]; intros s Hb; cbn [each]; [apply mild_ret|].
  apply mild_bind; [apply Hb|]. intros [s'|a]; [by apply IH|apply mild_ret].
Qed.

Lemma mild_catch {A} (m : Col A) h : mild m → nothrow m → mild (catch m h).
Proof.
  intros Hm Hn w I. by apply hoare_catch_nothrow, Hm.
Qed.

Lemma mild_event keep : mild (take_event keep).
Proof. intros w I. apply wpp_event; [done|]. intros. by split; [constructor|]. Qed.

Lemma mild_tick : mild tick.
Proof. apply mild_event. Qed.
Lemma mild_tick_alone : mild tick_alone.
Proof. apply mild_event. Qed.

Lemma mild_get : mild get_impl.
Proof. intros w I. apply col_wpp_get; [done|]. split; [constructor|apply still_refl]. Qed.

Lemma mild_modify g : (∀ i, tame g i) → mild (modify g).
Proof. intros Hg w I. apply wpp_tame; [done|done|]. intros. by split; [constructor|]. Qed.

Lemma mild_obs o : plain_obs o → mild (record_obs o).
Proof.
  intros Ho w I. apply wpp_plain_obs; [done..|]. intros I'.
  split; [by apply Forall_singleton|by split].
Qed.

Lemma mild_bad_alloc {A} : mild (A := A) bad_alloc.
Proof. apply mild_bind; [by apply mild_obs|]. intros _. apply mild_throw. Qed.

#[local] Hint Resolve mild_tick mild_tick_alone mild_get mild_bad_alloc : mild.

Lemma tame_count g i : tame (count g) i.
Proof. by split. Qed.
Lemma tame_setup e i : tame (set_setup_error e) i.
Proof. by split. Qed.
Lemma tame_stream_failure r i : tame (record_stream_failure r) i.
Proof. unfold record_stream_failure. by repeat case_match; split. Qed.
#[local] Hint Resolve tame_count tame_setup tame_stream_failure : mild.

(** Splits a computation into its calls. *)
Ltac mildly :=
  repeat (intros; cbv beta zeta; lazymatch goal with
    | |- mild (_ ≫= _) => apply mild_bind
    | |- mild (mret _) => apply mild_ret
    | |- mild (each _ _ _) => apply mild_each
    | |- mild (throw _) => apply mild_throw
    | |- mild (record_obs _) => apply mild_obs; exact Logic.I
    | |- mild (modify _) => apply mild_modify
    | |- mild (match ?x with _ => _ end) => destruct x
    | |- mild _ => solve [auto with mild]
    | |- tame _ _ => first [solve [auto with mild] | by split]
    end).

Lemma mild_stopping : mild stopping.
Proof. unfold stopping. mildly. Qed.
Lemma mild_clock : mild clock_now.
Proof. unfold clock_now. mildly. Qed.
Lemma mild_allocate : mild allocate_memory.
Proof. unfold allocate_memory. mildly. Qed.
Lemma mild_close_fd fd : mild (close_fd fd).
Proof. unfold close_fd. mildly. Qed.
#[local] Hint Resolve mild_stopping mild_clock mild_allocate mild_close_fd : mild.

Lemma mild_close_client c : mild (close_client c).
Proof. unfold close_client, shutdown_close. mildly. Qed.
Lemma mild_nonblocking call : mild call → mild (set_nonblocking_and_cloexec call).
Proof. intros Hc. unfold set_nonblocking_and_cloexec. mildly. Qed.
#[local] Hint Resolve mild_close_client mild_nonblocking : mild.

Lemma mild_ingest call frame record : mild call → mild (ingest call frame record).
Proof.
  intros Hc. unfold ingest. apply mild_bind; [done|]. intros e. case_match; [mildly|].
  apply mild_bind; [|mildly]. intros w I. unfold on_engine. exists [].
  destruct (ingest_decoded_record _ _ _ _ _ _) as [[r en] u]. cbn [fst snd].
  assert (still w (mkCWorld (col w) en u (sys w) (script w) (log w))) as S by by split.
  split; [|by split; [constructor|]]. split; [|by rewrite app_nil_r|done].
  apply (still_inv w); try done. exact (inv_script _ I).
Qed.

(** *** Interactions with their answers *)

Lemma col_wpp_stopping Q w :
  inv w →
  (∀ b w', trans w [] w' → inv w' → still w w' → _stop (col w') = b →
     (length (script w') < length (script w))%nat ∨ b = true → Q b [] w') →
  wpp stopping Q w.
Proof.
  intros I HQ. unfold stopping. apply hoare_bind, col_wpp_tick; [done|]. intros e w' T I' S _ Hor.
  apply hoare_bind, col_wpp_get; [done|]. apply hoare_ret; [done|]. apply HQ; [done..|].
  destruct Hor as [?|[_ ?]]; auto.
Qed.

Lemma col_wpp_clock Q w :
  inv w →
  (∀ now w', trans w [] w' → inv w' → still w w' → 0 <= now <= CLOCK_MAX → Q now [] w') →
  wpp clock_now Q w.
Proof.
  intros I HQ. unfold clock_now. apply hoare_bind, col_wpp_tick; [done|]. intros e w' T I' S He _.
  apply hoare_ret; [done|]. apply HQ; [done..|]. by apply ok_now.
Qed.

(** [recv]: what it stores, or an error that another answer gave. *)
Lemma col_wpp_recv fd size Q w :
  inv w →
  (∀ r l w', trans w l w' → inv w' → still w w' → Forall plain_obs l →
     match r with
     | inl b => bytes_ok b ∧ (length b <= size)%nat
     | inr e => (length (script w') < length (script w))%nat ∨ e = EIO
     end → Q r l w') →
  wpp (recv fd size) Q w.
Proof.
  intros I HQ. unfold recv. apply hoare_bind, col_wpp_tick; [done|]. intros e w1 T1 I1 S1 He Hor.
  destruct (e_ret e <? 0).
  { apply hoare_ret; [done|]. apply HQ; [done..|constructor|]. destruct Hor as [?|[-> _]]; auto. }
  apply hoare_bind, wpp_plain_obs; [done..|]. intros I2. apply hoare_ret; [done|].
  apply HQ; [|done|by eapply still_trans; [|split]|by repeat constructor|].
  - destruct T1. split; [done|cbn; by rewrite tr_log0, app_nil_r|done].
  - split; [apply Forall_take, (ok_bytes _ He)|]. rewrite length_take. lia.
Qed.

Lemma col_wpp_send fd data Q w :
  inv w →
  (∀ r l w', trans w l w' → inv w' → still w w' → Forall plain_obs l →
     match r with
     | inl n => 0 <= n <= ♯data
     | inr e => (length (script w') < length (script w))%nat ∨ e = EIO
     end → Q r l w') →
  wpp (send fd data) Q w.
Proof.
  intros I HQ. unfold send. apply hoare_bind, col_wpp_tick; [done|]. intros e w1 T1 I1 S1 He Hor.
  destruct (e_ret e <? 0).
  { apply hoare_ret; [done|]. apply HQ; [done..|constructor|]. destruct Hor as [?|[-> _]]; auto. }
  apply hoare_bind, wpp_plain_obs; [done..|]. intros I2. apply hoare_ret; [done|].
  apply HQ; [|done|by eapply still_trans; [|split]|by repeat constructor|].
  - destruct T1. split; [done|cbn; by rewrite tr_log0, app_nil_r|done].
  - unfold Zlen. rewrite length_take. lia.
Qed.

(** The loops of the wake-up pipe. *)
Lemma wpp_syscall Q w :
  inv w →
  (∀ a w', trans w [] w' → inv w' → still w w' →
     (length (script w') < length (script w))%nat ∨ a_ret a = -1 ∧ a_errno a = EIO → Q a [] w') →
  wpp syscall Q w.
Proof.
  intros I HQ. cbn [syscall Col_syscalls]. apply hoare_bind, col_wpp_tick; [done|].
  intros e w1 T1 I1 S1 He Hor. apply hoare_ret; [done|]. apply HQ; [done..|].
  destruct Hor as [?|[-> _]]; auto.
Qed.

Lemma mild_drain p : mild (drain p).
Proof.
  intros w I. unfold drain. case_match; [by apply mild_ret|].
  apply (hoare_loop _ (λ _ l w', l = [] ∧ still w w')); [done|by split; [|apply still_refl]|].
  intros _ l0 w0 T0 I0 [-> S0]. apply hoare_bind, wpp_syscall; [done|]. intros a w1 T1 I1 S1 Hor.
  assert (still w w1) by by eapply still_trans.
  destruct (0 <? a_ret a) eqn:E1; ztests.
  { apply hoare_ret; [done|]. split; [|done]. destruct Hor as [?|[? _]]; [done|lia]. }
  destruct (a_ret a =? 0); [by apply hoare_ret|].
  destruct (a_errno a =? EINTR) eqn:E2; ztests.
  { apply hoare_ret; [done|]. split; [|done]. destruct Hor as [?|[_ He]]; [done|].
    rewrite He in E2. done. }
  destruct (a_errno a =? EAGAIN); by apply hoare_ret.
Qed.

Lemma mild_wakeup p : mild (wakeup p).
Proof.
  intros w I. unfold wakeup. case_match; [by apply mild_ret|].
  apply (hoare_loop _ (λ _ l w', l = [] ∧ still w w')); [done|by split; [|apply still_refl]|].
  intros _ l0 w0 T0 I0 [-> S0]. apply hoare_bind, wpp_syscall; [done|]. intros a w1 T1 I1 S1 Hor.
  assert (still w w1) by by eapply still_trans.
  destruct (a_ret a =? 1); [by apply hoare_ret|].
  destruct ((a_ret a =? -1) && (a_errno a =? EINTR)) eqn:E2.
  { apply hoare_ret; [done|]. split; [|done]. apply andb_true_iff in E2 as [_ E2]. ztests.
    destruct Hor as [?|[_ He]]; [done|]. rewrite He in E2. done. }
  destruct ((a_ret a =? -1) && (a_errno a =? EAGAIN)); by apply hoare_ret.
Qed.
#[local] Hint Resolve mild_drain mild_wakeup mild_ingest : mild.

(** *** The inbox *)

Definition id_path (id : AlarmIdentity) : path :=
  alarm_dir root INBOX id.1 ++ [alarm_filename id.1 id.2].

(** The file is as it was, and as durable. *)
Definition spared (q : path) (f g : FS) : Prop :=
  file g q = file f q ∧ ∀ i, durable_entry f q i → durable_entry g q i.

Lemma untouched_spared q f g : untouched q f g → spared q f g.
Proof. intros [Hf Hp]. split; [done|]. intros i Hd v Hv. by apply Hd, Hp. Qed.

Lemma secured_spared f g l id : spared (id_path id) f g → secured f l id → secured g l id.
Proof.
  intros [Hf Hd] (fr & record & ? & ? & <- & ? & Hfile & ? & Hdur). exists fr, record.
  do 4 (split; [done|]). split; [by rewrite <- Hfile|]. split; [done|].
  intros Hk. destruct (Hdur Hk) as [i Hi]. exists i. by apply Hd.
Qed.

(** The world after an operation of the spool. *)
Definition after_spool (s : AlarmSpool) (v : World) (w : CWorld U) : CWorld U :=
  mkCWorld (set_spool s (col w)) (engine w) (outside w) v (script w) (log w).

Lemma inv_after_spool s s' v w :
  inv w → _spool (col w) = Some s → same_spool s s' → good s (fs (sys w)) (fs v) →
  (∀ id, id ∈ _accepted (col w) → spared (id_path id) (fs (sys w)) (fs v)) →
  inv (after_spool s' v w).
Proof.
  intros [S A K O Q C E] Hs Hss Hg Hsp. split; cbn; auto.
  - destruct S as (s0 & Hs0 & Hr & Hk & R). rewrite Hs in Hs0. injection Hs0 as <-.
    exists s'. pose proof Hss as (H1 & H2 & _). unfold kind_of. rewrite H1, H2.
    do 3 (split; [done|]). eapply same_spool_ready; [done|]. apply Hg.
  - intros id Hid. eapply secured_spared; [by apply Hsp|by apply A].
Qed.

Lemma wpp_spool {A} (m : AlarmSpool → Sys (A * AlarmSpool)) (R : A → World → Prop) s Q w :
  inv w → _spool (col w) = Some s →
  wp (m s) (λ r v, same_spool s r.2 ∧ good s (fs (sys w)) (fs v) ∧ R r.1 v
     ∧ ∀ id, id ∈ _accepted (col w) → spared (id_path id) (fs (sys w)) (fs v)) (sys w) →
  (∀ x s' v, trans w [] (after_spool s' v w) → inv (after_spool s' v w) → R x v →
     Q x [] (after_spool s' v w)) →
  wpp (on_spool m) Q w.
Proof.
  intros I Hs Hm HQ. unfold hoare, on_spool. rewrite Hs. unfold wp in Hm.
  destruct (m s (sys w)) as [[x s'] v]. cbn [fst snd] in *. destruct Hm as (Hss & Hg & HR & Hsp).
  pose proof (inv_after_spool s s' v w I Hs Hss Hg Hsp) as I'. exists [].
  assert (trans w [] (after_spool s' v w)) as T by (split; [done|by rewrite app_nil_r|done]).
  split; [done|]. by apply HQ.
Qed.

(** The alarms the collector has accepted are not at the path of another one. *)
Lemma accepted_elsewhere w id frame :
  inv w → id ∈ _accepted (col w) → frame_ok frame → identity_of frame ∉ _accepted (col w) →
  id_path id ≠ alarm_path root INBOX frame.
Proof.
  intros I Hid Hf Hn He. destruct (inv_accepted _ I id Hid) as (fr & record & Hfr & _ & <- & _).
  apply (alarm_path_inj root INBOX fr frame) in He as [H1 H2]; [|done..].
  apply Hn. replace (identity_of frame) with (identity_of fr); [done|]. unfold identity_of. congruence.
Qed.

Lemma accepted_inside w id s :
  inv w → _spool (col w) = Some s → is_inside (_data_directory s) (id_path id)
  ∧ _sroot s = root ∧ kind_of s = INBOX ∧ ready_in s (fs (sys w)).
Proof.
  intros I Hs. destruct (inv_spool _ I) as (s0 & Hs0 & Hr & Hk & R). rewrite Hs in Hs0.
  injection Hs0 as <-. split; [|done]. rewrite (rd_data _ _ R), Hr, Hk.
  apply (alarm_path_inside root INBOX (mkFrame ALARM id.1 id.2 0 [])).
Qed.

(** An operation on the file of an alarm that is not accepted. *)
Lemma spared_addressed w id frame s v :
  inv w → _spool (col w) = Some s → id ∈ _accepted (col w) → frame_ok frame →
  identity_of frame ∉ _accepted (col w) →
  addressed s (alarm_path root INBOX frame) (fs (sys w)) v → spared (id_path id) (fs (sys w)) v.
Proof.
  intros I Hs Hid Hf Hn Ha. destruct (accepted_inside w id s I Hs) as (Hin & Hr & Hk & R).
  apply untouched_spared, Ha; [done|]. intros Hl.
  eapply accepted_elsewhere; [done..|]. eapply lookup_alarm; [done| | |exact Hl].
  - rewrite (rd_data _ _ R), Hr, Hk. apply alarm_path_inside.
  - rewrite <- Hr, <- Hk. by eapply alarm_path_plain.
Qed.

Lemma frame_bytes_inj a b : frame_ok a → frame_ok b → frame_bytes a = frame_bytes b → a = b.
Proof.
  intros Ha Hb He. apply (f_equal (decoded_frame true)) in He.
  rewrite !decoded_frame_bytes in He by done. by injection He.
Qed.

(** What is at the path of [frame] when a read of it succeeds. *)
Definition on_disk (f : FS) (frame fr : AlarmFrame) : Prop :=
  frame_ok fr ∧ _ftype fr = ALARM ∧ identity_of fr = identity_of frame
  ∧ file f (alarm_path root INBOX frame) = Some (frame_bytes fr).

Lemma wpp_read_alarm frame Q w :
  inv w → frame_ok frame → identity_of frame ∉ _accepted (col w) →
  (∀ r s' v, trans w [] (after_spool s' v w) → inv (after_spool s' v w) →
     (_rdstatus r = SP_SUCCESS → ∃ fr, on_disk (fs v) frame fr
        ∧ _rdpath r = Some (alarm_path root INBOX frame) ∧ _rdbytes r = frame_bytes fr) →
     Q r [] (after_spool s' v w)) →
  wpp (on_spool (asking (λ s, AlarmSpool.read s (alarm_path root INBOX frame)))) Q w.
Proof.
  intros I Hf Hn HQ. destruct (inv_spool _ I) as (s & Hs & Hr & Hk & R).
  eapply (wpp_spool _ (λ r v, _rdstatus r = SP_SUCCESS → ∃ fr, on_disk (fs v) frame fr
     ∧ _rdpath r = Some (alarm_path root INBOX frame) ∧ _rdbytes r = frame_bytes fr)); [done..| |].
  - apply wp_bind. eapply wp_mono; [by apply wp_read|]. cbn. intros r v [[Hg Ha] [Hok _]].
    apply wp_ret. cbn. split; [apply same_spool_refl|]. split; [done|]. split.
    + intros Hst. destruct (Hok Hst) as [Hv (q & i & fr & Hl & Hp & He & Hc & Hq & Hfr & Ht & Hb)].
      assert (q = alarm_path root INBOX frame) as ->.
      { eapply lookup_alarm; [done| | |exact Hl].
        - rewrite (rd_data _ _ R), Hr, Hk. apply alarm_path_inside.
        - rewrite <- Hr, <- Hk. by eapply alarm_path_plain. }
      exists fr. split; [|done]. rewrite Hr, Hk in Hq.
      apply alarm_path_inj in Hq as [H1 H2]; [|done..].
      split; [done|]. split; [done|]. split; [unfold identity_of; congruence|].
      unfold file. by rewrite Hv, He, Hc.
    + intros id Hid. by eapply spared_addressed.
  - intros r s' v T I' HR. by apply HQ.
Qed.

Lemma wpp_quarantine_alarm frame Q w :
  inv w → frame_ok frame → identity_of frame ∉ _accepted (col w) →
  (∀ r s' v, trans w [] (after_spool s' v w) → inv (after_spool s' v w) →
     Q r [] (after_spool s' v w)) →
  wpp (on_spool (asking (λ s, quarantine s (alarm_path root INBOX frame)))) Q w.
Proof.
  intros I Hf Hn HQ. destruct (inv_spool _ I) as (s & Hs & Hr & Hk & R).
  eapply (wpp_spool _ (λ _ _, True)); [done..| |by intros; apply HQ].
  apply wp_bind. eapply wp_mono; [by apply wp_quarantine|]. cbn. intros r v [[Hg Ha] _].
  apply wp_ret. cbn. split; [apply same_spool_refl|]. split; [done|]. split; [done|].
  intros id Hid. by eapply spared_addressed.
Qed.

(** Storing an alarm that is not accepted. *)
Lemma wpp_store frame Q w :
  inv w → frame_ok frame → _ftype frame = ALARM → identity_of frame ∉ _accepted (col w) →
  (∀ r s' v, trans w [] (after_spool s' v w) → inv (after_spool s' v w) →
     match _ststatus r with
     | SP_SUCCESS => on_disk (fs v) frame frame
                     ∧ ∃ i, durable_entry (fs v) (alarm_path root INBOX frame) i
     | SP_DUPLICATE => _stpath r = Some (alarm_path root INBOX frame)
     | _ => True
     end → Q r [] (after_spool s' v w)) →
  wpp (spool_store pid frame (frame_bytes frame)) Q w.
Proof.
  intros I Hf Ht Hn HQ. destruct (inv_spool _ I) as (s & Hs & Hr & Hk & R).
  eapply (wpp_spool _ (λ r v, match _ststatus r with
     | SP_SUCCESS => on_disk (fs v) frame frame
                     ∧ ∃ i, durable_entry (fs v) (alarm_path root INBOX frame) i
     | SP_DUPLICATE => _stpath r = Some (alarm_path root INBOX frame)
     | _ => True end)); [done..| |by auto].
  pose proof (frame_bytes_ok frame Hf) as Hok.
  pose proof (λ id i, wp_store_durable pid s (_source_id frame) (_message_id frame) (frame_bytes frame)
    (id_path id) i (sys w) R Hok (proj1 (accepted_inside w id s I Hs))) as Hdur.
  pose proof (wp_store pid s (_source_id frame) (_message_id frame) (frame_bytes frame) (sys w) R Hok)
    as Hst. unfold wp in *. destruct (store _ _ _ _ _ _) as [[r s'] v]. cbn [fst snd] in *.
  destruct Hst as [(Hg & Ho & Hst) Hss]. rewrite Hr, Hk in Ho, Hst.
  change (alarm_dir root INBOX (_source_id frame) ++ _) with (alarm_path root INBOX frame) in *.
  split; [done|]. split; [done|]. split.
  - destruct (_ststatus r); try done; [|by destruct Hst as (_ & ? & _)].
    destruct Hst as (fr & i & _ & _ & _ & _ & _ & _ & _ & Hp & Hc & _ & _).
    assert (durable_entry (fs v) (alarm_path root INBOX frame) i) as Hd.
    { intros u Hu. rewrite Hp in Hu. by apply list_elem_of_singleton in Hu. }
    split; [|by exists i]. do 3 (split; [done|]). unfold file. by rewrite (durable_entry_now _ _ _ Hd).
  - intros id Hid. split; [|by intros i Hd; apply Hdur].
    apply Ho; [by apply (accepted_inside w id s I Hs)|]. by apply (accepted_elsewhere w).
Qed.

(** *** Alarms *)

Lemma wpp_bad_alloc {A} (Q : A → list Obs → CWorld U → Prop) w : inv w → wpp bad_alloc Q w.
Proof. intros I. apply hoare_bind, wpp_plain_obs; [done..|]. intros I'. by apply hoare_throw. Qed.

Lemma decode_reliable_defined frame :
  frame_ok frame → ∃ o, decode_reliable_payload frame = Some o.
Proof.
  intros (_ & _ & _ & _ & _ & Hp). unfold decode_reliable_payload. case_match; [by eauto|].
  destruct (decode_v2_safe _ Hp) as [r ->]. cbn. by eauto.
Qed.

Lemma wpp_decode_payload call frame Q w :
  inv w → mild call → frame_ok frame →
  (∀ o l w', trans w l w' → inv w' → Forall plain_obs l → still w w' →
     decode_reliable_payload frame = Some o → Q o l w') →
  wpp (decode_payload call frame) Q w.
Proof.
  intros I Hc Hf HQ. unfold decode_payload. apply hoare_bind. eapply hoare_mono; [by apply Hc|].
  intros e l w' T I' [Hl S]. destruct (e_alloc e).
  - destruct (decode_reliable_defined frame Hf) as [o Ho]. eapply hoare_defined; [done..|].
    rewrite app_nil_r. by apply HQ.
  - by apply wpp_bad_alloc.
Qed.

Lemma wpp_decode_frame call b Q w :
  inv w → mild call → bytes_ok b →
  (∀ o l w', trans w l w' → inv w' → Forall plain_obs l → still w w' →
     (∀ fr, o = Some fr → frame_ok fr ∧ b = frame_bytes fr) → Q o l w') →
  wpp (decode_frame call b) Q w.
Proof.
  intros I Hc Hb HQ. unfold decode_frame. apply hoare_bind. eapply hoare_mono; [by apply Hc|].
  intros e l w' T I' [Hl S]. destruct (decode_alarm_frame_safe (e_alloc e) b Hb) as (r & Hr & Hcase).
  apply hoare_bind. eapply hoare_defined; [done..|]. apply hoare_ret; [done|]. rewrite app_nil_r.
  apply HQ; [done..|]. intros fr. case_decide; [|rewrite Hcase; by case_match].
  destruct Hcase as (f & -> & Hf & He & _). cbn. intros [= <-]. done.
Qed.

(** Answers to requests. *)
Lemma control_frame_ok type request :
  frame_ok request → type = ACK ∨ type = PONG → frame_ok (control_frame type request).
Proof.
  intros (_ & ? & ? & ? & ? & _) Ht. split; [by destruct Ht as [-> | ->]|].
  do 4 (split; [done|]). constructor.
Qed.

(** A computation on a connection: it stays in order and keeps its descriptor. *)
Definition serves (c : Client) (m : Col (bool * Client)) (w : CWorld U) : Prop :=
  wpp m (λ r _ w', client_ok (log w') r.2 ∧ _fd r.2 = _fd c) w.

Lemma serves_ret c b w : inv w → client_ok (log w) c → serves c (mret (b, c)) w.
Proof. intros I Hc. by apply hoare_ret. Qed.

Lemma client_later c l w w' : trans w l w' → client_ok (log w) c → client_ok (log w') c.
Proof. intros T Hc. rewrite (tr_log _ _ _ T). by apply client_ok_app. Qed.

Lemma serves_after {A} c (m : Col A) k w :
  inv w → client_ok (log w) c → wpp m (λ x l w', serves c (k x) w') w → serves c (m ≫= k) w.
Proof.
  intros I Hc Hm. apply hoare_bind. eapply hoare_mono; [exact Hm|]. intros x l w' T I' Hk. exact Hk.
Qed.

Lemma serves_mild {A} c (m : Col A) k w :
  inv w → client_ok (log w) c → mild m →
  (∀ x w', inv w' → still w w' → client_ok (log w') c → serves c (k x) w') → serves c (m ≫= k) w.
Proof.
  intros I Hc Hm Hk. apply serves_after; [done..|]. eapply hoare_mono; [by apply Hm|].
  intros x l w' T I' [_ S]. apply Hk; [done..|]. by eapply client_later.
Qed.

Lemma serves_queue c type request w :
  inv w → client_ok (log w) c → frame_ok request → type = ACK ∨ type = PONG →
  (type = ACK → identity_of request ∈ _accepted (col w)) →
  serves c (queue_control c type request) w.
Proof.
  intros I Hc Hr Ht Ha. pose proof (control_frame_ok type request Hr Ht) as Hf. unfold queue_control.
  apply serves_mild; [done..|apply mild_tick|]. intros e w1 I1 S1 Hc1.
  destruct (encoded_defined (e_alloc e) _ Hf) as (o & Ho & Hor).
  apply serves_after; [done..|]. eapply hoare_defined; [done..|].
  destruct Hor as [-> | ->]; [by apply serves_ret|].
  apply serves_mild; [done..|apply mild_tick|]. intros e2 w2 I2 S2 Hc2.
  destruct (e_alloc e2); cbn [negb]; [|by apply serves_ret].
  apply serves_after; [done..|]. apply col_wpp_obs; [done|exact Logic.I| |].
  { intros fd response [= _ <-] Hack. change (identity_of (control_frame type request)) with (identity_of request).
    rewrite (still_accepted _ _ S2), (still_accepted _ _ S1). by apply Ha. }
  intros I3. apply hoare_ret; [done|]. split; [|done]. cbn [snd log log_with].
  pose proof (client_ok_app _ [SawQueue (_fd c) (control_frame type request)] _ Hc2) as [F D A W].
  split; cbn [push_write _decoder _last_activity _fd _writes]; [done..|]. apply Forall_app. split; [done|].
  apply Forall_singleton. exists (control_frame type request). split; [apply elem_of_app; right; by left|].
  do 2 (split; [done|]). cbn [_offset _pbytes]. rewrite frame_bytes_size by done.
  pose proof (frame_ok_payload _ Hf). unfold ALARM_HEADER_SIZE. lia.
Qed.

(** The file of an alarm and the record it carries. *)
Definition durable_record (f : FS) (frame fr : AlarmFrame) (record : DecodedRecord) : Prop :=
  on_disk f frame fr ∧ decode_reliable_payload fr = Some (Some record).

Lemma wpp_load frame Q w :
  inv w → frame_ok frame → identity_of frame ∉ _accepted (col w) →
  (∀ o l w', trans w l w' → inv w' → _accepted (col w') = _accepted (col w) →
     (∀ record, o = Some record → ∃ fr, durable_record (fs (sys w')) frame fr record) → Q o l w') →
  wpp (load_persisted_record (alarm_path root INBOX frame)) Q w.
Proof.
  intros I Hf Hn HQ. unfold load_persisted_record. apply hoare_bind, wpp_read_alarm; [done..|].
  intros r s1 v1 T1 I1 Hok. unfold read_success. case_bool_decide as Hst; cbn [negb].
  2:{ apply hoare_ret; [done|]. by apply HQ. }
  destruct (Hok Hst) as (fr & Hd & Hp & Hb). rewrite Hb, Hp. destruct Hd as (Hfr & Ht & Hid & Hfile).
  apply hoare_bind, wpp_decode_frame; [done|apply mild_tick|by apply frame_bytes_ok|].
  intros o l2 w2 T2 I2 _ S2 Ho. pose proof (still_accepted _ _ S2) as Ha2. cbn in Ha2.
  pose proof (col_trans_trans _ _ _ _ _ T1 T2) as T12.
  destruct o as [fr'|]; [|apply hoare_ret; [done|]; rewrite app_nil_r; by apply HQ].
  destruct (Ho fr' eq_refl) as [Hfr' He]. apply frame_bytes_inj in He as <-; [|done..].
  apply hoare_bind, wpp_decode_payload; [done|apply mild_tick|done|].
  intros o l3 w3 T3 I3 _ S3 Hdec. pose proof (still_accepted _ _ S3) as Ha3.
  pose proof (col_trans_trans _ _ _ _ _ T12 T3) as T123. rewrite <- app_assoc in T123.
  destruct o as [record|].
  - apply hoare_ret; [done|]. rewrite app_nil_r. apply HQ; [done|done|congruence|].
    intros record' [= <-]. exists fr. split; [|done].
    do 3 (split; [done|]). by rewrite (still_sys _ _ S3), (still_sys _ _ S2).
  - apply hoare_bind, hoare_bind, wpp_quarantine_alarm; [done|done|congruence|].
    intros r4 s4 v4 T4 I4. apply hoare_ret; [done|]. apply hoare_ret; [done|]. rewrite !app_nil_r.
    apply HQ; [|done|cbn; congruence|done].
    pose proof (col_trans_trans _ _ _ _ _ T123 T4) as T. by rewrite app_nil_r in T.
Qed.

Lemma wpp_persist frame incoming Q w :
  inv w → frame_ok frame → _ftype frame = ALARM → identity_of frame ∉ _accepted (col w) →
  decode_reliable_payload frame = Some (Some incoming) →
  (∀ o l w', trans w l w' → inv w' → _accepted (col w') = _accepted (col w) →
     (∀ duplicate record, o = Some (duplicate, record) →
        ∃ fr, durable_record (fs (sys w')) frame fr record
          ∧ (duplicate = false →
             ∃ i, durable_entry (fs (sys w')) (alarm_path root INBOX frame) i)) → Q o l w') →
  wpp (persist pid frame incoming (frame_bytes frame)) Q w.
Proof.
  intros I Hf Ht Hn Hdec HQ. unfold persist. apply hoare_bind, wpp_store; [done..|].
  intros r s1 v1 T1 I1 Hst.
  assert (∀ l w2, trans w l w2 → inv w2 → _accepted (col w2) = _accepted (col w) →
    wpp (_ ← modify record_persist_failure; mret None) (λ o l' w', Q o (l ++ l') w') w2) as Hfail.
  { intros l w2 T2 I2 Ha. apply hoare_bind, wpp_tame; [done|by split|]. intros T3 I3 S3.
    apply hoare_ret; [done|]. rewrite !app_nil_r. apply HQ; [|done| |done].
    - pose proof (col_trans_trans _ _ _ _ _ T2 T3) as T. by rewrite app_nil_r in T.
    - by rewrite (still_accepted _ _ S3). }
  destruct (_ststatus r); try by (eapply hoare_mono; [by apply (Hfail [])|]).
  - destruct Hst as (Hd & Hdur). apply hoare_ret; [done|]. apply HQ; [done..|].
    intros duplicate record [= <- <-]. by exists frame.
  - rewrite Hst. apply hoare_bind, wpp_tame; [done|by split|]. intros T2 I2 S2.
    pose proof (col_trans_trans _ _ _ _ _ T1 T2) as T12.
    apply hoare_bind, wpp_load; [done|done|by rewrite (still_accepted _ _ S2)|].
    intros o l3 w3 T3 I3 Ha3 Ho. rewrite (still_accepted _ _ S2) in Ha3.
    pose proof (col_trans_trans _ _ _ _ _ T12 T3) as T. cbn [app] in *.
    destruct o as [record|]; [|by apply Hfail].
    apply hoare_ret; [done|]. rewrite app_nil_r. apply HQ; [done..|].
    intros duplicate record' [= <- <-]. destruct (Ho record eq_refl) as [fr Hfr]. exists fr. by split.
Qed.

Lemma wpp_ingest call frame record Q w :
  inv w → mild call →
  (∀ r l w', trans w l w' → inv w' → still w w' → SawIngest frame record (_ustatus r) ∈ l → Q r l w') →
  wpp (ingest call frame record) Q w.
Proof.
  intros I Hc HQ. unfold ingest. apply hoare_bind. eapply hoare_mono; [by apply Hc|].
  intros e l w1 T1 I1 [_ S1]. destruct (e_alloc e); cbn [negb]; [|by apply wpp_bad_alloc].
  apply hoare_bind. exists []. unfold on_engine.
  destruct (ingest_decoded_record _ _ _ _ _ _) as [[r en] u]. cbn [fst snd].
  set (w2 := mkCWorld (col w1) en u (sys w1) (script w1) (log w1)).
  assert (still w1 w2) as S2 by by split.
  assert (inv w2) as I2 by (apply (still_inv w1); try done; exact (inv_script _ I1)).
  assert (trans w1 [] w2) as T2 by (split; [done|by rewrite app_nil_r|done]).
  split; [done|]. destruct r as [r|]; [|by apply wpp_bad_alloc].
  apply hoare_bind, wpp_plain_obs; [done..|]. intros I3. apply hoare_ret; [done|]. cbn [app].
  apply HQ; [|done| |apply elem_of_app; right; by left].
  - assert (trans w2 [SawIngest frame record (_ustatus r)] (log_with (SawIngest frame record (_ustatus r)) w2)) as T3 by by split.
    exact (col_trans_trans _ _ _ _ _ T1 (col_trans_trans _ _ _ _ _ T2 T3)).
  - eapply still_trans; [exact S1|]. eapply still_trans; [exact S2|]. by split.
Qed.

Lemma wpp_insert frame fresh Q w :
  inv w → identity_of frame ∉ _accepted (col w) →
  secured (fs (sys w)) (log w ++ [SawKept frame fresh]) (identity_of frame) →
  (∀ w', trans w [SawKept frame fresh] w' → inv w' → sys w' = sys w →
     _accepted (col w') = {[identity_of frame]} ∪ _accepted (col w) → Q tt [SawKept frame fresh] w') →
  wpp (insert_accepted frame fresh) Q w.
Proof.
  intros I Hn Hsec HQ. exists [SawKept frame fresh]. unfold insert_accepted. cbn [fst snd].
  set (w' := mkCWorld _ _ _ _ _ _).
  assert (inv w') as I'.
  { pose proof I as [S A K O Q' C E].
    assert (kept_ids [SawKept frame fresh] = [identity_of frame]) as Hk by done.
    split; unfold w'; cbn [col sys log script _spool _accepted _clients accept_identity]; try done.
    - intros id [->%elem_of_singleton|Hid]%elem_of_union; [done|].
      destruct (A id Hid) as (fr & record & ? & ? & He & ? & ? & Hi & Hd). exists fr, record.
      do 5 (split; [done|]). split; [by apply ingested_app|].
      intros (frame' & [Hin|Hin]%elem_of_app & Hf).
      + apply Hd. by exists frame'.
      + apply list_elem_of_singleton in Hin as [= -> <-]. by rewrite Hf in Hn.
    - intros id. rewrite kept_ids_app, elem_of_app, Hk, list_elem_of_singleton, K, elem_of_union,
        elem_of_singleton. tauto.
    - rewrite kept_ids_app, Hk. apply NoDup_app. split; [done|]. split; [|apply NoDup_singleton].
      intros id Hid ->%list_elem_of_singleton. by apply Hn, K.
    - by apply acks_ordered_snoc.
    - eapply Forall_impl; [exact C|]. intros c. apply client_ok_app. }
  assert (trans w [SawKept frame fresh] w') as T by by split.
  split; [done|]. by apply HQ.
Qed.

Lemma serves_accept c frame incoming w :
  inv w → client_ok (log w) c → frame_ok frame → _ftype frame = ALARM →
  identity_of frame ∉ _accepted (col w) →
  decode_reliable_payload frame = Some (Some incoming) →
  serves c (accept_alarm pid c frame incoming) w.
Proof.
  intros I Hc Hf Ht Hn Hdec. unfold accept_alarm.
  apply serves_mild; [done..|apply mild_tick|]. intros e w1 I1 S1 Hc1.
  destruct (encoded_defined (e_alloc e) _ Hf) as (o & Ho & Hor).
  apply serves_after; [done..|]. eapply hoare_defined; [done..|].
  destruct Hor as [-> | ->]; [by apply serves_ret|].
  apply serves_after; [done..|]. apply wpp_persist; [done..|by rewrite (still_accepted _ _ S1)|done|].
  intros p l2 w2 T2 I2 Ha2 Hp. pose proof (client_later _ _ _ _ T2 Hc1) as Hc2.
  destruct p as [[duplicate record]|]; [|by apply serves_ret].
  destruct (Hp duplicate record eq_refl) as (fr & ((Hfr & Hta & Hid & Hfile) & Hrec) & Hdur).
  apply serves_after; [done..|]. apply wpp_ingest; [done|apply mild_tick|]. intros r l3 w3 T3 I3 S3 Hin.
  pose proof (client_later _ _ _ _ T3 Hc2) as Hc3.
  destruct (ingest_succeeded (_ustatus r)) eqn:Eok; cbn [negb]; [|by apply serves_ret].
  apply serves_after; [done..|]. eapply hoare_mono; [by apply mild_allocate|].
  intros _ l4 w4 T4 I4 [_ S4]. pose proof (client_later _ _ _ _ T4 Hc3) as Hc4.
  pose proof (still_trans _ _ _ S3 S4) as S34.
  assert (identity_of frame ∉ _accepted (col w4)) as Hn4.
  { by rewrite (still_accepted _ _ S34), Ha2, (still_accepted _ _ S1). }
  assert (alarm_path root INBOX fr = alarm_path root INBOX frame) as Hpath.
  { injection Hid as H1 H2. unfold alarm_path. by rewrite H1, H2. }
  apply serves_after; [done..|]. apply wpp_insert; [done..| |].
  { exists fr, record. do 4 (split; [done|]). rewrite Hpath, (still_sys _ _ S34). split; [done|]. split.
    - apply ingested_app. rewrite (tr_log _ _ _ T4). apply ingested_app. exists frame, (_ustatus r).
      split; [|done]. rewrite (tr_log _ _ _ T3). apply elem_of_app. by right.
    - intros (frame' & Hk & Hid'). destruct duplicate; [|by apply Hdur]. exfalso.
      apply elem_of_app in Hk as [Hk|Hk]; [|by apply list_elem_of_singleton in Hk].
      apply Hn4, (inv_kept _ I4), list_elem_of_omap. exists (SawKept frame' true). by rewrite <- Hid'. }
  intros w5 T5 I5 _ Hin5. pose proof (client_later _ _ _ _ T5 Hc4) as Hc5.
  apply serves_mild; [done..|destruct duplicate; mildly|]. intros [] w6 I6 S6 Hc6.
  apply serves_queue; auto. intros _. rewrite (still_accepted _ _ S6), Hin5.
  apply elem_of_union. left. by apply elem_of_singleton.
Qed.

Lemma serves_alarm c frame w :
  inv w → client_ok (log w) c → frame_ok frame → _ftype frame = ALARM →
  serves c (process_alarm pid c frame) w.
Proof.
  intros I Hc Hf Ht. unfold process_alarm. apply hoare_catch; cycle 1.
  { intros e l w' T I'. apply hoare_ret; [done|]. split; [|done]. by eapply client_later. }
  apply serves_after; [done..|]. apply wpp_decode_payload; [done|apply mild_tick|done|].
  intros o l1 w1 T1 I1 _ S1 Hdec. pose proof (client_later _ _ _ _ T1 Hc) as Hc1.
  destruct o as [incoming|]; cycle 1.
  { apply serves_mild; [done..|mildly|]. intros [] w2 I2 _ Hc2. by apply serves_ret. }
  apply serves_after; [done..|]. apply col_wpp_get; [done|]. case_bool_decide as Hin.
  - apply serves_mild; [done..|mildly|]. intros [] w2 I2 S2 Hc2. apply serves_queue; auto.
    intros _. by rewrite (still_accepted _ _ S2).
  - by apply serves_accept.
Qed.

Lemma serves_frame c frame w :
  inv w → client_ok (log w) c → frame_ok frame → serves c (process_frame pid c frame) w.
Proof.
  intros I Hc Hf. unfold process_frame.
  assert (∀ b, serves c (_ ← modify record_protocol_error; mret (b, c)) w) as Herr.
  { intros b. apply serves_mild; [done..|mildly|]. intros [] w2 I2 _ Hc2. by apply serves_ret. }
  destruct (_ftype frame) eqn:Et; [by apply serves_alarm|by apply Herr| |by apply Herr|by apply serves_ret].
  apply serves_queue; auto. done.
Qed.

(** *** Connections *)

Lemma client_set_decoder l c d : decoder_ok d → client_ok l c → client_ok l (set_decoder c d).
Proof. by intros Hd [F D A W]. Qed.
Lemma client_set_activity l c now :
  0 <= now <= CLOCK_MAX → client_ok l c → client_ok l (set_activity c now).
Proof. by intros Hd [F D A W]. Qed.
Lemma client_close_read l c : client_ok l c → client_ok l (close_read c).
Proof. by intros [F D A W]. Qed.
Lemma client_mark_close l c : client_ok l c → client_ok l (mark_close c).
Proof. by intros [F D A W]. Qed.
#[local] Hint Resolve client_set_decoder client_set_activity client_close_read client_mark_close : mild.

(** The same descriptor under another state of the connection. *)
Lemma serves_same c c' m w : _fd c' = _fd c → serves c' m w → serves c m w.
Proof. intros He Hm. eapply hoare_mono; [exact Hm|]. cbn. intros r l w' _ _ [? ?]. split; congruence. Qed.

(** No more than eight frames can be completed by one read. *)
Lemma chunk_frames (b : bytes) (fs : list AlarmFrame) :
  (length b <= Z.to_nat CLIENT_READ_CHUNK)%nat → fs = [] ∨ 48 * (♯fs - 1) < ♯b →
  ♯fs <= MAX_FRAMES_PER_CLIENT_ROUND.
Proof.
  unfold CLIENT_READ_CHUNK, MAX_FRAMES_PER_CLIENT_ROUND, ALARM_HEADER_SIZE.
  intros Hb [->|Hn]; unfold Zlen in *; cbn in *; lia.
Qed.

Lemma serves_feed c b w :
  inv w → client_ok (log w) c → bytes_ok b → serves c (feed_client pid c b) w.
Proof.
  intros I Hc Hb. unfold feed_client. apply serves_after; [done..|]. apply col_wpp_clock; [done|].
  intros now w1 T1 I1 S1 Hnow. pose proof (client_later _ _ _ _ T1 Hc) as Hc1. cbv zeta.
  set (c1 := set_activity c now).
  assert (client_ok (log w1) c1) as Hc1' by by apply client_set_activity.
  apply (serves_same c c1); [done|]. apply serves_mild; [done..|apply mild_tick|].
  intros e w2 I2 S2 Hc2. destruct (feed_total (e_feed e) (_decoder c1) b (cl_decoder _ _ Hc2) Hb)
    as (d & r & Hfeed & Hd & Hfs & _). apply serves_after; [done..|]. eapply hoare_defined; [done..|].
  set (c2 := set_decoder c1 d). assert (client_ok (log w2) c2) as Hc2' by by apply client_set_decoder.
  apply (serves_same c1 c2); [done|].
  destruct (feed_success r); cbn [negb]; cycle 1.
  { apply serves_mild; [done..|mildly|]. intros [] w3 I3 _ Hc3. by apply serves_ret. }
  destruct (_ <? _); [by apply serves_ret|].
  apply hoare_bind.
  eapply hoare_mono; [apply (hoare_each _ (λ rest c' _ w', Forall frame_ok rest ∧ client_ok (log w') c'
      ∧ _fd c' = _fd c2) (λ r _ w', match r with inl c' | inr c' => client_ok (log w') c'
      ∧ _fd c' = _fd c2 end)); [done|split; [exact Hfs|by split]| |]|].
  - intros frame rest c' l0 w0 T0 I0 (Hr & Hc0 & Hfd). apply Forall_cons in Hr as [Hf Hr].
    apply hoare_bind. eapply hoare_mono; [by apply serves_frame|]. cbn. intros [ok c''] l w' T' I' [Hc'' Hfd''].
    cbn in *. destruct ok; (apply hoare_ret; [done|]); repeat (split; [done|]); congruence.
  - by intros c' l w' _ _ (_ & ? & ?).
  - cbn. intros [c'|c'] l w' _ I' Hc'; by apply hoare_ret.
Qed.

Lemma serves_finish c w : inv w → client_ok (log w) c → serves c (finish_client c) w.
Proof.
  intros I Hc. unfold finish_client. pose proof (finish_ok _ (cl_decoder _ _ Hc)) as Hd.
  destruct (finish (_decoder c)) as [d r]. cbn [fst] in Hd. cbv zeta.
  set (c1 := set_decoder c d). assert (client_ok (log w) c1) as Hc1 by by apply client_set_decoder.
  apply (serves_same c c1); [done|]. destruct (feed_success r); cbn [negb].
  - apply hoare_ret; [done|]. split; [by apply client_close_read|done].
  - apply serves_mild; [done..|mildly|]. intros [] w3 I3 _ Hc3. by apply serves_ret.
Qed.

(** A round that was interrupted. *)
Lemma wpp_interrupted {A} (x : A) e l0 w0 w1 Q :
  trans w0 l0 w1 → inv w1 → (length (script w1) < length (script w0))%nat ∨ e = EIO → e = EINTR →
  (∀ r l w', trans w1 l w' → inv w' →
     (r = inr x ∨ r = inl tt ∧ (length (script w') < length (script w0))%nat) → Q r l w') →
  wpp (stop ← stopping; mret (if stop : bool then inr x else inl tt)) Q w1.
Proof.
  intros T I Hor He HQ. apply hoare_bind, col_wpp_stopping; [done|]. intros b w' T' I' _ _ Hb.
  apply hoare_ret; [done|]. apply HQ; [done..|]. pose proof (tr_script _ _ _ T').
  destruct b; [by left|right]. split; [done|]. destruct Hor as [?|Hx]; [lia|]. by rewrite He in Hx.
Qed.

Lemma serves_read c w : inv w → client_ok (log w) c → serves c (read_client pid c) w.
Proof.
  intros I Hc. apply (hoare_loop _ (λ _ _ _, True)); [done..|].
  intros _ l0 w0 T0 I0 _. pose proof (client_later _ _ _ _ T0 Hc) as Hc0.
  apply hoare_bind, col_wpp_recv; [done|]. intros r l1 w1 T1 I1 S1 _ Hr.
  pose proof (client_later _ _ _ _ T1 Hc0) as Hc1. destruct r as [[|x b]|e].
  - apply hoare_bind. eapply hoare_mono; [by apply serves_finish|]. cbn. intros. by apply hoare_ret.
  - apply hoare_bind. eapply hoare_mono; [by apply serves_feed; [|  |apply Hr]|].
    cbn. intros. by apply hoare_ret.
  - destruct (e =? EINTR) eqn:Ee; ztests; [|by apply hoare_ret].
    eapply wpp_interrupted; [done..|]. intros r l w' T' I' [->|[-> ?]]; [|done].
    split; [|done]. cbn. by eapply client_later.
Qed.

Lemma serves_write c w : inv w → client_ok (log w) c → serves c (write_client c) w.
Proof.
  intros I Hc. unfold write_client. destruct (_writes c) as [|write rest] eqn:Ew; [by apply serves_ret|].
  apply (hoare_loop _ (λ _ _ _, True)); [done..|].
  intros _ l0 w0 T0 I0 _. pose proof (client_later _ _ _ _ T0 Hc) as Hc0.
  apply hoare_bind, col_wpp_send; [done|]. intros r l1 w1 T1 I1 S1 _ Hr.
  pose proof (client_later _ _ _ _ T1 Hc0) as Hc1. destruct r as [n|e].
  - destruct (0 <? n) eqn:En; ztests; [|by apply hoare_ret].
    apply hoare_bind, col_wpp_clock; [done|]. intros now w2 T2 I2 S2 Hnow.
    pose proof (client_later _ _ _ _ T2 Hc1) as [F D A W]. apply hoare_ret; [done|]. split; [|done].
    split; cbn; [done..|]. rewrite Ew in W. apply Forall_cons in W as [Hw Hrest].
    destruct (_ =? _) eqn:Eoff; [done|]. ztests. constructor; [|done].
    destruct Hw as (response & Hin & Hf & Hb & Hoff). exists response. do 3 (split; [done|]). cbn.
    unfold Zlen in *. rewrite length_drop in Hr. lia.
  - destruct (e =? EINTR) eqn:Ee; ztests; [|by apply hoare_ret].
    eapply wpp_interrupted; [done..|]. intros r l w' T' I' [->|[-> ?]]; [|done].
    split; [|done]. cbn. by eapply client_later.
Qed.

(** *** A round *)

(** The connections are left alone, however the computation ends: the list is
    the same and no descriptor was accepted or closed. *)
Definition no_fd (o : Obs) : Prop :=
  match o with SawAccept _ | SawClose _ => False | _ => True end.
Definition same_clients (w w' : CWorld U) : Prop :=
  _clients (col w') = _clients (col w) ∧ ∃ l, log w' = log w ++ l ∧ Forall no_fd l.

#[local] Instance same_clients_preorder : PreOrder same_clients.
Proof.
  split.
  - intros w. split; [done|]. exists []. by rewrite app_nil_r.
  - intros w w1 w2 [H1 (l & Hl & Fl)] [H2 (k & Hk & Fk)]. split; [congruence|].
    exists (l ++ k). by rewrite Hk, Hl, app_assoc, Forall_app.
Qed.

Lemma same_still w w' : still w w' → log w' = log w → same_clients w w'.
Proof. intros S Hl. split; [apply S|]. exists []. by rewrite app_nil_r. Qed.

Lemma same_event keep : respects same_clients (take_event keep).
Proof.
  intros w. unfold take_event. cbn [snd]. set (e := default _ _). set (w0 := mkCWorld _ _ _ _ _ _).
  destruct (acts_still (filter (λ o, keep o = true) (e_outer e)) w0) as (S & [_ Hl] & _).
  apply same_still; [|exact Hl]. eapply still_trans; [|exact S]. by split.
Qed.
Lemma same_tick : respects same_clients tick.
Proof. apply same_event. Qed.
Lemma same_get : respects same_clients get_impl.
Proof. intros w. cbn. reflexivity. Qed.
Lemma same_obs o : no_fd o → respects same_clients (record_obs o).
Proof. intros Ho w. split; [done|]. exists [o]. by repeat constructor. Qed.
Lemma same_modify g : (∀ i, _clients (g i) = _clients i) → respects same_clients (modify g).
Proof. intros Hg w. split; [apply Hg|]. exists []. by rewrite app_nil_r. Qed.
Lemma same_count g : respects same_clients (modify (count g)).
Proof. by apply same_modify. Qed.
Lemma same_insert frame fresh : respects same_clients (insert_accepted frame fresh).
Proof. intros w. split; [done|]. exists [SawKept frame fresh]. by repeat constructor. Qed.
Lemma same_spool_op {A} (m : AlarmSpool → Sys (A * AlarmSpool)) : respects same_clients (on_spool m).
Proof.
  intros w. unfold on_spool. destruct (_spool (col w)); [|cbn; reflexivity].
  destruct (m _ _) as [[? ?] ?]. split; [done|]. exists []. by rewrite app_nil_r.
Qed.
Lemma same_engine {A} (m : Engine U → U → A * Engine U * U) : respects same_clients (on_engine m).
Proof.
  intros w. unfold on_engine. destruct (m _ _) as [[? ?] ?]. split; [done|]. exists []. by rewrite app_nil_r.
Qed.
#[local] Hint Resolve same_tick same_get same_count same_insert same_spool_op same_engine : respect.
#[local] Hint Extern 1 (respects _ (record_obs _)) => apply same_obs; exact Logic.I : respect.

Lemma same_ingest frame record : respects same_clients (ingest tick frame record).
Proof. unfold ingest, bad_alloc. respectful. Qed.
Lemma same_queue c t frame : respects same_clients (queue_control c t frame).
Proof. unfold queue_control. respectful. Qed.
#[local] Hint Resolve same_ingest same_queue : respect.

Lemma same_load p : respects same_clients (load_persisted_record p).
Proof. unfold load_persisted_record, decode_frame, decode_payload, bad_alloc. respectful. Qed.
#[local] Hint Resolve same_load : respect.

Lemma same_persist frame incoming wire : respects same_clients (persist pid frame incoming wire).
Proof. unfold persist, spool_store. respectful; by apply same_modify. Qed.
#[local] Hint Resolve same_persist : respect.

Lemma same_alarm c frame : respects same_clients (process_alarm pid c frame).
Proof.
  unfold process_alarm, accept_alarm, decode_payload, allocate_memory, bad_alloc.
  respectful; by apply same_modify.
Qed.
#[local] Hint Resolve same_alarm : respect.

Lemma same_read c : respects same_clients (read_client pid c).
Proof.
  unfold read_client, recv, stopping, feed_client, finish_client, clock_now, process_frame.
  respectful; apply same_modify; intros i; try done;
    unfold record_stream_failure; by repeat case_match.
Qed.
Lemma same_write c : respects same_clients (write_client c).
Proof. unfold write_client, send, stopping, clock_now. respectful. Qed.
#[local] Hint Resolve same_read same_write : respect.

Lemma same_serve c events : respects same_clients (serve_client pid config c events).
Proof. unfold serve_client, clock_now. respectful. Qed.

Lemma client_timeout_bounds : 0 < _client_timeout config * NS_PER_MS < CLOCK_MAX.
Proof.
  destruct Hcfg as [Hv Ht]. split; [|done]. unfold valid_config in Hv.
  apply andb_true_iff in Hv as [_ Hv]. ztests. unfold NS_PER_MS. lia.
Qed.

Lemma client_deadline_defined l c :
  client_ok l c → ∃ d, client_deadline config c = Some d ∧ 0 <= d <= 2 * CLOCK_MAX - 1.
Proof.
  intros [_ _ A _]. pose proof client_timeout_bounds as Ht. unfold client_deadline, i64_mul, i64_add.
  unfold CLOCK_MAX in *. rewrite i64_check_ok by dlia. cbn [mbind option_bind].
  rewrite i64_check_ok by dlia. eexists. split; [done|]. lia.
Qed.

Lemma idle_defined l c now :
  client_ok l c → 0 <= now <= CLOCK_MAX → ∃ b, idle_too_long config c now = Some b.
Proof.
  intros [_ _ A _] Hn. pose proof client_timeout_bounds as Ht. unfold idle_too_long, i64_mul, i64_sub.
  unfold CLOCK_MAX in *. rewrite i64_check_ok by dlia. cbn [mbind option_bind].
  rewrite i64_check_ok by dlia. by eexists.
Qed.

(** The wait never exceeds the time to the earliest deadline by a millisecond. *)
Lemma poll_timeout_defined ds now :
  Forall (λ d, 0 <= d <= 2 * CLOCK_MAX - 1) ds → 0 <= now <= CLOCK_MAX →
  ∃ t, poll_timeout ds now = Some t.
Proof.
  intros Hd Hn. unfold poll_timeout. destruct ds as [|d ds]; [by eauto|].
  apply Forall_cons in Hd as [Hd Hds].
  assert (0 <= foldl Z.min d ds <= 2 * CLOCK_MAX - 1) as Hm.
  { revert d Hd. induction Hds as [|x ds Hx _ IH]; intros d Hd; [done|]. cbn. apply IH. lia. }
  destruct (_ <=? now) eqn:E; [by eauto|]. ztests. unfold i64_sub, CLOCK_MAX in *.
  rewrite i64_check_ok by dlia. cbn. by eauto.
Qed.

(** A connection after one of its computations. *)
Definition served (c : Client) (c' : Client) (w' : CWorld U) : Prop :=
  client_ok (log w') c' ∧ _fd c' = _fd c.

Lemma wpp_serve_step c (m : Col (bool * Client)) w :
  serves c m w →
  wpp (r ← m; let '(ok, c) := r in mret (if ok : bool then c else mark_close c))
      (λ c' _ w', served c c' w') w.
Proof.
  intros Hm. apply hoare_bind. eapply hoare_mono; [exact Hm|]. intros [ok c'] l w' T I [Hc Hfd].
  cbn in *. apply hoare_ret; [done|]. destruct ok; (split; [|done]); [done|by apply client_mark_close].
Qed.

Lemma wpp_serve c events w :
  inv w → client_ok (log w) c →
  wpp (serve_client pid config c events) (λ c' _ w', served c c' w') w.
Proof.
  intros I Hc. unfold serve_client.
  assert (∀ (b : bool) m c0 w0, inv w0 → client_ok (log w0) c0 → _fd c0 = _fd c →
    (∀ w0, inv w0 → client_ok (log w0) c0 → serves c0 m w0) →
    wpp (if b then r ← m; let '(ok, c) := r in mret (if ok : bool then c else mark_close c)
         else mret c0) (λ c' _ w', served c c' w') w0) as Hstep.
  { intros b m c0 w0 I0 Hc0 Hfd Hm. destruct b; [|by apply hoare_ret].
    eapply hoare_mono; [by apply (wpp_serve_step c0), Hm|]. intros c' l w' _ _ [? ?]. split; congruence || done. }
  apply hoare_bind. eapply hoare_mono; [apply (Hstep _ _ c); auto using serves_read|].
  cbv beta. intros c1 l1 w1 _ I1 [Hc1 Hf1].
  apply hoare_bind. eapply hoare_mono; [apply (Hstep _ _ c1); auto using serves_write|].
  cbv beta. intros c2 l2 w2 _ I2 [Hc2 Hf2].
  apply hoare_bind. eapply hoare_mono; [apply (Hstep _ _ c2); auto using serves_read|].
  cbv beta zeta. intros c3 l3 w3 _ I3 [Hc3 Hf3].
  match goal with |- hoare _ (if negb (_close ?x) then _ else _) _ _ => set (c5 := x) end.
  assert (client_ok (log w3) c5 ∧ _fd c5 = _fd c) as [Hc5 Hf5].
  { subst c5. repeat case_match; cbn; auto using client_mark_close. }
  clearbody c5. destruct (_close c5); cbn [negb]; [by apply hoare_ret|].
  apply hoare_bind, col_wpp_clock; [done|]. intros now w4 T4 I4 S4 Hnow.
  pose proof (client_later _ _ _ _ T4 Hc5) as Hc6.
  destruct (idle_defined _ _ now Hc6 Hnow) as [b Hb].
  apply hoare_bind. eapply hoare_defined; [done..|]. apply hoare_ret; [done|].
  destruct b; (split; [|done]); auto using client_mark_close.
Qed.

Lemma inv_set_clients l w :
  inv w → Forall (client_ok (log w)) l → inv (with_col (set_clients l) w).
Proof. by intros [S A K O Q C E] Hl. Qed.

Lemma serve_clients_ok revents w :
  inv w → wpp (serve_clients pid config revents) (λ _ _ _, True) w.
Proof.
  intros I. unfold serve_clients. apply hoare_bind, col_wpp_get; [done|]. set (n := length (_clients (col w))).
  apply (hoare_each _ (λ rest _ _ w', Forall (λ i, (i < n)%nat) rest ∧ length (_clients (col w')) = n));
    [done| | |done].
  { split; [|done]. apply Forall_forall. intros i Hi. apply elem_of_seq in Hi. lia. }
  intros index rest [] l0 w0 T0 I0 [Hr Hn]. apply Forall_cons in Hr as [Hi Hr].
  apply hoare_bind, col_wpp_get; [done|]. destruct (_clients (col w0) !! index) as [c|] eqn:Ec; cycle 1.
  { exfalso. apply lookup_ge_None in Ec. lia. }
  assert (client_ok (log w0) c) as Hc.
  { eapply Forall_lookup_1; [by apply inv_clients|done]. }
  apply hoare_bind. eapply hoare_mono.
  { apply hoare_respects; [by apply wpp_serve|apply same_serve]. }
  cbv beta. intros c' l1 w1 T1 I1 [[Hc' _] Hsame].
  apply hoare_bind, col_wpp_modify; [done|apply inv_set_clients; [done|]|].
  { apply Forall_insert; [by apply inv_clients|done]. }
  apply hoare_ret.
  { apply inv_set_clients; [done|]. apply Forall_insert; [by apply inv_clients|done]. }
  split; [done|]. cbn. rewrite length_insert. by rewrite (proj1 Hsame).
Qed.

Lemma wpp_poll_wait ds Q w :
  inv w → Forall (λ d, 0 <= d <= 2 * CLOCK_MAX - 1) ds →
  (∀ o l w', trans w l w' → inv w' → Forall plain_obs l → still w w' →
     (length (script w') < length (script w))%nat ∨ o = None → Q o l w') →
  wpp (poll_wait ds) Q w.
Proof.
  intros I Hd HQ. unfold poll_wait.
  apply (hoare_loop _ (λ _ l w', Forall plain_obs l ∧ still w w'));
    [done|split; [constructor|apply still_refl]|].
  intros _ l0 w0 T0 I0 [Hl0 S0]. apply hoare_bind.
  assert (wpp (if bool_decide (ds = []) then mret 0 else clock_now)
    (λ now l w', l = [] ∧ still w0 w' ∧ 0 <= now <= CLOCK_MAX) w0) as Hnow.
  { case_bool_decide; [apply hoare_ret; [done|]; split; [done|]; split; [apply still_refl|unfold CLOCK_MAX; lia]|].
    apply col_wpp_clock; [done|]. by intros now w' _ _ S Hn. }
  eapply hoare_mono; [exact Hnow|]. cbv beta. intros now l1 w1 T1 I1 (-> & S1 & Hn).
  destruct (poll_timeout_defined ds now Hd Hn) as [t Ht].
  apply hoare_bind. eapply hoare_defined; [done..|].
  apply hoare_bind, wpp_plain_obs; [done..|]. intros I2.
  assert (trans w1 [SawPoll t] (log_with (SawPoll t) w1)) as T2 by by split.
  apply hoare_bind, col_wpp_tick; [done|]. intros e w3 T3 I3 S3 He Hor.
  assert (still w w3) as S.
  { eapply still_trans; [exact S0|]. eapply still_trans; [exact S1|].
    eapply still_trans; [|exact S3]. by split. }
  pose proof (col_trans_trans _ _ _ _ _ T0 (col_trans_trans _ _ _ _ _ T1 (col_trans_trans _ _ _ _ _ T2 T3))) as T.
  pose proof (tr_script _ _ _ T0). pose proof (tr_script _ _ _ T1).
  pose proof (tr_script _ _ _ T2) as Hs2. pose proof (tr_script _ _ _ T3) as Hs3. cbn in Hs2, Hs3.
  assert (Forall plain_obs (l0 ++ [SawPoll t])) as Hplain by (apply Forall_app; split; [done|by repeat constructor]).
  cbn [app] in *.
  destruct (0 <=? e_ret e) eqn:E1.
  { apply hoare_ret; [done|]. apply HQ; [done..|]. destruct Hor as [Hlt|[-> _]]; [left; cbn in Hlt; lia|done]. }
  destruct (e_errno e =? EINTR) eqn:E2; [|apply hoare_ret; [done|]; apply HQ; auto].
  apply hoare_bind, col_wpp_stopping; [done|]. intros b w4 T4 I4 S4 _ Hb.
  assert (still w w4) as S5 by by eapply still_trans.
  pose proof (col_trans_trans _ _ _ _ _ T T4) as T5. rewrite app_nil_r in T5. pose proof (tr_script _ _ _ T4).
  apply hoare_ret; [done|]. cbn [app]. destruct b.
  - apply HQ; auto.
  - split; [|done]. unfold script_left, Col_scripted.
    destruct Hor as [Hlt|[-> _]]; [cbn in Hlt; lia|done].
Qed.

Lemma mild_close_each l : mild (close_each l).
Proof.
  unfold close_each. mildly.
Qed.
#[local] Hint Resolve mild_close_each : mild.

Lemma wpp_set_clients g w :
  inv w → (∀ i, Forall (client_ok (log w)) (_clients i) → Forall (client_ok (log w)) (g i)) →
  wpp (modify (λ i, set_clients (g i) i)) (λ _ _ _, True) w.
Proof.
  intros I Hg. assert (inv (with_col (set_clients (g (col w))) w)) as I'.
  { apply inv_set_clients; [done|]. by apply Hg, inv_clients. }
  by apply col_wpp_modify.
Qed.

(** Connected pieces of which nothing more needs to be known. *)
Definition safe {A} (m : Col A) : Prop := ∀ w, inv w → wpp m (λ _ _ _, True) w.

Lemma col_safe_bind {A B} (m : Col A) (k : A → Col B) : safe m → (∀ x, safe (k x)) → safe (m ≫= k).
Proof.
  intros Hm Hk w I. apply hoare_bind. eapply hoare_mono; [by apply Hm|]. intros x l w' _ I' _.
  by eapply hoare_mono; [apply Hk|].
Qed.

Lemma mild_safe {A} (m : Col A) : mild m → safe m.
Proof. intros Hm w I. by eapply hoare_mono; [apply Hm|]. Qed.

Lemma safe_close_marked : safe close_marked_clients.
Proof.
  unfold close_marked_clients. apply col_safe_bind; [apply mild_safe, mild_get|]. intros i.
  apply col_safe_bind; [apply mild_safe, mild_close_each|]. intros _.
  apply col_safe_bind; [|intros _; apply mild_safe; mildly].
  intros w I. apply wpp_set_clients; [done|]. intros j Hj. apply Forall_forall. intros c [_ Hc]%list_elem_of_filter.
  by eapply Forall_forall.
Qed.

Lemma safe_close_all : safe close_all_clients.
Proof.
  unfold close_all_clients. apply col_safe_bind; [apply mild_safe, mild_get|]. intros i.
  apply col_safe_bind; [apply mild_safe, mild_close_each|]. intros _.
  apply col_safe_bind; [|intros _; apply mild_safe; mildly].
  intros w I. apply (wpp_set_clients (λ _, [])); [done|]. constructor.
Qed.

Lemma safe_catch {A} (m : Col A) h : safe m → (∀ e, safe (h e)) → safe (catch m h).
Proof.
  intros Hm Hh w I. apply hoare_catch; [by apply Hm|]. intros e l w' _ I'.
  by eapply hoare_mono; [apply Hh|].
Qed.

Lemma safe_add fd : 0 <= fd → safe (add_client fd).
Proof.
  intros Hfd.
  apply safe_catch; [|intros; apply mild_safe, mild_ret].
  apply col_safe_bind; [apply mild_safe; mildly|]. intros _ w I.
  apply hoare_bind, col_wpp_clock; [done|]. intros now w1 T1 I1 S1 Hnow.
  apply hoare_bind. eapply hoare_mono; [by apply mild_allocate|]. intros _ l2 w2 T2 I2 _.
  apply hoare_bind. eapply hoare_mono.
  { apply (wpp_set_clients (λ i, _clients i ++ [new_client fd now])); [done|]. intros i Hi.
    apply Forall_app. split; [done|]. apply Forall_singleton.
    split; cbn; [done|apply new_decoder_ok|done|constructor]. }
  cbv beta. intros _ l3 w3 _ I3 _. eapply hoare_mono; [apply (mild_safe _); [mildly|done]|done].
Qed.

Lemma safe_admit fd : 0 <= fd → safe (admit_client config fd).
Proof.
  intros Hfd. unfold admit_client. apply col_safe_bind; [apply mild_safe; mildly|].
  intros [e|]; [apply mild_safe; mildly|]. apply col_safe_bind; [apply mild_safe; mildly|]. intros i.
  destruct (_ <=? _); [apply mild_safe; mildly|by apply safe_add].
Qed.

Lemma safe_accept : safe (accept_clients config).
Proof.
  intros w I. apply (hoare_loop _ (λ _ _ _, True)); [done..|]. intros attempt l0 w0 T0 I0 _.
  destruct (_ <=? attempt)%nat; [by apply hoare_ret|].
  apply hoare_bind, col_wpp_tick; [done|]. intros e w1 T1 I1 S1 He Hor.
  destruct (e_ret e <? 0) eqn:Er; ztests.
  - destruct (e_errno e =? EINTR) eqn:Ee; ztests; [|by apply hoare_ret].
    apply hoare_bind, col_wpp_stopping; [done|]. intros b w2 T2 I2 _ _ Hb.
    pose proof (tr_script _ _ _ T2). apply hoare_ret; [done|]. destruct b; [done|].
    split; [|done]. unfold script_left, Col_scripted. destruct Hor as [?|[-> _]]; [lia|done].
  - apply hoare_bind, wpp_plain_obs; [done..|]. intros I2.
    apply hoare_bind. eapply hoare_mono; [by apply safe_admit|]. intros b l w3 T3 I3 _.
    pose proof (tr_script _ _ _ T3) as Hs. cbn in Hs. apply hoare_ret; [done|]. destruct b; [|done].
    split; [|done]. unfold script_left, Col_scripted. destruct Hor as [?|[-> _]]; [lia|done].
Qed.

Lemma safe_poll_once : safe (poll_once pid config).
Proof.
  unfold poll_once. apply col_safe_bind; [apply mild_safe; mildly|]. intros _ w I.
  apply hoare_bind, col_wpp_get; [done|].
  destruct (mapM (client_deadline config) (_clients (col w))) as [ds|] eqn:Ed; cycle 1.
  { exfalso. pose proof (inv_clients _ I) as Hc.
    assert (is_Some (mapM (client_deadline config) (_clients (col w)))) as [? Hx];
      [|by rewrite Ed in Hx]. apply mapM_is_Some_2. eapply Forall_impl; [exact Hc|].
    intros c Hok. destruct (client_deadline_defined _ _ Hok) as (d & Hd & _). by exists d. }
  assert (Forall (λ d, 0 <= d <= 2 * CLOCK_MAX - 1) ds) as Hds.
  { apply mapM_Some_1 in Ed. pose proof (inv_clients _ I) as Hc. revert Hc.
    induction Ed as [|c d cs ds' Hd _ IH]; intros Hc; constructor; apply Forall_cons in Hc as [Hc Hcs].
    - destruct (client_deadline_defined _ _ Hc) as (d' & Hd' & ?). rewrite Hd' in Hd. by injection Hd as <-.
    - by apply IH. }
  apply hoare_bind. eapply hoare_defined; [done..|].
  apply hoare_bind, wpp_poll_wait; [done..|]. intros o l w1 T1 I1 _ S1 _.
  destruct o as [revents|]; [|by apply hoare_ret].
  match goal with |- hoare _ ?m _ _ => enough (safe m) as Hsafe end.
  { eapply hoare_mono; [by apply Hsafe|done]. }
  apply col_safe_bind; [apply mild_safe; mildly|]. intros _.
  apply col_safe_bind; [apply mild_safe; mildly|]. intros [|]; [apply mild_safe, mild_ret|].
  apply col_safe_bind; [intros w2 I2; by apply serve_clients_ok|]. intros _.
  apply col_safe_bind; [apply safe_close_marked|]. intros _.
  apply col_safe_bind; [|intros _; apply mild_safe, mild_ret].
  destruct (has _ _); [apply safe_accept|apply mild_safe, mild_ret].
Qed.

(** ** The worker *)

Lemma safe_run_loop : safe (loop (λ _ : unit,
  stop ← stopping;
  if (stop : bool) then mret (inr tt) else
  catch (going ← poll_once pid config; mret (if going : bool then inl tt else inr tt))
        (λ _, mret (inr tt))) tt).
Proof.
  intros w I. apply (hoare_loop _ (λ _ _ _, True)); [done..|]. intros _ l0 w0 T0 I0 _.
  apply hoare_bind, col_wpp_stopping; [done|]. intros b w1 T1 I1 _ _ Hb.
  destruct b; [by apply hoare_ret|]. destruct Hb as [Hlt|[=]].
  apply hoare_catch; [|intros e l w2 _ I2; by apply hoare_ret].
  apply hoare_bind. eapply hoare_mono; [by apply safe_poll_once|]. intros b l w2 T2 I2 _.
  pose proof (tr_script _ _ _ T2). apply hoare_ret; [done|]. destruct b; [|done].
  split; [|done]. unfold script_left, Col_scripted. lia.
Qed.

Lemma safe_run : safe (run pid config).
Proof.
  unfold run. apply col_safe_bind; [apply safe_run_loop|]. intros [].
  apply col_safe_bind; [apply safe_close_all|]. intros _.
  intros w I. apply wpp_tame; [done|by split|done].
Qed.

(** ** Construction and destruction *)

Lemma mild_pipe p : mild (@init (CWorld U) alone_syscalls p).
Proof. unfold init, set_non_blocking, set_close_on_exec, and_then. cbn [syscall alone_syscalls]. mildly. Qed.

Lemma mild_try_listen n : mild (try_listen tt n).
Proof. unfold try_listen. mildly. Qed.

Lemma mild_open_listener : mild open_listener.
Proof. unfold open_listener, try_listen. mildly. Qed.

Lemma mild_close_listener : mild close_listener.
Proof. unfold close_listener, shutdown_close. mildly. Qed.
#[local] Hint Resolve mild_close_listener : mild.

Lemma mild_start_worker : mild start_worker.
Proof. unfold start_worker, fail_setup. mildly. Qed.

Lemma safe_stop worker : safe worker → safe (stop worker).
Proof.
  intros Hw. unfold stop. apply col_safe_bind; [apply mild_safe; mildly|]. intros i.
  apply col_safe_bind; [apply mild_safe; mildly|]. intros _.
  apply col_safe_bind; [apply mild_safe; mildly|]. intros _.
  apply col_safe_bind; [done|]. intros _. apply col_safe_bind; [apply safe_close_all|]. intros _.
  apply mild_safe; mildly.
Qed.

(** ** Descriptors *)

Definition opened (l : list Obs) : list Z :=
  omap (λ o, match o with SawAccept fd => Some fd | _ => None end) l.
Definition closed (l : list Obs) : list Z :=
  omap (λ o, match o with SawClose fd => Some fd | _ => None end) l.
Definition fds (w : CWorld U) : list Z := map _fd (_clients (col w)).

(** Unless memory ran out, what was opened is closed or still held. *)
Definition balance (w : CWorld U) (l : list Obs) (w' : CWorld U) : Prop :=
  SawBadAlloc ∉ l → opened l ++ fds w ≡ₚ closed l ++ fds w'.

Lemma opened_app l k : opened (l ++ k) = opened l ++ opened k.
Proof. apply omap_app. Qed.
Lemma closed_app l k : closed (l ++ k) = closed l ++ closed k.
Proof. apply omap_app. Qed.

Lemma no_fd_none l : Forall no_fd l → opened l = [] ∧ closed l = [].
Proof. induction 1 as [|o l Ho _ IH]; [done|]. by destruct o. Qed.

Lemma balance_refl w : balance w [] w.
Proof. by intros _. Qed.

Lemma balance_trans w l w1 k w2 : balance w l w1 → balance w1 k w2 → balance w (l ++ k) w2.
Proof.
  intros H1 H2 Hn. rewrite elem_of_app in Hn. rewrite opened_app, closed_app.
  rewrite (Permutation_app_comm (opened l) (opened k)), <- !app_assoc, H1 by tauto.
  rewrite (Permutation_app_swap_app (opened k)). apply Permutation_app_head, H2. tauto.
Qed.

Lemma balance_same w l w' :
  same_clients w w' → log w' = log w ++ l → balance w l w' ∧ Forall no_fd l.
Proof.
  intros [Hc (k & Hk & Hf)] Hl. rewrite Hl in Hk. apply app_inv_head in Hk as ->.
  split; [|done]. intros _. destruct (no_fd_none _ Hf) as [-> ->]. unfold fds. by rewrite Hc.
Qed.

Definition accounted (w w' : CWorld U) : Prop :=
  inv w → inv w' ∧ ∃ l, log w' = log w ++ l ∧ balance w l w'.

#[local] Instance accounted_preorder : PreOrder accounted.
Proof.
  split.
  - intros w I. split; [done|]. exists []. split; [by rewrite app_nil_r|apply balance_refl].
  - intros w w1 w2 H1 H2 I. destruct (H1 I) as (I1 & l & Hl & B1). destruct (H2 I1) as (I2 & k & Hk & B2).
    split; [done|]. exists (l ++ k). split; [by rewrite Hk, Hl, app_assoc|by eapply balance_trans].
Qed.

Lemma accounted_hoare {A} (m : Col A) :
  nothrow m → (∀ w, inv w → wpp m (λ _ l w', balance w l w') w) → respects accounted m.
Proof.
  intros Hn Hm w I. destruct (Hm w I) as (l & T & HB). specialize (Hn w).
  split; [by eapply tr_inv|]. exists l. split; [by apply tr_log|].
  destruct (m w) as [[x|e|] w']; [done|by edestruct Hn|done].
Qed.

(** Primitive steps, which always return. *)
Lemma accounted_safe {A} (m : Col A) : safe m → respects same_clients m → respects accounted m.
Proof.
  intros Hm Hs w I. destruct (Hm w I) as (l & T & _). split; [by eapply tr_inv|]. exists l.
  pose proof (tr_log _ _ _ T) as Hl. split; [done|]. by apply balance_same.
Qed.

Lemma accounted_tick : respects accounted tick.
Proof. apply accounted_safe; [apply mild_safe; mildly|apply same_tick]. Qed.
Lemma accounted_get : respects accounted get_impl.
Proof. apply accounted_safe; [apply mild_safe; mildly|apply same_get]. Qed.
Lemma accounted_obs o : plain_obs o → no_fd o → respects accounted (record_obs o).
Proof. intros Ho Hf. apply accounted_safe; [by apply mild_safe, mild_obs|by apply same_obs]. Qed.
Lemma accounted_modify g : (∀ i, tame g i) → respects accounted (modify g).
Proof. intros Hg. apply accounted_safe; [by apply mild_safe, mild_modify|]. apply same_modify. intros i. apply Hg. Qed.
#[local] Hint Resolve accounted_tick accounted_get : respect.
#[local] Hint Extern 1 (respects accounted (record_obs _)) => apply accounted_obs; exact Logic.I : respect.
#[local] Hint Extern 1 (respects accounted (modify _)) => apply accounted_modify; intros; by split : respect.

(** *** Throwing *)

Lemma nothrow_event keep : nothrow (W := CWorld U) (take_event keep).
Proof. done. Qed.
Lemma col_nothrow_tick : nothrow (W := CWorld U) tick.
Proof. done. Qed.
Lemma nothrow_obs o : nothrow (W := CWorld U) (record_obs o).
Proof. done. Qed.
Lemma nothrow_modify g : nothrow (W := CWorld U) (modify g).
Proof. done. Qed.
Lemma nothrow_get : nothrow (W := CWorld U) get_impl.
Proof. done. Qed.
Lemma nothrow_alarm c frame : nothrow (W := CWorld U) (process_alarm pid c frame).
Proof. unfold process_alarm. apply nothrow_catch. done. Qed.
#[local] Hint Resolve col_nothrow_tick nothrow_obs nothrow_modify nothrow_get nothrow_alarm : noexcept.

Lemma nothrow_serve_clients revents : nothrow (W := CWorld U) (serve_clients pid config revents).
Proof.
  unfold serve_clients, serve_client, read_client, write_client, recv, send, feed_client, finish_client,
    process_frame, queue_control, stopping, clock_now. noexcept.
Qed.

Lemma nothrow_close_each l : nothrow (W := CWorld U) (close_each l).
Proof. unfold close_each, close_client, shutdown_close, close_fd. noexcept. Qed.
#[local] Hint Resolve nothrow_serve_clients nothrow_close_each : noexcept.

(** *** The steps that change the list *)

Lemma accounted_serve revents : respects accounted (serve_clients pid config revents).
Proof.
  apply accounted_hoare; [apply nothrow_serve_clients|]. intros w I. unfold serve_clients.
  apply hoare_bind, col_wpp_get; [done|]. set (n := length (_clients (col w))).
  apply (hoare_each _ (λ rest _ l w', Forall (λ i, (i < n)%nat) rest
    ∧ fds w' = fds w ∧ Forall no_fd l)); [done| | |].
  { split; [|by split; [|constructor]]. apply Forall_forall. intros i Hi. apply elem_of_seq in Hi. lia. }
  2:{ intros [] l w' _ _ (_ & Hf & Hl) _. cbn [app]. destruct (no_fd_none _ Hl) as [-> ->].
    cbn. by rewrite Hf. }
  intros index rest [] l0 w0 T0 I0 (Hr & Hf & Hl). apply Forall_cons in Hr as [Hi Hr].
  apply hoare_bind, col_wpp_get; [done|]. destruct (_clients (col w0) !! index) as [c|] eqn:Ec; cycle 1.
  { exfalso. apply lookup_ge_None in Ec. apply (f_equal length) in Hf. unfold fds in Hf.
    rewrite !length_map in Hf. fold n in Hf. lia. }
  assert (client_ok (log w0) c) as Hc by (eapply Forall_lookup_1; [by apply inv_clients|done]).
  apply hoare_bind. eapply hoare_mono; [by apply hoare_respects; [apply wpp_serve|apply same_serve]|].
  cbv beta. intros c' l1 w1 T1 I1 [[Hc' Hfd] Hsame].
  destruct (balance_same _ _ _ Hsame (tr_log _ _ _ T1)) as [_ Hl1].
  assert (inv (with_col (λ i, set_clients (<[index:=c']> (_clients i)) i) w1)) as I2.
  { apply inv_set_clients; [done|]. apply Forall_insert; [by apply inv_clients|done]. }
  apply hoare_bind, col_wpp_modify; [done..|]. apply hoare_ret; [done|].
  split; [done|]. split; [|rewrite app_nil_r; by apply Forall_app].
  rewrite <- Hf. unfold fds. cbn. rewrite (proj1 Hsame). change (list_insert index c' _) with (<[index := c']> (_clients (col w0))).
  rewrite (list_fmap_insert _fd : ∀ l i x, map _fd (<[i:=x]> l) = <[i:=_fd x]> (map _fd l)).
  rewrite Hfd. apply list_insert_id. by rewrite (list_lookup_fmap _fd : ∀ l i, map _fd l !! i = _), Ec.
Qed.

Lemma wpp_close_fd fd Q w :
  inv w → (∀ w', trans w [SawClose fd] w' → inv w' → _clients (col w') = _clients (col w) →
     Q tt [SawClose fd] w') →
  wpp (close_fd fd) Q w.
Proof.
  intros I HQ. unfold close_fd. apply hoare_bind, col_wpp_tick; [done|]. intros e w1 T1 I1 S1 _ _.
  apply wpp_plain_obs; [done..|]. intros I2. cbn [app]. apply HQ; [|done|].
  - destruct T1. split; [done|cbn; by rewrite tr_log0, app_nil_r|done].
  - apply (still_clients _ _ S1).
Qed.

Lemma wpp_close_each cs w :
  inv w → Forall (λ c, 0 <= _fd c) cs →
  wpp (close_each cs) (λ _ l w', opened l = [] ∧ closed l = map _fd cs
    ∧ _clients (col w') = _clients (col w)) w.
Proof.
  unfold close_each. intros I Hcs. revert w I. induction Hcs as [|c cs Hc _ IH]; intros w I; cbn [each].
  { by apply hoare_ret. }
  apply hoare_bind, hoare_bind. unfold close_client. rewrite (proj2 (Z.leb_le _ _) Hc).
  unfold shutdown_close. apply hoare_bind, col_wpp_tick; [done|]. intros e w1 T1 I1 S1 _ _.
  apply wpp_close_fd; [done|]. intros w2 T2 I2 Hc2. apply hoare_ret; [done|]. cbn [app].
  eapply hoare_mono; [by apply IH|]. cbv beta. intros r l3 w3 _ _ (Ho & Hcl & Hc3).
  change (opened ([SawClose (_fd c)] ++ l3) = [] ∧ closed ([SawClose (_fd c)] ++ l3) = map _fd (c :: cs)
    ∧ _clients (col w3) = _clients (col w)).
  rewrite opened_app, closed_app, Ho, Hcl, Hc3, Hc2, (still_clients _ _ S1). done.
Qed.

Lemma client_fds w : inv w → Forall (λ c, 0 <= _fd c) (_clients (col w)).
Proof. intros I. eapply Forall_impl; [by apply inv_clients|]. intros c Hc. apply (cl_fd _ _ Hc). Qed.

(** Closing some connections and keeping the others. *)
Lemma accounted_close (gone left_ : list Client → list Client) :
  (∀ l, gone l ++ left_ l ≡ₚ l) →
  respects accounted (i ← get_impl; _ ← close_each (gone (_clients i));
    _ ← modify (λ i, set_clients (left_ (_clients i)) i); modify update_client_count).
Proof.
  intros Hp. apply accounted_hoare.
  { noexcept. } intros w I. apply hoare_bind, col_wpp_get; [done|].
  pose proof (client_fds w I) as Hfd. rewrite <- Hp in Hfd. apply Forall_app in Hfd as [Hg _].
  apply hoare_bind. eapply hoare_mono; [by apply wpp_close_each|]. cbv beta.
  intros _ l1 w1 T1 I1 (Ho & Hc & Hcl).
  assert (inv (with_col (λ i, set_clients (left_ (_clients i)) i) w1)) as I2.
  { apply inv_set_clients; [done|]. pose proof (inv_clients _ I1) as Hall. rewrite <- (Hp (_clients _)) in Hall.
    by apply Forall_app in Hall as [_ ?]. }
  apply hoare_bind, col_wpp_modify; [done..|]. apply wpp_tame; [done|by split|]. intros _ I3 S3.
  intros _. cbn [app]. rewrite app_nil_r, Ho, Hc. cbn [app]. unfold fds at 2.
  rewrite (still_clients _ _ S3). cbn. rewrite Hcl, <- map_app. unfold fds.
  apply Permutation_map. symmetry. apply Hp.
Qed.

Lemma accounted_close_marked : respects accounted close_marked_clients.
Proof.
  unfold close_marked_clients.
  apply (accounted_close (filter (λ c, _close c = true)) (filter (λ c, _close c = false))).
  intros l. induction l as [|c l IH]; [done|].
  rewrite !filter_cons. destruct (_close c); cbn; repeat (case_decide; try done); cbn.
  - by rewrite IH.
  - by rewrite <- Permutation_middle, IH.
Qed.

Lemma accounted_close_all : respects accounted close_all_clients.
Proof.
  unfold close_all_clients. apply (accounted_close id (λ _, [])). intros l. by rewrite app_nil_r.
Qed.

(** *** Accepting *)

Lemma col_tick_returns w : inv w →
  ∃ e w', tick w = (Returned e, w') ∧ trans w [] w' ∧ inv w' ∧ still w w' ∧ event_ok e.
Proof.
  intros I. destruct (col_wpp_tick (λ e l w', l = [] ∧ still w w' ∧ event_ok e) w I) as (l & T & HQ).
  { by intros e w' _ _ S He _. }
  exists (default last_event (head (script w))), (tick w).2. destruct HQ as (-> & S & He).
  split; [done|]. split; [done|]. split; [by eapply tr_inv|done].
Qed.

Lemma allocate_cases w : inv w →
  ∃ w', inv w' ∧ _clients (col w') = _clients (col w) ∧
    ((allocate_memory w = (Returned tt, w') ∧ trans w [] w')
     ∨ (allocate_memory w = (Thrown BadAlloc, w') ∧ trans w [SawBadAlloc] w')).
Proof.
  intros I. destruct (col_tick_returns w I) as (e & w1 & Ht & T1 & I1 & S1 & _).
  unfold allocate_memory. rewrite (bind_returned _ _ _ _ _ Ht). destruct (e_alloc e).
  - exists w1. split; [done|]. split; [apply S1|]. by left.
  - exists (log_with SawBadAlloc w1). assert (inv (log_with SawBadAlloc w1)) as I2 by by apply inv_log_with.
    split; [done|]. split; [apply S1|]. right. split; [done|].
    destruct T1. split; [done|cbn; by rewrite tr_log0, app_nil_r|done].
Qed.

(** A descriptor in hand is closed, added to the list, or lost for want of memory. *)
Definition placed (fd : Z) (w : CWorld U) (l : list Obs) (w' : CWorld U) : Prop :=
  SawBadAlloc ∉ l → opened l = [] ∧ fd :: fds w ≡ₚ closed l ++ fds w'.

Lemma wpp_add fd w :
  inv w → 0 <= fd → wpp (add_client fd) (λ _ l w', placed fd w l w') w.
Proof.
  intros I Hfd. unfold add_client.
  assert (∀ l w1 w2, inv w2 → trans w1 [SawBadAlloc] w2 →
    wpp (λ _, (mret false : Col bool) w2) (λ _ l' w', placed fd w (l ++ l') w') w1) as Hlost.
  { intros l w1 w2 I2 T2. exists [SawBadAlloc]. split; [done|]. intros Hn. exfalso. apply Hn.
    apply elem_of_app. right. by left. }
  destruct (allocate_cases w I) as (w1 & I1 & Hc1 & [[Ha T1]|[Ha T1]]); cycle 1.
  { eapply (hoare_from _ (λ _, (mret false : Col bool) w1) _ []); [by apply col_trans_refl| |by apply (Hlost [])].
    by rewrite (catch_thrown _ _ _ _ _ _ Ha). }
  eapply hoare_from; [exact T1|by apply (catch_returned _ _ _ _ _ _ Ha)|].
  destruct (col_tick_returns w1 I1) as (e & w2 & Ht & T2 & I2 & S2 & He).
  assert (clock_now w1 = (Returned (e_now e), w2)) as Hck.
  { unfold clock_now. by rewrite (bind_returned _ _ _ _ _ Ht). }
  eapply hoare_from; [exact T2|by apply (catch_returned _ _ _ _ _ _ Hck)|].
  destruct (allocate_cases w2 I2) as (w3 & I3 & Hc3 & [[Ha3 T3]|[Ha3 T3]]); cycle 1.
  { eapply (hoare_from _ (λ _, (mret false : Col bool) w3) _ []); [by apply col_trans_refl| |by apply (Hlost [])].
    by rewrite (catch_thrown _ _ _ _ _ _ Ha3). }
  eapply hoare_from; [exact T3|by apply (catch_returned _ _ _ _ _ _ Ha3)|]. cbn [app].
  apply hoare_catch_nothrow; [noexcept|].
  set (g := λ i, set_clients (_clients i ++ [new_client fd (e_now e)]) i).
  assert (inv (with_col g w3)) as I4.
  { apply inv_set_clients; [done|]. apply Forall_app. split; [by apply inv_clients|].
    apply Forall_singleton. split; cbn; [done|apply new_decoder_ok|by apply ok_now|constructor]. }
  apply hoare_bind, col_wpp_modify; [done..|]. apply hoare_bind, wpp_tame; [done|by split|].
  intros _ I5 S5. apply hoare_ret; [done|]. intros _. split; [done|]. cbn. unfold fds. cbn.
  rewrite Hc3, (still_clients _ _ S2), Hc1, map_app. cbn. by rewrite <- Permutation_cons_append.
Qed.

Lemma wpp_admit fd w :
  inv w → 0 <= fd → wpp (admit_client config fd) (λ _ l w', placed fd w l w') w.
Proof.
  intros I Hfd. unfold admit_client. apply hoare_bind.
  eapply hoare_mono.
  { apply hoare_respects with (R := same_clients); [apply mild_safe; [mildly|done]|].
    unfold set_nonblocking_and_cloexec. respectful. }
  cbv beta. intros o l1 w1 T1 I1 [_ Hs].
  destruct (balance_same _ _ _ Hs (tr_log _ _ _ T1)) as [_ Hf1].
  destruct (no_fd_none _ Hf1) as [Ho1 Hc1].
  assert (fds w1 = fds w) as Hfds by (unfold fds; by rewrite (proj1 Hs)).
  assert (∀ x w2, inv w2 → fds w2 = fds w →
    wpp (_ ← close_fd fd; mret x) (λ (_ : bool) l' w', placed fd w (l1 ++ l') w') w2) as Hclose.
  { intros x w2 I2 Hf2. apply hoare_bind, wpp_close_fd; [done|]. intros w3 T3 I3 Hc3.
    apply hoare_ret; [done|]. intros _. rewrite opened_app, closed_app, Ho1, Hc1. split; [done|].
    cbn. rewrite <- Hf2. unfold fds. by rewrite Hc3. }
  destruct o as [e|]; [by apply Hclose|].
  apply hoare_bind, col_wpp_get; [done|]. destruct (_ <=? _).
  - apply hoare_bind, wpp_tame; [done|by split|]. intros T2 I2 S2. cbn [app].
    apply Hclose; [done|]. rewrite <- Hfds. unfold fds. by rewrite (still_clients _ _ S2).
  - eapply hoare_mono; [by apply wpp_add|]. cbv beta. intros b l2 w2 T2 I2 Hp Hn.
    rewrite elem_of_app in Hn. destruct Hp as [Ho2 Hp]; [intros ?; by apply Hn; right|]. cbn [app].
    rewrite opened_app, closed_app, Ho1, Hc1, Ho2. split; [done|]. by rewrite <- Hfds.
Qed.

Lemma nothrow_admit fd : nothrow (W := CWorld U) (admit_client config fd).
Proof. unfold admit_client, add_client, set_nonblocking_and_cloexec, close_fd. noexcept. Qed.

Lemma accounted_accept_one fd :
  0 <= fd → respects accounted (_ ← record_obs (SawAccept fd); admit_client config fd).
Proof.
  intros Hfd. apply accounted_hoare.
  { apply nothrow_bind; [done|]. intros _. apply nothrow_admit. }
  intros w I. apply hoare_bind, wpp_plain_obs; [done..|]. intros I1.
  eapply hoare_mono; [by apply wpp_admit|]. cbv beta. intros b l w' T' I' Hp Hn.
  destruct Hp as [Ho Hp]; [intros ?; apply Hn, elem_of_app; by right|].
  rewrite opened_app, closed_app, Ho. cbn [app]. change (closed [SawAccept fd]) with (@nil Z).
  change (opened [SawAccept fd] ++ []) with [fd]. cbn [app]. by rewrite <- Hp.
Qed.

Lemma accounted_accept : respects accounted (accept_clients config).
Proof.
  unfold accept_clients. apply respects_loop; [apply _|]. intros attempt.
  destruct (_ <=? attempt)%nat; [apply respects_ret, _|].
  apply respects_bind; [apply _|auto with respect|]. intros e.
  destruct (e_ret e <? 0) eqn:E; [unfold stopping; respectful|]. ztests.
  intros w. pose proof (accounted_accept_one (e_ret e) ltac:(lia) w) as Ha.
  unfold mbind, Eff_bind in *. destruct (record_obs (SawAccept (e_ret e)) w) as [[x|x|] w1]; [|done..].
  by destruct (admit_client config (e_ret e) w1) as [[b|b|] w2].
Qed.
#[local] Hint Resolve accounted_serve accounted_close_marked accounted_close_all accounted_accept : respect.

Lemma accounted_run : respects accounted (run pid config).
Proof.
  unfold run, poll_once, poll_wait, allocate_memory, bad_alloc, stopping, clock_now, drain.
  cbn [syscall Col_syscalls]. respectful.
Qed.

Lemma col_nothrow_run : nothrow (W := CWorld U) (run pid config).
Proof. unfold run, stopping, close_all_clients. noexcept. Qed.

Lemma run_leaves (w w' : CWorld U) :
  run pid config w = (Returned tt, w') → _clients (col w') = [] ∧ _active (col w') = false.
Proof.
  unfold run, close_all_clients, modify, with_col, mbind, Eff_bind.
  destruct (loop _ _ w) as [[[]|e|] w1]; [|done..]. cbn.
  destruct (close_each _ w1) as [[r|e|] w2]; [|done..]. cbn. by intros [= <-].
Qed.

(** The worker ends in order, having given back every connection it was not
    deprived of by a lack of memory. *)
Lemma run_returns w :
  inv w →
  ∃ l w', run pid config w = (Returned tt, w') ∧ trans w l w'
    ∧ _clients (col w') = [] ∧ _active (col w') = false
    ∧ (SawBadAlloc ∉ l → opened l ++ fds w ≡ₚ closed l).
Proof.
  intros I. destruct (safe_run w I) as (l & T & Hs). pose proof (accounted_run w I) as (_ & k & Hk & HB).
  pose proof (col_nothrow_run w) as Hn. pose proof (run_leaves w) as Hleft.
  destruct (run pid config w) as [[[]|e|] w']; cbn [fst snd] in *; [|by edestruct Hn|done].
  rewrite (tr_log _ _ _ T) in Hk. apply app_inv_head in Hk as <-.
  destruct (Hleft w' eq_refl) as [Hc Ha]. exists l, w'. do 4 (split; [done|]).
  intros Hno. rewrite (HB Hno). unfold fds at 1. rewrite Hc. by rewrite app_nil_r.
Qed.

Lemma close_listener_leaves (w : CWorld U) :
  ∃ w', close_listener w = (Returned tt, w') ∧ _clients (col w') = _clients (col w) ∧ _listener (col w') < 0.
Proof.
  unfold close_listener, shutdown_close, close_fd. rewrite (bind_returned get_impl _ _ (col w) w eq_refl).
  destruct (0 <=? _listener (col w)) eqn:E; ztests; [|by exists w].
  eexists. split; [reflexivity|]. cbn. split; [|lia].
  rewrite <- (proj1 (same_tick w)). exact (proj1 (same_tick (tick w).2)).
Qed.

(** [stop]: whatever is left of the worker, nothing is connected afterwards. *)
Lemma stop_returns worker w :
  inv w → safe worker → nothrow worker →
  ∃ l w', stop worker w = (Returned tt, w') ∧ trans w l w'
    ∧ _clients (col w') = [] ∧ _listener (col w') < 0.
Proof.
  intros I Hs Hn. destruct (safe_stop worker Hs w I) as (l & T & Hst).
  assert (nothrow (stop worker)) as Hnt.
  { unfold stop, wakeup, close_all_clients, close_listener, shutdown_close, close_fd. cbn [syscall Col_syscalls].
    noexcept. }
  assert (∀ r w', stop worker w = (Returned r, w') → _clients (col w') = [] ∧ _listener (col w') < 0) as Hleft.
  { intros r w' Hrun. unfold stop in Hrun. do 4 apply bind_returns in Hrun as (? & ? & _ & Hrun).
    apply bind_returns in Hrun as ([] & w1 & Hall & Hrun).
    destruct (close_listener_leaves w1) as (v & Hv & Hc & Hl). rewrite Hv in Hrun. injection Hrun as <- <-.
    rewrite Hc. split; [|done]. unfold close_all_clients in Hall.
    do 2 apply bind_returns in Hall as (? & ? & _ & Hall).
    apply bind_returns in Hall as (? & ? & Hset & Hall). injection Hset as <- <-.
    by injection Hall as <-. }
  pose proof (Hnt w) as Hx. destruct (stop worker w) as [[[]|e|] w']; cbn [fst snd] in *; [|by edestruct Hx|done].
  exists l, w'. split; [done|]. split; [done|]. by eapply Hleft.
Qed.

End Safety.
