(* ===== verification/CollectorRecovery.v ===== *)
(** The start of the collector: the inbox is read, unusable files are set aside,
    and the alarms are replayed into the engine in the order of their time. *)

From S2P Require Import Prelude MonitorData MonitorWire MonitorStore MonitorReporter.
From S2P Require Import AlarmProtocol AlarmStream FileSystem AlarmSpool AlarmSpoolSafety SpoolLifecycle.
From S2P Require Import SpoolQueue SpoolNames Effects WakePipe Engine ReliableCollector CollectorSafety.
#[local] Open Scope tlss_scope.

(** ** The order of recovery *)

Definition frame_le (a b : AlarmFrame) : Prop :=
  key_lt (_timestamp_ms b, identity_of b) (_timestamp_ms a, identity_of a) = false.

Lemma key_lt_spec a b :
  key_lt a b = true ↔
  a.1 < b.1 ∨ a.1 = b.1 ∧ (a.2.1 < b.2.1 ∨ a.2.1 = b.2.1 ∧ bytes_le b.2.2 a.2.2 = false).
Proof.
  unfold key_lt. rewrite !orb_true_iff, !andb_true_iff, !Z.ltb_lt, !Z.eqb_eq, orb_true_iff, andb_true_iff,
    Z.ltb_lt, Z.eqb_eq, negb_true_iff. tauto.
Qed.

Lemma key_le_spec a b :
  key_lt b a = false ↔
  a.1 < b.1 ∨ a.1 = b.1 ∧ (a.2.1 < b.2.1 ∨ a.2.1 = b.2.1 ∧ string_le a.2.2 b.2.2).
Proof.
  rewrite <- not_true_iff_false, key_lt_spec. unfold string_le.
  generalize a.1 a.2.1 b.1 b.2.1. intros x y z t. destruct (bytes_le a.2.2 b.2.2).
  - assert (false = false ↔ True) by done. assert (true = false ↔ False) by done.
    assert (true = true ↔ True) by done. lia.
  - assert (false = false ↔ True) by done. assert (false = true ↔ False) by done. lia.
Qed.

#[export] Instance recovery_le_total : Total recovery_le.
Proof.
  intros a b. unfold recovery_le. rewrite !key_le_spec.
  destruct (Z.lt_trichotomy (recovery_key a).1 (recovery_key b).1) as [?|[He|?]]; [by left; left| |by right; left].
  destruct (Z.lt_trichotomy (recovery_key a).2.1 (recovery_key b).2.1) as [?|[He'|?]];
    [left; right; auto| |right; right; auto].
  destruct (string_le_total (recovery_key a).2.2 (recovery_key b).2.2); [left|right]; right; auto.
Qed.

#[export] Instance recovery_le_trans : Transitive recovery_le.
Proof.
  intros a b c. unfold recovery_le. rewrite !key_le_spec. intros H1 H2.
  destruct H1 as [?|[? [?|[? Hs1]]]], H2 as [?|[? [?|[? Hs2]]]]; try (left; lia);
    right; (split; [lia|]); try (left; lia). right. split; [lia|]. by etrans.
Qed.

(** The frames written to the engine, in order. *)
Definition replayed (l : list Obs) : list AlarmFrame :=
  omap (λ o, match o with SawIngest frame _ _ => Some frame | _ => None end) l.

Lemma replayed_app l k : replayed (l ++ k) = replayed l ++ replayed k.
Proof. apply omap_app. Qed.

Section Recovery.
Context `{DirOrder} {U : Type} (pid : Z) (config : ReliableAlarmCollectorConfig) (root : path).
Context (Hcfg : config_ok config) (Hdir : _inbox_dir config = Some root).
#[local] Abbreviation Col := (Eff (CWorld U)).
#[local] Existing Instance collector_histories.
#[local] Abbreviation inv := (inv (U := U) root).
#[local] Abbreviation trans := (trans (U := U) root).
#[local] Abbreviation wpp := (hoare trans).
#[local] Abbreviation mild := (mild (U := U) root).

(** ** Steps that do not replay *)

Definition no_ingest (o : Obs) : Prop :=
  match o with SawIngest _ _ _ | SawKept _ _ => False | _ => True end.

Lemma no_ingest_none l : Forall no_ingest l → replayed l = [].
Proof. induction 1 as [|o l Ho _ IH]; [done|]. by destruct o. Qed.

(** An item whose file is in the inbox. *)
Definition item_path (item : RecoveryItem) : path := alarm_path root INBOX (_iframe item).

Record item_ok (f : FS) (item : RecoveryItem) : Prop := {
  it_frame : frame_ok (_iframe item);
  it_type : _ftype (_iframe item) = ALARM;
  it_record : decode_reliable_payload (_iframe item) = Some (Some (_irecord item));
  it_file : file f (item_path item) = Some (frame_bytes (_iframe item))
}.

(** The world after calls on the file system. *)
Definition with_sys (v : World) (w : CWorld U) : CWorld U :=
  mkCWorld (col w) (engine w) (outside w) v (script w) (log w).

Lemma wpp_system {A} (m : Sys A) (R : A → Prop) Q w :
  inv w → wp m (λ x v, fs v = fs (sys w) ∧ R x) (sys w) →
  (∀ x v, trans w [] (with_sys v w) → inv (with_sys v w) → fs v = fs (sys w) → R x →
     Q x [] (with_sys v w)) →
  wpp (on_system m) Q w.
Proof.
  intros I Hm HQ. unfold hoare, on_system. unfold wp in Hm. destruct (m (sys w)) as [x v].
  cbn [fst snd] in *. destruct Hm as [Hv HR]. exists [].
  assert (inv (with_sys v w)) as I' by (destruct I as [S A' K O Q' C E]; split; cbn; rewrite ?Hv; auto).
  assert (trans w [] (with_sys v w)) as T by (split; [done|by rewrite app_nil_r|done]).
  split; [done|]. by apply HQ.
Qed.

(** *** Collecting the paths *)

Lemma wp_recovery_paths f : ∀ l acc w,
  fs w = f → Forall (visible f) l →
  wp (recovery_paths l acc)
     (λ r w', fs w' = f ∧ ∀ ps, r = inl ps → ps = acc ++ filter (λ p, is_regular f p = true) l) w.
Proof.
  induction l as [|p l IH]; intros acc w Hw Hl; cbn [recovery_paths].
  { apply wp_ret. split; [done|]. intros ps [= <-]. by rewrite app_nil_r. }
  apply Forall_cons in Hl as [Hp Hl]. destruct (visible_node f p false Hp) as (v & He & Hn).
  apply wp_bind, wp_observe. intros r w1 Hw1 Hr. rewrite Hw in Hr. destruct r as [v'|e]; [|apply wp_ret; split; [congruence|done]].
  rewrite Hn in Hr. injection Hr as <-. apply wp_bind, wp_change.
  { intros w2 e Hw2. apply wp_ret. split; [congruence|done]. }
  intros w2 [= Hw2]. eapply wp_mono; [apply IH; [congruence|done]|].
  cbv beta. intros r w3 [Hw3 Hps]. split; [done|]. intros ps Hp'. rewrite (Hps ps Hp'), filter_cons.
  assert (is_regular f p = match v with Reg _ => true | _ => false end) as -> by (unfold is_regular; by rewrite He).
  destruct v; cbn; rewrite <- ?app_assoc; done.
Qed.

(** All the files of the inbox. *)
Definition all_files (f : FS) (ps : list path) : Prop :=
  NoDup ps ∧ Forall (λ p, is_inside (data_dir root INBOX) p ∧ Forall plain p) ps
  ∧ ∀ q, is_inside (data_dir root INBOX) q → is_Some (file f q) → q ∈ ps.

Lemma wpp_collect Q w :
  inv w →
  (∀ o w', trans w [] w' → inv w' → _accepted (col w') = _accepted (col w) →
     (∀ ps, o = Some ps → all_files (fs (sys w')) ps) → Q o [] w') →
  wpp (collect_recovery_paths config) Q w.
Proof.
  intros I HQ. destruct (inv_spool _ _ I) as (s & Hs & Hr & Hk & R).
  assert (accepted_directory config = _data_directory s) as Hacc.
  { unfold accepted_directory. rewrite Hdir, (rd_data _ _ R), Hr, Hk. done. }
  unfold collect_recovery_paths. apply hoare_bind.
  eapply (wpp_system _ (λ r, ∀ ps, r = inl ps → all_files (fs (sys w)) ps)); [done| |].
  - rewrite Hacc. apply wp_bind, wp_descendants; [done|by intros w1 e Hw1; apply wp_ret|].
    intros w1 l Hw1 Hl. eapply wp_mono; [apply (wp_recovery_paths (fs (sys w))); [done|]|].
    { rewrite Hl. apply Forall_forall. intros p Hp. by eapply data_visible. }
    cbv beta. intros r w2 [Hw2 Hps]. split; [done|]. intros ps ->. rewrite (Hps ps eq_refl). cbn [app].
    assert (data_dir root INBOX = _data_directory s) as Hdd by by rewrite (rd_data _ _ R), Hr, Hk.
    unfold all_files. rewrite Hdd. split; [|split].
    + apply NoDup_filter. rewrite Hl. apply NoDup_data_paths.
    + apply Forall_forall. intros p [_ Hp]%list_elem_of_filter. rewrite Hl in Hp.
      pose proof (data_visible _ _ _ R Hp) as ((? & _) & _).
      by apply elem_of_data_paths in Hp as [? _].
    + intros q Hq Hf. destruct (proj2 (regular_file s _ q R) (conj Hq Hf)) as [? ?].
      apply list_elem_of_filter. split; [done|]. by rewrite Hl.
  - intros r v T I1 Hv Hps. destruct r as [ps|e].
    + apply hoare_ret; [done|]. apply HQ; [done..|]. intros ps' [= <-]. cbn. rewrite Hv. by apply Hps.
    + apply hoare_bind, wpp_tame; [done|by split|]. intros T2 I2 S2. apply hoare_ret; [done|].
      apply HQ; [exact (col_trans_trans _ _ _ _ _ _ T T2)|done|apply S2|done].
Qed.

(** *** Reading the files *)

(** Every file of the inbox is an item or still to be read. *)
Record gathering (rest : list path) (items : list RecoveryItem) (l : list Obs) (w : CWorld U) : Prop := {
  ga_accepted : _accepted (col w) = ∅;
  ga_log : Forall no_ingest l;
  ga_items : Forall (item_ok (fs (sys w))) items;
  ga_once : NoDup (map item_path items ++ rest);
  ga_rest : Forall (λ p, is_inside (data_dir root INBOX) p ∧ Forall plain p) rest;
  ga_all q : is_inside (data_dir root INBOX) q → is_Some (file (fs (sys w)) q) →
             q ∈ map item_path items ++ rest
}.

Lemma gathering_still rest items l k w w' :
  gathering rest items l w → Forall no_ingest k → still w w' → gathering rest items (l ++ k) w'.
Proof.
  intros [A L T O R Al] Hk S.
  split; rewrite ?(still_accepted _ _ S), ?(still_sys _ _ S); try done. by apply Forall_app.
Qed.

Lemma file_gone f p : possible f p = [None] → file f p = None.
Proof.
  intros Hp. unfold file. pose proof (entries_possible f p) as Hx. rewrite Hp in Hx.
  by apply list_elem_of_singleton in Hx as ->.
Qed.

(** The file [p] has left the inbox. *)
Lemma gathering_gone p rest items l w w' s :
  inv w → _spool (col w) = Some s → gathering (p :: rest) items l w →
  addressed s p (fs (sys w)) (fs (sys w')) → file (fs (sys w')) p = None →
  _accepted (col w') = ∅ → gathering rest items l w'.
Proof.
  intros I Hs [A L T O R Al] Ha Hgone A'. destruct (inv_spool _ _ I) as (s0 & Hs0 & Hr & Hk & Rd).
  rewrite Hs in Hs0. injection Hs0 as <-.
  assert (data_dir root INBOX = _data_directory s) as Hdd by by rewrite (rd_data _ _ Rd), Hr, Hk.
  apply Forall_cons in R as [[Hin Hpl] R].
  assert (∀ q, is_inside (data_dir root INBOX) q → q ≠ p →
    file (fs (sys w')) q = file (fs (sys w)) q) as Hoth.
  { intros q Hq Hne. apply Ha; [by rewrite <- Hdd|]. intros Hl. apply Hne.
    eapply lookup_alarm; [done|by rewrite <- Hdd|done|done]. }
  assert (p ∉ map item_path items) as Hnot.
  { intros Hx. apply NoDup_app in O as (_ & O & _). apply (O p Hx). by left. }
  split; [done|done| | |done|].
  - eapply Forall_impl; [|exact (λ i x, x)]. apply Forall_forall. intros item Hit.
    rewrite Forall_forall in T. destruct (T item Hit) as [? ? ? Hf]. split; [done..|].
    rewrite Hoth; [done|apply alarm_path_inside|]. intros <-. apply Hnot. apply list_elem_of_fmap. eauto.
  - apply NoDup_app in O as (O1 & O2 & O3). apply NoDup_cons in O3 as [_ O3]. apply NoDup_app.
    split; [done|]. split; [|done]. intros q Hq Hq'. apply (O2 q Hq). by right.
  - intros q Hq Hf. destruct (decide (q = p)) as [->|Hne]; [rewrite Hgone in Hf; by destruct Hf|].
    rewrite Hoth in Hf by done. specialize (Al q Hq Hf). rewrite elem_of_app, elem_of_cons in Al.
    rewrite elem_of_app. naive_solver.
Qed.

Lemma wpp_set_aside p q rest items l0 w :
  inv w → gathering (p :: rest) items l0 w → q = p →
  wpp (set_aside (Some q) items) (λ r l w',
    match r with inl items' => gathering rest items' (l0 ++ l) w' | inr _ => True end) w.
Proof.
  intros I G ->. unfold set_aside. destruct (inv_spool _ _ I) as (s & Hs & Hr & Hk & Rd).
  pose proof (ga_accepted _ _ _ _ G) as HA.
  apply hoare_bind. eapply (wpp_spool _ _ (λ r v, addressed s p (fs (sys w)) (fs v)
    ∧ (_pstatus r = SP_SUCCESS → quarantined s (fs (sys w)) (fs v) p (_ppath r)))); [done..| |].
  { apply wp_bind. eapply wp_mono; [by apply wp_quarantine|]. cbv beta. intros r v [[Hg Ha] Hq].
    apply wp_ret. cbn. split; [apply same_spool_refl|]. split; [done|]. split; [done|].
    intros id Hid. rewrite HA in Hid. by apply elem_of_empty in Hid. }
  intros r s' v T1 I1 [Ha Hq]. unfold path_success. case_bool_decide as Hst; cycle 1.
  { apply hoare_bind, wpp_tame; [done|by split|]. intros T2 I2 S2. by apply hoare_ret. }
  apply hoare_ret; [done|]. cbn [app]. rewrite app_nil_r.
  eapply (gathering_gone p rest items l0 w _ s); [done..| |done].
  destruct (Hq Hst) as (q & t & i & Hl & Hin & _ & _ & _ & Hposs & _).
  pose proof (ga_rest _ _ _ _ G) as Hrest. apply Forall_cons in Hrest as [[Hin' Hpl] _].
  assert (q = p) as ->.
  { eapply lookup_alarm; [done| |done|done]. by rewrite (rd_data _ _ Rd), Hr, Hk. }
    by apply file_gone.
Qed.

(** What is read from the next path: the alarm, or the path is free or the
    recovery ends. *)
Lemma wpp_read_next p rest items l0 Q w :
  inv w → gathering (p :: rest) items l0 w →
  (∀ r s' v, trans w [] (after_spool s' v w) → inv (after_spool s' v w) →
     (_rdstatus r = SP_SUCCESS → gathering (p :: rest) items l0 (after_spool s' v w) ∧
        ∃ fr, frame_ok fr ∧ _ftype fr = ALARM ∧ p = alarm_path root INBOX fr
          ∧ file (fs v) p = Some (frame_bytes fr) ∧ _rdpath r = Some p ∧ _rdbytes r = frame_bytes fr) →
     (_rdstatus r = SP_CORRUPT → gathering rest items l0 (after_spool s' v w)) →
     Q r [] (after_spool s' v w)) →
  wpp (on_spool (asking (λ s, AlarmSpool.read s p))) Q w.
Proof.
  intros I G HQ. destruct (inv_spool _ _ I) as (s & Hs & Hr & Hk & Rd).
  pose proof (ga_accepted _ _ _ _ G) as HA.
  pose proof (ga_rest _ _ _ _ G) as Hrest. apply Forall_cons in Hrest as [[Hin Hpl] _].
  assert (∀ q, lookup_path true (fs (sys w)) p = inl q → q = p) as Hlook.
  { intros q Hl. eapply lookup_alarm; [done| |done|done]. by rewrite (rd_data _ _ Rd), Hr, Hk. }
  eapply (wpp_spool _ _ (λ r v, addressed s p (fs (sys w)) (fs v)
    ∧ (_rdstatus r = SP_SUCCESS → fs v = fs (sys w) ∧ read_alarm s (fs (sys w)) p r)
    ∧ (_rdstatus r = SP_CORRUPT → quarantined s (fs (sys w)) (fs v) p (_rdpath r)))); [done..| |].
  { apply wp_bind. eapply wp_mono; [by apply wp_read|]. cbv beta. intros r v [[Hg Ha] [Hok Hc]].
    apply wp_ret. cbn. split; [apply same_spool_refl|]. split; [done|]. split; [done|].
    intros id Hid. rewrite HA in Hid. by apply elem_of_empty in Hid. }
  intros r s' v T1 I1 (Ha & Hok & Hc). apply HQ; [done..| |].
  - intros Hst. destruct (Hok Hst) as [Hv (q & i & fr & Hl & Hp & He & Hcn & Hq & Hfr & Ht & Hb)].
    apply Hlook in Hl as ->. rewrite Hr, Hk in Hq. split.
    { destruct G as [A L T O R Al]. by split; cbn; rewrite ?Hv. }
    exists fr. do 3 (split; [done|]). split; [|done]. unfold file. by rewrite Hv, He, Hcn.
  - intros Hst. destruct (Hc Hst) as (q & t & i & Hl & _ & _ & _ & _ & Hposs & _).
    apply Hlook in Hl as ->. eapply (gathering_gone p rest items l0 w _ s); [done..| |done].
    by apply file_gone.
Qed.

Lemma plain_no_ingest l : Forall plain_obs l → replayed l = [] → Forall no_ingest l.
Proof.
  induction 1 as [|o l Ho _ IH]; [by constructor|]. destruct o; cbn; intros; try done; constructor; auto; done.
Qed.

(** Interactions of the constructor leave no mark. *)
Lemma wpp_alone Q w :
  inv w → (∀ e w', trans w [] w' → inv w' → still w w' → event_ok e → Q e [] w') →
  wpp tick_alone Q w.
Proof. intros I HQ. apply wpp_event; [done|]. intros. by apply HQ. Qed.

Lemma wpp_recover_file items p rest l0 w :
  inv w → gathering (p :: rest) items l0 w →
  wpp (recover_file items p) (λ r l w',
    match r with inl items' => gathering rest items' (l0 ++ l) w' | inr _ => True end) w.
Proof.
  intros I G. unfold recover_file. apply hoare_bind. eapply wpp_read_next; [done..|].
  intros r s1 v1 T1 I1 Hok Hcor. case_bool_decide as Hst.
  { apply hoare_ret; [done|]. cbn [app]. rewrite app_nil_r. by apply Hcor. }
  unfold read_success. case_bool_decide as Hsu; cbn [negb]; cycle 1.
  { apply hoare_bind, wpp_tame; [done|by split|]. intros T2 I2 S2. by apply hoare_ret. }
  destruct (Hok Hsu) as [G1 (fr & Hfr & Ht & Hp & Hfile & Hrp & Hrb)]. rewrite Hrb, Hrp.
  set (w1 := after_spool s1 v1 w) in *. apply hoare_bind. unfold decode_frame. apply hoare_bind, wpp_alone; [done|].
  intros e w2 T2 I2 S2 He.
  destruct (decode_alarm_frame_safe (e_alloc e) (frame_bytes fr) (frame_bytes_ok fr Hfr)) as (d & Hd & Hcase).
  apply hoare_bind. eapply hoare_defined; [done..|]. apply hoare_ret; [done|]. cbn [app].
  pose proof (gathering_still _ _ _ [] _ _ G1 ltac:(constructor) S2) as G2. rewrite app_nil_r in G2.
  assert (∀ w' l, inv w' → gathering (p :: rest) items (l0 ++ l) w' →
    wpp (set_aside (Some p) items) (λ r l' w'',
      match r with inl items' => gathering rest items' (l0 ++ l ++ l') w'' | inr _ => True end) w') as Haside.
  { intros w' l I' G'. eapply hoare_mono; [by eapply wpp_set_aside|]. cbv beta. intros [it|?] l' w'' _ _ HG; [|done].
    by rewrite app_assoc. }
  destruct (if decode_success d then _frame d else None) as [fr'|] eqn:Eo.
  2:{ eapply hoare_mono; [apply (Haside w2 []); [done|by rewrite app_nil_r]|]. cbv beta. done. }
  assert (fr' = fr) as ->.
  { case_decide; [|by rewrite Hcase in Eo; case_match]. destruct Hcase as (f & -> & Hf & Hb & _).
    cbn in Eo. injection Eo as <-. by apply frame_bytes_inj. }
  rewrite bool_decide_true by done. apply hoare_bind. unfold decode_payload.
  apply hoare_bind, wpp_alone; [done|]. intros e3 w3 T3 I3 S3 He3.
  pose proof (gathering_still _ _ _ [] _ _ G2 ltac:(constructor) S3) as G3.
  destruct (e_alloc e3); [|by apply wpp_bad_alloc].
  destruct (decode_reliable_defined fr Hfr) as [o Ho]. eapply hoare_defined; [done..|]. cbn [app].
  destruct o as [record|].
  2:{ eapply hoare_mono; [by apply (Haside w3 [])|]. done. }
  apply hoare_ret; [done|]. destruct G3 as [A L T O R Al]. apply Forall_cons in R as [_ R].
  split; [done|by rewrite app_nil_r in *|..|done|].
  - apply Forall_app. split; [done|]. apply Forall_singleton. split; cbn; [done..|].
    rewrite (still_sys _ _ S3), (still_sys _ _ S2). unfold item_path. cbn. by rewrite <- Hp.
  - rewrite map_app, <- app_assoc. cbn. unfold item_path at 2. cbn. by rewrite <- Hp.
  - intros q Hq Hf. rewrite map_app, <- app_assoc. cbn. unfold item_path at 2. cbn. rewrite <- Hp. by apply Al.
Qed.

Lemma wpp_gather paths w :
  inv w → _accepted (col w) = ∅ → all_files (fs (sys w)) paths →
  wpp (each recover_file paths []) (λ r l w',
    match r with inl items => gathering [] items l w' | inr _ => True end) w.
Proof.
  intros I HA (Hnd & Hin & Hall).
  apply (hoare_each _ (λ rest items l w', gathering rest items l w')); [done| | |by intros].
  { split; cbn; [done|constructor..|done|done|done]. }
  intros p rest items l0 w0 T0 I0 G. by apply wpp_recover_file.
Qed.

(** *** Replaying *)

Record replaying (f : FS) (sorted rest : list RecoveryItem) (l : list Obs) (w : CWorld U) : Prop := {
  re_done : map _iframe sorted = replayed l ++ map _iframe rest;
  re_disk : fs (sys w) = f;
  re_items : Forall (item_ok f) rest;
  re_accepted id : id ∈ _accepted (col w) ↔ id ∈ map identity_of (replayed l);
  re_once : NoDup (map identity_of (map _iframe sorted))
}.

Lemma wpp_ingest_alone frame record Q w :
  inv w →
  (∀ r w', let o := SawIngest frame record (_ustatus r) in
     trans w [o] w' → inv w' → still w w' → Q r [o] w') →
  wpp (ingest tick_alone frame record) Q w.
Proof.
  intros I HQ. unfold ingest. apply hoare_bind, wpp_alone; [done|]. intros e w1 T1 I1 S1 _.
  destruct (e_alloc e); cbn [negb]; [|by apply wpp_bad_alloc].
  apply hoare_bind. exists []. unfold on_engine.
  destruct (ingest_decoded_record _ _ _ _ _ _) as [[r en] u]. cbn [fst snd].
  set (w2 := mkCWorld (col w1) en u (sys w1) (script w1) (log w1)).
  assert (still w1 w2) as S2 by by split.
  assert (inv w2) as I2 by (apply (still_inv _ w1); try done; exact (inv_script _ _ I1)).
  assert (trans w1 [] w2) as T2 by (split; [done|by rewrite app_nil_r|done]).
  split; [done|]. destruct r as [r|]; [|by apply wpp_bad_alloc].
  apply hoare_bind, wpp_plain_obs; [done..|]. intros I3. apply hoare_ret; [done|]. cbn [app].
  set (o := SawIngest frame record (_ustatus r)) in *.
  assert (trans w2 [o] (log_with o w2)) as T3 by by split.
  apply HQ; [exact (col_trans_trans _ _ _ _ _ _ T1 (col_trans_trans _ _ _ _ _ _ T2 T3))|done|].
  eapply still_trans; [exact S1|]. eapply still_trans; [exact S2|]. by split.
Qed.

Lemma wpp_replay f sorted item rest l0 w :
  inv w → replaying f sorted (item :: rest) l0 w →
  wpp (replay tt item) (λ r l w',
    match r with inl _ => replaying f sorted rest (l0 ++ l) w' | inr _ => True end) w.
Proof.
  intros I [Hd <- Hi Ha Ho]. apply Forall_cons in Hi as [Hit Hi]. set (frame := _iframe item).
  assert (identity_of frame ∉ _accepted (col w)) as Hn.
  { rewrite Ha. intros Hin. rewrite Hd, map_app in Ho. apply NoDup_app in Ho as (_ & Ho & _).
    apply (Ho _ Hin). by left. }
  unfold replay. apply hoare_bind, wpp_ingest_alone; [done|]. intros r w1 o T1 I1 S1.
  destruct (ingest_succeeded (_ustatus r)) eqn:Eok; cbn [negb]; [|by apply hoare_ret].
  apply hoare_bind, wpp_alone; [done|]. intros e w2 T2 I2 S2 _.
  destruct (e_alloc e); cbn [negb]; [|by apply wpp_bad_alloc].
  pose proof (still_trans _ _ _ S1 S2) as S12. destruct Hit as [Hf Ht Hrec Hfile].
  apply hoare_bind, wpp_insert; [done|by rewrite (still_accepted _ _ S12)| |].
  { exists frame, (_irecord item). do 4 (split; [done|]). rewrite (still_sys _ _ S12). split; [done|].
    assert (log w2 = log w ++ [o]) as Hl.
    { by rewrite (tr_log _ _ _ _ T2), (tr_log _ _ _ _ T1), app_nil_r. }
    split.
    - apply ingested_app. exists frame, (_ustatus r). rewrite Hl. split; [apply elem_of_app; right; by left|done].
    - intros (frame' & Hk & Hid). exfalso. apply elem_of_app in Hk as [Hk|Hk]; [|by apply list_elem_of_singleton in Hk].
      apply Hn. rewrite <- (still_accepted _ _ S12). apply (inv_kept _ _ I2), list_elem_of_omap.
      exists (SawKept frame' true). split; [done|]. by f_equal. }
  intros w3 T3 I3 Hsys3 Hacc. apply hoare_bind, wpp_tame; [done|by split|]. intros T4 I4 S4.
  apply hoare_ret; [done|]. cbn [app].
  split; [by rewrite Hd, replayed_app, <- app_assoc| | | |done].
  - cbn. by rewrite Hsys3, (still_sys _ _ S12).
  - done.
  - intros id. cbn [with_col col]. change (_accepted (record_accepted (col w3))) with (_accepted (col w3)).
    rewrite Hacc, (still_accepted _ _ S12), replayed_app, map_app, elem_of_app, elem_of_union,
      elem_of_singleton, Ha. cbn. rewrite list_elem_of_singleton. tauto.
Qed.

(** ** The recovery *)

Lemma StronglySorted_frames items :
  StronglySorted recovery_le items → StronglySorted frame_le (map _iframe items).
Proof.
  induction 1 as [|item items _ IH Hall]; cbn; constructor; [done|].
  apply Forall_fmap. exact Hall.
Qed.

(** What a successful recovery leaves: the alarms of the inbox, all of them and no
    others, were written to the engine in the order of their time and accepted. *)
Record recovered (l : list Obs) (w : CWorld U) : Prop := {
  rc_sorted : StronglySorted frame_le (replayed l);
  rc_accepted id : id ∈ _accepted (col w) ↔ id ∈ map identity_of (replayed l);
  rc_frames fr : fr ∈ replayed l →
    file (fs (sys w)) (alarm_path root INBOX fr) = Some (frame_bytes fr);
  rc_files q b : is_inside (data_dir root INBOX) q → file (fs (sys w)) q = Some b →
    ∃ fr, fr ∈ replayed l ∧ q = alarm_path root INBOX fr ∧ b = frame_bytes fr
}.

Lemma map_iframe_paths items :
  map item_path items = map (alarm_path root INBOX) (map _iframe items).
Proof. by rewrite map_map. Qed.

Lemma identities_once items f :
  Forall (item_ok f) items → NoDup (map item_path items) → NoDup (map identity_of (map _iframe items)).
Proof.
  induction 1 as [|item items Hit Hits IH]; cbn; [constructor|].
  intros [Hn Hnd]%NoDup_cons. constructor; [|by apply IH]. intros Hin. apply Hn.
  apply list_elem_of_fmap in Hin as (fr & Hid & Hfr). apply list_elem_of_fmap in Hfr as (item' & -> & Hin').
  apply list_elem_of_fmap. exists item'. split; [|done]. unfold item_path, alarm_path.
  injection Hid as H1 H2. by rewrite H1, H2.
Qed.

Lemma replay_all items l0 w :
  inv w → gathering [] items l0 w →
  wpp (each replay (merge_sort recovery_le items) tt) (λ r l w',
    match r with inl _ => recovered (l0 ++ l) w' | inr _ => True end) w.
Proof.
  intros I G. set (sorted := merge_sort recovery_le items).
  assert (sorted ≡ₚ items) as Hp by apply merge_sort_Permutation.
  pose proof (ga_items _ _ _ _ G) as Hit. pose proof (ga_once _ _ _ _ G) as Honce. rewrite app_nil_r in Honce.
  assert (Forall (item_ok (fs (sys w))) sorted) as Hit' by by rewrite Hp.
  assert (NoDup (map identity_of (map _iframe sorted))) as Hids.
  { eapply identities_once; [done|]. by rewrite Hp. }
  eapply hoare_mono; [apply (hoare_each _ (λ rest _ l w', replaying (fs (sys w)) sorted rest l w')
    (λ r l w', match r with inl _ => replaying (fs (sys w)) sorted [] l w' | inr _ => True end));
    [done| |by intros item rest [] l w0 T0 I0 R; apply wpp_replay|by intros []]|].
  { split; cbn; [done..| |done]. intros id. rewrite (ga_accepted _ _ _ _ G).
    split; [by intros ?%elem_of_empty|by intros ?%not_elem_of_nil]. }
  cbv beta. intros [[]|[]] l w' T' I' HR; [|done]. destruct HR as [Hd Hfs _ Ha _].
  cbn [map] in Hd. rewrite app_nil_r in Hd.
  assert (replayed (l0 ++ l) = map _iframe sorted) as Hrep.
  { rewrite replayed_app, (no_ingest_none l0) by by apply G. done. }
  split; rewrite ?Hrep, ?Hfs.
  - apply StronglySorted_frames, Sorted_StronglySorted; [apply _|]. apply Sorted_merge_sort, _.
  - intros id. rewrite Ha, Hd. done.
  - intros fr Hin. apply list_elem_of_fmap in Hin as (item & -> & Hin). rewrite Forall_forall in Hit'.
    apply (it_file _ _ (Hit' item Hin)).
  - intros q b Hq Hb. pose proof (ga_all _ _ _ _ G q Hq ltac:(eauto)) as Hin. rewrite app_nil_r, <- Hp in Hin.
    apply list_elem_of_fmap in Hin as (item & -> & Hin). exists (_iframe item).
    split; [apply list_elem_of_fmap; eauto|]. split; [done|].
    rewrite Forall_forall in Hit'. rewrite (it_file _ _ (Hit' item Hin)) in Hb. by injection Hb.
Qed.

Lemma wpp_recover_inbox w :
  inv w → _accepted (col w) = ∅ →
  wpp (recover_inbox config) (λ b l w', b = true → recovered l w') w.
Proof.
  intros I HA. unfold recover_inbox. apply hoare_bind, wpp_collect; [done|]. intros o w1 T1 I1 HA1 Hall.
  destruct o as [paths|]; [|by apply hoare_ret].
  apply hoare_bind, wpp_alone; [done|]. intros e w2 T2 I2 S2 _.
  destruct (e_alloc e); cbn [negb]; [|by apply wpp_bad_alloc]. cbn [app].
  apply hoare_bind. eapply hoare_mono.
  { apply wpp_gather; [done|by rewrite (still_accepted _ _ S2), HA1|rewrite (still_sys _ _ S2); by apply Hall]. }
  cbv beta. intros [items|[]] l3 w3 T3 I3 HG; [|by apply hoare_ret].
  apply hoare_bind. eapply hoare_mono; [by eapply replay_all|]. cbv beta.
  intros [[]|[]] l4 w4 T4 I4 HR; (apply hoare_ret; [done|]); [|done]. intros _. by rewrite app_nil_r.
Qed.

(** ** Until the worker is started *)

(** The collector does not run and says so. *)
Definition down (w : CWorld U) : Prop :=
  _active (col w) = false ∧ _csetup_status (col w) ≠ SETUP_SUCCESS.
Definition stays_down (w w' : CWorld U) : Prop := down w → down w'.

#[local] Instance stays_down_preorder : PreOrder stays_down.
Proof. split; [by intros w ?|]. intros w w1 w2 H1 H2 H0. by apply H2, H1. Qed.

Lemma down_act o w : stays_down w (act o w).
Proof.
  intros Hw. destruct o as [|phase|data ts force]; cbn; [split; [done|apply Hw]|done|].
  by destruct (update_data_at _ _ _ _ _ _) as [[r en] u].
Qed.

Lemma down_event keep : respects stays_down (take_event keep).
Proof.
  intros w. unfold take_event. cbn [snd]. generalize (filter (λ o, keep o = true)
    (e_outer (default last_event (head (script w))))). intros os.
  enough (∀ w0, stays_down w0 (foldl (flip act) w0 os)) as He by exact (He (mkCWorld _ _ _ _ _ _)).
  induction os as [|o os IH]; intros w0; [by intros ?|]. cbn [foldl]. etrans; [apply (down_act o)|apply IH].
Qed.
Lemma down_tick : respects stays_down tick.
Proof. apply down_event. Qed.
Lemma down_alone : respects stays_down tick_alone.
Proof. apply down_event. Qed.
Lemma down_get : respects stays_down get_impl.
Proof. by intros w ?. Qed.
Lemma down_obs o : respects stays_down (record_obs o).
Proof. by intros w ?. Qed.
Lemma down_system {A} (m : Sys A) : respects stays_down (on_system m).
Proof. intros w Hw. unfold on_system. by destruct (m _). Qed.
Lemma down_spool {A} (m : AlarmSpool → Sys (A * AlarmSpool)) : respects stays_down (on_spool m).
Proof. intros w Hw. unfold on_spool. destruct (_spool (col w)); [|done]. by destruct (m _ _) as [[? ?] ?]. Qed.
Lemma down_engine {A} (m : Engine U → U → A * Engine U * U) : respects stays_down (on_engine m).
Proof. intros w Hw. unfold on_engine. by destruct (m _ _) as [[? ?] ?]. Qed.
Lemma down_setup st e : st ≠ SETUP_SUCCESS → respects stays_down (modify (set_setup st e)).
Proof. intros Hst w [Ha _]. by split. Qed.
#[local] Hint Resolve down_tick down_alone down_get down_obs down_system down_spool down_engine : respect.
#[local] Hint Extern 1 (respects stays_down (modify (set_setup _ _))) => by apply down_setup : respect.
#[local] Hint Extern 2 (respects stays_down (modify _)) => by intros ? [? ?]; split : respect.

Lemma down_recover : respects stays_down (recover config).
Proof.
  unfold recover, recover_inbox, collect_recovery_paths, recover_file, replay, set_aside, ingest,
    insert_accepted, decode_frame, decode_payload, bad_alloc, fail_setup. respectful.
Qed.

Lemma down_pipe p : respects stays_down (@init (CWorld U) alone_syscalls p).
Proof. unfold init, set_non_blocking, set_close_on_exec, and_then. cbn [syscall alone_syscalls]. respectful. Qed.
Lemma down_listener : respects stays_down open_listener.
Proof. unfold open_listener, try_listen, set_nonblocking_and_cloexec. respectful. Qed.
Lemma down_close_listener : respects stays_down close_listener.
Proof. unfold close_listener, shutdown_close, close_fd. respectful. Qed.
#[local] Hint Resolve down_recover down_pipe down_listener : respect.

(** ** What follows the recovery *)

(** A step that neither touches the disk nor replays. *)
Definition arranged (w w' : CWorld U) : Prop :=
  still w w' ∧ ∃ l, log w' = log w ++ l ∧ Forall no_ingest l.

#[local] Instance arranged_preorder : PreOrder arranged.
Proof.
  split.
  - intros w. split; [apply still_refl|]. exists []. by rewrite app_nil_r.
  - intros w w1 w2 [S1 (l & Hl & Fl)] [S2 (k & Hk & Fk)]. split; [by eapply still_trans|].
    exists (l ++ k). by rewrite Hk, Hl, app_assoc, Forall_app.
Qed.

Lemma arranged_event keep : respects arranged (take_event keep).
Proof.
  intros w. unfold take_event. cbn [snd]. set (e := default _ _). set (w0 := mkCWorld _ _ _ _ _ _).
  destruct (acts_still (filter (λ o, keep o = true) (e_outer e)) w0) as (S & [_ Hl] & _).
  split; [|exists []; by rewrite app_nil_r, Hl]. eapply still_trans; [|exact S]. by split.
Qed.
Lemma arranged_tick : respects arranged tick.
Proof. apply arranged_event. Qed.
Lemma arranged_alone : respects arranged tick_alone.
Proof. apply arranged_event. Qed.
Lemma arranged_get : respects arranged get_impl.
Proof. intros w. cbn. reflexivity. Qed.
Lemma arranged_close fd : respects arranged (record_obs (SawClose fd)).
Proof. intros w. split; [by split|]. exists [SawClose fd]. by repeat constructor. Qed.
Lemma arranged_modify g : (∀ i, tame g i) → respects arranged (modify g).
Proof.
  intros Hg w. split; [|exists []; by rewrite app_nil_r]. destruct (Hg (col w)). by split.
Qed.
#[local] Hint Resolve arranged_tick arranged_alone arranged_get arranged_close : respect.
#[local] Hint Extern 1 (respects arranged (modify _)) => apply arranged_modify; by split : respect.
#[local] Hint Resolve mild_tick mild_tick_alone mild_get mild_nonblocking : mild.

Lemma recovered_arranged l k w w' :
  recovered l w → log w' = log w ++ k → arranged w w' → recovered (l ++ k) w'.
Proof.
  intros [R1 R2 R3 R4] Hk [S (k' & Hk' & Hn)]. rewrite Hk in Hk'. apply app_inv_head in Hk' as <-.
  assert (replayed (l ++ k) = replayed l) as Hr by by rewrite replayed_app, (no_ingest_none k Hn), app_nil_r.
  split; rewrite ?Hr, ?(still_sys _ _ S), ?(still_accepted _ _ S); done.
Qed.

Lemma arranged_pipe p : respects arranged (@init (CWorld U) alone_syscalls p).
Proof. unfold init, set_non_blocking, set_close_on_exec, and_then. cbn [syscall alone_syscalls]. respectful. Qed.
Lemma arranged_listener : respects arranged open_listener.
Proof. unfold open_listener, try_listen, set_nonblocking_and_cloexec. respectful. Qed.
Lemma arranged_start_worker : respects arranged start_worker.
Proof. unfold start_worker, close_listener, shutdown_close, close_fd, fail_setup. respectful. Qed.

(** The listener, when there is one. *)
Lemma wpp_try_listen n w :
  inv w → wpp (try_listen tt n) (λ r _ w', match r with inl _ => True | inr _ => 0 <= _listener (col w') end) w.
Proof.
  intros I. unfold try_listen. apply hoare_bind, wpp_alone; [done|]. intros e w1 T1 I1 S1 _.
  assert (∀ e w', inv w' → wpp (_ ← modify (set_setup_error e); mret (inl tt : unit + unit))
    (λ r _ w', match r with inl _ => True | inr _ => 0 <= _listener (col w') end) w') as Hfail.
  { intros e' w' I'. apply hoare_bind, wpp_tame; [done|by split|]. intros. by apply hoare_ret. }
  destruct (e_ret e <? 0) eqn:E; [by apply Hfail|]. ztests.
  assert (∀ e' w', inv w' → wpp (_ ← record_obs (SawClose (e_ret e)); _ ← modify (set_setup_error e');
      mret (inl tt : unit + unit))
    (λ r _ w', match r with inl _ => True | inr _ => 0 <= _listener (col w') end) w') as Hback.
  { intros e' w' I'. apply hoare_bind, wpp_plain_obs; [done..|]. intros. by apply Hfail. }
  apply hoare_bind, wpp_alone; [done|]. intros e2 w2 T2 I2 S2 _.
  apply hoare_bind. eapply hoare_mono; [by apply mild_nonblocking; [apply mild_tick_alone|]|].
  cbv beta. intros [e3|] l3 w3 T3 I3 _; [by apply Hback|].
  do 3 (apply hoare_bind, wpp_alone; [done|]; intros ? ? ? ? ? _; case_match; [by apply Hback|]).
  case_match; [|by apply Hback]. apply hoare_bind, wpp_tame; [done|by split|]. intros.
  by apply hoare_ret.
Qed.

Lemma wpp_listener w :
  inv w → wpp open_listener (λ b _ w', b = true → 0 <= _listener (col w')) w.
Proof.
  intros I. unfold open_listener. apply hoare_bind, wpp_alone; [done|]. intros e w1 T1 I1 S1 _.
  case_match; [apply hoare_bind, wpp_tame; [done|by split|]; intros; by apply hoare_ret|].
  apply hoare_bind. eapply hoare_mono; [apply (hoare_each _ (λ _ _ _ _, True)
    (λ r _ w', match r with inl _ => True | inr _ => 0 <= _listener (col w') end)); try done|].
  - intros n rest [] l0 w0 T0 I0 _. eapply hoare_mono; [by apply wpp_try_listen|]. by intros [].
  - cbv beta. intros [[]|[]] l w' T' I' HL; by apply hoare_ret.
Qed.

(** The collector is up, or it is not and says so. *)
Definition launched (b : bool) (w : CWorld U) : Prop :=
  if b then _active (col w) = true ∧ _stop (col w) = false ∧ _csetup_status (col w) = SETUP_SUCCESS
            ∧ 0 <= _listener (col w)
  else down w.

Lemma acts_alone os : Forall (λ o, o ≠ OuterStop) os → ∀ w : CWorld U, col (foldl (flip act) w os) = col w.
Proof.
  induction 1 as [|o os Ho _ IH]; intros w; [done|]. cbn [foldl]. rewrite IH. unfold flip.
  destruct o as [|phase|data ts force]; [done..|]. cbn.
  by destruct (update_data_at _ _ _ _ _ _) as [[r en] u].
Qed.

Lemma alone_run (w : CWorld U) : ∃ e w', tick_alone w = (Returned e, w') ∧ col w' = col w.
Proof.
  eexists _, _. split; [reflexivity|]. rewrite acts_alone; [done|].
  apply Forall_forall. intros o [Ho _]%list_elem_of_filter. by destruct o.
Qed.

Lemma start_worker_run (w : CWorld U) :
  0 <= _listener (col w) → down w →
  ∃ b, (start_worker w).1 = Returned b ∧ launched b (start_worker w).2.
Proof.
  intros Hl [_ Hst]. unfold start_worker. set (w0 := with_col (set_flags false true) w).
  rewrite (bind_returned (modify _) _ w tt w0 eq_refl).
  destruct (alone_run w0) as (e & w1 & Ht & Hc). rewrite (bind_returned _ _ _ _ _ Ht). cbv zeta.
  set (failed := λ e' : Z, _ ← modify (λ i, set_flags (_stop i) false i); _ ← close_listener;
     fail_setup (U := U) THREAD_ERROR e').
  assert (∀ e', ∃ b, (failed e' w1).1 = Returned b ∧ launched b (failed e' w1).2) as Hfail.
  { intros e'. subst failed. set (w2 := with_col (λ i, set_flags (_stop i) false i) w1).
    cbv beta. rewrite (bind_returned (modify _) _ w1 tt w2 eq_refl).
    destruct (close_listener_leaves w2) as (w3 & Hc3 & _). rewrite (bind_returned _ _ _ _ _ Hc3).
    exists false. split; [done|]. pose proof (down_close_listener w2) as Hd. rewrite Hc3 in Hd.
    split; [|done]. apply Hd. subst w2. split; cbn; by rewrite ?Hc. }
  destruct (e_alloc e); cbn [negb]; [|apply Hfail]. destruct (e_ret e =? 0); cbn [negb]; [|apply Hfail].
  exists true. split; [done|]. rewrite (bind_returned (modify _) _ w1 tt _ eq_refl). cbn. by rewrite Hc.
Qed.

Lemma wpp_recover w :
  inv w → _accepted (col w) = ∅ →
  wpp (recover config) (λ b l w', b = true → recovered l w') w.
Proof.
  intros I HA. unfold recover. apply hoare_catch.
  - apply hoare_bind. eapply hoare_mono; [by apply wpp_recover_inbox|]. cbv beta.
    intros b l w1 T1 I1 HR. destruct b.
    + apply hoare_ret; [done|]. intros _. rewrite app_nil_r. by apply HR.
    + apply hoare_bind, col_wpp_get; [done|]. unfold fail_setup. apply hoare_bind, wpp_tame; [done|by split|].
      intros. by apply hoare_ret.
  - intros e l w1 T1 I1. unfold fail_setup. apply hoare_bind, wpp_tame; [done|by split|].
    intros. by apply hoare_ret.
Qed.

(** A step after the recovery keeps what it established. *)
Lemma wpp_arranged {A} (m : Col A) (Q : A → list Obs → CWorld U → Prop) l0 w :
  inv w → recovered l0 w → down w → mild m → respects arranged m → respects stays_down m →
  (∀ x l w', inv w' → recovered (l0 ++ l) w' → down w' → Q x l w') →
  wpp m Q w.
Proof.
  intros I R D Hm Ha Hd HQ.
  eapply hoare_mono; [apply (hoare_respects _ _ _ _ (hoare_respects _ _ _ _ (Hm w I) Ha) Hd)|].
  cbv beta. intros x l w' T I' [[_ A'] D']. apply HQ; [done| |by apply D'].
  by eapply recovered_arranged; [|apply (tr_log _ _ _ _ T)|].
Qed.

Lemma wpp_fail_setup st e (Q : bool → list Obs → CWorld U → Prop) w :
  inv w → down w → st ≠ SETUP_SUCCESS → (∀ w', down w' → Q false [] w') → wpp (fail_setup st e) Q w.
Proof.
  intros I D Hst HQ. unfold fail_setup. apply hoare_bind, wpp_tame; [done|by split|]. intros.
  apply hoare_ret; [done|]. apply HQ. split; [apply D|done].
Qed.

(** The state in which the inbox is open and the recovery begins. *)
Lemma wpp_start_up w :
  inv w → _accepted (col w) = ∅ → down w →
  wpp (start_up config) (λ b l w', launched b w' ∧ (b = true → recovered l w')) w.
Proof.
  intros I HA D. unfold start_up. apply hoare_bind.
  eapply hoare_mono; [apply (hoare_respects _ _ _ _ (wpp_recover w I HA) down_recover)|].
  cbv beta. intros b l0 w0 T0 I0 [HR D0]. specialize (D0 D). destruct b; cbn [negb]; [|by apply hoare_ret].
  specialize (HR eq_refl).
  apply hoare_bind, col_wpp_get; [done|]. apply hoare_bind.
  eapply (wpp_arranged _ _ l0); [done..|apply mild_pipe|apply arranged_pipe|apply down_pipe|].
  intros [st pipe] l1 w1 I1 R1 D1. apply hoare_bind, wpp_tame; [done|by split|]. intros T2 I2 S2.
  set (w2 := with_col _ w1) in *. cbn [app].
  assert (down w2) as D2 by done. assert (recovered (l0 ++ l1) w2) as R2 by (destruct R1; by split).
  case_bool_decide; cbn [negb]; [|by apply wpp_fail_setup].
  apply hoare_bind. eapply hoare_mono.
  { apply (hoare_respects _ _ _ _ (hoare_respects _ _ _ _ (wpp_listener w2 I2) arranged_listener) down_listener). }
  cbv beta. intros b l3 w3 T3 I3 [[HL A3] D3]. specialize (D3 D2). destruct b; cbn [negb].
  2:{ apply hoare_bind, col_wpp_get; [done|]. by apply wpp_fail_setup. }
  pose proof (recovered_arranged _ _ _ _ R2 (tr_log _ _ _ _ T3) A3) as R3.
  destruct (start_worker_run w3 (HL eq_refl) D3) as (b & Hb & Hlaunch).
  destruct (hoare_respects _ _ _ _ (mild_start_worker root w3 I3) arranged_start_worker) as (l4 & T4 & HM).
  exists l4. split; [done|]. rewrite Hb in *. split; [done|]. intros _.
  rewrite !app_assoc in *. eapply recovered_arranged; [exact R3|apply (tr_log _ _ _ _ T4)|apply HM].
Qed.

Lemma nothrow_start_up : nothrow (W := CWorld U) (start_up config).
Proof.
  unfold start_up, recover, fail_setup, init, set_non_blocking, set_close_on_exec, and_then, open_listener,
    try_listen, set_nonblocking_and_cloexec, start_worker, close_listener, shutdown_close, close_fd.
  cbn [syscall alone_syscalls]. noexcept.
Qed.

(** ** The constructor *)

Definition starting (w : CWorld U) : Prop :=
  col w = new_impl ∧ log w = [] ∧ disk_ok root INBOX (fs (sys w)) ∧ Forall event_ok (script w).

Definition initialized (o : Outcome bool) (w : CWorld U) : Prop :=
  match o with
  | Returned true => inv w ∧ launched true w ∧ recovered (log w) w
  | Returned false => down w
  | Thrown e => e = OtherExn ∧ down w
  | Stuck => False
  end.

Lemma alone_open (w : CWorld U) : Forall event_ok (script w) →
  ∃ e w', tick_alone w = (Returned e, w') ∧ col w' = col w ∧ sys w' = sys w ∧ log w' = log w
    ∧ Forall event_ok (script w').
Proof.
  intros Hs. destruct (alone_run w) as (e & w' & Ht & Hc). exists e, w'. split; [done|]. split; [done|].
  assert (w' = (tick_alone w).2) as -> by by rewrite Ht. unfold tick_alone, take_event. cbn [snd].
  set (w0 := mkCWorld _ _ _ _ _ _). match goal with |- context [foldl _ w0 ?os] => destruct (acts_still os w0) as (S & [Hsc Hl] & _) end.
  split; [apply S|]. split; [exact Hl|]. rewrite Hsc. cbn.
  destruct (script w); [done|]. by inversion Hs.
Qed.

Lemma new_impl_down (w : CWorld U) : col w = new_impl → down w.
Proof. intros Hw. unfold down. by rewrite Hw. Qed.

Lemma fail_setup_run st e (w : CWorld U) : down w → st ≠ SETUP_SUCCESS →
  let '(o, w') := fail_setup st e w in initialized o w'.
Proof. intros [Ha _] Hst. by split. Qed.

(** The first invariant: nothing accepted, no connection. *)
Lemma inv_opened s (w : CWorld U) :
  col w = new_impl → log w = [] → Forall event_ok (script w) →
  ready_in s (fs (sys w)) → _sroot s = root → kind_of s = INBOX → inv (with_col (set_spool s) w).
Proof.
  intros Hi Hl Hev R Hr Hk. split; cbn; rewrite ?Hi, ?Hl; cbn; try done.
  - by exists s.
  - intros id. split; [by intros ?%not_elem_of_nil|by intros ?%elem_of_empty].
  - constructor.
  - intros l1 fd response l2 He. by destruct l1.
Qed.

Lemma open_inbox_run w :
  Forall plain root → starting w →
  let '(o, w') := open_inbox config w in
  match o with
  | Returned (inl s) => _ready s = false ∧ down w' ∨ _ready s = true ∧
      ∃ w1, col w1 = new_impl ∧ log w1 = [] ∧ Forall event_ok (script w1)
        ∧ w' = with_col (set_spool s) w1 ∧ ready_in s (fs (sys w1)) ∧ _sroot s = root ∧ kind_of s = INBOX
  | Returned (inr b) => b = false ∧ down w'
  | Thrown e => e = OtherExn ∧ down w'
  | Stuck => False
  end.
Proof.
  intros Hpl (Hi & Hl & Hdisk & Hev). destruct (alone_open w Hev) as (e & w1 & Ht & Hc1 & Hs1 & Hl1 & Hev1).
  rewrite Hi in Hc1. rewrite Hl in Hl1. unfold open_inbox, make_inbox, catch, mbind, Eff_bind. rewrite Ht.
  destruct (e_alloc e); cbn [negb]; [|cbn; split; [done|]; by split; cbn; rewrite ?Hc1].
  unfold on_system. rewrite Hdir, Hs1.
  pose proof (wp_make_spool root INBOX 0 (sys w) Hpl Hdisk) as Hm.
  cbv zeta in Hm. unfold wp in Hm. destruct (make_spool _ (sys w)) as [o v]. cbn [fst snd] in Hm.
  destruct Hm as [_ Hs]. destruct o as [s|]; [|split; [done|]; by apply new_impl_down].
  destruct (Hs s eq_refl) as [Hconf Hrd]. cbn. destruct (_ready s) eqn:Er; [right|left].
  - destruct (Hrd eq_refl) as [Hroot R]. split; [done|]. eexists (mkCWorld _ _ _ v _ _). split; [exact Hc1|].
    split; [exact Hl1|]. split; [exact Hev1|]. split; [reflexivity|]. unfold kind_of. by rewrite Hconf.
  - split; [done|]. by split; cbn; rewrite ?Hc1.
Qed.

Lemma col_initialize_run w :
  Forall plain root → starting w →
  let '(o, w') := ReliableCollector.initialize config w in initialized o w'.
Proof.
  intros Hpl Hst. unfold ReliableCollector.initialize. rewrite (cfg_valid _ Hcfg). cbn [negb].
  rewrite (bind_returned (on_engine _) _ w (engine_accepts_recovery (engine w)) w) by by destruct w.
  destruct (engine_accepts_recovery (engine w)); cbn [negb]; [|by apply fail_setup_run; [apply new_impl_down, Hst|]].
  pose proof (open_inbox_run w Hpl Hst) as Ho. unfold mbind, Eff_bind.
  destruct (open_inbox config w) as [[[s|b]|e|] w1]; [|by destruct Ho as [-> ?]|done..].
  destruct Ho as [[-> D]|(-> & w0 & Hi & Hl & Hev & -> & R & Hr & Hk)]; cbn [negb]; [by apply fail_setup_run|].
  pose proof (inv_opened s w0 Hi Hl Hev R Hr Hk) as I1.
  destruct (wpp_start_up _ I1) as (l & T & HP).
  { cbn. by rewrite Hi. } { split; cbn; by rewrite Hi. }
  pose proof (nothrow_start_up (with_col (set_spool s) w0)) as Hn.
  pose proof (tr_log _ _ _ _ T) as Hlog. cbn [with_col log] in Hlog. rewrite Hl in Hlog. cbn in Hlog.
  destruct (start_up config _) as [[b|e|] w']; cbn [fst snd] in *; [|by edestruct Hn|done].
  destruct HP as [HL HR]. destruct b; [|done]. cbn. rewrite Hlog. split; [by eapply tr_inv|]. split; [done|].
  by apply HR.
Qed.

End Recovery.
