(* ===== verification/CollectorClaims.v ===== *)
(** The contract of the reliable alarm collector: what an acknowledgement means,
    how the worker ends, what a start replays, and the publisher and the collector
    together. *)

From Stdlib Require Import String.
From S2P Require Import Prelude Effects MonitorData MonitorWire MonitorStore ModuleRegistry MonitorReporter.
From S2P Require Import AlarmProtocol AlarmStream FileSystem AlarmSpool AlarmSpoolSafety SpoolLifecycle SpoolQueue.
From S2P Require Import WakePipe Engine ReliableCollector CollectorSafety CollectorRecovery.
From S2P Require ReliablePublisher PublisherSafety PublisherClaims.
#[local] Existing Instance PublisherClaims.set_aside_dec.
#[local] Open Scope tlss_scope.

(** ** A scenario: a collector that is sent one alarm, and its next start *)

Definition demo_config : ReliableAlarmCollectorConfig :=
  mkCollectorConfig (literal "localhost") 7000 (Some demo_root) 4 5000.

Definition answer (ret errno : Z) (b : bytes) (revents : list Z) : Event :=
  mkEvent [] 0 ret errno b (3, 4) 1 (Some 7000) revents true no_oom true.
Definition ok : Event := answer 0 0 [] [].

(** The alarm of the publisher's scenario. *)
Definition demo_frame : AlarmFrame :=
  mkFrame ALARM 7 PublisherClaims.demo_id 1700000000123 (v2_datagram PublisherClaims.demo_record).

Definition demo_construction : list Event := replicate 22 ok.
Definition demo_accepting : list Event :=
  [ok; ok; answer 1 0 [] [POLLIN; 0]; ok; answer 9 0 [] []; ok; ok; ok; ok; ok; ok; ok;
   answer (-1) EAGAIN [] []].
Definition demo_serving : list Event :=
  [ok; ok; ok; answer 1 0 [] [0; 0; Z.lor POLLIN POLLOUT]; ok;
   answer 0 0 (frame_bytes demo_frame) []; ok; ok; ok; ok; ok; ok; ok; ok; answer 48 0 [] []; ok; ok].

#[local] Existing Instance listed_order.

Definition demo_engine : Engine unit := mkEngine READY empty_registry (Some (mkContext ∅ None None)).
Definition demo_world (f : FS) (l : list Event) : CWorld unit :=
  mkCWorld new_impl demo_engine tt (calm f) l [].
Definition demo_ready (f : FS) (l : list Event) : CWorld unit :=
  (ReliableCollector.initialize demo_config (demo_world f (demo_construction ++ l))).2.
Definition demo_done : CWorld unit :=
  (run 4242 demo_config (demo_ready demo_disk (demo_accepting ++ demo_serving))).2.

Lemma col_demo_config_ok : config_ok demo_config.
Proof. by split; vm_compute. Qed.

Lemma demo_frame_ok : frame_ok demo_frame.
Proof. by apply (bool_decide_unpack _), I. Qed.

Lemma col_answer_ok ret errno b revents : is_i64 ret → bytes_ok b → event_ok (answer ret errno b revents).
Proof. intros Hr Hb. split; cbn; [unfold CLOCK_MAX; lia|done..]. Qed.

Lemma col_demo_events_ok : Forall event_ok (demo_construction ++ demo_accepting ++ demo_serving).
Proof.
  unfold demo_construction, demo_accepting, demo_serving, ok. cbn [app replicate].
  repeat (apply Forall_cons; split; [apply col_answer_ok; [done|]|]); try done;
    try lazymatch goal with |- bytes_ok [] => constructor end.
  apply frame_bytes_ok, demo_frame_ok.
Qed.

Lemma demo_starting f l :
  disk_ok demo_root INBOX f → Forall event_ok l → starting demo_root (demo_world f l).
Proof. by intros. Qed.

Lemma col_demo_disk_ok : disk_ok demo_root INBOX demo_disk.
Proof.
  destruct (demo_fresh INBOX) as [Hwf Hl Hn]. split; [done|done|]. intros p i Hin Hp.
  by destruct (Hn p i Hin Hp).
Qed.

Lemma col_demo_ready_inv : inv demo_root (demo_ready demo_disk (demo_accepting ++ demo_serving)).
Proof.
  unfold demo_ready. pose proof (col_initialize_run demo_config demo_root col_demo_config_ok eq_refl
    (demo_world demo_disk (demo_construction ++ demo_accepting ++ demo_serving))
    PublisherClaims.demo_root_plain (demo_starting _ _ col_demo_disk_ok col_demo_events_ok)) as Hi.
  assert ((ReliableCollector.initialize demo_config
     (demo_world demo_disk (demo_construction ++ demo_accepting ++ demo_serving))).1 = Returned true) as Hr
    by by vm_compute.
  destruct (ReliableCollector.initialize _ _) as [o w]. cbn [fst snd] in *. subst o. apply Hi.
Qed.

Lemma demo_queued : ∃ l1 l2, log demo_done = l1 ++ SawQueue 9 PublisherClaims.demo_ack :: l2.
Proof. exists (take 6 (log demo_done)), (drop 7 (log demo_done)). by vm_compute. Qed.

(** ** The contract *)



(** C14. The worker ends. Whatever it meets, [run] returns: no exception leaves it,
    it does not run into undefined behaviour, and each of its loops goes on only
    while its surroundings keep answering. It has then closed every connection it
    accepted, unless it ran out of memory; it is not active; and it took no alarm
    twice. *)
Theorem collector_worker_ends `{DirOrder} {U} pid config root (w : CWorld U) :
  config_ok config → inv root w →
  ∃ l w', run pid config w = (Returned tt, w') ∧ log w' = log w ++ l
    ∧ _clients (col w') = [] ∧ _active (col w') = false
    ∧ (SawBadAlloc ∉ l → opened l ++ fds w ≡ₚ closed l)
    ∧ NoDup (kept_ids (log w')).
Proof.
  intros Hcfg I. destruct (run_returns pid config root Hcfg w I) as (l & w' & Hr & T & Hc & Ha & Hd).
  exists l, w'. split; [done|]. split; [apply (tr_log _ _ _ _ T)|]. do 3 (split; [done|]).
  apply (inv_once _ _ (tr_inv _ _ _ _ T)).
Qed.

Lemma collector_worker_ends_witness :
  ∃ w', run 4242 demo_config (demo_ready demo_disk (demo_accepting ++ demo_serving)) = (Returned tt, w')
    ∧ _clients (col w') = [] ∧ NoDup (kept_ids (log w')).
Proof.
  destruct (collector_worker_ends 4242 demo_config demo_root _ col_demo_config_ok col_demo_ready_inv)
    as (l & w' & Hr & _ & Hc & _ & _ & Hn).
  exists w'. split; [exact Hr|]. split; [exact Hc|exact Hn].
Defined.

(** [stop] while the worker is between two rounds: it returns, and neither a
    connection nor the listener is left; what was accepted stays as it was. *)
Theorem collector_stop_closes `{DirOrder} {U} pid config root (w : CWorld U) :
  config_ok config → inv root w →
  ∃ w', stop (run pid config) w = (Returned tt, w') ∧ inv root w'
    ∧ _clients (col w') = [] ∧ _listener (col w') < 0.
Proof.
  intros Hcfg I. destruct (stop_returns root (run pid config) w I) as (l & w' & Hr & T & Hc & Hl).
  - by apply safe_run.
  - apply col_nothrow_run.
  - exists w'. split; [done|]. split; [by eapply tr_inv|done].
Qed.

Lemma collector_stop_closes_witness :
  ∃ w', stop (run 4242 demo_config) (demo_ready demo_disk (demo_accepting ++ demo_serving)) = (Returned tt, w')
    ∧ _listener (col w') < 0.
Proof.
  destruct (collector_stop_closes 4242 demo_config demo_root _ col_demo_config_ok col_demo_ready_inv)
    as (w' & Hr & _ & _ & Hl).
  exists w'. split; [exact Hr|exact Hl].
Defined.

(** C13. The start. From a file system whose inbox is well formed and whatever the
    calls answer, the constructor ends (only an exception that is not
    [std::bad_alloc] can leave it, and only while the inbox is opened). When it
    reports that the collector is ready, the worker is active on a listening
    socket, and the files of the inbox are exactly the alarms that were written to
    the engine, one after the other in the order of time, source and identifier,
    each of them accepted; otherwise it is not active and says so. *)
Theorem collector_recovers `{DirOrder} {U} config root (w : CWorld U) :
  config_ok config → _inbox_dir config = Some root → Forall plain root →
  col w = new_impl → log w = [] → disk_ok root INBOX (fs (sys w)) → Forall event_ok (script w) →
  let '(o, w') := ReliableCollector.initialize config w in
  match o with
  | Returned true =>
      inv root w' ∧ ready (col w') = true ∧ _stop (col w') = false ∧ 0 <= _listener (col w')
      ∧ StronglySorted frame_le (replayed (log w'))
      ∧ (∀ id, id ∈ _accepted (col w') ↔ id ∈ map identity_of (replayed (log w')))
      ∧ ∀ q b, is_inside (data_dir root INBOX) q →
          file (fs (sys w')) q = Some b ↔
          ∃ fr, fr ∈ replayed (log w') ∧ q = alarm_path root INBOX fr ∧ b = frame_bytes fr
  | Returned false => ready (col w') = false
  | Thrown e => e = OtherExn ∧ ready (col w') = false
  | Stuck => False
  end.
Proof.
  intros Hcfg Hdir Hpl Hi Hl Hd He.
  pose proof (col_initialize_run config root Hcfg Hdir w Hpl) as Hrun.
  destruct (ReliableCollector.initialize config w) as [o w'].
  assert (down w' → ready (col w') = false) as Hdown by (intros [Ha _]; unfold ready; by rewrite Ha).
  specialize (Hrun ltac:(by split)). destruct o as [[|]|e|]; [|by apply Hdown|by destruct Hrun; auto|done].
  destruct Hrun as (I & (Ha & Hs & Hst & Hli) & [Hso Hac Hfr Hfi]). split; [done|].
  split; [unfold ready; by rewrite Ha, Hst|]. do 4 (split; [done|]). intros q b Hq. split.
  - by apply Hfi.
  - intros (fr & Hin & -> & ->). by apply Hfr.
Qed.

(** The next start of the scenario's collector finds the alarm of the first. *)
Definition demo_left : FS := fs (sys demo_done).

Lemma demo_left_ok : disk_ok demo_root INBOX demo_left.
Proof.
  destruct (run_returns 4242 demo_config demo_root col_demo_config_ok _ col_demo_ready_inv) as (l & w' & Hr & T & _).
  unfold demo_left, demo_done. rewrite Hr. cbn [snd].
  destruct (inv_spool _ _ (tr_inv _ _ _ _ T)) as (s & _ & <- & <- & R). apply (rd_disk _ _ R).
Qed.

Definition demo_restart : list Event := replicate 26 ok.

Lemma collector_recovers_witness :
  let w' := (ReliableCollector.initialize demo_config (demo_world demo_left demo_restart)).2 in
  replayed (log w') = [demo_frame]
  ∧ ∀ id, id ∈ _accepted (col w') ↔ id ∈ map identity_of (replayed (log w')).
Proof.
  intros w'.
  assert (bool_decide (replayed (log w') = [demo_frame]) = true) as Hrep by by vm_compute.
  apply bool_decide_eq_true in Hrep. split; [exact Hrep|].
  pose proof (collector_recovers demo_config demo_root (demo_world demo_left demo_restart)
    col_demo_config_ok eq_refl PublisherClaims.demo_root_plain eq_refl eq_refl demo_left_ok) as Hrun.
  assert ((ReliableCollector.initialize demo_config (demo_world demo_left demo_restart)).1 = Returned true) as Hr
    by by vm_compute.
  subst w'. clear Hrep. destruct (ReliableCollector.initialize _ _) as [o w']. cbn [fst snd] in *. subst o.
  apply Hrun. apply Forall_replicate. apply col_answer_ok; [done|constructor].
Defined.

(** ** The publisher and the collector together *)

(** What the publisher received, piece by piece. *)
Definition received (l : list ReliablePublisher.Obs) : list bytes :=
  omap (λ o, match o with ReliablePublisher.SawRecv _ b => Some b | _ => None end) l.

Lemma received_recvs fd l : received (map (ReliablePublisher.SawRecv fd) l) = l.
Proof. induction l as [|b l IH]; [done|]. cbn. f_equal. exact IH. Qed.


