(* ===== verification/Callback.v ===== *)
(** Callbacks with their statistics and their worker thread
    ([EnhancedCallback] of [src/monitor/callback_registry.cpp],
    [inc/monitor/callback_registry.h], [inc/monitor/engine_type.h]).

    A synchronous callback runs in the thread that activates it; an asynchronous
    one has a worker thread, started by the first activation, that runs the callback
    as long as an activation is pending. The thread object is the point its thread
    has reached. [async_step] is the relation of all interleavings of the threads
    that activate a callback, of its worker and of the thread that stops it. *)

From S2P Require Import Prelude.
#[local] Open Scope tlss_scope.

(** ** Statistics *)

(** Durations in microseconds. *)
Record CallbackStats := mkStats { _count : Z; _total_us : Z; _min_us : Z; _max_us : Z }.

Definition new_stats : CallbackStats := mkStats 0 0 UINT64_MAX 0.

(** One call that took [elapsed_us]. *)
Definition record_call (elapsed_us : Z) (s : CallbackStats) : CallbackStats :=
  mkStats (u64 (_count s + 1)) (u64 (_total_us s + elapsed_us))
    (if elapsed_us <? _min_us s then elapsed_us else _min_us s)
    (if _max_us s <? elapsed_us then elapsed_us else _max_us s).

(** The average that [print_stats] prints; none for a callback never activated. *)
Definition average_us (s : CallbackStats) : option Z :=
  if _count s =? 0 then None else Some (_total_us s / _count s).

(** ** The callback object *)

(** Where the worker thread is: it waits for an activation with the mutex
    released, runs the callback, or has returned. [Terminated] stands for
    [std::terminate], the assignment to a thread that is still joinable. *)
Inductive WorkerThread := NoThread | Waiting | Invoking | Exited | Terminated.
#[export] Instance WorkerThread_eq_dec : EqDecision WorkerThread.
Proof. solve_decision. Defined.

Record EnhancedCallback := mkCallback {
  _name : bytes;
  _asynchronous : bool;
  _stats : CallbackStats;
  _worker : WorkerThread;
  _worker_running : bool;
  _pending : bool;
  _stopping : bool
}.

Definition new_callback (name : bytes) (asynchronous : bool) : EnhancedCallback :=
  mkCallback name asynchronous new_stats NoThread false false false.

Definition set_stats (s : CallbackStats) (cb : EnhancedCallback) : EnhancedCallback :=
  mkCallback (_name cb) (_asynchronous cb) s (_worker cb) (_worker_running cb) (_pending cb) (_stopping cb).
Definition set_worker (t : WorkerThread) (running : bool) (cb : EnhancedCallback) : EnhancedCallback :=
  mkCallback (_name cb) (_asynchronous cb) (_stats cb) t running (_pending cb) (_stopping cb).
Definition set_pending (pending : bool) (cb : EnhancedCallback) : EnhancedCallback :=
  mkCallback (_name cb) (_asynchronous cb) (_stats cb) (_worker cb) (_worker_running cb) pending (_stopping cb).
Definition set_stopping (cb : EnhancedCallback) : EnhancedCallback :=
  mkCallback (_name cb) (_asynchronous cb) (_stats cb) (_worker cb) (_worker_running cb) false true.

(** [_worker = std::thread(...)] *)
Definition start_thread (cb : EnhancedCallback) : EnhancedCallback :=
  set_worker (match _worker cb with NoThread => Waiting | _ => Terminated end) true cb.

(** [activate] of an asynchronous callback; [thread_ok] says whether a thread can be
    created. *)
Definition activate_async (thread_ok : bool) (cb : EnhancedCallback) : Z * EnhancedCallback :=
  if _stopping cb then (-1, cb) else
  if negb (_worker_running cb) then
    if negb thread_ok then (-1, set_worker (_worker cb) false cb)
    else (0, set_pending true (start_thread cb))
  else (0, set_pending true cb).

(** [worker_loop] when it holds the mutex: it waits ([None]), takes the pending
    activation ([true]) or ends. *)
Definition worker_next (cb : EnhancedCallback) : option (bool * EnhancedCallback) :=
  if _stopping cb then Some (false, set_worker Exited false cb) else
  if _pending cb then Some (true, set_worker Invoking (_worker_running cb) (set_pending false cb))
  else None.

(** [stop_worker] up to the join: whether it is the first to ask. *)
Definition stop_request (cb : EnhancedCallback) : bool * EnhancedCallback :=
  if _stopping cb then (false, cb) else (true, set_stopping cb).

Definition joinable (cb : EnhancedCallback) : bool := bool_decide (_worker cb ≠ NoThread).

(** ** Interleavings *)

Inductive Stopper := NotStopping | Joining | Joined.

(** The callback with its stopper; [activations] counts those that returned 0,
    [invocations] the calls of the function that began, and [owed] says that an
    activation was accepted since the last of them began. *)
Record Async := mkAsync {
  callback : EnhancedCallback;
  stopper : Stopper;
  activations : nat;
  invocations : nat;
  owed : bool
}.

Definition fresh_async (name : bytes) : Async :=
  mkAsync (new_callback name true) NotStopping 0 0 false.

Inductive async_step : Async → Async → Prop :=
  | StepActivate cb s a i o thread_ok r cb' :
      activate_async thread_ok cb = (r, cb') →
      async_step (mkAsync cb s a i o)
        (mkAsync cb' s (if r =? 0 then S a else a) i (if r =? 0 then true else o))
  | StepWake cb s a i o cb' :
      _worker cb = Waiting → worker_next cb = Some (true, cb') →
      async_step (mkAsync cb s a i o) (mkAsync cb' s a (S i) false)
  | StepExit cb s a i o cb' :
      _worker cb = Waiting → worker_next cb = Some (false, cb') →
      async_step (mkAsync cb s a i o) (mkAsync cb' s a i o)
  | StepReturn cb s a i o elapsed :
      _worker cb = Invoking →
      async_step (mkAsync cb s a i o)
        (mkAsync (set_worker Waiting (_worker_running cb) (set_stats (record_call elapsed (_stats cb)) cb)) s a i o)
  | StepStop cb a i o cb' :
      stop_request cb = (true, cb') →
      async_step (mkAsync cb NotStopping a i o) (mkAsync cb' Joining a i o)
  | StepJoin cb a i o :
      _worker cb = NoThread ∨ _worker cb = Exited →
      async_step (mkAsync cb Joining a i o) (mkAsync cb Joined a i o).

(** The thread and the flags of a callback agree. *)
Record thread_ok (cb : EnhancedCallback) : Prop := {
  th_running : _worker_running cb = true ↔ _worker cb = Waiting ∨ _worker cb = Invoking;
  th_alive : _worker cb ≠ Terminated;
  th_pending : _pending cb = true → _stopping cb = false ∧ _worker_running cb = true;
  th_exited : _worker cb = Exited → _stopping cb = true
}.

Record async_ok (s : Async) : Prop := {
  as_thread : thread_ok (callback s);
  as_count : (invocations s <= activations s)%nat;
  as_due : owed s = true → _stopping (callback s) = false →
           _pending (callback s) = true ∧ (invocations s < activations s)%nat;
  as_pending : _pending (callback s) = true → owed s = true;
  as_stop : stopper s = NotStopping ↔ _stopping (callback s) = false;
  as_joined : stopper s = Joined → _worker (callback s) = NoThread ∨ _worker (callback s) = Exited
}.

(** ** Lemmas *)

Lemma new_callback_ok name asynchronous : thread_ok (new_callback name asynchronous).
Proof. split; cbn; try done. split; [done|]. by intros [|]. Qed.

Lemma activate_async_ok ok cb r cb' :
  thread_ok cb → activate_async ok cb = (r, cb') →
  thread_ok cb' ∧ _stopping cb' = _stopping cb ∧ _asynchronous cb' = _asynchronous cb
  ∧ (r = 0 ∧ _pending cb' = true ∧ _stopping cb = false ∨ r = -1 ∧ cb' = cb).
Proof.
  intros [R A P E]. unfold activate_async, start_thread.
  destruct (_stopping cb) eqn:Es; [intros [= <- <-]; split; [split; rewrite ?Es; auto|auto 10]|].
  destruct (_worker_running cb) eqn:Er; cbn [negb].
  { intros [= <- <-]. split; [|cbn; auto 10]. split; cbn; rewrite ?Er, ?Es; auto. }
  assert (_worker cb = NoThread) as Hw.
  { destruct (_worker cb); naive_solver. }
  destruct ok; cbn [negb]; intros [= <- <-].
  - rewrite Hw. split; [|cbn; auto 10]. split; cbn; [split; auto|done|auto|done].
  - assert (set_worker (_worker cb) false cb = cb) as -> by (destruct cb; cbn in *; by subst).
    split; [split; rewrite ?Er, ?Es; auto|auto 10].
Qed.

Lemma worker_next_ok cb b cb' :
  thread_ok cb → _worker cb = Waiting → worker_next cb = Some (b, cb') →
  thread_ok cb' ∧ _stopping cb' = _stopping cb ∧ _pending cb' = false ∧ (b = true ↔ _pending cb = true).
Proof.
  intros [R A P E] Hw. unfold worker_next. destruct (_stopping cb) eqn:Es.
  - intros [= <- <-]. assert (_pending cb = false) as Hp.
    { destruct (_pending cb); [by destruct (P eq_refl)|done]. }
    split; [|cbn; rewrite Hp; auto 10].
    split; cbn; rewrite ?Hp, ?Es; [split; [done|by intros [?|?]]|done|done|done].
  - destruct (_pending cb) eqn:Ep; [|done]. intros [= <- <-]. split; [|cbn; auto 10].
    split; cbn; [|done..]. rewrite R, Hw. split; auto.
Qed.

Lemma stop_request_ok cb cb' :
  thread_ok cb → stop_request cb = (true, cb') →
  thread_ok cb' ∧ _stopping cb = false ∧ _stopping cb' = true ∧ _pending cb' = false
  ∧ _worker cb' = _worker cb.
Proof.
  intros [R A P E]. unfold stop_request. destruct (_stopping cb) eqn:Es; [done|]. intros [= <-].
  split; [|cbn; auto]. by split; cbn.
Qed.

Lemma call_ok cb elapsed :
  thread_ok cb → _worker cb = Invoking →
  thread_ok (set_worker Waiting (_worker_running cb) (set_stats (record_call elapsed (_stats cb)) cb)).
Proof. intros [R A P E] Hw. split; cbn; [|done|done|done]. rewrite R, Hw. split; auto. Qed.

Lemma async_step_ok s s' : async_ok s → async_step s s' → async_ok s'.
Proof.
  intros [T C D P S J] Hs. destruct Hs as
    [cb s a i o ok r cb' Ha|cb s a i o cb' Hw Hn|cb s a i o cb' Hw Hn|cb s a i o elapsed Hw|cb a i o cb' Hr|cb a i o Hw];
    cbn in *.
  - destruct (activate_async_ok _ _ _ _ T Ha) as (T' & Hst & _ & [(-> & Hp & Hns)|(-> & ->)]); [|by split].
    split; cbn; rewrite ?Hst; auto; try lia.
    + intros _ _. split; [done|lia].
    + intros Hj. exfalso. apply S in Hns. congruence.
  - destruct (worker_next_ok _ _ _ T Hw Hn) as (T' & Hst & Hp & Hb).
    assert (_stopping cb = false) as Hns by (apply (th_pending _ T); by apply Hb).
    destruct (D (P (proj1 Hb eq_refl)) Hns) as [_ Hlt].
    split; cbn; rewrite ?Hst, ?Hp; auto; try done.
    intros Hj. exfalso. apply S in Hns. congruence.
  - destruct (worker_next_ok _ _ _ T Hw Hn) as (T' & Hst & Hp & Hb).
    assert (_stopping cb = true) as Hns.
    { unfold worker_next in Hn. destruct (_stopping cb); [done|]. by destruct (_pending cb). }
    split; cbn; rewrite ?Hst, ?Hp; auto; try done; [by rewrite Hns|].
    intros Hj. destruct (J Hj); congruence.
  - split; cbn; auto; [by apply call_ok|]. intros Hj. destruct (J Hj); congruence.
  - destruct (stop_request_ok _ _ T Hr) as (T' & Hns & Hst & Hp & Hw).
    split; cbn; rewrite ?Hst, ?Hp; auto; try done.
  - split; cbn; auto. split; [done|]. intros Hns. apply S in Hns. done.
Qed.

Lemma fresh_async_ok name : async_ok (fresh_async name).
Proof. split; cbn; try done; apply new_callback_ok. Qed.

Lemma async_reachable_ok name s : rtc async_step (fresh_async name) s → async_ok s.
Proof.
  intros Hr. assert (∀ s s', rtc async_step s s' → async_ok s → async_ok s') as Hind.
  { induction 1; [done|]. intros Hok. by eapply IHrtc, async_step_ok. }
  by eapply Hind, fresh_async_ok.
Qed.

(** C24. Asynchronous callbacks. Whatever the order in which threads activate a
    callback, its worker runs and it is stopped: no second thread is started over
    one that is still joinable; the function is called at most once per accepted
    activation; an accepted activation that no call has answered yet is pending, so
    that the worker, which is then running, can take it; and once [stop_worker] has
    returned the function is not running and is never called again. *)
Theorem async_callback_sound name s :
  rtc async_step (fresh_async name) s →
  _worker (callback s) ≠ Terminated
  ∧ (invocations s <= activations s)%nat
  ∧ (owed s = true → stopper s = NotStopping →
       _worker (callback s) = Invoking ∨
       _worker (callback s) = Waiting ∧ ∃ cb', worker_next (callback s) = Some (true, cb'))
  ∧ (stopper s = Joined → ∀ s', rtc async_step s s' →
       invocations s' = invocations s ∧ _worker (callback s') ≠ Invoking).
Proof.
  intros Hr. pose proof (async_reachable_ok name s Hr) as [T C D P S J].
  split; [apply T|]. split; [done|]. split.
  - intros Ho Hs. apply S in Hs. destruct (D Ho Hs) as [Hp _].
    destruct (th_pending _ T Hp) as [_ Hrun]. apply (th_running _ T) in Hrun as [Hw|Hw]; [right|by left].
    split; [done|]. unfold worker_next. rewrite Hs, Hp. eauto.
  - intros Hj s' Hr'. assert (_stopping (callback s) = true) as Hst.
    { destruct (_stopping (callback s)) eqn:E; [done|]. rewrite (proj2 S eq_refl) in Hj. done. }
    specialize (J Hj). clear - Hr' Hj J Hst. induction Hr' as [s|s s1 s2 Hs Hr' IH].
    { split; [done|]. by destruct J as [->| ->]. }
    assert (stopper s1 = Joined ∧ _stopping (callback s1) = true ∧ invocations s1 = invocations s
      ∧ _worker (callback s1) = _worker (callback s)) as (Hj1 & Hst1 & Hi1 & Hw1).
    { destruct Hs; cbn in *; try congruence.
      - unfold activate_async in *. rewrite Hst in *. by simplify_eq.
      - exfalso. destruct J; congruence.
      - exfalso. destruct J; congruence.
      - exfalso. destruct J; congruence. }
    destruct IH as [Hi Hw]; [by rewrite Hw1|done..|]. split; [congruence|done].
Qed.

(** One activation, answered; then the callback is stopped. *)
Definition demo_stopped : Async :=
  mkAsync (mkCallback [] true (record_call 25 new_stats) Exited false false true) Joined 1 1 false.

Lemma demo_stopped_reachable : rtc async_step (fresh_async []) demo_stopped.
Proof.
  eapply rtc_l; [apply (StepActivate _ _ _ _ _ true); reflexivity|].
  eapply rtc_l; [apply StepWake; reflexivity|].
  eapply rtc_l; [apply (StepReturn _ _ _ _ _ 25); reflexivity|].
  eapply rtc_l; [apply StepStop; reflexivity|].
  eapply rtc_l; [apply StepExit; reflexivity|].
  eapply rtc_l; [apply StepJoin; by right|]. apply rtc_refl.
Qed.

Lemma async_callback_sound_witness :
  rtc async_step (fresh_async []) demo_stopped
  ∧ ∀ s', rtc async_step demo_stopped s' → invocations s' = 1%nat ∧ _worker (callback s') ≠ Invoking.
Proof. split; [exact demo_stopped_reachable|]. apply (async_callback_sound [] demo_stopped demo_stopped_reachable). reflexivity. Defined.
