(* ===== verification/AioManager.v ===== *)
(** The descriptors that the monitoring engine waits for
    ([src/monitor/aio_manager.cpp], [inc/monitor/aio_manager.h],
    [inc/monitor/aio_types.h]).

    Entries are owned by the list [_entries]; a raw pointer to one is its address,
    and reading it looks the address up: [None] is the use of an entry that is no
    longer owned. Addresses are not used twice, so that such a use cannot go
    unnoticed. Each function here is one critical section of [_mutex]; [process]
    is put together from them in [EngineLoop.v]. The registry of callbacks is that
    of [TimerManager.v]. *)

From S2P Require Import Prelude TimerManager.
#[local] Open Scope tlss_scope.

Definition FD_SETSIZE : Z := 1024.

Record AioEntry := mkEntry {
  _where : addr;             (* its own address *)
  _id : Z;
  _fd : Z;
  _pending_remove : bool;
  _cb : addr
}.

Record AioManager := mkAio {
  _entries : list AioEntry;
  _next_id : Z;
  _cleaned_up : bool
}.

Definition new_aio : AioManager := mkAio [] 1 false.

Definition set_entries (l : list AioEntry) (m : AioManager) : AioManager :=
  mkAio l (_next_id m) (_cleaned_up m).

(** ** Registration *)

Record AioEnv := mkAioEnv {
  pipe_ready : bool;      (* the wake-up pipe is READY *)
  entry_alloc : bool;     (* the entry and its callback can be allocated *)
  node_alloc : bool;      (* the list node can be allocated *)
  registry_alloc : bool;  (* the registry's vector can grow *)
  wakeup_ok : bool
}.

(** The handle when the descriptor is registered; [at_] and [cb] are the addresses
    of the new entry and of its callback. *)
Definition add (m : AioManager) (cbs : list addr) (fd : Z) (has_cb : bool) (env : AioEnv)
    (at_ cb : addr) : option Z * AioManager * list addr :=
  if (fd <? 0) || (FD_SETSIZE <=? fd) then (None, m, cbs) else
  if negb (pipe_ready env) then (None, m, cbs) else
  if negb has_cb then (None, m, cbs) else
  if negb (entry_alloc env) then (None, m, cbs) else
  if _cleaned_up m then (None, m, cbs) else
  if _next_id m =? 0 then (None, m, cbs) else
  if negb (node_alloc env) then (None, m, cbs) else
  let entries := mkEntry at_ (_next_id m) fd false cb :: _entries m in
  if negb (registry_alloc env) then (None, set_entries (tail entries) m, cbs) else
  let cbs := registry_add cbs cb in
  if negb (wakeup_ok env) then (None, set_entries (tail entries) m, registry_remove cbs cb)
  else (Some (_next_id m), mkAio entries (u64 (_next_id m + 1)) (_cleaned_up m), cbs).

(** ** Removal *)

Definition set_pending_remove (b : bool) (e : AioEntry) : AioEntry :=
  mkEntry (_where e) (_id e) (_fd e) b (_cb e).

(** [std::find_if] by identifier *)
Definition find_id (id : Z) (l : list AioEntry) : option (nat * AioEntry) :=
  list_find (λ e, _id e = id) l.

Definition remove (m : AioManager) (id : Z) (wakeup_ok : bool) : bool * AioManager :=
  if id =? 0 then (false, m) else
  if _cleaned_up m then (false, m) else
  match find_id id (_entries m) with
  | None => (false, m)
  | Some (i, e) =>
      if _pending_remove e then (false, m) else
      let marked := <[i := set_pending_remove true e]> (_entries m) in
      if negb wakeup_ok then (false, set_entries (<[i := set_pending_remove false e]> marked) m)
      else (true, set_entries marked m)
  end.

(** ** One round *)

(** The entries taken out because they were removed, and the addresses of those
    whose descriptors are waited for. *)
Definition arm (m : AioManager) : list AioEntry * list addr * AioManager :=
  let retired := filter (λ e, _pending_remove e = true) (_entries m) in
  let armed := filter (λ e, _pending_remove e = false) (_entries m) in
  (retired, map _where armed, set_entries armed m).

(** The entry at an address. *)
Definition deref (m : AioManager) (p : addr) : option AioEntry :=
  snd <$> list_find (λ e, _where e = p) (_entries m).

(** The callbacks to run: those of the armed entries that are still wanted and
    whose descriptor is ready. *)
Fixpoint collect (m : AioManager) (ready : list Z) (armed : list addr) : option (list addr) :=
  match armed with
  | [] => Some []
  | p :: rest =>
      e ← deref m p;
      ready_cbs ← collect m ready rest;
      Some (if negb (_pending_remove e) && bool_decide (_fd e ∈ ready)
            then _cb e :: ready_cbs else ready_cbs)
  end.

(** [cleanup] up to the end of its critical section: the entries taken out. *)
Definition cleanup_begin (m : AioManager) : list AioEntry * AioManager :=
  if _cleaned_up m then ([], m) else (_entries m, mkAio [] (_next_id m) true).

(** ** Lemmas *)

(** Every outcome of [add]: a refusal changes nothing. *)
Lemma aio_add_spec m cbs fd has_cb env at_ cb :
  cb ∉ cbs → NoDup cbs →
  let '(handle, m', cbs') := add m cbs fd has_cb env at_ cb in
  match handle with
  | None => m' = m ∧ cbs' = cbs
  | Some id => id = _next_id m ∧ id ≠ 0 ∧ _cleaned_up m = false ∧ 0 <= fd < FD_SETSIZE
      ∧ m' = mkAio (mkEntry at_ id fd false cb :: _entries m) (u64 (id + 1)) false
      ∧ cbs' = registry_add cbs cb
  end.
Proof.
  intros Hcb Hnd. unfold add. destruct ((fd <? 0) || (FD_SETSIZE <=? fd)) eqn:Efd; [done|].
  destruct (pipe_ready env); [|done]. destruct has_cb; [|done]. destruct (entry_alloc env); [|done].
  cbn [negb]. destruct (_cleaned_up m) eqn:Ec; [done|]. destruct (_next_id m =? 0) eqn:En; [done|].
  destruct (node_alloc env); [|done]. cbn [negb].
  assert (set_entries (tail (mkEntry at_ (_next_id m) fd false cb :: _entries m)) m = m) as Hm by by destruct m.
  destruct (registry_alloc env); cbn [negb]; [|done]. destruct (wakeup_ok env); cbn [negb].
  - apply orb_false_iff in Efd as [? ?]. ztests. do 5 (split; [done|]). done.
  - rewrite registry_add_fresh by done. done.
Qed.

Lemma aio_remove_spec m id wakeup_ok :
  let '(ok, m') := remove m id wakeup_ok in
  if ok then id ≠ 0 ∧ ∃ i e, _entries m !! i = Some e ∧ _id e = id ∧ _pending_remove e = false
      ∧ m' = set_entries (<[i := set_pending_remove true e]> (_entries m)) m
  else m' = m.
Proof.
  unfold remove. destruct (id =? 0) eqn:E0; [done|]. destruct (_cleaned_up m) eqn:Ec; [done|].
  unfold find_id. destruct (list_find (λ e, _id e = id) (_entries m)) as [[i e]|] eqn:Ef; [|done].
  apply list_find_Some in Ef as (Hi & Hid & _). destruct (_pending_remove e) eqn:Ep; [done|].
  destruct wakeup_ok; cbn [negb].
  - ztests. split; [done|]. by exists i, e.
  - rewrite list_insert_insert_eq. destruct m as [l n cl]. unfold set_entries. cbn in *. f_equal.
    apply list_insert_id. rewrite Hi. destruct e. cbn in *. by subst.
Qed.

Lemma deref_elem m e :
  NoDup (map _where (_entries m)) → e ∈ _entries m → deref m (_where e) = Some e.
Proof.
  intros Hnd He. unfold deref. destruct (list_find (λ e', _where e' = _where e) (_entries m)) as [[i e']|] eqn:Ef.
  - cbn. f_equal. apply list_find_Some in Ef as (Hi & Hw & _).
    apply list_elem_of_lookup in He as [j Hj].
    assert (i = j) as <-; [|congruence].
    eapply (NoDup_lookup (map _where (_entries m))); [done|..]; rewrite (list_lookup_fmap _where : ∀ l i, map _where l !! i = _).
    + by rewrite Hi.
    + rewrite Hj. cbn. by rewrite Hw.
  - exfalso. apply list_find_None in Ef. rewrite Forall_forall in Ef. by apply (Ef e He).
Qed.
