(* ===== verification/EngineLoop.v ===== *)
(** The life of the monitoring engine ([src/monitor/engine.cpp]: [init], [run],
    [stop], [add_aio], [remove_aio], [set_timer]) over its timers, its descriptors,
    its callbacks and its wake-up pipe; [AioManager::process] and [cleanup] of
    [src/monitor/aio_manager.cpp], [TimerManager::check] of
    [src/monitor/timer_manager.cpp] and [activate], [stop_worker], [stop_workers]
    and [print_stats] of [src/monitor/callback_registry.cpp] as the threads of the
    engine run them.

    The thread in [run] meets its surroundings one interaction at a time, as in
    [ReliablePublisher.v]: an [Event] says what other threads and the functions of
    callbacks did to the engine meanwhile, and what a call, a clock or the allocator
    answers. Callback objects live in a heap; reading one that has been destroyed is
    [Stuck], and so are a failed assertion, a descriptor outside an [fd_set] and a
    signed overflow. *)

From Stdlib Require Import String.
From S2P Require Import Prelude FileSystem Effects WakePipe Engine Callback TimerManager AioManager.
#[local] Open Scope tlss_scope.

Inductive ENGINESTATE :=
  | INITFAILED | PIPEINITERR | ENGINE_ALREADYINITIALIZED | INVALIDCONFIG | NOTREADY
  | ALREADYRUNNING | WAITFAILED | PIPEERROR | AIOINITERR | ENGINE_SUCCESSFUL.

(** The part of [MonContext] that the loop works on. The callback objects are in
    [_heap], below the address [_brk]. The last three fields are objects that
    functions of the engine's thread own: the timer that [check] took out of the
    queue, the descriptors taken out of the manager and not yet unregistered, and
    the callbacks unregistered and not yet destroyed. *)
Record LoopContext := mkLoop {
  _wakeup : WakeupPipe;
  _timers : TimerManager;
  _aio : AioManager;
  _wakeup_handle : option Z;
  _wakeup_cb : addr;
  _heap : gmap addr EnhancedCallback;
  _brk : addr;
  _active : option TimerEntry;
  _retired : list AioEntry;
  _dying : list addr
}.

Definition set_wakeup (p : WakeupPipe) (c : LoopContext) : LoopContext :=
  mkLoop p (_timers c) (_aio c) (_wakeup_handle c) (_wakeup_cb c) (_heap c) (_brk c)
    (_active c) (_retired c) (_dying c).
Definition set_timers (m : TimerManager) (active : option TimerEntry) (c : LoopContext) : LoopContext :=
  mkLoop (_wakeup c) m (_aio c) (_wakeup_handle c) (_wakeup_cb c) (_heap c) (_brk c)
    active (_retired c) (_dying c).
Definition set_aio (m : AioManager) (retired : list AioEntry) (c : LoopContext) : LoopContext :=
  mkLoop (_wakeup c) (_timers c) m (_wakeup_handle c) (_wakeup_cb c) (_heap c) (_brk c)
    (_active c) retired (_dying c).
Definition set_heap (h : gmap addr EnhancedCallback) (c : LoopContext) : LoopContext :=
  mkLoop (_wakeup c) (_timers c) (_aio c) (_wakeup_handle c) (_wakeup_cb c) h (_brk c)
    (_active c) (_retired c) (_dying c).
Definition set_dying (l : list addr) (c : LoopContext) : LoopContext :=
  mkLoop (_wakeup c) (_timers c) (_aio c) (_wakeup_handle c) (_wakeup_cb c) (_heap c) (_brk c)
    (_active c) (_retired c) l.

(** The registry of callbacks, which both managers share. *)
Definition registry (c : LoopContext) : list addr := _cbs (_timers c).
Definition set_registry (cbs : list addr) (m : TimerManager) : TimerManager :=
  mkManager (TimerManager._timers m) cbs (TimerManager._next_id m) (TimerManager._cleaned_up m).

(** A new callback object. *)
Definition allocate (name : bytes) (asynchronous : bool) (c : LoopContext) : LoopContext :=
  mkLoop (_wakeup c) (_timers c) (_aio c) (_wakeup_handle c) (_wakeup_cb c)
    (<[_brk c := new_callback name asynchronous]> (_heap c)) (_brk c + 1)
    (_active c) (_retired c) (_dying c).

(** ** The surroundings *)

(** What other threads, and the functions of callbacks, do to the engine. [OuterWork]
    is a step of the worker thread of the callback at an address: it waits, takes an
    activation, or comes back from the function. *)
Inductive Outer :=
  | OuterAddAio (fd : Z) (has_cb asynchronous : bool) (env : AioEnv)
  | OuterRemoveAio (id : Z) (wakeup_ok : bool)
  | OuterSetTimer (has_cb : bool) (flags delay : Z) (env : AddEnv)
  | OuterStop
  | OuterWork (cb : addr) (elapsed : Z).

(** One interaction; [e_ready] are the descriptors [select] reports, [e_result] is
    what the function of a callback returned, [None] an exception. *)
Record Event := mkEvent {
  e_outer : list Outer;
  e_now : Z;
  e_ret : Z;
  e_errno : Z;
  e_fds : Z * Z;
  e_ready : list Z;
  e_alloc : bool;
  e_result : option Z
}.

Inductive Obs :=
  | SawRemoved (id : Z)
  | SawArmed (ids : list Z)
  | SawReady (fds : list Z)
  | SawActivate (cb : addr)
  | SawTimer (id : Z)
  | SawStats (cb : addr) (average : option Z).

Record EWorld := mkEWorld {
  _ephase : EnginePhase;
  _context : option LoopContext;
  escript : list Event;
  elog : list Obs
}.

#[export] Instance Loop_scripted : Scripted EWorld := λ w, length (escript w).

#[local] Abbreviation Loop := (Eff EWorld).

Definition with_context (c : LoopContext) (w : EWorld) : EWorld :=
  mkEWorld (_ephase w) (Some c) (escript w) (elog w).
Definition with_phase (p : EnginePhase) (w : EWorld) : EWorld :=
  mkEWorld p (_context w) (escript w) (elog w).
Definition with_log (o : Obs) (w : EWorld) : EWorld :=
  mkEWorld (_ephase w) (_context w) (escript w) (elog w ++ [o]).

(** ** The engine's functions for other threads *)

Definition ready_pipe (c : LoopContext) : bool := bool_decide (_state (_wakeup c) = PIPE_READY).

(** [AioManager::add] with the callback object it makes. *)
Definition aio_add (c : LoopContext) (fd : Z) (has_cb asynchronous : bool) (env : AioEnv)
    : option Z * LoopContext :=
  let env := mkAioEnv (ready_pipe c) (entry_alloc env) (node_alloc env)
               (registry_alloc env) (wakeup_ok env) in
  let '(handle, aio, cbs) := AioManager.add (_aio c) (registry c) fd has_cb env (_brk c) (_brk c) in
  match handle with
  | None => (None, set_timers (set_registry cbs (_timers c)) (_active c) (set_aio aio (_retired c) c))
  | Some id => (Some id, set_timers (set_registry cbs (_timers c)) (_active c)
                           (set_aio aio (_retired c) (allocate [] asynchronous c)))
  end.

Definition add_aio (w : EWorld) (fd : Z) (has_cb asynchronous : bool) (env : AioEnv)
    : option Z * EWorld :=
  if negb (accepts_registration (_ephase w)) then (None, w) else
  match _context w with
  | None => (None, w)
  | Some c =>
      if fd =? read_fd (_wakeup c) then (None, w) else
      let '(handle, c) := aio_add c fd has_cb asynchronous env in (handle, with_context c w)
  end.

Definition remove_aio (w : EWorld) (id : Z) (wakeup_ok : bool) : bool * EWorld :=
  if id =? 0 then (false, w) else
  if negb (accepts_registration (_ephase w)) then (false, w) else
  match _context w with
  | None => (false, w)
  | Some c =>
      if bool_decide (_wakeup_handle c = Some id) then (false, w) else
      let '(ok, aio) := AioManager.remove (_aio c) id wakeup_ok in
      (ok, with_context (set_aio aio (_retired c) c) w)
  end.

(** [None] is the overflow of a deadline. *)
Definition set_timer (w : EWorld) (has_cb : bool) (flags delay : Z) (env : AddEnv)
    : option (option Z * EWorld) :=
  if negb (accepts_registration (_ephase w)) then Some (None, w) else
  match _context w with
  | None => Some (None, w)
  | Some c =>
      let env := mkAddEnv (ready_pipe c) (TimerManager.entry_alloc env) (_brk c) (clock_now env)
                   (TimerManager.node_alloc env) (TimerManager.registry_alloc env)
                   (TimerManager.wakeup_ok env) in
      '(handle, m) ← TimerManager.add (_timers c) has_cb flags delay env;
      Some (handle,
        with_context (set_timers m (_active c)
          (match handle with
           | None => c
           | Some _ => allocate [] (has_flag flags WORKER) c
           end)) w)
  end.

(** [stop]; what the wake-up answers is not used. *)
Definition stop (w : EWorld) : EWorld :=
  if bool_decide (_ephase w = RUNNING) then with_phase STOPPING w else w.

(** A step of a worker thread. *)
Definition work (elapsed : Z) (cb : EnhancedCallback) : EnhancedCallback :=
  match _worker cb with
  | Waiting => match worker_next cb with Some (_, cb') => cb' | None => cb end
  | Invoking => set_worker Waiting (_worker_running cb)
                  (set_stats (record_call (u64 elapsed) (_stats cb)) cb)
  | _ => cb
  end.

Definition act (o : Outer) (w : EWorld) : option EWorld :=
  match o with
  | OuterAddAio fd has_cb asynchronous env => Some (add_aio w fd has_cb asynchronous env).2
  | OuterRemoveAio id wakeup_ok =>
      let '(ok, w) := remove_aio w id wakeup_ok in
      Some (if ok then with_log (SawRemoved id) w else w)
  | OuterSetTimer has_cb flags delay env => snd <$> set_timer w has_cb flags delay env
  | OuterStop => Some (stop w)
  | OuterWork a elapsed =>
      Some (match _context w with
            | None => w
            | Some c =>
                match _heap c !! a with
                | None => w
                | Some cb => with_context (set_heap (<[a := work elapsed cb]> (_heap c)) c) w
                end
            end)
  end.

Fixpoint acts (os : list Outer) (w : EWorld) : option EWorld :=
  match os with
  | [] => Some w
  | o :: os => w ← act o w; acts os w
  end.

(** ** Interactions *)

(** A script that has run out asks for the stop. *)
Definition last_event : Event := mkEvent [OuterStop] 0 (-1) EIO (-1, -1) [] true (Some 0).

Definition tick : Loop Event := λ w,
  let e := default last_event (head (escript w)) in
  match acts (e_outer e) (mkEWorld (_ephase w) (_context w) (tail (escript w)) (elog w)) with
  | Some w' => (Returned e, w')
  | None => (Stuck, w)
  end.

#[export] Instance Loop_syscalls : Syscalls EWorld := {
  syscall := e ← tick; mret (mkAnswer (e_ret e) (e_errno e) (e_fds e))
}.

Definition record_obs (o : Obs) : Loop unit := λ w, (Returned tt, with_log o w).
Definition get_phase : Loop EnginePhase := λ w, (Returned (_ephase w), w).
Definition set_phase (p : EnginePhase) : Loop unit := λ w, (Returned tt, with_phase p w).

Definition peek_context : Loop (option LoopContext) := λ w, (Returned (_context w), w).

(** The context exists from [init] on. *)
Definition get_context : Loop LoopContext := λ w,
  match _context w with Some c => (Returned c, w) | None => (Stuck, w) end.
Definition put_context (c : LoopContext) : Loop unit := λ w, (Returned tt, with_context c w).
Definition modify (g : LoopContext → LoopContext) : Loop unit := c ← get_context; put_context (g c).

(** [assert] *)
Definition asserted (b : bool) : Loop unit := defined (if b then Some tt else None).

(** ** Callbacks *)

(** The object at an address. *)
Definition callback_at (a : addr) : Loop EnhancedCallback :=
  c ← get_context; defined (_heap c !! a).
Definition update_callback (a : addr) (cb : EnhancedCallback) : Loop unit :=
  modify (λ c, set_heap (<[a := cb]> (_heap c)) c).

(** The function of a callback: that of the wake-up pipe's is [drain]. *)
Definition call_function (a : addr) : Loop Z :=
  c ← get_context;
  if a =? _wakeup_cb c then
    status ← drain (_wakeup c);
    mret (pipe_code status)
  else
    e ← tick;
    mret (match e_result e with Some r => r | None => -1 end).

Definition invoke_and_record (a : addr) : Loop Z :=
  start ← tick;
  res ← call_function a;
  finish ← tick;
  elapsed ← defined (i64_sub (e_now finish) (e_now start));
  let elapsed_us := u64 (Z.quot elapsed 1000) in
  cb ← callback_at a;
  _ ← update_callback a (set_stats (record_call elapsed_us (_stats cb)) cb);
  mret res.

Definition activate (a : addr) : Loop Z :=
  _ ← record_obs (SawActivate a);
  e ← tick;
  cb ← callback_at a;
  if negb (_asynchronous cb) then
    if _stopping cb then mret (-1) else invoke_and_record a
  else
    let '(r, cb) := activate_async (e_alloc e && (e_ret e =? 0)) cb in
    _ ← update_callback a cb;
    mret r.

(** [stop_worker]; a function that is running returns before the join ends. *)
Definition stop_worker (a : addr) : Loop unit :=
  _ ← tick;
  cb ← callback_at a;
  let '(first, cb) := stop_request cb in
  _ ← update_callback a cb;
  if first && joinable cb then
    _ ← tick;
    cb ← callback_at a;
    update_callback a (set_worker Exited false cb)
  else mret tt.

(** The destructor of a callback. *)
Definition destroy (a : addr) : Loop unit :=
  _ ← stop_worker a;
  modify (λ c, set_dying (filter (λ x, x ≠ a) (_dying c)) (set_heap (delete a (_heap c)) c)).

Definition destroy_all (l : list addr) : Loop unit :=
  _ ← each (λ _ a, _ ← destroy a; mret (inl tt : unit + unit)) l tt;
  mret tt.

(** Both start with a copy of the registry, which has to be allocated; the wake-up
    callback stays registered until the end, so that it is never empty. *)
Definition stop_workers : Loop unit :=
  e ← tick;
  if negb (e_alloc e) then throw BadAlloc else
  c ← get_context;
  _ ← each (λ _ a, cb ← callback_at a;
                   _ ← (if _asynchronous cb then stop_worker a else mret tt);
                   mret (inl tt : unit + unit)) (registry c) tt;
  mret tt.

Definition print_stats : Loop unit :=
  e ← tick;
  if negb (e_alloc e) then throw BadAlloc else
  c ← get_context;
  _ ← each (λ _ a, _ ← tick;
                   cb ← callback_at a;
                   _ ← record_obs (SawStats a (average_us (_stats cb)));
                   mret (inl tt : unit + unit)) (registry c) tt;
  mret tt.

(** ** Timers *)

(** The timer that was taken out: its callback, then the queue or the end. *)
Definition fire (t : TimerEntry) : Loop unit :=
  _ ← record_obs (SawTimer (_tid t));
  _ ← activate (_tcb t);
  let recurring := 0 <? _tinterval t in
  _ ← asserted (Bool.eqb recurring (has_flag (_tflags t) RECURRING));
  cb ← callback_at (_tcb t);
  _ ← asserted (recurring || negb (_asynchronous cb));
  _ ← tick;
  c ← get_context;
  m ← defined (check_finish (_timers c) t);
  if recurring then put_context (set_timers m None c)
  else
    _ ← put_context (set_timers m None (set_dying (_tcb t :: _dying c) c));
    destroy (_tcb t).

(** One round of [check]: a timer fires, or the time to wait is known. *)
Definition check_round : Loop (unit + timeval) :=
  e ← tick;
  c ← get_context;
  r ← defined (check_begin (_timers c) (e_now e));
  match r with
  | (CheckReturn tv, m) => _ ← put_context (set_timers m (_active c) c); mret (inr tv)
  | (CheckFire t, m) =>
      _ ← put_context (set_timers m (Some t) c); _ ← fire t; mret (inl tt)
  end.

Definition check : Loop timeval := loop (λ _ : unit, check_round) tt.

Definition timers_cleanup : Loop unit :=
  _ ← tick;
  c ← get_context;
  if TimerManager._cleaned_up (_timers c) then mret tt else
  let gone := map _tcb (TimerManager._timers (_timers c)) in
  _ ← put_context (set_timers (cleanup (_timers c)) (_active c) (set_dying (gone ++ _dying c) c));
  destroy_all gone.

(** ** Descriptors *)

(** [_registry.remove] of an entry taken out of the manager. *)
Definition unregister (entry : AioEntry) (c : LoopContext) : LoopContext :=
  set_dying (AioManager._cb entry :: _dying c)
    (set_aio (_aio c) (filter (λ e, AioManager._cb e ≠ AioManager._cb entry) (_retired c))
      (set_timers (set_registry (registry_remove (registry c) (AioManager._cb entry)) (_timers c)) (_active c) c)).

(** The entries taken out are unregistered one by one, then destroyed. *)
Definition discard (entries : list AioEntry) : Loop unit :=
  _ ← each (λ _ entry, _ ← tick; _ ← modify (unregister entry); mret (inl tt : unit + unit)) entries tt;
  destroy_all (map AioManager._cb entries).

Definition fits_fd_set (e : AioEntry) : bool := (0 <=? AioManager._fd e) && (AioManager._fd e <? FD_SETSIZE).

Definition process : Loop Z :=
  _ ← tick;
  c ← get_context;
  if AioManager._cleaned_up (_aio c) then mret 0 else
  e ← tick;
  if negb (e_alloc e) then throw BadAlloc else
  c ← get_context;
  let '(retired, armed, aio) := arm (_aio c) in
  _ ← asserted (forallb fits_fd_set (_entries aio));
  _ ← put_context (set_aio aio (retired ++ _retired c) c);
  _ ← record_obs (SawArmed (map _id (_entries aio)));
  _ ← discard retired;
  selected ← tick;
  if e_ret selected <? 0 then mret (if e_errno selected =? EINTR then 0 else -1) else
  if e_ret selected =? 0 then mret 0 else
  _ ← record_obs (SawReady (e_ready selected));
  e ← tick;
  if negb (e_alloc e) then mret (-1) else
  _ ← tick;
  c ← get_context;
  ready_cbs ← defined (collect (_aio c) (e_ready selected) armed);
  _ ← each (λ _ a, _ ← activate a; mret (inl tt : unit + unit)) ready_cbs tt;
  mret 0.

Definition aio_cleanup : Loop unit :=
  _ ← tick;
  c ← get_context;
  let '(entries, aio) := cleanup_begin (_aio c) in
  _ ← put_context (set_aio aio (entries ++ _retired c) c);
  discard entries.

(** ** The engine *)

(** [~MonContext] of a context that was not published: the pipe is closed. *)
Definition drop_context (pipe : WakeupPipe) (st : ENGINESTATE) : Loop ENGINESTATE :=
  _ ← pipe_close pipe; _ ← set_phase CREATED; mret st.

Definition init (name : bytes) : Loop ENGINESTATE :=
  phase ← get_phase;
  if negb (bool_decide (phase = CREATED)) then mret ENGINE_ALREADYINITIALIZED else
  _ ← set_phase INITIALIZING;
  if bool_decide (name = []) then _ ← set_phase CREATED; mret INVALIDCONFIG else
  e ← tick;
  if negb (e_alloc e) then _ ← set_phase CREATED; mret INITFAILED else
  opened ← WakePipe.init new_pipe;
  let '(pipe_status, pipe) := opened in
  if negb (bool_decide (pipe_status = SUCCESSFUL)) then drop_context pipe PIPEINITERR else
  e ← tick;
  let ok := e_alloc e in
  let fd := read_fd pipe in
  woken ← (if ok && (0 <=? fd) && (fd <? FD_SETSIZE) then wakeup pipe else mret SUCCESSFUL);
  let c := mkLoop pipe new_manager new_aio None 0 ∅ 0 None [] [] in
  let '(handle, c) := aio_add c fd true false
                        (mkAioEnv true ok ok ok (bool_decide (woken = SUCCESSFUL))) in
  match handle with
  | None => drop_context pipe AIOINITERR
  | Some id =>
      _ ← put_context (mkLoop (_wakeup c) (_timers c) (_aio c) (Some id) (_wakeup_cb c) (_heap c)
                         (_brk c) (_active c) (_retired c) (_dying c));
      _ ← set_phase READY;
      mret ENGINE_SUCCESSFUL
  end.

(** The rounds of the loop: whether waiting failed. *)
Definition rounds : Loop bool :=
  loop (λ _ : unit,
    _ ← tick;
    phase ← get_phase;
    if negb (bool_decide (phase = RUNNING)) then mret (inr false) else
    _ ← check;
    r ← process;
    mret (if r <? 0 then inr true else inl tt)) tt.

(** What [run] does when it has left the loop. *)
Definition shut_down : Loop unit :=
  _ ← tick;
  phase ← get_phase;
  _ ← (if bool_decide (phase = RUNNING) then set_phase STOPPING else mret tt);
  _ ← stop_workers;
  _ ← print_stats;
  _ ← timers_cleanup;
  _ ← aio_cleanup;
  c ← get_context;
  pipe ← pipe_close (_wakeup c);
  _ ← modify (set_wakeup pipe);
  set_phase STOPPED.

Definition run : Loop ENGINESTATE :=
  _ ← tick;
  phase ← get_phase;
  if negb (bool_decide (phase = READY)) then
    mret (if bool_decide (phase = RUNNING) then ALREADYRUNNING else NOTREADY)
  else
    _ ← set_phase RUNNING;
    context ← peek_context;
    match context with
    | None => _ ← set_phase STOPPED; mret NOTREADY
    | Some c =>
        let wakeup_fd := read_fd (_wakeup c) in
        if (wakeup_fd <? 0) || (FD_SETSIZE <=? wakeup_fd) then
          _ ← set_phase STOPPED; mret PIPEERROR
        else
          failed ← rounds;
          _ ← shut_down;
          mret (if failed : bool then WAITFAILED else ENGINE_SUCCESSFUL)
    end.
