(* ===== verification/EngineSafety.v ===== *)
(** The engine's loop is memory safe and leaves nothing behind: no callback or
    descriptor entry is used after it was destroyed, whatever other threads and
    callbacks register and remove meanwhile, and when [run] has returned everything
    is unregistered and destroyed. *)

From S2P Require Import Prelude FileSystem Effects WakePipe Engine Callback TimerManager AioManager EngineLoop.
#[local] Open Scope tlss_scope.

(** ** The invariant *)

(** A clock that stays within 146 years of its start. *)
Definition CLOCK_MAX : Z := 2 ^ 62.

Definition outer_ok (o : Outer) : Prop :=
  match o with OuterSetTimer _ _ _ env => 0 <= clock_now env <= CLOCK_MAX | _ => True end.

Record event_ok (e : Event) : Prop := {
  ok_now : 0 <= e_now e <= CLOCK_MAX;
  ok_outer : Forall outer_ok (e_outer e)
}.

(** The entries of the descriptors, those taken out of the manager included. *)
Definition entries (c : LoopContext) : list AioEntry := AioManager._entries (_aio c).
Definition aio_cbs (m : AioManager) (retired : list AioEntry) : gset addr :=
  list_to_set (map AioManager._cb (AioManager._entries m ++ retired)).

Definition system (c : LoopContext) : System :=
  mkSystem (_timers c) (_active c) (aio_cbs (_aio c) (_retired c)).

(** The objects of the heap are the registered callbacks and those about to be
    destroyed. *)
Record heap_ok (cbs dying : list addr) (h : gmap addr EnhancedCallback) (brk : addr) : Prop := {
  hp_owned a : is_Some (h !! a) ↔ a ∈ cbs ∨ a ∈ dying;
  hp_dying a : a ∈ dying → a ∉ cbs;
  hp_brk a : is_Some (h !! a) → a < brk;
  hp_threads a cb : h !! a = Some cb → thread_ok cb
}.

(** A handle whose removal succeeded is not waited for again. *)
Definition removed_stays (l : list Obs) : Prop :=
  ∀ l1 id l2 ids, l = l1 ++ SawRemoved id :: l2 → SawArmed ids ∈ l2 → id ∉ ids.

(** A handle that the manager has given out. *)
Definition issued (m : AioManager) (id : Z) : Prop :=
  1 <= id ∧ (AioManager._next_id m ≠ 0 → id < AioManager._next_id m).

Record aio_ok (l : list Obs) (m : AioManager) (retired : list AioEntry) : Prop := {
  ai_cbs : NoDup (map AioManager._cb (AioManager._entries m ++ retired));
  ai_where e : e ∈ AioManager._entries m → _where e = AioManager._cb e;
  ai_fds e : e ∈ AioManager._entries m → fits_fd_set e = true;
  ai_ids : NoDup (map _id (AioManager._entries m));
  ai_issued e : e ∈ AioManager._entries m → issued m (_id e);
  ai_next : is_u64 (AioManager._next_id m);
  ai_removed id : SawRemoved id ∈ l →
    issued m id ∧ ∀ e, e ∈ AioManager._entries m → _id e = id → _pending_remove e = true;
  ai_armed : removed_stays l;
  ai_cleaned : AioManager._cleaned_up m = true → AioManager._entries m = []
}.

Record context_ok (l : list Obs) (c : LoopContext) : Prop := {
  ok_timers : timers_ok (system c);
  ok_deadlines t : t ∈ live (system c) → _tinterval t * TimerManager.NS_PER_MS <= _tnext t <= INT64_MAX;
  ok_kinds t cb : t ∈ live (system c) → _heap c !! _tcb t = Some cb →
    _asynchronous cb = has_flag (_tflags t) WORKER;
  ok_heap : heap_ok (registry c) (_dying c) (_heap c) (_brk c);
  ok_aio : aio_ok l (_aio c) (_retired c)
}.

(** ** What other threads leave alone *)

Definition same_entry (e e' : AioEntry) : Prop :=
  _where e' = _where e ∧ _id e' = _id e ∧ AioManager._fd e' = AioManager._fd e
  ∧ AioManager._cb e' = AioManager._cb e ∧ (_pending_remove e = true → _pending_remove e' = true).

Definition same_callback (cb cb' : EnhancedCallback) : Prop :=
  _asynchronous cb' = _asynchronous cb ∧ (_stopping cb = true → _stopping cb' = true).

(** No object but those in [gone] is destroyed. *)
Record keeps (gone : list addr) (c c' : LoopContext) : Prop := {
  ke_aio : AioManager._cleaned_up (_aio c') = AioManager._cleaned_up (_aio c);
  ke_timers : TimerManager._cleaned_up (_timers c') = TimerManager._cleaned_up (_timers c);
  ke_wakeup : _wakeup c' = _wakeup c;
  ke_entries e : e ∈ entries c → ∃ e', e' ∈ entries c' ∧ same_entry e e';
  ke_heap a cb : _heap c !! a = Some cb → a ∉ gone →
    ∃ cb', _heap c' !! a = Some cb' ∧ same_callback cb cb'
}.

(** What the engine's thread holds. *)
Definition held (c : LoopContext) : option TimerEntry * list AioEntry * list addr :=
  (_active c, _retired c, _dying c).

Lemma keeps_refl c : keeps [] c c.
Proof. split; try done; [intros e He; by exists e|]. intros a cb Ha _. by exists cb. Qed.

Lemma keeps_trans g1 g2 c c1 c2 : keeps g1 c c1 → keeps g2 c1 c2 → keeps (g1 ++ g2) c c2.
Proof.
  intros [A1 T1 P1 E1 H1] [A2 T2 P2 E2 H2]. split; [congruence..| |].
  - intros e He. destruct (E1 e He) as (e1 & He1 & S1). destruct (E2 e1 He1) as (e2 & He2 & S2).
    exists e2. split; [done|]. destruct S1 as (?&?&?&?&?), S2 as (?&?&?&?&?).
    repeat split; try congruence. auto.
  - intros a cb Ha Hn. rewrite not_elem_of_app in Hn. destruct Hn as [Hn1 Hn2].
    destruct (H1 a cb Ha Hn1) as (cb1 & Ha1 & ? & ?). destruct (H2 a cb1 Ha1 Hn2) as (cb2 & ? & ? & ?).
    exists cb2. split; [done|]. split; [congruence|auto].
Qed.

(** ** The heap *)

Lemma heap_brk cbs dying h brk : heap_ok cbs dying h brk → h !! brk = None ∧ brk ∉ cbs ∧ brk ∉ dying.
Proof.
  intros [O D B T]. assert (h !! brk = None) as Hb.
  { destruct (h !! brk) eqn:E; [|done]. specialize (B brk). rewrite E in B. specialize (B ltac:(eauto)). lia. }
  split; [done|]. specialize (O brk). rewrite Hb in O. split; intros Hx; destruct (proj2 O) as [? [=]]; auto.
Qed.

Lemma heap_allocate cbs cbs' dying h brk name asynchronous :
  heap_ok cbs dying h brk → (∀ a, a ∈ cbs' ↔ a ∈ cbs ∨ a = brk) →
  heap_ok cbs' dying (<[brk := new_callback name asynchronous]> h) (brk + 1).
Proof.
  intros Hh Hcbs. destruct (heap_brk _ _ _ _ Hh) as (Hn & _ & Hd). destruct Hh as [O D B T].
  split; intros a; [|intros Ha|..].
  - rewrite Hcbs. destruct (decide (a = brk)) as [->|Hne].
    + rewrite lookup_insert_eq. split; eauto.
    + rewrite lookup_insert_ne by done. rewrite O. tauto.
  - rewrite Hcbs. intros [?| ->]; [by eapply D|done].
  - destruct (decide (a = brk)) as [->|Hne]; [intros _; lia|].
    rewrite lookup_insert_ne by done. intros Hx%B. lia.
  - intros cb. destruct (decide (a = brk)) as [->|Hne].
    + rewrite lookup_insert_eq. intros [= <-]. apply new_callback_ok.
    + rewrite lookup_insert_ne by done. apply T.
Qed.

Lemma heap_update cbs dying h brk a cb :
  heap_ok cbs dying h brk → is_Some (h !! a) → thread_ok cb → heap_ok cbs dying (<[a := cb]> h) brk.
Proof.
  intros [O D B T] Ha Hcb. assert (∀ x, is_Some (<[a:=cb]> h !! x) ↔ is_Some (h !! x)) as Hs.
  { intros x. destruct (decide (x = a)) as [->|Hne]; [rewrite lookup_insert_eq|by rewrite lookup_insert_ne].
    split; eauto. }
  split; [intros x; by rewrite Hs|done|intros x; rewrite Hs; apply B|]. intros x cb'.
  destruct (decide (x = a)) as [->|Hne]; [rewrite lookup_insert_eq; by intros [= <-]|].
  rewrite lookup_insert_ne by done. apply T.
Qed.

(** Callbacks leave the registry. *)
Lemma heap_doom cbs cbs' dying h brk gone :
  heap_ok cbs dying h brk → (∀ a, a ∈ gone → a ∈ cbs) → (∀ a, a ∈ cbs' ↔ a ∈ cbs ∧ a ∉ gone) →
  heap_ok cbs' (gone ++ dying) h brk.
Proof.
  intros [O D B T] Hg Hcbs. split; [|..|done|done]; intros a.
  - rewrite O, Hcbs, elem_of_app. destruct (decide (a ∈ gone)); naive_solver.
  - rewrite elem_of_app, Hcbs. intros [?|Ha] [? ?]; [done|by eapply D].
Qed.

Lemma heap_destroy cbs dying h brk a :
  heap_ok cbs dying h brk → a ∈ dying → heap_ok cbs (filter (λ x, x ≠ a) dying) (delete a h) brk.
Proof.
  intros [O D B T] Ha. split; intros x.
  - rewrite list_elem_of_filter. destruct (decide (x = a)) as [->|Hne].
    + rewrite lookup_delete_eq. split; [by intros [? [=]]|]. intros [Hx|[? ?]]; [by apply D in Ha|done].
    + rewrite lookup_delete_ne by done. rewrite O. tauto.
  - intros [_ Hx]%list_elem_of_filter. by apply D.
  - intros [cb Hx]. apply lookup_delete_Some in Hx as [_ Hx]. apply B. eauto.
  - intros cb Hx. apply lookup_delete_Some in Hx as [_ Hx]. by eapply T.
Qed.

(** ** The descriptors *)

Lemma issued_next m id l at_ fd cb :
  is_u64 (AioManager._next_id m) → AioManager._next_id m ≠ 0 →
  let m' := mkAio (mkEntry at_ (AioManager._next_id m) fd false cb :: l)
              (u64 (AioManager._next_id m + 1)) false in
  (issued m id → issued m' id) ∧ issued m' (AioManager._next_id m).
Proof.
  intros Hu Hz. cbn. unfold issued, is_u64, u64 in *. cbn.
  destruct (decide (AioManager._next_id m + 1 = 2 ^ 64)) as [E|].
  - rewrite E. split; [intros [? _]; by split|split; [lia|done]].
  - rewrite Z.mod_small by lia. split; [|lia]. intros [? Hi]. specialize (Hi Hz). lia.
Qed.

Lemma aio_added l m retired fd cb :
  aio_ok l m retired → AioManager._next_id m ≠ 0 → AioManager._cleaned_up m = false →
  0 <= fd < FD_SETSIZE → cb ∉ aio_cbs m retired →
  aio_ok l (mkAio (mkEntry cb (AioManager._next_id m) fd false cb :: AioManager._entries m)
              (u64 (AioManager._next_id m + 1)) false) retired.
Proof.
  intros [C W F I S N R A Cl] Hz Hcl Hfd Hcb.
  destruct (issued_next m 0 (AioManager._entries m) cb fd cb N Hz) as [_ Hnew].
  pose proof (λ id, proj1 (issued_next m id (AioManager._entries m) cb fd cb N Hz)) as Hold.
  split; cbn [AioManager._entries AioManager._next_id AioManager._cleaned_up]; [..|done| done].
  - cbn. constructor; [|done]. unfold aio_cbs in Hcb. by rewrite elem_of_list_to_set in Hcb.
  - intros e [->|He]%elem_of_cons; [done|by apply W].
  - intros e [->|He]%elem_of_cons; [|by apply F]. unfold fits_fd_set. cbn.
    apply andb_true_iff. rewrite Z.leb_le, Z.ltb_lt. done.
  - cbn. constructor; [|done]. intros (e & He & Hin)%list_elem_of_fmap.
    destruct (S e Hin) as [_ Hlt]. specialize (Hlt Hz). lia.
  - intros e [->|He]%elem_of_cons; [done|]. by apply Hold, S.
  - unfold is_u64, u64. apply Z.mod_pos_bound. lia.
  - intros id Hid. destruct (R id Hid) as [Hi Hp]. split; [by apply Hold|].
    intros e [->|He]%elem_of_cons Heq; [|by apply Hp]. exfalso. destruct Hi as [_ Hi].
    specialize (Hi Hz). cbn in Heq. lia.
Qed.

(** Marking an entry as removed. *)
Lemma marked_elem (i : nat) e (l : list AioEntry) e' :
  l !! i = Some e → e' ∈ <[i := set_pending_remove true e]> l →
  ∃ e0, e0 ∈ l ∧ same_entry e0 e'.
Proof.
  intros Hi He'. apply list_elem_of_lookup in He' as [j Hj].
  apply list_lookup_insert_Some in Hj as [(-> & <- & _)|[_ Hj]].
  - exists e. split; [by apply list_elem_of_lookup_2 in Hi|done].
  - exists e'. split; [by apply list_elem_of_lookup_2 in Hj|done].
Qed.

Lemma marked_map {B} (g : AioEntry → B) (i : nat) e l :
  l !! i = Some e → g (set_pending_remove true e) = g e → map g (<[i := set_pending_remove true e]> l) = map g l.
Proof.
  intros Hi Hg. rewrite (list_fmap_insert g : ∀ l i x, map g (<[i:=x]> l) = <[i:=g x]> (map g l)), Hg.
  apply list_insert_id. by rewrite (list_lookup_fmap g : ∀ l i, map g l !! i = _), Hi.
Qed.

Lemma removed_stays_snoc l id : removed_stays l → removed_stays (l ++ [SawRemoved id]).
Proof.
  intros Hl l1 id' l2 ids He Hin. destruct l2 as [|o l2 _] using rev_ind; [by apply not_elem_of_nil in Hin|].
  rewrite app_comm_cons, app_assoc in He. apply app_inj_tail in He as [-> <-].
  apply elem_of_app in Hin as [Hin|Hin]; [by eapply Hl|]. by apply list_elem_of_singleton in Hin.
Qed.

Lemma aio_marked l m retired i e :
  aio_ok l m retired → AioManager._entries m !! i = Some e →
  aio_ok (l ++ [SawRemoved (_id e)])
    (AioManager.set_entries (<[i := set_pending_remove true e]> (AioManager._entries m)) m) retired.
Proof.
  intros [C W F I S N R A Cl] Hi. pose proof (marked_elem i e (AioManager._entries m)) as Hel.
  split; cbn [AioManager.set_entries AioManager._entries AioManager._next_id AioManager._cleaned_up]; [..|done| | |].
  - rewrite map_app, marked_map, <- map_app by done. done.
  - intros e' He'. destruct (Hel e' Hi He') as (e0 & H0 & Hw & _ & _ & Hc & _). rewrite Hw, Hc. by apply W.
  - intros e' He'. destruct (Hel e' Hi He') as (e0 & H0 & _ & _ & Hf & _ & _). unfold fits_fd_set.
    rewrite Hf. by apply F.
  - by rewrite marked_map.
  - intros e' He'. destruct (Hel e' Hi He') as (e0 & H0 & _ & Hid & _). rewrite Hid. by apply S.
  - intros id Hin. apply elem_of_app in Hin as [Hin|Hin].
    + destruct (R id Hin) as [Hs Hp]. split; [done|]. intros e' He' Heq.
      destruct (Hel e' Hi He') as (e0 & H0 & _ & Hid & _ & _ & Hpe). apply Hpe, Hp; [done|congruence].
    + apply list_elem_of_singleton in Hin. injection Hin as ->.
      split; [apply S; by apply list_elem_of_lookup_2 in Hi|]. intros e' He' Heq.
      apply list_elem_of_lookup in He' as [j Hj].
      apply list_lookup_insert_Some in Hj as [(-> & <- & _)|[Hne Hj]]; [done|]. exfalso. apply Hne.
      eapply (NoDup_lookup (map _id (AioManager._entries m))); [done|..];
        rewrite (list_lookup_fmap _id : ∀ l i, map _id l !! i = _).
      * by rewrite Hi.
      * rewrite Hj. cbn. by rewrite Heq.
  - by apply removed_stays_snoc.
  - intros Hcl. rewrite (Cl Hcl) in Hi. done.
Qed.

(** ** The steps of other threads *)

Lemma refused_same c : set_timers (set_registry (registry c) (_timers c)) (_active c) (set_aio (_aio c) (_retired c) c) = c.
Proof. by destruct c as [? [] ? ? ? ? ? ? ? ?]. Qed.

(** The next address belongs to nobody. *)
Lemma brk_fresh l c :
  context_ok l c → _heap c !! _brk c = None ∧ _brk c ∉ registry c
    ∧ _brk c ∉ _tcb <$> live (system c) ∧ _brk c ∉ aio_cbs (_aio c) (_retired c).
Proof.
  intros Hc. destruct (heap_brk _ _ _ _ (ok_heap _ _ Hc)) as (Hb & Hr & _).
  pose proof (tk_registry _ (ok_timers _ _ Hc) (_brk c)) as Hx. cbn in Hx. unfold registry in *. tauto.
Qed.

Lemma aio_add_ok l c fd has_cb asynchronous env handle c' :
  context_ok l c → aio_add c fd has_cb asynchronous env = (handle, c') →
  context_ok l c' ∧ keeps [] c c' ∧ held c' = held c.
Proof.
  intros Hc. destruct (brk_fresh _ _ Hc) as (Hb & Hr & Hl & Ha). unfold aio_add.
  pose proof (tk_registry_nodup _ (ok_timers _ _ Hc)) as Hnd.
  pose proof (aio_add_spec (_aio c) (registry c) fd has_cb (mkAioEnv (ready_pipe c) (entry_alloc env)
    (node_alloc env) (registry_alloc env) (wakeup_ok env)) (_brk c) (_brk c) Hr Hnd) as Hs.
  destruct (AioManager.add _ _ _ _ _ _ _) as [[[id|] aio] cbs]; cycle 1.
  { destruct Hs as [-> ->]. intros [= <- <-]. rewrite refused_same. split; [done|]. split; [apply keeps_refl|done]. }
  destruct Hs as (-> & Hid & Hcl & Hfd & -> & ->). intros [= <- <-]. split; [|split; [|done]].
  - split.
    + exact (proj1 (others_ok _ _ _ (_brk c) (ok_timers _ _ Hc)) Hl).
    + apply (ok_deadlines _ _ Hc).
    + intros t cb Hti. cbn. rewrite lookup_insert_ne; [by apply (ok_kinds _ _ Hc)|].
      intros Heq. apply Hl. apply list_elem_of_fmap. by exists t.
    + cbn. eapply heap_allocate; [apply (ok_heap _ _ Hc)|]. intros a. apply elem_of_registry_add.
    + cbn. by apply aio_added; [apply (ok_aio _ _ Hc)|..].
  - split; cbn; [done|done|done| |].
    + intros e' He'. exists e'. split; [by right|]. done.
    + intros a cb Hx _. exists cb. split; [|done]. rewrite lookup_insert_ne; [done|]. intros <-. congruence.
Qed.

(** A change of the managers only. *)
Lemma remove_ok l c i e :
  context_ok l c → entries c !! i = Some e →
  let c' := set_aio (AioManager.set_entries (<[i := set_pending_remove true e]> (entries c)) (_aio c)) (_retired c) c in
  context_ok (l ++ [SawRemoved (_id e)]) c' ∧ keeps [] c c' ∧ held c' = held c.
Proof.
  intros Hc Hi c'. pose proof (aio_marked _ _ _ _ _ (ok_aio _ _ Hc) Hi) as Ha.
  assert (system c' = system c) as Hs.
  { unfold system, aio_cbs. cbn. rewrite !map_app, marked_map by done. done. }
  split; [|split; [|done]].
  - split; rewrite ?Hs; [apply Hc..|done].
  - split; cbn; [done|done|done| |intros a cb Hx _; by exists cb]. intros e' [j Hj]%list_elem_of_lookup.
    destruct (decide (j = i)) as [->|Hne].
    + rewrite Hj in Hi. injection Hi as <-. exists (set_pending_remove true e').
      split; [|by repeat split]. apply (list_elem_of_lookup_2 _ i), list_lookup_insert_eq.
      by eapply lookup_lt_Some.
    + exists e'. split; [|done]. apply (list_elem_of_lookup_2 _ j). by rewrite list_lookup_insert_ne.
Qed.

Lemma timer_added l c t id :
  context_ok l c → _tcb t = _brk c → 
  _tinterval t * TimerManager.NS_PER_MS <= _tnext t <= INT64_MAX →
  let c' := set_timers (mkManager (insert_sorted t (TimerManager._timers (_timers c)))
              (registry_add (registry c) (_brk c)) id false) (_active c)
              (allocate [] (has_flag (_tflags t) WORKER) c) in
  timers_ok (system c') → TimerManager._cleaned_up (_timers c) = false →
  context_ok l c' ∧ keeps [] c c' ∧ held c' = held c.
Proof.
  intros Hc Hcb Hdl c' Ht Hcl. destruct (brk_fresh _ _ Hc) as (Hb & Hr & Hl & Ha).
  assert (∀ x, x ∈ live (system c') → x = t ∨ x ∈ live (system c)) as Hlive.
  { intros x. unfold live. cbn. rewrite !elem_of_app, insert_perm, elem_of_cons. tauto. }
  split; [|split; [|done]].
  - split; [done|..].
    + intros x [->|Hx]%Hlive; [done|by apply (ok_deadlines _ _ Hc)].
    + intros x cb [->|Hx]%Hlive; cbn.
      * rewrite Hcb, lookup_insert_eq. by intros [= <-].
      * rewrite lookup_insert_ne; [by apply (ok_kinds _ _ Hc)|]. intros Heq. apply Hl.
        apply list_elem_of_fmap. by exists x.
    + cbn. eapply heap_allocate; [apply (ok_heap _ _ Hc)|]. intros a. apply elem_of_registry_add.
    + apply (ok_aio _ _ Hc).
  - split; cbn; [done|done|done|intros e He; by exists e|].
    intros a cb Hx _. exists cb. split; [|done]. rewrite lookup_insert_ne; [done|]. intros <-. congruence.
Qed.

Lemma set_timer_ok w c has_cb flags delay env :
  _context w = Some c → context_ok (elog w) c → 0 <= clock_now env <= CLOCK_MAX →
  ∃ h w' c', set_timer w has_cb flags delay env = Some (h, w') ∧ _context w' = Some c'
    ∧ context_ok (elog w') c' ∧ keeps [] c c' ∧ held c' = held c
    ∧ elog w' = elog w ∧ escript w' = escript w ∧ _ephase w' = _ephase w.
Proof.
  intros Hw Hc Hnow. unfold set_timer. destruct (accepts_registration (_ephase w)); cbn [negb]; cycle 1.
  { exists None, w, c. do 3 (split; [done|]). split; [apply keeps_refl|done]. }
  rewrite Hw. destruct (brk_fresh _ _ Hc) as (Hb & Hr & Hl & Ha).
  set (env' := mkAddEnv _ _ _ _ _ _ _).
  pose proof (tk_registry_nodup _ (ok_timers _ _ Hc)) as Hnd.
  assert (0 <= clock_now env' <= INT64_MAX) as Hn' by (cbn; unfold CLOCK_MAX, INT64_MAX in *; lia).
  destruct (add_spec (_timers c) has_cb flags delay env' Hn' Hr Hnd) as (h & m' & Hadd & Hh).
  rewrite Hadd. cbn [mbind option_bind]. destruct h as [id|]; cycle 1.
  { subst m'. exists None. eexists _, c. split; [done|].
    assert (set_timers (_timers c) (_active c) c = c) as -> by by destruct c.
    do 2 (split; [done|]). split; [apply keeps_refl|done]. }
  destruct Hh as (-> & Hid & Hd & Hcl & Hv & Hwk & Hmax & ->).
  eexists _, _, _. split; [done|]. split; [done|]. cbn [with_context elog escript _ephase].
  set (t := mkTimer _ _ _ _ _ _) in *.
  destruct (timer_added (elog w) c t (u64 (TimerManager._next_id (_timers c) + 1)) Hc) as (H1 & H2 & H3);
    [done| | |done|done].
  - subst t env'. cbn [_tinterval _tnext clock_now] in *. unfold TimerManager.NS_PER_MS in *.
    destruct (has_flag flags RECURRING); lia.
  - cbn. refine (timer_step_ok _ _ (ok_timers _ _ Hc) _). eapply (StepAdd _ _ _ has_cb flags delay env'); [done..|].
    rewrite Hadd. done.
Qed.

(** ** Worlds *)

Record inv (w : EWorld) : Prop := {
  inv_context : ∃ c, _context w = Some c ∧ context_ok (elog w) c;
  inv_script : Forall event_ok (escript w)
}.

Record trans (w : EWorld) (l : list Obs) (w' : EWorld) : Prop := {
  tr_inv : inv w';
  tr_log : elog w' = elog w ++ l;
  tr_script : (length (escript w') <= length (escript w))%nat
}.

#[local] Instance engine_histories : Histories EWorld Obs inv trans.
Proof.
  split; [apply tr_inv|by split; [|rewrite app_nil_r|]|].
  intros w l w1 k w2 [I1 L1 S1] [I2 L2 S2]. split; [done|by rewrite L2, L1, app_assoc|lia].
Qed.
#[local] Abbreviation Loop := (Eff EWorld).
#[local] Abbreviation wpp := (hoare trans).

(** [c'] is what steps that destroy [gone] made of the context [c] of [w]. *)
Definition after (gone : list addr) (c : LoopContext) (w' : EWorld) (c' : LoopContext) : Prop :=
  _context w' = Some c' ∧ context_ok (elog w') c' ∧ keeps gone c c'.

(** An outer step. *)
Definition outside (w : EWorld) (c : LoopContext) (l : list Obs) (w' : EWorld) : Prop :=
  ∃ c', after [] c w' c' ∧ held c' = held c ∧ elog w' = elog w ++ l ∧ escript w' = escript w
    ∧ Forall (λ o, ∃ id, o = SawRemoved id) l ∧ (_ephase w' = _ephase w ∨ _ephase w = RUNNING ∧ _ephase w' = STOPPING).

Lemma outside_refl w c : _context w = Some c → context_ok (elog w) c → outside w c [] w.
Proof.
  intros Hw Hc. exists c. split; [by split; [|split; [|apply keeps_refl]]|].
  split; [done|]. split; [by rewrite app_nil_r|]. split; [done|]. split; [constructor|by left].
Qed.

Lemma work_ok elapsed cb : thread_ok cb → thread_ok (work elapsed cb) ∧ same_callback cb (work elapsed cb).
Proof.
  intros Hcb. unfold work. destruct (_worker cb) eqn:Ew; [done| |split; [by apply call_ok|done]|done..].
  destruct (worker_next cb) as [[b cb']|] eqn:En; [|done].
  destruct (worker_next_ok _ _ _ Hcb Ew En) as [? _]. split; [done|].
  unfold worker_next in En. destruct (_stopping cb) eqn:Es; [by injection En as <- <-; split|].
  destruct (_pending cb); [by injection En as <- <-; split|done].
Qed.

(** A change of one callback object. *)
Lemma callback_changed l c a cb cb' :
  context_ok l c → _heap c !! a = Some cb → thread_ok cb' → same_callback cb cb' →
  let c' := set_heap (<[a := cb']> (_heap c)) c in
  context_ok l c' ∧ keeps [] c c' ∧ held c' = held c.
Proof.
  intros Hc Ha Hcb Has c'. split; [|split; [|done]].
  - split; [apply Hc..| | |apply Hc]; cbn.
    + intros t x Ht. destruct (decide (_tcb t = a)) as [<-|Hne].
      * rewrite lookup_insert_eq. intros [= <-]. rewrite (proj1 Has). by apply (ok_kinds _ _ Hc).
      * rewrite lookup_insert_ne by done. by apply (ok_kinds _ _ Hc).
    + apply heap_update; [apply Hc|eauto|done].
  - split; cbn; [done|done|done|intros e He; by exists e|]. intros x y Hx _.
    destruct (decide (x = a)) as [->|Hne]; [rewrite lookup_insert_eq|rewrite lookup_insert_ne by done; by exists y].
    exists cb'. rewrite Ha in Hx. by injection Hx as <-.
Qed.

Lemma outside_context w c c' :
  context_ok (elog w) c' ∧ keeps [] c c' ∧ held c' = held c → outside w c [] (with_context c' w).
Proof.
  intros (Hc & Hk & Hh). exists c'. split; [by split|]. split; [done|]. split; [by rewrite app_nil_r|].
  split; [done|]. split; [constructor|by left].
Qed.

Lemma removal_ok w c id wk :
  _context w = Some c → context_ok (elog w) c →
  ∃ l w', act (OuterRemoveAio id wk) w = Some w' ∧ outside w c l w'.
Proof.
  intros Hw Hc. cbn [act]. unfold remove_aio.
  assert (∃ l w', Some w = Some w' ∧ outside w c l w') as Hsame by (exists [], w; split; [done|by apply outside_refl]).
  destruct (id =? 0); [done|]. destruct (accepts_registration _); cbn [negb]; [|done].
  rewrite Hw. case_bool_decide; [done|].
  pose proof (aio_remove_spec (_aio c) id wk) as Hs. destruct (AioManager.remove (_aio c) id wk) as [ok aio].
  destruct ok; cycle 1.
  { subst aio. exists []. eexists. split; [done|]. apply outside_context.
    assert (set_aio (_aio c) (_retired c) c = c) as -> by by destruct c. split; [done|]. split; [apply keeps_refl|done]. }
  destruct Hs as (_ & i & e & Hi & <- & _ & ->). eexists [SawRemoved (_id e)], _. split; [done|].
  destruct (remove_ok _ _ _ _ Hc Hi) as (H1 & H2 & H3). eexists. split; [by split; [|split; [exact H1|exact H2]]|].
  split; [done|]. do 2 (split; [done|]). split; [|by left]. apply Forall_singleton. eauto.
Qed.

Lemma act_ok o w c :
  _context w = Some c → context_ok (elog w) c → outer_ok o →
  ∃ l w', act o w = Some w' ∧ outside w c l w'.
Proof.
  intros Hw Hc Ho. pose proof (outside_refl w c Hw Hc) as Hsame.
  destruct o as [fd has_cb asynchronous env|id wk|has_cb flags delay env| |a elapsed]; [|by apply removal_ok|..]; cbn [act].
  - exists []. eexists. split; [done|]. unfold add_aio. destruct (accepts_registration _); cbn [negb]; [|done].
    rewrite Hw. destruct (fd =? _); [done|].
    destruct (aio_add c fd has_cb asynchronous env) as [h c'] eqn:Ea.
    by eapply outside_context, aio_add_ok.
  - destruct (set_timer_ok w c has_cb flags delay env Hw Hc Ho) as (h & w' & c' & -> & Hw' & Hc' & Hk & Hh & Hl & Hs & Hp).
    exists [], w'. split; [done|]. exists c'. do 2 (split; [done|]). split; [by rewrite app_nil_r|].
    split; [done|]. split; [constructor|by left].
  - exists []. eexists. split; [done|]. unfold stop. case_bool_decide; [|done].
    exists c. split; [by split; [|split; [|apply keeps_refl]]|]. split; [done|]. split; [by rewrite app_nil_r|].
    split; [done|]. split; [constructor|by right].
  - exists []. rewrite Hw. destruct (_heap c !! a) as [cb|] eqn:Ea; [|by eexists].
    eexists. split; [done|]. destruct (work_ok elapsed cb) as [Ht Has]; [by apply (hp_threads _ _ _ _ (ok_heap _ _ Hc) a)|].
    by apply outside_context, callback_changed with cb.
Qed.

Lemma outside_trans w c l w1 c1 k w2 :
  outside w c l w1 → _context w1 = Some c1 → outside w1 c1 k w2 → outside w c (l ++ k) w2.
Proof.
  intros (c1' & (Hc1 & Ho1 & Hk1) & Hh1 & Hl1 & Hs1 & Hf1 & Hp1) Heq (c2 & (Hc2 & Ho2 & Hk2) & Hh2 & Hl2 & Hs2 & Hf2 & Hp2).
  rewrite Heq in Hc1. injection Hc1 as ->. exists c2. split; [split; [done|]; split; [done|exact (keeps_trans [] [] _ _ _ Hk1 Hk2)]|].
  split; [congruence|]. split; [by rewrite Hl2, Hl1, app_assoc|]. split; [congruence|].
  split; [by apply Forall_app|]. destruct Hp1 as [Hp1|[? Hp1]], Hp2 as [Hp2|[? Hp2]]; rewrite ?Hp1 in *; auto; congruence.
Qed.

Lemma acts_ok os : Forall outer_ok os → ∀ w c,
  _context w = Some c → context_ok (elog w) c →
  ∃ l w', acts os w = Some w' ∧ outside w c l w' ∧ (OuterStop ∈ os → _ephase w' ≠ RUNNING).
Proof.
  induction 1 as [|o os Ho _ IH]; intros w c Hw Hc; cbn [acts].
  { exists [], w. split; [done|]. split; [by apply outside_refl|]. by intros ?%not_elem_of_nil. }
  destruct (act_ok o w c Hw Hc Ho) as (l1 & w1 & Ha & Hout). rewrite Ha. cbn [mbind option_bind].
  pose proof Hout as (c1 & (Hw1 & Hc1 & _) & _).
  destruct (IH w1 c1 Hw1 Hc1) as (l2 & w2 & -> & Hout2 & Hst). exists (l1 ++ l2), w2. split; [done|].
  split; [by eapply outside_trans|]. intros [<-|Hin]%elem_of_cons; [|by apply Hst].
  destruct Hout2 as (_ & _ & _ & _ & _ & _ & Hp). injection Ha as <-. unfold stop in Hp.
  case_bool_decide as Hr; cbn in Hp; [destruct Hp as [->|[? _]]; done|].
  destruct Hp as [->|[? _]]; done.
Qed.

(** ** Primitives *)

Lemma loop_tick Q w c :
  inv w → _context w = Some c →
  (∀ e l w' c', inv w' → after [] c w' c' → held c' = held c → event_ok e →
     (length (escript w') < length (escript w))%nat ∨ e = last_event ∧ _ephase w' ≠ RUNNING →
     (_ephase w' = _ephase w ∨ _ephase w = RUNNING ∧ _ephase w' = STOPPING) → Q e l w') →
  wpp tick Q w.
Proof.
  intros [(c0 & Hw0 & Hc) Hs] Hw HQ. rewrite Hw in Hw0. injection Hw0 as <-. unfold hoare, tick.
  set (e := default last_event (head (escript w))).
  set (w0 := mkEWorld (_ephase w) (_context w) (tail (escript w)) (elog w)).
  assert (event_ok e ∧ Forall event_ok (escript w0)) as [He Hs0].
  { subst e w0. cbn. destruct (escript w) as [|e0 s]; cbn; [|by inversion Hs]. split; [|done].
    split; cbn; [unfold CLOCK_MAX; lia|by repeat constructor]. }
  destruct (acts_ok (e_outer e) (ok_outer _ He) w0 c Hw Hc) as (l & w' & -> & Hout & Hst).
  destruct Hout as (c' & Ha & Hh & Hl & Hsc & Hf & Hp). cbn [fst snd]. exists l.
  assert (inv w') as I'.
  { split; [exists c'; by destruct Ha as (? & ? & _)|by rewrite Hsc]. }
  split.
  - split; [done|done|]. rewrite Hsc. cbn. destruct (escript w); cbn; lia.
  - apply (HQ e l w' c'); [done..| |exact Hp]. rewrite Hsc. cbn. destruct (escript w) as [|e0 s] eqn:E; cbn; [|left; lia].
    right. split; [by subst e|]. apply Hst. subst e. cbn. by left.
Qed.

Lemma loop_get Q w c : inv w → _context w = Some c → Q c [] w → wpp get_context Q w.
Proof. intros I Hw HQ. unfold hoare, get_context. rewrite Hw. by apply hoare_ret. Qed.

Lemma loop_put c' Q w :
  inv w → context_ok (elog w) c' → (inv (with_context c' w) → Q tt [] (with_context c' w)) →
  wpp (put_context c') Q w.
Proof.
  intros I Hc HQ. assert (inv (with_context c' w)) as I' by (split; [by exists c'|apply I]).
  exists []. split; [|by apply HQ]. by split; [|rewrite app_nil_r|].
Qed.

Lemma loop_modify g Q w c :
  inv w → _context w = Some c → context_ok (elog w) (g c) →
  (inv (with_context (g c) w) → Q tt [] (with_context (g c) w)) → wpp (modify g) Q w.
Proof.
  intros I Hw Hc HQ. unfold modify. apply hoare_bind, (loop_get _ _ c); [done..|]. by apply loop_put.
Qed.

Lemma loop_get_phase Q w : inv w → Q (_ephase w) [] w → wpp get_phase Q w.
Proof. apply hoare_ret. Qed.

Lemma loop_set_phase p Q w :
  inv w → (inv (with_phase p w) → Q tt [] (with_phase p w)) → wpp (set_phase p) Q w.
Proof.
  intros I HQ. assert (inv (with_phase p w)) as I' by (split; apply I).
  exists []. split; [|by apply HQ]. by split; [|rewrite app_nil_r|].
Qed.

Lemma loop_asserted b Q w : inv w → b = true → Q tt [] w → wpp (asserted b) Q w.
Proof. intros I -> HQ. by apply hoare_ret. Qed.

(** Observations that concern no handle. *)
Definition plain_obs (o : Obs) : Prop :=
  match o with SawRemoved _ | SawArmed _ => False | _ => True end.

Lemma aio_plain l m retired o : plain_obs o → aio_ok l m retired → aio_ok (l ++ [o]) m retired.
Proof.
  intros Ho [C W F I S N R A Cl]. split; try done.
  - intros id [Hin|Hin]%elem_of_app; [by apply R|]. apply list_elem_of_singleton in Hin. by subst o.
  - intros l1 id l2 ids He Hin. destruct l2 as [|o' l2 _] using rev_ind; [by apply not_elem_of_nil in Hin|].
    rewrite app_comm_cons, app_assoc in He. apply app_inj_tail in He as [-> ->].
    apply elem_of_app in Hin as [Hin|Hin]; [by eapply A|]. apply list_elem_of_singleton in Hin. by subst o'.
Qed.

Lemma context_plain l c o : plain_obs o → context_ok l c → context_ok (l ++ [o]) c.
Proof. intros Ho [T D K Hh A]. split; try done. by apply aio_plain. Qed.

Lemma loop_obs o Q w :
  inv w → plain_obs o → (inv (with_log o w) → Q tt [o] (with_log o w)) → wpp (record_obs o) Q w.
Proof.
  intros [(c & Hw & Hc) Hs] Ho HQ. assert (inv (with_log o w)) as I'.
  { split; [|done]. exists c. split; [done|]. by apply context_plain. }
  exists [o]. split; [|by apply HQ]. by split.
Qed.

(** *** Callbacks *)

Definition present (a : addr) (c : LoopContext) : Prop := is_Some (_heap c !! a).

Lemma present_keeps gone a c c' : keeps gone c c' → a ∉ gone → present a c → present a c'.
Proof. intros Hk Hn [cb Ha]. destruct (ke_heap _ _ _ Hk a cb Ha Hn) as (cb' & Ha' & _). by exists cb'. Qed.

Lemma loop_callback_at a Q w c :
  inv w → _context w = Some c → present a c →
  (∀ cb, _heap c !! a = Some cb → thread_ok cb → Q cb [] w) → wpp (callback_at a) Q w.
Proof.
  intros I Hw [cb Ha] HQ. unfold callback_at. apply hoare_bind, (loop_get _ _ c); [done..|].
  eapply hoare_defined; [done|exact Ha|]. apply HQ; [done|].
  destruct (inv_context _ I) as (c0 & Hc0 & Hok). rewrite Hw in Hc0. injection Hc0 as <-.
  by apply (hp_threads _ _ _ _ (ok_heap _ _ Hok) a).
Qed.

(** The state after a step that destroys nothing and leaves what the thread holds. *)
Definition quiet (w : EWorld) (c : LoopContext) (w' : EWorld) : Prop :=
  ∃ c', after [] c w' c' ∧ held c' = held c.

Lemma quiet_trans w c w1 c1 w2 :
  after [] c w1 c1 → held c1 = held c → quiet w1 c1 w2 → quiet w c w2.
Proof.
  intros (_ & _ & K1) H1 (c2 & (Hw2 & Hc2 & K2) & H2). exists c2. split; [|congruence].
  split; [done|]. split; [done|]. exact (keeps_trans [] [] _ _ _ K1 K2).
Qed.

Lemma inv_ok w c : inv w → _context w = Some c → context_ok (elog w) c.
Proof. intros [(c0 & Hc0 & Hok) _] Hw. rewrite Hw in Hc0. by injection Hc0 as <-. Qed.

Lemma quiet_refl w c : inv w → _context w = Some c → quiet w c w.
Proof. intros I Hw. exists c. split; [|done]. split; [done|]. split; [by apply inv_ok|apply keeps_refl]. Qed.

Lemma loop_update a cb cb' Q w c :
  inv w → _context w = Some c → _heap c !! a = Some cb → thread_ok cb' → same_callback cb cb' →
  (∀ w' c', inv w' → after [] c w' c' → held c' = held c → _heap c' !! a = Some cb' → Q tt [] w') →
  wpp (update_callback a cb') Q w.
Proof.
  intros I Hw Ha Ht Has HQ. unfold update_callback.
  destruct (callback_changed _ _ _ _ _ (inv_ok _ _ I Hw) Ha Ht Has) as (H1 & H2 & H3).
  eapply loop_modify; [done..|]. intros I'. eapply HQ; [done| |exact H3|]; [by split|]. apply lookup_insert_eq.
Qed.

Lemma loop_syscall Q w c :
  inv w → _context w = Some c →
  (∀ a l w' c', inv w' → after [] c w' c' → held c' = held c →
     (length (escript w') < length (escript w))%nat ∨ a_ret a = -1 ∧ a_errno a = EIO → Q a l w') →
  wpp syscall Q w.
Proof.
  intros I Hw HQ. cbn [syscall Loop_syscalls]. apply hoare_bind, (loop_tick _ _ c); [done..|].
  intros e l w' c' I' Ha Hh _ Hor _. apply hoare_ret; [done|]. rewrite app_nil_r.
  apply (HQ _ l w' c'); try done. destruct Hor as [?|[-> _]]; auto.
Qed.

Lemma loop_drain p w c :
  inv w → _context w = Some c → wpp (drain p) (λ _ _ w', quiet w c w') w.
Proof.
  intros I Hw. unfold drain. case_match; [apply hoare_ret; [done|by apply quiet_refl]|].
  apply (hoare_loop _ (λ _ _ w', quiet w c w')); [done|by apply quiet_refl|].
  intros _ l0 w0 T0 I0 (c0 & A0 & H0). pose proof (proj1 A0) as Hw0.
  apply hoare_bind, (loop_syscall _ _ c0); [done..|].
  intros a l1 w1 c1 I1 A1 H1 Hor.
  assert (quiet w c w1) as Hq by (eapply quiet_trans; [exact A0|done|]; by exists c1).
  destruct (0 <? a_ret a) eqn:E1; ztests.
  { apply hoare_ret; [done|]. split; [|done]. destruct Hor as [?|[? _]]; [done|lia]. }
  destruct (a_ret a =? 0); [by apply hoare_ret|].
  destruct (a_errno a =? EINTR) eqn:E2; ztests.
  { apply hoare_ret; [done|]. split; [|done]. destruct Hor as [?|[_ He]]; [done|].
    rewrite He in E2. done. }
  destruct (a_errno a =? EAGAIN); by apply hoare_ret.
Qed.

Lemma loop_call a w c : inv w → _context w = Some c → wpp (call_function a) (λ _ _ w', quiet w c w') w.
Proof.
  intros I Hw. unfold call_function. apply hoare_bind, (loop_get _ _ c); [done..|]. destruct (a =? _).
  - apply hoare_bind. eapply hoare_mono; [by apply (loop_drain _ _ c)|]. cbv beta. intros st l w1 T1 I1 Hq.
    by apply hoare_ret.
  - apply hoare_bind, (loop_tick _ _ c); [done..|]. intros e l w1 c1 I1 A1 H1 _ _ _.
    apply hoare_ret; [done|]. by exists c1.
Qed.

Lemma stats_ok cb s : thread_ok cb → thread_ok (set_stats s cb).
Proof. intros [R A P E]. by split. Qed.

Lemma loop_invoke a w c :
  inv w → _context w = Some c → present a c →
  wpp (invoke_and_record a) (λ _ _ w', quiet w c w') w.
Proof.
  intros I Hw Hp. unfold invoke_and_record. apply hoare_bind, (loop_tick _ _ c); [done..|].
  intros e1 l1 w1 c1 I1 A1 H1 He1 _ _. apply hoare_bind.
  eapply hoare_mono; [by apply (loop_call a _ c1); [|apply A1]|]. cbv beta. intros res l2 w2 _ I2 (c2 & A2 & H2).
  apply hoare_bind, (loop_tick _ _ c2); [done|apply A2|]. intros e3 l3 w3 c3 I3 A3 H3 He3 _ _.
  pose proof (ok_now _ He1). pose proof (ok_now _ He3).
  apply hoare_bind. eapply hoare_defined; [done|apply i64_check_ok; unfold CLOCK_MAX, is_i64, INT64_MIN, INT64_MAX in *; lia|].
  assert (quiet w c w3) as Hq.
  { eapply quiet_trans; [exact A1|done|]. eapply quiet_trans; [exact A2|done|]. by exists c3. }
  assert (present a c3) as Hp3.
  { destruct A1 as (_ & _ & K1), A2 as (_ & _ & K2), A3 as (_ & _ & K3).
    do 3 (eapply present_keeps; [eassumption|by apply not_elem_of_nil|]). done. }
  apply hoare_bind, (loop_callback_at _ _ _ c3); [done|apply A3|done|]. intros cb Hcb Ht.
  apply hoare_bind. eapply loop_update; [done|apply A3|done|by apply stats_ok|done|].
  intros w4 c4 I4 A4 H4 _. apply hoare_ret; [done|]. destruct Hq as (c3' & (E3 & Ho3 & K3) & H3').
  rewrite (proj1 A3) in E3. injection E3 as <-.
  eapply quiet_trans; [|exact H3'|by exists c4]. split; [apply A3|done].
Qed.

Lemma loop_activate a w c :
  inv w → _context w = Some c → present a c → wpp (activate a) (λ _ _ w', quiet w c w') w.
Proof.
  intros I Hw Hp. unfold activate. apply hoare_bind, loop_obs; [done..|]. intros I0.
  apply hoare_bind, (loop_tick _ _ c); [done..|]. intros e l1 w1 c1 I1 A1 H1 _ _ _.
  assert (present a c1) as Hp1 by (eapply present_keeps; [apply A1|apply not_elem_of_nil|done]).
  apply hoare_bind, (loop_callback_at _ _ _ c1); [done|apply A1|done|]. intros cb Hcb Ht.
  destruct (_asynchronous cb) eqn:Eas; cbn [negb].
  - destruct (activate_async _ cb) as [r cb'] eqn:Ea.
    destruct (activate_async_ok _ _ _ _ Ht Ea) as (Ht' & Hst & Has & _).
    apply hoare_bind. eapply loop_update; [done|apply A1|done|done|split; congruence|].
    intros w2 c2 I2 A2 H2 _. apply hoare_ret; [done|]. eapply quiet_trans; [exact A1|done|]. by exists c2.
  - destruct (_stopping cb); [apply hoare_ret; [done|by exists c1]|].
    eapply hoare_mono; [by apply (loop_invoke a _ c1); [|apply A1|]|]. cbv beta. intros r l2 w2 _ _ Hq.
    by eapply quiet_trans.
Qed.

Lemma exited_ok cb : thread_ok cb → _stopping cb = true → thread_ok (set_worker Exited false cb).
Proof.
  intros [R A P E] Hs. split; cbn; [|done| |done]; [split; [done|by intros [?|?]]|].
  intros Hp. destruct (P Hp). congruence.
Qed.

Lemma loop_stop_worker a w c :
  inv w → _context w = Some c → present a c → wpp (stop_worker a) (λ _ _ w', quiet w c w') w.
Proof.
  intros I Hw Hp. unfold stop_worker. apply hoare_bind, (loop_tick _ _ c); [done..|].
  intros e l1 w1 c1 I1 A1 H1 _ _ _.
  assert (present a c1) as Hp1 by (eapply present_keeps; [apply A1|apply not_elem_of_nil|done]).
  apply hoare_bind, (loop_callback_at _ _ _ c1); [done|apply A1|done|]. intros cb Hcb Ht.
  destruct (stop_request cb) as [first cb'] eqn:Es.
  assert (thread_ok cb' ∧ same_callback cb cb' ∧ _stopping cb' = true) as (Ht' & Hsame & Hst).
  { unfold stop_request in Es. destruct (_stopping cb) eqn:E; injection Es as <- <-; [done|].
    destruct (stop_request_ok cb (set_stopping cb) Ht) as (? & _); [unfold stop_request; by rewrite E|done]. }
  apply hoare_bind. eapply loop_update; [done|apply A1|done|done|done|]. intros w2 c2 I2 A2 H2 Hx.
  assert (quiet w c w2) as Hq by (eapply quiet_trans; [exact A1|done|by exists c2]).
  destruct (first && joinable cb'); [|by apply hoare_ret].
  apply hoare_bind, (loop_tick _ _ c2); [done|apply A2|]. intros e3 l3 w3 c3 I3 A3 H3 _ _ _.
  destruct (ke_heap _ _ _ (proj2 (proj2 A3)) a cb' Hx ltac:(apply not_elem_of_nil)) as (y & Hy & _ & Hys).
  apply hoare_bind, (loop_callback_at _ _ _ c3); [done|apply A3|by exists y|]. intros cb3 Hcb3 Ht3.
  rewrite Hy in Hcb3. injection Hcb3 as <-.
  eapply loop_update; [done|apply A3|done|by apply exited_ok; auto|by split|].
  intros w4 c4 I4 A4 H4 _. eapply quiet_trans; [exact A1|done|]. eapply quiet_trans; [exact A2|done|].
  eapply quiet_trans; [exact A3|done|]. by exists c4.
Qed.

(** The state after a callback that was about to be destroyed is gone. *)
Definition destroyed (a : addr) (c : LoopContext) (w' : EWorld) : Prop :=
  ∃ c', after [a] c w' c' ∧ _active c' = _active c ∧ _retired c' = _retired c
    ∧ _dying c' = filter (λ x, x ≠ a) (_dying c).

Lemma destroy_context l c a :
  context_ok l c → a ∈ _dying c →
  let c' := set_dying (filter (λ x, x ≠ a) (_dying c)) (set_heap (delete a (_heap c)) c) in
  context_ok l c' ∧ keeps [a] c c'.
Proof.
  intros Hc Ha c'. split.
  - split; [apply Hc..| | |apply Hc]; cbn.
    + intros t cb Ht Hx. apply lookup_delete_Some in Hx as [_ Hx]. by apply (ok_kinds _ _ Hc).
    + apply heap_destroy; [apply Hc|done].
  - split; cbn; [done|done|done|intros e He; by exists e|]. intros x cb Hx Hn. exists cb.
    rewrite list_elem_of_singleton in Hn. by rewrite lookup_delete_ne.
Qed.

Lemma loop_destroy a w c :
  inv w → _context w = Some c → a ∈ _dying c → wpp (destroy a) (λ _ _ w', destroyed a c w') w.
Proof.
  intros I Hw Ha. pose proof (inv_ok _ _ I Hw) as Hc.
  assert (present a c) as Hp by (apply (hp_owned _ _ _ _ (ok_heap _ _ Hc)); by right).
  unfold destroy. apply hoare_bind. eapply hoare_mono; [by apply (loop_stop_worker a _ c)|]. cbv beta.
  intros _ l1 w1 _ I1 (c1 & A1 & H1). injection H1 as Hact Hret Hdy.
  destruct (destroy_context (elog w1) c1 a) as [Hc2 K2]; [apply A1|by rewrite Hdy|].
  eapply loop_modify; [done|apply A1|exact Hc2|]. intros I2. eexists. split; [split; [done|split; [exact Hc2|]]|].
  - exact (keeps_trans [] [a] _ _ _ (proj2 (proj2 A1)) K2).
  - cbn. by rewrite Hdy.
Qed.

(** Walks over callbacks that are all there. *)
Lemma loop_walk (m : addr → Loop (unit + unit)) w c l :
  inv w → _context w = Some c → (∀ a, a ∈ l → present a c) →
  (∀ a w0 c0, inv w0 → _context w0 = Some c0 → present a c0 →
     wpp (m a) (λ r _ w', r = inl tt ∧ quiet w0 c0 w') w0) →
  wpp (each (λ _ a, m a) l tt) (λ _ _ w', quiet w c w') w.
Proof.
  intros I Hw Hl Hm.
  apply (hoare_each _ (λ rest _ _ w', quiet w c w' ∧ ∀ a, a ∈ rest → a ∈ l)); [done|by split; [apply quiet_refl|]| |by intros [] ? ? _ _ [? _]].
  intros a rest [] l0 w0 T0 I0 [(c0 & A0 & H0) Hsub].
  assert (present a c0) as Hp.
  { eapply present_keeps; [apply A0|apply not_elem_of_nil|]. apply Hl, Hsub. by left. }
  eapply hoare_mono; [by apply (Hm a w0 c0); [|apply A0|]|]. cbv beta. intros r l1 w1 _ _ [-> Hq].
  split; [by eapply quiet_trans|]. intros x Hx. apply Hsub. by right.
Qed.

Lemma registry_present l c a : context_ok l c → a ∈ registry c → present a c.
Proof. intros Hc Ha. apply (hp_owned _ _ _ _ (ok_heap _ _ Hc)). by left. Qed.

Lemma loop_stop_workers w c :
  inv w → _context w = Some c → wpp stop_workers (λ _ _ w', quiet w c w') w.
Proof.
  intros I Hw. unfold stop_workers. apply hoare_bind, (loop_tick _ _ c); [done..|].
  intros e l1 w1 c1 I1 A1 H1 _ _ _. destruct (e_alloc e); cbn [negb]; [|by apply hoare_throw].
  apply hoare_bind, (loop_get _ _ c1); [done|apply A1|].
  apply hoare_bind. eapply hoare_mono; [apply (loop_walk _ w1 c1); [done|apply A1| |]|].
  - intros a. apply (registry_present (elog w1)). apply A1.
  - intros a w0 c0 I0 Hw0 Hp. apply hoare_bind, (loop_callback_at _ _ _ c0); [done..|]. intros cb Hcb _.
    apply hoare_bind. destruct (_asynchronous cb).
    + eapply hoare_mono; [by apply (loop_stop_worker a _ c0)|]. cbv beta. intros [] l2 w2 _ I2 Hq. by apply hoare_ret.
    + apply hoare_ret; [done|]. apply hoare_ret; [done|]. split; [done|by apply quiet_refl].
  - cbv beta. intros r l2 w2 _ I2 Hq. apply hoare_ret; [done|]. by eapply quiet_trans.
Qed.

Lemma loop_print_stats w c :
  inv w → _context w = Some c → wpp print_stats (λ _ _ w', quiet w c w') w.
Proof.
  intros I Hw. unfold print_stats. apply hoare_bind, (loop_tick _ _ c); [done..|].
  intros e l1 w1 c1 I1 A1 H1 _ _ _. destruct (e_alloc e); cbn [negb]; [|by apply hoare_throw].
  apply hoare_bind, (loop_get _ _ c1); [done|apply A1|].
  apply hoare_bind. eapply hoare_mono; [apply (loop_walk _ w1 c1); [done|apply A1| |]|].
  - intros a. apply (registry_present (elog w1)). apply A1.
  - intros a w0 c0 I0 Hw0 Hp. apply hoare_bind, (loop_tick _ _ c0); [done..|].
    intros e2 l2 w2 c2 I2 A2 H2 _ _ _. apply hoare_bind, (loop_callback_at _ _ _ c2); [done|apply A2| |].
    { eapply present_keeps; [apply A2|apply not_elem_of_nil|done]. }
    intros cb Hcb _. apply hoare_bind, loop_obs; [done..|]. intros I3. apply hoare_ret; [done|].
    split; [done|]. exists c2. split; [|done]. destruct A2 as (? & ? & ?). split; [done|]. split; [|done].
    by apply context_plain.
  - cbv beta. intros r l2 w2 _ I2 Hq. apply hoare_ret; [done|]. by eapply quiet_trans.
Qed.

(** ** Timers *)

Definition calm (w : EWorld) : Prop := ∃ c, _context w = Some c ∧ held c = (None, [], []).

(** A change of the timers. *)
Lemma timers_changed l c m active dying :
  context_ok l c →
  let c' := set_timers m active (set_dying dying c) in
  timers_ok (system c') →
  (∀ t, t ∈ live (system c') → ∃ t0, t0 ∈ live (system c) ∧ _tcb t = _tcb t0 ∧ _tflags t = _tflags t0
     ∧ _tinterval t * TimerManager.NS_PER_MS <= _tnext t <= INT64_MAX) →
  heap_ok (_cbs m) dying (_heap c) (_brk c) → context_ok l c'.
Proof.
  intros Hc c' Ht Hlive Hh. split; [done|..|done|apply Hc].
  - intros t Hin. by destruct (Hlive t Hin) as (t0 & _ & _ & _ & ?).
  - intros t cb Hin. destruct (Hlive t Hin) as (t0 & H0 & -> & -> & _). by apply (ok_kinds _ _ Hc).
Qed.

(** The earliest timer is taken out. *)
Lemma begin_context l c now t m :
  context_ok l c → _active c = None → check_begin (_timers c) now = Some (CheckFire t, m) →
  context_ok l (set_timers m (Some t) c) ∧ _tnext t < now ∧ _cbs m = registry c
    ∧ TimerManager._cleaned_up m = TimerManager._cleaned_up (_timers c).
Proof.
  intros Hc Hact Hb. pose proof (ok_timers _ _ Hc) as Ht. unfold system in Ht. rewrite Hact in Ht.
  pose proof (begin_ok _ _ _ _ _ Ht Hb) as Ht'. unfold check_begin in Hb.
  destruct (TimerManager._cleaned_up (_timers c)) eqn:Ecl; [done|].
  destruct (TimerManager._timers (_timers c)) as [|t0 rest] eqn:Et; [done|].
  destruct (_tnext t0 <? now) eqn:En; cbn [negb] in Hb; cycle 1.
  { by destruct (set_timeout_until (_tnext t0) now). }
  injection Hb as -> <-. ztests. split; [|done].
  assert (set_timers (mkManager rest (_cbs (_timers c)) (TimerManager._next_id (_timers c)) false) (Some t) c
    = set_timers (mkManager rest (_cbs (_timers c)) (TimerManager._next_id (_timers c)) false) (Some t)
        (set_dying (_dying c) c)) as -> by by destruct c.
  apply timers_changed; [done..| |apply Hc].
  intros x Hx. exists x. assert (x ∈ live (system c)) as Hin.
  { unfold live, system in *. cbn in *. rewrite Et, Hact. cbn. rewrite app_nil_r.
    apply elem_of_app in Hx as [?|Hx]; [by right|]. apply list_elem_of_singleton in Hx as ->. by left. }
  do 3 (split; [done|]). by apply (ok_deadlines _ _ Hc).
Qed.

Lemma active_live c t : _active c = Some t → t ∈ live (system c).
Proof. intros Ha. unfold live, system. cbn. rewrite Ha. apply elem_of_app. right. by left. Qed.

Lemma finish_step l c t m :
  context_ok l c → _active c = Some t → check_finish (_timers c) t = Some m →
  timers_ok (mkSystem m None (aio_cbs (_aio c) (_retired c))).
Proof.
  intros Hc Ha Hf. refine (timer_step_ok (system c) _ (ok_timers _ _ Hc) _).
  unfold system. rewrite Ha. by apply StepFinish.
Qed.

(** A recurring timer goes back into the queue; its deadline does not overflow. *)
Lemma finish_recurring l c t :
  context_ok l c → _active c = Some t → 0 < _tinterval t → _tnext t < CLOCK_MAX →
  ∃ m, check_finish (_timers c) t = Some m ∧ context_ok l (set_timers m None c)
    ∧ TimerManager._cleaned_up m = TimerManager._cleaned_up (_timers c).
Proof.
  intros Hc Ha Hi Hn. pose proof (ok_deadlines _ _ Hc t (active_live _ _ Ha)) as Hd.
  unfold check_finish. cbn [_tinterval _tcb _tnext _tid _tflags _fire_count].
  pose proof (finish_step l c t) as Hstep. unfold check_finish in Hstep.
  cbn [_tinterval _tcb _tnext _tid _tflags _fire_count] in Hstep.
  rewrite (proj2 (Z.ltb_lt _ _) Hi) in *.
  set (i := _tinterval t * TimerManager.NS_PER_MS) in *.
  assert (0 <= i) by (unfold i, TimerManager.NS_PER_MS; lia).
  assert (i64_mul (_tinterval t) TimerManager.NS_PER_MS = Some i) as Hm.
  { apply i64_check_ok. unfold is_i64, INT64_MIN, INT64_MAX, CLOCK_MAX in *. lia. }
  assert (i64_add (_tnext t) i = Some (_tnext t + i)) as Ha'.
  { apply i64_check_ok. unfold is_i64, INT64_MIN, INT64_MAX, CLOCK_MAX in *. lia. }
  rewrite Hm in *. cbn [mbind option_bind] in *. rewrite Ha' in *. cbn [mbind option_bind] in *.
  eexists. split; [done|]. split; [|done]. set (m := mkManager _ _ _ _) in *.
  assert (set_timers m None c = set_timers m None (set_dying (_dying c) c)) as -> by by destruct c.
  apply timers_changed; [done|by apply (Hstep m)| |apply Hc].
  intros x Hx. unfold live in Hx. cbn in Hx. rewrite app_nil_r, insert_perm in Hx.
  apply elem_of_cons in Hx as [->|Hx].
  - exists t. split; [by apply active_live|]. do 2 (split; [done|]). cbn.
    fold i. unfold INT64_MAX, CLOCK_MAX in *. lia.
  - assert (x ∈ live (system c)) as Hx' by (unfold live; apply elem_of_app; by left).
    exists x. do 3 (split; [done|]). by apply (ok_deadlines _ _ Hc).
Qed.

(** A timer that fires once leaves the registry. *)
Lemma finish_once l c t :
  context_ok l c → _active c = Some t → _tinterval t <= 0 →
  ∃ m, check_finish (_timers c) t = Some m
    ∧ context_ok l (set_timers m None (set_dying (_tcb t :: _dying c) c))
    ∧ TimerManager._cleaned_up m = TimerManager._cleaned_up (_timers c).
Proof.
  intros Hc Ha Hi. pose proof (finish_step l c t) as Hstep. unfold check_finish in *.
  cbn [_tinterval _tcb _tnext _tid _tflags _fire_count] in *.
  rewrite (proj2 (Z.ltb_ge _ _) Hi) in *. eexists. split; [done|]. split; [|done].
  apply timers_changed; [done|by apply Hstep|..].
  - intros x Hx. unfold live in Hx. cbn in Hx. rewrite app_nil_r in Hx.
    assert (x ∈ live (system c)) as Hx' by (unfold live; apply elem_of_app; by left).
    exists x. do 3 (split; [done|]). by apply (ok_deadlines _ _ Hc).
  - cbn [_cbs]. apply (heap_doom (registry c) _ (_dying c) _ _ [_tcb t]); [apply Hc|..].
    + intros a ->%list_elem_of_singleton. apply (tk_registry _ (ok_timers _ _ Hc)). left.
      apply list_elem_of_fmap. exists t. split; [done|by apply active_live].
    + intros a. rewrite elem_of_registry_remove, list_elem_of_singleton. done.
Qed.

Lemma loop_fire t w c :
  inv w → _context w = Some c → held c = (Some t, [], []) → _tnext t < CLOCK_MAX →
  wpp (fire t) (λ _ _ w', calm w') w.
Proof.
  intros I Hw Hh Hn. assert (∀ c', held c' = held c → _active c' = Some t) as Hact.
  { intros c' Hc'. rewrite Hh in Hc'. by injection Hc'. }
  assert (∀ l c', context_ok l c' → _active c' = Some t → present (_tcb t) c') as Hpr.
  { intros l c' Hok Ha. apply (registry_present _ _ _ Hok), (tk_registry _ (ok_timers _ _ Hok)). left.
    apply list_elem_of_fmap. exists t. split; [done|by apply active_live]. }
  unfold fire. apply hoare_bind, loop_obs; [done..|]. intros I1. apply hoare_bind.
  pose proof (inv_ok _ _ I1 (Hw : _context (with_log (SawTimer (_tid t)) w) = Some c)) as Hok1.
  eapply hoare_mono; [apply (loop_activate (_tcb t) _ c); [done..|by eapply Hpr, Hact]|].
  cbv beta. intros _ l2 w2 _ I2 (c2 & A2 & H2). pose proof (Hact _ H2) as Ha2.
  destruct A2 as (Hw2 & Hok2 & _). pose proof (tk_kind _ (ok_timers _ _ Hok2) t (active_live _ _ Ha2)) as (Hi & Hrec & Honce).
  apply hoare_bind, loop_asserted; [done|rewrite Hrec; apply Bool.eqb_reflx|].
  apply hoare_bind, (loop_callback_at _ _ _ c2); [done..|by eapply Hpr|]. intros cb Hcb _.
  pose proof (ok_kinds _ _ Hok2 t cb (active_live _ _ Ha2) Hcb) as Hk.
  apply hoare_bind, loop_asserted; [done| |].
  { destruct (0 <? _tinterval t) eqn:E; ztests; [done|]. rewrite Hk, Honce by lia. done. }
  apply hoare_bind, (loop_tick _ _ c2); [done..|]. intros e l3 w3 c3 I3 (Hw3 & Hok3 & _) H3 _ _ _.
  assert (held c3 = (Some t, [], [])) as Hh3 by congruence. injection Hh3 as Ha3 Hr3 Hd3.
  apply hoare_bind, (loop_get _ _ c3); [done..|]. destruct (0 <? _tinterval t) eqn:E; ztests.
  - destruct (finish_recurring _ c3 t Hok3 Ha3) as (m & -> & Hok & _); [lia|done|].
    apply hoare_bind. eapply hoare_defined; [done..|]. apply loop_put; [done..|]. intros I4.
    eexists. split; [done|]. unfold held. cbn. by rewrite Hr3, Hd3.
  - destruct (finish_once _ c3 t Hok3 Ha3) as (m & -> & Hok & _); [lia|].
    apply hoare_bind. eapply hoare_defined; [done..|]. apply hoare_bind, loop_put; [done..|]. intros I4.
    eapply hoare_mono; [eapply loop_destroy; [done..|by left]|]. cbv beta.
    intros _ l5 w5 _ _ (c5 & (Hw5 & _) & Ha5 & Hr5 & Hd5). exists c5. split; [done|]. unfold held.
    rewrite Ha5, Hr5, Hd5. cbn [set_timers set_dying _retired _dying _active]. rewrite Hr3, Hd3, filter_cons_False by (intros Hx; by apply Hx). done.
Qed.

Lemma begin_defined l c now :
  context_ok l c → 0 <= now <= CLOCK_MAX →
  ∃ o m, check_begin (_timers c) now = Some (o, m) ∧ (∀ tv, o = CheckReturn tv → m = _timers c).
Proof.
  intros Hc Hn. unfold check_begin. destruct (TimerManager._cleaned_up _); [eexists _, _; by split|].
  destruct (TimerManager._timers (_timers c)) as [|t rest] eqn:Et; [eexists _, _; by split|].
  destruct (negb (_tnext t <? now)); [|eexists _, _; by split].
  destruct (set_timeout_until_spec (_tnext t) now) as (tv & -> & _); [| |cbn; eexists _, _; by split].
  - unfold CLOCK_MAX, INT64_MAX in *. lia.
  - apply (ok_deadlines _ _ Hc). unfold live, system. cbn. rewrite Et. by left.
Qed.

Lemma loop_check_round w :
  inv w → calm w →
  wpp check_round (λ r _ w', calm w' ∧ (r = inl tt → (length (escript w') < length (escript w))%nat)) w.
Proof.
  intros I (c & Hw & Hh). unfold check_round. apply hoare_bind, (loop_tick _ _ c); [done..|].
  intros e l1 w1 c1 I1 A1 H1 He Hor _. pose proof (proj1 A1) as Hw1. pose proof (inv_ok _ _ I1 Hw1) as Hc1.
  rewrite Hh in H1. apply hoare_bind, (loop_get _ _ c1); [done..|].
  destruct (begin_defined _ _ (e_now e) Hc1 (ok_now _ He)) as (o & m & Hb & Hm).
  apply hoare_bind. eapply hoare_defined; [done|exact Hb|]. destruct o as [tv|t].
  - rewrite (Hm tv eq_refl). assert (set_timers (_timers c1) (_active c1) c1 = c1) as -> by by destruct c1.
    apply hoare_bind, loop_put; [done..|]. intros I2. apply hoare_ret; [done|]. split; [|done]. by exists c1.
  - injection H1 as Ha1 Hr1 Hd1. destruct (begin_context _ _ _ _ _ Hc1 Ha1 Hb) as (Hc2 & Hlt & Hcbs & _).
    pose proof (ok_now _ He) as Hnow. set (c2 := set_timers m (Some t) c1) in *.
    assert (t ∈ live (system c2)) as Hin by by apply active_live.
    assert (0 <= _tnext t) as Hpos.
    { pose proof (ok_deadlines _ _ Hc2 t Hin). destruct (tk_kind _ (ok_timers _ _ Hc2) t Hin) as [? _].
      unfold TimerManager.NS_PER_MS in *. lia. }
    assert ((length (escript w1) < length (escript w))%nat) as Hprog.
    { destruct Hor as [?|[-> _]]; [done|]. cbn in Hlt. lia. }
    apply hoare_bind, loop_put; [done..|]. intros I2. apply hoare_bind.
    eapply hoare_mono; [apply (loop_fire t _ c2); [done|done|unfold held; cbn; by rewrite Hr1, Hd1|lia]|].
    cbv beta. intros _ l3 w3 T3 I3 Hcalm. apply hoare_ret; [done|]. split; [done|]. intros _.
    pose proof (tr_script _ _ _ T3) as Hs. cbn in Hs. lia.
Qed.

Lemma loop_check w : inv w → calm w → wpp check (λ _ _ w', calm w') w.
Proof.
  intros I Hc. unfold check. apply (hoare_loop _ (λ _ _ w', calm w')); [done..|].
  intros [] l0 w0 T0 I0 H0. eapply hoare_mono; [by apply loop_check_round|]. cbv beta.
  intros [[]|tv] l1 w1 T1 I1 [Hc1 Hp]; [|done]. split; [|done]. by apply Hp.
Qed.

(** ** Descriptors taken out *)

Lemma NoDup_map_filter {A B} (g : A → B) (P : A → Prop) `{!∀ x, Decision (P x)} l :
  NoDup (map g l) → NoDup (map g (filter P l)).
Proof.
  induction l as [|x l IH]; [done|]. cbn [map]. intros [Hx Hl]%NoDup_cons. rewrite filter_cons.
  case_decide; [|by apply IH]. cbn [map]. constructor; [|by apply IH].
  intros (y & Heq & Hy)%list_elem_of_fmap. apply list_elem_of_filter in Hy as [_ Hy].
  apply Hx, list_elem_of_fmap. by exists y.
Qed.

Lemma unregister_context l c e :
  context_ok l c → e ∈ _retired c → context_ok l (unregister e c) ∧ keeps [] c (unregister e c).
Proof.
  intros Hc He. pose proof (ok_aio _ _ Hc) as Ha. pose proof (ai_cbs _ _ _ Ha) as Hnd.
  rewrite map_app in Hnd. apply NoDup_app in Hnd as (Hn1 & Hn2 & Hn3).
  assert (AioManager._cb e ∈ map AioManager._cb (_retired c)) as Hin by (apply list_elem_of_fmap; by exists e).
  assert (aio_cbs (_aio c) (_retired (unregister e c)) = aio_cbs (_aio c) (_retired c) ∖ {[AioManager._cb e]}) as Hs.
  { apply leibniz_equiv. intros a. unfold aio_cbs. cbn.
    rewrite elem_of_difference, elem_of_singleton, !elem_of_list_to_set, !map_app, !elem_of_app.
    split.
    - intros [Hx|(e' & -> & He')%list_elem_of_fmap].
      + split; [by left|]. intros ->. by apply (Hn2 _ Hx).
      + apply list_elem_of_filter in He' as [Hne He']. split; [right; apply list_elem_of_fmap; by exists e'|done].
    - intros [[Hx|(e' & -> & He')%list_elem_of_fmap] Hne]; [by left|right].
      apply list_elem_of_fmap. exists e'. split; [done|]. by apply list_elem_of_filter. }
  assert (AioManager._cb e ∈ aio_cbs (_aio c) (_retired c)) as Hset.
  { unfold aio_cbs. rewrite elem_of_list_to_set, map_app, elem_of_app. by right. }
  split; [|split; try done; [intros x Hx; by exists x|intros a cb Hx _; by exists cb]].
  split.
  - unfold system. change (_aio (unregister e c)) with (_aio c). rewrite Hs. apply (others_ok _ _ _ _ (ok_timers _ _ Hc)). done.
  - apply (ok_deadlines _ _ Hc).
  - apply (ok_kinds _ _ Hc).
  - cbn. apply (heap_doom (registry c) _ (_dying c) _ _ [AioManager._cb e]); [apply Hc|..].
    + intros a ->%list_elem_of_singleton. apply (tk_registry _ (ok_timers _ _ Hc)). by right.
    + intros a. by rewrite elem_of_registry_remove, list_elem_of_singleton.
  - destruct Ha as [C W F Id S N R A Cl]. split; try done. cbn. rewrite map_app. apply NoDup_app.
    split; [done|]. split.
    + intros a Hx (e' & -> & He')%list_elem_of_fmap. apply list_elem_of_filter in He' as [_ He'].
      apply (Hn2 _ Hx). apply list_elem_of_fmap. by exists e'.
    + by apply NoDup_map_filter.
Qed.

Lemma filter_rest (e : AioEntry) rest :
  NoDup (map AioManager._cb (e :: rest)) →
  filter (λ x, AioManager._cb x ≠ AioManager._cb e) (e :: rest) = rest.
Proof.
  cbn [map]. intros [Hn _]%NoDup_cons. rewrite filter_cons_False by tauto.
  assert (∀ x, x ∈ rest → AioManager._cb x ≠ AioManager._cb e) as Hall.
  { intros x Hx Heq. apply Hn. rewrite <- Heq. apply list_elem_of_fmap. by exists x. }
  clear Hn. induction rest as [|x rest IH]; [done|]. rewrite filter_cons_True by (apply Hall; by left).
  f_equal. apply IH. intros y Hy. apply Hall. by right.
Qed.

Lemma loop_unregister_all w c :
  inv w → _context w = Some c → _active c = None → _dying c = [] →
  wpp (each (λ _ entry, _ ← tick; _ ← modify (unregister entry); mret (inl tt : unit + unit)) (_retired c) tt)
    (λ _ _ w', ∃ c', after [] c w' c' ∧ _active c' = None ∧ _retired c' = []
       ∧ ∀ a, a ∈ _dying c' ↔ a ∈ map AioManager._cb (_retired c)) w.
Proof.
  intros I Hw Ha Hd. pose proof (inv_ok _ _ I Hw) as Hc.
  assert (NoDup (map AioManager._cb (_retired c))) as Hnd.
  { pose proof (ai_cbs _ _ _ (ok_aio _ _ Hc)) as Hnd. rewrite map_app in Hnd. by apply NoDup_app in Hnd as (_ & _ & ?). }
  apply (hoare_each _ (λ rest _ _ w', ∃ c' past, after [] c w' c' ∧ _active c' = None ∧ _retired c' = rest
    ∧ _retired c = past ++ rest ∧ ∀ a, a ∈ _dying c' ↔ a ∈ map AioManager._cb past)); [done|..].
  - exists c, []. split; [split; [done|]; split; [done|apply keeps_refl]|]. do 3 (split; [done|]). by rewrite Hd.
  - intros e rest [] l0 w0 T0 I0 (c0 & past & (Hw0 & Hok0 & K0) & Ha0 & Hr0 & Hall & Hd0).
    apply hoare_bind, (loop_tick _ _ c0); [done..|]. intros ev l1 w1 c1 I1 (Hw1 & Hok1 & K1) H1 _ _ _.
    unfold held in H1. rewrite Ha0, Hr0 in H1. injection H1 as Ha1 Hr1 Hd1.
    destruct (unregister_context _ _ e Hok1) as [Hok2 K2]; [rewrite Hr1; by left|].
    apply hoare_bind, (loop_modify _ _ _ c1); [done..|]. intros I2. apply hoare_ret; [done|].
    exists (unregister e c1), (past ++ [e]). split; [split; [done|]; split; [done|]|].
    { exact (keeps_trans [] [] _ _ _ (keeps_trans [] [] _ _ _ K0 K1) K2). }
    split; [done|]. split.
    { cbn. rewrite Hr1. apply filter_rest. rewrite Hall, map_app in Hnd. by apply NoDup_app in Hnd as (_ & _ & ?). }
    split; [by rewrite <- app_assoc|]. intros a. cbn [unregister set_dying _dying].
    rewrite elem_of_cons, Hd1, Hd0, map_app, elem_of_app. cbn [map]. rewrite list_elem_of_singleton. tauto.
  - intros [] l w' _ _ (c' & past & A & Ha' & Hr' & Hall & Hd'). exists c'. do 3 (split; [done|]).
    rewrite app_nil_r in Hall. by rewrite Hall.
Qed.

Lemma loop_destroy_all (es : list addr) w c :
  inv w → _context w = Some c → _active c = None → _retired c = [] →
  (∀ a, a ∈ _dying c ↔ a ∈ es) → NoDup es →
  wpp (each (λ _ a, _ ← destroy a; mret (inl tt : unit + unit)) es tt)
    (λ _ _ w', ∃ c', after es c w' c' ∧ held c' = (None, [], [])) w.
Proof.
  intros I Hw Ha Hr Hd Hnd.
  apply (hoare_each _ (λ rest _ _ w', ∃ c' past, after past c w' c' ∧ _active c' = None ∧ _retired c' = []
    ∧ es = past ++ rest ∧ ∀ a, a ∈ _dying c' ↔ a ∈ rest)); [done|..].
  - exists c, []. split; [split; [done|]; split; [by apply inv_ok|apply keeps_refl]|]. done.
  - intros a rest [] l0 w0 T0 I0 (c0 & past & (Hw0 & Hok0 & K0) & Ha0 & Hr0 & -> & Hd0).
    apply hoare_bind. eapply hoare_mono; [apply (loop_destroy a _ c0); [done..|]; apply Hd0; by left|].
    cbv beta. intros _ l1 w1 _ I1 (c1 & (Hw1 & Hok1 & K1) & Ha1 & Hr1 & Hd1). apply hoare_ret; [done|].
    exists c1, (past ++ [a]). split; [split; [done|]; split; [done|by eapply keeps_trans]|].
    split; [congruence|]. split; [congruence|]. split; [by rewrite <- app_assoc|].
    apply NoDup_app in Hnd as (_ & _ & [Hna _]%NoDup_cons). intros x.
    rewrite Hd1, list_elem_of_filter, Hd0, elem_of_cons. split; [tauto|]. intros Hx. split; [by intros ->|by right].
  - intros [] l w' _ _ (c' & past & A & Ha' & Hr' & -> & Hd'). exists c'. rewrite app_nil_r. split; [done|].
    unfold held. rewrite Ha', Hr'. do 2 f_equal. destruct (_dying c') as [|x ?]; [done|].
    exfalso. apply (not_elem_of_nil x), Hd'. by left.
Qed.

Lemma loop_discard es w c :
  inv w → _context w = Some c → held c = (None, es, []) →
  wpp (discard es) (λ _ _ w', ∃ c', after (map AioManager._cb es) c w' c' ∧ held c' = (None, [], [])) w.
Proof.
  intros I Hw Hh. injection Hh as Ha Hr Hd. pose proof (inv_ok _ _ I Hw) as Hc.
  assert (NoDup (map AioManager._cb es)) as Hnd.
  { pose proof (ai_cbs _ _ _ (ok_aio _ _ Hc)) as Hnd. rewrite map_app, Hr in Hnd. by apply NoDup_app in Hnd as (_ & _ & ?). }
  unfold discard. apply hoare_bind. rewrite <- Hr. eapply hoare_mono; [by apply loop_unregister_all|].
  cbv beta. intros _ l1 w1 _ I1 (c1 & (Hw1 & Hok1 & K1) & Ha1 & Hr1 & Hd1).
  unfold destroy_all. apply hoare_bind. rewrite Hr in *.
  eapply hoare_mono; [by apply (loop_destroy_all _ _ c1)|]. cbv beta.
  intros _ l2 w2 _ I2 (c2 & (Hw2 & Hok2 & K2) & H2). apply hoare_ret; [done|].
  exists c2. split; [|done]. split; [done|]. split; [done|]. exact (keeps_trans [] _ _ _ _ K1 K2).
Qed.

(** ** A round of the descriptors *)

Lemma filter_split (l : list AioEntry) :
  filter (λ e, _pending_remove e = false) l ++ filter (λ e, _pending_remove e = true) l ≡ₚ l.
Proof.
  induction l as [|e l IH]; [done|]. rewrite !filter_cons.
  destruct (_pending_remove e); repeat case_decide; try done; cbn.
  - by rewrite <- Permutation_middle, IH.
  - by rewrite IH.
Qed.

Lemma arm_context l c es armed aio :
  context_ok l c → held c = (None, [], []) → arm (_aio c) = (es, armed, aio) →
  let c' := set_aio aio (es ++ _retired c) c in
  context_ok l c' ∧ held c' = (None, es, []) ∧ armed = map _where (AioManager._entries aio)
  ∧ (∀ e, e ∈ AioManager._entries aio → _pending_remove e = false)
  ∧ AioManager._cleaned_up aio = AioManager._cleaned_up (_aio c).
Proof.
  intros Hc Hh Harm c'. injection Hh as Ha Hr Hd. unfold arm in Harm. injection Harm as <- <- <-.
  pose proof (filter_split (AioManager._entries (_aio c))) as Hperm.
  assert (∀ e, e ∈ filter (λ e, _pending_remove e = false) (AioManager._entries (_aio c)) →
    e ∈ AioManager._entries (_aio c)) as Hsub by (intros e [_ ?]%list_elem_of_filter; done).
  assert (system c' = system c) as Hsys.
  { unfold system. cbn. f_equal. unfold aio_cbs. cbn. rewrite Hr, !app_nil_r. apply leibniz_equiv.
    intros a. by rewrite !elem_of_list_to_set, Hperm. }
  split; [|split; [unfold held; cbn; by rewrite Ha, Hr, Hd, app_nil_r|]].
  - split; rewrite ?Hsys; [apply Hc..|]. destruct (ok_aio _ _ Hc) as [C W F I S N R A Cl]. rewrite Hr, app_nil_r in C.
    split; cbn; try done.
    + by rewrite Hr, app_nil_r, Hperm.
    + intros e He. by apply W, Hsub.
    + intros e He. by apply F, Hsub.
    + by apply NoDup_map_filter.
    + intros e He. by apply S, Hsub.
    + intros id Hid. destruct (R id Hid) as [Hi Hp]. split; [done|]. intros e He. by apply Hp, Hsub.
    + intros Hcl. by rewrite (Cl Hcl).
  - split; [done|]. split; [|done]. by intros e [? _]%list_elem_of_filter.
Qed.

Lemma armed_log l c :
  context_ok l c → (∀ e, e ∈ entries c → _pending_remove e = false) →
  context_ok (l ++ [SawArmed (map _id (entries c))]) c.
Proof.
  intros [T D K Hh [C W F I S N R A Cl]] Hp. split; try done. split; try done.
  - intros id [Hin|Hin]%elem_of_app; [by apply R|]. by apply list_elem_of_singleton in Hin.
  - intros l1 id l2 ids He Hin. destruct l2 as [|o l2 _] using rev_ind; [by apply not_elem_of_nil in Hin|].
    rewrite app_comm_cons, app_assoc in He. apply app_inj_tail in He as [-> <-].
    apply elem_of_app in Hin as [Hin|Hin]; [by eapply A|]. apply list_elem_of_singleton in Hin. injection Hin as ->.
    intros (e & -> & Hel)%list_elem_of_fmap. destruct (R (_id e)) as [_ Hpend].
    { apply elem_of_app. right. by left. }
    specialize (Hpend e Hel eq_refl). rewrite Hp in Hpend; done.
Qed.

Lemma collect_spec m ready : ∀ armed,
  NoDup (map _where (AioManager._entries m)) →
  (∀ p, p ∈ armed → ∃ e, e ∈ AioManager._entries m ∧ _where e = p) →
  ∃ l, collect m ready armed = Some l ∧
    ∀ a, a ∈ l ↔ ∃ e, e ∈ AioManager._entries m ∧ _where e ∈ armed ∧ AioManager._cb e = a
                   ∧ _pending_remove e = false ∧ AioManager._fd e ∈ ready.
Proof.
  intros armed Hnd. induction armed as [|p armed IH]; intros Hall; cbn [collect].
  { exists []. split; [done|]. intros a. split; [by intros ?%not_elem_of_nil|]. by intros (e & _ & ?%not_elem_of_nil & _). }
  destruct (Hall p) as (e & He & <-); [by left|]. rewrite (deref_elem _ _ Hnd He). cbn [mbind option_bind].
  destruct IH as (l & -> & Hl); [intros q Hq; apply Hall; by right|]. cbn [mbind option_bind].
  eexists. split; [done|]. intros a.
  assert (∀ e', e' ∈ AioManager._entries m → _where e' = _where e → e' = e) as Huniq.
  { intros e' He' Hw. pose proof (deref_elem _ _ Hnd He') as H1. rewrite Hw, (deref_elem _ _ Hnd He) in H1. by injection H1. }
  destruct (negb (_pending_remove e) && bool_decide (AioManager._fd e ∈ ready)) eqn:E.
  - apply andb_true_iff in E as [E1 E2%bool_decide_eq_true]. apply negb_true_iff in E1.
    rewrite elem_of_cons, Hl. split.
    + intros [->|(e' & ? & ? & ?)]; [exists e|exists e']; (split; [done|]); (split; [|done]); [by left|by right].
    + intros (e' & He' & [Hw|Hw]%elem_of_cons & Hcb & Hrest); [|right; by exists e'].
      apply Huniq in Hw; [|done]. subst e'. by left.
  - rewrite Hl. split; intros (e' & He' & Hw & Hcb & Hp & Hf); exists e'; (split; [done|]).
    + split; [by right|done].
    + apply elem_of_cons in Hw as [Hw|Hw]; [|done]. exfalso. apply Huniq in Hw; [|done]. subst e'.
      rewrite Hp, bool_decide_true in E by done. done.
Qed.

Lemma wheres_nodup l c : context_ok l c → NoDup (map _where (entries c)).
Proof.
  intros Hc. destruct (ok_aio _ _ Hc) as [C W _ _ _ _ _ _ _]. rewrite map_app in C.
  apply NoDup_app in C as (C & _ & _). erewrite map_ext_in; [exact C|]. intros e He.
  by apply W, list_elem_of_In.
Qed.

(** The entries that were armed are still there. *)
Lemma armed_still gone c c' :
  keeps gone c c' → ∀ p, p ∈ map _where (entries c) → ∃ e, e ∈ entries c' ∧ _where e = p.
Proof.
  intros K p (e & -> & He)%list_elem_of_fmap. destruct (ke_entries _ _ _ K e He) as (e' & He' & Hw & _).
  by exists e'.
Qed.

Lemma entry_present l c e : context_ok l c → e ∈ entries c → present (AioManager._cb e) c.
Proof.
  intros Hc He. apply (registry_present _ _ _ Hc), (tk_registry _ (ok_timers _ _ Hc)). right. cbn.
  unfold aio_cbs. rewrite elem_of_list_to_set, map_app, elem_of_app. left.
  apply list_elem_of_fmap. by exists e.
Qed.

Lemma loop_armed Q w c :
  inv w → _context w = Some c → (∀ e, e ∈ entries c → _pending_remove e = false) →
  let o := SawArmed (map _id (entries c)) in
  (inv (with_log o w) → Q tt [o] (with_log o w)) → wpp (record_obs o) Q w.
Proof.
  intros I Hw Hp o HQ. assert (inv (with_log o w)) as I'.
  { split; [|apply I]. exists c. split; [done|]. apply armed_log; [by apply inv_ok|done]. }
  exists [o]. split; [|by apply HQ]. by split.
Qed.

Lemma calm_quiet w c w' : held c = (None, [], []) → quiet w c w' → calm w'.
Proof. intros Hh (c' & A & H'). exists c'. split; [apply A|congruence]. Qed.

Lemma loop_process w : inv w → calm w → wpp process (λ _ _ w', calm w') w.
Proof.
  intros I (c & Hw & Hh). unfold process. apply hoare_bind, (loop_tick _ _ c); [done..|].
  intros e1 l1 w1 c1 I1 A1 H1 _ _ _. apply hoare_bind, (loop_get _ _ c1); [done|apply A1|].
  assert (calm w1) as Hc1 by (exists c1; split; [apply A1|congruence]).
  destruct (AioManager._cleaned_up (_aio c1)); [by apply hoare_ret|].
  apply hoare_bind, (loop_tick _ _ c1); [done|apply A1|]. intros e2 l2 w2 c2 I2 A2 H2 _ _ _.
  destruct (e_alloc e2); cbn [negb]; [|by apply hoare_throw].
  apply hoare_bind, (loop_get _ _ c2); [done|apply A2|].
  assert (held c2 = (None, [], [])) as Hh2 by congruence.
  pose proof (proj1 (proj2 A2)) as Hok2. destruct (arm (_aio c2)) as [[es armed] aio] eqn:Earm.
  destruct (arm_context _ _ _ _ _ Hok2 Hh2 Earm) as (Hok3 & Hh3 & -> & Hp & _).
  set (c3 := set_aio aio (es ++ _retired c2) c2) in *.
  apply hoare_bind, loop_asserted; [done| |].
  { apply forallb_forall. intros e He. by apply (ai_fds _ _ _ (ok_aio _ _ Hok3)), list_elem_of_In. }
  apply hoare_bind, loop_put; [done..|]. intros I3.
  apply hoare_bind, (loop_armed _ _ c3); [done|done|done|]. intros I4. apply hoare_bind.
  eapply hoare_mono; [by apply (loop_discard es _ c3)|]. cbv beta. intros _ l5 w5 _ I5 (c5 & A5 & H5).
  apply hoare_bind, (loop_tick _ _ c5); [done|apply A5|]. intros sel l6 w6 c6 I6 A6 H6 _ _ _.
  assert (calm w6) as Hc6 by (exists c6; split; [apply A6|congruence]).
  destruct (e_ret sel <? 0); [by apply hoare_ret|]. destruct (e_ret sel =? 0); [by apply hoare_ret|].
  apply hoare_bind, loop_obs; [done..|]. intros I7. apply hoare_bind.
  apply (loop_tick _ _ c6); [done|apply A6|]. intros e8 l8 w8 c8 I8 A8 H8 _ _ _.
  assert (calm w8) as Hc8 by (exists c8; split; [apply A8|congruence]).
  destruct (e_alloc e8); cbn [negb]; [|by apply hoare_ret].
  apply hoare_bind, (loop_tick _ _ c8); [done|apply A8|]. intros e9 l9 w9 c9 I9 A9 H9 _ _ _.
  apply hoare_bind, (loop_get _ _ c9); [done|apply A9|]. pose proof (proj1 (proj2 A9)) as Hok9.
  destruct (collect_spec (_aio c9) (e_ready sel) (map _where (AioManager._entries aio)))
    as (cbs & Hcol & Hcbs); [by eapply wheres_nodup| |].
  { apply (armed_still (map AioManager._cb es ++ [] ++ [] ++ []) c3 c9).
    eapply keeps_trans; [apply A5|]. eapply keeps_trans; [apply A6|]. eapply keeps_trans; [apply A8|apply A9]. }
  apply hoare_bind. eapply hoare_defined; [done|exact Hcol|]. apply hoare_bind.
  eapply hoare_mono; [apply (loop_walk _ w9 c9); [done|apply A9| |]|].
  - intros a (e & He & _ & <- & _)%Hcbs. by eapply entry_present.
  - intros a w0 c0 I0 Hw0 Hpr. apply hoare_bind. eapply hoare_mono; [by apply (loop_activate a _ c0)|].
    cbv beta. intros r l' w' _ I' Hq. by apply hoare_ret.
  - cbv beta. intros r l' w' _ I' Hq. apply hoare_ret; [done|]. eapply (calm_quiet w9 c9); [congruence|done].
Qed.

Lemma loop_rounds w : inv w → calm w → wpp rounds (λ _ _ w', calm w') w.
Proof.
  intros I Hc. unfold rounds. apply (hoare_loop _ (λ _ _ w', calm w')); [done..|].
  intros [] l0 w0 T0 I0 (c & Hw & Hh). apply hoare_bind, (loop_tick _ _ c); [done..|].
  intros e1 l1 w1 c1 I1 A1 H1 _ Hor _.
  assert (calm w1) as Hc1 by (exists c1; split; [apply A1|congruence]).
  apply hoare_bind, loop_get_phase; [done|]. case_bool_decide as Hrun; cbn [negb]; [|by apply hoare_ret].
  apply hoare_bind. eapply hoare_mono; [by apply loop_check|]. cbv beta. intros tv l2 w2 T2 I2 Hc2.
  apply hoare_bind. eapply hoare_mono; [by apply loop_process|]. cbv beta. intros r l3 w3 T3 I3 Hc3.
  apply hoare_ret; [done|]. destruct (r <? 0); [done|]. split; [|done].
  pose proof (tr_script _ _ _ T2). pose proof (tr_script _ _ _ T3). unfold script_left, Loop_scripted.
  destruct Hor as [?|[_ ?]]; [lia|done].
Qed.

(** ** The end *)

Lemma timers_cleaned l c :
  context_ok l c → held c = (None, [], []) → TimerManager._cleaned_up (_timers c) = false →
  let gone := map _tcb (TimerManager._timers (_timers c)) in
  context_ok l (set_timers (cleanup (_timers c)) None (set_dying gone c)) ∧ NoDup gone.
Proof.
  intros Hc Hh Hcl gone. injection Hh as Ha Hr Hd. pose proof (ok_timers _ _ Hc) as Ht.
  unfold system in Ht. rewrite Ha in Ht. pose proof (cleanup_ok _ _ Ht) as Ht'.
  assert (_tcb <$> live (system c) = gone) as Hlive.
  { unfold live, system. cbn. by rewrite Ha, app_nil_r. }
  unfold cleanup in *. rewrite Hcl in *. split.
  - apply timers_changed; [done|done|by intros t ?%not_elem_of_nil|]. cbn [_cbs].
    rewrite <- (app_nil_r gone), <- Hd. apply (heap_doom (registry c)); [apply Hc|..].
    + intros a Hin. apply (tk_registry _ (ok_timers _ _ Hc)). left. by rewrite Hlive.
    + intros a. apply registry_remove_all.
  - pose proof (tk_cbs_nodup _ (ok_timers _ _ Hc)) as Hnd. by rewrite Hlive in Hnd.
Qed.

(** The context at the end, its managers cleaned up as far as [timers] and [aio] say. *)
Definition ended (timers aio : bool) (w : EWorld) : Prop :=
  ∃ c, _context w = Some c ∧ held c = (None, [], [])
    ∧ (timers = true → TimerManager._cleaned_up (_timers c) = true)
    ∧ (aio = true → AioManager._cleaned_up (_aio c) = true).

Lemma ended_keeps gone timers aio c w' c' :
  after gone c w' c' → held c' = (None, [], []) →
  (timers = true → TimerManager._cleaned_up (_timers c) = true) →
  (aio = true → AioManager._cleaned_up (_aio c) = true) → ended timers aio w'.
Proof.
  intros (Hw & _ & K) Hh Ht Ha. exists c'. do 2 (split; [done|]).
  rewrite (ke_timers _ _ _ K), (ke_aio _ _ _ K). done.
Qed.

Lemma loop_timers_cleanup w : inv w → calm w → wpp timers_cleanup (λ _ _ w', ended true false w') w.
Proof.
  intros I (c & Hw & Hh). unfold timers_cleanup. apply hoare_bind, (loop_tick _ _ c); [done..|].
  intros e l1 w1 c1 I1 A1 H1 _ _ _. rewrite Hh in H1. pose proof A1 as (Hw1 & Hok1 & _).
  apply hoare_bind, (loop_get _ _ c1); [done..|]. destruct (TimerManager._cleaned_up (_timers c1)) eqn:Ecl.
  { apply hoare_ret; [done|]. by exists c1. }
  destruct (timers_cleaned _ _ Hok1 H1 Ecl) as [Hok2 Hnd]. injection H1 as Ha1 Hr1 Hd1.
  rewrite Ha1, Hd1, app_nil_r. apply hoare_bind, loop_put; [done..|]. intros I2.
  unfold destroy_all. apply hoare_bind. eapply hoare_mono; [eapply loop_destroy_all; [done|done|done|exact Hr1|done|exact Hnd]|].
  cbv beta. intros _ l3 w3 _ I3 (c3 & A3 & H3). apply hoare_ret; [done|]. eapply ended_keeps; [exact A3|done| |done].
  intros _. cbn. unfold cleanup. by rewrite Ecl.
Qed.

Lemma aio_cleaned l c es aio :
  context_ok l c → held c = (None, [], []) → cleanup_begin (_aio c) = (es, aio) →
  let c' := set_aio aio es c in
  context_ok l c' ∧ held c' = (None, es, []) ∧ AioManager._cleaned_up aio = true.
Proof.
  intros Hc Hh Hb c'. injection Hh as Ha Hr Hd. unfold cleanup_begin in Hb.
  destruct (ok_aio _ _ Hc) as [C W F Id S N R A Cl]. rewrite Hr, app_nil_r in C.
  destruct (AioManager._cleaned_up (_aio c)) eqn:Ecl; injection Hb as <- <-.
  - assert (c' = c) as -> by (unfold c'; rewrite <- Hr; by destruct c).
    split; [done|]. split; [unfold held; by rewrite Ha, Hr, Hd|done].
  - split; [|split; [unfold held; cbn; by rewrite Ha, Hd|done]].
    assert (system c' = system c) as Hsys.
    { unfold system, aio_cbs. cbn. by rewrite Hr, app_nil_r. }
    split; rewrite ?Hsys; [apply Hc..|]. split; cbn; try done; try (by intros e ?%not_elem_of_nil).
    + apply NoDup_nil_2.
    + intros id Hid. split; [by apply R|]. by intros e ?%not_elem_of_nil.
Qed.

Lemma loop_aio_cleanup w :
  inv w → ended true false w → wpp aio_cleanup (λ _ _ w', ended true true w') w.
Proof.
  intros I (c & Hw & Hh & Ht & _). unfold aio_cleanup. apply hoare_bind, (loop_tick _ _ c); [done..|].
  intros e l1 w1 c1 I1 A1 H1 _ _ _. rewrite Hh in H1. pose proof A1 as (Hw1 & Hok1 & K1).
  apply hoare_bind, (loop_get _ _ c1); [done..|]. destruct (cleanup_begin (_aio c1)) as [es aio] eqn:Eb.
  destruct (aio_cleaned _ _ _ _ Hok1 H1 Eb) as (Hok2 & H2 & Hcl).
  assert (_retired c1 = []) as -> by by injection H1. rewrite app_nil_r.
  apply hoare_bind, loop_put; [done..|]. intros I2. eapply hoare_mono; [by eapply loop_discard|]. cbv beta.
  intros _ l3 w3 _ _ (c3 & A3 & H3). eapply ended_keeps; [exact A3|done| |done].
  intros _. cbn. rewrite (ke_timers _ _ _ K1). by apply Ht.
Qed.

Lemma loop_pipe_close p w c :
  inv w → _context w = Some c → wpp (pipe_close p) (λ p' _ w', quiet w c w' ∧ _state p' = CLOSED) w.
Proof.
  intros I Hw. unfold pipe_close. case_bool_decide; [apply hoare_ret; [done|split; [by apply quiet_refl|done]]|].
  assert (∀ fd w0, inv w0 → quiet w c w0 →
    wpp (if 0 <=? fd then (_ ← syscall; mret tt) else mret tt) (λ _ _ w', quiet w c w') w0) as Hone.
  { intros fd w0 I0 (c0 & A0 & H0). destruct (0 <=? fd); [|apply hoare_ret; [done|by exists c0]].
    apply hoare_bind, (loop_syscall _ _ c0); [done|apply A0|]. intros a l1 w1 c1 I1 A1 H1 _.
    apply hoare_ret; [done|]. eapply quiet_trans; [exact A0|done|by exists c1]. }
  apply hoare_bind. eapply hoare_mono; [apply Hone; [done|by apply quiet_refl]|]. cbv beta.
  intros _ l1 w1 _ I1 Q1. apply hoare_bind. eapply hoare_mono; [by apply Hone|]. cbv beta.
  intros _ l2 w2 _ I2 Q2. by apply hoare_ret.
Qed.

(** Nothing is registered and no callback object is left. *)
Lemma ended_empty l c :
  context_ok l c → held c = (None, [], []) →
  TimerManager._cleaned_up (_timers c) = true → AioManager._cleaned_up (_aio c) = true →
  registry c = [] ∧ _heap c = ∅ ∧ TimerManager._timers (_timers c) = [] ∧ entries c = [].
Proof.
  intros Hc Hh Ht Ha. injection Hh as Hact Hret Hdy.
  pose proof (tk_cleaned _ (ok_timers _ _ Hc) Ht) as Hlive.
  pose proof (ai_cleaned _ _ _ (ok_aio _ _ Hc) Ha) as Hent.
  assert (∀ a, a ∉ registry c) as Hreg.
  { intros a Hin. apply (tk_registry _ (ok_timers _ _ Hc)) in Hin as [Hin|Hin].
    - rewrite Hlive in Hin. by apply not_elem_of_nil in Hin.
    - cbn in Hin. unfold aio_cbs in Hin. rewrite Hent, Hret in Hin. cbn in Hin. set_solver. }
  split; [by apply elem_of_nil_inv|]. split; [|split; [|done]].
  - apply map_eq. intros a. rewrite lookup_empty. destruct (_heap c !! a) eqn:E; [|done]. exfalso.
    destruct (proj1 (hp_owned _ _ _ _ (ok_heap _ _ Hc) a)) as [Hx|Hx]; [by eexists|by eapply Hreg|].
    rewrite Hdy in Hx. by apply not_elem_of_nil in Hx.
  - unfold live, system in Hlive. cbn in Hlive. by apply app_eq_nil in Hlive as [? _].
Qed.

(** What is left when the engine has stopped. *)
Record stopped (w : EWorld) : Prop := {
  st_phase : _ephase w = STOPPED;
  st_context : ∃ c, _context w = Some c ∧ _state (_wakeup c) = CLOSED ∧ registry c = []
    ∧ _heap c = ∅ ∧ TimerManager._timers (_timers c) = [] ∧ entries c = []
}.

Lemma loop_shut_down w : inv w → calm w → wpp shut_down (λ _ _ w', stopped w') w.
Proof.
  intros I (c & Hw & Hh). unfold shut_down. apply hoare_bind, (loop_tick _ _ c); [done..|].
  intros e l1 w1 c1 I1 A1 H1 _ _ _. apply hoare_bind, loop_get_phase; [done|].
  apply hoare_bind. eapply (hoare_mono _ (λ _ _ w', _context w' = Some c1)).
  { case_bool_decide; [apply loop_set_phase; [done|]; intros _; apply A1|apply hoare_ret; [done|apply A1]]. }
  cbv beta. intros _ l2 w2 _ I2 Hw2. apply hoare_bind.
  eapply hoare_mono; [by apply (loop_stop_workers _ c1)|]. cbv beta. intros _ l3 w3 _ I3 (c3 & A3 & H3).
  apply hoare_bind. eapply hoare_mono; [apply (loop_print_stats _ c3); [done|apply A3]|]. cbv beta.
  intros _ l4 w4 _ I4 Q4. apply hoare_bind.
  eapply hoare_mono; [apply loop_timers_cleanup; [done|]; eapply calm_quiet; [|exact Q4]; congruence|]. cbv beta.
  intros _ l5 w5 _ I5 E5. apply hoare_bind. eapply hoare_mono; [by apply loop_aio_cleanup|]. cbv beta.
  intros _ l6 w6 _ I6 (c6 & Hw6 & H6 & Ht6 & Ha6). apply hoare_bind, (loop_get _ _ c6); [done..|].
  apply hoare_bind. eapply hoare_mono; [by apply (loop_pipe_close _ _ c6)|]. cbv beta.
  intros p l7 w7 _ I7 [(c7 & (Hw7 & Hok7 & K7) & H7) Hp].
  apply hoare_bind, (loop_modify _ _ _ c7); [done..| |].
  { destruct Hok7 as [T D K H A]. by split. }
  intros I8. apply loop_set_phase; [done|]. intros _. split; [done|]. eexists. split; [done|]. split; [done|].
  apply (ended_empty (elog w7) (set_wakeup p c7)); [|unfold held in *; cbn; congruence|..]; cbn.
  - destruct Hok7 as [T D K H A]. by split.
  - rewrite (ke_timers _ _ _ K7). auto.
  - rewrite (ke_aio _ _ _ K7). auto.
Qed.

(** [run] of an engine that is ready, with the reading end of its pipe in range. *)
Lemma loop_engine_run w c :
  inv w → _context w = Some c → held c = (None, [], []) → _ephase w = READY →
  0 <= read_fd (_wakeup c) < FD_SETSIZE →
  wpp run (λ st _ w', (st = ENGINE_SUCCESSFUL ∨ st = WAITFAILED) ∧ stopped w') w.
Proof.
  intros I Hw Hh Hph Hfd. unfold run. apply hoare_bind, (loop_tick _ _ c); [done..|].
  intros e l1 w1 c1 I1 (Hw1 & Hok1 & K1) H1 _ _ Hp. apply hoare_bind, loop_get_phase; [done|].
  assert (_ephase w1 = READY) as -> by (destruct Hp as [?|[? _]]; congruence).
  rewrite bool_decide_true by done. cbn [negb]. apply hoare_bind, loop_set_phase; [done|]. intros I2.
  apply hoare_bind. unfold peek_context at 1. apply hoare_ret; [done|]. cbn [with_phase _context]. rewrite Hw1.
  rewrite (ke_wakeup _ _ _ K1), (proj2 (Z.ltb_ge _ _)), (proj2 (Z.leb_gt _ _)) by lia. cbn [orb].
  apply hoare_bind. eapply hoare_mono; [apply loop_rounds; [done|]; exists c1; split; [done|congruence]|]. cbv beta.
  intros failed l3 w3 _ I3 H3. apply hoare_bind. eapply hoare_mono; [by apply loop_shut_down|]. cbv beta.
  intros _ l4 w4 _ I4 H4. apply hoare_ret; [done|]. split; [|done]. destruct failed; auto.
Qed.
