(* ===== verification/EngineClaims.v ===== *)
(** What the monitoring engine's loop promises its users: it starts in a sound
    state or not at all, runs without touching a destroyed object, stops with
    nothing left behind, waits for no descriptor whose removal it has confirmed, and
    dispatches exactly the descriptors that are wanted and ready. *)

From Stdlib Require Import String.
From S2P Require Import Prelude FileSystem Effects WakePipe Engine Callback TimerManager AioManager EngineLoop EngineSafety.
#[local] Open Scope tlss_scope.

(** ** Starting *)

(** An engine that was just made. *)
Definition fresh (script : list Event) : EWorld := mkEWorld CREATED None script [].

Record starting (w : EWorld) : Prop := {
  sg_context : _context w = None;
  sg_phase : _ephase w ≠ RUNNING;
  sg_log : elog w = [];
  sg_script : Forall event_ok (escript w)
}.

(** Before there is a context the calls of other threads do nothing. *)
Lemma acts_idle os : ∀ w, _context w = None → _ephase w ≠ RUNNING → acts os w = Some w.
Proof.
  induction os as [|o os IH]; intros w Hc Hp; [done|]. cbn [acts].
  assert (act o w = Some w) as ->; [|by apply IH].
  destruct o as [fd has_cb asynchronous env|id wk|has_cb flags delay env| |a elapsed]; cbn [act].
  - unfold add_aio. rewrite Hc. by destruct (accepts_registration _).
  - unfold remove_aio. rewrite Hc. destruct (id =? 0); [done|]. by destruct (accepts_registration _).
  - unfold set_timer. rewrite Hc. by destruct (accepts_registration _).
  - unfold stop. by rewrite bool_decide_false.
  - by rewrite Hc.
Qed.

(** An engine that can be run: its invariant holds and the reading end of its pipe
    can be waited for. *)
Record ready (w : EWorld) : Prop := {
  rd_inv : inv w;
  rd_phase : _ephase w = READY;
  rd_context : ∃ c, _context w = Some c ∧ held c = (None, [], []) ∧ 0 <= read_fd (_wakeup c) < FD_SETSIZE
}.

Definition started (w : EWorld) (l : list Obs) (w' : EWorld) : Prop :=
  (starting w' ∨ ready w') ∧ l = [] ∧ (length (escript w') <= length (escript w))%nat.

#[local] Instance starting_histories : Histories EWorld Obs (λ w, starting w ∨ ready w) started.
Proof.
  split; [by intros w l w' [? _]|by intros w H; split; [|split]|].
  intros w l w1 k w2 (? & -> & ?) (? & -> & ?). split; [done|]. split; [done|lia].
Qed.
#[local] Abbreviation wps := (hoare started).

(** Computations that only ask the surroundings. *)
Definition asks {A} (m : Eff EWorld A) : Prop := ∀ w, starting w → wps m (λ _ _ w', starting w') w.

Lemma wps_tick Q w :
  starting w →
  (∀ e w', starting w' →
     (length (escript w') < length (escript w))%nat ∨ e = last_event → Q e [] w') → wps tick Q w.
Proof.
  intros [C P L S] HQ. unfold hoare, tick. rewrite acts_idle by done. cbn [fst snd]. exists [].
  set (w' := mkEWorld _ _ _ _). assert (starting w') as S' by (split; try done; cbn; by destruct S).
  split; [|apply HQ; [done|]].
  - split; [by left|]. split; [done|]. cbn. destruct (escript w); cbn; lia.
  - cbn. destruct (escript w); cbn; [by right|left; lia].
Qed.

Lemma wps_bind {A B} (m : Eff EWorld A) (k : A → Eff EWorld B) Q w :
  asks m → starting w → (∀ x w', starting w' → wps (k x) Q w') → wps (m ≫= k) Q w.
Proof.
  intros Hm S Hk. apply hoare_bind. eapply hoare_mono; [by apply Hm|]. cbv beta.
  intros x l w' (_ & -> & _) _ S'. by apply Hk.
Qed.

Lemma asks_ret {A} (x : A) : asks (mret x).
Proof. intros w S. apply hoare_ret; [by left|done]. Qed.
Lemma asks_bind {A B} (m : Eff EWorld A) (k : A → Eff EWorld B) :
  asks m → (∀ x, asks (k x)) → asks (m ≫= k).
Proof. intros Hm Hk w S. apply wps_bind; [done..|]. intros x w' S'. by apply Hk. Qed.
Lemma asks_tick : asks tick.
Proof. intros w S. by apply wps_tick. Qed.
Lemma asks_syscall : asks syscall.
Proof. apply asks_bind; [apply asks_tick|]. intros e. apply asks_ret. Qed.

Ltac asking :=
  repeat (intros; cbv beta zeta; lazymatch goal with
    | |- asks (_ ≫= _) => apply asks_bind
    | |- asks (mret _) => apply asks_ret
    | |- asks syscall => apply asks_syscall
    | |- asks tick => apply asks_tick
    | |- asks (match ?x with _ => _ end) => destruct x
    | |- asks ?m => let h := get_head m in unfold h
    end).

Lemma asks_init p : asks (WakePipe.init p).
Proof. asking. Qed.

Lemma asks_close p : asks (pipe_close p).
Proof. asking. Qed.

Lemma asks_wakeup p : asks (wakeup p).
Proof.
  unfold wakeup. case_match; [apply asks_ret|]. intros w S.
  apply (hoare_loop _ (λ _ _ w', starting w')); [by left|done|]. intros _ l0 w0 _ _ S0.
  apply hoare_bind. cbn [syscall Loop_syscalls]. apply hoare_bind, wps_tick; [done|]. intros e w1 S1 Hor.
  apply hoare_ret; [by left|]. cbn [a_ret a_errno]. destruct (e_ret e =? 1); [apply hoare_ret; [by left|done]|].
  destruct ((e_ret e =? -1) && (e_errno e =? EINTR)) eqn:E; cycle 1.
  { destruct ((e_ret e =? -1) && (e_errno e =? EAGAIN)); (apply hoare_ret; [by left|done]). }
  apply hoare_ret; [by left|]. split; [|done]. destruct Hor as [?| ->]; [done|]. done.
Qed.

(** ** The context that [init] publishes *)

Lemma empty_context pipe : context_ok [] (mkLoop pipe new_manager new_aio None 0 ∅ 0 None [] []).
Proof.
  split.
  - split; cbn; try apply NoDup_nil_2; try apply SSorted_nil; try done;
      unfold live, aio_cbs; cbn; set_solver.
  - by intros t ?%not_elem_of_nil.
  - by intros t cb ?%not_elem_of_nil.
  - split; cbn; intros a; rewrite ?lookup_empty; try done; try (by intros [? [=]]); [|by intros ?%not_elem_of_nil].
    split; [by intros [? [=]]|]. by intros [?%not_elem_of_nil|?%not_elem_of_nil].
  - split; cbn; try apply NoDup_nil_2; try done; try (by intros e ?%not_elem_of_nil).
    intros l1 id l2 ids Hl. by destruct l1.
Qed.

Lemma wps_phase {A} p (m : Eff EWorld A) Q w :
  p ≠ RUNNING → starting w → (∀ w', starting w' → _ephase w' = p → wps m Q w') →
  wps (_ ← set_phase p; m) Q w.
Proof.
  intros Hp S Hm. apply hoare_bind. assert (starting (with_phase p w)) as S' by (split; try done; apply S).
  exists []. split; [split; [by left|done]|]. by apply Hm.
Qed.

(** [init] leaves an engine that can be run, or one that can be initialised again. *)
Definition init_result (st : ENGINESTATE) (w' : EWorld) : Prop :=
  match st with ENGINE_SUCCESSFUL => ready w' | _ => starting w' ∧ _ephase w' = CREATED end.

Lemma init_refused st w :
  st ≠ ENGINE_SUCCESSFUL → starting w → _ephase w = CREATED → wps (mret st) (λ st _ w', init_result st w') w.
Proof. intros Hst S Hp. apply hoare_ret; [by left|]. by destruct st. Qed.

Lemma wps_drop pipe st w :
  st ≠ ENGINE_SUCCESSFUL → starting w → wps (drop_context pipe st) (λ st _ w', init_result st w') w.
Proof.
  intros Hst S. apply wps_bind; [apply asks_close|done|]. intros p w1 S1. apply wps_phase; [done..|].
  intros w2 S2 H2. by apply init_refused.
Qed.

Lemma published_ready pipe fd env id c w :
  let c0 := mkLoop pipe new_manager new_aio None 0 ∅ 0 None [] [] in
  starting w → aio_add c0 (read_fd pipe) true fd env = (Some id, c) →
  ready (with_phase READY (with_context (mkLoop (_wakeup c) (_timers c) (_aio c) (Some id) (_wakeup_cb c)
    (_heap c) (_brk c) (_active c) (_retired c) (_dying c)) w)).
Proof.
  intros c0 S Ha. destruct (aio_add_ok [] c0 _ _ _ _ _ _ (empty_context pipe) Ha) as (Hok & K & Hh).
  assert (0 <= read_fd pipe < FD_SETSIZE) as Hfd.
  { unfold aio_add in Ha. cbv zeta in Ha. revert Ha. set (env' := mkAioEnv _ _ _ _ _).
    pose proof (aio_add_spec (_aio c0) (registry c0) (read_fd pipe) true env' (_brk c0) (_brk c0)) as Hs.
    destruct (AioManager.add _ _ _ _ _ _ _) as [[[h|] m] cbs]; [|by intros [=]]. intros _.
    destruct Hs as (_ & _ & _ & ? & _); [apply not_elem_of_nil|apply NoDup_nil_2|done]. }
  split; [split; [|apply S]|done|].
  - eexists. split; [done|]. cbn. rewrite (sg_log _ S). destruct Hok as [T D Ki H A]. by split.
  - eexists. split; [done|]. split; [exact Hh|]. cbn. by rewrite (ke_wakeup _ _ _ K).
Qed.

Lemma init_ok name w :
  starting w → _ephase w = CREATED → wps (EngineLoop.init name) (λ st _ w', init_result st w') w.
Proof.
  intros S Hp. unfold EngineLoop.init. apply hoare_bind, (hoare_ret (_ephase w)); [by left|].
  rewrite bool_decide_true by done. cbn [negb]. apply wps_phase; [done..|]. intros w1 S1 _.
  case_bool_decide; [apply wps_phase; [done..|]; intros w2 S2 H2; by apply init_refused|].
  apply wps_bind; [apply asks_tick|done|]. intros e w2 S2. destruct (e_alloc e); cbn [negb]; cycle 1.
  { apply wps_phase; [done..|]. intros w3 S3 H3. by apply init_refused. }
  apply wps_bind; [apply asks_init|done|]. intros [st pipe] w3 S3. case_bool_decide; cbn [negb]; [|by apply wps_drop].
  apply wps_bind; [apply asks_tick|done|]. intros e4 w4 S4.
  cbv zeta. apply wps_bind; [destruct (_ && _); [apply asks_wakeup|apply asks_ret]|done|]. intros woken w5 S5.
  destruct (aio_add _ _ _ _ _) as [[id|] c] eqn:Ea; [|by apply wps_drop].
  pose proof (published_ready _ _ _ _ _ _ S5 Ea) as R. eexists. split; [split; [right; exact R|done]|].
  exact R.
Qed.

(** ** Exceptions *)

(** How a world may go on: the script is used up from the front. *)
Definition later (w w' : EWorld) : Prop := ∃ used, escript w = used ++ escript w'.
#[local] Instance later_preorder : PreOrder later.
Proof.
  split; [by intros w; exists []|]. intros w w1 w2 [u1 E1] [u2 E2]. exists (u1 ++ u2). by rewrite E1, E2, app_assoc.
Qed.

(** An allocation of the rest of the script fails. *)
Definition starved (w : EWorld) : Prop := ∃ e, e ∈ escript w ∧ e_alloc e = false.

Lemma starved_later w w' : later w w' → starved w' → starved w.
Proof. intros [u E] (e & He & Ha). exists e. split; [|done]. rewrite E. apply elem_of_app. by right. Qed.

(** The only exception is that of an allocation. *)
Definition throws_starved {A} (m : Eff EWorld A) : Prop :=
  respects later m ∧ ∀ w e, (m w).1 = Thrown e → e = BadAlloc ∧ starved w.

Lemma throws_nothrow {A} (m : Eff EWorld A) : nothrow m → respects later m → throws_starved m.
Proof. intros Hn Hr. split; [done|]. intros w e He. by destruct (Hn w e). Qed.

Lemma throws_bind {A B} (m : Eff EWorld A) (k : A → Eff EWorld B) :
  throws_starved m → (∀ x, throws_starved (k x)) → throws_starved (m ≫= k).
Proof.
  intros [Rm Tm] Hk. split; [apply respects_bind; [apply _|done|]; apply Hk|]. intros w e.
  unfold mbind, Eff_bind. specialize (Rm w). specialize (Tm w).
  destruct (m w) as [[x|e'|] w1] eqn:E; cbn in *; [|by intros [= ->]; apply Tm|done].
  intros He. destruct (proj2 (Hk x) w1 e He) as [? ?]. split; [done|]. by eapply starved_later.
Qed.

Lemma throws_ret {A} (x : A) : throws_starved (mret x).
Proof. apply throws_nothrow; [done|]. apply respects_ret, _. Qed.

Lemma throws_loop {S A} (body : S → Eff EWorld (S + A)) s :
  (∀ s, throws_starved (body s)) → throws_starved (loop body s).
Proof.
  intros Hb. split; [apply respects_loop; [apply _|]; intros x; apply Hb|]. intros w. unfold loop.
  generalize (Datatypes.S (script_left w)) as n. intros n. revert s w.
  induction n as [|n IH]; intros s w e; cbn [iter]; [done|]. unfold mbind, Eff_bind.
  pose proof (proj1 (Hb s) w) as Rb. pose proof (proj2 (Hb s) w) as Tb.
  destruct (body s w) as [[[s'|x]|e'|] w1]; cbn in *; [|done|by intros [= ->]; apply Tb|done].
  intros He. destruct (IH s' w1 e He) as [? ?]. split; [done|]. by eapply starved_later.
Qed.

Lemma throws_each {X S A} (body : S → X → Eff EWorld (S + A)) l : ∀ s,
  (∀ s x, throws_starved (body s x)) → throws_starved (each body l s).
Proof.
  induction l as [|x l IH]; intros s Hb; cbn [each]; [apply throws_ret|].
  apply throws_bind; [apply Hb|]. intros [s'|a]; [by apply IH|apply throws_ret].
Qed.

(** Steps that leave the script. *)
Lemma throws_same {A} (m : Eff EWorld A) :
  (∀ w, (∀ e, (m w).1 ≠ Thrown e) ∧ escript (m w).2 = escript w) → throws_starved m.
Proof.
  intros Hm. split; [intros w; exists []; by destruct (Hm w)|]. intros w e He. by destruct (Hm w) as [Hn _], (Hn e).
Qed.

Lemma loop_act_script o w w' : act o w = Some w' → escript w' = escript w.
Proof.
  destruct o as [fd has_cb asynchronous env|id wk|has_cb flags delay env| |a elapsed]; cbn [act].
  - intros [= <-]. unfold add_aio. destruct (negb _); [done|]. destruct (_context w) as [c|]; [|done].
    destruct (fd =? _); [done|]. by destruct (aio_add _ _ _ _ _).
  - unfold remove_aio. destruct (id =? 0); [by intros [= <-]|]. destruct (negb _); [by intros [= <-]|].
    destruct (_context w) as [c|]; [|by intros [= <-]]. case_bool_decide; [by intros [= <-]|].
    destruct (AioManager.remove _ _ _) as [[] ?]; by intros [= <-].
  - unfold set_timer. destruct (negb _); [by intros [= <-]|]. destruct (_context w) as [c|]; [|by intros [= <-]].
    destruct (TimerManager.add _ _ _ _ _) as [[h m]|]; [|done]. by intros [= <-].
  - unfold stop. intros [= <-]. by case_bool_decide.
  - intros [= <-]. destruct (_context w) as [c|]; [|done]. by destruct (_heap c !! a).
Qed.

Lemma loop_acts_script os : ∀ w w', acts os w = Some w' → escript w' = escript w.
Proof.
  induction os as [|o os IH]; intros w w'; cbn [acts]; [by intros [= <-]|].
  destruct (act o w) as [w1|] eqn:E; [|done]. cbn. intros H. by rewrite (IH _ _ H), (loop_act_script _ _ _ E).
Qed.

Lemma later_tick : respects later tick.
Proof.
  intros w. unfold tick. destruct (acts _ _) as [w'|] eqn:E; cbn [snd]; [|reflexivity].
  unfold later. rewrite (loop_acts_script _ _ _ E). cbn. destruct (escript w) as [|e s]; [by exists []|by exists [e]].
Qed.

Lemma throws_tick : throws_starved tick.
Proof. split; [apply later_tick|]. intros w e. unfold tick. by destruct (acts _ _). Qed.

Lemma throws_syscall : throws_starved syscall.
Proof. apply throws_bind; [apply throws_tick|]. intros e. apply throws_ret. Qed.

(** The allocation that nothing catches. *)
Lemma throws_alloc {A} (k : Event → Eff EWorld A) :
  (∀ e, throws_starved (k e)) →
  throws_starved (e ← tick; if negb (e_alloc e) then throw BadAlloc else k e).
Proof.
  intros Hk. split.
  { apply respects_bind; [apply _|apply later_tick|]. intros e. destruct (negb _); [apply respects_throw, _|apply Hk]. }
  intros w e. pose proof (later_tick w) as Hl. unfold mbind, Eff_bind, tick in *.
  destruct (acts _ _) as [w1|] eqn:E; cbn [fst snd] in *; [|done].
  destruct (e_alloc (default last_event (head (escript w)))) eqn:Ea; cbn [negb].
  - intros He. destruct (proj2 (Hk _) w1 e He) as [? ?]. split; [done|]. by eapply starved_later.
  - intros [= <-]. split; [done|]. destruct (escript w) as [|e0 s] eqn:Es; [done|].
    exists e0. rewrite Es. split; [by left|done].
Qed.

Create HintDb starve.
Ltac starving :=
  repeat (intros; cbv beta zeta; lazymatch goal with
    | |- throws_starved tick => apply throws_tick
    | |- throws_starved syscall => apply throws_syscall
    | |- throws_starved (mret _) => apply throws_ret
    | |- throws_starved (_ ≫= _) => apply throws_bind
    | |- throws_starved (loop _ _) => apply throws_loop
    | |- throws_starved (each _ _ _) => apply throws_each
    | |- throws_starved (match ?x with _ => _ end) => destruct x
    | |- throws_starved (defined ?o) => apply throws_same; intros ?w; by destruct o
    | |- throws_starved get_context => apply throws_same; intros ?w; unfold get_context; by case_match
    | |- throws_starved (put_context _) => by apply throws_same
    | |- throws_starved (record_obs _) => by apply throws_same
    | |- throws_starved get_phase => by apply throws_same
    | |- throws_starved (set_phase _) => by apply throws_same
    | |- throws_starved peek_context => by apply throws_same
    | |- throws_starved _ => first [solve [auto with starve] | let m := match goal with |- throws_starved ?m => m end in
        let h := get_head m in unfold h]
    end).

Lemma throws_process : throws_starved process.
Proof.
  unfold process. apply throws_bind; [apply throws_tick|]. intros e. apply throws_bind; [starving|]. intros c.
  destruct (AioManager._cleaned_up _); [apply throws_ret|]. apply throws_alloc. starving.
Qed.
Lemma throws_stop_workers : throws_starved stop_workers.
Proof. apply throws_alloc. starving. Qed.
Lemma throws_print_stats : throws_starved print_stats.
Proof. apply throws_alloc. starving. Qed.
#[local] Hint Resolve throws_process throws_stop_workers throws_print_stats : starve.

Lemma throws_run : throws_starved run.
Proof. starving. Qed.

Lemma throws_init name : throws_starved (EngineLoop.init name).
Proof. starving. Qed.

Lemma nothrow_loop_tick : nothrow tick.
Proof. intros w e. unfold tick. by destruct (acts _ _). Qed.
Lemma nothrow_syscall : nothrow (W := EWorld) syscall.
Proof. apply nothrow_bind; [apply nothrow_loop_tick|]. intros e. apply nothrow_ret. Qed.
#[local] Hint Resolve nothrow_loop_tick nothrow_syscall : noexcept.

Lemma nothrow_init name : nothrow (EngineLoop.init name).
Proof.
  unfold EngineLoop.init, drop_context, WakePipe.init, wakeup, pipe_close, and_then, set_non_blocking,
    set_close_on_exec. noexcept.
Qed.

(** [init] of a new engine. *)
Lemma init_fresh name script :
  Forall event_ok script →
  match EngineLoop.init name (fresh script) with
  | (Returned st, w) => init_result st w
  | (Thrown _, _) | (Stuck, _) => False
  end.
Proof.
  intros Hs. destruct (init_ok name (fresh script)) as (l & _ & H); [by split|done|].
  pose proof (nothrow_init name (fresh script)) as Hn.
  destruct (EngineLoop.init name (fresh script)) as [[st|e|] w]; cbn in *; [done|by destruct (Hn e)|done].
Qed.

(** [run] of an engine that can be run. *)
Lemma run_ready w :
  ready w →
  hoare trans run (λ st _ w', (st = ENGINE_SUCCESSFUL ∨ st = WAITFAILED) ∧ stopped w') w.
Proof. intros [I P (c & Hw & Hh & Hfd)]. by apply (loop_engine_run w c). Qed.

(** ** The claims *)




(** ** Witnesses *)

(** An interaction in which nothing fails. *)
Definition good (outer : list Outer) (fds : list Z) : Event := mkEvent outer 0 1 0 (3, 4) fds true (Some 0).

(** The engine starts; descriptor 7 is registered, is ready in the first round and is
    removed in the second, in which descriptor 8 is registered; a third round, then
    the stop. *)
Definition demo_script : list Event :=
  let all_ok := mkAioEnv true true true true true in
  replicate 12 (good [] [])
  ++ good [OuterAddAio 7 true false all_ok] [] :: replicate 4 (good [] [])
  ++ good [] [7] :: replicate 10 (good [] [])
  ++ good [OuterRemoveAio 2 true; OuterAddAio 8 true true all_ok] [] :: replicate 6 (good [] [])
  ++ good [OuterStop] [] :: replicate 20 (good [] []).

Definition demo_name : bytes := [116; 108; 115; 115].
Definition demo_ready : EWorld := (EngineLoop.init demo_name (fresh demo_script)).2.

Lemma good_ok outer fds : Forall outer_ok outer → event_ok (good outer fds).
Proof. intros Ho. split; [unfold CLOCK_MAX; cbn; lia|done]. Qed.

Lemma demo_script_ok : Forall event_ok demo_script.
Proof. unfold demo_script. cbn [replicate app]. repeat (constructor; [apply good_ok; by repeat constructor|]). constructor. Qed.

Lemma demo_ready_ok : EngineLoop.init demo_name (fresh demo_script) = (Returned ENGINE_SUCCESSFUL, demo_ready).
Proof. vm_compute. reflexivity. Qed.



(** Descriptor 7 is armed; while it is waited for, it is registered a second time. *)
Definition demo_env : AioEnv := mkAioEnv true true true true true.
Definition demo_empty : LoopContext :=
  mkLoop (mkPipe PIPE_READY 3 4) new_manager new_aio None 0 ∅ 0 None [] [].
Definition demo_armed : LoopContext := (aio_add demo_empty 7 true false demo_env).2.
Definition demo_again : LoopContext := (aio_add demo_armed 7 true false demo_env).2.

