(* ===== verification/UdpPublisher.v ===== *)
(** The publisher of metrics over UDP ([src/monitor/udp_publisher.cpp],
    [inc/monitor/udp_publisher.h]).

    What [inet_pton], [socket] and [sendto] answer is an argument of the functions
    that call them. A function that calls [sendto] also returns the datagrams it
    handed over, and one that opens or closes descriptors what it did to them. *)

From S2P Require Import Prelude MonitorData MonitorWire.
#[local] Open Scope tlss_scope.

Inductive UdpPublishStatus :=
  | SUCCESS | INVALID_ENDPOINT | INVALID_VERSION | SOCKET_ERROR | ENCODE_ERROR | SEND_ERROR
  | PARTIAL_SEND.

#[export] Instance UdpPublishStatus_eq_dec : EqDecision UdpPublishStatus.
Proof. solve_decision. Defined.

Record UdpPublishResult := mkPublishResult {
  _status : UdpPublishStatus;
  _wire_status : WireStatus;
  _bytes_sent : Z;
  _system_error : Z
}.

Definition success (r : UdpPublishResult) : bool := bool_decide (_status r = SUCCESS).

Record UdpEndpoint := mkEndpoint { _address : bytes; _port : Z }.
Record UdpPublisherConfig := mkPublisherConfig { _endpoint : UdpEndpoint; _version : WireVersion }.

(** [sockaddr_in]: a port and an address in network byte order. *)
Record SockAddr := mkSockAddr { sin_port : Z; sin_addr : Z }.

Record Impl := mkImpl {
  _socket : Z;
  _destination : SockAddr;
  _setup_status : UdpPublishStatus;
  _setup_error : Z
}.

Record UdpPublisher := mkPublisher { _config : UdpPublisherConfig; _impl : Impl }.

(** What the system answers to the constructor. *)
Record SetupEnv := mkSetupEnv {
  pton_result : Z;    (* [inet_pton] *)
  pton_addr : Z;
  pton_errno : Z;
  socket_result : Z;  (* [socket] *)
  socket_errno : Z
}.

(** [htons] on a little-endian host. *)
Definition htons (p : Z) : Z := Z.lor (Z.shiftl (Z.land p 255) 8) (Z.shiftr p 8).

(** The publisher and the descriptor it opened. *)
Definition make_publisher (config : UdpPublisherConfig) (env : SetupEnv)
    : UdpPublisher * option Z :=
  let failed status error := (mkPublisher config (mkImpl (-1) (mkSockAddr 0 0) status error), None) in
  match _version config with
  | OtherVersion _ => failed INVALID_VERSION 0
  | _ =>
  if bool_decide (_address (_endpoint config) = []) || (_port (_endpoint config) =? 0)
  then failed INVALID_ENDPOINT 0 else
  let destination := mkSockAddr (htons (_port (_endpoint config))) (pton_addr env) in
  if negb (pton_result env =? 1)
  then failed INVALID_ENDPOINT (if pton_result env <? 0 then pton_errno env else 0) else
  if socket_result env <? 0 then failed SOCKET_ERROR (socket_errno env) else
  (mkPublisher config (mkImpl (socket_result env) destination SUCCESS 0), Some (socket_result env))
  end.

(** The destructor: the descriptor it closes. *)
Definition destroy_publisher (p : UdpPublisher) : option Z :=
  if 0 <=? _socket (_impl p) then Some (_socket (_impl p)) else None.

Definition ready (p : UdpPublisher) : bool :=
  (0 <=? _socket (_impl p)) && bool_decide (_setup_status (_impl p) = SUCCESS).

Definition setup_status (p : UdpPublisher) : UdpPublishStatus := _setup_status (_impl p).

(** A datagram handed to [sendto]. *)
Record Datagram := mkDatagram { _to : SockAddr; _payload : bytes }.

(** The result and the datagrams handed to [sendto], which answers [sent] and
    [errno]; [None] is undefined behaviour of the encoder. *)
Definition send (p : UdpPublisher) (record : StoredRecord) (sent errno : Z)
    : option (UdpPublishResult * list Datagram) :=
  if negb (ready p)
  then Some (mkPublishResult (_setup_status (_impl p)) MonitorWire.SUCCESS 0 (_setup_error (_impl p)), [])
  else
    encoded ← encode record (_version (_config p));
    match _estatus encoded with
    | MonitorWire.SUCCESS =>
        let handed := [mkDatagram (_destination (_impl p)) (_bytes encoded)] in
        if sent <? 0 then Some (mkPublishResult SEND_ERROR MonitorWire.SUCCESS 0 errno, handed) else
        if negb (sent =? ♯(_bytes encoded))
        then Some (mkPublishResult PARTIAL_SEND MonitorWire.SUCCESS sent 0, handed)
        else Some (mkPublishResult SUCCESS MonitorWire.SUCCESS sent 0, handed)
    | status => Some (mkPublishResult ENCODE_ERROR status 0 0, [])
    end.

(** ** Lemmas *)

(** A descriptor is open exactly in a publisher that is ready. *)
Lemma make_publisher_socket config env p opened :
  make_publisher config env = (p, opened) →
  destroy_publisher p = opened ∧ (ready p = true ↔ is_Some opened) ∧ _config p = config
  ∧ (ready p = true ↔ setup_status p = SUCCESS).
Proof.
  unfold make_publisher, destroy_publisher, ready, setup_status.
  assert (∀ st e, st ≠ SUCCESS → (mkPublisher config (mkImpl (-1) (mkSockAddr 0 0) st e), None) = (p, opened) →
    (if 0 <=? _socket (_impl p) then Some (_socket (_impl p)) else None) = opened ∧
    ((0 <=? _socket (_impl p)) && bool_decide (_setup_status (_impl p) = SUCCESS) = true ↔ is_Some opened)
    ∧ _config p = config
    ∧ ((0 <=? _socket (_impl p)) && bool_decide (_setup_status (_impl p) = SUCCESS) = true
       ↔ _setup_status (_impl p) = SUCCESS)) as Hfail.
  { intros st e Hst [= <- <-]. cbn. split; [done|]. split; [by split; [|intros [? ?]]|]. split; [done|by split]. }
  destruct (_version config); [..|by apply Hfail];
    (destruct (_ || _); [by apply Hfail|]); (destruct (negb _); [by apply Hfail|]);
    (destruct (socket_result env <? 0) eqn:E; [by apply Hfail|]); ztests; intros [= <- <-]; cbn;
    rewrite (proj2 (Z.leb_le _ _)), bool_decide_true by done; (split; [done|]); (split; [by split|]); by split.
Qed.
