(* ===== verification/UdpReceiver.v ===== *)
(** The receiver of metrics over UDP ([src/monitor/udp_receiver.cpp],
    [inc/monitor/udp_receiver.h]).

    The answers of the system calls are arguments, as in [UdpPublisher.v]; the
    constructor also returns the descriptors it opened and closed again. *)

From S2P Require Import Prelude MonitorData MonitorWire Effects UdpPublisher.
#[local] Open Scope tlss_scope.

Inductive UdpReceiveStatus :=
  | RX_SUCCESS | RX_INVALID_ENDPOINT | RX_SOCKET_ERROR | WOULD_BLOCK | RECEIVE_ERROR
  | RX_DATAGRAM_TOO_LARGE | DECODE_ERROR.

#[export] Instance UdpReceiveStatus_eq_dec : EqDecision UdpReceiveStatus.
Proof. solve_decision. Defined.

Record UdpReceiveResult := mkReceiveResult {
  _rxstatus : UdpReceiveStatus;
  _rxwire_status : WireStatus;
  _rxrecord : option DecodedRecord;
  _bytes_received : Z;
  _rxsystem_error : Z
}.

Definition rx_success (r : UdpReceiveResult) : bool := bool_decide (_rxstatus r = RX_SUCCESS).

Record UdpReceiverConfig := mkReceiverConfig { _bind_address : bytes; _bind_port : Z }.

Record Impl := mkImpl {
  _socket : Z;
  _setup_status : UdpReceiveStatus;
  _setup_error : Z;
  _bound_port : Z
}.

Record UdpReceiver := mkReceiver { _config : UdpReceiverConfig; _impl : Impl }.

(** What the system answers to the constructor: results and [errno] of the calls in
    the order of the code, and the port [getsockname] stores, in network order. *)
Record BindEnv := mkBindEnv {
  rx_pton : Z * Z;
  rx_socket : Z * Z;
  rx_getfl : Z * Z;
  rx_setfl : Z * Z;
  rx_getfd : Z * Z;
  rx_setfd : Z * Z;
  rx_bind : Z * Z;
  rx_getsockname : Z * Z;
  rx_name_port : Z
}.

Definition failed_receiver (config : UdpReceiverConfig) (status : UdpReceiveStatus) (error : Z) : UdpReceiver :=
  mkReceiver config (mkImpl (-1) status error 0).

(** Whether one of two calls, the second made only when the first succeeds, fails,
    and the [errno] it leaves. *)
Definition either_fails (first second : Z * Z) : option Z :=
  if first.1 <? 0 then Some first.2 else if second.1 <? 0 then Some second.2 else None.

(** The receiver, the descriptor it opened and the descriptors it closed. *)
Definition make_receiver (config : UdpReceiverConfig) (env : BindEnv)
    : UdpReceiver * option Z * list Z :=
  if bool_decide (_bind_address config = []) then (failed_receiver config RX_INVALID_ENDPOINT 0, None, []) else
  if negb ((rx_pton env).1 =? 1)
  then (failed_receiver config RX_INVALID_ENDPOINT (if (rx_pton env).1 <? 0 then (rx_pton env).2 else 0), None, [])
  else
  let fd := (rx_socket env).1 in
  if fd <? 0 then (failed_receiver config RX_SOCKET_ERROR (rx_socket env).2, None, []) else
  let closed error := (failed_receiver config RX_SOCKET_ERROR error, Some fd, [fd]) in
  match either_fails (rx_getfl env) (rx_setfl env) with Some error => closed error | None =>
  match either_fails (rx_getfd env) (rx_setfd env) with Some error => closed error | None =>
  if (rx_bind env).1 <? 0 then closed (rx_bind env).2 else
  if (rx_getsockname env).1 <? 0 then closed (rx_getsockname env).2 else
  (mkReceiver config (mkImpl fd RX_SUCCESS 0 (htons (rx_name_port env))), Some fd, [])
  end end.

Definition destroy_receiver (r : UdpReceiver) : option Z :=
  if 0 <=? _socket (_impl r) then Some (_socket (_impl r)) else None.

Definition rx_ready (r : UdpReceiver) : bool :=
  (0 <=? _socket (_impl r)) && bool_decide (_setup_status (_impl r) = RX_SUCCESS).

Definition rx_setup_status (r : UdpReceiver) : UdpReceiveStatus := _setup_status (_impl r).
Definition fd (r : UdpReceiver) : Z := _socket (_impl r).
Definition bound_port (r : UdpReceiver) : Z := _bound_port (_impl r).

(** What is waiting on the socket: a datagram, or an error. *)
Inductive Arrival := Arrived (datagram : bytes) | ReceiveFailed (errno : Z).

(** [recvfrom] into a buffer of one byte more than a datagram may have; what does not
    fit is cut off. [None] is undefined behaviour of the decoder. *)
Definition receive_one (r : UdpReceiver) (arrival : Arrival) : option UdpReceiveResult :=
  if negb (rx_ready r)
  then Some (mkReceiveResult (_setup_status (_impl r)) MonitorWire.SUCCESS None 0 (_setup_error (_impl r)))
  else
  match arrival with
  | ReceiveFailed errno =>
      Some (mkReceiveResult (if errno =? EAGAIN then WOULD_BLOCK else RECEIVE_ERROR)
              MonitorWire.SUCCESS None 0 errno)
  | Arrived datagram =>
      let buffer := take (Z.to_nat (V2_MAX_DATAGRAM_SIZE + 1)) datagram in
      let received_size := ♯buffer in
      if V2_MAX_DATAGRAM_SIZE <? received_size
      then Some (mkReceiveResult RX_DATAGRAM_TOO_LARGE DATAGRAM_TOO_LARGE None received_size 0) else
      decoded ← decode (Some buffer);
      match _dstatus decoded with
      | MonitorWire.SUCCESS =>
          Some (mkReceiveResult RX_SUCCESS MonitorWire.SUCCESS (_drecord decoded) received_size 0)
      | status => Some (mkReceiveResult DECODE_ERROR status None received_size 0)
      end
  end.
