(* ===== verification/UdpClaims.v ===== *)
(** What sending and receiving metrics over UDP promise, and the way of a metric from
    the store of one engine to that of another. *)

From S2P Require Import Prelude MonitorData MonitorWire MonitorStore ModuleRegistry MonitorReporter Effects Engine UdpPublisher UdpReceiver.
#[local] Open Scope tlss_scope.

(** ** Setting up *)

(** The receiver holds a descriptor exactly when it is ready, and what it opened and
    does not hold it has closed. *)
Lemma make_receiver_socket config env r opened closed :
  make_receiver config env = (r, opened, closed) →
  (rx_ready r = true → destroy_receiver r = opened ∧ is_Some opened ∧ closed = [])
  ∧ (rx_ready r = false → destroy_receiver r = None ∧ closed = option_list opened ∧ rx_setup_status r ≠ RX_SUCCESS).
Proof.
  assert (∀ st e o, st ≠ RX_SUCCESS → (failed_receiver config st e, o, option_list o) = (r, opened, closed) →
    (rx_ready r = true → destroy_receiver r = opened ∧ is_Some opened ∧ closed = [])
    ∧ (rx_ready r = false → destroy_receiver r = None ∧ closed = option_list opened
         ∧ rx_setup_status r ≠ RX_SUCCESS)) as Hfail.
  { intros st e o Hst [= <- <- <-]. split; [done|]. intros _. by split. }
  unfold make_receiver. case_bool_decide; [by apply (Hfail _ _ None)|].
  destruct (negb _); [by apply (Hfail _ _ None)|].
  destruct ((rx_socket env).1 <? 0) eqn:E; [by apply (Hfail _ _ None)|].
  destruct (either_fails (rx_getfl env) _); [by apply (Hfail _ _ (Some _))|].
  destruct (either_fails (rx_getfd env) _); [by apply (Hfail _ _ (Some _))|].
  destruct ((rx_bind env).1 <? 0); [by apply (Hfail _ _ (Some _))|].
  destruct ((rx_getsockname env).1 <? 0); [by apply (Hfail _ _ (Some _))|]. ztests.
  intros [= <- <- <-]. unfold rx_ready, destroy_receiver. cbn.
  rewrite (proj2 (Z.leb_le _ _)) by done. split; [|done]. intros _. split; [done|]. by split; [eexists|].
Qed.

(** Receiving is total and exact. For every datagram that arrives at a receiver
    that is ready, [receive_one] returns without undefined behaviour; it reports a
    record exactly when the datagram has at most 1200 bytes and the codec accepts
    it, and then the codec's record; a longer datagram is reported as too large and
    never as a record of its first bytes; and what could not be decoded carries the
    reason of the codec. *)
Theorem udp_receive_exact r datagram :
  rx_ready r = true → bytes_ok datagram →
  ∃ res, receive_one r (Arrived datagram) = Some res
    ∧ (_rxstatus res = RX_SUCCESS ↔ is_Some (_rxrecord res))
    ∧ (∀ d, _rxrecord res = Some d ↔
         ♯datagram <= V2_MAX_DATAGRAM_SIZE ∧ decode (Some datagram) = Some (mkDecode MonitorWire.SUCCESS (Some d)))
    ∧ (_rxstatus res = RX_DATAGRAM_TOO_LARGE ↔ V2_MAX_DATAGRAM_SIZE < ♯datagram)
    ∧ (_rxstatus res = DECODE_ERROR → ∃ st, st ≠ MonitorWire.SUCCESS ∧ _rxwire_status res = st
         ∧ ∃ d, decode (Some datagram) = Some d ∧ _dstatus d = st).
Proof.
  intros Hr Hok. unfold receive_one. rewrite Hr. cbn [negb].
  set (n := Z.to_nat (V2_MAX_DATAGRAM_SIZE + 1)).
  assert (♯(take n datagram) = Z.min (V2_MAX_DATAGRAM_SIZE + 1) (♯datagram)) as Hlen.
  { unfold Zlen. rewrite length_take. unfold n, V2_MAX_DATAGRAM_SIZE. lia. }
  destruct (V2_MAX_DATAGRAM_SIZE <? ♯(take n datagram)) eqn:E; ztests.
  { eexists. split; [done|]. cbn. split; [split; [done|by intros [? ?]]|].
    split; [intros d; split; [done|intros [? _]; lia]|]. split; [split; [intros _; lia|done]|done]. }
  assert (take n datagram = datagram) as ->.
  { apply take_ge. unfold n, Zlen, V2_MAX_DATAGRAM_SIZE in *. lia. }
  destruct (wire_decode_safe datagram Hok) as (res & Hres & Hcons).
  rewrite Hres. cbn [mbind option_bind]. unfold result_consistent in Hcons.
  destruct res as [st rec]. cbn [_dstatus _drecord] in *.
  destruct rec as [d0|]; [assert (st = MonitorWire.SUCCESS) as -> by (apply Hcons; by eexists)
                         |assert (st ≠ MonitorWire.SUCCESS) as Hne by (intros E'; by apply Hcons in E' as [? ?])].
  - eexists. split; [done|]. cbn. split; [split; [intros _; by apply Hcons|done]|].
    split; [intros d; split; [intros ->; split; [lia|done]|by intros [_ [= ->]]]|].
    split; [split; [done|lia]|done].
  - exists (mkReceiveResult DECODE_ERROR st None (♯datagram) 0). split; [by destruct st|]. cbn.
    split; [split; [done|by intros [? ?]]|]. split; [intros d; split; [done|intros [_ [= _ ?]]; done]|].
    split; [split; [done|lia]|]. intros _. exists st. split; [done|]. split; [done|]. by eexists.
Qed.

(** A receiver of an address that could be bound. *)
Definition demo_receiver : UdpReceiver :=
  (make_receiver (mkReceiverConfig [49] 9300)
     (mkBindEnv (1, 0) (5, 0) (0, 0) (0, 0) (0, 0) (0, 0) (0, 0) (0, 0) 21540)).1.1.

Lemma udp_receive_exact_witness :
  rx_ready demo_receiver = true ∧
  ∃ res, receive_one demo_receiver (Arrived [3; 1; 2]) = Some res ∧ _rxstatus res = DECODE_ERROR.
Proof.
  split; [reflexivity|].
  destruct (udp_receive_exact demo_receiver [3; 1; 2]) as (res & Hres & _); [reflexivity|by repeat constructor|].
  exists res. split; [exact Hres|]. vm_compute in Hres. by injection Hres as <-.
Defined.

(** ** From one store to another *)

(** The two formats, as one size: what the version of the publisher can carry. *)
Definition carried (version : WireVersion) (r : StoredRecord) : option DecodedRecord :=
  match version with
  | V1 => Some (mkDecoded V1 (v1_visible (_data r)) None)
  | V2 => Some (mkDecoded V2 (_data r) (Some (_changed_at r)))
  | OtherVersion _ => None
  end.

Lemma sent_decodes version r bs :
  record_ok r → encode r version = Some (mkEncode MonitorWire.SUCCESS bs) →
  ∃ d, carried version r = Some d ∧ ♯bs <= V2_MAX_DATAGRAM_SIZE ∧ bytes_ok bs
    ∧ decode (Some bs) = Some (mkDecode MonitorWire.SUCCESS (Some d)).
Proof.
  intros Hr He. assert (_mvalue (_data r) ≠ VValueless) as Hv.
  { intros E. destruct version; cbn [encode] in He; [..|done]; unfold encode_v1, encode_v2 in He; by rewrite E in He. }
  destruct version as [| |raw]; [| |done]; cbn [encode] in He; eexists; (split; [done|]).
  - assert (v1_fits r) as Hf.
    { destruct (decide (v1_fits r)) as [?|Hn]; [done|]. exfalso. unfold v1_fits in Hn.
      destruct (_mvalue (_data r)) as [n|s|] eqn:E; [done| |done].
      rewrite (encode_v1_too_long r s E) in He; [done|]. unfold v1_fits. by rewrite E. }
    rewrite encode_v1_fits in He by done. injection He as <-.
    pose proof (v1_datagram_size r Hf). unfold V1_MAX_DATAGRAM_SIZE, V2_MAX_DATAGRAM_SIZE in *.
    split; [lia|]. split; [by apply v1_datagram_ok|].
    destruct (v1_datagram_head r Hf) as [rest Hh]. rewrite Hh, decode_dispatch_v1, <- Hh. by apply decode_v1_datagram.
  - destruct (Z.le_gt_cases (v2_size r) V2_MAX_DATAGRAM_SIZE) as [Hs|Hs]; cycle 1.
    { rewrite encode_v2_too_large in He by done. done. }
    rewrite encode_v2_fits in He by (done || apply Hr). injection He as <-.
    rewrite v2_datagram_size. split; [done|]. split; [by apply v2_datagram_ok|].
    destruct (v2_datagram_head r) as [rest Hh]. rewrite Hh, decode_dispatch_v2, <- Hh. by apply decode_v2_datagram.
Qed.

Lemma send_success p record sent errno res handed :
  (ready p = true ↔ setup_status p = SUCCESS) →
  send p record sent errno = Some (res, handed) → _status res = SUCCESS →
  ∃ bs, encode record (_version (UdpPublisher._config p)) = Some (mkEncode MonitorWire.SUCCESS bs)
    ∧ handed = [mkDatagram (_destination (UdpPublisher._impl p)) bs] ∧ _bytes_sent res = ♯bs.
Proof.
  intros Hst Hsend Hok. unfold send in Hsend. destruct (ready p) eqn:Er; cbn [negb] in Hsend; cycle 1.
  { injection Hsend as <- <-. cbn in Hok. by apply Hst in Hok. }
  destruct (encode record _) as [[st bs]|]; [|done]. cbn [mbind option_bind _estatus _bytes] in Hsend.
  destruct st; try (injection Hsend as <- <-; done). exists bs. split; [done|].
  destruct (sent <? 0); [injection Hsend as <- <-; done|]. destruct (sent =? ♯bs) eqn:E; cbn [negb] in Hsend;
    injection Hsend as <- <-; [|done]. ztests. done.
Qed.

Lemma receive_decoded r datagram d :
  rx_ready r = true → ♯datagram <= V2_MAX_DATAGRAM_SIZE →
  decode (Some datagram) = Some (mkDecode MonitorWire.SUCCESS (Some d)) →
  receive_one r (Arrived datagram)
  = Some (mkReceiveResult RX_SUCCESS MonitorWire.SUCCESS (Some d) (♯datagram) 0).
Proof.
  intros Hr Hlen Hd. unfold receive_one. rewrite Hr. cbn [negb].
  rewrite take_ge by (unfold Zlen, V2_MAX_DATAGRAM_SIZE in *; lia).
  rewrite (proj2 (Z.ltb_ge _ _)) by done. by rewrite Hd.
Qed.

Section Delivery.
Context {W : Type}.

(** What the ingestion of a decoded record leaves in the store of an engine that has
    no publisher of its own. *)
Lemma ingest_stores (e : Engine W) c w now d force :
  accepts_data_write (_phase e) = true → _context e = Some c → _cpublisher c = None →
  _mvalue (_ddata d) ≠ VValueless →
  let stored := mkStored (_ddata d) (default now (_dchanged_at d)) in
  is_news (_store c) (_ddata d) force = true →
  ∃ res, ingest_decoded_record e true w now d force
    = (Some (mkUpdateResult res (Some stored)),
       with_store e c (<[_key (_ddata d) := stored]> (_store c)), w)
    ∧ (res = INSERTED ∨ res = UPDATED).
Proof.
  intros Hp Hc Hpub Hv stored Hnews. unfold ingest_decoded_record, update_data, update_data_at, writing.
  rewrite Hp, Hc. cbn [negb]. unfold reporter_update, reporter, update. cbn [_publisher]. rewrite Hpub.
  subst stored. destruct (_dchanged_at d) as [ts|]; cbn [default];
    rewrite update_impl_table by done; cbv zeta; rewrite Hnews; cbn [run_prepare _ustatus _record];
    destruct (_store c !! _key (_ddata d)); cbn; eexists; (split; [done|]); auto.
Qed.

End Delivery.

(** A record of the sender; the engine of the receiver. *)
Definition demo_record : StoredRecord :=
  mkStored (mkData (mkKey 4096 0 1 1) [99] (VNumeric (mkNumeric 7 0))) 1700000000000000000.
Definition demo_engine : Engine unit := mkEngine RUNNING empty_registry (Some (mkContext ∅ None None)).
Definition demo_config : UdpPublisherConfig := mkPublisherConfig (mkEndpoint [49] 9300) V2.

