(* ===== verification/CliRegistry.v ===== *)
(** The commands of the console: how a line is split and dispatched
    ([src/monitor/cli_registry.cpp], [inc/monitor/cli_registry.h],
    [inc/monitor/cli_types.h]) and the prompt ([src/monitor/cli_prompt.cpp],
    [inc/monitor/cli_prompt.h]).

    A handler may itself query the registry or register commands, so the registry
    holds names of handlers, of a type [H], and [call] says what a handler does to the
    session, the registry and a world [W]; no output is an exception. *)

From Stdlib Require Import String.
From S2P Require Import Prelude FileSystem.
#[local] Open Scope tlss_scope.

Definition CLI_MAX_LINE_SIZE : Z := 255.
Definition CLI_MAX_TOKENS : Z := 8.
Definition CLI_MAX_CLIENTS : Z := 8.
Definition CLI_PROMPT_NAME_MAX : Z := 63.

Inductive CliRegisterStatus := CREG_SUCCESS | CREG_INVALID_NAME | INVALID_HANDLER | DUPLICATE_COMMAND.

Inductive CliDispatchStatus :=
  | DISPATCHED | EMPTY_INPUT | UNKNOWN_COMMAND | TOO_MANY_TOKENS | LINE_TOO_LONG | HANDLER_ERROR.

Record CliSessionContext := mkSessionContext {
  _selected_mid : option Z;
  _selected_module_name : bytes
}.

Definition new_session_context : CliSessionContext := mkSessionContext None [].
Definition clear_module (c : CliSessionContext) : CliSessionContext := mkSessionContext None [].
Definition has_selected_module (c : CliSessionContext) : bool := bool_decide (is_Some (_selected_mid c)).

Record CliDispatchResult := mkDispatch { _dispatch_status : CliDispatchStatus; _output : bytes }.
Record CliCommandInfo := mkInfo { _command_name : bytes; _command_help : bytes }.

(** ** Lines *)

(** [isspace] of the C locale. *)
Definition is_cli_space (c : Z) : bool := ((9 <=? c) && (c <=? 13)) || (c =? 32).

Definition is_valid_command_name (name : bytes) : bool :=
  if bool_decide (name = []) then false else forallb (λ c, negb (is_cli_space c)) name.

(** The position moves over the characters that satisfy [p]: what it passed and what
    is left of the line. *)
Fixpoint advance (p : Z → bool) (line : bytes) : bytes * bytes :=
  match line with
  | [] => ([], [])
  | c :: rest =>
      if p c then let '(passed, ahead) := advance p rest in (c :: passed, ahead) else ([], line)
  end.

(** One round takes a token; the bound is the length of the line. *)
Fixpoint tokenize_loop (fuel : nat) (line : bytes) (tokens : list bytes) : bool * list bytes :=
  match fuel with
  | O => (true, tokens)
  | S fuel =>
      let '(_, line) := advance is_cli_space line in
      match line with
      | [] => (true, tokens)
      | _ =>
          let '(token, line) := advance (λ c, negb (is_cli_space c)) line in
          if ♯tokens =? CLI_MAX_TOKENS then (false, tokens)
          else tokenize_loop fuel line (tokens ++ [token])
      end
  end.

Definition tokenize (line : bytes) : bool * list bytes := tokenize_loop (length line) line [].

(** ** The registry *)

Section Registry.
Context {H W : Type}.

Record Command := mkCommand { _help : bytes; _handler : H }.
Definition CliRegistry : Type := gmap bytes Command.

(** What a handler does: its output, or an exception, and the state it leaves. *)
Definition Calls : Type :=
  H → CliSessionContext → list bytes → CliRegistry → W →
  option bytes * CliSessionContext * CliRegistry * W.

(** [handler] is [None] for an empty [std::function]; the overload for handlers that
    do not take the session makes the same checks and calls this one. *)
Definition register_command (reg : CliRegistry) (name help : bytes) (handler : option H)
    : CliRegisterStatus * CliRegistry :=
  if negb (is_valid_command_name name) then (CREG_INVALID_NAME, reg) else
  match handler with
  | None => (INVALID_HANDLER, reg)
  | Some handler =>
      match reg !! name with
      | Some _ => (DUPLICATE_COMMAND, reg)
      | None => (CREG_SUCCESS, <[name := mkCommand help handler]> reg)
      end
  end.

Definition line_too_long_result : CliDispatchResult :=
  mkDispatch LINE_TOO_LONG (literal "error: line too long" ++ [10]).
Definition too_many_tokens_result : CliDispatchResult :=
  mkDispatch TOO_MANY_TOKENS (literal "error: too many tokens" ++ [10]).
Definition empty_input_result : CliDispatchResult := mkDispatch EMPTY_INPUT [].
Definition unknow_command_result (command : bytes) : CliDispatchResult :=
  mkDispatch UNKNOWN_COMMAND (literal "unknown command: " ++ command ++ [10]).
Definition handler_error_result : CliDispatchResult :=
  mkDispatch HANDLER_ERROR (literal "error: command failed" ++ [10]).

(** [dispatch]; no result is the exception of an allocation outside the handler. *)
Definition dispatch (call : Calls) (alloc_ok : bool) (reg : CliRegistry) (line : bytes)
    (context : CliSessionContext) (w : W)
    : option CliDispatchResult * CliSessionContext * CliRegistry * W :=
  if negb alloc_ok then (None, context, reg, w) else
  let answer r := (Some r, context, reg, w) in
  if CLI_MAX_LINE_SIZE <? ♯line then answer line_too_long_result else
  match tokenize line with
  | (false, _) => answer too_many_tokens_result
  | (true, []) => answer empty_input_result
  | (true, name :: arguments) =>
      match reg !! name with
      | None => answer (unknow_command_result name)
      | Some command =>
          match call (_handler command) context arguments reg w with
          | (Some output, context, reg, w) => (Some (mkDispatch DISPATCHED output), context, reg, w)
          | (None, context, reg, w) => (Some handler_error_result, context, reg, w)
          end
      end
  end.

(** In the order of [std::map], which is that of the names. *)
Definition commands (reg : CliRegistry) : list CliCommandInfo :=
  map (λ entry, mkInfo entry.1 (_help entry.2)) (sorted_entries string_le reg).

End Registry.
#[global] Arguments Command : clear implicits.
#[global] Arguments CliRegistry : clear implicits.
#[global] Arguments Calls : clear implicits.

(** ** The prompt *)

Definition is_valid_prompt_character (c : Z) : bool :=
  ((97 <=? c) && (c <=? 122)) || ((65 <=? c) && (c <=? 90)) || ((48 <=? c) && (c <=? 57))
  || (c =? 45) || (c =? 95) || (c =? 46).

Definition is_valid_cli_prompt_name (name : bytes) : bool :=
  if bool_decide (name = []) || (CLI_PROMPT_NAME_MAX <? ♯name) then false
  else forallb is_valid_prompt_character name.

Definition make_cli_prompt (default_name : bytes) (context : CliSessionContext) : bytes :=
  let prompt_name := if has_selected_module context then _selected_module_name context else default_name in
  if negb (is_valid_cli_prompt_name prompt_name) then []
  else literal "[" ++ prompt_name ++ literal "]> ".

(** ** What a line means *)

(** The words of a line: its longest pieces without space, in one pass over it, with
    the piece that is being read. *)
Fixpoint words_from (piece line : bytes) : list bytes :=
  let finished := if bool_decide (piece = []) then [] else [piece] in
  match line with
  | [] => finished
  | c :: rest => if is_cli_space c then finished ++ words_from [] rest else words_from (piece ++ [c]) rest
  end.
Definition words : bytes → list bytes := words_from [].

Lemma advance_spec p line passed ahead :
  advance p line = (passed, ahead) →
  line = passed ++ ahead ∧ Forall (λ c, p c = true) passed
  ∧ match ahead with [] => True | c :: _ => p c = false end.
Proof.
  revert passed ahead. induction line as [|c line IH]; cbn [advance]; intros passed ahead.
  { intros [= <- <-]. repeat split; constructor. }
  destruct (p c) eqn:E; [|intros [= <- <-]; split; [done|]; by split; [constructor|]].
  destruct (advance p line) as [q r]. intros [= <- <-]. destruct (IH q r eq_refl) as (-> & Hq & Hr).
  split; [done|]. split; [by constructor|done].
Qed.

Lemma words_spaces spaces line : Forall (λ c, is_cli_space c = true) spaces → words (spaces ++ line) = words line.
Proof. unfold words. induction 1 as [|c s Hc _ IH]; [done|]. cbn. by rewrite Hc. Qed.

Lemma words_piece piece token line :
  Forall (λ c, negb (is_cli_space c) = true) token →
  words_from piece (token ++ line) = words_from (piece ++ token) line.
Proof.
  revert piece. induction token as [|c token IH]; intros piece; [by rewrite app_nil_r|].
  intros [Hc Ht]%Forall_cons. cbn. apply negb_true_iff in Hc. rewrite Hc, IH, <- app_assoc by done. done.
Qed.

Lemma words_token token line :
  token ≠ [] → match line with [] => True | c :: _ => is_cli_space c = true end →
  words_from token line = token :: words line.
Proof.
  intros Ht Hl. unfold words. destruct line as [|c line]; cbn; rewrite bool_decide_false by done; [done|].
  by rewrite Hl.
Qed.

Lemma tokenize_loop_spec fuel line tokens :
  (length line <= fuel)%nat → ♯tokens <= CLI_MAX_TOKENS →
  let all := tokens ++ words line in
  tokenize_loop fuel line tokens = (♯all <=? CLI_MAX_TOKENS, take (Z.to_nat CLI_MAX_TOKENS) all).
Proof.
  revert line tokens. induction fuel as [|fuel IH]; intros line tokens Hlen Htok; cbv zeta; cbn [tokenize_loop].
  all: assert (take (Z.to_nat CLI_MAX_TOKENS) tokens = tokens) as Htake
         by (apply take_ge; unfold Zlen, CLI_MAX_TOKENS in *; lia).
  { destruct line; [|cbn in Hlen; lia]. unfold words. cbn. rewrite app_nil_r, Htake.
    by rewrite (proj2 (Z.leb_le _ _)). }
  destruct (advance is_cli_space line) as [spaces line1] eqn:E1. apply advance_spec in E1 as (-> & Hsp & Hl1).
  rewrite words_spaces by done. destruct line1 as [|c line1].
  { unfold words. cbn. rewrite app_nil_r, Htake. by rewrite (proj2 (Z.leb_le _ _)). }
  destruct (advance _ (c :: line1)) as [token line2] eqn:E2. apply advance_spec in E2 as (Heq & Htk & Hl2).
  assert (token ≠ []) as Hne.
  { intros ->. cbn in Heq. subst line2. cbn in Hl2. by rewrite Hl1 in Hl2. }
  assert (words (c :: line1) = token :: words line2) as Hw.
  { rewrite Heq. unfold words at 1. rewrite words_piece by done. apply words_token; [done|].
    destruct line2; [done|]. by apply negb_false_iff. }
  rewrite Hw. destruct (♯tokens =? CLI_MAX_TOKENS) eqn:Em; ztests.
  - assert (length tokens = Z.to_nat CLI_MAX_TOKENS) as Hl by (unfold Zlen, CLI_MAX_TOKENS in *; lia).
    rewrite take_app_length' by done. rewrite (proj2 (Z.leb_gt _ _)); [done|].
    unfold Zlen in *. rewrite length_app. cbn. lia.
  - rewrite IH.
    + by rewrite <- app_assoc.
    + assert (length (c :: line1) = length token + length line2)%nat by (rewrite Heq; apply length_app).
      destruct token; [done|]. rewrite length_app in Hlen. cbn in *. lia.
    + unfold Zlen in *. rewrite length_app. cbn. lia.
Qed.

Lemma tokenize_spec line :
  tokenize line = (♯(words line) <=? CLI_MAX_TOKENS, take (Z.to_nat CLI_MAX_TOKENS) (words line)).
Proof. unfold tokenize. by rewrite tokenize_loop_spec. Qed.
