(* ===== verification/CliCommands.v ===== *)
(** The commands of the console and their texts ([src/monitor/cli_commands.cpp],
    [inc/monitor/cli_commands.h]).

    The commands read the engine and the two alarm channels; the answers of the
    channels' [status] are part of the world of a command. The commands that take the
    registry of modules instead of the engine have the same bodies. *)

From Stdlib Require Import String.
From S2P Require Import Prelude MonitorData MonitorStore ModuleRegistry MonitorReporter FileSystem AlarmSpool ReliablePublisher Engine ReliableCollector CliRegistry.
#[local] Open Scope tlss_scope.

Definition HELP_COMMAND_NAME : bytes := literal "help".
Definition DB_DUMP_COMMAND_NAME : bytes := literal "db_dump".
Definition MODULES_COMMAND_NAME : bytes := literal "modules".
Definition USE_COMMAND_NAME : bytes := literal "use".
Definition ALARM_STATUS_COMMAND_NAME : bytes := literal "alarm_status".
Definition NANOSECONDS_PER_SECOND : Z := 1000000000.

(** A line of text. *)
Definition text (s : string) : bytes := literal s ++ [10].

Definition cli_boolean (value : bool) : bytes := if value then literal "true" else literal "false".

(** [std::to_string] of a signed number. *)
Definition to_string_signed (v : Z) : bytes := if v <? 0 then 45 :: to_string (- v) else to_string v.

(** ** Texts *)

Definition format_modules (modules : list MonitorModuleInfo) : bytes :=
  if bool_decide (modules = []) then text "0 modules" else
  foldl (λ output module,
    output ++ _module_name module ++ literal " mid=" ++ to_string (_module_mid module) ++ [10]) [] modules.

Definition format_help (commands : list CliCommandInfo) : bytes :=
  let maximum_name_length := foldl (λ m c, Nat.max m (length (_command_name c))) O commands in
  foldl (λ output command,
    output ++ _command_name command
    ++ (if bool_decide (_command_help command = []) then []
        else replicate (maximum_name_length - length (_command_name command) + 4) 32 ++ _command_help command)
    ++ [10]) [] commands.

Definition HEX_DIGITS : bytes := literal "0123456789ABCDEF".

Definition escape_byte (c : Z) : bytes :=
  if c =? 34 then [92; 34]
  else if c =? 92 then [92; 92]
  else if c =? 10 then [92; 110]
  else if c =? 13 then [92; 114]
  else if c =? 9 then [92; 116]
  else if (c <? 32) || (c =? 127)
  then [92; 120; HEX_DIGITS !!! Z.to_nat (Z.land (Z.shiftr c 4) 15); HEX_DIGITS !!! Z.to_nat (Z.land c 15)]
  else [c].

Definition escape_cli_text (input : bytes) : bytes := foldl (λ output c, output ++ escape_byte c) [] input.

(** Division and remainder are those of C++, which round towards zero. *)
Definition format_timestamp (timestamp : Z) : bytes :=
  let seconds := Z.quot timestamp NANOSECONDS_PER_SECOND in
  let nanoseconds := Z.rem timestamp NANOSECONDS_PER_SECOND in
  let '(seconds, nanoseconds) :=
    if nanoseconds <? 0 then (seconds - 1, nanoseconds + NANOSECONDS_PER_SECOND) else (seconds, nanoseconds) in
  let fraction := to_string nanoseconds in
  to_string_signed seconds ++ [46] ++ replicate (9 - length fraction) 48 ++ fraction.

Definition format_publisher_status (s : ReliableAlarmPublisherStatus) : bytes :=
  literal "alarm publisher: active=" ++ cli_boolean (_ps_active s)
  ++ literal " connected=" ++ cli_boolean (_ps_connected s)
  ++ literal " collector_host=" ++ _ps_host s
  ++ literal " collector_port=" ++ to_string (_ps_port s)
  ++ (if _ps_available s then
        literal " pending_files=" ++ to_string (_ps_pending_files s)
        ++ literal " pending_bytes=" ++ to_string (_ps_pending_bytes s)
        ++ literal " corrupt_files=" ++ to_string (_ps_corrupt_files s)
      else
        literal " pending_files=unavailable" ++ literal " pending_bytes=unavailable"
        ++ literal " corrupt_files=unavailable" ++ literal " spool_error=" ++ to_string_signed (_ps_spool_error s))
  ++ literal " connect_failures=" ++ to_string (_ps_connect_failures s)
  ++ literal " send_failures=" ++ to_string (_ps_send_failures s)
  ++ literal " ack_timeouts=" ++ to_string (_ps_ack_timeouts s)
  ++ literal " acks=" ++ to_string (_ps_acks s)
  ++ literal " backoff_ms=" ++ to_string_signed (_ps_backoff s) ++ [10].

Definition format_collector_status (s : ReliableAlarmCollectorStatus) : bytes :=
  literal "alarm collector: active=" ++ cli_boolean (_cs_active s)
  ++ literal " clients=" ++ to_string (_cs_clients s)
  ++ literal " rejected_clients=" ++ to_string (_cs_rejected_clients s)
  ++ literal " accepted=" ++ to_string (_cs_accepted s)
  ++ literal " duplicates=" ++ to_string (_cs_duplicates s)
  ++ literal " protocol_errors=" ++ to_string (_cs_protocol_errors s)
  ++ literal " crc_errors=" ++ to_string (_cs_crc_errors s)
  ++ literal " persist_failures=" ++ to_string (_cs_persist_failures s)
  ++ (if _cs_available s then literal " corrupt_files=" ++ to_string (_cs_corrupt_files s)
      else literal " corrupt_files=unavailable" ++ literal " spool_error=" ++ to_string_signed (_cs_spool_error s))
  ++ [10].

Section Commands.
Context {W : Type}.

(** What is appended for a record, without the end of the line; [None] is the
    exception of [std::get] on a value that holds nothing. *)
Definition record_line (record : StoredRecord) (engine : Engine W) : option bytes :=
  let data := _data record in
  let key := _key data in
  value ← match get_if_numeric (_mvalue data) with
          | Some numeric =>
              Some (literal " num=" ++ to_string (_value numeric) ++ literal " state=" ++ to_string (_state numeric))
          | None =>
              s ← get_if_string (_mvalue data);
              Some (literal " str=" ++ [34] ++ escape_cli_text s ++ [34])
          end;
  let display_description :=
    if bool_decide (_description data = []) then
      match find_error (Engine._modules engine) (_mid key) (_eid key) with
      | Some error => _edescription error
      | None => []
      end
    else _description data in
  Some (literal "mid=" ++ to_string (_mid key) ++ literal " lvl=" ++ monitor_level_name (_level key)
        ++ literal " fid=" ++ to_string (_fid key) ++ literal " eid=" ++ to_string (_eid key)
        ++ value ++ literal " desc=" ++ [34] ++ escape_cli_text display_description ++ [34]
        ++ literal " changed_at=" ++ format_timestamp (_changed_at record)).

Definition append_record (output : bytes) (record : StoredRecord) (engine : Engine W) : option bytes :=
  line ← record_line record engine; Some (output ++ line ++ [10]).

Fixpoint append_records (output : bytes) (records : list StoredRecord) (engine : Engine W) : option bytes :=
  match records with
  | [] => Some output
  | record :: rest => output ← append_record output record engine; append_records output rest engine
  end.

Definition format_db_dump (records : list StoredRecord) (engine : Engine W) : option bytes :=
  output ← append_records [] records engine;
  Some (output ++ to_string (♯records)
        ++ (if ♯records <? 2 then text " entry" else text " entries")).

(** ** Handlers *)

Inductive CliHandler := HelpHandler | DbDumpHandler | ModulesHandler | UseHandler | AlarmStatusHandler.

(** What the handlers read. *)
Record Console := mkConsole {
  _console_engine : Engine W;
  _publisher_status : option ReliableAlarmPublisherStatus;
  _collector_status : option ReliableAlarmCollectorStatus
}.

Definition help_command (reg : CliRegistry CliHandler) : bytes := format_help (commands reg).

Definition db_dump_command (engine : Engine W) (context : CliSessionContext) : option bytes :=
  let filter := mkFilter (_selected_mid context) None None None in
  format_db_dump (query_data engine filter) engine.

(** The commands on a registry of modules, and on the one of an engine. *)
Definition registry_modules_command (registry : MonitorModuleRegistry) (arguments : list bytes) : bytes :=
  match arguments with
  | [] => format_modules (modules registry)
  | _ => text "usage: modules"
  end.
Definition modules_command (engine : Engine W) (arguments : list bytes) : bytes :=
  registry_modules_command (Engine._modules engine) arguments.

Definition registry_use_command (registry : MonitorModuleRegistry) (context : CliSessionContext)
    (arguments : list bytes) : bytes * CliSessionContext :=
  match arguments with
  | [] =>
      (if has_selected_module context
       then literal "current module: " ++ _selected_module_name context ++ [10]
       else text "current module: all", context)
  | [requested_name] =>
      if bool_decide (requested_name = literal "all")
      then (text "using module: all", clear_module context) else
      match find_by_name registry requested_name with
      | None => (literal "unknown module: " ++ requested_name ++ [10], context)
      | Some module =>
          (literal "using module: " ++ _module_name module ++ [10],
           mkSessionContext (Some (_module_mid module)) (_module_name module))
      end
  | _ => (text "usage: use <module|all>", context)
  end.
Definition use_command (engine : Engine W) (context : CliSessionContext) (arguments : list bytes)
    : bytes * CliSessionContext :=
  registry_use_command (Engine._modules engine) context arguments.

Definition alarm_status_command (world : Console) (arguments : list bytes) : bytes :=
  match arguments with
  | _ :: _ => text "usage: alarm_status"
  | [] =>
      match _publisher_status world, _collector_status world with
      | None, None => text "alarm channel inactive"
      | publisher, collector =>
          match publisher with Some s => format_publisher_status s | None => [] end
          ++ match collector with Some s => format_collector_status s | None => [] end
      end
  end.

(** The handlers, as the registry calls them. *)
Definition call_command : Calls CliHandler Console := λ handler context arguments reg world,
  match handler with
  | HelpHandler => (Some (help_command reg), context, reg, world)
  | DbDumpHandler => (db_dump_command (_console_engine world) context, context, reg, world)
  | ModulesHandler => (Some (modules_command (_console_engine world) arguments), context, reg, world)
  | UseHandler =>
      let '(output, context) := use_command (_console_engine world) context arguments in
      (Some output, context, reg, world)
  | AlarmStatusHandler => (Some (alarm_status_command world arguments), context, reg, world)
  end.

Definition register_help_command (reg : CliRegistry CliHandler) :=
  register_command reg HELP_COMMAND_NAME (literal "list available commands") (Some HelpHandler).
Definition register_db_dump_command (reg : CliRegistry CliHandler) :=
  register_command reg DB_DUMP_COMMAND_NAME (literal "dump monitor records") (Some DbDumpHandler).
Definition register_modules_command (reg : CliRegistry CliHandler) :=
  register_command reg MODULES_COMMAND_NAME (literal "list registered modules") (Some ModulesHandler).
Definition register_use_command (reg : CliRegistry CliHandler) :=
  register_command reg USE_COMMAND_NAME (literal "select active module") (Some UseHandler).
Definition register_alarm_status_command (reg : CliRegistry CliHandler) :=
  register_command reg ALARM_STATUS_COMMAND_NAME (literal "show reliable alarm channel state") (Some AlarmStatusHandler).

End Commands.
#[global] Arguments Console : clear implicits.
