(* ===== verification/CliClaims.v ===== *)
(** What the console promises: a line means its words, a command reaches its handler
    with its arguments, the text of a record can be read back, a dump has one line per
    record, and a session always has a prompt. *)

From Stdlib Require Import String.
From S2P Require Import Prelude MonitorData MonitorStore ModuleRegistry MonitorReporter FileSystem AlarmSpool Engine CliRegistry CliCommands.
#[local] Open Scope tlss_scope.

(** ** Lines *)

(** Words separated by single spaces. *)
Fixpoint join (l : list bytes) : bytes :=
  match l with [] => [] | [x] => x | x :: rest => x ++ [32] ++ join rest end.

Lemma valid_name_chars name :
  is_valid_command_name name = true → name ≠ [] ∧ Forall (λ c, negb (is_cli_space c) = true) name.
Proof.
  unfold is_valid_command_name. case_bool_decide; [done|]. intros Hf. split; [done|].
  apply Forall_forall. intros c Hc. rewrite forallb_forall in Hf. by apply Hf, list_elem_of_In.
Qed.

Lemma words_join l : Forall (λ t, is_valid_command_name t = true) l → words (join l) = l.
Proof.
  induction 1 as [|t l Ht _ IH]; [done|]. apply valid_name_chars in Ht as [Hne Hf].
  destruct l as [|u l].
  - cbn [join]. rewrite <- (app_nil_r t) at 1. unfold words. rewrite words_piece by done. by rewrite words_token.
  - cbn [join] in *. unfold words. rewrite words_piece by done. cbn [app].
    rewrite words_token by done. f_equal. unfold words. cbn. exact IH.
Qed.

(** Dispatch, for every line: one that is too long is refused before it is looked
    at; else the line means its words, the longest pieces without white space: none
    is no command, more than eight are refused, and otherwise the first is looked up
    and its handler gets exactly the others; a handler that throws is an error of its
    command only, and whatever is refused changes neither session nor registry. *)
Theorem cli_dispatch_exact {H W} (call : Calls H W) reg line context w :
  dispatch call true reg line context w =
  let refused r := (Some r, context, reg, w) in
  if CLI_MAX_LINE_SIZE <? ♯line then refused line_too_long_result else
  if CLI_MAX_TOKENS <? ♯(words line) then refused too_many_tokens_result else
  match words line with
  | [] => refused empty_input_result
  | name :: arguments =>
      match reg !! name with
      | None => refused (unknow_command_result name)
      | Some command =>
          let '(output, context, reg, w) := call (_handler command) context arguments reg w in
          (Some (match output with Some o => mkDispatch DISPATCHED o | None => handler_error_result end),
           context, reg, w)
      end
  end.
Proof.
  unfold dispatch. cbn [negb]. destruct (CLI_MAX_LINE_SIZE <? ♯line); [done|]. rewrite tokenize_spec. cbv zeta.
  destruct (CLI_MAX_TOKENS <? ♯(words line)) eqn:E; ztests.
  { by rewrite (proj2 (Z.leb_gt _ _)). }
  rewrite (proj2 (Z.leb_le _ _)) by done. rewrite take_ge by (unfold Zlen, CLI_MAX_TOKENS in *; lia).
  destruct (words line) as [|name arguments]; [done|]. destruct (reg !! name) as [command|]; [|done].
  by destruct (call _ _ _ _ _) as [[[[output|] ?] ?] ?].
Qed.

(** A command line that is put together from a registered name and at most seven
    arguments without white space reaches that handler with these arguments, in this
    order, and its output comes back. *)
Theorem cli_command_reaches_handler {H W} (call : Calls H W) reg name arguments command context w :
  reg !! name = Some command →
  Forall (λ t, is_valid_command_name t = true) (name :: arguments) →
  ♯arguments <= 7 → ♯(join (name :: arguments)) <= CLI_MAX_LINE_SIZE →
  dispatch call true reg (join (name :: arguments)) context w =
  let '(output, context, reg, w) := call (_handler command) context arguments reg w in
  (Some (match output with Some o => mkDispatch DISPATCHED o | None => handler_error_result end),
   context, reg, w).
Proof.
  intros Hreg Hv Hn Hlen. unfold dispatch. cbn [negb]. rewrite (proj2 (Z.ltb_ge _ _)) by done.
  rewrite tokenize_spec, words_join by done.
  assert (♯(name :: arguments) <= CLI_MAX_TOKENS) as Hk by (rewrite Zlen_cons; unfold CLI_MAX_TOKENS; lia).
  rewrite (proj2 (Z.leb_le _ _)) by done. rewrite take_ge by (unfold Zlen, CLI_MAX_TOKENS in *; lia).
  rewrite Hreg. by destruct (call _ _ _ _ _) as [[[[output|] ?] ?] ?].
Qed.

(** ** The text of a record *)

Definition hex_value (c : Z) : option Z :=
  if (48 <=? c) && (c <=? 57) then Some (c - 48)
  else if (65 <=? c) && (c <=? 70) then Some (c - 55) else None.

(** The reader of a quoted text: up to the quote that is not escaped. *)
Fixpoint read_quoted (l : bytes) : option (bytes * bytes) :=
  let push c r := '(s, rest) ← r; Some (c :: s, rest) in
  match l with
  | [] => None
  | c :: l =>
      if c =? 34 then Some ([], l) else
      if negb (c =? 92) then push c (read_quoted l) else
      match l with
      | d :: l =>
          if d =? 110 then push 10 (read_quoted l) else
          if d =? 114 then push 13 (read_quoted l) else
          if d =? 116 then push 9 (read_quoted l) else
          if d =? 120 then
            match l with
            | h :: k :: l => x ← hex_value h; y ← hex_value k; push (16 * x + y) (read_quoted l)
            | _ => None
            end
          else push d (read_quoted l)
      | [] => None
      end
  end.

Lemma escape_app input : escape_cli_text input = concat (map escape_byte input).
Proof.
  unfold escape_cli_text. enough (∀ out, foldl (λ output c, output ++ escape_byte c) out input
    = out ++ concat (map escape_byte input)) as E by apply E.
  induction input as [|c input IH]; intros out; cbn; [by rewrite app_nil_r|]. by rewrite IH, <- app_assoc.
Qed.

(** The two digits of a byte, and the characters that stand for it; checked for the
    256 of them. *)
Definition byte_prints (c : Z) : bool :=
  match hex_value (HEX_DIGITS !!! Z.to_nat (Z.land (Z.shiftr c 4) 15)),
        hex_value (HEX_DIGITS !!! Z.to_nat (Z.land c 15)) with
  | Some x, Some y => 16 * x + y =? c
  | _, _ => false
  end && forallb (λ x, (32 <=? x) && negb (x =? 127)) (escape_byte c).

Lemma byte_prints_ok c : is_byte c → byte_prints c = true.
Proof.
  intros Hc. assert (forallb byte_prints (map Z.of_nat (seq 0 256)) = true) as Hall by (vm_compute; reflexivity).
  rewrite forallb_forall in Hall. apply Hall, in_map_iff. exists (Z.to_nat c). unfold is_byte in *.
  split; [lia|]. apply in_seq. lia.
Qed.

Lemma read_escaped_byte c tail s rest :
  is_byte c → read_quoted tail = Some (s, rest) → read_quoted (escape_byte c ++ tail) = Some (c :: s, rest).
Proof.
  intros Hc Ht. pose proof (byte_prints_ok c Hc) as Hp. apply andb_true_iff in Hp as [Hx _].
  unfold escape_byte.
  destruct (c =? 34) eqn:E1; ztests; [subst c; cbn; by rewrite Ht|]. destruct (c =? 92) eqn:E2; ztests; [subst c; cbn; by rewrite Ht|].
  destruct (c =? 10) eqn:E3; ztests; [subst c; cbn; by rewrite Ht|]. destruct (c =? 13) eqn:E4; ztests; [subst c; cbn; by rewrite Ht|].
  destruct (c =? 9) eqn:E5; ztests; [subst c; cbn; by rewrite Ht|]. destruct ((c <? 32) || (c =? 127)).
  - cbn [app read_quoted]. change (92 =? 34) with false. change (92 =? 92) with true. cbn [negb].
    change (120 =? 110) with false. change (120 =? 114) with false. change (120 =? 116) with false.
    change (120 =? 120) with true. cbv iota.
    destruct (hex_value (HEX_DIGITS !!! Z.to_nat (Z.land (Z.shiftr c 4) 15))) as [x|]; [|done].
    destruct (hex_value (HEX_DIGITS !!! Z.to_nat (Z.land c 15))) as [y|]; [|done]. ztests.
    cbn [mbind option_bind]. rewrite Ht. cbn. by rewrite Hx.
  - cbn [app read_quoted]. rewrite (proj2 (Z.eqb_neq c 34)), (proj2 (Z.eqb_neq c 92)) by done. cbn [negb]. by rewrite Ht.
Qed.

Lemma read_escaped input rest :
  bytes_ok input → read_quoted (escape_cli_text input ++ 34 :: rest) = Some (input, rest).
Proof.
  rewrite escape_app. induction 1 as [|c input Hc _ IH]; [done|]. cbn [map concat]. rewrite <- app_assoc.
  by apply read_escaped_byte.
Qed.

Lemma escape_prints input :
  bytes_ok input → Forall (λ x, 32 <= x ∧ x ≠ 127) (escape_cli_text input).
Proof.
  rewrite escape_app. induction 1 as [|c input Hc _ IH]; cbn [map concat]; [constructor|].
  apply Forall_app. split; [|done]. pose proof (byte_prints_ok c Hc) as Hp.
  apply andb_true_iff in Hp as [_ Hp]. apply Forall_forall. intros x Hx. rewrite forallb_forall in Hp.
  specialize (Hp x). rewrite <- list_elem_of_In in Hp. specialize (Hp Hx). apply andb_true_iff in Hp as [? Hn].
  apply negb_true_iff in Hn. ztests. done.
Qed.

(** The text of a string or a description in a dump holds no control character, so
    that it stays within its line, and a reader that takes it up to the first quote
    that is not escaped gets back exactly the bytes that were stored, whatever they
    are, and what follows the closing quote. *)
Theorem dump_text_roundtrip input rest :
  bytes_ok input →
  read_quoted (escape_cli_text input ++ 34 :: rest) = Some (input, rest)
  ∧ Forall (λ x, 32 <= x ∧ x ≠ 127) (escape_cli_text input).
Proof. intros Hok. split; [by apply read_escaped|by apply escape_prints]. Qed.

Lemma dump_text_roundtrip_witness :
  escape_cli_text [34; 10; 0; 200] = [92; 34; 92; 110; 92; 120; 48; 48; 200]
  ∧ read_quoted (escape_cli_text [34; 10; 0; 200] ++ 34 :: [32]) = Some ([34; 10; 0; 200], [32]).
Proof. split; [reflexivity|]. apply (dump_text_roundtrip [34; 10; 0; 200] [32]). by repeat constructor. Defined.

(** ** Dumps *)

(** A text that stays within its line. *)
Definition one_line (l : bytes) : Prop := 10 ∉ l.

Lemma one_line_app a b : one_line (a ++ b) ↔ one_line a ∧ one_line b.
Proof. unfold one_line. rewrite elem_of_app. tauto. Qed.

Lemma one_line_Forall (P : Z → Prop) l : (∀ c, P c → c ≠ 10) → Forall P l → one_line l.
Proof. intros HP Hl Hin. rewrite Forall_forall in Hl. by apply (HP 10 (Hl 10 Hin)). Qed.

Lemma one_line_check l : forallb (λ c, negb (c =? 10)) l = true → one_line l.
Proof.
  intros Hf Hin. rewrite forallb_forall in Hf. specialize (Hf 10). rewrite <- list_elem_of_In in Hf.
  by specialize (Hf Hin).
Qed.

Lemma one_line_number v : one_line (to_string v).
Proof. eapply one_line_Forall; [|by apply (decimal_digits 20 v [])]. cbn. intros c. lia. Qed.

Lemma one_line_signed v : one_line (to_string_signed v).
Proof.
  unfold to_string_signed. destruct (v <? 0); [|apply one_line_number].
  intros [?|?]%elem_of_cons; [done|]. by eapply one_line_number.
Qed.

Lemma one_line_escape s : bytes_ok s → one_line (escape_cli_text s).
Proof. intros Hs. eapply one_line_Forall; [|by apply escape_prints]. cbn. intros c. lia. Qed.

Lemma one_line_level l : one_line (monitor_level_name l).
Proof. unfold monitor_level_name. repeat case_match; by apply one_line_check. Qed.

Lemma one_line_timestamp t : one_line (format_timestamp t).
Proof.
  unfold format_timestamp. cbv zeta. destruct (if _ <? 0 then _ else _) as [s n].
  rewrite !one_line_app. split; [apply one_line_signed|]. split; [by intros ?%list_elem_of_singleton|].
  split; [|apply one_line_number]. intros ?%elem_of_replicate. lia.
Qed.

#[local] Hint Resolve one_line_number one_line_signed one_line_escape one_line_level one_line_timestamp : core.

Section Dump.
Context {W : Type}.

(** The texts that an engine can show are bytes. *)
Definition texts_ok (e : Engine W) : Prop :=
  ∀ mid eid err, find_error (Engine._modules e) mid eid = Some err → bytes_ok (_edescription err).

Lemma record_line_ok r (e : Engine W) :
  record_ok r → _mvalue (_data r) ≠ VValueless → texts_ok e →
  ∃ l, record_line r e = Some l ∧ one_line l.
Proof.
  intros [(_ & Hd & Hv) _] Hne Ht. unfold record_line. cbv zeta.
  set (desc := if bool_decide (_description (_data r) = []) then _ else _).
  assert (bytes_ok desc) as Hdesc.
  { subst desc. case_bool_decide; [|done]. destruct (find_error _ _ _) as [err|] eqn:E; [by eapply Ht|constructor]. }
  destruct (_mvalue (_data r)) as [n|s|]; [| |done]; cbn [get_if_numeric get_if_string mbind option_bind value_ok] in *;
    eexists; (split; [done|]); rewrite !one_line_app;
    repeat split; auto; first [by apply one_line_check; vm_compute | by intros ?%list_elem_of_singleton].
Qed.

Lemma append_records_ok (e : Engine W) records : ∀ out,
  Forall (λ r, record_ok r ∧ _mvalue (_data r) ≠ VValueless) records → texts_ok e →
  ∃ ls, append_records out records e = Some (out ++ concat (map (λ l, l ++ [10]) ls))
    ∧ Forall2 (λ r l, record_line r e = Some l) records ls ∧ Forall one_line ls.
Proof.
  induction records as [|r records IH]; intros out Hf Ht; cbn [append_records].
  { exists []. cbn. rewrite app_nil_r. by repeat constructor. }
  apply Forall_cons in Hf as [[Hr Hv] Hf]. unfold append_record.
  destruct (record_line_ok r e Hr Hv Ht) as (l & Hl & Ho). rewrite Hl. cbn [mbind option_bind].
  destruct (IH (out ++ l ++ [10]) Hf Ht) as (ls & -> & H2 & H1). exists (l :: ls).
  split; [cbn [map concat]; by rewrite <- !app_assoc|]. by split; constructor.
Qed.

(** A dump shows exactly the stored records of the selected module, or all of them,
    in the order of their keys, each on one line of its own and followed by the line
    that counts them: no stored text, however it is made, can break a line or add
    one. *)
Theorem db_dump_one_line_each (e : Engine W) c context :
  accepts_data_read (_phase e) = true → _context e = Some c → store_ok (_store c) →
  (∀ k r, _store c !! k = Some r → record_ok r) → texts_ok e →
  ∃ records ls count,
    (∀ r, r ∈ records ↔ _store c !! _key (_data r) = Some r
       ∧ match _selected_mid context with None => True | Some mid => _mid (_key (_data r)) = mid end)
    ∧ StronglySorted (λ a b, key_ltb (_key (_data a)) (_key (_data b)) = true) records
    ∧ Forall2 (λ r l, record_line r e = Some l) records ls
    ∧ count = to_string (♯records) ++ literal (if ♯records <? 2 then " entry" else " entries")
    ∧ Forall one_line (ls ++ [count])
    ∧ db_dump_command e context = Some (concat (map (λ l, l ++ [10]) (ls ++ [count]))).
Proof.
  intros Hp Hc Hok Hrec Ht. unfold db_dump_command, query_data. rewrite Hp, Hc. cbn [negb].
  set (f := mkFilter (_selected_mid context) None None None). set (records := query (_store c) f).
  assert (∀ r, r ∈ records ↔ _store c !! _key (_data r) = Some r
       ∧ match _selected_mid context with None => True | Some mid => _mid (_key (_data r)) = mid end) as Hel.
  { intros r. unfold records. rewrite elem_of_query by done. apply and_iff_compat_l. unfold filter_matches, f.
    cbn. destruct (_selected_mid context) as [mid|]; cbn; rewrite ?andb_true_r; [|done]. by rewrite Z.eqb_eq. }
  destruct (append_records_ok e records []) as (ls & Happ & H2 & H1); [|done|].
  { apply Forall_forall. intros r [Hr _]%Hel. destruct (Hok _ _ Hr) as [_ ?]. eauto. }
  exists records, ls. eexists. split; [done|]. split; [by apply query_sorted|]. split; [done|]. split; [done|].
  split.
  - apply Forall_app. split; [done|]. apply Forall_singleton, one_line_app. split; [done|].
    destruct (♯records <? 2); by apply one_line_check; vm_compute.
  - unfold format_db_dump. rewrite Happ. cbn [mbind option_bind app]. f_equal.
    rewrite map_app, concat_app. cbn [map concat]. rewrite app_nil_r, <- app_assoc. do 2 f_equal.
    by destruct (♯records <? 2).
Qed.
End Dump.

(** ** Sessions *)

Section Session.
Context {W : Type}.

(** Modules are only ever added. *)
Definition extends (a b : Console W) : Prop :=
  ∀ mid m, find_by_id (Engine._modules (_console_engine a)) mid = Some m →
    find_by_id (Engine._modules (_console_engine b)) mid = Some m.

Definition modules_ok (world : Console W) : Prop := registry_ok (Engine._modules (_console_engine world)).

(** A session of a client: lines are dispatched, and meanwhile the engine goes on. *)
Inductive session (reg : CliRegistry CliHandler) : CliSessionContext → Console W → Prop :=
  | SessionStart world : modules_ok world → session reg new_session_context world
  | SessionLine context world alloc_ok line result context' world' :
      session reg context world →
      dispatch call_command alloc_ok reg line context world = (result, context', reg, world') →
      session reg context' world'
  | SessionOther context world world' :
      session reg context world → extends world world' → modules_ok world' → session reg context world'.

(** The selection is nothing or a registered module under its own name. *)
Definition selection_ok (context : CliSessionContext) (world : Console W) : Prop :=
  match _selected_mid context with
  | None => True
  | Some mid => ∃ m, find_by_id (Engine._modules (_console_engine world)) mid = Some m
      ∧ _selected_module_name context = _module_name m
  end.

Lemma use_selection (world : Console W) context arguments output context' :
  modules_ok world → selection_ok context world →
  use_command (_console_engine world) context arguments = (output, context') → selection_ok context' world.
Proof.
  intros [Hid Hname] Hs. unfold use_command, registry_use_command. destruct arguments as [|name [|? ?]]; try (by intros [= <- <-]).
  case_bool_decide; [by intros [= <- <-]|].
  destruct (find_by_name _ name) as [m|] eqn:E; intros [= <- <-]; [|done].
  unfold find_by_name in E. destruct (_id_by_name _ !! name) as [mid|] eqn:En; [|done].
  exists m. split; [|done]. unfold find_by_id. cbn. by destruct (Hid mid m E) as [-> _].
Qed.

Lemma dispatch_selection alloc_ok reg line context (world : Console W) result context' reg' world' :
  modules_ok world → selection_ok context world →
  dispatch call_command alloc_ok reg line context world = (result, context', reg', world') →
  world' = world ∧ selection_ok context' world.
Proof.
  intros Hm Hs. unfold dispatch. destruct alloc_ok; cbn [negb]; [|by intros [= _ <- _ <-]].
  destruct (_ <? _); [by intros [= _ <- _ <-]|].
  destruct (tokenize line) as [[] [|name arguments]]; try (by intros [= _ <- _ <-]).
  destruct (reg !! name) as [[help handler]|]; [|by intros [= _ <- _ <-]]. cbn [_handler].
  destruct handler; cbn [call_command]; try (by intros [= _ <- _ <-]).
  - destruct (db_dump_command _ _); by intros [= _ <- _ <-].
  - destruct (use_command _ _ _) as [output context1] eqn:Eu. intros [= _ <- _ <-]. split; [done|].
    by eapply use_selection.
Qed.

Lemma session_ok reg context world : session reg context world → modules_ok world ∧ selection_ok context world.
Proof.
  induction 1 as [world Hm|context world alloc_ok line result context' world' _ [Hm Hs] Hd|context world world' _ [Hm Hs] He Hm'].
  - by split.
  - destruct (dispatch_selection _ _ _ _ _ _ _ _ _ Hm Hs Hd) as [-> ?]. done.
  - split; [done|]. unfold selection_ok in *. destruct (_selected_mid context) as [mid|]; [|done].
    destruct Hs as (m & Hf & Hn). exists m. split; [by apply He|done].
Qed.

(** Whatever lines a client sends and whatever modules are registered meanwhile, its
    selection is nothing or a module that is registered, under that module's name;
    and there is always a prompt to show, that of the module or that of the server,
    so that no command can lose a session its prompt. *)
Theorem session_always_prompts default_name reg context world :
  is_valid_cli_prompt_name default_name = true → session reg context world →
  selection_ok context world
  ∧ make_cli_prompt default_name context
    = literal "[" ++ (if has_selected_module context then _selected_module_name context else default_name)
      ++ literal "]> ".
Proof.
  intros Hd Hr. destruct (session_ok _ _ _ Hr) as [[Hid _] Hs]. split; [done|]. unfold make_cli_prompt.
  assert (is_valid_cli_prompt_name (if has_selected_module context then _selected_module_name context
    else default_name) = true) as ->; [|done].
  unfold has_selected_module, selection_ok in *. destruct (_selected_mid context) as [mid|]; cbn; [|done].
  destruct Hs as (m & Hf & ->). destruct (Hid mid m Hf) as [_ [Hv _]]. revert Hv.
  unfold is_valid_module_name, is_valid_cli_prompt_name.
  change MONITOR_MODULE_NAME_MAX with CLI_PROMPT_NAME_MAX. destruct (_ || _); [done|].
  case_bool_decide; [done|]. done.
Qed.
End Session.

(** ** Witnesses *)

Definition demo_module : MonitorModuleInfo := mkModule 7 (literal "disk") [] [].
Definition demo_console : Console unit :=
  mkConsole (mkEngine READY (register_all [(demo_module, true)])
    (Some (mkContext (<[store_key := mkStored (mkData store_key [104; 10] (VString [34])) 5]> ∅) None None))) None None.
Definition demo_commands : CliRegistry CliHandler :=
  (register_db_dump_command (register_use_command (register_help_command ∅).2).2).2.

Lemma cli_command_reaches_handler_witness :
  dispatch (W := Console unit) call_command true demo_commands (join [literal "use"; literal "disk"])
    new_session_context demo_console
  = (Some (mkDispatch DISPATCHED (text "using module: disk")),
     mkSessionContext (Some 7) (literal "disk"), demo_commands, demo_console).
Proof.
  etransitivity; [apply (cli_command_reaches_handler call_command demo_commands (literal "use") [literal "disk"]
    (mkCommand (literal "select active module") UseHandler) new_session_context demo_console)|].
  - vm_compute; reflexivity.
  - by repeat constructor.
  - vm_compute; discriminate.
  - vm_compute; discriminate.
  - vm_compute; reflexivity.
Defined.

Lemma session_always_prompts_witness :
  make_cli_prompt (literal "monitor") (mkSessionContext (Some 7) (literal "disk")) = literal "[disk]> ".
Proof.
  etransitivity; [apply (session_always_prompts (literal "monitor") demo_commands
    (mkSessionContext (Some 7) (literal "disk")) demo_console)|reflexivity]; [reflexivity|].
  eapply (SessionLine _ new_session_context demo_console true (join [literal "use"; literal "disk"])).
  - apply SessionStart. apply register_all_ok.
  - vm_compute; reflexivity.
Defined.

Lemma demo_texts_ok : texts_ok (_console_engine demo_console).
Proof.
  intros mid eid err. unfold find_error. cbn [demo_console _console_engine Engine._modules].
  destruct (_by_id (register_all [(demo_module, true)]) !! mid) as [m|] eqn:E; [|done].
  change (_by_id (register_all [(demo_module, true)])) with (<[7 := demo_module]> (∅ : gmap Z MonitorModuleInfo)) in E.
  apply lookup_insert_Some in E as [[_ <-]|[_ Hx]]; [|by rewrite lookup_empty in Hx].
  cbn [demo_module _module_errors]. destruct (_ <=? _); [done|]. by rewrite lookup_nil.
Qed.

Lemma db_dump_one_line_each_witness :
  ∃ ls, Forall one_line ls ∧ db_dump_command (_console_engine demo_console) new_session_context
    = Some (concat (map (λ l, l ++ [10]) ls)).
Proof.
  destruct (db_dump_one_line_each (_console_engine demo_console)
    (mkContext (<[store_key := mkStored (mkData store_key [104; 10] (VString [34])) 5]> ∅) None None)
    new_session_context) as (records & ls & count & _ & _ & _ & _ & Ho & Hd); [reflexivity|reflexivity| | | |].
  - cbn [_store]. intros k r [[<- <-]|[_ Hr]]%lookup_insert_Some; [by split|]. by rewrite lookup_empty in Hr.
  - cbn [_store]. intros k r [[<- <-]|[_ Hr]]%lookup_insert_Some; [by apply (bool_decide_unpack _); vm_compute|].
    by rewrite lookup_empty in Hr.
  - exact demo_texts_ok.
  - exists (ls ++ [count]). split; [exact Ho|exact Hd].
Defined.
