(* ===== verification/CliServer.v ===== *)
(** The server of the console ([src/monitor/cli_server.cpp],
    [inc/monitor/cli_server.h]): the sessions of its clients, how their input is cut
    into lines, and the replies.

    The callbacks of the listener and of the clients run on the engine's thread and
    meet their surroundings one interaction at a time, as in [EngineLoop.v]: an event
    says how far [close] on another thread has come meanwhile, whether the engine
    still accepts work, and what a system call, the clock or the allocator answers.
    A session is held through shared pointers and lives in a store of its own; its
    descriptor is closed when the last of them is gone, which is not modelled. *)

From Stdlib Require Import String.
From S2P Require Import Prelude FileSystem Effects CliRegistry.
#[local] Open Scope tlss_scope.

Definition CLI_READ_BUFFER_SIZE : Z := 4096.
Definition CLI_SEND_TIMEOUT : Z := 100 * NS_PER_MS.
Definition CLI_LINE_TOO_LONG_RESPONSE : bytes := literal "error: line too long" ++ [10].

(** Every line of a reply gets a prefix. *)
Fixpoint format_lines (output : bytes) : bytes :=
  match output with
  | [] => []
  | c :: rest =>
      c :: (if (c =? 10) && negb (bool_decide (rest = [])) then literal "* " else []) ++ format_lines rest
  end.
Definition format_system_reply (output : bytes) : bytes :=
  if bool_decide (output = []) then [] else literal "* " ++ format_lines output.

Definition sid : Type := Z.

Record ClientSession := mkSession {
  _fd : Z;
  _aio_handle : Z;
  _context : CliSessionContext;
  _input : bytes;
  _closing : bool
}.

Definition set_handle (h : Z) (s : ClientSession) : ClientSession :=
  mkSession (_fd s) h (_context s) (_input s) (_closing s).
Definition set_context (c : CliSessionContext) (s : ClientSession) : ClientSession :=
  mkSession (_fd s) (_aio_handle s) c (_input s) (_closing s).
Definition set_input (i : bytes) (s : ClientSession) : ClientSession :=
  mkSession (_fd s) (_aio_handle s) (_context s) i (_closing s).
Definition set_closing (s : ClientSession) : ClientSession :=
  mkSession (_fd s) (_aio_handle s) (_context s) (_input s) true.

(** [ServerState], with the sessions that were ever made and the next one's name. *)
Record ServerState := mkServer {
  _server_closing : bool;
  _sessions : gmap Z sid;
  _max_clients : Z;
  _prompt_name : bytes;
  _made : gmap sid ClientSession;
  _next_sid : sid
}.

Definition new_server (max_clients : Z) (prompt_name : bytes) : ServerState :=
  mkServer false ∅ max_clients prompt_name ∅ 0.

Definition set_sessions (m : gmap Z sid) (s : ServerState) : ServerState :=
  mkServer (_server_closing s) m (_max_clients s) (_prompt_name s) (_made s) (_next_sid s).
Definition set_session (i : sid) (c : ClientSession) (s : ServerState) : ServerState :=
  mkServer (_server_closing s) (_sessions s) (_max_clients s) (_prompt_name s) (<[i := c]> (_made s)) (_next_sid s).

(** The steps of [close_session] that concern the server; the handle to remove. *)
Definition close_session_step (i : sid) (s : ServerState) : option (Z * ServerState) :=
  c ← _made s !! i;
  let s := if bool_decide (_sessions s !! _fd c = Some i) then set_sessions (delete (_fd c) (_sessions s)) s else s in
  if _closing c then Some (0, s) else Some (_aio_handle c, set_session i (set_closing c) s).

(** [close] on another thread: it announces itself, then takes the sessions one by one. *)
Inductive COuter := OuterCloseBegin | OuterCloseNext.

Definition close_step (o : COuter) (s : ServerState) : option ServerState :=
  match o with
  | OuterCloseBegin =>
      Some (mkServer true (_sessions s) (_max_clients s) (_prompt_name s) (_made s) (_next_sid s))
  | OuterCloseNext =>
      match map_to_list (_sessions s) with
      | [] => Some s
      | (fd, i) :: _ => snd <$> close_session_step i (set_sessions (delete fd (_sessions s)) s)
      end
  end.

Fixpoint close_steps (os : list COuter) (s : ServerState) : option ServerState :=
  match os with [] => Some s | o :: os => s ← close_step o s; close_steps os s end.

Record CEvent := mkCEvent {
  ce_outer : list COuter;
  ce_accepts : bool;      (* [accepts_cli_work] of the engine's phase *)
  ce_ret : Z;
  ce_errno : Z;
  ce_now : Z;
  ce_data : bytes;
  ce_revents : Z;
  ce_handle : option Z;   (* what [add_aio] returns *)
  ce_alloc : bool
}.

Inductive CObs :=
  | SawReceived (i : sid) (data : bytes)
  | SawLine (i : sid) (line : bytes)
  | SawSent (i : sid) (data : bytes)
  | SawUnregister (i : sid) (handle : Z).

Section Server.
Context {H W : Type} (call : Calls H W).

Record SWorld := mkSWorld {
  sserver : ServerState;
  scommands : CliRegistry H;
  sworld : W;
  sscript : list CEvent;
  slog : list CObs
}.

#[export] Instance Server_scripted : Scripted SWorld := λ w, length (sscript w).
#[local] Abbreviation Srv := (Eff SWorld).

Definition with_server (s : ServerState) (w : SWorld) : SWorld :=
  mkSWorld s (scommands w) (sworld w) (sscript w) (slog w).

(** After the end of the script the engine no longer accepts work and every call
    fails. *)
Definition last_cevent : CEvent := mkCEvent [] false (-1) EIO 0 [] 0 None true.

Definition tick : Srv CEvent := λ w,
  let e := default last_cevent (head (sscript w)) in
  match close_steps (ce_outer e) (sserver w) with
  | Some s => (Returned e, mkSWorld s (scommands w) (sworld w) (tail (sscript w)) (slog w))
  | None => (Stuck, w)
  end.

Definition record_obs (o : CObs) : Srv unit := λ w,
  (Returned tt, mkSWorld (sserver w) (scommands w) (sworld w) (sscript w) (slog w ++ [o])).
Definition get_server : Srv ServerState := λ w, (Returned (sserver w), w).
Definition put_server (s : ServerState) : Srv unit := λ w, (Returned tt, with_server s w).
Definition get_session (i : sid) : Srv ClientSession := s ← get_server; defined (_made s !! i).
Definition put_session (i : sid) (c : ClientSession) : Srv unit := s ← get_server; put_server (set_session i c s).

(** A change of a session's input, and what was seen of it. *)
Definition put_observed (i : sid) (c : ClientSession) (o : CObs) : Srv unit := λ w,
  (Returned tt, mkSWorld (set_session i c (sserver w)) (scommands w) (sworld w) (sscript w) (slog w ++ [o])).

(** [CliRegistry::dispatch] with the context of the session. *)
Definition dispatch_line (alloc_ok : bool) (i : sid) (line : bytes) : Srv (option CliDispatchResult) := λ w,
  match _made (sserver w) !! i with
  | None => (Stuck, w)
  | Some c =>
      let '(r, context, reg, world) := dispatch call alloc_ok (scommands w) line (_context c) (sworld w) in
      (Returned r, mkSWorld (set_session i (set_context context c) (sserver w)) reg world (sscript w) (slog w))
  end.

(** ** Sending *)

Definition remaining_timeout_ms (deadline now : Z) : Z :=
  if deadline <=? now then 0 else (deadline - now + (NS_PER_MS - 1)) / NS_PER_MS.

(** The wait for room: whether to send again. *)
Definition wait_writable (i : sid) (deadline : Z) : Srv bool :=
  loop (λ _ : unit,
    e ← tick;
    c ← get_session i;
    if _closing c then mret (inr false) else
    if remaining_timeout_ms deadline (ce_now e) <=? 0 then mret (inr false) else
    polled ← tick;
    if 0 <? ce_ret polled then
      if negb (Z.land (ce_revents polled) (Z.lor POLLERR (Z.lor POLLHUP POLLNVAL)) =? 0) then mret (inr false) else
      mret (inr (negb (Z.land (ce_revents polled) POLLOUT =? 0)))
    else
      if ce_ret polled =? 0 then mret (inr false) else
      if ce_errno polled =? EINTR then mret (inl tt) else mret (inr false)) tt.

(** [send_all]; [send] takes at most what it is given. *)
Definition send_all (i : sid) (output : bytes) : Srv bool :=
  c ← get_session i;
  if _fd c <? 0 then mret false else
  start ← tick;
  let deadline := ce_now start + CLI_SEND_TIMEOUT in
  loop (λ rest : bytes,
    if bool_decide (rest = []) then mret (inr true) else
    e ← tick;
    c ← get_session i;
    if _closing c then mret (inr false) else
    if deadline <=? ce_now e then mret (inr false) else
    sent ← tick;
    let n := Z.to_nat (Z.min (ce_ret sent) (♯rest)) in
    if 0 <? ce_ret sent then
      _ ← record_obs (SawSent i (take n rest)); mret (inl (drop n rest))
    else
    if ce_ret sent =? 0 then mret (inr false) else
    if ce_errno sent =? EINTR then mret (inl rest) else
    if negb (ce_errno sent =? EAGAIN) then mret (inr false) else
    again ← wait_writable i deadline;
    mret (if again : bool then inl rest else inr false)) output.

Definition send_prompt (i : sid) : Srv bool :=
  e ← tick;
  s ← get_server;
  c ← get_session i;
  if _fd c <? 0 then mret false else
  if _server_closing s || _closing c || negb (ce_accepts e) then mret false else
  if negb (ce_alloc e) then mret false else
  let prompt := make_cli_prompt (_prompt_name s) (_context c) in
  if bool_decide (prompt = []) then mret false else send_all i prompt.

(** ** Input *)

(** [find('\n')] *)
Definition newline_at (l : bytes) : option nat := fst <$> list_find (λ c, c = 10) l.

(** The end of the content of a line that ends at [newline]: a carriage return before
    it does not belong to it. *)
Definition content_end (input : bytes) (newline : nat) : nat :=
  match newline with
  | O => O
  | S k => if bool_decide (input !! k = Some 13) then k else newline
  end.

Definition too_long (i : sid) : Srv (unit + bool) :=
  _ ← send_all i CLI_LINE_TOO_LONG_RESPONSE; mret (inr false).

Definition process_input (i : sid) : Srv bool :=
  loop (λ _ : unit,
    e ← tick;
    s ← get_server;
    c ← get_session i;
    if _server_closing s || _closing c || negb (ce_accepts e) then mret (inr false) else
    let input := _input c in
    match newline_at input with
    | None =>
        let possible_crlf := (♯input =? CLI_MAX_LINE_SIZE + 1) && bool_decide (last input = Some 13) in
        if (CLI_MAX_LINE_SIZE <? ♯input) && negb possible_crlf then too_long i else mret (inr true)
    | Some newline =>
        let content_size := content_end input newline in
        if CLI_MAX_LINE_SIZE <? Z.of_nat content_size then too_long i else
        if negb (ce_alloc e) then throw BadAlloc else
        let line := take content_size input in
        _ ← put_observed i (set_input (drop (S newline) input) c) (SawLine i line);
        if bool_decide (line = []) then
          ok ← send_prompt i;
          mret (if ok : bool then inl tt else inr false)
        else
        d ← tick;
        result ← dispatch_line (ce_alloc d) i line;
        match result with
        | None => throw BadAlloc
        | Some result =>
            sent ← (if bool_decide (_output result = []) then mret true else
                    r ← tick;
                    if negb (ce_alloc r) then throw BadAlloc else
                    send_all i (format_system_reply (_output result)));
            if negb sent then mret (inr false) else
            ok ← send_prompt i;
            mret (if ok : bool then inl tt else inr false)
        end
    end) tt.

(** ** Sessions *)

Definition close_session (i : sid) : Srv unit :=
  _ ← tick;
  s ← get_server;
  r ← defined (close_session_step i s);
  _ ← put_server r.2;
  if r.1 =? 0 then mret tt else record_obs (SawUnregister i r.1).

Definition handle_client_ready (i : sid) : Srv Z :=
  e ← tick;
  c ← get_session i;
  if _fd c <? 0 then mret 0 else
  if negb (ce_accepts e) then _ ← close_session i; mret 0 else
  _ ← tick;
  c ← get_session i;
  if _closing c then mret 0 else
  catch (loop (λ _ : unit,
    e ← tick;
    let received := take (Z.to_nat CLI_READ_BUFFER_SIZE) (ce_data e) in
    if negb (bool_decide (received = [])) then
      if negb (ce_alloc e) then throw BadAlloc else
      c ← get_session i;
      _ ← put_observed i (set_input (_input c ++ received) c) (SawReceived i received);
      ok ← process_input i;
      if negb ok then _ ← close_session i; mret (inr 0) else mret (inl tt)
    else
    if ce_ret e =? 0 then _ ← close_session i; mret (inr 0) else
    if ce_errno e =? EINTR then mret (inl tt) else
    if ce_errno e =? EAGAIN then mret (inr 0) else
    _ ← close_session i; mret (inr 0)) tt)
    (λ _, _ ← close_session i; mret 0).

(** A session for an accepted descriptor, if there is room for it. *)
Definition admit_client (fd : Z) (s : ServerState) : option (sid * ServerState) :=
  if negb (_server_closing s) && (Z.of_nat (size (_sessions s)) <? _max_clients s)
     && bool_decide (_sessions s !! fd = None)
  then let i := _next_sid s in
       Some (i, mkServer (_server_closing s) (<[fd := i]> (_sessions s)) (_max_clients s) (_prompt_name s)
                  (<[i := mkSession fd 0 new_session_context [] false]> (_made s)) (i + 1))
  else None.

Definition handle_listener_ready : Srv Z :=
  catch (loop (λ _ : unit,
    accepted ← tick;
    let fd := ce_ret accepted in
    if 0 <=? fd then
      e ← tick;
      if negb (ce_accepts e) then mret (inl tt) else
      if negb (ce_alloc e) then throw BadAlloc else
      e ← tick;
      if negb (ce_alloc e) then throw BadAlloc else
      s ← get_server;
      match admit_client fd s with
      | None => mret (inl tt)
      | Some (i, s) =>
          _ ← put_server s;
          e ← tick;
          c ← get_session i;
          let handle := if _closing c || negb (ce_alloc e) then None else ce_handle e in
          match handle with
          | None => _ ← close_session i; mret (inl tt)
          | Some h =>
              _ ← put_session i (set_handle h c);
              ok ← send_prompt i;
              if negb ok then _ ← close_session i; mret (inl tt) else mret (inl tt)
          end
      end
    else
    if ce_errno accepted =? EINTR then mret (inl tt) else mret (inr 0)) tt)
    (λ _, mret 0).

End Server.
