(* ===== verification/CliServerSafety.v ===== *)
(** The server of the console keeps its promises whatever its clients send and however
    [close] interferes: its callbacks return, no more clients than configured are
    admitted, and every client's input is cut into exactly its lines. *)

From Stdlib Require Import String.
From S2P Require Import Prelude FileSystem Effects CliRegistry CliServer.
#[local] Open Scope tlss_scope.

(** ** What was seen of a session *)

Definition received (i : sid) (l : list CObs) : bytes :=
  concat (omap (λ o, match o with SawReceived j d => if j =? i then Some d else None | _ => None end) l).
Definition taken (i : sid) (l : list CObs) : list bytes :=
  omap (λ o, match o with SawLine j d => if j =? i then Some d else None | _ => None end) l.

Definition sent_to (i : sid) (l : list CObs) : bytes :=
  concat (omap (λ o, match o with SawSent j d => if j =? i then Some d else None | _ => None end) l).

Lemma sent_app i l k : sent_to i (l ++ k) = sent_to i l ++ sent_to i k.
Proof. unfold sent_to. by rewrite omap_app, concat_app. Qed.
Lemma received_app i l k : received i (l ++ k) = received i l ++ received i k.
Proof. unfold received. by rewrite omap_app, concat_app. Qed.
Lemma taken_app i l k : taken i (l ++ k) = taken i l ++ taken i k.
Proof. unfold taken. by rewrite omap_app. Qed.

(** A line without a carriage return at its end. *)
Definition content (raw : bytes) : bytes := take (content_end raw (length raw)) raw.

(** What was received is the lines that were taken, each with its end, and the rest. *)
Definition framed (l : list CObs) (i : sid) (input : bytes) : Prop :=
  ∃ raws, received i l = concat (map (λ r, r ++ [10]) raws) ++ input
    ∧ taken i l = map content raws
    ∧ Forall (λ r, 10 ∉ r ∧ ♯(content r) <= CLI_MAX_LINE_SIZE) raws.

(** An input that waits for the end of its line. *)
Definition settled (c : ClientSession) : Prop :=
  _closing c = true ∨ newline_at (_input c) = None ∧ ♯(_input c) <= CLI_MAX_LINE_SIZE + 1.

Record server_ok (l : list CObs) (s : ServerState) : Prop := {
  sv_sessions fd i : _sessions s !! fd = Some i → ∃ c, _made s !! i = Some c ∧ _fd c = fd;
  sv_next : 0 <= _next_sid s;
  sv_made i c : _made s !! i = Some c → 0 <= i < _next_sid s ∧ 0 <= _fd c;
  sv_all i : 0 <= i < _next_sid s → is_Some (_made s !! i);
  sv_room : Z.of_nat (size (_sessions s)) <= Z.max 0 (_max_clients s);
  sv_framed i c : _made s !! i = Some c → framed l i (_input c);
  sv_fresh i : _next_sid s <= i → received i l = [] ∧ taken i l = []
}.

(** ** Lines *)

Lemma newline_at_Some l n : newline_at l = Some n → l = take n l ++ 10 :: drop (S n) l ∧ 10 ∉ take n l ∧ length (take n l) = n.
Proof.
  unfold newline_at. destruct (list_find _ l) as [[k c]|] eqn:E; [|done]. intros [= <-].
  apply list_find_Some in E as (Hl & -> & Hmin). pose proof (lookup_lt_Some _ _ _ Hl) as Hlt. cbn.
  split; [by rewrite <- (take_drop_middle l k 10 Hl) at 1|]. split; [|rewrite length_take; lia].
  intros Hin. apply list_elem_of_lookup in Hin as [j Hj]. apply lookup_take_Some in Hj as [Hj ?]. by eapply Hmin.
Qed.

Lemma newline_at_None l : newline_at l = None ↔ 10 ∉ l.
Proof.
  unfold newline_at. destruct (list_find _ l) as [[k c]|] eqn:E; cbn.
  - apply list_find_Some in E as (Hl & -> & _). split; [done|]. intros Hn. exfalso. apply Hn. by eapply list_elem_of_lookup_2.
  - apply list_find_None in E. rewrite Forall_forall in E. split; [|done]. intros _ Hin. by apply (E 10).
Qed.

Lemma content_end_app raw rest : content_end (raw ++ rest) (length raw) = content_end raw (length raw).
Proof. unfold content_end. destruct raw as [|x raw]; [done|]. cbn [length]. rewrite lookup_app_l by (cbn; lia). done. Qed.

Lemma content_end_le raw : (content_end raw (length raw) <= length raw)%nat.
Proof. unfold content_end. destruct raw as [|x raw]; [done|]. cbn [length]. case_bool_decide; lia. Qed.

(** The line that is taken from an input. *)
Lemma line_content input n :
  newline_at input = Some n →
  take (content_end input n) input = content (take n input)
  ∧ Z.of_nat (content_end input n) = ♯(content (take n input)).
Proof.
  intros Hn. apply newline_at_Some in Hn as (He & _ & Hlen). set (raw := take n input) in *.
  assert (content_end input n = content_end raw (length raw)) as ->.
  { rewrite He, <- Hlen. apply content_end_app. }
  pose proof (content_end_le raw). unfold content, Zlen. split; [|rewrite length_take; lia].
  rewrite He at 1. by rewrite take_app_le.
Qed.

Lemma framed_received l i input d :
  framed l i input → framed (l ++ [SawReceived i d]) i (input ++ d).
Proof.
  intros (raws & Hr & Ht & Hf). exists raws. rewrite received_app, taken_app. cbn. rewrite Z.eqb_refl. cbn.
  rewrite !app_nil_r. split; [by rewrite Hr, <- app_assoc|done].
Qed.

Lemma framed_line l i input n :
  framed l i input → newline_at input = Some n → Z.of_nat (content_end input n) <= CLI_MAX_LINE_SIZE →
  framed (l ++ [SawLine i (take (content_end input n) input)]) i (drop (S n) input).
Proof.
  intros (raws & Hr & Ht & Hf) Hn Hlen. destruct (line_content _ _ Hn) as [Hc Hl].
  pose proof (newline_at_Some _ _ Hn) as (He & Hno & _). exists (raws ++ [take n input]).
  rewrite received_app, taken_app. cbn. rewrite Z.eqb_refl. rewrite !map_app, concat_app. cbn.
  rewrite !app_nil_r. split; [rewrite Hr, He at 1; by rewrite <- !app_assoc|]. split; [by rewrite Ht, Hc|].
  apply Forall_app. split; [done|]. apply Forall_singleton. split; [done|lia].
Qed.

(** Observations of other sessions. *)
Definition concerns (i : sid) (o : CObs) : bool :=
  match o with SawReceived j _ | SawLine j _ => j =? i | _ => false end.

Lemma seen_other l i o : concerns i o = false → received i (l ++ [o]) = received i l ∧ taken i (l ++ [o]) = taken i l.
Proof.
  intros Ho. rewrite received_app, taken_app. destruct o; cbn in *; rewrite ?Ho; cbn; by rewrite !app_nil_r.
Qed.

Lemma framed_other l i o input : concerns i o = false → framed l i input → framed (l ++ [o]) i input.
Proof. intros Ho. unfold framed. by destruct (seen_other l i o Ho) as [-> ->]. Qed.

(** ** Steps of the server *)

(** What a step of another thread leaves of the sessions. *)
Definition same_session (c c' : ClientSession) : Prop :=
  _fd c' = _fd c ∧ _input c' = _input c ∧ _context c' = _context c ∧ (_closing c = true → _closing c' = true).
Definition same_sessions (s s' : ServerState) : Prop :=
  ∀ i c, _made s !! i = Some c → ∃ c', _made s' !! i = Some c' ∧ same_session c c'.

Lemma same_sessions_refl s : same_sessions s s.
Proof. intros i c Hc. by exists c. Qed.

Lemma same_sessions_trans s s1 s2 : same_sessions s s1 → same_sessions s1 s2 → same_sessions s s2.
Proof.
  intros H1 H2 i c Hc. destruct (H1 i c Hc) as (c1 & Hc1 & ? & ? & ? & ?).
  destruct (H2 i c1 Hc1) as (c2 & Hc2 & ? & ? & ? & ?). exists c2. split; [done|]. repeat split; try congruence. auto.
Qed.

(** A change of one session. *)
Lemma session_changed l s i c c' :
  server_ok l s → _made s !! i = Some c → _fd c' = _fd c → framed l i (_input c') → server_ok l (set_session i c' s).
Proof.
  intros [S P M A R F N] Hc Hfd Hf. split; cbn; [|done| | |done| |done].
  - intros fd j Hj. destruct (S fd j Hj) as (d & Hd & Hfdd). destruct (decide (j = i)) as [->|Hne].
    + exists c'. rewrite lookup_insert_eq. split; [done|]. rewrite Hc in Hd. injection Hd as <-. congruence.
    + exists d. by rewrite lookup_insert_ne.
  - intros j d [[<- <-]|[_ Hd]]%lookup_insert_Some; [|by apply M]. rewrite Hfd. by apply (M i c).
  - intros j Hj. apply lookup_insert_is_Some'. right. by apply A.
  - intros j d [[<- <-]|[_ Hd]]%lookup_insert_Some; [done|by apply F].
Qed.

(** A change of one session that was seen. *)
Lemma session_observed l s i c c' o :
  server_ok l s → _made s !! i = Some c → _fd c' = _fd c → (∀ j, j ≠ i → concerns j o = false) →
  framed (l ++ [o]) i (_input c') → server_ok (l ++ [o]) (set_session i c' s).
Proof.
  intros [S P M A R F N] Hc Hfd Ho Hf. split; cbn; [|done| | |done| |].
  - intros fd j Hj. destruct (S fd j Hj) as (d & Hd & Hfdd). destruct (decide (j = i)) as [->|Hne].
    + exists c'. rewrite lookup_insert_eq. split; [done|]. rewrite Hc in Hd. injection Hd as <-. congruence.
    + exists d. by rewrite lookup_insert_ne.
  - intros j d [[<- <-]|[_ Hd]]%lookup_insert_Some; [|by apply M]. rewrite Hfd. by apply (M i c).
  - intros j Hj. apply lookup_insert_is_Some'. right. by apply A.
  - intros j d [[<- <-]|[Hne Hd]]%lookup_insert_Some; [done|]. apply framed_other; [by apply Ho|by apply F].
  - intros j Hj. destruct (M i c Hc) as [Hi _]. destruct (seen_other l j o) as [-> ->]; [apply Ho; lia|by apply N].
Qed.

Lemma session_erased l s m : server_ok l s → (∀ fd i, m !! fd = Some i → _sessions s !! fd = Some i) →
  (size m <= size (_sessions s))%nat → server_ok l (set_sessions m s).
Proof. intros [S P M A R F N] Hm Hs. split; cbn; try done; [intros fd i Hi; by apply S, Hm|lia]. Qed.

Lemma session_deleted l s fd : server_ok l s → server_ok l (set_sessions (delete fd (_sessions s)) s).
Proof.
  intros Hs. apply session_erased; [done| |].
  - intros fd' i Hi. by apply lookup_delete_Some in Hi as [_ ?].
  - apply map_subseteq_size, delete_subseteq.
Qed.

Lemma close_session_ok l s i c :
  server_ok l s → _made s !! i = Some c →
  ∃ h s' c', close_session_step i s = Some (h, s') ∧ server_ok l s' ∧ same_sessions s s'
    ∧ _made s' !! i = Some c' ∧ _closing c' = true ∧ _next_sid s' = _next_sid s.
Proof.
  intros Hs Hc. unfold close_session_step. rewrite Hc. cbn [mbind option_bind].
  set (s1 := if bool_decide (_sessions s !! _fd c = Some i) then _ else s).
  assert (server_ok l s1 ∧ _made s1 = _made s ∧ _next_sid s1 = _next_sid s) as (H1 & Hm & Hn).
  { subst s1. case_bool_decide; [|done]. split; [by apply session_deleted|done]. }
  assert (same_sessions s s1) as Hsame by (intros j d; rewrite Hm; by exists d).
  destruct (_closing c) eqn:E.
  - eexists _, s1, c. split; [done|]. split; [done|]. split; [done|]. by rewrite Hm.
  - eexists _, _, (set_closing c). split; [done|]. split; [|split; [|split; [cbn; by rewrite lookup_insert_eq|done]]].
    + eapply session_changed; [done|by rewrite Hm|done|]. exact (sv_framed _ _ Hs i c Hc).
    + intros j d Hd. destruct (decide (j = i)) as [->|Hne]; cbn; rewrite Hm.
      * rewrite Hc in Hd. injection Hd as <-. exists (set_closing c). rewrite lookup_insert_eq. by repeat split.
      * exists d. by rewrite lookup_insert_ne.
Qed.

Lemma close_step_ok l s o :
  server_ok l s → ∃ s', close_step o s = Some s' ∧ server_ok l s' ∧ same_sessions s s' ∧ _next_sid s' = _next_sid s.
Proof.
  intros Hs. destruct o; cbn [close_step].
  - eexists. split; [done|]. split; [|split; [intros j d Hd; by exists d|done]]. destruct Hs as [S P M A R F N]. by split.
  - destruct (map_to_list (_sessions s)) as [|[fd i] rest] eqn:E.
    { exists s. split; [done|]. split; [done|]. split; [apply same_sessions_refl|done]. }
    assert (_sessions s !! fd = Some i) as Hi by (apply elem_of_map_to_list; rewrite E; by left).
    destruct (sv_sessions _ _ Hs fd i Hi) as (c & Hc & _).
    destruct (close_session_ok l (set_sessions (delete fd (_sessions s)) s) i c) as (h & s' & c' & -> & Hok & Hsame & _ & _ & Hn);
      [by apply session_deleted|done|]. exists s'. by split.
Qed.

Lemma close_steps_ok l os : ∀ s, server_ok l s →
  ∃ s', close_steps os s = Some s' ∧ server_ok l s' ∧ same_sessions s s' ∧ _next_sid s' = _next_sid s.
Proof.
  induction os as [|o os IH]; intros s Hs; cbn [close_steps].
  { exists s. split; [done|]. split; [done|]. split; [apply same_sessions_refl|done]. }
  destruct (close_step_ok l s o Hs) as (s1 & -> & H1 & S1 & N1). cbn [mbind option_bind].
  destruct (IH s1 H1) as (s2 & -> & H2 & S2 & N2). exists s2. split; [done|]. split; [done|].
  split; [by eapply same_sessions_trans|congruence].
Qed.

(** ** Worlds *)

Section Safety.
Context {H W : Type} (call : Calls H W).
#[local] Abbreviation World := (@SWorld H W).
#[local] Abbreviation Srv := (Eff World).

Definition cinv (w : World) : Prop := server_ok (slog w) (sserver w).

Definition session_in (w : World) (j : sid) (c : ClientSession) : Prop := _made (sserver w) !! j = Some c.
Definition made_in (w : World) (j : sid) : Prop := ∃ c, session_in w j c.

(** The session that is being worked on; the inputs of the others stay. *)
Variable i : sid.
Definition kept (w w' : World) : Prop :=
  ∀ j c, session_in w j c → ∃ c', session_in w' j c'
    ∧ _fd c' = _fd c ∧ (_closing c = true → _closing c' = true) ∧ (j ≠ i → _input c' = _input c).
Definition others_settled (w : World) : Prop := ∀ j c, j ≠ i → session_in w j c → settled c.

Record ctrans (w : World) (l : list CObs) (w' : World) : Prop := {
  ct_inv : cinv w';
  ct_log : slog w' = slog w ++ l;
  ct_script : (length (sscript w') <= length (sscript w))%nat;
  ct_kept : kept w w';
  ct_settled : others_settled w → others_settled w'
}.

Lemma skept_refl w : kept w w.
Proof. intros j c Hc. by exists c. Qed.

Lemma skept_trans w w1 w2 : kept w w1 → kept w1 w2 → kept w w2.
Proof.
  intros K1 K2 j c Hc. destruct (K1 j c Hc) as (c1 & Hc1 & ? & ? & E1). destruct (K2 j c1 Hc1) as (c2 & Hc2 & ? & ? & E2).
  exists c2. split; [done|]. split; [congruence|]. split; [auto|]. intros Hj. rewrite E2, E1; done.
Qed.

#[local] Instance server_histories : Histories World CObs cinv ctrans.
Proof.
  split; [apply ct_inv| |].
  - intros w I. split; [done|by rewrite app_nil_r|done|apply skept_refl|done].
  - intros w l w1 k w2 [I1 L1 S1 K1 O1] [I2 L2 S2 K2 O2].
    split; [done|by rewrite L2, L1, app_assoc|lia|by eapply skept_trans|auto].
Qed.
#[local] Abbreviation cwp := (hoare ctrans).

Lemma made_kept w l w' j : ctrans w l w' → made_in w j → made_in w' j.
Proof. intros T [c Hc]. destruct (ct_kept _ _ _ T j c Hc) as (c' & Hc' & _). by exists c'. Qed.

Lemma same_kept w w' : same_sessions (sserver w) (sserver w') → kept w w'.
Proof. intros Hs j c Hc. destruct (Hs j c Hc) as (c' & Hc' & ? & ? & ? & ?). exists c'. by repeat split. Qed.

(** A change of session [i]. *)
Lemma set_kept w w' c c' :
  session_in w i c → sserver w' = set_session i c' (sserver w) → _fd c' = _fd c →
  (_closing c = true → _closing c' = true) → kept w w'.
Proof.
  intros Hc Hs Hfd Hcl j d Hd. unfold session_in in *. rewrite Hs. cbn. destruct (decide (j = i)) as [->|Hne].
  - exists c'. rewrite lookup_insert_eq. rewrite Hc in Hd. injection Hd as <-. by repeat split.
  - exists d. by rewrite lookup_insert_ne.
Qed.

Lemma kept_settled w w' :
  cinv w → cinv w' → kept w w' → _next_sid (sserver w') = _next_sid (sserver w) → others_settled w → others_settled w'.
Proof.
  intros I I' K Hn Ho j c' Hj Hc'. destruct (sv_made _ _ I' j c' Hc') as [Hr _]. rewrite Hn in Hr.
  destruct (sv_all _ _ I j Hr) as [c Hc]. destruct (K j c Hc) as (d & Hd & _ & Hcl & Hin).
  unfold session_in in *. simplify_eq. destruct (Ho j c Hj Hc) as [?|[? ?]]; [left; auto|right]. by rewrite Hin.
Qed.

(** *** Primitives *)

(** An interaction uses up the script, unless there is none left. *)
Definition used (e : CEvent) (w w' : World) : Prop :=
  (length (sscript w') <= length (sscript w))%nat
  ∧ ((length (sscript w') < length (sscript w))%nat ∨ e = last_cevent).

Lemma cwp_tick Q w :
  cinv w →
  (∀ e w', cinv w' → same_sessions (sserver w) (sserver w') → used e w w' → Q e [] w') → cwp tick Q w.
Proof.
  intros I HQ. unfold hoare, tick. destruct (close_steps_ok _ (ce_outer (default last_cevent (head (sscript w)))) _ I)
    as (s' & -> & Hok & Hs & Hn). cbn [fst snd]. exists []. set (w' := mkSWorld _ _ _ _ _).
  split; [split|].
  - done.
  - by rewrite app_nil_r.
  - cbn. destruct (sscript w); cbn; lia.
  - by apply same_kept.
  - apply kept_settled; try done. by apply same_kept.
  - apply HQ; [done|done|]. unfold used. cbn. destruct (sscript w); cbn; [by split; [|right]|split; [lia|left; lia]].
Qed.

Lemma cwp_server Q w : cinv w → Q (sserver w) [] w → cwp get_server Q w.
Proof. apply hoare_ret. Qed.

Lemma cwp_session j Q w :
  cinv w → made_in w j → (∀ c, session_in w j c → 0 <= _fd c → Q c [] w) → cwp (get_session j) Q w.
Proof.
  intros I [c Hc] HQ. unfold get_session. apply hoare_bind, cwp_server; [done|].
  eapply hoare_defined; [done|exact Hc|]. apply HQ; [done|]. by apply (sv_made _ _ I j c).
Qed.

Lemma cwp_put s Q w :
  cinv w → server_ok (slog w) s → kept w (with_server s w) → _next_sid s = _next_sid (sserver w) →
  (cinv (with_server s w) → Q tt [] (with_server s w)) → cwp (put_server s) Q w.
Proof.
  intros I Hs K Hn HQ. exists []. split; [|by apply HQ].
  split; [done|by rewrite app_nil_r|done|done|by apply kept_settled].
Qed.

Lemma cwp_obs o Q w :
  cinv w → (∀ j, concerns j o = false) →
  (∀ w', cinv w' → same_sessions (sserver w) (sserver w') →
     (length (sscript w') = length (sscript w))%nat → Q tt [o] w') →
  cwp (record_obs o) Q w.
Proof.
  intros I Ho HQ. exists [o]. set (w' := (record_obs o w).2). assert (cinv w') as I'.
  { destruct I as [S P M A R F N]. split; try done.
    - intros j c Hc. apply framed_other; [done|by apply F].
    - intros j Hj. change (slog w') with (slog w ++ [o]). destruct (seen_other (slog w) j o (Ho j)) as [-> ->]. by apply N. }
  assert (kept w w') by (intros j c Hc; by exists c).
  split; [split; [done..|by apply kept_settled]|]. apply HQ; [done|intros j c Hc; by exists c|done].
Qed.

Lemma cwp_observed c c' o Q w :
  cinv w → session_in w i c → _fd c' = _fd c → (_closing c = true → _closing c' = true) →
  (∀ j, j ≠ i → concerns j o = false) → framed (slog w ++ [o]) i (_input c') →
  (∀ w', cinv w' → session_in w' i c' → (length (sscript w') = length (sscript w))%nat → Q tt [o] w') →
  cwp (put_observed i c' o) Q w.
Proof.
  intros Hok Hc Hfd Hcl Ho Hf HQ. exists [o]. set (w' := (put_observed i c' o w).2).
  assert (cinv w') as I' by by apply (session_observed _ _ i c).
  assert (kept w w') by by apply (set_kept w w' c c').
  split; [split; [done..|by apply kept_settled]|]. apply HQ; [done| |done].
  unfold session_in. cbn. apply lookup_insert_eq.
Qed.

(** *** Sending *)

Definition quiet_server (w w' : World) : Prop := same_sessions (sserver w) (sserver w').

Lemma quiet_server_made w w' j : quiet_server w w' → made_in w j → made_in w' j.
Proof. intros Hs [c Hc]. destruct (Hs j c Hc) as (c' & Hc' & _). by exists c'. Qed.

Lemma cwp_wait j deadline w :
  cinv w → made_in w j → cwp (wait_writable j deadline) (λ _ _ w', quiet_server w w') w.
Proof.
  intros I Hm. unfold wait_writable.
  apply (hoare_loop _ (λ _ _ w', quiet_server w w')); [done|apply same_sessions_refl|].
  intros _ l0 w0 T0 I0 Q0. apply hoare_bind, cwp_tick; [done|]. intros e w1 I1 S1 [U1 _].
  assert (quiet_server w w1) as Q1 by by eapply same_sessions_trans.
  apply hoare_bind, cwp_session; [done|by eapply quiet_server_made|]. intros c Hc _.
  destruct (_closing c); [by apply hoare_ret|]. destruct (_ <=? 0); [by apply hoare_ret|].
  apply hoare_bind, cwp_tick; [done|]. intros p w2 I2 S2 [_ Hor].
  assert (quiet_server w w2) as Q2 by by eapply same_sessions_trans.
  destruct (0 <? ce_ret p) eqn:E1; [destruct (negb _); by apply hoare_ret|].
  destruct (ce_ret p =? 0); [by apply hoare_ret|]. destruct (ce_errno p =? EINTR) eqn:E2; [|by apply hoare_ret].
  apply hoare_ret; [done|]. split; [|done]. unfold script_left, Server_scripted.
  destruct Hor as [?| ->]; [lia|done].
Qed.

(** What was sent of an output, and what is left of it. *)
Definition sends (j : sid) (output rest : bytes) (l : list CObs) : Prop := sent_to j l ++ rest = output.
Definition sent_result (j : sid) (output : bytes) (ok : bool) (l : list CObs) : Prop :=
  ∃ rest, sends j output rest l ∧ (ok = true → rest = []).

Definition same_log (w w' : World) : Prop := slog w' = slog w.
#[local] Instance same_log_preorder : PreOrder same_log.
Proof. split; [by intros ?|]. by intros ??? E1 E2; unfold same_log in *; rewrite E2. Qed.

Lemma respects_tick : respects same_log tick.
Proof. intros w. unfold tick. by destruct (close_steps _ _). Qed.
Lemma respects_session j : respects same_log (get_session j).
Proof. unfold get_session. apply respects_bind; [apply _|by intros w|]. intros s. apply respects_defined, _. Qed.
#[local] Hint Resolve respects_tick respects_session : respect.

(** Waiting sends nothing. *)
Lemma cwp_wait_silent j deadline w :
  cinv w → made_in w j → cwp (wait_writable j deadline) (λ _ l w', quiet_server w w' ∧ l = []) w.
Proof.
  intros I Hm. eapply hoare_mono; [apply (hoare_respects same_log); [by apply cwp_wait|]|].
  - unfold wait_writable. respectful.
  - cbv beta. intros _ l w' T _ [Hq Hl]. split; [done|]. apply (app_inv_head (slog w)).
    by rewrite <- (ct_log _ _ _ T), app_nil_r.
Qed.

Lemma sends_more j output rest l n :
  sends j output rest l → sends j output (drop n rest) (l ++ [SawSent j (take n rest)]).
Proof.
  unfold sends. intros Hs. rewrite sent_app. cbn. rewrite Z.eqb_refl. cbn.
  by rewrite app_nil_r, <- app_assoc, take_drop.
Qed.

Lemma cwp_send_exact j output w :
  cinv w → made_in w j → cwp (send_all j output) (λ ok l w', quiet_server w w' ∧ sent_result j output ok l) w.
Proof.
  intros I Hm. unfold send_all. apply hoare_bind, cwp_session; [done..|]. intros c Hc _.
  destruct (_fd c <? 0); [apply hoare_ret; [done|split; [apply same_sessions_refl|by exists output]]|].
  apply hoare_bind, cwp_tick; [done|]. intros st w0 I0 S0 _.
  apply (hoare_loop _ (λ rest l w', quiet_server w w' ∧ sends j output rest l)); [done|done|].
  intros rest l0 w1 T1 I1 [Q1 R1]. rewrite <- (app_nil_r l0) in R1.
  case_bool_decide as Hr; [subst; apply hoare_ret; [done|]; split; [done|by exists []]|]. clear Hr.
  apply hoare_bind, cwp_tick; [done|]. intros e w2 I2 S2 [U2 _].
  assert (quiet_server w w2) as Q2 by by eapply same_sessions_trans.
  apply hoare_bind, cwp_session; [done|by eapply quiet_server_made|]. intros c' Hc' _.
  destruct (_closing c'); [apply hoare_ret; [done|]; split; [done|by exists rest]|].
  destruct (_ <=? _); [apply hoare_ret; [done|]; split; [done|by exists rest]|].
  apply hoare_bind, cwp_tick; [done|]. intros s w3 I3 S3 [U3 Hor].
  assert (quiet_server w w3) as Q3 by by eapply same_sessions_trans.
  destruct (0 <? ce_ret s) eqn:E1.
  { apply hoare_bind, cwp_obs; [done|done|]. intros w4 I4 S4 L4. apply hoare_ret; [done|].
    split; [|split; [by eapply same_sessions_trans|rewrite app_nil_r in R1; by apply sends_more]].
    unfold script_left, Server_scripted. destruct Hor as [?| ->]; [lia|done]. }
  destruct (ce_ret s =? 0); [apply hoare_ret; [done|]; split; [done|by exists rest]|].
  destruct (ce_errno s =? EINTR) eqn:E2.
  { apply hoare_ret; [done|]. split; [|done]. unfold script_left, Server_scripted.
    destruct Hor as [?| ->]; [lia|done]. }
  destruct (ce_errno s =? EAGAIN) eqn:E3; cbn [negb]; [|apply hoare_ret; [done|]; split; [done|by exists rest]].
  apply hoare_bind. eapply hoare_mono; [apply cwp_wait_silent; [done|by eapply quiet_server_made]|]. cbv beta.
  intros again l4 w4 T4 I4 [Q4 ->]. assert (quiet_server w w4) by by eapply same_sessions_trans.
  apply hoare_ret; [done|]. destruct again; [|split; [done|by exists rest]]. split; [|done].
  pose proof (ct_script _ _ _ T4). unfold script_left, Server_scripted.
  destruct Hor as [?| ->]; [lia|done].
Qed.

Lemma cwp_send_all j output w :
  cinv w → made_in w j → cwp (send_all j output) (λ _ _ w', quiet_server w w') w.
Proof. intros I Hm. eapply hoare_mono; [by apply cwp_send_exact|]. by intros ok l w' _ _ [? _]. Qed.

Lemma cwp_send_prompt j w :
  cinv w → made_in w j → cwp (send_prompt j) (λ _ _ w', quiet_server w w') w.
Proof.
  intros I Hm. unfold send_prompt. apply hoare_bind, cwp_tick; [done|]. intros e w1 I1 S1 _.
  apply hoare_bind, cwp_server; [done|]. pose proof (quiet_server_made _ _ _ S1 Hm) as Hm1.
  apply hoare_bind, cwp_session; [done..|]. intros c Hc _.
  destruct (_fd c <? 0); [by apply hoare_ret|]. destruct (_ || _); [by apply hoare_ret|].
  destruct (negb (ce_alloc e)); [by apply hoare_ret|]. cbv zeta. case_bool_decide; [by apply hoare_ret|].
  eapply hoare_mono; [by apply cwp_send_all|]. cbv beta. intros _ l w' _ _ Hq. by eapply same_sessions_trans.
Qed.

(** *** Input *)

Definition waiting (w : World) : Prop :=
  ∃ c, session_in w i c ∧ newline_at (_input c) = None ∧ ♯(_input c) <= CLI_MAX_LINE_SIZE + 1.

Lemma cwp_too_long w : cinv w → made_in w i → cwp (too_long i) (λ r _ _, r = inr false) w.
Proof.
  intros I Hm. unfold too_long. apply hoare_bind. eapply hoare_mono; [by apply cwp_send_all|]. cbv beta.
  intros _ l w' _ I' _. by apply hoare_ret.
Qed.

(** A line's command runs in the session's context. *)
Lemma cwp_dispatch alloc_ok line w :
  cinv w → made_in w i → cwp (dispatch_line call alloc_ok i line) (λ _ _ _, True) w.
Proof.
  intros I [c Hc]. unfold hoare, dispatch_line. rewrite Hc.
  destruct (dispatch call alloc_ok (scommands w) line (_context c) (sworld w)) as [[[r context] reg] world].
  cbn [fst snd]. set (w' := mkSWorld _ _ _ _ _). exists []. split; [|done].
  assert (cinv w') by exact (session_changed _ _ i c (set_context context c) I Hc eq_refl (sv_framed _ _ I i c Hc)).
  assert (kept w w') by by apply (set_kept w w' c (set_context context c)).
  split; [done|by rewrite app_nil_r|done|done|by apply kept_settled].
Qed.

(** A prompt ends a round of the input's loop, which has used up a part of the script. *)
Lemma cwp_prompt_again (w0 w : World) :
  cinv w → made_in w i → (length (sscript w) < length (sscript w0))%nat →
  cwp (ok ← send_prompt i; mret (if ok : bool then inl tt else inr false))
    (λ r _ w', match r with inl _ => (length (sscript w') < length (sscript w0))%nat ∧ made_in w' i | inr ok => ok = false end) w.
Proof.
  intros I Hm Hlt. apply hoare_bind. eapply hoare_mono; [by apply cwp_send_prompt|]. cbv beta.
  intros ok l w' T I' _. apply hoare_ret; [done|]. pose proof (ct_script _ _ _ T). destruct ok; [|done].
  split; [lia|by eapply made_kept].
Qed.

(** The reply to a line. *)
Lemma cwp_reply output w :
  cinv w → made_in w i →
  cwp (if bool_decide (output = []) then mret true else
       r ← tick;
       if negb (ce_alloc r) then throw BadAlloc else send_all i (format_system_reply output)) (λ _ _ _, True) w.
Proof.
  intros I Hm. case_bool_decide; [by apply hoare_ret|]. apply hoare_bind, cwp_tick; [done|]. intros r w1 I1 S1 _.
  destruct (negb (ce_alloc r)); [by apply hoare_throw|].
  eapply hoare_mono; [apply cwp_send_all; [done|by eapply quiet_server_made]|done].
Qed.

Lemma cwp_process_input w :
  cinv w → made_in w i → cwp (process_input call i) (λ ok _ w', ok = true → waiting w') w.
Proof.
  intros I Hm. unfold process_input.
  apply (hoare_loop _ (λ _ _ w', made_in w' i)); [done|done|].
  intros _ l0 w0 T0 I0 Hm0. apply hoare_bind, cwp_tick; [done|]. intros e w1 I1 S1 [U1 Hor].
  pose proof (quiet_server_made _ _ _ S1 Hm0) as Hm1. apply hoare_bind, cwp_server; [done|].
  apply hoare_bind, cwp_session; [done..|]. intros c Hc _.
  destruct (_server_closing (sserver w1) || _closing c || negb (ce_accepts e)) eqn:Eg; [by apply hoare_ret|].
  assert (length (sscript w1) < length (sscript w0))%nat as Hlt.
  { destruct Hor as [?| ->]; [lia|]. by rewrite orb_true_r in Eg. }
  cbv zeta. destruct (newline_at (_input c)) as [n|] eqn:En.
  2:{ destruct ((CLI_MAX_LINE_SIZE <? ♯(_input c)) && _) eqn:El.
      { eapply hoare_mono; [by apply cwp_too_long|]. by intros r l w' _ _ ->. }
      apply hoare_ret; [done|]. intros _. exists c. split; [done|]. split; [done|].
      destruct (CLI_MAX_LINE_SIZE <? ♯(_input c)) eqn:E1; [|lia]. destruct (♯(_input c) =? CLI_MAX_LINE_SIZE + 1) eqn:E2; [lia|].
      by rewrite andb_false_l in El. }
  destruct (CLI_MAX_LINE_SIZE <? Z.of_nat (content_end (_input c) n)) eqn:El.
  { eapply hoare_mono; [by apply cwp_too_long|]. by intros r l w' _ _ ->. }
  destruct (negb (ce_alloc e)); [by apply hoare_throw|].
  apply hoare_bind, (cwp_observed c); [done|done|done|done| | |].
  { intros j Hj. cbn. lia. }
  { apply framed_line; [exact (sv_framed _ _ I1 i c Hc)|done|lia]. }
  intros w2 I2 Hc2 L2. assert (made_in w2 i) as Hm2 by by eexists.
  case_bool_decide.
  { eapply hoare_mono; [apply (cwp_prompt_again w0); [done|done|lia]|]. by intros [?|?] l w' _ _; [|intros ->]. }
  apply hoare_bind, cwp_tick; [done|]. intros d w3 I3 S3 [U3 _].
  apply hoare_bind. eapply hoare_mono; [apply cwp_dispatch; [done|by eapply quiet_server_made]|]. cbv beta.
  intros result l4 w4 T4 I4 _. pose proof (ct_script _ _ _ T4).
  pose proof (made_kept _ _ _ i T4 (quiet_server_made _ _ _ S3 Hm2)) as Hm4.
  destruct result as [result|]; [|by apply hoare_throw].
  apply hoare_bind. eapply hoare_mono; [by apply cwp_reply|]. cbv beta. intros sent l5 w5 T5 I5 _.
  pose proof (ct_script _ _ _ T5). destruct sent; cbn [negb]; [|by apply hoare_ret].
  eapply hoare_mono; [apply (cwp_prompt_again w0); [done|by eapply made_kept|lia]|]. by intros [?|?] l w' _ _; [|intros ->].
Qed.

(** *** Sessions *)

Definition closed (w : World) (j : sid) : Prop := ∃ c, session_in w j c ∧ _closing c = true.

Lemma cwp_close_session j w : cinv w → made_in w j → cwp (close_session j) (λ _ _ w', closed w' j) w.
Proof.
  intros I Hm. unfold close_session. apply hoare_bind, cwp_tick; [done|]. intros e w1 I1 S1 _.
  apply hoare_bind, cwp_server; [done|]. destruct (quiet_server_made _ _ _ S1 Hm) as [c Hc].
  destruct (close_session_ok _ _ j c I1 Hc) as (h & s' & c' & Hs & Hok & Hsame & Hc' & Hcl & Hn).
  apply hoare_bind. eapply hoare_defined; [done|exact Hs|]. cbn [fst snd].
  apply hoare_bind, cwp_put; [done|done|by apply same_kept|done|]. intros I2.
  destruct (h =? 0); [apply hoare_ret; [done|by exists c']|].
  apply cwp_obs; [done|done|]. intros w3 _ S3 _. destruct (S3 j c' Hc') as (d & Hd & _ & _ & _ & Hdc). exists d. auto.
Qed.

(** Closing ends a callback. *)
Lemma cwp_close_return j {A} (x : A) w :
  cinv w → made_in w j → cwp (_ ← close_session j; mret x) (λ r _ w', r = x ∧ closed w' j) w.
Proof.
  intros I Hm. apply hoare_bind. eapply hoare_mono; [by apply cwp_close_session|]. cbv beta.
  intros _ l w' _ I' Hc. by apply hoare_ret.
Qed.

Lemma closed_settled w j : closed w j → ∃ c, session_in w j c ∧ settled c.
Proof. intros (c & Hc & ?). exists c. split; [done|by left]. Qed.

Lemma settled_quiet w w' c :
  quiet_server w w' → session_in w i c → settled c → ∃ c', session_in w' i c' ∧ settled c'.
Proof.
  intros Hq Hc Hs. destruct (Hq i c Hc) as (c' & Hc' & _ & Hin & _ & Hcl). exists c'. split; [done|].
  destruct Hs as [?|?]; [left; auto|right]. by rewrite Hin.
Qed.

(** How a callback of the client ends. *)
Definition ends_settled (r : Z) (w : World) : Prop := r = 0 ∧ ∃ c, session_in w i c ∧ settled c.

Lemma cwp_end w : cinv w → made_in w i → cwp (_ ← close_session i; mret 0) (λ r _ w', ends_settled r w') w.
Proof.
  intros I Hm. eapply hoare_mono; [by apply cwp_close_return|]. intros r l w'' _ _ [-> ?].
  split; [done|by apply closed_settled].
Qed.

Lemma cwp_end_loop w : cinv w → made_in w i →
  cwp (_ ← close_session i; mret (inr 0 : unit + Z)) (λ r _ w', match r with inl _ => False | inr r => ends_settled r w' end) w.
Proof.
  intros I Hm. eapply hoare_mono; [by apply cwp_close_return|]. intros r l w'' _ _ [-> ?].
  split; [done|by apply closed_settled].
Qed.

(** The loop that receives. *)
Definition receive_round : Srv (unit + Z) :=
  e ← tick;
  let received := take (Z.to_nat CLI_READ_BUFFER_SIZE) (ce_data e) in
  if negb (bool_decide (received = [])) then
    if negb (ce_alloc e) then throw BadAlloc else
    c ← get_session i;
    _ ← put_observed i (set_input (_input c ++ received) c) (SawReceived i received);
    ok ← process_input call i;
    if negb ok then _ ← close_session i; mret (inr 0) else mret (inl tt)
  else
  if ce_ret e =? 0 then _ ← close_session i; mret (inr 0) else
  if ce_errno e =? EINTR then mret (inl tt) else
  if ce_errno e =? EAGAIN then mret (inr 0) else
  _ ← close_session i; mret (inr 0).

Lemma cwp_receive_round w0 :
  cinv w0 → (∃ c, session_in w0 i c ∧ settled c) →
  cwp receive_round (λ r _ w', match r with
      | inl _ => (length (sscript w') < length (sscript w0))%nat ∧ ∃ c, session_in w' i c ∧ settled c
      | inr r => ends_settled r w'
      end) w0.
Proof.
  intros I (c0 & Hc0 & Hs0). apply hoare_bind, cwp_tick; [done|]. intros e w1 I1 S1 [U1 Hor].
  destruct (settled_quiet _ _ _ S1 Hc0 Hs0) as (c1 & Hc1 & Hs1). assert (made_in w1 i) as Hm1 by by exists c1.
  cbv zeta. set (data := take _ (ce_data e)). destruct (negb (bool_decide (data = []))) eqn:Ed.
  - assert (length (sscript w1) < length (sscript w0))%nat as Hlt by (destruct Hor as [?| ->]; [lia|done]).
    destruct (negb (ce_alloc e)); [by apply hoare_throw|].
    apply hoare_bind, cwp_session; [done..|]. intros c Hc _.
    apply hoare_bind, (cwp_observed c); [done|done|done|done| | |].
    { intros j Hj. cbn. lia. }
    { apply framed_received. exact (sv_framed _ _ I1 i c Hc). }
    intros w2 I2 Hc2 L2. assert (made_in w2 i) as Hm2 by by eexists.
    apply hoare_bind. eapply hoare_mono; [by apply cwp_process_input|]. cbv beta. intros ok l3 w3 T3 I3 Hw.
    pose proof (ct_script _ _ _ T3). destruct ok; cbn [negb].
    + apply hoare_ret; [done|]. split; [lia|]. destruct (Hw eq_refl) as (c3 & Hc3 & ?). exists c3. split; [done|by right].
    + eapply hoare_mono; [apply cwp_end_loop; [done|by eapply made_kept]|]. by intros [?|?] ? ? _ _.
  - destruct (ce_ret e =? 0). { eapply hoare_mono; [by apply cwp_end_loop|]. by intros [?|?] ? ? _ _. }
    destruct (ce_errno e =? EINTR) eqn:Ei.
    { apply hoare_ret; [done|]. split; [|by exists c1]. destruct Hor as [?| ->]; [lia|done]. }
    destruct (ce_errno e =? EAGAIN); [apply hoare_ret; [done|]; split; [done|by exists c1]|].
    eapply hoare_mono; [by apply cwp_end_loop|]. by intros [?|?] ? ? _ _.
Qed.

Lemma cwp_handle_client w :
  cinv w → (∃ c, session_in w i c ∧ settled c) → cwp (handle_client_ready call i) (λ r _ w', ends_settled r w') w.
Proof.
  intros I (c0 & Hc0 & Hs0). unfold handle_client_ready.
  apply hoare_bind, cwp_tick; [done|]. intros e w1 I1 S1 _.
  destruct (settled_quiet _ _ _ S1 Hc0 Hs0) as (c1 & Hc1 & Hs1). assert (made_in w1 i) as Hm1 by by exists c1.
  apply hoare_bind, cwp_session; [done..|]. intros d Hd _. destruct (_fd d <? 0).
  { apply hoare_ret; [done|]. split; [done|by exists c1]. }
  destruct (negb (ce_accepts e)); [by apply cwp_end|].
  apply hoare_bind, cwp_tick; [done|]. intros e2 w2 I2 S2 _.
  destruct (settled_quiet _ _ _ S2 Hc1 Hs1) as (c2 & Hc2 & Hs2). assert (made_in w2 i) as Hm2 by by exists c2.
  apply hoare_bind, cwp_session; [done..|]. intros d2 Hd2 _. destruct (_closing d2).
  { apply hoare_ret; [done|]. split; [done|by exists c2]. }
  apply hoare_catch.
  2:{ intros ex l w3 T3 I3. apply cwp_end; [done|by eapply made_kept]. }
  apply (hoare_loop (λ _, receive_round) (λ _ _ w', ∃ c, session_in w' i c ∧ settled c)); [done|by exists c2|].
  intros _ l3 w3 T3 I3 Hs3. eapply hoare_mono; [by apply cwp_receive_round|]. by intros [?|?] l4 w4 _ _.
Qed.

(** *** New sessions *)

Lemma admitted_ok l s fd j s' :
  server_ok l s → 0 <= fd → admit_client fd s = Some (j, s') →
  server_ok l s' ∧ j = _next_sid s ∧ _made s' = <[j := mkSession fd 0 new_session_context [] false]> (_made s).
Proof.
  intros [S P M A R F N] Hfd. unfold admit_client. destruct (_ && _ && _) eqn:Eg; [|done]. intros [= <- <-].
  apply andb_true_iff in Eg as [[_ Hroom]%andb_true_iff Hnew]. apply bool_decide_eq_true in Hnew.
  split; [|done]. assert (∀ k c, _made s !! k = Some c → k ≠ _next_sid s) as Hne by (intros k c [? _]%M; lia).
  split; cbn.
  - intros fd' k [[<- <-]|[_ Hk]]%lookup_insert_Some; [eexists; by rewrite lookup_insert_eq|].
    destruct (S fd' k Hk) as (c & Hc & ?). exists c. by rewrite lookup_insert_ne by (by eapply not_eq_sym, Hne).
  - lia.
  - intros k c [[<- <-]|[_ Hk]]%lookup_insert_Some; [cbn; lia|]. destruct (M k c Hk). lia.
  - intros k Hk. apply lookup_insert_is_Some'. destruct (decide (_next_sid s = k)); [by left|]. right. apply A. lia.
  - rewrite map_size_insert_None by done. lia.
  - intros k c [[<- <-]|[_ Hk]]%lookup_insert_Some; [|by apply F]. destruct (N (_next_sid s)) as [Hr Ht]; [done|].
    exists []. by rewrite Hr, Ht.
  - intros k Hk. apply N. lia.
Qed.

Lemma cwp_admitted fd j s' Q w :
  cinv w → 0 <= fd → admit_client fd (sserver w) = Some (j, s') →
  (cinv (with_server s' w) → made_in (with_server s' w) j → Q tt [] (with_server s' w)) → cwp (put_server s') Q w.
Proof.
  intros I Hfd Ha HQ. destruct (admitted_ok _ _ _ _ _ I Hfd Ha) as (Hok & Hj & Hm). exists [].
  assert (∀ k c, session_in w k c → k ≠ j) as Hne by (intros k c [? _]%(sv_made _ _ I); lia).
  split; [split; [done|by rewrite app_nil_r|done|..]|].
  - intros k c Hc. exists c. unfold session_in. cbn. rewrite Hm, lookup_insert_ne; [done|]. by eapply not_eq_sym, Hne.
  - intros Ho k c Hk Hc. unfold session_in in Hc. cbn in Hc. rewrite Hm in Hc.
    apply lookup_insert_Some in Hc as [[<- <-]|[_ Hc]]; [right; by split|by eapply Ho].
  - apply HQ; [done|]. unfold made_in, session_in. cbn. rewrite Hm, lookup_insert_eq. by eexists.
Qed.

(** The handle of a registered session. *)
Lemma cwp_handle j c h Q w :
  cinv w → session_in w j c →
  (∀ w', cinv w' → made_in w' j → (length (sscript w') = length (sscript w))%nat → Q tt [] w') →
  cwp (put_session j (set_handle h c)) Q w.
Proof.
  intros I Hc HQ. unfold put_session. apply hoare_bind, cwp_server; [done|].
  apply cwp_put; [done| | |done|].
  - exact (session_changed _ _ j c (set_handle h c) I Hc eq_refl (sv_framed _ _ I j c Hc)).
  - intros k d Hd. destruct (decide (k = j)) as [->|Hne]; unfold session_in in *; cbn.
    + exists (set_handle h c). rewrite lookup_insert_eq. rewrite Hc in Hd. injection Hd as <-. by repeat split.
    + exists d. by rewrite lookup_insert_ne.
  - intros I'. apply HQ; [done| |done]. exists (set_handle h c). apply lookup_insert_eq.
Qed.

(** A session that could not be set up is closed again. *)
Lemma cwp_close_again j (w0 w : World) :
  cinv w → made_in w j → (length (sscript w) < length (sscript w0))%nat →
  cwp (_ ← close_session j; mret (inl tt : unit + Z))
    (λ r _ w', match r with inl _ => (length (sscript w') < length (sscript w0))%nat | inr r => r = 0 end) w.
Proof.
  intros I Hm Hlt. apply hoare_bind. eapply hoare_mono; [by apply cwp_close_session|]. cbv beta.
  intros _ l w' T I' _. apply hoare_ret; [done|]. pose proof (ct_script _ _ _ T). lia.
Qed.

Lemma cwp_handle_listener w : cinv w → cwp handle_listener_ready (λ r _ _, r = 0) w.
Proof.
  intros I. unfold handle_listener_ready. apply hoare_catch; [|intros; by apply hoare_ret].
  apply (hoare_loop _ (λ _ _ _, True)); [done|done|].
  intros _ l0 w0 T0 I0 _. apply hoare_bind, cwp_tick; [done|]. intros a w1 I1 S1 [U1 Hor]. cbv zeta.
  destruct (0 <=? ce_ret a) eqn:Ea.
  2:{ destruct (ce_errno a =? EINTR) eqn:Ee; apply hoare_ret; try done. split; [|done].
      unfold script_left, Server_scripted. destruct Hor as [?| ->]; [lia|done]. }
  assert (length (sscript w1) < length (sscript w0))%nat as Hlt by (destruct Hor as [?| ->]; [lia|done]).
  apply hoare_bind, cwp_tick; [done|]. intros e w2 I2 S2 [U2 _].
  destruct (negb (ce_accepts e)); [apply hoare_ret; [done|]; split; [unfold script_left, Server_scripted; lia|done]|].
  destruct (negb (ce_alloc e)); [by apply hoare_throw|].
  apply hoare_bind, cwp_tick; [done|]. intros e3 w3 I3 S3 [U3 _].
  destruct (negb (ce_alloc e3)); [by apply hoare_throw|].
  apply hoare_bind, cwp_server; [done|].
  destruct (admit_client (ce_ret a) (sserver w3)) as [[j s']|] eqn:Eadm.
  2:{ apply hoare_ret; [done|]; split; [unfold script_left, Server_scripted; lia|done]. }
  apply hoare_bind, (cwp_admitted (ce_ret a) j); [done|lia|done|]. intros I4 Hm4.
  apply hoare_bind, cwp_tick; [done|]. intros e5 w5 I5 S5 [U5 _]. cbn [sscript with_server] in U5.
  apply hoare_bind, cwp_session; [done|by eapply quiet_server_made|]. intros c Hc _.
  destruct (if _closing c || negb (ce_alloc e5) then None else ce_handle e5) as [h|].
  2:{ eapply hoare_mono; [apply (cwp_close_again j w0); [done|by exists c|lia]|]. by intros [?|?] l w' _ _. }
  apply hoare_bind, (cwp_handle j c); [done..|]. intros w6 I6 Hm6 L6.
  apply hoare_bind. eapply hoare_mono; [by apply cwp_send_prompt|]. cbv beta. intros ok l7 w7 T7 I7 _.
  pose proof (ct_script _ _ _ T7). destruct ok; cbn [negb].
  { apply hoare_ret; [done|]; split; [unfold script_left, Server_scripted; lia|done]. }
  eapply hoare_mono; [apply (cwp_close_again j w0); [done|by eapply made_kept|lia]|]. by intros [?|?] l w' _ _.
Qed.

(** *** Callbacks do not throw *)

Lemma nothrow_ctick : nothrow (W := World) tick.
Proof. intros w e. unfold tick. by destruct (close_steps _ _). Qed.
#[local] Hint Resolve nothrow_ctick : noexcept.

Lemma nothrow_close_session j : nothrow (W := World) (close_session j).
Proof. unfold close_session, get_server, put_server, record_obs. noexcept. Qed.
#[local] Hint Resolve nothrow_close_session : noexcept.

Lemma nothrow_client j : nothrow (handle_client_ready call j).
Proof. unfold handle_client_ready, get_session, get_server. noexcept. Qed.

Lemma nothrow_listener : nothrow (W := World) handle_listener_ready.
Proof. unfold handle_listener_ready. noexcept. Qed.

End Safety.
