(* ===== verification/CliServerClaims.v ===== *)
(** What the clients of the console's server ([CliServer.v]) can rely on: the input of
    each is cut into exactly its lines, a reply is sent whole or the session ends, and
    the callbacks return to the engine whatever happens. *)

From Stdlib Require Import String.
From S2P Require Import Prelude FileSystem Effects CliRegistry CliCommands CliClaims CliServer CliServerSafety.
#[local] Open Scope tlss_scope.

(** ** Lines *)

(** The lines of a text, without the newlines, and what follows the last of them. *)
Fixpoint split_lines (l : bytes) : list bytes * bytes :=
  match l with
  | [] => ([], [])
  | c :: r =>
      let '(lines, rest) := split_lines r in
      if c =? 10 then ([] :: lines, rest) else
      match lines with
      | [] => ([], c :: rest)
      | line :: lines => ((c :: line) :: lines, rest)
      end
  end.

Lemma split_lines_line raw l :
  10 ∉ raw → split_lines (raw ++ 10 :: l) = (raw :: (split_lines l).1, (split_lines l).2).
Proof.
  induction raw as [|c raw IH]; cbn; intros Hn; [by destruct (split_lines l)|].
  apply not_elem_of_cons in Hn as [Hc Hn]. rewrite (IH Hn). by destruct (c =? 10) eqn:E; [lia|].
Qed.

Lemma split_lines_rest l : 10 ∉ l → split_lines l = ([], l).
Proof.
  induction l as [|c l IH]; cbn; intros Hn; [done|].
  apply not_elem_of_cons in Hn as [Hc Hn]. rewrite (IH Hn). by destruct (c =? 10) eqn:E; [lia|].
Qed.

Lemma split_lines_concat raws l :
  Forall (λ r, 10 ∉ r) raws →
  split_lines (concat (map (λ r, r ++ [10]) raws) ++ l) = (raws ++ (split_lines l).1, (split_lines l).2).
Proof.
  induction 1 as [|r raws Hr _ IH]; cbn; [by destruct (split_lines l)|].
  rewrite <- !app_assoc. cbn. by rewrite split_lines_line, IH.
Qed.

(** ** Runs of the server *)

Section Served.
Context {H W : Type} (call : Calls H W).

(** The worlds that a server comes to: callbacks run, [close] takes its steps between
    them, and the commands, what they work on and the surroundings change. *)
Inductive served : @SWorld H W → Prop :=
  | ServedStart max_clients prompt reg world script :
      served (mkSWorld (new_server max_clients prompt) reg world script [])
  | ServedClient w i : served w → made_in w i → served (handle_client_ready call i w).2
  | ServedListener w : served w → served (handle_listener_ready w).2
  | ServedClose w os s : served w → close_steps os (sserver w) = Some s → served (with_server s w)
  | ServedAround w reg world script :
      served w → served (mkSWorld (sserver w) reg world script (slog w)).

Definition all_settled (w : @SWorld H W) : Prop := ∀ i c, session_in w i c → settled c.

Lemma start_ok max_clients prompt : server_ok [] (new_server max_clients prompt).
Proof. split; cbn; try done; try (intros; by rewrite lookup_empty in *); intros; [lia|rewrite map_size_empty; lia]. Qed.

Lemma client_safe w i :
  cinv w → all_settled w → made_in w i →
  (handle_client_ready call i w).1 = Returned 0
  ∧ cinv (handle_client_ready call i w).2 ∧ all_settled (handle_client_ready call i w).2.
Proof.
  intros I Hs [c Hc]. destruct (cwp_handle_client call i w I) as (l & T & HQ); [exists c; eauto|].
  pose proof (nothrow_client call i w) as Hn. destruct (handle_client_ready call i w) as [[r|e|] w'];
    [|by edestruct Hn|done]. cbn in *. destruct HQ as [-> (c' & Hc' & Hs')]. split; [done|].
  split; [by eapply ct_inv|]. intros j d Hd. destruct (decide (j = i)) as [->|Hne].
  - unfold session_in in *. by simplify_eq.
  - eapply (ct_settled _ _ _ _ T); [|done|done]. intros k ck _ Hk. by eapply Hs.
Qed.

Lemma listener_safe (w : @SWorld H W) :
  cinv w → all_settled w →
  (handle_listener_ready w).1 = Returned 0
  ∧ cinv (handle_listener_ready w).2 ∧ all_settled (handle_listener_ready w).2.
Proof.
  intros I Hs. destruct (cwp_handle_listener (-1) w I) as (l & T & HQ).
  pose proof (nothrow_listener w) as Hn. destruct (handle_listener_ready w) as [[r|e|] w'];
    [|by edestruct Hn|done]. cbn in *. split; [by rewrite HQ|]. split; [by eapply ct_inv|].
  intros j d Hd. pose proof (sv_made _ _ (ct_inv _ _ _ _ T) j d Hd).
  refine (ct_settled _ _ _ _ T _ j d _ Hd); [|lia]. intros k ck _ Hk. by eapply Hs.
Qed.

Lemma served_ok w : served w → cinv w ∧ all_settled w.
Proof.
  induction 1 as [max_clients prompt reg world script|w i _ [I Hs] Hi|w _ [I Hs]|w os s _ [I Hs] Hos|w reg world script _ [I Hs]].
  - split; [apply start_ok|]. intros i c Hc. unfold session_in in Hc. cbn in Hc. by rewrite lookup_empty in Hc.
  - by apply client_safe.
  - by apply listener_safe.
  - destruct (close_steps_ok _ os _ I) as (s' & Hs' & Hok & Hsame & Hn). rewrite Hos in Hs'. injection Hs' as <-.
    split; [done|]. assert (others_settled (-1) w) as Ho by (intros k c _ Hk; by eapply Hs).
    intros j d Hd. pose proof (sv_made _ _ Hok j d Hd).
    apply (kept_settled (-1) w (with_server s w) I Hok (same_kept _ w (with_server s w) Hsame) Hn Ho j); [lia|done].
  - by split.
Qed.

(** C26. The server of the console is safe and cuts its input into lines: in every state
    that accepting, receiving, [close] on another thread and failures of any call can
    lead to, the callbacks return zero to the engine without an exception; at most
    [max_clients] sessions are kept; the lines taken from a session are a prefix of the
    lines it received, none longer than 255 bytes; and as long as it is not closing
    they are all of them, while what follows the last newline waits in its buffer,
    which holds at most 256 bytes. *)
Theorem console_serves_lines w :
  served w →
  (∀ i, made_in w i → (handle_client_ready call i w).1 = Returned 0)
  ∧ (handle_listener_ready w).1 = Returned 0
  ∧ Z.of_nat (size (_sessions (sserver w))) <= Z.max 0 (_max_clients (sserver w))
  ∧ ∀ i c, session_in w i c →
      let '(lines, rest) := split_lines (received i (slog w)) in
      taken i (slog w) `prefix_of` map content lines
      ∧ Forall (λ line, ♯line <= CLI_MAX_LINE_SIZE) (taken i (slog w))
      ∧ (_closing c = false →
         taken i (slog w) = map content lines ∧ _input c = rest ∧ ♯rest <= CLI_MAX_LINE_SIZE + 1).
Proof.
  intros Hw. destruct (served_ok w Hw) as [I Hs].
  split; [intros i Hi; by apply client_safe|]. split; [by apply listener_safe|]. split; [exact (sv_room _ _ I)|].
  intros i c Hc. destruct (sv_framed _ _ I i c Hc) as (raws & Hr & Ht & Hf).
  rewrite Hr, split_lines_concat by (eapply Forall_impl; [exact Hf|by intros r [? _]]). rewrite Ht, map_app.
  split; [by eexists|]. split.
  { apply Forall_map. eapply Forall_impl; [exact Hf|]. by intros r [_ ?]. }
  intros Hopen. destruct (Hs i c Hc) as [?|[Hn Hlen]]; [congruence|]. apply newline_at_None in Hn.
  rewrite (split_lines_rest _ Hn). cbn. by rewrite app_nil_r.
Qed.

(** A reply reaches its client in order and whole, or the server knows that it did
    not: whatever the socket takes at a time, however often it has to be waited for
    and whatever [close] does meanwhile, [send_all] returns, what it passed to the
    socket for that session is a prefix of the output, and it reports success only
    when that is all of it. *)
Theorem reply_sent_exact (w : @SWorld H W) i output :
  served w → made_in w i →
  ∃ ok l rest, (send_all i output w).1 = Returned ok
    ∧ slog (send_all i output w).2 = slog w ++ l
    ∧ output = sent_to i l ++ rest
    ∧ (ok = true → rest = []).
Proof.
  intros Hw Hi. destruct (served_ok w Hw) as [I _].
  destruct (cwp_send_exact i i output w I Hi) as (l & T & HQ).
  assert (nothrow (W := @SWorld H W) (send_all i output)) as Hn.
  { unfold send_all, wait_writable, get_session, get_server, record_obs.
    pose proof (@nothrow_ctick H W). noexcept. }
  specialize (Hn w). destruct (send_all i output w) as [[ok|e|] w']; [|by edestruct Hn|done]. cbn in *.
  destruct HQ as [_ (rest & Hs & Hr)]. exists ok, l, rest. split; [done|]. split; [by eapply ct_log|].
  split; [by symmetry|done].
Qed.
End Served.

(** ** Witnesses *)

(** Events: a call that answers with [ret], one that fails, and data that arrives. *)
Definition answers (ret : Z) : CEvent := mkCEvent [] true ret 0 0 [] 0 (Some 9) true.
Definition fails_with (errno : Z) : CEvent := mkCEvent [] true (-1) errno 0 [] 0 None true.
Definition arrives (data : bytes) : CEvent := mkCEvent [] true (♯data) 0 0 data 0 None true.

(** A client is accepted on descriptor 5 and prompted; the socket takes 100 bytes. *)
Definition demo_accept : list CEvent :=
  [answers 5; answers 0; answers 0; answers 0; answers 0; answers 0; answers 0; answers 100; fails_with EAGAIN].
(** It sends a line and the beginning of another one. *)
Definition demo_receive : list CEvent :=
  [answers 0; answers 0; arrives (literal "use disk" ++ [13; 10] ++ literal "he");
   answers 0; answers 0; answers 0; answers 0; answers 0; answers 100;
   answers 0; answers 0; answers 0; answers 100; answers 0; fails_with EAGAIN].

Definition demo_started : SWorld :=
  mkSWorld (new_server 1 (literal "monitor")) demo_commands demo_console demo_accept [].
Definition demo_accepted : SWorld := (handle_listener_ready demo_started).2.
Definition demo_waiting : SWorld :=
  mkSWorld (sserver demo_accepted) demo_commands demo_console demo_receive (slog demo_accepted).
Definition demo_served : SWorld := (handle_client_ready call_command 0 demo_waiting).2.

Definition demo_session : ClientSession :=
  mkSession 5 9 (mkSessionContext (Some 7) (literal "disk")) (literal "he") false.

Lemma demo_session_in : session_in demo_served 0 demo_session.
Proof. vm_compute. reflexivity. Qed.

Lemma demo_reached : served call_command demo_served.
Proof.
  apply ServedClient; [apply ServedAround, ServedListener, ServedStart|].
  eexists. vm_compute. reflexivity.
Qed.

Lemma console_serves_lines_witness :
  (handle_client_ready call_command 0 demo_served).1 = Returned 0
  ∧ taken 0 (slog demo_served) = [literal "use disk"]
  ∧ _input demo_session = literal "he".
Proof.
  destruct (console_serves_lines call_command demo_served demo_reached) as (Hc & _ & _ & Hl).
  split; [apply Hc; exists demo_session; exact demo_session_in|].
  specialize (Hl 0 demo_session demo_session_in).
  assert (split_lines (received 0 (slog demo_served)) = ([literal "use disk" ++ [13]], literal "he")) as Es
    by (vm_compute; reflexivity).
  rewrite Es in Hl. destruct Hl as (_ & _ & Ho). destruct (Ho eq_refl) as (Ht & Hi & _).
  split; [rewrite Ht; vm_compute; reflexivity|exact Hi].
Defined.

Lemma reply_sent_exact_witness :
  ∃ ok l rest, (send_all 0 (literal "ok") demo_served).1 = Returned ok
    ∧ slog (send_all 0 (literal "ok") demo_served).2 = slog demo_served ++ l
    ∧ literal "ok" = sent_to 0 l ++ rest ∧ (ok = true → rest = []).
Proof.
  apply (reply_sent_exact call_command demo_served 0 (literal "ok") demo_reached).
  exists demo_session. exact demo_session_in.
Defined.
