(* ===== verification/CliListener.v ===== *)
(** The listener of the console ([CliServer::start], [close] and [bound_port] of
    [src/monitor/cli_server.cpp], [inc/monitor/cli_server.h]).

    As in [UdpReceiver.v] the answers of the system calls are arguments and the
    descriptors that are opened and closed again are results. *)

From Stdlib Require Import String.
From S2P Require Import Prelude FileSystem Effects Engine UdpPublisher CliRegistry CliServer.
#[local] Open Scope tlss_scope.

Definition accepts_cli_work (phase : EnginePhase) : bool :=
  match phase with READY | RUNNING => true | _ => false end.

Record CliServerConfig := mkCliConfig { _port : Z; _config_max_clients : Z; _config_prompt_name : bytes }.

Record CliServer := mkCliServer {
  _cli_config : CliServerConfig;
  _ever_started : bool;
  _listener : option Z;          (* the descriptor of the shared [ListenerResource] *)
  _listener_handle : option Z;
  _listener_fd : Z;
  _cli_bound_port : Z
}.

Definition new_cli_server (config : CliServerConfig) : CliServer := mkCliServer config false None None (-1) 0.

(** The answers to [start]: the results of the calls in the order of the code, what
    [getsockname] stores, whether memory suffices and what [add_aio] returns. *)
Record ListenEnv := mkListenEnv {
  ls_phase : EnginePhase;
  ls_socket : Z;
  ls_getfd : Z;
  ls_setfd : Z;
  ls_getfl : Z;
  ls_setfl : Z;
  ls_reuse : Z;
  ls_bind : Z;
  ls_listen : Z;
  ls_getsockname : Z;
  ls_name_size : Z;
  ls_name_family : Z;
  ls_name_port : Z;
  ls_alloc : bool;
  ls_add_aio : option Z
}.

Definition AF_INET : Z := 2.
Definition O_NONBLOCK : Z := 2048.
Definition SOCKADDR_IN_SIZE : Z := 16.

Definition set_close_on_exec (getfd setfd : Z) : bool := (0 <=? getfd) && (setfd =? 0).
Definition set_nonblocking (getfl setfl : Z) : bool :=
  (0 <=? getfl) && (negb (Z.land getfl O_NONBLOCK =? 0) || (setfl =? 0)).

(** The port the socket listens on, if it could be set up. *)
Definition listen_port (env : ListenEnv) : option Z :=
  if negb (set_close_on_exec (ls_getfd env) (ls_setfd env)) then None else
  if negb (set_nonblocking (ls_getfl env) (ls_setfl env)) then None else
  if negb (ls_reuse env =? 0) then None else
  if negb (ls_bind env =? 0) then None else
  if negb (ls_listen env =? 0) then None else
  if negb (ls_getsockname env =? 0) then None else
  if (ls_name_size env <? SOCKADDR_IN_SIZE) || negb (ls_name_family env =? AF_INET) then None else
  let actual_port := htons (ls_name_port env) in
  if actual_port =? 0 then None else Some actual_port.

(** Whether it started, the server, the descriptor it opened and those it closed. *)
Definition start (s : CliServer) (env : ListenEnv) : bool * CliServer * option Z * list Z :=
  if _ever_started s || bool_decide (is_Some (_listener s)) then (false, s, None, []) else
  let config := _cli_config s in
  if (_config_max_clients config =? 0) || (CLI_MAX_CLIENTS <? _config_max_clients config)
     || negb (is_valid_cli_prompt_name (_config_prompt_name config)) then (false, s, None, []) else
  if negb (accepts_cli_work (ls_phase env)) then (false, s, None, []) else
  let fd := ls_socket env in
  if fd <? 0 then (false, s, None, []) else
  match listen_port env with
  | None => (false, s, Some fd, [fd])
  | Some actual_port =>
      if negb (ls_alloc env) then (false, s, Some fd, [fd]) else
      match ls_add_aio env with
      | None => (false, s, Some fd, [fd])
      | Some handle => (true, mkCliServer config true (Some fd) (Some handle) fd actual_port, Some fd, [])
      end
  end.

(** [close] up to the sessions: the handle to remove, and whether the sessions are
    closed then. *)
Definition close_listener (s : CliServer) : option Z * bool * CliServer :=
  match _listener s with
  | None => (None, false, mkCliServer (_cli_config s) (_ever_started s) None None (-1) 0)
  | Some _ => (_listener_handle s, true, mkCliServer (_cli_config s) (_ever_started s) None None (-1) 0)
  end.

Definition cli_bound_port (s : CliServer) : Z := _cli_bound_port s.

(** ** The life of a listener *)

Inductive ListenerCall := CallStart (env : ListenEnv) | CallClose.

(** The result of [start], the descriptor that was opened and those closed again. *)
Record ListenerSeen := mkListenerSeen { seen_started : bool; seen_opened : option Z; seen_closed : list Z }.

Fixpoint listener_run (calls : list ListenerCall) (s : CliServer) : CliServer * list ListenerSeen :=
  match calls with
  | [] => (s, [])
  | CallStart env :: calls =>
      let '(started, s, opened, closed) := start s env in
      let '(s, seen) := listener_run calls s in (s, mkListenerSeen started opened closed :: seen)
  | CallClose :: calls => listener_run calls (close_listener s).2
  end.

(** The fields agree on whether there is a listener. *)
Definition listener_ok (s : CliServer) : Prop :=
  match _listener s with
  | Some fd => _ever_started s = true ∧ _listener_fd s = fd ∧ 0 <= fd ∧ is_Some (_listener_handle s) ∧ _cli_bound_port s ≠ 0
  | None => _listener_fd s = -1 ∧ _listener_handle s = None ∧ _cli_bound_port s = 0
  end.

(** What a call of [start] does. *)
Lemma start_effect s env :
  (∃ opened, start s env = (false, s, opened, option_list opened))
  ∨ (∃ fd handle port, start s env = (true, mkCliServer (_cli_config s) true (Some fd) (Some handle) fd port, Some fd, [])
      ∧ 0 <= fd ∧ listen_port env = Some port ∧ _ever_started s = false).
Proof.
  unfold start. destruct (_ever_started s) eqn:Es; cbn [orb]; [left; by exists None|].
  case_bool_decide; [left; by exists None|]. cbv zeta. destruct (_ || _ || _); [left; by exists None|].
  destruct (negb _); [left; by exists None|]. destruct (ls_socket env <? 0) eqn:Ef; [left; by exists None|].
  destruct (listen_port env) as [port|]; [|left; by exists (Some (ls_socket env))].
  destruct (negb (ls_alloc env)); [left; by exists (Some (ls_socket env))|].
  destruct (ls_add_aio env) as [h|]; [|left; by exists (Some (ls_socket env))].
  right. eexists _, _, _. split; [done|]. split; [lia|done].
Qed.

Lemma listen_port_nonzero env port : listen_port env = Some port → port ≠ 0.
Proof.
  unfold listen_port. repeat (destruct (negb _); [done|]). destruct (_ || _); [done|].
  cbv zeta. destruct (htons _ =? 0) eqn:E; [done|]. intros [= <-]. lia.
Qed.

Definition starts (seen : list ListenerSeen) : nat := length (filter (λ e, seen_started e = true) seen).
Definition returned_all (e : ListenerSeen) : Prop :=
  seen_closed e = if seen_started e then [] else option_list (seen_opened e).

Lemma listener_run_ok calls : ∀ s, listener_ok s →
  listener_ok (listener_run calls s).1
  ∧ (starts (listener_run calls s).2 <= if _ever_started s then 0 else 1)%nat
  ∧ Forall returned_all (listener_run calls s).2.
Proof.
  induction calls as [|[env|] calls IH]; intros s Hs; cbn [listener_run].
  - split; [done|]. split; [apply le_0_n|constructor].
  - destruct (start_effect s env) as [[opened ->]|(fd & handle & port & -> & Hfd & Hp & He)].
    + destruct (IH s Hs) as (H1 & H2 & H3). destruct (listener_run calls s). cbn in *. split; [done|].
      split; [done|]. by constructor.
    + set (s' := mkCliServer _ _ _ _ _ _).
      assert (listener_ok s') as Hs' by (repeat split; [done|by exists handle|by eapply listen_port_nonzero]).
      destruct (IH s' Hs') as (H1 & H2 & H3). rewrite He. destruct (listener_run calls s') as [s2 seen].
      cbn [fst snd _ever_started s'] in *. split; [done|]. split; [|by constructor].
      unfold starts in *. rewrite filter_cons_True by done. cbn [length]. lia.
  - assert (listener_ok (close_listener s).2 ∧ _ever_started (close_listener s).2 = _ever_started s) as [Hs' He].
    { unfold close_listener. by destruct (_listener s). }
    destruct (IH _ Hs') as (H1 & H2 & H3). by rewrite He in H2.
Qed.

(** The console listens at most once and leaks no descriptor: however often [start]
    and [close] are called and whatever the system calls, the allocator and [add_aio]
    answer, at most one [start] succeeds; one that fails leaves the server as it was
    and closes the socket it opened, once; and after every call the port is non-zero,
    the descriptor valid and a handle kept exactly when there is a listener. *)
Theorem console_listens_once config calls :
  let '(s, seen) := listener_run calls (new_cli_server config) in
  listener_ok s ∧ (starts seen <= 1)%nat ∧ Forall returned_all seen
  ∧ ∀ env, (start s env).1.1.1 = false → (start s env).1.1.2 = s.
Proof.
  destruct (listener_run_ok calls (new_cli_server config)) as (H1 & H2 & H3); [done|].
  destruct (listener_run calls _) as [s seen]. split; [done|]. split; [exact H2|]. split; [done|].
  intros env. by destruct (start_effect s env) as [[o ->]|(fd & h & p & -> & _)].
Qed.

(** A start on an ephemeral port, and one after it. *)
Definition demo_listen : ListenEnv :=
  mkListenEnv READY 6 1 0 2 0 0 0 0 0 16 AF_INET (htons 4000) true (Some 3).

Example demo_listener :
  listener_run [CallStart demo_listen; CallClose; CallStart demo_listen] (new_cli_server (mkCliConfig 0 8 (literal "monitor")))
  = (mkCliServer (mkCliConfig 0 8 (literal "monitor")) true None None (-1) 0,
     [mkListenerSeen true (Some 6) []; mkListenerSeen false None []]).
Proof. vm_compute. reflexivity. Qed.
