(* ===== verification/MetadataCache.v ===== *)
(** The cache of the file server's metadata ([inc/ftp/metadata_cache.h]): directory
    listings, hashes of downloads and targets of [cd], each in a bank of its own on
    the sharded ARC cache ([ArcCache.v]).

    A directory belongs to one of 64 gates, each a lock with a generation. A read probes
    the cache under the shared lock; on a miss it probes again under the exclusive one,
    asks the database and fills the cache. A write changes the database under the
    exclusive lock and advances the generation on the way out. At every interaction an
    event says what other threads did meanwhile; they respect the lock that is held.

    The database is a parameter: the type of its states, what a query of it answers and
    what a write does. Memory is taken to suffice inside the ARC cache. *)

From Stdlib Require Import String.
From S2P Require Import Prelude FileSystem Effects AlarmSpool ArcPartition ArcLru ArcLfu ArcCache.
Import Concrete.
#[local] Open Scope tlss_scope.

(** ** Data *)

Record FileInfo := mkFileInfo { file_name : bytes; file_type : bytes; create_at : bytes; update_at : bytes }.

(** [StorageContext<T>] *)
Record StorageContext (T : Type) := mkStorage { storage_success : bool; storage_result : T }.
#[global] Arguments mkStorage {T}.
#[global] Arguments storage_success {T}.
#[global] Arguments storage_result {T}.

Record MetadataCacheConfig := mkMetadataConfig {
  list_capacity : Z;
  download_capacity : Z;
  cd_capacity : Z;
  arc_shards : Z;
  list_ttl : Z;        (* milliseconds *)
  download_ttl : Z;
  cd_ttl : Z;
  max_list_bytes : Z
}.

Definition default_config : MetadataCacheConfig :=
  mkMetadataConfig 1024 4096 4096 16 5000 30000 60000 (64 * 1024).

Record MetadataCacheCounters := mkCounters {
  requests : Z; hits : Z; misses : Z; loads : Z; coalesced : Z; admission_skips : Z
}.

Record DirectoryGate := mkGate { generation : Z; versioned_cache_enabled : bool }.

Definition advance (g : DirectoryGate) : DirectoryGate :=
  if generation g =? UINT64_MAX then mkGate (generation g) false
  else mkGate (generation g + 1) (versioned_cache_enabled g).

Definition MS_PER_DAY : Z := 24 * 60 * 60 * 1000.
Definition checked_ttl (ttl : Z) : option Z := if (ttl <? 0) || (MS_PER_DAY <? ttl) then None else Some ttl.

(** An entry holds a pointer to its value; [None] is a null pointer. *)
Record Entry (T : Type) := mkEntry { entry_value : option T; expires_at : Z; entry_generation : Z }.
#[global] Arguments mkEntry {T}.
#[global] Arguments entry_value {T}.
#[global] Arguments expires_at {T}.
#[global] Arguments entry_generation {T}.
#[export] Instance Entry_inhabited T : Inhabited (Entry T) := populate (mkEntry None 0 0).

Record Bank (T : Type) := mkBank {
  bank_enabled : bool;
  bank_ttl : Z;
  bank_max_bytes : Z;
  bank_arc : @HashArcCache bytes (Entry T) _ _;
  bank_counters : MetadataCacheCounters
}.
#[global] Arguments mkBank {T}.
#[global] Arguments bank_enabled {T}.
#[global] Arguments bank_ttl {T}.
#[global] Arguments bank_max_bytes {T}.
#[global] Arguments bank_arc {T}.
#[global] Arguments bank_counters {T}.

Definition no_counters : MetadataCacheCounters := mkCounters 0 0 0 0 0 0.

(** A bank; [hw] is the number of processors. *)
Definition new_bank {T} (hw capacity shards lifetime byte_limit : Z) : option (Bank T) :=
  let enabled := negb (capacity =? 0) && (0 <? lifetime) in
  ttl ← checked_ttl lifetime;
  Some (mkBank enabled ttl byte_limit (new_hash (if enabled then capacity else 0) shards hw) no_counters).

(** The banks and what they hold. *)
Inductive Which := Lists | Downloads | CdPaths.
#[export] Instance Which_eq_dec : EqDecision Which.
Proof. solve_decision. Defined.
Definition Value (b : Which) : Type := match b with Lists => list FileInfo | _ => bytes end.
Definition versioned (b : Which) : bool := match b with CdPaths => false | _ => true end.

Record MetadataCache := mkMetadata {
  _gates : list DirectoryGate;
  _lists : Bank (Value Lists);
  _downloads : Bank (Value Downloads);
  _cd_paths : Bank (Value CdPaths)
}.

Definition kDirectoryGateCount : Z := 64.

Definition new_metadata_cache (hw : Z) (config : MetadataCacheConfig) : option MetadataCache :=
  lists ← new_bank hw (list_capacity config) (arc_shards config) (list_ttl config) (max_list_bytes config);
  downloads ← new_bank hw (download_capacity config) (arc_shards config) (download_ttl config) UINT64_MAX;
  cd_paths ← new_bank hw (cd_capacity config) (arc_shards config) (cd_ttl config) UINT64_MAX;
  Some (mkMetadata (replicate (Z.to_nat kDirectoryGateCount) (mkGate 0 true)) lists downloads cd_paths).

Definition bank_of (b : Which) (c : MetadataCache) : Bank (Value b) :=
  match b with Lists => _lists c | Downloads => _downloads c | CdPaths => _cd_paths c end.
Definition set_bank (b : Which) : Bank (Value b) → MetadataCache → MetadataCache :=
  match b return Bank (Value b) → MetadataCache → MetadataCache with
  | Lists => λ x c, mkMetadata (_gates c) x (_downloads c) (_cd_paths c)
  | Downloads => λ x c, mkMetadata (_gates c) (_lists c) x (_cd_paths c)
  | CdPaths => λ x c, mkMetadata (_gates c) (_lists c) (_downloads c) x
  end.
Definition set_gates (g : list DirectoryGate) (c : MetadataCache) : MetadataCache :=
  mkMetadata g (_lists c) (_downloads c) (_cd_paths c).
Definition set_arc {T} (h : HashArcCache) (x : Bank T) : Bank T :=
  mkBank (bank_enabled x) (bank_ttl x) (bank_max_bytes x) h (bank_counters x).
Definition set_counters {T} (n : MetadataCacheCounters) (x : Bank T) : Bank T :=
  mkBank (bank_enabled x) (bank_ttl x) (bank_max_bytes x) (bank_arc x) n.

(** ** Keys *)

Definition append_field (key field : bytes) : bytes := key ++ to_string (♯field) ++ 58 :: field.
Definition make_key (username directory : bytes) : bytes := append_field (append_field [] username) directory.
Definition make_key_argument (username directory argument : bytes) : bytes :=
  append_field (make_key username directory) argument.

(** What is asked: a user, a directory and, but for listings, an argument. *)
Record Request := mkRequest { rq_user : bytes; rq_directory : bytes; rq_argument : bytes }.

Definition namespace_of (r : Request) : bytes := make_key (rq_user r) (rq_directory r).
Definition key_of (b : Which) (r : Request) : bytes :=
  match b with
  | Lists => make_key (rq_user r) (rq_directory r)
  | _ => make_key_argument (rq_user r) (rq_directory r) (rq_argument r)
  end.

(** ** Sizes *)

Definition SIZEOF_FILE_LIST : Z := 24.
Definition SIZEOF_FILE_INFO : Z := 128.

(** The sizes are added up as long as they stay within the limit. *)
Fixpoint fits_sizes (sizes : list Z) (used limit : Z) : option Z :=
  match sizes with
  | [] => Some used
  | s :: rest => if limit - used <? s then None else fits_sizes rest (used + s) limit
  end.
Definition fits_list (files : list FileInfo) (limit : Z) : bool :=
  if limit <? SIZEOF_FILE_LIST then false else
  bool_decide (is_Some (fits_sizes
    (concat (map (λ f, [SIZEOF_FILE_INFO; ♯(file_name f); ♯(file_type f); ♯(create_at f); ♯(update_at f)]) files))
    SIZEOF_FILE_LIST limit)).
Definition fits (b : Which) : Value b → Z → bool :=
  match b return Value b → Z → bool with
  | Lists => fits_list
  | _ => λ value limit, ♯value <=? limit
  end.

(** ** Reading and writing *)

Inductive Probe := ProbeMiss | ProbeStale | ProbeHit.

Section Cache.
Context (k_hash : bytes → Z).           (* [std::hash<std::string>] *)

Definition gate_index (namespace_key : bytes) : nat := Z.to_nat (k_hash namespace_key mod kDirectoryGateCount).

(** In nanoseconds. *)
Definition jittered_ttl (ttl : Z) (key : bytes) : Z :=
  let percentage := k_hash key mod 21 - 10 in
  (ttl + ttl / 100 * percentage) * NS_PER_MS.

(** The database: its states, the queries and the writes of a directory; [None] is an
    exception. *)
Context {D Write : Type}.
Context (load : ∀ b : Which, Request → D → option (StorageContext (Value b))).
Context (run_write : Write → D → option bool * D) (write_user write_directory : Write → bytes).

Definition write_namespace (x : Write) : bytes := make_key (write_user x) (write_directory x).

(** What another thread may do: look a key up, erase it, fill it with what the database
    answers, or write. *)
Inductive MOuter :=
  | OuterGet (b : Which) (r : Request)
  | OuterErase (b : Which) (r : Request)
  | OuterFill (b : Which) (r : Request) (now : Z)
  | OuterWrite (x : Write).

Record MEvent := mkMEvent { me_outer : list MOuter; me_now : Z; me_alloc : bool }.

Record MWorld := mkMWorld { mcache : MetadataCache; mdb : D; mscript : list MEvent }.
#[local] Abbreviation Meta := (Eff MWorld).

Definition with_cache (c : MetadataCache) (w : MWorld) : MWorld := mkMWorld c (mdb w) (mscript w).
Definition with_arc (b : Which) (h : HashArcCache) (c : MetadataCache) : MetadataCache :=
  set_bank b (set_arc h (bank_of b c)) c.

Definition fresh_entry (b : Which) (r : Request) (value : Value b) (now : Z) (c : MetadataCache)
    : option (Entry (Value b)) :=
  gate ← _gates c !! gate_index (namespace_of r);
  Some (mkEntry (Some value) (now + jittered_ttl (bank_ttl (bank_of b c)) (key_of b r)) (generation gate)).

(** The bank with the entry. *)
Definition fill (b : Which) (r : Request) (value : Value b) (now : Z) (w : MWorld) : option MWorld :=
  entry ← fresh_entry b r value now (mcache w);
  h ← hash_put k_hash (bank_arc (bank_of b (mcache w))) (key_of b r) entry;
  Some (with_cache (with_arc b h (mcache w)) w).

(** The database after a write, with the gate's generation advanced. *)
Definition write_step (x : Write) (w : MWorld) : option (option bool * MWorld) :=
  gate ← _gates (mcache w) !! gate_index (write_namespace x);
  let '(result, db) := run_write x (mdb w) in
  Some (result, mkMWorld (set_gates (<[gate_index (write_namespace x) := advance gate]> (_gates (mcache w))) (mcache w))
                  db (mscript w)).

(** A step of another thread, while this one holds the lock of gate [held]. *)
Definition outer_step (held : option nat) (o : MOuter) (w : MWorld) : option MWorld :=
  match o with
  | OuterGet b r =>
      '(_, h) ← hash_get k_hash (bank_arc (bank_of b (mcache w))) (key_of b r);
      Some (with_cache (with_arc b h (mcache w)) w)
  | OuterErase b r =>
      '(_, h) ← hash_erase k_hash (bank_arc (bank_of b (mcache w))) (key_of b r);
      Some (with_cache (with_arc b h (mcache w)) w)
  | OuterFill b r now =>
      match load b r (mdb w) with
      | Some (mkStorage true value) => fill b r value now w
      | _ => Some w
      end
  | OuterWrite x =>
      if decide (held = Some (gate_index (write_namespace x))) then Some w else snd <$> write_step x w
  end.

Fixpoint outer_steps (held : option nat) (os : list MOuter) (w : MWorld) : option MWorld :=
  match os with [] => Some w | o :: os => w ← outer_step held o w; outer_steps held os w end.

Definition tick (held : option nat) : Meta MEvent := λ w,
  let e := default (mkMEvent [] 0 true) (head (mscript w)) in
  match outer_steps held (me_outer e) w with
  | Some w' => (Returned e, mkMWorld (mcache w') (mdb w') (tail (mscript w')))
  | None => (Stuck, w)
  end.

Definition get_world : Meta MWorld := λ w, (Returned w, w).
Definition put_cache (c : MetadataCache) : Meta unit := λ w, (Returned tt, with_cache c w).

Definition count (b : Which) (f : MetadataCacheCounters → MetadataCacheCounters) : Meta unit :=
  w ← get_world;
  let bank := bank_of b (mcache w) in
  put_cache (set_bank b (set_counters (f (bank_counters bank)) bank) (mcache w)).

Definition add_request (n : MetadataCacheCounters) : MetadataCacheCounters :=
  mkCounters (u64 (requests n + 1)) (hits n) (misses n) (loads n) (coalesced n) (admission_skips n).
Definition add_hit (n : MetadataCacheCounters) : MetadataCacheCounters :=
  mkCounters (requests n) (u64 (hits n + 1)) (misses n) (loads n) (coalesced n) (admission_skips n).
Definition add_miss (n : MetadataCacheCounters) : MetadataCacheCounters :=
  mkCounters (requests n) (hits n) (u64 (misses n + 1)) (loads n) (coalesced n) (admission_skips n).
Definition add_load (n : MetadataCacheCounters) : MetadataCacheCounters :=
  mkCounters (requests n) (hits n) (misses n) (u64 (loads n + 1)) (coalesced n) (admission_skips n).
Definition add_coalesced (n : MetadataCacheCounters) : MetadataCacheCounters :=
  mkCounters (requests n) (hits n) (misses n) (loads n) (u64 (coalesced n + 1)) (admission_skips n).
Definition add_skip (n : MetadataCacheCounters) : MetadataCacheCounters :=
  mkCounters (requests n) (hits n) (misses n) (loads n) (coalesced n) (u64 (admission_skips n + 1)).

Definition the_gate (i : nat) : Meta DirectoryGate := w ← get_world; defined (_gates (mcache w) !! i).

(** [probe], under the lock of gate [i]. *)
Definition probe (b : Which) (r : Request) (i : nat) : Meta (Probe * option (Value b)) :=
  gate ← the_gate i;
  if versioned b && negb (versioned_cache_enabled gate) then mret (ProbeMiss, None) else
  w ← get_world;
  found ← defined (hash_get k_hash (bank_arc (bank_of b (mcache w))) (key_of b r));
  _ ← put_cache (with_arc b found.2 (mcache w));
  match found.1 with
  | None => mret (ProbeMiss, None)
  | Some entry =>
      match entry_value entry with
      | None => mret (ProbeStale, None)
      | Some value =>
          e ← tick (Some i);
          gate ← the_gate i;
          if (expires_at entry <=? me_now e)
             || (versioned b && negb (entry_generation entry =? generation gate))
          then mret (ProbeStale, None) else mret (ProbeHit, Some value)
      end
  end.

Definition run_load (b : Which) (r : Request) : Meta (StorageContext (Value b)) :=
  w ← get_world;
  match load b r (mdb w) with Some result => mret result | None => throw OtherExn end.

Definition put_entry (b : Which) (r : Request) (value : Value b) (now : Z) : Meta unit := λ w,
  match fill b r value now w with Some w' => (Returned tt, w') | None => (Stuck, w) end.

(** The exclusive part of [read]. *)
Definition read_exclusive (b : Which) (r : Request) (i : nat) : Meta (StorageContext (Value b)) :=
  second ← probe b r i;
  match second with
  | (ProbeHit, Some value) => _ ← count b add_coalesced; mret (mkStorage true value)
  | (outcome, _) =>
      _ ← match outcome with
          | ProbeStale =>
              w ← get_world;
              erased ← defined (hash_erase k_hash (bank_arc (bank_of b (mcache w))) (key_of b r));
              put_cache (with_arc b erased.2 (mcache w))
          | _ => mret tt
          end;
      _ ← count b add_load;
      _ ← tick (Some i);
      result ← run_load b r;
      if negb (storage_success result) then mret result else
      w ← get_world;
      gate ← the_gate i;
      if (versioned b && negb (versioned_cache_enabled gate))
         || negb (fits b (storage_result result) (bank_max_bytes (bank_of b (mcache w))))
      then _ ← count b add_skip; mret result else
      e ← tick (Some i);
      if negb (me_alloc e) then throw BadAlloc else
      _ ← put_entry b r (storage_result result) (me_now e);
      mret (mkStorage true (storage_result result))
  end.

Definition read (b : Which) (r : Request) : Meta (StorageContext (Value b)) :=
  _ ← count b add_request;
  w ← get_world;
  if negb (bank_enabled (bank_of b (mcache w))) then
    _ ← count b add_miss;
    _ ← count b add_load;
    _ ← tick None;
    run_load b r
  else
  let i := gate_index (namespace_of r) in
  _ ← tick None;
  first ← probe b r i;
  match first.2 with
  | Some value => _ ← count b add_hit; mret (mkStorage true value)
  | None =>
      _ ← count b add_miss;
      _ ← tick None;
      read_exclusive b r i
  end.

Definition list_directory (username directory : bytes) : Meta (StorageContext (list FileInfo)) :=
  read Lists (mkRequest username directory []).
Definition download (username directory filename : bytes) : Meta (StorageContext bytes) :=
  read Downloads (mkRequest username directory filename).
Definition cd (username directory argument : bytes) : Meta (StorageContext bytes) :=
  read CdPaths (mkRequest username directory argument).

(** [write]: the generation advances however the writer ends. *)
Definition write (x : Write) : Meta bool :=
  _ ← tick None;
  w ← get_world;
  done ← defined (write_step x w);
  _ ← (λ _, (Returned tt, done.2));
  match done.1 with Some result => mret result | None => throw OtherExn end.

End Cache.
