(* ===== verification/MetadataSafety.v ===== *)
(** The metadata cache ([MetadataCache.v]) never answers with something the database
    would not: its invariant, and the reads and writes that keep it. *)

From Stdlib Require Import String.
From S2P Require Import Prelude FileSystem Effects AlarmSpool ArcPartition ArcLru ArcLfu ArcCache MetadataCache.
Import Concrete.
#[local] Open Scope tlss_scope.

(** ** Keys *)

(** The number that digits stand for. *)
Definition digits_value (v : Z) (l : bytes) : Z := foldl (λ a c, a * 10 + (c - 48)) v l.

Lemma decimal_loop_value fuel : ∀ v acc,
  0 <= v < 10 ^ Z.of_nat fuel → digits_value 0 (decimal_loop fuel v acc) = digits_value v acc.
Proof.
  induction fuel as [|fuel IH]; intros v acc Hv; cbn [decimal_loop].
  { change (10 ^ Z.of_nat 0) with 1 in Hv. by replace v with 0 by lia. }
  rewrite Nat2Z.inj_succ, Z.pow_succ_r in Hv by lia. cbv zeta. destruct (v <? 10) eqn:E.
  - unfold digits_value. cbn. rewrite Z.mod_small by lia. f_equal. lia.
  - rewrite IH by (Z.to_euclidean_division_equations; lia). unfold digits_value. cbn. f_equal.
    Z.to_euclidean_division_equations; lia.
Qed.

Lemma to_string_value v : is_u64 v → digits_value 0 (to_string v) = v.
Proof. unfold is_u64, to_string. intros Hv. rewrite decimal_loop_value; [done|]. change (10 ^ Z.of_nat 20) with 100000000000000000000. lia. Qed.

(** Digits end where something else begins. *)
Lemma digits_end (a b : bytes) c l k :
  Forall (λ d, 48 <= d <= 57) a → Forall (λ d, 48 <= d <= 57) b → ¬ 48 <= c <= 57 →
  a ++ c :: l = b ++ c :: k → a = b ∧ l = k.
Proof.
  revert b. induction a as [|x a IH]; intros [|y b] Ha Hb Hc He; simplify_eq/=.
  - done.
  - by inversion Hb.
  - by inversion Ha.
  - inversion Ha; inversion Hb; subst. destruct (IH b) as [-> ->]; done.
Qed.

(** A field with its length in front can be told from what follows. *)
Lemma field_inj f g l k :
  is_u64 (♯f) → is_u64 (♯g) → (to_string (♯f) ++ 58 :: f) ++ l = (to_string (♯g) ++ 58 :: g) ++ k → f = g ∧ l = k.
Proof.
  intros Hf Hg He. rewrite <- !app_assoc in He. cbn [app] in He.
  apply digits_end in He as [Hn He]; [|by apply decimal_digits|by apply decimal_digits|lia].
  apply (f_equal (digits_value 0)) in Hn. rewrite !to_string_value in Hn by done.
  apply app_inj_1; [unfold Zlen in Hn; lia|done].
Qed.

Definition request_ok (b : Which) (r : Request) : Prop :=
  is_u64 (♯(rq_user r)) ∧ is_u64 (♯(rq_directory r)) ∧ is_u64 (♯(rq_argument r)) ∧ (b = Lists → rq_argument r = []).

Lemma make_key_inj u d u' d' l l' :
  is_u64 (♯u) → is_u64 (♯d) → is_u64 (♯u') → is_u64 (♯d') →
  make_key u d ++ l = make_key u' d' ++ l' → u = u' ∧ d = d' ∧ l = l'.
Proof.
  unfold make_key, append_field. intros ? ? ? ? He. rewrite !app_nil_l in He. rewrite <- !(app_assoc (_ ++ 58 :: _)) in He.
  apply field_inj in He as [-> He]; [|done..]. by apply field_inj in He as [-> ->].
Qed.

Lemma key_of_inj b r r' : request_ok b r → request_ok b r' → key_of b r = key_of b r' → r = r'.
Proof.
  intros (? & ? & ? & Hl) (? & ? & ? & Hl') He. destruct r as [u d a], r' as [u' d' a'], b; cbn [key_of rq_user rq_directory rq_argument] in *.
  - rewrite Hl, Hl' by done. rewrite <- (app_nil_r (make_key u d)), <- (app_nil_r (make_key u' d')) in He.
    by apply make_key_inj in He as (-> & -> & _).
  - unfold make_key_argument, append_field in He. apply make_key_inj in He as (-> & -> & He); [|done..].
    rewrite <- (app_nil_r (_ ++ 58 :: a)), <- (app_nil_r (_ ++ 58 :: a')) in He. by apply field_inj in He as [-> _].
  - unfold make_key_argument, append_field in He. apply make_key_inj in He as (-> & -> & He); [|done..].
    rewrite <- (app_nil_r (_ ++ 58 :: a)), <- (app_nil_r (_ ++ 58 :: a')) in He. by apply field_inj in He as [-> _].
Qed.

(** ** What a bank holds *)

Section Arc.
Context {T : Type} (k_hash : bytes → Z).
Implicit Types (P : bytes → Entry T → Prop) (h : @HashArcCache bytes (Entry T) _ _).

Definition arc_holds P h : Prop :=
  _slice_num h = 0 ∨ (_slice_num h ≠ 0 ∧ hash_ok h ∧ ∃ m, tracks k_hash h m None ∧ map_Forall P m).

Lemma arc_holds_mono P P' h : (∀ k e, P k e → P' k e) → arc_holds P h → arc_holds P' h.
Proof.
  intros HP [?|(? & ? & m & ? & Hm)]; [by left|right]. split; [done|]. split; [done|]. exists m. split; [done|].
  by eapply map_Forall_impl.
Qed.

Lemma tracks_cold h m hot : tracks k_hash h m hot → tracks k_hash h m None.
Proof. intros [? _]. by split. Qed.

Lemma arc_holds_get P h key : arc_holds P h →
  ∃ found h', hash_get k_hash h key = Some (found, h') ∧ arc_holds P h' ∧ _slice_num h' = _slice_num h
    ∧ (∀ e, found = Some e → P key e).
Proof.
  intros [Hn|(Hn & Hok & m & Ht & Hm)].
  - exists None, h. unfold hash_get. rewrite Hn. split; [done|]. split; [by left|done].
  - destruct (hash_get_step k_hash h m None key Hok Hn Ht) as (r & h' & Hg & Hok' & Hn' & Hr & _ & Ht').
    exists r, h'. split; [done|].
    split; [right; rewrite Hn'; do 2 (split; [done|]); exists m; split; [by eapply tracks_cold|done]|]. split; [done|].
    intros e ->. destruct Hr as [?|Hr]; [done|]. by apply (Hm key).
Qed.

Lemma arc_holds_erase P h key : arc_holds P h →
  ∃ b h', hash_erase k_hash h key = Some (b, h') ∧ arc_holds P h' ∧ _slice_num h' = _slice_num h.
Proof.
  intros [Hn|(Hn & Hok & m & Ht & Hm)].
  - exists false, h. unfold hash_erase. rewrite Hn. split; [done|]. split; [by left|done].
  - destruct (hash_erase_step k_hash h m None key Hok Hn Ht) as (b & h' & Hg & Hok' & Hn' & Ht').
    exists b, h'. split; [done|]. split; [|done]. right. rewrite Hn'. split; [done|]. split; [done|].
    eexists. split; [by eapply tracks_cold|]. by apply map_Forall_delete.
Qed.

Lemma arc_holds_put P h key e : arc_holds P h → P key e →
  ∃ h', hash_put k_hash h key e = Some h' ∧ arc_holds P h' ∧ _slice_num h' = _slice_num h.
Proof.
  intros [Hn|(Hn & Hok & m & Ht & Hm)] He.
  - exists h. unfold hash_put. rewrite Hn. split; [done|]. split; [by left|done].
  - destruct (hash_put_step k_hash h m None key e Hok Hn Ht) as (h' & Hg & Hok' & Hn' & Ht').
    exists h'. split; [done|]. split; [|done]. right. rewrite Hn'. split; [done|]. split; [done|].
    eexists. split; [by eapply tracks_cold|]. by apply map_Forall_insert_2.
Qed.
End Arc.

Lemma bank_set_same b x c : bank_of b (set_bank b x c) = x.
Proof. by destruct b. Qed.
Lemma bank_set_other b b' x c : b' ≠ b → bank_of b' (set_bank b x c) = bank_of b' c.
Proof. by destruct b, b'. Qed.
Lemma gates_set_bank b x c : _gates (set_bank b x c) = _gates c.
Proof. by destruct b. Qed.

(** ** The invariant *)

Section Safety.
Context (k_hash : bytes → Z) {D Write : Type}.
Context (load : ∀ b : Which, Request → D → option (StorageContext (Value b))).
Context (run_write : Write → D → option bool * D) (write_user write_directory : Write → bytes).
#[local] Abbreviation World := (@MWorld D Write).
#[local] Abbreviation Meta := (Eff World).
#[local] Abbreviation gate_of := (λ r : Request, gate_index k_hash (namespace_of r)).
#[local] Abbreviation write_gate := (λ x : Write, gate_index k_hash (write_namespace write_user write_directory x)).

Definition answers {b} (r : Request) (d : D) (v : Value b) : Prop := load b r d = Some (mkStorage true v).

(** What the cache relies on: a write of a directory leaves the successful answers
    about other directories as they are, and directories are never removed. *)
Record write_contract : Prop := {
  wc_local x b r d (v : Value b) : versioned b = true →
    namespace_of r ≠ write_namespace write_user write_directory x →
    answers r d v → answers r (run_write x d).2 v;
  wc_directories x r d (v : Value CdPaths) : answers r d v → answers r (run_write x d).2 v
}.
Hypothesis contract : write_contract.

(** An entry that would be used is what the database answers. *)
Definition valid_entry (w : World) (b : Which) (key : bytes) (e : Entry (Value b)) : Prop :=
  ∃ r v gate, request_ok b r ∧ key = key_of b r ∧ entry_value e = Some v
    ∧ _gates (mcache w) !! gate_of r = Some gate
    ∧ entry_generation e <= generation gate
    ∧ (versioned b = true → entry_generation e = generation gate → versioned_cache_enabled gate = true →
       answers r (mdb w) v)
    ∧ (versioned b = false → answers r (mdb w) v).

Definition outer_ok (o : MOuter (Write := Write)) : Prop :=
  match o with OuterGet b r | OuterErase b r | OuterFill b r _ => request_ok b r | OuterWrite _ => True end.

Definition bank_ok (w : World) (b : Which) : Prop :=
  arc_holds k_hash (valid_entry w b) (bank_arc (bank_of b (mcache w)))
  ∧ (bank_enabled (bank_of b (mcache w)) = true → _slice_num (bank_arc (bank_of b (mcache w))) ≠ 0).

Record minv (w : World) : Prop := {
  mi_gates : length (_gates (mcache w)) = 64%nat;
  mi_banks b : bank_ok w b;
  mi_script : Forall (λ e, Forall outer_ok (me_outer e)) (mscript w)
}.

(** What holds of gate [i] as long as its lock is held. *)
Record stable (i : nat) (w w' : World) : Prop := {
  st_gate : _gates (mcache w') !! i = _gates (mcache w) !! i;
  st_answers b r (v : Value b) : versioned b = true → gate_of r = i → answers r (mdb w) v → answers r (mdb w') v;
  st_directories r (v : Value CdPaths) : answers r (mdb w) v → answers r (mdb w') v
}.

#[local] Instance stable_preorder i : PreOrder (stable i).
Proof.
  split; [by intros w; split|]. intros w1 w2 w3 [G1 A1 D1] [G2 A2 D2].
  split; [by rewrite G2|intros; by apply A2, A1|intros; by apply D2, D1].
Qed.

Lemma gate_lt ns : (gate_index k_hash ns < 64)%nat.
Proof.
  unfold gate_index, kDirectoryGateCount. pose proof (Z.mod_pos_bound (k_hash ns) 64). lia.
Qed.

Lemma gate_exists w ns : minv w → ∃ g, _gates (mcache w) !! gate_index k_hash ns = Some g.
Proof. intros [Hg _ _]. apply lookup_lt_is_Some. rewrite Hg. apply gate_lt. Qed.

(** Entries stay valid when gates and database stay. *)
Lemma valid_same w w' b key e :
  _gates (mcache w') = _gates (mcache w) → mdb w' = mdb w → valid_entry w b key e → valid_entry w' b key e.
Proof. intros Hg Hd. unfold valid_entry. by rewrite Hg, Hd. Qed.

(** A change of the ARC cache of one bank, or of its counters. *)
Lemma minv_bank w b x :
  minv w → arc_holds k_hash (valid_entry w b) (bank_arc x) →
  bank_enabled x = bank_enabled (bank_of b (mcache w)) →
  _slice_num (bank_arc x) = _slice_num (bank_arc (bank_of b (mcache w))) →
  minv (with_cache (set_bank b x (mcache w)) w).
Proof.
  intros [Hg Hb Hs] Hx He Hn. split; cbn [mcache with_cache mscript]; [by rewrite gates_set_bank| |done].
  assert (∀ b', arc_holds k_hash (valid_entry (with_cache (set_bank b x (mcache w)) w) b') (bank_arc (bank_of b' (mcache w)))) as Hsame.
  { intros b'. eapply arc_holds_mono; [|apply (Hb b')]. intros k e. apply valid_same; [apply gates_set_bank|done]. }
  assert (bank_ok (with_cache (set_bank b x (mcache w)) w) b) as Hself.
  { split; cbn [mcache with_cache]; rewrite bank_set_same; [|rewrite Hn, He; apply Hb].
    eapply arc_holds_mono; [|exact Hx]. intros k e. apply valid_same; [apply gates_set_bank|done]. }
  intros b'. destruct (decide (b' = b)) as [->|Hne]; [done|].
  split; cbn [mcache with_cache]; [|rewrite bank_set_other by done; apply Hb].
  specialize (Hsame b'). by rewrite bank_set_other.
Qed.

Lemma minv_arc w b h :
  minv w → arc_holds k_hash (valid_entry w b) h → _slice_num h = _slice_num (bank_arc (bank_of b (mcache w))) →
  minv (with_cache (with_arc b h (mcache w)) w).
Proof. intros I Hh Hn. by apply minv_bank. Qed.

Lemma stable_cache i w c : _gates c = _gates (mcache w) → stable i w (with_cache c w).
Proof. intros Hg. split; [by cbn; rewrite Hg|done..]. Qed.

(** The database's answer may be put into the cache. *)
Lemma minv_fill b r v now w :
  minv w → request_ok b r → answers r (mdb w) v →
  ∃ w', fill k_hash b r v now w = Some w' ∧ minv w' ∧ mdb w' = mdb w ∧ (∀ i, stable i w w').
Proof.
  intros I Hr Ha. unfold fill, fresh_entry. destruct (gate_exists w (namespace_of r) I) as [g Hg].
  rewrite Hg. cbn [mbind option_bind]. set (e := mkEntry _ _ _).
  assert (valid_entry w b (key_of b r) e) as He by (exists r, v, g; cbn; split_and!; try done; lia).
  destruct (arc_holds_put k_hash (valid_entry w b) (bank_arc (bank_of b (mcache w))) (key_of b r) e)
    as (h & -> & Hh & Hn); [apply (mi_banks _ I b)|done|]. cbn [mbind option_bind].
  eexists. split; [done|]. split; [by apply minv_arc|]. split; [done|].
  intros i. apply stable_cache. unfold with_arc. apply gates_set_bank.
Qed.

(** A write makes the entries of its gate useless and keeps the others valid. *)
Lemma advance_later g : generation g < generation (advance g) ∨ versioned_cache_enabled (advance g) = false ∧ generation (advance g) = generation g.
Proof. unfold advance. destruct (_ =? _); cbn; [by right|left; lia]. Qed.

Lemma valid_written w x g b key e :
  _gates (mcache w) !! write_gate x = Some g →
  valid_entry w b key e →
  valid_entry (mkMWorld (set_gates (<[write_gate x := advance g]> (_gates (mcache w))) (mcache w))
                 (run_write x (mdb w)).2 (mscript w)) b key e.
Proof.
  intros Hg (r & v & gate & Hr & -> & Hv & Hgate & Hgen & Hval & Hdir).
  destruct (decide (write_gate x = gate_of r)) as [E|E].
  - exists r, v, (advance g). rewrite <- E in Hgate. assert (g = gate) as -> by congruence.
    cbn [mcache set_gates _gates mdb].
    split; [done|]. split; [done|]. split; [done|]. split.
    { rewrite <- E. apply list_lookup_insert_eq. by eapply lookup_lt_Some. }
    pose proof (advance_later gate) as Hadv. split; [lia|].
    split; [|intros Hb; destruct b; try done; by apply (wc_directories contract), Hdir].
    intros Hb Heq Hen. destruct Hadv as [?|[? ?]]; [lia|congruence].
  - exists r, v, gate. cbn [mcache set_gates _gates mdb]. split; [done|]. split; [done|]. split; [done|].
    split; [by rewrite list_lookup_insert_ne|]. split; [done|].
    split; [|intros Hb; destruct b; try done; by apply (wc_directories contract), Hdir].
    intros Hb Heq Hen. apply (wc_local contract); [done| |by apply Hval]. intros Hns. apply E. by rewrite Hns.
Qed.

Lemma minv_write w x : minv w →
  ∃ result w', write_step k_hash run_write write_user write_directory x w = Some (result, w')
    ∧ minv w' ∧ result = (run_write x (mdb w)).1 ∧ mdb w' = (run_write x (mdb w)).2
    ∧ ∀ i, i ≠ write_gate x → stable i w w'.
Proof.
  intros I. unfold write_step. destruct (gate_exists w (write_namespace write_user write_directory x) I) as [g Hg].
  rewrite Hg. cbn [mbind option_bind]. destruct (run_write x (mdb w)) as [result db] eqn:Ew.
  eexists _, _. split; [done|]. assert ((run_write x (mdb w)).2 = db) as Hdb by by rewrite Ew.
  split; [|split; [done|split; [done|]]].
  - destruct I as [Hl Hb Hs]. split; cbn; [by rewrite length_insert| |done]. intros b. split; cbn; [|apply (Hb b)].
    eapply arc_holds_mono; [|apply (Hb b)]. intros k e He.
    apply (valid_written w x g) in He; [|done]. by rewrite Hdb in He.
  - intros i Hi. split; cbn [mcache set_gates _gates mdb].
    + by rewrite list_lookup_insert_ne.
    + intros b r v Hb Hr Ha. rewrite <- Hdb. apply (wc_local contract); [done| |done].
      intros Hns. apply Hi. rewrite <- Hr. by rewrite Hns.
    + intros r v Ha. rewrite <- Hdb. by apply (wc_directories contract).
Qed.

(** *** Other threads *)

#[local] Abbreviation outer_step' := (outer_step k_hash load run_write write_user write_directory).
#[local] Abbreviation outer_steps' := (outer_steps k_hash load run_write write_user write_directory).

Lemma minv_outer held o w : minv w → outer_ok o →
  ∃ w', outer_step' held o w = Some w' ∧ minv w' ∧ ∀ i, held = Some i → stable i w w'.
Proof.
  intros I Ho. destruct o as [b r|b r|b r now|x]; cbn [outer_step outer_ok] in *.
  - destruct (arc_holds_get k_hash (valid_entry w b) (bank_arc (bank_of b (mcache w))) (key_of b r))
      as (f & h & -> & Hh & Hn & _); [apply (mi_banks _ I b)|]. cbn. eexists. split; [done|].
    split; [by apply minv_arc|]. intros i _. apply stable_cache. apply gates_set_bank.
  - destruct (arc_holds_erase k_hash (valid_entry w b) (bank_arc (bank_of b (mcache w))) (key_of b r))
      as (f & h & -> & Hh & Hn); [apply (mi_banks _ I b)|]. cbn. eexists. split; [done|].
    split; [by apply minv_arc|]. intros i _. apply stable_cache. apply gates_set_bank.
  - destruct (load b r (mdb w)) as [[[] v]|] eqn:El; [|by exists w..].
    destruct (minv_fill b r v now w I Ho El) as (w' & -> & I' & _ & Hs). exists w'.
    split; [done|]. split; [done|]. intros i _. apply Hs.
  - case_decide as Hd; [by exists w|].
    destruct (minv_write w x I) as (result & w' & -> & I' & _ & _ & Hs). exists w'. split; [done|]. split; [done|].
    intros i ->. apply Hs. congruence.
Qed.

Lemma minv_outers held os : ∀ w, minv w → Forall outer_ok os →
  ∃ w', outer_steps' held os w = Some w' ∧ minv w' ∧ ∀ i, held = Some i → stable i w w'.
Proof.
  induction os as [|o os IH]; intros w I Ho; cbn [outer_steps]; [by exists w|].
  inversion Ho as [|? ? Ho1 Ho2]; subst. destruct (minv_outer held o w I Ho1) as (w1 & -> & I1 & S1). cbn.
  destruct (IH w1 I1 Ho2) as (w2 & -> & I2 & S2). exists w2. split; [done|]. split; [done|].
  intros i Hi. etrans; [by apply S1|by apply S2].
Qed.

(** ** Reads and writes *)

Definition mtrans (w : World) (l : list unit) (w' : World) : Prop := minv w' ∧ l = [].
#[local] Instance metadata_histories : Histories World unit minv mtrans.
Proof. split; [by intros w l w' []|done|]. by intros w l w1 k w2 [_ ->] [? ->]. Qed.
#[local] Abbreviation mwp := (hoare mtrans).

Lemma mwp_tick held Q w :
  minv w → (∀ e w', minv w' → (∀ i, held = Some i → stable i w w') → Q e [] w') →
  mwp (tick k_hash load run_write write_user write_directory held) Q w.
Proof.
  intros I HQ. unfold hoare, tick. set (e := default _ _).
  assert (Forall outer_ok (me_outer e)) as He.
  { subst e. pose proof (mi_script _ I) as Hs. destruct (mscript w) as [|e es]; cbn; [constructor|]. by inversion Hs. }
  destruct (minv_outers held (me_outer e) w I He) as (w' & -> & I' & S'). cbn [fst snd]. exists [].
  set (w2 := mkMWorld _ _ _). assert (minv w2) as I2.
  { destruct I' as [Hg Hb Hs]. split; [done|exact Hb|]. cbn. destruct (mscript w'); [done|by inversion Hs]. }
  split; [done|]. apply HQ; [done|]. intros i Hi. destruct (S' i Hi) as [Sg Sa Sd]. by split.
Qed.

Lemma mwp_world Q w : minv w → Q w [] w → mwp get_world Q w.
Proof. apply hoare_ret. Qed.

Lemma mwp_cache c Q w : minv (with_cache c w) → Q tt [] (with_cache c w) → mwp (put_cache c) Q w.
Proof. intros I HQ. exists []. by split. Qed.

Lemma mwp_gate r Q w :
  minv w → (∀ g, _gates (mcache w) !! gate_of r = Some g → Q g [] w) → mwp (the_gate (gate_of r)) Q w.
Proof.
  intros I HQ. destruct (gate_exists w (namespace_of r) I) as [g Hg]. unfold the_gate.
  apply hoare_bind, mwp_world; [done|]. eapply hoare_defined; [done|exact Hg|]. by apply HQ.
Qed.

(** Counting changes nothing else. *)
Lemma mwp_count b f Q w :
  minv w → (∀ w', minv w' → mdb w' = mdb w → _gates (mcache w') = _gates (mcache w) → Q tt [] w') → mwp (count b f) Q w.
Proof.
  intros I HQ. unfold count. apply hoare_bind, mwp_world; [done|].
  assert (minv (with_cache (set_bank b (set_counters (f (bank_counters (bank_of b (mcache w)))) (bank_of b (mcache w))) (mcache w)) w))
    by (apply minv_bank; [done|apply (mi_banks _ I b)|done..]).
  apply mwp_cache; [done|]. apply HQ; [done..|]. apply gates_set_bank.
Qed.

Lemma stable_same i w w' : mdb w' = mdb w → _gates (mcache w') = _gates (mcache w) → stable i w w'.
Proof. intros Hd Hg. split; rewrite ?Hd, ?Hg; done. Qed.

(** What a probe finds is what the database answers when it ends. *)
Lemma mwp_probe b r w :
  minv w → request_ok b r →
  mwp (probe k_hash load run_write write_user write_directory b r (gate_of r))
    (λ p _ w', stable (gate_of r) w w' ∧
       match p with
       | (ProbeHit, v) => ∃ x, v = Some x ∧ answers r (mdb w') x
       | (_, v) => v = None
       end) w.
Proof.
  intros I Hr. unfold probe. apply hoare_bind, mwp_gate; [done|]. intros g Hg.
  destruct (versioned b && negb (versioned_cache_enabled g)) eqn:Ev; [by apply hoare_ret|].
  apply hoare_bind, mwp_world; [done|].
  destruct (arc_holds_get k_hash (valid_entry w b) (bank_arc (bank_of b (mcache w))) (key_of b r))
    as (f & h & Hget & Hh & Hn & Hf); [apply (mi_banks _ I b)|].
  apply hoare_bind. eapply hoare_defined; [done|exact Hget|]. cbn [fst snd].
  apply hoare_bind, mwp_cache; [by apply minv_arc|]. set (w1 := with_cache _ w).
  assert (minv w1) as I1 by by apply minv_arc.
  assert (stable (gate_of r) w w1) as S1 by (apply stable_same; [done|apply gates_set_bank]).
  destruct f as [e|]; [|by apply hoare_ret]. destruct (Hf e eq_refl) as (r' & v & g' & Hr' & Hk & Hv & Hg' & Hgen & Hval & Hdir).
  apply key_of_inj in Hk as <-; [|done..]. rewrite Hv. assert (g' = g) as -> by congruence.
  apply hoare_bind, mwp_tick; [done|]. intros ev w2 I2 S2. specialize (S2 _ eq_refl).
  apply hoare_bind, mwp_gate; [done|]. intros g2 Hg2.
  assert (stable (gate_of r) w w2) as S by by etrans.
  rewrite (st_gate _ _ _ S), Hg in Hg2. injection Hg2 as <-.
  destruct (_ || _) eqn:Ex; apply hoare_ret; try done. split; [done|]. exists v. split; [done|].
  apply orb_false_iff in Ex as [_ Ex]. destruct (versioned b) eqn:Eb.
  - apply (st_answers _ _ _ S); [done|done|]. cbn in Ex, Ev. apply Hval; [done|lia|by destruct (versioned_cache_enabled g)].
  - destruct b; try done. apply (st_directories _ _ _ S). by apply Hdir.
Qed.

Lemma mwp_load b r w :
  minv w → mwp (run_load load b r) (λ result _ w', w' = w ∧ load b r (mdb w) = Some result) w.
Proof.
  intros I. unfold run_load. apply hoare_bind, mwp_world; [done|].
  destruct (load b r (mdb w)) as [result|] eqn:El; [by apply hoare_ret|by apply hoare_throw].
Qed.

(** The successful answers about a request stay as long as its lock is held. *)
Lemma stable_request b r (v : Value b) w w' :
  stable (gate_of r) w w' → answers r (mdb w) v → answers r (mdb w') v.
Proof.
  intros S Ha. destruct (versioned b) eqn:Eb; [by apply (st_answers _ _ _ S)|].
  destruct b; try done. by apply (st_directories _ _ _ S).
Qed.

(** The query under the exclusive lock, and the entry for its answer. *)
Lemma mwp_load_and_fill b r w :
  minv w → request_ok b r →
  mwp (_ ← tick k_hash load run_write write_user write_directory (Some (gate_of r));
       result ← run_load load b r;
       if negb (storage_success result) then mret result else
       w ← get_world;
       gate ← the_gate (gate_of r);
       if (versioned b && negb (versioned_cache_enabled gate))
          || negb (fits b (storage_result result) (bank_max_bytes (bank_of b (mcache w))))
       then _ ← count b add_skip; mret result else
       e ← tick k_hash load run_write write_user write_directory (Some (gate_of r));
       if negb (me_alloc e) then throw BadAlloc else
       _ ← put_entry k_hash b r (storage_result result) (me_now e);
       mret (mkStorage true (storage_result result)))
    (λ result _ w', load b r (mdb w') = Some result) w.
Proof.
  intros I Hr. apply hoare_bind, mwp_tick; [done|]. intros _ w1 I1 _.
  apply hoare_bind. eapply hoare_mono; [by apply mwp_load|]. cbv beta. intros [success v] l w2 _ _ [-> Hl].
  cbn [storage_success storage_result]. destruct success; cbn [negb]; [|by apply hoare_ret].
  apply hoare_bind, mwp_world; [done|]. apply hoare_bind, mwp_gate; [done|]. intros g Hg.
  destruct (_ || _).
  { apply hoare_bind, mwp_count; [done|]. intros w3 I3 Hd _. apply hoare_ret; [done|]. by rewrite Hd. }
  apply hoare_bind, mwp_tick; [done|]. intros e w3 I3 S3. specialize (S3 _ eq_refl).
  assert (answers r (mdb w3) v) as Ha by by eapply stable_request.
  destruct (negb (me_alloc e)); [by apply hoare_throw|].
  destruct (minv_fill b r v (me_now e) w3 I3 Hr Ha) as (w4 & Hf & I4 & Hd & _).
  apply hoare_bind. exists []. unfold put_entry. rewrite Hf. cbn [fst snd]. split; [done|].
  apply hoare_ret; [done|]. unfold answers in Ha. by rewrite Hd.
Qed.

Lemma mwp_read_exclusive b r w :
  minv w → request_ok b r →
  mwp (read_exclusive k_hash load run_write write_user write_directory b r (gate_of r))
    (λ result _ w', load b r (mdb w') = Some result) w.
Proof.
  intros I Hr. unfold read_exclusive. apply hoare_bind. eapply hoare_mono; [by apply mwp_probe|]. cbv beta.
  intros [[] v] l1 w1 _ I1 [S1 HP]; cbn [fst snd].
  - apply hoare_bind, hoare_ret; [done|]. apply hoare_bind, mwp_count; [done|]. intros w2 I2 _ _.
    by apply mwp_load_and_fill.
  - apply hoare_bind, hoare_bind, mwp_world; [done|].
    destruct (arc_holds_erase k_hash (valid_entry w1 b) (bank_arc (bank_of b (mcache w1))) (key_of b r))
      as (f & h & He & Hh & Hn); [apply (mi_banks _ I1 b)|].
    apply hoare_bind. eapply hoare_defined; [done|exact He|]. apply mwp_cache; [by apply minv_arc|].
    apply hoare_bind, mwp_count; [by apply minv_arc|]. intros w2 I2 _ _. by apply mwp_load_and_fill.
  - destruct HP as (x & -> & Ha). apply hoare_bind, mwp_count; [done|]. intros w2 I2 Hd _.
    apply hoare_ret; [done|]. unfold answers in Ha. by rewrite Hd.
Qed.

(** A read answers what the database answers when it returns. *)
Lemma mwp_read b r w :
  minv w → request_ok b r →
  mwp (read k_hash load run_write write_user write_directory b r) (λ result _ w', load b r (mdb w') = Some result) w.
Proof.
  intros I Hr. unfold read. apply hoare_bind, mwp_count; [done|]. intros w1 I1 _ _.
  apply hoare_bind, mwp_world; [done|]. destruct (negb (bank_enabled _)).
  - apply hoare_bind, mwp_count; [done|]. intros w2 I2 _ _. apply hoare_bind, mwp_count; [done|]. intros w3 I3 _ _.
    apply hoare_bind, mwp_tick; [done|]. intros _ w4 I4 _. eapply hoare_mono; [by apply mwp_load|].
    by intros result l w5 _ _ [-> ?].
  - apply hoare_bind, mwp_tick; [done|]. intros _ w2 I2 _.
    apply hoare_bind. eapply hoare_mono; [by apply mwp_probe|]. cbv beta.
    intros [p v] l3 w3 _ I3 [S3 HP]. cbn [snd]. destruct v as [x|].
    + destruct p; try done. destruct HP as (y & [= <-] & Ha).
      apply hoare_bind, mwp_count; [done|]. intros w4 I4 Hd _. apply hoare_ret; [done|]. unfold answers in Ha. by rewrite Hd.
    + apply hoare_bind, mwp_count; [done|]. intros w4 I4 _ _.
      apply hoare_bind, mwp_tick; [done|]. intros _ w5 I5 _. by apply mwp_read_exclusive.
Qed.

Lemma mwp_write x w :
  minv w → mwp (write k_hash load run_write write_user write_directory x)
    (λ result _ w', ∃ d, run_write x d = (Some result, mdb w')) w.
Proof.
  intros I. unfold write. apply hoare_bind, mwp_tick; [done|]. intros _ w1 I1 _.
  apply hoare_bind, mwp_world; [done|].
  destruct (minv_write w1 x I1) as (result & w2 & Hw & I2 & Hres & Hdb & _).
  apply hoare_bind. eapply hoare_defined; [done|exact Hw|]. cbn [fst snd].
  apply hoare_bind. exists []. cbn [fst snd]. split; [done|].
  destruct result as [result|]; [|by apply hoare_throw]. apply hoare_ret; [done|]. exists (mdb w1).
  rewrite Hdb, Hres. apply surjective_pairing.
Qed.

(** ** Exceptions *)

Definition throws_only {A} (P : Exn → Prop) (m : Meta A) : Prop := ∀ w e, (m w).1 = Thrown e → P e.

Lemma throws_only_nothrow {A} P (m : Meta A) : nothrow m → throws_only P m.
Proof. intros Hm w e He. by destruct (Hm w e). Qed.

Lemma throws_only_bind {A B} P (m : Meta A) (k : A → Meta B) :
  throws_only P m → (∀ x, throws_only P (k x)) → throws_only P (m ≫= k).
Proof.
  intros Hm Hk w e. unfold mbind, Eff_bind. specialize (Hm w). destruct (m w) as [[x|e'|] w']; cbn in *.
  - apply Hk.
  - intros [= <-]. by apply Hm.
  - done.
Qed.

Lemma nothrow_mtick held : nothrow (tick k_hash load run_write write_user write_directory held).
Proof. intros w e. unfold tick. by destruct (outer_steps _ _ _ _ _ _ _ _). Qed.
Lemma nothrow_put_entry b r v now : nothrow (W := World) (put_entry k_hash b r v now).
Proof. intros w e. unfold put_entry. by destruct (fill _ _ _ _ _ _). Qed.
#[local] Hint Resolve nothrow_mtick nothrow_put_entry : noexcept.
Lemma nothrow_count b f : nothrow (W := World) (count b f).
Proof. unfold count, get_world, put_cache. noexcept. Qed.
Lemma nothrow_gate i : nothrow (W := World) (the_gate i).
Proof. unfold the_gate, get_world. noexcept. Qed.
#[local] Hint Resolve nothrow_count nothrow_gate : noexcept.
Lemma nothrow_probe b r i : nothrow (probe k_hash load run_write write_user write_directory b r i).
Proof. unfold probe, get_world, put_cache. noexcept. Qed.
#[local] Hint Resolve nothrow_probe : noexcept.

(** A read throws what the query threw, or for want of memory. *)
Definition read_exception (b : Which) (r : Request) (e : Exn) : Prop := e = OtherExn → ∃ d, load b r d = None.

Lemma throws_load b r : throws_only (read_exception b r) (run_load load b r).
Proof.
  intros w e. unfold run_load, get_world, mbind, Eff_bind. destruct (load b r (mdb w)) eqn:El; [done|].
  intros _ _. by exists (mdb w).
Qed.

Ltac throws :=
  repeat (intros; cbv beta zeta; first
    [ apply throws_load
    | apply throws_only_nothrow; solve [noexcept; auto with noexcept]
    | apply throws_only_bind
    | match goal with |- throws_only _ (match ?x with _ => _ end) => destruct x end ]).

Lemma throws_read b r : throws_only (read_exception b r) (read k_hash load run_write write_user write_directory b r).
Proof.
  unfold read, read_exclusive, get_world, put_cache. throws. all: try (intros w e [= <-]; done).
Qed.
End Safety.
