(* ===== verification/MetadataClaims.v ===== *)
(** The metadata cache ([MetadataCache.v]) is transparent: whatever is cached, whatever
    expires or is evicted and whatever other threads do, a read answers what the
    database answers. *)

From Stdlib Require Import String.
From S2P Require Import Prelude FileSystem Effects AlarmSpool ArcPartition ArcLru ArcLfu ArcCache MetadataCache MetadataSafety.
Import Concrete.
#[local] Open Scope tlss_scope.

Definition config_ok (config : MetadataCacheConfig) : Prop :=
  is_u64 (list_capacity config) ∧ is_u64 (download_capacity config) ∧ is_u64 (cd_capacity config)
  ∧ 0 <= arc_shards config.

Section Claims.
Context (k_hash : bytes → Z) {D Write : Type}.
Context (load : ∀ b : Which, Request → D → option (StorageContext (Value b))).
Context (run_write : Write → D → option bool * D) (write_user write_directory : Write → bytes).
#[local] Abbreviation World := (@MWorld D Write).
#[local] Abbreviation contract := (write_contract load run_write write_user write_directory).
#[local] Abbreviation inv := (minv k_hash load).
#[local] Abbreviation read' := (read k_hash load run_write write_user write_directory).
#[local] Abbreviation write' := (write k_hash load run_write write_user write_directory).
#[local] Abbreviation script_ok := (Forall (λ e : MEvent (Write := Write), Forall outer_ok (me_outer e))).

(** The worlds that a cache comes to: reads and writes of this thread, with anything
    the others may do meanwhile. *)
Inductive metadata_reached : World → Prop :=
  | ReachedStart hw config c db script :
      config_ok config → new_metadata_cache hw config = Some c → script_ok script →
      metadata_reached (mkMWorld c db script)
  | ReachedRead w b r : metadata_reached w → request_ok b r → metadata_reached (read' b r w).2
  | ReachedWrite w x : metadata_reached w → metadata_reached (write' x w).2
  | ReachedAround w script : metadata_reached w → script_ok script → metadata_reached (mkMWorld (mcache w) (mdb w) script).

Lemma new_bank_ok {T} hw capacity shards lifetime limit (x : Bank T) (P : bytes → Entry T → Prop) :
  is_u64 capacity → 0 <= shards → new_bank hw capacity shards lifetime limit = Some x →
  arc_holds k_hash P (bank_arc x) ∧ (bank_enabled x = true → _slice_num (bank_arc x) ≠ 0).
Proof.
  intros Hc Hs. unfold new_bank. destruct (checked_ttl lifetime) as [ttl|]; cbn; [|done]. intros [= <-]. cbn.
  destruct (negb (capacity =? 0) && (0 <? lifetime)) eqn:E; [|split; [by left|done]].
  apply andb_true_iff in E as [E _]. unfold is_u64 in *.
  destruct (new_hash_ok (K := bytes) (V := Entry T) k_hash capacity shards hw) as (Hok & Hn & Ht); [done|lia|done|].
  split; [|done]. right. split; [done|]. split; [done|]. exists ∅. split; [done|]. apply map_Forall_empty.
Qed.

Lemma start_inv hw config c db script :
  config_ok config → new_metadata_cache hw config = Some c → script_ok script → inv (mkMWorld c db script).
Proof.
  intros (H1 & H2 & H3 & Hs) Hc Hscript. unfold new_metadata_cache in Hc.
  apply bind_Some in Hc as (l & Hl & Hc). apply bind_Some in Hc as (d & Hd & Hc).
  apply bind_Some in Hc as (p & Hp & Hc). injection Hc as <-.
  split; [done| |done]. intros b. destruct b; (eapply new_bank_ok; [| |eassumption]; done).
Qed.

Lemma read_safe b r w : contract → inv w → request_ok b r →
  inv (read' b r w).2 ∧
  match (read' b r w).1 with
  | Returned result => load b r (mdb (read' b r w).2) = Some result
  | Thrown e => read_exception load b r e
  | Stuck => False
  end.
Proof.
  intros Hc I Hr. destruct (mwp_read k_hash load run_write write_user write_directory Hc b r w I Hr) as (l & [I' _] & HQ).
  split; [done|]. pose proof (throws_read k_hash load run_write write_user write_directory b r w) as Ht.
  destruct (read' b r w) as [[result|e|] w']; [done| |done]. by apply Ht.
Qed.

Lemma write_safe x w : contract → inv w →
  inv (write' x w).2 ∧
  match (write' x w).1 with
  | Returned result => ∃ d, run_write x d = (Some result, mdb (write' x w).2)
  | Thrown _ => True
  | Stuck => False
  end.
Proof.
  intros Hc I. destruct (mwp_write k_hash load run_write write_user write_directory Hc x w I) as (l & [I' _] & HQ).
  split; [done|]. by destruct (write' x w) as [[result|e|] w'].
Qed.

Lemma reached_inv w : contract → metadata_reached w → inv w.
Proof.
  intros Hc. induction 1 as [hw config c db script Hcfg Hnew Hs|w b r _ I Hr|w x _ I|w script _ I Hs].
  - by eapply start_inv.
  - by apply read_safe.
  - by apply write_safe.
  - destruct I as [Hg Hb _]. by split.
Qed.

(** C15. The metadata cache is transparent. Suppose that a write of a directory leaves
    the successful answers about other directories alone and that directories are
    never removed. Then in every state that reads and writes of any number of threads
    lead to, with any hash function, configuration, clock, evictions and failures,
    [list], [download] and [cd] return exactly what the database answers at the moment
    they return; they throw only what the query threw, or for want of memory; and a
    write returns what the database's write returned. *)
Theorem metadata_cache_transparent w :
  contract → metadata_reached w →
  (∀ b r, request_ok b r →
     match (read' b r w).1 with
     | Returned result => load b r (mdb (read' b r w).2) = Some result
     | Thrown e => e = OtherExn → ∃ d, load b r d = None
     | Stuck => False
     end)
  ∧ ∀ x, match (write' x w).1 with
         | Returned result => ∃ d, run_write x d = (Some result, mdb (write' x w).2)
         | Thrown _ => True
         | Stuck => False
         end.
Proof.
  intros Hc Hw. pose proof (reached_inv w Hc Hw) as I.
  split; [intros b r Hr; by apply read_safe|]. intros x. by apply write_safe.
Qed.
End Claims.

(** ** Witness *)

(** A database of one user's directory: names are added to it. *)
Definition demo_user : bytes := literal "ann".
Definition demo_dir : bytes := literal "/".
Definition demo_load (b : Which) (r : Request) (d : list FileInfo) : option (StorageContext (Value b)) :=
  match b return option (StorageContext (Value b)) with
  | Lists => Some (mkStorage true (if decide (namespace_of r = make_key demo_user demo_dir) then d else []))
  | _ => Some (mkStorage false [])
  end.
Definition demo_file (name : bytes) : FileInfo := mkFileInfo name (literal "file") [] [].
Definition demo_write (name : bytes) (d : list FileInfo) : option bool * list FileInfo := (Some true, demo_file name :: d).
Definition demo_config : MetadataCacheConfig := mkMetadataConfig 4 4 4 1 5000 5000 5000 4096.
Definition demo_hash (key : bytes) : Z := ♯key.
Definition demo_request : Request := mkRequest demo_user demo_dir [].

Definition demo_read : MWorld → Outcome (StorageContext (Value Lists)) * MWorld :=
  read demo_hash demo_load demo_write (λ _, demo_user) (λ _, demo_dir) Lists demo_request.

(** The cache is filled; then another thread writes while this one waits for the lock. *)
Definition demo_quiet : MEvent (Write := bytes) := mkMEvent [] 1 true.
Definition demo_script : list (MEvent (Write := bytes)) :=
  [demo_quiet; demo_quiet; demo_quiet; demo_quiet;
   mkMEvent [OuterWrite (literal "b")] 2 true; demo_quiet; demo_quiet; demo_quiet; demo_quiet].
Definition demo_bank {T} : Bank T := mkBank true 5000 UINT64_MAX (new_hash 4 1 1) no_counters.
Definition demo_cache : MetadataCache :=
  mkMetadata (replicate 64 (mkGate 0 true)) (mkBank true 5000 4096 (new_hash 4 1 1) no_counters) demo_bank demo_bank.
Definition demo_world : MWorld := mkMWorld demo_cache [demo_file (literal "a")] demo_script.
Definition demo_filled : MWorld := (demo_read demo_world).2.

Lemma demo_contract : write_contract demo_load demo_write (λ _, demo_user) (λ _, demo_dir).
Proof.
  split.
  - intros x b r d v Hb Hns. destruct b; try done; unfold answers, demo_load.
    change (write_namespace _ _ x) with (make_key demo_user demo_dir) in Hns. by rewrite !decide_False.
  - intros x r d v. unfold answers, demo_load. by intros [= ?].
Qed.

Lemma demo_request_ok : request_ok Lists demo_request.
Proof. repeat split; vm_compute; congruence. Qed.

Lemma demo_metadata_reached :
  metadata_reached demo_hash demo_load demo_write (λ _, demo_user) (λ _, demo_dir) demo_filled.
Proof.
  apply (ReachedRead _ _ _ _ _ demo_world Lists demo_request); [|exact demo_request_ok].
  apply (ReachedStart _ _ _ _ _ 1 demo_config).
  - repeat split; vm_compute; congruence.
  - reflexivity.
  - by repeat constructor.
Qed.

(** A read that fills the cache, and one that meets a write. *)
Lemma metadata_cache_transparent_witness :
  (demo_read demo_world).1 = Returned (mkStorage true [demo_file (literal "a")])
  ∧ (demo_read demo_filled).1 = Returned (mkStorage true [demo_file (literal "b"); demo_file (literal "a")])
  ∧ demo_load Lists demo_request (mdb (demo_read demo_filled).2)
    = Some (mkStorage true [demo_file (literal "b"); demo_file (literal "a")]).
Proof.
  split; [vm_compute; reflexivity|].
  pose proof (proj1 (metadata_cache_transparent demo_hash demo_load demo_write (λ _, demo_user) (λ _, demo_dir) _
    demo_contract demo_metadata_reached) Lists demo_request demo_request_ok) as Hr.
  change (read demo_hash demo_load demo_write (λ _, demo_user) (λ _, demo_dir) Lists demo_request) with demo_read in Hr.
  assert ((demo_read demo_filled).1 = Returned (mkStorage true [demo_file (literal "b"); demo_file (literal "a")])) as E
    by (vm_compute; reflexivity).
  rewrite E in Hr. split; [exact E|exact Hr].
Defined.
