(* ===== verification/NetBuffer.v ===== *)
(** The buffer of a TCP connection ([src/common/net/buffer.cpp],
    [inc/common/net/buffer.h]): a block of bytes with a reading and a writing index,
    which grows or is compacted on demand.

    The operations run on the block itself, and what they do in C++ outside it is
    undefined behaviour here. They are proved to implement a queue of bytes. The copy
    routine of [append] is taken to copy; memory is taken to suffice up to the limit
    of [std::vector]. *)

From S2P Require Import Prelude.
#[local] Open Scope tlss_scope.

(** What becomes of an operation: it returns, throws [std::length_error], calls
    [std::abort], or its behaviour is undefined. *)
Inductive BufferResult (A : Type) := Done (x : A) | LengthError | Aborts | Undefined.
#[global] Arguments Done {A}.
#[global] Arguments LengthError {A}.
#[global] Arguments Aborts {A}.
#[global] Arguments Undefined {A}.

#[export] Instance BufferResult_ret : MRet BufferResult := @Done.
#[export] Instance BufferResult_bind : MBind BufferResult := λ A B f m,
  match m with Done x => f x | LengthError => LengthError | Aborts => Aborts | Undefined => Undefined end.

Definition k_cheap_prepend : Z := 8.
Definition k_initial_size : Z := 1024.
Definition EXTRABUF_SIZE : Z := 65536.
(** [max_size()] of a [std::vector<char>]. *)
Definition VECTOR_MAX : Z := 2 ^ 63 - 1.

Record Buffer := mkBuffer { _buffer : bytes; _reader_idx : Z; _writer_idx : Z }.

Definition new_buffer (initial_size : Z) : Buffer :=
  mkBuffer (replicate (Z.to_nat (k_cheap_prepend + initial_size)) 0) k_cheap_prepend k_cheap_prepend.

Definition readable_bytes (b : Buffer) : Z := u64 (_writer_idx b - _reader_idx b).
Definition writeable_bytes (b : Buffer) : Z := u64 (♯(_buffer b) - _writer_idx b).
Definition prependable_bytes (b : Buffer) : Z := _reader_idx b.

(** Bytes of the block. *)
Definition read_at (block : bytes) (from len : Z) : BufferResult bytes :=
  if (0 <=? from) && (0 <=? len) && (from + len <=? ♯block)
  then Done (take (Z.to_nat len) (drop (Z.to_nat from) block)) else Undefined.
Definition write_at (block : bytes) (at_ : Z) (data : bytes) : BufferResult bytes :=
  if (0 <=? at_) && (at_ + ♯data <=? ♯block)
  then Done (take (Z.to_nat at_) block ++ data ++ drop (Z.to_nat (at_ + ♯data)) block) else Undefined.

Definition retrieve_all (b : Buffer) : Buffer := mkBuffer (_buffer b) k_cheap_prepend k_cheap_prepend.

Definition retrieve (b : Buffer) (len : Z) : Buffer :=
  if len <? readable_bytes b then mkBuffer (_buffer b) (u64 (_reader_idx b + len)) (_writer_idx b)
  else retrieve_all b.

Definition retrieve_as_string (b : Buffer) (len : Z) : BufferResult (bytes * Buffer) :=
  if readable_bytes b <? len then Aborts else
  res ← read_at (_buffer b) (_reader_idx b) len;
  Done (res, retrieve b len).

Definition retrieve_all_as_string (b : Buffer) : BufferResult (bytes * Buffer) :=
  retrieve_as_string b (readable_bytes b).

(** [resize] fills up with zeros. *)
Definition resize (block : bytes) (size : Z) : BufferResult bytes :=
  if VECTOR_MAX <? size then LengthError
  else Done (take (Z.to_nat size) block ++ replicate (Z.to_nat size - length block) 0).

Definition make_space (b : Buffer) (len : Z) : BufferResult Buffer :=
  if u64 (writeable_bytes b + prependable_bytes b) <? u64 (len + k_cheap_prepend) then
    block ← resize (_buffer b) (u64 (_writer_idx b + len));
    Done (mkBuffer block (_reader_idx b) (_writer_idx b))
  else
    let readable := readable_bytes b in
    content ← read_at (_buffer b) (_reader_idx b) (_writer_idx b - _reader_idx b);
    block ← write_at (_buffer b) k_cheap_prepend content;
    Done (mkBuffer block k_cheap_prepend (u64 (k_cheap_prepend + readable))).

Definition ensure_writeable_bytes (b : Buffer) (len : Z) : BufferResult Buffer :=
  if writeable_bytes b <? len then make_space b len else Done b.

Definition has_written (b : Buffer) (len : Z) : BufferResult Buffer :=
  if writeable_bytes b <? len then Aborts else Done (mkBuffer (_buffer b) (_reader_idx b) (u64 (_writer_idx b + len))).

Definition append (b : Buffer) (data : bytes) : BufferResult Buffer :=
  b ← ensure_writeable_bytes b (♯data);
  block ← write_at (_buffer b) (_writer_idx b) data;
  has_written (mkBuffer block (_reader_idx b) (_writer_idx b)) (♯data).

(** [readv] delivers bytes or an error; with a large enough block it may only use the
    first of its two areas. The result is that of the call. *)
Inductive Readv := Delivered (data : bytes) | ReadFailed (errno : Z).

Definition read_limit (b : Buffer) : Z :=
  if writeable_bytes b <? EXTRABUF_SIZE then writeable_bytes b + EXTRABUF_SIZE else writeable_bytes b.

Definition read_fd (b : Buffer) (r : Readv) : BufferResult (Z * option Z * Buffer) :=
  match r with
  | ReadFailed errno => Done (-1, Some errno, b)
  | Delivered data =>
      let writable := writeable_bytes b in
      let n := ♯data in
      block ← write_at (_buffer b) (_writer_idx b) (take (Z.to_nat writable) data);
      let b := mkBuffer block (_reader_idx b) (_writer_idx b) in
      if n <=? writable then Done (n, None, mkBuffer (_buffer b) (_reader_idx b) (u64 (_writer_idx b + n)))
      else
        b ← append (mkBuffer (_buffer b) (_reader_idx b) (♯(_buffer b))) (drop (Z.to_nat writable) data);
        Done (n, None, b)
  end.

(** [send] is given what can be read; it does not consume it. *)
Definition write_fd (b : Buffer) : BufferResult bytes := read_at (_buffer b) (_reader_idx b) (readable_bytes b).

(** ** The queue it implements *)

Definition contents (b : Buffer) : bytes :=
  take (Z.to_nat (_writer_idx b - _reader_idx b)) (drop (Z.to_nat (_reader_idx b)) (_buffer b)).

Record buffer_ok (b : Buffer) : Prop := {
  bf_reader : k_cheap_prepend <= _reader_idx b <= _writer_idx b;
  bf_writer : _writer_idx b <= ♯(_buffer b);
  bf_size : ♯(_buffer b) <= VECTOR_MAX
}.

Lemma contents_length b : buffer_ok b → ♯(contents b) = _writer_idx b - _reader_idx b.
Proof.
  intros [Hr Hw Hs]. unfold contents, Zlen, k_cheap_prepend in *. rewrite length_take, length_drop. lia.
Qed.

Lemma contents_u64 b : buffer_ok b → is_u64 (♯(contents b)).
Proof.
  intros Hb. rewrite contents_length by done. destruct Hb as [? ? ?].
  unfold is_u64, VECTOR_MAX, k_cheap_prepend in *. lia.
Qed.

Lemma readable_ok b : buffer_ok b → readable_bytes b = ♯(contents b).
Proof.
  intros Hb. rewrite contents_length by done. destruct Hb as [Hr Hw Hs]. unfold readable_bytes, u64, VECTOR_MAX, k_cheap_prepend in *.
  apply Z.mod_small. lia.
Qed.

Lemma writeable_ok b : buffer_ok b → writeable_bytes b = ♯(_buffer b) - _writer_idx b.
Proof.
  intros [Hr Hw Hs]. unfold writeable_bytes, u64, VECTOR_MAX, k_cheap_prepend in *. apply Z.mod_small. lia.
Qed.

(** Reads and writes within the block. *)
Lemma read_at_ok block from len :
  0 <= from → 0 <= len → from + len <= ♯block →
  read_at block from len = Done (take (Z.to_nat len) (drop (Z.to_nat from) block)).
Proof. intros. unfold read_at. by rewrite !(proj2 (Z.leb_le _ _)) by lia. Qed.

Lemma write_at_ok block pos data :
  0 <= pos → pos + ♯data <= ♯block →
  ∃ block', write_at block pos data = Done block' ∧ ♯block' = ♯block
    ∧ take (Z.to_nat pos) block' = take (Z.to_nat pos) block
    ∧ take (length data) (drop (Z.to_nat pos) block') = data.
Proof.
  intros Hp Hl. unfold write_at. rewrite !(proj2 (Z.leb_le _ _)) by lia. eexists. split; [done|]. unfold Zlen in *.
  assert (length (take (Z.to_nat pos) block) = Z.to_nat pos) as Ht by (rewrite length_take; lia).
  split; [rewrite !length_app, length_drop, Ht; lia|]. split.
  - rewrite take_app_le by lia. by rewrite take_take, Nat.min_id.
  - rewrite drop_app_ge, Ht, Nat.sub_diag, drop_0 by lia. by rewrite take_app_length.
Qed.

Lemma sublist_app (l : bytes) (i m n : nat) :
  take (m + n) (drop i l) = take m (drop i l) ++ take n (drop (i + m) l).
Proof. by rewrite <- take_take_drop, drop_drop. Qed.

Lemma sublist_take (l l' : bytes) (i j : nat) :
  take j l = take j l' → (i <= j)%nat → take (j - i) (drop i l) = take (j - i) (drop i l').
Proof.
  intros He Hi. rewrite !take_drop_commute. by replace (i + (j - i))%nat with j by lia; rewrite He.
Qed.

Lemma retrieve_spec b len :
  buffer_ok b → 0 <= len → buffer_ok (retrieve b len) ∧ contents (retrieve b len) = drop (Z.to_nat len) (contents b).
Proof.
  intros Hb Hl. pose proof (contents_length b Hb) as Hc. unfold retrieve. rewrite readable_ok by done.
  destruct Hb as [Hr Hw Hs]. destruct (len <? ♯(contents b)) eqn:E.
  - assert (u64 (_reader_idx b + len) = _reader_idx b + len) as ->.
    { unfold u64, VECTOR_MAX, k_cheap_prepend in *. apply Z.mod_small. lia. }
    split; [split; cbn; lia|]. unfold contents. cbn. unfold k_cheap_prepend in *.
    rewrite skipn_firstn_comm, drop_drop. f_equal; [lia|f_equal; lia].
  - split; [split; cbn; unfold k_cheap_prepend in *; lia|]. unfold contents at 1. cbn.
    rewrite Z.sub_diag. cbn. symmetry. apply drop_ge. unfold Zlen in *. lia.
Qed.

(** The contents of a block that agrees up to the writing index. *)
Lemma contents_same b block :
  buffer_ok b → take (Z.to_nat (_writer_idx b)) block = take (Z.to_nat (_writer_idx b)) (_buffer b) →
  contents (mkBuffer block (_reader_idx b) (_writer_idx b)) = contents b.
Proof.
  intros [Hr Hw Hs] Ht. unfold contents. cbn. unfold k_cheap_prepend in *.
  rewrite Z2Nat.inj_sub by lia. apply sublist_take; [done|lia].
Qed.

(** Room for [len] bytes: the contents stay; it fails only beyond the limit. *)
Lemma make_space_spec b len :
  buffer_ok b → writeable_bytes b < len <= VECTOR_MAX →
  match make_space b len with
  | Done b' => buffer_ok b' ∧ contents b' = contents b ∧ len <= writeable_bytes b'
  | LengthError => VECTOR_MAX < _writer_idx b + len
  | _ => False
  end.
Proof.
  intros Hb Hl. pose proof (contents_length b Hb) as Hc. unfold make_space. rewrite writeable_ok in * by done.
  rewrite readable_ok by done. pose proof Hb as [Hr Hw Hs]. unfold prependable_bytes.
  assert (u64 (♯(_buffer b) - _writer_idx b + _reader_idx b) = ♯(_buffer b) - _writer_idx b + _reader_idx b) as ->.
  { unfold u64, VECTOR_MAX, k_cheap_prepend in *. apply Z.mod_small. lia. }
  assert (u64 (len + k_cheap_prepend) = len + k_cheap_prepend ∧ u64 (_writer_idx b + len) = _writer_idx b + len) as [-> ->].
  { unfold u64, VECTOR_MAX, k_cheap_prepend in *. split; apply Z.mod_small; lia. }
  destruct (_ <? _) eqn:E.
  - unfold resize. destruct (VECTOR_MAX <? _writer_idx b + len) eqn:Em; cbn; [lia|].
    set (block := _ ++ _). assert (♯block = _writer_idx b + len) as Hlen.
    { subst block. unfold Zlen, k_cheap_prepend in *. rewrite length_app, length_take, length_replicate. lia. }
    assert (buffer_ok (mkBuffer block (_reader_idx b) (_writer_idx b))) as Hok by (split; cbn; lia).
    split; [done|]. split; [|rewrite writeable_ok by done; cbn; lia].
    apply contents_same; [done|]. subst block. unfold Zlen, k_cheap_prepend in *.
    rewrite take_app_le by (rewrite length_take; lia). by rewrite take_take, Nat.min_l by lia.
  - rewrite read_at_ok by (unfold k_cheap_prepend in *; lia). cbn [mbind BufferResult_bind].
    change (take _ _) with (contents b).
    destruct (write_at_ok (_buffer b) k_cheap_prepend (contents b)) as (block & -> & Hlen & _ & Hcont);
      [done|unfold k_cheap_prepend in *; lia|]. cbn [mbind BufferResult_bind].
    assert (u64 (k_cheap_prepend + ♯(contents b)) = k_cheap_prepend + ♯(contents b)) as ->.
    { unfold u64, VECTOR_MAX, k_cheap_prepend in *. apply Z.mod_small. lia. }
    set (b' := mkBuffer _ _ _). assert (buffer_ok b') as Hok by (split; cbn; unfold k_cheap_prepend in *; lia).
    split; [done|]. split; [|rewrite writeable_ok by done; cbn; unfold k_cheap_prepend in *; lia].
    unfold contents at 1. cbn [b' _buffer _reader_idx _writer_idx].
    replace (k_cheap_prepend + ♯(contents b) - k_cheap_prepend) with (♯(contents b)) by lia.
    unfold Zlen at 1. by rewrite Nat2Z.id.
Qed.

Lemma ensure_spec b len :
  buffer_ok b → len <= VECTOR_MAX →
  match ensure_writeable_bytes b len with
  | Done b' => buffer_ok b' ∧ contents b' = contents b ∧ len <= writeable_bytes b'
  | LengthError => VECTOR_MAX < _writer_idx b + len
  | _ => False
  end.
Proof.
  intros Hb Hl. unfold ensure_writeable_bytes. destruct (writeable_bytes b <? len) eqn:E; [|split; [done|split; [done|lia]]].
  apply make_space_spec; [done|lia].
Qed.

(** Bytes behind the contents that become part of them. *)
Lemma contents_extend b block n :
  buffer_ok b → 0 <= n → _writer_idx b + n <= ♯block → ♯block <= VECTOR_MAX →
  take (Z.to_nat (_writer_idx b)) block = take (Z.to_nat (_writer_idx b)) (_buffer b) →
  let b' := mkBuffer block (_reader_idx b) (_writer_idx b + n) in
  buffer_ok b' ∧ contents b' = contents b ++ take (Z.to_nat n) (drop (Z.to_nat (_writer_idx b)) block).
Proof.
  intros Hb Hn Hle Hmax Ht. cbv zeta. pose proof Hb as [Hr Hw Hs].
  split; [split; cbn; lia|]. rewrite <- (contents_same b block Hb Ht). unfold contents. cbn. unfold k_cheap_prepend in *.
  replace (Z.to_nat (_writer_idx b + n - _reader_idx b)) with (Z.to_nat (_writer_idx b - _reader_idx b) + Z.to_nat n)%nat by lia.
  rewrite sublist_app. do 3 f_equal. lia.
Qed.

Lemma append_spec b data :
  buffer_ok b → ♯data <= VECTOR_MAX →
  match append b data with
  | Done b' => buffer_ok b' ∧ contents b' = contents b ++ data
  | LengthError => VECTOR_MAX < _writer_idx b + ♯data
  | _ => False
  end.
Proof.
  intros Hb Hl. unfold append. pose proof (ensure_spec b (♯data) Hb Hl) as He.
  destruct (ensure_writeable_bytes b (♯data)) as [b1| | |]; cbn [mbind BufferResult_bind]; try done.
  destruct He as (Hb1 & Hc1 & Hw1). pose proof (writeable_ok b1 Hb1) as Hwr. pose proof Hb1 as [Hr Hw Hs].
  destruct (write_at_ok (_buffer b1) (_writer_idx b1) data) as (block & -> & Hlen & Ht & Hd);
    [unfold k_cheap_prepend in *; lia|lia|]. cbn [mbind BufferResult_bind].
  set (b2 := mkBuffer block (_reader_idx b1) (_writer_idx b1)). assert (buffer_ok b2) as Hb2 by (split; cbn; lia).
  unfold has_written. rewrite (writeable_ok b2) by done. cbn [b2 _buffer _writer_idx _reader_idx].
  destruct (_ <? ♯data) eqn:E; [lia|].
  assert (u64 (_writer_idx b1 + ♯data) = _writer_idx b1 + ♯data) as ->.
  { unfold u64, VECTOR_MAX, k_cheap_prepend, Zlen in *. apply Z.mod_small. lia. }
  destruct (contents_extend b1 block (♯data)) as [Hok Hcon]; [done|unfold Zlen; lia|lia|lia|done|].
  split; [done|]. rewrite Hcon, Hc1. f_equal. unfold Zlen. by rewrite Nat2Z.id.
Qed.

Lemma read_fd_spec b data :
  buffer_ok b → ♯data <= read_limit b → ♯data <= VECTOR_MAX →
  match read_fd b (Delivered data) with
  | Done (n, error, b') => n = ♯data ∧ error = None ∧ buffer_ok b' ∧ contents b' = contents b ++ data
  | LengthError => VECTOR_MAX < ♯(_buffer b) + ♯data
  | _ => False
  end.
Proof.
  intros Hb Hlim Hl. unfold read_fd, read_limit in *. pose proof (writeable_ok b Hb) as Hwr. rewrite Hwr in *.
  pose proof Hb as [Hr Hw Hs]. set (room := ♯(_buffer b) - _writer_idx b) in *. assert (0 <= room) by lia.
  assert (♯(take (Z.to_nat room) data) = Z.min room (♯data)) as Htl by (unfold Zlen; rewrite length_take; lia).
  destruct (write_at_ok (_buffer b) (_writer_idx b) (take (Z.to_nat room) data)) as (block & -> & Hlen & Ht & Hd);
    [unfold k_cheap_prepend in *; lia|lia|]. cbn [mbind BufferResult_bind _buffer _reader_idx _writer_idx].
  destruct (♯data <=? room) eqn:E.
  - assert (u64 (_writer_idx b + ♯data) = _writer_idx b + ♯data) as ->.
    { unfold u64, VECTOR_MAX, k_cheap_prepend, Zlen in *. apply Z.mod_small. lia. }
    destruct (contents_extend b block (♯data)) as [Hok Hcon]; [done|unfold Zlen; lia|lia|lia|done|].
    split; [done|]. split; [done|]. split; [done|]. rewrite Hcon. f_equal.
    rewrite (take_ge data) in Hd by (unfold Zlen in *; lia). unfold Zlen. by rewrite Nat2Z.id.
  - destruct (contents_extend b block room) as [Hok Hcon]; [done|lia|lia|lia|done|].
    replace (_writer_idx b + room) with (♯block) in * by lia.
    set (b1 := mkBuffer block (_reader_idx b) (♯block)) in *.
    pose proof (append_spec b1 (drop (Z.to_nat room) data) Hok) as Ha.
    assert (♯(drop (Z.to_nat room) data) = ♯data - room) as Hdl by (unfold Zlen in *; rewrite length_drop; lia).
    rewrite Hdl in Ha. specialize (Ha ltac:(lia)).
    destruct (append b1 _) as [b2| | |]; cbn [mbind BufferResult_bind]; try done; [|cbn in Ha; lia].
    destruct Ha as [Hok2 Hc2]. split; [done|]. split; [done|]. split; [done|]. rewrite Hc2, Hcon, <- app_assoc. f_equal.
    assert (length (take (Z.to_nat room) data) = Z.to_nat room) as Hn by (unfold Zlen in *; lia).
    rewrite Hn in Hd. by rewrite Hd, take_drop.
Qed.

(** ** Any sequence of operations *)

Inductive buffer_op :=
  | OpAppend (data : bytes)
  | OpRetrieve (len : Z)
  | OpTake (len : Z)
  | OpTakeAll
  | OpEnsure (len : Z)
  | OpRead (waiting : bytes)    (* what the socket has; [readv] takes what fits *)
  | OpReadFailed (errno : Z)
  | OpPeek.                     (* what [write_fd] gives to [send] *)

(** An operation on the buffer, and the bytes it returns or receives. *)
Definition buffer_step (b : Buffer) (op : buffer_op) : BufferResult (bytes * Buffer) :=
  match op with
  | OpAppend data => b ← append b data; Done ([], b)
  | OpRetrieve len => Done ([], retrieve b len)
  | OpTake len => retrieve_as_string b len
  | OpTakeAll => retrieve_all_as_string b
  | OpEnsure len => b ← ensure_writeable_bytes b len; Done ([], b)
  | OpRead waiting =>
      let data := take (Z.to_nat (read_limit b)) waiting in
      '(_, _, b) ← read_fd b (Delivered data); Done (data, b)
  | OpReadFailed errno => '(_, _, b) ← read_fd b (ReadFailed errno); Done ([], b)
  | OpPeek => out ← write_fd b; Done (out, b)
  end.

Definition op_ok (op : buffer_op) : Prop :=
  match op with
  | OpAppend data | OpRead data => ♯data <= VECTOR_MAX
  | OpRetrieve len | OpTake len => is_u64 len
  | OpEnsure len => 0 <= len <= VECTOR_MAX
  | _ => True
  end.

(** The operation on a queue of bytes. *)
Inductive queue_step : bytes → buffer_op → bytes → bytes → Prop :=
  | QueueAppend q data : queue_step q (OpAppend data) [] (q ++ data)
  | QueueRetrieve q len : queue_step q (OpRetrieve len) [] (drop (Z.to_nat len) q)
  | QueueTake q len : len <= ♯q → queue_step q (OpTake len) (take (Z.to_nat len) q) (drop (Z.to_nat len) q)
  | QueueTakeAll q : queue_step q OpTakeAll q []
  | QueueEnsure q len : queue_step q (OpEnsure len) [] q
  | QueueRead q data rest : (data = [] → rest = []) → queue_step q (OpRead (data ++ rest)) data (q ++ data)
  | QueueReadFailed q errno : queue_step q (OpReadFailed errno) [] q
  | QueuePeek q : queue_step q OpPeek q q.

Lemma take_spec b len :
  buffer_ok b → is_u64 len →
  match retrieve_as_string b len with
  | Done (out, b') => buffer_ok b' ∧ len <= ♯(contents b) ∧ out = take (Z.to_nat len) (contents b)
                      ∧ contents b' = drop (Z.to_nat len) (contents b)
  | Aborts => ♯(contents b) < len
  | _ => False
  end.
Proof.
  intros Hb Hl. unfold is_u64 in Hl. pose proof (contents_length b Hb) as Hc. unfold retrieve_as_string. rewrite readable_ok by done.
  destruct (♯(contents b) <? len) eqn:E; [lia|]. pose proof Hb as [Hr Hw Hs].
  rewrite read_at_ok by (unfold k_cheap_prepend in *; lia). cbn [mbind BufferResult_bind].
  destruct (retrieve_spec b len Hb) as [Hok Hcon]; [lia|]. split; [done|]. split; [lia|]. split; [|done].
  unfold contents. rewrite take_take. f_equal. lia.
Qed.

Lemma peek_spec b : buffer_ok b → write_fd b = Done (contents b).
Proof.
  intros Hb. pose proof (contents_length b Hb). unfold write_fd. rewrite readable_ok by done. destruct Hb as [Hr Hw Hs].
  rewrite read_at_ok by (unfold Zlen, k_cheap_prepend in *; lia). unfold contents at 2. do 2 f_equal. lia.
Qed.

Lemma read_limit_range b : buffer_ok b → EXTRABUF_SIZE <= read_limit b.
Proof.
  intros Hb. unfold read_limit. pose proof (writeable_ok b Hb). destruct Hb as [Hr Hw Hs].
  destruct (writeable_bytes b <? EXTRABUF_SIZE) eqn:E; lia.
Qed.

(** What each operation does to the contents. *)
Lemma buffer_step_spec b op :
  buffer_ok b → op_ok op →
  match buffer_step b op with
  | Done (out, b') => buffer_ok b' ∧ queue_step (contents b) op out (contents b')
  | LengthError => ∃ more, VECTOR_MAX < ♯(_buffer b) + more
  | Aborts => ∃ len, op = OpTake len ∧ ♯(contents b) < len
  | Undefined => False
  end.
Proof.
  intros Hb Ho. pose proof (bf_writer b Hb) as Hw. destruct op as [data|len|len| |len|waiting|errno|]; cbn [buffer_step op_ok] in *.
  - pose proof (append_spec b data Hb Ho) as Ha. destruct (append b data); cbn; [|exists (♯data); lia|done..].
    destruct Ha as [? ->]. split; [done|constructor].
  - unfold is_u64 in Ho. destruct (retrieve_spec b len Hb) as [? ->]; [lia|]. split; [done|constructor].
  - pose proof (take_spec b len Hb Ho) as Ht. destruct (retrieve_as_string b len) as [[out b']| | |]; [|done|by exists len|done].
    destruct Ht as (? & ? & -> & ->). split; [done|by constructor].
  - unfold retrieve_all_as_string. rewrite readable_ok by done. pose proof (take_spec b (♯(contents b)) Hb (contents_u64 b Hb)) as Ht.
    destruct (retrieve_as_string b _) as [[out b']| | |]; [|done|lia|done]. destruct Ht as (? & _ & -> & ->).
    unfold Zlen. rewrite Nat2Z.id, firstn_all, drop_all. split; [done|constructor].
  - pose proof (ensure_spec b len Hb ltac:(lia)) as He.
    destruct (ensure_writeable_bytes b len); cbn; [|exists len; lia|done..]. destruct He as (? & -> & _). split; [done|constructor].
  - pose proof (read_limit_range b Hb) as Hlim. set (data := take _ waiting).
    assert (♯data <= read_limit b ∧ ♯data <= ♯waiting) as [Hd1 Hd2].
    { subst data. unfold Zlen. rewrite length_take. unfold EXTRABUF_SIZE in *. lia. }
    pose proof (read_fd_spec b data Hb Hd1 ltac:(lia)) as Hr.
    destruct (read_fd b (Delivered data)) as [[[n e] b']| | |]; cbn; [|exists (♯data); lia|done..].
    destruct Hr as (_ & _ & ? & ->). split; [done|].
    rewrite <- (take_drop (Z.to_nat (read_limit b)) waiting) at 1. apply QueueRead. intros Hnil.
    apply (f_equal length) in Hnil. subst data. rewrite length_take in Hnil. cbn in Hnil. unfold EXTRABUF_SIZE in *.
    destruct waiting; [apply drop_nil|cbn in Hnil; lia].
  - cbn. split; [done|constructor].
  - rewrite peek_spec by done. cbn. split; [done|constructor].
Qed.

(** A run stops at the first operation that does not return. *)
Fixpoint buffer_run (b : Buffer) (ops : list buffer_op) : list (buffer_op * bytes) * BufferResult Buffer :=
  match ops with
  | [] => ([], Done b)
  | op :: ops =>
      match buffer_step b op with
      | Done (out, b) => let '(seen, r) := buffer_run b ops in ((op, out) :: seen, r)
      | LengthError => ([], LengthError)
      | Aborts => ([], Aborts)
      | Undefined => ([], Undefined)
      end
  end.

Inductive queue_run : bytes → list (buffer_op * bytes) → bytes → Prop :=
  | QueueDone q : queue_run q [] q
  | QueueNext q op out q1 seen q2 : queue_step q op out q1 → queue_run q1 seen q2 → queue_run q ((op, out) :: seen) q2.

Lemma buffer_run_spec ops : ∀ b, buffer_ok b → Forall op_ok ops →
  let '(seen, r) := buffer_run b ops in
  ∃ q, queue_run (contents b) seen q
    ∧ match r with
      | Done b' => buffer_ok b' ∧ contents b' = q ∧ map fst seen = ops
      | LengthError => ∃ op rest, ops = map fst seen ++ op :: rest
      | Aborts => ∃ len rest, ops = map fst seen ++ OpTake len :: rest ∧ ♯q < len
      | Undefined => False
      end.
Proof.
  induction ops as [|op ops IH]; intros b Hb Ho; cbn [buffer_run].
  { exists (contents b). split; [constructor|done]. }
  inversion Ho as [|? ? Ho1 Ho2]; subst. pose proof (buffer_step_spec b op Hb Ho1) as Hs.
  destruct (buffer_step b op) as [[out b1]| | |]; [|exists (contents b); split; [constructor|by eexists op, ops]| |done].
  - destruct Hs as [Hb1 Hq]. specialize (IH b1 Hb1 Ho2). destruct (buffer_run b1 ops) as [seen r].
    destruct IH as (q & Hrun & Hr). exists q. split; [by econstructor|]. destruct r; [| | |done].
    + destruct Hr as (? & ? & Hm). split; [done|]. split; [done|]. cbn. by rewrite Hm.
    + destruct Hr as (op' & rest & ->). by exists op', rest.
    + destruct Hr as (len & rest & -> & ?). by exists len, rest.
  - destruct Hs as (len & -> & Hlt). exists (contents b). split; [constructor|]. by exists len, ops.
Qed.

(** C20. The buffer of a connection is a queue of bytes. For every sequence of its
    operations on a new buffer, whatever arrives on the socket and however the block is
    filled, compacted and enlarged, no byte outside the block is touched; the bytes it
    returns, peeks at and receives are those of a queue to which the same operations
    are applied, and every operation runs, unless more is taken than there is, which
    aborts, or the block would outgrow a vector, which throws. *)
Theorem buffer_refines_queue initial_size ops :
  0 <= initial_size <= VECTOR_MAX - k_cheap_prepend → Forall op_ok ops →
  let '(seen, r) := buffer_run (new_buffer initial_size) ops in
  ∃ q, queue_run [] seen q
    ∧ match r with
      | Done b => contents b = q ∧ readable_bytes b = ♯q ∧ map fst seen = ops
      | LengthError => ∃ op rest, ops = map fst seen ++ op :: rest
      | Aborts => ∃ len rest, ops = map fst seen ++ OpTake len :: rest ∧ ♯q < len
      | Undefined => False
      end.
Proof.
  intros Hi Ho. assert (buffer_ok (new_buffer initial_size)) as Hb.
  { split; cbn; unfold Zlen, k_cheap_prepend in *; rewrite ?length_replicate; lia. }
  pose proof (buffer_run_spec ops _ Hb Ho) as H. destruct (buffer_run _ ops) as [seen r].
  destruct H as (q & Hrun & Hr). exists q. split; [exact Hrun|]. destruct r; try done.
  destruct Hr as (Hok & Hc & Hm). split; [done|]. split; [|done]. by rewrite readable_ok, Hc.
Qed.

Lemma buffer_refines_queue_witness :
  let ops := [OpAppend [1; 2; 3]; OpTake 2; OpRead [4; 5; 6; 7]; OpPeek; OpTakeAll; OpTake 1] in
  buffer_run (new_buffer 2) ops
  = ([(OpAppend [1; 2; 3], []); (OpTake 2, [1; 2]); (OpRead [4; 5; 6; 7], [4; 5; 6; 7]);
      (OpPeek, [3; 4; 5; 6; 7]); (OpTakeAll, [3; 4; 5; 6; 7])], Aborts)
  ∧ ∃ q, queue_run [] [(OpAppend [1; 2; 3], []); (OpTake 2, [1; 2]); (OpRead [4; 5; 6; 7], [4; 5; 6; 7]);
      (OpPeek, [3; 4; 5; 6; 7]); (OpTakeAll, [3; 4; 5; 6; 7])] q.
Proof.
  cbv zeta. split; [vm_compute; reflexivity|].
  pose proof (buffer_refines_queue 2 [OpAppend [1; 2; 3]; OpTake 2; OpRead [4; 5; 6; 7]; OpPeek; OpTakeAll; OpTake 1]) as H.
  match type of H with _ → _ → let '(_, _) := ?run in _ =>
    assert (run = ([(OpAppend [1; 2; 3], []); (OpTake 2, [1; 2]); (OpRead [4; 5; 6; 7], [4; 5; 6; 7]);
      (OpPeek, [3; 4; 5; 6; 7]); (OpTakeAll, [3; 4; 5; 6; 7])], Aborts)) as E by (vm_compute; reflexivity) end.
  rewrite E in H. destruct H as (q & Hq & _); [vm_compute; split; congruence| |by exists q].
  repeat constructor; vm_compute; congruence.
Defined.
