(* ===== verification/DiskTransfer.v ===== *)
(** Uploads to the disk: the executor of the disk's worker threads
    ([src/ftp/disk_executor.cpp], [inc/ftp/disk_executor.h]) and the receivers of files
    that run on it ([src/ftp/async_file_receiver.cpp], [inc/ftp/async_file_receiver.h]).

    A receiver is shared by the loop of its connection, by the worker that executes its
    current task and by whoever cancels it. A section under a lock is one step, and the
    steps of all receivers and threads are interleaved in any order; an event says which
    step comes next and how the calls it makes end. The pool of threads is its queue.
    The counter of tokens is taken not to wrap. *)

From S2P Require Import Prelude.
#[local] Open Scope tlss_scope.

Definition kMaxReceivers : Z := 64.
Definition kChunkBytes : Z := 64 * 1024.

Inductive Operation := Initialize | WriteChunk | Finish.
Inductive Task := Execute (operation : Operation) (data : bytes) | Cleanup.
Inductive Phase := Created | Running | Closing | Stopped.

#[export] Instance Phase_eq_dec : EqDecision Phase.
Proof. solve_decision. Defined.
#[export] Instance Operation_eq_dec : EqDecision Operation.
Proof. solve_decision. Defined.

(** No error is the empty string. *)
Record Result := mkResult { _operation : Operation; _value : bytes; _error : bytes }.

(** Where the worker of a receiver stands: it has taken a task, has done the operation,
    has announced the end and is to destroy the file, has destroyed it, is to give the
    token back; the same for a clean-up. *)
Inductive Work :=
  | NoWork
  | Begun (task : Task)
  | Did (result : Result)
  | Ending (result : Result)
  | Ended (result : Result)
  | CleanEnding
  | CleanEnded
  | Releasing.

(** [AsyncReceiver::State] with its worker, the receiver's own fields, which only the
    loop uses, and what has become of the file. *)
Record Receiver := mkReceiver {
  (* shared *)
  busy : bool;
  cancelled : bool;
  terminal : bool;
  post_enabled : bool;
  file : option bytes;          (* the file while it is open, with what was written *)
  work : Work;
  posting : bool;               (* [cancel] is about to post the clean-up *)
  (* of the loop *)
  connected : bool;
  _busy : bool;
  _finish_requested : bool;
  _terminal : bool;
  _size : Z;
  _remaining : Z;
  _pending_bytes : Z;
  results : list Result;        (* posted to the loop and not handled yet *)
  (* history *)
  fed : bytes;                  (* taken from the connection's buffer *)
  finalized : list bytes;       (* the contents of the file whenever the finalizer ran *)
  dones : list bytes;           (* calls of [_done] *)
  faileds : list bytes;         (* calls of [_failed] *)
  releases : Z                  (* how often the token was given back *)
}.

(** The executor, and the receivers that were ever attached to it. *)
Record Disk := mkDisk {
  _phase : Phase;
  _receivers : gset Z;
  _queue : list (Z * Task);
  _rejected : Z;
  next_token : Z;
  made : gmap Z Receiver;
  cancellations : list Z        (* what [begin_shutdown] has collected and not called yet *)
}.

Definition new_disk : Disk := mkDisk Created ∅ [] 0 1 ∅ [].

(** A step is taken, cannot be taken now, throws to its caller, or violates what the
    code takes for granted: the clean-up cannot be posted ([std::terminate]), two
    workers run for one file, or something is posted to the loop or given back after
    the token was. *)
Inductive StepResult := Stepped (d : Disk) | Throws (d : Disk) | Disabled | Violation.

(** ** Updates *)

Definition set_phase (p : Phase) (d : Disk) : Disk :=
  mkDisk p (_receivers d) (_queue d) (_rejected d) (next_token d) (made d) (cancellations d).
Definition set_receivers (s : gset Z) (d : Disk) : Disk :=
  mkDisk (_phase d) s (_queue d) (_rejected d) (next_token d) (made d) (cancellations d).
Definition set_queue (q : list (Z * Task)) (d : Disk) : Disk :=
  mkDisk (_phase d) (_receivers d) q (_rejected d) (next_token d) (made d) (cancellations d).
Definition set_cancellations (l : list Z) (d : Disk) : Disk :=
  mkDisk (_phase d) (_receivers d) (_queue d) (_rejected d) (next_token d) (made d) l.
Definition reject (d : Disk) : Disk :=
  mkDisk (_phase d) (_receivers d) (_queue d) (u64 (_rejected d + 1)) (next_token d) (made d) (cancellations d).
Definition set_receiver (t : Z) (r : Receiver) (d : Disk) : Disk :=
  mkDisk (_phase d) (_receivers d) (_queue d) (_rejected d) (next_token d) (<[t := r]> (made d)) (cancellations d).

Definition with_shared (b c t p : bool) (r : Receiver) : Receiver :=
  mkReceiver b c t p (file r) (work r) (posting r) (connected r) (_busy r) (_finish_requested r) (_terminal r)
    (_size r) (_remaining r) (_pending_bytes r) (results r) (fed r) (finalized r) (dones r) (faileds r) (releases r).
Definition set_busy (b : bool) (r : Receiver) : Receiver := with_shared b (cancelled r) (terminal r) (post_enabled r) r.
Definition set_terminal (r : Receiver) : Receiver := with_shared (busy r) (cancelled r) true (post_enabled r) r.
Definition set_cancelled (r : Receiver) : Receiver := with_shared (busy r) true (terminal r) false r.
Definition set_worker (f : option bytes) (w : Work) (r : Receiver) : Receiver :=
  mkReceiver (busy r) (cancelled r) (terminal r) (post_enabled r) f w (posting r) (connected r) (_busy r)
    (_finish_requested r) (_terminal r) (_size r) (_remaining r) (_pending_bytes r) (results r) (fed r) (finalized r)
    (dones r) (faileds r) (releases r).
Definition set_posting (b : bool) (r : Receiver) : Receiver :=
  mkReceiver (busy r) (cancelled r) (terminal r) (post_enabled r) (file r) (work r) b (connected r) (_busy r)
    (_finish_requested r) (_terminal r) (_size r) (_remaining r) (_pending_bytes r) (results r) (fed r) (finalized r)
    (dones r) (faileds r) (releases r).
Definition set_connected (b : bool) (r : Receiver) : Receiver :=
  mkReceiver (busy r) (cancelled r) (terminal r) (post_enabled r) (file r) (work r) (posting r) b (_busy r)
    (_finish_requested r) (_terminal r) (_size r) (_remaining r) (_pending_bytes r) (results r) (fed r) (finalized r)
    (dones r) (faileds r) (releases r).
Definition set_loop (b f t : bool) (pending : Z) (r : Receiver) : Receiver :=
  mkReceiver (busy r) (cancelled r) (terminal r) (post_enabled r) (file r) (work r) (posting r) (connected r) b f t
    (_size r) (_remaining r) pending (results r) (fed r) (finalized r) (dones r) (faileds r) (releases r).
Definition set_results (l : list Result) (r : Receiver) : Receiver :=
  mkReceiver (busy r) (cancelled r) (terminal r) (post_enabled r) (file r) (work r) (posting r) (connected r) (_busy r)
    (_finish_requested r) (_terminal r) (_size r) (_remaining r) (_pending_bytes r) l (fed r) (finalized r)
    (dones r) (faileds r) (releases r).
Definition set_fed (data : bytes) (r : Receiver) : Receiver :=
  mkReceiver (busy r) (cancelled r) (terminal r) (post_enabled r) (file r) (work r) (posting r) (connected r) (_busy r)
    (_finish_requested r) (_terminal r) (_size r) (_remaining r - ♯data) (♯data) (results r) (fed r ++ data) (finalized r)
    (dones r) (faileds r) (releases r).
Definition set_calls (fin done failed : list bytes) (r : Receiver) : Receiver :=
  mkReceiver (busy r) (cancelled r) (terminal r) (post_enabled r) (file r) (work r) (posting r) (connected r) (_busy r)
    (_finish_requested r) (_terminal r) (_size r) (_remaining r) (_pending_bytes r) (results r) (fed r)
    (finalized r ++ fin) (dones r ++ done) (faileds r ++ failed) (releases r).
Definition set_released (r : Receiver) : Receiver :=
  mkReceiver (busy r) (cancelled r) (terminal r) (post_enabled r) (file r) NoWork (posting r) (connected r) (_busy r)
    (_finish_requested r) (_terminal r) (_size r) (_remaining r) (_pending_bytes r) (results r) (fed r) (finalized r)
    (dones r) (faileds r) (releases r + 1).

(** ** The executor *)

Definition is_full (d : Disk) : bool := kMaxReceivers <=? ♯(_queue d).

(** [post]: the pool runs from [start] until [stop] has found no receiver left. *)
Definition post (t : Z) (task : Task) (cleanup : bool) (d : Disk) : bool * Disk :=
  let open := match _phase d with Running => true | Closing => cleanup | _ => false end in
  if negb open then (false, reject d) else
  if is_full d then (false, reject d) else (true, set_queue (_queue d ++ [(t, task)]) d).

Definition new_receiver (n : Z) : Receiver :=
  mkReceiver false false false true None NoWork false true false false false n n 0 [] [] [] [] [] 0.

(** [attach]; [None] is an exception. *)
Definition attach (n : Z) (d : Disk) : option Z * Disk :=
  if negb (bool_decide (_phase d = Running)) then (None, reject d) else
  if kMaxReceivers <=? Z.of_nat (size (_receivers d)) then (None, reject d) else
  let t := next_token d in
  (Some t, mkDisk (_phase d) ({[t]} ∪ _receivers d) (_queue d) (_rejected d) (t + 1) (<[t := new_receiver n]> (made d))
             (cancellations d)).

(** ** [AsyncReceiver::State] *)

Definition is_cancelled (r : Receiver) : bool := cancelled r || negb (post_enabled r).

(** [cancel] up to the posting of the clean-up, which is a step of its own. *)
Definition cancel (r : Receiver) : Receiver :=
  let r := set_cancelled r in
  if terminal r || busy r then r else set_posting true (set_busy true r).

Definition post_cleanup (t : Z) (r : Receiver) (d : Disk) : StepResult :=
  match post t Cleanup true d with
  | (true, d) => Stepped (set_receiver t (set_posting false r) d)
  | (false, _) => Violation
  end.

Definition launch (t : Z) (operation : Operation) (data : bytes) (r : Receiver) (d : Disk) : bool * Disk :=
  if cancelled r || terminal r || busy r then (false, set_receiver t r d) else
  match post t (Execute operation data) false d with
  | (true, d) => (true, set_receiver t (set_busy true r) d)
  | (false, d) => (false, set_receiver t (cancel r) d)
  end.

(** How the calls of a worker's step end: the operation succeeds with a value, or throws
    after a part of the data was written. *)
Record Call := mkCall { call_ok : bool; call_value : bytes; call_error : bytes; call_part : nat }.

(** The operation of a task: the result, the file and what was finalized. *)
Definition operate (operation : Operation) (data : bytes) (c : Call) (r : Receiver) : Result * option bytes * list bytes :=
  let error := if bool_decide (call_error c = []) then [63] else call_error c in
  if is_cancelled r then (mkResult operation [] [], file r, []) else
  match operation, file r with
  | Initialize, _ =>
      if call_ok c then (mkResult operation [] [], Some [], []) else (mkResult operation [] error, file r, [])
  | _, None => (mkResult operation [] error, None, [])
  | WriteChunk, Some content =>
      if call_ok c then (mkResult operation [] [], Some (content ++ data), [])
      else (mkResult operation [] error, Some (content ++ take (call_part c) data), [])
  | Finish, Some content =>
      if call_ok c then (mkResult operation (call_value c) [], Some content, [content])
      else (mkResult operation [] error, Some content, [content])
  end.

Definition has_error (result : Result) : bool := negb (bool_decide (_error result = [])).

(** [post_result_locked] *)
Definition post_result (result : Result) (r : Receiver) : Receiver :=
  if is_cancelled r then r else set_results (results r ++ [result]) r.

(** A step of the worker of receiver [t]. *)
Definition work_step (t : Z) (c : Call) (r : Receiver) (d : Disk) : StepResult :=
  let registered := bool_decide (t ∈ _receivers d) in
  match work r with
  | NoWork => Disabled
  | Begun (Execute operation data) =>
      let '(result, f, fin) := operate operation data c r in
      Stepped (set_receiver t (set_calls fin [] [] (set_worker f (Did result) r)) d)
  | Did result =>
      if cancelled r || has_error result || bool_decide (_operation result = Finish)
      then Stepped (set_receiver t (set_worker (file r) (Ending result) (set_terminal r)) d)
      else if negb registered then Violation
      else Stepped (set_receiver t (post_result result (set_worker (file r) NoWork (set_busy false r))) d)
  | Ending result => Stepped (set_receiver t (set_worker None (Ended result) r) d)
  | Ended result =>
      if negb registered then Violation
      else Stepped (set_receiver t (post_result result (set_worker (file r) Releasing (set_busy false r))) d)
  | Begun Cleanup => Stepped (set_receiver t (set_worker (file r) CleanEnding (set_terminal r)) d)
  | CleanEnding => Stepped (set_receiver t (set_worker None CleanEnded r) d)
  | CleanEnded => Stepped (set_receiver t (set_worker (file r) Releasing (set_busy false r)) d)
  | Releasing =>
      if negb registered then Violation
      else Stepped (set_receiver t (set_released r) (set_receivers (_receivers d ∖ {[t]}) d))
  end.

(** ** [AsyncReceiver], on the loop *)

(** [submit]; [false] is an exception. Another thread may have cancelled meanwhile. *)
Definition submit (raced : bool) (t : Z) (operation : Operation) (data : bytes) (r : Receiver) (d : Disk) : bool * Disk :=
  if negb (connected r) then (false, set_receiver t r d) else
  let r := set_loop true (_finish_requested r) (_terminal r) (_pending_bytes r) r in
  match launch t operation data (if raced then cancel r else r) d with
  | (true, d) => (true, d)
  | (false, d) =>
      (false, match made d !! t with
              | Some r => set_receiver t (set_loop false (_finish_requested r) (_terminal r) (_pending_bytes r) r) d
              | None => d
              end)
  end.

Definition as_step (p : bool * Disk) : StepResult := if p.1 then Stepped p.2 else Throws p.2.

Definition create (raced : bool) (n : Z) (d : Disk) : StepResult :=
  match attach n d with
  | (None, d) => Throws d
  | (Some t, d) =>
      match submit raced t Initialize [] (new_receiver n) d with
      | (true, d) => Stepped d
      | (false, d) => Throws (match made d !! t with Some r => set_receiver t (cancel r) d | None => d end)
      end
  end.

Definition feed (raced : bool) (t : Z) (buffer : bytes) (r : Receiver) (d : Disk) : StepResult :=
  if _terminal r || is_cancelled r then Throws d else
  if _busy r || _finish_requested r then Stepped d else
  let count := Z.min (_remaining r) (Z.min (♯buffer) kChunkBytes) in
  if count =? 0 then Stepped d else
  let data := take (Z.to_nat count) buffer in
  match submit raced t WriteChunk data r d with
  | (true, d) => Stepped (match made d !! t with Some r => set_receiver t (set_fed data r) d | None => d end)
  | (false, d) => Throws d
  end.

Definition finish (raced : bool) (t : Z) (r : Receiver) (d : Disk) : bool * Disk :=
  if _terminal r || is_cancelled r then (false, set_receiver t r d) else
  if negb (_remaining r =? 0) then (false, set_receiver t r d) else
  let r := set_loop (_busy r) true (_terminal r) (_pending_bytes r) r in
  if _busy r then (true, set_receiver t r d) else submit raced t Finish [] r d.

Definition report_error (t : Z) (error : bytes) (d : Disk) : Disk :=
  match made d !! t with
  | Some r =>
      let r := cancel r in
      set_receiver t (set_calls [] [] [error] (set_loop false (_finish_requested r) true 0 r)) d
  | None => d
  end.

(** What the callbacks do: [ready] may call [finish], and any of them may throw. *)
Record Handlers := mkHandlers { ready_finishes : bool; callback_throws : bool }.

(** The rest of [on_result] after a result without an error. *)
Definition go_on (raced : bool) (t : Z) (result : Result) (h : Handlers) (r : Receiver) (d : Disk) : bool * Disk :=
  match _operation result with
  | Finish =>
      let r := set_calls [] [_value result] [] (set_loop (_busy r) (_finish_requested r) true (_pending_bytes r) r) in
      (negb (callback_throws h), set_receiver t r d)
  | operation =>
      let '(ok, d) :=
        match operation with
        | Initialize => let '(ok, d) := if ready_finishes h then finish raced t r d else (true, set_receiver t r d) in
                        (ok && negb (callback_throws h), d)
        | _ => (true, set_receiver t r d)
        end in
      if negb ok then (false, d) else
      match made d !! t with
      | Some r =>
          if _finish_requested r && negb (_busy r) && negb (_terminal r) then submit raced t Finish [] r d else (true, d)
      | None => (true, d)
      end
  end.

Definition on_result (raced : bool) (t : Z) (result : Result) (h : Handlers) (r : Receiver) (d : Disk) : Disk :=
  if _terminal r || is_cancelled r then set_receiver t r d else
  if negb (connected r) then set_receiver t (cancel r) d else
  let r := set_loop false (_finish_requested r) (_terminal r) 0 r in
  if has_error result then report_error t (_error result) (set_receiver t r d) else
  match go_on raced t result h r d with
  | (true, d) => d
  | (false, d) => report_error t [63] d
  end.

(** ** Events *)

Inductive DEvent :=
  | DStart (threads : Z) (ok : bool)   (* whether the pool starts *)
  | DBeginShutdown
  | DCancelNext
  | DStop
  | DCreate (raced : bool) (n : Z)
  | DFeed (raced : bool) (t : Z) (buffer : bytes)
  | DFinish (raced : bool) (t : Z)
  | DCancel (t : Z)
  | DDisconnect (t : Z)
  | DResult (raced : bool) (t : Z) (h : Handlers)
  | DPostCleanup (t : Z)
  | DTake
  | DWork (t : Z) (c : Call).

Definition on_receiver (t : Z) (d : Disk) (f : Receiver → StepResult) : StepResult :=
  match made d !! t with Some r => f r | None => Disabled end.

Definition disk_step (e : DEvent) (d : Disk) : StepResult :=
  match e with
  | DStart threads ok =>
      if threads <=? 0 then Throws d else
      if negb (bool_decide (_phase d = Created)) then Throws d else
      if ok then Stepped (set_phase Running d) else Throws (set_phase Stopped d)
  | DBeginShutdown =>
      match _phase d with
      | Closing | Stopped => Stepped d
      | _ => Stepped (set_cancellations (elements (_receivers d)) (set_phase Closing d))
      end
  | DCancelNext =>   (* the loop of [begin_shutdown], without the lock *)
      match cancellations d with
      | [] => Disabled
      | t :: rest => on_receiver t d (λ r, Stepped (set_receiver t (cancel r) (set_cancellations rest d)))
      end
  | DStop =>   (* when [stop] has waited for the receivers *)
      if bool_decide (_phase d = Closing) && bool_decide (_receivers d = ∅) then Stepped (set_phase Stopped d) else Disabled
  | DCreate raced n => create raced n d
  | DFeed raced t buffer => on_receiver t d (λ r, feed raced t buffer r d)
  | DFinish raced t => on_receiver t d (λ r, as_step (finish raced t r d))
  | DCancel t => on_receiver t d (λ r, Stepped (set_receiver t (cancel r) d))
  | DDisconnect t => on_receiver t d (λ r, Stepped (set_receiver t (set_connected false r) d))
  | DResult raced t h => on_receiver t d (λ r,
      match results r with
      | [] => Disabled
      | result :: rest => Stepped (on_result raced t result h (set_results rest r) d)
      end)
  | DPostCleanup t => on_receiver t d (λ r, if posting r then post_cleanup t r d else Disabled)
  | DTake =>
      match _queue d with
      | [] => Disabled
      | (t, task) :: rest =>
          on_receiver t d (λ r, match work r with
            | NoWork => Stepped (set_receiver t (set_worker (file r) (Begun task) r) (set_queue rest d))
            | _ => Violation
            end)
      end
  | DWork t c => on_receiver t d (λ r, work_step t c r d)
  end.

(** A run goes on after an exception; an event that cannot happen is skipped. *)
Fixpoint disk_run (es : list DEvent) (d : Disk) : option Disk :=
  match es with
  | [] => Some d
  | e :: es =>
      match disk_step e d with
      | Stepped d | Throws d => disk_run es d
      | Disabled => disk_run es d
      | Violation => None
      end
  end.
