(* ===== verification/DiskSafety.v ===== *)
(** Uploads to the disk ([DiskTransfer.v]) keep to what the code takes for granted: the
    invariant of a receiver and of the executor, and that every step keeps it. *)

From S2P Require Import Prelude DiskTransfer.
#[local] Open Scope tlss_scope.

(** Splits conjunctions and hypotheses, and closes what follows by congruence. *)
Ltac dk :=
  repeat match goal with
    | H : _ ∧ _ |- _ => destruct H
    | |- _ ∧ _ => split
    | |- _ → _ => intros ?
    end; try congruence; eauto.

(** ** A receiver *)

(** What is under way for a receiver, in the queue, at its worker or at whoever cancels
    it: nothing, an operation, one that is done, the end after an operation, a clean-up,
    the end of it, the return of the token. *)
Inductive Slot :=
  | SIdle
  | SExec (operation : Operation) (data : bytes)
  | SDid (result : Result)
  | SEnd (result : Result)
  | SClean
  | SCleanEnd
  | SRelease.

Definition slot_of_task (task : Task) : Slot :=
  match task with Execute operation data => SExec operation data | Cleanup => SClean end.

(** There is at most one such thing. *)
Definition slot (q : list Task) (r : Receiver) : option Slot :=
  match q, work r, posting r with
  | [], NoWork, false => Some SIdle
  | [], NoWork, true => Some SClean
  | [task], NoWork, false => Some (slot_of_task task)
  | [], Begun task, false => Some (slot_of_task task)
  | [], Did result, false => Some (SDid result)
  | [], Ending result, false | [], Ended result, false => Some (SEnd result)
  | [], CleanEnding, false | [], CleanEnded, false => Some SCleanEnd
  | [], Releasing, false => Some SRelease
  | _, _, _ => None
  end.

Ltac open_slot :=
  unfold slot; intros Hslot;
  match type of Hslot with match ?q with _ => _ end = _ =>
    destruct q as [|[] [|]], (work _) as [|[]| | | | | |] eqn:Hwork, (posting _) eqn:Hposting;
    cbn in Hslot; try discriminate; try (injection Hslot as <-); try (injection Hslot as <- <-)
  end.

Lemma slot_idle q r : slot q r = Some SIdle → q = [] ∧ work r = NoWork ∧ posting r = false.
Proof. open_slot; done. Qed.

Definition ends (result : Result) : bool := has_error result || bool_decide (_operation result = Finish).

(** The flags and the file. *)
Definition shared_ok (s : Slot) (reg : bool) (r : Receiver) : Prop :=
  match s with
  | SIdle =>
      busy r = false
      ∧ if reg then terminal r = false ∧ cancelled r = false ∧ file r = Some (fed r) else terminal r = true ∧ file r = None
  | SExec operation data =>
      reg = true ∧ busy r = true ∧ terminal r = false
      ∧ (cancelled r = false →
         match operation with
         | Initialize => file r = None ∧ fed r = [] ∧ data = []
         | WriteChunk => ∃ content, file r = Some content ∧ fed r = content ++ data
         | Finish => file r = Some (fed r) ∧ _remaining r = 0 ∧ data = []
         end)
  | SDid result =>
      reg = true ∧ busy r = true ∧ terminal r = false
      ∧ (cancelled r = false → has_error result = false →
         file r = Some (fed r) ∧ (_operation result = Finish → finalized r = [fed r]))
  | SEnd result =>
      reg = true ∧ busy r = true ∧ terminal r = true ∧ (cancelled r = false → ends result = true)
      ∧ (cancelled r = false → has_error result = false → finalized r = [fed r])
      ∧ (∀ result', work r = Ended result' → file r = None)
  | SClean => reg = true ∧ busy r = true ∧ terminal r = false ∧ cancelled r = true
  | SCleanEnd => reg = true ∧ busy r = true ∧ terminal r = true ∧ cancelled r = true ∧ (work r = CleanEnded → file r = None)
  | SRelease => reg = true ∧ busy r = false ∧ terminal r = true ∧ file r = None
  end.

(** What the loop waits for: as long as nothing is cancelled and the receiver is not at
    its end, either an operation is under way or its result is waiting. *)
Definition outstanding (s : Slot) : nat := match s with SExec _ _ | SDid _ | SEnd _ => 1 | _ => 0 end.
Definition loop_ok (s : Slot) (r : Receiver) : Prop :=
  cancelled r = false → _terminal r = false →
  (length (results r) + outstanding s)%nat = (if _busy r then 1 else 0)%nat
  ∧ Forall (λ result, ends result = terminal r) (results r)
  ∧ (terminal r = true → _busy r = true).

(** Whether the finalizer may have run. *)
Definition past_finish (s : Slot) (reg : bool) : Prop :=
  match s with
  | SIdle => reg = false
  | SDid result => _operation result = Finish
  | SEnd _ | SRelease => True
  | _ => False
  end.

Record receiver_ok (q : list Task) (reg : bool) (r : Receiver) : Prop := {
  ro_post : post_enabled r = negb (cancelled r);
  ro_sizes : ♯(fed r) + _remaining r = _size r ∧ 0 <= _remaining r;
  ro_finish : _finish_requested r = true → _remaining r = 0;
  ro_releases : releases r = if reg then 0 else 1;
  ro_slot : ∃ s, slot q r = Some s ∧ shared_ok s reg r ∧ loop_ok s r
      ∧ (finalized r = [] ∨ finalized r = [fed r] ∧ _remaining r = 0 ∧ past_finish s reg);
  ro_results : Forall (λ result, _operation result = Finish → has_error result = false → finalized r = [fed r]) (results r);
  ro_dones : dones r = [] ∨ length (dones r) = 1%nat ∧ _terminal r = true ∧ finalized r = [fed r];
  ro_faileds : faileds r = [] ∨ length (faileds r) = 1%nat ∧ _terminal r = true ∧ cancelled r = true
}.

Lemma new_receiver_ok n : 0 <= n → 
  receiver_ok [Execute Initialize []] true (set_loop true false false 0 (set_busy true (new_receiver n))).
Proof.
  intros Hn. split; cbn; try done; try (by left).
  eexists. split; [done|]. split; [by repeat split|]. split; [by intros _ _; repeat split|by left].
Qed.

(** *** Cancelling *)

Lemma cancel_ok q reg r : receiver_ok q reg r → receiver_ok q reg (cancel r).
Proof.
  intros [Hp Hs Hf Hr (s & Hslot & Hsh & Hl & Hfin) Hres Hd Hfa]. unfold cancel. cbn [terminal busy set_cancelled with_shared].
  destruct (terminal r || busy r) eqn:E.
  - split; try done; [exists s|destruct Hfa as [?|(? & ? & ?)]; [by left|by right]].
    split; [done|]. split; [|split; [by intros ?|done]].
    apply orb_true_iff in E. destruct s; cbn in *; [destruct reg|..]; destruct E; dk.
  - apply orb_false_iff in E as [Et Eb].
    assert (s = SIdle ∧ reg = true) as [-> ->] by (destruct s; cbn in Hsh; destruct reg; dk).
    destruct Hsh as (_ & _ & Hc & Hfile). 
    assert (q = [] ∧ work r = NoWork ∧ posting r = false) as (-> & Hw & Hpo) by by apply slot_idle.
    split; cbn; try done; [exists SClean|destruct Hfa as [?|(? & ? & ?)]; [by left|by right]].
    unfold slot. cbn. rewrite Hw. split; [done|]. split; [done|]. split; [by intros ?|]. left.
    destruct Hfin as [?|(_ & _ & ?)]; done.
Qed.

(** *** The queue *)

Lemma post_cleanup_ok q reg r :
  receiver_ok q reg r → posting r = true → q = [] ∧ reg = true ∧ receiver_ok [Cleanup] reg (set_posting false r).
Proof.
  intros [Hp Hs Hf Hr (s & Hslot & Hsh & Hl & Hfin) Hres Hd Hfa] Hpo.
  assert (q = [] ∧ work r = NoWork ∧ s = SClean) as (-> & Hw & ->).
  { revert Hslot. unfold slot. rewrite Hpo. destruct q as [|[] [|]], (work r) as [|[]| | | | | |]; cbn; by intros [= <-]. }
  split; [done|]. split; [by apply Hsh|]. split; cbn; try done. exists SClean. unfold slot. cbn. by rewrite Hw.
Qed.

Lemma take_ok task q reg r :
  receiver_ok (task :: q) reg r →
  q = [] ∧ work r = NoWork ∧ reg = true ∧ receiver_ok [] reg (set_worker (file r) (Begun task) r).
Proof.
  intros [Hp Hs Hf Hr (s & Hslot & Hsh & Hl & Hfin) Hres Hd Hfa].
  assert (q = [] ∧ work r = NoWork ∧ posting r = false ∧ s = slot_of_task task) as (-> & Hw & Hpo & ->).
  { revert Hslot. unfold slot. destruct q as [|? ?], (work r), (posting r); cbn; by intros [= <-]. }
  split; [done|]. split; [done|]. split; [by destruct task; apply Hsh|]. split; cbn; try done.
  exists (slot_of_task task). unfold slot. cbn. rewrite Hpo. by destruct task.
Qed.

(** *** The worker *)

Lemma working q reg r :
  receiver_ok q reg r → work r ≠ NoWork → q = [] ∧ reg = true ∧ posting r = false.
Proof.
  intros [_ _ _ _ (s & Hslot & Hsh & _) _ _ _] Hw. revert Hslot. unfold slot.
  destruct q as [|? [|? ?]], (work r) as [|[]| | | | | |], (posting r); cbn; intros [= <-]; cbn in Hsh; done || by destruct Hsh.
Qed.

Lemma not_cancelled q reg r : receiver_ok q reg r → is_cancelled r = cancelled r.
Proof. intros H. unfold is_cancelled. rewrite (ro_post _ _ _ H). by destruct (cancelled r). Qed.

Lemma nonempty_error l : bool_decide (l = []) = false → has_error (mkResult Finish [] l) = true.
Proof. unfold has_error. by cbn; intros ->. Qed.

(** The operation of a task. *)
Lemma begun_ok operation data c reg r result f fin :
  receiver_ok [] reg r → work r = Begun (Execute operation data) → operate operation data c r = (result, f, fin) →
  receiver_ok [] reg (set_calls fin [] [] (set_worker f (Did result) r)).
Proof.
  intros H Hw Ho. destruct (working _ _ _ H) as (_ & -> & Hpo); [by rewrite Hw|]. pose proof (not_cancelled _ _ _ H) as Hc.
  destruct H as [Hp Hs Hf Hr (s & Hslot & Hsh & Hl & Hfin) Hres Hd Hfa].
  unfold slot in Hslot. rewrite Hw, Hpo in Hslot. injection Hslot as <-. cbn in Hsh.
  destruct Hsh as (_ & Hb & Ht & Hdata). assert (finalized r = []) as Hfz by (destruct Hfin as [?|(_ & _ & [])]; done).
  assert (dones r = []) as Hdn by (destruct Hd as [?|(_ & _ & E)]; [done|congruence]).
  assert ((cancelled r = false → has_error result = false → f = Some (fed r) ∧ (_operation result = Finish → fin = [fed r]))
    ∧ (fin = [] ∨ fin = [fed r] ∧ _remaining r = 0 ∧ _operation result = Finish)) as [Hres' Hfin'].
  { unfold operate in Ho. rewrite Hc in Ho. destruct (cancelled r); [injection Ho as <- <- <-; split; [done|by left]|].
    specialize (Hdata eq_refl). set (error := if bool_decide _ then _ else _) in Ho.
    assert (bool_decide (error = []) = false) as He.
    { subst error. case_bool_decide as E; by apply bool_decide_eq_false. }
    destruct operation.
    - destruct Hdata as (Hfi & Hfe & ->). rewrite Hfe. destruct (call_ok c); injection Ho as <- <- <-; (split; [|by left]); intros _; unfold has_error; cbn; [done|by rewrite He].
    - destruct Hdata as (content & Hfi & Hfe). rewrite Hfi in Ho. rewrite Hfe. destruct (call_ok c); injection Ho as <- <- <-; (split; [|by left]); intros _; unfold has_error; cbn; [done|by rewrite He].
    - destruct Hdata as (Hfi & Hrem & ->). rewrite Hfi in Ho. destruct (call_ok c); injection Ho as <- <- <-; (split; [|by right]); intros _; unfold has_error; cbn; [done|by rewrite He]. }
  split; cbn; try done; rewrite ?app_nil_r, ?Hfz; cbn [app].
  - exists (SDid result). unfold slot. cbn. rewrite Hpo. split; [done|].
    split; [cbn; rewrite Hfz; by split_and!|]. split; [exact Hl|].
    destruct Hfin' as [->|?]; [by left|by right].
  - destruct Hfin' as [->|(-> & _ & _)]; [by rewrite Hfz in Hres|]. by apply Forall_true.
  - by left.
  - done.
Qed.

(** The slot of a worker. *)
Ltac at_work H Hw :=
  let Hreg := fresh "Hreg" in let Hpo := fresh "Hpo" in
  destruct (working _ _ _ H) as (_ & -> & Hpo); [by rewrite Hw|];
  pose proof (not_cancelled _ _ _ H) as Hcan;
  destruct H as [Hp Hs Hf Hr (s & Hslot & Hsh & Hl & Hfin) Hres Hd Hfa];
  unfold slot in Hslot; rewrite Hw, Hpo in Hslot; injection Hslot as <-; cbn in Hsh.

(** An operation after which the receiver ends. *)
Lemma did_ends_ok result reg r :
  receiver_ok [] reg r → work r = Did result → cancelled r || has_error result || bool_decide (_operation result = Finish) = true →
  receiver_ok [] reg (set_worker (file r) (Ending result) (set_terminal r)).
Proof.
  intros H Hw He. at_work H Hw. destruct Hsh as (_ & Hb & Ht & Hdid).
  assert (cancelled r = false → ends result = true) as Hends.
  { intros Hc. rewrite Hc in He. by rewrite orb_false_l in He. }
  split; cbn; try done. exists (SEnd result). unfold slot. cbn. rewrite Hpo. split; [done|]. split; [|split].
  - split_and!; try done. intros Hc Hne. destruct (Hdid Hc Hne) as [_ Hfi]. apply Hfi.
    specialize (Hends Hc). unfold ends in Hends. rewrite Hne in Hends. by apply bool_decide_eq_true in Hends.
  - intros Hc Hlt. destruct (Hl Hc Hlt) as (Hlen & _ & _). cbn in *. split; [done|].
    destruct (results r); cbn in *; [split; [by apply Forall_nil_2|]|]; destruct (_busy r); done || lia.
  - destruct Hfin as [?|(? & ? & ?)]; [by left|by right].
Qed.

(** The result of another operation is posted, and the worker is free. *)
Lemma did_ok result reg r :
  receiver_ok [] reg r → work r = Did result → cancelled r || has_error result || bool_decide (_operation result = Finish) = false →
  receiver_ok [] reg (post_result result (set_worker (file r) NoWork (set_busy false r))).
Proof.
  intros H Hw He. at_work H Hw. destruct Hsh as (_ & Hb & Ht & Hdid).
  apply orb_false_iff in He as [[Hc Hne]%orb_false_iff Hnf]. apply bool_decide_eq_false in Hnf.
  destruct (Hdid Hc Hne) as [Hfile _].
  unfold post_result. change (is_cancelled (set_worker _ _ _)) with (is_cancelled r). rewrite Hcan, Hc.
  split; cbn; try done.
  - exists SIdle. unfold slot. cbn. rewrite Hpo. split; [done|]. split; [by split_and!|]. split.
    + intros _ Hlt. destruct (Hl Hc Hlt) as (Hlen & Hall & _). cbn in *. rewrite length_app. cbn.
      split; [lia|]. split; [|by rewrite Ht]. apply Forall_app. split; [done|]. apply Forall_singleton.
      unfold ends. rewrite Hne, Ht. by apply bool_decide_eq_false.
    + left. destruct Hfin as [?|(_ & _ & ?)]; done.
  - apply Forall_app. split; [done|]. by apply Forall_singleton.
Qed.

Lemma ending_ok result reg r :
  receiver_ok [] reg r → work r = Ending result → receiver_ok [] reg (set_worker None (Ended result) r).
Proof.
  intros H Hw. at_work H Hw. destruct Hsh as (_ & ? & ? & ? & ? & ?). split; cbn; try done.
  exists (SEnd result). unfold slot. cbn. by rewrite Hpo.
Qed.

Lemma ended_ok result reg r :
  receiver_ok [] reg r → work r = Ended result →
  receiver_ok [] reg (post_result result (set_worker (file r) Releasing (set_busy false r))).
Proof.
  intros H Hw. at_work H Hw. destruct Hsh as (_ & Hb & Ht & Hends & Hfi & Hfile). specialize (Hfile _ Hw).
  unfold post_result. change (is_cancelled (set_worker _ _ _)) with (is_cancelled r). rewrite Hcan.
  destruct (cancelled r) eqn:Hc.
  - split; cbn; try done; try (by rewrite Hc). exists SRelease. unfold slot. cbn. rewrite Hpo.
    split; [done|]. split; [by split_and!|]. split; [unfold loop_ok; cbn; by rewrite Hc|].
    destruct Hfin as [?|(? & ? & ?)]; [by left|by right].
  - specialize (Hends eq_refl). split; cbn; try done; try (by rewrite Hc).
    + exists SRelease. unfold slot. cbn. rewrite Hpo. split; [done|]. split; [by split_and!|]. split.
      * intros _ Hlt. destruct (Hl Hc Hlt) as (Hlen & Hall & Hbu). cbn in *. rewrite length_app. cbn.
        split; [lia|]. split; [|done]. apply Forall_app. split; [done|]. apply Forall_singleton. by rewrite Ht.
      * destruct Hfin as [?|(? & ? & ?)]; [by left|by right].
    + apply Forall_app. split; [done|]. apply Forall_singleton. auto.
Qed.

Lemma clean_begun_ok reg r :
  receiver_ok [] reg r → work r = Begun Cleanup →
  receiver_ok [] reg (set_worker (file r) CleanEnding (set_terminal r)).
Proof.
  intros H Hw. at_work H Hw. destruct Hsh as (_ & ? & ? & Hc). split; cbn; try done.
  exists SCleanEnd. unfold slot. cbn. rewrite Hpo. split; [done|]. split; [by split_and!|].
  split; [unfold loop_ok; cbn; by rewrite Hc|]. left. destruct Hfin as [?|(_ & _ & [])]; done.
Qed.

Lemma clean_ending_ok reg r :
  receiver_ok [] reg r → work r = CleanEnding → receiver_ok [] reg (set_worker None CleanEnded r).
Proof.
  intros H Hw. at_work H Hw. destruct Hsh as (_ & ? & ? & Hc & _). split; cbn; try done.
  exists SCleanEnd. unfold slot. cbn. by rewrite Hpo.
Qed.

Lemma clean_ended_ok reg r :
  receiver_ok [] reg r → work r = CleanEnded → receiver_ok [] reg (set_worker (file r) Releasing (set_busy false r)).
Proof.
  intros H Hw. at_work H Hw. destruct Hsh as (_ & ? & ? & Hc & Hfile). split; cbn; try done.
  exists SRelease. unfold slot. cbn. rewrite Hpo. split; [done|]. split; [split_and!; auto|].
  split; [unfold loop_ok; cbn; by rewrite Hc|]. left. destruct Hfin as [?|(_ & _ & [])]; done.
Qed.

Lemma releasing_ok reg r :
  receiver_ok [] reg r → work r = Releasing → reg = true ∧ receiver_ok [] false (set_released r).
Proof.
  intros H Hw. at_work H Hw. destruct Hsh as (_ & ? & ? & ?). split; [done|]. split; cbn; try done; [by rewrite Hr|].
  exists SIdle. unfold slot. cbn. rewrite Hpo. split; [done|]. split; [by split_and!|]. split; [exact Hl|].
  destruct Hfin as [?|(? & ? & ?)]; [by left|by right].
Qed.

(** *** The loop *)

(** A receiver the loop may give work to. *)
Record quiet (q : list Task) (reg : bool) (r : Receiver) : Prop := {
  qt_queue : q = [];
  qt_reg : reg = true;
  qt_work : work r = NoWork ∧ posting r = false;
  qt_flags : busy r = false ∧ terminal r = false ∧ cancelled r = false;
  qt_results : results r = [];
  qt_file : file r = Some (fed r) ∧ finalized r = []
}.

Lemma loop_quiet q reg r :
  receiver_ok q reg r → cancelled r = false → _terminal r = false → _busy r = false → quiet q reg r.
Proof.
  intros H Hc Ht Hb. destruct H as [Hp Hs Hf Hr (s & Hslot & Hsh & Hl & Hfin) Hres Hd Hfa].
  destruct (Hl Hc Ht) as (Hlen & Hall & Hterm). rewrite Hb in *. assert (results r = []) as Hnil by (destruct (results r); done).
  rewrite Hnil in Hlen. assert (s = SIdle ∧ reg = true) as [-> ->].
  { destruct s; cbn in Hsh, Hlen; try done; [destruct reg; [done|]|..]; destruct_and?; try congruence;
      by specialize (Hterm ltac:(done)). }
  destruct (slot_idle _ _ Hslot) as (-> & ? & ?). destruct Hsh as (? & ? & ? & ?).
  split; try done. split; [done|]. destruct Hfin as [?|(_ & _ & ?)]; done.
Qed.

(** Changes of what only the loop uses. *)
Lemma set_loop_ok q reg r f p :
  receiver_ok q reg r → (f = true → _remaining r = 0) → receiver_ok q reg (set_loop (_busy r) f (_terminal r) p r).
Proof. intros [Hp Hs Hf Hr Hslot Hres Hd Hfa] Hfr. by split. Qed.

Lemma set_connected_ok q reg r b : receiver_ok q reg r → receiver_ok q reg (set_connected b r).
Proof. intros [Hp Hs Hf Hr Hslot Hres Hd Hfa]. by split. Qed.

Lemma set_loop_cancel b f t p r : set_loop b f t p (cancel r) = cancel (set_loop b f t p r).
Proof. unfold cancel. cbn. by destruct (_ || _). Qed.

(** An operation is given to the executor. *)
Lemma launched_finish_ok r p :
  quiet [] true r → receiver_ok [] true r → _remaining r = 0 → _terminal r = false →
  receiver_ok [Execute Finish []] true (set_busy true (set_loop true true false p r)).
Proof.
  intros [_ _ [Hw Hpo] (Hb & Ht & Hc) Hres [Hfile Hfin]] [Hp Hs Hf Hr _ _ Hd Hfa] Hrem Hterm.
  split; cbn; try done.
  - exists (SExec Finish []). unfold slot. cbn. rewrite Hw, Hpo. split; [done|]. split; [by split_and!|].
    split; [|by left]. intros _ _. cbn. rewrite Hres, Ht. by repeat split.
  - by rewrite Hres.
  - destruct Hd as [?|(_ & ? & _)]; [by left|congruence].
  - destruct Hfa as [?|(_ & ? & _)]; [by left|congruence].
Qed.

Lemma launched_write_ok r p data :
  quiet [] true r → receiver_ok [] true r → ♯data <= _remaining r → _terminal r = false → _finish_requested r = false →
  receiver_ok [Execute WriteChunk data] true (set_fed data (set_busy true (set_loop true false false p r))).
Proof.
  intros [_ _ [Hw Hpo] (Hb & Ht & Hc) Hres [Hfile Hfin]] [Hp Hs Hf Hr _ _ Hd Hfa] Hrem Hterm Hfr.
  split; cbn; try done.
  - unfold Zlen in *. rewrite length_app. lia.
  - exists (SExec WriteChunk data). unfold slot. cbn. rewrite Hw, Hpo. split; [done|]. split; [split_and!; try done; eauto|].
    split; [|by left]. intros _ _. cbn. rewrite Hres, Ht. by repeat split.
  - by rewrite Hres.
  - destruct Hd as [?|(_ & ? & _)]; [by left|congruence].
  - destruct Hfa as [?|(_ & ? & _)]; [by left|congruence].
Qed.

(** A receiver at its end. *)
Lemma set_end_ok q reg r f p :
  receiver_ok q reg r → (f = true → _remaining r = 0) → receiver_ok q reg (set_loop false f true p r).
Proof.
  intros [Hp Hs Hf Hr (s & Hslot & Hsh & Hl & Hfin) Hres Hd Hfa] Hfr. split; cbn; try done.
  - exists s. split; [done|]. split; [by destruct s|]. by split; [intros _ ?|].
  - destruct Hd as [?|(? & ? & ?)]; [by left|by right].
  - destruct Hfa as [?|(? & ? & ?)]; [by left|by right].
Qed.

(** The end that [report_error] makes of a receiver. *)
Lemma report_error_ok q reg r error :
  receiver_ok q reg (set_loop false (_finish_requested r) true 0 r) → faileds r = [] →
  receiver_ok q reg (set_calls [] [] [error] (set_loop false (_finish_requested (cancel r)) true 0 (cancel r))).
Proof.
  intros H Hno. apply cancel_ok in H. rewrite <- set_loop_cancel in H.
  assert (_finish_requested (cancel r) = _finish_requested r ∧ cancelled (cancel r) = true ∧ faileds (cancel r) = []) as (-> & Hc & Hno').
  { unfold cancel. by destruct (_ || _). }
  destruct H as [Hp Hs Hf Hr (s & Hslot & Hsh & Hl & Hfin) Hres Hd Hfa].
  split; cbn; rewrite ?app_nil_r; try done.
  - exists s. split; [done|]. split; [by destruct s; cbn in *; rewrite ?app_nil_r|].
    split; [unfold loop_ok; cbn; by rewrite Hc|by rewrite ?app_nil_r].
  - right. by rewrite Hno'.
Qed.

(** A result is taken from the loop. *)
Lemma popped_late_ok q reg r result rest :
  receiver_ok q reg r → results r = result :: rest → _terminal r || is_cancelled r = true →
  receiver_ok q reg (set_results rest r).
Proof.
  intros H Hres Hlate. rewrite (not_cancelled _ _ _ H) in Hlate.
  destruct H as [Hp Hs Hf Hr (s & Hslot & Hsh & Hl & Hfin) Hall Hd Hfa]. split; cbn; try done.
  - exists s. split; [done|]. split; [by destruct s|]. split; [|done]. intros Hc Ht. cbn in *. by rewrite Hc, Ht in Hlate.
  - rewrite Hres in Hall. by inversion Hall.
Qed.

Lemma popped_ok q reg r result rest :
  receiver_ok q reg r → results r = result :: rest → _terminal r = false → cancelled r = false →
  rest = [] ∧ faileds r = [] ∧ dones r = []
  ∧ (_operation result = Finish → has_error result = false → finalized r = [fed r])
  ∧ receiver_ok q reg (set_loop false (_finish_requested r) true 0 (set_results rest r))
  ∧ (ends result = false → receiver_ok q reg (set_loop false (_finish_requested r) false 0 (set_results rest r))).
Proof.
  intros H Hres Ht Hc. destruct H as [Hp Hs Hf Hr (s & Hslot & Hsh & Hl & Hfin) Hall Hd Hfa].
  destruct (Hl Hc Ht) as (Hlen & Hends & Hbt). rewrite Hres in *. inversion Hall as [|? ? Hthis _]; subst. inversion Hends as [|? ? He _]; subst.
  assert (rest = [] ∧ outstanding s = 0%nat) as [-> Ho].
  { cbn in Hlen. destruct (_busy r), rest; cbn in Hlen; try lia; split; try done; lia. }
  assert (dones r = []) as Hdn by (destruct Hd as [?|(_ & ? & _)]; [done|congruence]).
  assert (faileds r = []) as Hfn by (destruct Hfa as [?|(_ & ? & _)]; [done|congruence]).
  split; [done|]. split; [done|]. split; [done|]. split; [done|]. split.
  - split; cbn; try done; try (by left). exists s. split; [done|]. split; [by destruct s|]. by split; [intros _ ?|].
  - intros He'. split; cbn; try done; try (by left). exists s. split; [done|]. split; [by destruct s|]. split; [|done].
    intros _ _. cbn. rewrite Ho. split; [done|]. split; [by apply Forall_nil_2|]. congruence.
Qed.

(** Once cancelled, it does not matter what the loop waits for. *)
Lemma cancel_late_ok q reg r :
  receiver_ok q reg (set_loop false (_finish_requested r) true 0 r) → dones r = [] → faileds r = [] →
  receiver_ok q reg (cancel r).
Proof.
  intros H Hdn Hfn. apply cancel_ok in H. rewrite <- set_loop_cancel in H.
  assert (_finish_requested (cancel r) = _finish_requested r ∧ cancelled (cancel r) = true
    ∧ dones (cancel r) = [] ∧ faileds (cancel r) = []) as (Hfr & Hc & Hdn' & Hfn') by (unfold cancel; by destruct (_ || _)).
  rewrite <- Hfr in H. destruct H as [Hp Hs Hf Hr (s & Hslot & Hsh & Hl & Hfin) Hall Hd Hfa]. split; try done.
  - exists s. split; [done|]. split; [by destruct s|]. split; [unfold loop_ok; by rewrite Hc|done].
  - by left.
  - by left.
Qed.

(** The result of the finalizer is handed over. *)
Lemma done_ok q reg r v :
  receiver_ok q reg (set_loop false (_finish_requested r) true 0 r) → dones r = [] → finalized r = [fed r] →
  receiver_ok q reg (set_calls [] [v] [] (set_loop false (_finish_requested r) true 0 r)).
Proof.
  intros [Hp Hs Hf Hr (s & Hslot & Hsh & Hl & Hfin) Hall Hd Hfa] Hdn Hfz. split; cbn; rewrite ?app_nil_r; try done.
  - exists s. split; [done|]. split; [by destruct s; cbn in *; rewrite ?app_nil_r|]. split; [by intros _ ?|by rewrite ?app_nil_r].
  - right. by rewrite Hdn.
Qed.

(** ** The executor *)

Definition tasks (t : Z) (d : Disk) : list Task :=
  omap (λ p : Z * Task, if p.1 =? t then Some p.2 else None) (_queue d).
Definition registered (t : Z) (d : Disk) : bool := bool_decide (t ∈ _receivers d).

Record disk_ok (d : Disk) : Prop := {
  dk_receivers t r : made d !! t = Some r → receiver_ok (tasks t d) (registered t d) r;
  dk_registered t : t ∈ _receivers d → is_Some (made d !! t);
  dk_queue p : p ∈ _queue d → is_Some (made d !! p.1);
  dk_next t : is_Some (made d !! t) → t < next_token d;
  dk_size : Z.of_nat (size (_receivers d)) <= kMaxReceivers;
  dk_phase : _receivers d ≠ ∅ → _phase d = Running ∨ _phase d = Closing
}.

(** What a step on receiver [t] leaves of the rest. *)
Record framed (t : Z) (d d' : Disk) : Prop := {
  fr_tasks j : j ≠ t → tasks j d' = tasks j d;
  fr_queue p : p ∈ _queue d' → p ∈ _queue d ∨ p.1 = t;
  fr_receivers : _receivers d' ⊆ _receivers d;
  fr_others j : j ≠ t → j ∈ _receivers d → j ∈ _receivers d';
  fr_next : next_token d' = next_token d;
  fr_phase : _phase d' = _phase d
}.

Lemma framed_ok t d d' r r' :
  disk_ok d → made d !! t = Some r → made d' = <[t := r']> (made d) → framed t d d' →
  receiver_ok (tasks t d') (registered t d') r' → disk_ok d'.
Proof.
  intros [R Reg Q N Sz P] Ht Hm [Ft Fq Fr Fo Fn Fp] Hr'.
  assert (∀ j, is_Some (made d !! j) → is_Some (made d' !! j)) as Hsome.
  { intros j Hj. rewrite Hm. apply lookup_insert_is_Some'. by right. }
  split.
  - intros j x. rewrite Hm. intros [[<- <-]|[Hne Hx]]%lookup_insert_Some; [done|].
    rewrite Ft by done. replace (registered j d') with (registered j d); [by apply R|].
    unfold registered. apply bool_decide_ext. split; [by apply Fo|apply Fr].
  - intros j Hj. by apply Hsome, Reg, Fr.
  - intros p Hp. apply Hsome. destruct (Fq p Hp) as [?| ->]; [by apply Q|by exists r].
  - intros j. rewrite Hm, Fn. intros [->|Hj]%lookup_insert_is_Some'; [apply N; by exists r|by apply N].
  - pose proof (subseteq_size _ _ Fr). lia.
  - rewrite Fp. intros Hne. apply P. intros Hem. apply Hne. set_solver.
Qed.

Lemma framed_same t d d' :
  _queue d' = _queue d → _receivers d' = _receivers d → next_token d' = next_token d → _phase d' = _phase d → framed t d d'.
Proof. intros Hq Hr Hn Hp. split; rewrite ?Hq, ?Hr; try done; [intros j _; unfold tasks; by rewrite Hq|auto]. Qed.

Lemma framed_posted t task d d' :
  _queue d' = _queue d ++ [(t, task)] → _receivers d' = _receivers d → next_token d' = next_token d → _phase d' = _phase d →
  framed t d d' ∧ tasks t d' = tasks t d ++ [task].
Proof.
  intros Hq Hr Hn Hp. split; [split; rewrite ?Hr; try done|].
  - intros j Hj. unfold tasks. rewrite Hq, omap_app. cbn. destruct (t =? j) eqn:E; [lia|]. by rewrite app_nil_r.
  - intros p. rewrite Hq, elem_of_app, list_elem_of_singleton. intros [?| ->]; auto.
  - unfold tasks. rewrite Hq, omap_app. cbn. by rewrite Z.eqb_refl.
Qed.

(** *** Giving work to the executor *)

Definition same_executor (d d' : Disk) : Prop :=
  _receivers d' = _receivers d ∧ next_token d' = next_token d ∧ _phase d' = _phase d.

Lemma post_spec t task cleanup d :
  post t task cleanup d = (true, set_queue (_queue d ++ [(t, task)]) d) ∨ post t task cleanup d = (false, reject d).
Proof. unfold post. cbv zeta. destruct (negb _); [by right|]. destruct (is_full d); [by right|by left]. Qed.

Lemma submit_spec raced t operation data r d :
  cancelled r = false → terminal r = false → busy r = false →
  let r0 := set_loop false (_finish_requested r) (_terminal r) (_pending_bytes r) r in
  match submit raced t operation data r d with
  | (true, d') => made d' = <[t := set_busy true (set_loop true (_finish_requested r) (_terminal r) (_pending_bytes r) r)]> (made d)
      ∧ _queue d' = _queue d ++ [(t, Execute operation data)] ∧ same_executor d d'
  | (false, d') => ∃ r', made d' = <[t := r']> (made d) ∧ _queue d' = _queue d ∧ same_executor d d' ∧ (r' = r ∨ r' = cancel r0)
  end.
Proof.
  intros Hc Ht Hb. cbv zeta. unfold submit. destruct (connected r); cbn [negb]; [|by exists r; repeat split; auto].
  set (r1 := set_loop true _ _ _ r). assert (∀ d1, made (set_receiver t (cancel r1) d1) !! t = Some (cancel r1)) as Hlk
    by (intros; apply lookup_insert_eq).
  assert (set_loop false (_finish_requested (cancel r1)) (_terminal (cancel r1)) (_pending_bytes (cancel r1)) (cancel r1)
    = cancel (set_loop false (_finish_requested r) (_terminal r) (_pending_bytes r) r)) as Hback.
  { unfold cancel. cbn. by rewrite Ht, Hb. }
  unfold launch. destruct raced.
  - assert (cancelled (cancel r1) = true) as -> by (unfold cancel; by destruct (_ || _)). cbn [orb].
    rewrite Hlk, Hback. eexists. split; [cbn; by rewrite insert_insert_eq|]. split; [done|]. split; [done|by right].
  - cbn [r1 cancelled terminal busy set_loop]. rewrite Hc, Ht, Hb. cbn [orb].
    destruct (post_spec t (Execute operation data) false d) as [->| ->]; [by repeat split|].
    rewrite Hlk, Hback. eexists. split; [cbn; by rewrite insert_insert_eq|]. split; [done|]. split; [done|by right].
Qed.

Lemma framed_executor t d d' : _queue d' = _queue d → same_executor d d' → framed t d d'.
Proof. intros Hq (? & ? & ?). by apply framed_same. Qed.

(** A submission that fails. *)
Lemma failed_ok q reg r r' :
  receiver_ok q reg r → _busy r = false →
  r' = r ∨ r' = cancel (set_loop false (_finish_requested r) (_terminal r) (_pending_bytes r) r) → receiver_ok q reg r'.
Proof.
  intros H Hb [->| ->]; [done|]. apply cancel_ok. rewrite <- Hb at 1. apply set_loop_ok; [done|]. by apply (ro_finish _ _ _ H).
Qed.

Lemma tasks_same t d d' : _queue d' = _queue d → tasks t d' = tasks t d.
Proof. intros Hq. unfold tasks. by rewrite Hq. Qed.
Lemma registered_same t d d' : same_executor d d' → registered t d' = registered t d.
Proof. intros (Hr & _ & _). unfold registered. by rewrite Hr. Qed.

(** [finish] asks for the finalizer, or fails. *)
Lemma submit_finish_ok raced t r0 r d ok d' :
  disk_ok d → made d !! t = Some r0 → receiver_ok (tasks t d) (registered t d) r → cancelled r = false → _terminal r = false → _busy r = false →
  _remaining r = 0 → _finish_requested r = true →
  submit raced t Finish [] r d = (ok, d') →
  disk_ok d' ∧ ∃ r', made d' !! t = Some r' ∧ (ok = true → _busy r' = true) ∧ _terminal r' = false ∧ faileds r' = faileds r.
Proof.
  intros I Hr Hok Hc Ht Hb Hrem Hfr Hsub.
  pose proof (loop_quiet _ _ _ Hok Hc Ht Hb) as Hq. pose proof Hq as [Hq1 Hq2 _ (Hb2 & Ht2 & _) _ _].
  pose proof (submit_spec raced t Finish [] r d Hc Ht2 Hb2) as Hs. rewrite Hsub in Hs. destruct ok.
  - destruct Hs as (Hm & Hqu & Hex). pose proof Hex as (He1 & He2 & He3).
    destruct (framed_posted t (Execute Finish []) d d' Hqu He1 He2 He3) as [Hfr' Htk].
    split; [|eexists; rewrite Hm, lookup_insert_eq; split; [done|]; by rewrite Ht].
    eapply framed_ok; [done|done|done|done|]. rewrite Htk, (registered_same t d d' Hex), Hq1, Hq2. cbn [app].
    rewrite Hfr, Ht. apply launched_finish_ok; [by rewrite <- Hq1, <- Hq2 at 1|by rewrite <- Hq1, <- Hq2 at 1|done|done].
  - destruct Hs as (r' & Hm & Hqu & Hex & Hr'). split.
    + eapply framed_ok; [done|done|done|by apply framed_executor|].
      rewrite (tasks_same _ _ _ Hqu), (registered_same _ _ _ Hex). by eapply failed_ok.
    + exists r'. rewrite Hm, lookup_insert_eq. split; [done|]. split; [done|].
      destruct Hr' as [->| ->]; [done|]. unfold cancel. cbn. by rewrite Ht2, Hb2.
Qed.

(** A change of one receiver alone. *)
Lemma set_receiver_ok t r r' d :
  disk_ok d → made d !! t = Some r → receiver_ok (tasks t d) (registered t d) r' → disk_ok (set_receiver t r' d).
Proof. intros I Hr Hr'. by eapply framed_ok; [done|done|done|apply framed_same|]. Qed.

Lemma receiver_finish_ok raced t r0 r d :
  disk_ok d → made d !! t = Some r0 → receiver_ok (tasks t d) (registered t d) r →
  let '(ok, d') := finish raced t r d in
  disk_ok d' ∧ ∃ r', made d' !! t = Some r' ∧ (_terminal r = false → _terminal r' = false) ∧ faileds r' = faileds r
    ∧ (ok = true → _busy r' = true).
Proof.
  intros I Hr Hok. unfold finish. rewrite (not_cancelled _ _ _ Hok).
  assert (disk_ok (set_receiver t r d)) as Isame by by eapply set_receiver_ok.
  destruct (_terminal r) eqn:Ht; [split; [done|]; exists r; cbn; by rewrite lookup_insert_eq|].
  destruct (cancelled r) eqn:Hc; cbn [orb]; [split; [done|]; exists r; cbn; by rewrite lookup_insert_eq|].
  destruct (negb (_remaining r =? 0)) eqn:Erem; [split; [done|]; exists r; cbn; by rewrite lookup_insert_eq|].
  set (r1 := set_loop (_busy r) true false (_pending_bytes r) r).
  assert (receiver_ok (tasks t d) (registered t d) r1) as Hok1.
  { subst r1. rewrite <- Ht. apply set_loop_ok; [done|lia]. }
  pose proof (set_receiver_ok t r0 r1 d I Hr Hok1) as I1. cbn [_busy set_loop r1]. destruct (_busy r) eqn:Hb.
  - split; [done|]. exists r1. cbn. by rewrite lookup_insert_eq.
  - destruct (submit raced t Finish [] r1 d) as [ok d'] eqn:Hsub.
    destruct (submit_finish_ok raced t r0 r1 d ok d' I Hr Hok1 Hc eq_refl eq_refl ltac:(cbn; lia) eq_refl Hsub) as [I' (r' & Hr' & ? & ? & ?)].
    split; [done|]. by exists r'.
Qed.

Lemma feed_ok raced t buffer r d :
  disk_ok d → made d !! t = Some r →
  match feed raced t buffer r d with Stepped d' | Throws d' => disk_ok d' | _ => False end.
Proof.
  intros I Hr. pose proof (dk_receivers d I t r Hr) as Hok. unfold feed. rewrite (not_cancelled _ _ _ Hok).
  destruct (_terminal r) eqn:Ht; [done|]. destruct (cancelled r) eqn:Hc; cbn [orb]; [done|].
  destruct (_busy r) eqn:Hb; [done|]. destruct (_finish_requested r) eqn:Hfr; cbn [orb]; [done|]. cbv zeta.
  set (count := Z.min _ _). destruct (count =? 0) eqn:Ec; [done|].
  pose proof (loop_quiet _ _ _ Hok Hc Ht Hb) as Hq. pose proof Hq as [Hq1 Hq2 _ (Hb2 & Ht2 & _) _ _].
  pose proof (ro_sizes _ _ _ Hok) as [_ Hrem]. set (data := take _ buffer).
  assert (♯data <= _remaining r) as Hd.
  { subst data count. unfold Zlen in *. rewrite length_take. lia. }
  pose proof (submit_spec raced t WriteChunk data r d Hc Ht2 Hb2) as Hs.
  destruct (submit raced t WriteChunk data r d) as [[] d'].
  - destruct Hs as (Hm & Hqu & Hex). pose proof Hex as (He1 & He2 & He3). rewrite Hm, lookup_insert_eq.
    destruct (framed_posted t (Execute WriteChunk data) d d' Hqu He1 He2 He3) as [[] Htk].
    eapply (framed_ok t d); [done|done|cbn; by rewrite Hm, insert_insert_eq|by split|].
    change (tasks t (set_receiver _ _ _)) with (tasks t d'). change (registered t (set_receiver _ _ _)) with (registered t d').
    rewrite Htk, (registered_same t d d' Hex), Hq1, Hq2 in *. cbn [app]. rewrite Hfr, Ht.
    by apply launched_write_ok.
  - destruct Hs as (r' & Hm & Hqu & Hex & Hr'). eapply framed_ok; [done|done|done|by apply framed_executor|].
    rewrite (tasks_same _ _ _ Hqu), (registered_same _ _ _ Hex). by eapply failed_ok.
Qed.

(** *** Results *)

Lemma report_ok t r0 r error d :
  disk_ok d → made d !! t = Some r0 →
  receiver_ok (tasks t d) (registered t d) (set_loop false (_finish_requested r) true 0 r) → faileds r = [] →
  disk_ok (report_error t error (set_receiver t r d)).
Proof.
  intros I Hr Hok Hno. unfold report_error. cbn [made set_receiver]. rewrite lookup_insert_eq.
  eapply (framed_ok t d); [done|done|cbn; by rewrite insert_insert_eq|by apply framed_same|]. by apply report_error_ok.
Qed.

Lemma report_now_ok t r error d :
  disk_ok d → made d !! t = Some r → faileds r = [] → disk_ok (report_error t error d).
Proof.
  intros I Hr Hno. pose proof (dk_receivers d I t r Hr) as Hok. unfold report_error. rewrite Hr.
  eapply set_receiver_ok; [done|done|]. apply report_error_ok; [|done].
  apply set_end_ok; [done|]. by apply (ro_finish _ _ _ Hok).
Qed.

(** After [ready] or a write: the finalizer is asked for, if [finish] was. *)
Lemma go_on_ok raced t result h r0 r d :
  disk_ok d → made d !! t = Some r0 → receiver_ok (tasks t d) (registered t d) r →
  cancelled r = false → _terminal r = false → _busy r = false → faileds r = [] → _operation result ≠ Finish →
  let '(ok, d') := go_on raced t result h r d in
  disk_ok d' ∧ ∃ r', made d' !! t = Some r' ∧ faileds r' = [].
Proof.
  intros I Hr Hok Hc Ht Hb Hno Hop. unfold go_on. destruct (_operation result) eqn:Eop; [| |done].
  - destruct (ready_finishes h).
    + pose proof (receiver_finish_ok raced t r0 r d I Hr Hok) as Hf. destruct (finish raced t r d) as [ok d1].
      destruct Hf as [I1 (r1 & Hr1 & Ht1 & Hf1 & Hb1)]. specialize (Ht1 Ht).
      destruct (ok && negb (callback_throws h)) eqn:E; cbn [negb]; [|split; [done|]; exists r1; by rewrite Hf1].
      rewrite Hr1. apply andb_true_iff in E as [-> _]. rewrite (Hb1 eq_refl). rewrite andb_false_r. cbn [andb].
      split; [done|]. exists r1. by rewrite Hf1.
    + assert (disk_ok (set_receiver t r d)) as I1 by by eapply set_receiver_ok.
      assert (made (set_receiver t r d) !! t = Some r) as Hr1 by (cbn; apply lookup_insert_eq).
      destruct (true && negb (callback_throws h)); cbn [negb]; [|split; [done|by exists r]]. rewrite Hr1.
      destruct (_finish_requested r) eqn:Efr; [|split; [done|by exists r]]. rewrite Hb, Ht. cbn [andb negb].
      destruct (submit raced t Finish [] r (set_receiver t r d)) as [ok d'] eqn:Hsub.
      destruct (submit_finish_ok raced t r r _ ok d' I1 Hr1 (dk_receivers _ I1 _ _ Hr1) Hc Ht Hb) as [I' (r' & Hr' & _ & _ & Hf')]; try done.
      { by apply (ro_finish _ _ _ Hok). }
      split; [done|]. exists r'. by rewrite Hf'.
  - assert (disk_ok (set_receiver t r d)) as I1 by by eapply set_receiver_ok.
    assert (made (set_receiver t r d) !! t = Some r) as Hr1 by (cbn; apply lookup_insert_eq). cbn [negb]. rewrite Hr1.
    destruct (_finish_requested r) eqn:Efr; [|split; [done|by exists r]]. rewrite Hb, Ht. cbn [andb negb].
    destruct (submit raced t Finish [] r (set_receiver t r d)) as [ok d'] eqn:Hsub.
    destruct (submit_finish_ok raced t r r _ ok d' I1 Hr1 (dk_receivers _ I1 _ _ Hr1) Hc Ht Hb) as [I' (r' & Hr' & _ & _ & Hf')]; try done.
    { by apply (ro_finish _ _ _ Hok). }
    split; [done|]. exists r'. by rewrite Hf'.
Qed.

Lemma on_result_ok raced t result rest h r d :
  disk_ok d → made d !! t = Some r → results r = result :: rest →
  disk_ok (on_result raced t result h (set_results rest r) d).
Proof.
  intros I Hr Hres. pose proof (dk_receivers d I t r Hr) as Hok. unfold on_result.
  change (is_cancelled (set_results rest r)) with (is_cancelled r). change (_terminal (set_results rest r)) with (_terminal r).
  destruct (_terminal r || is_cancelled r) eqn:Elate.
  { eapply set_receiver_ok; [done|done|]. by eapply popped_late_ok. }
  apply orb_false_iff in Elate as [Ht Hc]. rewrite (not_cancelled _ _ _ Hok) in Hc.
  destruct (popped_ok _ _ _ _ _ Hok Hres Ht Hc) as (-> & Hno & Hdn & Hfz & Hend & Hgo).
  destruct (negb (connected (set_results [] r))).
  { eapply set_receiver_ok; [done|done|]. clear Hgo.
    by apply cancel_late_ok. }
  set (r2 := set_loop false _ _ 0 (set_results [] r)).
  assert (receiver_ok (tasks t d) (registered t d) (set_loop false (_finish_requested r2) true 0 r2)) as Hend2 by exact Hend.
  destruct (has_error result) eqn:Eerr; [by eapply report_ok|].
  destruct (decide (_operation result = Finish)) as [Efin|Efin].
  - unfold go_on. rewrite Efin. set (r3 := set_calls _ _ _ _).
    assert (receiver_ok (tasks t d) (registered t d) r3) as Hok3 by (apply (done_ok _ _ r2); auto).
    destruct (negb (callback_throws h)); [by eapply set_receiver_ok|].
    eapply report_ok; [done|done| |cbn; by rewrite Hno]. apply set_end_ok; [done|]. by apply (ro_finish _ _ _ Hok3).
  - assert (receiver_ok (tasks t d) (registered t d) r2) as Hok2.
    { subst r2. cbn. rewrite Ht. apply Hgo. unfold ends. rewrite Eerr. by apply bool_decide_eq_false. }
    pose proof (go_on_ok raced t result h r r2 d I Hr Hok2 Hc Ht eq_refl Hno Efin) as Hg.
    destruct (go_on raced t result h r2 d) as [[] d']; destruct Hg as [I' (r' & Hr' & Hno')]; [done|].
    by eapply report_now_ok.
Qed.

(** *** New receivers *)

Lemma tasks_fresh t d : disk_ok d → made d !! t = None → tasks t d = [].
Proof.
  intros I Hn. unfold tasks. pose proof (dk_queue d I) as Hq. induction (_queue d) as [|[j task] q IH]; [done|]. cbn.
  destruct (j =? t) eqn:E.
  - destruct (Hq (j, task)) as [r Hr]; [by left|]. cbn in Hr. replace j with t in Hr by lia. congruence.
  - apply IH. intros p Hp. apply Hq. by right.
Qed.

Lemma fresh_ok d d' r' :
  disk_ok d → _phase d = Running → Z.of_nat (size (_receivers d)) < kMaxReceivers →
  made d' = <[next_token d := r']> (made d) → _receivers d' = {[next_token d]} ∪ _receivers d →
  next_token d' = next_token d + 1 → _phase d' = _phase d →
  (_queue d' = _queue d ∧ receiver_ok [] true r' ∨ ∃ task, _queue d' = _queue d ++ [(next_token d, task)] ∧ receiver_ok [task] true r') →
  disk_ok d'.
Proof.
  intros I Hph Hsz Hm Hrec Hn Hp Hr'. pose proof I as [R Reg Q N Sz P]. set (t := next_token d) in *.
  assert (made d !! t = None) as Hnone by (apply eq_None_not_Some; intros Hs; apply N in Hs; lia).
  pose proof (tasks_fresh t d I Hnone) as Htk.
  assert ((∀ j, j ≠ t → tasks j d' = tasks j d) ∧ (∀ p, p ∈ _queue d' → p ∈ _queue d ∨ p.1 = t)
    ∧ receiver_ok (tasks t d') true r') as (Hts & Hqs & Hok).
  { destruct Hr' as [[Hq Hok]|(task & Hq & Hok)].
    - split; [intros j _; by apply tasks_same|]. rewrite Hq, (tasks_same t d d' Hq), Htk. auto.
    - unfold tasks. rewrite Hq. split; [|split].
      + intros j Hj. rewrite omap_app. cbn. destruct (t =? j) eqn:E; [lia|]. by rewrite app_nil_r.
      + intros p. rewrite elem_of_app, list_elem_of_singleton. intros [?| ->]; auto.
      + rewrite omap_app. fold (tasks t d). rewrite Htk. cbn. by rewrite Z.eqb_refl. }
  assert (∀ j, j ≠ t → registered j d' = registered j d) as Hreg.
  { intros j Hj. unfold registered. apply bool_decide_ext. rewrite Hrec. set_solver. }
  split.
  - intros j r. rewrite Hm. intros [[<- <-]|[Hne Hr]]%lookup_insert_Some.
    + replace (registered t d') with true; [done|]. symmetry. apply bool_decide_eq_true. rewrite Hrec. set_solver.
    + rewrite Hts, Hreg by done. by apply R.
  - intros j. rewrite Hrec, Hm. intros Hj. apply lookup_insert_is_Some'. destruct (decide (t = j)); [by left|right]. apply Reg. set_solver.
  - intros p Hp'. rewrite Hm. apply lookup_insert_is_Some'. destruct (Hqs p Hp') as [?| ->]; [right; by apply Q|by left].
  - intros j. rewrite Hm, Hn. intros [->|Hj]%lookup_insert_is_Some'; [lia|]. apply N in Hj. lia.
  - rewrite Hrec, size_union by (intros x Hx Hx'; apply elem_of_singleton in Hx as ->; apply Reg in Hx' as [? ?]; congruence).
    rewrite size_singleton. unfold kMaxReceivers in *. lia.
  - intros _. rewrite Hp. by left.
Qed.

Lemma new_cancelled_ok n : 0 <= n → receiver_ok [] true (cancel (set_loop false false false 0 (new_receiver n))).
Proof.
  intros Hn. split; cbn; try done; try (by left). exists SClean. split; [done|]. split; [by split_and!|]. split; [done|by left].
Qed.

Lemma create_ok raced n d :
  disk_ok d → 0 <= n → match create raced n d with Stepped d' | Throws d' => disk_ok d' | _ => False end.
Proof.
  intros I Hn. unfold create, attach.
  assert (disk_ok (reject d)) as Irej by (destruct I as [R Reg Q N Sz P]; by split).
  case_bool_decide as Hph; cbn [negb]; [|done]. destruct (kMaxReceivers <=? _) eqn:Esz; [done|].
  set (t := next_token d). set (d1 := mkDisk _ _ _ _ _ _ _).
  pose proof (submit_spec raced t Initialize [] (new_receiver n) d1 eq_refl eq_refl eq_refl) as Hs.
  destruct (submit raced t Initialize [] (new_receiver n) d1) as [[] d'].
  - destruct Hs as (Hm & Hq & Hr & Hnx & Hp). eapply (fresh_ok d); try done; [lia|rewrite Hm; cbn; apply insert_insert_eq|].
    right. eexists. split; [exact Hq|]. by apply new_receiver_ok.
  - destruct Hs as (r' & Hm & Hq & (Hr & Hnx & Hp) & Hr'). rewrite Hm, lookup_insert_eq.
    assert (receiver_ok [] true (cancel r')) as Hok.
    { destruct Hr' as [->| ->]; [exact (new_cancelled_ok n Hn)|]. apply cancel_ok. exact (new_cancelled_ok n Hn). }
    eapply (fresh_ok d); try done; [lia|cbn; rewrite Hm; cbn; by rewrite !insert_insert_eq|]. left. by split.
Qed.

(** *** The queue has room for a clean-up *)

Lemma tokens_nodup (q : list (Z * Task)) :
  (∀ t : Z, Z.of_nat (length (omap (λ p : Z * Task, if p.1 =? t then Some p.2 else None) q)) <= 1) → NoDup (map fst q).
Proof.
  induction q as [|[j task] q IH]; cbn; intros Hl; [constructor|]. constructor.
  - intros ([j' task'] & -> & Hin)%list_elem_of_fmap. specialize (Hl j'). cbn in Hl. rewrite Z.eqb_refl in Hl. cbn in Hl.
    destruct (omap _ q) as [|x l] eqn:E; [|cbn in Hl; lia].
    assert (task' ∈ omap (λ p : Z * Task, if p.1 =? j' then Some p.2 else None) q) as Hx.
    { apply list_elem_of_omap. exists (j', task'). split; [done|]. cbn. by rewrite Z.eqb_refl. }
    rewrite E in Hx. by apply not_elem_of_nil in Hx.
  - apply IH. intros t. specialize (Hl t). destruct (j =? t); cbn in Hl; lia.
Qed.

Lemma queued_task t task d : (t, task) ∈ _queue d → task ∈ tasks t d.
Proof. intros Hin. apply list_elem_of_omap. exists (t, task). split; [done|]. cbn. by rewrite Z.eqb_refl. Qed.

Lemma queued_registered t task d : disk_ok d → (t, task) ∈ _queue d → t ∈ _receivers d.
Proof.
  intros I Hin. destruct (dk_queue d I _ Hin) as [r Hr]. pose proof (dk_receivers d I t r Hr) as Hok.
  apply queued_task in Hin. destruct (tasks t d) as [|x q]; [by apply not_elem_of_nil in Hin|].
  apply take_ok in Hok as (_ & _ & Hreg & _). by apply bool_decide_eq_true in Hreg.
Qed.

Lemma tasks_single t d : disk_ok d → (length (tasks t d) <= 1)%nat.
Proof.
  intros I. destruct (made d !! t) as [r|] eqn:Hr; [|by rewrite tasks_fresh by done; cbn; lia].
  pose proof (dk_receivers d I t r Hr) as Hok. destruct (tasks t d) as [|x q]; [cbn; lia|].
  apply take_ok in Hok as (-> & _). cbn. lia.
Qed.

Lemma queue_room t d : disk_ok d → t ∈ _receivers d → tasks t d = [] → ♯(_queue d) < kMaxReceivers.
Proof.
  intros I Ht Htk. assert (NoDup (map fst (_queue d))) as Hnd by (apply tokens_nodup; intros j; pose proof (tasks_single j d I); unfold tasks in *; lia).
  assert ((list_to_set (map fst (_queue d)) : gset Z) ⊆ _receivers d ∖ {[t]}) as Hsub.
  { intros j. rewrite elem_of_list_to_set. intros ([j' task] & -> & Hin)%list_elem_of_fmap. cbn.
    apply elem_of_difference. split; [by eapply queued_registered|]. intros ->%elem_of_singleton.
    apply queued_task in Hin. rewrite Htk in Hin. by apply not_elem_of_nil in Hin. }
  apply subseteq_size in Hsub. rewrite size_list_to_set, length_map in Hsub by done.
  rewrite size_difference, size_singleton in Hsub by set_solver.
  pose proof (dk_size d I). unfold Zlen. assert (0 < size (_receivers d))%nat.
  { apply Nat.neq_0_lt_0. intros H0%size_empty_inv. set_solver. }
  lia.
Qed.

Lemma post_cleanup_step t r d :
  disk_ok d → made d !! t = Some r → posting r = true → ∃ d', post_cleanup t r d = Stepped d' ∧ disk_ok d'.
Proof.
  intros I Hr Hpo. pose proof (dk_receivers d I t r Hr) as Hok.
  destruct (post_cleanup_ok _ _ _ Hok Hpo) as (Hq & Hreg & Hok'). assert (t ∈ _receivers d) as Hin by by apply bool_decide_eq_true in Hreg.
  pose proof (queue_room t d I Hin Hq) as Hroom. unfold post_cleanup, post, is_full.
  assert (match _phase d with Running => true | Closing => true | _ => false end = true) as ->.
  { destruct (dk_phase d I) as [->| ->]; [set_solver|done..]. }
  cbn [negb]. destruct (kMaxReceivers <=? ♯(_queue d)) eqn:E; [lia|]. eexists. split; [done|].
  destruct (framed_posted t Cleanup d (set_receiver t (set_posting false r) (set_queue (_queue d ++ [(t, Cleanup)]) d))) as [Hfr Htk]; [done..|].
  eapply framed_ok; [done|done|done|done|]. rewrite Htk, Hq. cbn [app].
  change (registered t (set_receiver _ _ _)) with (registered t d). done.
Qed.

(** *** Workers *)

Lemma take_step t task rest r d :
  disk_ok d → _queue d = (t, task) :: rest → made d !! t = Some r →
  work r = NoWork ∧ disk_ok (set_receiver t (set_worker (file r) (Begun task) r) (set_queue rest d)).
Proof.
  intros I Hq Hr. pose proof (dk_receivers d I t r Hr) as Hok.
  assert (tasks t d = task :: omap (λ p : Z * Task, if p.1 =? t then Some p.2 else None) rest) as Htk.
  { unfold tasks. rewrite Hq. cbn. by rewrite Z.eqb_refl. }
  rewrite Htk in Hok. apply take_ok in Hok as (Hnil & Hw & Hreg & Hok). split; [done|].
  eapply (framed_ok t d); [done|done|done| |].
  - split; cbn; try done.
    + intros j Hj. unfold tasks. cbn. rewrite Hq. cbn. by destruct (t =? j) eqn:E; [lia|].
    + intros p Hp. left. rewrite Hq. by right.
  - unfold tasks. cbn. rewrite Hnil. done.
Qed.

Lemma worker_only t r r' d :
  disk_ok d → made d !! t = Some r → work r ≠ NoWork → receiver_ok [] (registered t d) r' → disk_ok (set_receiver t r' d).
Proof.
  intros I Hr Hw Hr'. destruct (working _ _ _ (dk_receivers d I t r Hr) Hw) as (Hq & _ & _).
  eapply set_receiver_ok; [done|done|]. by rewrite Hq.
Qed.

Lemma work_step_ok t c r d :
  disk_ok d → made d !! t = Some r →
  match work_step t c r d with Stepped d' => disk_ok d' | Disabled => True | _ => False end.
Proof.
  intros I Hr. pose proof (dk_receivers d I t r Hr) as Hok. unfold work_step. fold (registered t d).
  assert (work r = NoWork ∨ work r ≠ NoWork) as [Hno|Hno] by (destruct (work r); auto); [by rewrite Hno|].
  destruct (working _ _ _ Hok Hno) as (Hq & Hreg & _). rewrite Hq in Hok. rewrite Hreg. cbn [negb].
  pose proof (λ r', worker_only t r r' d I Hr Hno) as Hput.
  destruct (work r) as [|[operation data| ]|result|result|result| | |] eqn:Hw; [done|..].
  - destruct (operate operation data c r) as [[result f] fin] eqn:Ho. apply Hput. by eapply begun_ok.
  - apply Hput. by apply clean_begun_ok.
  - destruct (cancelled r || has_error result || bool_decide (_operation result = Finish)) eqn:E; apply Hput.
    + by apply did_ends_ok.
    + by apply did_ok.
  - apply Hput. by apply ending_ok.
  - apply Hput. by apply ended_ok.
  - apply Hput. by apply clean_ending_ok.
  - apply Hput. by apply clean_ended_ok.
  - destruct (releasing_ok _ _ Hok Hw) as [_ Hok']. eapply (framed_ok t d); [done|done|done| |].
    + split; cbn; try done; [by left|set_solver|set_solver].
    + change (tasks t (set_receiver _ _ _)) with (tasks t d). rewrite Hq.
      replace (registered t (set_receiver t (set_released r) (set_receivers (_receivers d ∖ {[t]}) d))) with false; [done|].
      symmetry. apply bool_decide_eq_false. cbn. set_solver.
Qed.

(** *** Every step *)

Definition event_ok (e : DEvent) : Prop := match e with DCreate _ n => 0 <= n | _ => True end.

Lemma cancellations_ok l d : disk_ok d → disk_ok (set_cancellations l d).
Proof. intros [R Reg Q N Sz P]. by split. Qed.

Lemma disk_step_ok e d :
  disk_ok d → event_ok e → match disk_step e d with Stepped d' | Throws d' => disk_ok d' | Disabled => True | Violation => False end.
Proof.
  intros I He. destruct e as [threads ok| | | |raced n|raced t buffer|raced t|t|t|raced t h|t| |t c]; cbn [disk_step];
    unfold on_receiver; try (destruct (made d !! t) as [r|] eqn:Hr; [|done]).
  - destruct (threads <=? 0); [done|]. case_bool_decide as Hph; [|done]. cbn [negb]. destruct I as [R Reg Q N Sz P].
    destruct ok; split; try done; intros Hne; [by left|]. destruct (P Hne); congruence.
  - pose proof I as [R Reg Q N Sz P]. destruct (_phase d); try done; split; try done; intros; by right.
  - destruct (cancellations d) as [|t rest]; [done|]. destruct (made d !! t) as [r|] eqn:Hr; [|done].
    change (disk_ok (set_cancellations rest (set_receiver t (cancel r) d))). apply cancellations_ok.
    eapply set_receiver_ok; [done|done|]. by apply cancel_ok, dk_receivers.
  - case_bool_decide as Hph; [|done]. case_bool_decide as Hem; [|done]. cbn. destruct I as [R Reg Q N Sz P]. by split.
  - pose proof (create_ok raced n d I He) as Hc. by destruct (create raced n d).
  - pose proof (feed_ok raced t buffer r d I Hr) as Hf. by destruct (feed raced t buffer r d).
  - pose proof (receiver_finish_ok raced t r r d I Hr (dk_receivers d I t r Hr)) as Hf. unfold as_step.
    destruct (finish raced t r d) as [[] d']; by destruct Hf.
  - eapply set_receiver_ok; [done|done|]. by apply cancel_ok, dk_receivers.
  - eapply set_receiver_ok; [done|done|]. by apply set_connected_ok, dk_receivers.
  - destruct (results r) as [|result rest] eqn:Hres; [done|]. by apply on_result_ok.
  - destruct (posting r) eqn:Hpo; [|done]. by destruct (post_cleanup_step t r d I Hr Hpo) as (d' & -> & ?).
  - destruct (_queue d) as [|[t task] rest] eqn:Hq; [done|]. destruct (made d !! t) as [r|] eqn:Hr; [|done].
    destruct (take_step t task rest r d I Hq Hr) as [-> ?]. done.
  - pose proof (work_step_ok t c r d I Hr) as Hc. by destruct (work_step t c r d).
Qed.

Lemma new_disk_ok : disk_ok new_disk.
Proof.
  split; cbn; try done.
  - intros p Hp. by apply not_elem_of_nil in Hp.
  - intros t [r Hr]. by rewrite lookup_empty in Hr.
Qed.

Lemma disk_run_ok es : ∀ d, disk_ok d → Forall event_ok es → ∃ d', disk_run es d = Some d' ∧ disk_ok d'.
Proof.
  induction es as [|e es IH]; intros d I He; cbn [disk_run]; [by exists d|].
  inversion He; subst. pose proof (disk_step_ok e d I ltac:(done)) as Hs. destruct (disk_step e d); try done; by apply IH.
Qed.
