(* ===== verification/DiskClaims.v ===== *)
(** What uploads to the disk ([DiskTransfer.v]) promise: a file is finalized only when it
    is complete, its resources are given back once, and the executor is never in the
    states its code excludes. *)

From S2P Require Import Prelude DiskTransfer DiskSafety.
#[local] Open Scope tlss_scope.

(** Steps of the workers and of whoever has to post a clean-up. *)
Definition is_worker_event (e : DEvent) : bool :=
  match e with DPostCleanup _ | DTake | DWork _ _ => true | _ => false end.

(** While a cancelled receiver holds a token, something can be done about it. *)
Lemma cancelled_progress t r d :
  disk_ok d → made d !! t = Some r → t ∈ _receivers d → cancelled r = true →
  ∃ e d', is_worker_event e = true ∧ disk_step e d = Stepped d'.
Proof.
  intros I Hr Hin Hc. pose proof (dk_receivers d I t r Hr) as Hok.
  assert (registered t d = true) as Hreg by by apply bool_decide_eq_true.
  destruct (_queue d) as [|[j task] rest] eqn:Hq.
  2:{ destruct (dk_queue d I (j, task)) as [x Hx]; [rewrite Hq; by left|]. destruct (take_step j task rest x d I Hq Hx) as [Hw _].
      exists DTake. cbn. rewrite Hq. unfold on_receiver. cbn in Hx. rewrite Hx, Hw. by eexists. }
  destruct (posting r) eqn:Hpo.
  { destruct (post_cleanup_step t r d I Hr Hpo) as (d' & Hs & _). exists (DPostCleanup t), d'. split; [done|].
    cbn. unfold on_receiver. by rewrite Hr, Hpo. }
  assert (work r ≠ NoWork) as Hw.
  { intros Hw. destruct (ro_slot _ _ _ Hok) as (s & Hslot & Hsh & _). unfold tasks in Hslot. rewrite Hq in Hslot.
    unfold slot in Hslot. cbn in Hslot. rewrite Hw, Hpo in Hslot. injection Hslot as <-. rewrite Hreg in Hsh.
    destruct Hsh as (_ & _ & ? & _). congruence. }
  pose proof (work_step_ok t (mkCall true [] [] 0) r d I Hr) as Hs.
  destruct (work_step t (mkCall true [] [] 0) r d) as [d'| | |] eqn:E; [|done| |done].
  - exists (DWork t (mkCall true [] [] 0)), d'. split; [done|]. cbn. unfold on_receiver. by rewrite Hr.
  - exfalso. revert E. unfold work_step. destruct (work r) as [|[]|?|?|?| | |]; try done.
    + by destruct (operate _ _ _ _) as [[? ?] ?].
    + destruct (_ || _); [done|]. by destruct (negb _).
    + by destruct (negb _).
    + by destruct (negb _).
Qed.


(** An upload of three bytes in two pieces. *)
Definition demo_ok : Call := mkCall true [104] [] 0.
Definition demo_handlers : Handlers := mkHandlers false false.
Definition demo_round : list DEvent := [DTake; DWork 1 demo_ok; DWork 1 demo_ok].
Definition demo_upload : list DEvent :=
  [DStart 2 true; DCreate false 3] ++ demo_round ++ [DResult false 1 demo_handlers; DFeed false 1 [1; 2]]
  ++ demo_round ++ [DResult false 1 demo_handlers; DFeed false 1 [3; 4; 5]; DFinish false 1]
  ++ demo_round ++ [DResult false 1 demo_handlers]
  ++ demo_round ++ [DWork 1 demo_ok; DWork 1 demo_ok; DWork 1 demo_ok; DResult false 1 demo_handlers].

