(* ===== verification/DiskShutdown.v ===== *)
(** The shut-down of the disk executor ([DiskTransfer.v]) comes to its end: what
    [begin_shutdown] cancels stays cancelled, nothing new is attached, and the workers
    give every token back, which is what [stop] waits for. *)

From S2P Require Import Prelude DiskTransfer DiskSafety DiskClaims.
#[local] Open Scope tlss_scope.

(** ** What a step that is not the shut-down's own does to it *)

Record onward (d d' : Disk) : Prop := {
  on_made t r : made d !! t = Some r → ∃ r', made d' !! t = Some r' ∧ (cancelled r = true → cancelled r' = true);
  on_phase : _phase d' = _phase d;
  on_pending : cancellations d' = cancellations d;
  on_receivers : _phase d ≠ Running → _receivers d' ⊆ _receivers d
}.

#[export] Instance onward_preorder : PreOrder onward.
Proof.
  split.
  - intros d. split; try done. intros t r Hr. by exists r.
  - intros a b c [M1 P1 C1 R1] [M2 P2 C2 R2]. split; [|congruence|congruence|].
    + intros t r (r1 & Hr1 & H1)%M1. apply M2 in Hr1 as (r2 & Hr2 & H2). exists r2. auto.
    + intros Hp. etrans; [|by apply R1]. apply R2. congruence.
Qed.

Lemma onward_put t r0 r d :
  made d !! t = Some r0 → (cancelled r0 = true → cancelled r = true) → onward d (set_receiver t r d).
Proof.
  intros H0 Hc. split; try done. intros j x Hx. cbn. destruct (decide (j = t)) as [->|Hne].
  - exists r. rewrite lookup_insert_eq. split; [done|]. rewrite Hx in H0. by injection H0 as ->.
  - exists x. by rewrite lookup_insert_ne by done.
Qed.

Lemma cancelled_cancel r : cancelled (cancel r) = true.
Proof. unfold cancel. by destruct (_ || _). Qed.

Lemma onward_queue q d : onward d (set_queue q d).
Proof. split; try done. intros t r Hr. by exists r. Qed.

Lemma onward_reject d : onward d (reject d).
Proof. split; try done. intros t r Hr. by exists r. Qed.

(** Puts a receiver into the table after steps that keep the table. *)
Lemma onward_then_put t r0 r d d' :
  made d !! t = Some r0 → (cancelled r0 = true → cancelled r = true) → onward d d' → made d' = made d →
  onward d (set_receiver t r d').
Proof. intros H0 Hc Ho Hm. etrans; [exact Ho|]. eapply onward_put; [by rewrite Hm|done]. Qed.

Section Steps.
Context (t : Z) (r0 : Receiver) (d : Disk).
Context (Hr0 : made d !! t = Some r0).

Lemma onward_launch operation data r :
  (cancelled r0 = true → cancelled r = true) →
  onward d (launch t operation data r d).2 ∧ is_Some (made (launch t operation data r d).2 !! t).
Proof.
  intros Hc. unfold launch. destruct (cancelled r || terminal r || busy r).
  { split; [by eapply onward_put|]. cbn. by rewrite lookup_insert_eq. }
  destruct (post_spec t (Execute operation data) false d) as [->| ->]; cbn [snd].
  - split; [|cbn; by rewrite lookup_insert_eq]. by eapply onward_then_put; [done|done|apply onward_queue|].
  - split; [|cbn; by rewrite lookup_insert_eq].
    eapply onward_then_put; [done| |apply onward_reject|done]. intros _. apply cancelled_cancel.
Qed.

Lemma onward_submit raced operation data r :
  (cancelled r0 = true → cancelled r = true) → onward d (submit raced t operation data r d).2.
Proof.
  intros Hc. unfold submit. destruct (connected r); cbn [negb]; [|by eapply onward_put].
  set (r1 := set_loop true _ _ _ r).
  assert (cancelled r0 = true → cancelled (if raced then cancel r1 else r1) = true) as Hc'.
  { intros H. destruct raced; [apply cancelled_cancel|by apply Hc]. }
  pose proof (onward_launch operation data _ Hc') as [Ho [r2 Hr2]].
  destruct (launch t operation data (if raced then cancel r1 else r1) d) as [[] d'] eqn:E; cbn [snd] in *; [done|].
  rewrite Hr2. etrans; [exact Ho|]. by eapply onward_put.
Qed.

Lemma onward_finish raced r :
  (cancelled r0 = true → cancelled r = true) → onward d (finish raced t r d).2.
Proof.
  intros Hc. unfold finish. destruct (_ || _); [by eapply onward_put|].
  destruct (negb _); [by eapply onward_put|]. cbv zeta.
  destruct (_busy (set_loop _ _ _ _ r)); [by eapply onward_put|by apply onward_submit].
Qed.
End Steps.

Lemma onward_report t error d : onward d (report_error t error d).
Proof.
  unfold report_error. destruct (made d !! t) as [r|] eqn:Hr; [|done].
  eapply onward_put; [done|]. intros _. cbn. apply cancelled_cancel.
Qed.

Lemma onward_go_on raced t result h r0 r d :
  made d !! t = Some r0 → (cancelled r0 = true → cancelled r = true) → onward d (go_on raced t result h r d).2.
Proof.
  intros H0 Hc. pose proof (onward_put t r0 r d H0 Hc) as Hput. unfold go_on.
  assert (∀ b (p : bool * Disk), onward d p.2 →
    onward d (let '(ok, d) := p in if negb (ok && b) then (false, d) else
      match made d !! t with
      | Some r => if _finish_requested r && negb (_busy r) && negb (_terminal r) then submit raced t Finish [] r d else (true, d)
      | None => (true, d)
      end).2) as Hrest.
  { intros b [ok d'] Ho. cbn in Ho. destruct (negb (ok && b)); [done|]. destruct (made d' !! t) as [r'|] eqn:Hr'; [|done].
    destruct (_ && _ && _); [|done]. etrans; [exact Ho|]. by eapply onward_submit. }
  destruct (_operation result).
  - specialize (Hrest (negb (callback_throws h)) (if ready_finishes h then finish raced t r d else (true, set_receiver t r d))).
    destruct (if ready_finishes h then finish raced t r d else (true, set_receiver t r d)) as [ok d'] eqn:E.
    apply Hrest. change d' with (ok, d').2. rewrite <-E. destruct (ready_finishes h); [by eapply onward_finish|done].
  - exact (Hrest true (true, set_receiver t r d) Hput).
  - cbn [snd]. by eapply onward_put.
Qed.

Lemma onward_on_result raced t result h r0 r d :
  made d !! t = Some r0 → (cancelled r0 = true → cancelled r = true) → onward d (on_result raced t result h r d).
Proof.
  intros H0 Hc. unfold on_result. destruct (_ || _); [by eapply onward_put|].
  destruct (negb _); [eapply onward_put; [done|intros _; apply cancelled_cancel]|]. cbv zeta.
  destruct (has_error result).
  - etrans; [|apply onward_report]. by eapply onward_put.
  - set (r1 := set_loop _ _ _ _ _). pose proof (onward_go_on raced t result h r0 r1 d H0 Hc) as Hg.
    destruct (go_on raced t result h r1 d) as [[] d']; [done|]. etrans; [exact Hg|apply onward_report].
Qed.

Definition after (d : Disk) (s : StepResult) : Prop := match s with Stepped d' | Throws d' => onward d d' | _ => True end.

Lemma onward_feed raced t buffer r d : made d !! t = Some r → after d (feed raced t buffer r d).
Proof.
  intros Hr. unfold feed. destruct (_ || _); [cbn; reflexivity|]. destruct (_ || _); [cbn; reflexivity|]. cbv zeta.
  destruct (_ =? 0); [cbn; reflexivity|]. set (data := take _ buffer).
  pose proof (onward_submit t r d Hr raced WriteChunk data r (λ H, H)) as Ho.
  destruct (submit raced t WriteChunk data r d) as [[] d'] eqn:E; cbn in *; [|done].
  destruct (made d' !! t) as [r'|] eqn:Hr'; [|done]. etrans; [exact Ho|]. by eapply onward_put.
Qed.

Lemma onward_create raced n d : made d !! next_token d = None → after d (create raced n d).
Proof.
  intros Hfresh. unfold create, attach. case_bool_decide as Hp; cbn [negb]; [|apply onward_reject].
  destruct (kMaxReceivers <=? _); [apply onward_reject|]. cbv zeta. set (t := next_token d). set (d1 := mkDisk _ _ _ _ _ _ _).
  assert (onward d d1) as H1.
  { split; try done. intros j x Hx. exists x. split; [|done]. cbn. rewrite lookup_insert_ne; [done|]. intros <-.
    unfold t in Hx. congruence. }
  assert (made d1 !! t = Some (new_receiver n)) as Hr1 by (cbn; apply lookup_insert_eq).
  pose proof (onward_submit t _ d1 Hr1 raced Initialize [] (new_receiver n) (λ H, H)) as Ho.
  destruct (submit raced t Initialize [] (new_receiver n) d1) as [[] d'] eqn:E; cbn in *; [by etrans|].
  etrans; [exact H1|]. etrans; [exact Ho|]. destruct (made d' !! t) as [r'|] eqn:Hr'; [|done].
  eapply onward_put; [done|]. intros _. apply cancelled_cancel.
Qed.

Lemma onward_work t c r d : made d !! t = Some r → after d (work_step t c r d).
Proof.
  intros Hr. unfold work_step. cbv zeta. destruct (work r) as [|[]|result|result|result| | |]; try exact I;
    try (by eapply onward_put).
  - destruct (operate _ _ _ _) as [[? ?] ?]. by eapply onward_put.
  - destruct (_ || _); [by eapply onward_put|]. destruct (negb _); [done|]. eapply onward_put; [done|].
    unfold post_result. by destruct (is_cancelled _).
  - destruct (negb _); [done|]. eapply onward_put; [done|]. unfold post_result. by destruct (is_cancelled _).
  - destruct (negb _); [done|]. cbn. split; try done.
    + intros j x Hx. cbn. destruct (decide (j = t)) as [->|Hne]; [|exists x; by rewrite lookup_insert_ne by done].
      exists (set_released r). rewrite lookup_insert_eq. split; [done|]. rewrite Hx in Hr. by injection Hr as ->.
    + intros _. cbn. set_solver.
Qed.

(** ** The shut-down *)

Definition is_cancelled_at (t : Z) (d : Disk) : Prop := ∃ r, made d !! t = Some r ∧ cancelled r = true.

(** Once the executor is closing, every receiver that is left is cancelled or will be. *)
Record shutdown_ok (d : Disk) : Prop := {
  so_pending t : t ∈ cancellations d → is_Some (made d !! t);
  so_closing : _phase d = Created ∨ _phase d = Running
               ∨ ∀ t, t ∈ _receivers d → t ∈ cancellations d ∨ is_cancelled_at t d
}.

Lemma onward_cancelled t d d' : onward d d' → is_cancelled_at t d → is_cancelled_at t d'.
Proof. intros [M _ _ _] (r & Hr & Hc). destruct (M t r Hr) as (r' & Hr' & H). exists r'. auto. Qed.

Lemma onward_shutdown d d' : onward d d' → shutdown_ok d → shutdown_ok d'.
Proof.
  intros Ho. pose proof Ho as [M P C R]. intros [Hp Hs]. split; rewrite ?P, C.
  { intros t [r Hr]%Hp. destruct (M t r Hr) as (r' & Hr' & _). by exists r'. }
  destruct Hs as [?|[?|Hs]]; [by left|by right; left|].
  destruct (decide (_phase d = Running)) as [?|Hrun]; [by right; left|]. right. right. intros t Ht.
  destruct (Hs t) as [?|?]; [by apply R|by left|right; by eapply onward_cancelled].
Qed.

Lemma fresh_token d : disk_ok d → made d !! next_token d = None.
Proof.
  intros I. destruct (made d !! next_token d) as [r|] eqn:E; [|done].
  pose proof (dk_next d I (next_token d) ltac:(by exists r)). lia.
Qed.

(** The next cancellation of [begin_shutdown]. *)
Lemma cancel_next_shutdown t rest r d :
  shutdown_ok d → cancellations d = t :: rest → made d !! t = Some r →
  shutdown_ok (set_receiver t (cancel r) (set_cancellations rest d)).
Proof.
  intros [Hp Hs] Hc Hr. split.
  { cbn. intros j Hj. apply lookup_insert_is_Some'. right. apply Hp. rewrite Hc. by right. }
  destruct Hs as [?|[?|Hs]]; [by left|by right; left|]. right. right. cbn. intros j Hj. rewrite Hc in Hs.
  destruct (Hs j Hj) as [[->|?]%elem_of_cons|(x & Hx & Hxc)]; [|by left|].
  - right. exists (cancel r). split; [apply lookup_insert_eq|apply cancelled_cancel].
  - right. unfold is_cancelled_at. cbn. destruct (decide (j = t)) as [->|Hne].
    + exists (cancel r). split; [apply lookup_insert_eq|apply cancelled_cancel].
    + exists x. by rewrite lookup_insert_ne by done.
Qed.

Definition shut (s : StepResult) : Prop := match s with Stepped d' | Throws d' => shutdown_ok d' | _ => True end.

Lemma after_shut d s : shutdown_ok d → after d s → shut s.
Proof. intros Hs. destruct s; cbn; try done; intros Ho; by eapply onward_shutdown. Qed.

Lemma disk_step_shutdown e d : disk_ok d → shutdown_ok d → shut (disk_step e d).
Proof.
  intros I Hs. assert (∀ t r r' d', made d !! t = Some r → d' = set_receiver t r' d →
    (cancelled r = true → cancelled r' = true) → shutdown_ok d') as Hput.
  { intros t r r' d' Hr -> Hc. eapply onward_shutdown; [by eapply onward_put|done]. }
  destruct e as [threads ok| | | |raced n|raced t buffer|raced t|t|t|raced t h|t| |t c]; cbn [disk_step]; unfold on_receiver;
    try (destruct (made d !! t) as [r|] eqn:Hr; [|done]).
  - destruct (threads <=? 0); [done|]. case_bool_decide as Hp; [|done]. cbn [negb].
    destruct ok; (split; [apply Hs|]); [by right; left|]. right. right. cbn. intros t Ht.
    destruct (dk_phase d I) as [?|?]; [set_solver|congruence..].
  - assert (shutdown_ok (set_cancellations (elements (_receivers d)) (set_phase Closing d))) as Hstart.
    { split; cbn; [intros t Ht%elem_of_elements; by apply (dk_registered d)|].
      right. right. intros t Ht. left. by apply elem_of_elements. }
    by destruct (_phase d).
  - destruct (cancellations d) as [|t rest] eqn:Hc; [done|]. destruct (made d !! t) as [r|] eqn:Hr; [|done].
    by apply cancel_next_shutdown.
  - case_bool_decide; [|done]. case_bool_decide as Hem; [|done]. split; [apply Hs|]. right. right. cbn. rewrite Hem. set_solver.
  - eapply after_shut; [done|]. by apply onward_create, fresh_token.
  - eapply after_shut; [done|]. by apply onward_feed.
  - eapply after_shut; [done|]. pose proof (onward_finish t r d Hr raced r (λ H, H)) as Hf. unfold as_step.
    by destruct (finish raced t r d) as [[] d'].
  - eapply Hput; [done..|]. intros _. apply cancelled_cancel.
  - by eapply Hput.
  - destruct (results r) as [|result rest]; [done|]. eapply onward_shutdown; [|done]. by eapply onward_on_result.
  - destruct (posting r); [|done]. unfold post_cleanup. destruct (post_spec t Cleanup true d) as [->| ->]; [|done].
    eapply onward_shutdown; [|done]. by eapply onward_then_put; [done|done|apply onward_queue|].
  - destruct (_queue d) as [|[t task] rest]; [done|]. destruct (made d !! t) as [r|] eqn:Hr; [|done].
    destruct (work r); try done. eapply onward_shutdown; [|done]. by eapply onward_then_put; [done|done|apply onward_queue|].
  - eapply after_shut; [done|]. by apply onward_work.
Qed.

Lemma disk_run_shutdown es : ∀ d d', disk_ok d → shutdown_ok d → Forall event_ok es → disk_run es d = Some d' → shutdown_ok d'.
Proof.
  induction es as [|e es IH]; intros d d' I Hs He; cbn [disk_run]; [by intros [= <-]|].
  inversion He; subst. pose proof (disk_step_ok e d I ltac:(done)) as Hi. pose proof (disk_step_shutdown e d I Hs) as Hsh.
  destruct (disk_step e d); try done; by apply IH.
Qed.

(** ** It comes to its end *)

(** Steps that the shut-down relies on: its own cancellations, and the workers'. *)
Definition is_shutdown_event (e : DEvent) : bool :=
  match e with DCancelNext => true | _ => is_worker_event e end.

(** [d'] is reached by such steps. *)
Definition shuts_to (d d' : Disk) : Prop :=
  ∃ es, Forall (λ e, is_shutdown_event e = true) es ∧ disk_run es d = Some d'.

Lemma disk_run_app es es' d : disk_run (es ++ es') d = d1 ← disk_run es d; disk_run es' d1.
Proof. revert d. induction es as [|e es IH]; intros d; [done|]. cbn. destruct (disk_step e d); done. Qed.

#[export] Instance shuts_to_preorder : PreOrder shuts_to.
Proof.
  split; [by intros d; exists []|]. intros a b c (e1 & F1 & H1) (e2 & F2 & H2). exists (e1 ++ e2).
  split; [by apply Forall_app|]. by rewrite disk_run_app, H1.
Qed.

Lemma shuts_one e d d' : is_shutdown_event e = true → disk_step e d = Stepped d' → shuts_to d d'.
Proof. intros He Hs. exists [e]. split; [by constructor|]. cbn. by rewrite Hs. Qed.

(** A step with what it keeps. *)
Definition closes (d d' : Disk) : Prop := shuts_to d d' ∧ disk_ok d' ∧ onward d d'.

#[export] Instance closes_transitive : Transitive closes.
Proof. intros a b c (S1 & I1 & O1) (S2 & I2 & O2). split; [by etrans|]. split; [done|by etrans]. Qed.

Lemma take_all d : disk_ok d → ∃ d', closes d d' ∧ _queue d' = [] ∧ _receivers d' = _receivers d
  ∧ ∀ t r', made d' !! t = Some r' → ∃ r, made d !! t = Some r ∧ posting r' = posting r.
Proof.
  remember (length (_queue d)) as n eqn:Hn. revert d Hn. induction n as [|n IH]; intros d Hn I.
  { exists d. split; [split; [reflexivity|split; [done|reflexivity]]|]. split; [by destruct (_queue d)|]. split; [done|]. intros t r Hr. by exists r. }
  destruct (_queue d) as [|[t task] rest] eqn:Hq; [done|]. destruct (dk_queue d I (t, task)) as [r Hr]; [rewrite Hq; by left|].
  cbn in Hr. destruct (take_step t task rest r d I Hq Hr) as [Hw I']. set (d1 := set_receiver _ _ _) in I'.
  assert (closes d d1) as Hd1.
  { split; [|split; [done|by eapply onward_then_put; [done|done|apply onward_queue|]]].
    apply (shuts_one DTake); [done|]. cbn. rewrite Hq. unfold on_receiver. by rewrite Hr, Hw. }
  destruct (IH d1) as (d' & Hc & ? & Hreg & Hpo); [cbn in *; congruence|done|]. exists d'. split; [by etrans|].
  split; [done|]. split; [by rewrite Hreg|]. intros j x Hx. destruct (Hpo j x Hx) as (y & Hy & ->). cbn in Hy.
  apply lookup_insert_Some in Hy as [[<- <-]|[_ Hy]]; [by exists r|by exists y].
Qed.

(** How many steps a worker still needs. *)
Definition steps_left (w : Work) : nat :=
  match w with
  | NoWork => 0 | Releasing => 1 | Ended _ | CleanEnded => 2 | Ending _ | CleanEnding => 3 | Did _ => 4 | Begun _ => 5
  end.

(** The worker of a cancelled receiver gives its token back. *)
Lemma worker_releases t d r :
  disk_ok d → made d !! t = Some r → cancelled r = true → work r ≠ NoWork →
  ∃ d', closes d d' ∧ _receivers d' = _receivers d ∖ {[t]}.
Proof.
  remember (steps_left (work r)) as n eqn:Hn. revert d r Hn. induction n as [n IH] using lt_wf_ind. intros d r -> I Hr Hc Hw.
  destruct (working _ _ _ (dk_receivers d I t r Hr) Hw) as (_ & Hreg & _).
  set (c := mkCall true [] [] 0). pose proof (work_step_ok t c r d I Hr) as Hok. pose proof (onward_work t c r d Hr) as Ho.
  assert (∀ d1, work_step t c r d = Stepped d1 → closes d d1) as Hstep.
  { intros d1 E. rewrite E in Hok, Ho. split; [|done]. apply (shuts_one (DWork t c)); [done|]. cbn. unfold on_receiver. by rewrite Hr. }
  assert (∀ r', work_step t c r d = Stepped (set_receiver t r' d) → cancelled r' = true → work r' ≠ NoWork →
    (steps_left (work r') < steps_left (work r))%nat → ∃ d', closes d d' ∧ _receivers d' = _receivers d ∖ {[t]}) as Hnext.
  { intros r' E Hc' Hw' Hlt. destruct (Hstep _ E) as (Hs & I1 & O1).
    destruct (IH _ Hlt _ r' eq_refl I1 (lookup_insert_eq _ _ _) Hc' Hw') as (d' & Hcl & Hrec).
    exists d'. split; [|done]. etrans; [|exact Hcl]. done. }
  unfold work_step in Hnext, Hstep. fold (registered t d) in Hnext, Hstep. rewrite Hreg in Hnext, Hstep. cbn [negb] in Hnext, Hstep.
  assert (∀ result f w, cancelled (post_result result (set_worker f w (set_busy false r))) = true
      ∧ work (post_result result (set_worker f w (set_busy false r))) = w) as Hpost.
  { intros. unfold post_result. by destruct (is_cancelled _). }
  destruct (work r) as [|[operation data| ]|result|result|result| | |] eqn:Ew; [done|..];
    try (by eapply Hnext; [reflexivity|done|done|cbn; lia]).
  - destruct (operate operation data c r) as [[result f] fin]. by eapply Hnext; [reflexivity|done|done|cbn; lia].
  - rewrite Hc in Hnext. cbn [orb] in Hnext. by eapply Hnext; [reflexivity|done|done|cbn; lia].
  - destruct (Hpost result (file r) Releasing) as [Hp1 Hp2].
    eapply Hnext; [reflexivity|exact Hp1|by rewrite Hp2|rewrite Hp2; cbn; lia].
  - eexists. by split; [by apply Hstep|].
Qed.

(** So does every cancelled receiver. *)
Lemma receiver_released t d :
  disk_ok d → t ∈ _receivers d → is_cancelled_at t d → ∃ d', closes d d' ∧ _receivers d' = _receivers d ∖ {[t]}.
Proof.
  intros I Hin Hc.
  assert (∃ d1, closes d d1 ∧ _receivers d1 = _receivers d ∧ ∀ r, made d1 !! t = Some r → posting r = false) as (d1 & H1 & Hr1 & Hpost).
  { destruct (dk_registered d I t Hin) as [r Hr]. destruct (posting r) eqn:Hpo.
    - destruct (post_cleanup_step t r d I Hr Hpo) as (d1 & Hs & I1). exists d1.
      assert (d1 = set_receiver t (set_posting false r) (set_queue (_queue d ++ [(t, Cleanup)]) d)) as Hd1.
      { unfold post_cleanup in Hs. destruct (post_spec t Cleanup true d) as [E|E]; rewrite E in Hs; [by injection Hs as <-|done]. }
      split; [split; [|split; [done|]]|].
      + apply (shuts_one (DPostCleanup t)); [done|]. cbn. unfold on_receiver. by rewrite Hr, Hpo.
      + rewrite Hd1. by eapply onward_then_put; [done|done|apply onward_queue|].
      + rewrite Hd1. split; [done|]. cbn. intros x. rewrite lookup_insert_eq. by intros [= <-].
    - exists d. split; [split; [reflexivity|split; [done|reflexivity]]|]. split; [done|]. intros x Hx. congruence. }
  pose proof H1 as (_ & I1 & O1).
  destruct (take_all d1 I1) as (d2 & H2 & Hq2 & Hr2 & Hpo2). pose proof H2 as (_ & I2 & O2).
  destruct (onward_cancelled t d1 d2 O2 (onward_cancelled t d d1 O1 Hc)) as (r & Hr & Hcr).
  assert (work r ≠ NoWork) as Hw.
  { intros Hw. pose proof (dk_receivers d2 I2 t r Hr) as Hok. destruct (ro_slot _ _ _ Hok) as (s & Hslot & Hsh & _).
    unfold tasks in Hslot. rewrite Hq2 in Hslot. unfold slot in Hslot. cbn in Hslot. rewrite Hw in Hslot.
    assert (registered t d2 = true) as Hreg by (apply bool_decide_eq_true; by rewrite Hr2, Hr1).
    destruct (Hpo2 t r Hr) as (r1 & Hx & Hpo). rewrite (Hpost r1 Hx) in Hpo. rewrite Hpo in Hslot.
    injection Hslot as <-. rewrite Hreg in Hsh. destruct Hsh as (_ & _ & ? & _). congruence. }
  destruct (worker_releases t d2 r I2 Hr Hcr Hw) as (d3 & H3 & Hr3). exists d3.
  split; [by etrans; [exact H1|etrans; [exact H2|]]|]. by rewrite Hr3, Hr2, Hr1.
Qed.

Lemma cancel_all d :
  disk_ok d → shutdown_ok d → _phase d = Closing →
  ∃ d', shuts_to d d' ∧ disk_ok d' ∧ _phase d' = Closing ∧ ∀ t, t ∈ _receivers d' → is_cancelled_at t d'.
Proof.
  remember (cancellations d) as l eqn:Hl. revert d Hl. induction l as [|t rest IH]; intros d Hl I Hs Hp.
  { exists d. split; [reflexivity|]. split; [done|]. split; [done|]. intros t Ht.
    destruct (so_closing d Hs) as [?|[?|H]]; [congruence..|]. destruct (H t Ht) as [Hin|?]; [|done].
    rewrite <-Hl in Hin. by apply not_elem_of_nil in Hin. }
  destruct (so_pending d Hs t) as [r Hr]; [rewrite <-Hl; by left|].
  assert (disk_step DCancelNext d = Stepped (set_receiver t (cancel r) (set_cancellations rest d))) as Hstep
    by (cbn; rewrite <-Hl; unfold on_receiver; by rewrite Hr).
  pose proof (disk_step_ok DCancelNext d I ltac:(done)) as I1. pose proof (disk_step_shutdown DCancelNext d I Hs) as Hs1.
  rewrite Hstep in I1, Hs1. destruct (IH (set_receiver t (cancel r) (set_cancellations rest d)) eq_refl I1 Hs1 Hp) as (d' & Hto & Hrest).
  exists d'. split; [|done]. etrans; [by eapply (shuts_one DCancelNext)|done].
Qed.

Lemma release_all d :
  disk_ok d → (∀ t, t ∈ _receivers d → is_cancelled_at t d) → ∃ d', closes d d' ∧ _receivers d' = ∅.
Proof.
  remember (size (_receivers d)) as n eqn:Hn. revert d Hn. induction n as [|n IH]; intros d Hn I Hc.
  { exists d. split; [split; [reflexivity|split; [done|reflexivity]]|]. symmetry in Hn. apply size_empty_inv in Hn. set_solver. }
  destruct (size_pos_elem_of (_receivers d)) as [t Ht]; [lia|].
  destruct (receiver_released t d I Ht (Hc t Ht)) as (d1 & H1 & Hr1). pose proof H1 as (_ & I1 & O1).
  destruct (IH d1) as (d' & Hcl & Hem); [|done| |by exists d'; split; [by etrans|]].
  - rewrite Hr1, size_difference, size_singleton by set_solver. lia.
  - intros j Hj. eapply onward_cancelled; [done|]. apply Hc. rewrite Hr1 in Hj. set_solver.
Qed.


(** The shut-down meets a file that is open and a receiver whose clean-up is not posted yet. *)
Definition demo_closing : list DEvent :=
  [DStart 2 true; DCreate false 3; DCreate false 0] ++ demo_round ++ [DResult false 1 demo_handlers; DFeed false 1 [1; 2]; DTake]
  ++ [DBeginShutdown; DCancelNext].

