(* ===== verification/ThreadPool.v ===== *)
(** The thread pool ([src/common/base/tlss_thread_pool.cpp],
    [inc/common/base/tlss_thread_pool.h]): workers that take tasks from a bounded queue,
    callers that wait for room in it, tasks that wait for room until a deadline, the
    thread that watches these deadlines, and tasks that run in their caller when there
    are no workers.

    Tasks are numbers. A section under the pool's lock is one step; an event says which
    thread makes the next one, what the clock shows and whom a notification reaches. A
    thread that sleeps on a condition variable goes on only when it is notified, or
    spuriously. [inside] says that the caller is a callback of the pool
    ([PoolExecution::contains]). *)

From S2P Require Import Prelude.
#[local] Open Scope tlss_scope.

Inductive PoolState := k_created | k_running | k_stopping | k_stopped.
#[export] Instance PoolState_eq_dec : EqDecision PoolState.
Proof. solve_decision. Defined.

Record PendingTask := mkPending { pt_task : Z; deadline : Z; on_timeout : bool }.

(** Where a worker stands in [run_in_thread]: the initialisation, on its way into
    [take], asleep in it, calling what has expired, in a task, or returned. *)
Inductive Worker :=
  | WInit
  | WReady
  | WAsleep
  | WCallbacks (callbacks : list Z) (task : Z)
  | WRunning (task : Z)
  | WExited.
#[export] Instance Worker_eq_dec : EqDecision Worker.
Proof. solve_decision. Defined.

(** The thread of [deadline_loop]. *)
Inductive DeadlineThread :=
  | DNone
  | DReady
  | DAsleep
  | DUntil (time : Z)
  | DCallback (task : Z)
  | DExited.
#[export] Instance DeadlineThread_eq_dec : EqDecision DeadlineThread.
Proof. solve_decision. Defined.

(** Who holds [_lifecycle_mutex]: nobody, [start] in the initialisation, or [stop]
    before and after it has waited for the tasks that run in their callers. *)
Inductive Lifecycle := LFree | LStarting | LStopInline | LStopJoin.
#[export] Instance Lifecycle_eq_dec : EqDecision Lifecycle.
Proof. solve_decision. Defined.

Record Pool := mkPool {
  _state : PoolState;
  _max_queue_size : Z;
  _max_wait_queue_size : Z;
  _thread_init_cb : bool;
  _threads : list Worker;
  _deadline_thread : DeadlineThread;
  _queue : list Z;
  _waiters : list PendingTask;
  _active_inline_tasks : Z;
  _rejected : Z;
  _timeouts : Z;
  lifecycle : Lifecycle;
  submitters : list (Z * bool);       (* callers asleep in [run], and whether they were woken *)
  inline_tasks : list Z;              (* running in their callers *)
  (* history *)
  accepted : list Z;
  enqueued : list Z;
  taken : list Z;
  finished : list Z;
  expired : list (PendingTask * Z);   (* with the time at which it was found expired *)
  called : list Z;                    (* calls of [on_timeout] *)
  dropped : list PendingTask          (* by [stop] *)
}.

Definition new_pool : Pool :=
  mkPool k_created 0 0 false [] DNone [] [] 0 0 0 LFree [] [] [] [] [] [] [] [] [].

(** A call returns, throws to its caller, waits or goes on later; a step cannot be made
    now; a callback's exception ends the process. *)
Inductive PoolResult :=
  | PReturns (result : bool) (p : Pool)
  | PThrows (p : Pool)
  | PSteps (p : Pool)
  | PDisabled
  | PAborts.

(** ** Updates *)

Definition set_state (s : PoolState) (l : Lifecycle) (p : Pool) : Pool :=
  mkPool s (_max_queue_size p) (_max_wait_queue_size p) (_thread_init_cb p) (_threads p) (_deadline_thread p) (_queue p)
    (_waiters p) (_active_inline_tasks p) (_rejected p) (_timeouts p) l (submitters p) (inline_tasks p)
    (accepted p) (enqueued p) (taken p) (finished p) (expired p) (called p) (dropped p).
Definition set_config (n m : Z) (cb : bool) (p : Pool) : Pool :=
  mkPool (_state p) n m cb (_threads p) (_deadline_thread p) (_queue p)
    (_waiters p) (_active_inline_tasks p) (_rejected p) (_timeouts p) (lifecycle p) (submitters p) (inline_tasks p)
    (accepted p) (enqueued p) (taken p) (finished p) (expired p) (called p) (dropped p).
Definition set_threads (ws : list Worker) (t : DeadlineThread) (ss : list (Z * bool)) (p : Pool) : Pool :=
  mkPool (_state p) (_max_queue_size p) (_max_wait_queue_size p) (_thread_init_cb p) ws t (_queue p)
    (_waiters p) (_active_inline_tasks p) (_rejected p) (_timeouts p) (lifecycle p) ss (inline_tasks p)
    (accepted p) (enqueued p) (taken p) (finished p) (expired p) (called p) (dropped p).
Definition set_workers (ws : list Worker) (p : Pool) : Pool := set_threads ws (_deadline_thread p) (submitters p) p.
Definition set_submitters (ss : list (Z * bool)) (p : Pool) : Pool := set_threads (_threads p) (_deadline_thread p) ss p.
Definition set_deadline_thread (t : DeadlineThread) (p : Pool) : Pool := set_threads (_threads p) t (submitters p) p.
Definition set_queue (q : list Z) (ws : list PendingTask) (p : Pool) : Pool :=
  mkPool (_state p) (_max_queue_size p) (_max_wait_queue_size p) (_thread_init_cb p) (_threads p) (_deadline_thread p) q
    ws (_active_inline_tasks p) (_rejected p) (_timeouts p) (lifecycle p) (submitters p) (inline_tasks p)
    (accepted p) (enqueued p) (taken p) (finished p) (expired p) (called p) (dropped p).
Definition set_inline (n : Z) (l : list Z) (p : Pool) : Pool :=
  mkPool (_state p) (_max_queue_size p) (_max_wait_queue_size p) (_thread_init_cb p) (_threads p) (_deadline_thread p)
    (_queue p) (_waiters p) n (_rejected p) (_timeouts p) (lifecycle p) (submitters p) l
    (accepted p) (enqueued p) (taken p) (finished p) (expired p) (called p) (dropped p).
Definition reject (p : Pool) : Pool :=
  mkPool (_state p) (_max_queue_size p) (_max_wait_queue_size p) (_thread_init_cb p) (_threads p) (_deadline_thread p)
    (_queue p) (_waiters p) (_active_inline_tasks p) (u64 (_rejected p + 1)) (_timeouts p) (lifecycle p) (submitters p)
    (inline_tasks p) (accepted p) (enqueued p) (taken p) (finished p) (expired p) (called p) (dropped p).
(** The history grows. *)
Definition log (acc enq tak fin : list Z) (exp : list (PendingTask * Z)) (cal : list Z) (drp : list PendingTask) (p : Pool) : Pool :=
  mkPool (_state p) (_max_queue_size p) (_max_wait_queue_size p) (_thread_init_cb p) (_threads p) (_deadline_thread p)
    (_queue p) (_waiters p) (_active_inline_tasks p) (_rejected p) (u64 (_timeouts p + ♯exp)) (lifecycle p) (submitters p)
    (inline_tasks p) (accepted p ++ acc) (enqueued p ++ enq) (taken p ++ tak) (finished p ++ fin) (expired p ++ exp)
    (called p ++ cal) (dropped p ++ drp).

(** ** Condition variables *)

Definition wake (w : Worker) : Worker := match w with WAsleep => WReady | _ => w end.
Fixpoint wake_first (ws : list Worker) : list Worker :=
  match ws with
  | [] => []
  | WAsleep :: ws => WReady :: ws
  | w :: ws => w :: wake_first ws
  end.
(** [notify_one] reaches any one thread that waits. *)
Definition notify_worker (pick : nat) (ws : list Worker) : list Worker :=
  match ws !! pick with Some WAsleep => <[pick := WReady]> ws | _ => wake_first ws end.

Definition rouse (s : Z * bool) : Z * bool := (s.1, true).
Fixpoint rouse_first (ss : list (Z * bool)) : list (Z * bool) :=
  match ss with
  | [] => []
  | (t, false) :: ss => (t, true) :: ss
  | s :: ss => s :: rouse_first ss
  end.
Definition notify_submitter (pick : nat) (ss : list (Z * bool)) : list (Z * bool) :=
  match ss !! pick with Some (t, false) => <[pick := (t, true)]> ss | _ => rouse_first ss end.

Definition wake_deadline (t : DeadlineThread) : DeadlineThread := match t with DAsleep | DUntil _ => DReady | _ => t end.

(** ** Configuration and start *)

Definition set_max_queue_size (n : Z) (p : Pool) : PoolResult :=
  if n <? 0 then PThrows p else
  if negb (bool_decide (_state p = k_created)) then PThrows p else
  PSteps (set_config n (_max_wait_queue_size p) (_thread_init_cb p) p).
Definition set_max_wait_queue_size (n : Z) (p : Pool) : PoolResult :=
  if n <? 0 then PThrows p else
  if negb (bool_decide (_state p = k_created)) then PThrows p else
  PSteps (set_config (_max_queue_size p) n (_thread_init_cb p) p).
Definition set_thread_init_cb (p : Pool) : PoolResult :=
  if negb (bool_decide (_state p = k_created)) then PThrows p else
  PSteps (set_config (_max_queue_size p) (_max_wait_queue_size p) true p).

(** [start]; [ok] says whether every thread can be created. When one cannot, the others
    find the pool stopping before they have taken anything, and are joined. *)
Definition start (inside : bool) (n : Z) (ok : bool) (p : Pool) : PoolResult :=
  if n <? 0 then PThrows p else
  if inside then PThrows p else
  if negb (bool_decide (lifecycle p = LFree)) then PDisabled else
  if negb (bool_decide (_state p = k_created)) then PThrows p else
  if negb ok then PThrows (set_state k_stopped LFree p) else
  let watch := (0 <? n) && (0 <? _max_wait_queue_size p) in
  let p := set_threads (replicate (Z.to_nat n) WInit) (if watch then DReady else DNone) (submitters p) p in
  if (n =? 0) && _thread_init_cb p then PSteps (set_state k_running LStarting p) else PSteps (set_state k_running LFree p).

(** The initialisation without workers, in the thread that starts the pool. *)
Definition init_done (ok : bool) (p : Pool) : PoolResult :=
  if negb (bool_decide (lifecycle p = LStarting)) then PDisabled else
  if ok then PSteps (set_state (_state p) LFree p) else PThrows (set_state k_stopping LFree p).

(** ** Submission *)

Definition is_full (p : Pool) : bool := (0 <? _max_queue_size p) && (_max_queue_size p <=? ♯(_queue p)).

Definition enqueue (pick : nat) (task : Z) (p : Pool) : Pool :=
  log [task] [task] [] [] [] [] [] (set_workers (notify_worker pick (_threads p)) (set_queue (_queue p ++ [task]) (_waiters p) p)).

Definition run_inline (task : Z) (p : Pool) : Pool :=
  log [task] [] [] [] [] [] [] (set_inline (_active_inline_tasks p + 1) (inline_tasks p ++ [task]) p).

(** An empty task is [None]. *)
Definition run (inside : bool) (pick : nat) (task : option Z) (p : Pool) : PoolResult :=
  match task with
  | None => PThrows p
  | Some task =>
      if negb (bool_decide (_state p = k_running)) then PReturns false (reject p) else
      if bool_decide (_threads p = []) then PSteps (run_inline task p) else
      if inside && is_full p then PReturns false (reject p) else
      if is_full p then PSteps (set_submitters (submitters p ++ [(task, false)]) p)
      else PReturns true (enqueue pick task p)
  end.

(** The rest of [run] in a caller that was woken. *)
Definition run_woken (k : nat) (pick : nat) (p : Pool) : PoolResult :=
  match submitters p !! k with
  | Some (task, true) =>
      let rest := delete k (submitters p) in
      if negb (bool_decide (_state p = k_running)) then PReturns false (reject (set_submitters rest p)) else
      if is_full p then PSteps (set_submitters (<[k := (task, false)]> (submitters p)) p)
      else PReturns true (enqueue pick task (set_submitters rest p))
  | _ => PDisabled
  end.

Definition try_run (pick : nat) (task : option Z) (p : Pool) : PoolResult :=
  match task with
  | None => PThrows p
  | Some task =>
      if negb (bool_decide (_state p = k_running)) then PReturns false (reject p) else
      if bool_decide (_threads p = []) then PSteps (run_inline task p) else
      if is_full p then PReturns false (reject p) else PReturns true (enqueue pick task p)
  end.

(** The end of task [k] in its caller, by an exception or not; then [finish_inline_task]. *)
Definition finish_inline_task (k : nat) (throws : bool) (p : Pool) : PoolResult :=
  match inline_tasks p !! k with
  | None => PDisabled
  | Some task =>
      let p := log [] [] [] [task] [] [] [] (set_inline (_active_inline_tasks p - 1) (delete k (inline_tasks p)) p) in
      if throws then PThrows p else PReturns true p
  end.

Definition submit_async (pick : nat) (task : option Z) (time now : Z) (callback : bool) (p : Pool) : PoolResult :=
  match task with
  | None => PThrows p
  | Some task =>
      if negb (bool_decide (_state p = k_running)) || bool_decide (_threads p = []) || (time <=? now)
      then PReturns false (reject p) else
      if negb (is_full p) then PReturns true (enqueue pick task p) else
      if _max_wait_queue_size p <=? ♯(_waiters p) then PReturns false (reject p) else
      let p := set_queue (_queue p) (_waiters p ++ [mkPending task time callback]) p in
      PReturns true (log [task] [] [] [] [] [] [] (set_deadline_thread (wake_deadline (_deadline_thread p)) p))
  end.

(** ** Workers *)

(** The loop of [take] over the tasks that wait; the clock is read for each. *)
Fixpoint promote (max : Z) (clocks : list Z) (queue : list Z) (waiters : list PendingTask)
    : list Z * list PendingTask * list (PendingTask * Z) :=
  match waiters with
  | [] => (queue, [], [])
  | w :: rest =>
      if negb ((0 <? max) && (♯queue <? max)) then (queue, waiters, []) else
      let now := default 0 (head clocks) in
      if deadline w <=? now then
        let '(q, ws, ex) := promote max (tail clocks) queue rest in (q, ws, (w, now) :: ex)
      else promote max (tail clocks) (queue ++ [pt_task w]) rest
  end.

Definition callbacks_of (ex : list (PendingTask * Z)) : list Z :=
  omap (λ e : PendingTask * Z, if on_timeout e.1 then Some (pt_task e.1) else None) ex.

(** [take], in worker [i]. *)
Definition take (i : nat) (clocks : list Z) (pick : nat) (p : Pool) : Pool :=
  match _queue p with
  | [] =>
      set_workers (<[i := if bool_decide (_state p = k_running) then WAsleep else WExited]> (_threads p)) p
  | task :: rest =>
      let '(q, ws, ex) := promote (_max_queue_size p) clocks rest (_waiters p) in
      let p1 := set_queue q ws (set_workers (<[i := WCallbacks (callbacks_of ex) task]> (_threads p)) p) in
      let p2 := if (0 <? _max_queue_size p1) && negb (is_full p1)
                then set_submitters (notify_submitter pick (submitters p1)) p1 else p1 in
      log [] (drop (length rest) q) [task] [] ex [] [] p2
  end.

(** A step of worker [i]; [throws] says that the callback or task it runs throws. *)
Definition work (i : nat) (clocks : list Z) (pick : nat) (throws : bool) (p : Pool) : PoolResult :=
  match _threads p !! i with
  | Some WInit =>
      if _thread_init_cb p && throws then PAborts else PSteps (set_workers (<[i := WReady]> (_threads p)) p)
  | Some WReady => PSteps (take i clocks pick p)
  | Some (WCallbacks [] task) => PSteps (set_workers (<[i := WRunning task]> (_threads p)) p)
  | Some (WCallbacks (c :: rest) task) =>
      if throws then PAborts else
      PSteps (log [] [] [] [] [] [c] [] (set_workers (<[i := WCallbacks rest task]> (_threads p)) p))
  | Some (WRunning task) =>
      if throws then PAborts else
      PSteps (log [] [] [] [task] [] [] [] (set_workers (<[i := WReady]> (_threads p)) p))
  | _ => PDisabled
  end.

(** ** Deadlines *)

(** [std::min_element]: the place and the value of the first of the earliest, after [best]. *)
Fixpoint min_element (best : nat) (w : PendingTask) (i : nat) (ws : list PendingTask) : nat * PendingTask :=
  match ws with
  | [] => (best, w)
  | x :: ws => if deadline x <? deadline w then min_element i x (S i) ws else min_element best w (S i) ws
  end.

Definition deadline_loop (now : Z) (throws : bool) (p : Pool) : PoolResult :=
  match _deadline_thread p with
  | DReady =>
      if negb (bool_decide (_state p = k_running)) then PSteps (set_deadline_thread DExited p) else
      match _waiters p with
      | [] => PSteps (set_deadline_thread DAsleep p)
      | w :: ws =>
          let '(k, e) := min_element 0 w 1 ws in
          if now <? deadline e then PSteps (set_deadline_thread (DUntil (deadline e)) p) else
          let p := set_queue (_queue p) (delete k (_waiters p)) p in
          PSteps (log [] [] [] [] [(e, now)] [] []
                    (set_deadline_thread (if on_timeout e then DCallback (pt_task e) else DReady) p))
      end
  | DUntil time => if time <=? now then PSteps (set_deadline_thread DReady p) else PDisabled
  | DCallback task =>
      if throws then PAborts else PSteps (log [] [] [] [] [] [task] [] (set_deadline_thread DReady p))
  | _ => PDisabled
  end.

(** ** Stop *)

Definition stop (inside : bool) (p : Pool) : PoolResult :=
  if inside then PThrows p else
  if negb (bool_decide (lifecycle p = LFree)) then PDisabled else
  if bool_decide (_state p = k_stopped) then PReturns true p else
  let p := log [] [] [] [] [] [] (_waiters p) (set_queue (_queue p) [] (set_state k_stopping LStopInline p)) in
  PSteps (set_threads (map wake (_threads p)) (wake_deadline (_deadline_thread p)) (map rouse (submitters p)) p).

Definition stop_inline (p : Pool) : PoolResult :=
  if bool_decide (lifecycle p = LStopInline) && (_active_inline_tasks p =? 0)
  then PSteps (set_state (_state p) LStopJoin p) else PDisabled.

Definition all_exited (p : Pool) : bool :=
  forallb (λ w, bool_decide (w = WExited)) (_threads p)
  && (bool_decide (_deadline_thread p = DNone) || bool_decide (_deadline_thread p = DExited)).

Definition stop_join (p : Pool) : PoolResult :=
  if bool_decide (lifecycle p = LStopJoin) && all_exited p
  then PReturns true (set_state k_stopped LFree p) else PDisabled.

(** ** Events *)

Inductive PEvent :=
  | PMaxQueue (n : Z)
  | PMaxWait (n : Z)
  | PInitCb
  | PStart (inside : bool) (n : Z) (ok : bool)
  | PInitDone (ok : bool)
  | PRun (inside : bool) (pick : nat) (task : option Z)
  | PRunWoken (k pick : nat)
  | PTryRun (pick : nat) (task : option Z)
  | PInlineEnd (k : nat) (throws : bool)
  | PSubmitAsync (pick : nat) (task : option Z) (time now : Z) (callback : bool)
  | PWork (i : nat) (clocks : list Z) (pick : nat) (throws : bool)
  | PDeadline (now : Z) (throws : bool)
  | PStop (inside : bool)
  | PStopInline
  | PStopJoin
  (* wake-ups without a notification *)
  | PSpuriousWorker (i : nat)
  | PSpuriousSubmitter (k : nat)
  | PSpuriousDeadline.

Definition pool_step (e : PEvent) (p : Pool) : PoolResult :=
  match e with
  | PMaxQueue n => set_max_queue_size n p
  | PMaxWait n => set_max_wait_queue_size n p
  | PInitCb => set_thread_init_cb p
  | PStart inside n ok => start inside n ok p
  | PInitDone ok => init_done ok p
  | PRun inside pick task => run inside pick task p
  | PRunWoken k pick => run_woken k pick p
  | PTryRun pick task => try_run pick task p
  | PInlineEnd k throws => finish_inline_task k throws p
  | PSubmitAsync pick task time now callback => submit_async pick task time now callback p
  | PWork i clocks pick throws => work i clocks pick throws p
  | PDeadline now throws => deadline_loop now throws p
  | PStop inside => stop inside p
  | PStopInline => stop_inline p
  | PStopJoin => stop_join p
  | PSpuriousWorker i =>
      match _threads p !! i with
      | Some WAsleep => PSteps (set_workers (<[i := WReady]> (_threads p)) p)
      | _ => PDisabled
      end
  | PSpuriousSubmitter k =>
      match submitters p !! k with
      | Some (task, false) => PSteps (set_submitters (<[k := (task, true)]> (submitters p)) p)
      | _ => PDisabled
      end
  | PSpuriousDeadline => PSteps (set_deadline_thread (wake_deadline (_deadline_thread p)) p)
  end.

(** A run until the process ends; an event that cannot happen is skipped. *)
Fixpoint pool_run (es : list PEvent) (p : Pool) : option Pool :=
  match es with
  | [] => Some p
  | e :: es =>
      match pool_step e p with
      | PReturns _ p | PThrows p | PSteps p => pool_run es p
      | PDisabled => pool_run es p
      | PAborts => None
      end
  end.
