(* ===== verification/PoolAccount.v ===== *)
(** The thread pool ([ThreadPool.v]) accounts for every task it accepts: the task is in
    exactly one place, tasks are taken in the order they were queued, and a task that
    waits expires only after its deadline, with one call of its callback. *)

From S2P Require Import Prelude ThreadPool.
#[local] Open Scope tlss_scope.

(** ** Counting *)

Definition cnt (x : Z) (l : list Z) : Z := Z.of_nat (count_occ Z.eq_dec l x).

Lemma cnt_nil x : cnt x [] = 0.
Proof. done. Qed.
Lemma cnt_app x l k : cnt x (l ++ k) = cnt x l + cnt x k.
Proof. unfold cnt. rewrite count_occ_app. lia. Qed.
Lemma cnt_cons x y l : cnt x (y :: l) = cnt x [y] + cnt x l.
Proof. apply (cnt_app x [y]). Qed.
Lemma cnt_permutation l k : (∀ x, cnt x l = cnt x k) → l ≡ₚ k.
Proof. intros H. apply (Permutation_count_occ Z.eq_dec). intros x. specialize (H x). unfold cnt in H. lia. Qed.

(** What the elements of a list hold together. *)
Definition tally {A} (f : A → list Z) (x : Z) (l : list A) : Z := cnt x (l ≫= f).

Lemma tally_nil {A} (f : A → list Z) x : tally f x [] = 0.
Proof. done. Qed.
Lemma tally_app {A} (f : A → list Z) x l k : tally f x (l ++ k) = tally f x l + tally f x k.
Proof. unfold tally. by rewrite bind_app, cnt_app. Qed.
Lemma tally_one {A} (f : A → list Z) x a : tally f x [a] = cnt x (f a).
Proof. unfold tally. cbn. by rewrite app_nil_r. Qed.
Lemma tally_cons {A} (f : A → list Z) x a l : tally f x (a :: l) = cnt x (f a) + tally f x l.
Proof. unfold tally. cbn. by rewrite cnt_app. Qed.

Lemma tally_insert {A} (f : A → list Z) x l i a b :
  l !! i = Some a → tally f x (<[i := b]> l) = tally f x l - cnt x (f a) + cnt x (f b).
Proof.
  intros Hi. rewrite <-(take_drop_middle l i a Hi) at 2. rewrite (insert_take_drop l i b) by (by eapply lookup_lt_Some).
  rewrite !tally_app, !tally_cons. lia.
Qed.

Lemma tally_delete {A} (f : A → list Z) x l i a :
  l !! i = Some a → tally f x (delete i l) = tally f x l - cnt x (f a).
Proof.
  intros Hi. rewrite <-(take_drop_middle l i a Hi) at 2. rewrite delete_take_drop, !tally_app, tally_cons. lia.
Qed.

Lemma tally_map {A} (f : A → list Z) (g : A → A) x l : (∀ a, f (g a) = f a) → tally f x (map g l) = tally f x l.
Proof. intros Hg. induction l as [|a l IH]; [done|]. cbn. by rewrite !tally_cons, IH, Hg. Qed.

Definition self (x : Z) : list Z := [x].
Lemma tally_self x l : tally self x l = cnt x l.
Proof. induction l as [|a l IH]; [done|]. by rewrite tally_cons, IH, cnt_cons. Qed.

(** ** Where tasks and callbacks are *)

Definition worker_task (w : Worker) : list Z := match w with WCallbacks _ t | WRunning t => [t] | _ => [] end.
Definition worker_calls (w : Worker) : list Z := match w with WCallbacks c _ => c | _ => [] end.
Definition deadline_calls (t : DeadlineThread) : list Z := match t with DCallback c => [c] | _ => [] end.
Definition pending_id (w : PendingTask) : list Z := [pt_task w].
Definition expired_id (e : PendingTask * Z) : list Z := [pt_task e.1].
Definition expired_call (e : PendingTask * Z) : list Z := if on_timeout e.1 then [pt_task e.1] else [].

Lemma callbacks_tally x ex : cnt x (callbacks_of ex) = tally expired_call x ex.
Proof.
  induction ex as [|[w now] ex IH]; [done|]. rewrite tally_cons, <-IH. unfold callbacks_of, expired_call. cbn.
  destruct (on_timeout w); [apply cnt_cons|done].
Qed.

Record account (p : Pool) : Prop := {
  ac_tasks x : cnt x (accepted p) =
    cnt x (finished p) + tally worker_task x (_threads p) + cnt x (inline_tasks p) + cnt x (_queue p)
    + tally pending_id x (_waiters p) + tally expired_id x (expired p) + tally pending_id x (dropped p);
  ac_calls x : tally expired_call x (expired p) =
    cnt x (called p) + tally worker_calls x (_threads p) + cnt x (deadline_calls (_deadline_thread p));
  ac_fifo : enqueued p = taken p ++ _queue p;
  ac_late : Forall (λ e, deadline e.1 <= e.2) (expired p)
}.

(** ** Notifications hold nothing *)

Section Notifications.
Context (f : Worker → list Z) (Hf : f WAsleep = f WReady).

Lemma tally_wake x ws : tally f x (map wake ws) = tally f x ws.
Proof. apply tally_map. by intros []. Qed.

Lemma tally_wake_first x ws : tally f x (wake_first ws) = tally f x ws.
Proof.
  induction ws as [|w ws IH]; [done|].
  destruct w; cbn [wake_first]; rewrite !tally_cons, ?IH; try done. by rewrite Hf.
Qed.

Lemma tally_notify x pick ws : tally f x (notify_worker pick ws) = tally f x ws.
Proof.
  unfold notify_worker. destruct (ws !! pick) as [[]|] eqn:E; try apply tally_wake_first.
  rewrite (tally_insert f x ws pick WAsleep) by done. rewrite Hf. lia.
Qed.
End Notifications.

Lemma wake_deadline_calls t : deadline_calls (wake_deadline t) = deadline_calls t.
Proof. by destruct t. Qed.

(** ** The loop over the tasks that wait *)

Record promoted (max : Z) (queue : list Z) (waiters : list PendingTask)
    (q : list Z) (ws : list PendingTask) (ex : list (PendingTask * Z)) : Prop := {
  pr_queue : ∃ more, q = queue ++ more;
  pr_tasks x : cnt x queue + tally pending_id x waiters = cnt x q + tally pending_id x ws + tally expired_id x ex;
  pr_late : Forall (λ e, deadline e.1 <= e.2) ex;
  pr_rest : ws `suffix_of` waiters;
  pr_full : ws = [] ∨ 0 < max → ws = [] ∨ max <= ♯q;
  pr_bound : 0 < max → ♯queue <= max → ♯q <= max
}.

Lemma promote_spec max clocks queue waiters q ws ex :
  promote max clocks queue waiters = (q, ws, ex) → promoted max queue waiters q ws ex.
Proof.
  revert clocks queue q ws ex. induction waiters as [|w rest IH]; intros clocks queue q ws ex; cbn [promote].
  { intros [= <- <- <-]. split; try done; [exists []; by rewrite app_nil_r|intros x; rewrite !tally_nil; lia|by left]. }
  destruct ((0 <? max) && (♯queue <? max)) eqn:Hroom; cbn [negb].
  2:{ intros [= <- <- <-]. split; try done; [exists []; by rewrite app_nil_r|intros x; rewrite !tally_nil; lia|].
      apply andb_false_iff in Hroom. intros [?|?]; [by left|right; lia]. }
  apply andb_true_iff in Hroom as [Hm Hq]. destruct (deadline w <=? default 0 (head clocks)) eqn:Hd.
  - destruct (promote max (tail clocks) queue rest) as [[q' ws'] ex'] eqn:E. intros [= <- <- <-].
    destruct (IH _ _ _ _ _ E) as [Pq Pt Pl Pr Pf Pb]. split; try done.
    + intros x. rewrite !tally_cons. specialize (Pt x). change (expired_id (w, _)) with (pending_id w). lia.
    + constructor; [cbn; lia|done].
    + by apply suffix_cons_r.
  - intros E. destruct (IH _ _ _ _ _ E) as [(more & ->) Pt Pl Pr Pf Pb]. split; try done.
    + exists ([pt_task w] ++ more). by rewrite (assoc_L (++)).
    + intros x. rewrite tally_cons. specialize (Pt x). rewrite cnt_app in Pt. change (pending_id w) with [pt_task w]. lia.
    + by apply suffix_cons_r.
    + intros Hmax _. apply Pb; [done|]. rewrite Zlen_app, Zlen_cons, Zlen_nil. lia.
Qed.

Lemma min_element_spec best w i ws k e :
  min_element best w i ws = (k, e) →
  (k = best ∧ e = w ∨ (i <= k)%nat ∧ ws !! (k - i)%nat = Some e)
  ∧ deadline e <= deadline w ∧ Forall (λ x, deadline e <= deadline x) ws.
Proof.
  revert best w i. induction ws as [|x ws IH]; intros best w i; cbn [min_element].
  { intros [= <- <-]. split; [by left|]. split; [lia|done]. }
  assert (∀ k, (S i <= k)%nat → ws !! (k - S i)%nat = Some e → (i <= k)%nat ∧ (x :: ws) !! (k - i)%nat = Some e) as Hnext.
  { intros k' Hk He. split; [lia|]. by replace (k' - i)%nat with (S (k' - S i)) by lia. }
  destruct (deadline x <? deadline w) eqn:E; intros (Hw & Hd & Hf)%IH.
  - split; [|split; [lia|by constructor]]. right. destruct Hw as [[-> ->]|[? ?]]; [|by apply Hnext].
    split; [lia|]. by replace (i - i)%nat with 0%nat by lia.
  - split; [|split; [lia|constructor; [lia|done]]]. destruct Hw as [?|[? ?]]; [by left|right; by apply Hnext].
Qed.

(** It is one of the tasks that wait, and none of them is due earlier. *)
Lemma min_element_least w ws k e :
  min_element 0 w 1 ws = (k, e) → (w :: ws) !! k = Some e ∧ Forall (λ x, deadline e <= deadline x) (w :: ws).
Proof.
  intros (Hw & Hd & Hf)%min_element_spec. split; [|by constructor].
  destruct Hw as [[-> ->]|[Hk He]]; [done|]. destruct k as [|k]; [lia|]. cbn. by replace (S k - 1)%nat with k in He by lia.
Qed.

(** ** Every step keeps the account *)

(** The fields that count. *)
Ltac pool_fields :=
  cbn [accepted finished inline_tasks _queue _waiters expired dropped called enqueued taken _threads _deadline_thread
       log set_threads set_workers set_submitters set_deadline_thread set_queue set_inline set_state set_config reject] in *.

Lemma same_account p p' :
  accepted p' = accepted p → finished p' = finished p → inline_tasks p' = inline_tasks p → _queue p' = _queue p →
  _waiters p' = _waiters p → expired p' = expired p → dropped p' = dropped p → called p' = called p →
  enqueued p' = enqueued p → taken p' = taken p →
  (∀ x, tally worker_task x (_threads p') = tally worker_task x (_threads p)) →
  (∀ x, tally worker_calls x (_threads p') = tally worker_calls x (_threads p)) →
  deadline_calls (_deadline_thread p') = deadline_calls (_deadline_thread p) → account p → account p'.
Proof.
  intros E1 E2 E3 E4 E5 E6 E7 E8 E9 E10 Ht Hc Hd [T C F L].
  split; [intros x; rewrite Ht|intros x; rewrite Hc, Hd|..]; rewrite ?E1, ?E2, ?E3, ?E4, ?E5, ?E6, ?E7, ?E8, ?E9, ?E10; auto.
Qed.

(** A worker that goes on without a task. *)
Lemma idle_account p i w w' :
  _threads p !! i = Some w → worker_task w' = worker_task w → worker_calls w' = worker_calls w →
  account p → account (set_workers (<[i := w']> (_threads p)) p).
Proof.
  intros Hi Ht Hc. apply same_account; try done; intros x; pool_fields.
  - rewrite (tally_insert worker_task x _ i w) by done. rewrite Ht. lia.
  - rewrite (tally_insert worker_calls x _ i w) by done. rewrite Hc. lia.
Qed.

Lemma reject_account p : account p → account (reject p).
Proof. by apply same_account. Qed.

Lemma submitters_account ss p : account p → account (set_submitters ss p).
Proof. by apply same_account. Qed.

Lemma enqueue_account pick task p : account p → account (enqueue pick task p).
Proof.
  intros [T C F L]. unfold enqueue. split; pool_fields; rewrite ?app_nil_r; [| |by rewrite F, (assoc_L (++))|done].
  - intros x. rewrite !cnt_app, tally_notify by done. specialize (T x). lia.
  - intros x. rewrite tally_notify by done. apply C.
Qed.

Lemma inline_account task p : account p → account (run_inline task p).
Proof.
  intros [T C F L]. unfold run_inline. split; pool_fields; rewrite ?app_nil_r; try done.
  intros x. rewrite !cnt_app. specialize (T x). lia.
Qed.

Lemma inline_end_account p k task n :
  inline_tasks p !! k = Some task → account p →
  account (log [] [] [] [task] [] [] [] (set_inline n (delete k (inline_tasks p)) p)).
Proof.
  intros Hk [T C F L]. split; pool_fields; rewrite ?app_nil_r; try done. intros x. specialize (T x).
  rewrite cnt_app, <-(tally_self x (delete k _)), (tally_delete self x _ k task), tally_self by done. unfold self. lia.
Qed.

Lemma waiting_account w p :
  account p →
  account (log [pt_task w] [] [] [] [] [] [] (set_deadline_thread (wake_deadline (_deadline_thread p))
             (set_queue (_queue p) (_waiters p ++ [w]) p))).
Proof.
  intros [T C F L]. split; pool_fields; rewrite ?app_nil_r, ?wake_deadline_calls; try done.
  intros x. rewrite cnt_app, tally_app, tally_one. specialize (T x). unfold pending_id at 2. lia.
Qed.

Lemma take_account i clocks pick p : _threads p !! i = Some WReady → account p → account (take i clocks pick p).
Proof.
  intros Hi A. unfold take. destruct (_queue p) as [|task rest] eqn:Hq.
  { eapply idle_account; [done| | |done]; by destruct (bool_decide _). }
  destruct (promote _ clocks rest _) as [[q ws] ex] eqn:E. destruct (promote_spec _ _ _ _ _ _ _ E) as [(more & ->) Pt Pl _ _ _].
  destruct A as [T C F L]. rewrite Hq in *. set (p1 := set_queue _ _ _).
  assert (account (log [] more [task] [] ex [] [] p1)) as Hp1.
  { unfold p1. split; pool_fields; rewrite ?app_nil_r.
    - intros x. rewrite (tally_insert worker_task x _ i WReady), tally_app by done. cbn [worker_task]. rewrite cnt_nil.
      specialize (T x). rewrite cnt_cons in T. specialize (Pt x). lia.
    - intros x. rewrite (tally_insert worker_calls x _ i WReady), tally_app by done. cbn [worker_calls].
      rewrite cnt_nil, callbacks_tally. specialize (C x). lia.
    - rewrite F, <-!(assoc_L (++)). done.
    - by apply Forall_app. }
  rewrite drop_app_length. destruct (_ && _); [|done].
  change (account (set_submitters (notify_submitter pick (submitters p1)) (log [] more [task] [] ex [] [] p1))).
  by apply submitters_account.
Qed.

Lemma called_account i c rest task p :
  _threads p !! i = Some (WCallbacks (c :: rest) task) → account p →
  account (log [] [] [] [] [] [c] [] (set_workers (<[i := WCallbacks rest task]> (_threads p)) p)).
Proof.
  intros Hi [T C F L]. split; pool_fields; rewrite ?app_nil_r; try done; intros x.
  - rewrite (tally_insert worker_task x _ i (WCallbacks (c :: rest) task)) by done. specialize (T x). cbn [worker_task]. lia.
  - rewrite cnt_app, (tally_insert worker_calls x _ i (WCallbacks (c :: rest) task)) by done. specialize (C x).
    cbn [worker_calls]. rewrite (cnt_cons x c rest). lia.
Qed.

Lemma finished_account i task p :
  _threads p !! i = Some (WRunning task) → account p →
  account (log [] [] [] [task] [] [] [] (set_workers (<[i := WReady]> (_threads p)) p)).
Proof.
  intros Hi [T C F L]. split; pool_fields; rewrite ?app_nil_r; try done; intros x.
  - rewrite cnt_app, (tally_insert worker_task x _ i (WRunning task)) by done. specialize (T x). cbn [worker_task].
    rewrite cnt_nil. lia.
  - rewrite (tally_insert worker_calls x _ i (WRunning task)) by done. specialize (C x). cbn [worker_calls]. lia.
Qed.

Lemma expire_account k e now p :
  _waiters p !! k = Some e → deadline e <= now → deadline_calls (_deadline_thread p) = [] → account p →
  account (log [] [] [] [] [(e, now)] [] []
    (set_deadline_thread (if on_timeout e then DCallback (pt_task e) else DReady) (set_queue (_queue p) (delete k (_waiters p)) p))).
Proof.
  intros Hk Hd Hc [T C F L]. split; pool_fields; rewrite ?app_nil_r; try done.
  - intros x. rewrite (tally_delete pending_id x _ k e), tally_app, tally_one by done. specialize (T x).
    change (expired_id (e, now)) with (pending_id e). lia.
  - intros x. rewrite tally_app, tally_one. specialize (C x). rewrite Hc in C. unfold expired_call at 2. cbn [fst].
    destruct (on_timeout e); cbn [deadline_calls] in *; rewrite ?cnt_nil in *; lia.
  - apply Forall_app. split; [done|]. by constructor.
Qed.

Lemma callback_account task p :
  _deadline_thread p = DCallback task → account p →
  account (log [] [] [] [] [] [task] [] (set_deadline_thread DReady p)).
Proof.
  intros Hd [T C F L]. split; pool_fields; rewrite ?app_nil_r; try done. intros x. rewrite cnt_app. specialize (C x).
  rewrite Hd in C. cbn [deadline_calls] in *. rewrite cnt_nil. lia.
Qed.

Lemma stop_account p l :
  account p →
  account (let p := log [] [] [] [] [] [] (_waiters p) (set_queue (_queue p) [] (set_state k_stopping l p)) in
    set_threads (map wake (_threads p)) (wake_deadline (_deadline_thread p)) (map rouse (submitters p)) p).
Proof.
  intros [T C F L]. split; pool_fields; rewrite ?app_nil_r, ?wake_deadline_calls; try done; intros x; rewrite tally_wake by done.
  - rewrite tally_app, tally_nil. specialize (T x). lia.
  - apply C.
Qed.

Lemma start_account p n t s l :
  _threads p = [] → deadline_calls (_deadline_thread p) = [] → deadline_calls t = [] → account p →
  account (set_state s l (set_threads (replicate n WInit) t (submitters p) p)).
Proof.
  intros Hn Hd Ht. assert (∀ f : Worker → list Z, f WInit = [] → ∀ x, tally f x (replicate n WInit) = 0) as Hr.
  { intros f Hf x. induction n as [|m IH]; [done|]. cbn. rewrite tally_cons, IH, Hf. done. }
  apply same_account; try done; pool_fields; rewrite ?Hn; [intros x; by apply Hr..|]. congruence.
Qed.
