(* ===== verification/PoolSafety.v ===== *)
(** The invariant of the thread pool ([ThreadPool.v]): limits, who may sleep and what
    the states of the pool mean; every step keeps it. *)

From S2P Require Import Prelude ThreadPool PoolAccount.
#[local] Open Scope tlss_scope.

(** ** Notifications *)

(** A worker that may have been woken. *)
Inductive woke : Worker → Worker → Prop :=
  | woke_same w : woke w w
  | woke_up : woke WAsleep WReady.

Lemma woke_all ws : Forall2 woke ws ws.
Proof. induction ws; constructor; [constructor|done]. Qed.

Lemma wake_first_woke ws : Forall2 woke ws (wake_first ws).
Proof. induction ws as [|[] ws IH]; cbn; repeat constructor; try done. apply woke_all. Qed.

Lemma notify_woke pick ws : Forall2 woke ws (notify_worker pick ws).
Proof.
  unfold notify_worker. destruct (ws !! pick) as [[]|] eqn:E; try apply wake_first_woke.
  rewrite <-(take_drop_middle ws pick WAsleep E) at 1. rewrite (insert_take_drop ws pick WReady) by (by eapply lookup_lt_Some).
  apply Forall2_app; [apply woke_all|]. constructor; [constructor|apply woke_all].
Qed.

Lemma woke_nil ws ws' : Forall2 woke ws ws' → ws' = [] → ws = [].
Proof. intros H ->. by apply Forall2_nil_inv_r in H. Qed.

Lemma woke_exited ws ws' : Forall2 woke ws ws' → WExited ∈ ws' → WExited ∈ ws.
Proof.
  induction 1 as [|w w' ws ws' Hw _ IH]; [done|]. intros [Heq|Hin]%elem_of_cons; [|right; by apply IH].
  inversion Hw; subst; try done. by left.
Qed.

Definition is_awake (w : Worker) : Prop := w ≠ WAsleep.

Lemma woke_awake ws ws' : Forall2 woke ws ws' → Exists is_awake ws → Exists is_awake ws'.
Proof.
  induction 1 as [|w w' ws ws' Hw _ IH]; [done|]. intros [?|?]%Exists_cons; [|right; by apply IH].
  left. by inversion Hw; subst.
Qed.

Lemma wake_first_awake ws : ws ≠ [] → Exists is_awake (wake_first ws).
Proof. destruct ws as [|[] ws]; [done|..]; intros _; by left. Qed.

Lemma notify_awake pick ws : ws ≠ [] → Exists is_awake (notify_worker pick ws).
Proof.
  intros Hne. unfold notify_worker. destruct (ws !! pick) as [[]|] eqn:E; try by apply wake_first_awake.
  apply Exists_exists. exists WReady. split; [|done]. apply list_elem_of_lookup. exists pick.
  apply list_lookup_insert_eq. by eapply lookup_lt_Some.
Qed.

(** Callers of [run] that were woken and have not gone on yet. *)
Fixpoint woken (ss : list (Z * bool)) : Z :=
  match ss with [] => 0 | s :: ss => (if s.2 : bool then 1 else 0) + woken ss end.

Lemma woken_app ss ss' : woken (ss ++ ss') = woken ss + woken ss'.
Proof. induction ss as [|s ss IH]; cbn; lia. Qed.
Lemma woken_nonneg ss : 0 <= woken ss.
Proof. induction ss as [|s ss IH]; cbn; [lia|]. destruct s.2; lia. Qed.

Lemma woken_insert k s s' ss : ss !! k = Some s → woken (<[k := s']> ss) = woken ss - woken [s] + woken [s'].
Proof.
  intros Hk. rewrite <-(take_drop_middle ss k s Hk) at 2. rewrite (insert_take_drop ss k s') by (by eapply lookup_lt_Some).
  rewrite !woken_app. cbn. lia.
Qed.

Lemma woken_delete k s ss : ss !! k = Some s → woken (delete k ss) = woken ss - woken [s].
Proof.
  intros Hk. rewrite <-(take_drop_middle ss k s Hk) at 2. rewrite delete_take_drop, !woken_app. cbn. lia.
Qed.

Lemma rouse_first_spec ss t : (t, false) ∈ ss → woken (rouse_first ss) = woken ss + 1.
Proof.
  induction ss as [|[u []] ss IH]; cbn [rouse_first]; [by intros ?%not_elem_of_nil|..].
  - intros [[=]|Hin]%elem_of_cons. cbn. rewrite IH by done. lia.
  - intros _. cbn. lia.
Qed.

Lemma notify_submitter_woken pick ss t : (t, false) ∈ ss → woken (notify_submitter pick ss) = woken ss + 1.
Proof.
  intros Hin. unfold notify_submitter. destruct (ss !! pick) as [[u []]|] eqn:E; try by eapply rouse_first_spec.
  rewrite (woken_insert pick (u, false)) by done. cbn. lia.
Qed.

Lemma rouse_first_asleep ss t : (t, false) ∈ rouse_first ss → (t, false) ∈ ss.
Proof.
  induction ss as [|[u []] ss IH]; cbn [rouse_first]; [done|..]; intros [[=]|Hin]%elem_of_cons; right; [by apply IH|done].
Qed.

Lemma insert_asleep (k : nat) (u t : Z) (ss : list (Z * bool)) : (t, false) ∈ <[k := (u, true)]> ss → (t, false) ∈ ss.
Proof.
  intros [j Hj]%list_elem_of_lookup. apply list_elem_of_lookup. exists j.
  apply list_lookup_insert_Some in Hj as [(_ & ? & _)|[_ ?]]; [done|done].
Qed.

Lemma notify_submitter_asleep pick ss t : (t, false) ∈ notify_submitter pick ss → (t, false) ∈ ss.
Proof.
  unfold notify_submitter. destruct (ss !! pick) as [[u []]|]; try apply rouse_first_asleep. by apply insert_asleep.
Qed.

Lemma notify_submitter_nil pick ss : ss = [] → notify_submitter pick ss = [].
Proof. by intros ->. Qed.

(** ** The invariant *)

Record pool_ok (p : Pool) : Prop := {
  pk_account : account p;
  pk_limits : 0 <= _max_queue_size p ∧ 0 <= _max_wait_queue_size p;
  pk_queue : 0 < _max_queue_size p → ♯(_queue p) <= _max_queue_size p;
  pk_wait_queue : ♯(_waiters p) <= _max_wait_queue_size p;
  pk_waiters : _waiters p ≠ [] → is_full p = true ∧ _state p = k_running;
  pk_created : _state p = k_created → _threads p = [] ∧ inline_tasks p = [] ∧ lifecycle p = LFree;
  pk_none : _threads p = [] → _queue p = [] ∧ submitters p = [] ∧ _deadline_thread p = DNone;
  (* who may sleep *)
  pk_asleep : _state p ≠ k_running →
    WAsleep ∉ _threads p ∧ (∀ t, (t, false) ∉ submitters p) ∧ wake_deadline (_deadline_thread p) = _deadline_thread p;
  pk_awake : _queue p ≠ [] → Exists is_awake (_threads p);
  pk_room t : (t, false) ∈ submitters p → 0 < _max_queue_size p ∧ _max_queue_size p <= ♯(_queue p) + woken (submitters p);
  pk_deadline : match _deadline_thread p with
                | DNone => _threads p ≠ [] → _max_wait_queue_size p = 0
                | DAsleep => _waiters p = []
                | DUntil time => Forall (λ w, time <= deadline w) (_waiters p)
                | DExited => _state p ≠ k_running
                | _ => True
                end;
  (* the end *)
  pk_exited : WExited ∈ _threads p → _state p ≠ k_running ∧ _queue p = [];
  pk_inline : _active_inline_tasks p = ♯(inline_tasks p);
  pk_callers : inline_tasks p ≠ [] → _threads p = [];
  pk_life : match lifecycle p with
            | LFree => True
            | LStarting => _state p = k_running ∧ _threads p = []
            | LStopInline => _state p = k_stopping
            | LStopJoin => _state p = k_stopping ∧ inline_tasks p = []
            end;
  pk_stopped : _state p = k_stopped → all_exited p = true ∧ inline_tasks p = [] ∧ lifecycle p = LFree
}.

Lemma new_pool_ok : pool_ok new_pool.
Proof. split; try done; try (cbn; set_solver). Qed.

Lemma full_spec p : is_full p = true ↔ 0 < _max_queue_size p ∧ _max_queue_size p <= ♯(_queue p).
Proof. unfold is_full. rewrite andb_true_iff, Z.ltb_lt, Z.leb_le. done. Qed.

Lemma exited_worker p i w : pool_ok p → _threads p !! i = Some w → w ≠ WExited → _state p ≠ k_stopped ∧ _state p ≠ k_created.
Proof.
  intros I Hi Hw. split; intros Hs.
  - destruct (pk_stopped p I Hs) as (He & _). unfold all_exited in He. apply andb_true_iff in He as [He _].
    rewrite forallb_forall in He. specialize (He w). rewrite bool_decide_eq_true in He. apply Hw, He.
    apply list_elem_of_In. by apply list_elem_of_lookup_2 in Hi.
  - destruct (pk_created p I Hs) as (Hn & _). by rewrite Hn in Hi.
Qed.

(** ** Submission *)

Lemma reject_ok p : pool_ok p → pool_ok (reject p).
Proof. intros [A]. split; try done. by apply reject_account. Qed.

(** A task enters the queue while the callers of [run] become [ss]. *)
Lemma enqueue_ok pick task ss p :
  pool_ok p → _state p = k_running → _threads p ≠ [] → is_full p = false →
  (∀ t, (t, false) ∈ ss → 0 < _max_queue_size p ∧ _max_queue_size p <= ♯(_queue p) + 1 + woken ss) →
  pool_ok (enqueue pick task (set_submitters ss p)).
Proof.
  intros I Hs Hne Hfull Hroom. pose proof I as [A L Q WQ W Cr N As Aw R D Ex In Ca Li St].
  pose proof (notify_woke pick (_threads p)) as Hwoke.
  assert (_waiters p = []) as Hnw by (destruct (_waiters p); [done|]; destruct W; [done|congruence]).
  split; cbn; rewrite ?Hs, ?Hnw; try done.
  - by apply enqueue_account, submitters_account.
  - intros Hm. rewrite Zlen_app, Zlen_cons, Zlen_nil. unfold is_full in Hfull. apply andb_false_iff in Hfull as [?|?]; lia.
  - destruct L. rewrite Zlen_nil. lia.
  - intros E. apply woke_nil in Hwoke; [|done]. done.
  - intros _. by apply notify_awake.
  - intros t Ht. destruct (Hroom t Ht) as [? ?]. split; [done|]. rewrite Zlen_app, Zlen_cons, Zlen_nil. lia.
  - destruct (_deadline_thread p); try done. intros _. by apply D.
  - intros E%(woke_exited _ _ Hwoke). by apply Ex in E as [? _].
  - intros Hi. by apply Ca in Hi.
  - revert Li. rewrite Hs. destruct (lifecycle p); [done|by intros [_ ?]|done|by intros [? _]].
Qed.

Lemma inline_ok task p :
  pool_ok p → _state p = k_running → _threads p = [] → pool_ok (run_inline task p).
Proof.
  intros [A L Q WQ W Cr N As Aw R D Ex In Ca Li St] Hs Hn. split; cbn; try done.
  - by apply inline_account.
  - congruence.
  - rewrite Zlen_app, Zlen_cons, Zlen_nil, In. done.
  - revert Li. rewrite Hs. destruct (lifecycle p); [done|done|done|by intros [? _]].
  - congruence.
Qed.

Lemma set_submitters_same p : set_submitters (submitters p) p = p.
Proof. by destruct p. Qed.

(** A submission that does not wait. *)
Lemma enqueue_now_ok pick task p :
  pool_ok p → _state p = k_running → _threads p ≠ [] → is_full p = false → pool_ok (enqueue pick task p).
Proof.
  intros I Hs Hne Hf. rewrite <-(set_submitters_same p). apply enqueue_ok; try done.
  intros t Ht. destruct (pk_room p I t Ht) as [? ?]. split; [done|lia].
Qed.

Definition good (r : PoolResult) : Prop :=
  match r with PReturns _ p | PThrows p | PSteps p => pool_ok p | _ => True end.

Lemma submitters_ok ss p :
  pool_ok p → (_threads p = [] → ss = []) → (_state p ≠ k_running → ∀ t, (t, false) ∉ ss) →
  (∀ t, (t, false) ∈ ss → 0 < _max_queue_size p ∧ _max_queue_size p <= ♯(_queue p) + woken ss) → pool_ok (set_submitters ss p).
Proof.
  intros [A L Q WQ W Cr N As Aw R D Ex In Ca Li St] Hn Ha Hr. split; cbn; try done.
  - by apply submitters_account.
  - intros Ht. destruct (N Ht) as (? & ? & ?). auto.
  - intros Hs. destruct (As Hs) as (? & ? & ?). auto.
Qed.

Lemma run_ok inside pick task p : pool_ok p → good (run inside pick task p).
Proof.
  intros I. unfold run. destruct task as [task|]; [|done].
  case_bool_decide as Hs; cbn [negb]; [|by apply reject_ok]. case_bool_decide as Hn; [by apply inline_ok|].
  destruct (is_full p) eqn:Hf; rewrite ?andb_true_r, ?andb_false_r; [|by apply enqueue_now_ok].
  destruct inside; [by apply reject_ok|]. apply submitters_ok; try done.
  intros t Ht. apply full_spec in Hf as [? ?]. split; [done|].
  pose proof (woken_nonneg (submitters p ++ [(task, false)])). lia.
Qed.

Lemma try_run_ok pick task p : pool_ok p → good (try_run pick task p).
Proof.
  intros I. unfold try_run. destruct task as [task|]; [|done].
  case_bool_decide as Hs; cbn [negb]; [|by apply reject_ok]. case_bool_decide as Hn; [by apply inline_ok|].
  destruct (is_full p) eqn:Hf; [by apply reject_ok|by apply enqueue_now_ok].
Qed.

Lemma run_woken_ok k pick p : pool_ok p → good (run_woken k pick p).
Proof.
  intros I. unfold run_woken. destruct (submitters p !! k) as [[task []]|] eqn:Hk; try done. cbv zeta.
  pose proof (woken_delete k _ _ Hk) as Hw. cbn in Hw.
  assert (_threads p ≠ []) as Hne by (intros Hn; destruct (pk_none p I Hn) as (_ & E & _); by rewrite E in Hk).
  assert (∀ t, (t, false) ∈ delete k (submitters p) → 0 < _max_queue_size p ∧ _max_queue_size p <= ♯(_queue p) + 1 + woken (delete k (submitters p))) as Hroom.
  { intros t Ht%list_elem_of_delete_inv. destruct (pk_room p I t Ht) as [? ?]. split; [done|lia]. }
  case_bool_decide as Hs; cbn [negb].
  - destruct (is_full p) eqn:Hf; [|by apply enqueue_ok]. apply submitters_ok; try done. intros t _.
    apply full_spec in Hf as [? ?]. split; [done|]. pose proof (woken_nonneg (<[k := (task, false)]> (submitters p))). lia.
  - apply reject_ok, submitters_ok; try done.
    + intros _ t Ht%list_elem_of_delete_inv. destruct (pk_asleep p I Hs) as (_ & Ha & _). by apply (Ha t).
    + intros t Ht%list_elem_of_delete_inv. destruct (pk_asleep p I Hs) as (_ & Ha & _). by apply Ha in Ht.
Qed.

Lemma finish_inline_ok k throws p : pool_ok p → good (finish_inline_task k throws p).
Proof.
  intros I. unfold finish_inline_task. destruct (inline_tasks p !! k) as [task|] eqn:Hk; [|done]. cbv zeta.
  pose proof I as [A L Q WQ W Cr N As Aw R D Ex In Ca Li St].
  assert (inline_tasks p ≠ []) as Hne by (intros E; by rewrite E in Hk).
  assert (pool_ok (log [] [] [] [task] [] [] [] (set_inline (_active_inline_tasks p - 1) (delete k (inline_tasks p)) p))) as Hok.
  { split; cbn; try done.
    - by apply inline_end_account.
    - intros Hs. by destruct (Cr Hs) as (_ & ? & _).
    - rewrite In. unfold Zlen. rewrite length_delete by by eexists. apply lookup_lt_Some in Hk. lia.
    - intros _. by apply Ca.
    - destruct (lifecycle p); try done. by destruct Li as [_ ?].
    - intros Hs. by destruct (St Hs) as (_ & ? & _). }
  by destruct throws.
Qed.

Lemma submit_async_ok pick task time now callback p : pool_ok p → good (submit_async pick task time now callback p).
Proof.
  intros I. unfold submit_async. destruct task as [task|]; [|done].
  destruct (negb _ || _ || _) eqn:E; [by apply reject_ok|]. apply orb_false_iff in E as [[Hs Hn]%orb_false_iff _].
  apply negb_false_iff, bool_decide_eq_true in Hs. apply bool_decide_eq_false in Hn.
  destruct (is_full p) eqn:Hf; cbn [negb]; [|by apply enqueue_now_ok].
  destruct (_max_wait_queue_size p <=? ♯(_waiters p)) eqn:Hw; [by apply reject_ok|].
  pose proof I as [A L Q WQ W Cr N As Aw R D Ex In Ca Li St].
  split; cbn; try done.
  - by apply (waiting_account (mkPending task time callback)).
  - rewrite Zlen_app, Zlen_cons, Zlen_nil. lia.
  - by destruct (_deadline_thread p).
  - congruence.
Qed.

(** ** Workers *)

(** A worker goes on to [w'], and at most the history changes besides. *)
Lemma worker_ok i w w' fin cal p p' :
  pool_ok p → _threads p !! i = Some w → account p' →
  p' = set_workers (<[i := w']> (_threads p)) p ∨ p' = log [] [] [] fin [] cal [] (set_workers (<[i := w']> (_threads p)) p) →
  w ≠ WExited → (w' = WAsleep → _state p = k_running ∧ _queue p = []) →
  (w' = WExited → _state p ≠ k_running ∧ _queue p = []) → pool_ok p'.
Proof.
  intros I Hi Hacc Hp' Hw Hsl Hex. destruct (exited_worker p i w I Hi Hw) as [Hstop Hcr].
  assert (<[i := w']> (_threads p) ≠ []) as Hne.
  { intros E. apply (f_equal length) in E. rewrite length_insert in E. apply lookup_lt_Some in Hi. cbn in E. lia. }
  assert (∀ x, x ∈ <[i := w']> (_threads p) → x = w' ∨ x ∈ _threads p) as Hin.
  { intros x [j Hj]%list_elem_of_lookup. apply list_lookup_insert_Some in Hj as [(_ & <- & _)|[_ Hj]]; [by left|].
    right. by eapply list_elem_of_lookup_2. }
  pose proof I as [A L Q WQ W Cr N As Aw R D Ex In Ca Li St]. set (ws := <[i := w']> (_threads p)) in *.
  assert (_threads p ≠ []) as Hne0 by (intros E; by rewrite E in Hi).
  assert (_state p ≠ k_running → WAsleep ∉ ws) as F1.
  { intros Hs. destruct (As Hs) as (Ha & _). intros [E|?]%Hin; [|done]. by destruct (Hsl (eq_sym E)). }
  assert (_queue p ≠ [] → Exists is_awake ws) as F2.
  { intros Hq. apply Exists_exists. exists w'. split; [|intros ->; by destruct (Hsl eq_refl)].
    apply list_elem_of_lookup. exists i. apply list_lookup_insert_eq. by eapply lookup_lt_Some. }
  assert (WExited ∈ ws → _state p ≠ k_running ∧ _queue p = []) as F3 by (intros [E|?]%Hin; [by apply Hex|by apply Ex]).
  assert (inline_tasks p ≠ [] → ws = []) as F4 by (intros Hi'; by specialize (Ca Hi')).
  destruct Hp' as [-> | ->]; (split; [exact Hacc|..]); cbn; try done;
    first [ intros Hs; destruct (As Hs) as (_ & ? & ?); by auto
          | destruct (_deadline_thread p); by auto
          | destruct (lifecycle p); try done; by destruct Li ].
Qed.

(** What changes when worker [i] takes a task. *)
Lemma taken_ok i clocks pick task rest q ws ex p :
  pool_ok p → _threads p !! i = Some WReady → _queue p = task :: rest →
  promote (_max_queue_size p) clocks rest (_waiters p) = (q, ws, ex) → pool_ok (take i clocks pick p).
Proof.
  intros I Hi Hq E. pose proof (take_account i clocks pick p Hi (pk_account p I)) as Hacc.
  revert Hacc. unfold take. rewrite Hq, E. cbv zeta.
  destruct (promote_spec _ _ _ _ _ _ _ E) as [(more & Hmore) _ _ Psuf Pfull Pbound].
  destruct (exited_worker p i WReady I Hi ltac:(done)) as [Hstop Hcr].
  set (p1 := set_queue _ _ _).
  set (ss := if (0 <? _max_queue_size p1) && negb (is_full p1) then notify_submitter pick (submitters p) else submitters p).
  replace (if (0 <? _max_queue_size p1) && negb (is_full p1) then set_submitters (notify_submitter pick (submitters p1)) p1 else p1)
    with (set_submitters ss p1) by (unfold ss; by destruct (_ && _)).
  intros Hacc. pose proof I as [A L Q WQ W Cr N As Aw R D Ex In Ca Li St].
  assert (∀ t, (t, false) ∈ ss → (t, false) ∈ submitters p) as Hss.
  { intros t. unfold ss. destruct (_ && _); [apply notify_submitter_asleep|done]. }
  assert (<[i := WCallbacks (callbacks_of ex) task]> (_threads p) ≠ []) as Hne.
  { intros E'. apply (f_equal length) in E'. rewrite length_insert in E'. apply lookup_lt_Some in Hi. cbn in E'. lia. }
  assert (∀ x, x ∈ <[i := WCallbacks (callbacks_of ex) task]> (_threads p) → is_Some (head (worker_task x)) ∨ x ∈ _threads p) as Hin.
  { intros x [j Hj]%list_elem_of_lookup. apply list_lookup_insert_Some in Hj as [(_ & <- & _)|[_ Hj]]; [by left|].
    right. by eapply list_elem_of_lookup_2. }
  assert (ws = [] ∨ ws ≠ []) as Hws by (destruct ws; auto).
  assert (ws ≠ [] → _waiters p ≠ []) as Hsome by (intros Hw E'; rewrite E' in Psuf; by apply suffix_nil_inv in Psuf).
  split; cbn; try done.
  - intros Hm. apply Pbound; [done|]. specialize (Q Hm). rewrite Hq, Zlen_cons in Q. lia.
  - destruct Psuf as [k Hk]. rewrite Hk, Zlen_app in WQ. pose proof (Zlen_nonneg k). lia.
  - intros Hw. destruct (W (Hsome Hw)) as [Hf ?]. split; [|done]. apply full_spec in Hf as [? _]. apply full_spec. cbn.
    split; [done|]. destruct Pfull as [?|?]; [by right|done|done].
  - intros Hs. destruct (As Hs) as (Ha & Hb & Hc). split; [|split; [|done]].
    + intros [[x Hx]|?]%Hin; [done|done].
    + intros t Ht%Hss. by apply (Hb t).
  - intros _. apply Exists_exists. exists (WCallbacks (callbacks_of ex) task). split; [|done].
    apply list_elem_of_lookup. exists i. apply list_lookup_insert_eq. by eapply lookup_lt_Some.
  - intros t Ht. specialize (Hss t Ht). destruct (R t Hss) as [Hm Hr]. split; [done|]. rewrite Hq, Zlen_cons in Hr.
    assert (♯rest <= ♯q) by (rewrite Hmore, Zlen_app; pose proof (Zlen_nonneg more); lia).
    unfold ss. destruct (is_full p1) eqn:Hf; rewrite ?andb_false_r; cbn [negb].
    + apply full_spec in Hf as [_ Hf]. cbn in Hf. pose proof (woken_nonneg (submitters p)). lia.
    + cbn. destruct (0 <? _max_queue_size p) eqn:Hpos; [|lia]. cbn. rewrite (notify_submitter_woken pick _ t) by done. lia.
  - destruct (_deadline_thread p); try done.
    + intros _. apply D. intros E'. by rewrite E' in Hi.
    + destruct Hws as [?|Hw]; [done|]. by apply Hsome in Hw.
    + destruct Psuf as [k Hk]. rewrite Hk in D. by apply Forall_app in D as [_ ?].
  - intros [[x Hx]|He]%Hin; [done|]. destruct (Ex He) as [_ E']. by rewrite Hq in E'.
  - intros Hi'. specialize (Ca Hi'). by rewrite Ca in Hi.
  - destruct (lifecycle p); try done. destruct Li as [_ E']. by rewrite E' in Hi.
Qed.

Lemma pool_take_ok i clocks pick p : pool_ok p → _threads p !! i = Some WReady → pool_ok (take i clocks pick p).
Proof.
  intros I Hi. destruct (_queue p) as [|task rest] eqn:Hq.
  - unfold take. rewrite Hq. eapply (worker_ok i WReady _ [] []); [done|done| |by left|..]; try done.
    + eapply idle_account; [done| | |by apply pk_account]; by case_bool_decide.
    + by case_bool_decide.
    + by case_bool_decide.
  - destruct (promote (_max_queue_size p) clocks rest (_waiters p)) as [[q ws] ex] eqn:E. by eapply taken_ok.
Qed.


Lemma pool_work_ok i clocks pick throws p : pool_ok p → good (work i clocks pick throws p).
Proof.
  intros I. pose proof (pk_account p I) as A. unfold work. destruct (_threads p !! i) as [w|] eqn:Hi; [|done]. destruct w as [| | |[|c rest] task|task|]; try done.
  - destruct (_ && throws); [done|]. by eapply (worker_ok i _ _ [] []); [done|done|by eapply idle_account|by left|..].
  - by apply pool_take_ok.
  - by eapply (worker_ok i _ _ [] []); [done|done|by eapply idle_account|by left|..].
  - destruct throws; [done|]. by eapply worker_ok; [done|done|by apply called_account|by right|..].
  - destruct throws; [done|]. by eapply worker_ok; [done|done|by apply finished_account|by right|..].
Qed.

(** ** Deadlines *)

Lemma deadline_thread_ok t p :
  pool_ok p → _threads p ≠ [] → deadline_calls t = deadline_calls (_deadline_thread p) →
  (_state p ≠ k_running → wake_deadline t = t) →
  match t with
  | DNone => False | DAsleep => _waiters p = [] | DUntil time => Forall (λ w, time <= deadline w) (_waiters p)
  | DExited => _state p ≠ k_running | _ => True
  end → _state p ≠ k_stopped →
  pool_ok (set_deadline_thread t p).
Proof.
  intros [A L Q WQ W Cr N As Aw R D Ex In Ca Li St] Hn Hc Hs Ht Hst. split; cbn; try done.
  - by apply (same_account p).
  - intros Hs'. destruct (As Hs') as (? & ? & _). auto.
  - by destruct t.
Qed.

Lemma deadline_loop_ok now throws p : pool_ok p → good (deadline_loop now throws p).
Proof.
  intros I. unfold deadline_loop. pose proof I as [A L Q WQ W Cr N As Aw R D Ex In Ca Li St].
  assert (_deadline_thread p ≠ DNone → _threads p ≠ []) as Hne by (intros Hd E; by destruct (N E) as (_ & _ & ?)).
  assert (_deadline_thread p ≠ DNone → _deadline_thread p ≠ DExited → _state p ≠ k_stopped) as Hst.
  { intros H1 H2 Hs. destruct (St Hs) as (He & _). unfold all_exited in He. apply andb_true_iff in He as [_ He].
    by rewrite orb_true_iff, !bool_decide_eq_true in He; destruct He. }
  destruct (_deadline_thread p) as [| | |time|task|] eqn:Hd; try done; specialize (Hne ltac:(done)); specialize (Hst ltac:(done) ltac:(done)).
  - case_bool_decide as Hs; cbn [negb]; [|by apply deadline_thread_ok; rewrite ?Hd].
    destruct (_waiters p) as [|w ws] eqn:Hw; [by apply deadline_thread_ok; rewrite ?Hd|].
    destruct (min_element 0 w 1 ws) as [k e] eqn:Hm. apply min_element_least in Hm as [Hk Hl]. rewrite <-Hw in Hk, Hl.
    destruct (now <? deadline e) eqn:Hnow; [by apply deadline_thread_ok; rewrite ?Hd|].
    rewrite <-Hw. destruct W as [Hf _]; [done|]. split; cbn; try done.
    + apply expire_account; [done|lia|by rewrite Hd|done].
    + unfold Zlen in *. rewrite length_delete by by eexists. rewrite Hw in *. cbn in *. lia.
    + by destruct (on_timeout e).
  - destruct (time <=? now); [|done]. by apply deadline_thread_ok; rewrite ?Hd.
  - destruct throws; [done|]. split; cbn; try done; [by apply callback_account|].
    intros Hs. destruct (As Hs) as (? & ? & _). done.
Qed.

(** ** Stop *)

Lemma map_wake_woke ws : Forall2 woke ws (map wake ws).
Proof. induction ws as [|[] ws IH]; cbn; repeat constructor; done. Qed.

Lemma stop_ok inside p : pool_ok p → good (stop inside p).
Proof.
  intros I. unfold stop. destruct inside; [done|]. case_bool_decide as Hl; cbn [negb]; [|done].
  case_bool_decide as Hst; [done|]. pose proof I as [A L Q WQ W Cr N As Aw R D Ex In Ca Li St].
  pose proof (map_wake_woke (_threads p)) as Hwoke. split; cbn; try done.
  - by apply (stop_account p LStopInline).
  - apply L.
  - intros E%map_eq_nil. destruct (N E) as (? & -> & ->). done.
  - intros _. split; [|split; [|by destruct (_deadline_thread p)]].
    + intros ([] & ? & _)%list_elem_of_fmap; done.
    + intros t ([] & ? & _)%list_elem_of_fmap; done.
  - intros Hq. eapply woke_awake; [done|by apply Aw].
  - intros t ([] & ? & _)%list_elem_of_fmap; done.
  - destruct (_deadline_thread p); try done. intros Hn. apply D. intros E. by rewrite E in Hn.
  - intros E%(woke_exited _ _ Hwoke). by destruct (Ex E).
  - intros Hi. by rewrite (Ca Hi).
Qed.

Lemma stop_inline_ok p : pool_ok p → good (stop_inline p).
Proof.
  intros [A L Q WQ W Cr N As Aw R D Ex In Ca Li St]. unfold stop_inline.
  case_bool_decide as Hl; [|done]. destruct (_active_inline_tasks p =? 0) eqn:Hz; [|done]. cbn [andb].
  rewrite Hl in Li, Cr, St. split; cbn; try done.
  - by apply (same_account p).
  - intros Hs. by destruct (Cr Hs) as (_ & _ & ?).
  - split; [done|]. destruct (inline_tasks p); [done|]. rewrite Zlen_cons in In. pose proof (Zlen_nonneg l). lia.
  - intros Hs. by destruct (St Hs) as (_ & _ & ?).
Qed.

Lemma all_exited_spec p : all_exited p = true →
  (∀ w, w ∈ _threads p → w = WExited) ∧ (_deadline_thread p = DNone ∨ _deadline_thread p = DExited).
Proof.
  unfold all_exited. rewrite andb_true_iff, orb_true_iff, !bool_decide_eq_true, forallb_forall. intros [He ?]. split; [|done].
  intros w Hw. apply list_elem_of_In, He in Hw. by apply bool_decide_eq_true in Hw.
Qed.

Lemma stop_join_ok p : pool_ok p → good (stop_join p).
Proof.
  intros I. pose proof I as [A L Q WQ W Cr N As Aw R D Ex In Ca Li St]. unfold stop_join.
  case_bool_decide as Hl; [|done]. destruct (all_exited p) eqn:He; [|done]. cbn [andb]. rewrite Hl in Li. destruct Li as [Hs Hi].
  rewrite Hs in *. split; cbn; try done; [by apply (same_account p)|..].
  - intros Hw. by destruct (W Hw).
  - intros _. by apply As.
  - by destruct (_deadline_thread p).
  - intros E. by destruct (Ex E).
Qed.

(** ** Start *)

(** Goals about members of the empty list. *)
Ltac no_members :=
  intros; repeat split; intros; first [done | apply not_elem_of_nil
    | exfalso; match goal with H : _ ∈ [] |- _ => by apply not_elem_of_nil in H end].

Lemma config_ok n m cb p :
  pool_ok p → 0 <= n → 0 <= m → _state p = k_created → pool_ok (set_config n m cb p).
Proof.
  intros [A L Q WQ W Cr N As Aw R D Ex In Ca Li St] Hn Hm Hs. destruct (Cr Hs) as (Ht & Hi & Hl). destruct (N Ht) as (Hq & Hss & Hd).
  assert (_waiters p = []) as Hw by (destruct (_waiters p); [done|]; destruct W; [done|congruence]).
  split; cbn; rewrite ?Ht, ?Hq, ?Hss, ?Hd, ?Hw, ?Hi, ?Hl in *; try done; try no_members.
  by apply (same_account p).
Qed.

Lemma pool_start_ok inside n ok p : pool_ok p → good (start inside n ok p).
Proof.
  intros I. unfold start. destruct (n <? 0) eqn:Hn0; [done|]. destruct inside; [done|].
  case_bool_decide as Hl; cbn [negb]; [|done]. case_bool_decide as Hs; cbn [negb]; [|done].
  pose proof I as [A L Q WQ W Cr N As Aw R D Ex In Ca Li St]. destruct (Cr Hs) as (Ht & Hi & _). destruct (N Ht) as (Hq & Hss & Hd).
  assert (_waiters p = []) as Hw by (destruct (_waiters p); [done|]; destruct W; [done|congruence]).
  destruct ok; cbn [negb].
  2:{ split; cbn; rewrite ?Ht, ?Hq, ?Hss, ?Hd, ?Hw, ?Hi in *; try done; try (by apply (same_account p)); try no_members.
      intros _. split; [|done]. unfold all_exited. cbn. by rewrite Ht, Hd. }
  cbv zeta. set (t := if (0 <? n) && _ then DReady else DNone).
  assert (∀ l, match l with LStarting => n = 0 | LFree => True | _ => False end →
    pool_ok (set_state k_running l (set_threads (replicate (Z.to_nat n) WInit) t (submitters p) p))) as Hgo.
  { intros l Hlife.
    assert (∀ w, w ∈ replicate (Z.to_nat n) WInit → w = WInit) as Hin by (intros w [-> _]%elem_of_replicate; done).
    split; cbn; rewrite ?Hq, ?Hss, ?Hw, ?Hi in *; try done.
    - rewrite <-Hss. apply start_account; [done|by rewrite Hd| |done]. unfold t. by destruct (_ && _).
    - intros E. split; [done|]. split; [done|]. unfold t. destruct (0 <? n) eqn:Hpos; [|done].
      destruct (Z.to_nat n) eqn:En; [lia|done].
    - unfold t. destruct (0 <? n) eqn:Hpos; cbn [andb].
      + destruct (0 <? _max_wait_queue_size p) eqn:Hmw; [done|]. intros _. lia.
      + intros Hne. exfalso. apply Hne. by replace (Z.to_nat n) with 0%nat by lia.
    - intros E%Hin. done.
    - destruct l; try done. split; [done|]. by subst. }
  destruct ((n =? 0) && _) eqn:E; apply Hgo; [|done]. apply andb_true_iff in E as [E _]. lia.
Qed.

Lemma init_done_ok ok p : pool_ok p → good (init_done ok p).
Proof.
  intros I. unfold init_done. case_bool_decide as Hl; cbn [negb]; [|done].
  pose proof I as [A L Q WQ W Cr N As Aw R D Ex In Ca Li St]. rewrite Hl in *. destruct Li as [Hs Ht]. destruct (N Ht) as (Hq & Hss & Hd).
  destruct ok; split; cbn; rewrite ?Hs, ?Ht, ?Hq, ?Hss, ?Hd in *; try done; try (by apply (same_account p)); try no_members.
  intros Hw. destruct (W Hw) as [Hf _]. apply full_spec in Hf as [? Hf]. rewrite Hq, Zlen_nil in Hf. lia.
Qed.

(** ** Every step *)

Lemma spurious_submitter_ok k task p :
  pool_ok p → submitters p !! k = Some (task, false) → pool_ok (set_submitters (<[k := (task, true)]> (submitters p)) p).
Proof.
  intros I Hk. apply submitters_ok; [done|..].
  - intros Hn. destruct (pk_none p I Hn) as (_ & E & _). by rewrite E.
  - intros Hs t Ht%insert_asleep. destruct (pk_asleep p I Hs) as (_ & Ha & _). by apply (Ha t).
  - intros t Ht%insert_asleep. destruct (pk_room p I t Ht) as [? ?]. split; [done|].
    rewrite (woken_insert k (task, false)) by done. cbn. lia.
Qed.

Lemma pool_step_ok e p : pool_ok p → good (pool_step e p).
Proof.
  intros I. pose proof (pk_limits p I) as [H1 H2].
  destruct e; cbn [pool_step];
    [..|destruct (_threads p !! i) as [[]|] eqn:Hi; try done
       |destruct (submitters p !! k) as [[task []]|] eqn:Hk; try done|].
  - unfold set_max_queue_size. destruct (n <? 0) eqn:E; [done|]. case_bool_decide; [|done]. apply config_ok; [done|lia..|done].
  - unfold set_max_wait_queue_size. destruct (n <? 0) eqn:E; [done|]. case_bool_decide; [|done]. apply config_ok; [done|lia..|done].
  - unfold set_thread_init_cb. case_bool_decide; [|done]. by apply config_ok.
  - by apply pool_start_ok.
  - by apply init_done_ok.
  - by apply run_ok.
  - by apply run_woken_ok.
  - by apply try_run_ok.
  - by apply finish_inline_ok.
  - by apply submit_async_ok.
  - by apply pool_work_ok.
  - by apply deadline_loop_ok.
  - by apply stop_ok.
  - by apply stop_inline_ok.
  - by apply stop_join_ok.
  - eapply (worker_ok i _ _ [] []); [done|done| |by left|..]; try done. eapply idle_account; [done..|by apply pk_account].
  - by apply spurious_submitter_ok.
  - destruct (decide (wake_deadline (_deadline_thread p) = _deadline_thread p)) as [E|E].
    + cbn. rewrite E. by destruct p.
    + destruct (decide (_threads p = [])) as [Hn|Hn]; [destruct (pk_none p I Hn) as (_ & _ & Hd); by rewrite Hd in E|].
      apply deadline_thread_ok; try done; destruct (_deadline_thread p) eqn:Hd; try done;
        intros Hs; destruct (pk_stopped p I Hs) as (He & _); apply all_exited_spec in He as [_ [?|?]]; congruence.
Qed.

Lemma pool_run_ok es p p' : pool_ok p → pool_run es p = Some p' → pool_ok p'.
Proof.
  revert p. induction es as [|e es IH]; intros p I; cbn [pool_run]; [by intros [= <-]|].
  pose proof (pool_step_ok e p I) as Hs. destruct (pool_step e p); cbn in Hs; try done; by apply IH.
Qed.
