(* ===== verification/PoolClaims.v ===== *)
(** What the thread pool ([ThreadPool.v]) promises: it accounts for every task, its
    threads do not sleep through their work, and [stop] comes to its end. *)

From S2P Require Import Prelude ThreadPool PoolAccount PoolSafety.
#[local] Open Scope tlss_scope.

(** ** Tasks *)

Lemma tally_fmap {A} (f : A → list Z) (g : A → Z) x l : (∀ a, f a = [g a]) → tally f x l = cnt x (g <$> l).
Proof. intros H. induction l as [|a l IH]; [done|]. rewrite tally_cons, IH, H. symmetry. apply cnt_cons. Qed.

(** Where the tasks are that were accepted. *)
Definition places (p : Pool) : list Z :=
  finished p ++ (_threads p ≫= worker_task) ++ inline_tasks p ++ _queue p ++ (pt_task <$> _waiters p)
  ++ ((λ e, pt_task e.1) <$> expired p) ++ (pt_task <$> dropped p).

Lemma account_places p : account p → accepted p ≡ₚ places p.
Proof.
  intros [T _ _ _]. apply cnt_permutation. intros x. rewrite T. unfold places. rewrite !cnt_app.
  rewrite !(tally_fmap pending_id pt_task) by done. rewrite (tally_fmap expired_id (λ e, pt_task e.1)) by done.
  fold (tally worker_task x (_threads p)). lia.
Qed.

Lemma account_calls p : account p →
  callbacks_of (expired p) ≡ₚ called p ++ (_threads p ≫= worker_calls) ++ deadline_calls (_deadline_thread p).
Proof.
  intros [_ C _ _]. apply cnt_permutation. intros x. rewrite callbacks_tally, C, !cnt_app.
  fold (tally worker_calls x (_threads p)). lia.
Qed.

(** C17. Under every interleaving of callers, workers, the deadline thread and [stop],
    every task the pool has accepted is in exactly one place: finished, in a worker, in
    its caller, queued, waiting, expired or dropped by [stop], which drops only tasks
    that wait. Tasks are taken in the order in which they entered the queue; the queue
    and the waiting tasks keep to their limits; a task expires only after its deadline,
    and the callbacks called or about to be called are those of the expired tasks, one
    for each. *)
Theorem pool_accounts_for_tasks es p :
  pool_run es new_pool = Some p →
  accepted p ≡ₚ places p
  ∧ enqueued p = taken p ++ _queue p
  ∧ (0 < _max_queue_size p → ♯(_queue p) <= _max_queue_size p) ∧ ♯(_waiters p) <= _max_wait_queue_size p
  ∧ Forall (λ e, deadline e.1 <= e.2) (expired p)
  ∧ callbacks_of (expired p) ≡ₚ called p ++ (_threads p ≫= worker_calls) ++ deadline_calls (_deadline_thread p).
Proof.
  intros Hp. pose proof (pool_run_ok es _ p new_pool_ok Hp) as I. pose proof (pk_account p I) as A.
  split; [by apply account_places|]. split; [apply A|]. split; [apply I|]. split; [apply I|]. split; [apply A|].
  by apply account_calls.
Qed.

(** ** Wake-ups *)

(** C37. No wake-up that matters is lost while the pool runs: when a task is queued some
    worker is not asleep; when a caller sleeps in [run], every free place of the queue is
    matched by a caller that was woken and has not gone on yet; and when a task waits, the
    queue is full and the deadline thread is awake, or sleeps no longer than to the
    earliest deadline. *)
Theorem pool_wakes_for_work es p :
  pool_run es new_pool = Some p → _state p = k_running →
  (_queue p ≠ [] → ∃ w, w ∈ _threads p ∧ w ≠ WAsleep ∧ w ≠ WExited)
  ∧ (∀ t, (t, false) ∈ submitters p → _max_queue_size p - ♯(_queue p) <= woken (submitters p))
  ∧ ∀ w, w ∈ _waiters p → is_full p = true
      ∧ match _deadline_thread p with
        | DReady | DCallback _ => True
        | DUntil time => time <= deadline w
        | _ => False
        end.
Proof.
  intros Hp Hs. pose proof (pool_run_ok es _ p new_pool_ok Hp) as I. split; [|split].
  - intros Hq. pose proof (pk_awake p I Hq) as (w & Hw & Ha)%Exists_exists. exists w. split; [done|]. split; [done|].
    intros ->. by destruct (pk_exited p I Hw).
  - intros t Ht. destruct (pk_room p I t Ht). lia.
  - intros w Hw. assert (_waiters p ≠ []) as Hne by (intros E; rewrite E in Hw; by apply not_elem_of_nil in Hw).
    destruct (pk_waiters p I Hne) as [Hf _]. split; [done|]. pose proof (pk_deadline p I) as D.
    pose proof (pk_none p I) as N. pose proof (pk_wait_queue p I) as WQ.
    destruct (_deadline_thread p) as [| | |time| |]; try done; [|by eapply (proj1 (Forall_forall _ _) D)].
    destruct (decide (_threads p = [])) as [Hn|Hn].
    + destruct (N Hn) as (E & _ & _). apply full_spec in Hf as [? Hf]. rewrite E, Zlen_nil in Hf. lia.
    + rewrite (D Hn) in WQ. destruct (_waiters p); [done|]. rewrite Zlen_cons in WQ. pose proof (Zlen_nonneg l). lia.
Qed.

(** A task that waited enters the queue without a notification: a worker sleeps on while
    the task stays in the queue, until the other worker has finished its own. *)
Definition idle_events : list PEvent :=
  [PMaxQueue 1; PMaxWait 1; PStart false 2 true; PWork 0 [] 0 false; PWork 1 [] 0 false; PWork 0 [] 0 false;
   PWork 1 [] 0 false; PRun false 0 (Some 10); PSubmitAsync 0 (Some 11) 100 5 true; PWork 0 [6] 0 false; PWork 0 [] 0 false].

Theorem queued_task_idle_worker :
  ∃ p, pool_run idle_events new_pool = Some p ∧ _queue p = [11] ∧ _threads p = [WRunning 10; WAsleep].
Proof. eexists. split; [vm_compute; reflexivity|]. split; reflexivity. Qed.

(** ** Stop *)

(** Steps that [stop] waits for: threads that go on without exceptions, and its own. *)
Definition is_wind_down (e : PEvent) : bool :=
  match e with
  | PInlineEnd _ throws | PWork _ _ _ throws | PDeadline _ throws => negb throws
  | PStopInline | PStopJoin => true
  | _ => false
  end.

Definition weight (w : Worker) : nat :=
  match w with
  | WInit => 2 | WReady => 1 | WAsleep => 0 | WCallbacks c _ => 3 + length c | WRunning _ => 2 | WExited => 0
  end.
Definition deadline_weight (t : DeadlineThread) : nat := match t with DReady => 1 | DCallback _ => 2 | _ => 0 end.

(** How many steps are left. *)
Definition remaining_steps (p : Pool) : nat :=
  (3 * length (_queue p) + sum_list_with weight (_threads p) + deadline_weight (_deadline_thread p)
   + length (inline_tasks p) + (if decide (lifecycle p = LStopInline) then 1 else 0))%nat.

Lemma weight_insert ws i w w' : ws !! i = Some w →
  (sum_list_with weight (<[i := w']> ws) + weight w = sum_list_with weight ws + weight w')%nat.
Proof.
  intros Hi. rewrite <-(take_drop_middle ws i w Hi) at 2. rewrite (insert_take_drop ws i w') by (by eapply lookup_lt_Some).
  rewrite !sum_list_with_app. cbn. lia.
Qed.

(** What stays as it is while [stop] waits. *)
Definition stopping (p : Pool) : Prop := lifecycle p = LStopInline ∨ lifecycle p = LStopJoin.
Definition settled (p p' : Pool) : Prop := accepted p' = accepted p ∧ dropped p' = dropped p ∧ expired p' = expired p.

Definition winds (e : PEvent) (p p' : Pool) : Prop :=
  is_wind_down e = true ∧ pool_run [e] p = Some p' ∧ stopping p' ∧ settled p p' ∧ (remaining_steps p' < remaining_steps p)%nat.

Lemma worker_winds i w p :
  pool_ok p → stopping p → _threads p !! i = Some w → w ≠ WExited → ∃ e p', winds e p p'.
Proof.
  intros I Hst Hi Hw. assert (_state p = k_stopping) as Hs.
  { pose proof (pk_life p I) as Li. destruct Hst as [E|E]; rewrite E in Li; [done|by destruct Li]. }
  destruct (pk_asleep p I) as (Has & _ & _); [by rewrite Hs|].
  assert (_waiters p = []) as Hnw by (destruct (_waiters p) eqn:E; [done|]; destruct (pk_waiters p I); [by rewrite E|congruence]).
  exists (PWork i [] 0 false).
  assert (∀ w' fin cal, work i [] 0 false p = PSteps (log [] [] [] fin [] cal [] (set_workers (<[i := w']> (_threads p)) p)) →
    (weight w' < weight w)%nat → ∃ p', winds (PWork i [] 0 false) p p') as Hlog.
  { intros w' fin cal E Hlt. eexists. split; [done|]. cbn [pool_run pool_step]. rewrite E. split; [done|]. split; [exact Hst|].
    split; [split; [|split]; cbn; by rewrite app_nil_r|]. unfold remaining_steps. cbn. pose proof (weight_insert _ i w w' Hi). lia. }
  assert (∀ w', work i [] 0 false p = PSteps (set_workers (<[i := w']> (_threads p)) p) →
    (weight w' < weight w)%nat → ∃ p', winds (PWork i [] 0 false) p p') as Hset.
  { intros w' E Hlt. eexists. split; [done|]. cbn [pool_run pool_step]. rewrite E. split; [done|]. split; [exact Hst|].
    split; [done|]. unfold remaining_steps. cbn. pose proof (weight_insert _ i w w' Hi). lia. }
  unfold work in Hlog, Hset. rewrite Hi in Hlog, Hset.
  destruct w as [| | |[|c rest] task|task|]; rewrite ?andb_false_r in *; try done.
  - by eapply Hset; [done|cbn; lia].
  - destruct (_queue p) as [|task rest] eqn:Hq.
    + eapply (Hset WExited); [|cbn; lia]. unfold take. by rewrite Hq, Hs.
    + eexists. split; [done|]. cbn [pool_run pool_step]. unfold work. rewrite Hi. split; [done|].
      unfold take. rewrite Hq, Hnw. cbn [promote]. cbv zeta. rewrite drop_ge by done.
      set (p1 := set_queue _ _ _). destruct (_ && _);
        (split; [exact Hst|]; split; [split; [|split]; cbn; by rewrite app_nil_r|];
         unfold remaining_steps; cbn; rewrite Hq; cbn; pose proof (weight_insert _ i WReady (WCallbacks [] task) Hi) as Hwt;
         cbn in Hwt; lia).
  - exfalso. apply Has. by eapply list_elem_of_lookup_2.
  - by eapply Hset; [done|cbn; lia].
  - by eapply Hlog; [done|cbn; lia].
  - by eapply Hlog; [done|cbn; lia].
Qed.

Lemma deadline_winds p :
  pool_ok p → stopping p → _deadline_thread p ≠ DNone → _deadline_thread p ≠ DExited → ∃ e p', winds e p p'.
Proof.
  intros I Hst Hn Hx. assert (_state p = k_stopping) as Hs.
  { pose proof (pk_life p I) as Li. destruct Hst as [E|E]; rewrite E in Li; [done|by destruct Li]. }
  destruct (pk_asleep p I) as (_ & _ & Ha); [by rewrite Hs|].
  exists (PDeadline 0 false). destruct (_deadline_thread p) as [| | | |task|] eqn:Hd; try done.
  - eexists. split; [done|]. cbn [pool_run pool_step]. unfold deadline_loop. rewrite Hd, Hs. split; [done|]. split; [exact Hst|].
    split; [done|]. unfold remaining_steps. cbn. rewrite Hd. cbn. lia.
  - eexists. split; [done|]. cbn [pool_run pool_step]. unfold deadline_loop. rewrite Hd. split; [done|]. split; [exact Hst|].
    split; [split; [|split]; cbn; by rewrite app_nil_r|]. unfold remaining_steps. cbn. rewrite Hd. cbn. lia.
Qed.

Lemma inline_winds p : pool_ok p → lifecycle p = LStopInline → ∃ e p', winds e p p'.
Proof.
  intros I Hst. destruct (inline_tasks p) as [|task rest] eqn:Hi.
  - exists PStopInline. eexists. split; [done|]. cbn [pool_run pool_step]. unfold stop_inline.
    rewrite bool_decide_eq_true_2 by done. rewrite (pk_inline p I), Hi. split; [reflexivity|]. split; [by right|]. split; [done|].
    unfold remaining_steps. cbn [lifecycle set_state _queue _threads _deadline_thread inline_tasks].
    rewrite decide_False, decide_True by done. lia.
  - exists (PInlineEnd 0 false). eexists. split; [done|]. cbn [pool_run pool_step]. unfold finish_inline_task. rewrite Hi.
    split; [done|]. split; [by left|]. split; [split; [|split]; cbn; by rewrite app_nil_r|].
    unfold remaining_steps. cbn. rewrite Hi. cbn. lia.
Qed.

(** While [stop] waits and somebody has not ended, a step brings the end nearer. *)
Lemma stop_winds p :
  pool_ok p → stopping p → (lifecycle p = LStopJoin ∧ all_exited p = true) ∨ ∃ e p', winds e p p'.
Proof.
  intros I Hst. destruct (all_exited p) eqn:He.
  - destruct Hst as [Hl|Hl]; [right; by apply inline_winds|by left].
  - right. unfold all_exited in He. apply andb_false_iff in He as [He|He].
    + assert (∃ w, w ∈ _threads p ∧ w ≠ WExited) as (w & [i Hi]%list_elem_of_lookup & Hw).
      { induction (_threads p) as [|w ws IH]; [done|]. cbn in He. apply andb_false_iff in He as [He|He].
        - apply bool_decide_eq_false in He. exists w. split; [by left|done].
        - destruct (IH He) as (x & Hx & ?). exists x. split; [by right|done]. }
      by eapply worker_winds.
    + apply orb_false_iff in He as [H1%bool_decide_eq_false H2%bool_decide_eq_false]. by apply deadline_winds.
Qed.

Lemma pool_run_app es es' p : pool_run (es ++ es') p = p1 ← pool_run es p; pool_run es' p1.
Proof. revert p. induction es as [|e es IH]; intros p; [done|]. cbn. by destruct (pool_step e p). Qed.

Lemma winds_to_the_end p :
  pool_ok p → stopping p →
  ∃ es p', Forall (λ e, is_wind_down e = true) es ∧ (length es <= remaining_steps p)%nat ∧ pool_run es p = Some p'
    ∧ pool_ok p' ∧ lifecycle p' = LStopJoin ∧ all_exited p' = true ∧ settled p p'.
Proof.
  remember (remaining_steps p) as n eqn:Hn. revert p Hn. induction n as [n IH] using lt_wf_ind. intros p -> I Hst.
  destruct (stop_winds p I Hst) as [[Hl He]|(e & p1 & Hw & Hr & Hst1 & (S1 & S2 & S3) & Hlt)].
  { exists [], p. split; [done|]. split; [cbn; lia|]. done. }
  destruct (IH _ Hlt p1 eq_refl (pool_run_ok _ _ _ I Hr) Hst1) as (es & p' & Hf & Hlen & Hr' & I' & Hl & He & (T1 & T2 & T3)).
  exists (e :: es), p'. split; [by constructor|]. split; [cbn [length]; lia|].
  split; [change (e :: es) with ([e] ++ es); by rewrite pool_run_app, Hr|].
  split; [done|]. split; [done|]. split; [done|]. split; [congruence|]. split; congruence.
Qed.

(** C19. [stop] does not hang, as long as the tasks themselves end: from every state that
    any interleaving leads to and in which [stop] waits, a bounded number of steps of the
    threads leads to its return. Then every task that had been accepted is finished,
    apart from those that expired and those that were still waiting for the queue when
    [stop] was called; nothing is left in the queue, and the pool accepts nothing more. *)
Theorem pool_stop_completes es p :
  pool_run es new_pool = Some p → stopping p →
  ∃ es' p', Forall (λ e, is_wind_down e = true) es' ∧ (length es' <= S (remaining_steps p))%nat
    ∧ pool_run es' p = Some p' ∧ _state p' = k_stopped
    ∧ accepted p ≡ₚ finished p' ++ ((λ e, pt_task e.1) <$> expired p) ++ (pt_task <$> dropped p)
    ∧ ∀ inside pick task, run inside pick (Some task) p' = PReturns false (reject p').
Proof.
  intros Hp Hst. pose proof (pool_run_ok es _ p new_pool_ok Hp) as I.
  destruct (winds_to_the_end p I Hst) as (es' & p1 & Hf & Hlen & Hr & I1 & Hl & He & (S1 & S2 & S3)).
  exists (es' ++ [PStopJoin]), (set_state k_stopped LFree p1).
  split; [apply Forall_app; split; [done|by constructor]|]. split; [rewrite length_app; cbn [length]; lia|].
  split; [rewrite pool_run_app, Hr; cbn; unfold stop_join; by rewrite Hl, He|]. split; [done|]. split; [|done].
  rewrite <-S1, <-S2, <-S3, (account_places p1) by by apply pk_account. unfold places. cbn.
  pose proof (pk_life p1 I1) as Li. rewrite Hl in Li. destruct Li as [Hs Hi].
  assert (_waiters p1 = []) as Hw by (destruct (_waiters p1) eqn:E; [done|]; destruct (pk_waiters p1 I1); [by rewrite E|congruence]).
  apply all_exited_spec in He as [He _].
  assert (_threads p1 ≫= worker_task = []) as ->.
  { clear -He. induction (_threads p1) as [|w ws IH]; [done|]. cbn. rewrite (He w) by by left. apply IH. intros x Hx. apply He. by right. }
  assert (_queue p1 = []) as ->.
  { destruct (_threads p1) as [|w ws] eqn:E; [by apply (pk_none p1 I1)|]. apply (pk_exited p1 I1).
    rewrite E, (He w) by by left. by left. }
  by rewrite Hi, Hw.
Qed.

(** ** Witnesses *)

(** Two workers, one place in the queue and one to wait in; a caller that sleeps in
    [run], a task that expires, and a stop with a task in the queue. *)
Definition busy_events : list PEvent :=
  idle_events ++ [PSubmitAsync 0 (Some 12) 8 7 true; PRun false 0 (Some 13); PDeadline 9 false; PDeadline 9 false;
                  PSpuriousWorker 1; PWork 1 [] 0 false; PRunWoken 0 0].

Lemma pool_accounts_for_tasks_witness :
  ∃ p, pool_run busy_events new_pool = Some p ∧ accepted p = [10; 11; 12; 13] ∧ called p = [12] ∧ taken p = [10; 11]
    ∧ _queue p = [13] ∧ accepted p ≡ₚ places p.
Proof.
  assert (∃ p, pool_run busy_events new_pool = Some p ∧ accepted p = [10; 11; 12; 13] ∧ called p = [12] ∧ taken p = [10; 11]
    ∧ _queue p = [13]) as (p & Hp & H1 & H2 & H3 & H4) by (eexists; split; [vm_compute; reflexivity|]; repeat split).
  exists p. destruct (pool_accounts_for_tasks busy_events p Hp) as (Hplaces & _). by repeat split.
Defined.

Lemma pool_wakes_for_work_witness :
  ∃ p, pool_run idle_events new_pool = Some p ∧ _queue p ≠ [] ∧ ∃ w, w ∈ _threads p ∧ w ≠ WAsleep ∧ w ≠ WExited.
Proof.
  assert (∃ p, pool_run idle_events new_pool = Some p ∧ _state p = k_running ∧ _queue p = [11]) as (p & Hp & Hs & Hq)
    by (eexists; split; [vm_compute; reflexivity|]; by split).
  exists p. split; [exact Hp|]. assert (_queue p ≠ []) as Hne by by rewrite Hq. split; [exact Hne|].
  exact (proj1 (pool_wakes_for_work idle_events p Hp Hs) Hne).
Defined.

Lemma pool_stop_completes_witness :
  ∃ p, pool_run (busy_events ++ [PStop false]) new_pool = Some p ∧ _queue p = [13]
    ∧ ∃ es' p', pool_run es' p = Some p' ∧ _state p' = k_stopped ∧ [10; 11; 12; 13] ≡ₚ finished p' ++ [12].
Proof.
  assert (∃ p, pool_run (busy_events ++ [PStop false]) new_pool = Some p ∧ lifecycle p = LStopInline ∧ _queue p = [13]
    ∧ accepted p = [10; 11; 12; 13] ∧ (λ e, pt_task e.1) <$> expired p = [12] ∧ dropped p = []) as (p & Hp & Hl & Hq & Ha & He & Hd)
    by (eexists; split; [vm_compute; reflexivity|]; by repeat split).
  exists p. split; [exact Hp|]. split; [exact Hq|].
  destruct (pool_stop_completes _ p Hp (or_introl Hl)) as (es' & p' & _ & _ & Hr & Hs & Hall & _).
  rewrite Ha, He, Hd, app_nil_r in Hall. by exists es', p'.
Defined.
