(* ===== verification/StorageSchema.v ===== *)
(** What the storage service reports: its counters ([inc/observability/storage_metrics.h])
    and the modules, keys and names under which they and the alarms are registered
    ([src/observability/storage_monitor_schema.cpp], [inc/observability/storage_monitor_schema.h]). *)

From Stdlib Require Import String.
From S2P Require Import Prelude FileSystem MonitorData ModuleRegistry.
#[local] Open Scope tlss_scope.

Inductive Metric :=
  | service_state | connections | commands_rejected | login_success | login_invalid | auth_backend_failures |
    signup_success | signup_failed | auth_queue_timeouts | upload_started | upload_active | upload_committed |
    upload_failed | upload_cancelled | download_started | download_active | download_completed |
    download_failed | download_cancelled | metadata_queries_failed | metadata_writes_failed | cache_requests |
    cache_hits | cache_loads | object_published | object_publish_failed | object_open_failed |
    verification_failed | worker_queue | worker_waiting | worker_rejected | worker_timeouts | db_total |
    db_idle | db_borrowed | db_waiters | db_failures | disk_active | disk_rejected | resource_disk_total_mib |
    resource_disk_used_mib | resource_disk_available_mib | resource_disk_percent | resource_inode_percent |
    resource_readonly | resource_disk_valid | resource_memory_total_mib | resource_memory_available_mib |
    resource_memory_percent | resource_rss_mib | resource_peak_rss_mib | resource_virtual_mib |
    resource_memory_valid | resource_sequence | heartbeat | uptime_seconds | udp_failures | alarm_failures |
    overflow | resource_inode_valid.
#[export] Instance Metric_eq_dec : EqDecision Metric.
Proof. solve_decision. Defined.

(** In the order of the enumeration. *)
Definition all_metrics : list Metric :=
  [service_state; connections; commands_rejected; login_success; login_invalid; auth_backend_failures;
   signup_success; signup_failed; auth_queue_timeouts; upload_started; upload_active; upload_committed;
   upload_failed; upload_cancelled; download_started; download_active; download_completed; download_failed;
   download_cancelled; metadata_queries_failed; metadata_writes_failed; cache_requests; cache_hits; cache_loads;
   object_published; object_publish_failed; object_open_failed; verification_failed; worker_queue;
   worker_waiting; worker_rejected; worker_timeouts; db_total; db_idle; db_borrowed; db_waiters; db_failures;
   disk_active; disk_rejected; resource_disk_total_mib; resource_disk_used_mib; resource_disk_available_mib;
   resource_disk_percent; resource_inode_percent; resource_readonly; resource_disk_valid;
   resource_memory_total_mib; resource_memory_available_mib; resource_memory_percent; resource_rss_mib;
   resource_peak_rss_mib; resource_virtual_mib; resource_memory_valid; resource_sequence; heartbeat;
   uptime_seconds; udp_failures; alarm_failures; overflow; resource_inode_valid].

Definition metric_count : Z := ♯all_metrics.

Fixpoint index_of (m : Metric) (l : list Metric) : nat :=
  match l with [] => 0 | x :: l => if decide (x = m) then 0 else S (index_of m l) end.
(** The value of an enumerator. *)
Definition metric_index (m : Metric) : nat := index_of m all_metrics.

(** ** Counters *)

(** [values_]; an update is one atomic exchange. *)
#[local] Abbreviation StorageMetrics := (list Z).
Definition new_metrics : StorageMetrics := replicate (length all_metrics) 0.

Definition metric_get (s : StorageMetrics) (m : Metric) : Z := default 0 (s !! metric_index m).
Definition metric_set (s : StorageMetrics) (m : Metric) (value : Z) : StorageMetrics := <[metric_index m := value]> s.
Definition metric_add (s : StorageMetrics) (m : Metric) (amount : Z) : StorageMetrics :=
  let current := metric_get s m in
  metric_set s m (if UINT64_MAX - current <? amount then UINT64_MAX else current + amount).
Definition metric_subtract (s : StorageMetrics) (m : Metric) (amount : Z) : StorageMetrics :=
  let current := metric_get s m in
  metric_set s m (if current <? amount then 0 else current - amount).

(** ** The schema *)

Record MetricDefinition := mkMetric { def_metric : Metric; def_module_id : Z; def_event_id : Z; def_name : bytes }.

Inductive ResourceAlarm :=
  | disk_high | disk_critical | inode_high | readonly | memory_high | sampling_failure | worker_congestion
  | database_failures | metadata_failures.
Definition all_alarms : list ResourceAlarm :=
  [disk_high; disk_critical; inode_high; readonly; memory_high; sampling_failure; worker_congestion;
   database_failures; metadata_failures].
#[export] Instance ResourceAlarm_eq_dec : EqDecision ResourceAlarm.
Proof. solve_decision. Defined.
Definition alarm_index (a : ResourceAlarm) : Z :=
  match a with
  | disk_high => 0 | disk_critical => 1 | inode_high => 2 | readonly => 3 | memory_high => 4
  | sampling_failure => 5 | worker_congestion => 6 | database_failures => 7 | metadata_failures => 8
  end.

Definition metric_definitions : list MetricDefinition :=
  [mkMetric service_state 0x1000 0 (literal "service_state");
   mkMetric connections 0x1000 1 (literal "connections");
   mkMetric commands_rejected 0x1000 2 (literal "commands_rejected");
   mkMetric login_success 0x1001 0 (literal "login_success");
   mkMetric login_invalid 0x1001 1 (literal "login_invalid");
   mkMetric auth_backend_failures 0x1001 2 (literal "auth_backend_failures");
   mkMetric signup_success 0x1001 3 (literal "signup_success");
   mkMetric signup_failed 0x1001 4 (literal "signup_failed");
   mkMetric auth_queue_timeouts 0x1001 5 (literal "auth_queue_timeouts");
   mkMetric upload_started 0x1002 0 (literal "upload_started");
   mkMetric upload_active 0x1002 1 (literal "upload_active");
   mkMetric upload_committed 0x1002 2 (literal "upload_committed");
   mkMetric upload_failed 0x1002 3 (literal "upload_failed");
   mkMetric upload_cancelled 0x1002 4 (literal "upload_cancelled");
   mkMetric download_started 0x1003 0 (literal "download_started");
   mkMetric download_active 0x1003 1 (literal "download_active");
   mkMetric download_completed 0x1003 2 (literal "download_completed");
   mkMetric download_failed 0x1003 3 (literal "download_failed");
   mkMetric download_cancelled 0x1003 4 (literal "download_cancelled");
   mkMetric metadata_queries_failed 0x1004 0 (literal "metadata_queries_failed");
   mkMetric metadata_writes_failed 0x1004 1 (literal "metadata_writes_failed");
   mkMetric cache_requests 0x1004 2 (literal "cache_requests");
   mkMetric cache_hits 0x1004 3 (literal "cache_hits");
   mkMetric cache_loads 0x1004 4 (literal "cache_loads");
   mkMetric object_published 0x1005 0 (literal "object_published");
   mkMetric object_publish_failed 0x1005 1 (literal "object_publish_failed");
   mkMetric object_open_failed 0x1005 2 (literal "object_open_failed");
   mkMetric verification_failed 0x1005 3 (literal "verification_failed");
   mkMetric worker_queue 0x1006 0 (literal "worker_queue");
   mkMetric worker_waiting 0x1006 1 (literal "worker_waiting");
   mkMetric worker_rejected 0x1006 2 (literal "worker_rejected");
   mkMetric worker_timeouts 0x1006 3 (literal "worker_timeouts");
   mkMetric db_total 0x1007 0 (literal "db_total");
   mkMetric db_idle 0x1007 1 (literal "db_idle");
   mkMetric db_borrowed 0x1007 2 (literal "db_borrowed");
   mkMetric db_waiters 0x1007 3 (literal "db_waiters");
   mkMetric db_failures 0x1007 4 (literal "db_failures");
   mkMetric disk_active 0x1008 0 (literal "disk_active");
   mkMetric disk_rejected 0x1008 1 (literal "disk_rejected");
   mkMetric resource_disk_total_mib 0x1009 0 (literal "resource_disk_total_mib");
   mkMetric resource_disk_used_mib 0x1009 1 (literal "resource_disk_used_mib");
   mkMetric resource_disk_available_mib 0x1009 2 (literal "resource_disk_available_mib");
   mkMetric resource_disk_percent 0x1009 3 (literal "resource_disk_percent");
   mkMetric resource_inode_percent 0x1009 4 (literal "resource_inode_percent");
   mkMetric resource_readonly 0x1009 5 (literal "resource_readonly");
   mkMetric resource_disk_valid 0x1009 6 (literal "resource_disk_valid");
   mkMetric resource_memory_total_mib 0x1009 7 (literal "resource_memory_total_mib");
   mkMetric resource_memory_available_mib 0x1009 8 (literal "resource_memory_available_mib");
   mkMetric resource_memory_percent 0x1009 9 (literal "resource_memory_percent");
   mkMetric resource_rss_mib 0x1009 10 (literal "resource_rss_mib");
   mkMetric resource_peak_rss_mib 0x1009 11 (literal "resource_peak_rss_mib");
   mkMetric resource_virtual_mib 0x1009 12 (literal "resource_virtual_mib");
   mkMetric resource_memory_valid 0x1009 13 (literal "resource_memory_valid");
   mkMetric resource_sequence 0x1009 14 (literal "resource_sequence");
   mkMetric heartbeat 0x100a 0 (literal "heartbeat");
   mkMetric uptime_seconds 0x100a 1 (literal "uptime_seconds");
   mkMetric udp_failures 0x100a 2 (literal "udp_failures");
   mkMetric alarm_failures 0x100a 3 (literal "alarm_failures");
   mkMetric overflow 0x100a 4 (literal "overflow");
   mkMetric resource_inode_valid 0x1009 15 (literal "resource_inode_valid")].

Definition info (name : string) : MonitorErrorInfo := mkError INFO (literal name).

Definition storage_modules : list MonitorModuleInfo :=
  [mkModule 0x1000 (literal "service") (literal "storage service")
     [info "service_state"; info "connections"; info "commands_rejected"];
   mkModule 0x1001 (literal "auth") (literal "storage auth")
     [info "login_success"; info "login_invalid"; info "auth_backend_failures"; info "signup_success";
      info "signup_failed"; info "auth_queue_timeouts"];
   mkModule 0x1002 (literal "upload") (literal "storage upload")
     [info "upload_started"; info "upload_active"; info "upload_committed"; info "upload_failed";
      info "upload_cancelled"];
   mkModule 0x1003 (literal "download") (literal "storage download")
     [info "download_started"; info "download_active"; info "download_completed"; info "download_failed";
      info "download_cancelled"];
   mkModule 0x1004 (literal "metadata") (literal "storage metadata")
     [info "metadata_queries_failed"; info "metadata_writes_failed"; info "cache_requests"; info "cache_hits";
      info "cache_loads"];
   mkModule 0x1005 (literal "object_storage") (literal "storage object_storage")
     [info "object_published"; info "object_publish_failed"; info "object_open_failed";
      info "verification_failed"];
   mkModule 0x1006 (literal "worker_pool") (literal "storage worker_pool")
     [info "worker_queue"; info "worker_waiting"; info "worker_rejected"; info "worker_timeouts"];
   mkModule 0x1007 (literal "db_pool") (literal "storage db_pool")
     [info "db_total"; info "db_idle"; info "db_borrowed"; info "db_waiters"; info "db_failures"];
   mkModule 0x1008 (literal "disk_executor") (literal "storage disk_executor")
     [info "disk_active"; info "disk_rejected"];
   mkModule 0x1009 (literal "resources") (literal "storage resources")
     [info "resource_disk_total_mib"; info "resource_disk_used_mib"; info "resource_disk_available_mib";
      info "resource_disk_percent"; info "resource_inode_percent"; info "resource_readonly";
      info "resource_disk_valid"; info "resource_memory_total_mib"; info "resource_memory_available_mib";
      info "resource_memory_percent"; info "resource_rss_mib"; info "resource_peak_rss_mib";
      info "resource_virtual_mib"; info "resource_memory_valid"; info "resource_sequence";
      info "resource_inode_valid"];
   mkModule 0x100a (literal "monitor_runtime") (literal "storage monitor_runtime")
     [info "heartbeat"; info "uptime_seconds"; info "udp_failures"; info "alarm_failures"; info "overflow"];
   mkModule 0x1100 (literal "storage_alarms") (literal "storage resource conditions")
     [mkError WARN (literal "disk capacity high"); mkError EMERGENCY_STOP (literal "disk capacity critical");
      mkError WARN (literal "inode capacity high"); mkError EMERGENCY_STOP (literal "filesystem read only");
      mkError WARN (literal "host memory high"); mkError WARN (literal "resource sampling unavailable");
      mkError WARN (literal "business queue congestion"); mkError WARN (literal "database borrow failures");
      mkError WARN (literal "metadata write failures")]].

(** [None] is an exception. *)
Definition metric_key (m : Metric) : option MonitorKey :=
  d ← metric_definitions !! metric_index m;
  Some (mkKey (def_module_id d) 0 1 (def_event_id d)).

Definition alarm_key (a : ResourceAlarm) : option MonitorKey :=
  module ← last storage_modules;
  e ← _module_errors module !! Z.to_nat (alarm_index a);
  Some (mkKey (_module_mid module) (level_code (_elevel e)) 1 (alarm_index a)).

(** Stops at the first module that is refused; an exception is passed on. *)
Fixpoint register_modules (reg : MonitorModuleRegistry) (modules : list MonitorModuleInfo) (allocs : list bool)
    : option bool * MonitorModuleRegistry :=
  match modules with
  | [] => (Some true, reg)
  | m :: rest =>
      match register_module reg m (default true (head allocs)) with
      | (None, reg) => (None, reg)
      | (Some REG_SUCCESS, reg) => register_modules reg rest (tail allocs)
      | (Some _, reg) => (Some false, reg)
      end
  end.
Definition register_storage_modules (reg : MonitorModuleRegistry) (allocs : list bool) : option bool * MonitorModuleRegistry :=
  register_modules reg storage_modules allocs.

(** ** Theorems *)

Lemma metric_lookup m : all_metrics !! metric_index m = Some m.
Proof. by destruct m. Qed.

Lemma metric_index_inj m n : metric_index m = metric_index n → m = n.
Proof. intros E. pose proof (metric_lookup m) as H. rewrite E, metric_lookup in H. by injection H. Qed.

Lemma metric_index_lt m : (metric_index m < length all_metrics)%nat.
Proof. eapply lookup_lt_Some, metric_lookup. Qed.

Lemma metric_get_set s m n value : length s = length all_metrics →
  metric_get (metric_set s m value) n = if decide (m = n) then value else metric_get s n.
Proof.
  intros Hl. unfold metric_get, metric_set. destruct (decide (m = n)) as [->|Hne].
  - rewrite list_lookup_insert_eq; [done|]. rewrite Hl. apply metric_index_lt.
  - rewrite list_lookup_insert_ne; [done|]. intros E. by apply Hne, metric_index_inj.
Qed.

Definition metrics_ok (s : StorageMetrics) : Prop := length s = length all_metrics ∧ Forall is_u64 s.

Lemma metric_set_ok s m value : metrics_ok s → is_u64 value → metrics_ok (metric_set s m value).
Proof. intros [Hl Hs] Hv. split; [unfold metric_set; by rewrite length_insert|]. by apply Forall_insert. Qed.

Lemma metric_get_ok s m : metrics_ok s → is_u64 (metric_get s m).
Proof.
  intros [_ Hs]. unfold metric_get. destruct (s !! metric_index m) as [v|] eqn:E; cbn; [|widlia].
  by eapply Forall_lookup_1.
Qed.

(** An operation on a counter, and what it means for an unbounded one. *)
Inductive metric_op := MAdd (m : Metric) (amount : Z) | MSubtract (m : Metric) (amount : Z).
Definition op_metric (o : metric_op) : Metric := match o with MAdd m _ | MSubtract m _ => m end.
Definition metric_step (s : StorageMetrics) (o : metric_op) : StorageMetrics :=
  match o with MAdd m a => metric_add s m a | MSubtract m a => metric_subtract s m a end.
Definition clamp_step (v : Z) (o : metric_op) : Z :=
  match o with MAdd _ a => Z.min UINT64_MAX (v + a) | MSubtract _ a => Z.max 0 (v - a) end.
Definition amount_ok (o : metric_op) : Prop := match o with MAdd _ a | MSubtract _ a => is_u64 a end.

Lemma metric_step_exact s o m : metrics_ok s → amount_ok o →
  metrics_ok (metric_step s o)
  ∧ metric_get (metric_step s o) m = if decide (op_metric o = m) then clamp_step (metric_get s m) o else metric_get s m.
Proof.
  intros Hs Ho. destruct o as [n a|n a]; cbn [metric_step op_metric amount_ok clamp_step] in *;
    unfold metric_add, metric_subtract; pose proof (metric_get_ok s n Hs) as Hn; unfold UINT64_MAX, is_u64 in *.
  - split; [apply metric_set_ok; [done|]; destruct (_ <? _) eqn:E; widlia|]. rewrite metric_get_set by apply Hs.
    destruct (decide (n = m)) as [->|]; [|done]. destruct (_ <? _) eqn:E; lia.
  - split; [apply metric_set_ok; [done|]; destruct (_ <? _) eqn:E; widlia|]. rewrite metric_get_set by apply Hs.
    destruct (decide (n = m)) as [->|]; [|done]. destruct (_ <? _) eqn:E; lia.
Qed.

(** C39. The counters never wrap: any sequence of additions and subtractions, by any threads,
    leaves each counter at what the same operations on it give when they stop at zero
    and at the largest value; the others are not touched. *)
Theorem metrics_saturate ops m : Forall amount_ok ops →
  let s := fold_left metric_step ops new_metrics in
  metrics_ok s ∧ metric_get s m = fold_left clamp_step (filter (λ o, op_metric o = m) ops) 0.
Proof.
  intros Ho. cbv zeta. assert (∀ s, metrics_ok s → metrics_ok (fold_left metric_step ops s)
    ∧ metric_get (fold_left metric_step ops s) m = fold_left clamp_step (filter (λ o, op_metric o = m) ops) (metric_get s m)) as H.
  { induction Ho as [|o ops Hop _ IH]; intros s Hs; [done|]. cbn [fold_left].
    destruct (metric_step_exact s o m Hs Hop) as [Hs' E]. destruct (IH _ Hs') as [? ->]. split; [done|].
    rewrite filter_cons, E. by destruct (decide (op_metric o = m)). }
  destruct (H new_metrics) as [? ->].
  - split; [done|]. apply Forall_replicate. widlia.
  - split; [done|]. f_equal. by destruct m.
Qed.

Lemma metrics_saturate_witness :
  metric_get (fold_left metric_step [MAdd connections 5; MAdd heartbeat UINT64_MAX; MSubtract connections 7; MAdd heartbeat 3] new_metrics)
    heartbeat = UINT64_MAX.
Proof.
  pose proof (metrics_saturate [MAdd connections 5; MAdd heartbeat UINT64_MAX; MSubtract connections 7; MAdd heartbeat 3] heartbeat) as H.
  destruct H as [_ H]; [repeat constructor; vm_compute; congruence|]. rewrite H. vm_compute. reflexivity.
Defined.

(** The registry after the registration. *)
Definition storage_registry : MonitorModuleRegistry := (register_storage_modules empty_registry []).2.

Definition def_place (d : MetricDefinition) : Z * Z := (def_module_id d, def_event_id d).

Lemma metric_key_inj m n : metric_key m = metric_key n → m = n.
Proof.
  intros H. apply metric_index_inj.
  assert (NoDup (def_place <$> metric_definitions)) as Hnd by (apply (bool_decide_unpack _); vm_compute; exact I).
  assert (∀ x, ∃ d, metric_definitions !! metric_index x = Some d) as Hd.
  { intros x. destruct (metric_definitions !! metric_index x) as [d|] eqn:E; [by exists d|].
    apply lookup_ge_None in E. pose proof (metric_index_lt x). cbn in *. lia. }
  unfold metric_key in H. destruct (Hd m) as [d Hm], (Hd n) as [e Hn]. rewrite Hm, Hn in H. cbn in H.
  apply (proj1 (NoDup_alt _) Hnd _ _ (def_place d)); rewrite list_lookup_fmap; [by rewrite Hm|].
  rewrite Hn. unfold def_place. cbn. congruence.
Qed.

