(* ===== verification/StorageMonitor.v ===== *)
(** The alarms of the storage service ([src/observability/storage_monitor_runtime.cpp],
    [inc/observability/storage_monitor_runtime.h]): thresholds with a hold time and a
    lower level for the recovery, and the tick that feeds them and reports their states.

    Times are nanoseconds of the steady clock; zero is the time point that stands for
    "never". *)

From S2P Require Import Prelude StorageSchema.
#[local] Open Scope tlss_scope.

Definition MS : Z := 1000000.

Record ThresholdConfig := mkThreshold { trigger : Z; recovery : Z; duration : Z (* milliseconds *) }.

Record ThresholdAlarm := mkAlarm { config_ : ThresholdConfig; active_ : bool; pending_since_ : option Z }.

(** The constructor; [None] is an exception. *)
Definition new_alarm (config : ThresholdConfig) : option ThresholdAlarm :=
  if (trigger config <=? recovery config) || (duration config <? 0) then None else Some (mkAlarm config false None).

Definition feed (a : ThresholdAlarm) (value : option Z) (now : Z) : ThresholdAlarm :=
  match value with
  | None => mkAlarm (config_ a) (active_ a) None
  | Some v =>
      let transition := if active_ a then v <=? recovery (config_ a) else trigger (config_ a) <=? v in
      if negb transition then mkAlarm (config_ a) (active_ a) None else
      let since := default now (pending_since_ a) in
      if duration (config_ a) * MS <=? now - since
      then mkAlarm (config_ a) (negb (active_ a)) None
      else mkAlarm (config_ a) (active_ a) (Some since)
  end.

(** ** The tick *)

Record DiskSnapshot := mkDisk {
  disk_valid : bool; disk_inode_valid : bool; disk_readonly : bool; disk_used_percent : Z;
  disk_inode_percent : Z; disk_failures : Z; disk_last_success : Z }.
Record MemorySnapshot := mkMemory {
  memory_valid : bool; memory_used_percent : Z; memory_failures : Z; memory_last_success : Z }.

Record StorageMonitorConfig := mkMonitorConfig {
  resource_stale_after : Z;          (* milliseconds *)
  disk_warning : ThresholdConfig;
  disk_critical_config : ThresholdConfig;
  inode_warning : ThresholdConfig;
  memory_warning : ThresholdConfig
}.

Definition fresh (config : StorageMonitorConfig) (last now : Z) : bool :=
  negb (last =? 0) && (now - last <=? resource_stale_after config * MS).

(** The part of [StorageMonitorRuntime::Impl] that [report_alarms] uses. *)
Record Runtime := mkRuntime {
  config : StorageMonitorConfig;
  has_resources : bool;
  metrics : list Z;
  thresholds : list ThresholdAlarm;
  observed : list bool;
  began : Z;
  previous_db_failures : Z;
  previous_metadata_failures : Z
}.

(** The thresholds that [start] makes; [None] is an exception. *)
Definition threshold_configs (c : StorageMonitorConfig) : list ThresholdConfig :=
  [disk_warning c; disk_critical_config c; inode_warning c; mkThreshold 1 0 0; memory_warning c; mkThreshold 1 0 0;
   mkThreshold 205 128 10000; mkThreshold 1 0 10000; mkThreshold 1 0 10000].
Definition make_thresholds (c : StorageMonitorConfig) : option (list ThresholdAlarm) := mapM new_alarm (threshold_configs c).

(** The readings of a tick, in the order of [ResourceAlarm]. *)
Definition alarm_values (r : Runtime) (disk : DiskSnapshot) (memory : MemorySnapshot) (now : Z) : list (option Z) :=
  let c := config r in
  let disk_fresh := fresh c (disk_last_success disk) now in
  let memory_fresh := fresh c (memory_last_success memory) now in
  let disk_known := has_resources r && disk_valid disk && disk_fresh in
  let stale := negb disk_fresh || negb memory_fresh in
  let usage := if disk_known then Some (disk_used_percent disk) else None in
  [usage;
   usage;
   (if disk_known && disk_inode_valid disk then Some (disk_inode_percent disk) else None);
   (if disk_known then Some (if disk_readonly disk then 1 else 0) else None);
   (if has_resources r && memory_valid memory && memory_fresh then Some (memory_used_percent memory) else None);
   (if negb (has_resources r) then None else
    if disk_valid disk && memory_valid memory && negb stale then Some 0 else
    if (3 <=? disk_failures disk) || (3 <=? memory_failures memory)
       || (stale && (resource_stale_after c * MS <=? now - began r)) then Some 1 else None);
   Some (Z.min (metric_get (metrics r) worker_queue) (2 ^ 32 - 1));
   Some (if previous_db_failures r <? metric_get (metrics r) db_failures then 1 else 0);
   Some (if previous_metadata_failures r <? metric_get (metrics r) metadata_writes_failed then 1 else 0)].

(** The level at or below which a first reading counts as normal. *)
Definition normal_level (c : StorageMonitorConfig) (i : nat) : Z :=
  match i with
  | 0%nat => recovery (disk_warning c)
  | 1%nat => recovery (disk_critical_config c)
  | 2%nat => recovery (inode_warning c)
  | 4%nat => recovery (memory_warning c)
  | 6%nat => 128
  | _ => 0
  end.

(** One round of the loop: the alarm, whether it has been observed, and what is reported. *)
Definition report_one (c : StorageMonitorConfig) (i : nat) (a : ThresholdAlarm) (seen : bool) (value : option Z) (now : Z)
    : ThresholdAlarm * bool * option bool :=
  let a := feed a value now in
  if seen then (a, true, Some (active_ a)) else
  match value with
  | None => (a, false, None)
  | Some v => if negb (active_ a) && (normal_level c i <? v) then (a, false, None) else (a, true, Some (active_ a))
  end.

Fixpoint report_loop (c : StorageMonitorConfig) (i : nat) (alarms : list ThresholdAlarm) (seen : list bool)
    (values : list (option Z)) (now : Z) : list ThresholdAlarm * list bool * list (nat * bool) :=
  match alarms, seen, values with
  | a :: alarms, s :: seen, v :: values =>
      let '(a, s, report) := report_one c i a s v now in
      let '(alarms, seen, reports) := report_loop c (S i) alarms seen values now in
      (a :: alarms, s :: seen, match report with Some b => (i, b) :: reports | None => reports end)
  | _, _, _ => (alarms, seen, [])
  end.

(** [report_alarms]: what is given to [report_error], and the state after the calls;
    [durable] says which of them are kept. *)
Definition report_alarms (r : Runtime) (disk : DiskSnapshot) (memory : MemorySnapshot) (now : Z) (durable : list bool)
    : list (nat * bool) * Runtime :=
  let '(alarms, seen, reports) := report_loop (config r) 0 (thresholds r) (observed r) (alarm_values r disk memory now) now in
  let failures := ♯(filter (λ b, b = false) (take (length reports) durable)) in
  (reports, mkRuntime (config r) (has_resources r) (Nat.iter (Z.to_nat failures) (λ m, metric_add m alarm_failures 1) (metrics r))
              alarms seen (began r) (metric_get (metrics r) db_failures) (metric_get (metrics r) metadata_writes_failed)).

(** ** Thresholds *)

(** A reading and its time; the alarm after a sequence of them. *)
Definition reading : Type := option Z * Z.
Definition feed_all (a : ThresholdAlarm) (rs : list reading) : ThresholdAlarm := fold_left (λ a r, feed a r.1 r.2) rs a.

Definition high (c : ThresholdConfig) (r : reading) : Prop := ∃ v, r.1 = Some v ∧ trigger c <= v.
Definition low (c : ThresholdConfig) (r : reading) : Prop := ∃ v, r.1 = Some v ∧ v <= recovery c.

(** The readings end with ones that satisfy [P], the first of them at least the hold
    time before the last. *)
Definition held (c : ThresholdConfig) (P : reading → Prop) (rs : list reading) : Prop :=
  ∃ before first during, rs = before ++ first :: during ∧ Forall P (first :: during)
    ∧ duration c * MS <= (List.last during first).2 - first.2.

(** When the last run of readings with [P] began. *)
Fixpoint streak (P : reading → bool) (since : option Z) (rs : list reading) : option Z :=
  match rs with
  | [] => since
  | r :: rs => streak P (if P r then Some (default r.2 since) else None) rs
  end.

Definition in_time (rs : list reading) : Prop := StronglySorted (λ a b : reading, a.2 <= b.2) rs.

Definition highb (c : ThresholdConfig) (r : reading) : bool := match r.1 with Some v => trigger c <=? v | None => false end.
Definition lowb (c : ThresholdConfig) (r : reading) : bool := match r.1 with Some v => v <=? recovery c | None => false end.

Lemma highb_spec c r : highb c r = true ↔ high c r.
Proof.
  unfold highb, high. destruct r.1 as [v|]; [|split; [done|by intros (? & ? & _)]].
  rewrite Z.leb_le. split; [intros ?; by exists v|by intros (? & [= <-] & ?)].
Qed.
Lemma lowb_spec c r : lowb c r = true ↔ low c r.
Proof.
  unfold lowb, low. destruct r.1 as [v|]; [|split; [done|by intros (? & ? & _)]].
  rewrite Z.leb_le. split; [intros ?; by exists v|by intros (? & [= <-] & ?)].
Qed.

Lemma streak_app P since rs rs' : streak P since (rs ++ rs') = streak P (streak P since rs) rs'.
Proof. revert since. induction rs as [|r rs IH]; intros since; [done|]. apply IH. Qed.

Lemma streak_all P s rs : Forall (λ r, P r = true) rs → streak P (Some s) rs = Some s.
Proof. induction 1 as [|r rs Hr _ IH]; [done|]. cbn. by rewrite Hr. Qed.

Lemma streak_began P rs s :
  streak P None rs = Some s → ∃ before first during, rs = before ++ first :: during ∧ Forall (λ r, P r = true) (first :: during) ∧ first.2 = s.
Proof.
  revert s. induction rs as [|r rs IH] using rev_ind; intros s; [done|]. rewrite streak_app. cbn.
  destruct (P r) eqn:HP; [|done]. destruct (streak P None rs) as [s0|] eqn:E; cbn; intros [= <-].
  - destruct (IH s0 eq_refl) as (before & first & during & -> & Hall & <-). exists before, first, (during ++ [r]).
    split; [by rewrite <-(assoc_L (++))|]. split; [|done]. change (first :: during ++ [r]) with ((first :: during) ++ [r]).
    apply Forall_app. split; [done|]. by constructor.
  - exists rs, r, []. split; [done|]. split; [by constructor|done].
Qed.

Lemma in_time_app rs rs' a b : in_time (rs ++ rs') → a ∈ rs → b ∈ rs' → a.2 <= b.2.
Proof.
  intros H Ha Hb. induction rs as [|r rs IH]; [by apply not_elem_of_nil in Ha|]. inversion H; subst.
  apply elem_of_cons in Ha as [->|Ha]; [|by apply IH].
  match goal with H : Forall _ (rs ++ rs') |- _ => rewrite Forall_forall in H; apply H end. apply elem_of_app. by right.
Qed.

Lemma in_time_init rs r : in_time (rs ++ [r]) → in_time rs.
Proof.
  induction rs as [|a rs IH]; intros H; [constructor|]. inversion H; subst. constructor; [by apply IH|].
  by match goal with H : Forall _ (rs ++ [r]) |- _ => apply Forall_app in H as [? _] end.
Qed.

Lemma in_time_prefix rs r rs' : in_time (rs ++ (r :: rs')) → in_time (rs ++ [r]).
Proof.
  intros H. change (r :: rs') with ([r] ++ rs') in H. rewrite (assoc_L (++)) in H.
  induction rs' as [|x rs' IH] using rev_ind; [by rewrite app_nil_r in H|]. apply IH.
  rewrite (assoc_L (++)) in H. by apply in_time_init in H.
Qed.

(** A run began no later than what follows. *)
Lemma streak_before P rs r t s : in_time (rs ++ [r]) → t = r.2 → streak P None rs = Some s → s <= t.
Proof.
  intros Ht -> (before & first & during & -> & _ & <-)%streak_began.
  apply (in_time_app (before ++ first :: during) [r]); [done| |by left]. apply elem_of_app. right. by left.
Qed.

(** A run of readings lasts as long as its last one says. *)
Lemma hold_snoc c P Pb rs r :
  (∀ x, Pb x = true ↔ P x) → in_time (rs ++ [r]) →
  held c P (rs ++ [r]) ↔ Pb r = true ∧ duration c * MS <= r.2 - default r.2 (streak Pb None rs).
Proof.
  intros HP Ht. split.
  - intros (before & first & during & E & Hall & Hd). rewrite Forall_cons in Hall. destruct Hall as [Hf Hall].
    destruct during as [|x during _] using rev_ind.
    + apply app_inj_tail in E as [<- <-]. split; [by apply HP|]. cbn in Hd.
      pose proof (λ s, streak_before Pb rs r r.2 s Ht eq_refl) as Hs. destruct (streak Pb None rs) as [s|]; cbn; [specialize (Hs s eq_refl)|]; lia.
    + rewrite app_comm_cons, (assoc_L (++)) in E. apply app_inj_tail in E as [-> ->]. rewrite last_last in Hd.
      apply Forall_app in Hall as [Hall Hr]. rewrite Forall_singleton in Hr. split; [by apply HP|].
      rewrite streak_app. cbn [streak]. rewrite (proj2 (HP first) Hf), streak_all by (eapply Forall_impl; [done|]; intros y; apply HP).
      cbn. rewrite <-(assoc_L (++)) in Ht.
      pose proof (λ s, streak_before Pb before first first.2 s (in_time_prefix _ _ _ Ht) eq_refl) as Hs.
      destruct (streak Pb None before) as [s|]; cbn; [specialize (Hs s eq_refl); lia|done].
  - intros [Hr Hd]. destruct (streak Pb None rs) as [s|] eqn:E; cbn in Hd.
    + destruct (streak_began Pb rs s E) as (before & first & during & -> & Hall & <-).
      exists before, first, (during ++ [r]). split; [by rewrite <-(assoc_L (++))|].
      split; [|rewrite last_last; done]. eapply Forall_impl; [|intros x; apply HP].
      change (first :: during ++ [r]) with ((first :: during) ++ [r]). apply Forall_app. split; [done|by constructor].
    + exists rs, r, []. split; [done|]. split; [constructor; [by apply HP|done]|]. done.
Qed.

Definition flips (c : ThresholdConfig) (active : bool) : reading → Prop := if active then low c else high c.
Definition flipsb (c : ThresholdConfig) (active : bool) : reading → bool := if active then lowb c else highb c.

Lemma flipsb_spec c a r : flipsb c a r = true ↔ flips c a r.
Proof. destruct a; [apply lowb_spec|apply highb_spec]. Qed.

Definition config_valid (c : ThresholdConfig) : Prop := recovery c < trigger c ∧ 0 <= duration c.

Lemma new_alarm_spec c a : new_alarm c = Some a → config_valid c ∧ a = mkAlarm c false None.
Proof.
  unfold new_alarm. destruct (_ || _) eqn:E; [done|]. intros [= <-]. apply orb_false_iff in E as [? ?]. split; [|done].
  split; lia.
Qed.

(** A reading is not both high and low. *)
Lemma flips_other c a r : config_valid c → flipsb c a r = true → flipsb c (negb a) r = false.
Proof. intros [Hc _]. destruct a; cbn; unfold lowb, highb; destruct r.1 as [v|]; try done; lia. Qed.

(** The alarm after one more reading. *)
Lemma feed_step c a rs r :
  config_valid c → in_time (rs ++ [r]) → config_ a = c → pending_since_ a = streak (flipsb c (active_ a)) None rs →
  let a' := feed a r.1 r.2 in
  config_ a' = c ∧ pending_since_ a' = streak (flipsb c (active_ a')) None (rs ++ [r])
  ∧ (active_ a' = negb (active_ a) ∧ held c (flips c (active_ a)) (rs ++ [r])
     ∨ active_ a' = active_ a ∧ ¬ held c (flips c (active_ a)) (rs ++ [r])).
Proof.
  intros Hc Ht Hcfg Hp. cbv zeta. rewrite (hold_snoc c (flips c (active_ a)) (flipsb c (active_ a))) by (done || apply flipsb_spec).
  rewrite <-Hp, streak_app. cbn [streak]. unfold feed. rewrite Hcfg.
  assert (flipsb c (active_ a) r = match r.1 with Some v => if active_ a then v <=? recovery c else trigger c <=? v | None => false end) as Hf.
  { unfold flipsb, lowb, highb. by destruct (active_ a), r.1. }
  destruct r.1 as [v|] eqn:Hv.
  2:{ cbn. rewrite Hf. split; [done|]. split; [done|]. right. split; [done|]. by intros [? _]. }
  rewrite <-Hf. destruct (flipsb c (active_ a) r) eqn:E; cbn [negb].
  - destruct (duration c * MS <=? r.2 - default r.2 (pending_since_ a)) eqn:Hd; cbn [config_ active_ pending_since_].
    + split; [done|]. split; [by rewrite (flips_other c (active_ a) r)|]. left. split; [done|]. split; [done|lia].
    + split; [done|]. split; [by rewrite E, <-Hp|]. right. split; [done|]. intros [_ ?]. lia.
  - cbn. split; [done|]. split; [by rewrite E|]. right. split; [done|]. by intros [? _].
Qed.

Lemma feed_all_snoc a rs r : feed_all a (rs ++ [r]) = feed (feed_all a rs) r.1 r.2.
Proof. unfold feed_all. by rewrite fold_left_app. Qed.

Lemma feed_all_inv c rs :
  config_valid c → in_time rs → let a := feed_all (mkAlarm c false None) rs in
  config_ a = c ∧ pending_since_ a = streak (flipsb c (active_ a)) None rs.
Proof.
  intros Hc. induction rs as [|r rs IH] using rev_ind; intros Ht; [done|]. cbv zeta. rewrite feed_all_snoc.
  destruct (IH (in_time_init _ _ Ht)) as [H1 H2].
  destruct (feed_step c (feed_all (mkAlarm c false None) rs) rs r Hc Ht H1 H2) as (? & ? & _). done.
Qed.

(** The last thing that held for the hold time was a high reading. *)
Definition raised (c : ThresholdConfig) (rs : list reading) : Prop :=
  ∃ before after, rs = before ++ after ∧ held c (high c) before
    ∧ ∀ q q', after = q ++ q' → ¬ held c (low c) (before ++ q).

Lemma held_exclusive c rs : config_valid c → held c (high c) rs → held c (low c) rs → False.
Proof.
  intros Hc (b & f & d & -> & H1 & _) (b' & f' & d' & E & H2 & _).
  destruct (exists_last (l := f :: d)) as (i & x & Ei); [done|]. destruct (exists_last (l := f' :: d')) as (i' & x' & Ei'); [done|].
  rewrite Ei in H1. rewrite Ei' in H2. rewrite Ei, Ei', !(assoc_L (++)) in E. apply app_inj_tail in E as [_ <-].
  apply Forall_app in H1 as [_ H1]. apply Forall_app in H2 as [_ H2]. rewrite Forall_singleton in H1, H2.
  apply highb_spec in H1. apply lowb_spec in H2. pose proof (flips_other c false x Hc H1). cbn in *. congruence.
Qed.

Lemma raised_snoc c rs r : config_valid c →
  raised c (rs ++ [r]) ↔ held c (high c) (rs ++ [r]) ∨ raised c rs ∧ ¬ held c (low c) (rs ++ [r]).
Proof.
  intros Hc. split.
  - intros (before & after & E & Hh & Hno). destruct after as [|x after _] using rev_ind.
    + rewrite app_nil_r in E. left. by rewrite E.
    + rewrite (assoc_L (++)) in E. apply app_inj_tail in E as [-> ->]. right. split.
      * exists before, after. split; [done|]. split; [done|]. intros q q' ->. apply (Hno q (q' ++ [x])). by rewrite (assoc_L (++)).
      * rewrite <-(assoc_L (++)). apply (Hno (after ++ [x]) []). by rewrite app_nil_r.
  - intros [Hh|[(before & after & -> & Hh & Hno) Hlow]].
    + exists (rs ++ [r]), []. split; [by rewrite app_nil_r|]. split; [done|]. intros q q' E. symmetry in E. apply app_eq_nil in E as [-> _].
      rewrite app_nil_r. intros ?. by eapply held_exclusive.
    + exists before, (after ++ [r]). split; [by rewrite (assoc_L (++))|]. split; [done|]. intros q q' E.
      destruct q' as [|x q' _] using rev_ind.
      * rewrite app_nil_r in E. rewrite <-E, (assoc_L (++)). done.
      * rewrite (assoc_L (++)) in E. apply app_inj_tail in E as [-> _]. by apply (Hno q q').
Qed.

(** C36. A threshold alarm is active exactly when it should be: for every sequence of
    readings in the order of their times, missing ones included, the alarm is active
    after them if and only if at some point the readings had been at or above the
    trigger for the hold time without interruption, and since then they have never been
    at or below the recovery level for the hold time without interruption. *)
Theorem threshold_alarm_exact c a rs :
  new_alarm c = Some a → in_time rs → active_ (feed_all a rs) = true ↔ raised c rs.
Proof.
  intros [Hc ->]%new_alarm_spec. induction rs as [|r rs IH] using rev_ind; intros Ht.
  { split; [done|]. intros (before & after & E & (b & f & d & -> & _) & _). symmetry in E. apply app_eq_nil in E as [E _].
    by apply app_eq_nil in E as [_ E]. }
  pose proof (in_time_init _ _ Ht) as Ht'. specialize (IH Ht'). destruct (feed_all_inv c rs Hc Ht') as [H1 H2].
  pose proof (feed_step c _ rs r Hc Ht H1 H2) as (_ & _ & Hstep).
  rewrite raised_snoc, <-IH, feed_all_snoc by done. clear IH H1 H2. revert Hstep.
  generalize (feed_all (mkAlarm c false None) rs). intros b Hstep.
  destruct Hstep as [[-> Hh]|[-> Hh]]; destruct (active_ b); cbn [flips negb] in *.
  - split; [done|]. intros [?|[_ ?]]; [|done]. exfalso. by eapply held_exclusive.
  - split; [by left|done].
  - split; [by right|done].
  - split; [done|]. by intros [?|[? _]].
Qed.

(** A disk that fills up, a missing reading, and a slow recovery. *)
Definition demo_threshold : ThresholdConfig := mkThreshold 8500 8000 10.
Definition demo_readings : list reading :=
  [(Some 9000, 0); (Some 8600, 5 * MS); (Some 9100, 10 * MS); (Some 7000, 15 * MS); (None, 20 * MS); (Some 7000, 26 * MS)].

Lemma threshold_alarm_exact_witness :
  active_ (feed_all (mkAlarm demo_threshold false None) demo_readings) = true ∧ raised demo_threshold demo_readings.
Proof.
  assert (active_ (feed_all (mkAlarm demo_threshold false None) demo_readings) = true) as H by (vm_compute; reflexivity).
  split; [exact H|]. apply (threshold_alarm_exact demo_threshold (mkAlarm demo_threshold false None) demo_readings); [reflexivity| |exact H].
  repeat constructor; vm_compute; congruence.
Defined.

(** ** Reports *)

Lemma report_loop_spec c i alarms seen values now alarms' seen' reports :
  report_loop c i alarms seen values now = (alarms', seen', reports) →
  length seen = length alarms → length values = length alarms →
  length alarms' = length alarms ∧ length seen' = length alarms
  ∧ (∀ j b, (j, b) ∈ reports → (i <= j < i + length alarms)%nat)
  ∧ ∀ k a s v, alarms !! k = Some a → seen !! k = Some s → values !! k = Some v →
      ∃ a' s' rep, report_one c (i + k) a s v now = (a', s', rep) ∧ alarms' !! k = Some a' ∧ seen' !! k = Some s'
        ∧ ∀ b, ((i + k)%nat, b) ∈ reports ↔ rep = Some b.
Proof.
  revert i seen values alarms' seen' reports. induction alarms as [|a alarms IH]; intros i [|s seen] [|v values] alarms' seen' reports;
    try done; cbn [report_loop].
  { intros [= <- <- <-] _ _. split; [done|]. split; [done|]. split; [|done]. intros j b Hb. by apply not_elem_of_nil in Hb. }
  destruct (report_one c i a s v now) as [[a' s'] rep] eqn:Ho. destruct (report_loop c (S i) alarms seen values now) as [[al se] reps] eqn:El.
  intros [= <- <- <-] [= Hs] [= Hv]. destruct (IH _ _ _ _ _ _ El Hs Hv) as (La & Ls & Hge & Hall).
  split; [cbn; congruence|]. split; [cbn; congruence|].
  assert (∀ j b, (j, b) ∈ match rep with Some b0 => (i, b0) :: reps | None => reps end ↔ j = i ∧ rep = Some b ∨ (j, b) ∈ reps) as Hin.
  { intros j b. destruct rep as [b0|].
    - rewrite elem_of_cons. split; intros [H|H]; auto; [injection H as -> ->|destruct H as [-> [= ->]]]; auto.
    - split; [by right|]. by intros [[_ ?]|?]. }
  split.
  { intros j b [[-> _]|Hj]%Hin; cbn [length]; [lia|]. apply Hge in Hj. lia. }
  intros [|k] a0 s0 v0; cbn.
  - intros [= <-] [= <-] [= <-]. exists a', s', rep. rewrite Nat.add_0_r. split; [done|]. split; [done|]. split; [done|].
    intros b. rewrite Hin. split; [intros [[_ ?]|Hj]; [done|]; apply Hge in Hj; lia|by left].
  - intros Ha Hs0 Hv0. destruct (Hall k a0 s0 v0 Ha Hs0 Hv0) as (x & y & rp & E & Hx & Hy & Hrep).
    exists x, y, rp. replace (i + S k)%nat with (S i + k)%nat by lia. split; [done|]. split; [done|]. split; [done|].
    intros b. rewrite Hin, <-Hrep. split; [intros [[? _]|?]; [lia|done]|by right].
Qed.

Definition set_metrics (m : list Z) (r : Runtime) : Runtime :=
  mkRuntime (config r) (has_resources r) m (thresholds r) (observed r) (began r) (previous_db_failures r) (previous_metadata_failures r).

(** The states that ticks lead to, with the readings of every tick so far; the counters
    change in between. *)
Inductive ticked : Runtime → list (list (option Z) * Z) → Prop :=
  | TickStart c resources m ts t :
      make_thresholds c = Some ts → ticked (mkRuntime c resources m ts (replicate (length all_alarms) false) t 0 0) []
  | TickNext r h m disk memory now durable :
      ticked r h → let r' := set_metrics m r in
      ticked (report_alarms r' disk memory now durable).2 (h ++ [(alarm_values r' disk memory now, now)]).

(** The readings of alarm [k]. *)
Definition column (k : nat) (h : list (list (option Z) * Z)) : list reading := (λ t, (default None (t.1 !! k), t.2)) <$> h.

Definition saw_normal (cfg : ThresholdConfig) (rs : list reading) : Prop := ∃ r, r ∈ rs ∧ low cfg r.

(** What is known of an alarm and of whether it has been reported. *)
Definition alarm_ok (cfg : ThresholdConfig) (rs : list reading) (a : ThresholdAlarm) (seen : bool) : Prop :=
  a = feed_all (mkAlarm cfg false None) rs ∧ config_ a = cfg ∧ (seen = true → active_ a = true ∨ saw_normal cfg rs).

Lemma feed_config a v t : config_ (feed a v t) = config_ a.
Proof. unfold feed. destruct v; [|done]. cbv zeta. destruct (negb _); [done|]. by destruct (_ <=? _). Qed.

Lemma feed_clears a v t : active_ a = true → active_ (feed a v t) = false → low (config_ a) (v, t).
Proof.
  intros Ha. unfold feed. destruct v as [v|]; [|cbn; congruence]. rewrite Ha. cbv zeta.
  destruct (v <=? recovery (config_ a)) eqn:E; cbn [negb]; [|cbn; congruence]. intros _. exists v. split; [done|lia].
Qed.

Lemma normal_level_recovery c k cfg : threshold_configs c !! k = Some cfg → normal_level c k = recovery cfg.
Proof. do 9 (destruct k as [|k]; [by intros [= <-]|]). done. Qed.

Lemma saw_normal_app cfg rs rs' : saw_normal cfg rs ∨ saw_normal cfg rs' → saw_normal cfg (rs ++ rs').
Proof. intros [(r & ? & ?)|(r & ? & ?)]; exists r; (split; [apply elem_of_app|done]); auto. Qed.

Lemma report_one_ok c k cfg rs a s v now a' s' rep :
  threshold_configs c !! k = Some cfg → alarm_ok cfg rs a s → report_one c k a s v now = (a', s', rep) →
  alarm_ok cfg (rs ++ [(v, now)]) a' s' ∧ (s = true → s' = true) ∧ rep = (if s' then Some (active_ a') else None).
Proof.
  intros Hk (Ha & Hc & Hs) Ho. unfold report_one in Ho. rewrite (normal_level_recovery c k cfg Hk) in Ho.
  assert (a' = feed a v now) as Ha'.
  { destruct s; [by injection Ho as <- _ _|]. destruct v as [v|]; [destruct (_ && _)|]; by injection Ho as <- _ _. }
  assert (active_ a = true → active_ a' = true ∨ saw_normal cfg [(v, now)]) as Hact.
  { intros Hon. destruct (active_ a') eqn:E; [by left|right]. exists (v, now). split; [by left|].
    rewrite <-Hc. apply feed_clears; [done|]. by rewrite <-Ha'. }
  assert (s' = true → active_ a' = true ∨ saw_normal cfg (rs ++ [(v, now)])) as Hseen.
  { intros Hs'. destruct s.
    - destruct (Hs eq_refl) as [Hon|?]; [|right; apply saw_normal_app; by left].
      destruct (Hact Hon) as [?|?]; [by left|right; apply saw_normal_app; by right].
    - destruct v as [v|]; [|congruence]. destruct (active_ (feed a (Some v) now)) eqn:E; cbn [negb andb] in Ho.
      { left. by rewrite Ha'. }
      destruct (recovery cfg <? v) eqn:Hv; [congruence|]. right. apply saw_normal_app. right.
      exists (Some v, now). split; [by left|]. exists v. split; [done|]. lia. }
  split; [split; [by rewrite feed_all_snoc, <-Ha|]; split; [by rewrite Ha', feed_config|done]|].
  destruct s; [by injection Ho as <- <- <-|]. destruct v as [v|]; [destruct (_ && _)|]; by injection Ho as <- <- <-.
Qed.

Lemma alarm_values_length r disk memory now : length (alarm_values r disk memory now) = 9%nat.
Proof. done. Qed.

Lemma make_thresholds_spec c ts : make_thresholds c = Some ts → ts = (λ cfg, mkAlarm cfg false None) <$> threshold_configs c.
Proof.
  unfold make_thresholds. intros H. apply mapM_Some in H. induction H as [|cfg a l k Ha _ IH]; [done|].
  apply new_alarm_spec in Ha as [_ ->]. cbn. by rewrite IH.
Qed.

Definition runtime_ok (r : Runtime) (h : list (list (option Z) * Z)) : Prop :=
  length (thresholds r) = 9%nat ∧ length (observed r) = 9%nat
  ∧ ∀ k cfg a s, threshold_configs (config r) !! k = Some cfg → thresholds r !! k = Some a → observed r !! k = Some s →
      alarm_ok cfg (column k h) a s.

Lemma column_snoc k h values now : column k (h ++ [(values, now)]) = column k h ++ [(default None (values !! k), now)].
Proof. unfold column. by rewrite fmap_app. Qed.

(** One tick. *)
Lemma report_alarms_ok r h disk memory now durable :
  runtime_ok r h →
  let values := alarm_values r disk memory now in
  let '(reports, r') := report_alarms r disk memory now durable in
  config r' = config r ∧ runtime_ok r' (h ++ [(values, now)]) ∧ (∀ k b, (k, b) ∈ reports → (k < 9)%nat)
  ∧ ∀ k s, observed r !! k = Some s → ∃ a' s', thresholds r' !! k = Some a' ∧ observed r' !! k = Some s' ∧ (s = true → s' = true)
      ∧ ∀ b, (k, b) ∈ reports ↔ s' = true ∧ b = active_ a'.
Proof.
  intros (Lt & Lo & Hok). cbv zeta. unfold report_alarms.
  destruct (report_loop (config r) 0 (thresholds r) (observed r) (alarm_values r disk memory now) now) as [[al se] reps] eqn:E.
  destruct (report_loop_spec _ _ _ _ _ _ _ _ _ E) as (La & Ls & Hrange & Hall); [congruence|by rewrite Lt|].
  assert (∀ k, (k < 9)%nat → is_Some (thresholds r !! k) ∧ is_Some (observed r !! k) ∧ is_Some (alarm_values r disk memory now !! k)
    ∧ is_Some (threshold_configs (config r) !! k)) as Hsome by (intros k Hk; rewrite !lookup_lt_is_Some; cbn; lia).
  assert (∀ k, (k < 9)%nat → ∃ cfg s a' s' rep, threshold_configs (config r) !! k = Some cfg ∧ observed r !! k = Some s
    ∧ al !! k = Some a' ∧ se !! k = Some s' ∧ alarm_ok cfg (column k (h ++ [(alarm_values r disk memory now, now)])) a' s'
    ∧ (s = true → s' = true) ∧ rep = (if s' then Some (active_ a') else None) ∧ ∀ b, (k, b) ∈ reps ↔ rep = Some b) as Hone.
  { intros k Hk. destruct (Hsome k Hk) as ([a Ha] & [s Hs] & [v Hv] & [cfg Hcfg]).
    destruct (Hall k a s v Ha Hs Hv) as (a' & s' & rep & Ho & Ha' & Hs' & Hrep). cbn [Nat.add] in *.
    destruct (report_one_ok _ _ _ _ _ _ _ _ _ _ _ Hcfg (Hok k cfg a s Hcfg Ha Hs) Ho) as (H1 & H2 & H3).
    exists cfg, s, a', s', rep. rewrite column_snoc, Hv. done. }
  split; [done|]. split.
  - split; [cbn; lia|]. split; [cbn; lia|]. cbn [config thresholds observed]. intros k cfg a s Hcfg Ha Hs.
    assert (k < 9)%nat as Hk by (apply lookup_lt_Some in Ha; lia).
    destruct (Hone k Hk) as (cfg' & s0 & a' & s' & rep & E1 & _ & E2 & E3 & ? & _). congruence.
  - split; [intros k b Hin; apply Hrange in Hin; lia|]. intros k s Hs. assert (k < 9)%nat as Hk by (apply lookup_lt_Some in Hs; lia).
    destruct (Hone k Hk) as (cfg' & s0 & a' & s' & rep & _ & E1 & E2 & E3 & _ & Hmono & -> & Hrep).
    exists a', s'. cbn. split; [done|]. split; [done|]. split; [intros ->; apply Hmono; congruence|]. intros b. rewrite Hrep.
    destruct s'; [|by split; [|intros [? _]]]. split; [by intros [= <-]|by intros [_ ->]].
Qed.

Lemma ticked_ok r h : ticked r h → runtime_ok r h.
Proof.
  induction 1 as [c resources m ts t Hts|r h m disk memory now durable _ IH r'].
  - apply make_thresholds_spec in Hts as ->. split; [done|]. split; [done|]. cbn [config thresholds observed]. intros k cfg a s Hcfg.
    rewrite list_lookup_fmap, Hcfg. intros [= <-] [-> _]%lookup_replicate. done.
  - pose proof (report_alarms_ok r' h disk memory now durable IH) as H.
    destruct (report_alarms r' disk memory now durable) as [reports r1]. by destruct H as (_ & ? & _).
Qed.

(** C38. What is reported of an alarm is its state and is well founded: in every state
    that ticks lead to, a report of alarm [k] carries what the threshold says after all
    of its readings so far; it is reported as cleared only when some known reading has
    been at or below its recovery level, so that missing readings and a first reading
    that is still waiting for its hold time never clear an alarm; and an alarm that has
    been reported once is reported again on every tick, so that a report that could not
    be stored is repeated. *)
Theorem alarm_reports_justified r h disk memory now durable :
  ticked r h →
  let '(reports, r') := report_alarms r disk memory now durable in
  let readings k := column k (h ++ [(alarm_values r disk memory now, now)]) in
  (∀ k b, (k, b) ∈ reports → ∃ cfg, threshold_configs (config r) !! k = Some cfg
     ∧ b = active_ (feed_all (mkAlarm cfg false None) (readings k)) ∧ (b = false → saw_normal cfg (readings k)))
  ∧ (∀ k, observed r !! k = Some true → observed r' !! k = Some true ∧ ∃ b, (k, b) ∈ reports)
  ∧ ∀ k, observed r !! k = Some false → (∃ b, (k, b) ∈ reports) → observed r' !! k = Some true.
Proof.
  intros Ht. pose proof (report_alarms_ok r h disk memory now durable (ticked_ok _ _ Ht)) as H. cbv zeta in H.
  destruct (report_alarms r disk memory now durable) as [reports r']. destruct H as (Hc & (_ & _ & Hok) & Hlt & Hrep).
  destruct (ticked_ok _ _ Ht) as (_ & Lo & _). split; [|split].
  - intros k b Hin. pose proof (Hlt k b Hin) as Hk. destruct (observed r !! k) as [s|] eqn:Hs; [|apply lookup_ge_None in Hs; lia].
    destruct (threshold_configs (config r) !! k) as [cfg|] eqn:Hcfg; [|apply lookup_ge_None in Hcfg; cbn in Hcfg; lia].
    exists cfg. split; [done|].
    destruct (Hrep k s Hs) as (a' & s' & Ha' & Hs' & _ & Hb). apply Hb in Hin as [Es ->]. rewrite Es in Hs'. rewrite Hc in Hok.
    destruct (Hok k cfg a' true Hcfg Ha' Hs') as (Ea & _ & Hsaw). split; [by rewrite Ea at 1|].
    intros Hoff. destruct Hsaw as [?|?]; [done|congruence|done].
  - intros k Hs. destruct (Hrep k true Hs) as (a' & s' & Ha' & Hs' & Hmono & Hb). rewrite Hs', Hmono by done. split; [done|].
    exists (active_ a'). apply Hb. auto.
  - intros k Hs [b Hin]. destruct (Hrep k false Hs) as (a' & s' & Ha' & Hs' & _ & Hb). destruct (proj1 (Hb b) Hin) as [Es _]. by rewrite Hs', Es.
Qed.

Definition demo_monitor : StorageMonitorConfig :=
  mkMonitorConfig 15000 (mkThreshold 8500 8000 10000) (mkThreshold 9500 9000 10000) (mkThreshold 9000 8500 10000) (mkThreshold 9000 8500 10000).
Definition demo_runtime : Runtime :=
  mkRuntime demo_monitor true new_metrics ((λ c, mkAlarm c false None) <$> threshold_configs demo_monitor)
    (replicate 9 false) 0 0 0.
Definition demo_disk (usage : Z) (now : Z) : DiskSnapshot := mkDisk true true false usage 100 0 now.
Definition demo_memory (now : Z) : MemorySnapshot := mkMemory true 100 0 now.

(** A full disk from the start: nothing is said of it until the hold time has passed. *)
Lemma alarm_reports_justified_witness :
  let r1 := (report_alarms demo_runtime (demo_disk 8600 1) (demo_memory 1) 1 []).2 in
  let t := 1 + 10000 * MS in
  ticked r1 [(alarm_values demo_runtime (demo_disk 8600 1) (demo_memory 1) 1, 1)]
  ∧ (∀ b, (0%nat, b) ∉ (report_alarms demo_runtime (demo_disk 8600 1) (demo_memory 1) 1 []).1)
  ∧ (0%nat, true) ∈ (report_alarms r1 (demo_disk 8600 t) (demo_memory t) t []).1
  ∧ observed (report_alarms r1 (demo_disk 8600 t) (demo_memory t) t []).2 !! 0%nat = Some true.
Proof.
  cbv zeta. set (r1 := (report_alarms demo_runtime (demo_disk 8600 1) (demo_memory 1) 1 []).2).
  assert (ticked r1 [(alarm_values demo_runtime (demo_disk 8600 1) (demo_memory 1) 1, 1)]) as Ht.
  { apply (TickNext demo_runtime [] new_metrics (demo_disk 8600 1) (demo_memory 1) 1 []).
    apply (TickStart demo_monitor true new_metrics). vm_compute. reflexivity. }
  split; [exact Ht|]. split; [intros b; apply (bool_decide_unpack _); destruct b; vm_compute; exact I|].
  assert ((0%nat, true) ∈ (report_alarms r1 (demo_disk 8600 (1 + 10000 * MS)) (demo_memory (1 + 10000 * MS)) (1 + 10000 * MS) []).1) as Hin
    by (apply (bool_decide_unpack _); vm_compute; exact I).
  split; [exact Hin|].
  pose proof (alarm_reports_justified r1 _ (demo_disk 8600 (1 + 10000 * MS)) (demo_memory (1 + 10000 * MS)) (1 + 10000 * MS) [] Ht) as H.
  destruct (report_alarms r1 (demo_disk 8600 (1 + 10000 * MS)) (demo_memory (1 + 10000 * MS)) (1 + 10000 * MS) []) as [reports r'].
  destruct H as (_ & _ & H). apply H; [vm_compute; reflexivity|]. exists true. exact Hin.
Defined.
